(* ===== verification/_CoqProject ===== *)
-Q . S2P
Prelude.v
Arrow.v
BloomMasks.v
BloomFilter.v
BloomFold.v
BloomAvx2.v
BloomLookup.v
PartitionSort.v
PartitionLocks.v
BloomBuilder.v
ValueHash.v
Values.v
VectorHash.v
HashTable.v
HashProbe.v
HashFilter.v
HashParallel.v
Storage.v
UseBF.v
CreateBF.v
LogicalPlan.v
NodesManager.v
Dag.v
DagOrder.v
DagDirections.v
DagBuild.v
TransferOptimizer.v
TransferInsert.v
PlanTree.v
TransferPasses.v
TransferCorrect.v
PlanSemantics.v
TransferSound.v
TransferGaps.v
PhysicalPlan.v
Pipelines.v
PipelineExecutor.v
PipelineFlow.v
PipelinePull.v
TransferPipeline.v
StreamingLimit.v
Scheduling.v
Execution.v
TransferAddresses.v
ColumnResolver.v
PlanColumns.v
RemoveColumns.v
RemoveBase.v
RemoveSpec.v
RemoveFrames.v
PlanFilters.v
RemoveCases.v
RemoveCorrect.v
ColumnLifetime.v
CommonAggregates.v
Query.v
