(* ===== verification/Prelude.v ===== *)
(** * A verification development for Predicate Transfer in DuckDB

    The repository is DuckDB with predicate transfer: before a join query runs,
    Bloom filters on the join keys are sent from table to table, forward and
    then backward along a graph of the joins, so that rows without a partner
    are dropped early.  The development models the code this takes, from the
    optimizer pass to the bits of the filters and the events that run the
    query.  Paths below are relative to [src/src] ([.cpp]) and
    [src/src/include/duckdb] ([.hpp]); [pt/] is
    [optimizer/predicate_transfer/].

    ** The program and its parts

    [PredicateTransferOptimizer] ([pt/predicate_transfer_optimizer.cpp]) takes
    a logical plan.  [PreOptimize] asks [NodesManager] for the tables and join
    conditions and [DAGManager] for a transfer graph.  [Optimize] runs a
    forward and a backward pass over it, in which each table gets
    [LogicalCreateBF] and [LogicalUseBF] operators, and puts them into the
    plan.  Three optimizers after it renumber the columns of operators and
    with them those of the filters: [RemoveUnusedColumns],
    [ColumnLifetimeAnalyzer] and [CommonAggregateOptimizer].
    [PhysicalPlanGenerator] makes [PhysicalCreateBF] and
    [PhysicalUseBF] of them.  [BuildPipelines] splits the plan into pipelines,
    [Executor] makes events for these, and the events run.  A
    [PhysicalCreateBF] buffers its rows, hashes the key columns of each chunk
    ([vector_hash.cpp]) and inserts the hashes into its [BlockedBloomFilter]s
    by a builder; as a source it hands its rows on.  A [PhysicalUseBF] hashes
    the same way and keeps the rows whose hash the filter finds.  In a
    pipeline they are called by a [PipelineExecutor], which pushes chunks from
    a source through operators into a sink.

    ** Files

    Definitions have the names the code has; where a function is split, the
    parts have names in lower case.  A vector is a list, a map a [gmap], a
    pointer to a shared object an index or an address, an integer a [Z] with
    its width written out where the code can overflow.

    - [Prelude]: the type [outcome] of C++ code, its loops, machine integers,
      lists, hint databases.  [Arrow]: the routines of Apache Arrow, which is
      not part of the repository, as an interface.
    - Bloom filters ([pt/bloom_filter/bloom_filter.cpp],
      [bloom_filter_avx2.cpp]).  [BloomMasks]: the table of masks.
      [BloomFilter]: [BlockedBloomFilter], creation, insertion, lookup, and
      insertion by threads that interleave.  [BloomFold]: [Fold], and the
      filter as a set of hashes.  [BloomAvx2]: the AVX2 code.  [BloomLookup]:
      lookup of a batch into a selection vector.  [BloomBuilder]: both
      builders.
    - [PartitionSort], [PartitionLocks] ([pt/bloom_filter/partition_util]):
      bucket sort of a batch, and partitions handed out to threads.
    - Hashing.  [ValueHash] ([common/types/hash]): hashes of single values.
      [Values] ([value_operations/comparison_operations.cpp]): values and
      their comparison.  [VectorHash] ([vector_operations/vector_hash.cpp]):
      hashes of columns.
    - Hash filters ([pt/hash_filter/]), the exact alternative to Bloom filters
      of a build with [UseHashFilter].  [HashTable] ([hashtable.cpp]): the
      chained table, filled, finalised and probed; [HashProbe] is its theory.
      [HashParallel]: finalising it with several threads, a step function that
      schedules interleave.  [HashFilter] ([hash_filter.cpp],
      [hash_filter_use_kernel.cpp]): building and using a filter.
    - Operators.  [Storage]: chunks and column data collections.  [UseBF]
      ([physical_use_bf.cpp], [bloom_filter_use_kernel.cpp]) and [CreateBF]
      ([physical_create_bf.cpp]): the two operators at work.
    - Optimizer.  [LogicalPlan]: logical operators.  [NodesManager]
      ([pt/nodes_manager.cpp]).  [Dag] ([pt/dag.cpp], [pt/dag_manager.cpp]):
      the transfer graph; [DagOrder], [DagDirections], [DagBuild] are its
      theory.  [TransferOptimizer] ([pt/predicate_transfer_optimizer.cpp]):
      the passes and the insertion into the plan; [TransferInsert],
      [PlanTree], [TransferPasses], [TransferCorrect], [TransferAddresses] are
      its theory.  [PlanSemantics]: an abstract specification of plans, which
      [TransferSound] shows the optimizer to respect; [TransferGaps]: plans
      where it does not.
    - Optimizers after the transfer.  [PlanColumns]: plans with what these
      change, columns and expressions, where references to columns are
      objects that several places point to.  [RemoveColumns]
      ([optimizer/remove_unused_columns.cpp]): removing the columns nobody
      reads; [RemoveBase], [RemoveSpec], [RemoveFrames], [PlanFilters],
      [RemoveCases], [RemoveCorrect] are its theory, from the store of
      references to the visit of each operator.  [ColumnLifetime]
      ([optimizer/column_lifetime_analyzer.cpp]): projection maps.
      [CommonAggregates] ([optimizer/common_aggregate_optimizer.cpp]).
    - Execution.  [PhysicalPlan] ([physical_plan/plan_create_bf.cpp],
      [plan_use_bf.cpp]): planning.  [ColumnResolver]
      ([column_binding_resolver.cpp]): the positions of the filters' columns
      in the chunks of the operators.  [Pipelines] ([meta_pipeline.cpp],
      [pipeline.cpp], the functions [BuildPipelines]): pipelines.
      [Scheduling] ([parallel/executor.cpp]): events.  [Execution]
      ([parallel/event.cpp]): events as they run, a step relation.  [Query]:
      all of it together.
    - Tasks.  [PipelineExecutor] ([parallel/pipeline_executor.cpp], the tasks
      and batch indexes of [pipeline.cpp]): the executor of a pipeline, with
      its buffers as a store, and the laws of operators, sources and sinks;
      [PipelineFlow] and [PipelinePull] are its theory, pushing into a sink
      and fetching without one.  [TransferPipeline]: [CreateBF] and [UseBF] in
      a pipeline.  [StreamingLimit] ([physical_streaming_limit.cpp], part of
      [physical_limit.cpp], [IsOrderDependent], [OperatorCachingAllowed]): an
      operator that ends a pipeline early.

    ** What is shown

    - The optimizer.  [predicate_transfer_keeps_results]: for joins over scans
      ([transfer_plan]: below joins only projections and filters, no MARK,
      SINGLE or delim joins, conditions still where their tables meet) the plan
      with filters gives the rows of the plan without, in their order, whatever
      the filters hold, if only they accept the keys they are built from.
      [uses_are_served_and_justified], [every_edge_gives_a_use],
      [Optimize_only_adds_filters]: which operators are added.
      [Build_spanning_forest]: the nodes and edges of the graph are the tables
      and the equalities of the plan, none missed, and its order is a maximum
      spanning forest of it.  [filters_follow_the_passes],
      [outer_join_sides_are_protected]: its directions.
    - The filters.  [no_matching_row_is_lost]: a row with the key of a row that
      went into [PhysicalCreateBF] passes [PhysicalUseBF], for any threads and
      any order; this is the promise the optimizer relies on.  It rests on
      [inserted_hash_is_found], [parallel_builder_is_single_threaded],
      [equal_keys_hash_equal] and their like, by the lemmas they share.
    - The operators.  [use_bf_keeps_accepted_rows],
      [parallel_source_hands_on_all_rows].  [filters_hash_joined_columns]: the
      positions the resolver gives a filter are those of the columns of one
      join condition per key, on both sides.
    - The columns of filters.  [unused_columns_keep_filters]: when columns are
      removed, no dangling pointer is followed, and each filter is moved to
      the new numbers of the columns it was on.
      [optimizers_keep_filters]: so do the passes after it, one after the
      other, where no aggregates became equal: no column is projected away
      that a filter above still hashes.
    - Pipelines at work.  [pipeline_delivers_every_row]: tasks finish, and a
      sink gets exactly the rows of the source sent through the operators,
      however often operators, source and sink interrupt;
      [pull_delivers_every_row] says so for a result that is fetched.
      [transfer_pipeline_exact]: a pipeline of the transfer buffers exactly the
      rows its filters accept.  [streaming_limit_takes_a_window].
    - Hash filters.  [hash_filter_exact]: exactly the rows with a partner pass;
      [parallel_finalize_exact]: for threads that interleave, too.
    - The run of a query.  [optimized_plans_are_plannable],
      [every_operator_is_planned_once], [pipelines_wait_for_filters]: planning
      ends though operators are planned out of order, and no pipelines wait
      for each other.  [optimized_queries_use_filled_filters],
      [optimized_queries_come_to_their_end]: under any interleaving of events,
      filters are used only when they are filled, and all pipelines complete.
    - Errors.  What goes wrong is stated too, in general where that is
      possible: lost chunks of a sequential source
      ([sequential_source_loses_chunks]), the array comparison and hash, a
      cancelled query that hangs ([cancelling_does_not_return]), rows that
      operators keep and a pipeline drops when an operator ends it
      ([finished_pipeline_drops_kept_rows]), aggregates that are merged and
      leave a filter with the number of another column
      ([merged_aggregates_lose_filters]), a hash filter that forgets the rows
      of all finalize tasks but the last ([only_last_task_counts]).  Single
      queries show the rest, as examples: results that change below a LIMIT
      or a disjunction ([TransferGaps]), and a plan that is executed twice
      ([executing_again_is_undefined]).

    ** Interfaces and hypotheses

    What the code gets from elsewhere is a class, with its laws in a second
    class where a theorem needs some, and an instance that meets them:
    [ArrowBits]; [RandomSource] for pcg32; [ColumnCopy] for the copy functions
    of a collection; [StdOrder] for the order of unordered containers and of
    equal elements after [std::sort]; [CardinalityEstimator];
    [EventMapOrder]; [OtherPlans], [PhysicalOps] and [SinkEvents] for the
    planning and the virtual functions of other operators; [ResolverFields] for
    the fields of particular operators; [TableKeys], with the instance for
    [Cells], and [TupleChunks] for keys and rows of a hash table; [Chunks] and
    the records [operator_laws], [source_laws] and [sink_laws] for what a
    pipeline executor asks of the parts of a pipeline;
    [PlanSemantics] and [FilterContents] for what tables, conditions and
    filters hold.  Theorems on the optimizer take plans that
    are well formed ([plan_wf]: distinct addresses, bound columns, renames
    without cycles), conditions that are distinct ([distinct_comparisons]), a
    plan that is the one [PreOptimize] saw up to what the optimizers between
    the passes change ([plan_now]), and for execution that both sides of a
    condition are below the same nodes ([joined_alike]), that operators have
    the number of children their kind needs ([shaped]), and that the
    optimizers after the transfer do not move a use below a creator it depends
    on ([keeps_plannable]).  Theorems on the optimizers after it take plans
    that pass an executable test ([removable], [optimizable]): references are
    columns of the children, the columns of a filter are read above it, as
    join keys are, tables, references and filters occur once, and projection
    maps are not set yet.

    ** Bounds and fuel

    Loops over containers are structural.  Loops that are not take fuel, and
    every theorem says that they return: [set_free_bit] retries until a random
    bit is free, and returns with enough fuel for draws that are fair;
    [count_batches], [choose_folds], [Fold_loop] have the number of blocks or
    their logarithm; [basic_decoder] the width of a word; [append_loop] and
    [list_rest] the rows left; [find_rename] the number of renames;
    [attach_loop] and [root_loop] the number of tables; [CreatePlan] has
    the square of the number of operators, as a chain of calls passes each
    creator at most once, and between two creators goes down the plan;
    [BuildPipelines] the number of physical operators, as it goes to operators
    that were made before; [GetMetaPipelines] the number of meta pipelines,
    more than the depth of their tree; [scan_loop] the number of rows, more
    than the longest chain has; [VisitOperator] of the removal of columns
    the depth of the plan, more for what it inserts; [clear_loop] and
    [extract_loop] the length of the list they erase from.  The loops of a pipeline executor have no
    bound of their own: operators say how often they want to be called, source
    and sink how often they block, and the theorems give fuel that is enough
    for these numbers.  [wait_destroyed] has no bound: it is
    shown not to end.

    ** Not modelled

    - The code under [External] and [SmalltoLarge], which is not compiled in;
      the lists of filters the optimizer keeps under [UseHashFilter], which
      differ from those of Bloom filters by their type only; functions nobody calls ([InsertCreateBFOperator],
      [RandomRoot], [GetNeighbors]); printing and profiling.
    - Assertions of debug builds ([D_ASSERT], [ARROW_DCHECK]).
    - How columns are laid out in buffers and spilled to disk; sequence and
      FSST vectors.
    - Planning of other operators, which is the interface [OtherPlans], and
      [BuildPipelines] of operators that have their own and are not joins:
      unions, CTEs, delim and IE joins, EXPORT and EXECUTE.
    - Errors of tasks, and how a blocked task is woken up; the tasks of an
      event are one step of [Execution], while what they do is modelled in
      [CreateBF], [UseBF] and [PipelineExecutor].  Memory is sequentially
      consistent.
    - The optimizers after the transfer that do not touch the columns filters
      are on: the rewriting of IN clauses and common subexpressions;
      [RemoveDuplicateGroups], which renumbers groups only, while filters are
      on aggregates only where there are none; compressed materialization,
      which needs statistics, whose propagation is commented out.
    - Parser, binder, rewrite rules and join ordering, catalog, storage, transactions,
      functions, extensions: DuckDB code that predicate transfer does not
      change. *)

From stdpp Require Export base tactics numbers list gmap sets strings sorting.

Declare Scope machine_scope.
Delimit Scope machine_scope with machine.
Local Open Scope Z_scope.

(** ** Outcomes of C++ code

    [Ret] is a normal return, [Throw] a C++ exception with its message,
    [Undef] an access the language gives no meaning to (a null pointer, an
    index out of range), and [NoFuel] an iteration bound that was reached. *)

Inductive outcome (A : Type) : Type :=
| Ret (a : A)
| Throw (what : string)
| Undef
| NoFuel.
Arguments Ret {A} a.
Arguments Throw {A} what.
Arguments Undef {A}.
Arguments NoFuel {A}.

Definition obind {A B : Type} (m : outcome A) (k : A → outcome B) : outcome B :=
  match m with
  | Ret a => k a
  | Throw w => Throw w
  | Undef => Undef
  | NoFuel => NoFuel
  end.

Notation "'let*' x := m 'in' k" := (obind m (fun x => k))
  (at level 10, x pattern, k at level 200) : machine_scope.

(** An access that must be defined. *)
Definition deref {A : Type} (o : option A) : outcome A :=
  match o with Some a => Ret a | None => Undef end.

(** [vector::operator[]] checks its index. *)
Definition checked {A : Type} (o : option A) : outcome A :=
  match o with Some a => Ret a | None => Throw "Attempted to access index within vector" end.

Definition vec_at {A : Type} (l : list A) (i : nat) : outcome A := checked (l !! i).

(** A loop over a list whose body may stop with an exception. *)
Fixpoint ofold {A S : Type} (f : S → A → outcome S) (l : list A) (s : S) : outcome S :=
  match l with
  | [] => Ret s
  | a :: l => obind (f s a) (ofold f l)
  end.

(** Run the monad without unfolding the operations. *)
Ltac orun := cbn [obind deref checked].

Lemma obind_Ret {A B} (m : outcome A) (k : A → outcome B) (b : B) :
  obind m k = Ret b ↔ ∃ a, m = Ret a ∧ k a = Ret b.
Proof. destruct m; simpl; split; intros H; try done; eauto; destruct H as (? & ? & ?); by simplify_eq. Qed.

Lemma deref_Ret {A} (o : option A) (a : A) : deref o = Ret a ↔ o = Some a.
Proof. destruct o; naive_solver. Qed.

(** A loop preserves what every iteration preserves, and is defined when
    every iteration is. *)
Lemma ofold_inv {A S} (P : S → Prop) (f : S → A → outcome S) (l : list A) (s : S) :
  P s → (∀ s a, P s → a ∈ l → ∃ s', f s a = Ret s' ∧ P s') →
  ∃ s', ofold f l s = Ret s' ∧ P s'.
Proof.
  revert s. induction l as [|a l IH]; intros s Hs Hf; simpl; [by eauto|].
  destruct (Hf s a Hs) as (s1 & -> & Hs1); [set_solver|]. simpl.
  apply IH; [done|]. intros; apply Hf; set_solver.
Qed.

Lemma ofold_Ret {A S} (f : S → A → S) (l : list A) (s : S) :
  ofold (λ s a, Ret (f s a)) l s = Ret (fold_left f l s).
Proof. revert s. induction l; intros; simpl; auto. Qed.

Lemma ofold_app {A S} (f : S → A → outcome S) (l1 l2 : list A) (s : S) :
  ofold f (l1 ++ l2) s = obind (ofold f l1 s) (ofold f l2).
Proof.
  revert s. induction l1 as [|a l1 IH]; intros s; simpl; [done|].
  destruct (f s a); simpl; auto.
Qed.

(** The same with an invariant on the part of the list already visited. *)
Lemma ofold_prefix {A S} (I : list A → S → Prop) (f : S → A → outcome S) (l : list A) (s : S) :
  I [] s →
  (∀ pre x s, (∃ post, l = pre ++ x :: post) → I pre s → ∃ s', f s x = Ret s' ∧ I (pre ++ [x]) s') →
  ∃ s', ofold f l s = Ret s' ∧ I l s'.
Proof.
  intros H0 Hstep.
  assert (∀ post pre s, l = pre ++ post → I pre s → ∃ s', ofold f post s = Ret s' ∧ I l s') as Hloop; [|by apply (Hloop l [])].
  clear H0. induction post as [|x post IH]; intros pre s1 El Hs; [exists s1; by rewrite El, app_nil_r|].
  destruct (Hstep pre x s1) as (s2 & E & Hs2); [eauto|done|]. simpl. rewrite E. orun.
  apply (IH (pre ++ [x])); [by rewrite <- app_assoc|done].
Qed.

Lemma ofold_ext_in {A T} (f g : T → A → outcome T) (l : list A) (s : T) :
  (∀ s a, a ∈ l → f s a = g s a) → ofold f l s = ofold g l s.
Proof.
  revert s. induction l as [|a l IH]; intros s Hfg; [done|]. cbn [ofold]. rewrite Hfg by set_solver.
  destruct (g s a); [|done..]. apply IH. intros; apply Hfg; set_solver.
Qed.

(** The rule for a counted loop: an invariant indexed by the loop counter. *)
Lemma ofold_seqZ {T} (I : Z → T → Prop) (f : T → Z → outcome T) (a n : Z) (s : T) :
  0 ≤ n → I a s → (∀ i s, a ≤ i < a + n → I i s → ∃ s', f s i = Ret s' ∧ I (i + 1) s') →
  ∃ s', ofold f (seqZ a n) s = Ret s' ∧ I (a + n) s'.
Proof.
  intros Hn. rewrite <-(Z2Nat.id n Hn). generalize (Z.to_nat n). clear n Hn. intros n.
  revert a s. induction n as [|n IH]; intros a s Hs Hf.
  { rewrite seqZ_nil by lia. exists s. by rewrite Z.add_0_r. }
  rewrite seqZ_cons by lia. cbn [ofold]. destruct (Hf a s) as (s1 & -> & Hs1); [lia|done|]. cbn [obind].
  replace (Z.pred (Z.of_nat (S n))) with (Z.of_nat n) by lia.
  destruct (IH (Z.succ a) s1) as (s' & E & Hs'); [done|intros; apply Hf; [lia|done]|].
  exists s'. split; [done|]. by replace (a + Z.of_nat (S n)) with (Z.succ a + Z.of_nat n) by lia.
Qed.

(** ** Fixed-width unsigned integers

    A [w]-bit unsigned value is a [Z] in [0, 2^w); [wrap] is the reduction
    the C++ arithmetic performs. *)

Definition fits (w z : Z) : Prop := 0 ≤ z < 2 ^ w.
Definition wrap (w z : Z) : Z := z mod 2 ^ w.
Abbreviation u64 := (wrap 64).
Abbreviation u32 := (wrap 32).
Abbreviation u16 := (wrap 16).

#[export] Instance fits_dec w z : Decision (fits w z).
Proof. unfold fits. apply _. Defined.

Create HintDb fits.
Create Rewrite HintDb bits.

Lemma wrap_fits w z : 0 ≤ w → fits w (wrap w z).
Proof. intros. apply Z.mod_pos_bound. lia. Qed.

Lemma wrap_id w z : fits w z → wrap w z = z.
Proof. apply Z.mod_small. Qed.

Lemma testbit_above w z i : fits w z → w ≤ i → Z.testbit z i = false.
Proof.
  intros [H0 H1] Hi.
  destruct (Z.lt_ge_cases w 0) as [Hw|Hw].
  { rewrite Z.pow_neg_r in H1 by lia. lia. }
  rewrite <-(Z.mod_small z (2 ^ w)) by done. apply Z.mod_pow2_bits_high. lia.
Qed.

(** A nonnegative number fits in [w] bits when no bit at or above [w] is set. *)
Lemma fits_bits w z :
  0 ≤ w → 0 ≤ z → (∀ i, w ≤ i → Z.testbit z i = false) → fits w z.
Proof.
  intros Hw Hz Hb. split; [done|].
  destruct (Z.eq_dec z 0) as [->|]; [lia|].
  apply Z.log2_lt_pow2; [lia|].
  destruct (Z.lt_ge_cases (Z.log2 z) w) as [|Hl]; [done|].
  specialize (Hb _ Hl). rewrite Z.bit_log2 in Hb by lia. done.
Qed.

Lemma fits_land_l w a b : fits w a → fits w (Z.land a b).
Proof.
  intros Ha. destruct (Z.lt_ge_cases w 0) as [Hw|Hw].
  { destruct Ha. rewrite Z.pow_neg_r in * by lia. lia. }
  apply fits_bits; [done| |].
  - apply Z.land_nonneg. left. apply Ha.
  - intros i Hi. rewrite Z.land_spec, (testbit_above w a) by done. done.
Qed.

Lemma fits_land_r w a b : fits w b → fits w (Z.land a b).
Proof. rewrite Z.land_comm. apply fits_land_l. Qed.

Lemma fits_lor w a b : 0 ≤ w → fits w a → fits w b → fits w (Z.lor a b).
Proof.
  intros Hw Ha Hb. apply fits_bits; [done| |].
  - apply Z.lor_nonneg. split; [apply Ha|apply Hb].
  - intros i Hi. rewrite Z.lor_spec, (testbit_above w a), (testbit_above w b); done.
Qed.

Lemma fits_lxor w a b : 0 ≤ w → fits w a → fits w b → fits w (Z.lxor a b).
Proof.
  intros Hw Ha Hb. apply fits_bits; [done| |].
  - apply Z.lxor_nonneg. split; intros; [apply Hb|apply Ha].
  - intros i Hi. rewrite Z.lxor_spec, (testbit_above w a), (testbit_above w b); done.
Qed.

Lemma fits_shiftr w k a : 0 ≤ k → fits w a → fits w (Z.shiftr a k).
Proof.
  intros Hk [H0 H1]. rewrite Z.shiftr_div_pow2 by done.
  split; [apply Z.div_pos; lia|].
  apply Z.div_lt_upper_bound; [lia|]. nia.
Qed.

Lemma fits_mono w w' a : 0 ≤ w ≤ w' → fits w a → fits w' a.
Proof. intros Hw [H0 H1]. split; [done|]. pose proof (Z.pow_le_mono_r 2 w w'). lia. Qed.

Lemma fits_ones w : 0 ≤ w → fits w (Z.ones w).
Proof. intros. rewrite Z.ones_equiv. unfold fits. lia. Qed.

Lemma fits_0 w : 0 ≤ w → fits w 0.
Proof. unfold fits. lia. Qed.

#[export] Hint Resolve wrap_fits fits_land_l fits_lor fits_lxor fits_shiftr fits_ones fits_0 : fits.
#[export] Hint Extern 5 (_ ≤ _) => lia : fits.
#[export] Hint Rewrite Z.land_spec Z.lor_spec Z.lxor_spec Z.testbit_0_l : bits.
#[export] Hint Rewrite Z.shiftr_spec Z.shiftl_spec using lia : bits.

(** Two [w]-bit values are equal when their [w] bits are. *)
Lemma fits_ext w a b :
  fits w a → fits w b → (∀ i, 0 ≤ i < w → Z.testbit a i = Z.testbit b i) → a = b.
Proof.
  intros Ha Hb Hab. apply Z.bits_inj'. intros i Hi.
  destruct (Z.lt_ge_cases i w); [auto|].
  by rewrite (testbit_above w a), (testbit_above w b).
Qed.

(** Masking with [2^k - 1] is reduction modulo [2^k]. *)
Lemma land_pow2_pred a k : 0 ≤ k → Z.land a (2 ^ k - 1) = a mod 2 ^ k.
Proof.
  intros. rewrite <-Z.land_ones by done. f_equal. rewrite Z.ones_equiv. lia.
Qed.

(** [b] has all the bits of [m]: the membership test of a Bloom filter block. *)
Definition covers (b m : Z) : bool := Z.land b m =? m.

Lemma covers_spec b m :
  covers b m = true ↔ ∀ i, 0 ≤ i → Z.testbit m i = true → Z.testbit b i = true.
Proof.
  unfold covers. rewrite Z.eqb_eq. split.
  - intros H i Hi Hm. rewrite <-H, Z.land_spec in Hm. by apply andb_true_iff in Hm as [? _].
  - intros H. apply Z.bits_inj'. intros i Hi. rewrite Z.land_spec.
    specialize (H i Hi). destruct (Z.testbit m i); [by rewrite H|apply andb_false_r].
Qed.

Lemma covers_lor b x m : covers b m = true → covers (Z.lor b x) m = true.
Proof.
  rewrite !covers_spec. intros H i Hi Hm. rewrite Z.lor_spec, H by done. done.
Qed.

Lemma covers_lor_self b m : covers (Z.lor b m) m = true.
Proof. rewrite covers_spec. intros i Hi Hm. rewrite Z.lor_spec, Hm. apply orb_true_r. Qed.

Lemma covers_0 m : m ≠ 0 → covers 0 m = false.
Proof. intros. unfold covers. rewrite Z.land_0_l. apply Z.eqb_neq. lia. Qed.

(** ** Counting set bits *)

(** [cnt f lo n] is the number of positions in [lo, lo+n) where [f] holds. *)
Fixpoint cnt (f : Z → bool) (lo : Z) (n : nat) : Z :=
  match n with
  | O => 0
  | S n => Z.b2z (f lo) + cnt f (lo + 1) n
  end.

Lemma cnt_bound f lo n : 0 ≤ cnt f lo n ≤ Z.of_nat n.
Proof.
  revert lo. induction n as [|n IH]; intros lo; simpl; [lia|].
  specialize (IH (lo + 1)). destruct (f lo); simpl; lia.
Qed.

Lemma cnt_ext f g lo n :
  (∀ i, lo ≤ i < lo + Z.of_nat n → f i = g i) → cnt f lo n = cnt g lo n.
Proof.
  revert lo. induction n as [|n IH]; intros lo H; simpl; [done|].
  rewrite (H lo) by lia. f_equal. apply IH. intros. apply H. lia.
Qed.

Lemma cnt_shift f g lo lo' n :
  (∀ i, 0 ≤ i < Z.of_nat n → f (lo + i) = g (lo' + i)) → cnt f lo n = cnt g lo' n.
Proof.
  revert lo lo'. induction n as [|n IH]; intros lo lo' H; simpl; [done|].
  pose proof (H 0 ltac:(lia)) as H0. rewrite !Z.add_0_r in H0. rewrite H0. f_equal.
  apply IH. intros i Hi.
  replace (lo + 1 + i) with (lo + (1 + i)) by lia.
  replace (lo' + 1 + i) with (lo' + (1 + i)) by lia. apply H. lia.
Qed.

Lemma cnt_app f lo n m : cnt f lo (n + m) = cnt f lo n + cnt f (lo + Z.of_nat n) m.
Proof.
  revert lo. induction n as [|n IH]; intros lo; simpl.
  - by rewrite Z.add_0_r.
  - rewrite IH. replace (lo + 1 + Z.of_nat n) with (lo + Z.of_nat (S n)) by lia. lia.
Qed.

Lemma cnt_succ_r f lo n : cnt f lo (S n) = cnt f lo n + Z.b2z (f (lo + Z.of_nat n)).
Proof. rewrite <-Nat.add_1_r, cnt_app. simpl. lia. Qed.

(** Sliding a window of length [n] by one position. *)
Lemma cnt_slide f lo n :
  cnt f (lo + 1) n = cnt f lo n - Z.b2z (f lo) + Z.b2z (f (lo + Z.of_nat n)).
Proof. pose proof (cnt_succ_r f lo n) as H. simpl in H. lia. Qed.

Lemma cnt_false f lo n :
  (∀ i, lo ≤ i < lo + Z.of_nat n → f i = false) → cnt f lo n = 0.
Proof.
  revert lo. induction n as [|n IH]; intros lo H; simpl; [done|].
  rewrite (H lo) by lia. simpl. apply IH. intros. apply H. lia.
Qed.

Lemma cnt_pos_exists f lo n :
  0 < cnt f lo n → ∃ i, lo ≤ i < lo + Z.of_nat n ∧ f i = true.
Proof.
  revert lo. induction n as [|n IH]; intros lo; simpl; [lia|].
  destruct (f lo) eqn:E; simpl.
  - intros _. exists lo. split; [lia|done].
  - intros (i & ? & ?)%IH. exists i. split; [lia|done].
Qed.

(** Setting one bit that was clear adds one to the count. *)
Lemma cnt_set f g p lo n :
  lo ≤ p < lo + Z.of_nat n → f p = false →
  (∀ i, lo ≤ i < lo + Z.of_nat n → g i = (p =? i) || f i) →
  cnt g lo n = cnt f lo n + 1.
Proof.
  revert lo. induction n as [|n IH]; intros lo Hp Hf Hg; simpl; [lia|].
  rewrite (Hg lo) by lia. destruct (Z.eqb_spec p lo) as [->|Hne].
  - rewrite Hf. simpl.
    rewrite (cnt_ext g f (lo + 1) n); [lia|].
    intros i Hi. rewrite Hg by lia. by rewrite (proj2 (Z.eqb_neq lo i)) by lia.
  - simpl. rewrite (IH (lo + 1)); [lia|lia|done|]. intros i Hi. apply Hg. lia.
Qed.

(** ** Byte arrays *)

Definition bytes_ok (bs : list Z) : Prop := Forall (fits 8) bs.

(** Bit [i] of a byte array, least significant bit of each byte first. *)
Definition byte_at (bs : list Z) (n : nat) : Z := default 0 (bs !! n).

Definition bit_at (bs : list Z) (i : Z) : bool :=
  Z.testbit (byte_at bs (Z.to_nat (i / 8))) (i mod 8).

(** The 64-bit little-endian word stored at byte [off]. *)
Definition load64 (bs : list Z) (off : Z) : Z :=
  little_endian_to_Z 8 (take 8 (drop (Z.to_nat off) bs)).

Lemma byte_at_fits bs n : bytes_ok bs → fits 8 (byte_at bs n).
Proof.
  intros H. unfold byte_at. destruct (bs !! n) as [b|] eqn:E; simpl.
  - eapply Forall_lookup_1; eauto.
  - by apply fits_0.
Qed.

Lemma load64_bytes bs off :
  bytes_ok bs → bytes_ok (take 8 (drop (Z.to_nat off) bs)).
Proof. intros H. by apply Forall_take, Forall_drop. Qed.

Lemma load64_testbit bs off i :
  bytes_ok bs → 0 ≤ off → 0 ≤ i < 64 → off + 8 ≤ Z.of_nat (length bs) →
  Z.testbit (load64 bs off) i = bit_at bs (8 * off + i).
Proof.
  intros Hb Hoff Hi Hlen. unfold load64, bit_at.
  assert (0 ≤ i / 8 < 8) by (split; [apply Z.div_pos|apply Z.div_lt_upper_bound]; lia).
  assert (Z.to_nat off + Z.to_nat (i / 8) < length bs)%nat by lia.
  destruct (lookup_lt_is_Some_2 bs (Z.to_nat off + Z.to_nat (i / 8))) as [b Hbi]; [done|].
  rewrite (little_endian_to_Z_spec 8 _ i b); [|lia|lia| |].
  - replace ((8 * off + i) / 8) with (off + i / 8)
      by (rewrite Z.mul_comm, Z.div_add_l; lia).
    replace ((8 * off + i) mod 8) with (i mod 8)
      by (rewrite Z.add_comm, Z.mul_comm, Z.mod_add; lia).
    rewrite Z2Nat.inj_add by lia. unfold byte_at. by rewrite Hbi.
  - by apply load64_bytes.
  - rewrite lookup_take_lt by lia. by rewrite lookup_drop.
Qed.

Lemma load64_fits bs off :
  bytes_ok bs → 0 ≤ off → off + 8 ≤ Z.of_nat (length bs) → fits 64 (load64 bs off).
Proof.
  intros Hb Hoff Hlen. unfold load64.
  pose proof (little_endian_to_Z_bound 8 (take 8 (drop (Z.to_nat off) bs))) as H.
  rewrite length_take, length_drop in H.
  replace (Z.of_nat (8 `min` (length bs - Z.to_nat off)) * 8) with 64 in H by lia.
  apply H; [lia|]. by apply load64_bytes.
Qed.

(** ** More counting *)

Lemma cnt_lt_exists f lo n :
  cnt f lo n < Z.of_nat n → ∃ i, lo ≤ i < lo + Z.of_nat n ∧ f i = false.
Proof.
  revert lo. induction n as [|n IH]; intros lo Hc; simpl in Hc; [lia|].
  destruct (f lo) eqn:E; simpl in Hc.
  - destruct (IH (lo + 1)) as (i & ? & ?); [lia|]. exists i. split; [lia|done].
  - exists lo. split; [lia|done].
Qed.

(** ** Lists *)

Lemma alter_as_insert {A} (f : A → A) (l : list A) i x :
  l !! i = Some x → alter f i l = <[i := f x]> l.
Proof.
  intros Hx. apply list_eq. intros j. destruct (decide (i = j)) as [<-|Hne].
  - rewrite list_lookup_alter_eq, list_lookup_insert_eq, Hx; [done|]. by eapply lookup_lt_Some.
  - by rewrite list_lookup_alter_ne, list_lookup_insert_ne.
Qed.

Lemma existsb_set_eq {A} (p : A → bool) (l1 l2 : list A) :
  (∀ x, x ∈ l1 ↔ x ∈ l2) → existsb p l1 = existsb p l2.
Proof.
  intros Heq. apply eq_true_iff_eq. rewrite !existsb_exists.
  setoid_rewrite <-list_elem_of_In. split; intros (x & ? & ?); exists x; split; auto; by apply Heq.
Qed.

(** Reading an array of words at a [Z] index, zero outside. *)
Definition blk (bs : list Z) (z : Z) : Z := byte_at bs (Z.to_nat z).

Lemma blk_lookup bs (z : Z) b : bs !! Z.to_nat z = Some b → blk bs z = b.
Proof. unfold blk, byte_at. by intros ->. Qed.

Lemma lookup_blk bs (z : Z) : 0 ≤ z < Z.of_nat (length bs) → bs !! Z.to_nat z = Some (blk bs z).
Proof.
  intros Hz. destruct (lookup_lt_is_Some_2 bs (Z.to_nat z)) as [b Hb]; [lia|].
  by rewrite (blk_lookup _ _ _ Hb).
Qed.

Lemma blk_fits w bs z : 0 ≤ w → Forall (fits w) bs → fits w (blk bs z).
Proof.
  intros Hw Hb. unfold blk, byte_at. destruct (bs !! _) eqn:E; simpl; [|by apply fits_0].
  by eapply Forall_lookup_1.
Qed.

Lemma blk_insert bs z y v :
  0 ≤ z < Z.of_nat (length bs) → 0 ≤ y →
  blk (<[Z.to_nat z := v]> bs) y = if z =? y then v else blk bs y.
Proof.
  intros Hz Hy. unfold blk, byte_at. destruct (Z.eqb_spec z y) as [->|Hne].
  - by rewrite list_lookup_insert_eq by lia.
  - by rewrite list_lookup_insert_ne by lia.
Qed.

(** Bit [i] of an array of 64-bit blocks. *)
Definition block_bit (bs : list Z) (i : Z) : bool := Z.testbit (blk bs (i / 64)) (i mod 64).

(** The bytes of an array of 64-bit blocks in memory. *)
Definition block_bytes (bs : list Z) : list Z := concat (map (Z_to_little_endian 8 8) bs).

Lemma le8_length b : length (Z_to_little_endian 8 8 b) = 8%nat.
Proof. done. Qed.

Lemma block_bytes_length bs : length (block_bytes bs) = (8 * length bs)%nat.
Proof.
  unfold block_bytes. induction bs as [|b bs IH]; cbn [map concat]; [done|].
  rewrite length_app, IH, length_cons, le8_length. lia.
Qed.

Lemma block_bytes_ok bs : bytes_ok (block_bytes bs).
Proof.
  unfold block_bytes, bytes_ok. induction bs as [|b bs IH]; cbn [map concat]; [constructor|].
  apply Forall_app. split; [|done]. apply (Z_to_little_endian_bound 8 8 b); lia.
Qed.

Lemma block_bytes_lookup bs (k m : nat) b :
  bs !! k = Some b → (m < 8)%nat →
  block_bytes bs !! (8 * k + m)%nat = Some (Z.land (Z.shiftr b (Z.of_nat m * 8)) (Z.ones 8)).
Proof.
  unfold block_bytes. revert k. induction bs as [|b0 bs IH]; intros [|k] Hb Hm; simplify_eq.
  - cbn [map concat]. rewrite lookup_app_l by (rewrite le8_length; lia).
    replace (8 * 0 + m)%nat with m by lia.
    apply Z_to_little_endian_lookup_Some; [lia|lia|]. split; [lia|]. by injection Hb as ->.
  - cbn [map concat]. rewrite lookup_app_r, le8_length by (rewrite le8_length; lia).
    replace (8 * S k + m - 8)%nat with (8 * k + m)%nat by lia. by apply IH.
Qed.

Lemma block_bytes_bit bs i :
  0 ≤ i < 64 * Z.of_nat (length bs) → bit_at (block_bytes bs) i = block_bit bs i.
Proof.
  intros Hi. unfold bit_at, block_bit, byte_at.
  pose proof (Z_div_mod_eq_full i 64). pose proof (Z.mod_pos_bound i 64 ltac:(lia)).
  pose proof (Z_div_mod_eq_full (i mod 64) 8). pose proof (Z.mod_pos_bound (i mod 64) 8 ltac:(lia)).
  assert (0 ≤ i / 64 < Z.of_nat (length bs)) by lia.
  assert (0 ≤ i mod 64 / 8 < 8) by lia.
  replace (i / 8) with (8 * (i / 64) + i mod 64 / 8)
    by (apply (Z.div_unique_pos _ _ _ ((i mod 64) mod 8)); lia).
  replace (i mod 8) with ((i mod 64) mod 8)
    by (apply (Z.mod_unique_pos _ _ (8 * (i / 64) + i mod 64 / 8)); lia).
  rewrite Z2Nat.inj_add, Z2Nat.inj_mul by lia. change (Z.to_nat 8) with 8%nat.
  rewrite (block_bytes_lookup bs _ _ (blk bs (i / 64))); [|by apply lookup_blk|lia].
  cbv [from_option id]. rewrite Z.land_spec, Z.ones_spec_low, andb_true_r by lia.
  rewrite Z.shiftr_spec by lia. f_equal. lia.
Qed.

Lemma bit_at_drop bs (k : Z) i :
  0 ≤ k → 0 ≤ i → bit_at (drop (Z.to_nat k) bs) i = bit_at bs (8 * k + i).
Proof.
  intros Hk Hi. unfold bit_at, byte_at. rewrite lookup_drop.
  replace ((8 * k + i) / 8) with (k + i / 8) by (rewrite Z.mul_comm, Z.div_add_l; lia).
  replace ((8 * k + i) mod 8) with (i mod 8) by (rewrite Z.add_comm, Z.mul_comm, Z.mod_add; lia).
  pose proof (Z.div_pos i 8). by rewrite Z2Nat.inj_add by lia.
Qed.

Lemma existsb_ext_in {A} (p q : A → bool) (l : list A) :
  (∀ x, x ∈ l → p x = q x) → existsb p l = existsb q l.
Proof.
  induction l as [|x l IH]; intros Hpq; cbn [existsb]; [done|].
  rewrite Hpq, IH by set_solver. done.
Qed.

(** ** Vectors *)

(** [std::vector::resize], which value-initialises new elements. *)
Definition resize (n : nat) (l : list Z) : list Z := take n l ++ replicate (n - length l) 0.

(** Keeping fewer elements. *)
Lemma length_filter_le {A} (P Q : A → Prop) `{!∀ x, Decision (P x), !∀ x, Decision (Q x)} l :
  (∀ x, P x → Q x) → (length (filter P l) ≤ length (filter Q l))%nat.
Proof.
  intros HPQ. induction l as [|x l IH]; [done|]. rewrite !filter_cons. destruct (decide (P x)) as [HP|HP].
  - rewrite decide_True by auto. simpl. lia.
  - case_decide; simpl; lia.
Qed.

Lemma length_filter_lt {A} (P Q : A → Prop) `{!∀ x, Decision (P x), !∀ x, Decision (Q x)} l x :
  (∀ x, P x → Q x) → x ∈ l → Q x → ¬ P x → (length (filter P l) < length (filter Q l))%nat.
Proof.
  intros HPQ Hx HQ HP. induction l as [|y l IH]; [by apply elem_of_nil in Hx|]. rewrite !filter_cons. pose proof (length_filter_le P Q l HPQ).
  apply elem_of_cons in Hx as [<-|Hx].
  - rewrite decide_False, decide_True by done. simpl. lia.
  - specialize (IH Hx). destruct (decide (P y)) as [HPy|HPy]; [rewrite decide_True by auto; simpl; lia|case_decide; simpl; lia].
Qed.

Lemma length_resize n l : length (resize n l) = n.
Proof. unfold resize. rewrite length_app, length_take, length_replicate. lia. Qed.
