(* ===== verification/Arrow.v ===== *)
(** * The Apache Arrow routines the Bloom filter calls

    Arrow is not part of the repository.  [ArrowBits] lists the routines of
    [arrow/util/bit_util.h], [arrow/util/bitmap_ops.h], [arrow/acero/util.h]
    and [arrow/util/cpu_info.h] that [src/optimizer/predicate_transfer] uses,
    and [ArrowBitsOk] what their documentation promises.  Every definition of
    the development that calls Arrow takes an [ArrowBits] instance, every
    theorem that needs the documented behaviour takes an [ArrowBitsOk] one,
    and [arrow_model] shows that the promises can be met. *)

From S2P Require Import Prelude.
Local Open Scope Z_scope.

Class ArrowBits := {
  (* bit_util::GetBit(bits, i) and bit_util::SetBit(bits, i) *)
  GetBit : list Z → Z → bool;
  SetBit : list Z → Z → list Z;
  (* bit_util::Log2(x) *)
  Log2 : Z → Z;
  (* internal::CountSetBits(data, bit_offset, length) *)
  CountSetBits : list Z → Z → Z → Z;
  (* the ROTL64(x, n) macro *)
  ROTL64 : Z → Z → Z;
  (* internal::CpuInfo::AVX2 *)
  CpuInfo_AVX2 : Z
}.

Class ArrowBitsOk `{ArrowBits} : Prop := {
  (* Bitmaps number the bits of a byte from the least significant one. *)
  GetBit_spec bs i :
    bytes_ok bs → 0 ≤ i < 8 * Z.of_nat (length bs) → GetBit bs i = bit_at bs i;
  SetBit_length bs i : length (SetBit bs i) = length bs;
  SetBit_bytes bs i : bytes_ok bs → bytes_ok (SetBit bs i);
  SetBit_spec bs i j :
    bytes_ok bs → 0 ≤ i < 8 * Z.of_nat (length bs) → 0 ≤ j →
    bit_at (SetBit bs i) j = (i =? j) || bit_at bs j;
  (* Log2 is the ceiling of the binary logarithm. *)
  Log2_spec x : 1 < x → 2 ^ (Log2 x - 1) < x ≤ 2 ^ Log2 x;
  Log2_1 : Log2 1 = 0;
  (* CountSetBits counts the set bits of a bit range. *)
  CountSetBits_spec bs off len :
    bytes_ok bs → 0 ≤ off → 0 ≤ len → off + len ≤ 8 * Z.of_nat (length bs) →
    CountSetBits bs off len = cnt (bit_at bs) off (Z.to_nat len);
  (* ROTL64 rotates a 64-bit word to the left. *)
  ROTL64_fits x r : fits 64 x → 0 ≤ r < 64 → fits 64 (ROTL64 x r);
  ROTL64_spec x r i :
    fits 64 x → 0 ≤ r < 64 → 0 ≤ i < 64 →
    Z.testbit (ROTL64 x r) i = Z.testbit x ((i - r) mod 64);
  (* The CPU feature flags are single bits. *)
  CpuInfo_AVX2_flag : ∃ k, 0 ≤ k < 63 ∧ CpuInfo_AVX2 = 2 ^ k
}.

(** ** A model of the interface *)

#[export] Instance arrow_ref : ArrowBits := {|
  GetBit := bit_at;
  SetBit bs i :=
    <[Z.to_nat (i / 8) := Z.lor (byte_at bs (Z.to_nat (i / 8))) (Z.shiftl 1 (i mod 8))]> bs;
  Log2 := Z.log2_up;
  CountSetBits bs off len := cnt (bit_at bs) off (Z.to_nat len);
  ROTL64 x r := Z.lor (u64 (Z.shiftl x r)) (Z.shiftr x (64 - r));
  CpuInfo_AVX2 := 2 ^ 9
|}.

Lemma testbit_shiftl_1 k j : 0 ≤ k → 0 ≤ j → Z.testbit (Z.shiftl 1 k) j = (k =? j).
Proof.
  intros Hk Hj. rewrite Z.shiftl_1_l. destruct (Z.eqb_spec k j) as [->|].
  - by apply Z.pow2_bits_true.
  - apply Z.pow2_bits_false. lia.
Qed.

Lemma set_bit_spec bs i j :
  bytes_ok bs → 0 ≤ i < 8 * Z.of_nat (length bs) → 0 ≤ j →
  bit_at (<[Z.to_nat (i / 8) := Z.lor (byte_at bs (Z.to_nat (i / 8))) (Z.shiftl 1 (i mod 8))]> bs) j
  = (i =? j) || bit_at bs j.
Proof.
  intros Hb Hi Hj. unfold bit_at, byte_at.
  assert (i / 8 < Z.of_nat (length bs)) by (apply Z.div_lt_upper_bound; lia).
  pose proof (Z.div_pos i 8). pose proof (Z.div_pos j 8).
  pose proof (Z.mod_pos_bound i 8). pose proof (Z.mod_pos_bound j 8).
  pose proof (Z_div_mod_eq_full i 8). pose proof (Z_div_mod_eq_full j 8).
  destruct (decide (i / 8 = j / 8)) as [E|E].
  - rewrite <-E, list_lookup_insert_eq by lia.
    simpl. rewrite Z.lor_spec, testbit_shiftl_1 by lia. rewrite orb_comm. f_equal.
    destruct (Z.eqb_spec i j), (Z.eqb_spec (i mod 8) (j mod 8)); try done; congruence || lia.
  - rewrite list_lookup_insert_ne by lia.
    by rewrite (proj2 (Z.eqb_neq i j)) by congruence.
Qed.

Lemma rotl_bits x r i :
  fits 64 x → 0 ≤ r < 64 → 0 ≤ i < 64 →
  Z.testbit (Z.lor (u64 (Z.shiftl x r)) (Z.shiftr x (64 - r))) i = Z.testbit x ((i - r) mod 64).
Proof.
  intros Hx Hr Hi. rewrite Z.lor_spec. unfold wrap.
  rewrite Z.mod_pow2_bits_low, Z.shiftl_spec, Z.shiftr_spec by lia.
  destruct (Z.lt_ge_cases i r).
  - rewrite (Z.testbit_neg_r x (i - r)) by lia. simpl. f_equal.
    rewrite <-(Z.mod_add _ 1) by lia. rewrite Z.mod_small; lia.
  - rewrite (testbit_above 64 x (i + _)) by (done || lia).
    rewrite orb_false_r, Z.mod_small by lia. done.
Qed.

Lemma rotl_fits x r :
  fits 64 x → 0 ≤ r < 64 → fits 64 (Z.lor (u64 (Z.shiftl x r)) (Z.shiftr x (64 - r))).
Proof. intros. eauto with fits. Qed.

#[export] Instance arrow_model : ArrowBitsOk.
Proof.
  split.
  - done.
  - intros. apply length_insert.
  - intros bs i Hb. apply Forall_insert; [done|].
    apply fits_lor; [lia|by apply byte_at_fits|].
    pose proof (Z.mod_pos_bound i 8). rewrite Z.shiftl_1_l.
    split; [lia|]. apply Z.pow_lt_mono_r; lia.
  - apply set_bit_spec.
  - intros x Hx. pose proof (Z.log2_up_spec x Hx). rewrite Z.sub_1_r. done.
  - done.
  - done.
  - apply rotl_fits.
  - apply rotl_bits.
  - exists 9. split; [lia|done].
Qed.
