(* ===== verification/BloomMasks.v ===== *)
(** * BloomFilterMasks: the pre-generated bit masks

    Models [struct BloomFilterMasks] of [bloom_filter.hpp] and its
    constructor in [bloom_filter.cpp].  The sequence of values drawn from
    [std::mt19937] through [std::uniform_int_distribution<uint64_t>], whose
    algorithm the C++ standard leaves to the implementation, is the argument
    [rd]: the theorems hold for every sequence of draws. *)

From S2P Require Import Prelude Arrow.
Local Open Scope Z_scope.
Local Open Scope machine_scope.

(** ** The constants of the class *)

Definition kBitsPerMask : Z := 57.
Definition kFullMask : Z := Z.shiftl 1 kBitsPerMask - 1.
Definition kMinBitsSet : Z := 4.
Definition kMaxBitsSet : Z := 5.
Definition kLogNumMasks : Z := 10.
Definition kNumMasks : Z := Z.shiftl 1 kLogNumMasks.
Definition kTotalBytes : Z := (kNumMasks + 64) / 8.

(** [SafeLoadAs<uint64_t>]: an unaligned eight byte load.  Reading past the
    end of the array is undefined; [mask_load_in_bounds] shows that no mask
    lookup does. *)
Definition SafeLoadAs (masks_ : list Z) (off : Z) : Z := load64 masks_ off.

(** [BloomFilterMasks::mask] on a little-endian machine. *)
Definition masks_mask (masks_ : list Z) (bit_offset : Z) : Z :=
  Z.land (Z.shiftr (SafeLoadAs masks_ (bit_offset / 8)) (bit_offset mod 8)) kFullMask.

Section Constructor.
  Context `{ArrowBits} (rd : nat → Z).

(** [random(min_value, max_value)] at the [k]-th draw. *)
Definition random (k : nat) (min_value max_value : Z) : Z * nat :=
  (min_value + rd k mod (max_value - min_value + 1), S k).

(** The inner [for (;;)] loop: draw positions until one is free. *)
Fixpoint set_free_bit (fuel : nat) (masks_ : list Z) (k : nat) : outcome (list Z * nat) :=
  match fuel with
  | O => NoFuel
  | S fuel =>
      let '(bit_pos, k) := random k 0 (kBitsPerMask - 1) in
      if negb (GetBit masks_ bit_pos) then Ret (SetBit masks_ bit_pos, k)
      else set_free_bit fuel masks_ k
  end.

(** The loop over [num_bits_set] that prepares the first mask. *)
Fixpoint first_mask (fuel : nat) (n : nat) (masks_ : list Z) (k : nat) : outcome (list Z * nat) :=
  match n with
  | O => Ret (masks_, k)
  | S n => let* (masks_, k) := set_free_bit fuel masks_ k in first_mask fuel n masks_ k
  end.

(** One iteration of the loop over the remaining bit positions. *)
Definition extend_masks (st : list Z * Z * nat) (i : Z) : list Z * Z * nat :=
  let '(masks_, num_bits_set, k) := st in
  let bit_leaving := if GetBit masks_ (i - kBitsPerMask) then 1 else 0 in
  if (bit_leaving =? 1) && (num_bits_set =? kMinBitsSet) then
    (SetBit masks_ i, num_bits_set, k)
  else if (bit_leaving =? 0) && (num_bits_set =? kMaxBitsSet) then st
  else
    let '(r, k) := random k 0 (kBitsPerMask * 2 - 1) in
    if r <? kMinBitsSet + kMaxBitsSet then
      (SetBit masks_ i, if bit_leaving =? 0 then num_bits_set + 1 else num_bits_set, k)
    else
      (masks_, if bit_leaving =? 1 then num_bits_set - 1 else num_bits_set, k).

Definition num_bits_total : Z := kNumMasks + kBitsPerMask - 1.

(** [BloomFilterMasks::BloomFilterMasks()]. *)
Definition BloomFilterMasks (fuel : nat) : outcome (list Z) :=
  let masks_ := replicate (Z.to_nat kTotalBytes) 0 in
  let '(num_bits_set, k) := random 0 kMinBitsSet kMaxBitsSet in
  let* (masks_, k) := first_mask fuel (Z.to_nat num_bits_set) masks_ k in
  let '(masks_, _, _) :=
    fold_left extend_masks (seqZ kBitsPerMask (num_bits_total - kBitsPerMask)) (masks_, num_bits_set, k) in
  Ret masks_.

End Constructor.

(** ** Lookups *)

Definition masks_ok (masks_ : list Z) : Prop :=
  bytes_ok masks_ ∧ Z.of_nat (length masks_) = kTotalBytes.

(** Number of bits set in the mask that starts at bit [j]. *)
Definition window (masks_ : list Z) (j : Z) : Z := cnt (bit_at masks_) j (Z.to_nat kBitsPerMask).

Lemma mask_load_in_bounds id :
  0 ≤ id < kNumMasks → 0 ≤ id / 8 ∧ id / 8 + 8 ≤ kTotalBytes.
Proof.
  intros Hid. change kNumMasks with 1024 in *. change kTotalBytes with 136.
  pose proof (Z.div_lt_upper_bound id 8 128). pose proof (Z.div_pos id 8). lia.
Qed.

Lemma masks_mask_testbit masks_ id i :
  masks_ok masks_ → 0 ≤ id < kNumMasks → 0 ≤ i →
  Z.testbit (masks_mask masks_ id) i = (i <? kBitsPerMask) && bit_at masks_ (id + i).
Proof.
  intros [Hb Hl] Hid Hi. unfold masks_mask, SafeLoadAs.
  destruct (mask_load_in_bounds id Hid).
  pose proof (Z.mod_pos_bound id 8). pose proof (Z_div_mod_eq_full id 8).
  rewrite Z.land_spec. change kFullMask with (Z.ones 57). change kBitsPerMask with 57.
  rewrite Z.shiftr_spec by done.
  destruct (Z.ltb_spec i 57).
  - rewrite Z.ones_spec_low, andb_true_r by lia.
    rewrite load64_testbit by (done || lia). simpl. f_equal. lia.
  - rewrite Z.ones_spec_high by lia. apply andb_false_r.
Qed.

Lemma masks_mask_fits masks_ id : masks_ok masks_ → fits 57 (masks_mask masks_ id).
Proof. intros _. unfold masks_mask. apply fits_land_r. by vm_compute. Qed.

(** The number of bits set in mask [id] is its window's. *)
Lemma masks_mask_popcount masks_ id :
  masks_ok masks_ → 0 ≤ id < kNumMasks →
  cnt (Z.testbit (masks_mask masks_ id)) 0 64 = window masks_ id.
Proof.
  intros Hm Hid. unfold window. change (Z.to_nat kBitsPerMask) with 57%nat.
  change 64%nat with (57 + 7)%nat. rewrite cnt_app, (cnt_false _ (0 + _)), Z.add_0_r.
  - apply cnt_shift. intros i Hi. rewrite Z.add_0_l, masks_mask_testbit by (done || lia).
    change kBitsPerMask with 57. rewrite (proj2 (Z.ltb_lt i 57)) by lia. f_equal.
  - intros i Hi. rewrite masks_mask_testbit by (done || lia).
    change kBitsPerMask with 57. by rewrite (proj2 (Z.ltb_ge i 57)) by lia.
Qed.

(** ** The constructor keeps every mask between the bounds *)

Section Generation.
  Context `{ArrowBitsOk} (rd : nat → Z).

(** The state of the loop before it decides bit [i]: the windows that end
    before [i] are within bounds, the counter is the size of the last one,
    and no bit at or after [i] has been set. *)
Record gen_inv (i : Z) (st : list Z * Z * nat) : Prop := {
  gi_ok : masks_ok st.1.1;
  gi_count : st.1.2 = window st.1.1 (i - kBitsPerMask);
  gi_windows j : 0 ≤ j ≤ i - kBitsPerMask → kMinBitsSet ≤ window st.1.1 j ≤ kMaxBitsSet;
  gi_clear j : i ≤ j → bit_at st.1.1 j = false;
}.

Lemma masks_ok_SetBit masks_ i : masks_ok masks_ → masks_ok (SetBit masks_ i).
Proof. intros [? ?]. split; [by apply SetBit_bytes|by rewrite SetBit_length]. Qed.

Lemma window_SetBit_above masks_ i j :
  masks_ok masks_ → 0 ≤ i < num_bits_total → 0 ≤ j → j + kBitsPerMask ≤ i →
  window (SetBit masks_ i) j = window masks_ j.
Proof.
  intros [Hb Hl] Hi Hj Hji. apply cnt_ext. intros p Hp.
  change (Z.of_nat (Z.to_nat kBitsPerMask)) with kBitsPerMask in Hp.
  change num_bits_total with 1080 in Hi. change kTotalBytes with 136 in Hl.
  rewrite SetBit_spec by (done || lia). by rewrite (proj2 (Z.eqb_neq i p)) by lia.
Qed.

(** Deciding bit [i] slides the window by one. *)
Lemma window_slide masks_ i :
  window masks_ (i + 1 - kBitsPerMask)
  = window masks_ (i - kBitsPerMask) - Z.b2z (bit_at masks_ (i - kBitsPerMask)) + Z.b2z (bit_at masks_ i).
Proof.
  unfold window. replace (i + 1 - kBitsPerMask) with (i - kBitsPerMask + 1) by lia.
  rewrite cnt_slide. do 3 f_equal. change (Z.of_nat (Z.to_nat kBitsPerMask)) with kBitsPerMask. lia.
Qed.

(** Bit [i] decided as [b]. *)
Definition decided (masks_ : list Z) (i : Z) (b : bool) : list Z :=
  if b then SetBit masks_ i else masks_.

Lemma gen_inv_decided i masks_ n k b n' k' :
  kBitsPerMask ≤ i < num_bits_total → gen_inv i (masks_, n, k) →
  n' = n - Z.b2z (bit_at masks_ (i - kBitsPerMask)) + Z.b2z b →
  kMinBitsSet ≤ n' ≤ kMaxBitsSet →
  gen_inv (i + 1) (decided masks_ i b, n', k').
Proof.
  intros Hi [Hok Hc Hw Hclr] Hn' Hb. simpl in *.
  assert (masks_ok (decided masks_ i b)) as Hok'.
  { destruct b; simpl; [by apply masks_ok_SetBit|done]. }
  pose proof Hok as [Hby Hlen]. change kTotalBytes with 136 in Hlen.
  change num_bits_total with 1080 in *. change kBitsPerMask with 57 in *.
  assert (∀ j, 0 ≤ j → bit_at (decided masks_ i b) j = (b && (i =? j)) || bit_at masks_ j) as Hbit.
  { intros j Hj. destruct b; simpl; [|done]. apply SetBit_spec; (done || lia). }
  assert (∀ j, 0 ≤ j ≤ i - 57 → window (decided masks_ i b) j = window masks_ j) as Hold.
  { intros j Hj. destruct b; simpl; [|done].
    apply window_SetBit_above; (done || change kBitsPerMask with 57; change num_bits_total with 1080; lia). }
  assert (window (decided masks_ i b) (i + 1 - 57) = n') as Hnew.
  { change 57 with kBitsPerMask. rewrite window_slide. change kBitsPerMask with 57.
    rewrite Hold, !Hbit by lia. rewrite (Hclr i), Z.eqb_refl, andb_true_r, orb_false_r by lia.
    rewrite (proj2 (Z.eqb_neq i (i - 57))), andb_false_r by lia. simpl. lia. }
  split; simpl; change kBitsPerMask with 57.
  - done.
  - done.
  - intros j Hj. destruct (decide (j = i + 1 - 57)) as [->|]; [by rewrite Hnew|].
    rewrite Hold by lia. apply Hw. lia.
  - intros j Hj. rewrite Hbit, (Hclr j) by lia.
    rewrite (proj2 (Z.eqb_neq i j)) by lia. by rewrite andb_false_r.
Qed.

Lemma extend_masks_inv i st :
  kBitsPerMask ≤ i < num_bits_total → gen_inv i st → gen_inv (i + 1) (extend_masks rd st i).
Proof.
  intros Hi Hinv. destruct st as [[masks_ n] k].
  pose proof Hinv as [Hok Hc Hw _]. simpl in Hok, Hc, Hw.
  pose proof (Hw (i - kBitsPerMask)) as Hn. rewrite <-Hc in Hn.
  unfold extend_masks, random. rewrite GetBit_spec; [|apply Hok|].
  2: { destruct Hok as [_ Hl]. change kTotalBytes with 136 in Hl.
       change kBitsPerMask with 57 in *. change num_bits_total with 1080 in *. lia. }
  set (lv := bit_at masks_ (i - kBitsPerMask)) in *.
  assert (∀ b n' k', n' = n - Z.b2z lv + Z.b2z b → kMinBitsSet ≤ n' ≤ kMaxBitsSet →
     gen_inv (i + 1) (decided masks_ i b, n', k')) as Hstep.
  { intros b n' k'. by apply (gen_inv_decided i masks_ n k). }
  clearbody lv. unfold kMinBitsSet, kMaxBitsSet, kBitsPerMask in *.
  destruct lv; cbn [Z.eqb Pos.eqb andb Z.b2z] in *.
  - destruct (Z.eqb_spec n 4); [apply (Hstep true); simpl; lia|].
    destruct (Z.ltb_spec (0 + rd k mod (57 * 2 - 1 - 0 + 1)) (4 + 5));
      [apply (Hstep true)|apply (Hstep false)]; simpl; lia.
  - destruct (Z.eqb_spec n 5); [apply (Hstep false); simpl; lia|].
    destruct (Z.ltb_spec (0 + rd k mod (57 * 2 - 1 - 0 + 1)) (4 + 5));
      [apply (Hstep true)|apply (Hstep false)]; simpl; lia.
Qed.

Lemma extend_masks_loop (n : nat) i st :
  kBitsPerMask ≤ i → i + Z.of_nat n ≤ num_bits_total → gen_inv i st →
  gen_inv (i + Z.of_nat n) (fold_left (extend_masks rd) (seqZ i (Z.of_nat n)) st).
Proof.
  revert i st. induction n as [|n IH]; intros i st Hi Hn Hinv.
  - by rewrite seqZ_nil, Z.add_0_r by lia.
  - rewrite seqZ_cons by lia. simpl fold_left.
    replace (Z.pred (Z.of_nat (S n))) with (Z.of_nat n) by lia.
    replace (i + Z.of_nat (S n)) with (i + 1 + Z.of_nat n) by lia.
    rewrite <-Z.add_1_r. apply IH; [lia|lia|]. apply extend_masks_inv; [lia|done].
Qed.

Lemma extend_masks_all i n st :
  kBitsPerMask ≤ i → 0 ≤ n → i + n ≤ num_bits_total → gen_inv i st →
  gen_inv (i + n) (fold_left (extend_masks rd) (seqZ i n) st).
Proof. intros. rewrite <-(Z2Nat.id n) by done. apply extend_masks_loop; [done|lia|done]. Qed.

(** Every bit position of a mask is drawn again and again. *)
Definition fair : Prop :=
  ∀ k p, 0 ≤ p < kBitsPerMask → ∃ k', (k ≤ k')%nat ∧ rd k' mod kBitsPerMask = p.

(** The state of the loop that prepares the first mask. *)
Record first_inv (c : Z) (masks_ : list Z) : Prop := {
  fi_ok : masks_ok masks_;
  fi_count : window masks_ 0 = c;
  fi_clear j : kBitsPerMask ≤ j → bit_at masks_ j = false;
}.

Lemma set_free_bit_enough masks_ d k p :
  masks_ok masks_ → 0 ≤ p < kBitsPerMask → bit_at masks_ p = false →
  rd (d + k) mod kBitsPerMask = p →
  ∃ f, ∀ fuel, (f ≤ fuel)%nat → ∃ q k',
    set_free_bit rd fuel masks_ k = Ret (SetBit masks_ q, k') ∧
    0 ≤ q < kBitsPerMask ∧ bit_at masks_ q = false.
Proof.
  intros [Hb Hl] Hp Hfree. change kTotalBytes with 136 in Hl.
  assert (∀ k, 0 ≤ 0 + rd k mod kBitsPerMask < kBitsPerMask) as Hr.
  { intros k0. pose proof (Z.mod_pos_bound (rd k0) kBitsPerMask ltac:(by vm_compute)). lia. }
  assert (∀ k, GetBit masks_ (0 + rd k mod kBitsPerMask) = bit_at masks_ (0 + rd k mod kBitsPerMask)) as Hg.
  { intros k0. apply GetBit_spec; [done|]. specialize (Hr k0). change kBitsPerMask with 57 in *. lia. }
  assert (∀ fuel k, set_free_bit rd (S fuel) masks_ k =
      if bit_at masks_ (0 + rd k mod kBitsPerMask) then set_free_bit rd fuel masks_ (S k)
      else Ret (SetBit masks_ (0 + rd k mod kBitsPerMask), S k)) as Hunf.
  { intros fuel k0. cbn [set_free_bit]. unfold random.
    replace (kBitsPerMask - 1 - 0 + 1) with kBitsPerMask by lia. rewrite Hg.
    by destruct (bit_at masks_ (0 + _)). }
  revert k. induction d as [|d IH]; intros k Hd.
  - exists 1%nat. intros [|fuel] Hf; [lia|]. rewrite Hunf. simpl in Hd. rewrite Hd, Z.add_0_l, Hfree.
    exists p, (S k). done.
  - destruct (IH (S k)) as [f Hf]; [rewrite <-Hd; do 2 f_equal; lia|].
    exists (S f). intros [|fuel] Hfuel; [lia|]. rewrite Hunf.
    destruct (bit_at masks_ (0 + rd k mod kBitsPerMask)) eqn:E; [apply Hf; lia|].
    eexists _, _. split; [done|]. auto.
Qed.

Lemma first_inv_SetBit c masks_ q :
  first_inv c masks_ → 0 ≤ q < kBitsPerMask → bit_at masks_ q = false →
  first_inv (c + 1) (SetBit masks_ q).
Proof.
  intros [Hok Hc Hclr] Hq Hf. pose proof Hok as [Hb Hl]. change kTotalBytes with 136 in Hl.
  change kBitsPerMask with 57 in *. split.
  - by apply masks_ok_SetBit.
  - rewrite <-Hc. unfold window. change (Z.to_nat kBitsPerMask) with 57%nat.
    apply (cnt_set _ _ q); [lia|done|]. intros i Hi. apply SetBit_spec; (done || lia).
  - change kBitsPerMask with 57. intros j Hj. rewrite SetBit_spec, Hclr by (done || lia).
    by rewrite (proj2 (Z.eqb_neq q j)) by lia.
Qed.

Lemma first_mask_enough (Hfair : fair) (n : nat) c masks_ k :
  first_inv c masks_ → c + Z.of_nat n ≤ kMaxBitsSet →
  ∃ f, ∀ fuel, (f ≤ fuel)%nat → ∃ masks' k',
    first_mask rd fuel n masks_ k = Ret (masks', k') ∧ first_inv (c + Z.of_nat n) masks'.
Proof.
  revert c masks_ k. induction n as [|n IH]; intros c masks_ k Hinv Hn.
  { exists 0%nat. intros fuel _. exists masks_, k. by rewrite Z.add_0_r. }
  pose proof Hinv as [Hok Hc _]. change kMaxBitsSet with 5 in Hn.
  destruct (cnt_lt_exists (bit_at masks_) 0 (Z.to_nat kBitsPerMask)) as (p & Hp & Hfree).
  { change (Z.of_nat (Z.to_nat kBitsPerMask)) with 57. unfold window in Hc. lia. }
  change (0 + Z.of_nat (Z.to_nat kBitsPerMask)) with kBitsPerMask in Hp.
  destruct (Hfair k p Hp) as (k1 & Hk1 & Hrd).
  destruct (set_free_bit_enough masks_ (k1 - k) k p) as [f1 Hf1]; try done.
  { by replace (k1 - k + k)%nat with k1 by lia. }
  (* the inner loop consumes the same draws whatever the fuel: bound it at [f1] *)
  destruct (Hf1 f1) as (q & k2 & Hret & Hq & Hqf); [lia|].
  assert (∀ fuel, (f1 ≤ fuel)%nat → set_free_bit rd fuel masks_ k = Ret (SetBit masks_ q, k2)) as Hmono.
  { clear -Hret. revert k Hret. induction f1 as [|f1 IH1]; intros k Hret [|fuel] Hle; simpl in *; try done; [lia|].
    unfold random in *. destruct (negb _); [done|]. apply IH1; [done|lia]. }
  destruct (IH (c + 1) (SetBit masks_ q) k2) as [f2 Hf2].
  { by apply first_inv_SetBit. }
  { change kMaxBitsSet with 5. lia. }
  exists (f1 + f2)%nat. intros fuel Hfuel. simpl. rewrite Hmono by lia. simpl.
  destruct (Hf2 fuel) as (m' & k' & -> & Hi); [lia|]. exists m', k'. split; [done|].
  by replace (c + Z.of_nat (S n)) with (c + 1 + Z.of_nat n) by lia.
Qed.

Lemma masks_ok_zero : masks_ok (replicate (Z.to_nat kTotalBytes) 0).
Proof. split; [|done]. apply Forall_replicate. by vm_compute. Qed.

Lemma bit_at_zero n j : bit_at (replicate n 0) j = false.
Proof.
  unfold bit_at, byte_at.
  destruct (replicate n 0 !! _) eqn:E; simpl; [|apply Z.testbit_0_l].
  apply lookup_replicate in E as [-> _]. apply Z.testbit_0_l.
Qed.

Lemma first_inv_zero : first_inv 0 (replicate (Z.to_nat kTotalBytes) 0).
Proof.
  split; [apply masks_ok_zero| |intros; apply bit_at_zero].
  apply cnt_false. intros; apply bit_at_zero.
Qed.

(** With enough fuel the constructor returns, and every one of the masks it
    generates has between [kMinBitsSet] and [kMaxBitsSet] bits. *)
Lemma BloomFilterMasks_spec (Hfair : fair) :
  ∃ f, ∀ fuel, (f ≤ fuel)%nat → ∃ masks_,
    BloomFilterMasks rd fuel = Ret masks_ ∧ masks_ok masks_ ∧
    ∀ id, 0 ≤ id < kNumMasks → kMinBitsSet ≤ window masks_ id ≤ kMaxBitsSet.
Proof.
  set (n0 := kMinBitsSet + rd 0%nat mod (kMaxBitsSet - kMinBitsSet + 1)).
  assert (kMinBitsSet ≤ n0 ≤ kMaxBitsSet) as Hn0.
  { subst n0. change (kMaxBitsSet - kMinBitsSet + 1) with 2. pose proof (Z.mod_pos_bound (rd 0%nat) 2).
    unfold kMinBitsSet, kMaxBitsSet. lia. }
  destruct (first_mask_enough Hfair (Z.to_nat n0) 0 (replicate (Z.to_nat kTotalBytes) 0) 1) as [f Hf].
  { apply first_inv_zero. }
  { unfold kMinBitsSet in *. lia. }
  exists f. intros fuel Hfuel. destruct (Hf fuel Hfuel) as (m1 & k1 & Hret & [Hok Hc Hclr]).
  unfold BloomFilterMasks, random. fold n0. rewrite Hret. cbn [obind].
  pose proof (extend_masks_all kBitsPerMask (num_bits_total - kBitsPerMask) (m1, n0, k1)) as Hloop.
  destruct Hloop as [Hok' _ Hw _]; [done|done|lia| |].
  { unfold kMinBitsSet in *. split; cbn [fst snd].
    - done.
    - rewrite Z.sub_diag, Hc. lia.
    - intros j Hj. replace j with 0 by lia. rewrite Hc. unfold kMinBitsSet. lia.
    - done. }
  destruct (fold_left _ _ _) as [[masks' n'] k']. cbn [fst snd] in *.
  exists masks'. split; [done|]. split; [done|]. intros id Hid. apply Hw.
  unfold num_bits_total. change kNumMasks with 1024 in *. lia.
Qed.

End Generation.

(** ** Properties *)

(** C33: whatever the random generator returns, as long as every bit position
    keeps being drawn, the constructor of [BloomFilterMasks] terminates and
    each of the [kNumMasks] masks a filter can look up has between
    [kMinBitsSet] and [kMaxBitsSet] of its 64 bits set. *)
Theorem masks_bits_set_bounded `{ArrowBitsOk} (rd : nat → Z) :
  fair rd →
  ∃ f, ∀ fuel, (f ≤ fuel)%nat → ∃ masks_,
    BloomFilterMasks rd fuel = Ret masks_ ∧
    ∀ id, 0 ≤ id < kNumMasks →
      kMinBitsSet ≤ cnt (Z.testbit (masks_mask masks_ id)) 0 64 ≤ kMaxBitsSet.
Proof.
  intros Hfair. destruct (BloomFilterMasks_spec rd Hfair) as [f Hf]. exists f.
  intros fuel Hfuel. destruct (Hf fuel Hfuel) as (m & Hret & Hok & Hw).
  exists m. split; [done|]. intros id Hid. rewrite masks_mask_popcount by done. auto.
Qed.

Lemma fair_counter : fair Z.of_nat.
Proof.
  intros k p Hp. exists (k * 57 + Z.to_nat p)%nat. split; [lia|].
  change kBitsPerMask with 57 in *. rewrite Nat2Z.inj_add, Nat2Z.inj_mul, Z2Nat.id by lia.
  rewrite Z.add_comm, Z.mod_add, Z.mod_small by lia. done.
Qed.

Lemma masks_bits_set_bounded_witness :
  ∃ f, ∀ fuel, (f ≤ fuel)%nat → ∃ masks_,
    BloomFilterMasks Z.of_nat fuel = Ret masks_ ∧
    ∀ id, 0 ≤ id < kNumMasks →
      kMinBitsSet ≤ cnt (Z.testbit (masks_mask masks_ id)) 0 64 ≤ kMaxBitsSet.
Proof. apply (masks_bits_set_bounded Z.of_nat fair_counter). Defined.
