(* ===== verification/BloomFilter.v ===== *)
(** * BlockedBloomFilter: the scalar operations

    Models [class BlockedBloomFilter] of [bloom_filter.hpp] with the scalar
    code of [bloom_filter.cpp]: creation, insertion, membership, folding.
    A filter is a record with the fields of the class; [blocks_] is the
    pointer to the array of 64-bit blocks, [None] when it is null. *)

From S2P Require Import Prelude Arrow BloomMasks.
Local Open Scope Z_scope.
Local Open Scope machine_scope.

(** ** Data *)

Record ColumnBinding := mkBinding { table_index : Z; column_index : Z }.

#[export] Instance ColumnBinding_eq_dec : EqDecision ColumnBinding.
Proof. solve_decision. Defined.

#[export] Instance ColumnBinding_countable : Countable ColumnBinding.
Proof.
  apply (inj_countable' (λ b, (table_index b, column_index b)) (λ p, mkBinding p.1 p.2)).
  by intros [].
Defined.

Record BlockedBloomFilter := mkBlockedBloomFilter {
  column_bindings_applied_ : list ColumnBinding;
  column_bindings_built_ : list ColumnBinding;
  BoundColsApplied : list nat;
  BoundColsBuilt : list nat;
  log_num_blocks_ : Z;
  num_blocks_ : Z;
  use_64bit_hashes_ : bool;
  blocks_ : option (list Z);
  Used_ : bool
}.

(** [BlockedBloomFilter::BlockedBloomFilter()]. *)
Definition new_filter : BlockedBloomFilter :=
  mkBlockedBloomFilter [] [] [] [] 0 0 true None false.

Definition with_blocks (bs : option (list Z)) (bf : BlockedBloomFilter) : BlockedBloomFilter :=
  mkBlockedBloomFilter bf.(column_bindings_applied_) bf.(column_bindings_built_)
    bf.(BoundColsApplied) bf.(BoundColsBuilt) bf.(log_num_blocks_) bf.(num_blocks_)
    bf.(use_64bit_hashes_) bs bf.(Used_).

Definition with_size (log num : Z) (bf : BlockedBloomFilter) : BlockedBloomFilter :=
  mkBlockedBloomFilter bf.(column_bindings_applied_) bf.(column_bindings_built_)
    bf.(BoundColsApplied) bf.(BoundColsBuilt) log num
    bf.(use_64bit_hashes_) bf.(blocks_) bf.(Used_).

Definition AddColumnBindingApplied (b : ColumnBinding) (bf : BlockedBloomFilter) : BlockedBloomFilter :=
  mkBlockedBloomFilter (bf.(column_bindings_applied_) ++ [b]) bf.(column_bindings_built_)
    bf.(BoundColsApplied) bf.(BoundColsBuilt) bf.(log_num_blocks_) bf.(num_blocks_)
    bf.(use_64bit_hashes_) bf.(blocks_) bf.(Used_).

Definition AddColumnBindingBuilt (b : ColumnBinding) (bf : BlockedBloomFilter) : BlockedBloomFilter :=
  mkBlockedBloomFilter bf.(column_bindings_applied_) (bf.(column_bindings_built_) ++ [b])
    bf.(BoundColsApplied) bf.(BoundColsBuilt) bf.(log_num_blocks_) bf.(num_blocks_)
    bf.(use_64bit_hashes_) bf.(blocks_) bf.(Used_).

Definition setUsed (bf : BlockedBloomFilter) : BlockedBloomFilter :=
  mkBlockedBloomFilter bf.(column_bindings_applied_) bf.(column_bindings_built_)
    bf.(BoundColsApplied) bf.(BoundColsBuilt) bf.(log_num_blocks_) bf.(num_blocks_)
    bf.(use_64bit_hashes_) bf.(blocks_) true.

Definition isEmpty (bf : BlockedBloomFilter) : bool :=
  match bf.(blocks_) with None => true | Some _ => false end.

(** [arrow::Status]. *)
Inductive Status := StatusOK | OutOfMemory.

Definition kMinNumBitsPerKey : Z := 8.

Section Operations.
  Context `{ArrowBits} (masks_ : list Z).

(** [BlockedBloomFilter::mask]. *)
Definition mask (hash : Z) : Z :=
  let mask_id := Z.land hash (kNumMasks - 1) in
  let result := masks_mask masks_ mask_id in
  let rotation := Z.land (Z.shiftr hash kLogNumMasks) 63 in
  ROTL64 result rotation.

(** [BlockedBloomFilter::block_id]. *)
Definition block_id (bf : BlockedBloomFilter) (hash : Z) : Z :=
  Z.land (Z.shiftr hash (kLogNumMasks + 6)) (bf.(num_blocks_) - 1).

(** [BlockedBloomFilter::Find(hash)]. *)
Definition Find (bf : BlockedBloomFilter) (hash : Z) : outcome bool :=
  let m := mask hash in
  let* bs := deref bf.(blocks_) in
  let* b := deref (bs !! Z.to_nat (block_id bf hash)) in
  Ret (Z.land b m =? m).

(** [blocks_[id].fetch_or(m)]. *)
Definition fetch_or (bf : BlockedBloomFilter) (id m : Z) : outcome BlockedBloomFilter :=
  let* bs := deref bf.(blocks_) in
  let* b := deref (bs !! Z.to_nat id) in
  Ret (with_blocks (Some (<[Z.to_nat id := Z.lor b m]> bs)) bf).

(** [BlockedBloomFilter::Insert(hash)]. *)
Definition Insert1 (bf : BlockedBloomFilter) (hash : Z) : outcome BlockedBloomFilter :=
  fetch_or bf (block_id bf hash) (mask hash).

(** [BlockedBloomFilter::InsertImp]. *)
Definition InsertImp (bf : BlockedBloomFilter) (hashes : list Z) : outcome BlockedBloomFilter :=
  ofold Insert1 hashes bf.

(** [BlockedBloomFilter::CreateEmpty].  [AllocateBuffer] says whether the
    memory pool can serve a buffer of the given size.  The product of the
    row count and the bits per key is a signed 64-bit multiplication. *)
Definition CreateEmpty (AllocateBuffer : Z → bool) (bf : BlockedBloomFilter)
    (num_rows_to_insert : Z) : outcome (Status * BlockedBloomFilter) :=
  let min_num_bits_per_key := kMinNumBitsPerKey in
  let min_num_bits := 512 in
  if 2 ^ 63 <=? num_rows_to_insert * min_num_bits_per_key then Undef else
  let desired_num_bits := Z.max min_num_bits (num_rows_to_insert * min_num_bits_per_key) in
  let log_num_bits := Log2 desired_num_bits in
  let log := log_num_bits - 6 in
  let num := Z.shiftl 1 log in
  let bf := with_size log num bf in
  let buffer_size := num * 8 in
  if AllocateBuffer buffer_size then
    Ret (StatusOK, with_blocks (Some (replicate (Z.to_nat num) 0)) bf)
  else Ret (OutOfMemory, bf).

(** [BlockedBloomFilter::NumHashBitsUsed]. *)
Definition NumHashBitsUsed (bf : BlockedBloomFilter) : Z :=
  kLogNumMasks + 6 + bf.(log_num_blocks_).

(** [BlockedBloomFilter::IsSameAs]: the sizes agree and [memcmp] of the used
    blocks returns 0. *)
Definition IsSameAs (bf other : BlockedBloomFilter) : outcome bool :=
  if negb (bf.(log_num_blocks_) =? other.(log_num_blocks_))
     || negb (bf.(num_blocks_) =? other.(num_blocks_)) then Ret false
  else
    let* bs := deref bf.(blocks_) in
    let* bs' := deref other.(blocks_) in
    Ret (bool_decide (take (Z.to_nat bf.(num_blocks_)) bs = take (Z.to_nat bf.(num_blocks_)) bs')).

End Operations.

#[global] Arguments mask : simpl never.
#[global] Arguments block_id : simpl never.

(** ** Well-formed filters

    [blocks_] points to an array that holds at least the [num_blocks_] blocks
    the filter addresses, a power of two.  After [Fold] the array keeps its
    original length and only its first [num_blocks_] blocks are used. *)

Record bf_ok (bf : BlockedBloomFilter) (bs : list Z) : Prop := {
  ok_blocks : bf.(blocks_) = Some bs;
  ok_log : 0 ≤ bf.(log_num_blocks_) ≤ 57;
  ok_num : bf.(num_blocks_) = 2 ^ bf.(log_num_blocks_);
  ok_len : bf.(num_blocks_) ≤ Z.of_nat (length bs);
  ok_fits : Forall (fits 64) bs
}.

(** The block that [hash] addresses in a filter of [2^log] blocks. *)
Definition slot (log hash : Z) : nat := Z.to_nat ((hash / 2 ^ 16) mod 2 ^ log).

Section Facts.
  Context `{ArrowBitsOk} (masks_ : list Z) (masks_good : masks_ok masks_).

Abbreviation mask := (mask masks_).
Abbreviation Find := (Find masks_).
Abbreviation InsertImp := (InsertImp masks_).

Lemma mask_id_range hash : 0 ≤ Z.land hash (kNumMasks - 1) < kNumMasks.
Proof.
  change (kNumMasks - 1) with (2 ^ 10 - 1). rewrite land_pow2_pred by lia.
  by apply Z.mod_pos_bound.
Qed.

Lemma rotation_range hash : 0 ≤ Z.land (Z.shiftr hash kLogNumMasks) 63 < 64.
Proof.
  change 63 with (2 ^ 6 - 1). rewrite land_pow2_pred by lia. by apply Z.mod_pos_bound.
Qed.

Lemma mask_fits hash : fits 64 (mask hash).
Proof.
  apply ROTL64_fits; [|apply rotation_range].
  apply (fits_mono 57); [lia|]. by apply masks_mask_fits.
Qed.

Lemma block_id_slot bf bs hash :
  bf_ok bf bs → Z.to_nat (block_id bf hash) = slot bf.(log_num_blocks_) hash.
Proof.
  intros Hok. unfold block_id, slot. rewrite (ok_num _ _ Hok).
  pose proof (ok_log _ _ Hok).
  rewrite land_pow2_pred by lia. change (kLogNumMasks + 6) with 16.
  by rewrite Z.shiftr_div_pow2 by lia.
Qed.

Lemma slot_lt log hash : 0 ≤ log → Z.of_nat (slot log hash) < 2 ^ log.
Proof.
  intros. unfold slot. pose proof (Z.mod_pos_bound (hash / 2 ^ 16) (2 ^ log)). lia.
Qed.

Lemma slot_in_range bf bs hash :
  bf_ok bf bs → (slot bf.(log_num_blocks_) hash < length bs)%nat.
Proof.
  intros [_ Hl Hn Hlen _]. pose proof (slot_lt bf.(log_num_blocks_) hash). lia.
Qed.

(** *** Membership *)

Lemma Find_ok bf bs hash :
  bf_ok bf bs →
  ∃ b, bs !! slot bf.(log_num_blocks_) hash = Some b ∧ Find bf hash = Ret (covers b (mask hash)).
Proof.
  intros Hok. destruct (lookup_lt_is_Some_2 bs (slot bf.(log_num_blocks_) hash)) as [b Hb].
  { by apply slot_in_range. }
  exists b. split; [done|]. unfold BloomFilter.Find.
  rewrite (ok_blocks _ _ Hok). orun. by rewrite (block_id_slot _ _ _ Hok), Hb.
Qed.

Definition find_in (log : Z) (bs : list Z) (hash : Z) : bool :=
  match bs !! slot log hash with Some b => covers b (mask hash) | None => false end.

Lemma Find_find_in bf bs hash :
  bf_ok bf bs → Find bf hash = Ret (find_in bf.(log_num_blocks_) bs hash).
Proof. intros (b & Hb & ->)%(Find_ok _ _ hash). unfold find_in. by rewrite Hb. Qed.

(** *** Insertion *)

(** The effect of one insertion on the array. *)
Definition put (log : Z) (bs : list Z) (hash : Z) : list Z :=
  alter (λ b, Z.lor b (mask hash)) (slot log hash) bs.

Definition puts (log : Z) (bs : list Z) (hashes : list Z) : list Z :=
  fold_left (put log) hashes bs.

Lemma with_blocks_id bf bs : bf.(blocks_) = Some bs → with_blocks (Some bs) bf = bf.
Proof. destruct bf. simpl. by intros ->. Qed.

Lemma put_ok bf bs hash :
  bf_ok bf bs → bf_ok (with_blocks (Some (put bf.(log_num_blocks_) bs hash)) bf)
                       (put bf.(log_num_blocks_) bs hash).
Proof.
  intros [H1 H2 H3 H4 H5]. split; simpl; try done.
  - unfold put. by rewrite length_alter.
  - apply Forall_alter; [done|]. intros b Hb Hf. apply fits_lor; [lia|done|apply mask_fits].
Qed.

Lemma Insert1_ok bf bs hash :
  bf_ok bf bs → Insert1 masks_ bf hash = Ret (with_blocks (Some (put bf.(log_num_blocks_) bs hash)) bf).
Proof.
  intros Hok. destruct (lookup_lt_is_Some_2 bs (slot bf.(log_num_blocks_) hash)) as [b Hb].
  { by apply slot_in_range. }
  unfold Insert1, fetch_or, put. rewrite (ok_blocks _ _ Hok). orun.
  by rewrite (block_id_slot _ _ _ Hok), Hb, (alter_as_insert _ _ _ _ Hb).
Qed.

Lemma puts_ok bf bs hashes :
  bf_ok bf bs → bf_ok (with_blocks (Some (puts bf.(log_num_blocks_) bs hashes)) bf)
                       (puts bf.(log_num_blocks_) bs hashes).
Proof.
  revert bf bs. induction hashes as [|h hs IH]; intros bf bs Hok; simpl.
  - by rewrite with_blocks_id by apply Hok.
  - specialize (IH _ _ (put_ok _ _ h Hok)). done.
Qed.

Lemma InsertImp_ok bf bs hashes :
  bf_ok bf bs → InsertImp bf hashes = Ret (with_blocks (Some (puts bf.(log_num_blocks_) bs hashes)) bf).
Proof.
  revert bf bs. induction hashes as [|h hs IH]; intros bf bs Hok.
  - unfold BloomFilter.InsertImp. cbn. by rewrite with_blocks_id by apply Hok.
  - unfold BloomFilter.InsertImp in *. cbn [ofold]. rewrite (Insert1_ok _ _ _ Hok). orun.
    by rewrite (IH _ _ (put_ok _ _ h Hok)).
Qed.

Lemma length_puts log bs hashes : length (puts log bs hashes) = length bs.
Proof.
  revert bs. induction hashes as [|h hs IH]; intros bs; simpl; [done|].
  rewrite IH. apply length_alter.
Qed.

Lemma puts_app log bs hs1 hs2 : puts log bs (hs1 ++ hs2) = puts log (puts log bs hs1) hs2.
Proof. unfold puts. apply fold_left_app. Qed.

(** A bit of a block is set after some insertions when it was set before or
    one of the inserted hashes addresses the block with a mask that has it. *)
Definition hits (log : Z) (i : nat) (j : Z) (hash : Z) : bool :=
  bool_decide (slot log hash = i) && Z.testbit (mask hash) j.

Lemma puts_lookup log bs hashes i b :
  bs !! i = Some b →
  ∃ b', puts log bs hashes !! i = Some b' ∧
    ∀ j, Z.testbit b' j = Z.testbit b j || existsb (hits log i j) hashes.
Proof.
  revert bs b. induction hashes as [|h hs IH]; intros bs b Hb; simpl.
  { exists b. split; [done|]. intros. by rewrite orb_false_r. }
  destruct (decide (slot log h = i)) as [E|E].
  - destruct (IH (put log bs h) (Z.lor b (mask h))) as (b' & Hb' & Hj).
    { unfold put. by rewrite E, list_lookup_alter_eq, Hb. }
    exists b'. split; [done|]. intros j. rewrite Hj, Z.lor_spec. unfold hits at 2.
    rewrite bool_decide_eq_true_2 by done. by rewrite orb_assoc.
  - destruct (IH (put log bs h) b) as (b' & Hb' & Hj).
    { unfold put. by rewrite list_lookup_alter_ne. }
    exists b'. split; [done|]. intros j. rewrite Hj. unfold hits at 2.
    by rewrite bool_decide_eq_false_2.
Qed.

Lemma blocks_ext (bs1 bs2 : list Z) :
  length bs1 = length bs2 →
  (∀ i b1 b2, bs1 !! i = Some b1 → bs2 !! i = Some b2 → ∀ j, 0 ≤ j → Z.testbit b1 j = Z.testbit b2 j) →
  bs1 = bs2.
Proof.
  intros Hlen Hb. apply list_eq_same_length with (length bs1); [done|done|].
  intros i b1 b2 Hi H1 H2. apply Z.bits_inj'. eauto.
Qed.

(** Insertion depends only on the set of the hashes inserted. *)
Lemma puts_set_eq log bs hs1 hs2 :
  (∀ h, h ∈ hs1 ↔ h ∈ hs2) → puts log bs hs1 = puts log bs hs2.
Proof.
  intros Heq. apply blocks_ext; [by rewrite !length_puts|].
  intros i b1 b2 H1 H2 j Hj.
  destruct (lookup_lt_is_Some_2 bs i) as [b Hb].
  { rewrite <-(length_puts log bs hs1). by eapply lookup_lt_Some. }
  destruct (puts_lookup log bs hs1 i b Hb) as (b1' & Hb1 & E1).
  destruct (puts_lookup log bs hs2 i b Hb) as (b2' & Hb2 & E2). simplify_eq.
  by rewrite E1, E2, (existsb_set_eq _ hs1 hs2).
Qed.

Lemma find_in_puts log bs hashes hash :
  (slot log hash < length bs)%nat → hash ∈ hashes → find_in log (puts log bs hashes) hash = true.
Proof.
  intros Hlt Hin. destruct (lookup_lt_is_Some_2 bs _ Hlt) as [b Hb].
  destruct (puts_lookup log bs hashes _ _ Hb) as (b' & Hb' & E).
  unfold find_in. rewrite Hb'. apply covers_spec. intros j Hj Hm. rewrite E.
  apply orb_true_intro. right. apply existsb_exists. exists hash.
  split; [by apply list_elem_of_In|]. unfold hits. by rewrite bool_decide_eq_true_2.
Qed.

Lemma find_in_puts_mono log bs hashes hash :
  find_in log bs hash = true → find_in log (puts log bs hashes) hash = true.
Proof.
  unfold find_in. destruct (bs !! _) as [b|] eqn:Hb; [|done].
  destruct (puts_lookup log bs hashes _ _ Hb) as (b' & -> & E).
  rewrite !covers_spec. intros Hc j Hj Hm. by rewrite E, Hc.
Qed.

(** *** Creation *)

Lemma CreateEmpty_ok (alloc : Z → bool) bf n :
  0 ≤ n → n * kMinNumBitsPerKey < 2 ^ 63 →
  ∃ log, 3 ≤ log ≤ 57 ∧
    Z.max 512 (8 * n) ≤ 2 ^ log * 64 < 2 * Z.max 512 (8 * n) ∧
    CreateEmpty alloc bf n =
      if alloc (2 ^ log * 8)
      then Ret (StatusOK, with_blocks (Some (replicate (Z.to_nat (2 ^ log)) 0)) (with_size log (2 ^ log) bf))
      else Ret (OutOfMemory, with_size log (2 ^ log) bf).
Proof.
  intros Hn Hov. unfold CreateEmpty. change kMinNumBitsPerKey with 8 in *.
  rewrite (proj2 (Z.leb_gt _ _) Hov). set (d := Z.max 512 (n * 8)).
  assert (512 ≤ d < 2 ^ 63) as Hd by (subst d; lia).
  pose proof (Log2_spec d ltac:(lia)) as [Hlo Hhi]. set (L := Log2 d) in *.
  assert (9 ≤ L) as HL1.
  { destruct (Z.lt_ge_cases L 9); [|done]. pose proof (Z.pow_le_mono_r 2 L 8). lia. }
  assert (L ≤ 63) as HL2.
  { destruct (Z.le_gt_cases L 63); [done|]. pose proof (Z.pow_le_mono_r 2 63 (L - 1)). lia. }
  assert (2 ^ (L - 6) * 64 = 2 ^ L) as E1.
  { change 64 with (2 ^ 6). rewrite <-Z.pow_add_r by lia. f_equal. lia. }
  assert (2 ^ L = 2 * 2 ^ (L - 1)) as E2.
  { rewrite <-Z.pow_succ_r by lia. f_equal. lia. }
  exists (L - 6). split; [lia|]. split; [subst d; lia|].
  by rewrite Z.shiftl_1_l.
Qed.

Lemma empty_ok bf log :
  0 ≤ log ≤ 57 →
  bf_ok (with_blocks (Some (replicate (Z.to_nat (2 ^ log)) 0)) (with_size log (2 ^ log) bf))
        (replicate (Z.to_nat (2 ^ log)) 0).
Proof.
  intros Hlog. split; simpl; try done; try lia.
  - rewrite length_replicate. lia.
  - apply Forall_replicate. by apply fits_0.
Qed.

(** Every mask has a bit set, so no hash is found in an empty filter. *)
Definition masks_dense : Prop := ∀ id, 0 ≤ id < kNumMasks → kMinBitsSet ≤ window masks_ id ≤ kMaxBitsSet.

Lemma mask_nonzero hash : masks_dense → mask hash ≠ 0.
Proof.
  intros Hdense Hz. pose proof (mask_id_range hash) as Hid. pose proof (rotation_range hash) as Hr.
  destruct (cnt_pos_exists (Z.testbit (masks_mask masks_ (Z.land hash (kNumMasks - 1)))) 0 64)
    as (i & Hi & Hbit).
  { rewrite masks_mask_popcount by done. specialize (Hdense _ Hid). unfold kMinBitsSet in Hdense. lia. }
  unfold BloomFilter.mask in Hz. set (r := Z.land (Z.shiftr hash kLogNumMasks) 63) in *.
  assert (Z.testbit 0 ((i + r) mod 64) = true) as Hc; [|by rewrite Z.testbit_0_l in Hc].
  pose proof (Z.mod_pos_bound (i + r) 64 ltac:(lia)).
  rewrite <-Hz, ROTL64_spec by first [lia|apply (fits_mono 57); [lia|by apply masks_mask_fits]].
  rewrite <-Hbit. f_equal. rewrite Zminus_mod_idemp_l.
  replace (i + r - r) with i by lia. rewrite Z.mod_small; lia.
Qed.

Lemma find_in_empty log n hash : masks_dense → find_in log (replicate n 0) hash = false.
Proof.
  intros Hd. unfold find_in. destruct (replicate n 0 !! _) as [b|] eqn:E; [|done].
  apply lookup_replicate in E as [-> _]. by apply covers_0, mask_nonzero.
Qed.

(** *** Concurrent insertion

    Several threads insert their hashes into one filter.  [fetch_or] is
    atomic, so a run is a sequence of steps in which some thread inserts its
    next hash. *)

Inductive cstep : list (list Z) * BlockedBloomFilter → list (list Z) * BlockedBloomFilter → Prop :=
| cstep_insert threads t h hs bf bf' :
    threads !! t = Some (h :: hs) → Insert1 masks_ bf h = Ret bf' →
    cstep (threads, bf) (<[t := hs]> threads, bf').

Definition pending (threads : list (list Z)) : list Z := concat threads.

Lemma pending_insert (threads : list (list Z)) t h hs :
  threads !! t = Some (h :: hs) → Permutation (pending threads) (h :: pending (<[t := hs]> threads)).
Proof.
  revert t. induction threads as [|th ths IH]; intros [|t] Ht; simplify_eq/=; [done|].
  unfold pending in *. simpl. rewrite (IH t Ht). by rewrite <-Permutation_middle.
Qed.

Lemma cstep_run bf bs threads st :
  bf_ok bf bs → rtc cstep (threads, bf) st →
  ∃ ins, st.2 = with_blocks (Some (puts bf.(log_num_blocks_) bs ins)) bf ∧
         Permutation (ins ++ pending st.1) (pending threads).
Proof.
  intros Hok Hrun. remember (threads, bf) as st0 eqn:E0.
  assert (∃ ins, st0.2 = with_blocks (Some (puts bf.(log_num_blocks_) bs ins)) bf ∧
         Permutation (ins ++ pending st0.1) (pending threads)) as Hinit.
  { subst st0. exists []. simpl. split; [by rewrite with_blocks_id by apply Hok|done]. }
  clear E0. induction Hrun as [|st0 st1 st2 Hstep _ IH]; [done|]. apply IH. clear IH.
  destruct Hstep as [ths t h hs bf0 bf1 Ht Hins]. simpl in *.
  destruct Hinit as (ins & -> & Hperm). exists (ins ++ [h]).
  rewrite (Insert1_ok _ _ h (puts_ok _ _ ins Hok)) in Hins. simplify_eq. split.
  - by rewrite puts_app.
  - rewrite <-Hperm, <-app_assoc, (pending_insert ths t h hs) by done. done.
Qed.

Lemma cstep_finished bf bs threads threads' bf' :
  bf_ok bf bs → rtc cstep (threads, bf) (threads', bf') → pending threads' = [] →
  InsertImp bf (pending threads) = Ret bf'.
Proof.
  intros Hok Hrun Hnil. destruct (cstep_run _ _ _ _ Hok Hrun) as (ins & E & Hperm). simpl in *.
  rewrite Hnil, app_nil_r in Hperm. rewrite (InsertImp_ok _ _ _ Hok), E.
  do 3 f_equal. apply puts_set_eq. intros h. by rewrite Hperm.
Qed.

Lemma cstep_progress bf bs threads threads' bf' :
  bf_ok bf bs → rtc cstep (threads, bf) (threads', bf') → pending threads' ≠ [] →
  ∃ st, cstep (threads', bf') st.
Proof.
  intros Hok Hrun Hne. destruct (cstep_run _ _ _ _ Hok Hrun) as (ins & E & _). simpl in E. subst bf'.
  assert (∃ t h hs, threads' !! t = Some (h :: hs)) as (t & h & hs & Ht).
  { clear -Hne. unfold pending in Hne. induction threads' as [|[|h hs] ths IH]; [done| |].
    - destruct IH as (t & h & hs & ?); [done|]. by exists (S t), h, hs.
    - by exists 0%nat, h, hs. }
  eexists. eapply cstep_insert; [done|]. apply Insert1_ok. by apply puts_ok.
Qed.

End Facts.

(** ** A concrete table of masks

    Every thirteenth bit is set, so a window of 57 bits has four or five of
    them; used to instantiate the theorems. *)

Definition sample_masks : list Z :=
  map (λ k, fold_left Z.add (map (λ b, if (8 * k + b) mod 13 =? 0 then 2 ^ b else 0) (seqZ 0 8)) 0)
      (seqZ 0 kTotalBytes).

Lemma sample_masks_ok : masks_ok sample_masks.
Proof.
  split; [|by vm_compute].
  apply (Forall_impl (λ b, Is_true ((0 <=? b) && (b <? 2 ^ 8)))).
  - apply forallb_True. by vm_compute.
  - intros b Hb. apply Is_true_true, andb_true_iff in Hb. unfold fits. lia.
Qed.

Lemma sample_masks_dense : masks_dense sample_masks.
Proof.
  intros id Hid.
  assert (forallb (λ id, (kMinBitsSet <=? window sample_masks id) && (window sample_masks id <=? kMaxBitsSet))
            (seqZ 0 kNumMasks) = true) as Hall by (by vm_compute).
  rewrite forallb_forall in Hall. specialize (Hall id).
  rewrite <-list_elem_of_In, elem_of_seqZ, andb_true_iff, !Z.leb_le in Hall. apply Hall. lia.
Qed.

(** ** Properties *)

(** C27: no false negatives.  A filter created for any number of rows whose
    bit count fits in a signed 64-bit integer accepts every hash inserted
    into it, whatever the order and number of insertions; no access is
    undefined. *)
Theorem inserted_hash_is_found `{ArrowBitsOk} (masks_ : list Z) (alloc : Z → bool)
    (bf : BlockedBloomFilter) (num_rows : Z) (hashes : list Z) :
  masks_ok masks_ → 0 ≤ num_rows → num_rows * kMinNumBitsPerKey < 2 ^ 63 → (∀ size, alloc size = true) →
  ∃ bf1 bf2, CreateEmpty alloc bf num_rows = Ret (StatusOK, bf1) ∧
    InsertImp masks_ bf1 hashes = Ret bf2 ∧ ∀ h, h ∈ hashes → Find masks_ bf2 h = Ret true.
Proof.
  intros Hm Hn Hov Hal. destruct (CreateEmpty_ok alloc bf num_rows Hn Hov) as (log & Hlog & _ & HC).
  rewrite Hal in HC. pose proof (empty_ok bf log ltac:(lia)) as Hok.
  eexists _, _. split; [done|]. split; [by apply InsertImp_ok|].
  intros h Hin. pose proof (slot_in_range _ _ h Hok).
  rewrite (Find_find_in masks_ _ _ h (puts_ok masks_ Hm _ _ hashes Hok)).
  f_equal. by apply find_in_puts.
Qed.

Lemma inserted_hash_is_found_witness :
  ∃ bf1 bf2, CreateEmpty (λ _, true) new_filter 100 = Ret (StatusOK, bf1) ∧
    InsertImp sample_masks bf1 [7; 123456789; 2 ^ 63 + 5] = Ret bf2 ∧
    ∀ h, h ∈ [7; 123456789; 2 ^ 63 + 5] → Find sample_masks bf2 h = Ret true.
Proof.
  apply (inserted_hash_is_found sample_masks (λ _, true) new_filter 100);
    [apply sample_masks_ok|lia|by vm_compute|done].
Defined.

(** Creation.  [CreateEmpty] allocates a power of two of blocks, between
    the requested number of bits (eight per row, 512 at least) and twice that
    number, all clear: with masks of at least [kMinBitsSet] bits the new
    filter rejects every hash.  When the allocation fails the block pointer
    is left as it was. *)
Theorem created_filter_is_empty `{ArrowBitsOk} (masks_ : list Z) (alloc : Z → bool)
    (bf : BlockedBloomFilter) (num_rows : Z) :
  masks_ok masks_ → masks_dense masks_ → 0 ≤ num_rows → num_rows * kMinNumBitsPerKey < 2 ^ 63 →
  ∃ st bf1, CreateEmpty alloc bf num_rows = Ret (st, bf1) ∧
    bf1.(num_blocks_) = 2 ^ bf1.(log_num_blocks_) ∧
    Z.max 512 (8 * num_rows) ≤ bf1.(num_blocks_) * 64 < 2 * Z.max 512 (8 * num_rows) ∧
    match st with
    | StatusOK => alloc (bf1.(num_blocks_) * 8) = true ∧ ∀ h, Find masks_ bf1 h = Ret false
    | OutOfMemory => alloc (bf1.(num_blocks_) * 8) = false ∧ bf1.(blocks_) = bf.(blocks_)
    end.
Proof.
  intros Hm Hd Hn Hov. destruct (CreateEmpty_ok alloc bf num_rows Hn Hov) as (log & Hlog & Hbits & ->).
  destruct (alloc (2 ^ log * 8)) eqn:E.
  - eexists _, _. split; [done|]. cbn [num_blocks_ log_num_blocks_ with_blocks with_size].
    split_and!; [done|lia|lia|done|]. intros h. rewrite (Find_find_in masks_ _ _ h (empty_ok bf log ltac:(lia))).
    by rewrite find_in_empty.
  - eexists _, _. split; [done|]. cbn [num_blocks_ log_num_blocks_ with_blocks with_size].
    split_and!; [done|lia|lia|done|done].
Qed.

(** C31: concurrent insertion.  Whatever the interleaving of the threads'
    atomic [fetch_or]s, a run never gets stuck on an undefined access while a
    hash is pending, and when no hash is pending the filter is the one a
    single thread builds by inserting all of them. *)
Theorem concurrent_inserts_confluent `{ArrowBitsOk} (masks_ : list Z) (bf : BlockedBloomFilter)
    (bs : list Z) (threads threads' : list (list Z)) (bf' : BlockedBloomFilter) :
  masks_ok masks_ → bf_ok bf bs → rtc (cstep masks_) (threads, bf) (threads', bf') →
  (pending threads' = [] ∧ InsertImp masks_ bf (pending threads) = Ret bf') ∨
  (pending threads' ≠ [] ∧ ∃ st, cstep masks_ (threads', bf') st).
Proof.
  intros Hm Hok Hrun. destruct (decide (pending threads' = [])) as [E|E].
  - left. split; [done|]. by eapply cstep_finished.
  - right. split; [done|]. by eapply cstep_progress.
Qed.

Definition sample_filter : BlockedBloomFilter :=
  with_blocks (Some (replicate 8 0)) (with_size 3 8 new_filter).

Lemma sample_filter_ok : bf_ok sample_filter (replicate 8 0).
Proof. apply (empty_ok new_filter 3). lia. Qed.

(** The filter after thread 1 and then thread 0 have inserted their hash. *)
Definition sample_result : BlockedBloomFilter :=
  match InsertImp sample_masks sample_filter [70000; 1] with Ret bf => bf | _ => sample_filter end.

Lemma concurrent_inserts_confluent_witness :
  (pending [[]; []] = [] ∧ InsertImp sample_masks sample_filter (pending [[1]; [70000]]) = Ret sample_result) ∨
  (pending [[]; []] ≠ [] ∧ ∃ st, cstep sample_masks ([[]; []], sample_result) st).
Proof.
  apply (concurrent_inserts_confluent sample_masks sample_filter (replicate 8 0) [[1]; [70000]]);
    [apply sample_masks_ok|apply sample_filter_ok|].
  eapply rtc_l; [eapply (cstep_insert _ _ 1 70000 []); by vm_compute|].
  eapply rtc_l; [eapply (cstep_insert _ _ 0 1 []); by vm_compute|]. apply rtc_refl.
Defined.
