(* ===== verification/BloomFold.v ===== *)
(** * BlockedBloomFilter: folding

    Models [Fold], [SingleFold] and [NumBitsSet] of [bloom_filter.cpp] and
    relates a filter to the set of hashes it was built from. *)

From S2P Require Import Prelude Arrow BloomMasks BloomFilter.
Local Open Scope Z_scope.
Local Open Scope machine_scope.

Section FoldOperations.
  Context `{ArrowBits}.

(** [BlockedBloomFilter::NumBitsSet]. *)
Definition NumBitsSet (bf : BlockedBloomFilter) : outcome Z :=
  let* bs := deref bf.(blocks_) in
  Ret (CountSetBits (block_bytes bs) 0 (Z.shiftl 1 bf.(log_num_blocks_) * 64)).

Definition batch_size_max : Z := 65536.

(** The loop of [Fold] that counts the bits set, one batch at a time. *)
Fixpoint count_batches (fuel : nat) (bs : list Z) (num_bits i num_bits_set : Z) : outcome Z :=
  if i <? num_bits then
    match fuel with
    | O => NoFuel
    | S fuel =>
        let batch_size := Z.min (num_bits - i) batch_size_max in
        count_batches fuel bs num_bits (i + batch_size_max)
          (num_bits_set + CountSetBits (drop (Z.to_nat (i / 8)) (block_bytes bs)) 0 batch_size)
    end
  else Ret num_bits_set.

Definition log_num_blocks_min : Z := 4.

(** The loop of [Fold] that decides how many times to fold at once. *)
Fixpoint choose_folds (fuel : nat) (log num_bits num_bits_set num_folds : Z) : outcome Z :=
  if (log_num_blocks_min <? log - num_folds) && (4 * num_bits_set <? Z.shiftr num_bits num_folds) then
    match fuel with
    | O => NoFuel
    | S fuel => choose_folds fuel log num_bits num_bits_set (num_folds + 1)
    end
  else Ret num_folds.

(** [target_slice[i] |= source_slice[i]]. *)
Definition or_block (num_slice_blocks slice : Z) (bs : list Z) (i : Z) : outcome (list Z) :=
  let* s := deref (bs !! Z.to_nat (slice * num_slice_blocks + i)) in
  let* t := deref (bs !! Z.to_nat i) in
  Ret (<[Z.to_nat i := Z.lor t s]> bs).

(** The loop over the blocks of one slice. Its counter is an [int], which
    overflows when the slice has [2^31] blocks or more. *)
Definition or_slice (num_slice_blocks : Z) (bs : list Z) (slice : Z) : outcome (list Z) :=
  if 2 ^ 31 <=? num_slice_blocks then Undef
  else ofold (or_block num_slice_blocks slice) (seqZ 0 num_slice_blocks) bs.

(** [BlockedBloomFilter::SingleFold]. *)
Definition SingleFold (bf : BlockedBloomFilter) (num_folds : Z) : outcome BlockedBloomFilter :=
  let num_slices := Z.shiftl 1 num_folds in
  let num_slice_blocks := Z.shiftr bf.(num_blocks_) num_folds in
  let* bs := deref bf.(blocks_) in
  let* bs := ofold (or_slice num_slice_blocks) (seqZ 1 (num_slices - 1)) bs in
  let log := bf.(log_num_blocks_) - num_folds in
  Ret (with_size log (Z.shiftl 1 log) (with_blocks (Some bs) bf)).

(** The [for (;;)] loop of [BlockedBloomFilter::Fold]. *)
Fixpoint Fold_loop (fuel : nat) (bf : BlockedBloomFilter) : outcome BlockedBloomFilter :=
  match fuel with
  | O => NoFuel
  | S fuel =>
      if bf.(log_num_blocks_) <=? log_num_blocks_min then Ret bf else
      let num_bits := bf.(num_blocks_) * 64 in
      let* bs := deref bf.(blocks_) in
      let* num_bits_set := count_batches (Z.to_nat num_bits) bs num_bits 0 0 in
      if num_bits <=? 4 * num_bits_set then Ret bf else
      let* num_folds := choose_folds (Z.to_nat bf.(log_num_blocks_)) bf.(log_num_blocks_) num_bits num_bits_set 1 in
      let* bf := SingleFold bf num_folds in
      Fold_loop fuel bf
  end.

(** [BlockedBloomFilter::Fold].  Every iteration but the last reduces
    [log_num_blocks_], which bounds the number of iterations. *)
Definition Fold (bf : BlockedBloomFilter) : outcome BlockedBloomFilter :=
  Fold_loop (S (Z.to_nat bf.(log_num_blocks_))) bf.

End FoldOperations.

(** ** Counting *)

Section FoldFacts.
  Context `{ArrowBitsOk} (masks_ : list Z) (masks_good : masks_ok masks_).

Lemma count_batches_ok fuel bs num_bits i acc :
  0 ≤ i → i mod 64 = 0 → num_bits ≤ 64 * Z.of_nat (length bs) →
  num_bits - i ≤ Z.of_nat fuel * batch_size_max →
  count_batches fuel bs num_bits i acc = Ret (acc + cnt (block_bit bs) i (Z.to_nat (num_bits - i))).
Proof.
  unfold batch_size_max. revert i acc.
  induction fuel as [|fuel IH]; intros i acc Hi Hmod Hlen Hfuel; cbn [count_batches];
    (destruct (Z.ltb_spec i num_bits); [|by replace (Z.to_nat (num_bits - i)) with 0%nat by lia; rewrite Z.add_0_r]);
    [lia|].
  unfold batch_size_max. set (bsz := Z.min (num_bits - i) 65536).
  assert (8 * (i / 8) = i) as Hi8.
  { pose proof (Z_div_mod_eq_full i 64). pose proof (Z_div_mod_eq_full i 8).
    assert (i mod 8 = 0); [|lia].
    replace i with (8 * (8 * (i / 64))) by lia. rewrite Z.mul_comm. by apply Z.mod_mul. }
  rewrite IH; [|lia| |done|lia].
  2: { change 65536 with (1024 * 64). by rewrite Z.mod_add by lia. }
  f_equal. rewrite CountSetBits_spec; [|by apply Forall_drop, block_bytes_ok|lia|subst bsz; lia|].
  2: { rewrite length_drop, block_bytes_length. subst bsz. lia. }
  rewrite <-Z.add_assoc. f_equal.
  rewrite (cnt_shift _ (block_bit bs) 0 i).
  - replace (Z.to_nat (num_bits - i)) with (Z.to_nat bsz + Z.to_nat (num_bits - (i + 65536)))%nat
      by (subst bsz; lia).
    rewrite cnt_app. f_equal. subst bsz.
    destruct (Z.le_gt_cases 65536 (num_bits - i)).
    + f_equal. lia.
    + by replace (Z.to_nat (num_bits - (i + 65536))) with 0%nat by lia.
  - intros p Hp. subst bsz. rewrite Z.add_0_l, bit_at_drop, Hi8 by lia.
    apply block_bytes_bit. lia.
Qed.

Lemma NumBitsSet_ok bf bs :
  bf_ok bf bs → NumBitsSet bf = Ret (cnt (block_bit bs) 0 (Z.to_nat (bf.(num_blocks_) * 64))).
Proof.
  intros [Hb Hlog Hn Hlen _]. unfold NumBitsSet. rewrite Hb. orun.
  rewrite Z.shiftl_1_l, <-Hn, CountSetBits_spec; [|apply block_bytes_ok|lia|lia|].
  2: { rewrite block_bytes_length. lia. }
  f_equal. apply cnt_ext. intros i Hi. apply block_bytes_bit. lia.
Qed.

(** ** Deciding the number of folds *)

Lemma choose_folds_ok fuel log num_bits num_bits_set nf :
  1 ≤ nf ≤ log - log_num_blocks_min → log - nf ≤ Z.of_nat fuel →
  ∃ n, choose_folds fuel log num_bits num_bits_set nf = Ret n ∧ nf ≤ n ≤ log - log_num_blocks_min.
Proof.
  unfold log_num_blocks_min. revert nf.
  induction fuel as [|fuel IH]; intros nf Hnf Hfuel; cbn [choose_folds]; unfold log_num_blocks_min;
    (destruct (Z.ltb_spec 4 (log - nf)); cbn [andb]; [|by eauto with lia]);
    [lia|].
  destruct (_ <? _); [|by eauto with lia].
  destruct (IH (nf + 1)) as (n & -> & ?); [lia|lia|]. exists n. split; [done|lia].
Qed.

(** ** Folding the array *)

Lemma or_blocks_ok nsb slice (n : nat) a bs :
  1 ≤ slice → 0 ≤ a → a + Z.of_nat n ≤ nsb → (slice + 1) * nsb ≤ Z.of_nat (length bs) →
  Forall (fits 64) bs →
  ∃ bs', ofold (or_block nsb slice) (seqZ a (Z.of_nat n)) bs = Ret bs' ∧
    length bs' = length bs ∧ Forall (fits 64) bs' ∧
    ∀ z, 0 ≤ z → blk bs' z =
      if (a <=? z) && (z <? a + Z.of_nat n) then Z.lor (blk bs z) (blk bs (slice * nsb + z)) else blk bs z.
Proof.
  revert a bs. induction n as [|n IH]; intros a bs Hs Ha Han Hlen Hf.
  { rewrite seqZ_nil by lia. exists bs. split_and!; try done. intros z Hz.
    destruct (Z.leb_spec a z), (Z.ltb_spec z (a + Z.of_nat 0)); try done; lia. }
  rewrite seqZ_cons by lia. cbn [ofold]. unfold or_block at 1.
  rewrite (lookup_blk bs (slice * nsb + a)), (lookup_blk bs a) by nia. orun.
  destruct (IH (Z.succ a) (<[Z.to_nat a := Z.lor (blk bs a) (blk bs (slice * nsb + a))]> bs))
    as (bs' & Hret & Hl & Hf' & Hb); [lia|lia|lia|by rewrite length_insert| |].
  { apply Forall_insert; [done|]. apply fits_lor; [lia| |]; by apply blk_fits. }
  exists bs'. replace (Z.pred (Z.of_nat (S n))) with (Z.of_nat n) by lia.
  split; [done|]. rewrite length_insert in Hl. split; [done|]. split; [done|].
  intros z Hz. rewrite Hb by done. rewrite !blk_insert by nia.
  rewrite (proj2 (Z.eqb_neq a (slice * nsb + z))) by nia.
  destruct (Z.leb_spec (Z.succ a) z), (Z.leb_spec a z), (Z.ltb_spec z (Z.succ a + Z.of_nat n)),
    (Z.ltb_spec z (a + Z.of_nat (S n))), (Z.eqb_spec a z); cbn [andb]; try lia; try done; subst; done.
Qed.

Lemma or_slice_ok nsb slice bs :
  1 ≤ slice → 0 ≤ nsb < 2 ^ 31 → (slice + 1) * nsb ≤ Z.of_nat (length bs) → Forall (fits 64) bs →
  ∃ bs', or_slice nsb bs slice = Ret bs' ∧ length bs' = length bs ∧ Forall (fits 64) bs' ∧
    ∀ z, 0 ≤ z → blk bs' z =
      if z <? nsb then Z.lor (blk bs z) (blk bs (slice * nsb + z)) else blk bs z.
Proof.
  intros Hs Hn Hl Hf. unfold or_slice. rewrite (proj2 (Z.leb_gt _ _)) by lia.
  destruct (or_blocks_ok nsb slice (Z.to_nat nsb) 0 bs) as (bs' & Hret & ? & ? & Hb); [lia..|done|].
  rewrite Z2Nat.id in * by lia. exists bs'. split_and!; try done.
  intros z Hz. rewrite Hb by done. by rewrite (proj2 (Z.leb_le 0 z)) by done.
Qed.

Lemma or_slices_ok nsb (n : nat) a bs :
  1 ≤ a → 0 ≤ nsb < 2 ^ 31 → (a + Z.of_nat n) * nsb ≤ Z.of_nat (length bs) → Forall (fits 64) bs →
  ∃ bs', ofold (or_slice nsb) (seqZ a (Z.of_nat n)) bs = Ret bs' ∧
    length bs' = length bs ∧ Forall (fits 64) bs' ∧
    ∀ z j, 0 ≤ z < nsb → Z.testbit (blk bs' z) j =
      Z.testbit (blk bs z) j || existsb (λ k, Z.testbit (blk bs (k * nsb + z)) j) (seqZ a (Z.of_nat n)).
Proof.
  revert a bs. induction n as [|n IH]; intros a bs Ha Hn Hl Hf.
  { rewrite seqZ_nil by lia. exists bs. split_and!; try done. intros. cbn. by rewrite orb_false_r. }
  rewrite seqZ_cons by lia. replace (Z.pred (Z.of_nat (S n))) with (Z.of_nat n) by lia. cbn [ofold].
  destruct (or_slice_ok nsb a bs) as (b1 & -> & Hl1 & Hf1 & Hb1); [lia|lia|nia|done|]. orun.
  destruct (IH (Z.succ a) b1) as (bs' & Hret & Hl' & Hf' & Hb'); [lia|lia|rewrite Hl1; nia|done|].
  exists bs'. split; [done|]. split; [by rewrite Hl'|]. split; [done|].
  intros z j Hz. rewrite Hb' by done. rewrite Hb1, (proj2 (Z.ltb_lt z nsb)), Z.lor_spec by lia.
  cbn [existsb]. rewrite orb_assoc. f_equal.
  apply existsb_ext_in. intros k Hk%elem_of_seqZ.
  rewrite Hb1 by nia. by rewrite (proj2 (Z.ltb_ge _ _)) by nia.
Qed.

(** The blocks of the folded filter: block [z] is the union of the blocks
    [z], [z + n], [z + 2n], ... of the filter before. *)
Lemma SingleFold_ok bf bs nf :
  bf_ok bf bs → bf.(log_num_blocks_) ≤ 31 → 1 ≤ nf ≤ bf.(log_num_blocks_) →
  let log' := bf.(log_num_blocks_) - nf in
  ∃ bs', SingleFold bf nf = Ret (with_size log' (2 ^ log') (with_blocks (Some bs') bf)) ∧
    bf_ok (with_size log' (2 ^ log') (with_blocks (Some bs') bf)) bs' ∧
    ∀ z j, 0 ≤ z < 2 ^ log' → Z.testbit (blk bs' z) j =
      existsb (λ k, Z.testbit (blk bs (k * 2 ^ log' + z)) j) (seqZ 0 (2 ^ nf)).
Proof.
  intros [Hb Hlog Hn Hlen Hf] H31 Hnf log'.
  assert (Z.shiftr bf.(num_blocks_) nf = 2 ^ log') as Hnsb.
  { rewrite Hn, Z.shiftr_div_pow2 by lia. rewrite <-Z.pow_sub_r by lia. done. }
  assert (2 ^ nf * 2 ^ log' = bf.(num_blocks_)) as Hprod.
  { rewrite Hn, <-Z.pow_add_r by (subst log'; lia). f_equal. subst log'; lia. }
  pose proof (Z.pow_pos_nonneg 2 nf). pose proof (Z.pow_pos_nonneg 2 log').
  assert (2 ^ log' < 2 ^ 31) by (apply Z.pow_lt_mono_r; subst log'; lia).
  destruct (or_slices_ok (2 ^ log') (Z.to_nat (2 ^ nf - 1)) 1 bs) as (bs' & Hret & Hl' & Hf' & Hbit);
    [lia|lia|rewrite Z2Nat.id by lia; nia|done|].
  rewrite Z2Nat.id in Hret, Hbit by lia.
  exists bs'. split; [|split].
  - unfold SingleFold. rewrite Hb. orun. rewrite Hnsb, Z.shiftl_1_l, Hret. orun.
    fold log'. by rewrite Z.shiftl_1_l.
  - split; simpl; try done; [subst log'; lia|]. rewrite Hl'. subst log'. nia.
  - intros z j Hz. rewrite Hbit by done. rewrite (seqZ_cons 0) by lia. cbn [existsb].
    by rewrite Z.mul_0_l, Z.add_0_l, Z.sub_1_r.
Qed.

(** ** A filter as a set of hashes

    [represents bf hs]: the bits set in the used part of the array are those
    of the masks of the hashes in [hs]. *)

Definition represents (bf : BlockedBloomFilter) (hs : list Z) : Prop :=
  ∃ bs, bf_ok bf bs ∧
    ∀ z j, 0 ≤ z < bf.(num_blocks_) → 0 ≤ j →
      Z.testbit (blk bs z) j = existsb (hits masks_ bf.(log_num_blocks_) (Z.to_nat z) j) hs.

Lemma represents_empty bf log :
  0 ≤ log ≤ 57 →
  represents (with_blocks (Some (replicate (Z.to_nat (2 ^ log)) 0)) (with_size log (2 ^ log) bf)) [].
Proof.
  intros Hlog. eexists. split; [by apply empty_ok|]. simpl. intros z j Hz Hj.
  unfold blk, byte_at. destruct (replicate _ _ !! _) eqn:E; simpl; [|apply Z.testbit_0_l].
  apply lookup_replicate in E as [-> _]. apply Z.testbit_0_l.
Qed.

Lemma represents_InsertImp bf hs hashes :
  represents bf hs →
  ∃ bf', InsertImp masks_ bf hashes = Ret bf' ∧ represents bf' (hs ++ hashes) ∧
    bf'.(log_num_blocks_) = bf.(log_num_blocks_).
Proof.
  intros (bs & Hok & Hbit). eexists. split; [by apply InsertImp_ok|]. split; [|done].
  eexists. split; [by apply puts_ok|]. simpl. intros z j Hz Hj.
  pose proof (ok_len _ _ Hok).
  destruct (puts_lookup masks_ bf.(log_num_blocks_) bs hashes (Z.to_nat z) (blk bs z))
    as (b' & Hb' & Hj'); [by apply lookup_blk; lia|].
  rewrite (blk_lookup _ _ _ Hb'), Hj', Hbit by done. by rewrite existsb_app.
Qed.

Lemma represents_Find bf hs hash :
  represents bf hs →
  ∃ r, Find masks_ bf hash = Ret r ∧
    (r = true ↔ ∀ j, 0 ≤ j → Z.testbit (mask masks_ hash) j = true →
       ∃ h, h ∈ hs ∧ slot bf.(log_num_blocks_) h = slot bf.(log_num_blocks_) hash ∧
            Z.testbit (mask masks_ h) j = true).
Proof.
  intros (bs & Hok & Hbit).
  destruct (Find_ok masks_ bf bs hash Hok) as (b & Hb & HF). eexists. split; [done|].
  pose proof (ok_log _ _ Hok). pose proof (slot_lt bf.(log_num_blocks_) hash).
  rewrite covers_spec. pose proof (Hbit (Z.of_nat (slot bf.(log_num_blocks_) hash))) as Hbit'.
  rewrite (blk_lookup _ _ b) in Hbit' by (by rewrite Nat2Z.id).
  assert (∀ j, 0 ≤ j → Z.testbit b j = true ↔ ∃ h, h ∈ hs ∧
     slot bf.(log_num_blocks_) h = slot bf.(log_num_blocks_) hash ∧ Z.testbit (mask masks_ h) j = true) as Hb1.
  { intros j Hj. rewrite Hbit' by (rewrite ?(ok_num _ _ Hok); lia). rewrite Nat2Z.id, existsb_exists.
    unfold hits. setoid_rewrite andb_true_iff. setoid_rewrite bool_decide_eq_true.
    by setoid_rewrite <-list_elem_of_In. }
  split; intros Hall j Hj Hm.
  - apply Hb1; auto.
  - apply Hb1; auto.
Qed.

(** Folding commutes with the abstraction: the smaller filter represents the
    same set of hashes. *)
Lemma slot_fold log nf h :
  1 ≤ nf ≤ log → ∃ k, 0 ≤ k < 2 ^ nf ∧
    Z.of_nat (slot log h) = k * 2 ^ (log - nf) + Z.of_nat (slot (log - nf) h).
Proof.
  intros Hnf. unfold slot. set (x := h / 2 ^ 16).
  pose proof (Z.mod_pos_bound x (2 ^ log) ltac:(lia)).
  pose proof (Z.mod_pos_bound x (2 ^ (log - nf)) ltac:(apply Z.pow_pos_nonneg; lia)).
  assert (2 ^ log = 2 ^ (log - nf) * 2 ^ nf) as E.
  { rewrite <-Z.pow_add_r by lia. f_equal. lia. }
  rewrite !Z2Nat.id by lia. exists ((x / 2 ^ (log - nf)) mod 2 ^ nf).
  split; [by apply Z.mod_pos_bound; lia|].
  rewrite E, Z.rem_mul_r by lia. lia.
Qed.

Lemma represents_SingleFold bf hs nf :
  represents bf hs → bf.(log_num_blocks_) ≤ 31 → 1 ≤ nf ≤ bf.(log_num_blocks_) →
  ∃ bf', SingleFold bf nf = Ret bf' ∧ represents bf' hs ∧
    bf'.(log_num_blocks_) = bf.(log_num_blocks_) - nf.
Proof.
  intros (bs & Hok & Hbit) H31 Hnf.
  destruct (SingleFold_ok bf bs nf Hok H31 Hnf) as (bs' & Hret & Hok' & Hbit').
  eexists. split; [done|]. split; [|done]. exists bs'. split; [done|].
  simpl. intros z j Hz Hj. rewrite Hbit' by done. set (log := bf.(log_num_blocks_)) in *.
  pose proof (ok_num _ _ Hok) as Hn. fold log in Hn.
  assert (2 ^ log = 2 ^ (log - nf) * 2 ^ nf) as E.
  { rewrite <-Z.pow_add_r by lia. f_equal. lia. }
  apply eq_true_iff_eq. rewrite !existsb_exists. setoid_rewrite <-list_elem_of_In. split.
  - intros (k & Hk%elem_of_seqZ & Hkb). rewrite Hbit in Hkb by nia.
    apply existsb_exists in Hkb as (h & Hin & Hh). exists h. split; [by apply list_elem_of_In|].
    unfold hits in *. apply andb_true_iff in Hh as [Hs Hm]. rewrite Hm, andb_true_r.
    apply bool_decide_eq_true in Hs. apply bool_decide_eq_true.
    destruct (slot_fold log nf h Hnf) as (k' & Hk' & Es).
    pose proof (slot_lt (log - nf) h ltac:(lia)). rewrite Hs, Z2Nat.id in Es by nia.
    assert (k' = k) by nia. subst k'. nia.
  - intros (h & Hin & Hh). unfold hits in Hh. apply andb_true_iff in Hh as [Hs Hm].
    apply bool_decide_eq_true in Hs.
    destruct (slot_fold log nf h Hnf) as (k & Hk & Es). exists k.
    rewrite Hs, Z2Nat.id in Es by lia. split; [apply elem_of_seqZ; lia|].
    rewrite Hbit by nia. apply existsb_exists. exists h. split; [by apply list_elem_of_In|].
    unfold hits. rewrite Hm, andb_true_r. apply bool_decide_eq_true. lia.
Qed.

(** ** The whole loop *)

Definition dense_enough (bf : BlockedBloomFilter) : Prop :=
  bf.(log_num_blocks_) ≤ log_num_blocks_min ∨
  ∃ n, NumBitsSet bf = Ret n ∧ bf.(num_blocks_) * 64 ≤ 4 * n.

Lemma Fold_loop_ok fuel bf hs :
  represents bf hs → bf.(log_num_blocks_) ≤ 31 → bf.(log_num_blocks_) < Z.of_nat fuel →
  ∃ bf', Fold_loop fuel bf = Ret bf' ∧ represents bf' hs ∧ dense_enough bf' ∧
    Z.min log_num_blocks_min bf.(log_num_blocks_) ≤ bf'.(log_num_blocks_) ≤ bf.(log_num_blocks_).
Proof.
  revert bf. induction fuel as [|fuel IH]; intros bf Hrep H31 Hfuel.
  { destruct Hrep as (bs & Hok & _). pose proof (ok_log _ _ Hok). lia. }
  cbn [Fold_loop]. destruct (Z.leb_spec bf.(log_num_blocks_) log_num_blocks_min) as [Hmin|Hmin].
  { exists bf. split_and!; [done|done|by left|lia|lia]. }
  pose proof Hrep as (bs & Hok & _). pose proof (ok_blocks _ _ Hok) as Hb.
  pose proof (ok_len _ _ Hok) as Hlen. pose proof (ok_num _ _ Hok). pose proof (ok_log _ _ Hok).
  rewrite Hb. orun. rewrite count_batches_ok; [|lia|done|lia|unfold batch_size_max; lia]. orun.
  rewrite Z.add_0_l, Z.sub_0_r. pose proof (NumBitsSet_ok bf bs Hok) as Hnum.
  set (num := cnt (block_bit bs) 0 _) in *.
  destruct (Z.leb_spec (bf.(num_blocks_) * 64) (4 * num)) as [Hd|Hd].
  { exists bf. split_and!; [done|done| |lia|lia]. right. by exists num. }
  destruct (choose_folds_ok (Z.to_nat bf.(log_num_blocks_)) bf.(log_num_blocks_) (bf.(num_blocks_) * 64) num 1)
    as (nf & -> & Hnf); [lia|lia|]. orun.
  destruct (represents_SingleFold bf hs nf) as (bf1 & -> & Hrep1 & Hlog1);
    [done|done|unfold log_num_blocks_min in *; lia|]. orun.
  destruct (IH bf1) as (bf' & Hret & Hrep' & Hde & Hl); [done|lia|lia|].
  exists bf'. split_and!; try done; unfold log_num_blocks_min in *; lia.
Qed.

End FoldFacts.

(** ** Properties *)

(** C29: folding.  On a filter of at most [2^31] blocks that represents a set
    of hashes, [Fold] terminates without an undefined access; the folded
    filter represents the same set, so every one of its hashes is still
    found; it has the minimal size or at least a quarter of its bits set; it
    never shrinks below the minimal size. *)
Theorem fold_preserves_contents `{ArrowBitsOk} (masks_ : list Z) (bf : BlockedBloomFilter) (hs : list Z) :
  masks_ok masks_ → represents masks_ bf hs → bf.(log_num_blocks_) ≤ 31 →
  ∃ bf', Fold bf = Ret bf' ∧ represents masks_ bf' hs ∧
    (∀ h, h ∈ hs → Find masks_ bf' h = Ret true) ∧ dense_enough bf' ∧
    Z.min log_num_blocks_min bf.(log_num_blocks_) ≤ bf'.(log_num_blocks_) ≤ bf.(log_num_blocks_).
Proof.
  intros Hm Hrep H31. pose proof Hrep as (bs & Hok & _). pose proof (ok_log _ _ Hok).
  destruct (Fold_loop_ok masks_ (S (Z.to_nat bf.(log_num_blocks_))) bf hs)
    as (bf' & Hret & Hrep' & Hd & Hl); [done|done|lia|].
  exists bf'. split_and!; try done; try lia.
  intros h Hin. destruct (represents_Find masks_ bf' hs h Hrep') as (r & -> & Hr).
  f_equal. apply Hr. eauto.
Qed.

Definition sparse_filter : BlockedBloomFilter :=
  with_blocks (Some (replicate (Z.to_nat (2 ^ 6)) 0)) (with_size 6 (2 ^ 6) new_filter).

Lemma fold_preserves_contents_witness :
  ∃ bf, InsertImp sample_masks sparse_filter [42; 99] = Ret bf ∧
  ∃ bf', Fold bf = Ret bf' ∧ represents sample_masks bf' [42; 99] ∧
    (∀ h, h ∈ [42; 99] → Find sample_masks bf' h = Ret true) ∧ dense_enough bf' ∧
    Z.min log_num_blocks_min bf.(log_num_blocks_) ≤ bf'.(log_num_blocks_) ≤ bf.(log_num_blocks_).
Proof.
  destruct (represents_InsertImp sample_masks sample_masks_ok sparse_filter [] [42; 99]
    (represents_empty sample_masks new_filter 6 ltac:(lia))) as (bf & Hret & Hrep & Hlog).
  exists bf. split; [done|].
  apply (fold_preserves_contents sample_masks bf [42; 99]); [apply sample_masks_ok|done|].
  rewrite Hlog. by vm_compute.
Defined.

(** C30: refinement.  A filter that represents a set of hashes answers a
    membership query exactly as the set of the hashes' masks determines:
    it accepts a hash when, and only when, each bit of its mask belongs to
    the mask of an inserted hash of the same block.  Insertion of a batch
    adds the batch to the represented set. *)
Theorem filter_refines_hash_set `{ArrowBitsOk} (masks_ : list Z) (bf : BlockedBloomFilter)
    (hs hashes : list Z) (hash : Z) :
  masks_ok masks_ → represents masks_ bf hs →
  ∃ bf' r, InsertImp masks_ bf hashes = Ret bf' ∧ represents masks_ bf' (hs ++ hashes) ∧
    Find masks_ bf' hash = Ret r ∧
    (r = true ↔ ∀ j, 0 ≤ j → Z.testbit (mask masks_ hash) j = true →
       ∃ h, h ∈ hs ++ hashes ∧ slot bf.(log_num_blocks_) h = slot bf.(log_num_blocks_) hash ∧
            Z.testbit (mask masks_ h) j = true).
Proof.
  intros Hm Hrep. destruct (represents_InsertImp masks_ Hm bf hs hashes Hrep) as (bf' & Hret & Hrep' & Hlog).
  destruct (represents_Find masks_ bf' _ hash Hrep') as (r & HF & Hr). rewrite Hlog in Hr.
  by exists bf', r.
Qed.

Lemma filter_refines_hash_set_witness :
  ∃ bf' r, InsertImp sample_masks sparse_filter [42; 99] = Ret bf' ∧
    represents sample_masks bf' ([] ++ [42; 99]) ∧ Find sample_masks bf' 42 = Ret r ∧
    (r = true ↔ ∀ j, 0 ≤ j → Z.testbit (mask sample_masks 42) j = true →
       ∃ h, h ∈ [] ++ [42; 99] ∧
            slot sparse_filter.(log_num_blocks_) h = slot sparse_filter.(log_num_blocks_) 42 ∧
            Z.testbit (mask sample_masks h) j = true).
Proof.
  apply (filter_refines_hash_set sample_masks sparse_filter [] [42; 99] 42);
    [apply sample_masks_ok|apply represents_empty; lia].
Defined.
