(* ===== verification/BloomAvx2.v ===== *)
(** * BlockedBloomFilter: vectorised insertion and lookup

    Models [bloom_filter_avx2.cpp], and [Insert] of [bloom_filter.cpp], which
    chooses between the vector and the scalar code.  A 256-bit register is four
    64-bit lanes, and each AVX2 intrinsic is the operation of the instruction
    it stands for. *)

From S2P Require Import Prelude Arrow BloomMasks BloomFilter.
Local Open Scope Z_scope.
Local Open Scope machine_scope.

(** ** Registers *)

Record m256 := V { l0 : Z; l1 : Z; l2 : Z; l3 : Z }.

Definition vmap (f : Z → Z) (a : m256) : m256 := V (f a.(l0)) (f a.(l1)) (f a.(l2)) (f a.(l3)).

Definition vmap2 (f : Z → Z → Z) (a b : m256) : m256 :=
  V (f a.(l0) b.(l0)) (f a.(l1) b.(l1)) (f a.(l2) b.(l2)) (f a.(l3) b.(l3)).

Definition lane (a : m256) (k : nat) : Z :=
  match k with 0%nat => a.(l0) | 1%nat => a.(l1) | 2%nat => a.(l2) | _ => a.(l3) end.

(** The number whose bits [0 .. n-1] are given by [f]. *)
Fixpoint of_bits (f : nat → bool) (n : nat) : Z :=
  match n with
  | O => 0
  | S n => Z.b2z (f 0%nat) + 2 * of_bits (λ i, f (S i)) n
  end.

(** The value of a [w]-bit pattern as a signed integer. *)
Definition signed (w z : Z) : Z := if Z.testbit z (w - 1) then z - 2 ^ w else z.

Definition _mm256_set1_epi64x (a : Z) : m256 := let a := u64 a in V a a a a.
Definition _mm256_and_si256 : m256 → m256 → m256 := vmap2 Z.land.
Definition _mm256_or_si256 : m256 → m256 → m256 := vmap2 Z.lor.
Definition _mm256_sub_epi64 : m256 → m256 → m256 := vmap2 (λ a b, u64 (a - b)).
Definition _mm256_srli_epi64 (a : m256) (k : Z) : m256 :=
  vmap (λ x, if k <? 64 then Z.shiftr x k else 0) a.
Definition _mm256_srlv_epi64 : m256 → m256 → m256 :=
  vmap2 (λ x k, if k <? 64 then Z.shiftr x k else 0).
Definition _mm256_sllv_epi64 : m256 → m256 → m256 :=
  vmap2 (λ x k, if k <? 64 then u64 (Z.shiftl x k) else 0).
Definition _mm256_cmpeq_epi64 : m256 → m256 → m256 :=
  vmap2 (λ a b, if a =? b then 2 ^ 64 - 1 else 0).

(** One bit per byte: the most significant one, as a signed [int]. *)
Definition _mm256_movemask_epi8 (a : m256) : Z :=
  signed 32 (of_bits (λ j, Z.testbit (lane a (j / 8)) (Z.of_nat (8 * (j mod 8) + 7))) 32).

(** Four unaligned loads of eight bytes at [base + index * scale]. *)
Definition gather1 (base : list Z) (scale index : Z) : outcome Z :=
  if (0 <=? index) && (index * scale + 8 <=? Z.of_nat (length base))
  then Ret (load64 base (index * scale)) else Undef.

Definition _mm256_i64gather_epi64 (base : list Z) (index : m256) (scale : Z) : outcome m256 :=
  let* a := gather1 base scale index.(l0) in
  let* b := gather1 base scale index.(l1) in
  let* c := gather1 base scale index.(l2) in
  let* d := gather1 base scale index.(l3) in
  Ret (V a b c d).

(** [_mm256_loadu_si256] of the [i]-th group of four 64-bit values. *)
Definition _mm256_loadu_si256 (p : list Z) (i : Z) : outcome m256 :=
  match take 4 (drop (Z.to_nat (4 * i)) p) with
  | [a; b; c; d] => Ret (V a b c d)
  | _ => Undef
  end.

(** [_mm256_extract_epi64] returns a signed 64-bit integer. *)
Definition _mm256_extract_epi64 (a : m256) (k : nat) : Z := signed 64 (lane a k).

(** ** The vector code *)

Section Avx2.
  Context `{ArrowBits} (masks_ : list Z).

(** [BlockedBloomFilter::mask_avx2]. *)
Definition mask_avx2 (hash : m256) : outcome m256 :=
  let mask_id := _mm256_and_si256 hash (_mm256_set1_epi64x (kNumMasks - 1)) in
  let mask_byte_index := _mm256_srli_epi64 mask_id 3 in
  let* result := _mm256_i64gather_epi64 masks_ mask_byte_index 1 in
  let mask_bit_in_byte_index := _mm256_and_si256 mask_id (_mm256_set1_epi64x 7) in
  let result := _mm256_srlv_epi64 result mask_bit_in_byte_index in
  let result := _mm256_and_si256 result (_mm256_set1_epi64x kFullMask) in
  let rotation := _mm256_and_si256 (_mm256_srli_epi64 hash kLogNumMasks) (_mm256_set1_epi64x 63) in
  Ret (_mm256_or_si256 (_mm256_sllv_epi64 result rotation)
         (_mm256_srlv_epi64 result (_mm256_sub_epi64 (_mm256_set1_epi64x 64) rotation))).

(** [BlockedBloomFilter::block_id_avx2]. *)
Definition block_id_avx2 (bf : BlockedBloomFilter) (hash : m256) : m256 :=
  let result := _mm256_srli_epi64 hash (kLogNumMasks + 6) in
  _mm256_and_si256 result (_mm256_set1_epi64x (bf.(num_blocks_) - 1)).

(** [_mm256_movemask_epi8(_mm256_cmpeq_epi64(_mm256_and_si256(block, mask), mask))]
    for the group of four hashes at position [g]. *)
Definition find4 (bf : BlockedBloomFilter) (bs hashes : list Z) (g : Z) : outcome Z :=
  let* hash := _mm256_loadu_si256 hashes g in
  let* m := mask_avx2 hash in
  let block_id := block_id_avx2 bf hash in
  let* block := _mm256_i64gather_epi64 (block_bytes bs) block_id 8 in
  Ret (_mm256_movemask_epi8 (_mm256_cmpeq_epi64 (_mm256_and_si256 block m) m)).

(** One iteration of [FindImp_avx2]: eight hashes, one byte of the result. *)
Definition find8 (bf : BlockedBloomFilter) (bs hashes : list Z) (result_bit_vector : list Z) (i : Z)
    : outcome (list Z) :=
  let* mask_A := find4 bf bs hashes (2 * i + 0) in
  let* mask_B := find4 bf bs hashes (2 * i + 1) in
  let result_bytes := u32 mask_A in
  let result_bytes := Z.lor result_bytes (u64 (Z.shiftl (u64 mask_B) 32)) in
  if (Z.to_nat i <? length result_bit_vector)%nat
  then Ret (<[Z.to_nat i := wrap 8 (_mm256_movemask_epi8 (_mm256_set1_epi64x result_bytes))]> result_bit_vector)
  else Undef.

(** [BlockedBloomFilter::FindImp_avx2] and [Find_avx2]. *)
Definition Find_avx2 (bf : BlockedBloomFilter) (num_rows : Z) (hashes result_bit_vector : list Z)
    : outcome (list Z * Z) :=
  let* bs := deref bf.(blocks_) in
  let* result_bit_vector := ofold (find8 bf bs hashes) (seqZ 0 (num_rows / 8)) result_bit_vector in
  Ret (result_bit_vector, num_rows - num_rows mod 8).

(** One iteration of [InsertImp_avx2] on 64-bit hashes. *)
Definition insert4 (hashes : list Z) (bf : BlockedBloomFilter) (i : Z) : outcome BlockedBloomFilter :=
  let* hash := _mm256_loadu_si256 hashes i in
  let* m := mask_avx2 hash in
  let block_id := block_id_avx2 bf hash in
  ofold (λ bf k, fetch_or bf (_mm256_extract_epi64 block_id k) (u64 (_mm256_extract_epi64 m k)))
    [0; 1; 2; 3]%nat bf.

(** [BlockedBloomFilter::InsertImp_avx2] and [Insert_avx2]. *)
Definition Insert_avx2 (bf : BlockedBloomFilter) (num_rows : Z) (hashes : list Z)
    : outcome (BlockedBloomFilter * Z) :=
  let* bf := ofold (insert4 hashes) (seqZ 0 (num_rows / 4)) bf in
  Ret (bf, num_rows - num_rows mod 4).

(** [BlockedBloomFilter::Insert(hardware_flags, num_rows, hashes)]. *)
Definition Insert (hardware_flags : Z) (bf : BlockedBloomFilter) (num_rows : Z) (hashes : list Z)
    : outcome BlockedBloomFilter :=
  let* (bf, num_processed) :=
    if negb (Z.land hardware_flags CpuInfo_AVX2 =? 0) then Insert_avx2 bf num_rows hashes
    else Ret (bf, 0) in
  InsertImp masks_ bf (take (Z.to_nat (num_rows - num_processed)) (drop (Z.to_nat num_processed) hashes)).

End Avx2.

(** ** Bits *)

Lemma of_bits_testbit f n j :
  0 ≤ j → Z.testbit (of_bits f n) j = (j <? Z.of_nat n) && f (Z.to_nat j).
Proof.
  revert f j. induction n as [|n IH]; intros f j Hj; cbn [of_bits].
  { rewrite Z.testbit_0_l. by rewrite (proj2 (Z.ltb_ge j _)) by lia. }
  rewrite Z.add_comm. destruct (decide (j = 0)) as [->|Hne].
  - rewrite Z.testbit_0_r. by rewrite (proj2 (Z.ltb_lt 0 _)) by lia.
  - replace j with (Z.succ (j - 1)) at 1 by lia.
    rewrite Z.testbit_succ_r, IH by lia.
    replace (S (Z.to_nat (j - 1))) with (Z.to_nat j) by lia. f_equal.
    destruct (Z.ltb_spec (j - 1) (Z.of_nat n)), (Z.ltb_spec j (Z.of_nat (S n))); done || lia.
Qed.

Lemma of_bits_fits f n : fits (Z.of_nat n) (of_bits f n).
Proof.
  apply fits_bits; [lia| |].
  - revert f. induction n as [|n IH]; intros f; cbn [of_bits]; [lia|].
    specialize (IH (λ i, f (S i))). destruct (f 0%nat); simpl Z.b2z; lia.
  - intros i Hi. rewrite of_bits_testbit by lia. by rewrite (proj2 (Z.ltb_ge _ _)) by lia.
Qed.

Lemma signed_testbit w z j : 0 ≤ j < w → Z.testbit (signed w z) j = Z.testbit z j.
Proof.
  intros Hj. unfold signed. destruct (Z.testbit z (w - 1)); [|done].
  rewrite <-(Z.mod_pow2_bits_low (z - 2 ^ w) w j), <-(Z.mod_pow2_bits_low z w j) by lia.
  f_equal. replace (z - 2 ^ w) with (z + (-1) * 2 ^ w) by lia. apply Z.mod_add. lia.
Qed.

Lemma u64_signed z : fits 64 z → u64 (signed 64 z) = z.
Proof.
  intros Hz. apply (fits_ext 64); [by apply wrap_fits|done|].
  intros i Hi. unfold wrap. rewrite Z.mod_pow2_bits_low by lia. by apply signed_testbit.
Qed.

Lemma signed_small w z : 0 < w → fits (w - 1) z → signed w z = z.
Proof. intros Hw Hz. unfold signed. by rewrite (testbit_above (w - 1) z) by (done || lia). Qed.

(** A register whose lanes are all ones or all zeros. *)
Definition ones_if (b : bool) : Z := if b then 2 ^ 64 - 1 else 0.

Lemma ones_if_testbit b j : 0 ≤ j < 64 → Z.testbit (ones_if b) j = b.
Proof.
  intros Hj. destruct b; simpl ones_if; [|apply Z.testbit_0_l].
  change (2 ^ 64 - 1) with (Z.ones 64). by apply Z.ones_spec_low.
Qed.

Lemma movemask_ones (b0 b1 b2 b3 : bool) (j : Z) :
  0 ≤ j < 32 →
  Z.testbit (_mm256_movemask_epi8 (V (ones_if b0) (ones_if b1) (ones_if b2) (ones_if b3))) j
  = nth (Z.to_nat (j / 8)) [b0; b1; b2; b3] false.
Proof.
  intros Hj. unfold _mm256_movemask_epi8. rewrite signed_testbit, of_bits_testbit by lia.
  rewrite (proj2 (Z.ltb_lt j _)) by lia. cbn [andb].
  assert (Z.to_nat (j / 8) = (Z.to_nat j / 8)%nat) as -> by (rewrite Z2Nat.inj_div by lia; done).
  pose proof (Nat.mod_upper_bound (Z.to_nat j) 8 ltac:(lia)).
  assert (Z.to_nat j / 8 < 4)%nat by (apply Nat.Div0.div_lt_upper_bound; lia).
  destruct (Z.to_nat j / 8)%nat as [|[|[|[|k]]]]; cbn [lane l0 l1 l2 l3 nth]; try lia;
    apply ones_if_testbit; lia.
Qed.

(** ** The vector operations are the scalar ones, lane by lane *)

Definition v_fits (a : m256) : Prop := fits 64 a.(l0) ∧ fits 64 a.(l1) ∧ fits 64 a.(l2) ∧ fits 64 a.(l3).

Section VectorFacts.
  Context `{ArrowBitsOk} (masks_ : list Z) (masks_good : masks_ok masks_).

(** A left rotation as two variable shifts, the form the vector code uses. *)
Lemma rotate_lane x r :
  fits 64 x → 0 ≤ r < 64 →
  Z.lor (if r <? 64 then u64 (Z.shiftl x r) else 0)
        (if u64 (u64 64 - r) <? 64 then Z.shiftr x (u64 (u64 64 - r)) else 0) = ROTL64 x r.
Proof.
  intros Hx Hr. rewrite (proj2 (Z.ltb_lt r 64)) by lia.
  change (u64 64) with 64. rewrite (wrap_id 64 (64 - r)) by (unfold fits; lia).
  destruct (Z.ltb_spec (64 - r) 64).
  - apply (fits_ext 64); [by apply rotl_fits|by apply ROTL64_fits|].
    intros i Hi. by rewrite rotl_bits, ROTL64_spec.
  - assert (r = 0) as -> by lia. rewrite Z.shiftl_0_r, Z.lor_0_r, wrap_id by done.
    apply (fits_ext 64); [done|by apply ROTL64_fits|].
    intros i Hi. rewrite ROTL64_spec by (done || lia). by rewrite Z.sub_0_r, Z.mod_small by lia.
Qed.

Lemma gather_mask_lane x :
  gather1 masks_ 1 (if 3 <? 64 then Z.shiftr (Z.land x (u64 (kNumMasks - 1))) 3 else 0)
  = Ret (SafeLoadAs masks_ (Z.land x (kNumMasks - 1) / 8)).
Proof.
  change (u64 (kNumMasks - 1)) with (kNumMasks - 1). change (3 <? 64) with true. cbn iota.
  pose proof (mask_load_in_bounds _ (mask_id_range x)) as [Hlo Hhi].
  rewrite Z.shiftr_div_pow2 by lia. change (2 ^ 3) with 8. unfold gather1, SafeLoadAs.
  rewrite Z.mul_1_r. destruct masks_good as [_ ->].
  by rewrite (proj2 (Z.leb_le _ _) Hlo), (proj2 (Z.leb_le _ _) Hhi).
Qed.

Lemma mask_lane x (r := Z.land (if kLogNumMasks <? 64 then Z.shiftr x kLogNumMasks else 0) (u64 63))
    (m := Z.land (if Z.land (Z.land x (u64 (kNumMasks - 1))) (u64 7) <? 64
                  then Z.shiftr (SafeLoadAs masks_ (Z.land x (kNumMasks - 1) / 8))
                         (Z.land (Z.land x (u64 (kNumMasks - 1))) (u64 7)) else 0) (u64 kFullMask)) :
  Z.lor (if r <? 64 then u64 (Z.shiftl m r) else 0)
        (if u64 (u64 64 - r) <? 64 then Z.shiftr m (u64 (u64 64 - r)) else 0) = mask masks_ x.
Proof.
  assert (r = Z.land (Z.shiftr x kLogNumMasks) 63) as Hr by done.
  assert (m = masks_mask masks_ (Z.land x (kNumMasks - 1))) as Hm.
  { subst m. unfold masks_mask. change (u64 (kNumMasks - 1)) with (kNumMasks - 1).
    change (u64 7) with (2 ^ 3 - 1). rewrite land_pow2_pred by lia. change (2 ^ 3) with 8.
    change (u64 kFullMask) with kFullMask.
    pose proof (Z.mod_pos_bound (Z.land x (kNumMasks - 1)) 8). by rewrite (proj2 (Z.ltb_lt _ 64)) by lia. }
  clearbody r m. subst r m. unfold mask.
  apply rotate_lane; [|apply rotation_range].
  apply (fits_mono 57); [lia|by apply masks_mask_fits].
Qed.

Lemma mask_avx2_ok hash : mask_avx2 masks_ hash = Ret (vmap (mask masks_) hash).
Proof.
  unfold mask_avx2, _mm256_i64gather_epi64, _mm256_srli_epi64, _mm256_and_si256, _mm256_set1_epi64x,
    vmap, vmap2. cbn [l0 l1 l2 l3]. rewrite !gather_mask_lane. orun.
  unfold _mm256_or_si256, _mm256_sllv_epi64, _mm256_srlv_epi64, _mm256_sub_epi64, vmap2. cbn [l0 l1 l2 l3].
  by rewrite !mask_lane.
Qed.

Lemma block_id_avx2_ok bf bs hash : bf_ok bf bs → block_id_avx2 bf hash = vmap (block_id bf) hash.
Proof.
  intros Hok. unfold block_id_avx2, _mm256_and_si256, _mm256_srli_epi64, _mm256_set1_epi64x, vmap, vmap2.
  cbn [l0 l1 l2 l3]. unfold block_id. change (kLogNumMasks + 6 <? 64) with true. cbn iota.
  rewrite wrap_id; [done|]. pose proof (ok_log _ _ Hok). pose proof (ok_num _ _ Hok).
  pose proof (Z.pow_pos_nonneg 2 bf.(log_num_blocks_)).
  pose proof (Z.pow_le_mono_r 2 bf.(log_num_blocks_) 57). unfold fits. lia.
Qed.

Lemma block_id_range bf bs hash : bf_ok bf bs → 0 ≤ block_id bf hash < bf.(num_blocks_).
Proof.
  intros Hok. unfold block_id. rewrite (ok_num _ _ Hok). pose proof (ok_log _ _ Hok).
  rewrite land_pow2_pred by lia. by apply Z.mod_pos_bound; lia.
Qed.

Lemma load64_block_bytes bs k :
  Forall (fits 64) bs → 0 ≤ k < Z.of_nat (length bs) → load64 (block_bytes bs) (k * 8) = blk bs k.
Proof.
  intros Hf Hk. pose proof (block_bytes_length bs) as Hl. pose proof (block_bytes_ok bs) as Hb.
  apply (fits_ext 64); [apply load64_fits; (done || lia)|by apply blk_fits|].
  intros i Hi. rewrite load64_testbit, block_bytes_bit by (done || lia). unfold block_bit.
  replace (8 * (k * 8) + i) with (k * 64 + i) by lia.
  rewrite Z.div_add_l, Z.div_small, Z.add_0_r by lia.
  by rewrite Z.add_comm, Z.mod_add, Z.mod_small by lia.
Qed.

Lemma gather_block_lane bf bs x :
  bf_ok bf bs → gather1 (block_bytes bs) 8 (block_id bf x) = Ret (blk bs (block_id bf x)).
Proof.
  intros Hok. pose proof (block_id_range bf bs x Hok). pose proof (ok_len _ _ Hok).
  unfold gather1. rewrite block_bytes_length.
  rewrite (proj2 (Z.leb_le 0 _)), (proj2 (Z.leb_le _ _)) by lia. cbn [andb].
  rewrite load64_block_bytes; [done|apply Hok|lia].
Qed.

Lemma find_in_blk bf bs x :
  bf_ok bf bs → find_in masks_ bf.(log_num_blocks_) bs x = covers (blk bs (block_id bf x)) (mask masks_ x).
Proof.
  intros Hok. unfold find_in. rewrite <-(block_id_slot bf bs x Hok).
  pose proof (block_id_range bf bs x Hok). pose proof (ok_len _ _ Hok).
  by rewrite lookup_blk by lia.
Qed.

Lemma loadu_ok (hashes : list Z) g h0 h1 h2 h3 :
  take 4 (drop (Z.to_nat (4 * g)) hashes) = [h0; h1; h2; h3] →
  _mm256_loadu_si256 hashes g = Ret (V h0 h1 h2 h3).
Proof. unfold _mm256_loadu_si256. by intros ->. Qed.

Lemma find4_ok bf bs hashes g h0 h1 h2 h3 (f := find_in masks_ bf.(log_num_blocks_) bs) :
  bf_ok bf bs → take 4 (drop (Z.to_nat (4 * g)) hashes) = [h0; h1; h2; h3] →
  find4 masks_ bf bs hashes g =
    Ret (_mm256_movemask_epi8 (V (ones_if (f h0)) (ones_if (f h1)) (ones_if (f h2)) (ones_if (f h3)))).
Proof.
  intros Hok Hload. unfold find4. rewrite (loadu_ok _ _ _ _ _ _ Hload). orun.
  rewrite mask_avx2_ok. orun. rewrite (block_id_avx2_ok bf bs _ Hok).
  unfold _mm256_i64gather_epi64, vmap. cbn [l0 l1 l2 l3]. rewrite !(gather_block_lane bf bs _ Hok). orun.
  unfold _mm256_cmpeq_epi64, _mm256_and_si256, vmap2. cbn [l0 l1 l2 l3].
  subst f. by rewrite !(find_in_blk bf bs _ Hok).
Qed.

Lemma take4_drop (l : list Z) z :
  0 ≤ z → z + 4 ≤ Z.of_nat (length l) →
  take 4 (drop (Z.to_nat z) l) = [blk l z; blk l (z + 1); blk l (z + 2); blk l (z + 3)].
Proof.
  intros Hz Hl.
  assert (∀ k : nat, (k < 4)%nat → l !! (k + Z.to_nat z)%nat = Some (blk l (z + Z.of_nat k))) as Hk.
  { intros k Hk. replace (k + Z.to_nat z)%nat with (Z.to_nat (z + Z.of_nat k)) by lia. apply lookup_blk. lia. }
  pose proof (Hk 0%nat ltac:(lia)) as E0. pose proof (Hk 1%nat ltac:(lia)) as E1.
  pose proof (Hk 2%nat ltac:(lia)) as E2. pose proof (Hk 3%nat ltac:(lia)) as E3. cbn [Nat.add] in *.
  rewrite (drop_S _ _ _ E0), (drop_S _ _ _ E1), (drop_S _ _ _ E2), (drop_S _ _ _ E3).
  cbn [take]. by rewrite Z.add_0_r.
Qed.

(** Byte [i] of the result holds the answers for the rows [8i .. 8i+7]. *)
Lemma find8_ok bf bs hashes rbv i (f := λ p, find_in masks_ bf.(log_num_blocks_) bs (blk hashes p)) :
  bf_ok bf bs → 0 ≤ i → 8 * i + 8 ≤ Z.of_nat (length hashes) → i < Z.of_nat (length rbv) →
  ∃ b, find8 masks_ bf bs hashes rbv i = Ret (<[Z.to_nat i := b]> rbv) ∧ fits 8 b ∧
    ∀ k, 0 ≤ k < 8 → Z.testbit b k = f (8 * i + k).
Proof.
  intros Hok Hi Hlen Hrbv. unfold find8.
  rewrite (find4_ok bf bs hashes (2 * i + 0) _ _ _ _ Hok (take4_drop hashes (4 * (2 * i + 0)) ltac:(lia) ltac:(lia))).
  orun.
  rewrite (find4_ok bf bs hashes (2 * i + 1) _ _ _ _ Hok (take4_drop hashes (4 * (2 * i + 1)) ltac:(lia) ltac:(lia))).
  orun. rewrite (proj2 (Nat.ltb_lt _ _)) by lia. eexists. split; [done|]. split; [by apply wrap_fits|].
  intros k Hk. unfold wrap at 1. rewrite Z.mod_pow2_bits_low by lia.
  unfold _mm256_movemask_epi8 at 1. rewrite signed_testbit, of_bits_testbit by lia.
  rewrite (proj2 (Z.ltb_lt k _)) by lia. cbn [andb].
  assert (Z.to_nat k / 8 = 0)%nat as -> by (apply Nat.div_small; lia).
  rewrite Nat.mod_small by lia. cbn [lane l0 _mm256_set1_epi64x].
  unfold wrap at 1. rewrite Z.mod_pow2_bits_low by lia. rewrite Z.lor_spec. unfold wrap.
  rewrite (Z.mod_pow2_bits_low (Z.shiftl _ _)), Z.shiftl_spec by lia.
  replace (Z.of_nat (8 * Z.to_nat k + 7)) with (8 * k + 7) by lia.
  destruct (Z.lt_ge_cases k 4).
  - rewrite Z.mod_pow2_bits_low, movemask_ones by lia.
    rewrite (Z.testbit_neg_r _ (8 * k + 7 - 32)), orb_false_r by lia.
    replace ((8 * k + 7) / 8) with k by (apply (Z.div_unique_pos _ _ _ 7); lia). unfold f.
    assert (k = 0 ∨ k = 1 ∨ k = 2 ∨ k = 3) as [-> | [-> | [-> | ->]]] by lia; cbn [nth Z.to_nat Pos.to_nat Pos.iter_op Init.Nat.add];
      do 2 f_equal; lia.
  - rewrite Z.mod_pow2_bits_high by lia. rewrite Z.mod_pow2_bits_low, movemask_ones by lia. rewrite orb_false_l.
    replace ((8 * k + 7 - 32) / 8) with (k - 4) by (apply (Z.div_unique_pos _ _ _ 7); lia). unfold f.
    assert (k = 4 ∨ k = 5 ∨ k = 6 ∨ k = 7) as [-> | [-> | [-> | ->]]] by lia; cbn [nth Z.to_nat Pos.to_nat Pos.iter_op Init.Nat.add];
      do 2 f_equal; lia.
Qed.

Lemma bit_at_insert bs i b p :
  0 ≤ i < Z.of_nat (length bs) → 0 ≤ p →
  bit_at (<[Z.to_nat i := b]> bs) p = if p / 8 =? i then Z.testbit b (p mod 8) else bit_at bs p.
Proof.
  intros Hi Hp. unfold bit_at. pose proof (Z.div_pos p 8 Hp ltac:(lia)).
  change (byte_at (<[Z.to_nat i := b]> bs) (Z.to_nat (p / 8))) with (blk (<[Z.to_nat i := b]> bs) (p / 8)).
  rewrite blk_insert by lia. rewrite Z.eqb_sym. by destruct (p / 8 =? i).
Qed.

(** After the loop the bit vector holds the answers of the rows it covered. *)
Lemma find8_loop bf bs hashes (n : nat) a rbv
    (f := λ p, find_in masks_ bf.(log_num_blocks_) bs (blk hashes p)) :
  bf_ok bf bs → 0 ≤ a → 8 * (a + Z.of_nat n) ≤ Z.of_nat (length hashes) →
  a + Z.of_nat n ≤ Z.of_nat (length rbv) → bytes_ok rbv →
  ∃ rbv', ofold (find8 masks_ bf bs hashes) (seqZ a (Z.of_nat n)) rbv = Ret rbv' ∧
    length rbv' = length rbv ∧ bytes_ok rbv' ∧
    ∀ p, 0 ≤ p → bit_at rbv' p =
      if (8 * a <=? p) && (p <? 8 * (a + Z.of_nat n)) then f p else bit_at rbv p.
Proof.
  revert a rbv. induction n as [|n IH]; intros a rbv Hok Ha Hlen Hl Hb.
  { rewrite seqZ_nil by lia. exists rbv. split_and!; try done. intros p Hp.
    destruct (Z.leb_spec (8 * a) p), (Z.ltb_spec p (8 * (a + Z.of_nat 0))); try done; lia. }
  rewrite seqZ_cons by lia. cbn [ofold].
  destruct (find8_ok bf bs hashes rbv a) as (b & -> & Hfb & Hbits); [done|lia|lia|lia|]. orun.
  destruct (IH (Z.succ a) (<[Z.to_nat a := b]> rbv)) as (rbv' & Hret & Hl' & Hb' & Hp');
    [done|lia|lia|rewrite length_insert; lia|by apply Forall_insert|].
  replace (Z.pred (Z.of_nat (S n))) with (Z.of_nat n) by lia.
  exists rbv'. split; [done|]. rewrite length_insert in Hl'. split_and!; try done.
  intros p Hp. rewrite Hp', bit_at_insert by lia.
  pose proof (Z_div_mod_eq_full p 8). pose proof (Z.mod_pos_bound p 8 ltac:(lia)).
  destruct (Z.eqb_spec (p / 8) a) as [E|E].
  - rewrite Hbits by lia.
    rewrite (proj2 (Z.leb_gt (8 * Z.succ a) p)), (proj2 (Z.leb_le (8 * a) p)), (proj2 (Z.ltb_lt p (8 * (a + Z.of_nat (S n))))) by lia.
    cbn [andb]. by replace (8 * a + p mod 8) with p by lia.
  - destruct (Z.leb_spec (8 * Z.succ a) p), (Z.leb_spec (8 * a) p), (Z.ltb_spec p (8 * (Z.succ a + Z.of_nat n))),
      (Z.ltb_spec p (8 * (a + Z.of_nat (S n)))); cbn [andb]; try done; lia.
Qed.

Lemma Find_avx2_ok bf bs hashes num_rows
    (f := λ p, find_in masks_ bf.(log_num_blocks_) bs (blk hashes p)) (len := Z.to_nat (num_rows / 8 + 8)) :
  bf_ok bf bs → 0 ≤ num_rows ≤ Z.of_nat (length hashes) →
  ∃ rbv, Find_avx2 masks_ bf num_rows hashes (replicate len 0) = Ret (rbv, num_rows - num_rows mod 8) ∧
    length rbv = len ∧ bytes_ok rbv ∧
    ∀ p, 0 ≤ p → bit_at rbv p = (p <? 8 * (num_rows / 8)) && f p.
Proof.
  intros Hok Hn. pose proof (Z_div_mod_eq_full num_rows 8). pose proof (Z.mod_pos_bound num_rows 8 ltac:(lia)).
  destruct (find8_loop bf bs hashes (Z.to_nat (num_rows / 8)) 0 (replicate len 0))
    as (rbv & Hret & Hl & Hb & Hp); [done|lia|lia|rewrite length_replicate; subst len; lia| |].
  { apply Forall_replicate. by apply fits_0. }
  rewrite Z2Nat.id in * by lia. exists rbv. unfold Find_avx2. rewrite (ok_blocks _ _ Hok). orun. rewrite Hret. orun.
  rewrite length_replicate in Hl. split_and!; try done.
  intros p Hp0. rewrite Hp, bit_at_zero, Z.add_0_l, (proj2 (Z.leb_le (8 * 0) p)) by lia. cbn [andb].
  destruct (p <? _); done.
Qed.

(** *** Insertion *)

Lemma extract_lanes (bf : BlockedBloomFilter) bs h0 h1 h2 h3 k h :
  bf_ok bf bs → [h0; h1; h2; h3] !! k = Some h →
  _mm256_extract_epi64 (vmap (block_id bf) (V h0 h1 h2 h3)) k = block_id bf h ∧
  u64 (_mm256_extract_epi64 (vmap (mask masks_) (V h0 h1 h2 h3)) k) = mask masks_ h.
Proof.
  intros Hok Hk. unfold _mm256_extract_epi64.
  assert (lane (vmap (block_id bf) (V h0 h1 h2 h3)) k = block_id bf h ∧
          lane (vmap (mask masks_) (V h0 h1 h2 h3)) k = mask masks_ h) as [-> ->].
  { destruct k as [|[|[|[|k]]]]; cbn in Hk; by simplify_eq. }
  pose proof (block_id_range bf bs h Hok). pose proof (ok_log _ _ Hok). pose proof (ok_num _ _ Hok).
  split; [|by apply u64_signed, mask_fits]. apply signed_small; [lia|]. split; [lia|].
  apply (Z.lt_le_trans _ (2 ^ bf.(log_num_blocks_))); [lia|]. apply Z.pow_le_mono_r; lia.
Qed.

Lemma insert4_ok bf bs hashes i :
  bf_ok bf bs → 0 ≤ i → 4 * i + 4 ≤ Z.of_nat (length hashes) →
  insert4 masks_ hashes bf i = InsertImp masks_ bf (take 4 (drop (Z.to_nat (4 * i)) hashes)).
Proof.
  intros Hok Hi Hlen. rewrite take4_drop by lia. unfold insert4.
  rewrite (loadu_ok _ _ _ _ _ _ (take4_drop hashes (4 * i) ltac:(lia) ltac:(lia))). orun.
  rewrite mask_avx2_ok. orun. rewrite (block_id_avx2_ok bf bs _ Hok).
  unfold InsertImp, Insert1. cbn [ofold].
  pose proof (extract_lanes bf bs (blk hashes (4 * i)) (blk hashes (4 * i + 1)) (blk hashes (4 * i + 2))
    (blk hashes (4 * i + 3))) as Hx.
  destruct (Hx 0%nat _ Hok eq_refl) as [-> ->], (Hx 1%nat _ Hok eq_refl) as [-> ->],
    (Hx 2%nat _ Hok eq_refl) as [-> ->], (Hx 3%nat _ Hok eq_refl) as [-> ->]. clear Hx.
  generalize (blk hashes (4 * i)) (blk hashes (4 * i + 1)) (blk hashes (4 * i + 2)) (blk hashes (4 * i + 3)).
  intros h0 h1 h2 h3.
  assert (∀ bf' h, num_blocks_ bf' = num_blocks_ bf →
    fetch_or bf' (block_id bf h) (mask masks_ h) = fetch_or bf' (block_id bf' h) (mask masks_ h)) as Hsame.
  { intros bf' h E. unfold block_id. by rewrite E. }
  unfold fetch_or at 1 5. destruct (blocks_ bf) as [bs0|]; orun; [|done].
  destruct (bs0 !! _) as [b0|]; orun; [|done]. rewrite (Hsame _ h1) by done.
  unfold fetch_or at 1 4. cbn [blocks_ with_blocks]. orun.
  destruct (_ !! Z.to_nat (block_id _ h1)); orun; [|done]. rewrite (Hsame _ h2) by done.
  unfold fetch_or at 1 3. cbn [blocks_ with_blocks]. orun.
  destruct (_ !! Z.to_nat (block_id _ h2)); orun; [|done]. by rewrite (Hsame _ h3) by done.
Qed.

Lemma InsertImp_app bf hs1 hs2 :
  InsertImp masks_ bf (hs1 ++ hs2) = obind (InsertImp masks_ bf hs1) (λ bf, InsertImp masks_ bf hs2).
Proof. apply ofold_app. Qed.

Lemma insert4_loop hashes (n : nat) a bf bs :
  bf_ok bf bs → 0 ≤ a → 4 * (a + Z.of_nat n) ≤ Z.of_nat (length hashes) →
  ofold (insert4 masks_ hashes) (seqZ a (Z.of_nat n)) bf =
    InsertImp masks_ bf (take (4 * n) (drop (Z.to_nat (4 * a)) hashes)).
Proof.
  revert a bf bs. induction n as [|n IH]; intros a bf bs Hok Ha Hlen; [done|].
  rewrite seqZ_cons by lia. cbn [ofold]. rewrite (insert4_ok bf bs) by (done || lia).
  replace (take (4 * S n) (drop (Z.to_nat (4 * a)) hashes)) with
    (take 4 (drop (Z.to_nat (4 * a)) hashes) ++ take (4 * n) (drop (Z.to_nat (4 * Z.succ a)) hashes)).
  - rewrite InsertImp_app, (InsertImp_ok masks_ masks_good bf bs) by done. orun.
    replace (Z.pred (Z.of_nat (S n))) with (Z.of_nat n) by lia.
    by rewrite (IH _ _ _ (puts_ok masks_ masks_good _ _ _ Hok)) by lia.
  - replace (Z.to_nat (4 * Z.succ a)) with (Z.to_nat (4 * a) + 4)%nat by lia.
    rewrite <-drop_drop. replace (4 * S n)%nat with (4 + 4 * n)%nat by lia. by rewrite take_take_drop.
Qed.

Lemma Insert_ok flags bf bs num_rows hashes :
  bf_ok bf bs → 0 ≤ num_rows ≤ Z.of_nat (length hashes) →
  Insert masks_ flags bf num_rows hashes = InsertImp masks_ bf (take (Z.to_nat num_rows) hashes).
Proof.
  intros Hok Hn. unfold Insert. destruct (negb _); cycle 1.
  { orun. by rewrite Z.sub_0_r. }
  pose proof (Z_div_mod_eq_full num_rows 4). pose proof (Z.mod_pos_bound num_rows 4 ltac:(lia)).
  unfold Insert_avx2. set (m := num_rows / 4) in *.
  pose proof (insert4_loop hashes (Z.to_nat m) 0 bf bs Hok) as E. rewrite Z2Nat.id in E by lia.
  rewrite E by lia. clear E.
  replace (take (Z.to_nat num_rows) hashes) with
    (take (4 * Z.to_nat m) hashes ++ take (Z.to_nat (num_rows - 4 * m)) (drop (4 * Z.to_nat m) hashes)).
  - rewrite InsertImp_app. change (drop (Z.to_nat (4 * 0)) hashes) with hashes.
    rewrite (InsertImp_ok masks_ masks_good bf bs) by done. orun.
    replace (num_rows - num_rows mod 4) with (4 * m) by lia.
    by replace (Z.to_nat (4 * m)) with (4 * Z.to_nat m)%nat by lia.
  - rewrite take_take_drop. f_equal. lia.
Qed.

End VectorFacts.

(** C32: vectorised insertion.  Inserting the first [num_rows] hashes of a
    batch with the AVX2 code (four lanes at a time, the rest one by one)
    leaves the same filter as the scalar loop, whatever the hardware flags. *)
Theorem vector_insert_is_scalar_insert `{ArrowBitsOk} (masks_ : list Z) (flags : Z)
    (bf : BlockedBloomFilter) (bs : list Z) (num_rows : Z) (hashes : list Z) :
  masks_ok masks_ → bf_ok bf bs → 0 ≤ num_rows ≤ Z.of_nat (length hashes) →
  Insert masks_ flags bf num_rows hashes = InsertImp masks_ bf (take (Z.to_nat num_rows) hashes) ∧
  ∃ bf', Insert masks_ flags bf num_rows hashes = Ret bf' ∧ ∀ p h, 0 ≤ p < num_rows →
    hashes !! Z.to_nat p = Some h → Find masks_ bf' h = Ret true.
Proof.
  intros Hm Hok Hn. rewrite (Insert_ok masks_ Hm flags bf bs) by done. split; [done|].
  rewrite (InsertImp_ok masks_ Hm bf bs) by done. eexists. split; [done|]. intros p h Hp Hh.
  pose proof (slot_in_range _ _ h Hok).
  rewrite (Find_find_in masks_ _ _ h (puts_ok masks_ Hm _ _ _ Hok)). f_equal.
  apply find_in_puts; try done. apply list_elem_of_lookup. exists (Z.to_nat p). by rewrite lookup_take_lt by lia.
Qed.

Lemma vector_insert_is_scalar_insert_witness :
  Insert sample_masks 4 sample_filter 5 [11; 70000; 3; 2 ^ 40; 9; 10] =
    InsertImp sample_masks sample_filter (take (Z.to_nat 5) [11; 70000; 3; 2 ^ 40; 9; 10]) ∧
  ∃ bf', Insert sample_masks 4 sample_filter 5 [11; 70000; 3; 2 ^ 40; 9; 10] = Ret bf' ∧ ∀ p h, 0 ≤ p < 5 →
    [11; 70000; 3; 2 ^ 40; 9; 10] !! Z.to_nat p = Some h → Find sample_masks bf' h = Ret true.
Proof.
  apply (vector_insert_is_scalar_insert sample_masks 4 sample_filter (replicate 8 0));
    [apply sample_masks_ok|apply sample_filter_ok|simpl length; lia].
Defined.
