(* ===== verification/BloomLookup.v ===== *)
(** * BlockedBloomFilter: lookup of a batch

    Models the functions of [bloom_filter.cpp] that look up a whole batch of
    hashes: [Find] with its choice between the vector and the scalar code,
    [FindImp], and [basic_decoder], which turns the bit vector of the vector
    code into a selection vector. *)

From S2P Require Import Prelude Arrow BloomMasks BloomFilter BloomAvx2.
Local Open Scope Z_scope.
Local Open Scope machine_scope.

(** ** Lookup of a batch *)

(** The output of a lookup: a selection vector and the number of its entries
    that have been filled. *)
Record sel_state := mkSel { sel_vector : list Z; result_count : Z }.

(** [SelectionVector::set_index] stores a [sel_t], a 32-bit unsigned integer. *)
Definition set_index (sel : list Z) (idx loc : Z) : outcome (list Z) :=
  if (0 <=? idx) && (idx <? Z.of_nat (length sel)) then Ret (<[Z.to_nat idx := u32 loc]> sel) else Undef.

(** [sel.set_index(result_count, i); result_count += result]. *)
Definition record_result (s : sel_state) (i : Z) (result : bool) : outcome sel_state :=
  let* sel := set_index s.(sel_vector) s.(result_count) i in
  Ret (mkSel sel (s.(result_count) + Z.b2z result)).

Fixpoint pos_ctz (p : positive) : Z :=
  match p with xO p => 1 + pos_ctz p | _ => 0 end.

(** [trailingzeroes] of a nonzero word. *)
Definition trailingzeroes (z : Z) : Z := match z with Zpos p => pos_ctz p | _ => 0 end.

(** [basic_decoder]: the positions of the bits set, in increasing order.
    The loop runs once per bit set, at most 64 times. *)
Fixpoint basic_decoder (fuel : nat) (s : sel_state) (idx bits : Z) : outcome sel_state :=
  if bits =? 0 then Ret s else
  match fuel with
  | O => NoFuel
  | S fuel =>
      let value := u32 (u32 idx + trailingzeroes bits) in
      let* sel := set_index s.(sel_vector) s.(result_count) value in
      basic_decoder fuel (mkSel sel (s.(result_count) + 1)) idx (Z.land bits (bits - 1))
  end.

Definition kPrefetchLimitBytes : Z := 256 * 1024.

Definition UsePrefetch (bf : BlockedBloomFilter) : bool := kPrefetchLimitBytes <? bf.(num_blocks_) * 8.

Definition kPrefetchIterations : Z := 16.

Section Lookup.
  Context `{ArrowBits} (masks_ : list Z).

(** [BlockedBloomFilter::FindImp].  [PREFETCH] has no effect on the state,
    but its argument reads the hash sixteen rows ahead. *)
Definition FindImp (bf : BlockedBloomFilter) (num_rows num_preprocessed : Z) (hashes : list Z)
    (s : sel_state) (enable_prefetch : bool) : outcome sel_state :=
  let* (s, num_processed) :=
    if enable_prefetch && UsePrefetch bf then
      let* s := ofold (λ s i,
          let* _ := deref (hashes !! Z.to_nat (i + kPrefetchIterations)) in
          let* h := deref (hashes !! Z.to_nat i) in
          let* result := Find masks_ bf h in
          record_result s i result) (seqZ 0 (num_rows - kPrefetchIterations)) s in
      Ret (s, num_rows - kPrefetchIterations)
    else Ret (s, 0) in
  let num_processed := if num_processed <? 0 then 0 else num_processed in
  ofold (λ s i,
      let* h := deref (hashes !! Z.to_nat i) in
      let* result := Find masks_ bf h in
      record_result s (i + num_preprocessed) result) (seqZ num_processed (num_rows - num_processed)) s.

(** The word [i] of the result bit vector, decoded. *)
Definition decode_word (result_bit_vector : list Z) (s : sel_state) (i : Z) : outcome sel_state :=
  if 8 * i + 8 <=? Z.of_nat (length result_bit_vector)
  then basic_decoder 64 s (64 * i) (load64 result_bit_vector (8 * i)) else Undef.

(** [BlockedBloomFilter::Find(hardware_flags, num_rows, hashes, sel, result_count, enable_prefetch)]. *)
Definition FindBatch (hardware_flags : Z) (bf : BlockedBloomFilter) (num_rows : Z) (hashes : list Z)
    (s : sel_state) (enable_prefetch : bool) : outcome sel_state :=
  let* (s, num_processed) :=
    if negb (enable_prefetch && UsePrefetch bf) && negb (Z.land hardware_flags CpuInfo_AVX2 =? 0) then
      let result_bit_vector := replicate (Z.to_nat (num_rows / 8 + 8)) 0 in
      let* (result_bit_vector, num_processed) := Find_avx2 masks_ bf num_rows hashes result_bit_vector in
      let* s := ofold (decode_word result_bit_vector) (seqZ 0 (num_rows / 64 + 1)) s in
      Ret (s, num_processed - num_processed mod 8)
    else Ret (s, 0) in
  FindImp bf (num_rows - num_processed) num_processed (drop (Z.to_nat num_processed) hashes) s enable_prefetch.

End Lookup.

(** ** The selection vector *)

(** The first entries of the selection vector are [l]; it has room for [cap]. *)
Definition sel_is (s : sel_state) (l : list Z) (cap : nat) : Prop :=
  length s.(sel_vector) = cap ∧ s.(result_count) = Z.of_nat (length l) ∧ l `prefix_of` s.(sel_vector).

(** The positions of [a .. a+n-1] at which [f] holds, in increasing order. *)
Definition positions (f : Z → bool) (a n : Z) : list Z := filter (λ p, f p = true) (seqZ a n).

Lemma positions_app f a n1 n2 :
  0 ≤ n1 → 0 ≤ n2 → positions f a (n1 + n2) = positions f a n1 ++ positions f (a + n1) n2.
Proof. intros. unfold positions. rewrite seqZ_app by lia. apply filter_app. Qed.

Lemma positions_ext f g a n :
  (∀ p, a ≤ p < a + n → f p = g p) → positions f a n = positions g a n.
Proof.
  intros Hfg. unfold positions. induction (seqZ a n) as [|x l IH] eqn:E in a, n, Hfg |- *; [done|].
  destruct (Z.lt_ge_cases 0 n); [|by rewrite seqZ_nil in E by lia].
  rewrite seqZ_cons in E by lia. injection E as <- El.
  assert (f a = g a) as Ea by (apply Hfg; lia).
  specialize (IH (Z.succ a) (Z.pred n) (λ p Hp, Hfg p ltac:(lia)) El).
  rewrite !filter_cons, Ea, IH. by destruct (decide (g a = true)).
Qed.

Lemma positions_none f a n : (∀ p, a ≤ p < a + n → f p = false) → positions f a n = [].
Proof.
  intros Hf. rewrite (positions_ext f (λ _, false)) by done. unfold positions.
  induction (seqZ a n) as [|x l IH]; [done|]. by rewrite filter_cons_False.
Qed.

Lemma positions_shift f a n d : Z.add d <$> positions (λ p, f (d + p)) a n = positions f (d + a) n.
Proof.
  unfold positions. rewrite <-fmap_add_seqZ. induction (seqZ a n) as [|x l IH]; [done|].
  rewrite fmap_cons, !filter_cons. destruct (decide (f (d + x) = true)); csimpl; by rewrite IH.
Qed.

Lemma positions_length f a n : (length (positions f a n) ≤ Z.to_nat n)%nat.
Proof. unfold positions. etransitivity; [apply length_filter|]. by rewrite length_seqZ. Qed.

Lemma positions_cons f a n :
  0 < n → positions f a n = (if f a then [a] else []) ++ positions f (Z.succ a) (Z.pred n).
Proof.
  intros. unfold positions. rewrite seqZ_cons, filter_cons by lia.
  destruct (f a) eqn:E; destruct (decide _); congruence || done.
Qed.

Lemma elem_of_positions f a n p : p ∈ positions f a n ↔ a ≤ p < a + n ∧ f p = true.
Proof. unfold positions. rewrite list_elem_of_filter, elem_of_seqZ. lia || tauto. Qed.

Lemma set_index_ok s l cap v :
  sel_is s l cap → (length l < cap)%nat → fits 32 v →
  ∃ sel, set_index s.(sel_vector) s.(result_count) v = Ret sel ∧
    length sel = cap ∧ (l ++ [v]) `prefix_of` sel.
Proof.
  intros (Hl & Hc & k & Hk) Hlt Hv. unfold set_index. rewrite Hc.
  rewrite (proj2 (Z.leb_le 0 _)), (proj2 (Z.ltb_lt _ _)) by lia. cbn [andb].
  rewrite wrap_id by done. eexists. split; [done|]. rewrite length_insert. split; [done|].
  rewrite Nat2Z.id, Hk, insert_app_r_alt, Nat.sub_diag by lia.
  rewrite Hk, length_app in Hl. destruct k as [|x k]; [simpl in Hl; lia|].
  exists k. simpl. by rewrite <-app_assoc.
Qed.

Lemma record_result_ok s l cap v (r : bool) :
  sel_is s l cap → (length l < cap)%nat → fits 32 v →
  ∃ s', record_result s v r = Ret s' ∧ sel_is s' (l ++ if r then [v] else []) cap.
Proof.
  intros Hs Hlt Hv. destruct (set_index_ok s l cap v Hs Hlt Hv) as (sel & E & Hsel & Hpre).
  destruct Hs as (_ & Hc & _). unfold record_result. rewrite E. orun.
  eexists. split; [done|]. unfold sel_is. cbn [sel_vector result_count]. rewrite Hc, length_app.
  split_and!; [done|destruct r; cbn; lia|].
  destruct r; [done|]. rewrite app_nil_r. etransitivity; [|done]. by apply prefix_app_r.
Qed.

(** A loop that records one result per row. *)
Lemma record_loop (body : sel_state → Z → outcome sel_state) (f : Z → bool) (d cap : nat) n a l s :
  (∀ s i, a ≤ i < a + Z.of_nat n → body s i = record_result s (i + Z.of_nat d) (f i)) →
  sel_is s l cap → (length l + n ≤ cap)%nat → 0 ≤ a → a + Z.of_nat d + Z.of_nat n ≤ 2 ^ 32 →
  ∃ s', ofold body (seqZ a (Z.of_nat n)) s = Ret s' ∧
    sel_is s' (l ++ (Z.add (Z.of_nat d) <$> positions f a (Z.of_nat n))) cap.
Proof.
  revert a l s. induction n as [|n IH]; intros a l s Hbody Hs Hcap Ha Hb.
  { rewrite seqZ_nil by lia. exists s. split; [done|]. unfold positions. rewrite seqZ_nil by lia. by rewrite app_nil_r. }
  rewrite seqZ_cons by lia. cbn [ofold]. rewrite Hbody by lia.
  destruct (record_result_ok s l cap (a + Z.of_nat d) (f a) Hs) as (s1 & -> & Hs1);
    [lia|unfold fits; lia|]. orun. replace (Z.pred (Z.of_nat (S n))) with (Z.of_nat n) by lia.
  destruct (IH (Z.succ a) (l ++ if f a then [a + Z.of_nat d] else []) s1) as (s' & E & Hs');
    [intros; apply Hbody; lia|done|rewrite length_app; destruct (f a); simpl; lia|lia|lia|].
  exists s'. split; [done|]. rewrite positions_cons, fmap_app, app_assoc by lia.
  replace (Z.pred (Z.of_nat (S n))) with (Z.of_nat n) by lia.
  destruct (f a); [|done]. cbn. by rewrite (Z.add_comm (Z.of_nat d)).
Qed.

(** ** The decoder *)

Lemma pos_ctz_spec p :
  0 ≤ pos_ctz p ∧ Z.testbit (Z.pos p) (pos_ctz p) = true ∧
  ∀ j, j < pos_ctz p → Z.testbit (Z.pos p) j = false.
Proof.
  induction p as [p IH|p (Hp & Ht & Hf)|]; cbn [pos_ctz];
    [split_and!; [lia|done|intros; by apply Z.testbit_neg_r]| |
     split_and!; [lia|done|intros; by apply Z.testbit_neg_r]].
  change (Z.pos p~0) with (2 * Z.pos p). replace (1 + pos_ctz p) with (Z.succ (pos_ctz p)) by lia.
  split_and!; [lia|by rewrite Z.testbit_even_succ|]. intros j Hj.
  destruct (Z.lt_trichotomy j 0) as [?|[->|?]]; [by apply Z.testbit_neg_r|apply Z.testbit_even_0|].
  replace j with (Z.succ (j - 1)) by lia. rewrite Z.testbit_even_succ by lia. apply Hf. lia.
Qed.

(** [bits & (bits - 1)] clears the lowest bit set. *)
Lemma clear_lowest p j :
  0 ≤ j → Z.testbit (Z.land (Z.pos p) (Z.pos p - 1)) j = Z.testbit (Z.pos p) j && negb (j =? pos_ctz p).
Proof.
  revert j. induction p as [p _|p IH|]; intros j Hj; cbn [pos_ctz]; rewrite Z.land_spec.
  - replace (Z.pos p~1 - 1) with (2 * Z.pos p) by lia. replace (Z.pos p~1) with (2 * Z.pos p + 1) by lia.
    destruct (decide (j = 0)) as [->|]; [by rewrite Z.testbit_even_0, andb_false_r, andb_false_r|].
    replace j with (Z.succ (j - 1)) by lia. rewrite Z.testbit_even_succ, Z.testbit_odd_succ by lia.
    rewrite (proj2 (Z.eqb_neq _ _)) by lia. by destruct (Z.testbit _ _).
  - replace (Z.pos p~0 - 1) with (2 * (Z.pos p - 1) + 1) by lia. replace (Z.pos p~0) with (2 * Z.pos p) by lia.
    destruct (decide (j = 0)) as [->|]; [by rewrite Z.testbit_even_0|].
    replace j with (Z.succ (j - 1)) by lia. rewrite Z.testbit_even_succ, Z.testbit_odd_succ by lia.
    specialize (IH (j - 1) ltac:(lia)). rewrite Z.land_spec in IH. rewrite IH. do 2 f_equal.
    destruct (Z.eqb_spec (j - 1) (pos_ctz p)), (Z.eqb_spec (Z.succ (j - 1)) (1 + pos_ctz p)); done || lia.
  - change (1 - 1) with 0. rewrite Z.testbit_0_l, andb_false_r.
    destruct (Z.eqb_spec j 0) as [->|]; [done|]. by rewrite (testbit_above 1) by (unfold fits; lia).
Qed.

(** Splitting the positions of a word at its lowest bit set. *)
Lemma positions_lowest p (clear := Z.land (Z.pos p) (Z.pos p - 1)) :
  fits 64 (Z.pos p) →
  positions (Z.testbit (Z.pos p)) 0 64 = pos_ctz p :: positions (Z.testbit clear) 0 64.
Proof.
  intros Hfit. destruct (pos_ctz_spec p) as (Hc & Ht & Hlow). set (c := pos_ctz p) in *.
  assert (c < 64) by (destruct (Z.lt_ge_cases c 64); [done|]; by rewrite (testbit_above 64) in Ht by (done || lia)).
  replace 64 with (c + (1 + (63 - c))) by lia.
  rewrite !positions_app, !Z.add_0_l by lia.
  rewrite (positions_none (Z.testbit (Z.pos p)) 0 c), (positions_none (Z.testbit clear) 0 c); cycle 1.
  { intros j Hj. unfold clear. by rewrite clear_lowest, Hlow by lia. }
  { intros j Hj. apply Hlow. lia. }
  rewrite (positions_ext (Z.testbit clear) (Z.testbit (Z.pos p)) (c + 1)); cycle 1.
  { intros j Hj. unfold clear. rewrite clear_lowest by lia. rewrite (proj2 (Z.eqb_neq _ _)) by lia. apply andb_true_r. }
  rewrite (positions_none (Z.testbit clear) c 1); cycle 1.
  { intros j Hj. unfold clear. rewrite clear_lowest by lia. replace j with c by lia. fold c.
    by rewrite Z.eqb_refl, andb_false_r. }
  rewrite positions_cons, Ht by lia. done.
Qed.

Lemma basic_decoder_ok fuel s l cap idx bits :
  sel_is s l cap → fits 64 bits → 0 ≤ idx →
  (length (positions (Z.testbit bits) 0 64) ≤ fuel)%nat →
  (length l + length (positions (Z.testbit bits) 0 64) ≤ cap)%nat →
  (∀ k, Z.testbit bits k = true → idx + k < 2 ^ 32) → 
  ∃ s', basic_decoder fuel s idx bits = Ret s' ∧
    sel_is s' (l ++ (Z.add idx <$> positions (Z.testbit bits) 0 64)) cap.
Proof.
  revert s l bits. induction fuel as [|fuel IH]; intros s l bits Hs Hfit Hidx Hfuel Hcap Hlt.
  all: destruct bits as [|p|p]; [| |destruct Hfit; lia].
  1, 3: exists s; split; [done|]; rewrite positions_none by (intros; apply Z.testbit_0_l); by rewrite app_nil_r.
  { rewrite positions_lowest in Hfuel by done. simpl in Hfuel. lia. }
  destruct (pos_ctz_spec p) as (Hc & Ht & _). pose proof (Hlt _ Ht) as Hv.
  rewrite positions_lowest in Hfuel, Hcap |- * by done. cbn [length] in Hfuel, Hcap.
  cbn [basic_decoder Z.eqb trailingzeroes]. rewrite (wrap_id 32 idx), wrap_id by (unfold fits; lia).
  destruct (set_index_ok s l cap (idx + pos_ctz p) Hs) as (sel & -> & Hsel & Hpre); [lia|unfold fits; lia|].
  orun. set (s1 := mkSel sel (s.(result_count) + 1)).
  assert (sel_is s1 (l ++ [idx + pos_ctz p]) cap) as Hs1.
  { destruct Hs as (_ & Hcount & _). split_and!; [done| |done]. cbn. rewrite Hcount, length_app. cbn. lia. }
  destruct (IH s1 _ (Z.land (Z.pos p) (Z.pos p - 1)) Hs1) as (s' & -> & Hs');
    [by apply fits_land_l|done|lia|rewrite length_app; cbn [length]; lia| |].
  { intros k Hk. apply Hlt. rewrite Z.land_spec in Hk. by apply andb_prop in Hk as [? _]. }
  exists s'. split; [done|]. by rewrite <-app_assoc in Hs'.
Qed.

Lemma decode_word_ok rbv i l cap s :
  sel_is s l cap → bytes_ok rbv → 0 ≤ i → 8 * i + 8 ≤ Z.of_nat (length rbv) →
  (length l + length (positions (bit_at rbv) (64 * i) 64) ≤ cap)%nat →
  (∀ p, bit_at rbv p = true → p < 2 ^ 32) →
  ∃ s', decode_word rbv s i = Ret s' ∧ sel_is s' (l ++ positions (bit_at rbv) (64 * i) 64) cap.
Proof.
  intros Hs Hb Hi Hlen Hcap Hlt. unfold decode_word. rewrite (proj2 (Z.leb_le _ _)) by done.
  assert (positions (bit_at rbv) (64 * i) 64 =
    Z.add (64 * i) <$> positions (Z.testbit (load64 rbv (8 * i))) 0 64) as E.
  { rewrite (positions_ext (Z.testbit _) (λ k, bit_at rbv (64 * i + k))).
    - by rewrite positions_shift, Z.add_0_r.
    - intros k Hk. rewrite load64_testbit by (done || lia). f_equal. lia. }
  rewrite E in Hcap |- *. rewrite length_fmap in Hcap.
  apply basic_decoder_ok; try done; [apply load64_fits; (done || lia)|lia|apply positions_length|].
  intros k Hk. destruct (decide (0 ≤ k < 64)) as [Hk'|Hk'].
  - rewrite load64_testbit in Hk by (done || lia). apply Hlt in Hk. lia.
  - destruct (Z.lt_ge_cases k 0); [by rewrite Z.testbit_neg_r in Hk|].
    rewrite (testbit_above 64) in Hk; [done|apply load64_fits; (done || lia)|lia].
Qed.

Lemma decode_loop rbv cap (n : nat) a l s :
  sel_is s l cap → bytes_ok rbv → 0 ≤ a → 8 * (a + Z.of_nat n) ≤ Z.of_nat (length rbv) →
  (length l + length (positions (bit_at rbv) (64 * a) (64 * Z.of_nat n)) ≤ cap)%nat →
  (∀ p, bit_at rbv p = true → p < 2 ^ 32) →
  ∃ s', ofold (decode_word rbv) (seqZ a (Z.of_nat n)) s = Ret s' ∧
    sel_is s' (l ++ positions (bit_at rbv) (64 * a) (64 * Z.of_nat n)) cap.
Proof.
  intros Hs Hb. revert a l s Hs. induction n as [|n IH]; intros a l s Hs Ha Hlen Hcap Hlt.
  { rewrite seqZ_nil by lia. exists s. split; [done|]. rewrite positions_none by lia. by rewrite app_nil_r. }
  replace (64 * Z.of_nat (S n)) with (64 + 64 * Z.of_nat n) in * by lia.
  rewrite positions_app in * by lia. rewrite length_app in Hcap.
  rewrite seqZ_cons by lia. cbn [ofold].
  destruct (decode_word_ok rbv a l cap s) as (s1 & -> & Hs1); [done|done|lia|lia|lia|done|]. orun.
  replace (Z.pred (Z.of_nat (S n))) with (Z.of_nat n) by lia.
  replace (64 * a + 64) with (64 * Z.succ a) in * by lia. rewrite app_assoc.
  apply IH; [done|lia|lia|rewrite length_app; lia|done].
Qed.

(** ** The lookup *)

Section LookupFacts.
  Context `{ArrowBitsOk} (masks_ : list Z) (masks_good : masks_ok masks_).

(** Whether the filter answers yes for the hash at position [p]. *)
Definition hit (bf : BlockedBloomFilter) (bs hashes : list Z) (p : Z) : bool :=
  find_in masks_ bf.(log_num_blocks_) bs (blk hashes p).

(** The two loops of [FindImp]; the first one also reads the hash sixteen rows ahead. *)
Lemma prefetch_loop_ok bf bs num_rows hashes s l cap (n := Z.to_nat (num_rows - kPrefetchIterations)) :
  bf_ok bf bs → num_rows ≤ Z.of_nat (length hashes) → num_rows ≤ 2 ^ 32 →
  sel_is s l cap → (length l + n ≤ cap)%nat →
  ∃ s', ofold (λ s i,
      let* _ := deref (hashes !! Z.to_nat (i + kPrefetchIterations)) in
      let* h := deref (hashes !! Z.to_nat i) in
      let* result := Find masks_ bf h in
      record_result s i result) (seqZ 0 (num_rows - kPrefetchIterations)) s = Ret s' ∧
    sel_is s' (l ++ positions (hit bf bs hashes) 0 (Z.of_nat n)) cap.
Proof.
  intros Hok Hn Hw Hs Hcap.
  assert (seqZ 0 (num_rows - kPrefetchIterations) = seqZ 0 (Z.of_nat n)) as ->.
  { unfold n. destruct (Z.lt_ge_cases (num_rows - kPrefetchIterations) 0); [by rewrite !seqZ_nil by lia|f_equal; lia]. }
  subst n. unfold kPrefetchIterations in *.
  edestruct (record_loop (λ s i,
      let* _ := deref (hashes !! Z.to_nat (i + 16)) in
      let* h := deref (hashes !! Z.to_nat i) in
      let* result := Find masks_ bf h in record_result s i result)
    (hit bf bs hashes) 0 cap (Z.to_nat (num_rows - 16)) 0 l s) as (s1 & -> & Hs1); [|done|lia|lia|lia|].
  { intros s0 i Hi. rewrite (lookup_blk hashes (i + 16)), (lookup_blk hashes i) by lia. orun.
    rewrite (Find_find_in masks_ bf bs) by done. by rewrite Z.add_0_r. }
  exists s1. split; [done|]. by rewrite positions_shift in Hs1.
Qed.

Lemma scalar_loop_ok bf bs num_rows d q hashes s l cap :
  bf_ok bf bs → 0 ≤ q ≤ num_rows → num_rows ≤ Z.of_nat (length hashes) → 0 ≤ d → d + num_rows ≤ 2 ^ 32 →
  sel_is s l cap → (length l + Z.to_nat (num_rows - q) ≤ cap)%nat →
  ∃ s', ofold (λ s i,
      let* h := deref (hashes !! Z.to_nat i) in
      let* result := Find masks_ bf h in
      record_result s (i + d) result) (seqZ q (num_rows - q)) s = Ret s' ∧
    sel_is s' (l ++ (Z.add d <$> positions (hit bf bs hashes) q (num_rows - q))) cap.
Proof.
  intros Hok Hq Hn Hd Hw Hs Hcap.
  edestruct (record_loop (λ s i, let* h := deref (hashes !! Z.to_nat i) in
      let* result := Find masks_ bf h in record_result s (i + d) result)
    (hit bf bs hashes) (Z.to_nat d) cap (Z.to_nat (num_rows - q)) q l s) as (s' & E & Hs'); [|done|lia|lia|lia|].
  { intros s0 i Hi. rewrite Z2Nat.id, (lookup_blk hashes i) by lia. orun.
    by rewrite (Find_find_in masks_ bf bs) by done. }
  rewrite !Z2Nat.id in * by lia. by exists s'.
Qed.

Lemma FindImp_ok bf bs num_rows d hashes s l cap pf :
  bf_ok bf bs → 0 ≤ num_rows ≤ Z.of_nat (length hashes) → 0 ≤ d → d + num_rows ≤ 2 ^ 32 →
  (pf && UsePrefetch bf = true → d = 0) →
  sel_is s l cap → (length l + Z.to_nat num_rows ≤ cap)%nat →
  ∃ s', FindImp masks_ bf num_rows d hashes s pf = Ret s' ∧
    sel_is s' (l ++ (Z.add d <$> positions (hit bf bs hashes) 0 num_rows)) cap.
Proof.
  intros Hok Hn Hd Hw Hpf Hs Hcap. unfold FindImp.
  destruct (pf && UsePrefetch bf); cycle 1.
  { orun. change (if 0 <? 0 then 0 else 0) with 0. 
    edestruct (scalar_loop_ok bf bs num_rows d 0) as (s' & -> & Hs'); [done|lia|lia|lia|lia|done|lia|].
    rewrite Z.sub_0_r in Hs'. by exists s'. }
  rewrite Hpf by done. assert (0 ≤ kPrefetchIterations) by done.
  set (n := Z.to_nat (num_rows - kPrefetchIterations)). assert (Z.of_nat n ≤ num_rows) by lia.
  destruct (prefetch_loop_ok bf bs num_rows hashes s l cap) as (s1 & -> & Hs1); [done|lia|lia|done|lia|]. orun. fold n in Hs1.
  assert ((if num_rows - kPrefetchIterations <? 0 then 0 else num_rows - kPrefetchIterations) = Z.of_nat n) as ->.
  { subst n. destruct (Z.ltb_spec (num_rows - kPrefetchIterations) 0); lia. }
  pose proof (positions_length (hit bf bs hashes) 0 (Z.of_nat n)).
  edestruct (scalar_loop_ok bf bs num_rows 0 (Z.of_nat n)) as (s' & -> & Hs');
    [done|lia|lia|lia|lia|done|rewrite length_app; lia|].
  exists s'. split; [done|]. rewrite positions_shift, Z.add_0_l in Hs'.
  rewrite positions_shift, Z.add_0_l.
  replace num_rows with (Z.of_nat n + (num_rows - Z.of_nat n)) at 1 by lia.
  rewrite positions_app, app_assoc by lia. done.
Qed.

Lemma hit_drop bf bs hashes d p :
  0 ≤ d → 0 ≤ p → hit bf bs (drop (Z.to_nat d) hashes) p = hit bf bs hashes (d + p).
Proof.
  intros. unfold hit, blk, byte_at. rewrite lookup_drop. by replace (Z.to_nat (d + p)) with (Z.to_nat d + Z.to_nat p)%nat by lia.
Qed.

Lemma FindBatch_ok flags bf bs num_rows hashes s l cap pf :
  bf_ok bf bs → 0 ≤ num_rows ≤ Z.of_nat (length hashes) → num_rows ≤ 2 ^ 32 →
  sel_is s l cap → (length l + Z.to_nat num_rows ≤ cap)%nat →
  ∃ s', FindBatch masks_ flags bf num_rows hashes s pf = Ret s' ∧
    sel_is s' (l ++ positions (hit bf bs hashes) 0 num_rows) cap.
Proof.
  intros Hok Hn Hw Hs Hcap. unfold FindBatch. destruct (_ && negb _) eqn:Evec; cycle 1.
  { orun. rewrite Z.sub_0_r. change (drop (Z.to_nat 0) hashes) with hashes.
    destruct (FindImp_ok bf bs num_rows 0 hashes s l cap pf) as (s' & -> & Hs'); [done|lia|lia|lia|done|done|done|].
    exists s'. split; [done|]. by rewrite positions_shift in Hs'. }
  apply andb_prop in Evec as [Epf _]. apply negb_true_iff in Epf.
  destruct (Find_avx2_ok masks_ masks_good bf bs hashes num_rows Hok Hn) as (rbv & -> & Hl & Hb & Hbit). orun.
  pose proof (Z_div_mod_eq_full num_rows 8). pose proof (Z.mod_pos_bound num_rows 8 ltac:(lia)).
  pose proof (Z_div_mod_eq_full num_rows 64). pose proof (Z.mod_pos_bound num_rows 64 ltac:(lia)).
  set (m := num_rows / 8) in *. set (words := num_rows / 64 + 1).
  assert (positions (bit_at rbv) 0 (64 * words) = positions (hit bf bs hashes) 0 (8 * m)) as Epos.
  { replace (64 * words) with (8 * m + (64 * words - 8 * m)) by lia. rewrite positions_app by lia.
    rewrite (positions_none (bit_at rbv) (0 + 8 * m)), app_nil_r.
    - apply positions_ext. intros p Hp. rewrite Hbit by lia. by rewrite (proj2 (Z.ltb_lt _ _)) by lia.
    - intros p Hp. rewrite Hbit by lia. by rewrite (proj2 (Z.ltb_ge _ _)) by lia. }
  pose proof (positions_length (hit bf bs hashes) 0 (8 * m)).
  pose proof (decode_loop rbv cap (Z.to_nat words) 0 l s Hs Hb) as Hdec.
  rewrite Z.mul_0_r, Z2Nat.id, Epos in Hdec by lia.
  destruct Hdec as (s1 & -> & Hs1); [lia|rewrite Hl; lia|lia| |].
  { intros p Hp. destruct (Z.lt_ge_cases p 0); [lia|]. rewrite Hbit in Hp by done.
    apply andb_prop in Hp as [Hp%Z.ltb_lt _]. lia. }
  orun.
  replace (num_rows - num_rows mod 8) with (8 * m) by lia.
  rewrite (Z.mul_comm 8 m), Z.mod_mul, Z.sub_0_r, (Z.mul_comm m 8) by lia.
  edestruct (FindImp_ok bf bs (num_rows - 8 * m) (8 * m)) as (s' & -> & Hs');
    [done|rewrite length_drop; lia|lia|lia|congruence|done|rewrite length_app; lia|].
  exists s'. split; [done|]. rewrite <-app_assoc in Hs'.
  rewrite (positions_ext (hit bf bs (drop _ _)) (λ p, hit bf bs hashes (8 * m + p))) in Hs'
    by (intros; apply hit_drop; lia).
  rewrite positions_shift, Z.add_0_r in Hs'.
  pose proof (positions_app (hit bf bs hashes) 0 (8 * m) (num_rows - 8 * m)) as Eapp.
  rewrite Z.add_0_l in Eapp. rewrite <-Eapp in Hs' by lia.
  by replace (8 * m + (num_rows - 8 * m)) with num_rows in Hs' by lia.
Qed.
End LookupFacts.

Lemma positions_sorted f a n : StronglySorted Z.lt (positions f a n).
Proof.
  destruct (Z.lt_ge_cases n 0) as [|Hn]; [rewrite positions_none by lia; constructor|].
  rewrite <-(Z2Nat.id n Hn). clear Hn. generalize (Z.to_nat n). clear n. intros n. revert a.
  induction n as [|n IH]; intros a; [rewrite positions_none by lia; constructor|].
  rewrite positions_cons by lia. replace (Z.pred (Z.of_nat (S n))) with (Z.of_nat n) by lia.
  destruct (f a); [|apply IH]. constructor; [apply IH|].
  apply Forall_forall. intros p. rewrite elem_of_positions. lia.
Qed.

(** C28: lookup of a batch.  Whatever the hardware flags and the prefetch
    setting, [Find] of a batch of at most [2^32] rows fills the selection
    vector with exactly the rows whose hash the filter accepts, in increasing
    order, without any access out of bounds. *)
Theorem batch_find_selects_hits `{ArrowBitsOk} (masks_ : list Z) (flags : Z) (bf : BlockedBloomFilter)
    (bs : list Z) (num_rows : Z) (hashes sel : list Z) (enable_prefetch : bool) :
  masks_ok masks_ → bf_ok bf bs → 0 ≤ num_rows ≤ Z.of_nat (length hashes) →
  num_rows ≤ Z.of_nat (length sel) → num_rows ≤ 2 ^ 32 →
  ∃ s rows, FindBatch masks_ flags bf num_rows hashes (mkSel sel 0) enable_prefetch = Ret s ∧
    s.(result_count) = Z.of_nat (length rows) ∧ take (length rows) s.(sel_vector) = rows ∧
    StronglySorted Z.lt rows ∧
    ∀ p, p ∈ rows ↔ 0 ≤ p < num_rows ∧ ∃ h, hashes !! Z.to_nat p = Some h ∧ Find masks_ bf h = Ret true.
Proof.
  intros Hm Hok Hn Hsel Hw.
  destruct (FindBatch_ok masks_ Hm flags bf bs num_rows hashes (mkSel sel 0) [] (length sel) enable_prefetch)
    as (s & HF & _ & Hc & k & Hk); [done|done|done| |cbn [length]; lia|].
  { split_and!; [done|done|apply prefix_nil]. }
  cbn [app] in *. eexists s, _. split_and!; [done|exact Hc|rewrite Hk; apply take_app_length|apply positions_sorted|].
  intros p. rewrite elem_of_positions, Z.add_0_l. unfold hit. split.
  - intros [Hp Hf]. split; [done|]. exists (blk hashes p). split; [apply lookup_blk; lia|].
    by rewrite (Find_find_in masks_ bf bs), Hf by done.
  - intros (Hp & h & Hh & HF'). split; [done|]. rewrite (blk_lookup _ _ _ Hh).
    rewrite (Find_find_in masks_ bf bs) in HF' by done. by injection HF'.
Qed.

Definition sample_batch : list Z := [5; 70000; 2 ^ 50 + 3; 12; 5; 6; 7; 8; 70000; 1].

Lemma sample_result_ok : bf_ok sample_result (puts sample_masks 3 (replicate 8 0) [70000; 1]).
Proof.
  unfold sample_result. rewrite (InsertImp_ok sample_masks sample_masks_ok _ _ [70000; 1] sample_filter_ok).
  apply (puts_ok sample_masks sample_masks_ok _ _ _ sample_filter_ok).
Qed.

(** With AVX2 eight of the ten rows are looked up at once, and two one by one. *)
Lemma batch_find_selects_hits_witness :
  ∃ s rows, FindBatch sample_masks CpuInfo_AVX2 sample_result 10 sample_batch (mkSel (replicate 10 0) 0) false = Ret s ∧
    s.(result_count) = Z.of_nat (length rows) ∧ take (length rows) s.(sel_vector) = rows ∧
    StronglySorted Z.lt rows ∧
    ∀ p, p ∈ rows ↔ 0 ≤ p < 10 ∧ ∃ h, sample_batch !! Z.to_nat p = Some h ∧ Find sample_masks sample_result h = Ret true.
Proof.
  apply (batch_find_selects_hits sample_masks CpuInfo_AVX2 sample_result
    (puts sample_masks 3 (replicate 8 0) [70000; 1]));
    [apply sample_masks_ok|apply sample_result_ok|split; by vm_compute|by vm_compute|lia].
Defined.
