(* ===== verification/PartitionSort.v ===== *)
(** * PartitionSort: bucket sort of rows by partition

    Models [PartitionSort::Eval] of [bloom_filter/partition_util.hpp]: the
    counting pass, the running sum over 16-bit counters and the placing pass.
    The callbacks are arguments, as in the template. *)

From S2P Require Import Prelude.
Local Open Scope Z_scope.
Local Open Scope machine_scope.

Section Eval.
  Context {A : Type} (prtn_id_impl : Z → outcome Z) (output_pos_impl : A → Z → Z → outcome A).

(** [prtn_ranges[k]++] on 16-bit counters; returns the value before. *)
Definition increment (prtn_ranges : list Z) (k : Z) : outcome (list Z * Z) :=
  if k <? 0 then Undef else
  let* v := deref (prtn_ranges !! Z.to_nat k) in
  Ret (<[Z.to_nat k := wrap 16 (v + 1)]> prtn_ranges, v).

(** First loop. *)
Definition count_row (prtn_ranges : list Z) (i : Z) : outcome (list Z) :=
  let* prtn_id := prtn_id_impl i in
  let* (prtn_ranges, _) := increment prtn_ranges (prtn_id + 1) in
  Ret prtn_ranges.

(** Second loop; the state is the array and [sum]. *)
Definition running_sum (st : list Z * Z) (i : Z) : outcome (list Z * Z) :=
  let '(prtn_ranges, sum) := st in
  let* v := deref (prtn_ranges !! Z.to_nat (i + 1)) in
  let sum_next := wrap 16 (sum + v) in
  Ret (<[Z.to_nat (i + 1) := sum]> prtn_ranges, sum_next).

(** Third loop; the state is the array and the state of the output callback. *)
Definition place_row (st : list Z * A) (i : Z) : outcome (list Z * A) :=
  let '(prtn_ranges, out) := st in
  let* prtn_id := prtn_id_impl i in
  let* (prtn_ranges, pos) := increment prtn_ranges (prtn_id + 1) in
  let* out := output_pos_impl out i pos in
  Ret (prtn_ranges, out).

(** [PartitionSort::Eval].  The two [ARROW_DCHECK]s on the numbers of rows and
    partitions (1 to 2^15) are checks of debug builds; like other such
    assertions they are not part of the code that is modelled, and what is
    shown holds beyond them. *)
Definition PartitionSort_Eval (num_rows num_prtns : Z) (prtn_ranges : list Z) (out : A) : outcome (list Z * A) :=
  if Z.of_nat (length prtn_ranges) <? num_prtns + 1 then Undef else
  let prtn_ranges := replicate (Z.to_nat (num_prtns + 1)) 0 ++ drop (Z.to_nat (num_prtns + 1)) prtn_ranges in
  let* prtn_ranges := ofold count_row (seqZ 0 num_rows) prtn_ranges in
  let* (prtn_ranges, _) := ofold running_sum (seqZ 0 num_prtns) (prtn_ranges, 0) in
  ofold place_row (seqZ 0 num_rows) (prtn_ranges, out).

End Eval.

(** ** Reference: buckets in order, rows in order within a bucket *)

Section Reference.
  Context (f : Z → Z).

Definition bucket (k : Z) (rows : list Z) : list Z := filter (λ h, f h = k) rows.

(** Rows of the partitions before [k]. *)
Definition before (k : Z) (rows : list Z) : Z := Z.of_nat (length (filter (λ h, f h < k) rows)).

Definition bucket_size (k : Z) (rows : list Z) : Z := Z.of_nat (length (bucket k rows)).

Definition bucket_sorted (num_prtns : Z) (rows : list Z) : list Z :=
  concat ((λ k, bucket k rows) <$> seqZ 0 num_prtns).

Lemma before_succ k rows : before (k + 1) rows = before k rows + bucket_size k rows.
Proof.
  unfold before, bucket_size, bucket. induction rows as [|h rows IH]; [done|].
  rewrite !filter_cons. repeat destruct (decide _); cbn [length]; lia.
Qed.

Lemma before_le k rows : 0 ≤ before k rows ≤ Z.of_nat (length rows).
Proof. unfold before. pose proof (length_filter (λ h, f h < k) rows). lia. Qed.

Lemma before_all k rows : Forall (λ h, 0 ≤ f h < k) rows → before k rows = Z.of_nat (length rows).
Proof.
  unfold before. induction 1 as [|h rows Hh _ IH]; [done|].
  rewrite filter_cons_True by lia. cbn [length]. lia.
Qed.

Lemma before_0 rows : Forall (λ h, 0 ≤ f h) rows → before 0 rows = 0.
Proof.
  unfold before. induction 1 as [|h rows Hh _ IH]; [done|]. by rewrite filter_cons_False by lia.
Qed.

Lemma bucket_size_snoc k rows h :
  bucket_size k (rows ++ [h]) = bucket_size k rows + if decide (f h = k) then 1 else 0.
Proof.
  unfold bucket_size, bucket. rewrite filter_app, filter_cons, filter_nil, length_app.
  destruct (decide _); cbn [length]; lia.
Qed.

Lemma bucket_size_le k rows : 0 ≤ bucket_size k rows ≤ Z.of_nat (length rows).
Proof. unfold bucket_size. pose proof (length_filter (λ h, f h = k) rows). unfold bucket. lia. Qed.

Lemma bucket_sorted_snoc (n : nat) rows :
  bucket_sorted (Z.of_nat (S n)) rows = bucket_sorted (Z.of_nat n) rows ++ bucket (Z.of_nat n) rows.
Proof.
  unfold bucket_sorted. replace (Z.of_nat (S n)) with (Z.of_nat n + 1) by lia.
  rewrite seqZ_app, fmap_app, concat_app, (seqZ_cons (0 + Z.of_nat n) 1), (seqZ_nil _ (Z.pred 1)) by lia.
  cbn [fmap list_fmap concat]. by rewrite app_nil_r, Z.add_0_l.
Qed.

Lemma length_bucket_sorted (n : nat) rows :
  Forall (λ h, 0 ≤ f h) rows → Z.of_nat (length (bucket_sorted (Z.of_nat n) rows)) = before (Z.of_nat n) rows.
Proof.
  intros Hf. induction n as [|n IH].
  { by rewrite before_0. }
  rewrite bucket_sorted_snoc, length_app, Nat2Z.inj_add, IH.
  replace (Z.of_nat (S n)) with (Z.of_nat n + 1) by lia. by rewrite before_succ.
Qed.

(** The place of row [j]: after the rows of smaller partitions and the
    earlier rows of its own. *)
Definition place (rows : list Z) (j : nat) : Z :=
  before (f (blk rows (Z.of_nat j))) rows + bucket_size (f (blk rows (Z.of_nat j))) (take j rows).

Lemma bucket_lookup k rows r h :
  bucket k rows !! r = Some h →
  ∃ j, rows !! j = Some h ∧ f h = k ∧ bucket_size k (take j rows) = Z.of_nat r.
Proof.
  unfold bucket_size, bucket. revert r. induction rows as [|x rows IH]; intros r Hr; [done|].
  rewrite filter_cons in Hr. destruct (decide (f x = k)) as [Hx|Hx].
  - destruct r as [|r]; cbn in Hr.
    + simplify_eq. by exists 0%nat.
    + destruct (IH r Hr) as (j & Hj & Hk & Hs). exists (S j). split_and!; [done|done|].
      cbn [take]. rewrite filter_cons_True by done. cbn [length]. lia.
  - destruct (IH r Hr) as (j & Hj & Hk & Hs). exists (S j). split_and!; [done|done|].
    cbn [take]. by rewrite filter_cons_False.
Qed.

(** Every position of the sorted array is the place of some row. *)
Lemma bucket_sorted_place (n : nat) rows p h :
  Forall (λ h, 0 ≤ f h) rows → bucket_sorted (Z.of_nat n) rows !! p = Some h →
  ∃ j, rows !! j = Some h ∧ place rows j = Z.of_nat p.
Proof.
  intros Hf. induction n as [|n IH]; intros Hp; [done|].
  rewrite bucket_sorted_snoc in Hp. apply lookup_app_Some in Hp as [Hp|[Hle Hp]]; [by apply IH|].
  destruct (bucket_lookup _ _ _ _ Hp) as (j & Hj & Hk & Hs). exists j. split; [done|].
  unfold place. rewrite (blk_lookup rows (Z.of_nat j) h) by (by rewrite Nat2Z.id).
  rewrite Hk, Hs. pose proof (length_bucket_sorted n rows Hf). lia.
Qed.

End Reference.

(** ** The three loops *)

Section EvalFacts.
  Context (f : Z → Z) (rows : list Z) (num_prtns : Z).
  Context (prtn_range : Forall (λ h, 0 ≤ f h < num_prtns) rows) (prtn_pos : 0 ≤ num_prtns).
  Context (rows_short : Z.of_nat (length rows) < 2 ^ 16).

Local Abbreviation num_rows := (Z.of_nat (length rows)).

(** The counters hold [g]. *)
Definition counters (len : nat) (r : list Z) (g : Z → Z) : Prop :=
  length r = len ∧ r !! 0%nat = Some 0 ∧ ∀ k, 0 ≤ k < num_prtns → r !! Z.to_nat (k + 1) = Some (g k).

Lemma counters_ext len r g g' :
  (∀ k, 0 ≤ k < num_prtns → g k = g' k) → counters len r g → counters len r g'.
Proof. intros Hg (Hl & H0 & Hk). split_and!; [done|done|]. intros k Hk'. by rewrite Hk, Hg. Qed.

Lemma increment_ok len r g k :
  counters len r g → 0 ≤ k < num_prtns → 0 ≤ g k < 2 ^ 16 - 1 →
  ∃ r', increment r (k + 1) = Ret (r', g k) ∧ counters len r' (λ x, g x + if decide (k = x) then 1 else 0).
Proof.
  intros (Hl & H0 & Hg) Hk Hgk. unfold increment. rewrite (proj2 (Z.ltb_ge _ _)), Hg by lia. orun.
  eexists. split; [done|]. split_and!; [by rewrite length_insert|by rewrite list_lookup_insert_ne by lia|].
  pose proof (lookup_lt_Some _ _ _ (Hg k Hk)).
  intros x Hx. destruct (decide (k = x)) as [<-|].
  - rewrite list_lookup_insert_eq by lia. rewrite wrap_id by (unfold fits; lia). done.
  - by rewrite list_lookup_insert_ne, Hg, Z.add_0_r by lia.
Qed.

Lemma counters_init r :
  num_prtns + 1 ≤ Z.of_nat (length r) →
  counters (length r)
    (replicate (Z.to_nat (num_prtns + 1)) 0 ++ drop (Z.to_nat (num_prtns + 1)) r) (λ _, 0).
Proof.
  intros Hl. split_and!.
  - rewrite length_app, length_replicate, length_drop. lia.
  - by rewrite lookup_app_l, lookup_replicate_2 by (rewrite ?length_replicate; lia).
  - intros k Hk. by rewrite lookup_app_l, lookup_replicate_2 by (rewrite ?length_replicate; lia).
Qed.

Lemma row_at i : 0 ≤ i < num_rows → ∃ h, rows !! Z.to_nat i = Some h ∧ 0 ≤ f h < num_prtns ∧
  blk rows i = h ∧ ∀ k, bucket_size f k (take (Z.to_nat (i + 1)) rows) =
    bucket_size f k (take (Z.to_nat i) rows) + if decide (f h = k) then 1 else 0.
Proof.
  intros Hi. exists (blk rows i). assert (rows !! Z.to_nat i = Some (blk rows i)) as Hh by (apply lookup_blk; lia).
  split_and!; [done|by apply (Forall_lookup_1 _ _ _ _ prtn_range Hh)..|done|].
  intros k. replace (Z.to_nat (i + 1)) with (S (Z.to_nat i)) by lia.
  by rewrite (take_S_r _ _ _ Hh), bucket_size_snoc.
Qed.

Context (prtn_id_impl : Z → outcome Z)
  (prtn_id_spec : ∀ i h, 0 ≤ i → rows !! Z.to_nat i = Some h → prtn_id_impl i = Ret (f h)).

Lemma count_loop len r :
  counters len r (λ _, 0) →
  ∃ r', ofold (count_row prtn_id_impl) (seqZ 0 num_rows) r = Ret r' ∧
    counters len r' (λ k, bucket_size f k rows).
Proof.
  intros Hr.
  destruct (ofold_seqZ (λ i r, counters len r (λ k, bucket_size f k (take (Z.to_nat i) rows)))
    (count_row prtn_id_impl) 0 num_rows r) as (r' & E & Hr'); [lia|done| |].
  - intros i s Hi Hs. destruct (row_at i) as (h & Hh & Hf & _ & Hsz); [lia|]. unfold count_row.
    rewrite (prtn_id_spec i h) by (done || lia). orun.
    pose proof (bucket_size_le f (f h) (take (Z.to_nat i) rows)) as Hle. rewrite length_take in Hle.
    destruct (increment_ok len s _ (f h) Hs) as (s' & -> & Hs'); [done|cbn beta; lia|]. orun.
    exists s'. split; [done|]. eapply counters_ext; [|done]. intros k Hk. cbn beta. by rewrite Hsz.
  - exists r'. split; [done|]. by rewrite Z.add_0_l, Nat2Z.id, firstn_all in Hr'.
Qed.

Lemma sum_loop len r :
  counters len r (λ k, bucket_size f k rows) →
  ∃ r' s, ofold running_sum (seqZ 0 num_prtns) (r, 0) = Ret (r', s) ∧
    counters len r' (λ k, before f k rows).
Proof.
  intros Hr.
  destruct (ofold_seqZ (λ i st, st.2 = before f i rows ∧
      counters len st.1 (λ k, if k <? i then before f k rows else bucket_size f k rows))
    running_sum 0 num_prtns (r, 0)) as ([r' s] & E & _ & Hr'); [lia| | |].
  - split; [cbn; rewrite before_0; [done|eapply Forall_impl; [done|]; cbn; lia]|].
    eapply counters_ext; [|done]. intros k Hk. by rewrite (proj2 (Z.ltb_ge _ _)) by lia.
  - intros i [s1 sum] Hi [Hsum (Hl & H0 & Hg)]. cbn [fst snd] in *. unfold running_sum.
    pose proof (before_succ f i rows). pose proof (before_le f (i + 1) rows).
    rewrite Hg, Z.ltb_irrefl by lia. orun. eexists. split; [done|]. cbn [fst snd]. split.
    + rewrite Hsum, wrap_id by (unfold fits; lia). lia.
    + pose proof (lookup_lt_Some _ _ _ (Hg i ltac:(lia))).
      split_and!; [by rewrite length_insert|by rewrite list_lookup_insert_ne by lia|].
      intros k Hk. destruct (decide (i = k)) as [->|].
      * rewrite list_lookup_insert_eq, (proj2 (Z.ltb_lt _ _)) by lia. by rewrite Hsum.
      * rewrite list_lookup_insert_ne, Hg by lia.
        destruct (Z.ltb_spec k i), (Z.ltb_spec k (i + 1)); done || lia.
  - eexists _, _. split; [done|]. eapply counters_ext; [|exact Hr'].
    intros k Hk. cbn beta. by rewrite (proj2 (Z.ltb_lt _ _)) by lia.
Qed.

(** *** Places *)

Lemma before_mono k k' : k ≤ k' → before f k rows ≤ before f k' rows.
Proof.
  intros Hk. unfold before. clear prtn_range rows_short prtn_id_spec.
  induction rows as [|h l IH]; [done|]. rewrite !filter_cons. repeat destruct (decide _); cbn [length]; lia.
Qed.

Lemma bucket_size_take_mono k i j :
  (i ≤ j)%nat → bucket_size f k (take i rows) ≤ bucket_size f k (take j rows).
Proof.
  intros Hij. replace j with (i + (j - i))%nat by lia. rewrite <-take_take_drop.
  unfold bucket_size, bucket. rewrite filter_app, length_app. lia.
Qed.

Lemma place_range i :
  0 ≤ i < num_rows →
  before f (f (blk rows i)) rows ≤ place f rows (Z.to_nat i) < before f (f (blk rows i) + 1) rows.
Proof.
  intros Hi. destruct (row_at i Hi) as (h & _ & _ & <- & Hsz). specialize (Hsz (f (blk rows i))).
  rewrite decide_True in Hsz by done. unfold place. rewrite Z2Nat.id by lia. rewrite before_succ.
  pose proof (bucket_size_take_mono (f (blk rows i)) (Z.to_nat (i + 1)) (length rows) ltac:(lia)) as Hm.
  rewrite firstn_all in Hm. pose proof (bucket_size_le f (f (blk rows i)) (take (Z.to_nat i) rows)). lia.
Qed.

Lemma place_inj i j : 0 ≤ j < i → i < num_rows → place f rows (Z.to_nat i) ≠ place f rows (Z.to_nat j).
Proof.
  intros Hj Hi. pose proof (place_range i ltac:(lia)). pose proof (place_range j ltac:(lia)).
  destruct (Z.lt_trichotomy (f (blk rows i)) (f (blk rows j))) as [Hlt|[E|Hlt]].
  - pose proof (before_mono (f (blk rows i) + 1) (f (blk rows j)) ltac:(lia)). lia.
  - unfold place. rewrite !Z2Nat.id, E by lia.
    destruct (row_at j ltac:(lia)) as (h & _ & _ & <- & Hsz). specialize (Hsz (f (blk rows j))).
    rewrite decide_True in Hsz by done.
    pose proof (bucket_size_take_mono (f (blk rows j)) (Z.to_nat (j + 1)) (Z.to_nat i) ltac:(lia)). lia.
  - pose proof (before_mono (f (blk rows j) + 1) (f (blk rows i)) ltac:(lia)). lia.
Qed.

Context (output_pos_impl : list Z → Z → Z → outcome (list Z))
  (output_spec : ∀ out i pos h, 0 ≤ i → rows !! Z.to_nat i = Some h → 0 ≤ pos < Z.of_nat (length out) →
     output_pos_impl out i pos = Ret (<[Z.to_nat pos := h]> out)).

Lemma place_loop len r out :
  counters len r (λ k, before f k rows) → length out = length rows →
  ∃ r' out', ofold (place_row prtn_id_impl output_pos_impl) (seqZ 0 num_rows) (r, out) = Ret (r', out') ∧
    counters len r' (λ k, before f (k + 1) rows) ∧ length out' = length rows ∧
    ∀ j, 0 ≤ j < num_rows → out' !! Z.to_nat (place f rows (Z.to_nat j)) = rows !! Z.to_nat j.
Proof.
  intros Hr Hout.
  destruct (ofold_seqZ (λ i st, counters len st.1 (λ k, before f k rows + bucket_size f k (take (Z.to_nat i) rows)) ∧
      length st.2 = length rows ∧
      ∀ j, 0 ≤ j < i → st.2 !! Z.to_nat (place f rows (Z.to_nat j)) = rows !! Z.to_nat j)
    (place_row prtn_id_impl output_pos_impl) 0 num_rows (r, out)) as ([r' out'] & E & Hr' & Hl & Hp); [lia| | |].
  - split_and!; [|done|lia]. eapply counters_ext; [|done]. intros k Hk. cbn beta.
    change (bucket_size f k (take (Z.to_nat 0) rows)) with 0. lia.
  - intros i [s o] Hi (Hs & Hl & Hp). cbn [fst snd] in *.
    destruct (row_at i) as (h & Hh & Hf & Hb & Hsz); [lia|]. unfold place_row.
    rewrite (prtn_id_spec i h) by (done || lia). orun.
    pose proof (place_range i ltac:(lia)) as Hpl. pose proof (before_le f (f h + 1) rows). pose proof (before_le f (f h) rows).
    rewrite Hb in Hpl. assert (place f rows (Z.to_nat i) =
      before f (f h) rows + bucket_size f (f h) (take (Z.to_nat i) rows)) as Epl.
    { unfold place. by rewrite Z2Nat.id, Hb by lia. }
    destruct (increment_ok len s _ (f h) Hs) as (s' & -> & Hs'); [done|cbn beta; lia|]. orun.
    rewrite (output_spec o i _ h) by (done || lia). orun. eexists. split; [done|]. cbn [fst snd]. rewrite <-Epl.
    split_and!; [|by rewrite length_insert|].
    + eapply counters_ext; [|done]. intros k Hk. cbn beta. rewrite Hsz. lia.
    + intros j Hj. destruct (decide (j = i)) as [->|].
      * by rewrite list_lookup_insert_eq by lia.
      * pose proof (place_inj i j ltac:(lia) ltac:(lia)). pose proof (place_range j ltac:(lia)).
        pose proof (before_le f (f (blk rows j)) rows). rewrite list_lookup_insert_ne by lia. apply Hp. lia.
  - exists r', out'. split_and!; [done| |done|done]. eapply counters_ext; [|exact Hr'].
    intros k Hk. cbn beta. by rewrite Z.add_0_l, Nat2Z.id, firstn_all, before_succ.
Qed.

(** An array with row [j] at place [j] is the sorted array. *)
Lemma placed_is_sorted out :
  length out = length rows →
  (∀ j, 0 ≤ j < num_rows → out !! Z.to_nat (place f rows (Z.to_nat j)) = rows !! Z.to_nat j) →
  out = bucket_sorted f num_prtns rows.
Proof.
  intros Hl Hp. assert (Forall (λ h, 0 ≤ f h) rows) as Hf by (eapply Forall_impl; [done|]; cbn; lia).
  assert (Z.of_nat (length (bucket_sorted f num_prtns rows)) = num_rows) as Hls.
  { rewrite <-(Z2Nat.id num_prtns), length_bucket_sorted, Z2Nat.id by done. by apply before_all. }
  apply (list_eq_same_length _ _ (length rows)); [lia|done|]. intros p x y Hlt Hx Hy.
  rewrite <-(Z2Nat.id num_prtns) in Hy by done.
  destruct (bucket_sorted_place f _ _ _ _ Hf Hy) as (j & Hj & Epl).
  pose proof (lookup_lt_Some _ _ _ Hj). specialize (Hp (Z.of_nat j) ltac:(lia)).
  rewrite !Nat2Z.id, Epl, Nat2Z.id in Hp. congruence.
Qed.

Lemma Eval_ok r out :
  num_prtns + 1 ≤ Z.of_nat (length r) → length out = length rows →
  ∃ r', PartitionSort_Eval prtn_id_impl output_pos_impl num_rows num_prtns r out = Ret (r', bucket_sorted f num_prtns rows) ∧
    length r' = length r ∧ ∀ k, 0 ≤ k ≤ num_prtns → r' !! Z.to_nat k = Some (before f k rows).
Proof.
  intros Hr Hout. unfold PartitionSort_Eval. rewrite (proj2 (Z.ltb_ge _ _)) by lia.
  destruct (count_loop _ _ (counters_init r Hr)) as (r1 & -> & H1). orun.
  destruct (sum_loop _ _ H1) as (r2 & s & -> & H2). orun.
  destruct (place_loop _ _ out H2 Hout) as (r3 & out' & -> & (Hl & H0 & Hk) & Ho & Hp).
  exists r3. rewrite (placed_is_sorted out' Ho Hp). split_and!; [done|done|].
  intros k Hk'. destruct (decide (k = 0)) as [->|].
  - rewrite before_0; [done|]. eapply Forall_impl; [done|]; cbn; lia.
  - specialize (Hk (k - 1) ltac:(lia)). by replace (k - 1 + 1) with k in Hk by lia.
Qed.
End EvalFacts.

(** The rows of partition [k] are the slice between its two counters. *)
Lemma bucket_slice (f : Z → Z) rows num_prtns k :
  Forall (λ h, 0 ≤ f h) rows → 0 ≤ k < num_prtns →
  take (Z.to_nat (bucket_size f k rows)) (drop (Z.to_nat (before f k rows)) (bucket_sorted f num_prtns rows))
    = bucket f k rows.
Proof.
  intros Hf Hk. unfold bucket_sorted. replace num_prtns with (k + (1 + (num_prtns - k - 1))) by lia.
  rewrite seqZ_app, fmap_app, concat_app by lia. fold (bucket_sorted f k rows).
  pose proof (length_bucket_sorted f (Z.to_nat k) rows Hf) as Hl. rewrite Z2Nat.id in Hl by lia.
  rewrite drop_app_length' by lia. rewrite seqZ_cons, Z.add_0_l by lia. cbn [fmap list_fmap concat].
  apply take_app_length'. unfold bucket_size. lia.
Qed.

(** Array access of the callbacks. *)
Definition read_at (a : list Z) (i : Z) : outcome Z :=
  if i <? 0 then Undef else deref (a !! Z.to_nat i).

Definition write_at (a : list Z) (pos v : Z) : outcome (list Z) :=
  if (0 <=? pos) && (pos <? Z.of_nat (length a)) then Ret (<[Z.to_nat pos := v]> a) else Undef.

Lemma read_at_Some a i v : 0 ≤ i → a !! Z.to_nat i = Some v → read_at a i = Ret v.
Proof. intros Hi Hv. unfold read_at. by rewrite (proj2 (Z.ltb_ge _ _)), Hv by lia. Qed.

Lemma write_at_ok a pos v : 0 ≤ pos < Z.of_nat (length a) → write_at a pos v = Ret (<[Z.to_nat pos := v]> a).
Proof.
  intros Hp. unfold write_at. by rewrite (proj2 (Z.leb_le _ _)), (proj2 (Z.ltb_lt _ _)) by lia.
Qed.

(** Sorting an array of values by [f]. *)
Definition sort_by (f : Z → Z) (num_prtns : Z) (prtn_ranges rows out : list Z) : outcome (list Z * list Z) :=
  PartitionSort_Eval (λ i, let* h := read_at rows i in Ret (f h))
    (λ out i pos, let* h := read_at rows i in write_at out pos h)
    (Z.of_nat (length rows)) num_prtns prtn_ranges out.

Lemma sort_by_ok f num_prtns prtn_ranges rows out :
  Forall (λ h, 0 ≤ f h < num_prtns) rows → 0 ≤ num_prtns → Z.of_nat (length rows) < 2 ^ 16 →
  num_prtns + 1 ≤ Z.of_nat (length prtn_ranges) → length out = length rows →
  ∃ r, sort_by f num_prtns prtn_ranges rows out = Ret (r, bucket_sorted f num_prtns rows) ∧
    length r = length prtn_ranges ∧ ∀ k, 0 ≤ k ≤ num_prtns → r !! Z.to_nat k = Some (before f k rows).
Proof.
  intros Hf Hn Hs Hr Ho. apply Eval_ok; try done.
  - intros i h Hi Hh. by rewrite (read_at_Some _ _ _ Hi Hh).
  - intros o i pos h Hi Hh Hp. rewrite (read_at_Some _ _ _ Hi Hh). orun. by apply write_at_ok.
Qed.

Lemma before_bucket_perm f k rows :
  filter (λ h, f h < k) rows ++ bucket f k rows ≡ₚ filter (λ h, f h < k + 1) rows.
Proof.
  unfold bucket. induction rows as [|h rows IH]; [done|]. rewrite !filter_cons.
  repeat destruct (decide _); try lia; try done.
  - cbn [app]. by rewrite IH.
  - rewrite <-Permutation_middle. by rewrite IH.
Qed.

Lemma filter_Forall_id {A} (P : A → Prop) `{∀ x, Decision (P x)} l : Forall P l → filter P l = l.
Proof. induction 1; [done|]. rewrite filter_cons_True by done. by f_equal. Qed.

Lemma bucket_sorted_perm f num_prtns rows :
  0 ≤ num_prtns → Forall (λ h, 0 ≤ f h < num_prtns) rows → bucket_sorted f num_prtns rows ≡ₚ rows.
Proof.
  intros Hn Hf. rewrite <-(Z2Nat.id num_prtns) in Hf |- * by done. generalize dependent (Z.to_nat num_prtns).
  intros n Hf. transitivity (filter (λ h, f h < Z.of_nat n) rows).
  - assert (Forall (λ h, 0 ≤ f h) rows) as Hf0 by (eapply Forall_impl; [done|]; cbn; lia). clear Hf.
    induction n as [|n IH].
    + pose proof (before_0 f rows Hf0) as H0. unfold before in H0.
      rewrite (nil_length_inv (filter (λ h, f h < Z.of_nat 0) rows)); [done|]. change (Z.of_nat 0) with 0. lia.
    + rewrite bucket_sorted_snoc, IH, before_bucket_perm. by replace (Z.of_nat (S n)) with (Z.of_nat n + 1) by lia.
  - rewrite filter_Forall_id; [done|]. eapply Forall_impl; [done|]; cbn; lia.
Qed.

(** C40: bucket sort.  For fewer than [2^16] rows whose partitions are in
    range, [PartitionSort::Eval] is the stable bucket sort: the output is a
    permutation of the rows, [prtn_ranges[k]] counts the rows of the
    partitions before [k], and the rows of partition [k], in their original
    order, are the slice between [prtn_ranges[k]] and [prtn_ranges[k+1]].
    The 16-bit counters do not overflow and no access is out of range. *)
Theorem partition_sort_buckets (f : Z → Z) (num_prtns : Z) (prtn_ranges rows out : list Z) :
  Forall (λ h, 0 ≤ f h < num_prtns) rows → 0 ≤ num_prtns → Z.of_nat (length rows) < 2 ^ 16 →
  num_prtns + 1 ≤ Z.of_nat (length prtn_ranges) → length out = length rows →
  ∃ r out', sort_by f num_prtns prtn_ranges rows out = Ret (r, out') ∧ out' ≡ₚ rows ∧
    r !! 0%nat = Some 0 ∧
    ∀ k, 0 ≤ k < num_prtns → ∃ lo hi, r !! Z.to_nat k = Some lo ∧ r !! Z.to_nat (k + 1) = Some hi ∧
      take (Z.to_nat (hi - lo)) (drop (Z.to_nat lo) out') = filter (λ h, f h = k) rows.
Proof.
  intros Hf Hn Hs Hr Ho. destruct (sort_by_ok f num_prtns prtn_ranges rows out Hf Hn Hs Hr Ho) as (r & E & _ & Hk).
  assert (Forall (λ h, 0 ≤ f h) rows) as Hf0 by (eapply Forall_impl; [done|]; cbn; lia).
  eexists r, _. split_and!; [done|by apply bucket_sorted_perm|by rewrite <-(before_0 f rows Hf0), <-(Hk 0) by lia|].
  intros k Hk'. eexists _, _. rewrite (Hk k), (Hk (k + 1)) by lia. split_and!; [done|done|].
  rewrite before_succ. replace (_ + _ - _) with (bucket_size f k rows) by lia. by apply bucket_slice.
Qed.

Lemma partition_sort_buckets_witness :
  ∃ r out', sort_by (λ v, v / 3) 3 [9; 9; 9; 9] [5; 7; 2; 3; 5; 4] (replicate 6 0) = Ret (r, out') ∧
    out' ≡ₚ [5; 7; 2; 3; 5; 4] ∧ r !! 0%nat = Some 0 ∧
    ∀ k, 0 ≤ k < 3 → ∃ lo hi, r !! Z.to_nat k = Some lo ∧ r !! Z.to_nat (k + 1) = Some hi ∧
      take (Z.to_nat (hi - lo)) (drop (Z.to_nat lo) out') = filter (λ h, h / 3 = k) [5; 7; 2; 3; 5; 4].
Proof.
  apply (partition_sort_buckets (λ v, v / 3) 3); [|lia|by vm_compute|by vm_compute|done].
  by repeat constructor.
Defined.

(** The example of the header comment, whose output callback stores the row
    id: the output array holds the row ids in bucket order, and
    [prtn_ranges[i]] counts the rows of the partitions before [i]. *)
Lemma documented_example :
  PartitionSort_Eval (λ i, let* v := read_at [5; 7; 2; 3; 5; 4] i in Ret (v / 3)) (λ out i pos, write_at out pos i)
    6 3 [0; 0; 0; 0] (replicate 6 0) = Ret ([0; 1; 5; 6], [2; 0; 3; 4; 5; 1]).
Proof. by vm_compute. Qed.
