(* ===== verification/PartitionLocks.v ===== *)
(** * PartitionLocks: handing out partitions to threads

    Models [PartitionLocks] of [bloom_filter/partition_util.hpp] and
    [partition_util.cpp].  The random generators ([pcg32_fast] with
    [std::uniform_int_distribution]) are an argument: a type of generators and
    a draw of an integer below a bound. *)

From S2P Require Import Prelude PartitionSort BloomFilter.
Local Open Scope Z_scope.
Local Open Scope machine_scope.

(** What the class uses of its random generators: seeding, and a uniform draw
    of an integer of [0 .. n-1]. *)
Class RandomSource (G : Type) := {
  seed : nat → G;
  draw : G → Z → Z * G
}.

Class RandomSourceOk G `{RandomSource G} : Prop :=
  draw_range : ∀ g n, 0 < n → 0 ≤ (draw g n).1 < n.

(** A generator that counts its draws. *)
#[global] Instance counting_source : RandomSource Z := {
  seed i := Z.of_nat i;
  draw g n := (g mod n, g + 7)
}.

#[global] Instance counting_source_ok : RandomSourceOk Z.
Proof. intros g n Hn. cbn. apply Z.mod_pos_bound. lia. Qed.

Section Locks.
  Context {G : Type} `{RandomSource G}.

Record PartitionLocks := mkLocks {
  num_prtns_ : Z;
  locks_ : option (list bool);
  rngs_ : option (list G)
}.

(** [PartitionLocks::PartitionLocks] and [CleanUp]. *)
Definition CleanUp : PartitionLocks := mkLocks 0 None None.

(** [PartitionLocks::Init]. *)
Definition Init (num_threads num_prtns : Z) : PartitionLocks :=
  mkLocks num_prtns (Some (replicate (Z.to_nat num_prtns) false)) (Some (seed <$> seq 0 (Z.to_nat num_threads))).

(** [PartitionLocks::random_int]. *)
Definition random_int (st : PartitionLocks) (thread_id : nat) (num_values : Z) : outcome (Z * PartitionLocks) :=
  let* rngs := deref st.(rngs_) in
  let* g := deref (rngs !! thread_id) in
  let '(v, g) := draw g num_values in
  Ret (v, mkLocks st.(num_prtns_) st.(locks_) (Some (<[thread_id := g]> rngs))).

(** [PartitionLocks::AcquirePartitionLock]: the result, [*locked_prtn_id] and
    [*locked_prtn_id_pos].  The loop that takes the lock is commented out in
    the source; the retry limits are not used. *)
Definition AcquirePartitionLock (st : PartitionLocks) (thread_id : nat) (num_prtns_to_try : Z)
    (prtn_ids_to_try : list Z) : outcome (bool * Z * Z * PartitionLocks) :=
  let* (locked_prtn_id_pos, st) := random_int st thread_id num_prtns_to_try in
  let* locked_prtn_id := read_at prtn_ids_to_try locked_prtn_id_pos in
  Ret (true, locked_prtn_id, locked_prtn_id_pos, st).

(** [PartitionLocks::ReleasePartitionLock] with [lock_ptr]. *)
Definition ReleasePartitionLock (st : PartitionLocks) (prtn_id : Z) : outcome PartitionLocks :=
  let* locks := deref st.(locks_) in
  if (0 <=? prtn_id) && (prtn_id <? Z.of_nat (length locks))
  then Ret (mkLocks st.(num_prtns_) (Some (<[Z.to_nat prtn_id := false]> locks)) st.(rngs_)) else Undef.

Section ForEach.
  Context {A : Type} (is_prtn_empty_fn : Z → bool) (process_prtn_fn : A → Z → outcome (Status * A)).

(** First loop: the ids of the partitions that are not empty; the state is the
    scratch array and the number of ids stored. *)
Definition collect (st : list Z * Z) (i : Z) : outcome (list Z * Z) :=
  let '(temp, num) := st in
  if is_prtn_empty_fn i then Ret (temp, num)
  else let* temp := write_at temp num i in Ret (temp, num + 1).

(** The element at [pos] leaves the first [n] entries: the last one takes its place. *)
Definition swap_remove (temp : list Z) (pos n : Z) : outcome (list Z) :=
  if pos <? n - 1 then
    let* last := read_at temp (n - 1) in write_at temp pos last
  else Ret temp.

(** Second loop; [n] is [num_unprocessed_partitions].  An error status of the
    callback ends the loop after the lock is released. *)
Fixpoint process_loop (thread_id : nat) (n : nat) (st : PartitionLocks) (temp : list Z) (a : A)
    : outcome (Status * PartitionLocks * A) :=
  match n with
  | O => Ret (StatusOK, st, a)
  | S n' =>
      let* (_, prtn_id, pos, st) := AcquirePartitionLock st thread_id (Z.of_nat n) temp in
      let* (status, a) := process_prtn_fn a prtn_id in
      let* st := ReleasePartitionLock st prtn_id in
      match status with
      | StatusOK =>
          let* temp := swap_remove temp pos (Z.of_nat n) in
          process_loop thread_id n' st temp a
      | e => Ret (e, st, a)
      end
  end.

(** [PartitionLocks::ForEachPartition]. *)
Definition ForEachPartition (thread_id : nat) (st : PartitionLocks) (temp_unprocessed_prtns : list Z) (a : A)
    : outcome (Status * PartitionLocks * A) :=
  let* (temp, num) := ofold collect (seqZ 0 st.(num_prtns_)) (temp_unprocessed_prtns, 0) in
  process_loop thread_id (Z.to_nat num) st temp a.

End ForEach.

(** ** Well-formed lock tables *)

Definition locks_ok (st : PartitionLocks) (num_threads : nat) : Prop :=
  0 ≤ st.(num_prtns_) ∧ ∃ locks rngs, st.(locks_) = Some locks ∧ Z.of_nat (length locks) = st.(num_prtns_) ∧
    st.(rngs_) = Some rngs ∧ length rngs = num_threads.

Lemma Init_ok num_threads num_prtns :
  0 ≤ num_prtns → locks_ok (Init num_threads num_prtns) (Z.to_nat num_threads).
Proof.
  intros Hn. split; [done|]. eexists _, _. split_and!; [done| |done|by rewrite length_fmap, length_seq].
  rewrite length_replicate. cbn. lia.
Qed.

Context {G_ok : RandomSourceOk G}.

Lemma Acquire_ok st num_threads thread_id n temp :
  locks_ok st num_threads → (thread_id < num_threads)%nat → (0 < n)%nat → (n ≤ length temp)%nat →
  ∃ id pos st', AcquirePartitionLock st thread_id (Z.of_nat n) temp = Ret (true, id, pos, st') ∧
    0 ≤ pos < Z.of_nat n ∧ temp !! Z.to_nat pos = Some id ∧
    locks_ok st' num_threads ∧ st'.(num_prtns_) = st.(num_prtns_) ∧ st'.(locks_) = st.(locks_).
Proof.
  intros (Hn & locks & rngs & Hl & Hll & Hr & Hrl) Ht Hn0 Hlen.
  unfold AcquirePartitionLock, random_int. rewrite Hr. orun.
  destruct (lookup_lt_is_Some_2 rngs thread_id) as [g ->]; [lia|]. orun.
  pose proof (draw_range g (Z.of_nat n) ltac:(lia)) as Hd. destruct (draw g (Z.of_nat n)) as [pos g']. cbn [fst] in Hd.
  orun. destruct (lookup_lt_is_Some_2 temp (Z.to_nat pos)) as [id Hid]; [lia|].
  rewrite (read_at_Some _ _ _ (proj1 Hd) Hid). orun. eexists _, _, _. split_and!; try done; [lia|lia|].
  split; [done|]. eexists _, _. split_and!; try done. by rewrite length_insert.
Qed.

Lemma Release_ok st num_threads id :
  locks_ok st num_threads → 0 ≤ id < st.(num_prtns_) →
  ∃ st', ReleasePartitionLock st id = Ret st' ∧ locks_ok st' num_threads ∧ st'.(num_prtns_) = st.(num_prtns_).
Proof.
  intros (Hn & locks & rngs & Hl & Hll & Hr & Hrl) Hid. unfold ReleasePartitionLock. rewrite Hl. orun.
  rewrite (proj2 (Z.leb_le _ _)), (proj2 (Z.ltb_lt _ _)) by lia. cbn [andb]. eexists. split_and!; try done.
  split; [done|]. eexists _, _. split_and!; try done. by rewrite length_insert.
Qed.

Lemma swap_remove_ok temp (n : nat) pos id :
  0 ≤ pos ≤ Z.of_nat n → (S n ≤ length temp)%nat → temp !! Z.to_nat pos = Some id →
  ∃ temp', swap_remove temp pos (Z.of_nat (S n)) = Ret temp' ∧ length temp' = length temp ∧
    take (S n) temp ≡ₚ id :: take n temp'.
Proof.
  intros Hpos Hlen Hid. destruct (lookup_lt_is_Some_2 temp n) as [last Hlast]; [lia|].
  assert (take (S n) temp = take n temp ++ [last]) as E by by apply take_S_r.
  unfold swap_remove. replace (Z.of_nat (S n) - 1) with (Z.of_nat n) by lia. destruct (Z.ltb_spec pos (Z.of_nat n)).
  - rewrite (read_at_Some _ _ last) by (rewrite ?Nat2Z.id; done || lia). orun.
    rewrite write_at_ok by lia. eexists. split_and!; [done|by rewrite length_insert|].
    rewrite E, take_insert_lt by lia. assert (take n temp !! Z.to_nat pos = Some id) as Hid' by (by rewrite lookup_take_lt by lia).
    rewrite <-(take_drop_middle _ _ _ Hid') at 1. rewrite insert_take_drop by (by eapply lookup_lt_Some).
    rewrite <-!Permutation_middle, app_nil_r. apply Permutation_swap.
  - eexists. split_and!; [done|done|]. assert (Z.to_nat pos = n) as En by lia. rewrite En in Hid.
    rewrite E. simplify_eq. by rewrite <-Permutation_cons_append.
Qed.

(** ** Every non-empty partition is processed once *)

Section ForEachFacts.
  Context {A : Type} (is_prtn_empty_fn : Z → bool) (process : A → Z → Status * A).

(** Processing partitions in a given order until the first error. *)
Fixpoint run_order (order : list Z) (a : A) : Status * A :=
  match order with
  | [] => (StatusOK, a)
  | p :: ps => match process a p with (StatusOK, a) => run_order ps a | e => e end
  end.

Lemma process_loop_ok num_threads thread_id n st temp a :
  locks_ok st num_threads → (thread_id < num_threads)%nat → (n ≤ length temp)%nat →
  Forall (λ id, 0 ≤ id < st.(num_prtns_)) (take n temp) →
  ∃ order st', order ≡ₚ take n temp ∧ locks_ok st' num_threads ∧
    process_loop (λ a p, Ret (process a p)) thread_id n st temp a = Ret ((run_order order a).1, st', (run_order order a).2).
Proof.
  revert st temp a. induction n as [|n IH]; intros st temp a Hst Ht Hlen Hids.
  { exists [], st. by split_and!. }
  destruct (Acquire_ok st num_threads thread_id (S n) temp) as (id & pos & st1 & E1 & Hpos & Hid & Hst1 & Hn1 & _);
    [done|done|lia|done|].
  assert (0 ≤ id < st.(num_prtns_)) as Hr.
  { apply (Forall_lookup_1 _ _ (Z.to_nat pos) id Hids). by rewrite lookup_take_lt by lia. }
  destruct (Release_ok st1 num_threads id Hst1) as (st2 & E2 & Hst2 & Hn2); [by rewrite Hn1|].
  destruct (swap_remove_ok temp n pos id) as (temp' & E3 & Hl3 & Hp); [lia|done|done|].
  rewrite Hp in Hids. apply Forall_cons in Hids as [_ Hids]. cbn [process_loop]. rewrite E1. orun.
  destruct (process a id) as [status a1] eqn:Ep. orun. rewrite E2. orun. destruct status.
  - rewrite E3. orun. destruct (IH st2 temp' a1) as (order & st' & Ho & Hst' & E); [done|done|lia|by rewrite Hn2, Hn1|].
    exists (id :: order), st'. split_and!; [by rewrite Ho, Hp|done|]. cbn [run_order]. by rewrite Ep.
  - exists (id :: take n temp'), st2. split_and!; [by rewrite Hp|done|]. cbn [run_order]. by rewrite Ep.
Qed.

Lemma collect_ok temp num_prtns :
  0 ≤ num_prtns ≤ Z.of_nat (length temp) →
  ∃ temp' num, ofold (collect is_prtn_empty_fn) (seqZ 0 num_prtns) (temp, 0) = Ret (temp', num) ∧
    0 ≤ num ≤ Z.of_nat (length temp') ∧
    take (Z.to_nat num) temp' = filter (λ i, is_prtn_empty_fn i = false) (seqZ 0 num_prtns).
Proof.
  intros Hn.
  destruct (ofold_seqZ (λ i st, length st.1 = length temp ∧ 0 ≤ st.2 ≤ i ∧
      take (Z.to_nat st.2) st.1 = filter (λ i, is_prtn_empty_fn i = false) (seqZ 0 i))
    (collect is_prtn_empty_fn) 0 num_prtns (temp, 0)) as ([temp' num] & E & Hl & Hnum & Ht); [lia|done| |].
  - intros i [t k] Hi (Hl & Hk & Ht). cbn [fst snd] in *. unfold collect.
    rewrite seqZ_app, filter_app, (seqZ_cons (0 + i) 1), (seqZ_nil _ (Z.pred 1)), Z.add_0_l by lia.
    rewrite filter_cons, filter_nil.
    destruct (is_prtn_empty_fn i); [rewrite decide_False by done|rewrite decide_True by done].
    + eexists. split; [done|]. cbn [fst snd]. split_and!; [done|lia|lia|by rewrite app_nil_r].
    + rewrite write_at_ok by lia. orun. eexists. split; [done|]. cbn [fst snd].
      split_and!; [by rewrite length_insert|lia|lia|]. replace (Z.to_nat (k + 1)) with (S (Z.to_nat k)) by lia.
      rewrite (take_S_r _ _ i) by (rewrite list_lookup_insert_eq by lia; done).
      by rewrite take_insert_ge, Ht by lia.
  - exists temp', num. cbn [fst snd] in *. split_and!; [done|lia|lia|by rewrite Ht, Z.add_0_l].
Qed.

(** Handing out partitions.  Whatever the random draws of the calling
    thread, [ForEachPartition] runs the callback on every non-empty partition
    exactly once, in some order, and stops early only at the first error
    status of the callback, which it returns. *)
Theorem for_each_partition_visits_all num_threads thread_id st temp a :
  locks_ok st num_threads → (thread_id < num_threads)%nat → st.(num_prtns_) ≤ Z.of_nat (length temp) →
  ∃ order st', order ≡ₚ filter (λ i, is_prtn_empty_fn i = false) (seqZ 0 st.(num_prtns_)) ∧
    locks_ok st' num_threads ∧
    ForEachPartition is_prtn_empty_fn (λ a p, Ret (process a p)) thread_id st temp a =
      Ret ((run_order order a).1, st', (run_order order a).2).
Proof.
  intros Hst Ht Hlen. unfold ForEachPartition.
  destruct (collect_ok temp st.(num_prtns_)) as (temp' & num & -> & Hnum & Htake); [split; [apply Hst|done]|]. orun.
  rewrite <-Htake. apply process_loop_ok; [done|done|lia|].
  rewrite Htake. apply Forall_forall. intros i. rewrite list_elem_of_filter, elem_of_seqZ. lia.
Qed.
End ForEachFacts.

End Locks.

Arguments PartitionLocks G : clear implicits.


(** No mutual exclusion.  [AcquirePartitionLock] reports success without
    taking the lock: two threads asking for the same partition are both given
    it, one after the other with no release in between, and no lock changes. *)
Theorem acquire_takes_no_lock {G : Type} `{RandomSourceOk G} (st : PartitionLocks G) (num_threads t1 t2 : nat) (id : Z) :
  locks_ok st num_threads → (t1 < num_threads)%nat → (t2 < num_threads)%nat →
  ∃ st1 st2, AcquirePartitionLock st t1 1 [id] = Ret (true, id, 0, st1) ∧
    AcquirePartitionLock st1 t2 1 [id] = Ret (true, id, 0, st2) ∧
    st1.(locks_) = st.(locks_) ∧ st2.(locks_) = st.(locks_).
Proof.
  intros Hst H1 H2.
  destruct (Acquire_ok st num_threads t1 1 [id]) as (id1 & p1 & st1 & E1 & Hp1 & Hid1 & Hst1 & _ & Hl1); [done|done|lia|cbn; lia|].
  destruct (Acquire_ok st1 num_threads t2 1 [id]) as (id2 & p2 & st2 & E2 & Hp2 & Hid2 & Hst2 & _ & Hl2); [done|done|lia|cbn; lia|].
  assert (p1 = 0) as -> by lia. assert (p2 = 0) as -> by lia. injection Hid1 as <-. injection Hid2 as <-.
  exists st1, st2. split_and!; [exact E1|exact E2|done|congruence].
Qed.

