(* ===== verification/BloomBuilder.v ===== *)
(** * BloomFilterBuilder: building a filter from batches of hashes

    Models [BloomFilterBuilder_SingleThreaded] and [BloomFilterBuilder_Parallel]
    of [bloom_filter.cpp].  The builders keep a pointer to the filter they
    build; here the filter is passed to and returned by each operation, since
    the threads share it. *)

From S2P Require Import Prelude Arrow BloomMasks BloomFilter BloomAvx2 PartitionSort PartitionLocks.
Local Open Scope Z_scope.
Local Open Scope machine_scope.

Module SingleThreaded.
Section Builder.
  Context `{ArrowBits} (masks_ : list Z).

Record BloomFilterBuilder_SingleThreaded := mkSingle { hardware_flags_ : Z }.

(** [Begin]. *)
Definition Begin (alloc : Z → bool) (hardware_flags num_rows : Z) (build_target : BlockedBloomFilter)
    : outcome (Status * BloomFilterBuilder_SingleThreaded * BlockedBloomFilter) :=
  let* (status, build_target) := CreateEmpty alloc build_target num_rows in
  Ret (status, mkSingle hardware_flags, build_target).

(** [PushNextBatch] and [PushNextBatchImp]. *)
Definition PushNextBatch (b : BloomFilterBuilder_SingleThreaded) (num_rows : Z) (hashes : list Z)
    (build_target : BlockedBloomFilter) : outcome (Status * BlockedBloomFilter) :=
  let* build_target := Insert masks_ b.(hardware_flags_) build_target num_rows hashes in
  Ret (StatusOK, build_target).

(** [BuiltCols]. *)
Definition BuiltCols (build_target : BlockedBloomFilter) : list nat := build_target.(BoundColsBuilt).

End Builder.
End SingleThreaded.

Module Parallel.
Section Builder.
  Context `{ArrowBits} {G : Type} `{RandomSource G} (masks_ : list Z).

Record ThreadLocalState := mkLocal {
  partitioned_hashes_64 : list Z;
  partition_ranges : list Z;
  unprocessed_partition_ids : list Z
}.

Record BloomFilterBuilder_Parallel := mkParallel {
  total_row_nums_ : Z;
  hardware_flags_ : Z;
  log_num_prtns_ : Z;
  thread_local_states_ : list ThreadLocalState;
  prtn_locks_ : PartitionLocks G
}.

Definition kMaxLogNumPrtns : Z := 8.

(** [Begin]; [resize] keeps the thread states that exist. *)
Definition Begin (alloc : Z → bool) (old : list ThreadLocalState) (num_threads hardware_flags num_rows : Z)
    (build_target : BlockedBloomFilter)
    : outcome (Status * BloomFilterBuilder_Parallel * BlockedBloomFilter) :=
  let log_num_prtns := Z.min kMaxLogNumPrtns (Log2 num_threads) in
  let n := Z.to_nat num_threads in
  let states := take n old ++ replicate (n - length old) (mkLocal [] [] []) in
  let locks := PartitionLocks.Init num_threads (Z.shiftl 1 log_num_prtns) in
  let* (status, build_target) := CreateEmpty alloc build_target num_rows in
  Ret (status, mkParallel num_rows hardware_flags log_num_prtns states locks, build_target).

Definition kLogBlocksKeptTogether : Z := 7.
Definition kPrtnIdBitOffset : Z := kLogNumMasks + 6 + kLogBlocksKeptTogether.

(** The partition of a hash. *)
Definition prtn_id (num_prtns hash : Z) : Z := Z.land (Z.shiftr hash kPrtnIdBitOffset) (num_prtns - 1).

(** The ids of the partitions with rows. *)
Definition collect_nonempty (ranges : list Z) (st : list Z * Z) (i : Z) : outcome (list Z * Z) :=
  let '(ids, num) := st in
  let* hi := read_at ranges (i + 1) in
  let* lo := read_at ranges i in
  if hi =? lo then Ret (ids, num) else
  let* ids := write_at ids num i in Ret (ids, num + 1).

(** The loop that inserts one partition after the other; [n] is
    [num_unprocessed_partitions] and the partition taken is always the first. *)
Fixpoint insert_partitions (flags : Z) (ranges hashes : list Z) (n : nat) (ids : list Z) (bf : BlockedBloomFilter)
    : outcome (list Z * BlockedBloomFilter) :=
  match n with
  | O => Ret (ids, bf)
  | S n' =>
      let* locked_prtn_id := read_at ids 0 in
      let* hi := read_at ranges (locked_prtn_id + 1) in
      let* lo := read_at ranges locked_prtn_id in
      let* bf := Insert masks_ flags bf (hi - lo) (drop (Z.to_nat lo) hashes) in
      let* ids := swap_remove ids 0 (Z.of_nat n) in
      insert_partitions flags ranges hashes n' ids bf
  end.

(** [PushNextBatch] and [PushNextBatchImp]; [hashes] holds [num_rows] hashes. *)
Definition PushNextBatch (b : BloomFilterBuilder_Parallel) (thread_id : nat) (hashes : list Z)
    (build_target : BlockedBloomFilter)
    : outcome (Status * BloomFilterBuilder_Parallel * BlockedBloomFilter) :=
  let num_rows := Z.of_nat (length hashes) in
  let log_num_prtns_max := Z.max 0 (build_target.(log_num_blocks_) - kLogBlocksKeptTogether) in
  let log_num_prtns_mod := Z.min b.(log_num_prtns_) log_num_prtns_max in
  let num_prtns := Z.shiftl 1 log_num_prtns_mod in
  let* local := deref (b.(thread_local_states_) !! thread_id) in
  let ranges := resize (Z.to_nat (num_prtns + 1)) local.(partition_ranges) in
  let partitioned := resize (Z.to_nat num_rows) local.(partitioned_hashes_64) in
  let ids := resize (Z.to_nat num_prtns) local.(unprocessed_partition_ids) in
  let* (ranges, partitioned) := sort_by (prtn_id num_prtns) num_prtns ranges hashes partitioned in
  let* (ids, num) := ofold (collect_nonempty ranges) (seqZ 0 num_prtns) (ids, 0) in
  let* (ids, build_target) := insert_partitions b.(hardware_flags_) ranges partitioned (Z.to_nat num) ids build_target in
  Ret (StatusOK,
       mkParallel b.(total_row_nums_) b.(hardware_flags_) b.(log_num_prtns_)
         (<[thread_id := mkLocal partitioned ranges ids]> b.(thread_local_states_)) b.(prtn_locks_),
       build_target).

(** [BuiltCols], [CleanUp] and [Merge]. *)
Definition BuiltCols (build_target : BlockedBloomFilter) : list nat := build_target.(BoundColsBuilt).

Definition CleanUp (b : BloomFilterBuilder_Parallel) : BloomFilterBuilder_Parallel :=
  mkParallel b.(total_row_nums_) b.(hardware_flags_) b.(log_num_prtns_) [] PartitionLocks.CleanUp.

Definition Merge (b : BloomFilterBuilder_Parallel) : BloomFilterBuilder_Parallel := b.

End Builder.
Arguments BloomFilterBuilder_Parallel G : clear implicits.

(** ** Facts *)

Section BuilderFacts.
  Context `{ArrowBitsOk} {G : Type} `{RandomSourceOk G} (masks_ : list Z) (masks_good : masks_ok masks_).

(** The hashes of partition [id] in the sorted array. *)
Definition slice (ranges hashes : list Z) (id : Z) : list Z :=
  take (Z.to_nat (blk ranges (id + 1) - blk ranges id)) (drop (Z.to_nat (blk ranges id)) hashes).

(** The counters of partition [id] delimit a slice of the array. *)
Definition range_ok (ranges hashes : list Z) (id : Z) : Prop :=
  0 ≤ id ∧ id + 1 < Z.of_nat (length ranges) ∧
  0 ≤ blk ranges id ≤ blk ranges (id + 1) ∧ blk ranges (id + 1) ≤ Z.of_nat (length hashes).

Lemma read_at_blk a i : 0 ≤ i < Z.of_nat (length a) → read_at a i = Ret (blk a i).
Proof. intros Hi. apply read_at_Some; [lia|]. apply lookup_blk. lia. Qed.

Lemma insert_partitions_ok flags ranges hashes n ids bf bs :
  bf_ok bf bs → (n ≤ length ids)%nat → Forall (range_ok ranges hashes) (take n ids) →
  ∃ ids' order, order ≡ₚ take n ids ∧
    insert_partitions masks_ flags ranges hashes n ids bf =
      Ret (ids', with_blocks (Some (puts masks_ bf.(log_num_blocks_) bs (concat (slice ranges hashes <$> order)))) bf).
Proof.
  revert ids bf bs. induction n as [|n IH]; intros ids bf bs Hok Hlen Hr.
  { exists ids, []. split; [done|]. cbn. by rewrite with_blocks_id by apply Hok. }
  destruct (lookup_lt_is_Some_2 ids 0) as [id Hid]; [lia|].
  destruct (swap_remove_ok ids n 0 id) as (ids1 & E1 & Hl1 & Hp); [lia|done|done|].
  rewrite Hp in Hr. apply Forall_cons in Hr as [(Hid0 & Hid1 & Hlo & Hhi) Hr].
  cbn [insert_partitions]. rewrite (read_at_Some _ 0 id) by done. orun.
  rewrite !read_at_blk by lia. orun. rewrite (Insert_ok masks_ masks_good flags bf bs) by (done || (rewrite length_drop; lia)).
  fold (slice ranges hashes id). rewrite (InsertImp_ok masks_ masks_good bf bs) by done. orun. rewrite E1. orun.
  destruct (IH ids1 _ _ (puts_ok masks_ masks_good bf bs (slice ranges hashes id) Hok)) as (ids' & order & Ho & E);
    [lia|done|].
  exists ids', (id :: order). split; [by rewrite Ho, Hp|]. rewrite E.
  cbn [fmap list_fmap concat log_num_blocks_ with_blocks]. by rewrite puts_app.
Qed.

Lemma collect_nonempty_ok ranges ids num_prtns :
  0 ≤ num_prtns → num_prtns + 1 ≤ Z.of_nat (length ranges) → num_prtns ≤ Z.of_nat (length ids) →
  ∃ ids' num, ofold (collect_nonempty ranges) (seqZ 0 num_prtns) (ids, 0) = Ret (ids', num) ∧
    0 ≤ num ≤ Z.of_nat (length ids') ∧
    take (Z.to_nat num) ids' = filter (λ i, (blk ranges (i + 1) =? blk ranges i) = false) (seqZ 0 num_prtns).
Proof.
  intros Hn Hr Hi. rewrite (ofold_ext_in _ (collect (λ i, blk ranges (i + 1) =? blk ranges i))).
  - apply collect_ok. lia.
  - intros [t k] i [Hi1 Hi2]%elem_of_seqZ. unfold collect_nonempty. by rewrite !read_at_blk by lia.
Qed.

Lemma prtn_id_range log hash : 0 ≤ log → 0 ≤ prtn_id (Z.shiftl 1 log) hash < Z.shiftl 1 log.
Proof.
  intros. unfold prtn_id. rewrite Z.shiftl_1_l, land_pow2_pred by lia. apply Z.mod_pos_bound. lia.
Qed.

(** The slices of the non-empty partitions hold the hashes of the batch. *)
Lemma slices_cover (f : Z → Z) ranges rows num_prtns order :
  Forall (λ h, 0 ≤ f h < num_prtns) rows →
  (∀ k, 0 ≤ k ≤ num_prtns → blk ranges k = before f k rows) →
  order ≡ₚ filter (λ i, (blk ranges (i + 1) =? blk ranges i) = false) (seqZ 0 num_prtns) →
  ∀ h, h ∈ concat (slice ranges (bucket_sorted f num_prtns rows) <$> order) ↔ h ∈ rows.
Proof.
  intros Hf Hr Ho h. assert (Forall (λ h, 0 ≤ f h) rows) as Hf0 by (eapply Forall_impl; [done|]; cbn; lia).
  assert (∀ k, 0 ≤ k < num_prtns → slice ranges (bucket_sorted f num_prtns rows) k = bucket f k rows) as Hslice.
  { intros k Hk. unfold slice. rewrite !Hr, before_succ by lia.
    replace (_ + _ - _) with (bucket_size f k rows) by lia. by apply bucket_slice. }
  rewrite list_elem_of_In, in_concat. setoid_rewrite <-list_elem_of_In. setoid_rewrite list_elem_of_fmap. setoid_rewrite Ho.
  setoid_rewrite list_elem_of_filter. setoid_rewrite elem_of_seqZ. split.
  - intros (l & (k & -> & _ & Hk) & Hl). rewrite Hslice in Hl by lia.
    by apply list_elem_of_filter in Hl as [_ ?].
  - intros Hh. pose proof (proj1 (Forall_forall _ _) Hf h Hh) as Hfh. cbn in Hfh.
    assert (h ∈ bucket f (f h) rows) as Hb by (by apply list_elem_of_filter).
    exists (bucket f (f h) rows). split; [|done]. exists (f h). split; [by rewrite Hslice|]. split; [|lia].
    apply Z.eqb_neq. rewrite !Hr, before_succ by lia. unfold bucket_size.
    destruct (bucket f (f h) rows); [by apply not_elem_of_nil in Hb|]. cbn [length]. lia.
Qed.

Definition builder_ok (b : BloomFilterBuilder_Parallel G) (num_threads : nat) : Prop :=
  length b.(thread_local_states_) = num_threads ∧ 0 ≤ b.(log_num_prtns_) ≤ kMaxLogNumPrtns.

Lemma PushNextBatch_ok b num_threads thread_id hashes bf bs :
  builder_ok b num_threads → (thread_id < num_threads)%nat → Z.of_nat (length hashes) < 2 ^ 16 → bf_ok bf bs →
  ∃ b', PushNextBatch masks_ b thread_id hashes bf =
      Ret (StatusOK, b', with_blocks (Some (puts masks_ bf.(log_num_blocks_) bs hashes)) bf) ∧
    builder_ok b' num_threads.
Proof.
  intros [Hb1 Hb2] Ht Hlen Hok. unfold PushNextBatch.
  set (log := Z.min _ _). assert (0 ≤ log) by (subst log; lia).
  destruct (lookup_lt_is_Some_2 b.(thread_local_states_) thread_id) as [local ->]; [lia|]. orun.
  set (f := prtn_id (Z.shiftl 1 log)). assert (Forall (λ h, 0 ≤ f h < Z.shiftl 1 log) hashes) as Hf.
  { apply Forall_forall. intros h _. by apply prtn_id_range. }
  assert (0 < Z.shiftl 1 log) by (rewrite Z.shiftl_1_l; lia). set (np := Z.shiftl 1 log) in *.
  edestruct (sort_by_ok f np) as (ranges & -> & Hlr & Hk); [done|lia|done|rewrite length_resize; lia|rewrite length_resize; lia|].
  rewrite length_resize in Hlr. orun.
  assert (∀ k, 0 ≤ k ≤ np → blk ranges k = before f k hashes) as Hr by (intros; by apply blk_lookup, Hk).
  edestruct (collect_nonempty_ok ranges) as (ids & num & -> & Hnum & Htake); [|rewrite Hlr; lia|rewrite length_resize; lia|];
    [lia|]. orun.
  destruct (insert_partitions_ok b.(hardware_flags_) ranges (bucket_sorted f np hashes) (Z.to_nat num) ids bf bs)
    as (ids' & order & Ho & ->); [done|lia| |].
  { rewrite Htake. apply Forall_forall. intros k [_ Hk']%list_elem_of_filter. apply elem_of_seqZ in Hk'.
    pose proof (Permutation_length (bucket_sorted_perm f np hashes ltac:(lia) Hf)).
    pose proof (before_succ f k hashes). pose proof (bucket_size_le f k hashes). pose proof (before_le f k hashes).
    pose proof (before_le f (k + 1) hashes).
    unfold range_ok. rewrite !Hr, Hlr by lia. lia. }
  orun. eexists. split.
  - do 3 f_equal. f_equal. apply puts_set_eq; [done..|]. rewrite Htake in Ho. by apply (slices_cover f).
  - split; [cbn; by rewrite length_insert|done].
Qed.
End BuilderFacts.
End Parallel.

(** ** The two builders *)

Section Builders.
  Context `{ArrowBits} {G : Type} `{RandomSource G} (masks_ : list Z).

(** Pushing batches, each with the index of the thread that pushes it. *)
Definition push_parallel (b : Parallel.BloomFilterBuilder_Parallel G) (batches : list (nat * list Z))
    (bf : BlockedBloomFilter) : outcome (Parallel.BloomFilterBuilder_Parallel G * BlockedBloomFilter) :=
  ofold (λ st batch, let* (_, b, bf) := Parallel.PushNextBatch masks_ st.1 batch.1 batch.2 st.2 in Ret (b, bf))
    batches (b, bf).

Definition push_single (b : SingleThreaded.BloomFilterBuilder_SingleThreaded) (batches : list (nat * list Z))
    (bf : BlockedBloomFilter) : outcome BlockedBloomFilter :=
  ofold (λ bf batch,
      let* (_, bf) := SingleThreaded.PushNextBatch masks_ b (Z.of_nat (length batch.2)) batch.2 bf in Ret bf)
    batches bf.
End Builders.

Section BuildersFacts.
  Context `{ArrowBitsOk} {G : Type} `{RandomSourceOk G} (masks_ : list Z) (masks_good : masks_ok masks_).

Lemma push_parallel_ok (b : Parallel.BloomFilterBuilder_Parallel G) num_threads batches bf bs :
  Parallel.builder_ok b num_threads → bf_ok bf bs →
  Forall (λ batch, (batch.1 < num_threads)%nat ∧ Z.of_nat (length batch.2) < 2 ^ 16) batches →
  ∃ b', push_parallel masks_ b batches bf =
    Ret (b', with_blocks (Some (puts masks_ bf.(log_num_blocks_) bs (concat batches.*2))) bf).
Proof.
  intros Hb Hok Hall. revert b bf bs Hb Hok. unfold push_parallel.
  induction Hall as [|[t hs] batches [Ht Hl] _ IH]; intros b bf bs Hb Hok.
  { exists b. cbn. by rewrite with_blocks_id by apply Hok. }
  cbn [ofold fst snd].
  destruct (Parallel.PushNextBatch_ok masks_ masks_good b num_threads t hs bf bs) as (b1 & -> & Hb1); [done..|]. orun.
  destruct (IH b1 _ _ Hb1 (puts_ok masks_ masks_good bf bs hs Hok)) as (b' & E). exists b'. rewrite E.
  cbn [fmap list_fmap concat log_num_blocks_ with_blocks snd]. by rewrite puts_app.
Qed.

Lemma push_single_ok b batches bf bs :
  bf_ok bf bs →
  push_single masks_ b batches bf =
    Ret (with_blocks (Some (puts masks_ bf.(log_num_blocks_) bs (concat batches.*2))) bf).
Proof.
  revert bf bs. unfold push_single. induction batches as [|[t hs] batches IH]; intros bf bs Hok.
  { cbn. by rewrite with_blocks_id by apply Hok. }
  cbn [ofold fst snd]. unfold SingleThreaded.PushNextBatch.
  rewrite (Insert_ok masks_ masks_good _ bf bs), Nat2Z.id, firstn_all, (InsertImp_ok masks_ masks_good bf bs)
    by (done || lia). orun. rewrite (IH _ _ (puts_ok masks_ masks_good bf bs hs Hok)).
  cbn [fmap list_fmap concat log_num_blocks_ with_blocks snd]. by rewrite puts_app.
Qed.

Lemma Log2_nonneg x : 1 ≤ x → 0 ≤ Log2 x.
Proof.
  intros Hx. destruct (decide (x = 1)) as [->|]; [by rewrite Log2_1|].
  destruct (Log2_spec x) as [_ Hl]; [lia|]. destruct (Z.lt_ge_cases (Log2 x) 0) as [Hn|]; [|done].
  rewrite Z.pow_neg_r in Hl by done. lia.
Qed.
End BuildersFacts.

(** C34: the builders.  For any number of threads, any assignment of batches
    of fewer than [2^16] hashes to threads and any hardware flags, the
    parallel builder (bucket sort, then one partition after the other) ends
    with exactly the filter the single-threaded builder ends with, and the
    filter accepts every hash of every batch.  Nothing fails on the way. *)
Theorem parallel_builder_is_single_threaded `{ArrowBitsOk} {G : Type} `{RandomSourceOk G} (masks_ : list Z)
    (alloc : Z → bool) (num_threads flags num_rows : Z) (target : BlockedBloomFilter) (batches : list (nat * list Z)) :
  masks_ok masks_ → (∀ size, alloc size = true) → 1 ≤ num_threads →
  0 ≤ num_rows → num_rows * kMinNumBitsPerKey < 2 ^ 63 →
  Forall (λ batch, (batch.1 < Z.to_nat num_threads)%nat ∧ Z.of_nat (length batch.2) < 2 ^ 16) batches →
  ∃ b s bf0 b' bf,
    Parallel.Begin (G := G) alloc [] num_threads flags num_rows target = Ret (StatusOK, b, bf0) ∧
    SingleThreaded.Begin alloc flags num_rows target = Ret (StatusOK, s, bf0) ∧
    push_parallel masks_ b batches bf0 = Ret (b', bf) ∧ push_single masks_ s batches bf0 = Ret bf ∧
    ∀ t hs h, (t, hs) ∈ batches → h ∈ hs → Find masks_ bf h = Ret true.
Proof.
  intros Hm Hal Hth Hn Hov Hall. unfold Parallel.Begin, SingleThreaded.Begin.
  destruct (CreateEmpty_ok alloc target num_rows Hn Hov) as (log & Hlog & _ & HC).
  rewrite Hal in HC. rewrite HC. orun. pose proof (empty_ok target log ltac:(lia)) as Hok.
  pose proof (Log2_nonneg num_threads Hth).
  edestruct (push_parallel_ok (G := G) masks_ Hm
    (Parallel.mkParallel num_rows flags (Z.min Parallel.kMaxLogNumPrtns (Log2 num_threads))
      (replicate (Z.to_nat num_threads) (Parallel.mkLocal [] [] [])) (Init num_threads (Z.shiftl 1 (Z.min Parallel.kMaxLogNumPrtns (Log2 num_threads)))))
    (Z.to_nat num_threads)) as (b' & E); [|exact Hok|done|].
  { split; [apply length_replicate|]. cbn. unfold Parallel.kMaxLogNumPrtns. lia. }
  rewrite take_nil, Nat.sub_0_r. cbn [app].
  eexists _, _, _, b', _. split_and!; [done|done|exact E|by apply push_single_ok|].
  intros t hs h Hb Hh. pose proof (slot_in_range _ _ h Hok).
  rewrite (Find_find_in masks_ _ _ h (puts_ok masks_ Hm _ _ _ Hok)). f_equal. apply find_in_puts; [done..|].
  apply list_elem_of_In, in_concat. exists hs. split; [|by apply list_elem_of_In].
  apply list_elem_of_In, list_elem_of_fmap. by exists (t, hs).
Qed.

Lemma parallel_builder_is_single_threaded_witness :
  ∃ b s bf0 b' bf,
    Parallel.Begin (G := Z) (λ _, true) [] 3 4 100 new_filter = Ret (StatusOK, b, bf0) ∧
    SingleThreaded.Begin (λ _, true) 4 100 new_filter = Ret (StatusOK, s, bf0) ∧
    push_parallel sample_masks b [(2%nat, [17; 2 ^ 40; 99; 5; 6]); (0%nat, [2 ^ 30])] bf0 = Ret (b', bf) ∧
    push_single sample_masks s [(2%nat, [17; 2 ^ 40; 99; 5; 6]); (0%nat, [2 ^ 30])] bf0 = Ret bf ∧
    ∀ t hs h, (t, hs) ∈ [(2%nat, [17; 2 ^ 40; 99; 5; 6]); (0%nat, [2 ^ 30])] → h ∈ hs → Find sample_masks bf h = Ret true.
Proof.
  apply (parallel_builder_is_single_threaded (G := Z) sample_masks (λ _, true) 3 4 100 new_filter);
    [apply sample_masks_ok|done|lia|lia|by vm_compute|].
  repeat constructor; cbn; lia.
Defined.
