(* ===== verification/ValueHash.v ===== *)
(** * Hashes of single values

    Models [common/types/hash.hpp], [hash.cpp] and the parts of
    [interval.hpp] the hash of an interval needs.  A [hash_t] is a 64-bit
    unsigned integer; floating-point values are given by their bits. *)

From S2P Require Import Prelude.
Local Open Scope Z_scope.
Local Open Scope machine_scope.

(** ** Integers *)

Definition murmurhash64 (x : Z) : Z :=
  let x := Z.lxor x (Z.shiftr x 32) in
  let x := u64 (x * 0xd6e8feb86659fd93) in
  let x := Z.lxor x (Z.shiftr x 32) in
  let x := u64 (x * 0xd6e8feb86659fd93) in
  Z.lxor x (Z.shiftr x 32).

Definition murmurhash32 (x : Z) : Z := murmurhash64 (u32 x).

(** [Hash<T>] of the integer types of up to 32 bits: the value is converted to
    [uint32_t]. *)
Definition Hash_small (value : Z) : Z := murmurhash32 value.

(** [Hash<uint64_t>] and [Hash<int64_t>]. *)
Definition Hash_int64 (val : Z) : Z := murmurhash64 (u64 val).

Record hugeint_t := mkHuge { lower : Z; upper : Z }.

(** [Hash<hugeint_t>] and [Hash<uhugeint_t>]. *)
Definition Hash_hugeint (val : hugeint_t) : Z :=
  Z.lxor (murmurhash64 (u64 val.(lower))) (murmurhash64 (u64 val.(upper))).

(** ** Floating point *)

Record float_format := mkFormat { exponent_bits : Z; mantissa_bits : Z }.

Definition float_bits (fmt : float_format) : Z := 1 + fmt.(exponent_bits) + fmt.(mantissa_bits).
Definition mantissa (fmt : float_format) (bits : Z) : Z := bits mod 2 ^ fmt.(mantissa_bits).
Definition exponent (fmt : float_format) (bits : Z) : Z :=
  (bits / 2 ^ fmt.(mantissa_bits)) mod 2 ^ fmt.(exponent_bits).

Definition float_is_zero (fmt : float_format) (bits : Z) : bool :=
  (exponent fmt bits =? 0) && (mantissa fmt bits =? 0).

Definition float_isnan (fmt : float_format) (bits : Z) : bool :=
  (exponent fmt bits =? 2 ^ fmt.(exponent_bits) - 1) && negb (mantissa fmt bits =? 0).

(** [std::numeric_limits<T>::quiet_NaN()]. *)
Definition quiet_NaN (fmt : float_format) : Z :=
  (2 ^ fmt.(exponent_bits) - 1) * 2 ^ fmt.(mantissa_bits) + 2 ^ (fmt.(mantissa_bits) - 1).

Definition FloatingPointEqualityTransform (fmt : float_format) (val : Z) : Z :=
  if float_is_zero fmt val then 0
  else if float_isnan fmt val then quiet_NaN fmt
  else val.

(** IEEE order of values that are not NaN: sign and magnitude, with both zeros
    equal. *)
Definition magnitude (fmt : float_format) (bits : Z) : Z := bits mod 2 ^ (fmt.(exponent_bits) + fmt.(mantissa_bits)).

Definition float_key (fmt : float_format) (bits : Z) : Z :=
  if bits / 2 ^ (fmt.(exponent_bits) + fmt.(mantissa_bits)) =? 0 then magnitude fmt bits else - magnitude fmt bits.

(** The comparisons of [comparison_operators.cpp]. *)
Definition EqualsFloat (fmt : float_format) (left right : Z) : bool :=
  if float_isnan fmt left && float_isnan fmt right then true
  else if float_isnan fmt left || float_isnan fmt right then false
  else float_key fmt left =? float_key fmt right.

Definition GreaterThanFloat (fmt : float_format) (left right : Z) : bool :=
  let left_is_nan := float_isnan fmt left in
  let right_is_nan := float_isnan fmt right in
  if right_is_nan then false
  else if left_is_nan then true
  else float_key fmt right <? float_key fmt left.

Definition GreaterThanEqualsFloat (fmt : float_format) (left right : Z) : bool :=
  let left_is_nan := float_isnan fmt left in
  let right_is_nan := float_isnan fmt right in
  if right_is_nan then left_is_nan
  else if left_is_nan then true
  else float_key fmt right <=? float_key fmt left.

Definition binary32 : float_format := mkFormat 8 23.
Definition binary64 : float_format := mkFormat 11 52.

Definition Hash_float (val : Z) : Z := murmurhash64 (u32 (FloatingPointEqualityTransform binary32 val)).
Definition Hash_double (val : Z) : Z := murmurhash64 (u64 (FloatingPointEqualityTransform binary64 val)).

(** ** Intervals *)

Record interval_t := mkInterval { months : Z; days : Z; micros : Z }.

Definition DAYS_PER_MONTH : Z := 30.
Definition MICROS_PER_DAY : Z := 1000 * 1000 * 60 * 60 * 24.
Definition MICROS_PER_MONTH : Z := MICROS_PER_DAY * DAYS_PER_MONTH.

(** [interval_t::Normalize]; C++ division truncates. *)
Definition Normalize (input : interval_t) : Z * Z * Z :=
  let extra_months_d := Z.quot input.(days) DAYS_PER_MONTH in
  let extra_months_micros := Z.quot input.(micros) MICROS_PER_MONTH in
  let days' := input.(days) - extra_months_d * DAYS_PER_MONTH in
  let micros' := input.(micros) - extra_months_micros * MICROS_PER_MONTH in
  let extra_days_micros := Z.quot micros' MICROS_PER_DAY in
  let micros'' := micros' - extra_days_micros * MICROS_PER_DAY in
  (input.(months) + extra_months_d + extra_months_micros, days' + extra_days_micros, micros'').

(** [operator==]. *)
Definition interval_eq (left right : interval_t) : bool :=
  if (left.(months) =? right.(months)) && (left.(days) =? right.(days)) && (left.(micros) =? right.(micros))
  then true
  else
    let '(lmonths, ldays, lmicros) := Normalize left in
    let '(rmonths, rdays, rmicros) := Normalize right in
    (lmonths =? rmonths) && (ldays =? rdays) && (lmicros =? rmicros).

(** [operator>] and the orders defined from it. *)
Definition interval_gt (left right : interval_t) : bool :=
  let '(lmonths, ldays, lmicros) := Normalize left in
  let '(rmonths, rdays, rmicros) := Normalize right in
  if rmonths <? lmonths then true
  else if lmonths <? rmonths then false
  else if rdays <? ldays then true
  else if ldays <? rdays then false
  else rmicros <? lmicros.

Definition interval_lt (left right : interval_t) : bool := interval_gt right left.
Definition interval_le (left right : interval_t) : bool := negb (interval_gt left right).
Definition interval_ge (left right : interval_t) : bool := negb (interval_lt left right).

Definition Hash_interval (val : interval_t) : Z :=
  let '(months, days, micros) := Normalize val in
  Z.lxor (Z.lxor (Hash_int64 days) (Hash_int64 months)) (Hash_int64 micros).

(** ** Bytes *)

Definition M : Z := 0xc6a4a7935bd1e995.
Definition SEED : Z := 0xe17a1465.
Definition R : Z := 47.

(** One block of eight bytes. *)
Definition hash_block (bytes : list Z) (h : Z) (i : Z) : Z :=
  let k := load64 bytes (8 * i) in
  let k := u64 (k * M) in
  let k := Z.lxor k (Z.shiftr k R) in
  let k := u64 (k * M) in
  u64 (Z.lxor h k * M).

(** The [switch] on the last bytes, from [case] [n] down. *)
Fixpoint hash_tail (data8 : list Z) (n : nat) (h : Z) : Z :=
  match n with
  | O => h
  | S n' => hash_tail data8 n' (Z.lxor h (Z.shiftl (byte_at data8 n') (8 * Z.of_nat n')))
  end.

Definition HashBytes (bytes : list Z) : Z :=
  let len := Z.of_nat (length bytes) in
  let h := Z.lxor SEED (u64 (len * M)) in
  let n_blocks := len / 8 in
  let h := fold_left (hash_block bytes) (seqZ 0 n_blocks) h in
  let data8 := drop (Z.to_nat (8 * n_blocks)) bytes in
  let rest := Z.land len 7 in
  let h := if rest =? 0 then h else u64 (hash_tail data8 (Z.to_nat rest) h * M) in
  let h := Z.lxor h (Z.shiftr h R) in
  let h := u64 (h * M) in
  Z.lxor h (Z.shiftr h R).

Definition Hash_string (val : list Z) : Z := HashBytes val.

(** ** Combining *)

(** [HashOp::NULL_HASH] and [CombineHashScalar] of [vector_hash.cpp]. *)
Definition NULL_HASH : Z := 0xbf58476d1ce4e5b9.

Definition CombineHashScalar (a b : Z) : Z := Z.lxor (u64 (a * 0xbf58476d1ce4e5b9)) b.

(** ** The mixing steps are bijections *)

Definition xorshift (k x : Z) : Z := Z.lxor x (Z.shiftr x k).

Lemma xorshift_fits k x : 0 ≤ k → fits 64 x → fits 64 (xorshift k x).
Proof. intros. apply fits_lxor; [lia|done|]. by apply fits_shiftr. Qed.

(** A shift by at least half the width makes the step its own inverse. *)
Lemma xorshift_involutive k x : 32 ≤ k → fits 64 x → xorshift k (xorshift k x) = x.
Proof.
  intros Hk Hx. unfold xorshift. apply Z.bits_inj'. intros i Hi.
  rewrite !Z.lxor_spec, !Z.shiftr_spec, !Z.lxor_spec, Z.shiftr_spec by lia.
  rewrite (testbit_above 64 x (i + k + k)) by (done || lia).
  by destruct (Z.testbit x i), (Z.testbit x (i + k)).
Qed.

Lemma xorshift_inj k x y : 32 ≤ k → fits 64 x → fits 64 y → xorshift k x = xorshift k y → x = y.
Proof.
  intros Hk Hx Hy E. by rewrite <-(xorshift_involutive k x), <-(xorshift_involutive k y), E.
Qed.

(** Multiplication by an odd constant, [c * c' = 1] modulo [2^64]. *)
Lemma mul_inj c c' x y :
  u64 (c * c') = 1 → fits 64 x → fits 64 y → u64 (x * c) = u64 (y * c) → x = y.
Proof.
  intros Hc Hx Hy E. rewrite <-(wrap_id 64 x), <-(wrap_id 64 y) by done.
  assert (∀ z, u64 z = u64 (u64 (z * c) * c')) as Hinv.
  { intros z. unfold wrap in *. rewrite Zmult_mod_idemp_l, <-Z.mul_assoc.
    rewrite <-(Zmult_mod_idemp_r (c * c')), Hc. by rewrite Z.mul_1_r. }
  by rewrite (Hinv x), (Hinv y), E.
Qed.

Definition murmur_mult : Z := 0xd6e8feb86659fd93.

Lemma murmurhash64_steps x :
  murmurhash64 x = xorshift 32 (u64 (xorshift 32 (u64 (xorshift 32 x * murmur_mult)) * murmur_mult)).
Proof. done. Qed.

Lemma murmurhash64_fits x : fits 64 (murmurhash64 x).
Proof. rewrite murmurhash64_steps. apply xorshift_fits; [lia|]. by apply wrap_fits. Qed.

Lemma murmurhash64_inj x y : fits 64 x → fits 64 y → murmurhash64 x = murmurhash64 y → x = y.
Proof.
  intros Hx Hy. rewrite !murmurhash64_steps. intros E.
  assert (∀ z, fits 64 (u64 z)) as Hw by (intros; by apply wrap_fits).
  assert (∀ z, fits 64 z → fits 64 (xorshift 32 z)) as Hxs by (intros; by apply xorshift_fits).
  apply xorshift_inj in E; [|lia|auto..].
  apply (mul_inj murmur_mult 14982988110149298331) in E; [|by vm_compute|auto..].
  apply xorshift_inj in E; [|lia|auto..].
  apply (mul_inj murmur_mult 14982988110149298331) in E; [|by vm_compute|auto..].
  by apply xorshift_inj in E.
Qed.

Lemma lxor_inj_l a b c : Z.lxor a b = Z.lxor a c → b = c.
Proof.
  intros E. rewrite <-(Z.lxor_0_l b), <-(Z.lxor_0_l c), <-(Z.lxor_nilpotent a), !Z.lxor_assoc. by rewrite E.
Qed.

Lemma lxor_inj_r a b c : Z.lxor b a = Z.lxor c a → b = c.
Proof. rewrite !(Z.lxor_comm _ a). apply lxor_inj_l. Qed.

Lemma CombineHashScalar_fits a b : fits 64 b → fits 64 (CombineHashScalar a b).
Proof. intros. apply fits_lxor; [lia|by apply wrap_fits|done]. Qed.

Lemma CombineHashScalar_inj_l a a' b :
  fits 64 a → fits 64 a' → CombineHashScalar a b = CombineHashScalar a' b → a = a'.
Proof.
  intros Ha Ha' E%lxor_inj_r. apply (mul_inj 0xbf58476d1ce4e5b9 10871156337175269513) in E; [done|by vm_compute|done..].
Qed.

Lemma CombineHashScalar_inj_r a b b' : CombineHashScalar a b = CombineHashScalar a b' → b = b'.
Proof. apply lxor_inj_l. Qed.

(** ** Floating point *)

Record format_ok (fmt : float_format) : Prop := {
  exponent_pos : 2 ≤ fmt.(exponent_bits);
  mantissa_pos : 1 ≤ fmt.(mantissa_bits)
}.

Lemma binary32_ok : format_ok binary32.
Proof. by split. Qed.

Lemma binary64_ok : format_ok binary64.
Proof. by split. Qed.

Section Floats.
  Context (fmt : float_format) (fmt_ok : format_ok fmt).

Local Abbreviation e := (exponent_bits fmt).
Local Abbreviation m := (mantissa_bits fmt).

Lemma magnitude_split bits : magnitude fmt bits = exponent fmt bits * 2 ^ m + mantissa fmt bits.
Proof.
  destruct fmt_ok. unfold magnitude, exponent, mantissa.
  rewrite (Z.add_comm e m), Z.pow_add_r, Z.rem_mul_r by lia. lia.
Qed.

Lemma float_is_zero_magnitude bits : float_is_zero fmt bits = true ↔ magnitude fmt bits = 0.
Proof.
  destruct fmt_ok. unfold float_is_zero. rewrite andb_true_iff, !Z.eqb_eq, magnitude_split.
  assert (0 ≤ exponent fmt bits) by (apply Z.mod_pos_bound; lia).
  assert (0 ≤ mantissa fmt bits) by (apply Z.mod_pos_bound; lia).
  assert (0 < 2 ^ m) by lia. split; [intros [-> ->]; lia|]. intros E. nia.
Qed.

Lemma zero_not_nan bits : float_is_zero fmt bits = true → float_isnan fmt bits = false.
Proof.
  unfold float_is_zero, float_isnan. intros [_ ->]%andb_true_iff. apply andb_false_r.
Qed.

Lemma quiet_NaN_range : 0 ≤ quiet_NaN fmt < 2 ^ (e + m).
Proof.
  destruct fmt_ok. unfold quiet_NaN. rewrite Z.pow_add_r by lia.
  assert (2 ^ m = 2 * 2 ^ (m - 1)) as -> by (rewrite <-Z.pow_succ_r by lia; f_equal; lia).
  assert (2 ^ 2 ≤ 2 ^ e) by (apply Z.pow_le_mono_r; lia). assert (0 < 2 ^ (m - 1)) by lia. nia.
Qed.

Lemma quiet_NaN_is_nan : float_isnan fmt (quiet_NaN fmt) = true.
Proof.
  destruct fmt_ok. unfold float_isnan, exponent, mantissa, quiet_NaN.
  assert (2 ^ m = 2 * 2 ^ (m - 1)) as E by (rewrite <-Z.pow_succ_r by lia; f_equal; lia).
  assert (0 < 2 ^ (m - 1)) by lia. assert (0 < 2 ^ e) by lia.
  set (h := 2 ^ (m - 1)) in *. set (Q := _ * _ + h).
  assert (Q / 2 ^ m = 2 ^ e - 1) as -> by (symmetry; apply (Z.div_unique_pos _ _ _ h); [lia|unfold Q; ring]).
  assert (Q mod 2 ^ m = h) as -> by (symmetry; apply (Z.mod_unique_pos _ _ (2 ^ e - 1)); [lia|unfold Q; ring]).
  rewrite Z.mod_small, Z.eqb_refl by lia. cbn. by rewrite (proj2 (Z.eqb_neq _ _)) by lia.
Qed.

(** Two values that are not NaN compare equal exactly when both are zero or
    their bits agree. *)
Lemma float_key_eq a b :
  fits (1 + e + m) a → fits (1 + e + m) b →
  float_key fmt a = float_key fmt b ↔ (magnitude fmt a = 0 ∧ magnitude fmt b = 0) ∨ a = b.
Proof.
  destruct fmt_ok. intros Ha Hb. unfold fits in *. rewrite <-Z.add_assoc, Z.pow_add_r in Ha, Hb by lia.
  set (B := 2 ^ (e + m)) in *. assert (0 < B) by (subst B; lia). unfold float_key, magnitude. fold B.
  pose proof (Z_div_mod_eq_full a B). pose proof (Z_div_mod_eq_full b B).
  pose proof (Z.mod_pos_bound a B ltac:(lia)). pose proof (Z.mod_pos_bound b B ltac:(lia)).
  pose proof (Z.div_pos a B ltac:(lia) ltac:(lia)). pose proof (Z.div_pos b B ltac:(lia) ltac:(lia)).
  pose proof (Z.div_lt_upper_bound a B 2 ltac:(lia) ltac:(lia)). pose proof (Z.div_lt_upper_bound b B 2 ltac:(lia) ltac:(lia)).
  split.
  - intros E. destruct (Z.eqb_spec (a / B) 0), (Z.eqb_spec (b / B) 0);
      try (left; lia); right; [|assert (a / B = 1) by lia; assert (b / B = 1) by lia]; nia.
  - intros [[E1 E2]| ->]; [|done]. rewrite E1, E2. by destruct (_ =? _), (_ =? _).
Qed.

Lemma transform_range val :
  fits (1 + e + m) val → fits (1 + e + m) (FloatingPointEqualityTransform fmt val).
Proof.
  destruct fmt_ok. intros Hv. unfold FloatingPointEqualityTransform.
  destruct (float_is_zero fmt val); [apply fits_0; lia|]. destruct (float_isnan fmt val); [|done].
  pose proof quiet_NaN_range. split; [lia|]. apply (Z.lt_le_trans _ (2 ^ (e + m))); [lia|].
  apply Z.pow_le_mono_r; lia.
Qed.

(** The transform identifies exactly the values that compare equal. *)
Lemma transform_eq a b :
  fits (1 + e + m) a → fits (1 + e + m) b →
  FloatingPointEqualityTransform fmt a = FloatingPointEqualityTransform fmt b ↔ EqualsFloat fmt a b = true.
Proof.
  intros Ha Hb. unfold FloatingPointEqualityTransform, EqualsFloat.
  assert (float_isnan fmt 0 = false) as Hn0.
  { apply zero_not_nan, float_is_zero_magnitude. unfold magnitude. by rewrite Z.mod_0_l by (destruct fmt_ok; lia). }
  assert (float_is_zero fmt 0 = true) as Hz0.
  { apply float_is_zero_magnitude. unfold magnitude. by rewrite Z.mod_0_l by (destruct fmt_ok; lia). }
  pose proof quiet_NaN_is_nan as Hq. pose proof (float_key_eq a b Ha Hb) as Hk.
  rewrite <-!float_is_zero_magnitude in Hk.
  destruct (float_is_zero fmt a) eqn:Za, (float_is_zero fmt b) eqn:Zb.
  all: try rewrite (zero_not_nan a Za); try rewrite (zero_not_nan b Zb); cbn [andb orb].
  - rewrite Z.eqb_eq, Hk. tauto.
  - destruct (float_isnan fmt b) eqn:Nb; cbn [andb orb]; [split; congruence|]. rewrite Z.eqb_eq, Hk.
    split; [intros <-; congruence|intros [[]|]; congruence].
  - destruct (float_isnan fmt a) eqn:Na; cbn [andb orb]; [split; congruence|]. rewrite Z.eqb_eq, Hk.
    split; [intros ->; congruence|intros [[]|]; congruence].
  - destruct (float_isnan fmt a) eqn:Na, (float_isnan fmt b) eqn:Nb; cbn [andb orb];
      [done|split; congruence|split; congruence|].
    rewrite Z.eqb_eq, Hk. split; [by right|intros [[]|]; congruence].
Qed.
End Floats.

(** ** Bytes *)

Lemma bytes_eq_bits bs bs' :
  bytes_ok bs → bytes_ok bs' → length bs = length bs' →
  (∀ p, 0 ≤ p < 8 * Z.of_nat (length bs) → bit_at bs p = bit_at bs' p) → bs = bs'.
Proof.
  intros Hb Hb' Hl Hbits. apply (list_eq_same_length _ _ (length bs')); [done|done|].
  intros i x y Hi Hx Hy.
  apply (fits_ext 8); [by apply (Forall_lookup_1 _ _ _ _ Hb Hx)|by apply (Forall_lookup_1 _ _ _ _ Hb' Hy)|].
  intros j Hj. specialize (Hbits (8 * Z.of_nat i + j) ltac:(lia)). unfold bit_at, byte_at in Hbits.
  replace ((8 * Z.of_nat i + j) / 8) with (Z.of_nat i) in Hbits by (apply (Z.div_unique_pos _ _ _ j); lia).
  replace ((8 * Z.of_nat i + j) mod 8) with j in Hbits by (apply (Z.mod_unique_pos _ _ (Z.of_nat i)); lia).
  by rewrite Nat2Z.id, Hx, Hy in Hbits.
Qed.

Lemma hash_tail_bits data8 (n : nat) h j :
  bytes_ok data8 → 0 ≤ j →
  Z.testbit (hash_tail data8 n h) j = xorb (Z.testbit h j) ((j <? 8 * Z.of_nat n) && bit_at data8 j).
Proof.
  intros Hb Hj. revert h. induction n as [|n IH]; intros h; cbn [hash_tail].
  { rewrite (proj2 (Z.ltb_ge _ _)) by lia. by rewrite xorb_false_r. }
  rewrite IH, Z.lxor_spec, Z.shiftl_spec by lia. unfold bit_at.
  pose proof (Z_div_mod_eq_full j 8). pose proof (Z.mod_pos_bound j 8 ltac:(lia)).
  pose proof (byte_at_fits data8 n Hb) as Hf.
  destruct (Z.ltb_spec j (8 * Z.of_nat n)), (Z.ltb_spec j (8 * Z.of_nat (S n))); cbn [andb]; try lia.
  - rewrite (Z.testbit_neg_r _ (j - _)) by lia. by rewrite xorb_false_r.
  - replace (Z.to_nat (j / 8)) with n by lia. replace (j - 8 * Z.of_nat n) with (j mod 8) by lia.
    by rewrite xorb_false_r.
  - rewrite (testbit_above 8 (byte_at data8 n)) by (done || lia). by rewrite !xorb_false_r.
Qed.

Lemma hash_tail_fits data8 (n : nat) h : (n ≤ 8)%nat → bytes_ok data8 → fits 64 h → fits 64 (hash_tail data8 n h).
Proof.
  intros Hn Hb. revert h. induction n as [|n IH]; intros h Hh; cbn [hash_tail]; [done|].
  apply IH; [lia|]. apply fits_lxor; [lia|done|].
  pose proof (byte_at_fits data8 n Hb) as [Hf1 Hf2].
  rewrite Z.shiftl_mul_pow2 by lia. unfold fits. split; [lia|].
  apply (Z.lt_le_trans _ (2 ^ 8 * 2 ^ (8 * Z.of_nat n))); [apply Z.mul_lt_mono_pos_r; lia|].
  rewrite <-Z.pow_add_r by lia. apply Z.pow_le_mono_r; lia.
Qed.

Definition bytes_finish (h : Z) : Z := xorshift R (u64 (xorshift R h * M)).

Lemma bytes_finish_inj h h' : fits 64 h → fits 64 h' → bytes_finish h = bytes_finish h' → h = h'.
Proof.
  intros Hh Hh' E. apply xorshift_inj in E; [|done|by apply wrap_fits..].
  apply (mul_inj M 6879827495036328381) in E; [|by vm_compute|by apply xorshift_fits..].
  by apply xorshift_inj in E.
Qed.

Lemma hash_block_inj bs bs' h i :
  fits 64 h → fits 64 (load64 bs (8 * i)) → fits 64 (load64 bs' (8 * i)) →
  hash_block bs h i = hash_block bs' h i → load64 bs (8 * i) = load64 bs' (8 * i).
Proof.
  intros Hh Hl Hl' E. unfold hash_block in E. fold (xorshift R (u64 (load64 bs (8 * i) * M))) in E.
  fold (xorshift R (u64 (load64 bs' (8 * i) * M))) in E.
  apply (mul_inj M 6879827495036328381) in E;
    [|by vm_compute|apply fits_lxor; [lia|done|by apply wrap_fits]..].
  apply lxor_inj_l in E.
  apply (mul_inj M 6879827495036328381) in E; [|by vm_compute|apply xorshift_fits; [done|by apply wrap_fits]..].
  apply xorshift_inj in E; [|done|by apply wrap_fits..].
  by apply (mul_inj M 6879827495036328381) in E.
Qed.

Lemma HashBytes_short bs :
  (length bs < 8)%nat →
  HashBytes bs = bytes_finish (if Z.of_nat (length bs) =? 0 then Z.lxor SEED (u64 (Z.of_nat (length bs) * M))
    else u64 (hash_tail bs (length bs) (Z.lxor SEED (u64 (Z.of_nat (length bs) * M))) * M)).
Proof.
  intros Hl. unfold HashBytes. rewrite (Z.div_small _ 8) by lia.
  rewrite seqZ_nil by lia. cbn [fold_left]. change (drop (Z.to_nat (8 * 0)) bs) with bs.
  change 7 with (2 ^ 3 - 1). rewrite land_pow2_pred, Z.mod_small, Nat2Z.id by lia. done.
Qed.

Lemma HashBytes_8 bs :
  length bs = 8%nat → HashBytes bs = bytes_finish (hash_block bs (Z.lxor SEED (u64 (8 * M))) 0).
Proof. intros Hl. unfold HashBytes. by rewrite Hl. Qed.

Lemma seed_fits n : fits 64 (Z.lxor SEED (u64 (n * M))).
Proof. apply fits_lxor; [lia| |by apply wrap_fits]. unfold fits, SEED. lia. Qed.

(** ** Properties *)

(** Integer hashing has no collisions.  [murmurhash64] is a bijection of
    the 64-bit integers: every hash has exactly one preimage. *)
Theorem murmurhash64_bijective (h : Z) :
  fits 64 h → ∃ x, fits 64 x ∧ murmurhash64 x = h ∧ ∀ y, fits 64 y → murmurhash64 y = h → y = x.
Proof.
  intros Hh. set (c := 14982988110149298331).
  assert (∀ z, fits 64 z → u64 (u64 (z * c) * murmur_mult) = z) as Hinv.
  { intros z Hz. unfold wrap. rewrite Zmult_mod_idemp_l, <-Z.mul_assoc, <-(Zmult_mod_idemp_r (c * murmur_mult)).
    change ((c * murmur_mult) mod 2 ^ 64) with 1. rewrite Z.mul_1_r. by apply wrap_id. }
  assert (∀ z, fits 64 (u64 z)) as Hw by (intros; by apply wrap_fits).
  assert (∀ z, fits 64 z → fits 64 (xorshift 32 z)) as Hxs by (intros; by apply xorshift_fits).
  set (x := xorshift 32 (u64 (xorshift 32 (u64 (xorshift 32 h * c)) * c))).
  assert (murmurhash64 x = h) as E.
  { rewrite murmurhash64_steps. subst x. rewrite xorshift_involutive, Hinv by first [lia|auto].
    rewrite xorshift_involutive, Hinv by first [lia|auto]. apply xorshift_involutive; [lia|done]. }
  exists x. split_and!; [subst x; auto|done|]. intros y Hy Ey. apply murmurhash64_inj; [done|subst x; auto|congruence].
Qed.

(** Floating-point hashes agree with equality.  Two floats, and two
    doubles, have the same hash exactly when DuckDB's equality holds between
    them: NaNs are equal to each other, and so are the two zeros. *)
Theorem float_hash_iff_equal (a b c d : Z) :
  fits 32 a → fits 32 b → fits 64 c → fits 64 d →
  (Hash_float a = Hash_float b ↔ EqualsFloat binary32 a b = true) ∧
  (Hash_double c = Hash_double d ↔ EqualsFloat binary64 c d = true).
Proof.
  intros Ha Hb Hc Hd. rewrite <-(transform_eq binary32 binary32_ok), <-(transform_eq binary64 binary64_ok) by done.
  pose proof (transform_range binary32 binary32_ok a Ha) as Ta. pose proof (transform_range binary32 binary32_ok b Hb) as Tb.
  pose proof (transform_range binary64 binary64_ok c Hc) as Tc. pose proof (transform_range binary64 binary64_ok d Hd) as Td.
  change (fits 32 (FloatingPointEqualityTransform binary32 a)) in Ta.
  change (fits 32 (FloatingPointEqualityTransform binary32 b)) in Tb.
  change (fits 64 (FloatingPointEqualityTransform binary64 c)) in Tc.
  change (fits 64 (FloatingPointEqualityTransform binary64 d)) in Td.
  unfold Hash_float, Hash_double. rewrite !wrap_id by done.
  split; (split; [intros E; apply murmurhash64_inj; try done; by apply (fits_mono 32)|by intros ->]).
Qed.

(** Short strings do not collide.  Two byte strings of the same length of
    at most eight bytes with the same hash are the same string. *)
Theorem short_string_hash_injective (bs bs' : list Z) :
  bytes_ok bs → bytes_ok bs' → length bs = length bs' → (length bs ≤ 8)%nat →
  HashBytes bs = HashBytes bs' → bs = bs'.
Proof.
  intros Hb Hb' Hl Hs E. destruct (decide (length bs = 8%nat)) as [H8|H8].
  - rewrite !HashBytes_8 in E by congruence.
    apply bytes_finish_inj in E; [|by apply wrap_fits..].
    apply hash_block_inj in E; [|apply seed_fits|apply load64_fits; [done|lia|lia]..].
    apply bytes_eq_bits; [done..|]. intros p Hp. rewrite H8 in Hp.
    pose proof (load64_testbit bs (8 * 0) p Hb) as E1. pose proof (load64_testbit bs' (8 * 0) p Hb') as E2.
    rewrite <-(Z.add_0_l p). change 0 with (8 * (8 * 0)). rewrite <-E1, <-E2 by lia. by rewrite E.
  - rewrite !HashBytes_short, <-Hl in E by lia.
    destruct (Z.eqb_spec (Z.of_nat (length bs)) 0) as [H0|H0].
    { destruct bs, bs'; cbn in *; done || lia. }
    apply bytes_finish_inj in E; [|by apply wrap_fits..].
    apply (mul_inj M 6879827495036328381) in E;
      [|by vm_compute|apply hash_tail_fits; [lia|done|apply seed_fits]..].
    apply bytes_eq_bits; [done..|]. intros p Hp.
    pose proof (f_equal (λ z, Z.testbit z p) E) as Ep. cbn beta in Ep. rewrite !hash_tail_bits in Ep by (done || lia).
    rewrite (proj2 (Z.ltb_lt _ _)) in Ep by lia. cbn [andb] in Ep.
    by destruct (Z.testbit _ p), (bit_at bs p), (bit_at bs' p).
Qed.

(** Intervals.  Equality and order of intervals form a total order up to
    equality (exactly one of less, equal and greater holds, and greater is
    transitive), and equal intervals have equal hashes. *)
Theorem interval_order_and_hash (a b c : interval_t) :
  (interval_eq a b = true → Hash_interval a = Hash_interval b) ∧
  match interval_lt a b, interval_eq a b, interval_gt a b with
  | true, false, false | false, true, false | false, false, true => True
  | _, _, _ => False
  end ∧
  interval_eq a b = interval_eq b a ∧
  (interval_gt a b = true → interval_gt b c = true → interval_gt a c = true).
Proof.
  assert (∀ a b, interval_eq a b = true ↔ Normalize a = Normalize b) as Heq.
  { intros [m1 d1 u1] [m2 d2 u2]. unfold interval_eq. cbn [months days micros].
    destruct (_ && _ && _) eqn:E.
    - rewrite !andb_true_iff, !Z.eqb_eq in E. destruct E as [[-> ->] ->]. done.
    - destruct (Normalize (mkInterval m1 d1 u1)) as [[? ?] ?], (Normalize (mkInterval m2 d2 u2)) as [[? ?] ?].
      rewrite !andb_true_iff, !Z.eqb_eq. split; [intros [[-> ->] ->]; done|by intros [= -> -> ->]]. }
  split_and!.
  - rewrite Heq. unfold Hash_interval. by intros ->.
  - destruct (interval_eq a b) eqn:E; [apply Heq in E|]; unfold interval_lt, interval_gt.
    + rewrite E. destruct (Normalize b) as [[? ?] ?]. by rewrite !Z.ltb_irrefl.
    + assert (Normalize a ≠ Normalize b) as Hne by (intros ?%Heq; congruence). revert Hne.
      destruct (Normalize a) as [[m1 d1] u1], (Normalize b) as [[m2 d2] u2]. intros Hne.
      destruct (Z.ltb_spec m1 m2), (Z.ltb_spec m2 m1), (Z.ltb_spec d1 d2), (Z.ltb_spec d2 d1),
        (Z.ltb_spec u1 u2), (Z.ltb_spec u2 u1); try done; try lia; by destruct Hne; repeat f_equal; lia.
  - apply eq_true_iff_eq. rewrite !Heq. by split.
  - unfold interval_gt. destruct (Normalize a) as [[m1 d1] u1], (Normalize b) as [[m2 d2] u2], (Normalize c) as [[m3 d3] u3].
    destruct (Z.ltb_spec m2 m1), (Z.ltb_spec m1 m2), (Z.ltb_spec m3 m2), (Z.ltb_spec m2 m3), (Z.ltb_spec m3 m1), (Z.ltb_spec m1 m3);
      try done; try lia; destruct (Z.ltb_spec d2 d1), (Z.ltb_spec d1 d2), (Z.ltb_spec d3 d2), (Z.ltb_spec d2 d3),
      (Z.ltb_spec d3 d1), (Z.ltb_spec d1 d3); try done; try lia; rewrite ?Z.ltb_lt; lia.
Qed.

(** The length of an interval when a month counts as thirty days. *)
Definition interval_duration (i : interval_t) : Z :=
  i.(months) * MICROS_PER_MONTH + i.(days) * MICROS_PER_DAY + i.(micros).

(** [Normalize] does not carry the days gained from the microseconds into the
    months: 29 days and 25 hours are ordered before one month of 30 days. *)
Lemma interval_order_against_duration :
  let i := mkInterval 0 29 (25 * 60 * 60 * 1000 * 1000) in
  let j := mkInterval 1 0 0 in
  interval_duration j < interval_duration i ∧ interval_lt i j = true.
Proof. by vm_compute. Qed.
