(* ===== verification/Values.v ===== *)
(** * Values and their comparisons

    Models the value types the hash functions and the joins work on, and the
    comparisons of [common/value_operations/comparison_operations.cpp],
    [common/operator/comparison_operators.hpp] and [hugeint.hpp].  A type is
    the physical structure of a logical type; the values of a type are given
    by recursion on it, [None] being SQL's NULL. *)

From S2P Require Import Prelude ValueHash.
Local Open Scope Z_scope.
Local Open Scope machine_scope.

(** ** Types *)

Inductive ScalarType :=
| BOOL | INT8 | INT16 | INT32 | INT64 | UINT8 | UINT16 | UINT32 | UINT64
| INT128 | UINT128 | FLOAT | DOUBLE | INTERVAL | VARCHAR.

#[global] Instance ScalarType_eq_dec : EqDecision ScalarType.
Proof. solve_decision. Defined.

Definition payload (s : ScalarType) : Type :=
  match s with
  | INT128 | UINT128 => hugeint_t
  | INTERVAL => interval_t
  | VARCHAR => list Z
  | _ => Z
  end.

#[warnings="-register-all"] Inductive Ty :=
| TScalar (s : ScalarType)
| TStruct (children : list Ty)
| TList (child : Ty)
| TArray (child : Ty) (size : nat).

(** Induction on types with the induction hypothesis for all children. *)
Section Ty_induction.
  Context (P : Ty → Prop).
  Context (Pscalar : ∀ s, P (TScalar s)) (Pstruct : ∀ ts, Forall P ts → P (TStruct ts)).
  Context (Plist : ∀ t, P t → P (TList t)) (Parray : ∀ t n, P t → P (TArray t n)).

Fixpoint Ty_nested_ind (t : Ty) : P t :=
  match t with
  | TScalar s => Pscalar s
  | TStruct ts =>
      Pstruct ts ((fix go ts : Forall P ts :=
        match ts with
        | [] => Forall_nil_2 P
        | t :: ts => Forall_cons_2 P t ts (Ty_nested_ind t) (go ts)
        end) ts)
  | TList t => Plist t (Ty_nested_ind t)
  | TArray t n => Parray t n (Ty_nested_ind t)
  end.
End Ty_induction.

(** Values that are not NULL, and values. *)
Fixpoint data (t : Ty) : Type :=
  match t with
  | TScalar s => payload s
  | TStruct ts =>
      (fix tuple ts : Type := match ts with [] => unit | t :: ts => (option (data t) * tuple ts)%type end) ts
  | TList t => list (option (data t))
  | TArray t _ => list (option (data t))
  end.

Definition val (t : Ty) : Type := option (data t).

(** The children of a struct value. *)
Definition tuple : list Ty → Type :=
  fix tuple ts : Type := match ts with [] => unit | t :: ts => (val t * tuple ts)%type end.

(** ** Scalars *)

Definition Hugeint_Equals (lhs rhs : hugeint_t) : bool :=
  (lhs.(lower) =? rhs.(lower)) && (lhs.(upper) =? rhs.(upper)).

Definition Hugeint_GreaterThan (lhs rhs : hugeint_t) : bool :=
  (rhs.(upper) <? lhs.(upper)) || ((lhs.(upper) =? rhs.(upper)) && (rhs.(lower) <? lhs.(lower))).

(** [std::string]'s [operator>]: lexicographic on unsigned bytes. *)
Fixpoint bytes_gt (l r : list Z) : bool :=
  match l, r with
  | [], _ => false
  | _ :: _, [] => true
  | a :: l, b :: r => if b <? a then true else if a <? b then false else bytes_gt l r
  end.

(** [Equals::Operation] and [GreaterThan::Operation] on the scalar types. *)
Definition scalar_equals (s : ScalarType) : payload s → payload s → bool :=
  match s with
  | INT128 | UINT128 => Hugeint_Equals
  | FLOAT => EqualsFloat binary32
  | DOUBLE => EqualsFloat binary64
  | INTERVAL => interval_eq
  | VARCHAR => λ l r, bool_decide (l = r)
  | _ => Z.eqb
  end.

Definition scalar_greater (s : ScalarType) : payload s → payload s → bool :=
  match s with
  | INT128 | UINT128 => Hugeint_GreaterThan
  | FLOAT => GreaterThanFloat binary32
  | DOUBLE => GreaterThanFloat binary64
  | INTERVAL => interval_gt
  | VARCHAR => bytes_gt
  | _ => λ l r, r <? l
  end.

(** ** The loops of [TemplatedBooleanOperation]

    [definite], [possible] and [final] are the [ValuePositionComparator]
    functions of the operation at hand. *)

Section Loops.
  Context {A : Type} (definite possible : A → A → bool).

Fixpoint list_loop (tie_break : Z → Z → bool) (pos : Z) (l r : list A) : bool :=
  match l, r with
  | a :: l', b :: r' =>
      if definite a b then true
      else if negb (possible a b) then false
      else list_loop tie_break (pos + 1) l' r'
  | _, _ => tie_break (pos + Z.of_nat (length l)) (pos + Z.of_nat (length r))
  end.

Fixpoint array_loop (l r : list A) : bool :=
  match l, r with
  | a :: l', b :: r' =>
      if definite a b then true
      else if negb (possible a b) then false
      else array_loop l' r'
  | _, _ => true
  end.
End Loops.

(** The operations, for a child comparator of each type.  [nd] compares with
    NotDistinctFrom and [op] with the operation itself; a struct's last child
    is compared by [Final]. *)

Definition not_distinct {A} (equals : A → A → bool) (l r : option A) : bool :=
  match l, r with
  | None, None => true
  | Some l, Some r => equals l r
  | _, _ => false
  end.

Definition distinct_greater {A} (greater : A → A → bool) (l r : option A) : bool :=
  match l, r with
  | None, None => false
  | _, None => false
  | None, _ => true
  | Some l, Some r => greater l r
  end.

(** [TemplatedBooleanOperation<Equals>] on two values of one type: [Definite]
    never holds, [Possible] and [Final] are NotDistinctFrom.  A struct has at
    least one field ([struct_pack] refuses to make others), and the loop relies
    on it: without fields it would run to [size() - 1], past the end.  The
    result for no fields, here and in [greater], is thus one that is never
    asked for. *)
Fixpoint equals (t : Ty) : data t → data t → bool :=
  match t with
  | TScalar s => scalar_equals s
  | TStruct ts =>
      (fix go ts : tuple ts → tuple ts → bool :=
        match ts with
        | [] => λ _ _, true
        | t :: ts => λ l r,
            match ts with
            | [] => not_distinct (equals t) l.1 r.1
            | _ => if negb (not_distinct (equals t) l.1 r.1) then false else go ts l.2 r.2
            end
        end) ts
  | TList t => list_loop (λ _ _, false) (not_distinct (equals t)) Z.eqb 0
  | TArray t _ => array_loop (λ _ _, false) (not_distinct (equals t))
  end.

(** [TemplatedBooleanOperation<GreaterThan>]: [Definite] and [Final] are
    DistinctGreaterThan, [Possible] is NotDistinctFrom. *)
Fixpoint greater (t : Ty) : data t → data t → bool :=
  match t with
  | TScalar s => scalar_greater s
  | TStruct ts =>
      (fix go ts : tuple ts → tuple ts → bool :=
        match ts with
        | [] => λ _ _, false
        | t :: ts => λ l r,
            match ts with
            | [] => distinct_greater (greater t) l.1 r.1
            | _ => if distinct_greater (greater t) l.1 r.1 then true
                   else if negb (not_distinct (equals t) l.1 r.1) then false else go ts l.2 r.2
            end
        end) ts
  | TList t => list_loop (distinct_greater (greater t)) (not_distinct (equals t)) (λ l r, r <? l) 0
  | TArray t _ => array_loop (distinct_greater (greater t)) (not_distinct (equals t))
  end.

Definition NotDistinctFrom (t : Ty) : val t → val t → bool := not_distinct (equals t).
Definition DistinctGreaterThan (t : Ty) : val t → val t → bool := distinct_greater (greater t).

(** The other operations of [ValueOperations]. *)
Definition Equals (t : Ty) (l r : val t) : outcome bool :=
  match l, r with
  | Some l, Some r => Ret (equals t l r)
  | _, _ => Throw "Comparison on NULL values"
  end.

Definition NotEquals (t : Ty) (l r : val t) : outcome bool := let* b := Equals t l r in Ret (negb b).

Definition GreaterThan (t : Ty) (l r : val t) : outcome bool :=
  match l, r with
  | Some l, Some r => Ret (greater t l r)
  | _, _ => Throw "Comparison on NULL values"
  end.

Definition GreaterThanEquals (t : Ty) (l r : val t) : outcome bool := let* b := GreaterThan t r l in Ret (negb b).
Definition LessThan (t : Ty) (l r : val t) : outcome bool := GreaterThan t r l.
Definition LessThanEquals (t : Ty) (l r : val t) : outcome bool := let* b := GreaterThan t l r in Ret (negb b).
Definition DistinctFrom (t : Ty) (l r : val t) : bool := negb (NotDistinctFrom t l r).
Definition DistinctGreaterThanEquals (t : Ty) (l r : val t) : bool := negb (DistinctGreaterThan t r l).
Definition DistinctLessThan (t : Ty) (l r : val t) : bool := DistinctGreaterThan t r l.
Definition DistinctLessThanEquals (t : Ty) (l r : val t) : bool := negb (DistinctGreaterThan t l r).

(** ** Reference order *)

Definition is_Eq (c : comparison) : bool := match c with Eq => true | _ => false end.
Definition is_Gt (c : comparison) : bool := match c with Gt => true | _ => false end.

Definition lex (c1 c2 : comparison) : comparison := match c1 with Eq => c2 | _ => c1 end.

(** NULL is the greatest value. *)
Definition option_compare {A} (cmp : A → A → comparison) (l r : option A) : comparison :=
  match l, r with
  | None, None => Eq
  | None, Some _ => Gt
  | Some _, None => Lt
  | Some l, Some r => cmp l r
  end.

Fixpoint list_compare {A} (cmp : A → A → comparison) (l r : list A) : comparison :=
  match l, r with
  | [], [] => Eq
  | [], _ :: _ => Lt
  | _ :: _, [] => Gt
  | a :: l, b :: r => lex (cmp a b) (list_compare cmp l r)
  end.

Definition float_compare (fmt : float_format) (l r : Z) : comparison :=
  match float_isnan fmt l, float_isnan fmt r with
  | true, true => Eq
  | true, false => Gt
  | false, true => Lt
  | false, false => float_key fmt l ?= float_key fmt r
  end.

Definition interval_compare (l r : interval_t) : comparison :=
  let '(lm, ld, lu) := Normalize l in
  let '(rm, rd, ru) := Normalize r in
  lex (lm ?= rm) (lex (ld ?= rd) (lu ?= ru)).

Definition scalar_compare (s : ScalarType) : payload s → payload s → comparison :=
  match s with
  | INT128 | UINT128 => λ l r, lex (l.(upper) ?= r.(upper)) (l.(lower) ?= r.(lower))
  | FLOAT => float_compare binary32
  | DOUBLE => float_compare binary64
  | INTERVAL => interval_compare
  | VARCHAR => list_compare Z.compare
  | _ => Z.compare
  end.

(** The order SQL gives to values: NaN after all numbers, NULL after all
    values, structs and lists lexicographically. *)
Fixpoint compare (t : Ty) : data t → data t → comparison :=
  match t with
  | TScalar s => scalar_compare s
  | TStruct ts =>
      (fix go ts : tuple ts → tuple ts → comparison :=
        match ts with
        | [] => λ _ _, Eq
        | t :: ts => λ l r, lex (option_compare (compare t) l.1 r.1) (go ts l.2 r.2)
        end) ts
  | TList t => list_compare (option_compare (compare t))
  | TArray t _ => list_compare (option_compare (compare t))
  end.

(** *** Total preorders *)

Record total_preorder {A} (cmp : A → A → comparison) : Prop := {
  cmp_sym a b : cmp b a = CompOpp (cmp a b);
  cmp_trans a b c : cmp a b ≠ Gt → cmp b c ≠ Gt → cmp a c ≠ Gt
}.

Lemma cmp_compose {A} (cmp : A → A → comparison) a b c :
  total_preorder cmp →
  match cmp a b, cmp b c with
  | Eq, x => cmp a c = x
  | x, Eq => cmp a c = x
  | Lt, Lt => cmp a c = Lt
  | Gt, Gt => cmp a c = Gt
  | _, _ => True
  end.
Proof.
  intros [Hs Ht]. pose proof (Ht a b c) as H1. pose proof (Ht c b a) as H2.
  pose proof (Ht b a c) as H3. pose proof (Ht c a b) as H4. pose proof (Ht a c b) as H5. pose proof (Ht b c a) as H6.
  rewrite (Hs a b), (Hs b c), (Hs a c) in *.
  destruct (cmp a b), (cmp b c), (cmp a c); cbn in *; try done;
    (exfalso; (by apply H1) || (by apply H2) || (by apply H3) || (by apply H4) || (by apply H5) || (by apply H6)).
Qed.

Lemma Z_compare_preorder : total_preorder Z.compare.
Proof.
  split; [intros; apply Z.compare_antisym|]. intros a b c. rewrite !Z.compare_ngt_iff. lia.
Qed.

Lemma preorder_map {A B} (f : A → B) cmp : total_preorder cmp → total_preorder (λ a b, cmp (f a) (f b)).
Proof. intros [Hs Ht]. split; eauto. Qed.

Lemma preorder_lex {A B} cA cB :
  total_preorder cA → total_preorder cB →
  total_preorder (λ x y : A * B, lex (cA x.1 y.1) (cB x.2 y.2)).
Proof.
  intros HA HB. split.
  - intros [a1 b1] [a2 b2]. cbn. rewrite (cmp_sym _ HA a1 a2), (cmp_sym _ HB b1 b2). by destruct (cA a1 a2).
  - intros [a1 b1] [a2 b2] [a3 b3]. cbn. pose proof (cmp_compose cA a1 a2 a3 HA) as H1.
    pose proof (cmp_trans _ HB b1 b2 b3) as H2.
    destruct (cA a1 a2), (cA a2 a3); cbn in *; rewrite ?H1; cbn; try done; auto.
Qed.

Lemma preorder_option {A} (cmp : A → A → comparison) :
  total_preorder cmp → total_preorder (option_compare cmp).
Proof.
  intros [Hs Ht]. split; [intros [a|] [b|]; cbn; auto|]. intros [a|] [b|] [c|]; cbn; try done. apply Ht.
Qed.

Lemma preorder_list {A} (cmp : A → A → comparison) :
  total_preorder cmp → total_preorder (list_compare cmp).
Proof.
  intros Hc. split.
  - intros l. induction l as [|a l IH]; intros [|b r]; cbn; try done.
    rewrite (cmp_sym _ Hc a b), IH. by destruct (cmp a b).
  - intros l. induction l as [|a l IH]; intros [|b r] [|c s]; cbn; try done.
    pose proof (cmp_compose cmp a b c Hc) as H1. specialize (IH r s).
    destruct (cmp a b), (cmp b c); cbn in *; rewrite ?H1; cbn; try done; auto.
Qed.

Lemma preorder_float fmt : total_preorder (float_compare fmt).
Proof.
  split.
  - intros a b. unfold float_compare. destruct (float_isnan fmt a), (float_isnan fmt b); try done. apply Z.compare_antisym.
  - intros a b c. unfold float_compare. destruct (float_isnan fmt a), (float_isnan fmt b), (float_isnan fmt c); try done.
    apply Z_compare_preorder.
Qed.

Lemma preorder_interval : total_preorder interval_compare.
Proof.
  pose proof (preorder_map (λ i, let '(m, d, u) := Normalize i in (m, (d, u))) _
    (preorder_lex _ _ Z_compare_preorder (preorder_lex _ _ Z_compare_preorder Z_compare_preorder))) as [Hs Ht].
  split.
  - intros a b. specialize (Hs a b). unfold interval_compare.
    destruct (Normalize a) as [[? ?] ?], (Normalize b) as [[? ?] ?]. exact Hs.
  - intros a b c. specialize (Ht a b c). unfold interval_compare.
    destruct (Normalize a) as [[? ?] ?], (Normalize b) as [[? ?] ?], (Normalize c) as [[? ?] ?]. exact Ht.
Qed.

Lemma preorder_scalar s : total_preorder (scalar_compare s).
Proof.
  destruct s; cbn; try apply Z_compare_preorder;
    auto using preorder_float, preorder_interval, preorder_list, Z_compare_preorder.
  all: apply (preorder_map (λ h : hugeint_t, (h.(upper), h.(lower))) _ (preorder_lex _ _ Z_compare_preorder Z_compare_preorder)).
Qed.

Lemma compare_preorder t : total_preorder (compare t).
Proof.
  induction t as [s|ts IH|t IH|t n IH] using Ty_nested_ind; cbn.
  - apply preorder_scalar.
  - induction IH as [|t ts Ht _ IH]; [by split|].
    apply (preorder_lex _ _ (preorder_option _ Ht) IH).
  - by apply preorder_list, preorder_option.
  - by apply preorder_list, preorder_option.
Qed.

(** *** The code computes the reference order *)

Definition computes {A} (cmp : A → A → comparison) (eq gt : A → A → bool) : Prop :=
  ∀ a b, eq a b = is_Eq (cmp a b) ∧ gt a b = is_Gt (cmp a b).

Lemma Z_computes : computes Z.compare Z.eqb (λ l r, r <? l).
Proof.
  intros a b. rewrite Z.eqb_compare, Z.ltb_compare, (Z.compare_antisym a b). by destruct (a ?= b).
Qed.

Lemma list_loop_computes {A} (cmp : A → A → comparison) eq gt pos l r :
  computes cmp eq gt →
  list_loop (λ _ _, false) eq Z.eqb pos l r = is_Eq (list_compare cmp l r) ∧
  list_loop gt eq (λ l r, r <? l) pos l r = is_Gt (list_compare cmp l r).
Proof.
  intros Hc. revert pos r. induction l as [|a l IH]; intros pos [|b r]; cbn [list_loop list_compare length is_Eq is_Gt].
  - by rewrite Z.eqb_refl, Z.ltb_irrefl.
  - rewrite (proj2 (Z.eqb_neq _ _)), (proj2 (Z.ltb_ge _ _)) by lia. done.
  - rewrite (proj2 (Z.eqb_neq _ _)), (proj2 (Z.ltb_lt _ _)) by lia. done.
  - destruct (Hc a b) as [-> ->], (IH (pos + 1) r) as [IH1 IH2]. by destruct (cmp a b).
Qed.

Lemma option_computes {A} (cmp : A → A → comparison) eq gt :
  computes cmp eq gt → computes (option_compare cmp) (not_distinct eq) (distinct_greater gt).
Proof. intros Hc [a|] [b|]; cbn; done || apply Hc. Qed.

Lemma bytes_computes : computes (list_compare Z.compare) (λ l r, bool_decide (l = r)) bytes_gt.
Proof.
  intros l. induction l as [|a l IH]; intros [|b r]; cbn; try done.
  destruct (IH r) as [IH1 IH2]. rewrite IH2.
  destruct (Z.compare_spec a b) as [->|H|H]; cbn.
  - rewrite Z.ltb_irrefl. split; [|done]. rewrite <-IH1. apply bool_decide_ext. split; [by intros [= ->]|by intros ->].
  - rewrite (proj2 (Z.ltb_ge _ _)), (proj2 (Z.ltb_lt _ _)) by lia. split; [|done].
    apply bool_decide_eq_false. intros [=]. lia.
  - rewrite (proj2 (Z.ltb_lt _ _)) by lia. split; [|done]. apply bool_decide_eq_false. intros [=]. lia.
Qed.

Lemma float_computes fmt : computes (float_compare fmt) (EqualsFloat fmt) (GreaterThanFloat fmt).
Proof.
  intros a b. unfold float_compare, EqualsFloat, GreaterThanFloat.
  destruct (float_isnan fmt a), (float_isnan fmt b); try done. apply Z_computes.
Qed.

Lemma hugeint_computes :
  computes (λ l r, lex (l.(upper) ?= r.(upper)) (l.(lower) ?= r.(lower))) Hugeint_Equals Hugeint_GreaterThan.
Proof.
  intros [l1 u1] [l2 u2]. unfold Hugeint_Equals, Hugeint_GreaterThan. cbn [lower upper].
  destruct (Z_computes u1 u2) as [-> ->], (Z_computes l1 l2) as [-> ->].
  by destruct (u1 ?= u2), (l1 ?= l2).
Qed.

Lemma interval_computes : computes interval_compare interval_eq interval_gt.
Proof.
  intros a b. unfold interval_compare, interval_gt, interval_eq.
  destruct (_ && _ && _) eqn:E.
  - rewrite !andb_true_iff, !Z.eqb_eq in E. destruct a as [m1 d1 u1], b as [m2 d2 u2]. cbn in E.
    destruct E as [[-> ->] ->]. destruct (Normalize _) as [[m d] u]. by rewrite !Z.compare_refl, !Z.ltb_irrefl.
  - destruct (Normalize a) as [[m1 d1] u1], (Normalize b) as [[m2 d2] u2].
    destruct (Z_computes m1 m2) as [-> ->], (Z_computes d1 d2) as [-> ->], (Z_computes u1 u2) as [-> ->].
    rewrite (Z.ltb_compare m1 m2), (Z.ltb_compare d1 d2). by destruct (m1 ?= m2), (d1 ?= d2), (u1 ?= u2).
Qed.

Lemma scalar_computes s : computes (scalar_compare s) (scalar_equals s) (scalar_greater s).
Proof.
  destruct s; cbn; auto using Z_computes, hugeint_computes, float_computes, interval_computes, bytes_computes.
Qed.

Fixpoint array_free (t : Ty) : bool :=
  match t with
  | TScalar _ => true
  | TStruct ts => forallb array_free ts
  | TList t => array_free t
  | TArray _ _ => false
  end.

Lemma compare_computes t : array_free t = true → computes (compare t) (equals t) (greater t).
Proof.
  induction t as [s|ts IH|t IH|t n IH] using Ty_nested_ind; cbn.
  - intros _. apply scalar_computes.
  - induction IH as [|t ts Ht Hts IH]; [done|]. intros [Hat Hats]%andb_true_iff.
    specialize (IH Hats). specialize (option_computes _ _ _ (Ht Hat)) as Hc.
    destruct ts as [|t' ts].
    + intros [a []] [b []]. destruct (Hc a b) as [E1 E2]. cbn. rewrite E1, E2. by destruct (option_compare _ a b).
    + intros [a l] [b r]. destruct (Hc a b) as [E1 E2], (IH l r) as [IH1 IH2]. cbn [fst snd].
      rewrite E1, E2. by destruct (option_compare _ a b).
  - intros Ha a b. apply list_loop_computes. by apply option_computes, IH.
  - done.
Qed.

(** C39: comparing values.  On every type without fixed-size arrays the
    comparison code computes the order of SQL, which is a total preorder:
    [NotDistinctFrom] and [DistinctGreaterThan] answer exactly equal and
    greater for that order, so equality is an equivalence relation, the order
    is total and transitive, and one of less, equal, greater holds. *)
Theorem value_comparison_is_total_order (t : Ty) :
  array_free t = true →
  total_preorder (option_compare (compare t)) ∧
  ∀ l r, NotDistinctFrom t l r = is_Eq (option_compare (compare t) l r) ∧
         DistinctGreaterThan t l r = is_Gt (option_compare (compare t) l r) ∧
         DistinctLessThan t l r = is_Gt (option_compare (compare t) r l).
Proof.
  intros Ha. split; [apply preorder_option, compare_preorder|]. intros l r.
  destruct (option_computes _ _ _ (compare_computes t Ha) l r) as [E1 E2].
  destruct (option_computes _ _ _ (compare_computes t Ha) r l) as [_ E3]. done.
Qed.

Definition sample_type : Ty := TStruct [TScalar INT32; TList (TScalar DOUBLE); TScalar VARCHAR].

Lemma value_comparison_is_total_order_witness :
  total_preorder (option_compare (compare sample_type)) ∧
  ∀ l r, NotDistinctFrom sample_type l r = is_Eq (option_compare (compare sample_type) l r) ∧
         DistinctGreaterThan sample_type l r = is_Gt (option_compare (compare sample_type) l r) ∧
         DistinctLessThan sample_type l r = is_Gt (option_compare (compare sample_type) r l).
Proof. by apply (value_comparison_is_total_order sample_type). Defined.

Lemma array_loop_refl {A} (gt eq : A → A → bool) l :
  (∀ a, eq a a = true) → array_loop gt eq l l = true.
Proof. intros Hr. induction l as [|a l IH]; [done|]. cbn. rewrite Hr, IH. by destruct (gt a a). Qed.

(** Arrays compare wrongly.  The array case ends with [return true] for
    every operation, so an array is greater than itself: for any array value,
    both [v > v] and [v = v] hold. *)
Theorem array_is_greater_than_itself (t : Ty) (n : nat) (v : list (val t)) :
  array_free t = true →
  GreaterThan (TArray t n) (Some v) (Some v) = Ret true ∧ Equals (TArray t n) (Some v) (Some v) = Ret true.
Proof.
  intros Ha. assert (∀ a, not_distinct (equals t) a a = true) as Hr.
  { intros a. destruct (option_computes _ _ _ (compare_computes t Ha) a a) as [-> _].
    pose proof (cmp_sym _ (preorder_option _ (compare_preorder t)) a a) as E.
    by destruct (option_compare (compare t) a a). }
  cbn. by rewrite !array_loop_refl.
Qed.

