(* ===== verification/VectorHash.v ===== *)
(** * Hashes of vectors

    Models [common/vector_operations/vector_hash.cpp]: the vectorised hash
    functions over flat, constant and dictionary vectors, with the nested
    struct, list and array cases.  The memory of a hash vector starts
    uninitialised; reading an entry nobody wrote is undefined. *)

From S2P Require Import Prelude PartitionSort ValueHash Values.
Local Open Scope Z_scope.
Local Open Scope machine_scope.

Definition STANDARD_VECTOR_SIZE : Z := 2048.

(** ** Vectors *)

Inductive VectorType := FLAT_VECTOR | CONSTANT_VECTOR | DICTIONARY_VECTOR.

(** A vector of [T]: the data, the validity mask ([None] when all rows are
    valid), and, for a dictionary vector, the selection into its flat child. *)
Record vec (T : Type) := mkVec {
  vector_type : VectorType;
  vdata : list T;
  validity : option (list bool);
  dictionary : list Z
}.
Arguments mkVec {T}.
Arguments vector_type {T}.
Arguments vdata {T}.
Arguments validity {T}.
Arguments dictionary {T}.

Record list_entry_t := mkEntry { offset : Z; length_ : Z }.

(** The vectors of a type: a struct vector has one vector per child, a list
    vector the entries, the child vector and its size. *)
Fixpoint vector (t : Ty) : Type :=
  match t with
  | TScalar s => vec (payload s)
  | TStruct ts =>
      (vec unit * (fix vectors ts : Type := match ts with [] => unit | t :: ts => (vector t * vectors ts)%type end) ts)%type
  | TList t => (vec list_entry_t * vector t * Z)%type
  | TArray t _ => (vec unit * vector t)%type
  end.

Definition vectors : list Ty → Type :=
  fix vectors ts : Type := match ts with [] => unit | t :: ts => (vector t * vectors ts)%type end.

(** A selection vector; a null one selects every row. *)
Inductive selection := Incremental | Indices (l : list Z).

Definition get_index (s : selection) (i : Z) : outcome Z :=
  match s with Incremental => Ret i | Indices l => read_at l i end.

Record UnifiedVectorFormat (T : Type) := mkUnified {
  u_sel : selection;
  u_data : list T;
  u_validity : option (list bool)
}.
Arguments mkUnified {T}.
Arguments u_sel {T}.
Arguments u_data {T}.
Arguments u_validity {T}.

(** [ConstantVector::ZeroSelectionVector]. *)
Definition ZeroSelectionVector (count : Z) : selection :=
  Indices (replicate (Z.to_nat (Z.max STANDARD_VECTOR_SIZE count)) 0).

(** [Vector::ToUnifiedFormat]. *)
Definition ToUnifiedFormat {T} (v : vec T) (count : Z) : UnifiedVectorFormat T :=
  match v.(vector_type) with
  | DICTIONARY_VECTOR => mkUnified (Indices v.(dictionary)) v.(vdata) v.(validity)
  | CONSTANT_VECTOR => mkUnified (ZeroSelectionVector count) v.(vdata) v.(validity)
  | FLAT_VECTOR => mkUnified Incremental v.(vdata) v.(validity)
  end.

(** [ldata[idx]] and [mask.RowIsValid(idx)]. *)
Definition read {T} (l : list T) (i : Z) : outcome T :=
  if i <? 0 then Undef else deref (l !! Z.to_nat i).

Definition RowIsValid (mask : option (list bool)) (i : Z) : outcome bool :=
  match mask with None => Ret true | Some l => read l i end.

(** Arrays with uninitialised entries. *)
Definition get {T} (a : list (option T)) (i : Z) : outcome T := let* o := read a i in deref o.

Definition put_at {T} (a : list (option T)) (i : Z) (v : T) : outcome (list (option T)) :=
  if (0 <=? i) && (i <? Z.of_nat (length a)) then Ret (<[Z.to_nat i := Some v]> a) else Undef.

(** A vector of hashes, as [Vector hashes(LogicalType::HASH, capacity)]. *)
Record hash_vector := mkHashes { h_type : VectorType; h_data : list (option Z) }.

Definition new_hashes (capacity : Z) : hash_vector := mkHashes FLAT_VECTOR (replicate (Z.to_nat capacity) None).

(** [Vector::Flatten] of a hash vector. *)
Definition Flatten (h : hash_vector) (count : Z) : outcome hash_vector :=
  match h.(h_type) with
  | CONSTANT_VECTOR =>
      let* x := get h.(h_data) 0 in
      Ret (mkHashes FLAT_VECTOR (replicate (Z.to_nat count) (Some x) ++
        replicate (Z.to_nat (Z.max STANDARD_VECTOR_SIZE count) - Z.to_nat count) None))
  | _ => Ret h
  end.

(** ** Hashing scalars *)

(** [duckdb::Hash<T>] of the type the switch selects. *)
Definition Hash_of (s : ScalarType) : payload s → Z :=
  match s with
  | BOOL | INT8 | INT16 | INT32 | UINT8 | UINT16 | UINT32 => Hash_small
  | INT64 | UINT64 => Hash_int64
  | INT128 | UINT128 => Hash_hugeint
  | FLOAT => Hash_float
  | DOUBLE => Hash_double
  | INTERVAL => Hash_interval
  | VARCHAR => Hash_string
  end.

Section Templated.
  Context {T : Type} (Hash : T → Z).

(** [HashOp::Operation]. *)
Definition Operation (input : T) (is_null : bool) : Z := if is_null then NULL_HASH else Hash input.

Definition TightLoopHash (ldata : list T) (result_data : list (option Z)) (rsel : selection) (count : Z)
    (sel_vector : selection) (mask : option (list bool)) : outcome (list (option Z)) :=
  match mask with
  | Some _ =>
      ofold (λ result_data i,
        let* ridx := get_index rsel i in
        let* idx := get_index sel_vector ridx in
        let* x := read ldata idx in
        let* valid := RowIsValid mask idx in
        put_at result_data ridx (Operation x (negb valid))) (seqZ 0 count) result_data
  | None =>
      ofold (λ result_data i,
        let* ridx := get_index rsel i in
        let* idx := get_index sel_vector ridx in
        let* x := read ldata idx in
        put_at result_data ridx (Hash x)) (seqZ 0 count) result_data
  end.

Definition TemplatedLoopHash (input : vec T) (result : hash_vector) (rsel : selection) (count : Z)
    : outcome hash_vector :=
  match input.(vector_type) with
  | CONSTANT_VECTOR =>
      let* x := read input.(vdata) 0 in
      let* valid := RowIsValid input.(validity) 0 in
      let* d := put_at result.(h_data) 0 (Operation x (negb valid)) in
      Ret (mkHashes CONSTANT_VECTOR d)
  | _ =>
      let idata := ToUnifiedFormat input count in
      let* d := TightLoopHash idata.(u_data) result.(h_data) rsel count idata.(u_sel) idata.(u_validity) in
      Ret (mkHashes FLAT_VECTOR d)
  end.

Definition TightLoopCombineHashConstant (ldata : list T) (constant_hash : Z) (hash_data : list (option Z))
    (rsel : selection) (count : Z) (sel_vector : selection) (mask : option (list bool)) : outcome (list (option Z)) :=
  match mask with
  | Some _ =>
      ofold (λ hash_data i,
        let* ridx := get_index rsel i in
        let* idx := get_index sel_vector ridx in
        let* x := read ldata idx in
        let* valid := RowIsValid mask idx in
        put_at hash_data ridx (CombineHashScalar constant_hash (Operation x (negb valid)))) (seqZ 0 count) hash_data
  | None =>
      ofold (λ hash_data i,
        let* ridx := get_index rsel i in
        let* idx := get_index sel_vector ridx in
        let* x := read ldata idx in
        put_at hash_data ridx (CombineHashScalar constant_hash (Hash x))) (seqZ 0 count) hash_data
  end.

Definition TightLoopCombineHash (ldata : list T) (hash_data : list (option Z))
    (rsel : selection) (count : Z) (sel_vector : selection) (mask : option (list bool)) : outcome (list (option Z)) :=
  match mask with
  | Some _ =>
      ofold (λ hash_data i,
        let* ridx := get_index rsel i in
        let* idx := get_index sel_vector ridx in
        let* x := read ldata idx in
        let* valid := RowIsValid mask idx in
        let* h := get hash_data ridx in
        put_at hash_data ridx (CombineHashScalar h (Operation x (negb valid)))) (seqZ 0 count) hash_data
  | None =>
      ofold (λ hash_data i,
        let* ridx := get_index rsel i in
        let* idx := get_index sel_vector ridx in
        let* x := read ldata idx in
        let* h := get hash_data ridx in
        put_at hash_data ridx (CombineHashScalar h (Hash x))) (seqZ 0 count) hash_data
  end.

Definition TemplatedLoopCombineHash (input : vec T) (hashes : hash_vector) (rsel : selection) (count : Z)
    : outcome hash_vector :=
  match input.(vector_type), hashes.(h_type) with
  | CONSTANT_VECTOR, CONSTANT_VECTOR =>
      let* x := read input.(vdata) 0 in
      let* valid := RowIsValid input.(validity) 0 in
      let* h := get hashes.(h_data) 0 in
      let* d := put_at hashes.(h_data) 0 (CombineHashScalar h (Operation x (negb valid))) in
      Ret (mkHashes CONSTANT_VECTOR d)
  | _, h_type =>
      let idata := ToUnifiedFormat input count in
      match h_type with
      | CONSTANT_VECTOR =>
          let* constant_hash := get hashes.(h_data) 0 in
          let* d := TightLoopCombineHashConstant idata.(u_data) constant_hash hashes.(h_data) rsel count
                      idata.(u_sel) idata.(u_validity) in
          Ret (mkHashes FLAT_VECTOR d)
      | _ =>
          let* d := TightLoopCombineHash idata.(u_data) hashes.(h_data) rsel count idata.(u_sel) idata.(u_validity) in
          Ret (mkHashes h_type d)
      end
  end.
End Templated.

(** ** Hashing lists *)

Section Lists.
  Context (FIRST_HASH : bool) (ldata : list list_entry_t) (sel : selection) (mask : option (list bool))
    (chdata : list (option Z)).

(** [unprocessed], [cursor], the hashes, and [remaining]. *)
Record list_state := mkListState {
  unprocessed : list (option Z);
  cursor : list (option Z);
  hdata : list (option Z);
  remaining : Z
}.

(** The loop that keeps the rows with a non-empty list. *)
Definition list_init (rsel : selection) (st : list_state) (i : Z) : outcome list_state :=
  let* ridx := get_index rsel i in
  let* lidx := get_index sel ridx in
  let* entry := read ldata lidx in
  let* valid := RowIsValid mask lidx in
  if valid && (0 <? entry.(length_)) then
    let* u := put_at st.(unprocessed) st.(remaining) (u32 ridx) in
    let* c := put_at st.(cursor) ridx (u32 entry.(offset)) in
    Ret (mkListState u c st.(hdata) (st.(remaining) + 1))
  else if FIRST_HASH then
    let* h := put_at st.(hdata) ridx NULL_HASH in
    Ret (mkListState st.(unprocessed) st.(cursor) h st.(remaining))
  else Ret st.

(** One row of a pass over the rows that have a value at [position - 1]; the
    first pass of a first hash stores the child's hash, the other passes
    combine it. *)
Definition list_step (first_pass : bool) (position : Z) (st : list_state) (i : Z) : outcome list_state :=
  let* ridx := get st.(unprocessed) i in
  let* cidx := get st.(cursor) ridx in
  let* ch := get chdata cidx in
  let* h := if first_pass then put_at st.(hdata) ridx ch
            else let* old := get st.(hdata) ridx in put_at st.(hdata) ridx (CombineHashScalar old ch) in
  let* lidx := get_index sel ridx in
  let* entry := read ldata lidx in
  if position <? entry.(length_) then
    let* u := put_at st.(unprocessed) st.(remaining) (u32 ridx) in
    let* c := put_at st.(cursor) ridx (u32 (cidx + 1)) in
    Ret (mkListState u c h (st.(remaining) + 1))
  else Ret (mkListState st.(unprocessed) st.(cursor) h st.(remaining)).

(** A pass over the [count] unprocessed rows, with [remaining = 0] first. *)
Definition list_pass (first_pass : bool) (position count : Z) (st : list_state) : outcome list_state :=
  ofold (list_step first_pass position) (seqZ 0 count)
    (mkListState st.(unprocessed) st.(cursor) st.(hdata) 0).

(** [for (;; ++position)]. *)
Fixpoint list_rest (fuel : nat) (position count : Z) (st : list_state) : outcome list_state :=
  match fuel with
  | O => NoFuel
  | S fuel =>
      let* st := list_pass false position count st in
      if st.(remaining) =? 0 then Ret st
      else list_rest fuel (position + 1) st.(remaining) st
  end.

(** [ListLoopHash], after the children have been hashed into [chdata].  The
    last loop makes at most one pass per position of the longest list. *)
Definition ListLoopHash (rsel : selection) (cursor_size count : Z) (hashes : list (option Z))
    : outcome (list (option Z)) :=
  let fuel := Z.to_nat (foldr Z.max 0 (length_ <$> ldata)) in
  let* st := ofold (list_init rsel) (seqZ 0 count)
    (mkListState (replicate (Z.to_nat count) None) (replicate (Z.to_nat cursor_size) None) hashes 0) in
  if st.(remaining) =? 0 then Ret st.(hdata) else
  let* (st, position) :=
    if FIRST_HASH then let* st := list_pass true 1 st.(remaining) st in Ret (st, 2) else Ret (st, 1) in
  if st.(remaining) =? 0 then Ret st.(hdata) else
  let* st := list_rest fuel position st.(remaining) st in
  Ret st.(hdata).
End Lists.

(** [ArrayLoopHash], after the children have been hashed into [chdata]. *)
Definition ArrayLoopHash (array_size count : Z) (chdata hdata : list (option Z)) : outcome (list (option Z)) :=
  ofold (λ hdata i,
      ofold (λ hdata j,
        let* h := get hdata i in
        let* ch := get chdata j in
        put_at hdata i (CombineHashScalar h ch)) (seqZ (i * array_size) array_size) hdata)
    (seqZ 0 count) hdata.

(** ** The type switches

    [HashTypeSwitch] ([first = true]) and [CombineHashTypeSwitch]
    ([first = false]), with [StructLoopHash], [ListLoopHash] and
    [ArrayLoopHash] for the nested types.  [ArrayLoopHash] uses neither
    template argument. *)
Fixpoint TypeSwitch (t : Ty) (first : bool) : vector t → hash_vector → selection → Z → outcome hash_vector :=
  match t with
  | TScalar s => λ input hashes rsel count,
      if first then TemplatedLoopHash (Hash_of s) input hashes rsel count
      else TemplatedLoopCombineHash (Hash_of s) input hashes rsel count
  | TStruct ts => λ input hashes rsel count,
      (fix StructLoopHash ts (first : bool) : vectors ts → hash_vector → outcome hash_vector :=
        match ts with
        | [] => λ _ hashes, Ret hashes
        | t :: ts => λ children hashes,
            let* hashes := TypeSwitch t first children.1 hashes rsel count in
            StructLoopHash ts false children.2 hashes
        end) ts first input.2 hashes
  | TList t => λ input hashes rsel count,
      let '(entries, child, child_count) := input in
      let idata := ToUnifiedFormat entries count in
      let* child_hashes :=
        if 0 <? child_count then
          let* h := TypeSwitch t true child (new_hashes child_count) Incremental child_count in
          Flatten h child_count
        else Ret (new_hashes child_count) in
      let cursor_size := match rsel with Incremental => count | Indices _ => STANDARD_VECTOR_SIZE end in
      let* d := ListLoopHash first idata.(u_data) idata.(u_sel) idata.(u_validity) child_hashes.(h_data)
                  rsel cursor_size count hashes.(h_data) in
      Ret (mkHashes hashes.(h_type) d)
  | TArray t n => λ input hashes rsel count,
      let array_size := Z.of_nat n in
      let child_count := array_size * count in
      let* child_hashes :=
        if 0 <? child_count then
          let* h := Flatten (new_hashes child_count) child_count in
          TypeSwitch t true input.2 h Incremental child_count
        else Ret (new_hashes child_count) in
      let* d := ArrayLoopHash array_size count child_hashes.(h_data) hashes.(h_data) in
      Ret (mkHashes hashes.(h_type) d)
  end.

(** [VectorOperations::Hash] and [CombineHash]. *)
Definition Hash (t : Ty) (input : vector t) (result : hash_vector) (rsel : selection) (count : Z) : outcome hash_vector :=
  TypeSwitch t true input result rsel count.

Definition CombineHash (t : Ty) (hashes : hash_vector) (input : vector t) (rsel : selection) (count : Z)
    : outcome hash_vector :=
  TypeSwitch t false input hashes rsel count.

(** ** Reference: hashes of values *)

(** Row [i] of a vector. *)
Definition vec_index {T} (v : vec T) (i : Z) : option Z :=
  match v.(vector_type) with
  | FLAT_VECTOR => Some i
  | CONSTANT_VECTOR => Some 0
  | DICTIONARY_VECTOR => if i <? 0 then None else v.(dictionary) !! Z.to_nat i
  end.

Definition vec_row {T} (v : vec T) (i : Z) : option T :=
  match vec_index v i with
  | None => None
  | Some idx =>
      match v.(validity) with
      | None => v.(vdata) !! Z.to_nat idx
      | Some l => if default false (l !! Z.to_nat idx) then v.(vdata) !! Z.to_nat idx else None
      end
  end.

Fixpoint row (t : Ty) : vector t → Z → val t :=
  match t with
  | TScalar s => vec_row
  | TStruct ts => λ v i,
      match vec_row v.1 i with
      | None => None
      | Some _ =>
          Some ((fix go ts : vectors ts → tuple ts :=
            match ts with [] => λ _, tt | t :: ts => λ vs, (row t vs.1 i, go ts vs.2) end) ts v.2)
      end
  | TList t => λ v i,
      match vec_row v.1.1 i with
      | None => None
      | Some e => Some (row t v.1.2 <$> seqZ e.(offset) e.(length_))
      end
  | TArray t n => λ v i,
      match vec_index v.1 i, vec_row v.1 i with
      | Some idx, Some _ => Some (row t v.2 <$> seqZ (idx * Z.of_nat n) (Z.of_nat n))
      | _, _ => None
      end
  end.

(** A NULL struct hashes like a struct of NULLs; an empty or NULL list counts
    as NULL when it comes first and leaves the hash alone otherwise. *)
Fixpoint value_hash (t : Ty) (first : bool) (h : Z) : val t → Z :=
  match t with
  | TScalar s => λ v,
      let x := match v with None => NULL_HASH | Some x => Hash_of s x end in
      if first then x else CombineHashScalar h x
  | TStruct ts => λ v,
      (fix go ts first h : option (tuple ts) → Z :=
        match ts with
        | [] => λ _, h
        | t :: ts => λ v,
            go ts false (value_hash t first h (match v with None => None | Some l => l.1 end)) (snd <$> v)
        end) ts first h v
  | TList t | TArray t _ => λ v,
      match (value_hash t true 0 <$> default [] v) with
      | [] => if first then NULL_HASH else h
      | x :: xs => fold_left CombineHashScalar xs (if first then x else CombineHashScalar h x)
      end
  end.

(** ** Facts: scalars *)

(** Every row below [count] can be read, and so can the value of a constant vector. *)
Definition vec_ok {T} (v : vec T) (count : Z) : Prop :=
  ∀ i, (0 ≤ i < count ∨ (i = 0 ∧ v.(vector_type) = CONSTANT_VECTOR)) →
    ∃ idx, vec_index v i = Some idx ∧ 0 ≤ idx ∧ is_Some (v.(vdata) !! Z.to_nat idx) ∧
      ∀ l, v.(validity) = Some l → is_Some (l !! Z.to_nat idx).

Lemma read_Some {T} (l : list T) i x : 0 ≤ i → l !! Z.to_nat i = Some x → read l i = Ret x.
Proof. intros Hi Hx. unfold read. by rewrite (proj2 (Z.ltb_ge _ _)), Hx by lia. Qed.

Lemma put_at_ok {T} (a : list (option T)) i v :
  0 ≤ i < Z.of_nat (length a) → put_at a i v = Ret (<[Z.to_nat i := Some v]> a).
Proof. intros Hi. unfold put_at. by rewrite (proj2 (Z.leb_le _ _)), (proj2 (Z.ltb_lt _ _)) by lia. Qed.

Lemma get_Some {T} (a : list (option T)) i v : 0 ≤ i → a !! Z.to_nat i = Some (Some v) → get a i = Ret v.
Proof. intros Hi Hv. unfold get. by rewrite (read_Some _ _ _ Hi Hv). Qed.

Lemma row_at_index {T} (v : vec T) count i :
  vec_ok v count → (0 ≤ i < count ∨ (i = 0 ∧ v.(vector_type) = CONSTANT_VECTOR)) →
  ∃ idx x b, vec_index v i = Some idx ∧ 0 ≤ idx ∧ read v.(vdata) idx = Ret x ∧ RowIsValid v.(validity) idx = Ret b ∧
    vec_row v i = (if b then Some x else None) ∧ (v.(validity) = None → b = true).
Proof.
  intros Hv Hi. destruct (Hv i Hi) as (idx & Hidx & H0 & [x Hx] & Hval). unfold vec_row, RowIsValid. rewrite Hidx.
  destruct (validity v) as [l|].
  - destruct (Hval l eq_refl) as [b Hb]. exists idx, x, b. rewrite Hb, Hx.
    split_and!; [done|done|by apply read_Some|by apply read_Some|by destruct b|done].
  - exists idx, x, true. rewrite Hx. split_and!; [done|done|by apply read_Some|done..].
Qed.

Lemma unified_row {T} (v : vec T) count i :
  vec_ok v count → 0 ≤ i < count → let u := ToUnifiedFormat v count in
  ∃ idx x b, get_index u.(u_sel) i = Ret idx ∧ 0 ≤ idx ∧ read u.(u_data) idx = Ret x ∧
    RowIsValid u.(u_validity) idx = Ret b ∧ vec_row v i = (if b then Some x else None) ∧
    (u.(u_validity) = None → b = true).
Proof.
  intros Hv Hi u. destruct (row_at_index v count i Hv (or_introl Hi)) as (idx & x & b & Hidx & H0 & Hx & Hb & Hr & Hn).
  exists idx, x, b. subst u. unfold ToUnifiedFormat, vec_index in *.
  destruct (vector_type v); cbn [u_sel u_data u_validity]; split_and!; try done.
  - by injection Hidx as ->.
  - injection Hidx as <-. cbn. apply read_at_Some; [lia|]. apply lookup_replicate_2. lia.
  - rewrite (proj2 (Z.ltb_ge _ _)) in Hidx by lia. cbn. apply read_at_Some; [lia|done].
Qed.

(** A loop that writes one entry per row. *)
Lemma put_loop (body : list (option Z) → Z → outcome (list (option Z))) (F : Z → Z) count (d : list (option Z)) :
  0 ≤ count ≤ Z.of_nat (length d) →
  (∀ i d', 0 ≤ i < count → length d' = length d → (∀ j, i ≤ j → d' !! Z.to_nat j = d !! Z.to_nat j) →
     body d' i = put_at d' i (F i)) →
  ∃ d', ofold body (seqZ 0 count) d = Ret d' ∧ length d' = length d ∧
    ∀ i, 0 ≤ i < count → d' !! Z.to_nat i = Some (Some (F i)).
Proof.
  intros Hc Hbody.
  destruct (ofold_seqZ (λ i d', length d' = length d ∧ (∀ j, i ≤ j → d' !! Z.to_nat j = d !! Z.to_nat j) ∧
      ∀ j, 0 ≤ j < i → d' !! Z.to_nat j = Some (Some (F j))) body 0 count d) as (d' & E & Hl & _ & Hd);
    [lia|split_and!; [done|done|lia]| |by exists d'].
  intros i d' Hi (Hl & Hhi & Hlo). rewrite Hbody by (done || lia). rewrite put_at_ok by lia.
  eexists. split; [done|]. rewrite length_insert. split_and!; [done| |].
  - intros j Hj. rewrite list_lookup_insert_ne by lia. apply Hhi. lia.
  - intros j Hj. destruct (decide (j = i)) as [->|].
    + by rewrite list_lookup_insert_eq by lia.
    + rewrite list_lookup_insert_ne by lia. apply Hlo. lia.
Qed.

(** Run the loop at hand, which writes [F i] to entry [i]. *)
Ltac run_put_loop F d' Hl Hd :=
  match goal with
  | |- context [ofold ?f (seqZ 0 ?n) ?d] => destruct (put_loop f F n d) as (d' & -> & Hl & Hd)
  end.

(** The hash vector holds [g] on the rows below [count]. *)
Definition holds (h : hash_vector) (count : Z) (g : Z → Z) : Prop :=
  0 ≤ count ≤ Z.of_nat (length h.(h_data)) ∧ (1 ≤ length h.(h_data))%nat ∧
  match h.(h_type) with
  | FLAT_VECTOR => ∀ i, 0 ≤ i < count → h.(h_data) !! Z.to_nat i = Some (Some (g i))
  | CONSTANT_VECTOR => ∃ x, h.(h_data) !! 0%nat = Some (Some x) ∧ ∀ i, 0 ≤ i < count → g i = x
  | DICTIONARY_VECTOR => False
  end.

(** Room for [count] hashes. *)
Definition room (h : hash_vector) (count : Z) : Prop :=
  0 ≤ count ≤ Z.of_nat (length h.(h_data)) ∧ (1 ≤ length h.(h_data))%nat ∧ h.(h_type) = FLAT_VECTOR.

Lemma holds_ext h count g g' : (∀ i, 0 ≤ i < count → g i = g' i) → holds h count g → holds h count g'.
Proof.
  intros Hg (Hl & H1 & H). split; [done|]. split; [done|]. destruct (h_type h).
  - intros i Hi. by rewrite H, Hg.
  - destruct H as (x & Hx & Hgx). exists x. split; [done|]. intros i Hi. rewrite <-Hg by done. by apply Hgx.
  - done.
Qed.

Section ScalarFacts.
  Context {T : Type} (Hash : T → Z).

Definition scalar_hash (v : option T) : Z := match v with None => NULL_HASH | Some x => Hash x end.

(** The loop for vectors without NULLs is an instance of the general one. *)
Lemma TightLoopHash_eq ldata d rsel count sel mask :
  TightLoopHash Hash ldata d rsel count sel mask =
  ofold (λ d i, let* ridx := get_index rsel i in let* idx := get_index sel ridx in let* x := read ldata idx in
    let* valid := RowIsValid mask idx in put_at d ridx (Operation Hash x (negb valid))) (seqZ 0 count) d.
Proof. by destruct mask. Qed.

Lemma TightLoopCombineHashConstant_eq ldata c d rsel count sel mask :
  TightLoopCombineHashConstant Hash ldata c d rsel count sel mask =
  ofold (λ d i, let* ridx := get_index rsel i in let* idx := get_index sel ridx in let* x := read ldata idx in
    let* valid := RowIsValid mask idx in
    put_at d ridx (CombineHashScalar c (Operation Hash x (negb valid)))) (seqZ 0 count) d.
Proof. by destruct mask. Qed.

Lemma TightLoopCombineHash_eq ldata d rsel count sel mask :
  TightLoopCombineHash Hash ldata d rsel count sel mask =
  ofold (λ d i, let* ridx := get_index rsel i in let* idx := get_index sel ridx in let* x := read ldata idx in
    let* valid := RowIsValid mask idx in let* h := get d ridx in
    put_at d ridx (CombineHashScalar h (Operation Hash x (negb valid)))) (seqZ 0 count) d.
Proof. by destruct mask. Qed.

(** Reading one row through the unified format. *)
Lemma unified_hash {A} (v : vec T) count i (k : Z → outcome A) :
  vec_ok v count → 0 ≤ i < count → let u := ToUnifiedFormat v count in
  (let* idx := get_index u.(u_sel) i in let* x := read u.(u_data) idx in
   let* valid := RowIsValid u.(u_validity) idx in k (Operation Hash x (negb valid))) = k (scalar_hash (vec_row v i)).
Proof.
  intros Hv Hi. cbn zeta. destruct (unified_row v count i Hv Hi) as (idx & x & b & -> & _ & Hx & Hb & Hr & _). orun.
  rewrite Hx. orun. rewrite Hb. orun. rewrite Hr. by destruct b.
Qed.

(** The value of a constant vector. *)
Lemma constant_hash (v : vec T) count :
  vec_ok v count → v.(vector_type) = CONSTANT_VECTOR →
  ∃ x b, read v.(vdata) 0 = Ret x ∧ RowIsValid v.(validity) 0 = Ret b ∧
    ∀ i, scalar_hash (vec_row v i) = Operation Hash x (negb b).
Proof.
  intros Hv E. destruct (row_at_index v count 0 Hv ltac:(by right)) as (idx & x & b & Hidx & _ & Hx & Hb & Hr & _).
  unfold vec_index in Hidx. rewrite E in Hidx. injection Hidx as <-. exists x, b. split_and!; [done|done|].
  intros i. replace (vec_row v i) with (vec_row v 0) by (unfold vec_row, vec_index; by rewrite E).
  rewrite Hr. by destruct b.
Qed.

Lemma TemplatedLoopHash_ok (v : vec T) h count :
  vec_ok v count → room h count →
  ∃ h', TemplatedLoopHash Hash v h Incremental count = Ret h' ∧ holds h' count (λ i, scalar_hash (vec_row v i)).
Proof.
  intros Hv (Hc & H1 & Ht). unfold TemplatedLoopHash.
  assert (∃ h', (let* d := TightLoopHash Hash (u_data (ToUnifiedFormat v count)) (h_data h) Incremental count
      (u_sel (ToUnifiedFormat v count)) (u_validity (ToUnifiedFormat v count)) in Ret (mkHashes FLAT_VECTOR d)) = Ret h' ∧
    holds h' count (λ i, scalar_hash (vec_row v i))) as Hflat.
  { rewrite TightLoopHash_eq. run_put_loop (λ i, scalar_hash (vec_row v i)) d' Hl Hd; [exact Hc| |].
    - intros i d' Hi _ _. cbn [get_index]. orun. by apply (unified_hash v count i (put_at d' i)).
    - orun. eexists. split; [done|]. unfold holds. cbn [h_data h_type]. rewrite Hl. split_and!; done || lia. }
  destruct (vector_type v) eqn:E; [done| |done].
  destruct (constant_hash v count Hv E) as (x & b & -> & -> & Hr). orun.
  rewrite put_at_ok by lia. orun. eexists. split; [done|]. unfold holds. cbn [h_data h_type]. rewrite length_insert.
  split_and!; [lia|lia|lia|]. eexists. split; [by rewrite list_lookup_insert_eq by lia|]. intros i Hi. apply Hr.
Qed.

Lemma TemplatedLoopCombineHash_ok (v : vec T) h count g :
  vec_ok v count → holds h count g →
  ∃ h', TemplatedLoopCombineHash Hash v h Incremental count = Ret h' ∧
    holds h' count (λ i, CombineHashScalar (g i) (scalar_hash (vec_row v i))) ∧
    (h.(h_type) = FLAT_VECTOR → h'.(h_type) = FLAT_VECTOR).
Proof.
  intros Hv (Hc & H1 & Hg). unfold TemplatedLoopCombineHash. destruct (h_type h) eqn:Eh; [| |done].
  - assert (∃ h', (let* d := TightLoopCombineHash Hash (u_data (ToUnifiedFormat v count)) (h_data h) Incremental count
        (u_sel (ToUnifiedFormat v count)) (u_validity (ToUnifiedFormat v count)) in Ret (mkHashes FLAT_VECTOR d)) = Ret h' ∧
      holds h' count (λ i, CombineHashScalar (g i) (scalar_hash (vec_row v i))) ∧ h_type h' = FLAT_VECTOR) as (h' & E & Hh & Ht).
    { rewrite TightLoopCombineHash_eq.
      run_put_loop (λ i, CombineHashScalar (g i) (scalar_hash (vec_row v i))) d' Hl Hd; [exact Hc| |].
      - intros i d' Hi _ Hd'. cbn [get_index]. orun.
        rewrite (unified_hash v count i (λ x, let* h := get d' i in put_at d' i (CombineHashScalar h x))) by done.
        rewrite (get_Some d' i (g i)); [done|lia|]. rewrite Hd' by lia. by apply Hg.
      - orun. eexists. split; [done|]. split; [|done]. unfold holds. cbn [h_data h_type]. rewrite Hl. split_and!; done || lia. }
    exists h'. destruct (vector_type v); done.
  - destruct Hg as (c & H0 & Hgc).
    assert (get (h_data h) 0 = Ret c) as Hget by (by apply get_Some). rewrite Hget.
    assert (∃ h', (let* d := TightLoopCombineHashConstant Hash (u_data (ToUnifiedFormat v count)) c (h_data h) Incremental count
        (u_sel (ToUnifiedFormat v count)) (u_validity (ToUnifiedFormat v count)) in Ret (mkHashes FLAT_VECTOR d)) = Ret h' ∧
      holds h' count (λ i, CombineHashScalar (g i) (scalar_hash (vec_row v i)))) as (h' & E & Hh).
    { rewrite TightLoopCombineHashConstant_eq.
      run_put_loop (λ i, CombineHashScalar c (scalar_hash (vec_row v i))) d' Hl Hd; [exact Hc| |].
      - intros i d' Hi _ _. cbn [get_index]. orun. by apply (unified_hash v count i (λ x, put_at d' i (CombineHashScalar c x))).
      - orun. eexists. split; [done|]. eapply holds_ext; [|unfold holds; cbn [h_data h_type]; rewrite Hl; split_and!; [lia|lia|lia|exact Hd]].
        intros i Hi. cbn. by rewrite Hgc. }
    destruct (vector_type v) eqn:Ev; [by exists h'| |by exists h'].
    destruct (constant_hash v count Hv Ev) as (x & b & -> & -> & Hr). orun. rewrite put_at_ok by lia. orun.
    eexists. split; [done|]. split; [|done]. unfold holds. cbn [h_data h_type]. rewrite length_insert.
    split_and!; [lia|lia|lia|]. eexists. split; [by rewrite list_lookup_insert_eq by lia|].
    intros i Hi. by rewrite Hgc, Hr.
Qed.
End ScalarFacts.

(** ** Facts: lists *)

Section ListFacts.
  Context (FIRST_HASH : bool) (v : vec list_entry_t) (count child_count : Z) (chdata : list (option Z)) (c g : Z → Z).
  Context (v_ok : vec_ok v count) (count_ok : 0 ≤ count < 2 ^ 32) (child_ok : 0 ≤ child_count < 2 ^ 32).
  Context (entries_ok : ∀ i e, 0 ≤ i < count → vec_row v i = Some e →
    0 ≤ e.(offset) ∧ 0 ≤ e.(length_) ∧ e.(offset) + e.(length_) ≤ child_count).
  Context (children_ok : ∀ j, 0 ≤ j < child_count → chdata !! Z.to_nat j = Some (Some (c j))).

Local Abbreviation u := (ToUnifiedFormat v count).

(** Length and offset of the list of a row. *)
Definition len (r : Z) : Z := match vec_row v r with None => 0 | Some e => e.(length_) end.
Definition off (r : Z) : Z := match vec_row v r with None => 0 | Some e => e.(offset) end.

(** The hash of row [r] after [k] elements. *)
Fixpoint acc (r : Z) (k : nat) : Z :=
  match k with
  | O => if FIRST_HASH then NULL_HASH else g r
  | S k' => match FIRST_HASH, k' with
            | true, O => c (off r)
            | _, _ => CombineHashScalar (acc r k') (c (off r + Z.of_nat k'))
            end
  end.

Lemma len_nonneg r : 0 ≤ r < count → 0 ≤ len r.
Proof. intros Hr. unfold len. destruct (vec_row v r) as [e|] eqn:E; [|lia]. by apply (entries_ok r e). Qed.

Lemma off_bound r : 0 ≤ r < count → 0 ≤ off r ∧ off r + len r ≤ child_count.
Proof. intros Hr. unfold len, off. destruct (vec_row v r) as [e|] eqn:E; [|lia]. pose proof (entries_ok r e Hr E). lia. Qed.

Lemma entry_at r : 0 ≤ r < count → ∃ lidx e b, get_index u.(u_sel) r = Ret lidx ∧ read u.(u_data) lidx = Ret e ∧
  RowIsValid u.(u_validity) lidx = Ret b ∧ len r = (if b then e.(length_) else 0) ∧ (b = true → off r = e.(offset)).
Proof.
  intros Hr. destruct (unified_row v count r v_ok Hr) as (lidx & e & b & H1 & _ & H2 & H3 & H4 & _).
  exists lidx, e, b. split_and!; [done..| |]; unfold len, off; rewrite H4; by destruct b.
Qed.

(** The rows with at least [p] elements. *)
Definition live (p : Z) : list Z := filter (λ r, p ≤ len r) (seqZ 0 count).

Lemma elem_of_live p r : r ∈ live p ↔ p ≤ len r ∧ 0 ≤ r < count.
Proof. unfold live. rewrite list_elem_of_filter, elem_of_seqZ. lia. Qed.

Lemma live_NoDup p : NoDup (live p).
Proof. apply NoDup_filter, NoDup_seqZ. Qed.

Lemma live_length p : Z.of_nat (length (live p)) ≤ count.
Proof. unfold live. pose proof (length_filter (λ r, p ≤ len r) (seqZ 0 count)) as H. rewrite length_seqZ in H. lia. Qed.

Lemma live_succ p : filter (λ r, p < len r) (live p) = live (p + 1).
Proof.
  unfold live. rewrite list_filter_filter. apply list_filter_iff. intros r. lia.
Qed.

(** [l] is what the first entries of [a] hold. *)
Definition starts (a : list (option Z)) (l : list Z) : Prop :=
  ∀ k x, l !! k = Some x → a !! k = Some (Some x).

Lemma starts_snoc a l x n :
  starts a l → n = Z.of_nat (length l) → n < Z.of_nat (length a) → starts (<[Z.to_nat n := Some x]> a) (l ++ [x]).
Proof.
  intros Ha -> Hn k y Hk. rewrite Nat2Z.id. apply lookup_app_Some in Hk as [Hk|[Hk1 Hk2]].
  - rewrite list_lookup_insert_ne by (apply lookup_lt_Some in Hk; lia). by apply Ha.
  - assert (k = length l) as -> by (apply lookup_lt_Some in Hk2; cbn in Hk2; lia).
    rewrite Nat.sub_diag in Hk2. injection Hk2 as ->. rewrite list_lookup_insert_eq by lia. done.
Qed.

(** The state before the pass over position [p]. *)
Record pass_inv (hlen : nat) (p : Z) (st : list_state) : Prop := {
  inv_unp : Z.of_nat (length st.(unprocessed)) = count;
  inv_cur : Z.of_nat (length st.(cursor)) = count;
  inv_hash : length st.(hdata) = hlen;
  inv_rem : st.(remaining) = Z.of_nat (length (live p));
  inv_live : starts st.(unprocessed) (live p);
  inv_cursor r : r ∈ live p → st.(cursor) !! Z.to_nat r = Some (Some (off r + p - 1));
  inv_acc r : r ∈ live p → FIRST_HASH = false ∨ 1 < p → st.(hdata) !! Z.to_nat r = Some (Some (acc r (Z.to_nat (p - 1))));
  inv_done r : 0 ≤ r < count → len r < p → st.(hdata) !! Z.to_nat r = Some (Some (acc r (Z.to_nat (len r))))
}.

(** The state within the pass, when [i] rows of [live p] have been processed. *)
Record step_inv (hlen : nat) (p : Z) (i : Z) (st : list_state) : Prop := {
  sinv_unp : Z.of_nat (length st.(unprocessed)) = count;
  sinv_cur : Z.of_nat (length st.(cursor)) = count;
  sinv_hash : length st.(hdata) = hlen;
  sinv_rem : st.(remaining) = Z.of_nat (length (filter (λ r, p < len r) (take (Z.to_nat i) (live p))));
  sinv_live : starts st.(unprocessed) (filter (λ r, p < len r) (take (Z.to_nat i) (live p)));
  sinv_todo k x : i ≤ Z.of_nat k → live p !! k = Some x → st.(unprocessed) !! k = Some (Some x);
  sinv_cursor r : r ∈ live p → st.(cursor) !! Z.to_nat r =
    Some (Some (off r + p - 1 + if decide (r ∈ take (Z.to_nat i) (live p) ∧ p < len r) then 1 else 0));
  sinv_acc r : r ∈ live p → r ∈ take (Z.to_nat i) (live p) ∨ FIRST_HASH = false ∨ 1 < p →
    st.(hdata) !! Z.to_nat r = Some (Some (acc r (Z.to_nat (p - 1 + if decide (r ∈ take (Z.to_nat i) (live p)) then 1 else 0))));
  sinv_done r : 0 ≤ r < count → len r < p → st.(hdata) !! Z.to_nat r = Some (Some (acc r (Z.to_nat (len r))))
}.

Lemma take_live p i r :
  0 ≤ i → live p !! Z.to_nat i = Some r →
  take (Z.to_nat (i + 1)) (live p) = take (Z.to_nat i) (live p) ++ [r] ∧ r ∉ take (Z.to_nat i) (live p).
Proof.
  intros Hi Hr. replace (Z.to_nat (i + 1)) with (S (Z.to_nat i)) by lia. split; [by apply take_S_r|].
  intros (j & Hj)%list_elem_of_lookup. pose proof (lookup_lt_Some _ _ _ Hj) as Hlt. rewrite length_take in Hlt.
  rewrite lookup_take_lt in Hj by lia. pose proof (NoDup_lookup _ _ _ _ (live_NoDup p) Hr Hj). lia.
Qed.

Lemma acc_succ r (p : Z) : 1 ≤ p → acc r (Z.to_nat p) =
  if FIRST_HASH && (p =? 1) then c (off r)
  else CombineHashScalar (acc r (Z.to_nat (p - 1))) (c (off r + p - 1)).
Proof.
  intros Hp. replace (Z.to_nat p) with (S (Z.to_nat (p - 1))) by lia. cbn [acc].
  rewrite Z2Nat.id by lia. replace (off r + (p - 1)) with (off r + p - 1) by lia.
  destruct FIRST_HASH; [|done]. destruct (Z.eqb_spec p 1) as [->|]; [done|].
  by destruct (Z.to_nat (p - 1)) eqn:E; [lia|].
Qed.

Local Abbreviation step := (list_step u.(u_data) u.(u_sel) chdata).

(** The values a step reads and the hash it stores. *)
Lemma step_reads hlen p i st r :
  1 ≤ p → count ≤ Z.of_nat hlen → step_inv hlen p i st → 0 ≤ i → live p !! Z.to_nat i = Some r →
  step (FIRST_HASH && (p =? 1)) p st i =
    let h := <[Z.to_nat r := Some (acc r (Z.to_nat p))]> st.(hdata) in
    if p <? len r
    then Ret (mkListState (<[Z.to_nat st.(remaining) := Some r]> st.(unprocessed))
                (<[Z.to_nat r := Some (off r + p)]> st.(cursor)) h (st.(remaining) + 1))
    else Ret (mkListState st.(unprocessed) st.(cursor) h st.(remaining)).
Proof.
  intros Hp Hhlen [Hunp Hcur Hhash Hrem Hlive Htodo Hcursor Hacc Hdone] Hi Hr.
  destruct (take_live p i r Hi Hr) as [Htake Hnot].
  assert (r ∈ live p) as Hin by (by eapply list_elem_of_lookup_2).
  apply elem_of_live in Hin as Hin'. destruct Hin' as [Hlen Hrange].
  pose proof (off_bound r Hrange) as Hoff. pose proof (lookup_lt_Some _ _ _ Hr) as Hilt. pose proof (live_length p).
  pose proof (length_filter (λ r, p < len r) (take (Z.to_nat i) (live p))) as Hfl. rewrite length_take in Hfl.
  unfold list_step. rewrite (get_Some st.(unprocessed) i r) by (done || (apply Htodo; [lia|done])). orun.
  specialize (Hcursor r Hin). rewrite decide_False, Z.add_0_r in Hcursor by (by intros [? _]).
  rewrite (get_Some st.(cursor) r _ (proj1 Hrange) Hcursor). orun.
  rewrite (get_Some chdata (off r + p - 1) (c (off r + p - 1))) by (lia || (apply children_ok; lia)). orun.
  destruct (entry_at r Hrange) as (lidx & e & b & Hl1 & Hl2 & Hl3 & Hl4 & _).
  assert (b = true) as -> by (destruct b; [done|lia]). rewrite Hl4 in *.
  assert ((if FIRST_HASH && (p =? 1) then put_at st.(hdata) r (c (off r + p - 1))
           else let* old := get st.(hdata) r in put_at st.(hdata) r (CombineHashScalar old (c (off r + p - 1))))
          = Ret (<[Z.to_nat r := Some (acc r (Z.to_nat p))]> st.(hdata))) as ->.
  { rewrite (acc_succ r p Hp). destruct (FIRST_HASH && (p =? 1)) eqn:Ef.
    - apply andb_prop in Ef as [_ ->%Z.eqb_eq]. rewrite put_at_ok by lia. do 4 f_equal. lia.
    - specialize (Hacc r Hin). rewrite decide_False, Z.add_0_r in Hacc by done.
      erewrite get_Some; [|lia|apply Hacc; right; destruct FIRST_HASH; [right|by left]; cbn in Ef; apply Z.eqb_neq in Ef; lia].
      orun. by rewrite put_at_ok by lia. }
  orun. rewrite Hl1. orun. rewrite Hl2. orun. cbn zeta. destruct (p <? length_ e); [|done].
  rewrite !wrap_id by (unfold fits; lia). rewrite put_at_ok by lia. orun. rewrite put_at_ok by lia. orun.
  by replace (off r + p - 1 + 1) with (off r + p) by lia.
Qed.

Lemma step_ok hlen p i st :
  1 ≤ p → count ≤ Z.of_nat hlen → step_inv hlen p i st → 0 ≤ i < Z.of_nat (length (live p)) →
  ∃ st', step (FIRST_HASH && (p =? 1)) p st i = Ret st' ∧ step_inv hlen p (i + 1) st'.
Proof.
  intros Hp Hhlen Hinv Hi. destruct (lookup_lt_is_Some_2 (live p) (Z.to_nat i)) as [r Hr]; [lia|].
  rewrite (step_reads hlen p i st r Hp Hhlen Hinv (proj1 Hi) Hr).
  destruct Hinv as [Hunp Hcur Hhash Hrem Hlive Htodo Hcursor Hacc Hdone].
  destruct (take_live p i r (proj1 Hi) Hr) as [Htake Hnot].
  assert (r ∈ live p) as Hin by (by eapply list_elem_of_lookup_2).
  apply elem_of_live in Hin as Hin'. destruct Hin' as [Hlen Hrange].
  pose proof (live_length p). pose proof (length_filter (λ r, p < len r) (take (Z.to_nat i) (live p))) as Hfl.
  rewrite length_take in Hfl.
  assert (∀ r', r' ∈ take (Z.to_nat (i + 1)) (live p) ↔ r' ∈ take (Z.to_nat i) (live p) ∨ r' = r) as Hmem.
  { intros r'. rewrite Htake, elem_of_app, list_elem_of_singleton. done. }
  assert (∀ r', r' ∈ live p → r' ∈ take (Z.to_nat (i + 1)) (live p) ∨ FIRST_HASH = false ∨ 1 < p →
    (<[Z.to_nat r := Some (acc r (Z.to_nat p))]> st.(hdata)) !! Z.to_nat r' = Some (Some (acc r'
      (Z.to_nat (p - 1 + if decide (r' ∈ take (Z.to_nat (i + 1)) (live p)) then 1 else 0))))) as Hacc'.
  { intros r' Hr' Hc. destruct (decide (r' = r)) as [->|Hne].
    - rewrite list_lookup_insert_eq by lia. rewrite decide_True by (apply Hmem; by right). do 3 f_equal. lia.
    - apply elem_of_live in Hr' as Hr''. rewrite list_lookup_insert_ne by lia. rewrite Hacc; [|done|].
      + do 5 f_equal. apply decide_ext. rewrite Hmem. tauto.
      + rewrite Hmem in Hc. tauto. }
  assert (∀ r', 0 ≤ r' < count → len r' < p →
    (<[Z.to_nat r := Some (acc r (Z.to_nat p))]> st.(hdata)) !! Z.to_nat r' = Some (Some (acc r' (Z.to_nat (len r'))))) as Hdone'.
  { intros r' Hr' Hl'. rewrite list_lookup_insert_ne; [by apply Hdone|]. intros E. assert (r = r') as -> by lia. lia. }
  cbn zeta. destruct (Z.ltb_spec p (len r)) as [Hlt|Hge]; eexists; (split; [done|]).
  - split; cbn [unprocessed cursor hdata remaining]; rewrite ?length_insert; try done.
    + rewrite Htake, filter_app, filter_cons_True, filter_nil, length_app by done. cbn [length]. lia.
    + rewrite Htake, filter_app, filter_cons_True, filter_nil by done. apply starts_snoc; [done|done|lia].
    + intros k x Hk Hx. rewrite list_lookup_insert_ne by lia. apply Htodo; [lia|done].
    + intros r' Hr'. destruct (decide (r' = r)) as [->|Hne].
      * rewrite list_lookup_insert_eq by lia. rewrite decide_True by (split; [apply Hmem; by right|done]). do 2 f_equal. lia.
      * apply elem_of_live in Hr' as Hr''. rewrite list_lookup_insert_ne, Hcursor by (done || lia). do 3 f_equal.
        apply decide_ext. rewrite Hmem. tauto.
  - split; cbn [unprocessed cursor hdata remaining]; rewrite ?length_insert; try done.
    + rewrite Htake, filter_app, filter_cons_False, filter_nil, app_nil_r by lia. done.
    + rewrite Htake, filter_app, filter_cons_False, filter_nil, app_nil_r by lia. done.
    + intros k x Hk Hx. apply Htodo; [lia|done].
    + intros r' Hr'. rewrite Hcursor by done. do 3 f_equal. apply decide_ext. rewrite Hmem.
      split; [intros [? ?]; split; [by left|done]|intros [[?| ->] ?]; [done|lia]].
Qed.

Lemma pass_ok hlen p st :
  1 ≤ p → count ≤ Z.of_nat hlen → pass_inv hlen p st →
  ∃ st', list_pass u.(u_data) u.(u_sel) chdata (FIRST_HASH && (p =? 1)) p st.(remaining) st = Ret st' ∧
    pass_inv hlen (p + 1) st'.
Proof.
  intros Hp Hhlen [Hunp Hcur Hhash Hrem Hlive Hcursor Hacc Hdone]. unfold list_pass. rewrite Hrem.
  destruct (ofold_seqZ (step_inv hlen p) (step (FIRST_HASH && (p =? 1)) p) 0 (Z.of_nat (length (live p)))
      (mkListState st.(unprocessed) st.(cursor) st.(hdata) 0))
    as (st' & E & Hst'); [lia| |intros i s Hi Hs; apply step_ok; [done|done|done|lia]|].
  - split; cbn [unprocessed cursor hdata remaining]; try done.
    + intros k x _ Hk. by apply Hlive.
    + intros r Hr. rewrite Hcursor, decide_False by (done || by intros [[]%not_elem_of_nil _]). by rewrite Z.add_0_r.
    + intros r Hr Hc. rewrite decide_False, Z.add_0_r by apply not_elem_of_nil. apply Hacc; [done|].
      destruct Hc as [[]%not_elem_of_nil|Hc]. done.
  - exists st'. split; [done|]. destruct Hst' as [Hunp' Hcur' Hhash' Hrem' Hlive' _ Hcursor' Hacc' Hdone'].
    rewrite Z.add_0_l, Nat2Z.id, firstn_all in *. rewrite live_succ in *.
    assert (∀ r, r ∈ live (p + 1) → r ∈ live p ∧ p < len r) as Hsub.
    { intros r. rewrite !elem_of_live. lia. }
    split; try done.
    + intros r Hr. destruct (Hsub r Hr) as [Hr1 Hr2]. rewrite Hcursor', decide_True by done. do 2 f_equal. lia.
    + intros r Hr _. destruct (Hsub r Hr) as [Hr1 Hr2]. rewrite Hacc' by (done || by left). rewrite decide_True by done.
      do 3 f_equal. lia.
    + intros r Hr Hl. destruct (Z.lt_ge_cases (len r) p) as [|Hge]; [by apply Hdone'|].
      assert (r ∈ live p) as Hr1 by (rewrite elem_of_live; lia).
      rewrite Hacc' by (done || by left). rewrite decide_True by done. do 3 f_equal. lia.
Qed.

Lemma init_ok d :
  count ≤ Z.of_nat (length d) → (FIRST_HASH = false → ∀ r, 0 ≤ r < count → d !! Z.to_nat r = Some (Some (g r))) →
  ∃ st, ofold (list_init FIRST_HASH u.(u_data) u.(u_sel) u.(u_validity) Incremental) (seqZ 0 count)
      (mkListState (replicate (Z.to_nat count) None) (replicate (Z.to_nat count) None) d 0) = Ret st ∧
    pass_inv (length d) 1 st.
Proof.
  intros Hd Hg.
  destruct (ofold_seqZ (λ i st, Z.of_nat (length st.(unprocessed)) = count ∧ Z.of_nat (length st.(cursor)) = count ∧
      length st.(hdata) = length d ∧ st.(remaining) = Z.of_nat (length (filter (λ r, 1 ≤ len r) (seqZ 0 i))) ∧
      starts st.(unprocessed) (filter (λ r, 1 ≤ len r) (seqZ 0 i)) ∧
      (∀ r, 0 ≤ r < i → 1 ≤ len r → st.(cursor) !! Z.to_nat r = Some (Some (off r))) ∧
      (∀ r, 0 ≤ r < i → len r < 1 → st.(hdata) !! Z.to_nat r = Some (Some (acc r 0))) ∧
      (FIRST_HASH = false → ∀ r, 0 ≤ r < count → st.(hdata) !! Z.to_nat r = Some (Some (g r))))
    (list_init FIRST_HASH u.(u_data) u.(u_sel) u.(u_validity) Incremental) 0 count
    (mkListState (replicate (Z.to_nat count) None) (replicate (Z.to_nat count) None) d 0))
    as (st & E & H1 & H2 & H3 & H4 & H5 & H6 & H7 & H8); [lia| | |].
  - cbn [unprocessed cursor hdata remaining]. rewrite !length_replicate. split_and!; try done; lia.
  - intros i st Hi (H1 & H2 & H3 & H4 & H5 & H6 & H7 & H8). unfold list_init. cbn [get_index]. orun.
    destruct (entry_at i ltac:(lia)) as (lidx & e & b & -> & Hl2 & Hl3 & Hl4 & Hl5). orun. rewrite Hl2. orun. rewrite Hl3. orun.
    pose proof (length_filter (λ r, 1 ≤ len r) (seqZ 0 i)) as Hfl. rewrite length_seqZ in Hfl.
    rewrite seqZ_app, filter_app, (seqZ_cons (0 + i) 1), (seqZ_nil _ (Z.pred 1)), filter_cons, filter_nil, Z.add_0_l by lia.
    pose proof (off_bound i ltac:(lia)). destruct (decide (1 ≤ len i)) as [Hlen|Hlen].
    + assert (b = true) as -> by (destruct b; [done|lia]). rewrite Hl5 in * by done.
      rewrite (proj2 (Z.ltb_lt _ _)) by lia. cbn [andb]. rewrite !wrap_id by (unfold fits; lia).
      rewrite put_at_ok by lia. orun. rewrite put_at_ok by lia. orun. eexists. split; [done|].
      cbn [unprocessed cursor hdata remaining]. rewrite !length_insert, length_app. cbn [length].
      split_and!; [done|done|done|lia|apply starts_snoc; done || lia| |intros r Hr Hr'; apply H7; [destruct (decide (r = i)) as [->|]; lia|done]|done].
      intros r Hr Hr'. destruct (decide (r = i)) as [->|].
      * rewrite list_lookup_insert_eq by lia. by rewrite Hl5.
      * rewrite list_lookup_insert_ne by lia. apply H6; [lia|done].
    + assert (b && (0 <? length_ e) = false) as -> by (destruct b; [apply Z.ltb_ge; lia|done]). rewrite app_nil_r.
      destruct FIRST_HASH eqn:EF.
      * rewrite put_at_ok by lia. orun. eexists. split; [done|]. cbn [unprocessed cursor hdata remaining]. rewrite length_insert.
        split_and!; try done.
        -- intros r Hr Hr'. apply H6; [destruct (decide (r = i)) as [->|]; lia|done].
        -- intros r Hr Hr'. destruct (decide (r = i)) as [->|].
           ++ rewrite list_lookup_insert_eq by lia. cbn [acc]. by rewrite ?EF.
           ++ rewrite list_lookup_insert_ne by lia. apply H7; [lia|done].
      * eexists. split; [done|]. split_and!; try done.
        -- intros r Hr Hr'. apply H6; [destruct (decide (r = i)) as [->|]; lia|done].
        -- intros r Hr Hr'. rewrite H8 by (done || lia). cbn [acc]. by rewrite ?EF.
  - exists st. split; [done|]. rewrite Z.add_0_l in *. fold (live 1) in H4, H5. split; try done.
    + intros r [Hr1 Hr2]%elem_of_live. rewrite H6 by lia. do 2 f_equal. lia.
    + intros r [Hr1 Hr2]%elem_of_live [HF|]; [|lia]. rewrite H8 by done. change (Z.to_nat (1 - 1)) with 0%nat. cbn [acc]. by rewrite HF.
    + intros r Hr Hl. pose proof (len_nonneg r Hr). rewrite H7 by done. by replace (len r) with 0 by lia.
Qed.

Lemma rest_ok hlen maxlen fuel p st :
  1 ≤ p → FIRST_HASH = false ∨ 1 < p → count ≤ Z.of_nat hlen → pass_inv hlen p st →
  st.(remaining) ≠ 0 → (∀ r, 0 ≤ r < count → len r ≤ maxlen) → maxlen - p + 1 ≤ Z.of_nat fuel →
  ∃ st', list_rest u.(u_data) u.(u_sel) chdata fuel p st.(remaining) st = Ret st' ∧
    length st'.(hdata) = hlen ∧ ∀ r, 0 ≤ r < count → st'.(hdata) !! Z.to_nat r = Some (Some (acc r (Z.to_nat (len r)))).
Proof.
  revert p st. induction fuel as [|fuel IH]; intros p st Hp HF Hhlen Hinv Hne Hmax Hfuel.
  { exfalso. apply Hne. rewrite (inv_rem _ _ _ Hinv). destruct (live p) as [|r l] eqn:E; [done|].
    assert (r ∈ live p) as [Hr1 Hr2]%elem_of_live by (rewrite E; left). specialize (Hmax r Hr2). lia. }
  cbn [list_rest]. destruct (pass_ok hlen p st Hp Hhlen Hinv) as (st1 & E & Hinv1).
  assert (FIRST_HASH && (p =? 1) = false) as Hfp.
  { destruct HF as [->|]; [done|]. rewrite (proj2 (Z.eqb_neq _ _)) by lia. apply andb_false_r. }
  rewrite Hfp in E. rewrite E. orun. destruct (Z.eqb_spec st1.(remaining) 0) as [E0|E0].
  - exists st1. split_and!; [done|apply Hinv1|]. intros r Hr. apply (inv_done _ _ _ Hinv1); [done|].
    destruct (Z.lt_ge_cases (len r) (p + 1)); [done|]. exfalso.
    rewrite (inv_rem _ _ _ Hinv1) in E0. assert (r ∈ live (p + 1)) as Hin by (rewrite elem_of_live; lia).
    destruct (live (p + 1)); [by apply not_elem_of_nil in Hin|cbn in E0; lia].
  - apply IH; [lia|right; lia|done|done|done|done|lia].
Qed.

Lemma foldr_max_ge (l : list Z) x : x ∈ l → x ≤ foldr Z.max 0 l.
Proof. induction 1; cbn; lia. Qed.

Lemma foldr_max_nonneg (l : list Z) : 0 ≤ foldr Z.max 0 l.
Proof. induction l; cbn; lia. Qed.

Lemma len_le_max r : 0 ≤ r < count → len r ≤ foldr Z.max 0 (length_ <$> u.(u_data)).
Proof.
  intros Hr. destruct (entry_at r Hr) as (lidx & e & b & _ & He & _ & -> & _).
  pose proof (foldr_max_nonneg (length_ <$> u_data u)).
  destruct b; [|done]. apply foldr_max_ge, list_elem_of_fmap. exists e. split; [done|].
  unfold read in He. destruct (lidx <? 0); [done|]. apply deref_Ret in He. by eapply list_elem_of_lookup_2.
Qed.

Lemma ListLoopHash_ok d :
  count ≤ Z.of_nat (length d) → (FIRST_HASH = false → ∀ r, 0 ≤ r < count → d !! Z.to_nat r = Some (Some (g r))) →
  ∃ d', ListLoopHash FIRST_HASH u.(u_data) u.(u_sel) u.(u_validity) chdata Incremental count count d = Ret d' ∧
    length d' = length d ∧ ∀ r, 0 ≤ r < count → d' !! Z.to_nat r = Some (Some (acc r (Z.to_nat (len r)))).
Proof.
  intros Hd Hg. unfold ListLoopHash. destruct (init_ok d Hd Hg) as (st & -> & Hinv). orun.
  assert (∀ p st, pass_inv (length d) p st → st.(remaining) = 0 → length st.(hdata) = length d ∧
    ∀ r, 0 ≤ r < count → st.(hdata) !! Z.to_nat r = Some (Some (acc r (Z.to_nat (len r))))) as Hend.
  { intros p st0 Hst0 H0. split; [apply Hst0|]. intros r Hr. apply (inv_done _ _ _ Hst0); [done|].
    destruct (Z.lt_ge_cases (len r) p); [done|]. exfalso. rewrite (inv_rem _ _ _ Hst0) in H0.
    assert (r ∈ live p) as Hin by (rewrite elem_of_live; lia).
    destruct (live p); [by apply not_elem_of_nil in Hin|cbn in H0; lia]. }
  destruct (Z.eqb_spec st.(remaining) 0) as [E0|E0]; [eexists; split; [done|by apply (Hend 1)]|].
  pose proof (foldr_max_nonneg (length_ <$> u_data u)).
  set (fuel := Z.to_nat _).
  destruct FIRST_HASH eqn:EF.
  - destruct (pass_ok (length d) 1 st ltac:(lia) Hd Hinv) as (st1 & E1 & Hinv1). rewrite EF in E1. cbn [andb Z.eqb Pos.eqb] in E1.
    rewrite E1. orun. destruct (Z.eqb_spec st1.(remaining) 0) as [E2|E2]; [eexists; split; [done|by apply (Hend 2)]|].
    destruct (rest_ok (length d) _ fuel 2 st1 ltac:(lia) (or_intror Z.lt_1_2) Hd Hinv1 E2 len_le_max) as (st2 & -> & Hl2 & Hh2);
      [lia|]. orun. by exists st2.(hdata).
  - orun. rewrite (proj2 (Z.eqb_neq _ _) E0).
    destruct (rest_ok (length d) _ fuel 1 st ltac:(lia) (or_introl EF) Hd Hinv E0 len_le_max) as (st2 & -> & Hl2 & Hh2);
      [lia|]. orun. by exists st2.(hdata).
Qed.

(** The hash of a row is the fold over the hashes of its elements. *)
Lemma acc_fold r : 0 ≤ r < count → acc r (Z.to_nat (len r)) =
  match c <$> seqZ (off r) (len r) with
  | [] => if FIRST_HASH then NULL_HASH else g r
  | x :: xs => fold_left CombineHashScalar xs (if FIRST_HASH then x else CombineHashScalar (g r) x)
  end.
Proof.
  intros Hr. pose proof (len_nonneg r Hr). destruct (decide (len r = 0)) as [->|]; [done|].
  rewrite seqZ_cons by lia. rewrite fmap_cons.
  assert (∀ k, acc r (S k) = fold_left CombineHashScalar (c <$> seqZ (Z.succ (off r)) (Z.of_nat k))
    (if FIRST_HASH then c (off r) else CombineHashScalar (g r) (c (off r)))) as Hk.
  { intros k. induction k as [|k IH].
    - cbn. rewrite Z.add_0_r. by destruct FIRST_HASH.
    - replace (Z.of_nat (S k)) with (Z.of_nat k + 1) by lia.
      rewrite seqZ_app, fmap_app, fold_left_app, <-IH by lia. rewrite (seqZ_cons _ 1), (seqZ_nil _ (Z.pred 1)) by lia.
      replace (Z.succ (off r) + Z.of_nat k) with (off r + Z.of_nat (S k)) by lia.
      cbn [fmap list_fmap fold_left]. change (acc r (S (S k))) with
        (match FIRST_HASH, S k with true, O => c (off r) | _, _ => CombineHashScalar (acc r (S k)) (c (off r + Z.of_nat (S k))) end).
      by destruct FIRST_HASH. }
  replace (Z.to_nat (len r)) with (S (Z.to_nat (len r - 1))) by lia. rewrite Hk, Z2Nat.id by lia.
  by replace (Z.pred (len r)) with (len r - 1) by lia.
Qed.
End ListFacts.

(** ** The type switch hashes row by row *)

(** Types the vectorised code hashes as intended.  A list that is combined
    into hashes kept as a constant vector is not ([fl] says the hashes are
    known to be flat), and arrays are not. *)
Fixpoint safe (t : Ty) (first fl : bool) : bool :=
  match t with
  | TScalar _ => true
  | TStruct ts =>
      match ts with
      | [] => false
      | t :: ts => safe t first fl && forallb (λ t, safe t false (if first then false else fl)) ts
      end
  | TList t => (first || fl) && safe t true true
  | TArray _ _ => false
  end.

(** The vector holds [count] well-formed rows. *)
Fixpoint vector_ok (t : Ty) : vector t → Z → Prop :=
  match t with
  | TScalar s => vec_ok
  | TStruct ts => λ v count,
      vec_ok v.1 count ∧
      (fix go ts : vectors ts → Prop :=
        match ts with
        | [] => λ _, True
        | t :: ts => λ vs, vector_ok t vs.1 count ∧ go ts vs.2 ∧
            ∀ i, 0 ≤ i < count → vec_row v.1 i = None → row t vs.1 i = None
        end) ts v.2
  | TList t => λ v count,
      vec_ok v.1.1 count ∧ 0 ≤ v.2 < 2 ^ 32 ∧ vector_ok t v.1.2 v.2 ∧
      ∀ i e, 0 ≤ i < count → vec_row v.1.1 i = Some e →
        0 ≤ e.(offset) ∧ 0 ≤ e.(length_) ∧ e.(offset) + e.(length_) ≤ v.2
  | TArray t n => λ v count, vec_ok v.1 count ∧ vector_ok t v.2 (Z.of_nat n * count)
  end.

(** The inner loops of the definitions by recursion on the type. *)
Definition StructLoopHash : ∀ ts, bool → vectors ts → hash_vector → selection → Z → outcome hash_vector :=
  λ ts first vs h rsel count,
    (fix StructLoopHash ts (first : bool) : vectors ts → hash_vector → outcome hash_vector :=
      match ts with
      | [] => λ _ hashes, Ret hashes
      | t :: ts => λ children hashes,
          let* hashes := TypeSwitch t first children.1 hashes rsel count in
          StructLoopHash ts false children.2 hashes
      end) ts first vs h.

Definition struct_rows : ∀ ts, vectors ts → Z → tuple ts := λ ts vs i,
  (fix go ts : vectors ts → tuple ts :=
    match ts with [] => λ _, tt | t :: ts => λ vs, (row t vs.1 i, go ts vs.2) end) ts vs.

Definition tuple_hash : ∀ ts, bool → Z → option (tuple ts) → Z :=
  fix go ts first h : option (tuple ts) → Z :=
    match ts with
    | [] => λ _, h
    | t :: ts => λ v,
        go ts false (value_hash t first h (match v with None => None | Some l => l.1 end)) (snd <$> v)
    end.

Definition children_ok (own : vec unit) (count : Z) : ∀ ts, vectors ts → Prop :=
  fix go ts : vectors ts → Prop :=
    match ts with
    | [] => λ _, True
    | t :: ts => λ vs, vector_ok t vs.1 count ∧ go ts vs.2 ∧
        ∀ i, 0 ≤ i < count → vec_row own i = None → row t vs.1 i = None
    end.

(** Before and after hashing a column: the hashes combined so far. *)
Definition before_hash (first fl : bool) (h : hash_vector) (count : Z) (g : Z → Z) : Prop :=
  if first then room h count else holds h count g ∧ (fl = true → h.(h_type) = FLAT_VECTOR).

Definition hashes_column (t : Ty) : Prop := ∀ first fl v h count g,
  safe t first fl = true → vector_ok t v count → count < 2 ^ 32 → before_hash first fl h count g →
  ∃ h', TypeSwitch t first v h Incremental count = Ret h' ∧
    holds h' count (λ i, value_hash t first (g i) (row t v i)) ∧
    (first = false → h.(h_type) = FLAT_VECTOR → h'.(h_type) = FLAT_VECTOR).

Lemma hashes_scalar s : hashes_column (TScalar s).
Proof.
  intros first fl v h count g _ Hv Hc Hb. cbn [TypeSwitch]. destruct first.
  - destruct (TemplatedLoopHash_ok (Hash_of s) v h count Hv Hb) as (h' & -> & Hh). by exists h'.
  - destruct (TemplatedLoopCombineHash_ok (Hash_of s) v h count g Hv (proj1 Hb)) as (h' & -> & Hh & Ht). by exists h'.
Qed.

Lemma Flatten_ok h count g : holds h count g → ∃ h', Flatten h count = Ret h' ∧ holds h' count g ∧ h'.(h_type) = FLAT_VECTOR.
Proof.
  intros (Hc & H1 & Hg). unfold Flatten. destruct (h_type h) eqn:E; [|destruct Hg as (x & Hx & Hgx)|done].
  - exists h. split; [done|]. split; [|done]. split_and!; [lia|lia|lia|]. by rewrite E.
  - rewrite (get_Some _ 0 x) by done. orun. eexists. split; [done|]. split; [|done].
    split_and!; cbn [h_data h_type]; rewrite ?length_app, ?length_replicate; unfold STANDARD_VECTOR_SIZE; [lia|lia|lia|].
    intros i Hi. rewrite lookup_app_l, lookup_replicate_2 by (rewrite ?length_replicate; lia). by rewrite Hgx.
Qed.

Lemma hashes_list t : hashes_column t → hashes_column (TList t).
Proof.
  intros IH first fl [[entries child] child_count] h count g Hs (Hv & Hcc & Hchild & Hent) Hc Hb.
  cbn [safe] in Hs. apply andb_prop in Hs as [Hff Hs]. cbn [fst snd] in *.
  assert (0 ≤ count ≤ Z.of_nat (length (h_data h)) ∧ (1 ≤ length (h_data h))%nat ∧ h_type h = FLAT_VECTOR ∧
    (first = false → ∀ r, 0 ≤ r < count → h_data h !! Z.to_nat r = Some (Some (g r)))) as (Hcl & H1 & Ht & Hg).
  { destruct first; cbn in Hb, Hff; [destruct Hb as (? & ? & ?); split_and!; done || lia|].
    destruct Hb as [(? & ? & Hg) Hflat]. specialize (Hflat Hff). rewrite Hflat in Hg. split_and!; done || lia. }
  set (c := λ j, value_hash t true 0 (row t child j)).
  cbn [TypeSwitch]. set (child_hashes := if 0 <? child_count then _ else _).
  assert (∃ ch, child_hashes = Ret ch ∧ ∀ j, 0 ≤ j < child_count → ch.(h_data) !! Z.to_nat j = Some (Some (c j))) as (ch & -> & Hch).
  { subst child_hashes. destruct (Z.ltb_spec 0 child_count) as [Hpos|]; [|eexists; split; [done|]; lia].
    destruct (IH true true child (new_hashes child_count) child_count (λ _, 0) Hs Hchild) as (ch & -> & Hh & _); [lia| |].
    { cbn. unfold room, new_hashes. cbn. rewrite length_replicate. split_and!; done || lia. }
    orun. destruct (Flatten_ok _ _ _ Hh) as (ch' & -> & (_ & _ & Hh') & Hflat). rewrite Hflat in Hh'. by exists ch'. }
  orun.
  destruct (ListLoopHash_ok first entries count child_count ch.(h_data) c g Hv ltac:(lia) Hcc Hent Hch (h_data h) ltac:(lia) Hg)
    as (d & -> & Hl & Hd). orun.
  eexists. split; [done|]. split; [|done]. unfold holds. cbn [h_data h_type]. rewrite Ht.
  split_and!; [lia|lia|lia|].
  intros i Hi. rewrite Hd by done. do 2 f_equal. rewrite acc_fold with (count := count) (child_count := child_count) by done.
  unfold len, off. cbn [row value_hash fst snd]. destruct (vec_row entries i) as [e|]; [|done].
  cbn [default from_option id]. unfold c. by rewrite <-list_fmap_compose.
Qed.

Lemma hashes_struct_loop own count ts :
  Forall hashes_column ts → ∀ first fl (vs : vectors ts) h g,
  match ts with [] => first = false | t :: ts => safe t first fl && forallb (λ t, safe t false (if first then false else fl)) ts = true end →
  children_ok own count ts vs → count < 2 ^ 32 → before_hash first fl h count g →
  ∃ h', StructLoopHash ts first vs h Incremental count = Ret h' ∧
    holds h' count (λ i, tuple_hash ts first (g i)
      (match vec_row own i with None => None | Some _ => Some (struct_rows ts vs i) end)) ∧
    (first = false → h.(h_type) = FLAT_VECTOR → h'.(h_type) = FLAT_VECTOR).
Proof.
  induction 1 as [|t ts Ht _ IH]; intros first fl vs h g Hs Hok Hc Hb.
  { subst first. exists h. split; [done|]. split; [apply Hb|done]. }
  apply andb_prop in Hs as [Hs1 Hs2]. destruct vs as [v vs], Hok as (Hv & Hvs & Hnull). cbn [fst snd] in *.
  unfold StructLoopHash. cbn [fst snd]. destruct (Ht first fl v h count g Hs1 Hv Hc Hb) as (h1 & -> & Hh1 & Hf1). orun.
  set (fl' := if first then false else fl) in *.
  destruct (IH false fl' vs h1 (λ i, value_hash t first (g i) (row t v i))) as (h2 & E2 & Hh2 & Hf2).
  - destruct ts; [done|]. cbn [forallb] in Hs2. done.
  - done.
  - done.
  - split; [done|]. subst fl'. intros Hfl. destruct first; [done|]. apply Hf1; [done|]. by apply Hb.
  - exists h2. split; [exact E2|]. split; [|intros; apply Hf2; auto].
    eapply holds_ext; [|exact Hh2]. intros i Hi. cbn beta. cbn [tuple_hash].
    destruct (vec_row own i) as [[]|] eqn:E; cbn [fmap option_fmap option_map]; [done|].
    by rewrite Hnull by done.
Qed.

Lemma hashes_every_type t : hashes_column t.
Proof.
  induction t as [s|ts IH|t IH|t n IH] using Ty_nested_ind.
  - apply hashes_scalar.
  - intros first fl [own vs] h count g Hs [Hown Hvs] Hc Hb. destruct ts as [|t ts]; [done|].
    destruct (hashes_struct_loop own count (t :: ts) IH first fl vs h g Hs Hvs Hc Hb) as (h' & E & Hh & Hf).
    exists h'. split; [exact E|]. split; [|done]. eapply holds_ext; [|exact Hh]. intros i Hi. cbn beta.
    change (row (TStruct (t :: ts)) (own, vs) i) with
      (match vec_row own i with None => None | Some _ => Some (struct_rows (t :: ts) vs i) end). done.
  - by apply hashes_list.
  - done.
Qed.

(** ** Equal values have equal hashes *)

(** Floating-point payloads are bit patterns of their width. *)
Definition payload_ok (s : ScalarType) : payload s → Prop :=
  match s with
  | FLOAT => fits 32
  | DOUBLE => fits 64
  | _ => λ _, True
  end.

Fixpoint val_ok (t : Ty) : val t → Prop :=
  match t with
  | TScalar s => λ v, match v with None => True | Some x => payload_ok s x end
  | TStruct ts => λ v,
      match v with
      | None => True
      | Some l => (fix go ts : tuple ts → Prop :=
          match ts with [] => λ _, True | t :: ts => λ l, val_ok t l.1 ∧ go ts l.2 end) ts l
      end
  | TList t | TArray t _ => λ v, match v with None => True | Some l => Forall (val_ok t) l end
  end.

Lemma scalar_equals_hash s (x y : payload s) :
  payload_ok s x → payload_ok s y → scalar_equals s x y = true → Hash_of s x = Hash_of s y.
Proof.
  destruct s; cbn [payload payload_ok scalar_equals Hash_of] in *; intros Hx Hy E; try (apply Z.eqb_eq in E; by subst).
  1, 2: destruct x as [l1 u1], y as [l2 u2]; unfold Hugeint_Equals in E; cbn in E;
    apply andb_prop in E as [->%Z.eqb_eq ->%Z.eqb_eq]; done.
  - unfold Hash_float. by rewrite (proj2 (transform_eq binary32 binary32_ok x y Hx Hy) E).
  - unfold Hash_double. by rewrite (proj2 (transform_eq binary64 binary64_ok x y Hx Hy) E).
  - unfold interval_eq, Hash_interval in *. destruct (_ && _ && _) eqn:Eq.
    + rewrite !andb_true_iff, !Z.eqb_eq in Eq. destruct x, y; cbn in Eq. by destruct Eq as [[-> ->] ->].
    + destruct (Normalize x) as [[? ?] ?], (Normalize y) as [[? ?] ?].
      rewrite !andb_true_iff, !Z.eqb_eq in E. by destruct E as [[-> ->] ->].
  - by apply bool_decide_eq_true in E as ->.
Qed.

Definition respects (t : Ty) : Prop := ∀ first h (l r : val t),
  val_ok t l → val_ok t r → NotDistinctFrom t l r = true → value_hash t first h l = value_hash t first h r.

Lemma list_loop_equal {A} (eq : A → A → bool) (P : A → Prop) (f : A → Z) pos l r :
  (∀ a b, P a → P b → eq a b = true → f a = f b) → Forall P l → Forall P r →
  list_loop (λ _ _, false) eq Z.eqb pos l r = true → f <$> l = f <$> r.
Proof.
  intros Hf Hl. revert pos r. induction Hl as [|a l Ha _ IH]; intros pos r Hr; destruct Hr as [|b r Hb Hr]; cbn; try done.
  - rewrite (proj2 (Z.eqb_neq _ _)) by lia. done.
  - rewrite (proj2 (Z.eqb_neq _ _)) by lia. done.
  - destruct (eq a b) eqn:E; [|done]. cbn. intros Hrest. rewrite (Hf a b Ha Hb E). f_equal. by apply (IH (pos + 1)).
Qed.

Lemma tuple_respects ts : Forall respects ts → ∀ first h (l r : tuple ts),
  val_ok (TStruct ts) (Some l) → val_ok (TStruct ts) (Some r) → equals (TStruct ts) l r = true →
  tuple_hash ts first h (Some l) = tuple_hash ts first h (Some r).
Proof.
  induction 1 as [|t ts Ht Hts IH]; intros first h l r Hl Hr E; [done|].
  destruct l as [a l], r as [b r], Hl as [Ha Hl], Hr as [Hb Hr]. cbn [fst snd] in *.
  change (tuple_hash ts false (value_hash t first h a) (Some l) = tuple_hash ts false (value_hash t first h b) (Some r)).
  assert (NotDistinctFrom t a b = true ∧ equals (TStruct ts) l r = true) as [E1 E2].
  { destruct ts; [split; [exact E|done]|]. cbn in E. unfold NotDistinctFrom. destruct (not_distinct (equals t) a b); done. }
  rewrite (Ht first h a b Ha Hb E1). by apply IH.
Qed.

Lemma value_hash_respects t : array_free t = true → respects t.
Proof.
  induction t as [s|ts IH|t IH|t n IH] using Ty_nested_ind; intros Haf first h l r Hl Hr E; [| | |done].
  - cbn [value_hash]. destruct l as [x|], r as [y|]; try done.
    by rewrite (scalar_equals_hash s x y Hl Hr E).
  - destruct l as [l|], r as [r|]; try done.
    change (tuple_hash ts first h (Some l) = tuple_hash ts first h (Some r)).
    apply tuple_respects; try done. cbn in Haf. clear -IH Haf. induction IH as [|t ts Ht _ IHts]; [constructor|].
    cbn in Haf. apply andb_prop in Haf as [Ha1 Ha2]. constructor; auto.
  - destruct l as [l|], r as [r|]; try done. cbn [value_hash default from_option id].
    assert (value_hash t true 0 <$> l = value_hash t true 0 <$> r) as ->; [|done].
    apply (list_loop_equal (NotDistinctFrom t) (val_ok t) _ 0); [|done..]. intros a b Ha Hb Hab. by apply IH.
Qed.

(** ** Keys of several columns *)

(** Columns of a chunk. *)
Definition column : Type := { t : Ty & vector t }.

(** The hash of the key columns of a chunk, as the operators that build and
    use a Bloom filter compute it. *)
Definition hash_keys (cols : list column) (count : Z) : outcome hash_vector :=
  match cols with
  | [] => checked None
  | c :: cs =>
      let* hashes := Hash (projT1 c) (projT2 c) (new_hashes STANDARD_VECTOR_SIZE) Incremental count in
      let* hashes := ofold (λ hashes (c : column), CombineHash (projT1 c) hashes (projT2 c) Incremental count) cs hashes in
      match hashes.(h_type) with CONSTANT_VECTOR => Flatten hashes count | _ => Ret hashes end
  end.

(** A key: one value per column. *)
Definition key : Type := list { t : Ty & val t }.

Definition key_of (cols : list column) (i : Z) : key := (λ c : column, existT (projT1 c) (row (projT1 c) (projT2 c) i)) <$> cols.

Fixpoint key_hash (first : bool) (h : Z) (k : key) : Z :=
  match k with
  | [] => h
  | existT t v :: k => key_hash false (value_hash t first h v) k
  end.

(** Two keys of the same types match when no column distinguishes them. *)
Inductive keys_match : key → key → Prop :=
| keys_match_nil : keys_match [] []
| keys_match_cons t (l r : val t) ls rs :
    array_free t = true → val_ok t l → val_ok t r → NotDistinctFrom t l r = true → keys_match ls rs →
    keys_match (existT t l :: ls) (existT t r :: rs).

Lemma keys_match_hash l r first h : keys_match l r → key_hash first h l = key_hash first h r.
Proof.
  intros Hm. revert first h. induction Hm as [|t l r ls rs Ha Hl Hr E Hm IH]; intros first h; [done|].
  cbn. rewrite (value_hash_respects t Ha first h l r Hl Hr E). apply IH.
Qed.

(** The types of the key columns, the first of which is hashed first. *)
Definition columns_safe (cols : list column) : bool :=
  match cols with
  | [] => false
  | c :: cs => safe (projT1 c) true true && forallb (λ c : column, safe (projT1 c) false false) cs
  end.

Lemma hash_keys_ok cols count :
  columns_safe cols = true → Forall (λ c : column, vector_ok (projT1 c) (projT2 c) count) cols →
  0 ≤ count ≤ STANDARD_VECTOR_SIZE →
  ∃ h, hash_keys cols count = Ret h ∧ h.(h_type) = FLAT_VECTOR ∧
    ∀ i, 0 ≤ i < count → h.(h_data) !! Z.to_nat i = Some (Some (key_hash true 0 (key_of cols i))).
Proof.
  intros Hs Hok Hc. unfold STANDARD_VECTOR_SIZE in *. destruct cols as [|[t v] cs]; [done|].
  apply andb_prop in Hs as [Hs1 Hs2]. apply Forall_cons in Hok as [Hv Hvs]. cbn [projT1 projT2] in *.
  unfold hash_keys, Hash. set (F := λ (hashes : hash_vector) (c : column), CombineHash (projT1 c) hashes (projT2 c) Incremental count). cbn [projT1 projT2].
  destruct (hashes_every_type t true true v (new_hashes STANDARD_VECTOR_SIZE) count (λ _, 0) Hs1 Hv) as (h & -> & Hh & _); [lia| |].
  { cbn. unfold room, new_hashes, STANDARD_VECTOR_SIZE. cbn [h_data h_type]. rewrite length_replicate. split_and!; done || lia. }
  orun.
  assert (∀ h g, holds h count g → ∃ h', ofold F cs h = Ret h' ∧ holds h' count (λ i, key_hash false (g i) (key_of cs i))) as Hrest.
  { clear Hh h. revert Hs2 Hvs. induction cs as [|[t' v'] cs IH]; intros Hs2 Hvs h g Hh; [by exists h|].
    cbn [forallb] in Hs2. apply andb_prop in Hs2 as [Hs' Hs2]. apply Forall_cons in Hvs as [Hv' Hvs]. cbn [projT1 projT2] in *.
    cbn [ofold]. unfold F at 1, CombineHash. cbn [projT1 projT2].
    destruct (hashes_every_type t' false false v' h count g Hs' Hv') as (h1 & -> & Hh1 & _); [lia|by split|].
    orun. by apply (IH Hs2 Hvs). }
  destruct (Hrest h _ Hh) as (h' & -> & Hh'). orun. clear Hrest.
  assert (∃ h2, (match h'.(h_type) with CONSTANT_VECTOR => Flatten h' count | _ => Ret h' end) = Ret h2 ∧
    holds h2 count (λ i, key_hash false (value_hash t true 0 (row t v i)) (key_of cs i)) ∧ h_type h2 = FLAT_VECTOR) as (h2 & -> & Hh2 & Ht2).
  { destruct (h_type h') eqn:E; [by exists h'|by apply Flatten_ok|]. destruct Hh' as (_ & _ & Hf). by rewrite E in Hf. }
  exists h2. split_and!; [done|done|]. destruct Hh2 as (_ & _ & Hg). rewrite Ht2 in Hg. exact Hg.
Qed.

(** ** Properties *)

(** C38: equal keys have equal hashes, for key columns of types the code hashes
    as intended ([columns_safe]): there is a column, no type contains an array
    or an empty struct, and lists are only in the first column, outermost or
    as the first field of its structs.  Whatever the representation of such
    columns (flat, constant or dictionary vectors, with or without NULLs), if
    row [i] of one chunk and row [j] of another have keys that no column
    distinguishes, the hashes computed for the two chunks agree on these rows,
    and computing them is defined. *)
Theorem equal_keys_hash_equal (build probe : list column) (nb np i j : Z) :
  columns_safe build = true → columns_safe probe = true →
  Forall (λ c : column, vector_ok (projT1 c) (projT2 c) nb) build →
  Forall (λ c : column, vector_ok (projT1 c) (projT2 c) np) probe →
  0 ≤ i < nb → 0 ≤ j < np → nb ≤ STANDARD_VECTOR_SIZE → np ≤ STANDARD_VECTOR_SIZE →
  keys_match (key_of build i) (key_of probe j) →
  ∃ hb hp x, hash_keys build nb = Ret hb ∧ hash_keys probe np = Ret hp ∧
    hb.(h_data) !! Z.to_nat i = Some (Some x) ∧ hp.(h_data) !! Z.to_nat j = Some (Some x).
Proof.
  intros Hsb Hsp Hb Hp Hi Hj Hnb Hnp Hm.
  destruct (hash_keys_ok build nb Hsb Hb) as (hb & Eb & _ & Hhb); [lia|].
  destruct (hash_keys_ok probe np Hsp Hp) as (hp & Ep & _ & Hhp); [lia|].
  exists hb, hp, (key_hash true 0 (key_of build i)). split_and!; [done|done|by apply Hhb|].
  rewrite (keys_match_hash _ _ _ _ Hm). by apply Hhp.
Qed.

(** A flat column with NULLs and a constant one; a dictionary column and a
    flat column of doubles. *)
Definition sample_build : list column :=
  [existT (TScalar INT32) (mkVec FLAT_VECTOR [7; 9] (Some [true; false]) []);
   existT (TScalar DOUBLE) (mkVec CONSTANT_VECTOR [0] None [])].

Definition sample_probe : list column :=
  [existT (TScalar INT32) (mkVec DICTIONARY_VECTOR [5; 7] None [0; 1; 1]);
   existT (TScalar DOUBLE) (mkVec FLAT_VECTOR [3; 0x8000000000000000; 1] None [])].

Lemma equal_keys_hash_equal_witness :
  ∃ hb hp x, hash_keys sample_build 2 = Ret hb ∧ hash_keys sample_probe 3 = Ret hp ∧
    hb.(h_data) !! Z.to_nat 0 = Some (Some x) ∧ hp.(h_data) !! Z.to_nat 1 = Some (Some x).
Proof.
  apply (equal_keys_hash_equal sample_build sample_probe 2 3 0 1); [done|done| | |lia|lia|done|done|].
  - repeat constructor; cbn; intros i Hi; [exists i|exists 0]; (split; [done|]; split; [lia|]).
    + assert (i = 0 ∨ i = 1) as [-> | ->] by lia; (split; [by eexists|]; intros l [= <-]; by eexists).
    + split; [by eexists|done].
  - repeat constructor; cbn; intros i Hi; destruct Hi as [Hi|[_ ?]]; [|done| |done];
      assert (i = 0 ∨ i = 1 ∨ i = 2) as [-> | [-> | ->]] by lia; eexists; (split; [done|]; split; [lia|]; split; [by eexists|done]).
  - by repeat constructor.
Defined.

(** Hashing an array column is undefined.  [ArrayLoopHash] ignores that it
    computes the first hash and combines with whatever the hash vector
    holds: on a fresh vector, for any array column of scalars with at least
    one row and one element, it reads uninitialised memory. *)
Theorem array_hash_is_undefined (s : ScalarType) (n : nat) (v : vector (TArray (TScalar s) n)) (count : Z) :
  (0 < n)%nat → 0 < count ≤ STANDARD_VECTOR_SIZE → vector_ok (TArray (TScalar s) n) v count →
  Hash (TArray (TScalar s) n) v (new_hashes STANDARD_VECTOR_SIZE) Incremental count = Undef.
Proof.
  intros Hn Hc [_ Hv]. unfold Hash. cbn [TypeSwitch]. rewrite (proj2 (Z.ltb_lt _ _)) by lia.
  cbn [Flatten new_hashes h_type]. orun.
  destruct (TemplatedLoopHash_ok (Hash_of s) v.2 (new_hashes (Z.of_nat n * count)) (Z.of_nat n * count)) as (h & E & _).
  { done. }
  { unfold room, new_hashes. cbn [h_data h_type]. rewrite length_replicate. split_and!; [lia|lia|lia|done]. }
  rewrite E. orun. unfold ArrayLoopHash. rewrite (seqZ_cons 0 count) by lia. cbn [ofold].
  rewrite (seqZ_cons (0 * Z.of_nat n) (Z.of_nat n)) by lia. cbn [ofold]. done.
Qed.


(** A key made of a constant column and a list column: the hashes stay a
    constant vector while the list code combines every row, so the second row
    reads memory nobody wrote. *)
Lemma list_after_constant_is_undefined :
  hash_keys [existT (TScalar INT32) (mkVec CONSTANT_VECTOR [1] None []);
             existT (TList (TScalar INT32))
               (mkVec FLAT_VECTOR [mkEntry 0 1; mkEntry 1 1] None [], mkVec FLAT_VECTOR [4; 5] None [], 2)] 2 = Undef.
Proof. by vm_compute. Qed.
