(* ===== verification/HashTable.v ===== *)
(** * HashTable: the chained hash table of the hash filter

    [HashTable] of [hash_filter/hashtable.cpp], the exact alternative to a
    Bloom filter: rows with their keys are collected in partitions, chained in
    a table of pointers, and probed with chunks of keys.  The eight bytes of a
    row that hold its hash while it is collected hold the next row of its chain
    once it is in the table.  How keys are hashed and compared, and how a row
    collection splits its rows into chunks, are interfaces. *)

From S2P Require Import Prelude VectorHash.
Local Open Scope Z_scope.
Local Open Scope machine_scope.

(** ** Keys *)

(** Rows of key columns: which values are NULL, the hash of the first columns,
    and the comparison of two values. *)
Class TableKeys (R : Type) := {
  key_arity : nat;
  key_valid : R → nat → bool;
  row_hash_of : nat → R → Z;
  column_equal : R → R → nat → bool
}.

Definition all_valid `{TableKeys R} (r : R) : bool := forallb (key_valid r) (seq 0 key_arity).

Definition key_equal `{TableKeys R} (l r : R) : bool := forallb (column_equal l r) (seq 0 key_arity).

Class TableKeysOk (R : Type) `{TableKeys R} : Prop := {
  equal_valid : ∀ l r c, column_equal l r c = true → key_valid l c = true;
  equal_hash : ∀ n l r, key_equal l r = true → row_hash_of n l = row_hash_of n r
}.

(** [TupleDataCollection::Append]: chunks of row locations, and rows to add. *)
Class TupleChunks := append_rows : list (list Z) → list Z → list (list Z).

Class TupleChunksOk `{TupleChunks} : Prop := append_rows_all : ∀ cs l, concat (append_rows cs l) = concat cs ++ l.

(** ** Selection of the rows without NULLs *)

Section Keys.
  Context `{TableKeys R}.

(** A chunk of keys: its rows, and for each column whether it has a validity mask. *)
Record keys_chunk := mkKeys { krows : list R; masked : list bool }.

Definition keys_size (keys : keys_chunk) : Z := Z.of_nat (length keys.(krows)).

Definition key_row (keys : keys_chunk) (i : Z) : outcome R := read keys.(krows) i.

(** A selection vector: its buffer, and whether the current selection is this
    buffer or the incremental one. *)
Definition current_index (own : bool) (buffer : list (option Z)) (i : Z) : outcome Z := if own then get buffer i else Ret i.

(** [FilterNullValues], which may read the buffer it writes. *)
Definition filter_null (keys : keys_chunk) (col : nat) (own : bool) (st : list (option Z) * Z) (i : Z) : outcome (list (option Z) * Z) :=
  let* idx := current_index own st.1 i in
  let* r := key_row keys idx in
  if key_valid r col then let* buffer := put_at st.1 st.2 idx in Ret (buffer, st.2 + 1) else Ret st.

Definition FilterNullValues (keys : keys_chunk) (col : nat) (own : bool) (buffer : list (option Z)) (count : Z) : outcome (list (option Z) * Z) :=
  ofold (filter_null keys col own) (seqZ 0 count) (buffer, 0).

(** [PrepareKeys]: the current selection and its count. *)
Definition prepare_column (keys : keys_chunk) (st : bool * list (option Z) * Z) (col : nat) : outcome (bool * list (option Z) * Z) :=
  let* m := vec_at keys.(masked) col in
  if m : bool then let* r := FilterNullValues keys col st.1.1 st.1.2 st.2 in Ret (true, r.1, r.2) else Ret st.

Definition PrepareKeys (keys : keys_chunk) (buffer : list (option Z)) : outcome (bool * list (option Z) * Z) :=
  ofold (prepare_column keys) (seq 0 key_arity) (false, buffer, keys_size keys).

(** ** The table *)

(** A row in memory: its key, and the bytes of its hash and then of its next row. *)
Record entry := mkRow { ekey : R; eslot : Z }.

(** Rows by their location, 0 being the null pointer, and the next location. *)
Record memory := mkMemory { mrows : gmap Z entry; mnext : Z }.

Definition INITIAL_RADIX_BITS : Z := 3.

(** A table: the number of [equality_types], and whether keys with NULLs were
    seen (uninitialised at first); the partitions and the collection, chunks
    of row locations; the pointers, and the mask. *)
Record HashTable := mkTable {
  equality_types : nat;
  has_null : option bool;
  sink_collection : list (list (list Z));
  data_collection : list (list Z);
  hash_map : option (list Z);
  bitmask : option Z
}.

Definition new_table : HashTable := mkTable 0 None (replicate (Z.to_nat (2 ^ INITIAL_RADIX_BITS)) []) [] None None.

Definition Count (t : HashTable) : Z := Z.of_nat (length (concat t.(data_collection))).

(** [Merge]. *)
Definition Merge (t other : HashTable) : HashTable :=
  mkTable t.(equality_types) t.(has_null) (zip_with app t.(sink_collection) other.(sink_collection))
    (t.(data_collection) ++ other.(data_collection)) t.(hash_map) t.(bitmask).

(** [Hash]: of all rows, or of the selected ones. *)
Definition hash_row (t : HashTable) (keys : keys_chunk) (hashes : list (option Z)) (idx : Z) : outcome (list (option Z)) :=
  let* r := key_row keys idx in put_at hashes idx (row_hash_of (Nat.max 1 t.(equality_types)) r).

Definition hash_rows (t : HashTable) (keys : keys_chunk) (own : bool) (buffer : list (option Z)) (count : Z) : outcome (list (option Z)) :=
  let hashes := replicate (Z.to_nat STANDARD_VECTOR_SIZE) None in
  if count =? keys_size keys then ofold (hash_row t keys) (seqZ 0 count) hashes
  else ofold (λ hashes i, let* idx := current_index own buffer i in hash_row t keys hashes idx) (seqZ 0 count) hashes.

(** The partition of a hash. *)
Definition radix_partition (h : Z) : Z := Z.land (Z.shiftr h (48 - INITIAL_RADIX_BITS)) (2 ^ INITIAL_RADIX_BITS - 1).

Definition store_row (keys : keys_chunk) (own : bool) (buffer hashes : list (option Z)) (st : memory * list (Z * Z)) (i : Z)
    : outcome (memory * list (Z * Z)) :=
  let* idx := current_index own buffer i in
  let* r := key_row keys idx in
  let* h := get hashes idx in
  let p := st.1.(mnext) in
  Ret (mkMemory (<[p := mkRow r h]> st.1.(mrows)) (p + 1), st.2 ++ [(p, h)]).

Context `{TupleChunks}.

(** [AppendUnified]: each partition gets its rows, in order; one without rows is left alone. *)
Definition append_partition (chunks : list (list Z)) (rows : list Z) : list (list Z) :=
  match rows with [] => chunks | _ => append_rows chunks rows end.

Definition append_partitions (sink : list (list (list Z))) (l : list (Z * Z)) : list (list (list Z)) :=
  imap (λ p chunks, append_partition chunks (filter (λ ph, radix_partition ph.2 = Z.of_nat p) l).*1) sink.

(** [Build]. *)
Definition Build (t : HashTable) (keys : keys_chunk) (m : memory) : outcome (HashTable * memory) :=
  if keys_size keys =? 0 then Ret (t, m) else
  let* r := PrepareKeys keys (replicate (Z.to_nat STANDARD_VECTOR_SIZE) None) in
  let '(own, buffer, added_count) := r in
  let t := mkTable t.(equality_types) (if added_count <? keys_size keys then Some true else t.(has_null)) t.(sink_collection) t.(data_collection) t.(hash_map) t.(bitmask) in
  if added_count =? 0 then Ret (t, m) else
  let* hashes := hash_rows t keys own buffer added_count in
  let* st := ofold (store_row keys own buffer hashes) (seqZ 0 added_count) (m, []) in
  Ret (mkTable t.(equality_types) t.(has_null) (append_partitions t.(sink_collection) st.2) t.(data_collection) t.(hash_map) t.(bitmask), st.1).

(** [Unpartition]: what was in [data_collection] is replaced. *)
Definition Unpartition (t : HashTable) : HashTable :=
  mkTable t.(equality_types) t.(has_null) (replicate (length t.(sink_collection)) []) (concat t.(sink_collection)) t.(hash_map) t.(bitmask).

(** [NextPowerOfTwo] and [PointerTableCapacity]. *)
Definition smear (v k : Z) : Z := Z.lor v (Z.shiftr v k).

Definition NextPowerOfTwo (v : Z) : Z := u64 (fold_left smear [1; 2; 4; 8; 16; 32] (u64 (v - 1)) + 1).

Definition PointerTableCapacity (count : Z) : Z := Z.max (NextPowerOfTwo (u64 (count * 2))) (2 ^ 10).

(** [InitializePointerTable]. *)
Definition InitializePointerTable (t : HashTable) : HashTable :=
  let capacity := PointerTableCapacity (Count t) in
  let capacity := match t.(hash_map) with
    | Some ptrs => if Z.of_nat (length ptrs) <? capacity then capacity else Z.of_nat (length ptrs)
    | None => capacity
    end in
  mkTable t.(equality_types) t.(has_null) t.(sink_collection) t.(data_collection) (Some (replicate (Z.to_nat capacity) 0)) (Some (capacity - 1)).

(** [InsertHashesLoop], one thread. *)
Definition set_slot (m : memory) (row next : Z) : outcome memory :=
  let* e := deref (m.(mrows) !! row) in Ret (mkMemory (<[row := mkRow e.(ekey) next]> m.(mrows)) m.(mnext)).

Definition insert_hash (st : list Z * memory) (ir : Z * Z) : outcome (list Z * memory) :=
  let* head := read st.1 ir.1 in
  let* m := set_slot st.2 ir.2 head in
  Ret (<[Z.to_nat ir.1 := ir.2]> st.1, m).

(** [InsertHashes]. *)
Definition InsertHashes (mask : Z) (hashes rows : list Z) (st : list Z * memory) : outcome (list Z * memory) :=
  ofold insert_hash (zip ((λ h, Z.land h mask) <$> hashes) rows) st.

(** [Finalize] of one thread: for each chunk the hashes of its rows are read, then the rows inserted. *)
Definition load_hashes (m : memory) (rows : list Z) : outcome (list Z) :=
  ofold (λ hs row, let* e := deref (m.(mrows) !! row) in Ret (hs ++ [e.(eslot)])) rows [].

Definition finalize_chunk (mask : Z) (st : list Z * memory) (rows : list Z) : outcome (list Z * memory) :=
  let* hashes := load_hashes st.2 rows in InsertHashes mask hashes rows st.

Definition Finalize (t : HashTable) (chunk_idx_from chunk_idx_to : nat) (m : memory) : outcome (HashTable * memory) :=
  let* ptrs := deref t.(hash_map) in
  let* mask := deref t.(bitmask) in
  if decide (chunk_idx_from < chunk_idx_to ≤ length t.(data_collection))%nat then
    let* st := ofold (finalize_chunk mask) (take (chunk_idx_to - chunk_idx_from) (drop chunk_idx_from t.(data_collection))) (ptrs, m) in
    Ret (mkTable t.(equality_types) t.(has_null) t.(sink_collection) t.(data_collection) (Some st.1) t.(bitmask), st.2)
  else Undef.

(** ** Probing *)

Record ScanStructure := mkScan {
  pointers : list (option Z);
  scan_count : Z;
  sel_vector : list (option Z);
  found_match : list bool;
  finished : bool
}.

(** [ApplyBitmask] for probing: the bucket of each selected row. *)
Definition bucket_of (mask : Z) (own : bool) (buffer hashes : list (option Z)) (ptrs : list (option Z)) (i : Z) : outcome (list (option Z)) :=
  let* idx := current_index own buffer i in
  let* h := get hashes idx in
  put_at ptrs idx (Z.land h mask).

(** [InitializeSelectionVector]: the first row of each chain, and the rows whose
    chain is not empty; it may read the selection it writes. *)
Definition first_row (map : list Z) (own : bool) (st : list (option Z) * list (option Z) * Z) (i : Z) : outcome (list (option Z) * list (option Z) * Z) :=
  let '(ptrs, sel, n) := st in
  let* idx := current_index own sel i in
  let* bucket := get ptrs idx in
  let* p := read map bucket in
  let* ptrs := put_at ptrs idx p in
  if p =? 0 then Ret (ptrs, sel, n) else let* sel := put_at sel n idx in Ret (ptrs, sel, n + 1).

(** [Probe] with [InitializeScanStructure]. *)
Definition Probe (t : HashTable) (keys : keys_chunk) : outcome ScanStructure :=
  let uninitialised := replicate (Z.to_nat STANDARD_VECTOR_SIZE) None in
  let not_found := replicate (Z.to_nat STANDARD_VECTOR_SIZE) false in
  let* r := PrepareKeys keys uninitialised in
  let '(own, sel, count) := r in
  if count =? 0 then Ret (mkScan uninitialised 0 sel not_found false) else
  let* hashes := hash_rows t keys own sel count in
  let* mask := deref t.(bitmask) in
  let* ptrs := ofold (bucket_of mask own sel hashes) (seqZ 0 count) uninitialised in
  let* map := deref t.(hash_map) in
  let* st := ofold (first_row map own) (seqZ 0 count) (ptrs, sel, 0) in
  Ret (mkScan st.1.1 st.2 st.1.2 not_found false).

(** [RowMatcher::Match]: column after column, the rows that still match and those that do not. *)
Definition match_column (keys : keys_chunk) (m : memory) (ptrs : list (option Z)) (col : nat) (st : list Z * list Z) (idx : Z) : outcome (list Z * list Z) :=
  let* r := key_row keys idx in
  let* p := get ptrs idx in
  let* e := deref (m.(mrows) !! p) in
  if column_equal r e.(ekey) col then Ret (st.1 ++ [idx], st.2) else Ret (st.1, st.2 ++ [idx]).

Definition Match (keys : keys_chunk) (m : memory) (ptrs : list (option Z)) (sel : list Z) : outcome (list Z * list Z) :=
  ofold (λ st col, ofold (match_column keys m ptrs col) st.1 ([], st.2)) (seq 0 key_arity) (sel, []).

(** [ResolvePredicates]. *)
Definition selected (sel : list (option Z)) (count : Z) : outcome (list Z) := ofold (λ l i, let* idx := get sel i in Ret (l ++ [idx])) (seqZ 0 count) [].

Definition ResolvePredicates (keys : keys_chunk) (m : memory) (ss : ScanStructure) : outcome (list Z * list Z) :=
  let* sel := selected ss.(sel_vector) ss.(scan_count) in Match keys m ss.(pointers) sel.

(** [AdvancePointers]. *)
Definition advance (m : memory) (st : list (option Z) * list (option Z) * Z) (idx : Z) : outcome (list (option Z) * list (option Z) * Z) :=
  let '(ptrs, sel, n) := st in
  let* p := get ptrs idx in
  let* e := deref (m.(mrows) !! p) in
  let* ptrs := put_at ptrs idx e.(eslot) in
  if e.(eslot) =? 0 then Ret (ptrs, sel, n) else let* sel := put_at sel n idx in Ret (ptrs, sel, n + 1).

Definition AdvancePointers (m : memory) (ss : ScanStructure) (no_match : list Z) : outcome ScanStructure :=
  let* st := ofold (advance m) no_match (ss.(pointers), ss.(sel_vector), 0) in
  Ret (mkScan st.1.1 st.2 st.1.2 ss.(found_match) ss.(finished)).

Definition mark_found (found : list bool) (idx : Z) : outcome (list bool) :=
  if (0 <=? idx) && (idx <? Z.of_nat (length found)) then Ret (<[Z.to_nat idx := true]> found) else Undef.

(** [ScanKeyMatches]: the loop over the chains, then the rows found. *)
Fixpoint scan_loop (fuel : nat) (keys : keys_chunk) (m : memory) (ss : ScanStructure) : outcome ScanStructure :=
  if 0 <? ss.(scan_count) then
    match fuel with
    | O => NoFuel
    | S fuel =>
        let* r := ResolvePredicates keys m ss in
        let* found := ofold mark_found r.1 ss.(found_match) in
        let* ss := AdvancePointers m (mkScan ss.(pointers) ss.(scan_count) ss.(sel_vector) found ss.(finished)) r.2 in
        scan_loop fuel keys m ss
    end
  else Ret ss.

Definition collect_found (found : list bool) (st : list (option Z) * Z) (i : Z) : outcome (list (option Z) * Z) :=
  let* sel := put_at st.1 st.2 i in
  let* b := read found i in
  Ret (sel, if b : bool then st.2 + 1 else st.2).

(** [Next], which is [NextSemiJoin] once. *)
Definition Next (keys : keys_chunk) (m : memory) (ss : ScanStructure) (sel : list (option Z)) (result_count : Z)
    : outcome (ScanStructure * list (option Z) * Z) :=
  if ss.(finished) then Ret (ss, sel, result_count) else
  let* ss := scan_loop (S (size m.(mrows))) keys m ss in
  let* st := ofold (collect_found ss.(found_match)) (seqZ 0 (keys_size keys)) (sel, result_count) in
  Ret (mkScan ss.(pointers) ss.(scan_count) ss.(sel_vector) ss.(found_match) true, st.1, st.2).
End Keys.

Arguments keys_chunk R : clear implicits.
Arguments entry R : clear implicits.
Arguments memory R : clear implicits.

(** ** Selections *)

Section Selections.
  Context `{TableKeys R}.

(** The buffer, or the incremental selection, selects the rows [l]. *)
Definition selects (own : bool) (buffer : list (option Z)) (l : list Z) : Prop :=
  if own then ∃ rest, buffer = (Some <$> l) ++ rest else l = seqZ 0 (Z.of_nat (length l)).

Lemma read_lookup {T} (l : list T) (i : nat) x : l !! i = Some x → read l (Z.of_nat i) = Ret x.
Proof. intros Hx. unfold read. rewrite (proj2 (Z.ltb_ge _ _)) by lia. by rewrite Nat2Z.id, Hx. Qed.

Lemma get_lookup {T} (a : list (option T)) (i : nat) x : a !! i = Some (Some x) → get a (Z.of_nat i) = Ret x.
Proof. intros Hx. unfold get. by rewrite (read_lookup _ _ _ Hx). Qed.

Lemma get_lookup_Z {T} (a : list (option T)) (i : Z) x : 0 ≤ i → a !! Z.to_nat i = Some (Some x) → get a i = Ret x.
Proof. intros Hi Hx. rewrite <- (Z2Nat.id i) by done. by apply get_lookup. Qed.

Lemma put_lookup {T} (a : list (option T)) (i : nat) x : (i < length a)%nat → put_at a (Z.of_nat i) x = Ret (<[i := Some x]> a).
Proof. intros Hi. unfold put_at. rewrite (proj2 (Z.leb_le _ _)), (proj2 (Z.ltb_lt _ _)) by lia. cbn [andb]. by rewrite Nat2Z.id. Qed.

Lemma put_lookup_Z {T} (a : list (option T)) (i : Z) x : 0 ≤ i < Z.of_nat (length a) → put_at a i x = Ret (<[Z.to_nat i := Some x]> a).
Proof. intros Hi. rewrite <- (Z2Nat.id i) at 1 by lia. apply put_lookup. lia. Qed.

Lemma current_selected own buffer l (i : nat) idx : selects own buffer l → l !! i = Some idx → current_index own buffer (Z.of_nat i) = Ret idx.
Proof.
  unfold selects, current_index. destruct own.
  - intros [rest ->] Hi. apply get_lookup. rewrite lookup_app_l by (rewrite length_fmap; by eapply lookup_lt_Some). by rewrite list_lookup_fmap, Hi.
  - intros -> Hi. f_equal. apply lookup_seqZ in Hi. lia.
Qed.

(** A loop over a selection visits the rows it selects. *)
Lemma ofold_selected {T} own buffer l (f : T → Z → outcome T) (g : T → Z → outcome T) s :
  selects own buffer l → (∀ s i idx, current_index own buffer i = Ret idx → f s i = g s idx) →
  ofold f (seqZ 0 (Z.of_nat (length l))) s = ofold g l s.
Proof.
  intros Hs Hfg. assert (∀ pre post s, l = pre ++ post → ofold f (seqZ (Z.of_nat (length pre)) (Z.of_nat (length post))) s = ofold g post s) as Hloop; [|by apply (Hloop [] l)].
  intros pre post. revert pre. induction post as [|idx post IH]; intros pre s' El; [done|].
  rewrite seqZ_cons by (simpl; lia). cbn [ofold length]. rewrite (Hfg _ _ idx) by (apply (current_selected _ _ l); [done|]; by rewrite El, list_lookup_middle).
  destruct (g s' idx) as [s1| | |]; try done. orun. replace (Z.succ (Z.of_nat (length pre))) with (Z.of_nat (length (pre ++ [idx]))) by (rewrite length_app; simpl; lia).
  replace (Z.pred (Z.of_nat (S (length post)))) with (Z.of_nat (length post)) by lia. apply IH. by rewrite <- app_assoc.
Qed.

(** Writing entries that were read before in place. *)
Lemma selects_put (buffer rest : list (option Z)) (done_ : list Z) (idx : Z) : (length done_ < length buffer)%nat → buffer = (Some <$> done_) ++ rest →
  ∃ rest', <[length done_ := Some idx]> buffer = (Some <$> (done_ ++ [idx])) ++ rest'.
Proof.
  intros Hlen ->. rewrite length_app, length_fmap in Hlen. destruct rest as [|x rest]; [simpl in Hlen; lia|]. exists rest.
  rewrite fmap_app, <- app_assoc. replace (length done_) with (length (Some <$> done_) + 0)%nat by (rewrite length_fmap; lia). by rewrite insert_app_r.
Qed.

(** A loop that keeps some of the rows, [g] telling which, in a selection vector. *)
Definition keep_row {T} (st : T * list (option Z) * Z) (r : T * bool) (idx : Z) : outcome (T * list (option Z) * Z) :=
  if r.2 then let* sel := put_at st.1.2 st.2 idx in Ret (r.1, sel, st.2 + 1) else Ret (r.1, st.1.2, st.2).

Definition compact {T} (g : T → Z → outcome (T * bool)) (own : bool) (st : T * list (option Z) * Z) (i : Z) : outcome (T * list (option Z) * Z) :=
  let* idx := current_index own st.1.2 i in let* r := g st.1.1 idx in keep_row st r idx.

Section Compact.
  Context {T : Type} (g : T → Z → outcome (T * bool)) (keep : Z → bool) (I : list Z → T → Prop) (l : list Z).
  Context (Hstep : ∀ pre idx post s, l = pre ++ idx :: post → I pre s → ∃ s', g s idx = Ret (s', keep idx) ∧ I (pre ++ [idx]) s').

Definition kept (l : list Z) : list Z := filter (λ idx, keep idx = true) l.

(** After the rows [pre]: the rows kept are in the buffer, the rest of which is as before. *)
Definition compacted (sel0 : list (option Z)) (pre : list Z) (st : T * list (option Z) * Z) : Prop :=
  I pre st.1.1 ∧ st.2 = Z.of_nat (length (kept pre)) ∧ selects true st.1.2 (kept pre) ∧ length st.1.2 = length sel0 ∧
  ∀ j, (length pre ≤ j)%nat → st.1.2 !! j = sel0 !! j.

Lemma kept_length pre : (length (kept pre) ≤ length pre)%nat.
Proof. apply length_filter. Qed.

Lemma keep_row_ok sel0 pre idx post st :
  l = pre ++ idx :: post → (length l ≤ length sel0)%nat → compacted sel0 pre st →
  ∃ st', (let* r := g st.1.1 idx in keep_row st r idx) = Ret st' ∧ compacted sel0 (pre ++ [idx]) st'.
Proof.
  intros El Hlen (HI & Hn & [rest Hs] & Hl & Hj). destruct st as [[s sel] n]. cbn [fst snd] in *. destruct (Hstep pre idx post s El HI) as (s' & E & HI'). rewrite E. orun.
  pose proof (kept_length pre) as Hk. assert (length pre < length sel0)%nat as Hlt by (rewrite El, length_app in Hlen; simpl in Hlen; lia).
  unfold keep_row. cbn [fst snd]. unfold compacted, kept in *. rewrite !filter_app, filter_cons, filter_nil. destruct (keep idx).
  - rewrite decide_True by done. rewrite Hn, put_lookup by lia. orun. eexists. split; [done|]. cbn [fst snd].
    destruct (selects_put sel rest (kept pre) idx) as (rest' & Hs'); [unfold kept; lia|done|]. rewrite !length_app. cbn [length].
    split_and!; [done|lia|by exists rest'|by rewrite length_insert|]. intros j Hjj. rewrite list_lookup_insert_ne by lia. apply Hj. lia.
  - rewrite decide_False by done. eexists. split; [done|]. cbn [fst snd]. rewrite app_nil_r, length_app. cbn [length].
    split_and!; [done|done|by exists rest|done|]. intros j Hjj. apply Hj. lia.
Qed.

(** The loop over a selection, which may be the one that is written. *)
Lemma compact_ok own sel s :
  selects own sel l → (length l ≤ length sel)%nat → I [] s →
  ∃ s' sel', ofold (compact g own) (seqZ 0 (Z.of_nat (length l))) (s, sel, 0) = Ret (s', sel', Z.of_nat (length (kept l))) ∧ I l s' ∧ selects true sel' (kept l) ∧ length sel' = length sel.
Proof.
  intros Hs Hlen H0. destruct (ofold_seqZ (λ i st, compacted sel (take (Z.to_nat i) l) st) (compact g own) 0 (Z.of_nat (length l)) (s, sel, 0)) as ([[s' sel'] n] & E & Hc).
  - lia.
  - rewrite take_0. unfold compacted. cbn [fst snd]. split_and!; [done|done|by exists sel|done|done].
  - intros i st Hi Hc. destruct (lookup_lt_is_Some_2 l (Z.to_nat i)) as [idx Hidx]; [lia|]. pose proof Hc as (_ & _ & _ & _ & Hj).
    assert (current_index own st.1.2 i = Ret idx) as Hcur.
    { pose proof (current_selected own sel l (Z.to_nat i) idx Hs Hidx) as Hcs. rewrite Z2Nat.id in Hcs by lia. unfold current_index in *. destruct own; [|done].
      rewrite <- Hcs. unfold get, read. rewrite Hj; [done|]. rewrite length_take. lia. }
    unfold compact. rewrite Hcur. orun. replace (Z.to_nat (i + 1)) with (S (Z.to_nat i)) by lia. rewrite (take_S_r _ _ _ Hidx).
    apply (keep_row_ok _ _ _ (drop (S (Z.to_nat i)) l)); [|done|done]. by rewrite <- (take_drop_middle l (Z.to_nat i) idx Hidx) at 1.
  - rewrite Z.add_0_l, Nat2Z.id, firstn_all in Hc. destruct Hc as (HI & Hn & Hs' & Hl & _). cbn [fst snd] in *. exists s', sel'. rewrite E, Hn. done.
Qed.

(** The loop over a list. *)
Lemma compact_list_ok sel s :
  (length l ≤ length sel)%nat → I [] s →
  ∃ s' sel', ofold (λ st idx, let* r := g st.1.1 idx in keep_row st r idx) l (s, sel, 0) = Ret (s', sel', Z.of_nat (length (kept l))) ∧ I l s' ∧ selects true sel' (kept l) ∧ length sel' = length sel.
Proof.
  intros Hlen H0. destruct (ofold_prefix (compacted sel) (λ st idx, let* r := g st.1.1 idx in keep_row st r idx) l (s, sel, 0)) as ([[s' sel'] n] & E & HI & Hn & Hs' & Hl & _).
  - unfold compacted. cbn [fst snd]. split_and!; [done|done|by exists sel|done|done].
  - intros pre idx st (post & El) Hc. by apply (keep_row_ok _ _ _ post).
  - cbn [fst snd] in *. exists s', sel'. rewrite E, Hn. done.
Qed.
End Compact.

Definition row_valid (keys : keys_chunk R) (col : nat) (idx : Z) : bool := match keys.(krows) !! Z.to_nat idx with Some r => key_valid r col | None => false end.

Definition in_chunk (keys : keys_chunk R) (l : list Z) : Prop := Forall (λ idx, 0 ≤ idx < keys_size keys) l.

Lemma key_row_in (keys : keys_chunk R) idx : 0 ≤ idx < keys_size keys → ∃ r, keys.(krows) !! Z.to_nat idx = Some r ∧ key_row keys idx = Ret r.
Proof.
  intros Hi. unfold keys_size in Hi. destruct (keys.(krows) !! Z.to_nat idx) as [r|] eqn:E; [|apply lookup_ge_None in E; lia].
  exists r. split; [done|]. unfold key_row. rewrite <- (Z2Nat.id idx) by lia. by apply read_lookup.
Qed.

Lemma FilterNullValues_ok (keys : keys_chunk R) col own buffer l :
  selects own buffer l → in_chunk keys l → (length l ≤ length buffer)%nat →
  let l' := filter (λ idx, row_valid keys col idx = true) l in
  ∃ buffer', FilterNullValues keys col own buffer (Z.of_nat (length l)) = Ret (buffer', Z.of_nat (length l')) ∧ selects true buffer' l' ∧ length buffer' = length buffer.
Proof.
  intros Hs Hin Hlen l'.
  destruct (compact_ok (λ _ idx, let* r := key_row keys idx in Ret (tt, key_valid r col)) (row_valid keys col) (λ _ _, True) l) with (own := own) (sel := buffer) (s := tt)
    as ([] & buffer' & E & _ & Hs' & Hl'); [|done|done|done|].
  - intros pre idx post [] El _. assert (0 ≤ idx < keys_size keys) as Hi by (unfold in_chunk in Hin; rewrite Forall_forall in Hin; apply Hin; rewrite El; set_solver).
    destruct (key_row_in keys idx Hi) as (r & Hr & Er). rewrite Er. orun. exists tt. unfold row_valid. by rewrite Hr.
  - exists buffer'. split_and!; [|done|done]. unfold FilterNullValues.
    assert (∀ ixs b n, ofold (compact (λ _ idx, let* r := key_row keys idx in Ret (tt, key_valid r col)) own) ixs (tt, b, n) =
      let* r := ofold (filter_null keys col own) ixs (b, n) in Ret (tt, r.1, r.2)) as Hsame.
    { clear. induction ixs as [|i ixs IH]; intros b n; [done|]. cbn [ofold]. unfold compact at 1, filter_null at 1. cbn [fst snd]. destruct (current_index own b i) as [idx| | |]; try done. orun.
      destruct (key_row keys idx) as [r| | |]; try done. orun. unfold keep_row. cbn [fst snd]. destruct (key_valid r col); [|apply IH]. destruct (put_at b n idx); try done. orun. apply IH. }
    rewrite Hsame in E. destruct (ofold (filter_null keys col own) _ (buffer, 0)) as [[b n]| | |]; try done. cbn in E. by injection E as -> ->.
Qed.
End Selections.

(** ** Collecting rows *)

Lemma filter_ext_in {A} (P Q : A → Prop) `{∀ x, Decision (P x)} `{∀ x, Decision (Q x)} (l : list A) :
  (∀ x, x ∈ l → P x ↔ Q x) → filter P l = filter Q l.
Proof.
  induction l as [|x l IH]; intros HPQ; [done|]. rewrite !filter_cons, IH by set_solver. specialize (HPQ x ltac:(left)).
  destruct (decide (P x)), (decide (Q x)); tauto.
Qed.


Section Collect.
  Context `{TableKeysOk R}.

Definition masks_ok (keys : keys_chunk R) : Prop :=
  ∀ c, (c < key_arity)%nat → ∃ b, keys.(masked) !! c = Some b ∧ (b = false → Forall (λ r, key_valid r c = true) keys.(krows)).

Definition row_all (keys : keys_chunk R) (idx : Z) : bool := match keys.(krows) !! Z.to_nat idx with Some r => all_valid r | None => false end.

Definition valid_rows (keys : keys_chunk R) : list Z := filter (λ idx, row_all keys idx = true) (seqZ 0 (keys_size keys)).

Lemma elem_of_rows (keys : keys_chunk R) idx : idx ∈ seqZ 0 (keys_size keys) ↔ 0 ≤ idx < keys_size keys.
Proof. rewrite elem_of_seqZ. lia. Qed.

Lemma valid_rows_in keys : in_chunk keys (valid_rows keys).
Proof. apply Forall_forall. intros idx [_ Hi]%list_elem_of_filter. by apply elem_of_rows. Qed.

Lemma PrepareKeys_ok keys buffer :
  masks_ok keys → keys_size keys ≤ Z.of_nat (length buffer) →
  ∃ own buffer', PrepareKeys keys buffer = Ret (own, buffer', Z.of_nat (length (valid_rows keys))) ∧ selects own buffer' (valid_rows keys) ∧ length buffer' = length buffer.
Proof.
  intros Hm Hlen. set (part cols := filter (λ idx, forallb (λ c, row_valid keys c idx) cols = true) (seqZ 0 (keys_size keys))).
  destruct (ofold_prefix (λ cols st, st.2 = Z.of_nat (length (part cols)) ∧ selects st.1.1 st.1.2 (part cols) ∧ length st.1.2 = length buffer)
    (prepare_column keys) (seq 0 key_arity) (false, buffer, keys_size keys)) as ([[own b] n] & E & Hn & Hs & Hb).
  - assert (part [] = seqZ 0 (keys_size keys)) as ->.
    { unfold part. induction (seqZ 0 (keys_size keys)) as [|x l IH]; [done|]. by rewrite filter_cons, decide_True, IH by done. }
    assert (Z.of_nat (length (seqZ 0 (keys_size keys))) = keys_size keys) as Hlk by (rewrite length_seqZ; unfold keys_size; lia).
    cbn [fst snd]. rewrite Hlk. split_and!; [done| |done]. unfold selects. by rewrite Hlk.
  - intros pre c [[own b] n] (post & Hl) (Hn & Hs & Hb). cbn [fst snd] in *. assert (c < key_arity)%nat as Hc.
    { assert (c ∈ seq 0 key_arity) as Hc by (rewrite Hl; set_solver). apply elem_of_seq in Hc. lia. }
    destruct (Hm c Hc) as (mk & Emk & Hmk). unfold prepare_column, vec_at. rewrite Emk. orun.
    assert (part (pre ++ [c]) = filter (λ idx, row_valid keys c idx = true) (part pre)) as Hpart.
    { unfold part. rewrite list_filter_filter. apply filter_ext_in. intros idx _. rewrite forallb_app. simpl. rewrite andb_true_r, andb_true_iff. tauto. }
    assert (in_chunk keys (part pre)) as Hin by (apply Forall_forall; intros idx [_ Hi]%list_elem_of_filter; by apply elem_of_rows).
    destruct mk.
    + destruct (FilterNullValues_ok keys c own b (part pre) Hs Hin) as (b' & E & Hs' & Hb').
      { rewrite Hb. pose proof (length_filter (λ idx, forallb (λ c, row_valid keys c idx) pre = true) (seqZ 0 (keys_size keys))) as Hf. rewrite length_seqZ in Hf. unfold part. lia. }
      cbn [fst snd]. rewrite Hn, E. orun. eexists. split; [done|]. cbn [fst snd]. rewrite Hpart. split_and!; [done|done|congruence].
    + eexists. split; [done|]. cbn [fst snd]. assert (part (pre ++ [c]) = part pre) as ->; [|done].
      rewrite Hpart. assert (∀ l, in_chunk keys l → filter (λ idx, row_valid keys c idx = true) l = l) as Hid; [|by apply Hid].
      intros l. induction 1 as [|idx l Hi _ IHl]; [done|]. rewrite filter_cons, decide_True, IHl; [done|]. destruct (key_row_in keys idx Hi) as (r & Hr & _).
      unfold row_valid. rewrite Hr. by apply (Forall_lookup_1 _ _ _ _ (Hmk eq_refl) Hr).
  - exists own, b. cbn [fst snd] in *. assert (part (seq 0 key_arity) = valid_rows keys) as Hpart; [|rewrite <- Hpart, <- Hn; done].
    apply filter_ext_in. intros idx Hi%elem_of_rows. destruct (key_row_in keys idx Hi) as (r & Hr & _). unfold row_all, all_valid. rewrite Hr.
    assert (forallb (λ c, row_valid keys c idx) (seq 0 key_arity) = forallb (key_valid r) (seq 0 key_arity)) as ->; [|done].
    clear -Hr. induction (seq 0 key_arity) as [|c cs IHc]; [done|]. simpl. rewrite IHc. unfold row_valid. by rewrite Hr.
Qed.

(** The hashes of the rows [l]. *)
Definition hashed (n : nat) (keys : keys_chunk R) (l : list Z) (hashes : list (option Z)) : Prop :=
  length hashes = Z.to_nat STANDARD_VECTOR_SIZE ∧
  ∀ idx, idx ∈ l → ∃ r, keys.(krows) !! Z.to_nat idx = Some r ∧ hashes !! Z.to_nat idx = Some (Some (row_hash_of n r)).

Lemma hash_loop t keys l :
  in_chunk keys l → keys_size keys ≤ STANDARD_VECTOR_SIZE →
  ∃ hashes, ofold (hash_row t keys) l (replicate (Z.to_nat STANDARD_VECTOR_SIZE) None) = Ret hashes ∧ hashed (Nat.max 1 t.(equality_types)) keys l hashes.
Proof.
  intros Hin Hsz. apply ofold_prefix.
  - split; [by rewrite length_replicate|]. by intros idx ?%elem_of_nil.
  - intros pre idx hs (post & Hl) [Hlen Hpre]. assert (0 ≤ idx < keys_size keys) as Hi.
    { unfold in_chunk in Hin. rewrite Forall_forall in Hin. apply Hin. rewrite Hl. set_solver. }
    destruct (key_row_in keys idx Hi) as (r & Hr & Er). unfold hash_row. rewrite Er. orun. rewrite put_lookup_Z by (rewrite Hlen, Z2Nat.id; unfold STANDARD_VECTOR_SIZE in *; lia).
    eexists. split; [done|]. split; [by rewrite length_insert|]. intros j Hj. destruct (decide (j = idx)) as [->|Hne].
    + exists r. split; [done|]. rewrite list_lookup_insert_eq; [done|]. rewrite Hlen. unfold STANDARD_VECTOR_SIZE in *. lia.
    + destruct (Hpre j) as (rj & Hrj & Hh); [set_solver|]. exists rj. split; [done|]. rewrite list_lookup_insert_ne; [done|].
      assert (0 ≤ j < keys_size keys); [|lia]. unfold in_chunk in Hin. rewrite Forall_forall in Hin. apply Hin. rewrite Hl. set_solver.
Qed.

Lemma hash_rows_ok t keys own buffer l :
  selects own buffer l → in_chunk keys l → keys_size keys ≤ STANDARD_VECTOR_SIZE →
  ∃ hashes, hash_rows t keys own buffer (Z.of_nat (length l)) = Ret hashes ∧ hashed (Nat.max 1 t.(equality_types)) keys l hashes.
Proof.
  intros Hs Hin Hsz. unfold hash_rows. destruct (Z.eqb_spec (Z.of_nat (length l)) (keys_size keys)) as [El|_].
  - destruct (hash_loop t keys (seqZ 0 (keys_size keys))) as (hs & E & Hlen & Hh); [apply Forall_forall; intros idx; apply elem_of_rows|done|].
    exists hs. rewrite El. split; [done|]. split; [done|]. intros idx Hi. apply Hh, elem_of_rows. unfold in_chunk in Hin. rewrite Forall_forall in Hin. by apply Hin.
  - destruct (hash_loop t keys l Hin Hsz) as (hs & E & Hh). exists hs. split; [|done]. rewrite <- E. apply ofold_selected with (1 := Hs). intros s i idx Ei. by rewrite Ei.
Qed.
End Collect.

(** ** Rows in memory *)

Section Rows.
  Context `{TableKeysOk R} `{TupleChunksOk}.

(** Row [p] holds key [r] and its hash. *)
Definition holds_row (n : nat) (m : memory R) (p : Z) (r : R) : Prop := m.(mrows) !! p = Some (mkRow r (row_hash_of n r)).

(** Rows before [lo] stay. *)
Definition memory_le (m m' : memory R) : Prop := m.(mnext) ≤ m'.(mnext) ∧ ∀ p, p < m.(mnext) → m'.(mrows) !! p = m.(mrows) !! p.

Lemma store_rows_ok n keys own buffer hashes l m :
  selects own buffer l → hashed n keys l hashes → in_chunk keys l →
  ∃ m' ps, ofold (store_row keys own buffer hashes) (seqZ 0 (Z.of_nat (length l))) (m, []) = Ret (m', ps) ∧ memory_le m m' ∧
    ps.*1 = seqZ m.(mnext) (Z.of_nat (length l)) ∧ m'.(mnext) = m.(mnext) + Z.of_nat (length l) ∧
    Forall2 (λ ph idx, ∃ r, keys.(krows) !! Z.to_nat idx = Some r ∧ ph.2 = row_hash_of n r ∧ holds_row n m' ph.1 r) ps l.
Proof.
  intros Hs [_ Hh] Hin. rewrite (ofold_selected own buffer l _ (λ st idx, let* r := key_row keys idx in let* h := get hashes idx in
    Ret (mkMemory (<[st.1.(mnext) := mkRow r h]> st.1.(mrows)) (st.1.(mnext) + 1), st.2 ++ [(st.1.(mnext), h)])) _ Hs).
  2:{ intros s i idx Ei. unfold store_row. by rewrite Ei. }
  destruct (ofold_prefix (λ pre st, memory_le m st.1 ∧ st.2.*1 = seqZ m.(mnext) (Z.of_nat (length pre)) ∧ st.1.(mnext) = m.(mnext) + Z.of_nat (length pre) ∧
      Forall2 (λ ph idx, ∃ r, keys.(krows) !! Z.to_nat idx = Some r ∧ ph.2 = row_hash_of n r ∧ holds_row n st.1 ph.1 r) st.2 pre)
    (λ st idx, let* r := key_row keys idx in let* h := get hashes idx in
      Ret (mkMemory (<[st.1.(mnext) := mkRow r h]> st.1.(mrows)) (st.1.(mnext) + 1), st.2 ++ [(st.1.(mnext), h)])) l (m, [])) as ([m' ps] & E & Hrest).
  - cbn [fst snd]. split_and!; [by split|done|simpl; lia|constructor].
  - intros pre idx [m1 ps] (post & Hl) (Hle & Hps & Hnx & Hall). cbn [fst snd] in *. assert (idx ∈ l) as Hidx by (rewrite Hl; set_solver).
    destruct (Hh idx Hidx) as (r & Hr & Hhr). unfold in_chunk in Hin. rewrite Forall_forall in Hin. specialize (Hin idx Hidx).
    destruct (key_row_in keys idx Hin) as (r' & Hr' & Er). assert (r' = r) as -> by congruence. rewrite Er. orun.
    rewrite (get_lookup_Z hashes idx _ ltac:(lia) Hhr). orun. eexists. split; [done|]. cbn [fst snd mnext]. rewrite length_app. cbn [length]. split_and!.
    + destruct Hle as [Hle1 Hle2]. split; cbn [mnext mrows]; [lia|]. intros p Hp. rewrite lookup_insert_ne by lia. by apply Hle2.
    + rewrite fmap_app, Hps. csimpl. rewrite Nat2Z.inj_add, seqZ_app by lia. f_equal. rewrite Hnx. unfold seqZ. by csimpl.
    + lia.
    + apply Forall2_app.
      * assert (Forall (λ ph, ph.1 < m1.(mnext)) ps) as Hlt.
        { apply Forall_forall. intros ph Hph. assert (ph.1 ∈ ps.*1) as H1p by (by apply list_elem_of_fmap_2). rewrite Hps, elem_of_seqZ in H1p. lia. }
        clear -Hall Hlt. induction Hall as [|ph i ps pre Hx _ IH]; [constructor|]. apply Forall_cons in Hlt as [Hp Hlt]. constructor; [|by apply IH].
        destruct Hx as (r0 & H1 & H2 & H3). exists r0. split_and!; [done|done|]. unfold holds_row in *. cbn [mrows]. by rewrite lookup_insert_ne by lia.
      * constructor; [|constructor]. exists r. split_and!; [done|done|]. unfold holds_row. cbn [fst mrows]. by rewrite lookup_insert_eq.
  - exists m', ps. split; [done|exact Hrest].
Qed.

Lemma radix_bound h : 0 ≤ radix_partition h < 2 ^ INITIAL_RADIX_BITS.
Proof. unfold radix_partition. rewrite land_pow2_pred by done. by apply Z.mod_pos_bound. Qed.

(** The rows are spread over the partitions. *)
Lemma spread_none {A} (f : A → Z) (x : A) (l : list A) (ps : list nat) :
  (∀ p, p ∈ ps → f x ≠ Z.of_nat p) → map (λ p, filter (λ x, f x = Z.of_nat p) (x :: l)) ps = map (λ p, filter (λ x, f x = Z.of_nat p) l) ps.
Proof. intros Hx. apply map_ext_in. intros p Hp%list_elem_of_In. by rewrite filter_cons, decide_False by auto. Qed.

Lemma spread_cons {A} (f : A → Z) (x : A) (l : list A) (ps : list nat) :
  NoDup ps → (∃ p, p ∈ ps ∧ f x = Z.of_nat p) →
  concat (map (λ p, filter (λ x, f x = Z.of_nat p) (x :: l)) ps) ≡ₚ x :: concat (map (λ p, filter (λ x, f x = Z.of_nat p) l) ps).
Proof.
  induction 1 as [|q ps Hq _ IH]; intros (p & Hp & E); [by apply elem_of_nil in Hp|]. cbn [map concat]. rewrite filter_cons. case_decide as Hd.
  - rewrite spread_none; [done|]. intros p' Hp' E'. assert (p' = q) as -> by lia. done.
  - rewrite IH; [by rewrite Permutation_middle|]. exists p. split; [|done]. apply elem_of_cons in Hp as [->|]; [done|done].
Qed.

Lemma spread_perm {A} (f : A → Z) (l : list A) (n : nat) :
  Forall (λ x, 0 ≤ f x < Z.of_nat n) l → concat (map (λ p, filter (λ x, f x = Z.of_nat p) l) (seq 0 n)) ≡ₚ l.
Proof.
  induction 1 as [|x l Hx _ IH].
  - clear. induction (seq 0 n) as [|p ps IH]; [done|]. cbn [map concat]. by rewrite filter_nil.
  - rewrite spread_cons; [by rewrite IH|apply NoDup_seq|]. exists (Z.to_nat (f x)). split; [apply elem_of_seq|]; lia.
Qed.

Lemma append_partition_all chunks rows : concat (append_partition chunks rows) = concat chunks ++ rows.
Proof. destruct rows; [by rewrite app_nil_r|apply append_rows_all]. Qed.

Lemma append_partitions_perm sink l :
  length sink = Z.to_nat (2 ^ INITIAL_RADIX_BITS) → concat (concat (append_partitions sink l)) ≡ₚ concat (concat sink) ++ l.*1.
Proof.
  intros Hlen. rewrite <- (spread_perm (λ ph, radix_partition ph.2) l (length sink)) at 2.
  2:{ apply Forall_forall. intros ph _. rewrite Hlen. apply radix_bound. }
  unfold append_partitions. clear Hlen.
  assert (∀ k (sink : list (list (list Z))), concat (concat (imap (λ p chunks, append_partition chunks (filter (λ ph, radix_partition ph.2 = Z.of_nat (k + p)) l).*1) sink)) ≡ₚ
    concat (concat sink) ++ (concat (map (λ p, filter (λ ph, radix_partition ph.2 = Z.of_nat p) l) (seq k (length sink)))).*1) as Hk; [|by apply (Hk 0%nat)].
  intros k sink'. revert k. induction sink' as [|c sink' IH]; intros k; [done|]. cbn [imap length seq map concat]. rewrite !concat_app, append_partition_all, fmap_app, Nat.add_0_r.
  assert (imap ((λ p chunks, append_partition chunks (filter (λ ph, radix_partition ph.2 = Z.of_nat (k + p)) l).*1) ∘ S) sink' =
    imap (λ p chunks, append_partition chunks (filter (λ ph, radix_partition ph.2 = Z.of_nat (S k + p)) l).*1) sink') as ->.
  { apply imap_ext. intros i x _. unfold compose. by replace (k + S i)%nat with (S k + i)%nat by lia. }
  rewrite IH. solve_Permutation.
Qed.

(** The table has collected the keys [ks], in rows from [lo] on. *)
Record collected (lo : Z) (t : HashTable) (m : memory R) (ks : list R) : Prop := {
  co_types : t.(equality_types) = 0%nat;
  co_parts : length t.(sink_collection) = Z.to_nat (2 ^ INITIAL_RADIX_BITS);
  co_lo : 0 < lo ≤ m.(mnext);
  co_rows : ∃ ps, concat (concat t.(sink_collection)) ≡ₚ ps ∧ NoDup ps ∧ Forall2 (λ p r, lo ≤ p < m.(mnext) ∧ holds_row 1 m p r) ps ks
}.

Lemma new_table_ok m : 0 < m.(mnext) → collected m.(mnext) new_table m [].
Proof. intros Hm. split; [done|done|lia|]. exists []. split_and!; [done|constructor|constructor]. Qed.

Lemma collected_le lo t m m' ks : collected lo t m ks → memory_le m m' → collected lo t m' ks.
Proof.
  intros [Ht Hp Hlo (ps & Hps & Hn & Hall)] [Hle Hm]. split; [done|done|lia|]. exists ps. split_and!; [done|done|].
  eapply Forall2_impl; [exact Hall|]. intros p r [Hr Hh]. split; [lia|]. unfold holds_row in *. by rewrite Hm by lia.
Qed.

(** The keys [Build] takes: the rows without NULLs. *)
Definition kept_keys (keys : keys_chunk R) : list R := filter (λ r, all_valid r = true) keys.(krows).

Lemma kept_rows keys : Forall2 (λ idx r, keys.(krows) !! Z.to_nat idx = Some r) (valid_rows keys) (kept_keys keys).
Proof.
  unfold valid_rows, kept_keys, row_all, keys_size. assert (∀ k (rs : list R), (∀ i, keys.(krows) !! (k + i)%nat = rs !! i) →
    Forall2 (λ idx r, keys.(krows) !! Z.to_nat idx = Some r) (filter (λ idx, row_all keys idx = true) (seqZ (Z.of_nat k) (Z.of_nat (length rs)))) (filter (λ r, all_valid r = true) rs)) as Hk;
    [|by apply (Hk 0%nat)].
  intros k rs. revert k. induction rs as [|r rs IH]; intros k Hk; [constructor|]. rewrite seqZ_cons by (simpl; lia). rewrite !filter_cons.
  assert (row_all keys (Z.of_nat k) = all_valid r) as Hr by (unfold row_all; rewrite Nat2Z.id, <- (Nat.add_0_r k), Hk; done).
  replace (Z.succ (Z.of_nat k)) with (Z.of_nat (S k)) by lia. replace (Z.pred (Z.of_nat (length (r :: rs)))) with (Z.of_nat (length rs)) by (simpl; lia).
  assert (∀ i, keys.(krows) !! (S k + i)%nat = rs !! i) as Hk' by (intros i; by rewrite Nat.add_succ_comm, Hk).
  rewrite Hr. case_decide; [|by apply IH]. constructor; [|by apply IH]. by rewrite Nat2Z.id, <- (Nat.add_0_r k), Hk.
Qed.

Lemma Build_table_ok lo t m ks keys :
  collected lo t m ks → masks_ok keys → keys_size keys ≤ STANDARD_VECTOR_SIZE →
  ∃ t' m', Build t keys m = Ret (t', m') ∧ collected lo t' m' (ks ++ kept_keys keys) ∧ memory_le m m'.
Proof.
  intros Hco Hm Hsz. unfold Build. pose proof (kept_rows keys) as Hkept. destruct (Z.eqb_spec (keys_size keys) 0) as [E0|_].
  { exists t, m. assert (kept_keys keys = []) as ->; [|rewrite app_nil_r; split_and!; [done|done|by split]]. unfold kept_keys, keys_size in *. by destruct keys.(krows). }
  destruct (PrepareKeys_ok keys (replicate (Z.to_nat STANDARD_VECTOR_SIZE) None) Hm) as (own & buffer & E & Hs & _); [rewrite length_replicate; unfold STANDARD_VECTOR_SIZE in *; lia|].
  rewrite E. orun. pose proof Hco as [Ht Hp Hlo (ps & Hps & Hn & Hall)]. destruct (Z.eqb_spec (Z.of_nat (length (valid_rows keys))) 0) as [E1|_].
  { eexists _, m. split; [done|]. apply Forall2_length in Hkept. assert (kept_keys keys = []) as -> by (destruct (kept_keys keys); simpl in *; [done|lia]).
    rewrite app_nil_r. split; [|by split]. split; [done|done|done|by exists ps]. }
  set (t1 := mkTable _ _ _ _ _ _). destruct (hash_rows_ok t1 keys own buffer _ Hs (valid_rows_in keys) Hsz) as (hs & Eh & Hh). rewrite Eh. orun.
  destruct (store_rows_ok 1 keys own buffer hs _ m Hs) as (m' & qs & Eq & Hle & Hq & Hnx & Hqs); [unfold t1 in Hh; cbn [equality_types] in Hh; by rewrite Ht in Hh|apply valid_rows_in|]. rewrite Eq. orun.
  eexists _, m'. split; [done|]. split; [|done]. cbn [fst snd]. pose proof Hle as [Hle1 Hle2]. split; cbn [equality_types sink_collection]; [done| |lia|].
  { unfold append_partitions. by rewrite length_imap. }
  exists (ps ++ qs.*1). split_and!.
  - rewrite append_partitions_perm by done. unfold t1. cbn [sink_collection]. by rewrite Hps.
  - apply NoDup_app. split_and!; [done| |rewrite Hq; apply NoDup_seqZ]. intros p H1p H2p. rewrite Hq, elem_of_seqZ in H2p.
    apply list_elem_of_lookup in H1p as [i Hi]. destruct (Forall2_lookup_l _ _ _ _ _ Hall Hi) as (r & _ & Hr & _). lia.
  - apply Forall2_app.
    + eapply Forall2_impl; [exact Hall|]. intros p r [Hr Hh']. split; [lia|]. unfold holds_row in *. by rewrite Hle2 by lia.
    + apply Forall2_fmap_l. apply Forall2_same_length_lookup_2; [by rewrite (Forall2_length _ _ _ Hqs), (Forall2_length _ _ _ Hkept)|].
      intros i ph r Hi Hri. destruct (Forall2_lookup_l _ _ _ _ _ Hqs Hi) as (idx & Hidx & r' & Hr' & _ & Hhr).
      pose proof (Forall2_lookup_lr _ _ _ _ _ _ Hkept Hidx Hri) as Hr2. simpl in Hr2. assert (r' = r) as -> by congruence. split; [|done].
      assert (ph.1 ∈ qs.*1) as Hin by (apply list_elem_of_fmap_2; by eapply list_elem_of_lookup_2). rewrite Hq, elem_of_seqZ in Hin. lia.
Qed.

Lemma Merge_ok lo t m ks mid t' ks' :
  collected lo t m ks → collected mid t' m ks' → lo ≤ mid → (∀ p, p ∈ concat (concat t.(sink_collection)) → p < mid) → collected lo (Merge t t') m (ks ++ ks').
Proof.
  intros [Ht Hp Hlo (ps & Hps & Hn & Hall)] [Ht' Hp' Hlo' (ps' & Hps' & Hn' & Hall')] Hmid Hlt.
  assert (∀ p, p ∈ ps → p < mid) as Hps_lt by (intros p; rewrite <- Hps; apply Hlt).
  assert (∀ p, p ∈ ps' → mid ≤ p) as Hps'_ge.
  { intros p [i Hi]%list_elem_of_lookup. destruct (Forall2_lookup_l _ _ _ _ _ Hall' Hi) as (r & _ & Hr & _). lia. }
  unfold Merge. split; cbn [equality_types sink_collection]; [done| |lia|].
  { rewrite length_zip_with. lia. }
  exists (ps ++ ps'). split_and!.
  - rewrite <- Hps, <- Hps'. clear -Hp Hp'. assert (length t.(sink_collection) = length t'.(sink_collection)) as Hl by congruence. clear Hp Hp'.
    revert Hl. generalize t'.(sink_collection) as l'. generalize t.(sink_collection) as l. induction l as [|c l IH]; intros [|c' l'] Hl; try done.
    cbn [zip_with concat]. rewrite !concat_app, IH by (simpl in Hl; congruence). solve_Permutation.
  - apply NoDup_app. split_and!; [done| |done]. intros p H1p H2p. specialize (Hps_lt p H1p). specialize (Hps'_ge p H2p). lia.
  - apply Forall2_app; [done|]. eapply Forall2_impl; [exact Hall'|]. intros p r [Hr Hh]. split; [lia|done].
Qed.
End Rows.
