(* ===== verification/HashProbe.v ===== *)
(** * HashProbe: chains, probing and finalisation

    The proofs about the table of [HashTable]: its capacity is a power of two,
    inserting a row puts it in the chain of its bucket, the scan of a chunk of
    keys decides each row within as many rounds as the longest chain has rows,
    and a table that was filled and finalised answers exactly. *)

From S2P Require Import Prelude VectorHash HashTable.
Local Open Scope Z_scope.
Local Open Scope machine_scope.


(** ** The size of the table *)

Lemma smear_bits v x n i :
  0 < n → 0 ≤ i → (∀ i, 0 ≤ i → Z.testbit x i = true ↔ ∃ j, 0 ≤ j < n ∧ Z.testbit v (i + j) = true) →
  Z.testbit (smear x n) i = true ↔ ∃ j, 0 ≤ j < 2 * n ∧ Z.testbit v (i + j) = true.
Proof.
  intros Hn Hi Hx. unfold smear. rewrite Z.lor_spec, Z.shiftr_spec, orb_true_iff, !Hx by lia. split.
  - intros [(j & Hj & Hv)|(j & Hj & Hv)]; [exists j|exists (n + j)]; (split; [lia|]); [done|]. by replace (i + (n + j)) with (i + n + j) by lia.
  - intros (j & Hj & Hv). destruct (Z.lt_ge_cases j n); [left; exists j|right; exists (j - n)]; (split; [lia|]); [done|].
    by replace (i + n + (j - n)) with (i + j) by lia.
Qed.

Lemma smeared v i : 0 ≤ i → Z.testbit (fold_left smear [1; 2; 4; 8; 16; 32] v) i = true ↔ ∃ j, 0 ≤ j < 64 ∧ Z.testbit v (i + j) = true.
Proof.
  intros Hi. assert (∀ i, 0 ≤ i → Z.testbit v i = true ↔ ∃ j, 0 ≤ j < 1 ∧ Z.testbit v (i + j) = true) as B0.
  { clear i Hi. intros i Hi. split; [intros Hv; exists 0; by rewrite Z.add_0_r|]. intros (j & Hj & Hv). by replace (i + j) with i in Hv by lia. }
  pose proof (λ i Hi, smear_bits v _ 1 i ltac:(lia) Hi B0) as B1. pose proof (λ i Hi, smear_bits v _ 2 i ltac:(lia) Hi B1) as B2.
  pose proof (λ i Hi, smear_bits v _ 4 i ltac:(lia) Hi B2) as B3. pose proof (λ i Hi, smear_bits v _ 8 i ltac:(lia) Hi B3) as B4.
  pose proof (λ i Hi, smear_bits v _ 16 i ltac:(lia) Hi B4) as B5. exact (smear_bits v _ 32 i ltac:(lia) Hi B5).
Qed.

Lemma NextPowerOfTwo_spec v : 1 ≤ v ≤ 2 ^ 63 → NextPowerOfTwo v = 2 ^ Z.log2_up v.
Proof.
  intros Hv. unfold NextPowerOfTwo. rewrite (wrap_id 64 (v - 1)) by (split; lia). destruct (decide (v = 1)) as [->|Hne]; [done|].
  assert (0 < v - 1 < 2 ^ 63) as Hv1 by lia. rewrite Z.log2_up_eqn by lia. replace (Z.pred v) with (v - 1) by lia.
  assert (0 ≤ Z.log2 (v - 1) < 63) as Hl by (split; [apply Z.log2_nonneg|apply Z.log2_lt_pow2; lia]).
  assert (fold_left smear [1; 2; 4; 8; 16; 32] (v - 1) = Z.ones (Z.log2 (v - 1) + 1)) as ->.
  { apply Z.bits_inj'. intros i Hi. destruct (Z.testbit (Z.ones (Z.log2 (v - 1) + 1)) i) eqn:E.
    - apply Z.ones_spec_iff in E; [|lia]. apply smeared; [done|]. exists (Z.log2 (v - 1) - i). split; [lia|].
      replace (i + (Z.log2 (v - 1) - i)) with (Z.log2 (v - 1)) by lia. apply Z.bit_log2. lia.
    - apply not_true_iff_false. intros (j & Hj & Hb)%smeared; [|done]. apply not_true_iff_false in E. apply E, Z.ones_spec_iff; [lia|]. split; [done|].
      destruct (Z.lt_ge_cases (Z.log2 (v - 1)) (i + j)); [|lia]. by rewrite Z.bits_above_log2 in Hb by lia. }
  rewrite Z.ones_equiv. replace (Z.succ (Z.log2 (v - 1))) with (Z.log2 (v - 1) + 1) by lia. rewrite wrap_id; [lia|]. split; [lia|].
  apply Z.le_lt_trans with (2 ^ 63); [|lia]. replace (Z.pred (2 ^ (Z.log2 (v - 1) + 1)) + 1) with (2 ^ (Z.log2 (v - 1) + 1)) by lia. apply Z.pow_le_mono_r; lia.
Qed.

(** The capacity is a power of two, of at least twice the number of rows. *)
Lemma capacity_pow2 count : 0 ≤ count ≤ 2 ^ 62 → ∃ k, 10 ≤ k ≤ 63 ∧ PointerTableCapacity count = 2 ^ k ∧ 2 * count ≤ 2 ^ k.
Proof.
  intros Hc. unfold PointerTableCapacity. rewrite wrap_id by (split; lia). destruct (decide (count = 0)) as [->|Hne]; [by exists 10|].
  rewrite NextPowerOfTwo_spec by lia. pose proof (Z.log2_log2_up_spec (count * 2)) as Hs. assert (0 ≤ Z.log2_up (count * 2) ≤ 63) as Hl.
  { split; [apply Z.log2_up_nonneg|]. apply Z.log2_up_le_pow2; lia. }
  destruct (Z.le_ge_cases 10 (Z.log2_up (count * 2))) as [Hk|Hk].
  - exists (Z.log2_up (count * 2)). split; [lia|]. rewrite Z.max_l by (apply Z.pow_le_mono_r; lia). split; [done|]. lia.
  - exists 10. split; [lia|]. pose proof (Z.pow_le_mono_r 2 _ 10 ltac:(lia) Hk). rewrite Z.max_r by done. split; [done|]. lia.
Qed.

(** ** Chains *)

Section Chains.
  Context `{TableKeysOk R}.

(** The rows from [p] on. *)
Fixpoint chain (m : gmap Z (entry R)) (p : Z) (l : list Z) : Prop :=
  match l with
  | [] => p = 0
  | q :: l => p = q ∧ q ≠ 0 ∧ ∃ e, m !! q = Some e ∧ chain m e.(eslot) l
  end.

Lemma chain_frame m p l q e : q ∉ l → chain m p l → chain (<[q := e]> m) p l.
Proof.
  revert p. induction l as [|x l IH]; intros p Hq; [done|]. intros (-> & Hx0 & ex & Hx & Hl). split_and!; [done|done|]. exists ex.
  rewrite lookup_insert_ne by set_solver. split; [done|]. apply IH; set_solver.
Qed.

Context (K : Z → R) (mask : Z).

(** The hash of the row at [q], whose key is [K q]. *)
Let HK (q : Z) : Z := row_hash_of 1 (K q).

(** Each chain holds the rows of its bucket. *)
Definition buckets (ptrs : list Z) (m : memory R) (rows : list Z) : Prop :=
  ∀ b p, ptrs !! b = Some p → ∃ l, chain m.(mrows) p l ∧ NoDup l ∧ ∀ q, q ∈ l ↔ q ∈ rows ∧ Z.land (HK q) mask = Z.of_nat b.

(** The rows [done_] are in the table, the rows [todo] are not. *)
Record inserting (capacity : nat) (ptrs : list Z) (m : memory R) (done_ todo : list Z) : Prop := {
  in_capacity : length ptrs = capacity;
  in_nodup : NoDup (done_ ++ todo);
  in_nonnull : ∀ q, q ∈ done_ ++ todo → q ≠ 0;
  in_done : ∀ q, q ∈ done_ → ∃ s, m.(mrows) !! q = Some (mkRow (K q) s);
  in_todo : ∀ q, q ∈ todo → m.(mrows) !! q = Some (mkRow (K q) (HK q));
  in_buckets : buckets ptrs m done_
}.

Lemma load_hashes_ok (m : memory R) rows : (∀ q, q ∈ rows → m.(mrows) !! q = Some (mkRow (K q) (HK q))) → load_hashes m rows = Ret (HK <$> rows).
Proof.
  intros Hm. unfold load_hashes. destruct (ofold_prefix (λ pre hs, hs = HK <$> pre) (λ hs row, let* e := deref (m.(mrows) !! row) in Ret (hs ++ [e.(eslot)])) rows []) as (hs & E & ->); [done| |done].
  intros pre q hs (post & Hl) ->. rewrite Hm by (rewrite Hl; set_solver). orun. eexists. split; [done|]. by rewrite fmap_app.
Qed.

Context (capacity : nat) (Hmask : ∀ q, 0 ≤ Z.land (HK q) mask < Z.of_nat capacity).

Lemma insert_hash_ok ptrs m done_ q todo :
  inserting capacity ptrs m done_ (q :: todo) →
  ∃ ptrs' m', insert_hash (ptrs, m) (Z.land (HK q) mask, q) = Ret (ptrs', m') ∧ inserting capacity ptrs' m' (done_ ++ [q]) todo ∧ m'.(mnext) = m.(mnext) ∧ dom m'.(mrows) = dom m.(mrows).
Proof.
  intros [Hcap Hnd Hnn Hdone Htodo Hb]. pose proof (Hmask q) as Hq. set (b := Z.land (HK q) mask) in *.
  assert ((q ∉ done_) ∧ (q ∉ todo)) as [Hqd Hqt].
  { apply NoDup_app in Hnd as (_ & Hdt & [Hqt _]%NoDup_cons). split; [|done]. intros Hqd. apply (Hdt q Hqd). left. }
  destruct (lookup_lt_is_Some_2 ptrs (Z.to_nat b)) as [head Hhead]; [lia|]. assert (read ptrs b = Ret head) as Er by (rewrite <- (Z2Nat.id b) by lia; by apply read_lookup).
  unfold insert_hash. cbn [fst snd]. rewrite Er. orun. unfold set_slot. rewrite (Htodo q ltac:(left)). orun.
  eexists _, _. split; [done|]. split; [|split; [done|]]; cbn [mrows mnext ekey].
  2:{ rewrite dom_insert_L. assert (q ∈ dom m.(mrows)); [|set_solver]. apply elem_of_dom. rewrite (Htodo q ltac:(left)). eauto. }
  split; cbn [mrows].
  - by rewrite length_insert.
  - by rewrite <- app_assoc.
  - intros x. rewrite <- app_assoc. apply Hnn.
  - intros x [Hx|Hx%list_elem_of_singleton]%elem_of_app; [rewrite lookup_insert_ne by (by intros ->); by apply Hdone|subst x; rewrite lookup_insert_eq; eauto].
  - intros x Hx. rewrite lookup_insert_ne by (by intros ->). apply Htodo. by right.
  - intros b' p Hp. destruct (decide (b' = Z.to_nat b)) as [->|Hne].
    + rewrite list_lookup_insert_eq in Hp by lia. injection Hp as <-. destruct (Hb _ _ Hhead) as (l & Hl & Hln & Hlq). exists (q :: l).
      assert (q ∉ l) as Hql by (rewrite Hlq; tauto). split_and!.
      * split_and!; [done|apply Hnn; set_solver|]. eexists. cbn [mrows]. rewrite lookup_insert_eq. split; [done|]. by apply chain_frame.
      * by constructor.
      * intros x. rewrite elem_of_cons, Hlq, elem_of_app, list_elem_of_singleton, Z2Nat.id by lia. unfold b. naive_solver.
    + rewrite list_lookup_insert_ne in Hp by done. destruct (Hb _ _ Hp) as (l & Hl & Hln & Hlq). exists l. split_and!; [|done|].
      * apply chain_frame; [|done]. rewrite Hlq. tauto.
      * intros x. rewrite Hlq, elem_of_app, list_elem_of_singleton. split; [tauto|]. intros [[Hx| ->] Hxb]; [done|]. fold b in Hxb. lia.
Qed.

Lemma finalize_chunk_ok ptrs m done_ rows todo :
  inserting capacity ptrs m done_ (rows ++ todo) →
  ∃ ptrs' m', finalize_chunk mask (ptrs, m) rows = Ret (ptrs', m') ∧ inserting capacity ptrs' m' (done_ ++ rows) todo ∧ m'.(mnext) = m.(mnext) ∧ dom m'.(mrows) = dom m.(mrows).
Proof.
  intros Hin. unfold finalize_chunk. cbn [snd]. rewrite load_hashes_ok by (intros q Hq; apply (in_todo _ _ _ _ _ Hin); set_solver). orun. unfold InsertHashes.
  assert (zip ((λ h, Z.land h mask) <$> (HK <$> rows)) rows = (λ q, (Z.land (HK q) mask, q)) <$> rows) as -> by (clear; induction rows; csimpl; congruence).
  revert ptrs m done_ Hin. induction rows as [|q rows IH]; intros ptrs m done_ Hin; [exists ptrs, m; by rewrite app_nil_r|].
  csimpl. destruct (insert_hash_ok ptrs m done_ q (rows ++ todo) Hin) as (p1 & m1 & E1 & I1 & Hn1 & Hd1). rewrite E1. orun.
  destruct (IH p1 m1 _ I1) as (p2 & m2 & E2 & I2 & Hn2 & Hd2). exists p2, m2. rewrite E2, <- app_assoc in *. split_and!; [done|done|congruence|congruence].
Qed.

Lemma finalize_chunks_ok chunks ptrs m done_ :
  inserting capacity ptrs m done_ (concat chunks) →
  ∃ ptrs' m', ofold (finalize_chunk mask) chunks (ptrs, m) = Ret (ptrs', m') ∧ inserting capacity ptrs' m' (done_ ++ concat chunks) [] ∧ m'.(mnext) = m.(mnext) ∧ dom m'.(mrows) = dom m.(mrows).
Proof.
  revert ptrs m done_. induction chunks as [|c chunks IH]; intros ptrs m done_ Hin; [exists ptrs, m; by rewrite app_nil_r|].
  cbn [concat ofold] in *. destruct (finalize_chunk_ok ptrs m done_ c _ Hin) as (p1 & m1 & E1 & I1 & Hn1 & Hd1). rewrite E1. orun.
  destruct (IH p1 m1 _ I1) as (p2 & m2 & E2 & I2 & Hn2 & Hd2). exists p2, m2. rewrite E2, <- app_assoc in *. split_and!; [done|done|congruence|congruence].
Qed.
End Chains.
(** ** Probing a table *)

Section Probing.
  Context `{TableKeysOk R} (K : Z → R) (mask : Z) (capacity : nat) (map : list Z) (m : memory R) (rows : list Z).
  Context (Hins : inserting K mask capacity map m rows []) (Hbucket : ∀ r : R, 0 ≤ Z.land (row_hash_of 1 r) mask < Z.of_nat capacity).

(** Whether some row of [l] has the key [r]. *)
Definition found_in (l : list Z) (r : R) : bool := existsb (λ q, key_equal r (K q)) l.

Lemma found_invalid r : all_valid r = false → found_in rows r = false.
Proof.
  intros Hr. apply not_true_iff_false. intros (q & _ & Hq)%existsb_exists. apply not_true_iff_false in Hr. apply Hr.
  unfold all_valid, key_equal in *. rewrite forallb_forall in *. intros c Hc. by apply (equal_valid _ _ _ (Hq c Hc)).
Qed.

Definition bucket (r : R) : Z := Z.land (row_hash_of 1 r) mask.

Definition head (r : R) : Z := default 0 (map !! Z.to_nat (bucket r)).

(** A row of keys still to be looked for: its pointer is at a chain that decides it. *)
Definition pending (n : nat) (r : R) (p : Z) : Prop :=
  ∃ l, chain m.(mrows) p l ∧ (length l ≤ n)%nat ∧ (∀ q, q ∈ l → q ∈ rows) ∧ found_in l r = found_in rows r.

Lemma chain_null l : chain m.(mrows) 0 l → l = [].
Proof. destruct l as [|q l]; [done|]. intros (<- & ? & _). done. Qed.

Lemma pending_null n r : pending n r 0 → found_in rows r = false.
Proof. intros (l & Hl%chain_null & _ & _ & <-). by subst l. Qed.

Lemma rows_bounded l : NoDup l → (∀ q, q ∈ l → q ∈ rows) → (length l ≤ size m.(mrows))%nat.
Proof.
  intros Hl Hq. rewrite <- size_dom. rewrite <- (size_list_to_set (C := gset Z)) by done. apply subseteq_size. intros q Hx%elem_of_list_to_set.
  destruct (in_done _ _ _ _ _ _ _ Hins q (Hq q Hx)) as (s & Hs). apply elem_of_dom. eauto.
Qed.

Lemma head_pending r : map !! Z.to_nat (bucket r) = Some (head r) ∧ pending (size m.(mrows)) r (head r).
Proof.
  pose proof (Hbucket r) as Hb. fold (bucket r) in Hb. destruct (lookup_lt_is_Some_2 map (Z.to_nat (bucket r))) as [p Hp]; [rewrite (in_capacity _ _ _ _ _ _ _ Hins); lia|].
  assert (head r = p) as -> by (unfold head; by rewrite Hp). split; [done|]. destruct (in_buckets _ _ _ _ _ _ _ Hins _ _ Hp) as (l & Hl & Hnd & Hq). exists l.
  assert (∀ q, q ∈ l → q ∈ rows) as Hin by (intros q; rewrite Hq; tauto). split_and!; [done|by apply rows_bounded|done|].
  apply eq_true_iff_eq. unfold found_in. rewrite !existsb_exists. setoid_rewrite <- list_elem_of_In. split; intros (q & Hx & E); exists q; (split; [|done]); [by apply Hin|].
  apply Hq. split; [done|]. rewrite <- (equal_hash 1 r (K q) E). fold (bucket r). lia.
Qed.

Lemma pending_row n r p : p ≠ 0 → pending n r p →
  ∃ e, m.(mrows) !! p = Some e ∧ (key_equal r e.(ekey) = true → found_in rows r = true) ∧
    (key_equal r e.(ekey) = false → pending (pred n) r e.(eslot)).
Proof.
  intros Hp (l & Hl & Hn & Hq & Hf). destruct l as [|q l]; [done|]. destruct Hl as (-> & _ & e & He & Hl). exists e. split; [done|].
  destruct (in_done _ _ _ _ _ _ _ Hins q (Hq q ltac:(left))) as (s & Hs). rewrite Hs in He. injection He as <-. cbn [ekey eslot] in *. rewrite <- Hf. unfold found_in in *. cbn [existsb]. split.
  - by intros ->.
  - intros E. exists l. cbn [length existsb] in *. rewrite E in Hf. split_and!; [done|lia|set_solver|done].
Qed.

(** The state of a scan: the rows [S] are still looked for, the others are decided. *)
Record scanning (keys : keys_chunk R) (n : nat) (S : list Z) (ss : ScanStructure) : Prop := {
  sc_count : ss.(scan_count) = Z.of_nat (length S);
  sc_sel : selects true ss.(sel_vector) S;
  sc_sizes : length ss.(sel_vector) = Z.to_nat STANDARD_VECTOR_SIZE ∧ length ss.(pointers) = Z.to_nat STANDARD_VECTOR_SIZE ∧ length ss.(found_match) = Z.to_nat STANDARD_VECTOR_SIZE;
  sc_nodup : NoDup S;
  sc_in : in_chunk keys S;
  sc_pending : ∀ idx r, idx ∈ S → keys.(krows) !! Z.to_nat idx = Some r →
    ∃ p, ss.(pointers) !! Z.to_nat idx = Some (Some p) ∧ p ≠ 0 ∧ pending n r p ∧ ss.(found_match) !! Z.to_nat idx = Some false;
  sc_decided : ∀ idx r, 0 ≤ idx → idx ∉ S → keys.(krows) !! Z.to_nat idx = Some r → ss.(found_match) !! Z.to_nat idx = Some (found_in rows r)
}.

Context (keys : keys_chunk R) (Hsize : keys_size keys ≤ STANDARD_VECTOR_SIZE).

Lemma in_chunk_row l idx : in_chunk keys l → idx ∈ l → ∃ r, keys.(krows) !! Z.to_nat idx = Some r ∧ key_row keys idx = Ret r ∧ 0 ≤ idx < keys_size keys.
Proof.
  intros Hl Hi. unfold in_chunk in Hl. rewrite Forall_forall in Hl. specialize (Hl idx Hi). destruct (key_row_in keys idx Hl) as (r & Hr & Er). by exists r.
Qed.

(** Changing the pointers of rows one after the other. *)
Definition pointing (l pre : list Z) (before after : R → Z) (ps : list (option Z)) : Prop :=
  length ps = Z.to_nat STANDARD_VECTOR_SIZE ∧
  ∀ idx r, idx ∈ l → keys.(krows) !! Z.to_nat idx = Some r → ps !! Z.to_nat idx = Some (Some (if decide (idx ∈ pre) then after r else before r)).

Lemma bucket_loop own sel l hashes :
  selects own sel l → in_chunk keys l → hashed 1 keys l hashes →
  ∃ ps, ofold (bucket_of mask own sel hashes) (seqZ 0 (Z.of_nat (length l))) (replicate (Z.to_nat STANDARD_VECTOR_SIZE) None) = Ret ps ∧
    length ps = Z.to_nat STANDARD_VECTOR_SIZE ∧ ∀ idx r, idx ∈ l → keys.(krows) !! Z.to_nat idx = Some r → ps !! Z.to_nat idx = Some (Some (bucket r)).
Proof.
  intros Hs Hl [Hhl Hh]. rewrite (ofold_selected own sel l _ (λ ps idx, let* h := get hashes idx in put_at ps idx (Z.land h mask)) _ Hs).
  2:{ intros s i idx Ei. unfold bucket_of. by rewrite Ei. }
  apply (ofold_prefix (λ pre ps, length ps = Z.to_nat STANDARD_VECTOR_SIZE ∧ ∀ idx r, idx ∈ pre → keys.(krows) !! Z.to_nat idx = Some r → ps !! Z.to_nat idx = Some (Some (bucket r)))).
  - split; [by rewrite length_replicate|]. by intros idx r ?%elem_of_nil.
  - intros pre idx ps (post & El) [Hlen Hpre]. assert (idx ∈ l) as Hi by (rewrite El; set_solver). destruct (in_chunk_row l idx Hl Hi) as (r & Hr & _ & Hr0).
    destruct (Hh idx Hi) as (r' & Hr' & E). assert (r' = r) as -> by congruence. rewrite (get_lookup_Z hashes idx _ ltac:(lia) E). orun.
    rewrite put_lookup_Z by (rewrite Hlen; lia). eexists. split; [done|]. split; [by rewrite length_insert|]. intros j rj Hj Hrj. destruct (decide (j = idx)) as [->|Hne].
    + rewrite list_lookup_insert_eq by lia. assert (rj = r) as -> by congruence. done.
    + assert (j ∈ pre) as Hjp by set_solver. destruct (in_chunk_row l j Hl) as (_ & _ & _ & Hj0); [rewrite El; set_solver|].
      rewrite list_lookup_insert_ne by lia. by apply Hpre.
Qed.

(** One more pointer. *)
Lemma pointing_step l pre before after ps idx r :
  in_chunk keys l → idx ∈ l → idx ∉ pre → keys.(krows) !! Z.to_nat idx = Some r → pointing l pre before after ps →
  get ps idx = Ret (before r) ∧ put_at ps idx (after r) = Ret (<[Z.to_nat idx := Some (after r)]> ps) ∧ pointing l (pre ++ [idx]) before after (<[Z.to_nat idx := Some (after r)]> ps).
Proof.
  intros Hl Hi Hn Hr [Hlen Hp]. destruct (in_chunk_row l idx Hl Hi) as (_ & _ & _ & Hi0). pose proof (Hp idx r Hi Hr) as Hpi. rewrite decide_False in Hpi by done. split_and!.
  - apply get_lookup_Z; [lia|done].
  - apply put_lookup_Z. lia.
  - split; [by rewrite length_insert|]. intros j rj Hj Hrj. destruct (decide (j = idx)) as [->|Hne].
    + rewrite list_lookup_insert_eq by lia. rewrite decide_True by set_solver. congruence.
    + destruct (in_chunk_row l j Hl Hj) as (_ & _ & _ & Hj0). rewrite list_lookup_insert_ne by lia. rewrite (Hp j rj Hj Hrj).
      destruct (decide (j ∈ pre)); [rewrite decide_True by set_solver|rewrite decide_False by set_solver]; done.
Qed.

Definition head_kept (idx : Z) : bool := match keys.(krows) !! Z.to_nat idx with Some r => negb (head r =? 0) | None => false end.

Lemma first_row_compact own ixs st :
  ofold (first_row map own) ixs st =
  ofold (compact (λ ps idx, let* b := get ps idx in let* p := read map b in let* ps := put_at ps idx p in Ret (ps, negb (p =? 0))) own) ixs st.
Proof.
  revert st. induction ixs as [|i ixs IH]; intros [[ps sel] n]; [done|]. cbn [ofold]. unfold first_row at 1, compact at 1. cbn [fst snd]. destruct (current_index own sel i) as [idx| | |]; try done. orun.
  destruct (get ps idx) as [b| | |]; try done. orun. destruct (read map b) as [p| | |]; try done. orun. destruct (put_at ps idx p) as [ps'| | |]; try done. orun.
  unfold keep_row. cbn [fst snd]. destruct (p =? 0); cbn [negb]; [apply IH|]. destruct (put_at sel n idx); try done. orun. apply IH.
Qed.

Lemma first_rows_ok own sel l ps :
  selects own sel l → in_chunk keys l → NoDup l → (length l ≤ length sel)%nat → pointing l [] bucket head ps →
  ∃ ps' sel', ofold (first_row map own) (seqZ 0 (Z.of_nat (length l))) (ps, sel, 0) = Ret (ps', sel', Z.of_nat (length (kept head_kept l))) ∧
    pointing l l bucket head ps' ∧ selects true sel' (kept head_kept l) ∧ length sel' = length sel.
Proof.
  intros Hs Hl Hnd Hlen Hp. rewrite first_row_compact. apply (compact_ok _ head_kept (λ pre, pointing l pre bucket head) l); [|done|done|done].
  intros pre idx post ps1 El Hpp. assert (idx ∈ l) as Hi by (rewrite El; set_solver). destruct (in_chunk_row l idx Hl Hi) as (r & Hr & _).
  assert (idx ∉ pre) as Hn by (rewrite El in Hnd; apply NoDup_app in Hnd as (_ & Hd & _); intros Hx; apply (Hd idx Hx); left).
  destruct (pointing_step l pre bucket head ps1 idx r Hl Hi Hn Hr Hpp) as (Eg & Ep & Hpp'). rewrite Eg. orun. destruct (head_pending r) as [Hh _]. pose proof (Hbucket r) as Hb.
  fold (bucket r) in Hb. assert (read map (bucket r) = Ret (head r)) as -> by (rewrite <- (Z2Nat.id (bucket r)) by lia; by apply read_lookup). orun. rewrite Ep. orun. eexists. split; [|done]. unfold head_kept. by rewrite Hr.
Qed.

Lemma not_found_yet idx : (idx < Z.to_nat STANDARD_VECTOR_SIZE)%nat → replicate (Z.to_nat STANDARD_VECTOR_SIZE) false !! idx = Some false.
Proof. intros Hi. by apply lookup_replicate_2. Qed.

Lemma row_in_vector idx r : 0 ≤ idx → keys.(krows) !! Z.to_nat idx = Some r → 0 ≤ idx < STANDARD_VECTOR_SIZE.
Proof. intros Hi Hr%lookup_lt_Some. unfold keys_size in Hsize. lia. Qed.

Lemma valid_rows_spec idx r : 0 ≤ idx → keys.(krows) !! Z.to_nat idx = Some r → idx ∈ valid_rows keys ↔ all_valid r = true.
Proof.
  intros Hi Hr. unfold valid_rows, row_all. rewrite list_elem_of_filter, elem_of_rows, Hr. apply lookup_lt_Some in Hr. unfold keys_size. naive_solver lia.
Qed.

Lemma Probe_ok t :
  masks_ok keys → t.(equality_types) = 0%nat → t.(hash_map) = Some map → t.(bitmask) = Some mask →
  ∃ ss S, Probe t keys = Ret ss ∧ scanning keys (size m.(mrows)) S ss ∧ ss.(finished) = false.
Proof.
  intros Hm Ht Hmap Hmask. unfold Probe.
  destruct (PrepareKeys_ok keys (replicate (Z.to_nat STANDARD_VECTOR_SIZE) None) Hm) as (own & sel & E & Hs & Hsl); [rewrite length_replicate; unfold STANDARD_VECTOR_SIZE in *; lia|].
  rewrite length_replicate in Hsl. rewrite E. orun. clear E. destruct (Z.eqb_spec (Z.of_nat (length (valid_rows keys))) 0) as [E0|_].
  { eexists _, []. split; [done|]. split; [|done]. assert (valid_rows keys = []) as Hv by (destruct (valid_rows keys); simpl in *; [done|lia]).
    split; cbn [scan_count sel_vector pointers found_match]; rewrite ?length_replicate; [done|by exists sel|done|constructor|constructor|by intros idx r ?%elem_of_nil|].
    intros idx r Hi _ Hr. pose proof (row_in_vector idx r Hi Hr). rewrite not_found_yet by lia. rewrite found_invalid; [done|]. apply not_true_iff_false.
    rewrite <- (valid_rows_spec idx r Hi Hr), Hv. apply not_elem_of_nil. }
  destruct (hash_rows_ok t keys own sel _ Hs (valid_rows_in keys) Hsize) as (hs & Eh & Hh). rewrite Eh. orun. rewrite Ht in Hh. rewrite Hmask. orun.
  destruct (bucket_loop own sel _ hs Hs (valid_rows_in keys) Hh) as (ps & Eb & Hpl & Hpb). rewrite Eb. orun. rewrite Hmap. orun.
  assert (NoDup (valid_rows keys)) as Hnd by apply NoDup_filter, NoDup_seqZ. assert (length (valid_rows keys) ≤ length sel)%nat as Hlen.
  { rewrite Hsl. unfold valid_rows. rewrite length_filter, length_seqZ. lia. }
  destruct (first_rows_ok own sel _ ps Hs (valid_rows_in keys) Hnd Hlen) as (ps' & sel' & Ef & [Hl' Hp'] & Hs' & Hsl').
  { split; [done|]. intros idx r Hi Hr. rewrite decide_False by apply not_elem_of_nil. by apply Hpb. }
  rewrite Ef. orun. eexists _, (kept head_kept (valid_rows keys)). split; [done|]. split; [|done]. unfold kept.
  split; cbn [scan_count sel_vector pointers found_match fst snd]; rewrite ?length_replicate; [done|done|by rewrite Hsl'|by apply NoDup_filter| | |].
  - apply Forall_forall. intros idx [_ Hi]%list_elem_of_filter. pose proof (valid_rows_in keys) as Hin. unfold in_chunk in Hin. rewrite Forall_forall in Hin. by apply Hin.
  - intros idx r [Hk Hi]%list_elem_of_filter Hr. destruct (in_chunk_row _ idx (valid_rows_in keys) Hi) as (_ & _ & _ & Hi0). exists (head r). pose proof (Hp' idx r Hi Hr) as Hpi.
    rewrite decide_True in Hpi by done. unfold head_kept in Hk. rewrite Hr in Hk. split_and!; [done|by intros E; rewrite E in Hk|by apply head_pending|apply not_found_yet; lia].
  - intros idx r Hi Hn Hr. pose proof (row_in_vector idx r Hi Hr). rewrite not_found_yet by lia. destruct (all_valid r) eqn:Ev; [|by rewrite found_invalid].
    assert (idx ∈ valid_rows keys) as Hx by (by apply (valid_rows_spec idx r Hi Hr)). destruct (head_pending r) as [_ Hp]. destruct (Z.eqb_spec (head r) 0) as [E0|E0].
    + rewrite E0 in Hp. by rewrite (pending_null _ _ Hp).
    + exfalso. apply Hn, list_elem_of_filter. split; [|done]. unfold head_kept. rewrite Hr. by apply Z.eqb_neq in E0 as ->.
Qed.

(** Comparing the keys of the rows [S] with the rows at their pointers. *)
Section Step.
  Context (n : nat) (S : list Z) (ss : ScanStructure) (Hscan : scanning keys n S ss).

Definition row_at (idx : Z) : option (R * entry R) :=
  r ← keys.(krows) !! Z.to_nat idx; p ← mjoin (ss.(pointers) !! Z.to_nat idx); e ← m.(mrows) !! p; Some (r, e).

Definition matching (cols : list nat) (idx : Z) : bool := match row_at idx with Some (r, e) => forallb (column_equal r e.(ekey)) cols | None => false end.

Lemma row_at_ok idx : idx ∈ S → ∃ r p e, row_at idx = Some (r, e) ∧ key_row keys idx = Ret r ∧ keys.(krows) !! Z.to_nat idx = Some r ∧ get ss.(pointers) idx = Ret p ∧
  m.(mrows) !! p = Some e ∧ p ≠ 0 ∧ pending n r p ∧ 0 ≤ idx < keys_size keys ∧ ss.(pointers) !! Z.to_nat idx = Some (Some p).
Proof.
  intros Hi. destruct (in_chunk_row S idx (sc_in _ _ _ _ Hscan) Hi) as (r & Hr & Er & Hi0). destruct (sc_pending _ _ _ _ Hscan idx r Hi Hr) as (p & Hp & Hp0 & Hpend & _).
  destruct (pending_row n r p Hp0 Hpend) as (e & He & _). exists r, p, e. split_and!; try done; [unfold row_at; rewrite Hr; csimpl; rewrite Hp; csimpl; by rewrite He|apply get_lookup_Z; [lia|done]|lia|lia].
Qed.

Lemma match_column_ok col l nos : (∀ idx, idx ∈ l → idx ∈ S) →
  ofold (match_column keys m ss.(pointers) col) l ([], nos) = Ret (filter (λ idx, matching [col] idx = true) l, nos ++ filter (λ idx, matching [col] idx ≠ true) l).
Proof.
  intros HS. destruct (ofold_prefix (λ pre st, st = (filter (λ idx, matching [col] idx = true) pre, nos ++ filter (λ idx, matching [col] idx ≠ true) pre))
    (match_column keys m ss.(pointers) col) l ([], nos)) as (st & E & Hst); [by rewrite !filter_nil, app_nil_r| |by rewrite E, Hst].
  intros pre idx st (post & El) ->. destruct (row_at_ok idx) as (r & p & e & Hra & Er & _ & Ep & He & _); [apply HS; rewrite El; set_solver|].
  unfold match_column. rewrite Er. orun. rewrite Ep. orun. rewrite He. orun. rewrite !filter_app, !filter_cons, !filter_nil. unfold matching. rewrite Hra. cbn [forallb]. rewrite andb_true_r.
  destruct (column_equal r (ekey e) col); eexists; (split; [done|]); cbn [fst snd].
  - rewrite decide_True, decide_False by auto. by rewrite !app_nil_r.
  - rewrite decide_False, decide_True by auto. by rewrite app_nil_r, app_assoc.
Qed.

Lemma Match_ok : ∃ yes no, Match keys m ss.(pointers) S = Ret (yes, no) ∧ yes = filter (λ idx, matching (seq 0 key_arity) idx = true) S ∧ yes ++ no ≡ₚ S.
Proof.
  unfold Match. destruct (ofold_prefix (λ cols st, st.1 = filter (λ idx, matching cols idx = true) S ∧ st.1 ++ st.2 ≡ₚ S)
    (λ st col, ofold (match_column keys m ss.(pointers) col) st.1 ([], st.2)) (seq 0 key_arity) (S, [])) as ([yes no] & E & Hy & Hp).
  - cbn [fst snd]. rewrite app_nil_r. split; [|done]. assert (∀ l : list Z, (∀ idx, idx ∈ l → idx ∈ S) → filter (λ idx, matching [] idx = true) l = l) as Hid; [|by rewrite Hid].
    induction l as [|idx l IH]; intros HS; [done|]. rewrite filter_cons, decide_True, IH; [done|set_solver|]. destruct (row_at_ok idx) as (r & p & e & Hra & _); [set_solver|].
    unfold matching. by rewrite Hra.
  - intros cols col [yes no] _ [Hy Hp]. cbn [fst snd] in *. rewrite match_column_ok; [|intros idx Hi; rewrite <- Hp; set_solver]. eexists. split; [done|]. cbn [fst snd]. split.
    + rewrite Hy, list_filter_filter. apply filter_ext_in. intros idx Hi. unfold matching. destruct (row_at idx) as [[r e]|]; [|naive_solver].
      rewrite forallb_app, andb_true_iff. tauto.
    + rewrite <- Hp. rewrite (Permutation_app_comm no), app_assoc. f_equiv. clear. induction yes as [|x yes IH]; [done|].
      rewrite !filter_cons. destruct (decide (matching [col] x = true)); [rewrite decide_False by auto|rewrite decide_True by auto]; csimpl; [by rewrite IH|].
      by rewrite <- Permutation_middle, IH.
  - exists yes, no. done.
Qed.

Lemma ResolvePredicates_ok : ∃ yes no, ResolvePredicates keys m ss = Ret (yes, no) ∧ yes = filter (λ idx, matching (seq 0 key_arity) idx = true) S ∧ yes ++ no ≡ₚ S.
Proof.
  unfold ResolvePredicates, selected. rewrite (sc_count _ _ _ _ Hscan). rewrite (ofold_selected true ss.(sel_vector) S _ (λ l idx, Ret (l ++ [idx])) _ (sc_sel _ _ _ _ Hscan)).
  2:{ intros s i idx Ei. unfold current_index in Ei. by rewrite Ei. }
  destruct (ofold_prefix (λ pre l, l = pre) (λ l idx, Ret (l ++ [idx])) S []) as (l & E & ->); [done|by intros; subst; eexists|]. rewrite E. orun. apply Match_ok.
Qed.

Lemma matching_spec idx r e : row_at idx = Some (r, e) → matching (seq 0 key_arity) idx = key_equal r e.(ekey).
Proof. intros Hra. unfold matching. by rewrite Hra. Qed.

Lemma mark_found_ok l found :
  Forall (λ idx, 0 ≤ idx < Z.of_nat (length found)) l →
  ∃ found', ofold mark_found l found = Ret found' ∧ length found' = length found ∧
    (∀ idx, idx ∈ l → found' !! Z.to_nat idx = Some true) ∧ (∀ idx, 0 ≤ idx → idx ∉ l → found' !! Z.to_nat idx = found !! Z.to_nat idx).
Proof.
  intros Hl. apply (ofold_prefix (λ pre f, length f = length found ∧ (∀ idx, idx ∈ pre → f !! Z.to_nat idx = Some true) ∧ (∀ idx, 0 ≤ idx → idx ∉ pre → f !! Z.to_nat idx = found !! Z.to_nat idx))).
  - split_and!; [done|by intros idx ?%elem_of_nil|done].
  - intros pre idx f (post & El) (Hlen & Hyes & Hno). rewrite Forall_forall in Hl. assert (∀ j, j ∈ pre ++ [idx] → 0 ≤ j < Z.of_nat (length found)) as Hb by (intros j Hj; apply Hl; rewrite El; set_solver).
    pose proof (Hb idx ltac:(set_solver)) as Hi. unfold mark_found. rewrite (proj2 (Z.leb_le _ _)), (proj2 (Z.ltb_lt _ _)) by lia. eexists. split; [done|].
    split_and!; [by rewrite length_insert| |].
    + intros j Hj. destruct (decide (j = idx)) as [->|Hne]; [by rewrite list_lookup_insert_eq by lia|]. pose proof (Hb j Hj). rewrite list_lookup_insert_ne by lia. apply Hyes. set_solver.
    + intros j Hj Hn. rewrite list_lookup_insert_ne by (assert (j ≠ idx) by set_solver; lia). apply Hno; set_solver.
Qed.

Definition next_row (idx : Z) : Z := match row_at idx with Some (_, e) => e.(eslot) | None => 0 end.

Lemma advance_compact l st :
  ofold (advance m) l st =
  ofold (λ st idx, let* r := (let* p := get st.1.1 idx in let* e := deref (m.(mrows) !! p) in let* ps := put_at st.1.1 idx e.(eslot) in Ret (ps, negb (e.(eslot) =? 0))) in keep_row st r idx) l st.
Proof.
  revert st. induction l as [|idx l IH]; intros [[ps sel] k]; [done|]. cbn [ofold]. unfold advance at 1. cbn [fst snd].
  destruct (get ps idx) as [p| | |]; try done. orun. destruct (m.(mrows) !! p) as [e|]; try done. orun. destruct (put_at ps idx (eslot e)) as [ps'| | |]; try done. orun.
  unfold keep_row. cbn [fst snd]. destruct (eslot e =? 0); cbn [negb]; [apply IH|]. destruct (put_at sel k idx); try done. orun. apply IH.
Qed.

(** After the pointers of the rows [no] advanced. *)
Lemma advance_ok no : (∀ idx, idx ∈ no → idx ∈ S) → NoDup no → (length no ≤ length ss.(sel_vector))%nat →
  let S' := filter (λ idx, negb (next_row idx =? 0) = true) no in
  ∃ ps sel, ofold (advance m) no (ss.(pointers), ss.(sel_vector), 0) = Ret (ps, sel, Z.of_nat (length S')) ∧ selects true sel S' ∧
    length sel = length ss.(sel_vector) ∧ length ps = length ss.(pointers) ∧ ∀ idx, idx ∈ no → ps !! Z.to_nat idx = Some (Some (next_row idx)).
Proof.
  intros HS Hnd Hlen S'. rewrite advance_compact. pose proof (sc_sizes _ _ _ _ Hscan) as (_ & Hpl & _).
  destruct (compact_list_ok (λ ps idx, let* p := get ps idx in let* e := deref (m.(mrows) !! p) in let* ps := put_at ps idx e.(eslot) in Ret (ps, negb (e.(eslot) =? 0)))
    (λ idx, negb (next_row idx =? 0)) (λ pre ps, length ps = length ss.(pointers) ∧ (∀ idx, idx ∈ pre → ps !! Z.to_nat idx = Some (Some (next_row idx))) ∧
      ∀ idx, 0 ≤ idx → idx ∉ pre → ps !! Z.to_nat idx = ss.(pointers) !! Z.to_nat idx) no) with (sel := ss.(sel_vector)) (s := ss.(pointers)) as (ps & sel & E & (Hl & Hyes & _) & Hs & Hsl).
  - intros pre idx post ps El (Hl & Hyes & Hno). assert (∀ j, j ∈ pre ++ [idx] → 0 ≤ j < Z.of_nat (length ss.(pointers))) as Hb.
    { intros j Hj. destruct (row_at_ok j) as (_ & _ & _ & _ & _ & _ & _ & _ & _ & _ & Hj0 & _); [apply HS; rewrite El; set_solver|]. lia. }
    destruct (row_at_ok idx) as (r & p & e & Hra & _ & _ & _ & He & _ & _ & Hi0 & Hp); [apply HS; rewrite El; set_solver|].
    assert (idx ∉ pre) as Hn by (rewrite El in Hnd; apply NoDup_app in Hnd as (_ & Hd & _); intros Hx; apply (Hd idx Hx); left). pose proof (Hb idx ltac:(set_solver)) as Hbi.
    assert (get ps idx = Ret p) as -> by (apply get_lookup_Z; [lia|]; by rewrite Hno by (done || lia)). orun. rewrite He. orun. rewrite put_lookup_Z by lia. orun. unfold next_row at 1. rewrite Hra.
    eexists. split; [done|]. split_and!; [by rewrite length_insert| |].
    + intros j Hj. destruct (decide (j = idx)) as [->|Hne]; [rewrite list_lookup_insert_eq by lia; unfold next_row; by rewrite Hra|]. pose proof (Hb j Hj). rewrite list_lookup_insert_ne by lia. apply Hyes. set_solver.
    + intros j Hj Hjn. rewrite list_lookup_insert_ne by (assert (j ≠ idx) by set_solver; lia). apply Hno; set_solver.
  - done.
  - split_and!; [done|by intros idx ?%elem_of_nil|done].
  - exists ps, sel. split_and!; done.
Qed.

Lemma scan_step :
  ∃ ss' S', (let* r := ResolvePredicates keys m ss in let* found := ofold mark_found r.1 ss.(found_match) in
    AdvancePointers m (mkScan ss.(pointers) ss.(scan_count) ss.(sel_vector) found ss.(finished)) r.2) = Ret ss' ∧ scanning keys (pred n) S' ss' ∧ ss'.(finished) = ss.(finished).
Proof.
  destruct ResolvePredicates_ok as (yes & no & E & Hyes & Hperm). rewrite E. orun. cbn [fst snd]. pose proof (sc_sizes _ _ _ _ Hscan) as (Hsl & Hpl & Hfl).
  assert (∀ idx, idx ∈ yes ∨ idx ∈ no ↔ idx ∈ S) as HS by (intros idx; rewrite <- Hperm; by rewrite elem_of_app).
  assert (NoDup (yes ++ no)) as Hnd by (rewrite Hperm; exact (sc_nodup _ _ _ _ Hscan)). apply NoDup_app in Hnd as (_ & Hdisj & Hnd).
  destruct (mark_found_ok yes ss.(found_match)) as (found & Ef & Hfl' & Hfy & Hfn).
  { apply Forall_forall. intros idx Hi. destruct (row_at_ok idx) as (_ & _ & _ & _ & _ & _ & _ & _ & _ & _ & Hi0 & _); [apply HS; by left|]. lia. }
  rewrite Ef. orun. destruct (advance_ok no) as (ps & sel & Ea & Hs & Hsl' & Hpl' & Hps); [intros idx Hi; apply HS; by right|done| |].
  { rewrite Hsl. assert (length no ≤ length S)%nat by (rewrite <- Hperm, length_app; lia). pose proof (sc_sel _ _ _ _ Hscan) as [rest Hr]. rewrite <- Hsl, Hr, length_app, length_fmap. lia. }
  unfold AdvancePointers. cbn [pointers sel_vector found_match finished]. rewrite Ea. orun. eexists _, _. split; [done|]. split; [|done].
  split; cbn [scan_count sel_vector pointers found_match fst snd]; [done|done|split_and!; congruence|by apply NoDup_filter| | |].
  - apply Forall_forall. intros idx [_ Hi]%list_elem_of_filter. destruct (row_at_ok idx) as (_ & _ & _ & _ & _ & _ & _ & _ & _ & _ & Hi0 & _); [apply HS; by right|done].
  - intros idx r [Hk Hi]%list_elem_of_filter Hr. destruct (row_at_ok idx) as (r' & p & e & Hra & _ & Hr' & _ & He & Hp0 & Hpend & Hi0 & _); [apply HS; by right|].
    assert (r' = r) as -> by congruence. destruct (pending_row n r p Hp0 Hpend) as (e' & He' & _ & Hnext). assert (e' = e) as -> by congruence.
    assert (next_row idx = e.(eslot)) as En by (unfold next_row; by rewrite Hra). rewrite En in Hk. exists e.(eslot). split_and!.
    + rewrite <- En. by apply Hps.
    + intros E0. by rewrite E0 in Hk.
    + apply Hnext. rewrite <- (matching_spec idx r e Hra). apply not_true_iff_false. intros Hm. apply (Hdisj idx); [|done]. rewrite Hyes. apply list_elem_of_filter. split; [done|]. apply HS. by right.
    + rewrite Hfn by (done || lia || (intros Hy; by apply (Hdisj idx))). destruct (sc_pending _ _ _ _ Hscan idx r) as (_ & _ & _ & _ & Hf); [apply HS; by right|done|done].
  - intros idx r Hi0 Hn Hr. destruct (decide (idx ∈ S)) as [Hi|Hi].
    + destruct (row_at_ok idx Hi) as (r' & p & e & Hra & _ & Hr' & _ & He & Hp0 & Hpend & _). assert (r' = r) as -> by congruence.
      destruct (pending_row n r p Hp0 Hpend) as (e' & He' & Hyes' & Hnext). assert (e' = e) as -> by congruence. apply HS in Hi as [Hy|Hno].
      * rewrite (Hfy idx Hy), Hyes'; [done|]. rewrite <- (matching_spec idx r e Hra). rewrite Hyes in Hy. by apply list_elem_of_filter in Hy as [? _].
      * rewrite Hfn by (done || (intros Hy; by apply (Hdisj idx))). destruct (sc_pending _ _ _ _ Hscan idx r) as (_ & _ & _ & _ & Hf); [apply HS; by right|done|]. rewrite Hf.
        assert (next_row idx = e.(eslot)) as En by (unfold next_row; by rewrite Hra). destruct (Z.eqb_spec e.(eslot) 0) as [E0|E0].
        -- assert (key_equal r e.(ekey) = false) as Hk.
           { rewrite <- (matching_spec idx r e Hra). apply not_true_iff_false. intros Hm. apply (Hdisj idx); [|done]. rewrite Hyes. apply list_elem_of_filter. split; [done|]. apply HS. by right. }
           specialize (Hnext Hk). rewrite E0 in Hnext. by rewrite (pending_null _ _ Hnext).
        -- exfalso. apply Hn, list_elem_of_filter. split; [|done]. rewrite En. by apply Z.eqb_neq in E0 as ->.
    + rewrite Hfn by (done || (intros Hy; apply Hi, HS; by left)). by apply (sc_decided _ _ _ _ Hscan).
Qed.
End Step.

Lemma scanning_done S ss : scanning keys 0 S ss → S = [].
Proof.
  intros Hsc. destruct S as [|idx S]; [done|]. destruct (in_chunk_row _ idx (sc_in _ _ _ _ Hsc) ltac:(left)) as (r & Hr & _ & Hi).
  destruct (sc_pending _ _ _ _ Hsc idx r ltac:(left) Hr) as (p & _ & Hp0 & (l & Hl & Hn & _) & _). destruct l; simpl in *; [done|lia].
Qed.

(** The loop ends within as many rounds as the longest chain has rows. *)
Lemma scan_loop_ok fuel n S ss :
  (n ≤ fuel)%nat → scanning keys n S ss → ∃ ss', scan_loop fuel keys m ss = Ret ss' ∧ scanning keys 0 [] ss' ∧ ss'.(finished) = ss.(finished).
Proof.
  revert n S ss. induction fuel as [|fuel IH]; intros n S ss Hn Hsc.
  - assert (n = 0)%nat as -> by lia. pose proof (scanning_done S ss Hsc) as ->. exists ss. cbn [scan_loop]. rewrite (sc_count _ _ _ _ Hsc). done.
  - cbn [scan_loop]. pose proof (sc_count _ _ _ _ Hsc) as Hcnt. destruct (Z.ltb_spec 0 ss.(scan_count)) as [Hlt|Hge].
    + destruct (scan_step n S ss Hsc) as (ss' & S' & E & Hsc' & Hfin). destruct (IH (pred n) S' ss' ltac:(lia) Hsc') as (ss2 & E2 & Hsc2 & Hfin2). exists ss2.
      destruct (ResolvePredicates keys m ss) as [r| | |]; try done. revert E. orun. destruct (ofold mark_found r.1 (found_match ss)) as [found| | |]; try done. orun. intros E. rewrite E. orun.
      split_and!; [done|done|congruence].
    + assert (S = []) as -> by (destruct S; simpl in *; [done|lia]). exists ss. split_and!; [done| |done]. destruct Hsc. split; try done. by intros idx r ?%elem_of_nil.
Qed.

(** The rows of the keys that were found, in order. *)
Definition found_rows : list Z := filter (λ idx, match keys.(krows) !! Z.to_nat idx with Some r => found_in rows r | None => false end = true) (seqZ 0 (keys_size keys)).

Lemma collect_found_ok found sel :
  keys_size keys ≤ Z.of_nat (length sel) → (∀ idx r, 0 ≤ idx → keys.(krows) !! Z.to_nat idx = Some r → found !! Z.to_nat idx = Some (found_in rows r)) →
  ∃ sel', ofold (collect_found found) (seqZ 0 (keys_size keys)) (sel, 0) = Ret (sel', Z.of_nat (length found_rows)) ∧ selects true sel' found_rows ∧ length sel' = length sel.
Proof.
  intros Hlen Hf. set (P idx := match keys.(krows) !! Z.to_nat idx with Some r => found_in rows r | None => false end = true).
  destruct (ofold_prefix (λ pre st, st.2 = Z.of_nat (length (filter P pre)) ∧ selects true st.1 (filter P pre) ∧ length st.1 = length sel)
    (collect_found found) (seqZ 0 (keys_size keys)) (sel, 0)) as ([sel' k] & E & Hk & Hs & Hl).
  - cbn [fst snd]. rewrite filter_nil. split_and!; [done|by exists sel|done].
  - intros pre idx [s k] (post & El) (Hk & [rest Hs] & Hl). cbn [fst snd] in *. assert (0 ≤ idx < keys_size keys) as Hi by (apply elem_of_rows; rewrite El; set_solver).
    destruct (key_row_in keys idx Hi) as (r & Hr & _). assert (length (filter P pre) < length s)%nat as Hlt.
    { pose proof (length_filter P pre) as Hp. assert (length (seqZ 0 (keys_size keys)) = length pre + Datatypes.S (length post))%nat as Hq by (rewrite El, length_app; done). rewrite length_seqZ in Hq. lia. }
    unfold collect_found. cbn [fst snd]. rewrite Hk, put_lookup by done. orun. assert (read found idx = Ret (found_in rows r)) as -> by (rewrite <- (Z2Nat.id idx) by lia; apply read_lookup, Hf; [lia|done]). orun.
    eexists. split; [done|]. cbn [fst snd]. rewrite !filter_app, filter_cons, filter_nil. assert (P idx ↔ found_in rows r = true) as HP by (unfold P; by rewrite Hr). destruct (selects_put s rest (filter P pre) idx Hlt Hs) as (rest' & Hs').
    destruct (found_in rows r); [rewrite !decide_True by (by apply HP)|rewrite !decide_False by (rewrite HP; done)]; rewrite ?app_nil_r, ?length_app, length_insert.
    + split_and!; [simpl; lia|by exists rest'|done].
    + split_and!; [done| |done]. rewrite Hs', fmap_app, <- app_assoc. by eexists.
  - exists sel'. cbn [fst snd] in *. rewrite E, Hk. done.
Qed.

Lemma Next_ok S ss sel :
  scanning keys (size m.(mrows)) S ss → ss.(finished) = false → keys_size keys ≤ Z.of_nat (length sel) →
  ∃ ss' sel', Next keys m ss sel 0 = Ret (ss', sel', Z.of_nat (length found_rows)) ∧ selects true sel' found_rows ∧ length sel' = length sel ∧ ss'.(finished) = true.
Proof.
  intros Hsc Hfin Hlen. unfold Next. rewrite Hfin. destruct (scan_loop_ok (Datatypes.S (size m.(mrows))) (size m.(mrows)) S ss ltac:(lia) Hsc) as (ss' & E & Hsc' & _). rewrite E. orun.
  destruct (collect_found_ok ss'.(found_match) sel Hlen) as (sel' & Ec & Hs & Hl); [intros idx r Hi Hr; apply (sc_decided _ _ _ _ Hsc'); [done|apply not_elem_of_nil|done]|].
  rewrite Ec. orun. eexists _, sel'. split_and!; done.
Qed.
End Probing.

(** ** The table after [Finalize] *)

Section Table.
  Context `{TableKeysOk R}.

(** The table is ready for probing and holds the keys [ks]. *)
Definition ready (t : HashTable) (m : memory R) (ks : list R) : Prop :=
  ∃ K mask capacity map rows, t.(equality_types) = 0%nat ∧ t.(hash_map) = Some map ∧ t.(bitmask) = Some mask ∧
    inserting K mask capacity map m rows [] ∧ (∀ r, 0 ≤ Z.land (row_hash_of 1 r) mask < Z.of_nat capacity) ∧ K <$> rows ≡ₚ ks.

(** The size of the pointer table is a power of two. *)
Definition map_ok (t : HashTable) : Prop :=
  match t.(hash_map) with Some map => ∃ k, 10 ≤ k ∧ Z.of_nat (length map) = 2 ^ k | None => True end.

(** The rows of a chunk of keys that are among [ks], in order. *)
Definition rows_among (keys : keys_chunk R) (ks : list R) : list Z :=
  filter (λ idx, match keys.(krows) !! Z.to_nat idx with Some r => existsb (key_equal r) ks | None => false end = true) (seqZ 0 (keys_size keys)).

Lemma existsb_Permutation {A} (f : A → bool) (l l' : list A) : l ≡ₚ l' → existsb f l = existsb f l'.
Proof. intros Hl. apply eq_true_iff_eq. rewrite !existsb_exists. setoid_rewrite <- list_elem_of_In. by setoid_rewrite Hl. Qed.

Lemma existsb_fmap {A B} (f : B → bool) (g : A → B) (l : list A) : existsb f (g <$> l) = existsb (λ x, f (g x)) l.
Proof. induction l; csimpl; congruence. Qed.

Lemma find_ok t m ks keys sel :
  ready t m ks → masks_ok keys → keys_size keys ≤ STANDARD_VECTOR_SIZE → keys_size keys ≤ Z.of_nat (length sel) →
  ∃ ss ss' sel', Probe t keys = Ret ss ∧ Next keys m ss sel 0 = Ret (ss', sel', Z.of_nat (length (rows_among keys ks))) ∧ selects true sel' (rows_among keys ks) ∧ length sel' = length sel.
Proof.
  intros (K & mask & capacity & map & rows & Ht & Hmap & Hmask & Hins & Hb & HK) Hm Hsz Hlen.
  destruct (Probe_ok K mask capacity map m rows Hins Hb keys Hsz t Hm Ht Hmap Hmask) as (ss & S & Ep & Hsc & Hfin).
  destruct (Next_ok K mask capacity map m rows Hins Hb keys Hsz S ss sel Hsc Hfin Hlen) as (ss' & sel' & En & Hs & Hl & _). exists ss, ss', sel'.
  assert (found_rows K rows keys = rows_among keys ks) as E; [|rewrite <- E; done].
  apply filter_ext_in. intros idx _. destruct (krows keys !! Z.to_nat idx) as [r|]; [|done]. unfold found_in. by rewrite <- (existsb_fmap (key_equal r) K), (existsb_Permutation _ _ _ HK).
Qed.

Lemma mask_bound h k : 0 ≤ k → 0 ≤ Z.land h (2 ^ k - 1) < 2 ^ k.
Proof. intros Hk. rewrite land_pow2_pred by done. apply Z.mod_pos_bound. lia. Qed.

Lemma pointer_table_ok t :
  map_ok t → Count t ≤ 2 ^ 62 → ∃ k, 10 ≤ k ∧ (InitializePointerTable t).(hash_map) = Some (replicate (Z.to_nat (2 ^ k)) 0) ∧ (InitializePointerTable t).(bitmask) = Some (2 ^ k - 1).
Proof.
  intros Hm Hc. assert (0 ≤ Count t) as Hc0 by (unfold Count; lia). destruct (capacity_pow2 (Count t) ltac:(lia)) as (k & Hk & Ek & _).
  unfold InitializePointerTable, map_ok in *. cbn [hash_map bitmask]. rewrite Ek. destruct (hash_map t) as [map|]; [|exists k; split; [lia|done]]. destruct Hm as (k' & Hk' & ->).
  destruct (2 ^ k' <? 2 ^ k); [exists k|exists k']; (split; [lia|done]).
Qed.

(** The keys of rows in memory. *)
Lemma rows_keys `{Inhabited R} (m : memory R) ps ks lo :
  Forall2 (λ p r, lo ≤ p < m.(mnext) ∧ holds_row 1 m p r) ps ks →
  ∃ K, K <$> ps = ks ∧ ∀ p, p ∈ ps → m.(mrows) !! p = Some (mkRow (K p) (row_hash_of 1 (K p))).
Proof.
  intros Hall. exists (λ p, match m.(mrows) !! p with Some e => e.(ekey) | None => inhabitant end). split.
  - induction Hall as [|p r ps ks' [_ Hh] _ IH]; [done|]. csimpl. rewrite IH. unfold holds_row in Hh. by rewrite Hh.
  - intros p [i Hi]%list_elem_of_lookup. destruct (Forall2_lookup_l _ _ _ _ _ Hall Hi) as (r & _ & _ & Hh). unfold holds_row in Hh. by rewrite Hh.
Qed.

Lemma Finalize_table_ok `{Inhabited R} lo t m ks :
  collected lo t m ks → Z.of_nat (length ks) ≤ 2 ^ 62 → map_ok t →
  let t1 := InitializePointerTable (Unpartition t) in (0 < length t1.(data_collection))%nat →
  ∃ t' m', Finalize t1 0 (length t1.(data_collection)) m = Ret (t', m') ∧ ready t' m' ks ∧ map_ok t' ∧
    Count t' = Z.of_nat (length ks) ∧ t'.(sink_collection) = t1.(sink_collection) ∧ m'.(mnext) = m.(mnext) ∧ t'.(equality_types) = 0%nat.
Proof.
  intros [Ht Hp Hlo (ps & Hps & Hnd & Hall)] Hlen Hm t1 Hchunks. pose proof (Forall2_length _ _ _ Hall) as Hpl.
  assert (data_collection t1 = concat t.(sink_collection)) as Hdata by done.
  assert (Count (Unpartition t) = Z.of_nat (length ks)) as Hcount by (unfold Count, Unpartition; cbn [data_collection]; by rewrite Hps, Hpl).
  destruct (pointer_table_ok (Unpartition t) Hm ltac:(lia)) as (k & Hk & Hmap & Hmask). destruct (rows_keys m ps ks lo Hall) as (K & HK & Hrows).
  fold t1 in Hmap, Hmask. assert (equality_types t1 = 0%nat) as Ht1 by exact Ht. clearbody t1.
  destruct (finalize_chunks_ok K (2 ^ k - 1) (Z.to_nat (2 ^ k))) with (chunks := data_collection t1) (ptrs := replicate (Z.to_nat (2 ^ k)) 0) (m := m) (done_ := @nil Z)
    as (map' & m' & E & Hins & Hnx & _).
  - intros q. pose proof (mask_bound (row_hash_of 1 (K q)) k ltac:(lia)). lia.
  - rewrite Hdata. split; [by rewrite length_replicate|by rewrite app_nil_l, Hps| |by intros q ?%elem_of_nil| |].
    + intros q. rewrite app_nil_l, Hps. intros [i Hi]%list_elem_of_lookup. destruct (Forall2_lookup_l _ _ _ _ _ Hall Hi) as (r & _ & Hr & _). lia.
    + intros q. rewrite Hps. apply Hrows.
    + intros b p [-> _]%lookup_replicate. exists []. split_and!; [done|constructor|]. intros q. split; [by intros ?%elem_of_nil|by intros [?%elem_of_nil _]].
  - unfold Finalize. rewrite Hmap, Hmask. orun. rewrite decide_True by lia. rewrite Nat.sub_0_r, drop_0, firstn_all, E. orun. eexists _, m'. split; [done|]. cbn [fst snd]. split_and!; [| | |done|done|done].
    + exists K, (2 ^ k - 1), (Z.to_nat (2 ^ k)), map', (concat (data_collection t1)). cbn [equality_types hash_map bitmask]. split_and!; [done|done|done|done| |].
      * intros r. pose proof (mask_bound (row_hash_of 1 r) k ltac:(lia)). lia.
      * rewrite Hdata, Hps. by rewrite HK.
    + unfold map_ok. cbn [hash_map]. exists k. split; [lia|]. rewrite (in_capacity _ _ _ _ _ _ _ Hins). lia.
    + unfold Count. cbn [data_collection]. by rewrite Hdata, Hps, Hpl.
Qed.
End Table.
