(* ===== verification/HashFilter.v ===== *)
(** * HashFilter: the hash filter, built and used

    [hash_filter/hash_filter.cpp] and [hash_filter_use_kernel.cpp], with the
    steps of [physical_create_bf.cpp] that build one: what the sources have
    when [UseHashFilter] is defined.  A filter is built by finalize tasks from
    the buffered chunks, and then selects rows of a chunk.  The theorems are on
    keys made of cells, whose hash and comparison are an interface; scalar
    values of [Values] discharge it. *)

From S2P Require Import Prelude ValueHash Values VectorHash HashTable HashProbe.
Local Open Scope Z_scope.
Local Open Scope machine_scope.

(** ** Keys of cells *)

Class Cells (V : Type) := { cell_hash : V → Z; cell_equal : V → V → bool }.

Class CellsOk (V : Type) `{Cells V} : Prop := cell_equal_hash : ∀ x y, cell_equal x y = true → cell_hash x = cell_hash y.

Section Cell.
  Context `{Cells V}.

Definition row_cell (r : list (option V)) (c : nat) : option V := mjoin (r !! c).

Definition null_hash (x : option V) : Z := match x with Some x => cell_hash x | None => NULL_HASH end.

(** Keys of [S n] columns: [VectorOperations::Hash] of the first column, then
    [CombineHash]; the comparison of two values that are not NULL. *)
Definition cell_keys (n : nat) : TableKeys (list (option V)) := {|
  key_arity := S n;
  key_valid r c := match row_cell r c with Some _ => true | None => false end;
  row_hash_of k r := fold_left (λ h c, CombineHashScalar h (null_hash (row_cell r c))) (seq 1 (Nat.min k (S n) - 1)) (null_hash (row_cell r 0));
  column_equal l r c := match row_cell l c, row_cell r c with Some x, Some y => cell_equal x y | _, _ => false end
|}.

(** A chunk: for each column whether it has a validity mask, and its values. *)
Record data_chunk := mkData { dcols : list (bool * list (option V)); dcount : nat }.

(** A chunk of some of the columns. *)
Definition pick (cols : list nat) (c : data_chunk) : outcome (keys_chunk (list (option V))) :=
  let* cs := ofold (λ cs i, let* x := vec_at c.(dcols) i in Ret (cs ++ [x])) cols [] in
  Ret (mkKeys ((λ i, (λ col : bool * list (option V), mjoin (col.2 !! i)) <$> cs) <$> seq 0 c.(dcount)) cs.*1).

(** ** The filter *)

Record HashFilter := mkHashFilter {
  hash_table : HashTable;
  BoundColsApplied : list nat;
  BoundColsBuilt : list nat
}.

Definition set_table (f : HashFilter) (t : HashTable) : HashFilter := mkHashFilter t f.(BoundColsApplied) f.(BoundColsBuilt).

Definition CreateEmpty (f : HashFilter) : HashFilter := set_table f new_table.

Definition isEmpty (f : HashFilter) : bool := Count f.(hash_table) =? 0.

Context (n : nat) `{TupleChunks}.

(** [PushNextBatch] of the builders: a table of its own, merged into that of the filter. *)
Definition PushNextBatch (f : HashFilter) (values : keys_chunk (list (option V))) (m : memory (list (option V))) : outcome (HashFilter * memory (list (option V))) :=
  let* r := Build (H := cell_keys n) new_table values m in
  Ret (set_table f (Merge f.(hash_table) r.1), r.2).

(** A finalize task: the chunks are pushed, then the table is built. *)
Definition push_chunk (st : HashFilter * memory (list (option V))) (c : data_chunk) : outcome (HashFilter * memory (list (option V))) :=
  let* input := pick st.1.(BoundColsBuilt) c in PushNextBatch st.1 input st.2.

Definition FinishTable (f : HashFilter) (m : memory (list (option V))) : outcome (HashFilter * memory (list (option V))) :=
  let t := InitializePointerTable (Unpartition f.(hash_table)) in
  let chunk_count := length t.(data_collection) in
  if decide (0 < chunk_count)%nat then let* r := Finalize t 0 chunk_count m in Ret (set_table f r.1, r.2) else Ret (set_table f t, m).

Definition run_task (st : HashFilter * memory (list (option V))) (chunks : list data_chunk) : outcome (HashFilter * memory (list (option V))) :=
  let* st := ofold push_chunk chunks st in FinishTable st.1 st.2.

(** [Find] and [HashFilterUseKernel::filter]. *)
Definition Find (f : HashFilter) (m : memory (list (option V))) (values : keys_chunk (list (option V))) (sel : list (option Z)) (result_count : Z)
    : outcome (list (option Z) * Z) :=
  let* ss := Probe (H := cell_keys n) f.(hash_table) values in
  let* r := Next (H := cell_keys n) values m ss sel result_count in
  Ret (r.1.2, r.2).

Definition kernel_filter (f : HashFilter) (m : memory (list (option V))) (input : data_chunk) (sel : list (option Z)) : outcome (list (option Z) * Z) :=
  if isEmpty f then Ret (sel, 0) else
  let* chunk := pick f.(BoundColsApplied) input in Find f m chunk sel 0.
End Cell.

Arguments data_chunk V : clear implicits.

(** ** What the filter keeps *)

Section Exact.
  Context `{CellsOk V} `{TupleChunksOk} (n : nat).

#[local] Instance keys0 : TableKeys (list (option V)) := cell_keys n.

#[local] Instance keys0_ok : TableKeysOk (list (option V)).
Proof.
  split.
  - intros l r c Hc. cbn in *. by destruct (row_cell l c).
  - intros k l r Hk. unfold key_equal in Hk. rewrite forallb_forall in Hk.
    assert (∀ c, (c ≤ n)%nat → null_hash (row_cell l c) = null_hash (row_cell r c)) as Hc.
    { intros c Hc. assert (In c (seq 0 (S n))) as Hin by (apply in_seq; lia). specialize (Hk c Hin). cbn in Hk. destruct (row_cell l c), (row_cell r c); try done. by apply cell_equal_hash. }
    cbn. rewrite (Hc 0%nat) by lia. generalize (null_hash (row_cell r 0)). assert (Forall (λ c, (c ≤ n)%nat) (seq 1 (Nat.min k (S n) - 1))) as Hall by (apply Forall_forall; intros c Hx%elem_of_seq; lia).
    induction Hall as [|c cs Hcn _ IH]; intros h; [done|]. cbn. by rewrite (Hc c Hcn), IH.
Qed.

(** A chunk whose columns have a value for each row, and a mask where one is NULL. *)
Definition chunk_ok (c : data_chunk V) : Prop :=
  Z.of_nat c.(dcount) ≤ STANDARD_VECTOR_SIZE ∧ Forall (λ col, length col.2 = c.(dcount) ∧ (col.1 = false → Forall is_Some col.2)) c.(dcols).

(** The keys of the rows of a chunk. *)
Definition chunk_keys (cols : list nat) (c : data_chunk V) : list (list (option V)) :=
  (λ i, (λ col, (c.(dcols) !! col) ≫= λ x, mjoin (x.2 !! i)) <$> cols) <$> seq 0 c.(dcount).

(** The rows of a chunk that equal one of the keys [ks] on all columns, NULLs being equal to nothing. *)
Definition rows_equal_to (cols : list nat) (c : data_chunk V) (ks : list (list (option V))) : list Z :=
  filter (λ idx, match chunk_keys cols c !! Z.to_nat idx with Some r => existsb (key_equal r) ks | None => false end = true) (seqZ 0 (Z.of_nat c.(dcount))).

Definition cols_ok (cols : list nat) (c : data_chunk V) : Prop := length cols = S n ∧ Forall (λ col, (col < length c.(dcols))%nat) cols.

Lemma picked (cols : list nat) (c : data_chunk V) :
  Forall (λ col, (col < length c.(dcols))%nat) cols →
  ∃ cs, ofold (λ cs i, let* x := vec_at c.(dcols) i in Ret (cs ++ [x])) cols [] = Ret cs ∧ Forall2 (λ col x, c.(dcols) !! col = Some x) cols cs.
Proof.
  intros Hc. apply (ofold_prefix (λ pre cs, Forall2 (λ col x, c.(dcols) !! col = Some x) pre cs)); [constructor|].
  intros pre col cs (post & El) Hpre. rewrite El in Hc. apply Forall_app in Hc as [_ [Hcol _]%Forall_cons]. apply lookup_lt_is_Some_2 in Hcol as [x Hx].
  unfold vec_at. rewrite Hx. orun. eexists. split; [done|]. apply Forall2_app; [done|by constructor].
Qed.

Lemma pick_ok (cols : list nat) (c : data_chunk V) :
  chunk_ok c → cols_ok cols c → ∃ ks, pick cols c = Ret ks ∧ ks.(krows) = chunk_keys cols c ∧ masks_ok ks ∧ keys_size ks = Z.of_nat c.(dcount).
Proof.
  intros [_ Hc] [Hn Hcols]. destruct (picked cols c Hcols) as (cs & E & Hcs). unfold pick. rewrite E. orun. eexists. split; [done|]. cbn [krows]. split_and!.
  - apply list_fmap_ext. intros _ i _. clear -Hcs. induction Hcs as [|col x cols cs Hx _ IH]; [done|]. csimpl. rewrite IH. by rewrite Hx.
  - intros k Hk. cbn [masked]. pose proof (Forall2_length _ _ _ Hcs) as Hl. destruct (lookup_lt_is_Some_2 cs k) as [x Hx]; [change (k < S n)%nat in Hk; lia|]. exists x.1. split; [by rewrite list_lookup_fmap, Hx|].
    intros Hm. destruct (Forall2_lookup_r _ _ _ _ _ Hcs Hx) as (col & _ & Hcol). destruct (Forall_lookup_1 _ _ _ _ Hc Hcol) as [Hlen Hsome]. specialize (Hsome Hm).
    cbn [krows]. apply Forall_forall. intros r (i & -> & Hi%elem_of_seq)%list_elem_of_fmap. cbn. unfold row_cell. rewrite list_lookup_fmap, Hx. cbn.
    destruct (lookup_lt_is_Some_2 x.2 i) as [y Hy]; [lia|]. rewrite Hy. cbn. by destruct (Forall_lookup_1 _ _ _ _ Hsome Hy) as [z ->].
  - unfold keys_size. cbn [krows]. by rewrite length_fmap, length_seq.
Qed.

(** The keys of all rows of the chunks. *)
Definition all_keys (cols : list nat) (chunks : list (data_chunk V)) : list (list (option V)) := mjoin (chunk_keys cols <$> chunks).

Definition without_nulls (ks : list (list (option V))) : list (list (option V)) := filter (λ r, all_valid r = true) ks.

Lemma push_batch_ok lo f m ks keys :
  collected lo f.(hash_table) m ks → masks_ok keys → keys_size keys ≤ STANDARD_VECTOR_SIZE →
  ∃ f' m', PushNextBatch n f keys m = Ret (f', m') ∧ collected lo f'.(hash_table) m' (ks ++ kept_keys keys) ∧
    f'.(BoundColsBuilt) = f.(BoundColsBuilt) ∧ f'.(BoundColsApplied) = f.(BoundColsApplied) ∧ f'.(hash_table).(hash_map) = f.(hash_table).(hash_map).
Proof.
  intros Hco Hm Hsz. pose proof (co_lo _ _ _ _ Hco) as Hlo. unfold PushNextBatch. change (cell_keys n) with keys0.
  destruct (Build_table_ok m.(mnext) new_table m [] keys (new_table_ok m ltac:(lia)) Hm Hsz) as (t & m' & E & Ht & Hle). rewrite E. orun. eexists _, m'. split; [done|]. cbn [hash_table set_table BoundColsBuilt BoundColsApplied fst].
  split_and!; [|done|done|done]. apply (Merge_ok lo _ m' ks m.(mnext)); [by apply (collected_le _ _ m)|done|lia|].
  destruct Hco as [_ _ _ (ps & Hps & _ & Hall)]. intros p. rewrite Hps. intros [i Hi]%list_elem_of_lookup. destruct (Forall2_lookup_l _ _ _ _ _ Hall Hi) as (r & _ & Hr & _). lia.
Qed.

Lemma push_chunks_ok lo f m ks chunks :
  collected lo f.(hash_table) m ks → Forall chunk_ok chunks → Forall (cols_ok f.(BoundColsBuilt)) chunks →
  ∃ f' m', ofold (push_chunk n) chunks (f, m) = Ret (f', m') ∧ collected lo f'.(hash_table) m' (ks ++ without_nulls (all_keys f.(BoundColsBuilt) chunks)) ∧
    f'.(BoundColsBuilt) = f.(BoundColsBuilt) ∧ f'.(BoundColsApplied) = f.(BoundColsApplied) ∧ f'.(hash_table).(hash_map) = f.(hash_table).(hash_map).
Proof.
  revert f m ks. induction chunks as [|c chunks IH]; intros f m ks Hco Hok Hcols; [exists f, m; by rewrite app_nil_r|].
  apply Forall_cons in Hok as [Hc Hok]. apply Forall_cons in Hcols as [Hcol Hcols]. cbn [ofold]. unfold push_chunk at 1. cbn [fst snd].
  destruct (pick_ok _ c Hc Hcol) as (ks1 & E1 & Hrows & Hmask & Hsize). rewrite E1. orun. destruct (push_batch_ok lo f m ks ks1 Hco Hmask) as (f1 & m1 & E2 & Hco1 & Hb1 & Ha1 & Hm1); [destruct Hc; lia|].
  rewrite E2. orun. rewrite <- Hb1 in Hcols. destruct (IH f1 m1 _ Hco1 Hok Hcols) as (f2 & m2 & E3 & Hco2 & Hb2 & Ha2 & Hm2). exists f2, m2.
  split_and!; [done| |congruence|congruence|congruence]. assert (without_nulls (all_keys f.(BoundColsBuilt) (c :: chunks)) = kept_keys ks1 ++ without_nulls (all_keys f1.(BoundColsBuilt) chunks)) as ->; [|by rewrite app_assoc].
  unfold without_nulls, all_keys, kept_keys. csimpl. by rewrite filter_app, Hrows, Hb1.
Qed.

(** Between tasks: nothing is left to put into the table. *)
Definition idle (f : HashFilter) (m : memory (list (option V))) : Prop := (∃ lo, collected lo f.(hash_table) m []) ∧ map_ok f.(hash_table).

(** After a task: the table holds the keys [ks], or nothing. *)
Definition holds_keys (f : HashFilter) (m : memory (list (option V))) (ks : list (list (option V))) : Prop :=
  Count f.(hash_table) = Z.of_nat (length ks) ∧ (ks ≠ [] → ready f.(hash_table) m ks).

Lemma drained_ok t m lo ks m' t' :
  collected (R := list (option V)) lo t m ks → t'.(equality_types) = 0%nat → t'.(sink_collection) = replicate (length t.(sink_collection)) [] → 0 < m'.(mnext) → collected m'.(mnext) t' m' [].
Proof.
  intros [_ Hp Hlo _] Ht' Hs Hm'. split; [done|by rewrite Hs, length_replicate|lia|]. exists []. split_and!; [|constructor|constructor].
  rewrite Hs. clear. induction (length t.(sink_collection)) as [|k IH]; [done|exact IH].
Qed.

Lemma run_task_ok f m chunks :
  idle f m → Forall chunk_ok chunks → Forall (cols_ok f.(BoundColsBuilt)) chunks → Z.of_nat (length (all_keys f.(BoundColsBuilt) chunks)) ≤ 2 ^ 62 →
  ∃ f' m', run_task n (f, m) chunks = Ret (f', m') ∧ idle f' m' ∧ holds_keys f' m' (without_nulls (all_keys f.(BoundColsBuilt) chunks)) ∧
    f'.(BoundColsBuilt) = f.(BoundColsBuilt) ∧ f'.(BoundColsApplied) = f.(BoundColsApplied).
Proof.
  intros [[lo Hco] Hmap] Hok Hcols Hlen. destruct (push_chunks_ok lo f m [] chunks Hco Hok Hcols) as (f1 & m1 & E & Hco1 & Hb & Ha & Hm). rewrite app_nil_l in Hco1.
  set (ks := without_nulls (all_keys f.(BoundColsBuilt) chunks)) in *. assert (Z.of_nat (length ks) ≤ 2 ^ 62) as Hk by (pose proof (length_filter (λ r, all_valid r = true) (all_keys f.(BoundColsBuilt) chunks)); unfold ks, without_nulls; lia).
  assert (map_ok f1.(hash_table)) as Hmap1 by (unfold map_ok in *; by rewrite Hm). unfold run_task. rewrite E. orun. unfold FinishTable. cbn [fst snd].
  case_decide as Hd.
  - destruct (Finalize_table_ok lo f1.(hash_table) m1 ks Hco1 Hk Hmap1 Hd) as (t2 & m2 & E2 & Hready & Hmap2 & Hcount & Hsink & Hnx & Ht2). rewrite E2. orun.
    eexists _, m2. split; [done|]. cbn [hash_table set_table BoundColsBuilt BoundColsApplied fst]. split_and!; [|split; done|done|done]. split; [|done]. exists m2.(mnext).
    apply (drained_ok f1.(hash_table) m1 lo ks); [done|done|done|]. pose proof (co_lo _ _ _ _ Hco1). lia.
  - assert (concat (sink_collection (hash_table f1)) = []) as Hnil by (change (¬ (0 < length (concat (sink_collection (hash_table f1))))%nat) in Hd; destruct (concat _); simpl in Hd; [done|lia]).
    pose proof Hco1 as [Ht1 _ _ (ps & Hps & _ & Hall)]. rewrite Hnil in Hps. apply Permutation_nil in Hps as ->. apply Forall2_nil_inv_l in Hall. eexists _, m1. split; [done|].
    cbn [hash_table set_table BoundColsBuilt BoundColsApplied]. split_and!; [|split; [unfold Count; cbn; by rewrite Hnil, Hall|done]|done|done]. split.
    + exists m1.(mnext). apply (drained_ok f1.(hash_table) m1 lo ks); [done|done|done|]. pose proof (co_lo _ _ _ _ Hco1). lia.
    + destruct (pointer_table_ok (Unpartition f1.(hash_table)) Hmap1) as (k & Hk' & Emap & _); [unfold Count; cbn; rewrite Hnil; simpl; lia|].
      change (map_ok (InitializePointerTable (Unpartition f1.(hash_table)))). unfold map_ok. rewrite Emap. exists k. rewrite length_replicate. split; [done|lia].
Qed.

(** The kernel on a filter with keys. *)
Lemma kernel_filter_ok f m ks input sel :
  holds_keys f m ks → chunk_ok input → cols_ok f.(BoundColsApplied) input → Z.of_nat input.(dcount) ≤ Z.of_nat (length sel) →
  ∃ sel', kernel_filter n f m input sel = Ret (sel', Z.of_nat (length (rows_equal_to f.(BoundColsApplied) input ks))) ∧ selects true sel' (rows_equal_to f.(BoundColsApplied) input ks).
Proof.
  intros [Hcount Hready] Hin Hcols Hsel. unfold kernel_filter, isEmpty. rewrite Hcount. destruct (Z.eqb_spec (Z.of_nat (length ks)) 0) as [E0|Hne].
  - assert (ks = []) as -> by (destruct ks; simpl in *; [done|lia]). exists sel. assert (rows_equal_to f.(BoundColsApplied) input [] = []) as ->; [|split; [done|by exists sel]].
    apply elem_of_nil_inv. intros idx [Hx _]%list_elem_of_filter. by destruct (chunk_keys _ _ !! _).
  - destruct (pick_ok _ input Hin Hcols) as (keys & E & Hrows & Hmask & Hsize). rewrite E. orun. unfold Find. change (cell_keys n) with keys0.
    destruct (find_ok f.(hash_table) m ks keys sel) as (ss & ss' & sel' & Ep & En & Hs & _); [apply Hready; by intros ->|done|destruct Hin; lia|lia|].
    rewrite Ep. orun. rewrite En. orun. exists sel'. unfold rows_among in *. rewrite Hrows, Hsize in *. done.
Qed.

Lemma without_nulls_equal (r : list (option V)) ks : existsb (key_equal r) (without_nulls ks) = existsb (key_equal r) ks.
Proof.
  apply eq_true_iff_eq. rewrite !existsb_exists. setoid_rewrite <- list_elem_of_In. split; intros (q & Hq & E); exists q; (split; [|done]).
  - by apply list_elem_of_filter in Hq as [_ ?].
  - apply list_elem_of_filter. split; [|done]. unfold all_valid, key_equal in *. rewrite forallb_forall in *. intros c Hc. specialize (E c Hc). cbn in *. by destruct (row_cell r c), (row_cell q c).
Qed.

Lemma rows_equal_without_nulls cols input ks : rows_equal_to cols input (without_nulls ks) = rows_equal_to cols input ks.
Proof. apply filter_ext_in. intros idx _. destruct (chunk_keys cols input !! Z.to_nat idx); [|done]. by rewrite without_nulls_equal. Qed.

Lemma CreateEmpty_idle f m : 0 < m.(mnext) → idle (CreateEmpty f) m.
Proof. intros Hm. split; [|done]. exists m.(mnext). by apply new_table_ok. Qed.

(** What tasks need of the buffered chunks. *)
Definition task_ok (cols : list nat) (chunks : list (data_chunk V)) : Prop :=
  Forall chunk_ok chunks ∧ Forall (cols_ok cols) chunks ∧ Z.of_nat (length (all_keys cols chunks)) ≤ 2 ^ 62.

Lemma run_tasks_ok f m tasks chunks :
  idle f m → Forall (task_ok f.(BoundColsBuilt)) (tasks ++ [chunks]) →
  ∃ f' m', ofold (run_task n) (tasks ++ [chunks]) (f, m) = Ret (f', m') ∧ holds_keys f' m' (without_nulls (all_keys f.(BoundColsBuilt) chunks)) ∧ f'.(BoundColsApplied) = f.(BoundColsApplied).
Proof.
  revert f m. induction tasks as [|c tasks IH]; intros f m Hidle Hok; apply Forall_cons in Hok as [(Hc & Hcols & Hlen) Hok];
    destruct (run_task_ok f m _ Hidle Hc Hcols Hlen) as (f1 & m1 & E & Hidle1 & Hk & Hb & Ha); cbn [app ofold]; rewrite E; orun.
  - exists f1, m1. done.
  - rewrite <- Hb in Hok. destruct (IH f1 m1 Hidle1 Hok) as (f2 & m2 & E2 & Hk2 & Ha2). exists f2, m2. rewrite <- Hb. split_and!; [done|done|congruence].
Qed.
End Exact.

Arguments rows_equal_to {V _} n.
Arguments all_keys {V}.
Arguments chunk_keys {V}.
Arguments task_ok {V} n.
Arguments chunk_ok {V}.
Arguments cols_ok {V} n.

(** ** Scalar values as cells *)

Record value_cell := mkCell { ctype : ScalarType; cdata : payload ctype; cell_fits : payload_ok ctype cdata }.

#[export] Instance value_cells : Cells value_cell := {|
  cell_hash x := Hash_of x.(ctype) x.(cdata);
  cell_equal x y := match decide (x.(ctype) = y.(ctype)) with left e => scalar_equals y.(ctype) (eq_rect _ payload x.(cdata) _ e) y.(cdata) | right _ => false end
|}.

#[export] Instance value_cells_ok : CellsOk value_cell.
Proof.
  intros [s x Hx] [s' y Hy]. cbn. case_decide as E; [|done]. subst s'. cbn. by apply scalar_equals_hash.
Qed.

(** ** Theorems *)

(** C35: A hash filter is exact.  After a finalize task has pushed the buffered
    chunks, in any number and with NULLs anywhere, and built the table, the
    kernel selects from a chunk of up to a vector of rows exactly the rows
    whose key equals the key of a buffered row, in order; no access is out of
    bounds, the walk along the chains ends, and a filter without keys selects
    nothing. *)
Theorem hash_filter_exact `{CellsOk V} `{TupleChunksOk} (n : nat) (f : HashFilter) (m : memory (list (option V))) (chunks : list (data_chunk V))
    (input : data_chunk V) (sel : list (option Z)) :
  0 < m.(mnext) → task_ok n f.(BoundColsBuilt) chunks →
  chunk_ok input → cols_ok n f.(BoundColsApplied) input → Z.of_nat input.(dcount) ≤ Z.of_nat (length sel) →
  let matches := rows_equal_to n f.(BoundColsApplied) input (all_keys f.(BoundColsBuilt) chunks) in
  ∃ f' m' sel', run_task n (CreateEmpty f, m) chunks = Ret (f', m') ∧
    kernel_filter n f' m' input sel = Ret (sel', Z.of_nat (length matches)) ∧ selects true sel' matches.
Proof.
  intros Hm (Hc & Hcols & Hlen) Hin Hain Hsel matches. destruct (run_task_ok n (CreateEmpty f) m chunks (CreateEmpty_idle n f m Hm) Hc Hcols Hlen) as (f' & m' & E & _ & Hk & _ & Ha).
  cbn in Ha. rewrite <- Ha in Hain. destruct (kernel_filter_ok n f' m' _ input sel Hk Hin Hain Hsel) as (sel' & E' & Hs). exists f', m', sel'.
  rewrite rows_equal_without_nulls, Ha in E', Hs. done.
Qed.

(** C37: only the last finalize task counts.  Every finalize task rebuilds the whole table from the rows pushed since
    the task before it, so after several tasks the filter selects the rows
    that match a row of the last task only: rows whose only partners were
    pushed by an earlier task are dropped. *)
Theorem only_last_task_counts `{CellsOk V} `{TupleChunksOk} (n : nat) (f : HashFilter) (m : memory (list (option V))) (tasks : list (list (data_chunk V)))
    (chunks : list (data_chunk V)) (input : data_chunk V) (sel : list (option Z)) :
  0 < m.(mnext) → Forall (task_ok n f.(BoundColsBuilt)) (tasks ++ [chunks]) →
  chunk_ok input → cols_ok n f.(BoundColsApplied) input → Z.of_nat input.(dcount) ≤ Z.of_nat (length sel) →
  let matches := rows_equal_to n f.(BoundColsApplied) input (all_keys f.(BoundColsBuilt) chunks) in
  ∃ f' m' sel', ofold (run_task n) (tasks ++ [chunks]) (CreateEmpty f, m) = Ret (f', m') ∧
    kernel_filter n f' m' input sel = Ret (sel', Z.of_nat (length matches)) ∧ selects true sel' matches.
Proof.
  intros Hm Hok Hin Hain Hsel matches. destruct (run_tasks_ok n (CreateEmpty f) m tasks chunks (CreateEmpty_idle n f m Hm) Hok) as (f' & m' & E & Hk & Ha).
  cbn in Ha. rewrite <- Ha in Hain. destruct (kernel_filter_ok n f' m' _ input sel Hk Hin Hain Hsel) as (sel' & E' & Hs). exists f', m', sel'.
  rewrite rows_equal_without_nulls, Ha in E', Hs. done.
Qed.

(** ** Examples *)

Definition int_cell (x : Z) : value_cell := mkCell INT64 x I.

(** Chunks of a collection with two rows each. *)
Definition sample_tuple_chunks : TupleChunks := λ cs l, cs ++ [l].

Lemma sample_tuple_chunks_ok : @TupleChunksOk sample_tuple_chunks.
Proof. intros cs l. unfold append_rows, sample_tuple_chunks. rewrite concat_app. cbn [concat]. by rewrite app_nil_r. Qed.

Definition sample_hash_filter : HashFilter := mkHashFilter new_table [1%nat; 0%nat] [0%nat; 1%nat].

(** Rows (1, 10), (NULL, 20), (3, 30), and a second chunk with (4, 40). *)
Definition sample_chunks : list (data_chunk value_cell) :=
  [mkData [(true, [Some (int_cell 1); None; Some (int_cell 3)]); (false, [Some (int_cell 10); Some (int_cell 20); Some (int_cell 30)])] 3;
   mkData [(false, [Some (int_cell 4)]); (false, [Some (int_cell 40)])] 1].

(** Rows (40, 4), (10, NULL), (20, NULL), (30, 1), (30, 3). *)
Definition sample_input : data_chunk value_cell :=
  mkData [(false, [Some (int_cell 40); Some (int_cell 10); Some (int_cell 20); Some (int_cell 30); Some (int_cell 30)]);
          (true, [Some (int_cell 4); None; None; Some (int_cell 1); Some (int_cell 3)])] 5.

Definition sample_selection : list (option Z) := replicate 8 None.

Lemma hash_filter_exact_witness :
  ∃ f' m' sel', @run_task value_cell value_cells 1 sample_tuple_chunks (CreateEmpty sample_hash_filter, mkMemory ∅ 1) sample_chunks = Ret (f', m') ∧
    kernel_filter 1 f' m' sample_input sample_selection = Ret (sel', 2) ∧ selects true sel' [0; 4].
Proof.
  assert (rows_equal_to 1 [1%nat; 0%nat] sample_input (all_keys [0%nat; 1%nat] sample_chunks) = [0; 4]) as E by (vm_compute; reflexivity).
  pose proof (@hash_filter_exact value_cell value_cells value_cells_ok sample_tuple_chunks sample_tuple_chunks_ok 1 sample_hash_filter (mkMemory ∅ 1) sample_chunks sample_input sample_selection) as Hx.
  cbv zeta in Hx. change (BoundColsApplied sample_hash_filter) with [1%nat; 0%nat] in Hx. change (BoundColsBuilt sample_hash_filter) with [0%nat; 1%nat] in Hx. rewrite E in Hx. apply Hx.
  - done.
  - split_and!; [|repeat constructor|vm_compute; congruence]. repeat constructor; cbn; try done; try (intros; discriminate); intros _; repeat constructor; eauto.
  - repeat constructor; cbn; try done; try (intros; discriminate); intros _; repeat constructor; eauto.
  - repeat constructor.
  - done.
Defined.


Lemma only_last_task_counts_witness :
  ∃ f' m' sel', ofold (@run_task value_cell value_cells 1 sample_tuple_chunks) ([take 1 sample_chunks] ++ [drop 1 sample_chunks]) (CreateEmpty sample_hash_filter, mkMemory ∅ 1) = Ret (f', m') ∧
    kernel_filter 1 f' m' sample_input sample_selection = Ret (sel', 1) ∧ selects true sel' [0].
Proof.
  assert (rows_equal_to 1 [1%nat; 0%nat] sample_input (all_keys [0%nat; 1%nat] (drop 1 sample_chunks)) = [0]) as E by (vm_compute; reflexivity).
  pose proof (@only_last_task_counts value_cell value_cells value_cells_ok sample_tuple_chunks sample_tuple_chunks_ok 1 sample_hash_filter (mkMemory ∅ 1) [take 1 sample_chunks] (drop 1 sample_chunks)
    sample_input sample_selection) as Hx.
  cbv zeta in Hx. change (BoundColsApplied sample_hash_filter) with [1%nat; 0%nat] in Hx. change (BoundColsBuilt sample_hash_filter) with [0%nat; 1%nat] in Hx. rewrite E in Hx. apply Hx.
  - done.
  - repeat (apply Forall_cons; split); [..|exact (Forall_nil_2 _)]; (split_and!; [|repeat constructor|vm_compute; congruence]);
      repeat constructor; cbn; try done; try (intros; discriminate); intros _; repeat constructor; eauto.
  - repeat constructor; cbn; try done; try (intros; discriminate); intros _; repeat constructor; eauto.
  - repeat constructor.
  - done.
Defined.
