(* ===== verification/HashParallel.v ===== *)
(** * HashParallel: inserting rows from several threads

    [Finalize] of [hash_filter/hashtable.cpp] with [parallel] set: each thread
    takes chunks of its own, reads the hashes of their rows, and puts each row
    at the head of its chain with a compare and exchange that may fail, also
    without a reason.  A schedule says which thread makes the next step; the
    theorem holds for every schedule. *)

From S2P Require Import Prelude ValueHash Values VectorHash HashTable HashProbe HashFilter.
Local Open Scope Z_scope.
Local Open Scope machine_scope.

Section Parallel.
  Context {R : Type} `{TableKeys R}.

(** ** Threads *)

(** Where a thread is in [InsertHashesLoop<true>]: before it reads the head,
    with the head, and with the head stored in the row. *)
Inductive position := Fresh | Loaded (head : Z) | Stored (head : Z).

(** A thread: the chunks it has not read, the buckets and rows of the current
    chunk still to be put in, and its position for the first of them. *)
Record inserter := mkInserter { chunks_left : list (list Z); batch : list (Z * Z); at_ : position }.

Record par_state := mkPar { table : list Z; row_memory : memory R; inserters : list inserter }.

(** One step of a thread.  The rows of a chunk are only touched by the thread
    that has the chunk, so that reading their hashes is one step. *)
Definition work (mask : Z) (weak_failure : bool) (ptrs : list Z) (m : memory R) (w : inserter) : outcome (list Z * memory R * inserter) :=
  match w.(batch) with
  | [] =>
      match w.(chunks_left) with
      | [] => Ret (ptrs, m, w)
      | rows :: cs => let* hashes := load_hashes m rows in Ret (ptrs, m, mkInserter cs (zip ((λ h, Z.land h mask) <$> hashes) rows) Fresh)
      end
  | (index, row) :: rest =>
      match w.(at_) with
      | Fresh => let* head := read ptrs index in Ret (ptrs, m, mkInserter w.(chunks_left) w.(batch) (Loaded head))
      | Loaded head => let* m := set_slot m row head in Ret (ptrs, m, mkInserter w.(chunks_left) w.(batch) (Stored head))
      | Stored head =>
          let* current := read ptrs index in
          if (current =? head) && negb weak_failure then Ret (<[Z.to_nat index := row]> ptrs, m, mkInserter w.(chunks_left) rest Fresh)
          else Ret (ptrs, m, mkInserter w.(chunks_left) w.(batch) Fresh)
      end
  end.

(** The step of a thread, and whether its exchange fails without a reason. *)
Definition par_step (mask : Z) (st : par_state) (choice : nat * bool) : outcome par_state :=
  match st.(inserters) !! choice.1 with
  | None => Ret st
  | Some w => let* r := work mask choice.2 st.(table) st.(row_memory) w in Ret (mkPar r.1.1 r.1.2 (<[choice.1 := r.2]> st.(inserters)))
  end.

Definition par_run (mask : Z) (schedule : list (nat * bool)) (st : par_state) : outcome par_state := ofold (par_step mask) schedule st.

Definition done_inserting (w : inserter) : bool := match w.(batch), w.(chunks_left) with [], [] => true | _, _ => false end.

(** [Finalize(from, to, true)] on the chunks [parts] of each thread. *)
Definition par_start (t : HashTable) (parts : list (list (list Z))) (m : memory R) : outcome par_state :=
  let* ptrs := deref t.(hash_map) in Ret (mkPar ptrs m ((λ cs, mkInserter cs [] Fresh) <$> parts)).

Definition par_finish (t : HashTable) (st : par_state) : HashTable :=
  mkTable t.(equality_types) t.(has_null) t.(sink_collection) t.(data_collection) (Some st.(table)) t.(bitmask).
End Parallel.

Arguments par_state R : clear implicits.

(** ** Every schedule *)

Section Schedules.
  Context {R : Type} `{TableKeysOk R} (K : Z → R) (mask : Z) (capacity : nat) (all : list Z).
  Context (Hmask : ∀ q, 0 ≤ Z.land (row_hash_of 1 (K q)) mask < Z.of_nat capacity).

Definition rows_of (w : inserter) : list Z := w.(batch).*2 ++ concat w.(chunks_left).

Definition rows_left (ws : list inserter) : list Z := concat (rows_of <$> ws).

Lemma rows_left_split ws i w : ws !! i = Some w → rows_left ws = rows_left (take i ws) ++ rows_of w ++ rows_left (drop (S i) ws).
Proof. intros Hw. rewrite <- (take_drop_middle ws i w Hw) at 1. unfold rows_left. by rewrite fmap_app, fmap_cons, concat_app. Qed.

Lemma rows_left_insert ws i w : (i < length ws)%nat → rows_left (<[i := w]> ws) = rows_left (take i ws) ++ rows_of w ++ rows_left (drop (S i) ws).
Proof. intros Hi. rewrite insert_take_drop by done. unfold rows_left. by rewrite fmap_app, fmap_cons, concat_app. Qed.

Lemma elem_of_rows_left ws i w q : ws !! i = Some w → q ∈ rows_of w → q ∈ rows_left ws.
Proof. intros Hw Hq. rewrite (rows_left_split _ _ _ Hw). rewrite !elem_of_app. tauto. Qed.

(** A thread's own state fits the memory. *)
Definition thread_ok (m : memory R) (w : inserter) : Prop :=
  Forall (λ ir, ir.1 = Z.land (row_hash_of 1 (K ir.2)) mask ∧ ∃ s, m.(mrows) !! ir.2 = Some (mkRow (K ir.2) s)) w.(batch) ∧
  (∀ q, q ∈ concat w.(chunks_left) → m.(mrows) !! q = Some (mkRow (K q) (row_hash_of 1 (K q)))) ∧
  (∀ ir rest head, w.(batch) = ir :: rest → w.(at_) = Stored head → m.(mrows) !! ir.2 = Some (mkRow (K ir.2) head)).

Record par_inv (done_ : list Z) (st : par_state R) : Prop := {
  pi_capacity : length st.(table) = capacity;
  pi_rows : done_ ++ rows_left st.(inserters) ≡ₚ all;
  pi_done : ∀ q, q ∈ done_ → ∃ s, st.(row_memory).(mrows) !! q = Some (mkRow (K q) s);
  pi_threads : Forall (thread_ok st.(row_memory)) st.(inserters);
  pi_buckets : buckets K mask st.(table) st.(row_memory) done_
}.

Context (Hnodup : NoDup all) (Hnonnull : ∀ q, q ∈ all → q ≠ 0).

(** Writing a row that is not the thread's. *)
Lemma thread_frame m w q e : q ∉ rows_of w → thread_ok m w → thread_ok (mkMemory (<[q := e]> m.(mrows)) m.(mnext)) w.
Proof.
  unfold rows_of. rewrite not_elem_of_app. intros [Hb Hc] (H1t & H2t & H3t). split_and!; cbn [mrows].
  - rewrite Forall_forall in *. intros ir Hir. rewrite lookup_insert_ne; [by apply H1t|]. intros ->. apply Hb. by apply list_elem_of_fmap_2.
  - intros x Hx. rewrite lookup_insert_ne by (by intros ->). by apply H2t.
  - intros ir rest head E Ea. rewrite lookup_insert_ne; [by apply (H3t ir rest)|]. intros ->. apply Hb. rewrite E. set_solver.
Qed.

Lemma step_rows done_ st i w :
  par_inv done_ st → st.(inserters) !! i = Some w → ∀ q, q ∈ rows_of w →
  (q ∉ done_) ∧ q ≠ 0 ∧ ∀ j w', j ≠ i → st.(inserters) !! j = Some w' → q ∉ rows_of w'.
Proof.
  intros Hinv Hw q Hq. pose proof (pi_rows _ _ Hinv) as Hall. rewrite (rows_left_split _ _ _ Hw) in Hall. assert (NoDup (done_ ++ rows_left (take i (inserters st)) ++ rows_of w ++ rows_left (drop (S i) (inserters st)))) as Hnd by (by rewrite Hall).
  apply NoDup_app in Hnd as (_ & Hd1 & Hnd). apply NoDup_app in Hnd as (_ & Hd2 & Hnd). apply NoDup_app in Hnd as (_ & Hd3 & _). split_and!.
  - intros Hx. apply (Hd1 q Hx). set_solver.
  - apply Hnonnull. rewrite <- Hall. set_solver.
  - intros j w' Hj Hw' Hx. destruct (Nat.lt_ge_cases j i) as [Hlt|Hge].
    + apply (Hd2 q); [|set_solver]. apply (elem_of_rows_left _ j w'); [|done]. by rewrite lookup_take_lt.
    + apply (Hd3 q Hq). apply (elem_of_rows_left _ (j - S i) w'); [|done]. rewrite lookup_drop. by replace (S i + (j - S i))%nat with j by lia.
Qed.

(** A step that changes neither the table nor the memory, nor the rows of the thread. *)
Lemma quiet_step done_ st i w w' :
  par_inv done_ st → st.(inserters) !! i = Some w → rows_of w' = rows_of w → thread_ok st.(row_memory) w' →
  par_inv done_ (mkPar st.(table) st.(row_memory) (<[i := w']> st.(inserters))).
Proof.
  intros [Hcap Hrows Hdone Hth Hb] Hw E Hok. split; cbn [table row_memory inserters]; [done| |done|by apply Forall_insert|done].
  rewrite rows_left_insert by (by eapply lookup_lt_Some). by rewrite E, <- (rows_left_split _ _ _ Hw).
Qed.

Lemma load_step done_ st i rows cs p :
  par_inv done_ st → st.(inserters) !! i = Some (mkInserter (rows :: cs) [] p) →
  ∃ hashes, load_hashes st.(row_memory) rows = Ret hashes ∧
    par_inv done_ (mkPar st.(table) st.(row_memory) (<[i := mkInserter cs (zip ((λ h, Z.land h mask) <$> hashes) rows) Fresh]> st.(inserters))).
Proof.
  intros Hinv Hw. pose proof (Forall_lookup_1 _ _ _ _ (pi_threads _ _ Hinv) Hw) as (_ & Hch & _). cbn [chunks_left concat] in Hch.
  rewrite (load_hashes_ok K) by (intros q Hq; apply Hch; set_solver). eexists. split; [done|].
  assert (zip ((λ h, Z.land h mask) <$> ((λ q, row_hash_of 1 (K q)) <$> rows)) rows = (λ q, (Z.land (row_hash_of 1 (K q)) mask, q)) <$> rows) as -> by (clear; induction rows; csimpl; congruence).
  apply (quiet_step _ _ _ _ _ Hinv Hw).
  - unfold rows_of. cbn [batch chunks_left concat fmap list_fmap]. rewrite <- list_fmap_compose, list_fmap_id. done.
  - split_and!; cbn [batch chunks_left at_].
    + apply Forall_fmap, Forall_forall. intros q Hq. split; [done|]. exists (row_hash_of 1 (K q)). apply Hch. set_solver.
    + intros q Hq. apply Hch. set_solver.
    + done.
Qed.

Lemma store_step done_ st i cs index q rest head :
  par_inv done_ st → st.(inserters) !! i = Some (mkInserter cs ((index, q) :: rest) (Loaded head)) →
  ∃ m', set_slot st.(row_memory) q head = Ret m' ∧
    par_inv done_ (mkPar st.(table) m' (<[i := mkInserter cs ((index, q) :: rest) (Stored head)]> st.(inserters))) ∧ m'.(mnext) = st.(row_memory).(mnext).
Proof.
  intros Hinv Hw. pose proof Hinv as [Hcap Hrows Hdone Hth Hb]. pose proof (Forall_lookup_1 _ _ _ _ Hth Hw) as (Hbt & Hch & _). cbn [batch chunks_left] in *.
  apply Forall_cons in Hbt as [[Hix [s Hs]] Hbt]. cbn [fst snd] in *. unfold set_slot. rewrite Hs. orun. cbn [ekey]. eexists. split; [done|]. split; [|done].
  assert (q ∈ rows_of (mkInserter cs ((index, q) :: rest) (Loaded head))) as Hq by (unfold rows_of; cbn [batch]; set_solver).
  destruct (step_rows _ _ _ _ Hinv Hw q Hq) as (Hqd & Hq0 & Hother). split; cbn [table row_memory inserters mrows]; [done| | | |].
  - rewrite rows_left_insert by (by eapply lookup_lt_Some). rewrite (rows_left_split _ _ _ Hw) in Hrows. exact Hrows.
  - intros x Hx. rewrite lookup_insert_ne by (by intros ->). by apply Hdone.
  - apply Forall_lookup. intros j w' Hj. destruct (decide (j = i)) as [->|Hne].
    + rewrite list_lookup_insert_eq in Hj by (by eapply lookup_lt_Some). injection Hj as <-.
      assert (NoDup (q :: rest.*2 ++ concat cs)) as [Hqr _]%NoDup_cons.
      { rewrite (rows_left_split _ _ _ Hw) in Hrows. rewrite <- Hrows in Hnodup. by apply NoDup_app in Hnodup as (_ & _ & (_ & _ & (Hx & _)%NoDup_app)%NoDup_app). }
      rewrite not_elem_of_app in Hqr. destruct Hqr as [Hqr Hqc]. split_and!; cbn [batch chunks_left at_ mrows].
      * constructor; [cbn [fst snd]; split; [done|]; rewrite lookup_insert_eq; eauto|]. rewrite Forall_forall in *. intros ir Hir. rewrite lookup_insert_ne; [by apply Hbt|]. intros ->. apply Hqr. by apply list_elem_of_fmap_2.
      * intros x Hx. rewrite lookup_insert_ne by (by intros ->). by apply Hch.
      * intros ir rest' head' [= <- <-] [= <-]. cbn [snd]. by rewrite lookup_insert_eq.
    + rewrite list_lookup_insert_ne in Hj by done. apply thread_frame; [by apply (Hother j)|]. by apply (Forall_lookup_1 _ _ _ _ Hth Hj).
  - intros b p Hp. destruct (Hb b p Hp) as (l & Hl & Hln & Hlq). exists l. split_and!; [|done|done]. apply chain_frame; [|done]. rewrite Hlq. tauto.
Qed.

Lemma exchange_step done_ st i cs index q rest head :
  par_inv done_ st → st.(inserters) !! i = Some (mkInserter cs ((index, q) :: rest) (Stored head)) → st.(table) !! Z.to_nat index = Some head →
  par_inv (done_ ++ [q]) (mkPar (<[Z.to_nat index := q]> st.(table)) st.(row_memory) (<[i := mkInserter cs rest Fresh]> st.(inserters))).
Proof.
  intros Hinv Hw Hhead. pose proof Hinv as [Hcap Hrows Hdone Hth Hb]. pose proof (Forall_lookup_1 _ _ _ _ Hth Hw) as (Hbt & Hch & Hst). cbn [batch chunks_left at_] in *.
  apply Forall_cons in Hbt as [[Hix _] Hbt]. specialize (Hst _ _ _ eq_refl eq_refl). cbn [fst snd] in *. subst index. pose proof (Hmask q) as Hm. set (b := Z.land (row_hash_of 1 (K q)) mask) in *.
  assert (q ∈ rows_of (mkInserter cs ((b, q) :: rest) (Stored head))) as Hq by (unfold rows_of; cbn [batch]; set_solver).
  destruct (step_rows _ _ _ _ Hinv Hw q Hq) as (Hqd & Hq0 & _). split; cbn [table row_memory inserters].
  - by rewrite length_insert.
  - rewrite rows_left_insert by (by eapply lookup_lt_Some). rewrite (rows_left_split _ _ _ Hw) in Hrows. rewrite <- Hrows. unfold rows_of. cbn [batch chunks_left fmap list_fmap snd]. solve_Permutation.
  - intros x [Hx|Hx%list_elem_of_singleton]%elem_of_app; [by apply Hdone|subst x; eauto].
  - apply Forall_insert; [done|]. split_and!; [done|done|done].
  - intros b' p Hp. destruct (decide (b' = Z.to_nat b)) as [->|Hne].
    + rewrite list_lookup_insert_eq in Hp by (by eapply lookup_lt_Some). injection Hp as <-. destruct (Hb _ _ Hhead) as (l & Hl & Hln & Hlq). exists (q :: l). split_and!.
      * split_and!; [done|done|]. by eexists.
      * constructor; [rewrite Hlq; tauto|done].
      * intros x. rewrite elem_of_cons, Hlq, elem_of_app, list_elem_of_singleton, Z2Nat.id by lia. unfold b. naive_solver.
    + rewrite list_lookup_insert_ne in Hp by done. destruct (Hb _ _ Hp) as (l & Hl & Hln & Hlq). exists l. split_and!; [done|done|].
      intros x. rewrite Hlq, elem_of_app, list_elem_of_singleton. split; [tauto|]. intros [[Hx| ->] Hxb]; [done|]. fold b in Hxb. lia.
Qed.

(** What a step of a thread can be, by where the thread is. *)
Lemma read_head done_ st i cs index q rest p :
  par_inv done_ st → st.(inserters) !! i = Some (mkInserter cs ((index, q) :: rest) p) → ∃ head, read st.(table) index = Ret head ∧ st.(table) !! Z.to_nat index = Some head.
Proof.
  intros [Hcap _ _ Hth _] Hw. destruct (Forall_lookup_1 _ _ _ _ Hth Hw) as ([[Hix _] _]%Forall_cons & _). cbn [fst snd] in Hix. pose proof (Hmask q) as Hm.
  destruct (lookup_lt_is_Some_2 st.(table) (Z.to_nat index)) as [head Hhead]; [lia|]. exists head. split; [|done]. rewrite <- (Z2Nat.id index) by lia. by apply read_lookup.
Qed.

Lemma move_step done_ st i cs b p p' :
  par_inv done_ st → st.(inserters) !! i = Some (mkInserter cs b p) → (∀ head, p' ≠ Stored head) →
  par_inv done_ (mkPar st.(table) st.(row_memory) (<[i := mkInserter cs b p']> st.(inserters))).
Proof.
  intros Hinv Hw Hp. apply (quiet_step _ _ _ _ _ Hinv Hw); [done|]. destruct (Forall_lookup_1 _ _ _ _ (pi_threads _ _ Hinv) Hw) as (Hb & Hc & _).
  split_and!; [done|done|]. intros ir rest head _ E. by destruct (Hp head).
Qed.

(** The steps a thread still has to make when it is alone. *)
Definition cost (ptrs : list Z) (w : inserter) : nat :=
  8 * (length w.(chunks_left) + length (rows_of w)) +
  match w.(batch) with
  | [] => 0
  | (index, _) :: _ =>
      match w.(at_) with
      | Fresh => 3
      | Loaded head => if decide (ptrs !! Z.to_nat index = Some head) then 2 else 5
      | Stored head => if decide (ptrs !! Z.to_nat index = Some head) then 1 else 4
      end
  end.

Lemma par_step_ok done_ st i w weak :
  par_inv done_ st → st.(inserters) !! i = Some w →
  ∃ done' st' w', par_step mask st (i, weak) = Ret st' ∧ par_inv done' st' ∧ st'.(inserters) = <[i := w']> st.(inserters) ∧
    (weak = false → done_inserting w = false → (cost st'.(table) w' < cost st.(table) w)%nat).
Proof.
  intros Hinv Hw. unfold par_step. cbn [fst snd]. rewrite Hw. unfold work. destruct w as [cs [|[index q] rest] p]; cbn [batch chunks_left at_].
  { destruct cs as [|rows cs].
    - orun. exists done_. eexists _, _. split; [done|]. cbn [table row_memory inserters]. split_and!; [|done|done]. rewrite list_insert_id by done. by destruct st.
    - destruct (load_step _ _ _ _ _ _ Hinv Hw) as (hashes & E & Hinv'). rewrite E. orun. exists done_. eexists _, _. split; [done|]. split_and!; [done|done|]. intros _ _.
      unfold cost, rows_of. cbn [batch chunks_left at_ table fst snd]. assert (length ((zip ((λ h, Z.land h mask) <$> hashes) rows).*2) ≤ length rows)%nat as Hz by (rewrite length_fmap, length_zip_with; lia).
      revert Hz. destruct (zip _ rows) as [|[ix r] z]; cbn [fmap list_fmap concat length app]; rewrite ?length_app; cbn [length]; rewrite ?length_app; lia. }
  destruct (read_head _ _ _ _ _ _ _ _ Hinv Hw) as (head & Er & Hhead). destruct p as [|head0|head0].
  - rewrite Er. orun. exists done_. eexists _, _. split; [done|]. split_and!; [by apply (move_step done_ st i cs _ Fresh)|done|]. intros _ _. unfold cost, rows_of. cbn [batch chunks_left at_ table fst snd]. rewrite decide_True by done. lia.
  - destruct (store_step _ _ _ _ _ _ _ _ Hinv Hw) as (m' & E & Hinv' & _). rewrite E. orun. exists done_. eexists _, _. split; [done|]. split_and!; [done|done|]. intros _ _.
    unfold cost, rows_of. cbn [batch chunks_left at_ table fst snd]. case_decide; lia.
  - rewrite Er. orun. destruct (Z.eqb_spec head head0) as [->|Hne]; [destruct weak|]; cbn [andb negb].
    + exists done_. eexists _, _. split; [done|]. split_and!; [by apply (move_step done_ st i cs _ (Stored head0))|done|done].
    + exists (done_ ++ [q]). eexists _, _. split; [done|]. split_and!; [by apply (exchange_step done_ st i cs _ _ _ head0)|done|]. intros _ _.
      unfold cost, rows_of. cbn [batch chunks_left at_ table fst snd fmap list_fmap length app]. destruct rest as [|[ix r] rest]; cbn [fmap list_fmap length app]; lia.
    + exists done_. eexists _, _. split; [done|]. split_and!; [by apply (move_step done_ st i cs _ (Stored head0))|done|]. intros _ _.
      unfold cost, rows_of. cbn [batch chunks_left at_ table fst snd]. rewrite decide_False by congruence. lia.
Qed.

Lemma par_run_ok schedule done_ st : par_inv done_ st → ∃ done' st', par_run mask schedule st = Ret st' ∧ par_inv done' st'.
Proof.
  unfold par_run. revert done_ st. induction schedule as [|[i weak] schedule IH]; intros done_ st Hinv; [by exists done_, st|]. cbn [ofold].
  destruct (st.(inserters) !! i) as [w|] eqn:Hw.
  - destruct (par_step_ok _ _ _ _ weak Hinv Hw) as (done' & st' & w' & E & Hinv' & _). rewrite E. orun. by apply (IH done').
  - assert (par_step mask st (i, weak) = Ret st) as -> by (unfold par_step; cbn [fst]; by rewrite Hw). orun. by apply (IH done_).
Qed.

(** Alone, a thread finishes. *)
Lemma solo_finishes done_ st i w :
  par_inv done_ st → st.(inserters) !! i = Some w →
  ∃ schedule done' st' w', par_run mask schedule st = Ret st' ∧ par_inv done' st' ∧ st'.(inserters) = <[i := w']> st.(inserters) ∧ done_inserting w' = true.
Proof.
  remember (cost st.(table) w) as c eqn:Ec. revert done_ st w Ec. induction (lt_wf c) as [c _ IH]. intros done_ st w -> Hinv Hw. destruct (done_inserting w) eqn:Ed.
  - exists [], done_, st, w. split_and!; [done|done|by rewrite list_insert_id|done].
  - destruct (par_step_ok _ _ _ _ false Hinv Hw) as (done1 & st1 & w1 & E1 & Hinv1 & Hi1 & Hcost).
    destruct (IH _ (Hcost eq_refl Ed) done1 st1 w1 eq_refl Hinv1) as (schedule & done2 & st2 & w2 & E2 & Hinv2 & Hi2 & Hd2); [rewrite Hi1; apply list_lookup_insert_eq; by eapply lookup_lt_Some|].
    exists ((i, false) :: schedule), done2, st2, w2. split_and!; [unfold par_run; cbn [ofold]; by rewrite E1|done|by rewrite Hi2, Hi1, list_insert_insert_eq|done].
Qed.

Definition all_inserted (ws : list inserter) : bool := forallb done_inserting ws.

Lemma can_finish done_ st : par_inv done_ st → ∃ schedule done' st', par_run mask schedule st = Ret st' ∧ par_inv done' st' ∧ all_inserted st'.(inserters) = true.
Proof.
  intros Hinv. assert (∀ k, (k ≤ length st.(inserters))%nat → ∃ schedule done' st', par_run mask schedule st = Ret st' ∧ par_inv done' st' ∧ length st'.(inserters) = length st.(inserters) ∧
    all_inserted (take k st'.(inserters)) = true) as Hk.
  { induction k as [|k IH]; intros Hle; [by exists [], done_, st|]. destruct IH as (s1 & d1 & st1 & E1 & Hinv1 & Hl1 & Ha1); [lia|].
    destruct (lookup_lt_is_Some_2 st1.(inserters) k) as [w Hw]; [lia|]. destruct (solo_finishes _ _ _ _ Hinv1 Hw) as (s2 & d2 & st2 & w2 & E2 & Hinv2 & Hi2 & Hd2).
    exists (s1 ++ s2), d2, st2. split_and!; [unfold par_run in *; rewrite ofold_app, E1; by orun|done|by rewrite Hi2, length_insert|].
    rewrite Hi2, (take_S_r _ _ w2) by (apply list_lookup_insert_eq; lia). unfold all_inserted in *. rewrite take_insert_ge by lia. rewrite forallb_app, Ha1. cbn. by rewrite Hd2. }
  destruct (Hk (length st.(inserters)) ltac:(lia)) as (s & d & st' & E & Hinv' & Hl & Ha). exists s, d, st'. split_and!; [done|done|]. by rewrite <- Hl, firstn_all in Ha.
Qed.

Lemma inserted_none ws : all_inserted ws = true → rows_left ws = [].
Proof.
  unfold all_inserted. intros Hd. rewrite forallb_forall in Hd. induction ws as [|w ws IH]; [done|]. unfold rows_left in *. csimpl.
  rewrite IH by (intros x Hx; apply Hd; by right). specialize (Hd w ltac:(by left)). unfold done_inserting, rows_of in *. destruct (batch w), (chunks_left w); done.
Qed.
End Schedules.

(** ** Theorem *)

Section Finalize.
  Context {R : Type} `{TableKeysOk R} `{TupleChunksOk} `{Inhabited R}.

(** Collecting chunks of keys in one table. *)
Definition build_all (m : memory R) (chunks : list (keys_chunk R)) : outcome (HashTable * memory R) :=
  ofold (λ st keys, Build st.1 keys st.2) chunks (new_table, m).

Lemma build_all_ok m chunks :
  0 < m.(mnext) → Forall (λ keys, masks_ok keys ∧ keys_size keys ≤ STANDARD_VECTOR_SIZE) chunks →
  ∃ t m', build_all m chunks = Ret (t, m') ∧ collected m.(mnext) t m' (concat (kept_keys <$> chunks)) ∧ t.(hash_map) = None.
Proof.
  intros Hm Hok. destruct (ofold_prefix (λ pre st, collected m.(mnext) st.1 st.2 (concat (kept_keys <$> pre)) ∧ st.1.(hash_map) = None) (λ st keys, Build st.1 keys st.2) chunks (new_table, m)) as ([t m'] & E & Hc & Hn).
  - split; [by apply new_table_ok|done].
  - intros pre keys [t m1] (post & El) [Hc Hn]. cbn [fst snd] in *. rewrite El in Hok. apply Forall_app in Hok as [_ [[Hmk Hsz] _]%Forall_cons].
    destruct (Build_table_ok m.(mnext) t m1 _ keys Hc Hmk Hsz) as (t' & m' & E & Hc' & _). exists (t', m'). split; [done|]. cbn [fst snd]. rewrite fmap_app, concat_app. cbn [fmap list_fmap concat]. rewrite app_nil_r.
    split; [done|]. revert E. unfold Build. destruct (_ =? 0); [intros [= <- _]; done|]. destruct (PrepareKeys keys _) as [[[own b] k]| | |]; try done. orun. destruct (k =? 0); [intros [= <- _]; done|].
    destruct (hash_rows _ _ _ _ _); try done. orun. destruct (ofold _ _ (m1, [])); try done. orun. intros [= <- _]. done.
  - exists t, m'. done.
Qed.

Lemma par_start_ok lo t m ks parts :
  collected lo t m ks → Z.of_nat (length ks) ≤ 2 ^ 62 → map_ok t →
  let t1 := InitializePointerTable (Unpartition t) in concat parts = t1.(data_collection) →
  ∃ K k all st0, 10 ≤ k ∧ t1.(bitmask) = Some (2 ^ k - 1) ∧ par_start t1 parts m = Ret st0 ∧ NoDup all ∧ (∀ q, q ∈ all → q ≠ 0) ∧ K <$> all ≡ₚ ks ∧ par_inv K (2 ^ k - 1) (Z.to_nat (2 ^ k)) all [] st0.
Proof.
  intros [Ht Hp Hlo (ps & Hps & Hnd & Hall)] Hlen Hm t1 Hparts. pose proof (Forall2_length _ _ _ Hall) as Hpl. assert (data_collection t1 = concat t.(sink_collection)) as Hdata by done.
  assert (Count (Unpartition t) = Z.of_nat (length ks)) as Hcount by (unfold Count, Unpartition; cbn [data_collection]; by rewrite Hps, Hpl).
  destruct (pointer_table_ok (Unpartition t) Hm ltac:(lia)) as (k & Hk & Hmap & Hmask). destruct (rows_keys m ps ks lo Hall) as (K & HK & Hrows). fold t1 in Hmap, Hmask. clearbody t1.
  exists K, k, ps. unfold par_start. rewrite Hmap. orun. eexists. split_and!; [done|done|done|done| |by rewrite HK|].
  { intros q [i Hi]%list_elem_of_lookup. destruct (Forall2_lookup_l _ _ _ _ _ Hall Hi) as (r & _ & Hr & _). lia. }
  assert (rows_left ((λ cs, mkInserter cs [] Fresh) <$> parts) = concat (concat parts)) as Hleft.
  { clear. unfold rows_left. induction parts as [|cs parts IH]; [done|]. csimpl. rewrite IH, concat_app. done. }
  split; cbn [table row_memory inserters]; [by rewrite length_replicate|by rewrite app_nil_l, Hleft, Hparts, Hdata|by intros q ?%elem_of_nil| |].
  - apply Forall_fmap, Forall_forall. intros cs Hcs. split_and!; cbn [batch chunks_left at_]; [constructor| |done]. intros q Hq. apply Hrows. rewrite <- Hps, <- Hdata, <- Hparts, <- Hleft.
    apply list_elem_of_lookup in Hcs as [i Hi]. apply (elem_of_rows_left _ i (mkInserter cs [] Fresh)); [by rewrite list_lookup_fmap, Hi|done].
  - intros b p [-> _]%lookup_replicate. exists []. split_and!; [done|constructor|]. intros q. split; [by intros ?%elem_of_nil|by intros [?%elem_of_nil _]].
Qed.

(** C36: Inserting in parallel loses no row.  However the chunks of the table
    are split over threads, and whatever the schedule of their steps, failing
    exchanges included: no thread makes an access out of bounds; as soon as
    all threads are done, probing the table selects exactly the rows of a
    chunk whose key equals a collected key, in order; and from every point on
    some schedule finishes all threads. *)
Theorem parallel_finalize_exact (m : memory R) (chunks : list (keys_chunk R)) :
  0 < m.(mnext) → Forall (λ keys, masks_ok keys ∧ keys_size keys ≤ STANDARD_VECTOR_SIZE) chunks →
  Z.of_nat (length (concat (kept_keys <$> chunks))) ≤ 2 ^ 62 →
  ∃ t m', build_all m chunks = Ret (t, m') ∧
    let t1 := InitializePointerTable (Unpartition t) in
    ∀ parts schedule, concat parts = t1.(data_collection) →
    ∃ mask st0 st, t1.(bitmask) = Some mask ∧ par_start t1 parts m' = Ret st0 ∧ par_run mask schedule st0 = Ret st ∧
      (all_inserted st.(inserters) = true →
        ∀ keys sel, masks_ok keys → keys_size keys ≤ STANDARD_VECTOR_SIZE → keys_size keys ≤ Z.of_nat (length sel) →
        let found := rows_among keys (concat (kept_keys <$> chunks)) in
        ∃ ss ss' sel', Probe (par_finish t1 st) keys = Ret ss ∧ Next keys st.(row_memory) ss sel 0 = Ret (ss', sel', Z.of_nat (length found)) ∧ selects true sel' found) ∧
      ∃ rest st', par_run mask rest st = Ret st' ∧ all_inserted st'.(inserters) = true.
Proof.
  intros Hm Hok Hlen. destruct (build_all_ok m chunks Hm Hok) as (t & m' & E & Hco & Hnone). exists t, m'. split; [done|]. intros t1 parts schedule Hparts.
  assert (map_ok t) as Hmap by (unfold map_ok; by rewrite Hnone). destruct (par_start_ok _ t m' _ parts Hco Hlen Hmap Hparts) as (K & k & all & st0 & Hk & Hmask & E0 & Hnd & Hnn & HK & Hinv0).
  assert (∀ r : R, 0 ≤ Z.land (row_hash_of 1 r) (2 ^ k - 1) < Z.of_nat (Z.to_nat (2 ^ k))) as Hb by (intros r; pose proof (mask_bound (row_hash_of 1 r) k ltac:(lia)); lia).
  destruct (par_run_ok K (2 ^ k - 1) (Z.to_nat (2 ^ k)) all (λ q, Hb (K q)) Hnd Hnn schedule [] st0 Hinv0) as (done_ & st & E1 & Hinv). exists (2 ^ k - 1), st0, st. split_and!; [done|done|done| |].
  - intros Hall keys sel Hmk Hsz Hsel found. destruct (find_ok (par_finish t1 st) st.(row_memory) (concat (kept_keys <$> chunks)) keys sel) as (ss & ss' & sel' & Ep & En & Hs & _); [|done|done|done|by exists ss, ss', sel'].
    destruct Hinv as [Hcap Hrows Hdone Hth Hbk]. rewrite (inserted_none _ Hall), app_nil_r in Hrows. exists K, (2 ^ k - 1), (Z.to_nat (2 ^ k)), st.(table), done_.
    unfold par_finish. cbn [equality_types hash_map bitmask]. split_and!; [apply (co_types _ _ _ _ Hco)|done|done| |done|by rewrite Hrows].
    split; [done|by rewrite app_nil_r, Hrows|intros q; rewrite app_nil_r, Hrows; apply Hnn|done|by intros q ?%elem_of_nil|done].
  - destruct (can_finish K (2 ^ k - 1) (Z.to_nat (2 ^ k)) all (λ q, Hb (K q)) Hnd Hnn done_ st Hinv) as (rest & d & st' & E2 & _ & Hd). by exists rest, st'.
Qed.
End Finalize.

(** ** Example *)

(** The keys 1, NULL, 3, 1 in one chunk. *)
Definition sample_built : keys_chunk (list (option value_cell)) := mkKeys [[Some (int_cell 1)]; [None]; [Some (int_cell 3)]; [Some (int_cell 1)]] [true].

(** The first threads in turn, with a failing exchange. *)
Definition sample_schedule : list (nat * bool) := [(0, false); (1, false); (1, false); (0, false); (0, false); (0, true); (1, false); (1, false)]%nat.

Lemma concat_singletons {A} (l : list A) : concat ((λ c, [c]) <$> l) = l.
Proof. induction l; csimpl; congruence. Qed.

Lemma parallel_finalize_exact_witness :
  ∃ t m', @build_all _ (cell_keys 0) sample_tuple_chunks (mkMemory ∅ 1) [sample_built] = Ret (t, m') ∧
    let t1 := InitializePointerTable (Unpartition t) in
    ∃ mask st0 st, t1.(bitmask) = Some mask ∧ par_start t1 ((λ c, [c]) <$> t1.(data_collection)) m' = Ret st0 ∧ par_run mask sample_schedule st0 = Ret st ∧
      ∃ rest st', par_run mask rest st = Ret st' ∧ all_inserted st'.(inserters) = true.
Proof.
  destruct (@parallel_finalize_exact _ (cell_keys 0) (keys0_ok 0) sample_tuple_chunks sample_tuple_chunks_ok _ (mkMemory ∅ 1) [sample_built]) as (t & m' & E & Hall).
  - done.
  - constructor; [|constructor]. split; [|done]. intros c Hc. assert (c = 0)%nat as -> by (cbn in Hc; lia). by exists true.
  - vm_compute. congruence.
  - exists t, m'. split; [exact E|]. intros t1. destruct (Hall ((λ c, [c]) <$> t1.(data_collection)) sample_schedule (concat_singletons _)) as (mask & st0 & st & Hmask & E0 & E1 & _ & Hrest).
    exists mask, st0, st. split_and!; [exact Hmask|exact E0|exact E1|exact Hrest].
Defined.
