(* ===== verification/Storage.v ===== *)
(** * Chunks and collections of rows

    Models the parts of [common/types/data_chunk.cpp], [vector.cpp] and
    [common/types/column/column_data_collection.cpp] that the operators use:
    slicing of chunks, and the collection a sink buffers its rows in.  A
    collection keeps the values of its rows, in chunks; how the copy functions
    lay values out in vectors is an interface, [ColumnCopy]. *)

From S2P Require Import Prelude PartitionSort ValueHash Values VectorHash.
Local Open Scope Z_scope.
Local Open Scope machine_scope.

(** ** Chunks *)

Record DataChunk (ts : list Ty) := mkChunk { cdata : vectors ts; csize : Z }.
Arguments mkChunk {ts}.
Arguments cdata {ts}.
Arguments csize {ts}.

Definition chunk_rows {ts} (c : DataChunk ts) : list (tuple ts) := struct_rows ts c.(cdata) <$> seqZ 0 c.(csize).

(** Column [i] of a chunk, and value [i] of a row. *)
Fixpoint column_at (ts : list Ty) : vectors ts → nat → option column :=
  match ts with
  | [] => λ _ _, None
  | t :: ts => λ vs i, match i with O => Some (existT t vs.1) | S i => column_at ts vs.2 i end
  end.

Fixpoint value_at (ts : list Ty) : tuple ts → nat → option { t : Ty & val t } :=
  match ts with
  | [] => λ _ _, None
  | t :: ts => λ r i, match i with O => Some (existT t r.1) | S i => value_at ts r.2 i end
  end.

(** ** Slicing *)

(** [SelectionVector::Slice]. *)
Definition sel_slice (current sel : list Z) (count : Z) : outcome (list Z) :=
  ofold (λ acc i, let* j := read_at sel i in let* k := read_at current j in Ret (acc ++ [k])) (seqZ 0 count) [].

(** [Vector::Slice] of the vector itself. *)
Definition slice_vec {T} (v : vec T) (sel : list Z) (count : Z) : outcome (vec T) :=
  match v.(vector_type) with
  | CONSTANT_VECTOR => Ret v
  | DICTIONARY_VECTOR =>
      let* d := sel_slice v.(dictionary) sel count in
      Ret (mkVec DICTIONARY_VECTOR v.(vdata) v.(validity) d)
  | FLAT_VECTOR => Ret (mkVec DICTIONARY_VECTOR v.(vdata) v.(validity) sel)
  end.

(** [Vector::Slice]: a struct slices its children, unless it is constant. *)
Fixpoint slice_vector (t : Ty) : vector t → list Z → Z → outcome (vector t) :=
  match t with
  | TScalar s => slice_vec
  | TStruct ts => λ v sel count,
      match v.1.(vector_type) with
      | CONSTANT_VECTOR => Ret v
      | _ =>
          let* own := slice_vec v.1 sel count in
          let* children := (fix go ts : vectors ts → outcome (vectors ts) :=
            match ts with
            | [] => λ _, Ret tt
            | t :: ts => λ vs, let* c := slice_vector t vs.1 sel count in let* cs := go ts vs.2 in Ret (c, cs)
            end) ts v.2 in
          Ret (own, children)
      end
  | TList t => λ v sel count, let* own := slice_vec v.1.1 sel count in Ret (own, v.1.2, v.2)
  | TArray t n => λ v sel count, let* own := slice_vec v.1 sel count in Ret (own, v.2)
  end.

Definition slice_vectors (ts : list Ty) (vs : vectors ts) (sel : list Z) (count : Z) : outcome (vectors ts) :=
  (fix go ts : vectors ts → outcome (vectors ts) :=
    match ts with
    | [] => λ _, Ret tt
    | t :: ts => λ vs, let* c := slice_vector t vs.1 sel count in let* cs := go ts vs.2 in Ret (c, cs)
    end) ts vs.

(** [DataChunk::Slice(other, sel, count)].  The cache of merged dictionaries
    only shares equal results. *)
Definition Slice {ts} (other : DataChunk ts) (sel : list Z) (count : Z) : outcome (DataChunk ts) :=
  let* vs := slice_vectors ts other.(cdata) sel count in Ret (mkChunk vs count).

(** [DataChunk::Reference]. *)
Definition Reference {ts} (other : DataChunk ts) : DataChunk ts := other.

(** ** Collections *)

Section Collection.
  Context {R : Type}.

(** A segment: its chunks and their total count. *)
Record ColumnDataCollectionSegment := mkSegment { chunk_data : list (list R); seg_count : Z }.

Record ColumnDataCollection := mkCollection { segments : list ColumnDataCollectionSegment; count_ : Z }.

Definition empty_collection : ColumnDataCollection := mkCollection [] 0.

(** [AllocateNewChunk]. *)
Definition AllocateNewChunk (s : ColumnDataCollectionSegment) : ColumnDataCollectionSegment :=
  mkSegment (s.(chunk_data) ++ [[]]) s.(seg_count).

(** [InitializeAppend]: the collection has a last segment and that a last
    chunk.  The result is the segments before the last one, and the last one. *)
Definition InitializeAppend (c : ColumnDataCollection) : list ColumnDataCollectionSegment * ColumnDataCollectionSegment :=
  let segs := match c.(segments) with [] => [mkSegment [] 0] | _ => c.(segments) end in
  let segment := List.last segs (mkSegment [] 0) in
  (removelast segs, match segment.(chunk_data) with [] => AllocateNewChunk segment | _ => segment end).

(** The loop of [Append] over the [remaining] rows; every iteration but the
    first copies at least one row. *)
Fixpoint append_loop (fuel : nat) (segment : ColumnDataCollectionSegment) (remaining : list R)
    : outcome ColumnDataCollectionSegment :=
  match remaining, fuel with
  | [], _ => Ret segment
  | _, O => NoFuel
  | _, S fuel =>
      let chunk := List.last segment.(chunk_data) [] in
      let append_amount := Nat.min (length remaining) (Z.to_nat STANDARD_VECTOR_SIZE - length chunk) in
      let segment := mkSegment (removelast segment.(chunk_data) ++ [chunk ++ take append_amount remaining]) segment.(seg_count) in
      match drop append_amount remaining with
      | [] => Ret segment
      | rest => append_loop fuel (AllocateNewChunk segment) rest
      end
  end.

(** [ColumnDataCollection::Append]. *)
Definition Append (c : ColumnDataCollection) (input : list R) : outcome ColumnDataCollection :=
  let '(before, segment) := InitializeAppend c in
  let* segment := append_loop (S (length input)) segment input in
  let n := Z.of_nat (length input) in
  Ret (mkCollection (before ++ [mkSegment segment.(chunk_data) (segment.(seg_count) + n)]) (c.(count_) + n)).

(** [ColumnDataCollection::Combine]. *)
Definition Combine (c other : ColumnDataCollection) : ColumnDataCollection :=
  if other.(count_) =? 0 then c
  else mkCollection (c.(segments) ++ other.(segments)) (c.(count_) + other.(count_)).

(** [ChunkCount]. *)
Definition ChunkCount (c : ColumnDataCollection) : Z :=
  fold_left (λ n s, n + Z.of_nat (length s.(chunk_data))) c.(segments) 0.

(** [FetchChunk]. *)
Fixpoint fetch_in (segs : list ColumnDataCollectionSegment) (chunk_idx : Z) : outcome (list R) :=
  match segs with
  | [] => Throw "Failed to find chunk in ColumnDataCollection"
  | s :: segs =>
      let n := Z.of_nat (length s.(chunk_data)) in
      if n <=? chunk_idx then fetch_in segs (chunk_idx - n)
      else if chunk_idx <? 0 then Undef else deref (s.(chunk_data) !! Z.to_nat chunk_idx)
  end.

Definition FetchChunk (c : ColumnDataCollection) (chunk_idx : Z) : outcome (list R) := fetch_in c.(segments) chunk_idx.

(** ** Facts *)

Definition all_chunks (c : ColumnDataCollection) : list (list R) := concat (chunk_data <$> c.(segments)).
Definition all_rows (c : ColumnDataCollection) : list R := concat (all_chunks c).

Definition chunk_fits (l : list R) : Prop := Z.of_nat (length l) ≤ STANDARD_VECTOR_SIZE.

Record collection_ok (c : ColumnDataCollection) : Prop := {
  coll_count : c.(count_) = Z.of_nat (length (all_rows c));
  coll_fits : Forall chunk_fits (all_chunks c)
}.

Lemma removelast_last {A} (l : list A) d : l ≠ [] → l = removelast l ++ [List.last l d].
Proof. apply app_removelast_last. Qed.

Lemma append_loop_ok fuel segment remaining :
  (length remaining < fuel)%nat → segment.(chunk_data) ≠ [] → Forall chunk_fits segment.(chunk_data) →
  ∃ s, append_loop fuel segment remaining = Ret s ∧ concat s.(chunk_data) = concat segment.(chunk_data) ++ remaining ∧
    Forall chunk_fits s.(chunk_data) ∧ s.(seg_count) = segment.(seg_count).
Proof.
  revert segment remaining. assert (0 < Z.to_nat STANDARD_VECTOR_SIZE)%nat as Hv by (unfold STANDARD_VECTOR_SIZE; lia).
  (* the first iteration may find a full chunk; afterwards the last chunk is empty *)
  assert (∀ fuel segment remaining,
    (length remaining < fuel ∨ (length remaining ≤ fuel ∧ List.last segment.(chunk_data) [] = []))%nat →
    segment.(chunk_data) ≠ [] → Forall chunk_fits segment.(chunk_data) →
    ∃ s, append_loop fuel segment remaining = Ret s ∧ concat s.(chunk_data) = concat segment.(chunk_data) ++ remaining ∧
      Forall chunk_fits s.(chunk_data) ∧ s.(seg_count) = segment.(seg_count)) as Hgen; [|intros; apply Hgen; auto].
  clear fuel. induction fuel as [|fuel IH]; intros segment remaining Hf Hne Hfit.
  { assert (remaining = []) as -> by (destruct remaining; cbn in Hf; [done|lia]).
    exists segment. by rewrite app_nil_r. }
  destruct remaining as [|r rest]; [exists segment; by rewrite app_nil_r|]. cbn [append_loop].
  set (all := r :: rest) in *. set (chunk := List.last _ _) in *.
  pose proof (removelast_last segment.(chunk_data) [] Hne) as Esplit. fold chunk in Esplit.
  rewrite Esplit in Hfit. apply Forall_app in Hfit as [Hfit0 Hfit1]. apply Forall_cons in Hfit1 as [Hfit1 _].
  set (k := Nat.min _ _).
  assert (k = Nat.min (length all) (Z.to_nat STANDARD_VECTOR_SIZE - length chunk)) as Hk by done. clearbody k.
  assert (concat (chunk_data segment) ++ take k all = concat (removelast (chunk_data segment) ++ [chunk ++ take k all])) as Ec.
  { rewrite Esplit at 1. rewrite !concat_app. cbn. rewrite !app_nil_r. by rewrite app_assoc. }
  assert (Forall chunk_fits (removelast (chunk_data segment) ++ [chunk ++ take k all])) as Hfit'.
  { apply Forall_app. split; [done|]. apply Forall_singleton. unfold chunk_fits in *. rewrite length_app, length_take. lia. }
  destruct (drop k all) as [|x xs] eqn:Ed.
  - eexists. split; [done|]. cbn [chunk_data seg_count]. rewrite <-Ec. split; [|done].
    pose proof (take_drop k all) as Et. rewrite Ed, app_nil_r in Et. by rewrite Et.
  - destruct (IH (AllocateNewChunk (mkSegment (removelast (chunk_data segment) ++ [chunk ++ take k all]) segment.(seg_count))) (x :: xs))
      as (s & -> & Es & Hs & Hc).
    + right. assert (length (x :: xs) = (length all - k)%nat) as -> by (by rewrite <-Ed, length_drop). split.
      * destruct Hf as [Hf|[Hf Hl]]; [lia|]. rewrite Hl in Hk. subst all. cbn [length] in *. lia.
      * cbn. by rewrite List.last_last.
    + cbn. by destruct (removelast _).
    + cbn [AllocateNewChunk chunk_data]. apply Forall_app. split; [done|]. apply Forall_singleton. unfold chunk_fits, STANDARD_VECTOR_SIZE. cbn. lia.
    + eexists. split; [done|]. split; [|done]. rewrite Es. cbn [AllocateNewChunk chunk_data].
      rewrite concat_app. cbn. rewrite app_nil_r, <-Ec, <-app_assoc, <-Ed, take_drop. done.
Qed.

Lemma InitializeAppend_ok c : let '(before, s) := InitializeAppend c in
  concat (chunk_data <$> before) ++ s.(chunk_data) = all_chunks c ∨
  concat (chunk_data <$> before) ++ s.(chunk_data) = all_chunks c ++ [[]].
Proof.
  unfold InitializeAppend, all_chunks. set (segs := match segments c with [] => _ | _ => _ end).
  assert (segs ≠ []) as Hne by (subst segs; by destruct (segments c)).
  assert (concat (chunk_data <$> segs) = concat (chunk_data <$> segments c)) as <- by (subst segs; by destruct (segments c)).
  pose proof (removelast_last segs (mkSegment [] 0) Hne) as E. set (s := List.last _ _) in *.
  assert (concat (chunk_data <$> segs) = concat (chunk_data <$> removelast segs) ++ chunk_data s) as ->.
  { rewrite E at 1. rewrite fmap_app, concat_app. cbn. by rewrite app_nil_r. }
  destruct (chunk_data s) eqn:Es; [right|by left; rewrite Es]. cbn. by rewrite Es, app_nil_r.
Qed.

Lemma Append_ok c input :
  collection_ok c → ∃ c', Append c input = Ret c' ∧ collection_ok c' ∧ all_rows c' = all_rows c ++ input.
Proof.
  intros [Hc Hf]. pose proof (InitializeAppend_ok c) as Hi. unfold Append. destruct (InitializeAppend c) as [before segment] eqn:E.
  assert (segment.(chunk_data) ≠ []) as Hne.
  { unfold InitializeAppend in E. injection E as _ <-. destruct (chunk_data (List.last _ _)) eqn:El; [cbn|by rewrite El].
    by destruct (chunk_data _). }
  assert (Forall chunk_fits (concat (chunk_data <$> before) ++ segment.(chunk_data))) as Hfit.
  { destruct Hi as [-> | ->]; [done|]. apply Forall_app. split; [done|]. apply Forall_singleton. unfold chunk_fits, STANDARD_VECTOR_SIZE. cbn. lia. }
  assert (concat (concat (chunk_data <$> before) ++ segment.(chunk_data)) = all_rows c) as Hr.
  { unfold all_rows. destruct Hi as [-> | ->]; [done|]. rewrite concat_app. cbn. by rewrite app_nil_r. }
  apply Forall_app in Hfit as [Hf0 Hf1].
  destruct (append_loop_ok (S (length input)) segment input) as (s & -> & Es & Hs & Hsc); [lia|done|done|].
  orun. eexists. split; [done|].
  assert (all_rows (mkCollection (before ++ [mkSegment (chunk_data s) (seg_count s + Z.of_nat (length input))]) (count_ c + Z.of_nat (length input)))
    = all_rows c ++ input) as Hall.
  { unfold all_rows at 1, all_chunks. cbn [segments]. rewrite fmap_app, !concat_app. cbn. rewrite app_nil_r, Es.
    rewrite app_assoc. f_equal. rewrite <-concat_app. exact Hr. }
  split; [|done]. split; [rewrite Hall, length_app; cbn; lia|].
  unfold all_chunks. cbn [segments]. rewrite fmap_app, concat_app. cbn. rewrite app_nil_r. by apply Forall_app.
Qed.

Lemma Combine_ok c other :
  collection_ok c → collection_ok other →
  collection_ok (Combine c other) ∧ all_rows (Combine c other) = all_rows c ++ all_rows other.
Proof.
  intros [Hc Hf] [Hc' Hf']. unfold Combine. destruct (Z.eqb_spec (count_ other) 0) as [E|E].
  - split; [done|]. assert (all_rows other = []) as ->; [|by rewrite app_nil_r].
    apply length_zero_iff_nil. lia.
  - assert (all_rows (mkCollection (segments c ++ segments other) (count_ c + count_ other)) = all_rows c ++ all_rows other) as Hr.
    { unfold all_rows, all_chunks. cbn [segments]. by rewrite fmap_app, !concat_app. }
    split; [|done]. split; [rewrite Hr, length_app; cbn; lia|].
    unfold all_chunks. cbn [segments]. rewrite fmap_app, concat_app. by apply Forall_app.
Qed.

Lemma ChunkCount_ok c : ChunkCount c = Z.of_nat (length (all_chunks c)).
Proof.
  unfold ChunkCount, all_chunks. enough (∀ segs n, fold_left (λ n s, n + Z.of_nat (length s.(chunk_data))) segs n
    = n + Z.of_nat (length (concat (chunk_data <$> segs)))) as -> by lia.
  induction segs as [|s segs IH]; intros n; [cbn; lia|]. cbn [fold_left fmap list_fmap concat]. rewrite IH, length_app. lia.
Qed.

Lemma FetchChunk_ok c i : 0 ≤ i < ChunkCount c → ∃ l, FetchChunk c i = Ret l ∧ all_chunks c !! Z.to_nat i = Some l.
Proof.
  rewrite ChunkCount_ok. unfold FetchChunk, all_chunks. generalize (segments c). intros segs. revert i.
  induction segs as [|s segs IH]; intros i Hi; [cbn in Hi; lia|].
  cbn [fetch_in fmap list_fmap concat] in *. rewrite length_app in Hi. destruct (Z.leb_spec (Z.of_nat (length (chunk_data s))) i).
  - destruct (IH (i - Z.of_nat (length (chunk_data s)))) as (l & -> & Hl); [lia|]. exists l. split; [done|].
    rewrite lookup_app_r by lia. by replace (Z.to_nat i - _)%nat with (Z.to_nat (i - Z.of_nat (length (chunk_data s)))) by lia.
  - rewrite (proj2 (Z.ltb_ge _ _)) by lia. destruct (lookup_lt_is_Some_2 (chunk_data s) (Z.to_nat i)) as [l Hl]; [lia|].
    exists l. rewrite Hl. split; [done|]. by rewrite lookup_app_l by lia.
Qed.
End Collection.
Arguments ColumnDataCollection : clear implicits.
Arguments ColumnDataCollectionSegment : clear implicits.

(** ** Slices have the selected rows *)

(** The first [count] entries of [sel] are rows below [n]. *)
Definition picks (sel : list Z) (count n : Z) : Prop :=
  count ≤ Z.of_nat (length sel) ∧ ∀ i, 0 ≤ i < count → 0 ≤ blk sel i < n.

Lemma picks_lookup sel count n i : picks sel count n → 0 ≤ i < count → sel !! Z.to_nat i = Some (blk sel i).
Proof. intros [Hl _] Hi. apply lookup_blk. lia. Qed.

Lemma sel_slice_ok current sel count n :
  picks sel count n → (∀ j, 0 ≤ j < n → is_Some (current !! Z.to_nat j)) → 0 ≤ count →
  ∃ d, sel_slice current sel count = Ret d ∧ ∀ i, 0 ≤ i < count → d !! Z.to_nat i = current !! Z.to_nat (blk sel i).
Proof.
  intros Hp Hcur Hc. unfold sel_slice.
  edestruct (ofold_seqZ (λ i d, length d = Z.to_nat i ∧ ∀ k, 0 ≤ k < i → d !! Z.to_nat k = current !! Z.to_nat (blk sel k)))
    as (d & -> & Hd); [exact Hc| | |].
  - split; [done|lia].
  - intros i d Hi [Hl Hd]. rewrite (read_at_Some sel i (blk sel i)) by (lia || (eapply picks_lookup; [done|lia])). orun.
    destruct Hp as [_ Hp]. specialize (Hp i ltac:(lia)). destruct (Hcur (blk sel i) Hp) as [x Hx].
    rewrite (read_at_Some current _ x) by (lia || done). orun. eexists. split; [done|]. split; [rewrite length_app; cbn; lia|].
    intros k Hk. destruct (decide (k = i)) as [->|].
    + rewrite lookup_app_r by lia. replace (Z.to_nat i - length d)%nat with 0%nat by lia. by rewrite Hx.
    + rewrite lookup_app_l by lia. apply Hd. lia.
  - exists d. split; [done|]. intros i Hi. apply Hd. lia.
Qed.

Definition constant_vec {T} (v : vec T) : bool := match v.(vector_type) with CONSTANT_VECTOR => true | _ => false end.

Lemma vec_ok_dictionary {T} (v : vec T) n j :
  vec_ok v n → v.(vector_type) = DICTIONARY_VECTOR → 0 ≤ j < n → is_Some (v.(dictionary) !! Z.to_nat j).
Proof.
  intros Hv E Hj. destruct (Hv j (or_introl Hj)) as (idx & Hidx & _). unfold vec_index in Hidx. rewrite E in Hidx.
  rewrite (proj2 (Z.ltb_ge _ _)) in Hidx by lia. by eexists.
Qed.

(** The sliced vector reads through the selection. *)
Lemma slice_vec_ok {T} (v : vec T) sel count n :
  vec_ok v n → picks sel count n → 0 ≤ count →
  ∃ v', slice_vec v sel count = Ret v' ∧ vec_ok v' count ∧ constant_vec v' = constant_vec v ∧
    (∀ i, 0 ≤ i < count → vec_index v' i = vec_index v (blk sel i) ∧ vec_row v' i = vec_row v (blk sel i)).
Proof.
  intros Hv Hp Hc.
  assert (∀ v', v'.(vdata) = v.(vdata) → v'.(validity) = v.(validity) → constant_vec v' = false → constant_vec v = false →
    (∀ i, 0 ≤ i < count → vec_index v' i = vec_index v (blk sel i)) →
    vec_ok v' count ∧ ∀ i, 0 ≤ i < count → vec_index v' i = vec_index v (blk sel i) ∧ vec_row v' i = vec_row v (blk sel i)) as Hgen.
  { intros v' Ed Ev Ec' Ec Hi. split.
    - intros i [Hi'|[_ Hk]]; [|unfold constant_vec in Ec'; by rewrite Hk in Ec'].
      destruct (Hv (blk sel i)) as (idx & H1 & H2 & H3 & H4); [left; by apply Hp|].
      exists idx. rewrite Hi, Ed, Ev by done. done.
    - intros i Hi'. split; [by apply Hi|]. unfold vec_row. by rewrite Hi, Ed, Ev. }
  unfold slice_vec. destruct (vector_type v) eqn:E.
  - eexists. split; [done|]. destruct (Hgen (mkVec DICTIONARY_VECTOR (vdata v) (validity v) sel)) as [H1 H2];
      [done|done|done|unfold constant_vec; by rewrite E| |]; [|split; [done|]; split; [unfold constant_vec; by rewrite E|done]].
    intros i Hi. unfold vec_index. cbn. rewrite E, (proj2 (Z.ltb_ge _ _)) by lia. by eapply picks_lookup.
  - exists v. split; [done|]. split_and!; [|done|].
    + intros i _. destruct (Hv 0) as (idx & H1 & H2); [right; done|]. exists idx. split; [|done]. unfold vec_index in *. by rewrite E in *.
    + intros i Hi. unfold vec_row, vec_index. by rewrite E.
  - destruct (sel_slice_ok (dictionary v) sel count n Hp) as (d & -> & Hd); [|done|].
    { intros j Hj. by eapply vec_ok_dictionary. }
    orun. eexists. split; [done|]. destruct (Hgen (mkVec DICTIONARY_VECTOR (vdata v) (validity v) d)) as [H1 H2];
      [done|done|done|unfold constant_vec; by rewrite E| |]; [|split; [done|]; split; [unfold constant_vec; by rewrite E|done]].
    intros i Hi. unfold vec_index. cbn. rewrite E. destruct Hp as [_ Hp]. rewrite !(proj2 (Z.ltb_ge _ _)) by (specialize (Hp i); lia).
    by apply Hd.
Qed.

(** A constant struct has constant children. *)
Definition constant_vector (t : Ty) : vector t → bool :=
  match t with
  | TScalar s => constant_vec
  | TStruct ts => λ v, constant_vec v.1
  | TList t => λ v, constant_vec v.1.1
  | TArray t n => λ v, constant_vec v.1
  end.

Fixpoint shape_ok (t : Ty) : vector t → Prop :=
  match t with
  | TScalar _ | TList _ | TArray _ _ => λ _, True
  | TStruct ts => λ v,
      (fix go ts : vectors ts → Prop :=
        match ts with
        | [] => λ _, True
        | t :: ts => λ vs, shape_ok t vs.1 ∧ (constant_vec v.1 = true → constant_vector t vs.1 = true) ∧ go ts vs.2
        end) ts v.2
  end.

Definition shapes_ok (constant : bool) (ts : list Ty) (vs : vectors ts) : Prop :=
  (fix go ts : vectors ts → Prop :=
    match ts with
    | [] => λ _, True
    | t :: ts => λ vs, shape_ok t vs.1 ∧ (constant = true → constant_vector t vs.1 = true) ∧ go ts vs.2
    end) ts vs.

Lemma constant_index {T} (v : vec T) i j : constant_vec v = true → vec_index v i = vec_index v j.
Proof. unfold constant_vec, vec_index. by destruct (vector_type v). Qed.

Lemma constant_row t v i j : shape_ok t v → constant_vector t v = true → row t v i = row t v j.
Proof.
  revert v. induction t as [s|ts IH|t IH|t n IH] using Ty_nested_ind; intros v Hs Hc; cbn [constant_vector] in Hc;
    cbn [vector row] in *; unfold vec_row; rewrite (constant_index _ i j Hc); try done.
  destruct v as [own vs]. cbn [fst snd] in *. destruct (match vec_index own j with None => _ | _ => _ end); [|done]. f_equal.
  change (struct_rows ts vs i = struct_rows ts vs j). change (shapes_ok (constant_vec own) ts vs) in Hs. rewrite Hc in Hs.
  clear Hc own. revert vs Hs. induction IH as [|t ts Ht _ IHts]; intros vs Hs; [done|].
  destruct Hs as (H1 & H2 & H3). change ((row t vs.1 i, struct_rows ts vs.2 i) = (row t vs.1 j, struct_rows ts vs.2 j)).
  rewrite (Ht vs.1) by auto. f_equal. by apply IHts.
Qed.

Definition slices (t : Ty) : Prop := ∀ v sel count n,
  vector_ok t v n → shape_ok t v → picks sel count n → 0 ≤ count →
  ∃ v', slice_vector t v sel count = Ret v' ∧ shape_ok t v' ∧ constant_vector t v' = constant_vector t v ∧
    (array_free t = true → vector_ok t v' count) ∧ ∀ i, 0 ≤ i < count → row t v' i = row t v (blk sel i).

Lemma slice_struct_children ts own own' sel count n : Forall slices ts → ∀ vs,
  picks sel count n → 0 ≤ count → constant_vec own = false → constant_vec own' = false →
  (∀ i, 0 ≤ i < count → vec_row own' i = vec_row own (blk sel i)) →
  children_ok own n ts vs → shapes_ok (constant_vec own) ts vs →
  ∃ vs', slice_vectors ts vs sel count = Ret vs' ∧ shapes_ok (constant_vec own') ts vs' ∧
    (forallb array_free ts = true → children_ok own' count ts vs') ∧
    ∀ i, 0 ≤ i < count → struct_rows ts vs' i = struct_rows ts vs (blk sel i).
Proof.
  intros HF vs Hp Hc Ec Ec' Hown. revert vs. induction HF as [|t ts Ht _ IH]; intros vs Hok Hsh; [by exists tt|].
  destruct Hok as (Hv & Hvs & Hnull), Hsh as (Hs & _ & Hss).
  destruct (Ht vs.1 sel count n Hv Hs Hp Hc) as (c & Ec1 & Hc1 & Hc2 & Hc3 & Hc4).
  destruct (IH vs.2 Hvs Hss) as (cs & Ecs & Hcs1 & Hcs2 & Hcs3).
  exists (c, cs). split_and!.
  - change (slice_vectors (t :: ts) vs sel count) with
      (let* c := slice_vector t vs.1 sel count in let* cs := slice_vectors ts vs.2 sel count in @Ret (vectors (t :: ts)) (c, cs)).
    by rewrite Ec1; orun; rewrite Ecs.
  - split; [done|]. split; [by rewrite Ec'|done].
  - cbn. intros [Ha1 Ha2]%andb_prop. split; [auto|]. split; [auto|]. intros i Hi Hn. rewrite Hown in Hn by done.
    rewrite Hc4 by done. apply Hnull; [|done]. by apply Hp.
  - intros i Hi. change ((row t c i, struct_rows ts cs i) = (row t vs.1 (blk sel i), struct_rows ts vs.2 (blk sel i))).
    by rewrite Hc4, Hcs3.
Qed.

Lemma constant_vec_ok {T} (v : vec T) n m : constant_vec v = true → vec_ok v n → vec_ok v m.
Proof.
  unfold constant_vec. destruct (vector_type v) eqn:E; [done| |done]. intros _ Hv i _.
  destruct (Hv 0) as (idx & H1 & H2); [by right|]. exists idx. split; [|done]. unfold vec_index in *. by rewrite E in *.
Qed.

(** A constant vector has as many rows as wanted. *)
Lemma constant_vector_ok t v n m :
  array_free t = true → shape_ok t v → constant_vector t v = true → (0 < n ∨ m ≤ 0) → vector_ok t v n → vector_ok t v m.
Proof.
  revert v. induction t as [s|ts IH|t IH|t k IH] using Ty_nested_ind; intros v Ha Hs Hc Hnm Hv; cbn [constant_vector vector] in *.
  - by eapply constant_vec_ok.
  - destruct v as [own vs], Hv as [Hv Hvs]. cbn [fst snd] in *. split; [by eapply constant_vec_ok|].
    change (children_ok own m ts vs). change (children_ok own n ts vs) in Hvs. change (shapes_ok (constant_vec own) ts vs) in Hs.
    cbn in Ha. clear Hv. revert vs Hs Hvs. induction IH as [|t ts Ht _ IHts]; intros vs Hs Hvs; [done|].
    cbn in Ha. apply andb_prop in Ha as [Ha1 Ha2]. destruct Hs as (H1 & H2 & H3), Hvs as (K1 & K2 & K3).
    split; [by apply Ht; auto|]. split; [by apply IHts|]. intros i Hi Hn.
    rewrite (constant_row t vs.1 i 0) by auto. apply K3; [lia|]. unfold vec_row in *. by rewrite (constant_index own 0 i).
  - destruct v as [[own child] size]. destruct Hv as (Hv1 & Hv2 & Hv3 & Hv4). cbn [fst snd] in *.
    split; [by eapply constant_vec_ok|]. split; [done|]. split; [done|].
    intros i e Hi He. apply (Hv4 0); [lia|]. cbn [fst] in He. unfold vec_row in *. by rewrite (constant_index own 0 i).
  - done.
Qed.

Lemma picks_nonempty sel count n : picks sel count n → 0 < n ∨ count ≤ 0.
Proof. intros [_ Hp]. destruct (Z.lt_ge_cases 0 count); [|lia]. specialize (Hp 0). lia. Qed.

(** Slicing a column selects its rows, whatever its type and representation. *)
Lemma slice_vector_ok t : slices t.
Proof.
  induction t as [s|ts IH|t IH|t k IH] using Ty_nested_ind; intros v sel count n Hv Hs Hp Hc.
  - destruct (slice_vec_ok v sel count n Hv Hp Hc) as (v' & E & H1 & H2 & H3). exists v'.
    split_and!; [done|done|done|done|]. intros i Hi. by apply H3.
  - destruct v as [own vs]. destruct Hv as [Hown Hvs]. cbn [fst snd] in *.
    destruct (slice_vec_ok own sel count n Hown Hp Hc) as (own' & E & H1 & H2 & H3).
    destruct (constant_vec own) eqn:Ec.
    + exists (own, vs). split_and!; [|done|done| |].
      * unfold constant_vec in Ec. cbn [slice_vector fst snd]. by destruct (vector_type own).
      * intros Ha. apply (constant_vector_ok (TStruct ts) _ n); [done|done|done|by eapply picks_nonempty|done].
      * intros i Hi. by apply constant_row.
    + destruct (slice_struct_children ts own own' sel count n IH vs Hp Hc Ec H2) as (vs' & Es & K1 & K2 & K3);
        [intros i Hi; by apply H3|done|exact Hs|].
      exists (own', vs'). split_and!; [|exact K1|cbn; congruence| |].
      * change (match vector_type own with CONSTANT_VECTOR => Ret (own, vs)
          | _ => let* own := slice_vec own sel count in let* vs := slice_vectors ts vs sel count in @Ret (vector (TStruct ts)) (own, vs) end
          = Ret (own', vs')).
        rewrite E. orun. rewrite Es. unfold constant_vec in Ec. by destruct (vector_type own).
      * intros Ha. split; [done|]. by apply K2.
      * intros i Hi. change (match vec_row own' i with None => None | Some _ => Some (struct_rows ts vs' i) end =
          match vec_row own (blk sel i) with None => None | Some _ => Some (struct_rows ts vs (blk sel i)) end).
        by rewrite (proj2 (H3 i Hi)), K3.
  - destruct v as [[own child] size]. destruct Hv as (Hown & Hv2 & Hv3 & Hv4). cbn [fst snd] in *.
    destruct (slice_vec_ok own sel count n Hown Hp Hc) as (own' & E & H1 & H2 & H3).
    exists (own', child, size). cbn [slice_vector fst snd]. rewrite E. split_and!; [done|done|done| |].
    + intros _. split; [done|]. split; [done|]. split; [done|]. intros i e Hi He. cbn in He. rewrite (proj2 (H3 i Hi)) in He.
      apply (Hv4 (blk sel i)); [by apply Hp|done].
    + intros i Hi. cbn [row fst snd]. by rewrite (proj2 (H3 i Hi)).
  - destruct v as [own child]. destruct Hv as (Hown & Hv2). cbn [fst snd] in *.
    destruct (slice_vec_ok own sel count n Hown Hp Hc) as (own' & E & H1 & H2 & H3).
    exists (own', child). cbn [slice_vector fst snd]. rewrite E. split_and!; [done|done|done|done|].
    intros i Hi. cbn [row fst snd]. by rewrite (proj2 (H3 i Hi)), (proj1 (H3 i Hi)).
Qed.

(** A well-formed chunk. *)
Definition vectors_ok (ts : list Ty) (vs : vectors ts) (n : Z) : Prop :=
  (fix go ts : vectors ts → Prop :=
    match ts with [] => λ _, True | t :: ts => λ vs, vector_ok t vs.1 n ∧ shape_ok t vs.1 ∧ go ts vs.2 end) ts vs.

Definition chunk_ok {ts} (c : DataChunk ts) : Prop :=
  0 ≤ c.(csize) ≤ STANDARD_VECTOR_SIZE ∧ vectors_ok ts c.(cdata) c.(csize).

Lemma Slice_ok {ts} (c : DataChunk ts) sel count :
  chunk_ok c → forallb array_free ts = true → picks sel count c.(csize) → 0 ≤ count ≤ STANDARD_VECTOR_SIZE →
  ∃ c', Slice c sel count = Ret c' ∧ chunk_ok c' ∧ c'.(csize) = count ∧
    ∀ i, 0 ≤ i < count → struct_rows ts c'.(cdata) i = struct_rows ts c.(cdata) (blk sel i).
Proof.
  intros [Hsz Hok] Ha Hp Hc. unfold Slice. destruct c as [vs n]. cbn [cdata csize] in *.
  enough (∃ vs', slice_vectors ts vs sel count = Ret vs' ∧ vectors_ok ts vs' count ∧
    ∀ i, 0 ≤ i < count → struct_rows ts vs' i = struct_rows ts vs (blk sel i)) as (vs' & -> & H1 & H2).
  { orun. by exists (mkChunk vs' count). }
  clear Hsz. revert vs Hok. induction ts as [|t ts IH]; intros vs Hok; [by exists tt|].
  cbn in Ha. apply andb_prop in Ha as [Ha1 Ha2]. destruct Hok as (H1 & H2 & H3).
  destruct (slice_vector_ok t vs.1 sel count n H1 H2 Hp) as (v' & E & K1 & K2 & K3 & K4); [lia|].
  destruct (IH Ha2 vs.2 H3) as (vs' & Es & L1 & L2). exists (v', vs'). split_and!.
  - change (slice_vectors (t :: ts) vs sel count) with
      (let* c := slice_vector t vs.1 sel count in let* cs := slice_vectors ts vs.2 sel count in @Ret (vectors (t :: ts)) (c, cs)).
    by rewrite E; orun; rewrite Es.
  - split; [by apply K3|]. split; [done|done].
  - intros i Hi. change ((row t v' i, struct_rows ts vs' i) = (row t vs.1 (blk sel i), struct_rows ts vs.2 (blk sel i))).
    by rewrite K4, L2.
Qed.

(** ** Copying rows into vectors *)

(** The values of the children of a list of structs, and of lists. *)
Definition heads {t ts} (vs : list (option (tuple (t :: ts)))) : list (val t) :=
  (λ o, match o with None => None | Some r => r.1 end) <$> vs.
Definition tails {t ts} (vs : list (option (tuple (t :: ts)))) : list (option (tuple ts)) :=
  (λ o : option (val t * tuple ts), match o with None => None | Some r => Some r.2 end) <$> vs.
Definition elements_of {A} (vs : list (option (list A))) : list A := concat (default [] <$> vs).

(** The child vectors of lists have fewer than [2^32] elements. *)
Fixpoint small (t : Ty) : list (val t) → Prop :=
  match t with
  | TScalar _ | TArray _ _ => λ _, True
  | TStruct ts => λ vs,
      (fix go ts : list (option (tuple ts)) → Prop :=
        match ts with [] => λ _, True | t :: ts => λ vs, small t (heads vs) ∧ go ts (tails vs) end) ts vs
  | TList t => λ vs, Z.of_nat (length (elements_of vs)) < 2 ^ 32 ∧ small t (elements_of vs)
  end.

Definition small_rows (ts : list Ty) (rows : list (option (tuple ts))) : Prop :=
  (fix go ts : list (option (tuple ts)) → Prop :=
    match ts with [] => λ _, True | t :: ts => λ vs, small t (heads vs) ∧ go ts (tails vs) end) ts rows.

Lemma heads_app {t ts} (l1 l2 : list (option (tuple (t :: ts)))) : heads (l1 ++ l2) = heads l1 ++ heads l2.
Proof. apply fmap_app. Qed.

Lemma tails_app {t ts} (l1 l2 : list (option (tuple (t :: ts)))) : tails (l1 ++ l2) = tails l1 ++ tails l2.
Proof. apply fmap_app. Qed.

Lemma elements_of_app {A} (l1 l2 : list (option (list A))) : elements_of (l1 ++ l2) = elements_of l1 ++ elements_of l2.
Proof. unfold elements_of. by rewrite fmap_app, concat_app. Qed.

Lemma small_app t l1 l2 : small t (l1 ++ l2) → small t l1 ∧ small t l2.
Proof.
  revert l1 l2. induction t as [s|ts IH|t IH|t n IH] using Ty_nested_ind; [done| | |done].
  - change (∀ l1 l2 : list (option (tuple ts)), small_rows ts (l1 ++ l2) → small_rows ts l1 ∧ small_rows ts l2).
    induction IH as [|t ts Ht _ IHts]; [done|]. intros l1 l2 [H1 H2]. rewrite heads_app in H1. rewrite tails_app in H2. destruct (Ht _ _ H1), (IHts _ _ H2). done.
  - intros l1 l2 [H1 H2]. cbn [small]. change (list (option (list (val t)))) in l1, l2.
    change (Z.of_nat (length (elements_of (A := val t) (l1 ++ l2))) < 2 ^ 32) in H1.
    change (small t (elements_of (A := val t) (l1 ++ l2))) in H2.
    rewrite (elements_of_app (A := val t) l1 l2) in H1, H2. destruct (IH _ _ H2) as [K1 K2]. rewrite length_app in H1.
    assert (Z.of_nat (length (elements_of (A := val t) l1)) < 2 ^ 32 ∧ Z.of_nat (length (elements_of (A := val t) l2)) < 2 ^ 32) as [? ?] by lia.
    by repeat split.
Qed.

Lemma small_rows_app ts (l1 l2 : list (option (tuple ts))) : small_rows ts (l1 ++ l2) → small_rows ts l1 ∧ small_rows ts l2.
Proof.
  induction ts as [|t ts IH]; [done|]. intros [H1 H2]. rewrite heads_app in H1. rewrite tails_app in H2.
  destruct (small_app t _ _ H1), (IH _ _ H2). done.
Qed.

(** What the collection relies on: the copy functions turn a list of rows into
    vectors with these rows. *)
Class ColumnCopy := copy_rows : ∀ ts, list (tuple ts) → vectors ts.

Class ColumnCopyOk `{ColumnCopy} : Prop :=
  copy_rows_ok : ∀ ts rows, forallb array_free ts = true → small_rows ts (Some <$> rows) →
    vectors_ok ts (copy_rows ts rows) (Z.of_nat (length rows)) ∧
    ∀ i r, rows !! i = Some r → struct_rows ts (copy_rows ts rows) (Z.of_nat i) = r.

(** *** Flat vectors *)

Definition zero_payload (s : ScalarType) : payload s :=
  match s with
  | INT128 | UINT128 => mkHuge 0 0
  | INTERVAL => mkInterval 0 0 0
  | VARCHAR => []
  | _ => 0
  end.

Definition is_valid {A} (o : option A) : bool := match o with Some _ => true | None => false end.

Definition flat_vec {A} (d : A) (vs : list (option A)) : vec A :=
  mkVec FLAT_VECTOR (default d <$> vs) (Some (is_valid <$> vs)) [].

Fixpoint list_entries {A} (off : Z) (vs : list (option (list A))) : list list_entry_t :=
  match vs with
  | [] => []
  | v :: vs => let n := Z.of_nat (length (default [] v)) in mkEntry off n :: list_entries (off + n) vs
  end.

Fixpoint flat_vector (t : Ty) : list (val t) → vector t :=
  match t with
  | TScalar s => flat_vec (zero_payload s)
  | TStruct ts => λ vs,
      (mkVec FLAT_VECTOR ((λ _, tt) <$> vs) (Some (is_valid <$> vs)) [],
       (fix go ts : list (option (tuple ts)) → vectors ts :=
         match ts with [] => λ _, tt | t :: ts => λ vs, (flat_vector t (heads vs), go ts (tails vs)) end) ts vs)
  | TList t => λ vs,
      (mkVec FLAT_VECTOR (list_entries 0 vs) (Some (is_valid <$> vs)) [],
       flat_vector t (elements_of vs), Z.of_nat (length (elements_of vs)))
  | TArray t n => λ vs,
      (mkVec FLAT_VECTOR ((λ _, tt) <$> vs) (Some (is_valid <$> vs)) [],
       flat_vector t (concat ((λ v, take n (default [] v ++ replicate n None)) <$> vs)))
  end.

Definition flat_vectors (ts : list Ty) (rows : list (option (tuple ts))) : vectors ts :=
  (fix go ts : list (option (tuple ts)) → vectors ts :=
    match ts with [] => λ _, tt | t :: ts => λ vs, (flat_vector t (heads vs), go ts (tails vs)) end) ts rows.

#[export] Instance flat_copy : ColumnCopy := λ ts rows, flat_vectors ts (Some <$> rows).

(** A flat vector with as many validity bits as values. *)
Lemma flat_rows {A B} (vs : list (option A)) (l : list B) :
  length l = length vs →
  vec_ok (mkVec FLAT_VECTOR l (Some (is_valid <$> vs)) []) (Z.of_nat (length vs)) ∧
  ∀ i v, vs !! i = Some v →
    vec_row (mkVec FLAT_VECTOR l (Some (is_valid <$> vs)) []) (Z.of_nat i) = match v with None => None | Some _ => l !! i end.
Proof.
  intros Hl. split.
  - intros i [Hi|[_ ?]]; [|done]. exists i. split; [done|]. split; [lia|]. cbn.
    split; [apply lookup_lt_is_Some; lia|]. intros ? [= <-]. apply lookup_lt_is_Some. rewrite length_fmap. lia.
  - intros i v Hi. unfold vec_row, vec_index. cbn. rewrite Nat2Z.id, list_lookup_fmap, Hi. cbn. by destruct v.
Qed.

Definition flat_ok (t : Ty) : Prop := ∀ vs : list (val t),
  array_free t = true → small t vs →
  vector_ok t (flat_vector t vs) (Z.of_nat (length vs)) ∧ shape_ok t (flat_vector t vs) ∧
  ∀ i v, vs !! i = Some v → row t (flat_vector t vs) (Z.of_nat i) = v.

Lemma lookup_heads {t ts} (vs : list (option (tuple (t :: ts)))) i :
  heads vs !! i = (λ o : option (tuple (t :: ts)), match o with None => None | Some r => r.1 end) <$> (vs !! i).
Proof. apply list_lookup_fmap. Qed.

Lemma lookup_tails {t ts} (vs : list (option (tuple (t :: ts)))) i :
  tails vs !! i = (λ o : option (tuple (t :: ts)), match o with None => None | Some r => Some r.2 end) <$> (vs !! i).
Proof. apply list_lookup_fmap. Qed.

Lemma flat_children ts : Forall flat_ok ts → ∀ (vs : list (option (tuple ts))) own,
  forallb array_free ts = true → small_rows ts vs → constant_vec own = false →
  (∀ i, vs !! i = Some None ↔ (i < length vs)%nat ∧ vec_row own (Z.of_nat i) = None) →
  children_ok own (Z.of_nat (length vs)) ts (flat_vectors ts vs) ∧ shapes_ok (constant_vec own) ts (flat_vectors ts vs) ∧
  vectors_ok ts (flat_vectors ts vs) (Z.of_nat (length vs)) ∧
  ∀ i r, vs !! i = Some (Some r) → struct_rows ts (flat_vectors ts vs) (Z.of_nat i) = r.
Proof.
  intros HF. induction HF as [|t ts Ht _ IH]; intros vs own Ha Hs Hc Hn.
  { split_and!; try done. by intros i []. }
  cbn in Ha. apply andb_prop in Ha as [Ha1 Ha2]. destruct Hs as [Hs1 Hs2].
  destruct (Ht (heads vs) Ha1 Hs1) as (H1 & H2 & H3). destruct (IH (tails vs) own Ha2 Hs2 Hc) as (K1 & K2 & K3 & K4).
  { intros i. unfold tails at 2. rewrite length_fmap, <-Hn, lookup_tails. destruct (vs !! i) as [[r|]|]; cbn; split; intros E; done || discriminate E. }
  unfold heads in H1. rewrite length_fmap in H1. unfold tails in K1, K3. rewrite length_fmap in K1, K3.
  split; [|split; [|split]].
  - split; [exact H1|]. split; [exact K1|]. intros i Hi Hnull.
    assert (vs !! Z.to_nat i = Some None) as Hv by (apply Hn; split; [lia|by rewrite Z2Nat.id by lia]).
    rewrite <-(Z2Nat.id i) by lia. apply H3. by rewrite lookup_heads, Hv.
  - split; [exact H2|]. split; [by rewrite Hc|exact K2].
  - split; [exact H1|]. split; [exact H2|exact K3].
  - intros i [v r] Hi. change ((row t (flat_vector t (heads vs)) (Z.of_nat i), struct_rows ts (flat_vectors ts (tails vs)) (Z.of_nat i)) = (v, r)).
    rewrite (H3 i v), (K4 i r); [done|by rewrite lookup_tails, Hi|by rewrite lookup_heads, Hi].
Qed.

Lemma list_entries_lookup {A} (vs : list (option (list A))) off i v :
  vs !! i = Some v →
  list_entries off vs !! i = Some (mkEntry (off + Z.of_nat (length (elements_of (take i vs)))) (Z.of_nat (length (default [] v)))) ∧
  take (length (default [] v)) (drop (length (elements_of (take i vs))) (elements_of vs)) = default [] v ∧
  (length (elements_of (take i vs)) + length (default [] v) ≤ length (elements_of vs))%nat.
Proof.
  revert off i. induction vs as [|w vs IH]; intros off [|i] Hi; [done|done| |].
  - injection Hi as ->. unfold elements_of. cbn [take drop fmap list_fmap concat length list_entries lookup list_lookup].
    rewrite length_app. split; [|split]; [|by rewrite drop_0, take_app_length|cbn; lia].
    cbn. do 2 f_equal. lia.
  - destruct (IH (off + Z.of_nat (length (default [] w))) i Hi) as (H1 & H2 & H3).
    unfold elements_of in *. cbn [take fmap list_fmap concat list_entries lookup list_lookup]. rewrite !length_app. split_and!.
    + change (list_entries (off + Z.of_nat (length (default [] w))) vs !! i = Some (mkEntry (off + Z.of_nat (length (default [] w) + length (concat (default [] <$> take i vs)))) (Z.of_nat (length (default [] v))))).
      rewrite H1. do 2 f_equal. lia.
    + rewrite drop_app_add. exact H2.
    + lia.
Qed.

Lemma length_list_entries {A} off (vs : list (option (list A))) : length (list_entries off vs) = length vs.
Proof. revert off. induction vs as [|v vs IH]; intros off; [done|]. cbn. by rewrite IH. Qed.

Lemma flat_vector_ok t : flat_ok t.
Proof.
  induction t as [s|ts IH|t IH|t n IH] using Ty_nested_ind; intros vs Ha Hs; [| | |done].
  - cbn [vector_ok shape_ok row flat_vector]. unfold flat_vec. destruct (flat_rows vs (default (zero_payload s) <$> vs)) as [H1 H2]; [apply length_fmap|].
    split_and!; [done|done|]. intros i v Hi. etransitivity; [exact (H2 i v Hi)|]. destruct v as [x|]; [|done].
    etransitivity; [apply list_lookup_fmap|]. etransitivity; [exact (f_equal (fmap _) Hi)|]. done.
  - set (own := mkVec FLAT_VECTOR ((λ _ : val (TStruct ts), tt) <$> vs) (Some (is_valid <$> vs)) []).
    destruct (flat_rows vs ((λ _ : val (TStruct ts), tt) <$> vs)) as [H1 H2]; [apply length_fmap|]. fold own in H1, H2.
    destruct (flat_children ts IH vs own Ha Hs eq_refl) as (K1 & K2 & _ & K4).
    { intros i. split.
      - intros Hi. split; [by eapply lookup_lt_Some|]. by rewrite (H2 i None).
      - intros [Hi Hn]. destruct (lookup_lt_is_Some_2 vs i Hi) as [v Hv]. rewrite (H2 i v Hv) in Hn.
        destruct v; [|done]. by rewrite list_lookup_fmap, Hv in Hn. }
    split; [split; [exact H1|exact K1]|]. split; [exact K2|]. intros i v Hi.
    change (match vec_row own (Z.of_nat i) with None => None | Some _ => Some (struct_rows ts (flat_vectors ts vs) (Z.of_nat i)) end = v).
    rewrite (H2 i v Hi). destruct v as [r|]; [|done]. rewrite list_lookup_fmap, Hi. cbn. by rewrite (K4 i r).
  - destruct Hs as [Hs1 Hs2]. destruct (IH (elements_of vs) Ha Hs2) as (K1 & K2 & K3).
    destruct (flat_rows vs (list_entries 0 vs)) as [H1 H2]; [apply length_list_entries|].
    split; [|split; [done|]].
    + split; [exact H1|]. split; [split; [apply Nat2Z.is_nonneg|exact Hs1]|]. split; [exact K1|]. intros i e Hi He. cbn [flat_vector fst snd] in He.
      destruct (lookup_lt_is_Some_2 vs (Z.to_nat i)) as [v Hv]; [lia|].
      pose proof (H2 _ v Hv) as Er. rewrite Z2Nat.id in Er by lia. rewrite Er in He. destruct v as [l|]; [|done].
      destruct (list_entries_lookup vs 0 _ _ Hv) as (L1 & L2 & L3). rewrite L1 in He. injection He as <-.
      cbn [offset length_ fst snd flat_vector]. change (default [] (Some l)) with l in L3. lia.
    + intros i v Hi. cbn [row flat_vector fst snd]. rewrite (H2 i v Hi). destruct v as [l|]; [|done].
      destruct (list_entries_lookup vs 0 _ _ Hi) as (L1 & L2 & L3). rewrite L1. f_equal. change (default [] (Some l)) with l in *. cbn [offset length_] in *.
      etransitivity; [|exact L2]. apply list_eq. intros k. rewrite list_lookup_fmap. destruct (decide (k < length l)%nat) as [Hk|Hk].
      * rewrite lookup_seqZ_lt, lookup_take_lt, lookup_drop by lia. cbn.
        destruct (lookup_lt_is_Some_2 (elements_of vs) (length (elements_of (take i vs)) + k)) as [x Hx];
          [exact (Nat.lt_le_trans _ _ _ (proj1 (Nat.add_lt_mono_l _ _ _) Hk) L3)|].
        etransitivity; [|symmetry; exact Hx]. f_equal. etransitivity; [|exact (K3 _ x Hx)]. f_equal. apply eq_sym, Nat2Z.inj_add.
      * rewrite lookup_seqZ_ge by lia. cbn. symmetry. apply lookup_ge_None_2. rewrite length_take. lia.
Qed.

#[export] Instance flat_copy_ok : ColumnCopyOk.
Proof.
  intros ts rows Ha Hs. set (own := mkVec FLAT_VECTOR ((λ _, tt) <$> rows) None [] : vec unit).
  destruct (flat_children ts ltac:(apply Forall_forall; intros t _; apply flat_vector_ok) (Some <$> rows) own Ha Hs eq_refl) as (_ & _ & H1 & H2).
  - intros i. rewrite length_fmap, list_lookup_fmap. split; [destruct (rows !! i); done|].
    intros [Hi Hn]. destruct (lookup_lt_is_Some_2 rows i Hi) as [r Hr]. unfold vec_row, vec_index in Hn. cbn in Hn.
    by rewrite Nat2Z.id, list_lookup_fmap, Hr in Hn.
  - rewrite length_fmap in H1. split; [exact H1|]. intros i r Hi. apply H2. by rewrite list_lookup_fmap, Hi.
Qed.
