(* ===== verification/UseBF.v ===== *)
(** * Using a Bloom filter: the kernel and the operator PhysicalUseBF

    Models [bloom_filter_use_kernel.cpp], [physical_use_bf.cpp] and the base
    class [CachingPhysicalOperator] of [physical_operator.cpp], which collects
    the rows of small chunks before handing them on. *)

From S2P Require Import Prelude Arrow BloomMasks BloomFilter BloomAvx2 PartitionSort BloomLookup ValueHash Values VectorHash Storage.
Local Open Scope Z_scope.
Local Open Scope machine_scope.

(** ** Key columns *)

(** [result[cols[i]]] for every bound column. *)
Definition key_columns (ts : list Ty) (vs : vectors ts) (cols : list nat) : outcome (list column) :=
  checked (mapM (column_at ts vs) cols).

(** [hashes.GetData()], of which the first [count] entries are read. *)
Definition hash_array (h : hash_vector) (count : Z) : outcome (list Z) :=
  ofold (λ acc i, let* x := get h.(h_data) i in Ret (acc ++ [x])) (seqZ 0 count) [].

(** The hashes of the key columns of a chunk. *)
Definition chunk_hashes (ts : list Ty) (vs : vectors ts) (cols : list nat) (count : Z) : outcome (list Z) :=
  let* cs := key_columns ts vs cols in
  let* hashes := hash_keys cs count in
  hash_array hashes count.

(** ** The kernel and the operator *)

Section Use.
  Context `{ArrowBits} (masks_ : list Z).

(** [BloomFilterUseKernel::filter]: the selection and its size. *)
Definition UseKernel_filter {ts} (result : vectors ts) (bloom_filter : BlockedBloomFilter) (sel : list Z) (row_num : Z)
    : outcome (list Z * Z) :=
  if isEmpty bloom_filter then Ret (sel, 0) else
  let* hashes := chunk_hashes ts result bloom_filter.(BoundColsApplied) row_num in
  let* s := FindBatch masks_ CpuInfo_AVX2 bloom_filter row_num hashes (mkSel sel 0) false in
  Ret (s.(sel_vector), s.(result_count)).

(** [PhysicalUseBF::ExecuteInternal]; [sel] is the fresh selection vector. *)
Definition ExecuteInternal {ts} (bf_to_use : list BlockedBloomFilter) (sel : list Z) (input : DataChunk ts)
    : outcome (DataChunk ts) :=
  let row_num := input.(csize) in
  let* bf := vec_at bf_to_use 0 in
  let* (sel, result_count) := UseKernel_filter input.(cdata) bf sel row_num in
  if result_count =? row_num then Ret (Reference input) else Slice input sel result_count.
End Use.

(** ** CachingPhysicalOperator *)

Definition CACHE_THRESHOLD : Z := 64.

(** [CanCacheType]. *)
Fixpoint CanCacheType (t : Ty) : bool :=
  match t with
  | TList _ | TArray _ _ => false
  | TStruct ts => forallb CanCacheType ts
  | TScalar _ => true
  end.

Inductive OperatorResultType := NEED_MORE_INPUT | HAVE_MORE_OUTPUT | FINISHED | BLOCKED.

(** [DataChunk::Append] of rows to a chunk of capacity [STANDARD_VECTOR_SIZE]. *)
Definition chunk_append {R : Type} (rows other : list R) : outcome (list R) :=
  match other with
  | [] => Ret rows
  | _ =>
      if STANDARD_VECTOR_SIZE <? Z.of_nat (length rows + length other)
      then Throw "Can't append chunk to other chunk without resizing" else Ret (rows ++ other)
  end.

Section Caching.
  Context `{ColumnCopy} {ts : list Ty} (inner : DataChunk ts → outcome (OperatorResultType * DataChunk ts)).

Record CachingOperatorState := mkCaching {
  cached_chunk : option (list (tuple ts));
  initialized : bool;
  can_cache_chunk : bool
}.

(** [make_uniq<CachingOperatorState>()]. *)
Definition GetOperatorState : CachingOperatorState := mkCaching None false false.

Definition chunk_of (rows : list (tuple ts)) : DataChunk ts := mkChunk (copy_rows ts rows) (Z.of_nat (length rows)).

(** [caching_supported], as the constructor computes it. *)
Definition caching_supported : bool := forallb CanCacheType ts.

(** [Execute]; [inner] is [ExecuteInternal]. *)
Definition Execute (OperatorCachingAllowed : bool) (state : CachingOperatorState) (input : DataChunk ts)
    : outcome (OperatorResultType * CachingOperatorState * DataChunk ts) :=
  let* (child_result, chunk) := inner input in
  let state := if state.(initialized) then state
    else mkCaching state.(cached_chunk) true (caching_supported && OperatorCachingAllowed) in
  if negb state.(can_cache_chunk) then Ret (child_result, state, chunk) else
  if chunk.(csize) <? CACHE_THRESHOLD then
    let* cached := chunk_append (default [] state.(cached_chunk)) (chunk_rows chunk) in
    if (STANDARD_VECTOR_SIZE - CACHE_THRESHOLD <=? Z.of_nat (length cached)) ||
       match child_result with FINISHED => true | _ => false end
    then Ret (child_result, mkCaching (Some []) state.(initialized) state.(can_cache_chunk), chunk_of cached)
    else Ret (child_result, mkCaching (Some cached) state.(initialized) state.(can_cache_chunk), chunk_of [])
  else Ret (child_result, state, chunk).

(** [FinalExecute]. *)
Definition FinalExecute (state : CachingOperatorState) : DataChunk ts * CachingOperatorState :=
  match state.(cached_chunk) with
  | Some rows => (chunk_of rows, mkCaching None state.(initialized) state.(can_cache_chunk))
  | None => (chunk_of [], state)
  end.

(** The chunks the operator hands on, for a sequence of input chunks. *)
Fixpoint run_operator (allowed : bool) (state : CachingOperatorState) (inputs : list (DataChunk ts))
    : outcome (list (DataChunk ts)) :=
  match inputs with
  | [] => Ret [(FinalExecute state).1]
  | input :: inputs =>
      let* (_, state, chunk) := Execute allowed state input in
      let* chunks := run_operator allowed state inputs in
      Ret (chunk :: chunks)
  end.

(** ** Facts: caching *)

Context `{!ColumnCopyOk}.

Lemma can_cache_small t : CanCacheType t = true → array_free t = true ∧ ∀ vs, small t vs.
Proof.
  induction t as [s|us IH|t IH|t n IH] using Ty_nested_ind; try done. cbn [CanCacheType array_free]. intros Hc.
  induction IH as [|t us Ht _ IHus]; [done|]. cbn in Hc. apply andb_prop in Hc as [Hc1 Hc2].
  destruct (Ht Hc1) as [Ha Hs], (IHus Hc2) as [Hb Hr]. split; [cbn; by rewrite Ha, Hb|].
  intros vs. split; [apply Hs|]. apply (Hr (tails vs)).
Qed.

Lemma caching_small : caching_supported = true → forallb array_free ts = true ∧ ∀ vs, small_rows ts vs.
Proof.
  unfold caching_supported. clear. induction ts as [|t us IH]; [done|]. cbn. intros [Hc1 Hc2]%andb_prop.
  destruct (can_cache_small t Hc1) as [Ha Hs], (IH Hc2) as [Hb Hr]. rewrite Ha, Hb. split; [done|].
  intros vs. split; [apply Hs|]. apply (Hr (tails vs)).
Qed.

Lemma chunk_of_rows rows :
  forallb array_free ts = true → small_rows ts (Some <$> rows) → Z.of_nat (length rows) ≤ STANDARD_VECTOR_SIZE →
  chunk_ok (chunk_of rows) ∧ chunk_rows (chunk_of rows) = rows.
Proof.
  intros Ha Hs Hl. destruct (copy_rows_ok ts rows Ha Hs) as [Hok Hr]. split.
  - split; [cbn; lia|done].
  - unfold chunk_rows, chunk_of. cbn [cdata csize]. apply list_eq. intros i. rewrite list_lookup_fmap.
    destruct (rows !! i) as [r|] eqn:E.
    + rewrite lookup_seqZ_lt by (apply lookup_lt_Some in E; lia). cbn. f_equal. by apply Hr.
    + rewrite lookup_seqZ_ge by (apply lookup_ge_None in E; lia). done.
Qed.

Lemma chunk_of_ok rows :
  caching_supported = true → Z.of_nat (length rows) ≤ STANDARD_VECTOR_SIZE →
  chunk_ok (chunk_of rows) ∧ chunk_rows (chunk_of rows) = rows.
Proof. intros [Ha Hs]%caching_small Hl. by apply chunk_of_rows. Qed.

Lemma chunk_of_nil : chunk_rows (chunk_of []) = [].
Proof. done. Qed.

Lemma chunk_rows_length (c : DataChunk ts) : length (chunk_rows c) = Z.to_nat c.(csize).
Proof. unfold chunk_rows. by rewrite length_fmap, length_seqZ. Qed.

(** The rows kept back are few, and only kept when the types allow it. *)
Definition caching_ok (st : CachingOperatorState) : Prop :=
  (st.(can_cache_chunk) = true → caching_supported = true) ∧
  (st.(initialized) = false → st.(cached_chunk) = None) ∧
  (st.(cached_chunk) ≠ None → st.(can_cache_chunk) = true) ∧
  Z.of_nat (length (default [] st.(cached_chunk))) < STANDARD_VECTOR_SIZE - CACHE_THRESHOLD.

(** One call hands on or keeps back the rows of its input. *)
Lemma Execute_ok allowed st input f :
  caching_ok st → (∀ r c, inner input = Ret (r, c) → chunk_ok c ∧ chunk_rows c = f) → (∃ r c, inner input = Ret (r, c)) →
  ∃ r st' c', Execute allowed st input = Ret (r, st', c') ∧ caching_ok st' ∧ (∃ c, inner input = Ret (r, c)) ∧ chunk_ok c' ∧
    chunk_rows c' ++ default [] st'.(cached_chunk) ≡ₚ default [] st.(cached_chunk) ++ f.
Proof.
  intros Hok Hinner (r & c & E). destruct (Hinner r c E) as [Hc Hf]. unfold Execute. rewrite E. orun.
  set (st1 := if initialized st then _ else _).
  assert (caching_ok st1 ∧ cached_chunk st1 = cached_chunk st ∧ initialized st1 = true) as (Hok1 & Hcc & Hini).
  { subst st1. destruct (initialized st) eqn:Ei; [done|]. destruct Hok as (H1 & H2 & H3 & H4). split; [|done]. split; [|split; [done|split; [by rewrite H2|done]]].
    intros Hs. cbn in Hs |- *. by apply andb_prop in Hs as [? _]. }
  rewrite <-Hcc. clearbody st1. destruct Hok1 as (H1 & H2 & H3 & H4). destruct (can_cache_chunk st1) eqn:Ecan; cbn [negb].
  2: { exists r, st1, c. split_and!; [done|split_and!; try done; by rewrite Ecan|by eexists|by apply Hc..|].
       assert (cached_chunk st1 = None) as Hn by (destruct (cached_chunk st1); [by specialize (H3 ltac:(done))|done]).
       rewrite Hn, Hf. cbn. by rewrite app_nil_r. }
  destruct (Z.ltb_spec (csize c) CACHE_THRESHOLD) as [Hlt|Hge].
  2: { exists r, st1, c. split_and!; [done|split_and!; try done; by rewrite Ecan|by eexists|by apply Hc..|]. rewrite Hf. apply Permutation_app_comm. }
  set (old := default [] (cached_chunk st1)) in *. pose proof (chunk_rows_length c) as Hl. destruct Hc as [Hsz _]. pose proof (H1 eq_refl) as Hsup.
  assert (chunk_append old (chunk_rows c) = Ret (old ++ chunk_rows c)) as ->.
  { unfold chunk_append. destruct (chunk_rows c) eqn:Er; [by rewrite app_nil_r|].
    rewrite (proj2 (Z.ltb_ge _ _)); [done|]. unfold STANDARD_VECTOR_SIZE, CACHE_THRESHOLD in *. lia. }
  orun. rewrite Hf in Hl |- *. assert (Z.of_nat (length (old ++ f)) ≤ STANDARD_VECTOR_SIZE).
  { rewrite length_app. unfold STANDARD_VECTOR_SIZE, CACHE_THRESHOLD in *. lia. }
  destruct (_ || _) eqn:Efull.
  - destruct (chunk_of_ok (old ++ f)) as [Hco ?]; [done|done|]. eexists r, _, _. split_and!; [done| |by eexists|by apply Hco..|].
    + split_and!; [intros _; by apply H1|by cbn; rewrite Hini|by intros|done].
    + cbn [cached_chunk default]. destruct (chunk_of_ok (old ++ f)) as [_ ->]; [by apply H1|done|]. cbn. by rewrite app_nil_r.
  - destruct (chunk_of_ok []) as [Hco _]; [done|done|]. eexists r, _, _. split_and!; [done| |by eexists|by apply Hco..|].
    + apply orb_false_elim in Efull as [Efull%Z.leb_gt _].
      split_and!; [intros _; by apply H1|by cbn; rewrite Hini|by intros|done].
    + by rewrite chunk_of_nil.
Qed.

(** The operator hands on exactly the rows of its inner function, possibly
    later: no row is lost or duplicated by the caching. *)
Lemma run_operator_ok allowed (f : list (tuple ts) → list (tuple ts)) inputs st :
  (∀ input, chunk_ok input → ∃ c, inner input = Ret (NEED_MORE_INPUT, c) ∧ chunk_ok c ∧ chunk_rows c = f (chunk_rows input)) →
  caching_ok st → Forall chunk_ok inputs →
  ∃ outputs, run_operator allowed st inputs = Ret outputs ∧
    concat (chunk_rows <$> outputs) ≡ₚ default [] st.(cached_chunk) ++ concat (f ∘ chunk_rows <$> inputs).
Proof.
  intros Hinner Hst Hin. revert st Hst. induction Hin as [|input inputs Hi _ IH]; intros st Hst.
  - eexists. split; [done|]. cbn [fmap list_fmap concat]. rewrite !app_nil_r. unfold FinalExecute.
    destruct Hst as (H1 & _ & H3 & H4). destruct (cached_chunk st) as [rows|] eqn:E; [|done]. cbn in H4 |- *.
    destruct (chunk_of_ok rows) as [_ ->]; [by apply H1, H3| |done]. unfold CACHE_THRESHOLD in H4. lia.
  - destruct (Hinner input Hi) as (c & E & Hc & Hf).
    destruct (Execute_ok allowed st input (f (chunk_rows input)) Hst) as (r & st' & c' & E' & Hst' & _ & _ & Hp).
    + rewrite E. by intros ? ? [= <- <-].
    + by eexists _, _.
    + destruct (IH st' Hst') as (outs & E2 & Hp2). cbn [run_operator]. rewrite E'. orun. rewrite E2. orun.
      eexists. split; [done|]. cbn [fmap list_fmap concat]. rewrite Hp2, app_assoc, Hp. cbn [compose]. by rewrite <-app_assoc.
Qed.
End Caching.
Arguments CachingOperatorState : clear implicits.

(** ** Facts: hashes of rows *)

(** The key of a row, and its hash. *)
Definition row_key (ts : list Ty) (cols : list nat) (r : tuple ts) : option key := mapM (value_at ts r) cols.

Definition row_hash (ts : list Ty) (cols : list nat) (r : tuple ts) : Z :=
  match row_key ts cols r with Some k => key_hash true 0 k | None => 0 end.

(** The key columns exist and have types the vectorised code hashes as intended. *)
Definition keys_safe (ts : list Ty) (cols : list nat) : bool :=
  match mapM (λ c, ts !! c) cols with
  | Some (t :: us) => safe t true true && forallb (λ t, safe t false false) us
  | _ => false
  end.

Lemma column_at_ok ts (vs : vectors ts) c t count :
  vectors_ok ts vs count → ts !! c = Some t →
  ∃ v, column_at ts vs c = Some (existT t v) ∧ vector_ok t v count ∧
    ∀ i, value_at ts (struct_rows ts vs i) c = Some (existT t (row t v i)).
Proof.
  revert vs c. induction ts as [|u ts IH]; intros vs [|c] Hok Ht; [done|done| |].
  - injection Ht as ->. destruct Hok as (Hv & _ & _). by exists vs.1.
  - destruct Hok as (_ & _ & Hok). apply (IH vs.2 c Hok Ht).
Qed.

Lemma key_columns_ok ts (vs : vectors ts) cols count :
  keys_safe ts cols = true → vectors_ok ts vs count →
  ∃ cs, key_columns ts vs cols = Ret cs ∧ columns_safe cs = true ∧
    Forall (λ c : column, vector_ok (projT1 c) (projT2 c) count) cs ∧
    ∀ i, row_key ts cols (struct_rows ts vs i) = Some (key_of cs i).
Proof.
  intros Hs Hok. unfold keys_safe in Hs. destruct (mapM (λ c, ts !! c) cols) as [tys|] eqn:E; [|done].
  apply mapM_Some in E.
  assert (∃ cs : list column, mapM (column_at ts vs) cols = Some cs ∧ projT1 <$> cs = tys ∧
    Forall (λ c : column, vector_ok (projT1 c) (projT2 c) count) cs ∧
    ∀ i, mapM (value_at ts (struct_rows ts vs i)) cols = Some (key_of cs i)) as (cs & E1 & E2 & H3 & H4).
  { clear Hs. induction E as [|c t cols tys Hc _ IH]; [by exists []|].
    destruct IH as (cs & E1 & E2 & H3 & H4). destruct (column_at_ok ts vs c t count Hok Hc) as (v & Ev & Hv & Hr).
    exists (existT t v :: cs). cbn [mapM]. rewrite Ev, E1. split_and!; [done|by cbn; rewrite E2|by constructor|].
    intros i. by rewrite Hr, H4. }
  exists cs. unfold key_columns. rewrite E1. split_and!; [done| |done|exact H4].
  subst tys. destruct cs as [|c cs]; [done|]. cbn [fmap list_fmap] in Hs. unfold columns_safe.
  apply andb_prop in Hs as [-> Hs]. cbn. clear -Hs. induction cs as [|c cs IH]; [done|]. cbn in *.
  apply andb_prop in Hs as [-> Hs]. auto.
Qed.

Lemma hash_array_ok h count g :
  0 ≤ count → (∀ i, 0 ≤ i < count → h.(h_data) !! Z.to_nat i = Some (Some (g i))) →
  hash_array h count = Ret (g <$> seqZ 0 count).
Proof.
  intros Hc Hg. unfold hash_array.
  edestruct (ofold_seqZ (λ i l, l = g <$> seqZ 0 i)) as (l & -> & ->); [exact Hc|done| |done].
  intros i l Hi ->. rewrite (get_Some _ i (g i)) by (lia || (apply Hg; lia)). orun. eexists. split; [done|].
  rewrite (seqZ_app 0 i 1), fmap_app by lia. by rewrite Z.add_0_l.
Qed.

Lemma chunk_hashes_ok ts (c : DataChunk ts) cols :
  keys_safe ts cols = true → chunk_ok c →
  chunk_hashes ts c.(cdata) cols c.(csize) = Ret (row_hash ts cols <$> chunk_rows c).
Proof.
  intros Hs [Hc Hok]. destruct (key_columns_ok ts c.(cdata) cols c.(csize) Hs Hok) as (cs & E1 & E2 & E3 & E4).
  unfold chunk_hashes. rewrite E1. orun. destruct (hash_keys_ok cs c.(csize) E2 E3 Hc) as (h & -> & _ & Hh). orun.
  rewrite (hash_array_ok h _ _ (proj1 Hc) Hh). f_equal. unfold chunk_rows. rewrite <-list_fmap_compose. apply list_fmap_ext.
  intros i j _. cbn. unfold row_hash. by rewrite E4.
Qed.

Lemma filter_positions {A} (g : Z → A) (f : Z → bool) (P : A → Prop) `{!∀ x, Decision (P x)} (l : list Z) :
  (∀ i, i ∈ l → f i = true ↔ P (g i)) → g <$> filter (λ i, f i = true) l = filter P (g <$> l).
Proof.
  induction l as [|i l IH]; intros Hf; [done|]. cbn [fmap list_fmap].
  rewrite !filter_cons. specialize (IH ltac:(intros j Hj; apply Hf; by right)). pose proof (Hf i ltac:(left)) as Hi.
  destruct (decide (f i = true)) as [E|E], (decide (P (g i))) as [E'|E']; try (exfalso; tauto); [|done]. cbn. by f_equal.
Qed.

Lemma filter_full {A} (P : A → Prop) `{!∀ x, Decision (P x)} (l : list A) : length (filter P l) = length l → filter P l = l.
Proof.
  induction l as [|a l IH]; [done|]. rewrite filter_cons. pose proof (length_filter P l).
  destruct (decide (P a)); cbn; [intros [= E]; by rewrite IH|lia].
Qed.

Lemma concat_filter {A B} (g : A → list B) (P : B → Prop) `{!∀ x, Decision (P x)} (l : list A) :
  concat ((λ rows, filter P rows) ∘ g <$> l) = filter P (concat (g <$> l)).
Proof. induction l as [|a l IH]; [done|]. cbn [fmap list_fmap concat]. rewrite filter_app. by rewrite <-IH. Qed.

Section UseFacts.
  Context `{ArrowBitsOk} (masks_ : list Z) (masks_good : masks_ok masks_).

(** A row the filter accepts. *)
Definition accepted (bf : BlockedBloomFilter) (bs : list Z) (ts : list Ty) (cols : list nat) (r : tuple ts) : bool :=
  find_in masks_ bf.(log_num_blocks_) bs (row_hash ts cols r).

(** The operator keeps exactly the rows the filter accepts, in order. *)
Lemma ExecuteInternal_ok {ts} bf bfs bs sel (input : DataChunk ts) :
  forallb array_free ts = true → keys_safe ts bf.(BoundColsApplied) = true → bf_ok bf bs →
  Z.of_nat (length sel) = STANDARD_VECTOR_SIZE → chunk_ok input →
  ∃ c, ExecuteInternal masks_ (bf :: bfs) sel input = Ret c ∧ chunk_ok c ∧
    chunk_rows c = filter (λ r, accepted bf bs ts bf.(BoundColsApplied) r = true) (chunk_rows input).
Proof.
  intros Ha Hs Hbf Hsel Hin. pose proof Hin as [Hsz _]. unfold ExecuteInternal, vec_at. cbn [lookup list_lookup]. orun.
  unfold UseKernel_filter, isEmpty. rewrite (ok_blocks _ _ Hbf). rewrite chunk_hashes_ok by done. orun.
  set (hs := row_hash ts _ <$> chunk_rows input).
  assert (length hs = Z.to_nat (csize input)) as Hlen by (unfold hs; by rewrite length_fmap, chunk_rows_length).
  destruct (FindBatch_ok masks_ masks_good CpuInfo_AVX2 bf bs input.(csize) hs (mkSel sel 0) [] (length sel) false)
    as (s & -> & Hl & Hc & Hpre); [done|lia|unfold STANDARD_VECTOR_SIZE in *; lia| |cbn [length]; lia|].
  { split_and!; [done|done|apply prefix_nil]. }
  orun. cbn [app] in *. set (ps := positions _ _ _) in *.
  assert (struct_rows ts input.(cdata) <$> ps =
    filter (λ r, accepted bf bs ts (BoundColsApplied bf) r = true) (chunk_rows input)) as Hrows.
  { unfold ps, positions, chunk_rows. apply filter_positions. intros i Hi%elem_of_seqZ. unfold hit, accepted.
    rewrite (blk_lookup hs i (row_hash ts (BoundColsApplied bf) (struct_rows ts (cdata input) i))); [done|].
    unfold hs, chunk_rows. rewrite !list_lookup_fmap, lookup_seqZ_lt by lia. cbn. do 3 f_equal. lia. }
  assert (length ps ≤ Z.to_nat (csize input))%nat as Hps by apply positions_length.
  rewrite Hc. destruct (Z.eqb_spec (Z.of_nat (length ps)) (csize input)) as [Eall|_].
  - exists input. split_and!; [done|done..|]. rewrite <-Hrows. unfold chunk_rows. f_equal. unfold ps, positions.
    symmetry. apply filter_full. rewrite length_seqZ. fold (positions (hit masks_ bf bs hs) 0 (csize input)). fold ps. lia.
  - destruct (Slice_ok input s.(sel_vector) (Z.of_nat (length ps))) as (c & E & Hok & Hcs & Hr); [done|done| |lia|].
    + split; [rewrite Hl; lia|]. intros i Hi. destruct (lookup_lt_is_Some_2 ps (Z.to_nat i)) as [p Hp]; [lia|].
      rewrite (blk_lookup _ _ p) by (destruct Hpre as [k ->]; by apply lookup_app_l_Some).
      apply list_elem_of_lookup_2, elem_of_positions in Hp. lia.
    + exists c. split_and!; [done|apply Hok..|]. rewrite <-Hrows. unfold chunk_rows. rewrite Hcs. apply list_eq. intros i.
      rewrite !list_lookup_fmap. destruct (ps !! i) as [p|] eqn:Ep.
      * pose proof (lookup_lt_Some _ _ _ Ep). rewrite lookup_seqZ_lt by lia. cbn. f_equal. rewrite Hr by lia. f_equal.
        apply blk_lookup. replace (Z.to_nat (0 + Z.of_nat i)) with i by lia. destruct Hpre as [k ->]. by apply lookup_app_l_Some.
      * apply lookup_ge_None in Ep. rewrite lookup_seqZ_ge by lia. done.
Qed.
End UseFacts.

(** ** Properties *)

Definition answers (o : outcome bool) : bool := match o with Ret b => b | _ => false end.

(** The operator [PhysicalUseBF]: its inner function never asks to stop. *)
Definition PhysicalUseBF `{ArrowBits} {ts} (masks_ : list Z) (bf_to_use : list BlockedBloomFilter) (sel : list Z)
    (input : DataChunk ts) : outcome (OperatorResultType * DataChunk ts) :=
  let* chunk := ExecuteInternal masks_ bf_to_use sel input in Ret (NEED_MORE_INPUT, chunk).

(** C17: the operator that uses a filter.  For any sequence of input chunks,
    in any representation, and whether or not small chunks are cached, the
    chunks [PhysicalUseBF] hands on hold exactly the input rows whose key
    hash the filter accepts, each as often as in the input.  Their order may
    change: a cached small chunk is handed on after a large one that came
    later.  Columns hold no arrays, and key columns are of types the code hashes
    as intended ([keys_safe]). *)
Theorem use_bf_keeps_accepted_rows `{ArrowBitsOk} `{ColumnCopyOk} {ts} (masks_ : list Z) (bf : BlockedBloomFilter)
    (bfs : list BlockedBloomFilter) (bs sel : list Z) (allowed : bool) (inputs : list (DataChunk ts)) :
  masks_ok masks_ → bf_ok bf bs → Z.of_nat (length sel) = STANDARD_VECTOR_SIZE →
  forallb array_free ts = true → keys_safe ts bf.(BoundColsApplied) = true → Forall chunk_ok inputs →
  ∃ outputs, run_operator (PhysicalUseBF masks_ (bf :: bfs) sel) allowed GetOperatorState inputs = Ret outputs ∧
    concat (chunk_rows <$> outputs) ≡ₚ
      filter (λ r, answers (Find masks_ bf (row_hash ts bf.(BoundColsApplied) r)) = true) (concat (chunk_rows <$> inputs)).
Proof.
  intros Hm Hbf Hsel Ha Hk Hin.
  destruct (run_operator_ok (PhysicalUseBF masks_ (bf :: bfs) sel) allowed
    (λ rows, filter (λ r, answers (Find masks_ bf (row_hash ts bf.(BoundColsApplied) r)) = true) rows) inputs GetOperatorState)
    as (outs & E & Hp); [| |done|].
  - intros input Hi. destruct (ExecuteInternal_ok masks_ Hm bf bfs bs sel input Ha Hk Hbf Hsel Hi) as (c & E & Hc & Hr).
    exists c. unfold PhysicalUseBF. rewrite E. split_and!; [done|apply Hc..|]. rewrite Hr. apply list_filter_iff. intros r.
    unfold accepted. by rewrite (Find_find_in masks_ bf bs).
  - split_and!; done.
  - exists outs. split; [done|]. rewrite Hp. cbn [default GetOperatorState cached_chunk from_option app].
    by rewrite concat_filter.
Qed.

(** A filter on the first column of a table of integers and strings. *)
Definition sample_types : list Ty := [TScalar INT64; TScalar VARCHAR].

Definition bind_applied (cols : list nat) (bf : BlockedBloomFilter) : BlockedBloomFilter :=
  mkBlockedBloomFilter bf.(column_bindings_applied_) bf.(column_bindings_built_) cols bf.(BoundColsBuilt)
    bf.(log_num_blocks_) bf.(num_blocks_) bf.(use_64bit_hashes_) bf.(blocks_) bf.(Used_).

Lemma bind_applied_ok cols bf bs : bf_ok bf bs → bf_ok (bind_applied cols bf) bs.
Proof. by intros [H1 H2 H3 H4 H5]. Qed.

Definition sample_rows : list (tuple sample_types) := [(Some 42, (Some [104; 105], tt)); (None, (Some [], tt)); (Some 7, (None, tt))].

Lemma use_bf_keeps_accepted_rows_witness :
  ∃ outputs, run_operator (PhysicalUseBF sample_masks [bind_applied [0%nat] sample_result] (replicate 2048 0)) true GetOperatorState
      [chunk_of sample_rows; chunk_of (take 2 sample_rows)] = Ret outputs ∧
    concat (chunk_rows <$> outputs) ≡ₚ
      filter (λ r, answers (Find sample_masks (bind_applied [0%nat] sample_result) (row_hash sample_types [0%nat] r)) = true)
        (concat (chunk_rows <$> [chunk_of sample_rows; chunk_of (take 2 sample_rows)])).
Proof.
  apply (use_bf_keeps_accepted_rows sample_masks (bind_applied [0%nat] sample_result) []
    (puts sample_masks 3 (replicate 8 0) [70000; 1]));
    [apply sample_masks_ok|apply bind_applied_ok, sample_result_ok|done|done|done|].
  do 2 (apply Forall_cons; split; [by apply chunk_of_ok|]). apply Forall_nil_2.
Defined.
