(* ===== verification/CreateBF.v ===== *)
(** * Creating Bloom filters: the operator PhysicalCreateBF

    Models [physical_create_bf.cpp] as compiled without [External] and
    [UseHashFilter]: the sink buffers the rows of its input, [Finalize] starts
    one builder per filter, the finalize tasks hash the buffered chunks into
    the filters, and the source hands the buffered chunks on. *)

From S2P Require Import Prelude Arrow BloomMasks BloomFilter BloomAvx2 BloomLookup PartitionSort PartitionLocks BloomBuilder ValueHash Values VectorHash Storage UseBF.
Local Open Scope Z_scope.
Local Open Scope machine_scope.

Section CreateBF.
  Context `{ArrowBits} {G : Type} `{RandomSource G} `{ColumnCopy} (masks_ : list Z) (alloc : Z → bool) {ts : list Ty}.

(** ** Builders behind the interface [BloomFilterBuilder] *)

Inductive Builder :=
| SingleBuilder (b : SingleThreaded.BloomFilterBuilder_SingleThreaded)
| ParallelBuilder (b : Parallel.BloomFilterBuilder_Parallel G).

(** The choice of the builder in [Finalize]; the status of [Begin] is dropped. *)
Definition make_builder (num_threads num_rows : Z) (filter : BlockedBloomFilter) : outcome (Builder * BlockedBloomFilter) :=
  if num_threads =? 1 then
    let* (_, b, filter) := SingleThreaded.Begin alloc CpuInfo_AVX2 num_rows filter in Ret (SingleBuilder b, filter)
  else
    let* (_, b, filter) := Parallel.Begin alloc [] num_threads CpuInfo_AVX2 num_rows filter in Ret (ParallelBuilder b, filter).

(** [builder->PushNextBatch]. *)
Definition PushNextBatch (b : Builder) (thread_id : nat) (hashes : list Z) (filter : BlockedBloomFilter)
    : outcome (Builder * BlockedBloomFilter) :=
  match b with
  | SingleBuilder b =>
      let* (_, filter) := SingleThreaded.PushNextBatch masks_ b (Z.of_nat (length hashes)) hashes filter in Ret (SingleBuilder b, filter)
  | ParallelBuilder b =>
      let* (_, b, filter) := Parallel.PushNextBatch masks_ b thread_id hashes filter in Ret (ParallelBuilder b, filter)
  end.

(** [builder->BuiltCols()]. *)
Definition BuiltCols (b : Builder) (filter : BlockedBloomFilter) : list nat :=
  match b with
  | SingleBuilder _ => SingleThreaded.BuiltCols filter
  | ParallelBuilder _ => Parallel.BuiltCols filter
  end.

(** ** Sink *)

Record CreateBFGlobalSinkState := mkSink {
  builders : list (Builder * BlockedBloomFilter);
  local_data_collections : list (ColumnDataCollection (tuple ts));
  total_data : ColumnDataCollection (tuple ts)
}.

(** [GetGlobalSinkState] and [GetLocalSinkState]. *)
Definition GetGlobalSinkState : CreateBFGlobalSinkState := mkSink [] [] empty_collection.
Definition GetLocalSinkState : ColumnDataCollection (tuple ts) := empty_collection.

(** [Sink] and [Combine]. *)
Definition Sink (local_data : ColumnDataCollection (tuple ts)) (chunk : DataChunk ts)
    : outcome (ColumnDataCollection (tuple ts)) :=
  Append local_data (chunk_rows chunk).

Definition CombineLocal (gstate : CreateBFGlobalSinkState) (local_data : ColumnDataCollection (tuple ts))
    : CreateBFGlobalSinkState :=
  mkSink gstate.(builders) (gstate.(local_data_collections) ++ [local_data]) gstate.(total_data).

(** [Finalize], up to the scheduling of the finalize tasks. *)
Definition Finalize (num_threads : Z) (bf_to_create : list BlockedBloomFilter) (sink : CreateBFGlobalSinkState)
    : outcome CreateBFGlobalSinkState :=
  let total := fold_left Combine sink.(local_data_collections) sink.(total_data) in
  let num_rows := total.(count_) in
  let* bs := ofold (λ bs filter, let* b := make_builder num_threads num_rows filter in Ret (bs ++ [b])) bf_to_create sink.(builders) in
  Ret (mkSink bs [] total).

(** ** Finalize tasks *)

Definition PARALLEL_CONSTRUCT_THRESHOLD : Z := 1048576.

(** [chunks_per_thread], as [Schedule] and [GetGlobalSourceState] compute it. *)
Definition chunks_per_thread (chunk_count num_threads : Z) : Z := Z.max ((chunk_count + num_threads - 1) / num_threads) 1.

(** The loop of [Schedule] over the threads. *)
Fixpoint task_ranges (n : nat) (per_thread chunk_count chunk_idx : Z) : list (Z * Z) :=
  match n with
  | O => []
  | S n =>
      let chunk_idx_to := Z.min (chunk_idx + per_thread) chunk_count in
      (chunk_idx, chunk_idx_to) ::
        (if chunk_idx_to =? chunk_count then [] else task_ranges n per_thread chunk_count chunk_idx_to)
  end.

(** [CreateBFFinalizeEvent::Schedule]. *)
Definition Schedule (num_threads : Z) (verify_parallelism : bool) (sink : CreateBFGlobalSinkState) : list (Z * Z) :=
  let chunk_count := ChunkCount sink.(total_data) in
  if (num_threads =? 1) || ((sink.(total_data).(count_) <? PARALLEL_CONSTRUCT_THRESHOLD) && negb verify_parallelism)
  then [(0, chunk_count)]
  else task_ranges (Z.to_nat num_threads) (chunks_per_thread chunk_count num_threads) chunk_count 0.

(** The index of the running thread among the threads of the scheduler; the
    thread that runs the query itself has index 0. *)
Fixpoint thread_index_from (i : nat) (threads : list Z) (threadId : Z) : nat :=
  match threads with
  | [] => 0
  | t :: threads => if threadId =? t then (i + 1)%nat else thread_index_from (i + 1) threads threadId
  end.

Definition thread_index (threads : list Z) (threadId : Z) : nat := thread_index_from 0 threads threadId.

(** The body of the loop of [ExecuteTask]: chunk [i] is hashed into every filter. *)
Definition push_chunk (thread_id : nat) (sink : CreateBFGlobalSinkState) (i : Z) : outcome CreateBFGlobalSinkState :=
  let* rows := FetchChunk sink.(total_data) i in
  let chunk := chunk_of rows in
  let* bs := ofold (λ bs (bf : Builder * BlockedBloomFilter),
      let cols := BuiltCols bf.1 bf.2 in
      let* hashes := chunk_hashes ts chunk.(cdata) cols chunk.(csize) in
      let* bf := PushNextBatch bf.1 thread_id hashes bf.2 in
      Ret (bs ++ [bf])) sink.(builders) [] in
  Ret (mkSink bs sink.(local_data_collections) sink.(total_data)).

(** [CreateBFFinalizeTask::ExecuteTask]. *)
Definition ExecuteTask (threads : list Z) (threadId chunk_idx_from chunk_idx_to : Z) (sink : CreateBFGlobalSinkState)
    : outcome CreateBFGlobalSinkState :=
  ofold (push_chunk (thread_index threads threadId)) (seqZ chunk_idx_from (chunk_idx_to - chunk_idx_from)) sink.

(** ** Source *)

Record CreateBFGlobalSourceState := mkSource { chunks_todo : list (Z * Z); partition_id : Z }.

(** The loop of [GetGlobalSourceState]. *)
Fixpoint source_ranges (n : nat) (per_thread chunk_count chunk_idx : Z) : list (Z * Z) :=
  match n with
  | O => []
  | S n =>
      if chunk_idx =? chunk_count then [] else
      let chunk_idx_to := Z.min (chunk_idx + per_thread) chunk_count in
      (chunk_idx, chunk_idx_to) :: source_ranges n per_thread chunk_count chunk_idx_to
  end.

Definition GetGlobalSourceState (num_threads : Z) (sink : CreateBFGlobalSinkState) : CreateBFGlobalSourceState :=
  let chunk_count := ChunkCount sink.(total_data) in
  mkSource (source_ranges (Z.to_nat num_threads) (chunks_per_thread chunk_count num_threads) chunk_count 0) 0.

(** The fields the constructor leaves uninitialised are options. *)
Record CreateBFLocalSourceState := mkLocalSource {
  local_current_chunk_id : Z;
  local_partition_id : option Z;
  chunk_from : option Z;
  chunk_to : option Z;
  initial : bool
}.

Definition GetLocalSourceState : CreateBFLocalSourceState := mkLocalSource 0 None None None true.

Inductive SourceResultType := SOURCE_FINISHED | SOURCE_HAVE_MORE_OUTPUT.

(** [GetData]: the first call of a thread takes the next range of chunks. *)
Definition GetData (sink : CreateBFGlobalSinkState) (state : CreateBFGlobalSourceState) (lstate : CreateBFLocalSourceState)
    : outcome (SourceResultType * CreateBFGlobalSourceState * CreateBFLocalSourceState * option (Z * list (tuple ts))) :=
  let fetch (state : CreateBFGlobalSourceState) (lstate : CreateBFLocalSourceState) (id : Z) :=
    let* rows := FetchChunk sink.(total_data) id in
    Ret (SOURCE_HAVE_MORE_OUTPUT, state,
         mkLocalSource (id + 1) lstate.(local_partition_id) lstate.(chunk_from) lstate.(chunk_to) lstate.(initial), Some (id, rows)) in
  let continue (state : CreateBFGlobalSourceState) (lstate : CreateBFLocalSourceState) :=
    if lstate.(local_current_chunk_id) =? 0 then
      let* from := deref lstate.(chunk_from) in fetch state lstate from
    else
      let* to := deref lstate.(chunk_to) in
      if to <=? lstate.(local_current_chunk_id) then Ret (SOURCE_FINISHED, state, lstate, None)
      else fetch state lstate lstate.(local_current_chunk_id) in
  if lstate.(initial) then
    let id := state.(partition_id) in
    let state := mkSource state.(chunks_todo) (id + 1) in
    match state.(chunks_todo) !! Z.to_nat id with
    | None => Ret (SOURCE_FINISHED, state, mkLocalSource lstate.(local_current_chunk_id) (Some id) None None false, None)
    | Some (from, to) =>
        continue state (mkLocalSource lstate.(local_current_chunk_id) (Some id) (Some from) (Some to) false)
    end
  else continue state lstate.
End CreateBF.
Arguments CreateBFGlobalSinkState : clear implicits.
Arguments Builder : clear implicits.

(** ** Facts: ranges of chunks *)

(** The chunks of a list of ranges. *)
Definition covered (ranges : list (Z * Z)) : list Z := concat ((λ r : Z * Z, seqZ r.1 (r.2 - r.1)) <$> ranges).

Lemma seqZ_split a b c : a ≤ b ≤ c → seqZ a (b - a) ++ seqZ b (c - b) = seqZ a (c - a).
Proof. intros Hab. replace (c - a) with ((b - a) + (c - b)) by lia. rewrite seqZ_app by lia. do 2 f_equal. lia. Qed.

Lemma task_ranges_cover n per count idx :
  1 ≤ per → 0 ≤ idx ≤ count → count - idx ≤ Z.of_nat n * per → (0 < n)%nat →
  covered (task_ranges n per count idx) = seqZ idx (count - idx).
Proof.
  revert idx. induction n as [|n IH]; intros idx Hp Hi Hn H0; [lia|]. cbn [task_ranges]. unfold covered.
  cbn [fmap list_fmap concat fst snd]. set (to := Z.min _ _).
  destruct (Z.eqb_spec to count) as [E|E]; [cbn; rewrite app_nil_r; by rewrite E|].
  change (seqZ idx (to - idx) ++ covered (task_ranges n per count to) = seqZ idx (count - idx)).
  rewrite IH by lia. apply seqZ_split. lia.
Qed.

Lemma source_ranges_cover n per count idx :
  1 ≤ per → 0 ≤ idx ≤ count → count - idx ≤ Z.of_nat n * per →
  covered (source_ranges n per count idx) = seqZ idx (count - idx) ∧
  Forall (λ r, idx ≤ r.1 < r.2 ∧ r.2 ≤ count) (source_ranges n per count idx).
Proof.
  revert idx. induction n as [|n IH]; intros idx Hp Hi Hn.
  { replace (count - idx) with 0 by lia. by split; [|constructor]. }
  cbn [source_ranges]. destruct (Z.eqb_spec idx count) as [->|E]; [by rewrite Z.sub_diag; split; [|constructor]|].
  set (to := Z.min _ _). destruct (IH to) as [IH1 IH2]; [lia..|]. split.
  - unfold covered. cbn [fmap list_fmap concat fst snd].
    change (seqZ idx (to - idx) ++ covered (source_ranges n per count to) = seqZ idx (count - idx)).
    rewrite IH1. apply seqZ_split. lia.
  - constructor; [cbn; lia|]. eapply Forall_impl; [exact IH2|]. cbn. intros r Hr. lia.
Qed.

Lemma chunks_per_thread_enough count num_threads :
  0 ≤ count → 1 ≤ num_threads →
  1 ≤ chunks_per_thread count num_threads ∧ count ≤ num_threads * chunks_per_thread count num_threads.
Proof.
  intros Hc Hn. unfold chunks_per_thread. split; [lia|].
  pose proof (Z_div_mod_eq_full (count + num_threads - 1) num_threads).
  pose proof (Z.mod_pos_bound (count + num_threads - 1) num_threads). nia.
Qed.

Lemma thread_index_lt threads id : (thread_index threads id < S (length threads))%nat.
Proof.
  unfold thread_index. enough (∀ i, thread_index_from i threads id = 0%nat ∨ (thread_index_from i threads id ≤ i + length threads)%nat) as Hk.
  { destruct (Hk 0%nat) as [-> | Hl]; lia. }
  induction threads as [|t threads IH]; intros i; [by left|]. cbn. destruct (id =? t); [right; lia|].
  destruct (IH (i + 1)%nat) as [-> | Hl]; [by left|right; lia].
Qed.

(** ** Facts: building *)

Section BuildFacts.
  Context `{ArrowBitsOk} {G : Type} `{RandomSourceOk G} `{ColumnCopyOk} (masks_ : list Z) (masks_good : masks_ok masks_).
  Context (alloc : Z → bool) (alloc_ok : ∀ size, alloc size = true) {ts : list Ty} (ts_ok : forallb array_free ts = true).

Definition builder_good (b : Builder G) (num_threads : nat) : Prop :=
  match b with SingleBuilder _ => True | ParallelBuilder b => Parallel.builder_ok b num_threads end.

Lemma make_builder_ok num_threads num_rows filter :
  1 ≤ num_threads → 0 ≤ num_rows → num_rows * kMinNumBitsPerKey < 2 ^ 63 →
  ∃ b log, make_builder (G := G) alloc num_threads num_rows filter =
      Ret (b, with_blocks (Some (replicate (Z.to_nat (2 ^ log)) 0)) (with_size log (2 ^ log) filter)) ∧
    builder_good b (Z.to_nat num_threads) ∧ 0 ≤ log ≤ 57.
Proof.
  intros Hth Hn Hov. destruct (CreateEmpty_ok alloc filter num_rows Hn Hov) as (log & Hlog & _ & HC). rewrite alloc_ok in HC.
  unfold make_builder, SingleThreaded.Begin, Parallel.Begin. rewrite HC. destruct (num_threads =? 1); orun.
  - eexists _, log. split_and!; [done|done|lia|lia].
  - eexists _, log. split_and!; [done| |lia|lia]. pose proof (Log2_nonneg num_threads Hth). split.
    + cbn [Parallel.thread_local_states_]. by rewrite take_nil, Nat.sub_0_r, length_app, length_replicate.
    + cbn. unfold Parallel.kMaxLogNumPrtns. lia.
Qed.

Lemma builder_push_ok b num_threads thread_id hashes bf bs :
  builder_good b num_threads → (thread_id < num_threads)%nat → Z.of_nat (length hashes) < 2 ^ 16 → bf_ok bf bs →
  ∃ b', PushNextBatch masks_ b thread_id hashes bf = Ret (b', with_blocks (Some (puts masks_ bf.(log_num_blocks_) bs hashes)) bf) ∧
    builder_good b' num_threads.
Proof.
  intros Hb Ht Hl Hok. destruct b as [b|b]; cbn [PushNextBatch].
  - unfold SingleThreaded.PushNextBatch.
    rewrite (Insert_ok masks_ masks_good _ bf bs), Nat2Z.id, firstn_all, (InsertImp_ok masks_ masks_good bf bs) by (done || lia).
    orun. by eexists.
  - destruct (Parallel.PushNextBatch_ok masks_ masks_good b num_threads thread_id hashes bf bs) as (b' & -> & Hb'); [done..|].
    orun. by eexists.
Qed.

(** The hashes of [rows] under the key columns of a filter. *)
Definition hashes_of (bf : BlockedBloomFilter) (rows : list (tuple ts)) : list Z := row_hash ts bf.(BoundColsBuilt) <$> rows.

(** A builder that has pushed [rows] into its fresh filter. *)
Definition has_pushed (num_threads : nat) (rows : list (tuple ts)) (bf : Builder G * BlockedBloomFilter)
    (fresh : BlockedBloomFilter * list Z) : Prop :=
  builder_good bf.1 num_threads ∧ bf_ok fresh.1 fresh.2 ∧ keys_safe ts fresh.1.(BoundColsBuilt) = true ∧
  bf.2 = with_blocks (Some (puts masks_ fresh.1.(log_num_blocks_) fresh.2 (hashes_of fresh.1 rows))) fresh.1.

Lemma BuiltCols_eq (b : Builder G) bf : BuiltCols b bf = bf.(BoundColsBuilt).
Proof. by destruct b. Qed.

Lemma push_chunk_ok num_threads thread_id (sink : CreateBFGlobalSinkState G ts) i rows done fresh :
  (thread_id < num_threads)%nat → FetchChunk sink.(total_data) i = Ret rows →
  small_rows ts (Some <$> rows) → Z.of_nat (length rows) ≤ STANDARD_VECTOR_SIZE →
  Forall2 (has_pushed num_threads done) sink.(builders) fresh →
  ∃ bs, push_chunk masks_ thread_id sink i = Ret (mkSink bs sink.(local_data_collections) sink.(total_data)) ∧
    Forall2 (has_pushed num_threads (done ++ rows)) bs fresh.
Proof.
  intros Ht Hf Hs Hl HF. unfold push_chunk. rewrite Hf. orun.
  destruct (chunk_of_rows (ts := ts) rows ts_ok Hs Hl) as [Hc Hr].
  set (F := λ (bs : list (Builder G * BlockedBloomFilter)) (bf : Builder G * BlockedBloomFilter), obind _ _).
  enough (∀ acc facc, Forall2 (has_pushed num_threads (done ++ rows)) acc facc →
    ∃ bs, ofold F sink.(builders) acc = Ret bs ∧ Forall2 (has_pushed num_threads (done ++ rows)) bs (facc ++ fresh)) as Hk.
  { destruct (Hk [] [] ltac:(constructor)) as (bs & -> & Hbs). orun. by exists bs. }
  induction HF as [|bf fr bfs frs Hbf _ IH]; intros acc facc Hacc.
  { exists acc. by rewrite app_nil_r. }
  cbn [ofold]. unfold F at 1. destruct bf as [b bf], Hbf as (Hb & Hok & Hk & Hbf). cbn [fst snd] in *. rewrite BuiltCols_eq.
  assert (BoundColsBuilt bf = BoundColsBuilt fr.1) as Ecols by (by rewrite Hbf). rewrite Ecols.
  rewrite chunk_hashes_ok, Hr by done. orun. fold (hashes_of fr.1 rows).
  assert (bf_ok bf (puts masks_ fr.1.(log_num_blocks_) fr.2 (hashes_of fr.1 done))) as Hbfok.
  { rewrite Hbf. by apply puts_ok. }
  assert (Z.of_nat (length (hashes_of fr.1 rows)) < 2 ^ 16) as Hlen.
  { unfold hashes_of. rewrite length_fmap. unfold STANDARD_VECTOR_SIZE in Hl. lia. }
  destruct (builder_push_ok b num_threads thread_id (hashes_of fr.1 rows) bf _ Hb Ht Hlen Hbfok) as (b' & -> & Hb').
  orun. destruct (IH (acc ++ [(b', with_blocks (Some (puts masks_ (log_num_blocks_ bf)
    (puts masks_ (log_num_blocks_ fr.1) fr.2 (hashes_of fr.1 done)) (hashes_of fr.1 rows))) bf)]) (facc ++ [fr])) as (bs & E & HF').
  - apply Forall2_app; [done|]. constructor; [|constructor]. split_and!; [done|done|done|]. cbn [snd]. rewrite Hbf.
    cbn [log_num_blocks_ with_blocks]. unfold hashes_of. rewrite fmap_app, puts_app. done.
  - exists bs. rewrite <-app_assoc in HF'. done.
Qed.

(** *** The sink phase *)

Lemma sink_chunks_ok (chunks : list (DataChunk ts)) local :
  collection_ok local →
  ∃ l, ofold Sink chunks local = Ret l ∧ collection_ok l ∧ all_rows l = all_rows local ++ concat (chunk_rows <$> chunks).
Proof.
  revert local. induction chunks as [|c chunks IH]; intros local Hl; [exists local; by rewrite app_nil_r|].
  cbn [ofold]. unfold Sink at 1. destruct (Append_ok local (chunk_rows c) Hl) as (l1 & -> & Hl1 & Hr1). orun.
  destruct (IH l1 Hl1) as (l & -> & Hl' & Hr). exists l. split_and!; [done|apply Hl'..|].
  rewrite Hr, Hr1. cbn [fmap list_fmap concat]. by rewrite app_assoc.
Qed.

(** The input chunks of every thread, sunk and combined. *)
Definition run_sink (inputs : list (list (DataChunk ts))) : outcome (CreateBFGlobalSinkState G ts) :=
  ofold (λ g chunks, let* local := ofold Sink chunks GetLocalSinkState in Ret (CombineLocal g local)) inputs GetGlobalSinkState.

Definition input_rows (inputs : list (list (DataChunk ts))) : list (tuple ts) := concat (chunk_rows <$> concat inputs).

Lemma empty_collection_ok : collection_ok (R := tuple ts) empty_collection.
Proof. split; [done|constructor]. Qed.

Lemma run_sink_ok inputs :
  ∃ g, run_sink inputs = Ret g ∧ g.(builders) = [] ∧ g.(total_data) = empty_collection ∧
    Forall collection_ok g.(local_data_collections) ∧ concat (all_rows <$> g.(local_data_collections)) = input_rows inputs.
Proof.
  unfold run_sink. enough (∀ g : CreateBFGlobalSinkState G ts, g.(builders) = [] → g.(total_data) = empty_collection → Forall collection_ok g.(local_data_collections) →
    ∃ g', ofold (λ g chunks, let* local := ofold Sink chunks GetLocalSinkState in Ret (CombineLocal g local)) inputs g = Ret g' ∧
      g'.(builders) = [] ∧ g'.(total_data) = empty_collection ∧ Forall collection_ok g'.(local_data_collections) ∧
      concat (all_rows <$> g'.(local_data_collections)) = concat (all_rows <$> g.(local_data_collections)) ++ input_rows inputs) as Hk.
  { destruct (Hk GetGlobalSinkState) as (g & K1 & K2 & K3 & K4 & K5); [done|done|constructor|]. by exists g. }
  induction inputs as [|chunks inputs IH]; intros g Hb Ht Hl; [exists g; by rewrite app_nil_r|].
  cbn [ofold]. destruct (sink_chunks_ok chunks GetLocalSinkState empty_collection_ok) as (l & -> & Hl1 & Hr1). orun.
  destruct (IH (CombineLocal g l)) as (g' & K1 & K2 & K3 & K4 & K5); [done|done|cbn; apply Forall_app; split; [done|by constructor]|].
  exists g'. split_and!; [done..|]. rewrite K5. cbn [local_data_collections CombineLocal].
  rewrite fmap_app, concat_app. cbn [fmap list_fmap concat]. rewrite Hr1, app_nil_r, <-app_assoc. f_equal.
  unfold input_rows. cbn [concat]. by rewrite fmap_app, concat_app.
Qed.

Lemma combine_all_ok (locals : list (ColumnDataCollection (tuple ts))) total :
  collection_ok total → Forall collection_ok locals →
  collection_ok (fold_left Combine locals total) ∧
  all_rows (fold_left Combine locals total) = all_rows total ++ concat (all_rows <$> locals).
Proof.
  intros Ht HF. revert total Ht. induction HF as [|l locals Hl _ IH]; intros total Ht; [by rewrite app_nil_r|].
  cbn [fold_left fmap list_fmap concat]. destruct (Combine_ok total l Ht Hl) as [K1 K2].
  destruct (IH _ K1) as [K3 K4]. split; [done|]. by rewrite K4, K2, app_assoc.
Qed.

(** A filter as [Begin] leaves it. *)
Definition begun (filter : BlockedBloomFilter) (fresh : BlockedBloomFilter * list Z) : Prop :=
  ∃ log, 0 ≤ log ≤ 57 ∧ fresh.2 = replicate (Z.to_nat (2 ^ log)) 0 ∧
    fresh.1 = with_blocks (Some fresh.2) (with_size log (2 ^ log) filter).

Lemma Finalize_ok num_threads filters (g : CreateBFGlobalSinkState G ts) :
  1 ≤ num_threads → g.(builders) = [] → g.(total_data) = empty_collection → Forall collection_ok g.(local_data_collections) →
  Z.of_nat (length (concat (all_rows <$> g.(local_data_collections)))) * kMinNumBitsPerKey < 2 ^ 63 →
  Forall (λ f, keys_safe ts f.(BoundColsBuilt) = true) filters →
  ∃ sink fresh, Finalize alloc num_threads filters g = Ret sink ∧ Forall2 begun filters fresh ∧
    Forall2 (has_pushed (Z.to_nat num_threads) []) sink.(builders) fresh ∧
    collection_ok sink.(total_data) ∧ all_rows sink.(total_data) = concat (all_rows <$> g.(local_data_collections)).
Proof.
  intros Hth Hb Ht Hl Hov Hk. unfold Finalize. rewrite Hb, Ht.
  destruct (combine_all_ok g.(local_data_collections) empty_collection empty_collection_ok Hl) as [Hc Hr].
  set (total := fold_left _ _ _) in *. change (all_rows empty_collection) with (@nil (tuple ts)) in Hr. cbn [app] in Hr.
  pose proof (coll_count _ Hc) as Hcount. rewrite Hr in Hcount.
  set (F := λ (bs : list (Builder G * BlockedBloomFilter)) filter, obind _ _).
  enough (∀ acc facc, Forall2 (has_pushed (Z.to_nat num_threads) []) acc facc →
    ∃ bs fresh, ofold F filters acc = Ret bs ∧ Forall2 begun filters fresh ∧
      Forall2 (has_pushed (Z.to_nat num_threads) []) bs (facc ++ fresh)) as Hgo.
  { destruct (Hgo [] [] ltac:(constructor)) as (bs & fresh & -> & K1 & K2). orun. by exists (mkSink bs [] total), fresh. }
  induction Hk as [|f filters Hf _ IH]; intros acc facc Hacc.
  { exists acc, []. rewrite app_nil_r. split_and!; [done|constructor|done]. }
  cbn [ofold]. unfold F at 1. destruct (make_builder_ok num_threads (count_ total) f Hth) as (b & log & -> & Hgood & Hlog); [lia|lia|]. orun.
  set (bs0 := replicate (Z.to_nat (2 ^ log)) 0). set (f0 := with_blocks (Some bs0) (with_size log (2 ^ log) f)).
  destruct (IH (acc ++ [(b, f0)]) (facc ++ [(f0, bs0)])) as (bs & fresh & E & K1 & K2).
  { apply Forall2_app; [done|]. constructor; [|constructor]. split_and!; [done|apply empty_ok; lia|done|]. done. }
  exists bs, ((f0, bs0) :: fresh). split_and!; [done|constructor; [by exists log|done]|]. by rewrite <-app_assoc in K2.
Qed.

(** *** The finalize tasks, interleaved *)

(** Pushes of single chunks, each with the thread that performs it. *)
Definition run_pushes (threads : list Z) (pushes : list (Z * Z)) (sink : CreateBFGlobalSinkState G ts)
    : outcome (CreateBFGlobalSinkState G ts) :=
  ofold (λ sink p, push_chunk masks_ (thread_index threads p.1) sink p.2) pushes sink.

Lemma run_pushes_ok threads pushes (sink : CreateBFGlobalSinkState G ts) rows0 fresh :
  collection_ok sink.(total_data) → small_rows ts (Some <$> all_rows sink.(total_data)) →
  Forall (λ p, 0 ≤ p.2 < ChunkCount sink.(total_data)) pushes →
  Forall2 (has_pushed (S (length threads)) rows0) sink.(builders) fresh →
  ∃ bs, run_pushes threads pushes sink = Ret (mkSink bs sink.(local_data_collections) sink.(total_data)) ∧
    Forall2 (has_pushed (S (length threads)) (rows0 ++ concat ((λ i, default [] (all_chunks sink.(total_data) !! Z.to_nat i)) <$> pushes.*2))) bs fresh.
Proof.
  intros Hc Hs Hp. revert sink rows0 Hc Hs Hp. unfold run_pushes. induction pushes as [|[t i] pushes IH]; intros sink rows0 Hc Hs Hp HF.
  { exists sink.(builders). cbn. rewrite app_nil_r. by destruct sink. }
  apply Forall_cons in Hp as [Hi Hp]. cbn [snd] in Hi. cbn [ofold fst snd].
  destruct (FetchChunk_ok sink.(total_data) i Hi) as (l & Ef & El).
  assert (chunk_fits l) as Hfit by (eapply Forall_lookup_1; [apply Hc|exact El]).
  assert (small_rows ts (Some <$> l)) as Hsl.
  { unfold all_rows in Hs. rewrite <-(take_drop_middle _ _ _ El), concat_app in Hs. cbn [concat] in Hs.
    rewrite !fmap_app in Hs. apply small_rows_app in Hs as [_ Hs]. by apply small_rows_app in Hs as [Hs _]. }
  destruct (push_chunk_ok (S (length threads)) (thread_index threads t) sink i l rows0 fresh) as (bs & -> & HF1);
    [apply thread_index_lt|done|done|done|done|]. orun.
  destruct (IH (mkSink bs sink.(local_data_collections) sink.(total_data)) (rows0 ++ l)) as (bs' & E & HF'); [done..|].
  exists bs'. split; [exact E|]. cbn [fmap list_fmap concat snd]. cbn [total_data] in HF'. rewrite El. cbn [default from_option id].
  by rewrite app_assoc.
Qed.
End BuildFacts.

(** ** The source, read by several threads *)

Section Source.
  Context {G : Type} {ts : list Ty} (sink : CreateBFGlobalSinkState G ts).

(** The shared state, the threads with a flag for those that are finished,
    and the chunks handed on so far with their index. *)
Definition source_config : Type :=
  CreateBFGlobalSourceState * list (CreateBFLocalSourceState * bool) * list (Z * list (tuple ts)).

(** Some thread that is not finished calls [GetData]. *)
Inductive source_step : source_config → source_config → Prop :=
| step_chunk st threads emitted k l st' l' chunk :
    threads !! k = Some (l, false) → GetData sink st l = Ret (SOURCE_HAVE_MORE_OUTPUT, st', l', Some chunk) →
    source_step (st, threads, emitted) (st', <[k := (l', false)]> threads, emitted ++ [chunk])
| step_finished st threads emitted k l st' l' :
    threads !! k = Some (l, false) → GetData sink st l = Ret (SOURCE_FINISHED, st', l', None) →
    source_step (st, threads, emitted) (st', <[k := (l', true)]> threads, emitted).

Definition start_source (num_threads num_readers : Z) : source_config :=
  (GetGlobalSourceState num_threads sink, replicate (Z.to_nat num_readers) (GetLocalSourceState, false), []).

(** *** How many threads read: [Pipeline::Schedule] *)

(** The properties of the operators of a pipeline that scheduling asks for. *)
Record pipeline_properties := mkPipeline {
  ParallelSink : bool;
  ParallelSource : bool;
  ParallelOperators : list bool;
  RequiresBatchIndex : bool;
  SupportsBatchIndex : bool
}.

(** [Pipeline::LaunchScanTasks]: the number of tasks, if the scan is split. *)
Definition LaunchScanTasks (active_threads max_threads : Z) : option Z :=
  let max_threads := if active_threads <? max_threads then active_threads else max_threads in
  if max_threads <=? 1 then None else Some max_threads.

(** [Pipeline::ScheduleParallel]. *)
Definition ScheduleParallel (p : pipeline_properties) (active_threads max_threads : Z) : outcome (option Z) :=
  if negb p.(ParallelSink) then Ret None else
  if negb p.(ParallelSource) then Ret None else
  if existsb negb p.(ParallelOperators) then Ret None else
  if p.(RequiresBatchIndex) && negb p.(SupportsBatchIndex)
  then Throw "Attempting to schedule a pipeline where the sink requires batch index but source does not support it"
  else Ret (LaunchScanTasks active_threads max_threads).

(** [Pipeline::Schedule]: the number of tasks that read the source. *)
Definition pipeline_tasks (p : pipeline_properties) (active_threads max_threads : Z) : outcome Z :=
  let* tasks := ScheduleParallel p active_threads max_threads in
  match tasks with Some n => Ret n | None => Ret 1 end.

(** *** The invariant *)

Context (rs : list (Z * Z)) (rs_ok : Forall (λ r, 0 ≤ r.1 < r.2 ∧ r.2 ≤ ChunkCount sink.(total_data)) rs).

(** The chunks a thread has handed on. *)
Definition handed (t : CreateBFLocalSourceState * bool) : list Z :=
  match t.1.(chunk_from) with Some a => seqZ a (t.1.(local_current_chunk_id) - a) | None => [] end.

Definition thread_ok (t : CreateBFLocalSourceState * bool) : Prop :=
  let '(l, fin) := t in
  (l = GetLocalSourceState ∧ fin = false) ∨
  (∃ j c, 0 ≤ j ∧ match rs !! Z.to_nat j with
    | None => l = mkLocalSource 0 (Some j) None None false ∧ fin = true
    | Some (a, b) => l = mkLocalSource c (Some j) (Some a) (Some b) false ∧ a < c ≤ b ∧ (fin = true → c = b)
    end).

Definition source_inv (m : Z) (s : source_config) : Prop :=
  let '(st, threads, emitted) := s in
  st.(chunks_todo) = rs ∧ 0 ≤ st.(partition_id) ∧ Z.of_nat (length threads) = m ∧ Forall thread_ok threads ∧
  omap (local_partition_id ∘ fst) threads ≡ₚ seqZ 0 st.(partition_id) ∧
  emitted.*1 ≡ₚ concat (handed <$> threads) ∧ Forall (λ e, FetchChunk sink.(total_data) e.1 = Ret e.2) emitted.

Lemma handed_step c a : a < c → seqZ a (c - a) ++ [c] = seqZ a (c + 1 - a).
Proof. intros Hc. replace (c + 1 - a) with ((c - a) + 1) by lia. rewrite seqZ_app by lia. by replace (a + (c - a)) with c by lia. Qed.

(** What a call of a thread that is not finished does. *)
Lemma GetData_ok st l :
  st.(chunks_todo) = rs → 0 ≤ st.(partition_id) → thread_ok (l, false) →
  ∃ r st' l' out, GetData sink st l = Ret (r, st', l', out) ∧ st'.(chunks_todo) = rs ∧ 0 ≤ st'.(partition_id) ∧
    (st'.(partition_id) = st.(partition_id) ∧ l'.(local_partition_id) = l.(local_partition_id) ∨
     st'.(partition_id) = st.(partition_id) + 1 ∧ l.(local_partition_id) = None ∧ l'.(local_partition_id) = Some st.(partition_id)) ∧
    (r = SOURCE_FINISHED ∧ out = None ∧ thread_ok (l', true) ∧ handed (l', true) = handed (l, false) ∨
     ∃ id rows, r = SOURCE_HAVE_MORE_OUTPUT ∧ out = Some (id, rows) ∧ FetchChunk sink.(total_data) id = Ret rows ∧
       thread_ok (l', false) ∧ handed (l', false) = handed (l, false) ++ [id]).
Proof.
  intros Hrs Hp [[-> _]|(j & c & Hj & Hl)].
  - unfold GetData. cbn [initial GetLocalSourceState chunks_todo local_current_chunk_id]. rewrite Hrs.
    destruct (rs !! Z.to_nat (partition_id st)) as [[a b]|] eqn:E.
    + pose proof (proj1 (Forall_lookup _ _) rs_ok _ _ E) as Hab. cbn [fst snd] in Hab. cbn [local_current_chunk_id chunk_from Z.eqb]. orun.
      destruct (FetchChunk_ok sink.(total_data) a) as (rows & Ef & _); [lia|]. rewrite Ef. orun. eexists _, _, _, _. split; [done|].
      split; [done|]. split; [cbn; lia|]. split; [right; done|]. right. exists a, rows. split_and!; [done|done|done| |].
      * right. exists (partition_id st), (a + 1). split; [done|]. rewrite E. split; [done|]. split; [lia|done].
      * unfold handed. cbn. replace (a + 1 - a) with 1 by lia. done.
    + eexists _, _, _, _. split; [done|]. split; [done|]. split; [cbn; lia|]. split; [by right|]. left.
      split_and!; [done|done| |done]. right. exists (partition_id st), 0. by rewrite E.
  - destruct (rs !! Z.to_nat j) as [[a b]|] eqn:E; [|by destruct Hl]. destruct Hl as (-> & Hc & _).
    pose proof (proj1 (Forall_lookup _ _) rs_ok _ _ E) as Hab. cbn [fst snd] in Hab.
    unfold GetData. cbn [initial local_current_chunk_id chunk_to]. rewrite (proj2 (Z.eqb_neq _ _)) by lia. orun.
    destruct (Z.leb_spec b c).
    + eexists _, _, _, _. split; [done|]. split; [done|]. split; [done|]. split; [by left|]. left. split_and!; [done|done| |done].
      right. exists j, c. rewrite E. split_and!; [done|done|lia|lia|lia].
    + destruct (FetchChunk_ok sink.(total_data) c) as (rows & Ef & _); [lia|]. rewrite Ef. orun.
      eexists _, _, _, _. split; [done|]. split; [done|]. split; [done|]. split; [by left|]. right. exists c, rows.
      split_and!; [done|done|done| |].
      * right. exists j, (c + 1). rewrite E. split_and!; [done|done|lia|lia|done].
      * unfold handed. cbn. symmetry. apply handed_step. lia.
Qed.

Lemma insert_perm {A} (l : list A) k x y : l !! k = Some x → ∃ rest, l ≡ₚ x :: rest ∧ <[k := y]> l ≡ₚ y :: rest.
Proof.
  intros Hk. exists (take k l ++ drop (S k) l). pose proof (lookup_lt_Some _ _ _ Hk). split.
  - rewrite <-(take_drop_middle _ _ _ Hk) at 1. symmetry. apply Permutation_middle.
  - rewrite insert_take_drop by done. symmetry. apply Permutation_middle.
Qed.

Lemma source_step_inv m s s' : source_inv m s → source_step s s' → source_inv m s'.
Proof.
  intros Hinv Hstep. destruct s as [[st threads] emitted], s' as [[st' threads'] emitted'].
  destruct Hinv as (Hrs & Hp & Hlen & Hth & Hids & Hem & Hf).
  assert (∃ k l l' fin' out, threads !! k = Some (l, false) ∧ threads' = <[k := (l', fin')]> threads ∧ emitted' = emitted ++ out ∧
    st'.(chunks_todo) = rs ∧ 0 ≤ st'.(partition_id) ∧
    (st'.(partition_id) = st.(partition_id) ∧ l'.(local_partition_id) = l.(local_partition_id) ∨
     st'.(partition_id) = st.(partition_id) + 1 ∧ l.(local_partition_id) = None ∧ l'.(local_partition_id) = Some st.(partition_id)) ∧
    thread_ok (l', fin') ∧ handed (l', fin') = handed (l, false) ++ out.*1 ∧
    Forall (λ e, FetchChunk sink.(total_data) e.1 = Ret e.2) out) as (k & l & l' & fin' & out & Hk & -> & -> & Hrs' & Hp' & Hid & Hth' & Hh & Hfo).
  { inversion Hstep as [? ? ? k l ? l' [id rows] Hk HG|? ? ? k l ? l' Hk HG]; subst;
      (destruct (GetData_ok st l) as (r & st2 & l2 & out & HG2 & A1 & A2 & A3 & A4); [done|done|by eapply Forall_lookup_1|]);
      rewrite HG in HG2; injection HG2 as <- <- <- <-; destruct A4 as [(Er & Eo & B1 & B2)|(id2 & rows2 & Er & Eo & B1 & B2 & B3)]; try done.
    - injection Eo as <- <-. exists k, l, l', false, [(id, rows)]. split_and!; try done. by constructor.
    - exists k, l, l', true, []. rewrite app_nil_r. split_and!; try done. cbn. by rewrite app_nil_r. }
  destruct (insert_perm threads k (l, false) (l', fin') Hk) as (rest & E1 & E2).
  split_and!; [done|done|by rewrite length_insert| | | |by apply Forall_app].
  - rewrite E2. rewrite E1 in Hth. apply Forall_cons in Hth as [_ Hth]. by constructor.
  - rewrite E2. rewrite E1 in Hids. cbn in Hids |- *. destruct Hid as [[-> ->]|(-> & Hn & ->)]; [done|]. rewrite Hn in Hids.
    rewrite (seqZ_app 0 (partition_id st) 1), <-Hids by lia. rewrite Permutation_app_comm. done.
  - rewrite fmap_app, E2, Hem, E1. cbn [fmap list_fmap concat]. rewrite Hh, <-!app_assoc. apply Permutation_app_head, Permutation_app_comm.
Qed.

(** When every thread is finished, the ranges the threads took are handed on. *)
Lemma source_finished m st threads emitted :
  source_inv m (st, threads, emitted) → Forall (λ t, t.2 = true) threads →
  emitted.*1 ≡ₚ covered (take (Z.to_nat m) rs).
Proof.
  intros (Hrs & Hp & Hlen & Hth & Hids & Hem & Hf) Hfin. rewrite Hem. clear Hem Hf.
  set (range_of := λ j : Z, match rs !! Z.to_nat j with Some r => seqZ r.1 (r.2 - r.1) | None => [] end).
  assert (concat (handed <$> threads) = concat (range_of <$> omap (local_partition_id ∘ fst) threads) ∧
    length (omap (local_partition_id ∘ fst) threads) = length threads) as [-> Hl].
  { clear -Hth Hfin. induction threads as [|[l fin] threads IH]; [done|]. apply Forall_cons in Hth as [Ht Hth].
    apply Forall_cons in Hfin as [Hfin0 Hfin]. cbn in Hfin0. subst fin. destruct (IH Hth Hfin) as [E1 E2]. clear IH.
    destruct Ht as [[_ ?]|(j & c & _ & Hj)]; [done|]. unfold range_of at 1.
    destruct (rs !! Z.to_nat j) as [[a b]|] eqn:Er.
    - destruct Hj as (-> & _ & Hc). rewrite (Hc eq_refl). cbn. rewrite Er, E1, E2. done.
    - destruct Hj as [-> _]. cbn. rewrite Er, E1, E2. done. }
  rewrite Hids. rewrite Hids, length_seqZ in Hl. assert (partition_id st = m) as -> by lia.
  unfold covered. assert (0 ≤ m) by lia. rewrite <-(Z2Nat.id m) at 1 by done. generalize (Z.to_nat m). clear. intros n.
  assert (∀ n, concat (range_of <$> seqZ 0 (Z.of_nat n)) = concat ((λ r : Z * Z, seqZ r.1 (r.2 - r.1)) <$> take n rs)) as ->; [|done].
  clear n. induction n as [|n IH]; [done|]. replace (Z.of_nat (S n)) with (Z.of_nat n + 1) by lia. rewrite seqZ_app by lia.
  rewrite fmap_app, concat_app, IH, (seqZ_cons (0 + _)), (seqZ_nil (Z.succ _)) by lia. cbn [fmap list_fmap concat].
  rewrite app_nil_r. unfold range_of at 1. rewrite Z.add_0_l, Nat2Z.id. destruct (rs !! n) as [r|] eqn:E.
  - rewrite (take_S_r _ _ _ E), fmap_app, concat_app. cbn [fmap list_fmap concat]. by rewrite app_nil_r.
  - apply lookup_ge_None in E. rewrite !take_ge by lia. by rewrite app_nil_r.
Qed.

(** A thread that is not finished can always go on. *)
Lemma source_progress m st threads emitted :
  source_inv m (st, threads, emitted) → ¬ Forall (λ t, t.2 = true) threads → ∃ s', source_step (st, threads, emitted) s'.
Proof.
  intros (Hrs & Hp & Hlen & Hth & _) Hn.
  assert (∃ k l, threads !! k = Some (l, false)) as (k & l & Hk).
  { clear -Hn. induction threads as [|[l []] threads IH]; [by destruct Hn; constructor| |by exists 0%nat, l].
    destruct IH as (k & l' & Hk); [intros Hf; apply Hn; by constructor|]. by exists (S k), l'. }
  destruct (GetData_ok st l Hrs Hp) as (r & st' & l' & out & E & _ & _ & _ & A4); [by eapply Forall_lookup_1 in Hth|].
  destruct A4 as [(-> & -> & _)|(id & rows & -> & -> & _)]; eexists; [by eapply step_finished|by eapply step_chunk].
Qed.

(** Every step brings the source closer to its end. *)
Definition remaining_calls (t : CreateBFLocalSourceState * bool) : nat :=
  if t.2 then 0 else
  match t.1.(chunk_to) with
  | Some b => S (Z.to_nat (b - t.1.(local_current_chunk_id)))
  | None => S (Z.to_nat (ChunkCount sink.(total_data)))
  end.

Definition source_measure (s : source_config) : nat := sum_list_with remaining_calls s.1.2.

Lemma sum_list_insert {A} (f : A → nat) (l : list A) k x y :
  l !! k = Some x → (f y < f x)%nat → (sum_list_with f (<[k := y]> l) < sum_list_with f l)%nat.
Proof.
  intros Hk Hf. pose proof (lookup_lt_Some _ _ _ Hk). rewrite insert_take_drop by done. rewrite <-(take_drop_middle _ _ _ Hk) at 3.
  rewrite !sum_list_with_app. cbn. lia.
Qed.

Lemma source_step_measure m s s' : source_inv m s → source_step s s' → (source_measure s' < source_measure s)%nat.
Proof.
  intros Hinv Hstep. destruct s as [[st threads] emitted], Hinv as (Hrs & Hp & Hlen & Hth & _).
  inversion Hstep as [? ? ? k l st' l' chunk Hk HG|? ? ? k l st' l' Hk HG]; subst; unfold source_measure; cbn [fst snd];
    apply (sum_list_insert _ _ _ _ _ Hk); unfold remaining_calls; cbn [fst snd].
  - destruct (proj1 (Forall_lookup _ _) Hth _ _ Hk) as [[-> _]|(j & c & Hj & Hl)].
    + unfold GetData in HG. cbn [initial GetLocalSourceState chunks_todo local_current_chunk_id] in HG. rewrite Hrs in HG.
      destruct (rs !! Z.to_nat (partition_id st)) as [[a b]|] eqn:E; [|done].
      pose proof (proj1 (Forall_lookup _ _) rs_ok _ _ E) as Hab. cbn [fst snd] in Hab. cbn in HG.
      apply obind_Ret in HG as (rows & _ & HG). injection HG as _ <- _. cbn. lia.
    + destruct (rs !! Z.to_nat j) as [[a b]|] eqn:E; [|by destruct Hl]. destruct Hl as (-> & Hc & _).
      pose proof (proj1 (Forall_lookup _ _) rs_ok _ _ E) as Hab. cbn [fst snd] in Hab.
      unfold GetData in HG. cbn [initial local_current_chunk_id chunk_to] in HG. rewrite (proj2 (Z.eqb_neq _ _)) in HG by lia. cbn [obind deref] in HG.
      destruct (Z.leb_spec b c); [done|]. apply obind_Ret in HG as (rows & _ & HG). injection HG as _ <- _. cbn. lia.
  - destruct (chunk_to l); lia.
Qed.

Lemma source_runs n m s s' :
  source_inv m s → nsteps source_step n s s' → source_inv m s' ∧ (n + source_measure s' ≤ source_measure s)%nat.
Proof.
  intros Hinv Hn. induction Hn as [s|n s1 s2 s3 Hs _ IH]; [by split|].
  pose proof (source_step_measure m s1 s2 Hinv Hs). destruct (IH (source_step_inv m s1 s2 Hinv Hs)). split; [done|lia].
Qed.
End Source.

Lemma start_source_inv {G ts} (sink : CreateBFGlobalSinkState G ts) num_threads m :
  0 ≤ m → source_inv sink (chunks_todo (GetGlobalSourceState num_threads sink)) m (start_source sink num_threads m).
Proof.
  intros Hm. split_and!; try done.
  - rewrite length_replicate. lia.
  - apply Forall_replicate. by left.
  - induction (Z.to_nat m) as [|n IH]; [done|]. cbn. done.
  - induction (Z.to_nat m) as [|n IH]; [done|]. cbn. done.
Qed.

Lemma source_measure_start {G ts} (sink : CreateBFGlobalSinkState G ts) num_threads m :
  source_measure sink (start_source sink num_threads m) = (Z.to_nat m * S (Z.to_nat (ChunkCount sink.(total_data))))%nat.
Proof. unfold source_measure. cbn [start_source fst snd]. induction (Z.to_nat m) as [|n IH]; [done|]. cbn in *. rewrite IH. done. Qed.

Lemma ChunkCount_nonneg {R} (c : ColumnDataCollection R) : 0 ≤ ChunkCount c.
Proof. rewrite ChunkCount_ok. lia. Qed.

Lemma source_ranges_ok {G ts} (sink : CreateBFGlobalSinkState G ts) num_threads :
  1 ≤ num_threads →
  covered (chunks_todo (GetGlobalSourceState num_threads sink)) = seqZ 0 (ChunkCount sink.(total_data)) ∧
  Forall (λ r, 0 ≤ r.1 < r.2 ∧ r.2 ≤ ChunkCount sink.(total_data)) (chunks_todo (GetGlobalSourceState num_threads sink)).
Proof.
  intros Hn. pose proof (ChunkCount_nonneg sink.(total_data)) as Hc.
  destruct (chunks_per_thread_enough _ num_threads Hc Hn) as [H1 H2].
  destruct (source_ranges_cover (Z.to_nat num_threads) (chunks_per_thread (ChunkCount sink.(total_data)) num_threads)
    (ChunkCount sink.(total_data)) 0) as [E HF]; [lia|lia|lia|]. rewrite Z.sub_0_r in E. done.
Qed.

Lemma length_source_ranges n per count idx : (length (source_ranges n per count idx) ≤ n)%nat.
Proof. revert idx. induction n as [|n IH]; intros idx; cbn; [lia|]. destruct (idx =? count); cbn; [lia|]. specialize (IH (Z.min (idx + per) count)). lia. Qed.

Lemma chunks_in_order {R} (c : ColumnDataCollection R) :
  (λ i, default [] (all_chunks c !! Z.to_nat i)) <$> seqZ 0 (ChunkCount c) = all_chunks c.
Proof.
  rewrite ChunkCount_ok. apply list_eq. intros i. rewrite list_lookup_fmap. destruct (all_chunks c !! i) as [l|] eqn:E.
  - rewrite lookup_seqZ_lt by (apply lookup_lt_Some in E; lia). cbn. rewrite Z.add_0_l, Nat2Z.id, E. done.
  - rewrite lookup_seqZ_ge by (apply lookup_ge_None in E; lia). done.
Qed.

Lemma fetched_rows {R} (c : ColumnDataCollection R) (emitted : list (Z * list R)) :
  Forall (λ e, FetchChunk c e.1 = Ret e.2) emitted → emitted.*1 ≡ₚ seqZ 0 (ChunkCount c) → concat emitted.*2 ≡ₚ all_rows c.
Proof.
  intros Hf Hp. assert (emitted.*2 = (λ i, default [] (all_chunks c !! Z.to_nat i)) <$> emitted.*1) as ->.
  { assert (Forall (λ i, 0 ≤ i < ChunkCount c) emitted.*1) as Hr.
    { apply Forall_forall. intros i. rewrite Hp. rewrite elem_of_seqZ. lia. }
    clear Hp. induction Hf as [|[i l] emitted Hi _ IH]; [done|]. apply Forall_cons in Hr as [Hi' Hr]. cbn [fmap list_fmap fst snd] in *.
    rewrite IH by done. f_equal. destruct (FetchChunk_ok c i Hi') as (l' & E & ->). cbn in Hi. rewrite E in Hi. by injection Hi as ->. }
  rewrite Hp, chunks_in_order. done.
Qed.

(** ** Properties *)

Definition all_finished (threads : list (CreateBFLocalSourceState * bool)) : Prop := Forall (λ t, t.2 = true) threads.

(** C18: the source of the operator, read in parallel.  When every operator of
    the pipeline supports parallelism, the tasks the pipeline launches, in any
    interleaving, hand on every buffered chunk exactly once: a run is bounded,
    cannot get stuck before all tasks are finished, and ends with exactly the
    buffered rows. *)
Theorem parallel_source_hands_on_all_rows {G : Type} {ts : list Ty} (sink : CreateBFGlobalSinkState G ts)
    (num_threads : Z) (p : pipeline_properties) (k : nat) st threads emitted :
  1 ≤ num_threads → p.(ParallelSink) && p.(ParallelSource) && forallb id p.(ParallelOperators) = true →
  p.(RequiresBatchIndex) = false →
  nsteps (source_step sink) k (start_source sink num_threads num_threads) (st, threads, emitted) →
  pipeline_tasks p num_threads num_threads = Ret num_threads ∧
  (k ≤ Z.to_nat num_threads * S (Z.to_nat (ChunkCount sink.(total_data))))%nat ∧
  (all_finished threads → emitted.*1 ≡ₚ seqZ 0 (ChunkCount sink.(total_data)) ∧ concat emitted.*2 ≡ₚ all_rows sink.(total_data)) ∧
  (¬ all_finished threads → ∃ s', source_step sink (st, threads, emitted) s').
Proof.
  intros Hn Hpar Hb Hrun. apply andb_prop in Hpar as [[H1 H2]%andb_prop H3]. split.
  { unfold pipeline_tasks, ScheduleParallel, LaunchScanTasks. rewrite H1, H2, Hb. cbn [negb andb].
    assert (existsb negb (ParallelOperators p) = false) as ->.
    { clear -H3. induction (ParallelOperators p) as [|[] l IH]; [done|exact (IH H3)|done]. }
    rewrite Z.ltb_irrefl. orun. destruct (Z.leb_spec num_threads 1); [|done]. f_equal. lia. }
  destruct (source_ranges_ok sink num_threads Hn) as [Hcov Hrs].
  destruct (source_runs sink _ Hrs k num_threads _ _ (start_source_inv sink num_threads num_threads ltac:(lia)) Hrun) as [Hinv Hk].
  rewrite source_measure_start in Hk. split_and!; [lia| |by apply (source_progress sink _ Hrs num_threads)].
  intros Hfin. pose proof (source_finished sink _ _ _ _ _ Hinv Hfin) as He.
  rewrite take_ge, Hcov in He by (cbn; etransitivity; [apply length_source_ranges|lia]). split; [done|].
  apply fetched_rows; [|done]. apply Hinv.
Qed.

(** Two buffered chunks. *)
Definition sample_sink : CreateBFGlobalSinkState Z sample_types :=
  mkSink [] [] (mkCollection [mkSegment [take 2 sample_rows; drop 2 sample_rows] 3] 3).

Lemma parallel_source_hands_on_all_rows_witness :
  ∃ st threads emitted,
    pipeline_tasks (mkPipeline true true [true] false false) 2 2 = Ret 2 ∧
    (4 ≤ Z.to_nat 2 * S (Z.to_nat (ChunkCount sample_sink.(total_data))))%nat ∧
    (all_finished threads → emitted.*1 ≡ₚ seqZ 0 (ChunkCount sample_sink.(total_data)) ∧ concat emitted.*2 ≡ₚ all_rows sample_sink.(total_data)) ∧
    (¬ all_finished threads → ∃ s', source_step sample_sink (st, threads, emitted) s').
Proof.
  eexists _, _, _. eapply (parallel_source_hands_on_all_rows sample_sink 2 (mkPipeline true true [true] false false) 4); [done|done|done|].
  eapply nsteps_l; [eapply (step_chunk _ _ _ _ 1); [done|by vm_compute]|].
  eapply nsteps_l; [eapply (step_chunk _ _ _ _ 0); [done|by vm_compute]|].
  eapply nsteps_l; [eapply (step_finished _ _ _ _ 1); [done|by vm_compute]|].
  eapply nsteps_l; [eapply (step_finished _ _ _ _ 0); [done|by vm_compute]|]. apply nsteps_O.
Defined.

(** C23: the source of the operator, read sequentially.  When an operator of
    the pipeline does not support parallelism, one task reads the source, and
    it stops at the end of the first range: with more threads than one and
    more chunks than a thread's share, the other chunks are lost. *)
Theorem sequential_source_loses_chunks {G : Type} {ts : list Ty} (sink : CreateBFGlobalSinkState G ts)
    (num_threads : Z) (p : pipeline_properties) (k : nat) st threads emitted :
  1 ≤ num_threads → p.(ParallelSink) && p.(ParallelSource) && forallb id p.(ParallelOperators) = false →
  nsteps (source_step sink) k (start_source sink num_threads 1) (st, threads, emitted) → all_finished threads →
  chunks_per_thread (ChunkCount sink.(total_data)) num_threads < ChunkCount sink.(total_data) →
  pipeline_tasks p num_threads num_threads = Ret 1 ∧
  emitted.*1 ≡ₚ seqZ 0 (chunks_per_thread (ChunkCount sink.(total_data)) num_threads).
Proof.
  intros Hn Hpar Hrun Hfin Hlt. split.
  - unfold pipeline_tasks, ScheduleParallel. destruct (ParallelSink p); [|done]. destruct (ParallelSource p); [|done]. cbn [negb andb] in *.
    assert (existsb negb (ParallelOperators p) = true) as ->; [|done].
    clear -Hpar. induction (ParallelOperators p) as [|[] l IH]; [done|exact (IH Hpar)|done].
  - destruct (source_ranges_ok sink num_threads Hn) as [Hcov Hrs].
    destruct (source_runs sink _ Hrs k 1 _ _ (start_source_inv sink num_threads 1 ltac:(lia)) Hrun) as [Hinv _].
    pose proof (source_finished sink _ _ _ _ _ Hinv Hfin) as ->.
    unfold GetGlobalSourceState. set (per := chunks_per_thread _ _) in *. cbn [chunks_todo].
    destruct (Z.to_nat num_threads) as [|n] eqn:E; [lia|]. cbn [source_ranges].
    pose proof (ChunkCount_nonneg sink.(total_data)) as Hc. destruct (chunks_per_thread_enough _ num_threads Hc Hn) as [H1 _]. fold per in H1.
    rewrite (proj2 (Z.eqb_neq 0 _)) by lia. cbn [Z.to_nat Pos.to_nat Pos.iter_op take]. change (Z.to_nat 1) with 1%nat. cbn [take].
    unfold covered. cbn [fmap list_fmap concat fst snd]. rewrite app_nil_r, Z.add_0_l, Z.min_l, Z.sub_0_r by lia. done.
Qed.

Lemma sequential_source_loses_chunks_witness :
  ∃ emitted : list (Z * list (tuple sample_types)),
    pipeline_tasks (mkPipeline false true [true] false false) 2 2 = Ret 1 ∧
    emitted.*1 ≡ₚ seqZ 0 (chunks_per_thread (ChunkCount sample_sink.(total_data)) 2).
Proof.
  eexists. eapply (sequential_source_loses_chunks sample_sink 2 (mkPipeline false true [true] false false) 2); [done|done| | |done].
  - eapply nsteps_l; [eapply (step_chunk _ _ _ _ 0); [done|by vm_compute]|].
    eapply nsteps_l; [eapply (step_finished _ _ _ _ 0); [done|by vm_compute]|]. apply nsteps_O.
  - by repeat constructor.
Defined.

(** A finalize task is a sequence of pushes by one thread. *)
Lemma ExecuteTask_pushes `{ArrowBits} {G : Type} `{RandomSource G} `{ColumnCopy} (masks_ : list Z) {ts} threads id from to
    (sink : CreateBFGlobalSinkState G ts) :
  ExecuteTask masks_ threads id from to sink = run_pushes masks_ threads (pair id <$> seqZ from (to - from)) sink.
Proof.
  unfold ExecuteTask, run_pushes. generalize (seqZ from (to - from)). intros l. revert sink.
  induction l as [|i l IH]; intros sink; [done|]. cbn [ofold fmap list_fmap fst snd].
  destruct (push_chunk masks_ (thread_index threads id) sink i); [|done..]. cbn. apply IH.
Qed.

Lemma schedule_covers {G ts} (sink : CreateBFGlobalSinkState G ts) num_threads verify :
  1 ≤ num_threads → covered (Schedule num_threads verify sink) = seqZ 0 (ChunkCount sink.(total_data)).
Proof.
  intros Hn. unfold Schedule. destruct (_ || _); [unfold covered; cbn; by rewrite app_nil_r, Z.sub_0_r|].
  pose proof (ChunkCount_nonneg sink.(total_data)) as Hc. destruct (chunks_per_thread_enough _ num_threads Hc Hn) as [H1 H2].
  rewrite task_ranges_cover by lia. by rewrite Z.sub_0_r.
Qed.

(** The filters after the finalize tasks, in any interleaving of their pushes. *)
Lemma built_filter `{ArrowBitsOk} {G : Type} `{RandomSourceOk G} `{ColumnCopyOk} (masks_ : list Z) {ts} (ts_ok : forallb array_free ts = true)
    threads verify pushes (sink : CreateBFGlobalSinkState G ts) fresh :
  masks_ok masks_ → collection_ok sink.(total_data) → small_rows ts (Some <$> all_rows sink.(total_data)) →
  Forall2 (has_pushed masks_ (ts := ts) (S (length threads)) []) sink.(builders) fresh →
  pushes.*2 ≡ₚ covered (Schedule (Z.of_nat (S (length threads))) verify sink) →
  ∃ sink', run_pushes masks_ threads pushes sink = Ret sink' ∧
    Forall2 (λ (bf : Builder G * BlockedBloomFilter) fr, bf_ok fr.1 fr.2 ∧
      bf.2 = with_blocks (Some (puts masks_ fr.1.(log_num_blocks_) fr.2 (hashes_of fr.1 (all_rows sink.(total_data))))) fr.1)
      sink'.(builders) fresh.
Proof.
  intros Hm Hc Hs HF Hp. rewrite schedule_covers in Hp by lia.
  destruct (run_pushes_ok masks_ Hm ts_ok threads pushes sink [] fresh Hc Hs) as (bs & E & HF'); [|done|].
  { assert (Forall (λ i, 0 ≤ i < ChunkCount (total_data sink)) pushes.*2) as Hr.
    { apply Forall_forall. intros i. rewrite Hp, elem_of_seqZ. lia. }
    by apply Forall_fmap in Hr. }
  eexists. split; [exact E|]. eapply Forall2_impl; [exact HF'|]. intros bf fr (_ & Hok & _ & ->). split; [done|]. do 2 f_equal.
  apply puts_set_eq; [done..|]. intros h. unfold hashes_of. rewrite !list_elem_of_fmap. cbn [app].
  setoid_rewrite (fmap_Permutation (λ i, default [] (all_chunks (total_data sink) !! Z.to_nat i)) _ _ Hp).
  rewrite chunks_in_order. done.
Qed.

(** A row with the key of a pushed row is accepted. *)
Lemma matching_row_accepted `{ArrowBitsOk} (masks_ : list Z) {ts us} (fr : BlockedBloomFilter * list Z) (rows : list (tuple ts))
    cols (r' : tuple ts) (r : tuple us) k k' :
  masks_ok masks_ → bf_ok fr.1 fr.2 → r' ∈ rows → row_key ts fr.1.(BoundColsBuilt) r' = Some k' → row_key us cols r = Some k →
  keys_match k' k →
  Find masks_ (with_blocks (Some (puts masks_ fr.1.(log_num_blocks_) fr.2 (hashes_of fr.1 rows))) fr.1) (row_hash us cols r) = Ret true.
Proof.
  intros Hm Hok Hin Hk' Hk Hmatch. rewrite (Find_find_in masks_ _ _ _ (puts_ok masks_ Hm _ _ _ Hok)). f_equal.
  apply find_in_puts; [done..|by apply (slot_in_range fr.1)|]. unfold row_hash. rewrite Hk, <-(keys_match_hash _ _ _ _ Hmatch).
  apply list_elem_of_fmap. exists r'. split; [|done]. unfold row_hash. by rewrite Hk'.
Qed.

(** C2: predicate transfer loses no matching row.  The build side is sunk by
    any number of threads into any number of filters, the finalize tasks push
    the buffered chunks in any interleaving, and the probe side goes through
    [PhysicalUseBF] with one of these filters.  Everything is defined, the
    operator hands on a sub-collection of the probe rows, and every probe row
    whose key equals the key of some build row is among them.  Memory can be
    allocated, columns hold no arrays, key columns are of types the code
    hashes as intended ([keys_safe]), and the number of build rows keeps the
    size computations of the code within 64 bits. *)
Theorem no_matching_row_is_lost `{ArrowBitsOk} {G : Type} `{RandomSourceOk G} `{ColumnCopyOk} (masks_ : list Z) (alloc : Z → bool)
    {build probe : list Ty} (threads : list Z) (verify_parallelism : bool) (filters : list BlockedBloomFilter) (j : nat)
    (f : BlockedBloomFilter) (inputs : list (list (DataChunk build))) (pushes : list (Z * Z)) (g sink : CreateBFGlobalSinkState G build)
    (sel : list Z) (allowed : bool) (probe_inputs : list (DataChunk probe)) :
  masks_ok masks_ → (∀ size, alloc size = true) → forallb array_free build = true → forallb array_free probe = true →
  filters !! j = Some f → Forall (λ f, keys_safe build f.(BoundColsBuilt) = true) filters → keys_safe probe f.(BoundColsApplied) = true →
  small_rows build (Some <$> input_rows inputs) → Z.of_nat (length (input_rows inputs)) * kMinNumBitsPerKey < 2 ^ 63 →
  Z.of_nat (length sel) = STANDARD_VECTOR_SIZE → Forall chunk_ok probe_inputs →
  run_sink inputs = Ret g → Finalize alloc (Z.of_nat (S (length threads))) filters g = Ret sink →
  pushes.*2 ≡ₚ covered (Schedule (Z.of_nat (S (length threads))) verify_parallelism sink) →
  ∃ sink' b bf outputs (keep : tuple probe → bool),
    run_pushes masks_ threads pushes sink = Ret sink' ∧ sink'.(builders) !! j = Some (b, bf) ∧
    run_operator (PhysicalUseBF masks_ [bf] sel) allowed GetOperatorState probe_inputs = Ret outputs ∧
    concat (chunk_rows <$> outputs) ≡ₚ base.filter (λ r, keep r = true) (concat (chunk_rows <$> probe_inputs)) ∧
    ∀ r r' k k', r' ∈ input_rows inputs → row_key build f.(BoundColsBuilt) r' = Some k' →
      row_key probe f.(BoundColsApplied) r = Some k → keys_match k' k → keep r = true.
Proof.
  intros Hm Hal Hba Hpa Hj Hks Hkp Hsmall Hov Hsel Hprobe Eg Es Hp.
  destruct (run_sink_ok (G := G) inputs) as (g' & Eg' & G1 & G2 & G3 & G4). rewrite Eg in Eg'. injection Eg' as <-.
  rewrite <-G4 in Hov, Hsmall |- *.
  destruct (Finalize_ok masks_ alloc Hal (Z.of_nat (S (length threads))) filters g) as (sink2 & fresh & Es' & F1 & F2 & F3 & F4); [lia|done..|].
  rewrite Es in Es'. injection Es' as <-. rewrite Nat2Z.id in F2. rewrite <-F4 in Hsmall |- *.
  destruct (built_filter masks_ Hba threads verify_parallelism pushes sink fresh Hm F3 Hsmall F2 Hp) as (sink' & Er & HF).
  destruct (Forall2_lookup_l _ _ _ _ _ F1 Hj) as (fr & Hfr & log & Hlog & E2 & E1).
  destruct (Forall2_lookup_r _ _ _ _ _ HF Hfr) as ([b bf] & Hb & Hok & Ebf). cbn [snd] in Ebf.
  assert (BoundColsApplied bf = BoundColsApplied f) as Ecols by (by rewrite Ebf, E1).
  assert (BoundColsBuilt fr.1 = BoundColsBuilt f) as Ecols' by (by rewrite E1).
  assert (bf_ok bf (puts masks_ fr.1.(log_num_blocks_) fr.2 (hashes_of fr.1 (all_rows sink.(total_data))))) as Hbf.
  { rewrite Ebf. by apply puts_ok. }
  set (keep := accepted masks_ bf (puts masks_ fr.1.(log_num_blocks_) fr.2 (hashes_of fr.1 (all_rows sink.(total_data)))) probe (BoundColsApplied f)).
  destruct (run_operator_ok (PhysicalUseBF masks_ [bf] sel) allowed (λ rows, base.filter (λ r, keep r = true) rows)
    probe_inputs GetOperatorState) as (outs & Eo & Hperm); [|split_and!; done|done|].
  { intros input Hi. unfold keep. rewrite <-Ecols in Hkp |- *. destruct (ExecuteInternal_ok masks_ Hm bf [] _ sel input Hpa Hkp Hbf Hsel Hi) as (c & E & Hc & Hr).
    exists c. unfold PhysicalUseBF. rewrite E. split_and!; [done|apply Hc..|done]. }
  exists sink', b, bf, outs, keep. split_and!; [done|done|done| |].
  - rewrite Hperm. cbn [default GetOperatorState cached_chunk from_option app]. by rewrite concat_filter.
  - intros r r' k k' Hin Hk' Hk Hmatch. unfold keep.
    assert (Find masks_ bf (row_hash probe (BoundColsApplied f) r) = Ret true) as HFi.
    { rewrite Ebf. eapply matching_row_accepted; [done|done|exact Hin|by rewrite Ecols'|done|done]. }
    rewrite (Find_find_in masks_ bf _ _ Hbf) in HFi. by injection HFi.
Qed.

(** Two threads sink three rows and one row; two threads build the filter. *)
Definition bind_columns (built applied : list nat) (bf : BlockedBloomFilter) : BlockedBloomFilter :=
  mkBlockedBloomFilter bf.(column_bindings_applied_) bf.(column_bindings_built_) applied built
    bf.(log_num_blocks_) bf.(num_blocks_) bf.(use_64bit_hashes_) bf.(blocks_) bf.(Used_).

Definition sample_target : BlockedBloomFilter := bind_columns [0%nat] [0%nat] new_filter.

Definition sample_inputs : list (list (DataChunk sample_types)) := [[chunk_of sample_rows]; [chunk_of (take 1 sample_rows)]].

Definition sample_sunk : CreateBFGlobalSinkState Z sample_types :=
  match run_sink (G := Z) sample_inputs with Ret g => g | _ => sample_sink end.

Definition sample_finalized : CreateBFGlobalSinkState Z sample_types :=
  match Finalize (λ _, true) 2 [sample_target] sample_sunk with Ret s => s | _ => sample_sink end.

Lemma no_matching_row_is_lost_witness :
  ∃ sink' b bf outputs (keep : tuple sample_types → bool),
    run_pushes sample_masks [101] [(7, 1); (101, 0)] sample_finalized = Ret sink' ∧ sink'.(builders) !! 0%nat = Some (b, bf) ∧
    run_operator (PhysicalUseBF sample_masks [bf] (replicate 2048 0)) true GetOperatorState [chunk_of sample_rows] = Ret outputs ∧
    concat (chunk_rows <$> outputs) ≡ₚ base.filter (λ r, keep r = true) (concat (chunk_rows <$> [chunk_of sample_rows])) ∧
    ∀ r r' k k', r' ∈ input_rows sample_inputs → row_key sample_types [0%nat] r' = Some k' →
      row_key sample_types [0%nat] r = Some k → keys_match k' k → keep r = true.
Proof.
  apply (no_matching_row_is_lost sample_masks (λ _, true) [101] true [sample_target] 0 sample_target sample_inputs [(7, 1); (101, 0)]
    sample_sunk sample_finalized);
    [apply sample_masks_ok|done|done|done|done|by repeat constructor|done|by repeat split|by vm_compute|done| |by vm_compute|by vm_compute|].
  - apply Forall_cons; split; [by apply chunk_of_ok|]. apply Forall_nil_2.
  - change (covered _) with [0; 1]. apply Permutation_swap.
Defined.
