(* ===== verification/LogicalPlan.v ===== *)
(** * Logical plans

    The parts of a logical plan the transfer optimizer looks at: operators
    with their type, table indexes, bindings and estimated cardinality
    ([planner/logical_operator.hpp]), bound expressions, and the operators
    [LogicalCreateBF] and [LogicalUseBF] it inserts.  Operators are told apart
    by their address, [ptr]. *)

From S2P Require Import Prelude BloomFilter.
Local Open Scope Z_scope.
Local Open Scope machine_scope.

(** ** Expressions *)

Inductive ExpressionType := COMPARE_EQUAL | OPERATOR_NOT | TYPE_BOUND_COLUMN_REF | OTHER_EXPRESSION_TYPE (n : Z).
Inductive ExpressionClass := BOUND_COMPARISON | BOUND_OPERATOR | BOUND_COLUMN_REF | OTHER_EXPRESSION_CLASS (n : Z).

#[global] Instance ExpressionType_eq_dec : EqDecision ExpressionType.
Proof. solve_decision. Defined.

#[global] Instance ExpressionClass_eq_dec : EqDecision ExpressionClass.
Proof. solve_decision. Defined.

(** An expression: its type and class (the argument of the other types and
    classes stands for all else such an expression holds), the binding of a column reference, and
    the children [ExpressionIterator::EnumerateChildren] visits, in order. *)
#[warnings="-register-all"] Inductive Expression :=
  Expr (etype : ExpressionType) (eclass : ExpressionClass) (ebinding : ColumnBinding) (echildren : list Expression).

Definition etype (e : Expression) : ExpressionType := let '(Expr t _ _ _) := e in t.
Definition eclass (e : Expression) : ExpressionClass := let '(Expr _ c _ _) := e in c.
Definition ebinding (e : Expression) : ColumnBinding := let '(Expr _ _ b _) := e in b.

(** [DConstants::INVALID_INDEX], the table index of a default binding. *)
Definition INVALID_INDEX : Z := 2 ^ 64 - 1.
Definition default_binding : ColumnBinding := mkBinding INVALID_INDEX INVALID_INDEX.

Definition BoundColumnRef (b : ColumnBinding) : Expression := Expr TYPE_BOUND_COLUMN_REF BOUND_COLUMN_REF b [].

Definition BoundComparison (comparison : ExpressionType) (left right : Expression) : Expression :=
  Expr comparison BOUND_COMPARISON default_binding [left; right].

(** [Expression::Equals]. *)
Fixpoint expr_equals (a b : Expression) : bool :=
  let '(Expr t1 c1 b1 es1) := a in
  let '(Expr t2 c2 b2 es2) := b in
  bool_decide (t1 = t2) && bool_decide (c1 = c2) && bool_decide (b1 = b2) &&
  (fix go l1 l2 := match l1, l2 with
    | [], [] => true
    | e1 :: l1, e2 :: l2 => expr_equals e1 e2 && go l1 l2
    | _, _ => false
    end) es1 es2.

Inductive JoinType :=
| JOIN_INVALID | LEFT | RIGHT | INNER | OUTER | SEMI | ANTI | MARK | SINGLE | RIGHT_SEMI | RIGHT_ANTI.

#[global] Instance JoinType_eq_dec : EqDecision JoinType.
Proof. solve_decision. Defined.

Record JoinCondition := mkCondition { comparison : ExpressionType; left : Expression; right : Expression }.

(** ** Operators *)

Inductive LogicalOperatorType :=
| LOGICAL_INVALID | LOGICAL_PROJECTION | LOGICAL_FILTER | LOGICAL_AGGREGATE_AND_GROUP_BY | LOGICAL_WINDOW
| LOGICAL_UNNEST | LOGICAL_LIMIT | LOGICAL_ORDER_BY | LOGICAL_TOP_N | LOGICAL_COPY_TO_FILE | LOGICAL_DISTINCT
| LOGICAL_SAMPLE | LOGICAL_LIMIT_PERCENT | LOGICAL_PIVOT | LOGICAL_COPY_DATABASE
| LOGICAL_GET | LOGICAL_CHUNK_GET | LOGICAL_DELIM_GET | LOGICAL_EXPRESSION_GET | LOGICAL_DUMMY_SCAN
| LOGICAL_EMPTY_RESULT | LOGICAL_CTE_REF
| LOGICAL_JOIN | LOGICAL_DELIM_JOIN | LOGICAL_COMPARISON_JOIN | LOGICAL_ANY_JOIN | LOGICAL_CROSS_PRODUCT
| LOGICAL_POSITIONAL_JOIN | LOGICAL_ASOF_JOIN | LOGICAL_DEPENDENT_JOIN
| LOGICAL_UNION | LOGICAL_EXCEPT | LOGICAL_INTERSECT | LOGICAL_RECURSIVE_CTE | LOGICAL_MATERIALIZED_CTE
| LOGICAL_INSERT | LOGICAL_DELETE | LOGICAL_UPDATE
| LOGICAL_ALTER | LOGICAL_CREATE_TABLE | LOGICAL_CREATE_INDEX | LOGICAL_CREATE_SEQUENCE | LOGICAL_CREATE_VIEW
| LOGICAL_CREATE_SCHEMA | LOGICAL_CREATE_MACRO | LOGICAL_DROP | LOGICAL_PRAGMA | LOGICAL_TRANSACTION
| LOGICAL_CREATE_TYPE | LOGICAL_ATTACH | LOGICAL_DETACH
| LOGICAL_EXPLAIN
| LOGICAL_PREPARE | LOGICAL_EXECUTE | LOGICAL_EXPORT | LOGICAL_VACUUM | LOGICAL_SET | LOGICAL_LOAD | LOGICAL_RESET
| LOGICAL_CREATE_SECRET | LOGICAL_CREATE_BF | LOGICAL_USE_BF | LOGICAL_CREATE_TABLE_BF | LOGICAL_EXTENSION_OPERATOR.

#[global] Instance LogicalOperatorType_eq_dec : EqDecision LogicalOperatorType.
Proof. solve_decision. Defined.

(** What an operator holds besides its children.  [table_index] and
    [column_bindings] are the results of the virtual [GetTableIndex] and
    [GetColumnBindings]; the fields of particular operators (joins,
    aggregates, the two filter operators) are empty elsewhere.  A filter is
    named by its index in the heap of filters, a related operator by address. *)
Record op_info := mkInfo {
  ptr : Z;
  otype : LogicalOperatorType;
  estimated_cardinality : Z;
  table_indexes : list Z;
  column_bindings : list ColumnBinding;
  expressions : list Expression;
  join_type : JoinType;
  conditions : list JoinCondition;
  groups : list Expression;
  grouping_sets : nat;
  filters_of : list nat;
  related_create_bf : list Z
}.

#[warnings="-register-all"] Inductive LogicalOperator := Op (info : op_info) (children : list LogicalOperator).

Definition info (op : LogicalOperator) : op_info := let '(Op i _) := op in i.
Definition children (op : LogicalOperator) : list LogicalOperator := let '(Op _ cs) := op in cs.
Definition type (op : LogicalOperator) : LogicalOperatorType := (info op).(otype).
Definition address (op : LogicalOperator) : Z := (info op).(ptr).
Definition cardinality (op : LogicalOperator) : Z := (info op).(estimated_cardinality).

(** Induction with the hypothesis for all children. *)
Section Operator_induction.
  Context (P : LogicalOperator → Prop) (Pop : ∀ i cs, Forall P cs → P (Op i cs)).

Fixpoint LogicalOperator_nested_ind (op : LogicalOperator) : P op :=
  match op with
  | Op i cs =>
      Pop i cs ((fix go cs : Forall P cs :=
        match cs with
        | [] => Forall_nil_2 P
        | c :: cs => Forall_cons_2 P c cs (LogicalOperator_nested_ind c) (go cs)
        end) cs)
  end.
End Operator_induction.

(** [GetTableIndex()[i]]. *)
Definition GetTableIndex (op : LogicalOperator) (i : nat) : outcome Z := vec_at (info op).(table_indexes) i.

(** [Cast<LogicalGet>()]. *)
Definition CastGet (op : LogicalOperator) : outcome LogicalOperator :=
  if decide (type op = LOGICAL_GET) then Ret op
  else Throw "Failed to cast logical operator to type - logical operator type mismatch".

(** [NodesManager::GetTableIndexinFilter]. *)
Definition GetTableIndexinFilter (op : LogicalOperator) : outcome Z :=
  let* c := vec_at (children op) 0 in
  match type c with
  | LOGICAL_GET => GetTableIndex c 0
  | LOGICAL_COMPARISON_JOIN =>
      let* c := vec_at (children c) 0 in
      let* get := CastGet c in GetTableIndex get 0
  | LOGICAL_AGGREGATE_AND_GROUP_BY => GetTableIndex c 0
  | _ => let* get := CastGet op in GetTableIndex get 0
  end.

(** The table index under which an operator is a node of the graph: the
    switch of [NodesManager::AddNode], [DAGManager::CreateDAG] and
    [PredicateTransferOptimizer::GetNodeId]. *)
Definition node_index (op : LogicalOperator) : outcome (option Z) :=
  match type op with
  | LOGICAL_GET | LOGICAL_DELIM_GET | LOGICAL_PROJECTION | LOGICAL_UNION | LOGICAL_EXCEPT | LOGICAL_INTERSECT =>
      let* i := GetTableIndex op 0 in Ret (Some i)
  | LOGICAL_FILTER => let* i := GetTableIndexinFilter op in Ret (Some i)
  | LOGICAL_AGGREGATE_AND_GROUP_BY => let* i := GetTableIndex op 1 in Ret (Some i)
  | _ => Ret None
  end.
