(* ===== verification/NodesManager.v ===== *)
(** * NodesManager: the nodes of the transfer graph

    Models [optimizer/predicate_transfer/nodes_manager.cpp].  The order in
    which an unordered container is iterated and the order [std::sort] gives
    to equal elements are an interface, [StdOrder].  Shown: [ExtractNodes]
    returns on well-formed plans, finds tables and joins of the plan only, and
    misses none. *)

From S2P Require Import Prelude BloomFilter LogicalPlan.
Local Open Scope Z_scope.
Local Open Scope machine_scope.

(** ** Orders the standard library leaves open *)

Class StdOrder := {
  map_order : gmap Z LogicalOperator → list (Z * LogicalOperator);
  set_order : gset Z → list Z;
  std_sort : list LogicalOperator → list LogicalOperator
}.

Definition card_le (a b : LogicalOperator) : Prop := cardinality a ≤ cardinality b.

#[global] Instance card_le_dec a b : Decision (card_le a b).
Proof. unfold card_le. apply _. Defined.

Class StdOrderOk `{StdOrder} : Prop := {
  map_order_perm m : map_order m ≡ₚ map_to_list m;
  set_order_perm s : set_order s ≡ₚ elements s;
  std_sort_perm l : std_sort l ≡ₚ l;
  std_sort_sorted l : Sorted card_le (std_sort l)
}.

#[global] Instance std_order_ref : StdOrder := {
  map_order := map_to_list;
  set_order := elements;
  std_sort := merge_sort card_le
}.

#[global] Instance std_order_ref_ok : StdOrderOk.
Proof.
  split; [done|done|intros; apply merge_sort_Permutation|].
  intros l. apply Sorted_merge_sort. intros a b. unfold card_le. lia.
Qed.

(** [LogicalOperator::EstimateCardinality], which reads the statistics of the
    catalog. *)
Class CardinalityEstimator := EstimateCardinality : LogicalOperator → Z.

(** The estimate an operator already carries. *)
#[global] Instance carried_estimate : CardinalityEstimator := cardinality.

(** [op->estimated_cardinality = op->EstimateCardinality(context)]. *)
Definition estimated `{CardinalityEstimator} (op : LogicalOperator) : LogicalOperator :=
  let '(Op i cs) := op in
  Op (mkInfo i.(ptr) i.(otype) (EstimateCardinality op) i.(table_indexes) i.(column_bindings) i.(expressions) i.(join_type)
       i.(conditions) i.(groups) i.(grouping_sets) i.(filters_of) i.(related_create_bf)) cs.

(** ** State *)

Record NodesManager := mkNodes {
  nodes : gmap Z LogicalOperator;
  duplicate_nodes : gmap Z LogicalOperator;
  sort_nodes : list LogicalOperator;
  rename_cols : gmap ColumnBinding ColumnBinding
}.

Definition new_nodes : NodesManager := mkNodes ∅ ∅ [] ∅.

Section Operations.
  Context `{StdOrder} `{CardinalityEstimator}.

Definition NumNodes (m : NodesManager) : Z := Z.of_nat (size m.(nodes)).

(** [getNode]: a null pointer when the index is not a node. *)
Definition getNode (m : NodesManager) (table_binding : Z) : option LogicalOperator := m.(nodes) !! table_binding.

Definition with_nodes (ns : gmap Z LogicalOperator) (m : NodesManager) : NodesManager :=
  mkNodes ns m.(duplicate_nodes) m.(sort_nodes) m.(rename_cols).

Definition EraseNode (key : Z) (m : NodesManager) : NodesManager := with_nodes (delete key m.(nodes)) m.

Definition DuplicateNodes (m : NodesManager) : NodesManager := mkNodes m.(nodes) m.(nodes) m.(sort_nodes) m.(rename_cols).

Definition RecoverNodes (m : NodesManager) : NodesManager := with_nodes m.(duplicate_nodes) m.

(** [SortNodes] and [ReSortNodes]. *)
Definition SortNodes (m : NodesManager) : NodesManager :=
  mkNodes m.(nodes) m.(duplicate_nodes) (std_sort (m.(sort_nodes) ++ (map_order m.(nodes)).*2)) m.(rename_cols).

Definition ReSortNodes (m : NodesManager) : NodesManager :=
  mkNodes m.(nodes) m.(duplicate_nodes) (std_sort (map_order m.(nodes)).*2) m.(rename_cols).

(** [FindRename]: follows the renames.  [fuel] bounds the number of renames followed. *)
Fixpoint find_rename (fuel : nat) (renames : gmap ColumnBinding ColumnBinding) (col : ColumnBinding) : outcome ColumnBinding :=
  match renames !! col with
  | None => Ret col
  | Some res => match fuel with O => NoFuel | S fuel => find_rename fuel renames res end
  end.

Definition FindRename (m : NodesManager) (col : ColumnBinding) : outcome ColumnBinding :=
  find_rename (size m.(rename_cols)) m.(rename_cols) col.

(** [AddNode]: the first operator with a table index becomes its node. *)
Definition AddNode (op : LogicalOperator) (m : NodesManager) : outcome NodesManager :=
  let op := estimated op in
  let* id := node_index op in
  match id with
  | None => Ret m
  | Some id => match m.(nodes) !! id with None => Ret (with_nodes (<[id := op]> m.(nodes)) m) | Some _ => Ret m end
  end.

(** [OperatorNeedsRelation]. *)
Definition OperatorNeedsRelation (op_type : LogicalOperatorType) : bool :=
  match op_type with
  | LOGICAL_PROJECTION | LOGICAL_EXPRESSION_GET | LOGICAL_GET | LOGICAL_DELIM_GET | LOGICAL_AGGREGATE_AND_GROUP_BY
  | LOGICAL_WINDOW => true
  | _ => false
  end.

(** ** ExtractNodes *)

(** The manager, the join operators found, and the global [can_add_mark]. *)
Record extract_state := mkExtract {
  manager : NodesManager;
  filter_operators : list LogicalOperator;
  can_add_mark : bool
}.

Definition with_manager (m : NodesManager) (s : extract_state) : extract_state := mkExtract m s.(filter_operators) s.(can_add_mark).
Definition set_can_add_mark (b : bool) (s : extract_state) : extract_state := mkExtract s.(manager) s.(filter_operators) b.

Definition add_node (op : LogicalOperator) (s : extract_state) : outcome extract_state :=
  let* m := AddNode op s.(manager) in Ret (with_manager m s).

(** A join condition [column = column]. *)
Definition equal_columns (jc : JoinCondition) : bool :=
  bool_decide (jc.(comparison) = COMPARE_EQUAL) && bool_decide (etype jc.(left) = TYPE_BOUND_COLUMN_REF) &&
  bool_decide (etype jc.(right) = TYPE_BOUND_COLUMN_REF).

(** The joins whose conditions become edges. *)
Definition extract_join (op : LogicalOperator) (s : extract_state) : extract_state :=
  match type op with
  | LOGICAL_COMPARISON_JOIN | LOGICAL_DELIM_JOIN =>
      let push := existsb equal_columns (info op).(conditions) in
      let s :=
        match (info op).(join_type) with
        | INNER | LEFT | RIGHT | SEMI | RIGHT_SEMI => if push then mkExtract s.(manager) (s.(filter_operators) ++ [op]) s.(can_add_mark) else s
        | MARK => if s.(can_add_mark) && push then mkExtract s.(manager) (s.(filter_operators) ++ [op]) s.(can_add_mark) else s
        | _ => s
        end in
      if s.(can_add_mark) then s else set_can_add_mark true s
  | _ => s
  end.

(** The renames of a projection or of the groups of an aggregate:
    [insert] keeps a rename that exists. *)
Fixpoint add_renames (bindings : list ColumnBinding) (i : nat) (es : list Expression) (renames : gmap ColumnBinding ColumnBinding)
    : outcome (gmap ColumnBinding ColumnBinding) :=
  match es with
  | [] => Ret renames
  | e :: es =>
      let* renames :=
        if decide (etype e = TYPE_BOUND_COLUMN_REF) then
          let* b := vec_at bindings i in
          Ret (match renames !! b with Some _ => renames | None => <[b := ebinding e]> renames end)
        else Ret renames in
      add_renames bindings (S i) es renames
  end.

Definition extract_renames (op : LogicalOperator) (es : list Expression) (s : extract_state) : outcome extract_state :=
  let* r := add_renames (info op).(column_bindings) 0 es s.(manager).(rename_cols) in
  Ret (with_manager (mkNodes s.(manager).(nodes) s.(manager).(duplicate_nodes) s.(manager).(sort_nodes) r) s).

(** Whether the first expression of a filter over a join is a negation. *)
Definition negated_join (op c : LogicalOperator) : outcome bool :=
  let* e := vec_at (info op).(expressions) 0 in
  Ret (bool_decide (etype e = OPERATOR_NOT) && bool_decide (eclass e = BOUND_OPERATOR) &&
       bool_decide (type c = LOGICAL_COMPARISON_JOIN)).

(** [ExtractNodes].  The loop over operators with one child that need no
    relation goes on with the child. *)
Fixpoint ExtractNodes (op : LogicalOperator) (s : extract_state) : outcome extract_state :=
  match op with
  | Op i cs =>
      match cs, OperatorNeedsRelation i.(otype), i.(otype) with
      | [c], false, LOGICAL_FILTER =>
          if decide (type c = LOGICAL_GET) then add_node op s else
          let* negated := negated_join op c in
          ExtractNodes c (set_can_add_mark (negb negated) s)
      | [c], false, _ => ExtractNodes c s
      | _, _, _ =>
          let s := extract_join op s in
          let child (n : nat) (s : extract_state) :=
            (fix at_child n cs : outcome extract_state :=
              match cs, n with
              | [], _ => Throw "Attempted to access index within vector"
              | c :: _, O => ExtractNodes c s
              | _ :: cs, S n => at_child n cs
              end) n cs in
          match i.(otype) with
          | LOGICAL_AGGREGATE_AND_GROUP_BY =>
              if bool_decide (i.(groups) = []) && (i.(grouping_sets) <=? 1)%nat then
                let* s := child 0%nat s in add_node op s
              else
                let* s := extract_renames op i.(groups) s in child 0%nat s
          | LOGICAL_WINDOW => let* s := add_node op s in child 0%nat s
          | LOGICAL_COMPARISON_JOIN | LOGICAL_DELIM_JOIN | LOGICAL_CROSS_PRODUCT | LOGICAL_ANY_JOIN | LOGICAL_ASOF_JOIN =>
              let* s := child 0%nat s in child 1%nat s
          | LOGICAL_DUMMY_SCAN | LOGICAL_EXPRESSION_GET | LOGICAL_GET | LOGICAL_DELIM_GET | LOGICAL_EMPTY_RESULT => add_node op s
          | LOGICAL_PROJECTION => let* s := extract_renames op i.(expressions) s in child 0%nat s
          | LOGICAL_UNION | LOGICAL_EXCEPT | LOGICAL_INTERSECT =>
              let* s := add_node op s in let* s := child 0%nat s in child 1%nat s
          | _ =>
              (fix all cs s := match cs with [] => Ret s | c :: cs => let* s := ExtractNodes c s in all cs s end) cs s
          end
      end
  end.
End Operations.

(** ** Renames *)

(** Following a rename lowers the rank, and the default binding has none. *)
Definition ranked (rank : ColumnBinding → nat) (renames : gmap ColumnBinding ColumnBinding) : Prop :=
  map_Forall (λ col res, (rank res < rank col)%nat ∧ col ≠ default_binding) renames.

(** [b] is reached from [a] by following renames. *)
Definition renames_to (renames : gmap ColumnBinding ColumnBinding) : ColumnBinding → ColumnBinding → Prop :=
  rtc (λ a b, renames !! a = Some b).

Lemma renames_rank rank renames a b : ranked rank renames → renames_to renames a b → (rank b ≤ rank a)%nat.
Proof. intros Hr Hs. induction Hs as [|a c b Hac _ IH]; [done|]. specialize (Hr a c Hac). simpl in Hr. lia. Qed.

Lemma find_rename_delete rank n renames col res :
  ranked rank renames → (rank res < rank col)%nat →
  find_rename n (delete col renames) res = find_rename n renames res.
Proof.
  intros Hr. revert res. induction n as [|n IH]; intros res Hlt; simpl;
    rewrite lookup_delete_ne by (intros ->; lia); destruct (renames !! res) as [r|] eqn:E; try done.
  apply IH. specialize (Hr res r E). simpl in Hr. lia.
Qed.

Lemma find_rename_ok rank n renames col :
  ranked rank renames → (size renames ≤ n)%nat →
  ∃ r, find_rename n renames col = Ret r ∧ renames_to renames col r ∧ renames !! r = None.
Proof.
  revert renames col. induction n as [|n IH]; intros renames col Hr Hn; simpl;
    destruct (renames !! col) as [res|] eqn:E; try (exists col; split_and!; [done|apply rtc_refl|done]).
  { assert (renames = ∅) as -> by (apply map_size_empty_iff; lia). by rewrite lookup_empty in E. }
  pose proof (Hr col res E) as [Hlt _].
  destruct (IH (delete col renames) res) as (r & Hf & Hs & Hnone).
  - intros a b [? ?]%lookup_delete_Some. by apply Hr.
  - rewrite map_size_delete_Some by eauto. lia.
  - assert (renames_to renames res r) as Hs'.
    { eapply rtc_subrel; [|exact Hs]. intros a b [? ?]%lookup_delete_Some. done. }
    exists r. rewrite <- (find_rename_delete rank n renames col) by done. split_and!; [done|by eapply rtc_l|].
    apply (renames_rank rank) in Hs'; [|done]. rewrite lookup_delete_ne in Hnone; [done|intros ->; lia].
Qed.

Lemma FindRename_ok rank m col :
  ranked rank m.(rename_cols) →
  ∃ r, FindRename m col = Ret r ∧ renames_to m.(rename_cols) col r ∧ m.(rename_cols) !! r = None.
Proof. intros Hr. by apply (find_rename_ok rank). Qed.

(** ** What extraction finds *)

(** The operators of a plan. *)
Fixpoint suboperators (op : LogicalOperator) : list LogicalOperator :=
  match op with Op _ cs => op :: concat (map suboperators cs) end.

Lemma suboperators_self op : op ∈ suboperators op.
Proof. destruct op. left. Qed.

Lemma suboperators_child op c x : c ∈ children op → x ∈ suboperators c → x ∈ suboperators op.
Proof.
  destruct op as [i cs]. intros Hc Hx. right. apply list_elem_of_In, in_concat. exists (suboperators c).
  split; [by apply in_map, list_elem_of_In|by apply list_elem_of_In].
Qed.

Lemma suboperators_trans plan op x : op ∈ suboperators plan → x ∈ suboperators op → x ∈ suboperators plan.
Proof.
  induction plan as [i cs IH] using LogicalOperator_nested_ind. simpl.
  intros [->|Hop]%elem_of_cons Hx; [done|]. right. apply list_elem_of_In, in_concat in Hop as (l & Hl & Hop).
  apply in_map_iff in Hl as (c & <- & Hc). rewrite Forall_forall in IH. apply list_elem_of_In in Hc.
  apply list_elem_of_In, in_concat. exists (suboperators c). split; [by apply in_map, list_elem_of_In|].
  apply list_elem_of_In, IH; [done|by apply list_elem_of_In|done].
Qed.

Section Extraction.
  Context `{StdOrder} `{CardinalityEstimator} (rank : ColumnBinding → nat).

(** The shape the binder gives to an operator: its children, table indexes
    and bindings are there, and a column it renames comes from below. *)
Definition renames_ok (op : LogicalOperator) (es : list Expression) : Prop :=
  ∀ n e, es !! n = Some e → etype e = TYPE_BOUND_COLUMN_REF →
  ∃ b, (info op).(column_bindings) !! n = Some b ∧ (rank (ebinding e) < rank b)%nat ∧ b ≠ default_binding.

Definition op_ok (op : LogicalOperator) : Prop :=
  match type op with
  | LOGICAL_GET | LOGICAL_DELIM_GET => (1 ≤ length (info op).(table_indexes))%nat
  | LOGICAL_UNION | LOGICAL_EXCEPT | LOGICAL_INTERSECT => (1 ≤ length (info op).(table_indexes))%nat ∧ length (children op) = 2%nat
  | LOGICAL_COMPARISON_JOIN | LOGICAL_DELIM_JOIN | LOGICAL_CROSS_PRODUCT | LOGICAL_ANY_JOIN | LOGICAL_ASOF_JOIN =>
      length (children op) = 2%nat
  | LOGICAL_FILTER => length (children op) = 1%nat ∧ (1 ≤ length (info op).(expressions))%nat
  | LOGICAL_AGGREGATE_AND_GROUP_BY =>
      (2 ≤ length (info op).(table_indexes))%nat ∧ length (children op) = 1%nat ∧ renames_ok op (info op).(groups)
  | LOGICAL_PROJECTION => length (children op) = 1%nat ∧ renames_ok op (info op).(expressions)
  | LOGICAL_WINDOW => length (children op) = 1%nat
  | _ => True
  end.

Definition plan_ok (op : LogicalOperator) : Prop := Forall op_ok (suboperators op).

(** A join found by the extraction. *)
Definition transfer_join (op : LogicalOperator) : Prop :=
  (type op = LOGICAL_COMPARISON_JOIN ∨ type op = LOGICAL_DELIM_JOIN) ∧
  (info op).(join_type) ∈ [INNER; LEFT; RIGHT; SEMI; RIGHT_SEMI; MARK] ∧
  existsb equal_columns (info op).(conditions) = true.

(** A node: an operator of the plan with its estimate, under its table index. *)
Definition node_of (plan : LogicalOperator) (id : Z) (op : LogicalOperator) : Prop :=
  node_index op = Ret (Some id) ∧ ∃ op', op' ∈ suboperators plan ∧ op = estimated op'.

Record extracted (plan : LogicalOperator) (s : extract_state) : Prop := {
  extracted_nodes : map_Forall (node_of plan) s.(manager).(nodes);
  extracted_joins : Forall (λ j, j ∈ suboperators plan ∧ transfer_join j) s.(filter_operators);
  extracted_ranked : ranked rank s.(manager).(rename_cols);
  extracted_unsorted : s.(manager).(sort_nodes) = []
}.

Lemma extracted_mark plan s b : extracted plan s → extracted plan (set_can_add_mark b s).
Proof. intros []. by split. Qed.

Lemma extract_join_ok plan op s : op ∈ suboperators plan → extracted plan s → extracted plan (extract_join op s).
Proof.
  intros Hin Hs. unfold extract_join.
  assert (∀ s' : extract_state, extracted plan s' → extracted plan (if can_add_mark s' then s' else set_can_add_mark true s')) as Hmark.
  { intros s' Hs'. destruct (can_add_mark s'); [done|by apply extracted_mark]. }
  assert (type op = LOGICAL_COMPARISON_JOIN ∨ type op = LOGICAL_DELIM_JOIN →
    (info op).(join_type) ∈ [INNER; LEFT; RIGHT; SEMI; RIGHT_SEMI; MARK] → existsb equal_columns (info op).(conditions) = true →
    extracted plan (mkExtract (manager s) (filter_operators s ++ [op]) (can_add_mark s))) as Hpush.
  { intros Ht Hj He. destruct Hs. split; try done. apply Forall_app. split; [done|]. by apply Forall_singleton. }
  destruct (type op) eqn:Et; try done; apply Hmark;
    destruct (existsb equal_columns (conditions (info op))) eqn:He, (can_add_mark s) eqn:Em;
    destruct (join_type (info op)) eqn:Ej; simpl; try done; apply Hpush; (set_solver || by auto).
Qed.

Lemma add_renames_ok op n es renames :
  (∀ k e, es !! k = Some e → etype e = TYPE_BOUND_COLUMN_REF →
    ∃ b, (info op).(column_bindings) !! (n + k)%nat = Some b ∧ (rank (ebinding e) < rank b)%nat ∧ b ≠ default_binding) →
  ranked rank renames →
  ∃ r, add_renames (info op).(column_bindings) n es renames = Ret r ∧ ranked rank r.
Proof.
  revert n renames. induction es as [|e es IH]; intros n renames He Hr; [by exists renames|]. simpl.
  assert (∀ r, ranked rank r → ∃ r', add_renames (info op).(column_bindings) (S n) es r = Ret r' ∧ ranked rank r') as IH'.
  { intros r. apply IH. intros k e' Hk. replace (S n + k)%nat with (n + S k)%nat by lia. by apply (He (S k)). }
  case_decide as Et; [|by apply IH'].
  destruct (He 0%nat e eq_refl Et) as (b & Hb & Hlt). rewrite Nat.add_0_r in Hb. unfold vec_at. rewrite Hb. orun.
  apply IH'. destruct (renames !! b) eqn:E; [done|]. by apply map_Forall_insert_2.
Qed.

Lemma extract_renames_ok plan op es s :
  renames_ok op es → extracted plan s → ∃ s', extract_renames op es s = Ret s' ∧ extracted plan s'.
Proof.
  intros He [Hn Hj Hr Hu]. destruct (add_renames_ok op 0 es _ He Hr) as (r & E & Hr').
  unfold extract_renames. rewrite E. orun. eexists. split; [done|]. by split.
Qed.

(** Operators [AddNode] can name. *)
Definition addable (op : LogicalOperator) : Prop := ∃ id, node_index op = Ret id.

Lemma node_index_estimated op : node_index (estimated op) = node_index op.
Proof.
  destruct op as [i cs]. unfold node_index, GetTableIndexinFilter, CastGet, type. simpl. destruct (otype i); try done.
Qed.

Lemma add_node_ok plan op s :
  op ∈ suboperators plan → addable op → extracted plan s → ∃ s', add_node op s = Ret s' ∧ extracted plan s'.
Proof.
  intros Hin (id & Hid) Hs. unfold add_node, AddNode. rewrite node_index_estimated, Hid. orun.
  assert (extracted plan (with_manager (manager s) s)) by (by destruct Hs; split).
  destruct id as [id|]; [|by eexists]. destruct (nodes (manager s) !! id) eqn:E; [by eexists|].
  eexists. split; [done|]. destruct Hs. split; try done. apply map_Forall_insert_2; [|done].
  split; [by rewrite node_index_estimated|eauto].
Qed.

Lemma node_type_addable op : type op ≠ LOGICAL_FILTER → type op ≠ LOGICAL_PROJECTION → op_ok op → addable op.
Proof.
  unfold addable, node_index, op_ok, GetTableIndex, vec_at. intros Hf Hp.
  destruct (type op); try done; try (intros _; eexists; reflexivity); intros Hok;
    destruct (table_indexes (info op)) as [|a [|b l]]; simpl in *; try lia; eexists; reflexivity.
Qed.

Lemma filter_addable op c :
  type op = LOGICAL_FILTER → children op = [c] → type c = LOGICAL_GET → op_ok c → addable op.
Proof.
  intros Ht Hc Hg Hok. unfold addable, node_index, GetTableIndexinFilter. rewrite Ht, Hc. unfold vec_at. simpl. rewrite Hg.
  unfold op_ok in Hok. rewrite Hg in Hok. unfold GetTableIndex, vec_at.
  destruct (table_indexes (info c)); simpl in *; [lia|]. eexists. reflexivity.
Qed.

(** [f] succeeds and what has been found stays right. *)
Definition extracts (plan : LogicalOperator) (f : extract_state → outcome extract_state) : Prop :=
  ∀ s, extracted plan s → ∃ s', f s = Ret s' ∧ extracted plan s'.

Lemma extracts_bind plan f g : extracts plan f → extracts plan g → extracts plan (λ s, let* s := f s in g s).
Proof. intros Hf Hg s Hs. destruct (Hf s Hs) as (s1 & E & Hs1). rewrite E. orun. by apply Hg. Qed.

(** The loop of the default case. *)
Lemma extracts_all plan cs :
  Forall (λ c, extracts plan (ExtractNodes c)) cs →
  extracts plan ((fix all cs s := match cs with [] => Ret s | c :: cs => let* s := ExtractNodes c s in all cs s end) cs).
Proof. induction 1; [intros s Hs; eauto|]. by apply extracts_bind. Qed.

Lemma ExtractNodes_ok plan op :
  (∀ x, x ∈ suboperators op → x ∈ suboperators plan ∧ op_ok x) → extracts plan (ExtractNodes op).
Proof.
  induction op as [i cs IH] using LogicalOperator_nested_ind. intros Hsub.
  destruct (Hsub _ (suboperators_self _)) as [Hin Hok].
  assert (Forall (λ c, extracts plan (ExtractNodes c)) cs) as Hcs.
  { rewrite Forall_forall in IH |- *. intros c Hc. apply IH; [done|]. intros x Hx. apply Hsub.
    by apply (suboperators_child (Op i cs) c). }
  assert (∀ c, c ∈ cs → op_ok c) as Hcok.
  { intros c Hc. apply Hsub, (suboperators_child _ c); [done|apply suboperators_self]. }
  assert (extracts plan (λ s, Ret s)) as Hret by (intros s Hs; eauto).
  assert (type (Op i cs) ≠ LOGICAL_FILTER → type (Op i cs) ≠ LOGICAL_PROJECTION → extracts plan (add_node (Op i cs))) as Hadd.
  { intros Hf Hp s. apply add_node_ok; [done|]. by apply node_type_addable. }
  unfold op_ok, type in Hok, Hadd. simpl in Hok, Hadd. intros s Hs. simpl.
  pose proof (extract_join_ok plan _ s Hin Hs) as Hj.
  destruct (otype i) eqn:Et; try solve
    [ destruct cs as [|c [|c' cs]];
        [by apply Hret|apply Forall_cons in Hcs as [Hc _]; by apply Hc|by apply (extracts_all plan (c :: c' :: cs))]
    | destruct cs as [|c [|c' cs]]; by apply Hadd
    | destruct cs as [|c [|c' cs]]; [by apply Hadd|apply Forall_cons in Hcs as [Hc _]; by apply Hc|by apply Hadd]
    | destruct cs as [|c [|c' [|? ?]]]; simpl in Hok; try lia; decompose_Forall_hyps;
        by apply (extracts_bind plan (ExtractNodes c) (ExtractNodes c'))
    | apply proj2 in Hok; destruct cs as [|c [|c' [|? ?]]]; simpl in Hok; try lia; decompose_Forall_hyps;
        apply (extracts_bind plan _ (λ s, let* s := ExtractNodes c s in ExtractNodes c' s)); [by apply Hadd|by apply extracts_bind|done] ].
  - destruct Hok as [Hlen Hren], cs as [|c [|? ?]]; simpl in Hlen; try lia. apply Forall_cons in Hcs as [Hc _].
    apply (extracts_bind plan (extract_renames (Op i [c]) (expressions i)) (ExtractNodes c)); [|done|done].
    intros s' Hs'. by apply extract_renames_ok.
  - destruct Hok as [Hlen Hexp], cs as [|c [|? ?]]; simpl in Hlen; try lia. apply Forall_cons in Hcs as [Hc _]. case_decide as Eg.
    + apply add_node_ok; [done| |done]. apply (filter_addable _ c); try done. apply Hcok. left.
    + unfold negated_join, vec_at. simpl. destruct (expressions i) as [|e es]; simpl in Hexp; [lia|]. orun.
      by apply Hc, extracted_mark.
  - destruct Hok as (_ & Hlen & Hren), cs as [|c [|? ?]]; simpl in Hlen; try lia. apply Forall_cons in Hcs as [Hc _].
    destruct (_ && _); [by apply (extracts_bind plan (ExtractNodes c) (add_node (Op i [c]))); [|apply Hadd|]|].
    apply (extracts_bind plan (extract_renames (Op i [c]) (groups i)) (ExtractNodes c)); [|done|done].
    intros s' Hs'. by apply extract_renames_ok.
  - destruct cs as [|c [|? ?]]; simpl in Hok; try lia. apply Forall_cons in Hcs as [Hc _].
    by apply (extracts_bind plan (add_node (Op i [c])) (ExtractNodes c)); [apply Hadd| |].
Qed.
End Extraction.

(** ** Nothing is missed *)

(** Extraction does not look below scans, nor below a filter over a table. *)
Definition visit_ends (op : LogicalOperator) : bool :=
  match type op with
  | LOGICAL_GET | LOGICAL_DELIM_GET | LOGICAL_EXPRESSION_GET => true
  | LOGICAL_DUMMY_SCAN | LOGICAL_EMPTY_RESULT => negb (length (children op) =? 1)%nat
  | LOGICAL_FILTER => match children op with [c] => bool_decide (type c = LOGICAL_GET) | _ => false end
  | _ => false
  end.

(** The operators of a plan but for those below. *)
Fixpoint visited (op : LogicalOperator) : list LogicalOperator :=
  match op with Op _ cs => op :: (if visit_ends op then [] else concat (map visited cs)) end.

(** Operators that are tables to the operators above: scans, maybe with a
    filter, set operations, and aggregates without groups. *)
Definition names_table (op : LogicalOperator) : bool :=
  match type op with
  | LOGICAL_GET | LOGICAL_DELIM_GET | LOGICAL_UNION | LOGICAL_EXCEPT | LOGICAL_INTERSECT => true
  | LOGICAL_FILTER => visit_ends op
  | LOGICAL_AGGREGATE_AND_GROUP_BY => bool_decide ((info op).(groups) = []) && ((info op).(grouping_sets) <=? 1)%nat
  | _ => false
  end.

(** The plan has a table with this index. *)
Definition has_table (plan : LogicalOperator) (id : Z) : Prop :=
  ∃ op, op ∈ visited plan ∧ names_table op = true ∧ node_index op = Ret (Some id).

(** A join whose conditions become edges whatever is above it. *)
Definition plain_join (op : LogicalOperator) : Prop := transfer_join op ∧ (info op).(join_type) ≠ MARK.

Section Complete.
  Context `{StdOrder} `{CardinalityEstimator} (rank : ColumnBinding → nat).

(** From [s] to [s'] the tables and the joins among [xs] were found. *)
Record covers (xs : list LogicalOperator) (s s' : extract_state) : Prop := {
  cv_nodes : ∀ id, is_Some (s'.(manager).(nodes) !! id) ↔
    is_Some (s.(manager).(nodes) !! id) ∨ ∃ op, op ∈ xs ∧ names_table op = true ∧ node_index op = Ret (Some id);
  cv_joins : ∀ j, j ∈ s.(filter_operators) ∨ (j ∈ xs ∧ plain_join j) → j ∈ s'.(filter_operators)
}.

Definition covering (xs : list LogicalOperator) (f : extract_state → outcome extract_state) : Prop :=
  ∀ s s', f s = Ret s' → covers xs s s'.

Lemma covers_app xs ys s s1 s2 : covers xs s s1 → covers ys s1 s2 → covers (xs ++ ys) s s2.
Proof.
  intros [N1 J1] [N2 J2]. split.
  - intros id. rewrite N2, N1. setoid_rewrite elem_of_app. naive_solver.
  - intros j. rewrite elem_of_app. intros Hj. apply J2. specialize (J1 j). tauto.
Qed.

Lemma covers_ext xs ys s s' : (∀ x, x ∈ xs ↔ x ∈ ys) → covers xs s s' → covers ys s s'.
Proof. intros Hxy [N J]. split; [intros id; rewrite N; by setoid_rewrite Hxy|intros j; rewrite <- Hxy; apply J]. Qed.

Lemma covering_bind xs ys f g : covering xs f → covering ys g → covering (xs ++ ys) (λ s, let* s := f s in g s).
Proof. intros Hf Hg s s' (s1 & E1 & E2)%obind_Ret. by eapply covers_app; [apply Hf|apply Hg]. Qed.

(** Operators that are neither tables nor joins. *)
Lemma covers_same op s s' :
  names_table op = false → ¬ plain_join op → s'.(manager).(nodes) = s.(manager).(nodes) → s'.(filter_operators) = s.(filter_operators) → covers [op] s s'.
Proof.
  intros Hn Hj En Ej. split.
  - intros id. rewrite En. split; [by left|]. intros [?|(x & ->%list_elem_of_singleton & Hx & _)]; [done|congruence].
  - intros j [?|[->%list_elem_of_singleton ?]]; [by rewrite Ej|done].
Qed.

Lemma add_node_covering op : (names_table op = true ∨ node_index op = Ret None) → ¬ plain_join op → covering [op] (add_node op).
Proof.
  intros Hn Hj s s' (m & Em & [= <-])%obind_Ret. unfold AddNode in Em. rewrite node_index_estimated in Em. apply obind_Ret in Em as (oid & Eid & Em).
  split; [|intros j [?|[->%list_elem_of_singleton ?]]; done]. intros id.
  assert ((∃ x, x ∈ [op] ∧ names_table x = true ∧ node_index x = Ret (Some id)) ↔ oid = Some id) as ->.
  { split; [intros (x & ->%list_elem_of_singleton & _ & Ex); congruence|]. intros ->. exists op. split; [left|]. split; [|done]. destruct Hn; [done|congruence]. }
  destruct oid as [i|]; [|injection Em as <-; naive_solver].
  destruct (nodes (manager s) !! i) as [y|] eqn:Ei; injection Em as <-; simpl.
  - split; [by left|]. intros [?|[= ->]]; [done|by rewrite Ei].
  - destruct (decide (i = id)) as [->|Hne]; [rewrite lookup_insert_eq; split; [by right|by eexists]|]. rewrite lookup_insert_ne by done. naive_solver.
Qed.

Lemma extract_join_covers op s : names_table op = false → covers [op] s (extract_join op s).
Proof.
  intros Hn. split.
  - intros id. assert ((extract_join op s).(manager) = s.(manager)) as ->.
    { unfold extract_join. destruct (type op); try done; destruct (join_type _); repeat case_match; done. }
    split; [by left|]. intros [?|(x & ->%list_elem_of_singleton & Hx & _)]; [done|congruence].
  - intros j Hj. unfold extract_join. destruct Hj as [Hj|[->%list_elem_of_singleton ((Ht & Hjt & Hp) & Hm)]].
    + destruct (type op); try done; destruct (join_type _); repeat case_match; simpl; rewrite ?elem_of_app; auto.
    + rewrite Hp. destruct Ht as [-> | ->]; destruct (join_type (info op)); try done; try set_solver; repeat case_match; simpl; set_solver.
Qed.

Lemma visited_all cs :
  Forall (λ c, covering (visited c) (ExtractNodes c)) cs →
  covering (concat (map visited cs)) ((fix all cs s := match cs with [] => Ret s | c :: cs => let* s := ExtractNodes c s in all cs s end) cs).
Proof.
  induction 1 as [|c cs Hc _ IH]; [|by apply covering_bind]. intros s s' [= <-].
  split; [intros id; split; [by left|]; intros [?|(x & Hx & _)]; [done|by apply elem_of_nil in Hx]|].
  intros j [?|[Hx _]]; [done|by apply elem_of_nil in Hx].
Qed.

(** An operator whose children are all visited. *)
Lemma covers_children i cs s s1 s' :
  visit_ends (Op i cs) = false → covers [Op i cs] s s1 → covers (concat (map visited cs)) s1 s' → covers (visited (Op i cs)) s s'.
Proof. intros He H1 H2. cbn [visited]. rewrite He. by apply (covers_app [Op i cs] _ s s1). Qed.

Lemma visited_two c c' : concat (map visited [c; c']) = visited c ++ visited c'.
Proof. simpl. by rewrite app_nil_r. Qed.

Lemma visited_one c : concat (map visited [c]) = visited c.
Proof. simpl. by rewrite app_nil_r. Qed.

Lemma extract_renames_same op es s s' :
  extract_renames op es s = Ret s' → s'.(manager).(nodes) = s.(manager).(nodes) ∧ s'.(filter_operators) = s.(filter_operators).
Proof. intros (r & _ & [= <-])%obind_Ret. done. Qed.

Lemma join_type_plain op : type op ≠ LOGICAL_COMPARISON_JOIN → type op ≠ LOGICAL_DELIM_JOIN → ¬ plain_join op.
Proof. intros H1 H2 (([?|?] & _) & _); done. Qed.

(** The operators of the default case, with any children. *)
Lemma covers_default i cs s s' :
  Forall (λ c, covering (visited c) (ExtractNodes c)) cs → visit_ends (Op i cs) = false → covers [Op i cs] s s →
  match cs with
  | [c] => ExtractNodes c s
  | _ => (fix all cs s := match cs with [] => Ret s | c :: cs => let* s := ExtractNodes c s in all cs s end) cs s
  end = Ret s' → covers (visited (Op i cs)) s s'.
Proof.
  intros Hcs He Hop E. apply (covers_children i cs s s s' He Hop).
  destruct cs as [|c [|c' cs]]; [by apply (visited_all [])| |by apply (visited_all (c :: c' :: cs))].
  rewrite visited_one. apply Forall_cons in Hcs as [Hc _]. by apply Hc.
Qed.

(** Operators of which only the renames matter, and those that are tables. *)
Lemma covers_renames op es : names_table op = false → ¬ plain_join op → covering [op] (extract_renames op es).
Proof. intros Hn Hj s s' [E1 E2]%extract_renames_same. by apply covers_same. Qed.

Lemma covers_then i c s s1 s' :
  covering (visited c) (ExtractNodes c) → visit_ends (Op i [c]) = false → covers [Op i [c]] s s1 → ExtractNodes c s1 = Ret s' → covers (visited (Op i [c])) s s'.
Proof. intros Hc He H1 E. apply (covers_children i [c] s s1 s' He H1). rewrite visited_one. by apply Hc. Qed.

Lemma covers_two i c c' s s1 s' :
  Forall (λ c, covering (visited c) (ExtractNodes c)) [c; c'] → visit_ends (Op i [c; c']) = false → covers [Op i [c; c']] s s1 →
  (let* s := ExtractNodes c s1 in ExtractNodes c' s) = Ret s' → covers (visited (Op i [c; c'])) s s'.
Proof.
  intros Hcs He H1 E. apply (covers_children i [c; c'] s s1 s' He H1). rewrite visited_two. decompose_Forall_hyps.
  by apply (covering_bind _ _ (ExtractNodes c) (ExtractNodes c')).
Qed.

Lemma covers_filter i c s s' :
  otype i = LOGICAL_FILTER → covering (visited c) (ExtractNodes c) →
  (if decide (type c = LOGICAL_GET) then add_node (Op i [c]) s else
     let* negated := negated_join (Op i [c]) c in ExtractNodes c (set_can_add_mark (negb negated) s)) = Ret s' →
  covers (visited (Op i [c])) s s'.
Proof.
  intros Et Hc. assert (visit_ends (Op i [c]) = bool_decide (type c = LOGICAL_GET)) as He by (unfold visit_ends, type; simpl; by rewrite Et).
  assert (names_table (Op i [c]) = bool_decide (type c = LOGICAL_GET)) as Hn by (unfold names_table, type; simpl; by rewrite Et, He).
  assert (¬ plain_join (Op i [c])) as Hj by (apply join_type_plain; unfold type; simpl; by rewrite Et).
  case_decide as Eg; [rewrite bool_decide_true in He, Hn by done|rewrite bool_decide_false in He, Hn by done].
  - intros E. cbn [visited]. rewrite He. apply add_node_covering; auto.
  - intros (b & _ & E)%obind_Ret. eapply covers_then; [done|done| |exact E]. by apply covers_same.
Qed.

Lemma covers_aggregate i c s s' :
  otype i = LOGICAL_AGGREGATE_AND_GROUP_BY → covering (visited c) (ExtractNodes c) →
  (if bool_decide (i.(groups) = []) && (i.(grouping_sets) <=? 1)%nat then let* s := ExtractNodes c s in add_node (Op i [c]) s
   else let* s := extract_renames (Op i [c]) i.(groups) s in ExtractNodes c s) = Ret s' →
  covers (visited (Op i [c])) s s'.
Proof.
  intros Et Hc. assert (visit_ends (Op i [c]) = false) as He by (unfold visit_ends, type; simpl; by rewrite Et).
  assert (¬ plain_join (Op i [c])) as Hj by (apply join_type_plain; unfold type; simpl; by rewrite Et).
  assert (names_table (Op i [c]) = bool_decide (i.(groups) = []) && (i.(grouping_sets) <=? 1)%nat) as Hn by (unfold names_table, type; simpl; by rewrite Et).
  destruct (_ && _); intros (s1 & E1 & E)%obind_Ret.
  - apply (covers_ext (visited c ++ [Op i [c]])); [|eapply covers_app; [by apply Hc|by apply (add_node_covering (Op i [c])); [left| |]]].
    intros x. cbn [visited]. rewrite He, visited_one. set_solver.
  - eapply covers_then; [done|done| |exact E]. by eapply covers_renames.
Qed.

(** Scans without a table. *)
Lemma covers_scan i cs s s' :
  visit_ends (Op i cs) = negb (length cs =? 1)%nat → names_table (Op i cs) = true ∨ node_index (Op i cs) = Ret None → ¬ plain_join (Op i cs) →
  Forall (λ c, covering (visited c) (ExtractNodes c)) cs → names_table (Op i cs) = false →
  match cs with [c] => ExtractNodes c s | _ => add_node (Op i cs) s end = Ret s' → covers (visited (Op i cs)) s s'.
Proof.
  intros He Hi Hj Hcs Hn E. destruct cs as [|c [|c' cs]]; [|apply Forall_cons in Hcs as [Hc _]; eapply covers_then; [done|done|by apply covers_same|done]|];
    cbn [visited]; rewrite He; by apply add_node_covering.
Qed.

(** [ExtractNodes] finds what there is. *)
Lemma ExtractNodes_covering op : (∀ x, x ∈ suboperators op → op_ok rank x) → covering (visited op) (ExtractNodes op).
Proof.
  induction op as [i cs IH] using LogicalOperator_nested_ind. intros Hsub. pose proof (Hsub _ (suboperators_self _)) as Hok.
  assert (Forall (λ c, covering (visited c) (ExtractNodes c)) cs) as Hcs.
  { rewrite Forall_forall in IH |- *. intros c Hc. apply IH; [done|]. intros x Hx. apply Hsub. by apply (suboperators_child (Op i cs) c). }
  unfold op_ok, type in Hok. simpl in Hok. intros s s' E. simpl in E.
  pose proof (join_type_plain (Op i cs)) as Hnj. unfold type in Hnj. simpl in Hnj.
  assert (otype i ≠ LOGICAL_COMPARISON_JOIN → otype i ≠ LOGICAL_DELIM_JOIN → extract_join (Op i cs) s = s) as Hej.
  { intros H1 H2. unfold extract_join, type. simpl. by destruct (otype i). }
  eassert (visit_ends (Op i cs) = _) as He by (unfold visit_ends, type; simpl; reflexivity).
  eassert (names_table (Op i cs) = _) as Hn by (unfold names_table, type; simpl; reflexivity).
  eassert (node_index (Op i cs) = _) as Hi by (unfold node_index, type; simpl; reflexivity).
  destruct (otype i) eqn:Et; try rewrite Hej in E by done; try rewrite Hn in He.
  all: try solve
    [ apply covers_default; [done|done|by apply covers_same; [|apply Hnj| |]|by destruct cs as [|? [|]]]
    | cbn [visited]; rewrite He; apply (add_node_covering (Op i cs)); [auto|by apply Hnj|by destruct cs as [|? [|]]]
    | destruct cs as [|c [|c' [|? ?]]]; simpl in Hok; try lia; eapply covers_two; [done|done|by apply extract_join_covers|done]
    | destruct cs as [|c [|c' [|? ?]]]; simpl in Hok; try lia; apply (covers_two i c c' s s s'); [done|done|by apply covers_same; [|apply Hnj| |]|done]
    | apply proj2 in Hok; destruct cs as [|c [|c' [|? ?]]]; simpl in Hok; try lia; apply obind_Ret in E as (s1 & E1 & E);
        apply (covers_two i c c' s s1 s'); [done|done|apply (add_node_covering (Op i [c; c'])); [auto|by apply Hnj|done]|done] ].
  - destruct Hok as [Hlen _], cs as [|c [|? ?]]; simpl in Hlen; try lia. apply Forall_cons in Hcs as [Hc _].
    apply obind_Ret in E as (s1 & E1 & E). eapply covers_then; [done|done| |exact E]. eapply covers_renames; [done|by apply Hnj|exact E1].
  - destruct Hok as [Hlen _], cs as [|c [|? ?]]; simpl in Hlen; try lia. apply Forall_cons in Hcs as [Hc _]. by apply covers_filter.
  - destruct Hok as (_ & Hlen & _), cs as [|c [|? ?]]; simpl in Hlen; try lia. apply Forall_cons in Hcs as [Hc _]. by apply covers_aggregate.
  - destruct cs as [|c [|? ?]]; simpl in Hok; try lia. apply Forall_cons in Hcs as [Hc _]. apply obind_Ret in E as (s1 & E1 & E).
    eapply covers_then; [done|done| |exact E]. apply (add_node_covering (Op i [c])); [auto|by apply Hnj|done].
  - apply (covers_scan i cs s s'); [exact He|rewrite Hi; by right|by apply Hnj|exact Hcs|exact Hn|exact E].
  - apply (covers_scan i cs s s'); [exact He|rewrite Hi; by right|by apply Hnj|exact Hcs|exact Hn|exact E].
Qed.
End Complete.

(** ** A whole plan *)

Section Plans.
  Context `{StdOrder} `{CardinalityEstimator}.

(** What the optimizer needs of the plan it is given. *)
Record plan_wf (rank : ColumnBinding → nat) (plan : LogicalOperator) : Prop := {
  wf_ops : plan_ok rank plan;
  wf_addresses : NoDup (address <$> suboperators plan);
  wf_small : ∀ op, op ∈ suboperators plan → Forall (λ t, 0 ≤ t < 2 ^ 31) (info op).(table_indexes)
}.

Definition extract_start (mark : bool) : extract_state := mkExtract new_nodes [] mark.

Lemma ExtractNodes_plan rank plan mark :
  plan_ok rank plan → ∃ s, ExtractNodes plan (extract_start mark) = Ret s ∧ extracted rank plan s.
Proof.
  intros Hok. apply (ExtractNodes_ok rank plan plan); [|by split].
  intros x Hx. split; [done|]. by eapply (proj1 (Forall_forall _ _)).
Qed.

Lemma ExtractNodes_complete rank plan mark s :
  plan_ok rank plan → ExtractNodes plan (extract_start mark) = Ret s →
  (∀ id, is_Some (s.(manager).(nodes) !! id) ↔ has_table plan id) ∧ ∀ j, j ∈ visited plan → plain_join j → j ∈ s.(filter_operators).
Proof.
  intros Hok E. destruct (ExtractNodes_covering rank plan (proj1 (Forall_forall _ _) Hok) _ _ E) as [N J]. split; [|auto].
  intros id. rewrite N. simpl. rewrite lookup_empty. unfold has_table. split; [intros [[? ?]|?]; done|by right].
Qed.

Lemma address_estimated op : address (estimated op) = address op.
Proof. by destruct op. Qed.

Lemma node_address_inj plan (ns : gmap Z LogicalOperator) i j a b :
  NoDup (address <$> suboperators plan) → map_Forall (node_of plan) ns →
  ns !! i = Some a → ns !! j = Some b → address a = address b → i = j.
Proof.
  intros Hd Hns [Hi (a' & Ha & ->)]%Hns [Hj (b' & Hb & ->)]%Hns. rewrite !address_estimated. intros E.
  apply list_elem_of_lookup in Ha as [n Hn]. apply list_elem_of_lookup in Hb as [k Hk].
  assert (n = k) as ->.
  { eapply NoDup_lookup; [exact Hd|..]; rewrite list_lookup_fmap; [by rewrite Hn|rewrite Hk; simpl; by rewrite E]. }
  simplify_eq. by rewrite Hi in Hj; simplify_eq.
Qed.

Lemma table_index_small rank plan op n i :
  plan_wf rank plan → op ∈ suboperators plan → GetTableIndex op n = Ret i → 0 ≤ i < 2 ^ 31.
Proof.
  intros Hwf Hin. unfold GetTableIndex, vec_at. destruct (_ !! n) eqn:E; [|done]. intros [= <-].
  pose proof (wf_small _ _ Hwf op Hin) as Hs. by apply (Forall_lookup_1 _ _ _ _ Hs E).
Qed.

Lemma node_index_small rank plan op i :
  plan_wf rank plan → op ∈ suboperators plan → node_index op = Ret (Some i) → 0 ≤ i < 2 ^ 31.
Proof.
  intros Hwf Hin. unfold node_index.
  assert (∀ n, (let* i := GetTableIndex op n in Ret (Some i)) = Ret (Some i) → 0 ≤ i < 2 ^ 31) as Hget.
  { intros n (i' & E & [= ->])%obind_Ret. by eapply table_index_small. }
  destruct (type op) eqn:Et; try done; try apply Hget.
  intros (i' & E & [= ->])%obind_Ret. unfold GetTableIndexinFilter, CastGet in E. rewrite Et in E.
  apply obind_Ret in E as (c & Hc & E). unfold vec_at in Hc. destruct (children op !! 0%nat) eqn:E0; [|done]. injection Hc as ->.
  apply list_elem_of_lookup_2 in E0. pose proof (suboperators_child op c c E0 (suboperators_self c)) as Hcop.
  assert (c ∈ suboperators plan) as Hcin by (by eapply suboperators_trans).
  destruct (type c); try done; try (by eapply table_index_small).
  apply obind_Ret in E as (c' & Hc' & E). unfold vec_at in Hc'. destruct (children c !! 0%nat) eqn:E1; [|done]. injection Hc' as ->.
  apply list_elem_of_lookup_2 in E1. apply obind_Ret in E as (g & Hg & E). case_decide; [|done]. injection Hg as <-.
  eapply table_index_small; [done| |done]. eapply suboperators_trans; [exact Hcin|].
  by eapply suboperators_child; [|apply suboperators_self].
Qed.
End Plans.
