(* ===== verification/Dag.v ===== *)
(** * Dag: the transfer graph

    Models [optimizer/predicate_transfer/dag.cpp], [dag.hpp] and
    [dag_manager.cpp]: the nodes and edges of the transfer graph, the edges
    read off the joins, the order in which nodes are attached, and the
    direction in which filters travel along each edge. *)

From S2P Require Import Prelude BloomFilter LogicalPlan NodesManager.
Local Open Scope Z_scope.
Local Open Scope machine_scope.

(** ** Nodes and edges *)

(** Filters are named by their index in the heap of filters. *)
Record DAGEdge := mkEdge {
  filters : list Expression;
  bloom_filters : list nat;
  dest_ : Z
}.

Record DAGNode := mkNode {
  forward_in_ : list DAGEdge;
  backward_in_ : list DAGEdge;
  forward_out_ : list DAGEdge;
  backward_out_ : list DAGEdge;
  root : bool;
  priority : Z;
  size_ : Z;
  node_id : Z
}.

Definition new_node (id estimated_cardinality : Z) (root : bool) : DAGNode :=
  mkNode [] [] [] [] root (-1) estimated_cardinality id.

Definition set_priority (p : Z) (n : DAGNode) : DAGNode :=
  mkNode n.(forward_in_) n.(backward_in_) n.(forward_out_) n.(backward_out_) n.(root) p n.(size_) n.(node_id).

(** [DAGEdge::Push]. *)
Definition push_filter (filter : Expression) (e : DAGEdge) : DAGEdge := mkEdge (e.(filters) ++ [filter]) e.(bloom_filters) e.(dest_).
Definition push_bf (bf : nat) (e : DAGEdge) : DAGEdge := mkEdge e.(filters) (e.(bloom_filters) ++ [bf]) e.(dest_).

(** Pushes on the first edge to [dest], which is made when there is none. *)
Fixpoint push_edge (push : DAGEdge → DAGEdge) (dest : Z) (edges : list DAGEdge) : list DAGEdge :=
  match edges with
  | [] => [push (mkEdge [] [] dest)]
  | e :: edges => if decide (e.(dest_) = dest) then push e :: edges else e :: push_edge push dest edges
  end.

Definition add_in (push : DAGEdge → DAGEdge) (from : Z) (forward : bool) (n : DAGNode) : DAGNode :=
  if forward
  then mkNode (push_edge push from n.(forward_in_)) n.(backward_in_) n.(forward_out_) n.(backward_out_) n.(root) n.(priority) n.(size_) n.(node_id)
  else mkNode n.(forward_in_) (push_edge push from n.(backward_in_)) n.(forward_out_) n.(backward_out_) n.(root) n.(priority) n.(size_) n.(node_id).

Definition AddIn (from : Z) (filter : Expression) (forward : bool) (n : DAGNode) : DAGNode :=
  add_in (push_filter filter) from forward n.

Definition AddInBF (from : Z) (bf : nat) (forward : bool) (n : DAGNode) : DAGNode := add_in (push_bf bf) from forward n.

Definition AddOut (to : Z) (filter : Expression) (forward : bool) (n : DAGNode) : DAGNode :=
  if forward
  then mkNode n.(forward_in_) n.(backward_in_) (push_edge (push_filter filter) to n.(forward_out_)) n.(backward_out_) n.(root) n.(priority) n.(size_) n.(node_id)
  else mkNode n.(forward_in_) n.(backward_in_) n.(forward_out_) (push_edge (push_filter filter) to n.(backward_out_)) n.(root) n.(priority) n.(size_) n.(node_id).

(** ** The manager *)

Record DAGEdgeInfo := mkEdgeInfo {
  edge_filter : Expression;
  large_ : LogicalOperator;
  small_ : LogicalOperator;
  large_protect : bool;
  small_protect : bool
}.

(** A moved-from [shared_ptr] is [None]. *)
Record DAGManager := mkManager {
  nodes_manager : NodesManager;
  dag : gmap Z DAGNode;
  ExecOrder : list LogicalOperator;
  filters_and_bindings_ : gmap (Z * Z) (list (option DAGEdgeInfo));
  selected_filters_and_bindings_ : list (option DAGEdgeInfo)
}.

Definition new_manager : DAGManager := mkManager new_nodes ∅ [] ∅ [].

Definition with_dag (d : gmap Z DAGNode) (m : DAGManager) : DAGManager :=
  mkManager m.(nodes_manager) d m.(ExecOrder) m.(filters_and_bindings_) m.(selected_filters_and_bindings_).
Definition with_nodes_manager (nm : NodesManager) (m : DAGManager) : DAGManager :=
  mkManager nm m.(dag) m.(ExecOrder) m.(filters_and_bindings_) m.(selected_filters_and_bindings_).
Definition with_edges (f : gmap (Z * Z) (list (option DAGEdgeInfo))) (m : DAGManager) : DAGManager :=
  mkManager m.(nodes_manager) m.(dag) m.(ExecOrder) f m.(selected_filters_and_bindings_).

(** The conversion of an [idx_t] to [int]. *)
Definition to_int (z : Z) : Z := let w := wrap 32 z in if w <? 2 ^ 31 then w else w - 2 ^ 32.

(** [DAGManager::Add]. *)
Definition Add (create_table : Z) (bf : nat) (col_applied : list ColumnBinding) (reverse : bool) (m : DAGManager) : outcome DAGManager :=
  let* b := vec_at col_applied 0 in
  let* n := deref (m.(dag) !! to_int b.(table_index)) in
  Ret (with_dag (<[to_int b.(table_index) := AddInBF create_table bf (negb reverse) n]> m.(dag)) m).

(** ** Edges from joins *)

(** The position of a node among the sorted nodes, 0 when it is not there. *)
Fixpoint node_in_order (node : LogicalOperator) (i : Z) (sorted_nodes : list LogicalOperator) : Z :=
  match sorted_nodes with
  | [] => 0
  | n :: l => if decide (address n = address node) then i else node_in_order node (i + 1) l
  end.

(** The edge of a join condition: the larger side, and the side an outer join protects. *)
Definition edge_info (jt : JoinType) (comparison : Expression) (left_node right_node : LogicalOperator)
    (left_node_in_order right_node_in_order : Z) : option DAGEdgeInfo :=
  let left_larger := right_node_in_order <? left_node_in_order in
  match jt with
  | INNER | SEMI | RIGHT_SEMI | MARK =>
      Some (if left_larger then mkEdgeInfo comparison left_node right_node false false
            else mkEdgeInfo comparison right_node left_node false false)
  | LEFT =>
      Some (if left_larger then mkEdgeInfo comparison left_node right_node true false
            else mkEdgeInfo comparison right_node left_node false true)
  | RIGHT =>
      Some (if left_larger then mkEdgeInfo comparison left_node right_node false true
            else mkEdgeInfo comparison right_node left_node true false)
  | _ => None
  end.

(** An edge is kept under both directions of its tables. *)
Definition add_edge (left_table right_table : Z) (e : DAGEdgeInfo) (edges : gmap (Z * Z) (list (option DAGEdgeInfo)))
    : gmap (Z * Z) (list (option DAGEdgeInfo)) :=
  let key1 := (to_int right_table, to_int left_table) in
  let key2 := (to_int left_table, to_int right_table) in
  let edges := match edges !! key1 with None => <[key2 := []]> (<[key1 := []]> edges) | Some _ => edges end in
  let edges := <[key1 := default [] (edges !! key1) ++ [Some e]]> edges in
  <[key2 := default [] (edges !! key2) ++ [Some e]]> edges.

(** The set of comparisons seen holds references.  A comparison that gives no
    edge is destroyed at the end of its iteration, and its entry dangles
    ([false]); finding it again reads freed memory. *)
Definition seen (filter_set : list (Expression * bool)) (comparison : Expression) : outcome bool :=
  match base.filter (λ p : Expression * bool, expr_equals p.1 comparison = true) filter_set with
  | [] => Ret false
  | (_, alive) :: _ => if alive then Ret true else Undef
  end.

Definition edges_state : Type := list (Expression * bool) * gmap (Z * Z) (list (option DAGEdgeInfo)).

Definition column_of (e : Expression) : ColumnBinding :=
  if decide (etype e = TYPE_BOUND_COLUMN_REF) then ebinding e else default_binding.

(** One condition of a join. *)
Definition extract_edge (m : NodesManager) (jt : JoinType) (st : edges_state) (cond : JoinCondition) : outcome edges_state :=
  if negb (bool_decide (cond.(comparison) = COMPARE_EQUAL)) then Ret st else
  let comparison := BoundComparison cond.(comparison) cond.(left) cond.(right) in
  let* found := seen st.1 comparison in
  if found then Ret st else
  let* left_binding := FindRename m (column_of cond.(left)) in
  let* right_binding := FindRename m (column_of cond.(right)) in
  let left_table := left_binding.(table_index) in
  let right_table := right_binding.(table_index) in
  let dropped := ((comparison, false) :: st.1, st.2) in
  match getNode m left_table, getNode m right_table with
  | Some left_node, Some right_node =>
      match edge_info jt comparison left_node right_node (node_in_order left_node 0 m.(sort_nodes))
              (node_in_order right_node 0 m.(sort_nodes)) with
      | Some e => Ret ((comparison, true) :: st.1, add_edge left_table right_table e st.2)
      | None => Ret dropped
      end
  | _, _ => Ret dropped
  end.

Definition extract_edges_of (m : NodesManager) (st : edges_state) (f_op : LogicalOperator) : outcome edges_state :=
  match type f_op with
  | LOGICAL_COMPARISON_JOIN | LOGICAL_DELIM_JOIN => ofold (extract_edge m (info f_op).(join_type)) (info f_op).(conditions) st
  | _ => Ret st
  end.

Definition ExtractEdges (filter_operators : list LogicalOperator) (m : DAGManager) : outcome DAGManager :=
  let* st := ofold (extract_edges_of m.(nodes_manager)) filter_operators ([], m.(filters_and_bindings_)) in
  Ret (with_edges st.2 m).

(** ** The order of the nodes *)

Section Order.
  Context `{StdOrder} `{CardinalityEstimator}.

(** [FindEdge]: the best weight and cardinality so far, and the key. *)
Definition find_edge_step (m : DAGManager) (i : Z) (best : Z * Z * (Z * Z)) (j : Z) : outcome (Z * Z * (Z * Z)) :=
  let '(max_weight, max_card, result) := best in
  match m.(filters_and_bindings_) !! (j, i) with
  | None => Ret best
  | Some l =>
      let* node := deref (getNode m.(nodes_manager) (wrap 64 i)) in
      let card := cardinality node in
      let weight := Z.of_nat (length l) in
      if max_weight <? weight then Ret (weight, card, (j, i))
      else if (weight =? max_weight) && (max_card <? card) then Ret (max_weight, card, (j, i))
      else Ret best
  end.

Definition FindEdge (constructed_set unconstructed_set : gset Z) (m : DAGManager) : outcome (Z * Z) :=
  let* best :=
    ofold (λ best i, ofold (find_edge_step m i) (set_order constructed_set) best) (set_order unconstructed_set) (0, 0, (-1, -1)) in
  Ret best.2.

(** The loop of [LargestRoot].  A null pointer in [ExecOrder], which
    [Optimize] would dereference, is undefined here already. *)
Fixpoint attach_loop (fuel : nat) (constructed_set unconstructed_set : gset Z) (prior_flag : Z) (m : DAGManager) : outcome DAGManager :=
  if decide (unconstructed_set = ∅) then Ret m else
  match fuel with
  | O => NoFuel
  | S fuel =>
      let* selected_edge := FindEdge constructed_set unconstructed_set m in
      if (selected_edge.1 =? -1) && (selected_edge.2 =? -1) then Ret m else
      let '(sel, edges) :=
        match m.(filters_and_bindings_) !! selected_edge with
        | Some l => (m.(selected_filters_and_bindings_) ++ l, <[selected_edge := replicate (length l) None]> m.(filters_and_bindings_))
        | None => (m.(selected_filters_and_bindings_), m.(filters_and_bindings_))
        end in
      let* node := deref (m.(dag) !! selected_edge.2) in
      let* op := deref (getNode m.(nodes_manager) node.(node_id)) in
      attach_loop fuel ({[selected_edge.2]} ∪ constructed_set) (unconstructed_set ∖ {[selected_edge.2]}) (prior_flag - 1)
        (mkManager (EraseNode node.(node_id) m.(nodes_manager)) (<[selected_edge.2 := set_priority prior_flag node]> m.(dag))
           (m.(ExecOrder) ++ [op]) edges sel)
  end.

(** The vertices: the last sorted node is the root. *)
Record root_state := mkRoot {
  constructed : gset Z;
  unconstructed : gset Z;
  prior : Z;
  root_id : Z;
  vertices : gmap Z DAGNode
}.

Definition create_vertex (sorted_nodes : list LogicalOperator) (st : root_state) (vertex : Z * LogicalOperator) : outcome root_state :=
  let* back := match last sorted_nodes with Some b => Ret b | None => Throw "'back' called on an empty vector!" end in
  let id := to_int vertex.1 in
  if decide (address vertex.2 = address back)
  then Ret (mkRoot ({[id]} ∪ st.(constructed)) st.(unconstructed) (st.(prior) - 1) id
              (<[id := set_priority st.(prior) (new_node vertex.1 (cardinality vertex.2) true)]> st.(vertices)))
  else Ret (mkRoot st.(constructed) ({[id]} ∪ st.(unconstructed)) st.(prior) st.(root_id)
              (<[id := new_node vertex.1 (cardinality vertex.2) false]> st.(vertices))).

Definition LargestRoot (sorted_nodes : list LogicalOperator) (m : DAGManager) : outcome DAGManager :=
  let nm := m.(nodes_manager) in
  let* st := ofold (create_vertex sorted_nodes) (map_order nm.(nodes)) (mkRoot ∅ ∅ (NumNodes nm - 1) (-1) m.(dag)) in
  let* op := deref (getNode nm (wrap 64 st.(root_id))) in
  attach_loop (size st.(unconstructed)) st.(constructed) st.(unconstructed) st.(prior)
    (mkManager (EraseNode (wrap 64 st.(root_id)) nm) st.(vertices) (m.(ExecOrder) ++ [op])
       m.(filters_and_bindings_) m.(selected_filters_and_bindings_)).

(** ** Directions *)

(** Both tables of an edge exchange filters, unless an outer join protects
    one of them; the table of higher priority receives first. *)
Definition edge_table (op : LogicalOperator) : outcome Z :=
  let* i := node_index op in match i with Some i => Ret i | None => Undef end.

Definition update_node (id : Z) (f : DAGNode → DAGNode) (m : DAGManager) : outcome DAGManager :=
  let* n := deref (m.(dag) !! id) in Ret (with_dag (<[id := f n]> m.(dag)) m).

(** [from] sends the filter and [to] receives it. *)
Definition connect (from to : Z) (from_id to_id : Z) (f : Expression) (forward : bool) (m : DAGManager) : outcome DAGManager :=
  let* m := update_node to (AddIn from_id f forward) m in update_node from (AddOut to_id f forward) m.

Definition add_directions (m : DAGManager) (filter_and_binding : option DAGEdgeInfo) : outcome DAGManager :=
  match filter_and_binding with
  | None => Ret m
  | Some e =>
      let* large := edge_table e.(large_) in
      let* small := edge_table e.(small_) in
      let large := to_int large in
      let small := to_int small in
      let* small_node := deref (m.(dag) !! small) in
      let* large_node := deref (m.(dag) !! large) in
      let f := e.(edge_filter) in
      let to_small := connect large small large_node.(node_id) small_node.(node_id) f in
      let to_large := connect small large small_node.(node_id) large_node.(node_id) f in
      let small_first := large_node.(priority) <? small_node.(priority) in
      match e.(large_protect), e.(small_protect) with
      | false, false => let* m := to_small small_first m in to_large (negb small_first) m
      | true, false => to_small small_first m
      | false, true => to_large (negb small_first) m
      | true, true => Ret m
      end
  end.

(** [CreateDAG]: a root and what can be attached to it, until no node is left. *)
Fixpoint root_loop (fuel : nat) (m : DAGManager) : outcome DAGManager :=
  if decide (m.(nodes_manager).(nodes) = ∅) then Ret m else
  match fuel with
  | O => NoFuel
  | S fuel =>
      let* m := LargestRoot m.(nodes_manager).(sort_nodes) m in
      root_loop fuel (with_nodes_manager (ReSortNodes m.(nodes_manager)) m)
  end.

Definition CreateDAG (m : DAGManager) : outcome DAGManager :=
  let* m := root_loop (size m.(nodes_manager).(nodes)) m in
  let m := with_nodes_manager (RecoverNodes m.(nodes_manager)) m in
  ofold add_directions m.(selected_filters_and_bindings_) m.

(** [Build]: whether there is anything to transfer.  [mark] is the global
    [can_add_mark]. *)
Definition Build (plan : LogicalOperator) (mark : bool) (m : DAGManager) : outcome (bool * bool * DAGManager) :=
  let* s := ExtractNodes plan (mkExtract m.(nodes_manager) [] mark) in
  let m := with_nodes_manager (DuplicateNodes s.(manager)) m in
  if NumNodes m.(nodes_manager) <? 2 then Ret (false, s.(can_add_mark), m) else
  let m := with_nodes_manager (SortNodes m.(nodes_manager)) m in
  let* m := ExtractEdges s.(filter_operators) m in
  if bool_decide (m.(filters_and_bindings_) = ∅) then Ret (false, s.(can_add_mark), m) else
  let* m := CreateDAG m in
  Ret (true, s.(can_add_mark), m).
End Order.

(** ** What the edges say *)

(** Table indexes fit the [int]s of the graph, and nodes have distinct addresses. *)
Record nodes_ok (ns : gmap Z LogicalOperator) : Prop := {
  nodes_small : ∀ i op, ns !! i = Some op → 0 ≤ i < 2 ^ 31;
  nodes_index : ∀ i op, ns !! i = Some op → node_index op = Ret (Some i);
  nodes_distinct : ∀ i j a b, ns !! i = Some a → ns !! j = Some b → address a = address b → i = j
}.

Lemma to_int_id z : 0 ≤ z < 2 ^ 31 → to_int z = z.
Proof.
  intros Hz. unfold to_int, wrap. rewrite Z.mod_small by lia.
  destruct (Z.ltb_spec z (2 ^ 31)); lia.
Qed.

(** A condition of a join in [joins] between the tables [lt] and [rt], and its edge [e]. *)
Record edge_cond (nm : NodesManager) (joins : list LogicalOperator) (e : DAGEdgeInfo) (lt rt : Z)
    (j : LogicalOperator) (cond : JoinCondition) (L R : LogicalOperator) : Prop := {
  ec_join : j ∈ joins;
  ec_cond : cond ∈ (info j).(conditions);
  ec_equal : cond.(comparison) = COMPARE_EQUAL;
  ec_left : ∃ b, FindRename nm (column_of cond.(left)) = Ret b ∧ b.(table_index) = lt;
  ec_right : ∃ b, FindRename nm (column_of cond.(right)) = Ret b ∧ b.(table_index) = rt;
  ec_L : nm.(nodes) !! lt = Some L;
  ec_R : nm.(nodes) !! rt = Some R;
  ec_info : ∃ x y, edge_info (info j).(join_type) (BoundComparison COMPARE_EQUAL cond.(left) cond.(right)) L R x y = Some e
}.

Definition edge_from (nm : NodesManager) (joins : list LogicalOperator) (e : DAGEdgeInfo) (lt rt : Z) : Prop :=
  ∃ j cond L R, edge_cond nm joins e lt rt j cond L R.

Definition edge_between (nm : NodesManager) (joins : list LogicalOperator) (e : DAGEdgeInfo) (key : Z * Z) : Prop :=
  edge_from nm joins e key.1 key.2 ∨ edge_from nm joins e key.2 key.1.

Record edges_ok (nm : NodesManager) (joins : list LogicalOperator) (E : gmap (Z * Z) (list (option DAGEdgeInfo))) : Prop := {
  edges_sym : ∀ a b, E !! (a, b) = E !! (b, a);
  edges_nonempty : ∀ key, E !! key ≠ Some [];
  edges_sound : ∀ key l, E !! key = Some l → Forall (λ o, ∃ e, o = Some e ∧ edge_between nm joins e key) l
}.

Lemma edges_ok_empty nm joins : edges_ok nm joins ∅.
Proof. split; intros *; rewrite ?lookup_empty; done. Qed.

(** Adding an edge between two tables; an edge of a table with itself is added twice. *)
Definition copies (lt rt : Z) (e : DAGEdgeInfo) : list (option DAGEdgeInfo) :=
  if decide (lt = rt) then [Some e; Some e] else [Some e].

Lemma add_edge_lookup lt rt e E key :
  (∀ a b, E !! (a, b) = E !! (b, a)) → 0 ≤ lt < 2 ^ 31 → 0 ≤ rt < 2 ^ 31 →
  add_edge lt rt e E !! key =
    (if decide (key = (lt, rt) ∨ key = (rt, lt)) then Some (default [] (E !! key) ++ copies lt rt e) else E !! key).
Proof.
  intros Hsym Hl Hr. unfold add_edge, copies. rewrite !to_int_id by done.
  set (E' := match E !! (rt, lt) with None => _ | Some _ => E end).
  assert (∀ k, (k = (lt, rt) ∨ k = (rt, lt)) → default [] (E' !! k) = default [] (E !! k)) as Hd.
  { intros k Hk. subst E'. pose proof (Hsym rt lt) as Hs. destruct (E !! (rt, lt)) eqn:E1; [done|].
    destruct (decide (k = (lt, rt))) as [->|]; [by rewrite lookup_insert_eq, <- Hs|].
    destruct Hk as [->| ->]; [done|]. by rewrite lookup_insert_ne, lookup_insert_eq, E1 by done. }
  case_decide as Hk.
  - rewrite <- (Hd key) by done. case_decide as Heq.
    + subst rt. assert (key = (lt, lt)) as -> by (by destruct Hk). rewrite !lookup_insert_eq. simpl. by rewrite <- app_assoc.
    + destruct Hk as [-> | ->]; [rewrite lookup_insert_eq, lookup_insert_ne by congruence; done|].
      rewrite lookup_insert_ne, lookup_insert_eq by congruence. done.
  - rewrite !lookup_insert_ne by (intros <-; apply Hk; auto). subst E'.
    destruct (E !! (rt, lt)); [done|]. by rewrite !lookup_insert_ne by (intros <-; apply Hk; auto).
Qed.

Lemma copies_ok lt rt e : copies lt rt e ≠ [] ∧ Forall (λ o, o = Some e) (copies lt rt e).
Proof. unfold copies. case_decide; split; try done; by repeat constructor. Qed.

Lemma copies_comm lt rt e : copies lt rt e = copies rt lt e.
Proof. unfold copies. repeat case_decide; congruence. Qed.

Lemma add_edge_ok nm joins lt rt e E :
  nodes_ok nm.(nodes) → edges_ok nm joins E → edge_from nm joins e lt rt → edges_ok nm joins (add_edge lt rt e E).
Proof.
  intros Hn [Hsym Hne Hs] He.
  assert (0 ≤ lt < 2 ^ 31 ∧ 0 ≤ rt < 2 ^ 31) as [Hl Hr].
  { destruct He as (? & ? & ? & ? & []). by split; eapply nodes_small. }
  destruct (copies_ok lt rt e) as [Hc1 Hc2].
  split.
  - intros a b. rewrite !add_edge_lookup, (Hsym a b) by done. repeat case_decide; naive_solver.
  - intros key. rewrite add_edge_lookup by done. case_decide; [|done]. destruct (default _ _); naive_solver.
  - intros key l. rewrite add_edge_lookup by done. case_decide as Hk; [|apply Hs]. intros [= <-].
    apply Forall_app. split.
    + destruct (E !! key) eqn:Ek; [by apply Hs|done].
    + eapply Forall_impl; [exact Hc2|]. intros o ->. exists e. split; [done|].
      destruct Hk as [-> | ->]; [by left|by right].
Qed.

(** ** Extraction succeeds *)

Definition comparison_of (c : JoinCondition) : Expression := BoundComparison c.(comparison) c.(left) c.(right).

(** The comparisons a list of conditions looks up. *)
Definition comparisons (cs : list JoinCondition) : list Expression :=
  comparison_of <$> base.filter (λ c, c.(comparison) = COMPARE_EQUAL) cs.

(** No comparison is looked up twice. *)
Definition distinct_comparisons (joins : list LogicalOperator) : Prop :=
  ForallOrdPairs (λ a b, expr_equals a b = false) (concat ((λ j, comparisons (info j).(conditions)) <$> joins)).

Definition join_conditions (joins : list LogicalOperator) : list JoinCondition := concat ((λ j, (info j).(conditions)) <$> joins).

(** The condition compares, under their first names, a column of [a] and one of [b]. *)
Definition relates (nm : NodesManager) (a b : Z) (c : JoinCondition) : bool :=
  match FindRename nm (column_of c.(left)), FindRename nm (column_of c.(right)) with
  | Ret l, Ret r => bool_decide ((l.(table_index) = a ∧ r.(table_index) = b) ∨ (l.(table_index) = b ∧ r.(table_index) = a))
  | _, _ => false
  end.

(** The equalities among the conditions that relate two nodes, in their order. *)
Definition conditions_between (nm : NodesManager) (cs : list JoinCondition) (a b : Z) : list Expression :=
  if decide (is_Some (nm.(nodes) !! a) ∧ is_Some (nm.(nodes) !! b))
  then comparison_of <$> base.filter (λ c, c.(comparison) = COMPARE_EQUAL ∧ relates nm a b c = true) cs else [].

(** The edges between two tables are exactly these. *)
Definition edges_exact (nm : NodesManager) (cs : list JoinCondition) (E : gmap (Z * Z) (list (option DAGEdgeInfo))) : Prop :=
  ∀ a b, a ≠ b → fmap edge_filter <$> default [] (E !! (a, b)) = Some <$> conditions_between nm cs a b.

Record edges_inv (nm : NodesManager) (joins : list LogicalOperator) (finished : list JoinCondition) (todo : list Expression) (st : edges_state) : Prop := {
  ei_edges : edges_ok nm joins st.2;
  ei_exact : edges_exact nm finished st.2;
  ei_seen : Forall (λ p, Forall (λ c, expr_equals p.1 c = false) todo) st.1;
  ei_todo : ForallOrdPairs (λ a b, expr_equals a b = false) todo
}.

Lemma seen_new st c : Forall (λ p : Expression * bool, expr_equals p.1 c = false) st → seen st c = Ret false.
Proof.
  intros Hs. unfold seen.
  assert (base.filter (λ p : Expression * bool, expr_equals p.1 c = true) st = []) as ->; [|done].
  induction Hs as [|p st Hp _ IH]; [done|]. rewrite filter_cons_False by congruence. done.
Qed.

Lemma edge_info_transfer jt c L R x y :
  jt ∈ [INNER; LEFT; RIGHT; SEMI; RIGHT_SEMI; MARK] → is_Some (edge_info jt c L R x y).
Proof. intros Hj. destruct jt; try done; set_solver. Qed.

Lemma edges_exact_empty nm : edges_exact nm [] ∅.
Proof. intros a b _. rewrite lookup_empty. unfold conditions_between. by case_decide. Qed.

(** A condition that gives no edge, and one that gives an edge. *)
Lemma edges_exact_skip nm cs c E :
  edges_exact nm cs E →
  (∀ a b, c.(comparison) = COMPARE_EQUAL → relates nm a b c = true → is_Some (nm.(nodes) !! a) → is_Some (nm.(nodes) !! b) → False) → edges_exact nm (cs ++ [c]) E.
Proof.
  intros HE Hc a b Hab. rewrite (HE a b Hab). f_equal. unfold conditions_between. case_decide as Hn; [|done].
  rewrite filter_app, filter_cons_False, filter_nil, app_nil_r; [done|]. intros [H1 H2]. destruct Hn. by eapply (Hc a b).
Qed.

Lemma edges_exact_add nm cs c E l r e :
  nodes_ok nm.(nodes) → (∀ a b, E !! (a, b) = E !! (b, a)) → edges_exact nm cs E → c.(comparison) = COMPARE_EQUAL →
  FindRename nm (column_of c.(left)) = Ret l → FindRename nm (column_of c.(right)) = Ret r →
  is_Some (nm.(nodes) !! l.(table_index)) → is_Some (nm.(nodes) !! r.(table_index)) → e.(edge_filter) = comparison_of c →
  edges_exact nm (cs ++ [c]) (add_edge l.(table_index) r.(table_index) e E).
Proof.
  intros Hn Hsym HE Hc El Er [L HL] [R HR] He a b Hab. rewrite add_edge_lookup by (done || by eapply nodes_small).
  assert (∀ x y, relates nm x y c = bool_decide ((l.(table_index) = x ∧ r.(table_index) = y) ∨ (l.(table_index) = y ∧ r.(table_index) = x))) as Hrel.
  { intros x y. unfold relates. by rewrite El, Er. }
  specialize (HE a b Hab). unfold conditions_between in *. case_decide as Hab'; case_decide as Hk; rewrite ?filter_app, ?filter_cons, ?filter_nil.
  - rewrite decide_True by (split; [done|]; rewrite Hrel; apply bool_decide_eq_true; naive_solver).
    assert (copies l.(table_index) r.(table_index) e = [Some e]) as -> by (unfold copies; rewrite decide_False by naive_solver; done).
    simpl. rewrite !fmap_app, HE. csimpl. by rewrite He.
  - rewrite decide_False, app_nil_r; [done|]. intros [_ Hr]. rewrite Hrel in Hr. apply bool_decide_eq_true in Hr. naive_solver.
  - exfalso. apply Hab'. naive_solver.
  - done.
Qed.

Section Extraction.
  Context `{StdOrder} (nm : NodesManager) (joins : list LogicalOperator) (rank : ColumnBinding → nat).
  Context (Hnodes : nodes_ok nm.(nodes)) (Hrank : ranked rank nm.(rename_cols)).

Lemma extract_edge_ok j cond finished todo st :
  j ∈ joins → transfer_join j → cond ∈ (info j).(conditions) →
  edges_inv nm joins finished (comparisons [cond] ++ todo) st →
  ∃ st', extract_edge nm (info j).(join_type) st cond = Ret st' ∧ edges_inv nm joins (finished ++ [cond]) todo st'.
Proof.
  intros Hj (_ & Ht & _) Hc [He Hx Hs Hd]. unfold extract_edge, comparisons in *.
  destruct (decide (cond.(comparison) = COMPARE_EQUAL)) as [Eq|Eq].
  2: { rewrite bool_decide_false by done. rewrite filter_cons_False in Hs, Hd by done. exists st. split; [done|]. split; try done. by apply edges_exact_skip. }
  rewrite bool_decide_true by done. rewrite filter_cons_True in Hs, Hd by done. simpl in *.
  inversion Hd as [|? ? Hd1 Hd2]; subst.
  rewrite seen_new; [orun|by eapply Forall_impl; [exact Hs|]; intros p Hp%Forall_cons; apply Hp].
  destruct (FindRename_ok rank nm (column_of cond.(left))) as (bl & El & _); [done|].
  destruct (FindRename_ok rank nm (column_of cond.(right))) as (br & Er & _); [done|].
  rewrite El, Er. orun.
  assert (∀ E b, edges_ok nm joins E → edges_exact nm (finished ++ [cond]) E → edges_inv nm joins (finished ++ [cond]) todo ((comparison_of cond, b) :: st.1, E)) as Hnext.
  { intros E b HE HX. split; [done|done| |done]. constructor; [done|]. eapply Forall_impl; [exact Hs|]. by intros p [_ Hp]%Forall_cons. }
  assert (nm.(nodes) !! bl.(table_index) = None ∨ nm.(nodes) !! br.(table_index) = None → edges_exact nm (finished ++ [cond]) st.2) as Hskip.
  { intros Hnone. apply edges_exact_skip; [done|]. intros a b _ Hr Ha Hb. unfold relates in Hr. rewrite El, Er in Hr. apply bool_decide_eq_true in Hr.
    destruct Ha, Hb, Hnone, Hr as [[? ?]|[? ?]]; simplify_eq. }
  unfold getNode. destruct (nm.(nodes) !! table_index bl) as [L|] eqn:EL; [|by eexists; split; [done|apply Hnext; auto]].
  destruct (nm.(nodes) !! table_index br) as [R|] eqn:ER; [|by eexists; split; [done|apply Hnext; auto]].
  destruct (edge_info_transfer (join_type (info j)) (comparison_of cond) L R (node_in_order L 0 (sort_nodes nm))
    (node_in_order R 0 (sort_nodes nm)) Ht) as [e Ee].
  assert (e.(edge_filter) = comparison_of cond) as Hf by (unfold edge_info in Ee; destruct (join_type _); try done; destruct (_ <? _); by injection Ee as <-).
  unfold comparison_of in Ee. rewrite Ee. eexists. split; [done|]. apply Hnext.
  - apply add_edge_ok; [done|done|]. exists j, cond, L, R. split; try done; [by exists bl|by exists br|]. rewrite Eq in Ee. eauto.
  - apply (edges_exact_add nm finished cond st.2 bl br e); try done; apply He.
Qed.

Lemma extract_conditions_ok j cs finished todo st :
  j ∈ joins → transfer_join j → cs ⊆ (info j).(conditions) →
  edges_inv nm joins finished (comparisons cs ++ todo) st →
  ∃ st', ofold (extract_edge nm (info j).(join_type)) cs st = Ret st' ∧ edges_inv nm joins (finished ++ cs) todo st'.
Proof.
  intros Hj Ht. revert finished st. induction cs as [|c cs IH]; intros finished st Hsub Hinv; [exists st; by rewrite app_nil_r|].
  destruct (extract_edge_ok j c finished (comparisons cs ++ todo) st) as (st1 & E & Hinv1); [done|done|set_solver| |].
  { rewrite app_assoc. unfold comparisons in *. by rewrite <- fmap_app, <- filter_app. }
  simpl. rewrite E. orun. rewrite cons_middle, app_assoc. apply IH; [set_solver|done].
Qed.

Lemma extract_joins_ok js finished st :
  Forall transfer_join js → js ⊆ joins →
  edges_inv nm joins finished (concat ((λ j, comparisons (info j).(conditions)) <$> js)) st →
  ∃ st', ofold (extract_edges_of nm) js st = Ret st' ∧ edges_ok nm joins st'.2 ∧ edges_exact nm (finished ++ join_conditions js) st'.2.
Proof.
  revert finished st. induction js as [|j js IH]; intros finished st Hjs Hsub Hinv; [exists st; destruct Hinv; unfold join_conditions; by rewrite app_nil_r|].
  apply Forall_cons in Hjs as [Hj Hjs].
  destruct (extract_conditions_ok j (info j).(conditions) finished (concat ((λ j, comparisons (info j).(conditions)) <$> js)) st)
    as (st1 & E & Hinv1); [set_solver|done|done|done|].
  assert (extract_edges_of nm st j = Ret st1) as E'.
  { unfold extract_edges_of. destruct Hj as ([-> | ->] & _); exact E. }
  simpl. rewrite E'. orun. unfold join_conditions. csimpl. rewrite app_assoc. apply IH; [done|set_solver|done].
Qed.
End Extraction.
