(* ===== verification/DagOrder.v ===== *)
(** * DagOrder: the order of the transfer graph

    [DAGManager::FindEdge], [LargestRoot] and [CreateDAG] grow a maximum
    spanning forest: each root is a largest node left, and each other node is
    attached by a heaviest edge that leaves the nodes placed before. *)

From S2P Require Import Prelude BloomFilter LogicalPlan NodesManager Dag.
Local Open Scope Z_scope.
Local Open Scope machine_scope.

(** ** FindEdge *)

(** Fewer conditions, or as many and a smaller table. *)
Definition worse (w c w' c' : Z) : Prop := w < w' ∨ (w = w' ∧ c ≤ c').

Lemma worse_trans w c w1 c1 w2 c2 : worse w c w1 c1 → worse w1 c1 w2 c2 → worse w c w2 c2.
Proof. unfold worse. lia. Qed.

Section FindEdge.
  Context `{StdOrderOk} (m : DAGManager).
  Context (Hne : ∀ key, m.(filters_and_bindings_) !! key ≠ Some []).

(** The edge [key] has weight [w] and leads to a table of cardinality [c]. *)
Definition weighs (key : Z * Z) (w c : Z) : Prop :=
  ∃ l op, m.(filters_and_bindings_) !! key = Some l ∧ m.(nodes_manager).(nodes) !! key.2 = Some op ∧
          w = Z.of_nat (length l) ∧ c = cardinality op.

Definition best_ok (P : list (Z * Z)) (best : Z * Z * (Z * Z)) : Prop :=
  let '(w, c, r) := best in
  ((w, c, r) = (0, 0, (-1, -1)) ∧ Forall (λ k, m.(filters_and_bindings_) !! k = None) P) ∨
  (r ∈ P ∧ weighs r w c ∧ ∀ k w' c', k ∈ P → weighs k w' c' → worse w' c' w c).

Lemma weighs_pos k w c : weighs k w c → 0 < w.
Proof. intros (l & op & E & _ & -> & _). destruct l; [by apply Hne in E|simpl; lia]. Qed.

Lemma weighs_inj k w c w' c' : weighs k w c → weighs k w' c' → w = w' ∧ c = c'.
Proof. intros (? & ? & ? & ? & -> & ->) (? & ? & ? & ? & -> & ->). by simplify_eq. Qed.

(** A key that beats the best so far, or not. *)
Lemma best_ok_none P best k : best_ok P best → m.(filters_and_bindings_) !! k = None → best_ok (P ++ [k]) best.
Proof.
  destruct best as [[w c] r]. intros [[E HP]|(Hr & Hw & Hmax)] Hk; [left; split; [done|]; apply Forall_app; by repeat constructor|].
  right. split; [set_solver|split; [done|]]. intros k' w' c' [Hk'| ->%list_elem_of_singleton]%elem_of_app Hw'; [by eapply Hmax|].
  destruct Hw' as (l & ? & El & _). congruence.
Qed.

Lemma best_ok_better P w c r k w' c' :
  best_ok P (w, c, r) → weighs k w' c' → worse w c w' c' → best_ok (P ++ [k]) (w', c', k).
Proof.
  intros HP Hk Hwc. right. split; [set_solver|split; [done|]].
  intros k1 w1 c1 [Hk1| ->%list_elem_of_singleton]%elem_of_app Hw1.
  - destruct HP as [[_ HP]|(_ & _ & Hmax)].
    + rewrite Forall_forall in HP. destruct Hw1 as (l & ? & El & _). specialize (HP k1 Hk1). congruence.
    + eapply worse_trans; [by eapply Hmax|done].
  - destruct (weighs_inj _ _ _ _ _ Hk Hw1) as [-> ->]. right. lia.
Qed.

Lemma best_ok_worse P w c r k w' c' :
  best_ok P (w, c, r) → weighs k w' c' → worse w' c' w c → best_ok (P ++ [k]) (w, c, r).
Proof.
  intros [[E HP]|(Hr & Hw & Hmax)] Hk Hwc.
  - injection E as -> -> ->. apply weighs_pos in Hk. unfold worse in Hwc. lia.
  - right. split; [set_solver|split; [done|]].
    intros k1 w1 c1 [Hk1| ->%list_elem_of_singleton]%elem_of_app Hw1; [by eapply Hmax|].
    by destruct (weighs_inj _ _ _ _ _ Hk Hw1) as [-> ->].
Qed.

Lemma find_edge_step_ok P i j op best :
  0 ≤ i < 2 ^ 31 → m.(nodes_manager).(nodes) !! i = Some op → best_ok P best →
  ∃ best', find_edge_step m i best j = Ret best' ∧ best_ok (P ++ [(j, i)]) best'.
Proof.
  intros Hi Hop HP. destruct best as [[w c] r]. unfold find_edge_step.
  destruct (filters_and_bindings_ m !! (j, i)) as [l|] eqn:El; [|eexists; split; [done|by apply best_ok_none]].
  unfold getNode. unfold wrap. rewrite Z.mod_small by lia. rewrite Hop. orun.
  assert (weighs (j, i) (Z.of_nat (length l)) (cardinality op)) as Hk by (by exists l, op).
  destruct (Z.ltb_spec w (Z.of_nat (length l))).
  { eexists. split; [done|]. eapply best_ok_better; [done|done|by left]. }
  destruct (Z.eqb_spec (Z.of_nat (length l)) w) as [<-|]; simpl.
  - destruct (Z.ltb_spec c (cardinality op)); eexists; (split; [done|]).
    + eapply best_ok_better; [done|done|right; lia].
    + eapply best_ok_worse; [done|done|right; lia].
  - eexists. split; [done|]. eapply best_ok_worse; [done|done|left; lia].
Qed.

Lemma find_edge_inner P i op js best :
  0 ≤ i < 2 ^ 31 → m.(nodes_manager).(nodes) !! i = Some op → best_ok P best →
  ∃ best', ofold (find_edge_step m i) js best = Ret best' ∧ best_ok (P ++ ((λ j, (j, i)) <$> js)) best'.
Proof.
  intros Hi Hop. revert P best. induction js as [|j js IH]; intros P best HP; [exists best; by rewrite app_nil_r|].
  destruct (find_edge_step_ok P i j op best) as (b1 & E & HP1); [done|done|done|].
  simpl. rewrite E. orun. rewrite cons_middle, app_assoc. by apply IH.
Qed.

Lemma find_edge_outer P js ids best :
  (∀ i, i ∈ ids → 0 ≤ i < 2 ^ 31 ∧ is_Some (m.(nodes_manager).(nodes) !! i)) → best_ok P best →
  ∃ best', ofold (λ best i, ofold (find_edge_step m i) js best) ids best = Ret best' ∧
    best_ok (P ++ (i ← ids; (λ j, (j, i)) <$> js)) best'.
Proof.
  revert P best. induction ids as [|i ids IH]; intros P best Hi HP; [exists best; by rewrite app_nil_r|].
  destruct (Hi i) as [Hi1 [op Hop]]; [left|].
  destruct (find_edge_inner P i op js best) as (b1 & E & HP1); [done|done|done|].
  simpl. rewrite E. orun. rewrite app_assoc. apply IH; [|done]. intros k Hk. apply Hi. by right.
Qed.

(** The edge found is a best one, and no edge is found only when there is none. *)
Lemma FindEdge_ok C U :
  (∀ i, i ∈ U → 0 ≤ i < 2 ^ 31 ∧ is_Some (m.(nodes_manager).(nodes) !! i)) →
  ∃ r, FindEdge C U m = Ret r ∧
    ((r = (-1, -1) ∧ ∀ j i, j ∈ C → i ∈ U → m.(filters_and_bindings_) !! (j, i) = None) ∨
     (r.1 ∈ C ∧ r.2 ∈ U ∧ ∃ w c, weighs r w c ∧ ∀ j i w' c', j ∈ C → i ∈ U → weighs (j, i) w' c' → worse w' c' w c)).
Proof.
  intros HU. unfold FindEdge.
  destruct (find_edge_outer [] (set_order C) (set_order U) (0, 0, (-1, -1))) as ([[w c] r] & E & HP).
  { intros i. rewrite (set_order_perm U), elem_of_elements. apply HU. }
  { left. done. }
  rewrite E. orun. exists r. split; [done|]. simpl in HP.
  assert (∀ j i, (j, i) ∈ (i ← set_order U; (λ j, (j, i)) <$> set_order C) ↔ j ∈ C ∧ i ∈ U) as Hin.
  { intros j i. rewrite list_elem_of_bind. setoid_rewrite list_elem_of_fmap. setoid_rewrite (set_order_perm U).
    setoid_rewrite (set_order_perm C). setoid_rewrite elem_of_elements. split; [naive_solver|].
    intros [Hj Hi]. exists i. eauto. }
  destruct HP as [[[= -> -> ->] HP]|(Hr & Hw & Hmax)].
  - left. split; [done|]. intros j i Hj Hi. rewrite Forall_forall in HP. apply HP, Hin. done.
  - right. destruct r as [j i]. apply Hin in Hr as [Hj Hi]. split_and!; [done|done|]. exists w, c. split; [done|].
    intros j' i' w' c' Hj' Hi'. apply Hmax, Hin. done.
Qed.
End FindEdge.

(** ** Forests *)

(** A bare node: no edge yet. *)
Definition bare (n : DAGNode) : Prop :=
  n.(forward_in_) = [] ∧ n.(backward_in_) = [] ∧ n.(forward_out_) = [] ∧ n.(backward_out_) = [].

Section Forest.
  Context (N : gmap Z LogicalOperator) (E0 : gmap (Z * Z) (list (option DAGEdgeInfo))).

(** Tables placed so far, each with the table it is attached to. *)
Definition crossing (pl : list (Z * option Z)) (j i : Z) : Prop :=
  j ∈ pl.*1 ∧ i ∈ dom N ∧ (i ∉ pl.*1) ∧ is_Some (E0 !! (j, i)).

Definition edge_weight (j i w c : Z) : Prop :=
  ∃ l op, E0 !! (j, i) = Some l ∧ N !! i = Some op ∧ w = Z.of_nat (length l) ∧ c = cardinality op.

Inductive grows (pl : list (Z * option Z)) : Z * option Z → Prop :=
| grow_root i op :
    N !! i = Some op → i ∉ pl.*1 → (∀ j i', ¬ crossing pl j i') →
    (∀ i' op', N !! i' = Some op' → i' ∉ pl.*1 → cardinality op' ≤ cardinality op) →
    grows pl (i, None)
| grow_edge j i w c :
    crossing pl j i → edge_weight j i w c →
    (∀ j' i' w' c', crossing pl j' i' → edge_weight j' i' w' c' → worse w' c' w c) →
    grows pl (i, Some j).

Inductive forest : list (Z * option Z) → Prop :=
| forest_nil : forest []
| forest_snoc pl x : forest pl → grows pl x → forest (pl ++ [x]).

Definition closed (pl : list (Z * option Z)) : Prop := ∀ j i, ¬ crossing pl j i.

(** The edges along which the tables were attached. *)
Definition tree_edges (pl : list (Z * option Z)) : list (option DAGEdgeInfo) :=
  concat ((λ x : Z * option Z, match x.2 with Some j => default [] (E0 !! (j, x.1)) | None => [] end) <$> pl).

Lemma grows_new pl x : grows pl x → (x.1 ∉ pl.*1) ∧ is_Some (N !! x.1).
Proof. intros [i op HN Hi _ _|j i w c (_ & Hi & Hn & _) _ _]; simpl; [eauto|]. by apply elem_of_dom in Hi. Qed.

Lemma forest_nodup pl : forest pl → NoDup pl.*1.
Proof.
  induction 1 as [|pl x _ IH Hx]; [constructor|]. apply grows_new in Hx as [Hx _]. rewrite fmap_app.
  apply NoDup_app. split_and!; [done| |apply NoDup_singleton]. intros i Hi ->%list_elem_of_singleton. done.
Qed.

Lemma tree_edges_snoc pl x : tree_edges (pl ++ [x]) = tree_edges pl ++ tree_edges [x].
Proof. unfold tree_edges. by rewrite fmap_app, concat_app. Qed.

Lemma fst_snoc (pl : list (Z * option Z)) x i : i ∈ (pl ++ [x]).*1 ↔ i ∈ pl.*1 ∨ i = x.1.
Proof. rewrite fmap_app, elem_of_app. simpl. by rewrite list_elem_of_singleton. Qed.

(** What the manager holds when the tables of [pl] are placed. *)
Record order_inv (ren : gmap ColumnBinding ColumnBinding) (pl : list (Z * option Z)) (m : DAGManager) : Prop := {
  oi_forest : forest pl;
  oi_nodes : ∀ i, m.(nodes_manager).(nodes) !! i = if decide (i ∈ pl.*1) then None else N !! i;
  oi_exec : Forall2 (λ (x : Z * option Z) op, N !! x.1 = Some op) pl m.(ExecOrder);
  oi_edges : ∀ j i, i ∉ pl.*1 → m.(filters_and_bindings_) !! (j, i) = E0 !! (j, i);
  oi_nonempty : ∀ key, m.(filters_and_bindings_) !! key ≠ Some [];
  oi_selected : m.(selected_filters_and_bindings_) = tree_edges pl;
  oi_dag : ∀ k x, pl !! k = Some x → ∃ n, m.(dag) !! x.1 = Some n ∧ bare n ∧ n.(node_id) = x.1 ∧
             n.(priority) = Z.of_nat (size N) - 1 - Z.of_nat k;
  oi_duplicate : m.(nodes_manager).(duplicate_nodes) = N;
  oi_rename : m.(nodes_manager).(rename_cols) = ren
}.

Context `{StdOrderOk} (ren : gmap ColumnBinding ColumnBinding).
Context (HN : nodes_ok N) (HE0 : ∀ key, E0 !! key ≠ Some []).

Lemma order_placed pl m i : order_inv ren pl m → i ∈ pl.*1 → is_Some (N !! i).
Proof.
  intros Hm [x [-> Hx]]%list_elem_of_fmap. apply list_elem_of_lookup in Hx as [k Hk].
  destruct (Forall2_lookup_l _ _ _ _ _ (oi_exec _ _ _ Hm) Hk) as (op & _ & Hop). eauto.
Qed.

Lemma order_unplaced pl m i op : order_inv ren pl m → m.(nodes_manager).(nodes) !! i = Some op ↔ N !! i = Some op ∧ i ∉ pl.*1.
Proof. intros Hm. rewrite (oi_nodes _ _ _ Hm). case_decide; naive_solver. Qed.

(** Placing table [i]. *)
Lemma order_place pl m i p op n edges sel d :
  order_inv ren pl m → grows pl (i, p) → N !! i = Some op →
  (∀ j k, k ∉ (pl ++ [(i, p)]).*1 → edges !! (j, k) = m.(filters_and_bindings_) !! (j, k)) →
  (∀ key, edges !! key ≠ Some []) → sel = m.(selected_filters_and_bindings_) ++ tree_edges [(i, p)] →
  d !! i = Some n → bare n → n.(node_id) = i → n.(priority) = Z.of_nat (size N) - 1 - Z.of_nat (length pl) →
  (∀ k, k ∈ pl.*1 → d !! k = m.(dag) !! k) →
  order_inv ren (pl ++ [(i, p)]) (mkManager (EraseNode i m.(nodes_manager)) d (m.(ExecOrder) ++ [op]) edges sel).
Proof.
  intros Hm Hg Hop Hedges Hne -> Hd Hb Hid Hp Hrest. pose proof (grows_new _ _ Hg) as [Hnew _]. destruct Hm. split; simpl; try done.
  - by constructor.
  - intros k. destruct (decide (k = i)) as [->|Hk].
    + rewrite lookup_delete_eq. rewrite decide_True by (rewrite fst_snoc; auto). done.
    + rewrite lookup_delete_ne, oi_nodes0 by done. by apply decide_ext; rewrite fst_snoc; simpl; naive_solver.
  - apply Forall2_app; [done|]. by constructor.
  - intros j k Hk. rewrite Hedges by done. apply oi_edges0. rewrite fst_snoc in Hk. naive_solver.
  - by rewrite tree_edges_snoc, oi_selected0.
  - intros k x [Hk|[Hlen Hk]]%lookup_app_Some.
    + rewrite Hrest; [by apply oi_dag0|]. apply list_elem_of_fmap. exists x. split; [done|by eapply list_elem_of_lookup_2].
    + destruct (k - length pl)%nat eqn:Ek; [|done]. injection Hk as <-. exists n. split_and!; try done. rewrite Hp. lia.
Qed.

(** ** Attaching tables to a root *)

(** The sets of the loop: [C] holds the tables placed since [pl0], [U] the
    tables left, which have a node without edges. *)
Record attach_inv (pl0 pl : list (Z * option Z)) (C U : gset Z) (m : DAGManager) : Prop := {
  ai_order : order_inv ren pl m;
  ai_closed : closed pl0;
  ai_prefix : ∀ i, i ∈ pl0.*1 → i ∈ pl.*1;
  ai_constructed : ∀ i, i ∈ pl.*1 ↔ i ∈ C ∨ i ∈ pl0.*1;
  ai_unconstructed : ∀ i, i ∈ U ↔ is_Some (N !! i) ∧ i ∉ pl.*1;
  ai_dag : ∀ i, i ∈ U → ∃ n, m.(dag) !! i = Some n ∧ bare n ∧ n.(node_id) = i
}.

Lemma attach_node pl0 pl C U m i :
  attach_inv pl0 pl C U m → i ∈ U → 0 ≤ i < 2 ^ 31 ∧ is_Some (m.(nodes_manager).(nodes) !! i).
Proof.
  intros Hm [[op Hop] Hi]%(ai_unconstructed _ _ _ _ _ Hm). split; [by eapply nodes_small|].
  exists op. by apply (order_unplaced _ _ _ _ (ai_order _ _ _ _ _ Hm)).
Qed.

(** No edge leaves the tables placed when none leaves [C] to [U]. *)
Lemma attach_closed pl0 pl C U m :
  attach_inv pl0 pl C U m → (∀ j i, j ∈ C → i ∈ U → m.(filters_and_bindings_) !! (j, i) = None) → closed pl.
Proof.
  intros Hm Hnone j i (Hj & Hi & Hn & HE). apply elem_of_dom in Hi.
  apply (ai_constructed _ _ _ _ _ Hm) in Hj as [Hj|Hj].
  - specialize (Hnone j i Hj). rewrite (oi_edges _ _ _ (ai_order _ _ _ _ _ Hm)) in Hnone by done.
    destruct HE as [l HE]. rewrite Hnone in HE; [done|]. by apply (ai_unconstructed _ _ _ _ _ Hm).
  - apply (ai_closed _ _ _ _ _ Hm j i). split_and!; [done|by apply elem_of_dom| |done].
    intros Hi0. by apply Hn, (ai_prefix _ _ _ _ _ Hm).
Qed.

(** The edge [FindEdge] selects is one [grows] allows. *)
Lemma attach_weighs pl0 pl C U m j i w c :
  attach_inv pl0 pl C U m → i ∈ U → (weighs m (j, i) w c ↔ edge_weight j i w c).
Proof.
  intros Hm Hi. pose proof (ai_order _ _ _ _ _ Hm) as Ho. apply (ai_unconstructed _ _ _ _ _ Hm) in Hi as [Hi Hn].
  unfold weighs, edge_weight. simpl. rewrite (oi_edges _ _ _ Ho), (oi_nodes _ _ _ Ho), decide_False by done. done.
Qed.

Lemma attach_crossing pl0 pl C U m j i :
  attach_inv pl0 pl C U m → crossing pl j i → j ∈ C ∧ i ∈ U.
Proof.
  intros Hm (Hj & Hi & Hn & HE). apply elem_of_dom in Hi. split; [|by apply (ai_unconstructed _ _ _ _ _ Hm)].
  apply (ai_constructed _ _ _ _ _ Hm) in Hj as [Hj|Hj]; [done|]. exfalso. apply (ai_closed _ _ _ _ _ Hm j i).
  split_and!; [done|by apply elem_of_dom| |done]. intros Hi0. by apply Hn, (ai_prefix _ _ _ _ _ Hm).
Qed.

Lemma attach_grows pl0 pl C U m j i w c :
  attach_inv pl0 pl C U m → j ∈ C → i ∈ U → weighs m (j, i) w c →
  (∀ j' i' w' c', j' ∈ C → i' ∈ U → weighs m (j', i') w' c' → worse w' c' w c) → grows pl (i, Some j).
Proof.
  intros Hm Hj Hi Hw Hmax. apply (attach_weighs pl0 pl C U m) in Hw as Hw'; [|done|done].
  apply (ai_unconstructed _ _ _ _ _ Hm) in Hi as Hi'. destruct Hi' as [Hi1 Hi2].
  apply (grow_edge pl j i w c); [|done|].
  - split_and!; [|by apply elem_of_dom|done|]; [apply (ai_constructed _ _ _ _ _ Hm); auto|].
    destruct Hw' as (l & ? & -> & _). eauto.
  - intros j' i' w' c' Hc Hw1. destruct (attach_crossing _ _ _ _ _ _ _ Hm Hc) as [Hj' Hi'']. 
    apply (Hmax j' i'); [done|done|]. by apply (attach_weighs pl0 pl C U m).
Qed.

Lemma attach_step pl0 pl C U m j i l op n :
  attach_inv pl0 pl C U m → grows pl (i, Some j) → i ∈ U → E0 !! (j, i) = Some l → N !! i = Some op →
  m.(dag) !! i = Some n → bare n → n.(node_id) = i →
  attach_inv pl0 (pl ++ [(i, Some j)]) ({[i]} ∪ C) (U ∖ {[i]})
    (mkManager (EraseNode i m.(nodes_manager)) (<[i := set_priority (Z.of_nat (size N) - 1 - Z.of_nat (length pl)) n]> m.(dag))
       (m.(ExecOrder) ++ [op]) (<[(j, i) := replicate (length l) None]> m.(filters_and_bindings_))
       (m.(selected_filters_and_bindings_) ++ l)).
Proof.
  intros Hm Hg Hi El Hop Hn Hb Hid. destruct Hm as [Ho Hcl Hpre Hc Hu Hd]. split; simpl; try done.
  - apply (order_place pl m i (Some j) op (set_priority (Z.of_nat (size N) - 1 - Z.of_nat (length pl)) n)); try done.
    + intros j' k. rewrite fst_snoc. intros Hk. rewrite lookup_insert_ne; [done|]. intros [= _ ->]. naive_solver.
    + intros key. destruct (decide (key = (j, i))) as [->|]; [|rewrite lookup_insert_ne by done; by eapply oi_nonempty].
      rewrite lookup_insert_eq. destruct l; [by apply HE0 in El|done].
    + unfold tree_edges. simpl. by rewrite El, app_nil_r.
    + by rewrite lookup_insert_eq.
    + intros k Hk. rewrite lookup_insert_ne; [done|]. intros <-. by apply Hu in Hi as [_ ?].
  - intros k Hk. apply fst_snoc. auto.
  - intros k. rewrite fst_snoc, Hc. simpl. set_solver.
  - intros k. rewrite fst_snoc, elem_of_difference, Hu. simpl. set_solver.
  - intros k [Hk Hki]%elem_of_difference. rewrite lookup_insert_ne by set_solver. by apply Hd.
Qed.

Lemma attach_loop_ok fuel pl0 pl C U prior m :
  attach_inv pl0 pl C U m → (size U ≤ fuel)%nat → prior = Z.of_nat (size N) - 1 - Z.of_nat (length pl) →
  ∃ pl' m', attach_loop fuel C U prior m = Ret m' ∧ order_inv ren pl' m' ∧ closed pl' ∧ (length pl ≤ length pl')%nat.
Proof.
  revert pl C U prior m. induction fuel as [|fuel IH]; intros pl C U prior m Hm Hf ->; simpl; case_decide as HU.
  1, 3: exists pl, m; split_and!; [done|by destruct Hm| |done]; eapply attach_closed; [done|set_solver].
  { exfalso. apply HU, leibniz_equiv, size_empty_inv. lia. }
  destruct (FindEdge_ok m (oi_nonempty _ _ _ (ai_order _ _ _ _ _ Hm)) C U) as ([j i] & E & Hr).
  { intros i Hi. by eapply attach_node. }
  rewrite E. orun. destruct Hr as [[[= -> ->] Hnone]|(Hj & Hi & w & c & Hw & Hmax)].
  { exists pl, m. split_and!; [done|by destruct Hm| |done]. by eapply attach_closed. }
  cbn [fst snd] in *. assert ((i =? -1) = false) as ->.
  { destruct (attach_node _ _ _ _ _ _ Hm Hi) as [? _]. lia. }
  rewrite andb_false_r. pose proof (attach_grows _ _ _ _ _ _ _ _ _ Hm Hj Hi Hw Hmax) as Hg.
  destruct (proj1 (attach_weighs _ _ _ _ _ _ _ _ _ Hm Hi) Hw) as (l & op & El & Hop & _).
  destruct (ai_dag _ _ _ _ _ Hm i Hi) as (n & Hn & Hb & Hid).
  destruct (proj1 (ai_unconstructed _ _ _ _ _ Hm i) Hi) as [_ Hnew].
  rewrite (oi_edges _ _ _ (ai_order _ _ _ _ _ Hm)), El by done. simpl. rewrite Hn. orun. rewrite Hid. unfold getNode.
  rewrite (proj2 (order_unplaced _ _ i op (ai_order _ _ _ _ _ Hm)) (conj Hop Hnew)). orun.
  destruct (IH (pl ++ [(i, Some j)]) ({[i]} ∪ C) (U ∖ {[i]}) (Z.of_nat (size N) - 1 - Z.of_nat (length pl) - 1) _
    (attach_step _ _ _ _ _ _ _ _ _ _ Hm Hg Hi El Hop Hn Hb Hid)) as (pl' & m' & E' & Ho & Hcl & Hlen).
  - rewrite size_difference, size_singleton by set_solver. lia.
  - rewrite length_app. simpl. lia.
  - exists pl', m'. split_and!; [done|done|done|]. rewrite length_app in Hlen. simpl in Hlen. lia.
Qed.

(** ** Roots *)

Lemma sorted_last l b x : Sorted card_le l → last l = Some b → x ∈ l → cardinality x ≤ cardinality b.
Proof.
  intros Hs. apply Sorted_StronglySorted in Hs; [|intros ? ? ?; unfold card_le; lia].
  induction Hs as [|a l _ IH Ha]; [done|]. destruct l as [|a' l].
  { simpl. intros [= <-] ->%list_elem_of_singleton. done. }
  intros Hl [->|Hx]%elem_of_cons; [|by apply IH]. rewrite Forall_forall in Ha. apply Ha.
  by apply last_Some_elem_of.
Qed.

(** The visited vertices, when [r] is the root. *)
Record vertex_inv (r p0 : Z) (d0 : gmap Z DAGNode) (L : list (Z * LogicalOperator)) (st : root_state) : Prop := {
  vi_root : r ∈ L.*1 → st.(constructed) = {[r]} ∧ st.(prior) = p0 - 1 ∧ st.(root_id) = r;
  vi_noroot : r ∉ L.*1 → st.(constructed) = ∅ ∧ st.(prior) = p0;
  vi_unconstructed : ∀ i, i ∈ st.(unconstructed) ↔ i ∈ L.*1 ∧ i ≠ r;
  vi_vertices : ∀ i, i ∈ L.*1 → ∃ n, st.(vertices) !! i = Some n ∧ bare n ∧ n.(node_id) = i ∧ (i = r → n.(priority) = p0);
  vi_rest : ∀ i, i ∉ L.*1 → st.(vertices) !! i = d0 !! i
}.

Lemma fst_snoc' (L : list (Z * LogicalOperator)) x i : i ∈ (L ++ [x]).*1 ↔ i ∈ L.*1 ∨ i = x.1.
Proof. rewrite fmap_app, elem_of_app. simpl. by rewrite list_elem_of_singleton. Qed.

Lemma create_vertex_ok r b p0 d0 sorted L st x :
  last sorted = Some b → N !! r = Some b → N !! x.1 = Some x.2 → x.1 ∉ L.*1 → vertex_inv r p0 d0 L st →
  ∃ st', create_vertex sorted st x = Ret st' ∧ vertex_inv r p0 d0 (L ++ [x]) st'.
Proof.
  intros Hb Hr Hx Hnew [H1 H2 H3 H4 H5]. unfold create_vertex. rewrite Hb. orun.
  rewrite to_int_id by (by eapply nodes_small).
  assert (∀ n i, bare n → n.(node_id) = x.1 → (x.1 = r → n.(priority) = p0) → i ∈ (L ++ [x]).*1 → ∃ n', 
    <[x.1 := n]> st.(vertices) !! i = Some n' ∧ bare n' ∧ n'.(node_id) = i ∧ (i = r → n'.(priority) = p0)) as Hv.
  { intros n i Hbare Hid Hp Hi. destruct (decide (i = x.1)) as [->|]; [exists n; by rewrite lookup_insert_eq|].
    rewrite lookup_insert_ne by done. apply H4. apply fst_snoc' in Hi. by destruct Hi. }
  assert (∀ n i, i ∉ (L ++ [x]).*1 → <[x.1 := n]> st.(vertices) !! i = d0 !! i) as Hrest.
  { intros n i Hi. rewrite fst_snoc' in Hi. rewrite lookup_insert_ne by (intros <-; auto). apply H5. auto. }
  case_decide as Ha.
  - assert (x.1 = r) as Er by (by eapply nodes_distinct). destruct H2 as [Hc Hp]; [congruence|].
    eexists. split; [done|]. split; simpl; [|rewrite fst_snoc'; intros []; auto| | |apply Hrest].
    + intros _. rewrite Hc, Hp, Er. split_and!; [set_solver|done|done].
    + intros i. rewrite fst_snoc', H3. naive_solver.
    + intros i. apply Hv; try done. 
  - assert (x.1 ≠ r) as Er by (intros <-; simplify_eq; done).
    eexists. split; [done|]. split; simpl; [| | |intros i; by apply Hv|apply Hrest].
    + rewrite fst_snoc'. intros [?|?]; [by apply H1|congruence].
    + rewrite fst_snoc'. intros Hn. apply H2. auto.
    + intros i. rewrite fst_snoc', elem_of_union, H3, elem_of_singleton. naive_solver.
Qed.

Lemma order_size pl m : order_inv ren pl m → size m.(nodes_manager).(nodes) = (size N - length pl)%nat.
Proof.
  intros Hm. assert (dom m.(nodes_manager).(nodes) = dom N ∖ list_to_set pl.*1) as Hdom.
  { apply leibniz_equiv. intros i. rewrite elem_of_difference, elem_of_list_to_set, !elem_of_dom, (oi_nodes _ _ _ Hm).
    unfold is_Some. case_decide; naive_solver. }
  rewrite <- !size_dom, Hdom, size_difference.
  - rewrite size_list_to_set by (eapply forest_nodup, oi_forest; done). by rewrite length_fmap.
  - intros i Hi%elem_of_list_to_set. apply elem_of_dom. by eapply order_placed.
Qed.

Lemma map_order_elem (ns : gmap Z LogicalOperator) x : x ∈ map_order ns ↔ ns !! x.1 = Some x.2.
Proof. rewrite (map_order_perm ns). destruct x. apply elem_of_map_to_list. Qed.

Lemma map_order_fst (ns : gmap Z LogicalOperator) i : i ∈ (map_order ns).*1 ↔ is_Some (ns !! i).
Proof.
  rewrite list_elem_of_fmap. split.
  - intros (x & -> & Hx%map_order_elem). eauto.
  - intros [op Hop]. exists (i, op). split; [done|]. by apply map_order_elem.
Qed.

(** Every vertex gets a node, and the largest becomes the root. *)
Lemma create_vertices_ok pl m r b sorted p0 :
  order_inv ren pl m → last sorted = Some b → m.(nodes_manager).(nodes) !! r = Some b →
  ∃ st, ofold (create_vertex sorted) (map_order m.(nodes_manager).(nodes)) (mkRoot ∅ ∅ p0 (-1) m.(dag)) = Ret st ∧
    vertex_inv r p0 m.(dag) (map_order m.(nodes_manager).(nodes)) st.
Proof.
  intros Hm Hb Hr. apply (ofold_prefix (vertex_inv r p0 m.(dag))).
  { split; simpl; try done; set_solver. }
  intros pre x st (post & Hl) Hinv.
  assert (m.(nodes_manager).(nodes) !! x.1 = Some x.2) as Hx by (apply map_order_elem; rewrite Hl; set_solver).
  apply (order_unplaced _ _ _ _ Hm) in Hx as [Hx _]. apply (order_unplaced _ _ _ _ Hm) in Hr as [Hr _].
  eapply create_vertex_ok; try done.
  assert (NoDup (map_order m.(nodes_manager).(nodes)).*1) as Hnd.
  { rewrite (map_order_perm m.(nodes_manager).(nodes)). apply NoDup_fst_map_to_list. }
  rewrite Hl, fmap_app in Hnd. apply NoDup_app in Hnd as (_ & Hnd & _). intros Hpre. apply (Hnd _ Hpre). left.
Qed.

Lemma root_grows pl m r b :
  order_inv ren pl m → closed pl → m.(nodes_manager).(nodes) !! r = Some b →
  last (std_sort (map_order m.(nodes_manager).(nodes)).*2) = Some b → grows pl (r, None).
Proof.
  intros Hm Hcl Hr Hb. apply (order_unplaced _ _ _ _ Hm) in Hr as [HrN Hrp].
  apply (grow_root pl r b); [done|done|done|]. intros i op Hop Hi.
  eapply sorted_last; [apply std_sort_sorted|exact Hb|]. rewrite std_sort_perm. apply list_elem_of_fmap. exists (i, op).
  split; [done|]. by apply map_order_elem, (order_unplaced _ _ _ _ Hm).
Qed.

Lemma sorted_back (ns : gmap Z LogicalOperator) :
  ns ≠ ∅ → ∃ r b, ns !! r = Some b ∧ last (std_sort (map_order ns).*2) = Some b.
Proof.
  intros Hne. destruct (last (std_sort (map_order ns).*2)) as [b|] eqn:Hb.
  - apply last_Some_elem_of in Hb as Hin. rewrite std_sort_perm in Hin. apply list_elem_of_fmap in Hin as ([r op] & -> & Hx).
    apply map_order_elem in Hx. eauto.
  - apply last_None in Hb. exfalso. apply Hne. apply map_to_list_empty_iff.
    apply Permutation_nil_r. rewrite <- (map_order_perm ns).
    pose proof (std_sort_perm (map_order ns).*2) as Hp. rewrite Hb in Hp. apply Permutation_nil_l in Hp.
    symmetry in Hp. by apply fmap_nil_inv in Hp as ->.
Qed.

Lemma LargestRoot_ok pl m :
  order_inv ren pl m → closed pl → m.(nodes_manager).(nodes) ≠ ∅ →
  ∃ pl' m', LargestRoot (std_sort (map_order m.(nodes_manager).(nodes)).*2) m = Ret m' ∧
    order_inv ren pl' m' ∧ closed pl' ∧ (length pl < length pl')%nat.
Proof.
  intros Hm Hcl Hne. destruct (sorted_back _ Hne) as (r & b & Hr & Hb).
  pose proof (root_grows _ _ _ _ Hm Hcl Hr Hb) as Hg.
  unfold LargestRoot.
  destruct (create_vertices_ok pl m r b _ (NumNodes m.(nodes_manager) - 1) Hm Hb Hr) as (st & E & [H1 H2 H3 H4 H5]).
  rewrite E. orun. assert (r ∈ (map_order m.(nodes_manager).(nodes)).*1) as Hin by (apply map_order_fst; eauto).
  destruct (H1 Hin) as (Hc & Hp & Hroot). apply (order_unplaced _ _ _ _ Hm) in Hr as Hr'. destruct Hr' as [HrN Hrp].
  rewrite Hc, Hp, Hroot. rewrite wrap_id by (pose proof (nodes_small _ HN r b HrN); unfold fits; lia).
  unfold getNode at 1. rewrite Hr. orun. destruct (H4 r Hin) as (n & Hn & Hbare & Hid & Hprio).
  assert (size N > length pl)%nat as Hsz.
  { pose proof (order_size _ _ Hm) as Hsz. apply map_size_non_empty_iff in Hne. lia. }
  destruct (attach_loop_ok (size st.(unconstructed)) pl (pl ++ [(r, None)]) {[r]} st.(unconstructed)
    (NumNodes m.(nodes_manager) - 1 - 1)
    (mkManager (EraseNode r m.(nodes_manager)) st.(vertices) (m.(ExecOrder) ++ [b]) m.(filters_and_bindings_)
       m.(selected_filters_and_bindings_))) as (pl' & m' & E' & Ho & Hcl' & Hlen).
  - split; simpl; try done.
    + apply (order_place pl m r None b n); try done; [by eapply oi_nonempty|by rewrite app_nil_r| |].
      * rewrite Hprio by done. unfold NumNodes. rewrite (order_size _ _ Hm). lia.
      * intros k Hk. apply H5. rewrite map_order_fst, (oi_nodes _ _ _ Hm), decide_True by done. by intros [? ?].
    + intros i Hi. apply fst_snoc. auto.
    + intros i. rewrite fst_snoc. simpl. set_solver.
    + intros i. rewrite H3, map_order_fst, fst_snoc, (oi_nodes _ _ _ Hm). simpl. case_decide; unfold is_Some; naive_solver.
    + intros i Hi. apply H3 in Hi as [Hi _]. destruct (H4 i Hi) as (n' & ? & ? & ? & _). eauto.
  - done.
  - unfold NumNodes. rewrite (order_size _ _ Hm), length_app. simpl. lia.
  - rewrite length_app in Hlen. simpl in Hlen. exists pl', m'. split_and!; [done|done|done|lia].
Qed.

(** The loop over the roots places every table. *)
Lemma root_loop_ok fuel pl m :
  order_inv ren pl m → closed pl → m.(nodes_manager).(sort_nodes) = std_sort (map_order m.(nodes_manager).(nodes)).*2 →
  (size m.(nodes_manager).(nodes) ≤ fuel)%nat →
  ∃ pl' m', root_loop fuel m = Ret m' ∧ order_inv ren pl' m' ∧ m'.(nodes_manager).(nodes) = ∅.
Proof.
  revert pl m. induction fuel as [|fuel IH]; intros pl m Hm Hcl Hs Hf; simpl; case_decide as Hne; [by eauto| |by eauto|].
  { exfalso. apply Hne, map_size_empty_iff. lia. }
  destruct (LargestRoot_ok pl m Hm Hcl Hne) as (pl1 & m1 & E & Hm1 & Hcl1 & Hlen). rewrite Hs, E. orun.
  assert (order_inv ren pl1 (with_nodes_manager (ReSortNodes m1.(nodes_manager)) m1)) as Hm2 by (by destruct Hm1; split).
  apply (IH pl1); [done|done|done|]. rewrite (order_size _ _ Hm2). pose proof (order_size _ _ Hm).
  apply map_size_non_empty_iff in Hne. lia.
Qed.
End Forest.
