(* ===== verification/DagDirections.v ===== *)
(** * DagDirections: where filters travel

    The second half of [DAGManager::CreateDAG].  A filter on an edge goes from
    one table to the other in the forward pass and back in the backward pass,
    and never to the side an outer join protects. *)

From S2P Require Import Prelude BloomFilter LogicalPlan NodesManager Dag DagOrder.
Local Open Scope Z_scope.
Local Open Scope machine_scope.

(** ** Edge lists *)

Fixpoint filters_to (dest : Z) (es : list DAGEdge) : list Expression :=
  match es with
  | [] => []
  | e :: es => if decide (e.(dest_) = dest) then e.(filters) else filters_to dest es
  end.

(** The edges [es] hold the conditions [F dest] for each table [dest]. *)
Record edges_hold (F : Z → list Expression) (es : list DAGEdge) : Prop := {
  eh_filters : ∀ b, filters_to b es = F b;
  eh_nodup : NoDup (dest_ <$> es);
  eh_edges : Forall (λ e, e.(filters) ≠ [] ∧ e.(bloom_filters) = []) es
}.

Lemma edges_hold_nil : edges_hold (λ _, []) [].
Proof. split; [done|constructor|constructor]. Qed.

Lemma push_edge_dests push dest es :
  (∀ e, (push e).(dest_) = e.(dest_)) →
  dest_ <$> push_edge push dest es = (dest_ <$> es) ++ (if decide (dest ∈ dest_ <$> es) then [] else [dest]).
Proof.
  intros Hp. induction es as [|e es IH]; csimpl; [by rewrite Hp|]. destruct (decide (e.(dest_) = dest)) as [He|He].
  - rewrite decide_True by (rewrite <- He; left). csimpl. by rewrite Hp, app_nil_r.
  - csimpl. rewrite IH. f_equal. f_equal. apply decide_ext. set_solver.
Qed.

Lemma push_edge_hold F es dest f :
  edges_hold F es → edges_hold (λ b, F b ++ (if decide (b = dest) then [f] else [])) (push_edge (push_filter f) dest es).
Proof.
  intros [Hf Hn He]. split.
  - intros b. rewrite <- Hf. clear. induction es as [|e es IH]; simpl; [by repeat case_decide; simplify_eq|].
    destruct (decide (e.(dest_) = dest)) as [<-|Hd]; simpl; repeat case_decide; simplify_eq; rewrite ?IH, ?app_nil_r; done.
  - rewrite push_edge_dests by done. case_decide; [by rewrite app_nil_r|]. apply NoDup_app.
    split_and!; [done| |apply NoDup_singleton]. set_solver.
  - clear Hf Hn. induction He as [|e es He Hes IH]; simpl; [by repeat constructor|].
    case_decide; constructor; try done. simpl. destruct He. split; [|done]. by destruct (filters e).
Qed.

Lemma edges_hold_ext F F' es : (∀ b, F b = F' b) → edges_hold F es → edges_hold F' es.
Proof. intros HF []. split; [|done|done]. intros b. by rewrite <- HF. Qed.

(** ** Nodes *)

Definition ins (forward : bool) (n : DAGNode) : list DAGEdge := if forward then n.(forward_in_) else n.(backward_in_).
Definition outs (forward : bool) (n : DAGNode) : list DAGEdge := if forward then n.(forward_out_) else n.(backward_out_).

(** Conditions on the way from a table to a table, in a pass. *)
Definition flow : Type := Z → Z → bool → list Expression.

Definition add_flow (a b : Z) (fwd : bool) (f : Expression) (G : flow) : flow :=
  λ a' b' fwd', G a' b' fwd' ++ (if decide ((a', b', fwd') = (a, b, fwd)) then [f] else []).

Record node_holds (prio : Z → Z) (G : flow) (i : Z) (n : DAGNode) : Prop := {
  nh_id : n.(node_id) = i;
  nh_priority : n.(priority) = prio i;
  nh_in : ∀ fwd, edges_hold (λ b, G b i fwd) (ins fwd n);
  nh_out : ∀ fwd, edges_hold (λ b, G i b fwd) (outs fwd n)
}.

Section Directions.
  Context (N : gmap Z LogicalOperator) (prio : Z → Z).

Definition dag_holds (G : flow) (d : gmap Z DAGNode) : Prop :=
  ∀ i, is_Some (N !! i) → ∃ n, d !! i = Some n ∧ node_holds prio G i n.

Lemma node_holds_ext G G' i n : (∀ a b w, G a b w = G' a b w) → node_holds prio G i n → node_holds prio G' i n.
Proof. intros HG []. split; try done; intros w; (eapply edges_hold_ext; [|done]); simpl; intros b; apply HG. Qed.

(** Both ends of a new condition, and all other tables. *)
Lemma connect_node G i n a b fwd f :
  node_holds prio G i n → a ≠ b →
  node_holds prio (add_flow a b fwd f G) i
    (if decide (i = b) then AddIn a f fwd n else if decide (i = a) then AddOut b f fwd n else n).
Proof.
  intros [Hid Hp Hin Hout] Hab.
  assert (∀ (F F' : Z → list Expression) es, (∀ x, F' x = F x) → edges_hold F es → edges_hold F' es) as Hsame.
  { intros F F' es HF. by apply edges_hold_ext. }
  repeat case_decide; subst; (split; [by destruct fwd|by destruct fwd| |]); intros w;
    unfold add_flow; destruct fwd, w; simpl;
    try (eapply Hsame; [|apply (Hin true) || apply (Hin false) || apply (Hout true) || apply (Hout false)];
         intros x; rewrite decide_False by congruence; by rewrite app_nil_r).
  all: eapply Hsame; [|apply push_edge_hold; (apply (Hin true) || apply (Hin false) || apply (Hout true) || apply (Hout false))];
    intros x; simpl; f_equal; apply decide_ext; naive_solver.
Qed.

Lemma dag_holds_ext G G' d : (∀ a b w, G a b w = G' a b w) → dag_holds G d → dag_holds G' d.
Proof. intros HG Hd i Hi. destruct (Hd i Hi) as (n & E & Hn). exists n. split; [done|]. by eapply node_holds_ext. Qed.

(** ** One edge *)

Lemma connect_ok G m a b fwd f :
  dag_holds G m.(dag) → is_Some (N !! a) → is_Some (N !! b) → a ≠ b →
  ∃ d, connect a b a b f fwd m = Ret (with_dag d m) ∧ dag_holds (add_flow a b fwd f G) d.
Proof.
  intros Hd Ha Hb Hab. destruct (Hd a Ha) as (na & Ea & Hna), (Hd b Hb) as (nb & Eb & Hnb).
  unfold connect, update_node. rewrite Eb. orun. simpl. rewrite lookup_insert_ne, Ea by done. orun.
  eexists. split; [done|]. intros i Hi. destruct (Hd i Hi) as (n & Ei & Hn).
  pose proof (connect_node G i n a b fwd f Hn Hab) as Hnew. destruct (decide (i = b)) as [->|Hib].
  - simplify_eq. rewrite lookup_insert_ne, lookup_insert_eq by done. eauto.
  - destruct (decide (i = a)) as [->|Hia]; [simplify_eq; rewrite lookup_insert_eq; eauto|].
    rewrite !lookup_insert_ne by done. eauto.
Qed.

(** The ways an edge between a large and a small table carries its condition. *)
Definition sends_between (e : DAGEdgeInfo) (large small : Z) : list (Z * Z * bool) :=
  let small_first := prio large <? prio small in
  (if e.(small_protect) then [] else [(large, small, small_first)]) ++
  (if e.(large_protect) then [] else [(small, large, negb small_first)]).

Definition sends (e : DAGEdgeInfo) : list (Z * Z * bool) :=
  match edge_table e.(large_), edge_table e.(small_) with
  | Ret large, Ret small => sends_between e large small
  | _, _ => []
  end.

Definition add_sends (e : DAGEdgeInfo) (G : flow) : flow :=
  λ a b w, G a b w ++ (if decide ((a, b, w) ∈ sends e) then [e.(edge_filter)] else []).

(** An edge between two tables of the graph. *)
Definition edge_tables (e : DAGEdgeInfo) : Prop :=
  ∃ large small, edge_table e.(large_) = Ret large ∧ edge_table e.(small_) = Ret small ∧
    is_Some (N !! large) ∧ is_Some (N !! small) ∧ large ≠ small.

Context (HN : nodes_ok N).

Lemma add_directions_ok G m e :
  dag_holds G m.(dag) → edge_tables e →
  ∃ d, add_directions m (Some e) = Ret (with_dag d m) ∧ dag_holds (add_sends e G) d.
Proof.
  intros Hd (l & s & El & Es & Hl & Hs & Hls). simpl. rewrite El, Es. orun.
  rewrite !to_int_id by (destruct Hl, Hs; by eapply nodes_small).
  destruct (Hd l Hl) as (nl & Enl & [Hidl Hpl _ _]), (Hd s Hs) as (ns & Ens & [Hids Hps _ _]).
  rewrite Enl, Ens. orun. rewrite Hidl, Hids, Hpl, Hps. set (w := prio l <? prio s).
  assert (∀ x, x ∈ sends e ↔ x ∈ sends_between e l s) as Hsend by (intros x; unfold sends; by rewrite El, Es).
  unfold sends_between in Hsend. fold w in Hsend.
  destruct (large_protect e), (small_protect e); simpl in Hsend.
  - exists m.(dag). split; [by destruct m|]. eapply dag_holds_ext; [|exact Hd]. intros a b v. unfold add_sends.
    rewrite decide_False by (rewrite Hsend; set_solver). by rewrite app_nil_r.
  - destruct (connect_ok G m l s w e.(edge_filter)) as (d & E & Hd1); [done..|]. exists d. split; [done|].
    eapply dag_holds_ext; [|exact Hd1]. intros a b v. unfold add_sends, add_flow. f_equal. apply decide_ext. rewrite Hsend. set_solver.
  - destruct (connect_ok G m s l (negb w) e.(edge_filter)) as (d & E & Hd1); [done..|]. exists d. split; [done|].
    eapply dag_holds_ext; [|exact Hd1]. intros a b v. unfold add_sends, add_flow. f_equal. apply decide_ext. rewrite Hsend. set_solver.
  - destruct (connect_ok G m l s w e.(edge_filter)) as (d & E & Hd1); [done..|]. rewrite E. orun.
    destruct (connect_ok _ (with_dag d m) s l (negb w) e.(edge_filter) Hd1) as (d2 & E2 & Hd2); [done..|].
    rewrite E2. exists d2. split; [done|]. eapply dag_holds_ext; [|exact Hd2]. intros a b v. unfold add_sends, add_flow.
    rewrite <- app_assoc. f_equal. clear E E2. repeat case_decide; simplify_eq; try done; set_solver.
Qed.

(** ** All edges *)

Definition sent (es : list DAGEdgeInfo) : flow :=
  λ a b w, edge_filter <$> base.filter (λ e, (a, b, w) ∈ sends e) es.

Lemma sent_snoc es e a b w : sent (es ++ [e]) a b w = add_sends e (sent es) a b w.
Proof.
  unfold sent, add_sends. rewrite filter_app, fmap_app. f_equal.
  rewrite filter_cons, filter_nil. by case_decide.
Qed.

Lemma directions_ok m es :
  dag_holds (λ _ _ _, []) m.(dag) → Forall edge_tables es →
  ∃ d, ofold add_directions (Some <$> es) m = Ret (with_dag d m) ∧ dag_holds (sent es) d.
Proof.
  intros Hd Hes.
  destruct (ofold_prefix (λ pre m', ∃ d es', pre = Some <$> es' ∧ m' = with_dag d m ∧ dag_holds (sent es') d)
    add_directions (Some <$> es) m) as (m' & E & d & es' & Hes' & -> & Hd').
  - exists m.(dag), []. split_and!; [done|by destruct m|done].
  - intros pre x m' (post & Hx) (d & es' & -> & -> & Hd').
    assert (x ∈ Some <$> es) as (e & -> & He)%list_elem_of_fmap by (rewrite Hx; set_solver).
    rewrite Forall_forall in Hes. destruct (add_directions_ok (sent es') (with_dag d m) e Hd' (Hes e He)) as (d2 & E & Hd2).
    exists (with_dag d2 m). split; [exact E|]. exists d2, (es' ++ [e]). split_and!; [by rewrite fmap_app|done|].
    eapply dag_holds_ext; [|exact Hd2]. intros a b w. by rewrite sent_snoc.
  - exists d. split; [done|]. by apply (inj (fmap Some)) in Hes' as <-.
Qed.
End Directions.
