(* ===== verification/DagBuild.v ===== *)
(** * DagBuild: the transfer graph of a plan

    [DAGManager::Build] as a whole: from a well-formed plan it makes the
    transfer graph, whose order is a maximum spanning forest and whose edges
    point along the passes and away from protected tables. *)

From S2P Require Import Prelude BloomFilter LogicalPlan NodesManager Dag DagOrder DagDirections.
Local Open Scope Z_scope.
Local Open Scope machine_scope.

(** ** Priorities *)

(** Where a table is placed. *)
Fixpoint place (l : list Z) (i : Z) : Z :=
  match l with
  | [] => 0
  | x :: l => if decide (x = i) then 0 else 1 + place l i
  end.

Lemma place_lookup l k i : NoDup l → l !! k = Some i → place l i = Z.of_nat k.
Proof.
  intros Hl. revert k. induction Hl as [|x l Hx _ IH]; intros k Hk; [done|]. destruct k as [|k]; simpl in *.
  - injection Hk as ->. by rewrite decide_True.
  - rewrite decide_False by (intros ->; apply Hx; by eapply list_elem_of_lookup_2). rewrite (IH k) by done. lia.
Qed.

Lemma table_place_inj l a b : NoDup l → a ∈ l → b ∈ l → place l a = place l b → a = b.
Proof.
  intros Hl [k Hk]%list_elem_of_lookup [k' Hk']%list_elem_of_lookup. rewrite (place_lookup l k), (place_lookup l k') by done.
  intros E. assert (k = k') as -> by lia. congruence.
Qed.

(** [LargestRoot] hands out priorities from the top. *)
Definition prio_of (pl : list (Z * option Z)) (i : Z) : Z := Z.of_nat (length pl) - 1 - place pl.*1 i.

(** ** Edges of a condition *)

Lemma edge_info_ends jt c L R x y e :
  edge_info jt c L R x y = Some e →
  e.(edge_filter) = c ∧
  ((e.(large_) = L ∧ e.(small_) = R ∧ e.(large_protect) = bool_decide (jt = LEFT) ∧ e.(small_protect) = bool_decide (jt = RIGHT)) ∨
   (e.(large_) = R ∧ e.(small_) = L ∧ e.(large_protect) = bool_decide (jt = RIGHT) ∧ e.(small_protect) = bool_decide (jt = LEFT))).
Proof. unfold edge_info. destruct jt; try done; destruct (_ <? _); intros [= <-]; (split; [done|]); solve [left; done|right; done]. Qed.

Lemma node_edge_table ns i op : nodes_ok ns → ns !! i = Some op → edge_table op = Ret i.
Proof. intros Hn Hi. unfold edge_table. by rewrite (nodes_index _ Hn i op Hi). Qed.

Lemma edge_between_tables nm joins e a b :
  nodes_ok nm.(nodes) → edge_between nm joins e (a, b) → a ≠ b → edge_tables nm.(nodes) e.
Proof.
  intros Hn He Hab.
  assert (∀ lt rt, edge_from nm joins e lt rt → lt ≠ rt → edge_tables nm.(nodes) e) as Hfrom.
  { intros lt rt (j & cond & L & R & [_ _ _ _ _ HL HR (x & y & Hi)]) Hne.
    pose proof (node_edge_table _ _ _ Hn HL). pose proof (node_edge_table _ _ _ Hn HR).
    apply edge_info_ends in Hi as (_ & [(<- & <- & _)|(<- & <- & _)]); [exists lt, rt|exists rt, lt]; by eauto 10. }
  destruct He as [He|He]; eapply Hfrom; by eauto.
Qed.

(** ** The graph *)

(** [m] is the graph of the nodes and edges found in the plan. *)
Record built (nm : NodesManager) (joins : list LogicalOperator) (E0 : gmap (Z * Z) (list (option DAGEdgeInfo)))
    (pl : list (Z * option Z)) (es : list DAGEdgeInfo) (m : DAGManager) : Prop := {
  b_nodes : m.(nodes_manager).(nodes) = nm.(nodes);
  b_renames : m.(nodes_manager).(rename_cols) = nm.(rename_cols);
  b_edges : edges_ok nm joins E0;
  b_forest : forest nm.(nodes) E0 pl;
  b_all : ∀ i, i ∈ pl.*1 ↔ is_Some (nm.(nodes) !! i);
  b_exec : Forall2 (λ (x : Z * option Z) op, nm.(nodes) !! x.1 = Some op) pl m.(ExecOrder);
  b_selected : Some <$> es = tree_edges E0 pl;
  b_taken : m.(selected_filters_and_bindings_) = tree_edges E0 pl;
  b_tables : Forall (λ e, edge_tables nm.(nodes) e ∧ ∃ key, edge_between nm joins e key) es;
  b_dag : dag_holds nm.(nodes) (prio_of pl) (sent (prio_of pl) es) m.(dag)
}.

Section Build.
  Context `{StdOrderOk} `{CardinalityEstimator}.

(** The edges along a forest are real ones, between different tables. *)
Lemma tree_edges_ok nm joins E0 pl :
  nodes_ok nm.(nodes) → edges_ok nm joins E0 → forest nm.(nodes) E0 pl →
  ∃ es, Some <$> es = tree_edges E0 pl ∧ Forall (λ e, edge_tables nm.(nodes) e ∧ ∃ key, edge_between nm joins e key) es.
Proof.
  intros Hn HE. induction 1 as [|pl x _ (es & Hes & Hall) Hg]; [by exists []|]. rewrite tree_edges_snoc, <- Hes.
  assert (∃ es', Some <$> es' = tree_edges E0 [x] ∧
    Forall (λ e, edge_tables nm.(nodes) e ∧ ∃ key, edge_between nm joins e key) es') as (es' & Hes' & Hall').
  - destruct Hg as [i op _ _ _ _|j i w c (Hj & _ & Hi & [l Hl]) _ _]; [by exists []|].
    unfold tree_edges. simpl. rewrite Hl. simpl. rewrite app_nil_r.
    assert (j ≠ i) as Hji by (intros ->; done). pose proof (edges_sound _ _ _ HE _ _ Hl) as Hs. clear Hl.
    induction Hs as [|o l (e & -> & He) _ (es' & Hes' & Hall')]; [by exists []|].
    exists (e :: es'). split; [by csimpl; rewrite Hes'|]. constructor; [|done].
    split; [by eapply edge_between_tables|eauto].
  - exists (es ++ es'). split; [by rewrite fmap_app, Hes'|]. by apply Forall_app.
Qed.

Lemma CreateDAG_ok nm joins m :
  nodes_ok nm.(nodes) → m.(nodes_manager) = nm → m.(ExecOrder) = [] → m.(selected_filters_and_bindings_) = [] →
  nm.(duplicate_nodes) = nm.(nodes) → nm.(sort_nodes) = std_sort (map_order nm.(nodes)).*2 →
  edges_ok nm joins m.(filters_and_bindings_) →
  ∃ m' pl es, CreateDAG m = Ret m' ∧ built nm joins m.(filters_and_bindings_) pl es m'.
Proof.
  intros Hn Hnm Hex Hsel Hdup Hsort HE. set (E0 := filters_and_bindings_ m).
  assert (order_inv nm.(nodes) E0 nm.(rename_cols) [] m) as Hm0.
  { split; rewrite ?Hnm, ?Hex, ?Hsel; try done; [apply forest_nil|apply HE]. }
  destruct (root_loop_ok nm.(nodes) E0 nm.(rename_cols) Hn (edges_nonempty _ _ _ HE) (size nm.(nodes)) [] m) as (pl & m1 & E & Hm1 & Hnone);
    [done|intros j i (Hj & _); set_solver|by rewrite Hnm|by rewrite Hnm|].
  assert (∀ i, i ∈ pl.*1 ↔ is_Some (nm.(nodes) !! i)) as Hall.
  { intros i. split; [by eapply order_placed|]. intros [op Hop]. pose proof (oi_nodes _ _ _ _ _ Hm1 i) as Hi.
    rewrite Hnone, lookup_empty, Hop in Hi. by case_decide. }
  assert (length pl = size nm.(nodes)) as Hlen.
  { pose proof (order_size _ _ _ _ _ Hm1) as Hs. rewrite Hnone, map_size_empty in Hs.
    assert (length pl ≤ size nm.(nodes))%nat; [|lia]. rewrite <- size_dom, <- (length_fmap fst).
    rewrite <- (size_list_to_set (C := gset Z)) by (eapply forest_nodup, oi_forest; done). apply subseteq_size.
    intros i Hi%elem_of_list_to_set. by apply elem_of_dom, Hall. }
  destruct (tree_edges_ok nm joins E0 pl Hn HE (oi_forest _ _ _ _ _ Hm1)) as (es & Hes & Htab).
  unfold CreateDAG. rewrite Hnm, E. orun. simpl. rewrite (oi_selected _ _ _ _ _ Hm1), <- Hes.
  destruct (directions_ok nm.(nodes) (prio_of pl) Hn
    (with_nodes_manager (RecoverNodes m1.(nodes_manager)) m1) es) as (d & Ed & Hd).
  - intros i [k Hk]%Hall%list_elem_of_lookup. pose proof (place_lookup _ _ _ (forest_nodup _ _ _ (oi_forest _ _ _ _ _ Hm1)) Hk) as Hp.
    rewrite list_lookup_fmap in Hk. destruct (pl !! k) as [x|] eqn:Ek; [|done]. injection Hk as <-.
    destruct (oi_dag _ _ _ _ _ Hm1 k x Ek) as (n & En & (B1 & B2 & B3 & B4) & Hid & Hprio). exists n. split; [done|].
    split; [done| |intros []; simpl; rewrite ?B1, ?B2; apply edges_hold_nil|intros []; simpl; rewrite ?B3, ?B4; apply edges_hold_nil].
    rewrite Hprio. unfold prio_of. rewrite Hp, Hlen. done.
  - eapply Forall_impl; [exact Htab|]. by intros e [? _].
  - rewrite Ed. exists (with_dag d (with_nodes_manager (RecoverNodes m1.(nodes_manager)) m1)), pl, es. split; [done|].
    destruct Hm1. split; simpl; try done.
Qed.

(** The joins the extraction finds. *)
Definition plan_joins (plan : LogicalOperator) (mark : bool) : list LogicalOperator :=
  match ExtractNodes plan (extract_start mark) with Ret s => s.(filter_operators) | _ => [] end.

Lemma extracted_nodes_ok rank plan s : plan_wf rank plan → extracted rank plan s → nodes_ok s.(manager).(nodes).
Proof.
  intros Hwf [Hn _ _ _]. split.
  - intros i op [Hi (op' & Hin & ->)]%Hn. rewrite node_index_estimated in Hi. by eapply node_index_small.
  - by intros i op [Hi _]%Hn.
  - intros i j a b Ha Hb. by eapply node_address_inj; [eapply wf_addresses|..].
Qed.

(** The joins found are joins of the plan that equate columns, and none is
    missed, but that a MARK join may be left out. *)
Lemma plan_joins_ok rank plan mark :
  plan_ok rank plan →
  Forall (λ j, j ∈ suboperators plan ∧ transfer_join j) (plan_joins plan mark) ∧ ∀ j, j ∈ visited plan → plain_join j → j ∈ plan_joins plan mark.
Proof.
  intros Hok. unfold plan_joins. destruct (ExtractNodes_plan rank plan mark Hok) as (s & E & Hs). rewrite E.
  split; [apply Hs|]. by apply (ExtractNodes_complete rank plan mark s).
Qed.

(** No graph is built without two tables or without a condition between two. *)
Definition nothing_to_transfer (nm : NodesManager) (joins : list LogicalOperator) : Prop :=
  (size nm.(nodes) < 2)%nat ∨ ∀ a b, a ≠ b → conditions_between nm (join_conditions joins) a b = [].

Lemma Build_graph rank plan mark :
  plan_wf rank plan → distinct_comparisons (plan_joins plan mark) →
  ∃ ok mark' m nm, Build plan mark new_manager = Ret (ok, mark', m) ∧
    (nodes_ok nm.(nodes) ∧ map_Forall (node_of plan) nm.(nodes) ∧ ranked rank nm.(rename_cols)) ∧
    (m.(nodes_manager).(nodes) = nm.(nodes) ∧ m.(nodes_manager).(rename_cols) = nm.(rename_cols) ∧ ∀ id, is_Some (nm.(nodes) !! id) ↔ has_table plan id) ∧
    if ok : bool then ∃ E0 pl es, built nm (plan_joins plan mark) E0 pl es m ∧ edges_exact nm (join_conditions (plan_joins plan mark)) E0
    else (m.(ExecOrder) = [] ∧ m.(dag) = ∅) ∧ nothing_to_transfer nm (plan_joins plan mark).
Proof.
  intros Hwf Hdist. unfold Build, plan_joins in *.
  destruct (ExtractNodes_plan rank plan mark (wf_ops _ _ Hwf)) as (s & E & Hs).
  destruct (ExtractNodes_complete rank plan mark s (wf_ops _ _ Hwf) E) as [Hall _].
  change (mkExtract _ [] mark) with (extract_start mark). rewrite E in Hdist |- *. orun.
  pose proof (extracted_nodes_ok _ _ _ Hwf Hs) as Hn. destruct Hs as [Hnode Hj Hr Hu]. simpl.
  set (nm := SortNodes (DuplicateNodes s.(manager))).
  destruct (Z.ltb_spec (NumNodes (DuplicateNodes s.(manager))) 2) as [Hlt|_].
  { exists false, s.(can_add_mark). eexists _, nm. split_and!; try done. left. unfold NumNodes in Hlt. simpl in *. lia. }
  assert (Forall transfer_join s.(filter_operators)) as Hjoin by (eapply Forall_impl; [exact Hj|]; by intros ? [_ ?]).
  destruct (extract_joins_ok nm s.(filter_operators) rank Hn Hr s.(filter_operators) [] ([], ∅)) as (st & Est & HE & HX); [done|done| |].
  { split; [apply edges_ok_empty|apply edges_exact_empty|constructor|done]. }
  unfold ExtractEdges. simpl. rewrite Est. orun. simpl. case_bool_decide as Hempty.
  { exists false, s.(can_add_mark). eexists _, nm. split_and!; try done. right. intros a b Hab. specialize (HX a b Hab).
    rewrite Hempty, lookup_empty in HX. symmetry in HX. by apply fmap_nil_inv in HX. }
  destruct (CreateDAG_ok nm s.(filter_operators) (with_edges st.2 (with_nodes_manager nm new_manager))) as (m & pl & es & Em & Hm); try done.
  { simpl. by rewrite Hu. }
  match goal with |- context [CreateDAG ?x] => change x with (with_edges st.2 (with_nodes_manager nm new_manager)) end.
  rewrite Em. orun.
  exists true, s.(can_add_mark), m, nm. split_and!; try done; [apply Hm|apply Hm|]. exists st.2, pl, es. done.
Qed.

Lemma Build_ok rank plan mark :
  plan_wf rank plan → distinct_comparisons (plan_joins plan mark) →
  ∃ ok mark' m nm, Build plan mark new_manager = Ret (ok, mark', m) ∧
    nodes_ok nm.(nodes) ∧ map_Forall (node_of plan) nm.(nodes) ∧ ranked rank nm.(rename_cols) ∧
    if ok : bool then ∃ E0 pl es, built nm (plan_joins plan mark) E0 pl es m else m.(ExecOrder) = [] ∧ m.(dag) = ∅.
Proof.
  intros Hwf Hd. destruct (Build_graph rank plan mark Hwf Hd) as (ok & mark' & m & nm & E & (Hn & Ho & Hr) & _ & Hok).
  exists ok, mark', m, nm. split_and!; try done. destruct ok; [|by destruct Hok]. destruct Hok as (E0 & pl & es & Hm & _). eauto.
Qed.

(** What is said of nodes and edges only reads the nodes and the renames. *)
Lemma edges_exact_same nm nm' cs E : nm'.(nodes) = nm.(nodes) → nm'.(rename_cols) = nm.(rename_cols) → edges_exact nm cs E → edges_exact nm' cs E.
Proof. intros Hn Hr HE a b Hab. rewrite (HE a b Hab). unfold conditions_between, relates, FindRename. by rewrite Hn, Hr. Qed.

Lemma edges_ok_same nm nm' joins E : nm'.(nodes) = nm.(nodes) → nm'.(rename_cols) = nm.(rename_cols) → edges_ok nm joins E → edges_ok nm' joins E.
Proof.
  intros Hn Hr [Hs He Hf]. split; [done|done|]. clear He. intros key l Hl. eapply Forall_impl; [by apply Hf|]. intros o (e & -> & He). exists e. split; [done|].
  assert (∀ a b, edge_from nm joins e a b → edge_from nm' joins e a b) as Hfrom.
  { intros a b (j & c & L & R & []). exists j, c, L, R. split; unfold FindRename; by rewrite ?Hn, ?Hr. }
  destruct He; [left|right]; auto.
Qed.

(** ** What an edge of the graph means *)

Lemma filters_to_elem F es ed : edges_hold F es → ed ∈ es → ed.(filters) = F ed.(dest_).
Proof.
  intros [HF Hn _] Hed. rewrite <- HF. clear HF. induction es as [|e es IH]; [set_solver|].
  apply NoDup_cons in Hn as [He Hn]. apply elem_of_cons in Hed as [->|Hed]; simpl; [by rewrite decide_True|].
  rewrite decide_False; [by apply IH|]. intros E. apply He. rewrite E. by apply list_elem_of_fmap_2.
Qed.

Lemma sends_ends (prio : Z → Z) e a b (w : bool) (N : gmap Z LogicalOperator) :
  (∀ x y, is_Some (N !! x) → is_Some (N !! y) → prio x = prio y → x = y) →
  edge_tables N e → (a, b, w) ∈ sends prio e →
  a ≠ b ∧ is_Some (N !! a) ∧ is_Some (N !! b) ∧ (if w then prio a < prio b else prio b < prio a).
Proof.
  intros Hinj (l & s & El & Es & Hl & Hs & Hne). unfold sends. rewrite El, Es. unfold sends_between.
  assert (prio l ≠ prio s) as Hp by (intros ?; by apply Hne, Hinj). clear Hinj.
  destruct (Z.ltb_spec (prio l) (prio s)), (small_protect e), (large_protect e); simpl; rewrite ?elem_of_cons, ?elem_of_nil;
    intros Hin; destruct_or?; simplify_eq; split_and!; try done; try congruence; lia.
Qed.

(** An edge does not send to the side its join protects. *)
Lemma sends_protected nm joins prio e (key : Z * Z) (a b : Z) (w : bool) :
  nodes_ok nm.(nodes) → edge_between nm joins e key → (a, b, w) ∈ sends prio e →
  ∃ lt rt j cond L R, edge_cond nm joins e lt rt j cond L R ∧
    (((a, b) = (lt, rt) ∧ (info j).(join_type) ≠ RIGHT) ∨ ((a, b) = (rt, lt) ∧ (info j).(join_type) ≠ LEFT)).
Proof.
  intros Hn He Hs.
  assert (∃ lt rt, edge_from nm joins e lt rt) as (lt & rt & j & cond & L & R & Hc) by (destruct He; eauto).
  exists lt, rt, j, cond, L, R. split; [done|]. destruct Hc as [_ _ _ _ _ HL HR (x & y & Hi)].
  pose proof (node_edge_table _ _ _ Hn HL) as EL. pose proof (node_edge_table _ _ _ Hn HR) as ER.
  apply edge_info_ends in Hi as (_ & [(El & Es & Pl & Ps)|(El & Es & Pl & Ps)]);
    unfold sends in Hs; rewrite El, Es, EL, ER in Hs; unfold sends_between in Hs; rewrite Pl, Ps in Hs;
    repeat case_bool_decide; simpl in Hs; rewrite ?elem_of_cons, ?elem_of_nil in Hs; destruct_or?; simplify_eq; auto.
Qed.

Lemma prio_inj nm joins E0 pl es m x y :
  built nm joins E0 pl es m → is_Some (nm.(nodes) !! x) → is_Some (nm.(nodes) !! y) → prio_of pl x = prio_of pl y → x = y.
Proof.
  intros Hm Hx Hy E. apply (table_place_inj pl.*1); [by eapply forest_nodup, b_forest|by apply (b_all _ _ _ _ _ _ Hm)..|].
  unfold prio_of in E. lia.
Qed.

(** A condition an edge of the graph carries comes from a selected edge. *)
Lemma built_in nm joins E0 pl es m i n w ed f :
  built nm joins E0 pl es m → is_Some (nm.(nodes) !! i) → m.(dag) !! i = Some n → ed ∈ ins w n → f ∈ ed.(filters) →
  ∃ e, e ∈ es ∧ e.(edge_filter) = f ∧ (ed.(dest_), i, w) ∈ sends (prio_of pl) e.
Proof.
  intros Hm Hi Hn Hed Hf. destruct (b_dag _ _ _ _ _ _ Hm i Hi) as (n' & Hn' & [_ _ Hin _]). simplify_eq.
  rewrite (filters_to_elem _ _ _ (Hin w) Hed) in Hf. apply list_elem_of_fmap in Hf as (e & -> & [Hs He]%list_elem_of_filter). eauto.
Qed.

(** A table of higher priority comes earlier in the order. *)
Lemma built_exec nm joins E0 pl es m i :
  built nm joins E0 pl es m → is_Some (nm.(nodes) !! i) →
  ∃ k op, nm.(nodes) !! i = Some op ∧ m.(ExecOrder) !! k = Some op ∧ prio_of pl i = Z.of_nat (length pl) - 1 - Z.of_nat k.
Proof.
  intros Hm Hi. apply (b_all _ _ _ _ _ _ Hm), list_elem_of_lookup in Hi as [k Hk].
  pose proof (place_lookup _ _ _ (forest_nodup _ _ _ (b_forest _ _ _ _ _ _ Hm)) Hk) as Hp.
  rewrite list_lookup_fmap in Hk. destruct (pl !! k) as [x|] eqn:Ek; [|done]. injection Hk as <-.
  destruct (Forall2_lookup_l _ _ _ _ _ (b_exec _ _ _ _ _ _ Hm) Ek) as (op & Hop & Hx).
  exists k, op. split_and!; [done|done|]. unfold prio_of. by rewrite Hp.
Qed.

(** ** Properties *)

(** C11: [Build] makes a maximum spanning forest of the join graph of the
    plan.  On a well-formed plan it returns.  Its nodes are the tables of the
    plan, no more and no fewer: the scans, with the filter over them,
    set operations and aggregates without groups it reaches.  The joins it
    reads are joins of the plan that equate columns, all of them but maybe
    MARK joins.  Between two tables there are exactly the equalities of these
    joins that relate them, seen through projections.  The order lists every
    node once, and is a maximum spanning forest: a root is a largest node left
    when no edge leaves the nodes placed, any other node is attached by an edge
    with the most conditions, to the largest table among those; the conditions
    along the forest are the ones selected.  Nothing is built only if there are
    fewer than two tables, or no condition between two. *)
Theorem Build_spanning_forest rank plan mark :
  plan_wf rank plan → distinct_comparisons (plan_joins plan mark) →
  Forall (λ j, j ∈ suboperators plan ∧ transfer_join j) (plan_joins plan mark) ∧
  (∀ j, j ∈ visited plan → plain_join j → j ∈ plan_joins plan mark) ∧
  ∃ ok mark' m, Build plan mark new_manager = Ret (ok, mark', m) ∧
    map_Forall (node_of plan) m.(nodes_manager).(nodes) ∧ (∀ id, is_Some (m.(nodes_manager).(nodes) !! id) ↔ has_table plan id) ∧
    if ok : bool then
      ∃ E0 pl, edges_ok m.(nodes_manager) (plan_joins plan mark) E0 ∧ edges_exact m.(nodes_manager) (join_conditions (plan_joins plan mark)) E0 ∧
        forest m.(nodes_manager).(nodes) E0 pl ∧ NoDup pl.*1 ∧ (∀ i, i ∈ pl.*1 ↔ is_Some (m.(nodes_manager).(nodes) !! i)) ∧
        Forall2 (λ (x : Z * option Z) op, m.(nodes_manager).(nodes) !! x.1 = Some op) pl m.(ExecOrder) ∧
        m.(selected_filters_and_bindings_) = tree_edges E0 pl
    else m.(ExecOrder) = [] ∧ nothing_to_transfer m.(nodes_manager) (plan_joins plan mark).
Proof.
  intros Hwf Hd. destruct (plan_joins_ok rank plan mark (wf_ops _ _ Hwf)) as [Hj1 Hj2]. split; [done|]. split; [done|].
  destruct (Build_graph rank plan mark Hwf Hd) as (ok & mark' & m & nm & E & (_ & Hn & _) & (En & Er & Hall) & Hok).
  exists ok, mark', m. rewrite En. split_and!; [done|done|done|]. destruct ok.
  - destruct Hok as (E0 & pl & es & Hm & HX). exists E0, pl. pose proof (forest_nodup _ _ _ (b_forest _ _ _ _ _ _ Hm)).
    split_and!; [by eapply edges_ok_same, b_edges|by eapply edges_exact_same|by destruct Hm..].
  - destruct Hok as [[Hex _] Hno]. split; [done|]. destruct Hno as [Hs|Hno]; [left; by rewrite En|right].
    intros a b Hab. rewrite <- (Hno a b Hab). unfold conditions_between, relates, FindRename. by rewrite En, Er.
Qed.

(** C12: filters follow the passes.  The forward pass visits the order from
    its end and the backward pass from its start; an edge into a table in a
    pass comes from a table that pass visits before. *)
Theorem filters_follow_the_passes rank plan mark :
  plan_wf rank plan → distinct_comparisons (plan_joins plan mark) →
  ∃ ok mark' m, Build plan mark new_manager = Ret (ok, mark', m) ∧
    ∀ i op n forward ed, m.(nodes_manager).(nodes) !! i = Some op → m.(dag) !! i = Some n → ed ∈ ins forward n →
    ∃ k k' op', m.(ExecOrder) !! k = Some op ∧ m.(ExecOrder) !! k' = Some op' ∧
      m.(nodes_manager).(nodes) !! ed.(dest_) = Some op' ∧ if forward : bool then (k < k')%nat else (k' < k)%nat.
Proof.
  intros Hwf Hd. destruct (Build_ok rank plan mark Hwf Hd) as (ok & mark' & m & nm & E & _ & _ & _ & Hok).
  exists ok, mark', m. split; [done|]. intros i op n w ed Hop Hn Hed.
  destruct ok; [|destruct Hok as [_ Hdag]; by rewrite Hdag in Hn].
  destruct Hok as (E0 & pl & es & Hm). rewrite (b_nodes _ _ _ _ _ _ Hm) in Hop |- *.
  destruct (b_dag _ _ _ _ _ _ Hm i) as (n' & Hn' & [_ _ Hin _]); [eauto|]. simplify_eq.
  pose proof (eh_edges _ _ (Hin w)) as Hne. rewrite Forall_forall in Hne. destruct (Hne ed Hed) as [Hf _].
  destruct (filters ed) as [|f fs] eqn:Ef; [done|].
  destruct (built_in _ _ _ _ _ _ i n w ed f Hm) as (e & He & _ & Hs); [eauto|done|done|rewrite Ef; left|].
  pose proof (b_tables _ _ _ _ _ _ Hm) as Ht. rewrite Forall_forall in Ht. destruct (Ht e He) as [Ht' _].
  destruct (sends_ends (prio_of pl) e ed.(dest_) i w nm.(nodes)) as (_ & Ha & Hi & Hlt); [intros x y; by apply (prio_inj _ _ _ _ _ _ x y Hm)|done|done|].
  destruct (built_exec _ _ _ _ _ _ _ Hm Ha) as (k' & op' & Hop' & Hk' & Pa).
  destruct (built_exec _ _ _ _ _ _ _ Hm Hi) as (k & op1 & Hop1 & Hk & Pi). simplify_eq.
  exists k, k', op'. split_and!; [done|done|done|]. destruct w; lia.
Qed.

(** C9: no filter reaches the side an outer join preserves.  Every condition
    an edge carries into a table is an equality of a join found in the plan,
    between that table and the table the filter is built on; when the join is
    a left (right) join, the table that receives the filter is its right
    (left) one. *)
Theorem outer_join_sides_are_protected rank plan mark :
  plan_wf rank plan → distinct_comparisons (plan_joins plan mark) →
  ∃ ok mark' m, Build plan mark new_manager = Ret (ok, mark', m) ∧
    ∀ i op n forward ed f, m.(nodes_manager).(nodes) !! i = Some op → m.(dag) !! i = Some n → ed ∈ ins forward n → f ∈ ed.(filters) →
    ∃ j cond bl br, j ∈ plan_joins plan mark ∧ cond ∈ (info j).(conditions) ∧
      f = BoundComparison COMPARE_EQUAL cond.(left) cond.(right) ∧
      FindRename m.(nodes_manager) (column_of cond.(left)) = Ret bl ∧ FindRename m.(nodes_manager) (column_of cond.(right)) = Ret br ∧
      ((ed.(dest_) = bl.(table_index) ∧ i = br.(table_index) ∧ (info j).(join_type) ≠ RIGHT) ∨
       (ed.(dest_) = br.(table_index) ∧ i = bl.(table_index) ∧ (info j).(join_type) ≠ LEFT)).
Proof.
  intros Hwf Hd. destruct (Build_ok rank plan mark Hwf Hd) as (ok & mark' & m & nm & E & Hnodes & _ & _ & Hok).
  exists ok, mark', m. split; [done|]. intros i op n w ed f Hop Hn Hed Hf.
  destruct ok; [|destruct Hok as [_ Hdag]; by rewrite Hdag in Hn].
  destruct Hok as (E0 & pl & es & Hm). rewrite (b_nodes _ _ _ _ _ _ Hm) in Hop.
  destruct (built_in _ _ _ _ _ _ i n w ed f Hm) as (e & He & <- & Hs); [eauto|done|done|done|].
  pose proof (b_tables _ _ _ _ _ _ Hm) as Ht. rewrite Forall_forall in Ht. destruct (Ht e He) as [_ [key Hkey]].
  destruct (sends_protected _ _ _ _ _ _ _ _ Hnodes Hkey Hs) as 
    (lt & rt & j & cond & L & R & [Hj Hc _ (bl & El & <-) (br & Er & <-) _ _ (x & y & Hi)] & Hside).
  apply edge_info_ends in Hi as [Hi _].
  unfold FindRename. rewrite (b_renames _ _ _ _ _ _ Hm). exists j, cond, bl, br. split_and!; try done.
  destruct Hside as [[[= -> ->] ?]|[[= -> ->] ?]]; auto.
Qed.
End Build.

(** ** A plan *)

(** [(t0 LEFT JOIN t1 ON t0.0 = t1.0) JOIN (SELECT t2.0 AS t3.0 FROM t2) ON t1.1 = t3.0]. *)
Definition sample_get (ptr t card : Z) : LogicalOperator :=
  Op (mkInfo ptr LOGICAL_GET card [t] [] [] JOIN_INVALID [] [] 0 [] []) [].

Definition sample_join (ptr : Z) (jt : JoinType) (l r : ColumnBinding) (lc rc : LogicalOperator) : LogicalOperator :=
  Op (mkInfo ptr LOGICAL_COMPARISON_JOIN 0 [] [] [] jt [mkCondition COMPARE_EQUAL (BoundColumnRef l) (BoundColumnRef r)] [] 0 [] []) [lc; rc].

Definition sample_projection (ptr t : Z) (col : ColumnBinding) (c : LogicalOperator) : LogicalOperator :=
  Op (mkInfo ptr LOGICAL_PROJECTION 0 [t] [mkBinding t 0] [BoundColumnRef col] JOIN_INVALID [] [] 0 [] []) [c].

Definition sample_plan : LogicalOperator :=
  sample_join 15 INNER (mkBinding 1 1) (mkBinding 3 0)
    (sample_join 14 LEFT (mkBinding 0 0) (mkBinding 1 0) (sample_get 10 0 100) (sample_get 11 1 10))
    (sample_projection 13 3 (mkBinding 2 0) (sample_get 12 2 1000)).

Definition sample_rank (b : ColumnBinding) : nat := Z.to_nat b.(table_index).

Lemma sample_plan_wf : plan_wf sample_rank sample_plan.
Proof.
  split.
  - repeat (apply Forall_cons; split); try exact (Forall_nil_2 _); unfold op_ok; simpl; try lia.
    split; [done|]. intros [|n] e Hn; [|done]. injection Hn as <-. intros _. exists (mkBinding 3 0). split; [done|]. split; [vm_compute; lia|done].
  - apply (bool_decide_unpack _). vm_compute. done.
  - intros op Hop. repeat (apply elem_of_cons in Hop as [->|Hop]; [simpl; repeat constructor; lia|]). by apply elem_of_nil in Hop.
Qed.

Lemma sample_distinct : distinct_comparisons (plan_joins sample_plan true).
Proof. vm_compute. repeat constructor. Qed.

(** Its order: the largest table, then along the edges. *)
Definition build_order (plan : LogicalOperator) : bool * list Z :=
  match Build plan true new_manager with Ret (ok, _, m) => (ok, address <$> m.(ExecOrder)) | _ => (false, []) end.

Lemma Build_spanning_forest_witness :
  build_order sample_plan = (true, [12; 11; 10]) ∧
  Forall (λ j, j ∈ suboperators sample_plan ∧ transfer_join j) (plan_joins sample_plan true) ∧
  (∀ j, j ∈ visited sample_plan → plain_join j → j ∈ plan_joins sample_plan true) ∧
  ∃ ok mark' m, Build sample_plan true new_manager = Ret (ok, mark', m) ∧
    map_Forall (node_of sample_plan) m.(nodes_manager).(nodes) ∧ (∀ id, is_Some (m.(nodes_manager).(nodes) !! id) ↔ has_table sample_plan id) ∧
    if ok : bool then
      ∃ E0 pl, edges_ok m.(nodes_manager) (plan_joins sample_plan true) E0 ∧ edges_exact m.(nodes_manager) (join_conditions (plan_joins sample_plan true)) E0 ∧
        forest m.(nodes_manager).(nodes) E0 pl ∧ NoDup pl.*1 ∧ (∀ i, i ∈ pl.*1 ↔ is_Some (m.(nodes_manager).(nodes) !! i)) ∧
        Forall2 (λ (x : Z * option Z) op, m.(nodes_manager).(nodes) !! x.1 = Some op) pl m.(ExecOrder) ∧
        m.(selected_filters_and_bindings_) = tree_edges E0 pl
    else m.(ExecOrder) = [] ∧ nothing_to_transfer m.(nodes_manager) (plan_joins sample_plan true).
Proof. split; [by vm_compute|]. exact (Build_spanning_forest sample_rank sample_plan true sample_plan_wf sample_distinct). Defined.

(** The edges into each table, forward and backward. *)
Definition build_edges (plan : LogicalOperator) : list (Z * list Z * list Z) :=
  match Build plan true new_manager with
  | Ret (_, _, m) => (λ p : Z * DAGNode, (p.1, dest_ <$> p.2.(forward_in_), dest_ <$> p.2.(backward_in_))) <$> map_to_list m.(dag)
  | _ => []
  end.

Lemma filters_follow_the_passes_witness :
  (1, [0], [2]) ∈ build_edges sample_plan ∧
  ∃ ok mark' m, Build sample_plan true new_manager = Ret (ok, mark', m) ∧
    ∀ i op n forward ed, m.(nodes_manager).(nodes) !! i = Some op → m.(dag) !! i = Some n → ed ∈ ins forward n →
    ∃ k k' op', m.(ExecOrder) !! k = Some op ∧ m.(ExecOrder) !! k' = Some op' ∧
      m.(nodes_manager).(nodes) !! ed.(dest_) = Some op' ∧ if forward : bool then (k < k')%nat else (k' < k)%nat.
Proof.
  split; [vm_compute; repeat (left || right)|].
  exact (filters_follow_the_passes sample_rank sample_plan true sample_plan_wf sample_distinct).
Defined.

Lemma outer_join_sides_are_protected_witness :
  (0, [], []) ∈ build_edges sample_plan ∧
  ∃ ok mark' m, Build sample_plan true new_manager = Ret (ok, mark', m) ∧
    ∀ i op n forward ed f, m.(nodes_manager).(nodes) !! i = Some op → m.(dag) !! i = Some n → ed ∈ ins forward n → f ∈ ed.(filters) →
    ∃ j cond bl br, j ∈ plan_joins sample_plan true ∧ cond ∈ (info j).(conditions) ∧
      f = BoundComparison COMPARE_EQUAL cond.(left) cond.(right) ∧
      FindRename m.(nodes_manager) (column_of cond.(left)) = Ret bl ∧ FindRename m.(nodes_manager) (column_of cond.(right)) = Ret br ∧
      ((ed.(dest_) = bl.(table_index) ∧ i = br.(table_index) ∧ (info j).(join_type) ≠ RIGHT) ∨
       (ed.(dest_) = br.(table_index) ∧ i = bl.(table_index) ∧ (info j).(join_type) ≠ LEFT)).
Proof.
  split; [vm_compute; repeat (left || right)|].
  exact (outer_join_sides_are_protected sample_rank sample_plan true sample_plan_wf sample_distinct).
Defined.
