(* ===== verification/TransferOptimizer.v ===== *)
(** * TransferOptimizer: inserting the filters into the plan

    Models [optimizer/predicate_transfer/predicate_transfer_optimizer.cpp].
    A forward and a backward pass over the transfer graph decide which filters
    each table creates and uses; the operators for a table are chained and put
    on top of it in the plan. *)

From S2P Require Import Prelude BloomFilter LogicalPlan NodesManager Dag DagOrder DagDirections DagBuild.
Local Open Scope Z_scope.
Local Open Scope machine_scope.

(** ** State *)

(** The filters made so far, in a heap; the operators that will stand above
    an operator, by its address ([None] once moved into the plan); and the
    address of the next operator made. *)
Record PredicateTransferOptimizer := mkOptimizer {
  dag_manager : DAGManager;
  heap : list BlockedBloomFilter;
  replace_map_forward : gmap Z (option LogicalOperator);
  replace_map_backward : gmap Z (option LogicalOperator);
  next_address : Z
}.

Definition with_dag_manager (m : DAGManager) (o : PredicateTransferOptimizer) : PredicateTransferOptimizer :=
  mkOptimizer m o.(heap) o.(replace_map_forward) o.(replace_map_backward) o.(next_address).

Definition replace_map (reverse : bool) (o : PredicateTransferOptimizer) : gmap Z (option LogicalOperator) :=
  if reverse then o.(replace_map_backward) else o.(replace_map_forward).

Definition set_replace (reverse : bool) (addr : Z) (op : LogicalOperator) (o : PredicateTransferOptimizer) : PredicateTransferOptimizer :=
  if reverse
  then mkOptimizer o.(dag_manager) o.(heap) o.(replace_map_forward) (<[addr := Some op]> o.(replace_map_backward)) o.(next_address)
  else mkOptimizer o.(dag_manager) o.(heap) (<[addr := Some op]> o.(replace_map_forward)) o.(replace_map_backward) o.(next_address).

(** ** Columns of a condition *)

(** [GetColumnBindingExpression]: the columns of an expression, in order. *)
Fixpoint GetColumnBindingExpression (expr : Expression) : list ColumnBinding :=
  match expr with
  | Expr t _ b es => if decide (t = TYPE_BOUND_COLUMN_REF) then [b] else concat (map GetColumnBindingExpression es)
  end.

(** [GetNodeId]. *)
Definition GetNodeId (node : LogicalOperator) : outcome Z :=
  let* i := node_index node in Ret (default (2 ^ 64 - 1) i).

(** ** Filters used and created by a table *)

(** [GetAllBFUsed]: the filters on the edges into a table that nobody uses yet,
    with the table each comes from. *)
Definition use_filter (dest : Z) (st : list BlockedBloomFilter * list (nat * Z)) (bf : nat)
    : outcome (list BlockedBloomFilter * list (nat * Z)) :=
  let* f := deref (st.1 !! bf) in
  if f.(Used_) then Ret st else Ret (<[bf := setUsed f]> st.1, st.2 ++ [(bf, dest)]).

Definition use_edge (st : list BlockedBloomFilter * list (nat * Z)) (e : DAGEdge) : outcome (list BlockedBloomFilter * list (nat * Z)) :=
  ofold (use_filter e.(dest_)) e.(bloom_filters) st.

Definition GetAllBFUsed (node : DAGNode) (reverse : bool) (h : list BlockedBloomFilter)
    : outcome (list BlockedBloomFilter * list (nat * Z)) :=
  ofold use_edge (if reverse then node.(backward_in_) else node.(forward_in_)) (h, []).

(** One condition of an edge out of a table. *)
Definition add_columns (nm : NodesManager) (cur : Z) (f : BlockedBloomFilter) (expr : Expression) : outcome BlockedBloomFilter :=
  let cols := GetColumnBindingExpression expr in
  let* c0 := vec_at cols 0 in
  let* b0 := FindRename nm c0 in
  if b0.(table_index) =? cur then
    let* c1 := vec_at cols 1 in
    let* b1 := FindRename nm c1 in
    Ret (AddColumnBindingBuilt b0 (AddColumnBindingApplied b1 f))
  else
    let* c1 := vec_at cols 1 in
    let* b1 := FindRename nm c1 in
    if b1.(table_index) =? cur then Ret (AddColumnBindingBuilt b1 (AddColumnBindingApplied b0 f)) else Ret f.

Definition create_filter (nm : NodesManager) (cur : Z) (reverse : bool) (h : list BlockedBloomFilter) (e : DAGEdge)
    : outcome (list BlockedBloomFilter) :=
  let* f := ofold (add_columns nm cur) e.(filters) new_filter in
  if bool_decide (f.(column_bindings_built_) = [])
  then Throw (if reverse then "No built colmun found!" else "No colmun binding found!")
  else Ret (h ++ [f]).

(** [GetAllBFCreate]: a filter for each edge out of a table; the new filters
    are the last ones of the heap. *)
Definition GetAllBFCreate (nm : NodesManager) (cur : Z) (node : DAGNode) (reverse : bool) (h : list BlockedBloomFilter)
    : outcome (list BlockedBloomFilter * list nat) :=
  let* h' := ofold (create_filter nm cur reverse) (if reverse then node.(backward_out_) else node.(forward_out_)) h in
  Ret (h', seq (length h) (length h' - length h)).

(** ** Operators *)

Definition LogicalCreateBF (addr card : Z) (bfs : list nat) (cs : list LogicalOperator) : LogicalOperator :=
  Op (mkInfo addr LOGICAL_CREATE_BF card [] [] [] JOIN_INVALID [] [] 0 bfs []) cs.

Definition LogicalUseBF (addr card : Z) (bfs : list nat) (related : list Z) (cs : list LogicalOperator) : LogicalOperator :=
  Op (mkInfo addr LOGICAL_USE_BF card [] [] [] JOIN_INVALID [] [] 0 bfs related) cs.

(** One [LogicalUseBF] of [BuildUseOperator], on top of the one before. *)
Definition build_use (nm : NodesManager) (rmap : gmap Z (option LogicalOperator)) (card : Z)
    (st : option LogicalOperator * Z) (u : nat * Z) : outcome (option LogicalOperator * Z) :=
  let* base_node := deref (getNode nm u.2) in
  let* entry := deref (rmap !! address base_node) in
  let* related_bf_create := deref entry in
  let related := if decide (type related_bf_create = LOGICAL_CREATE_BF) then [address related_bf_create] else [] in
  Ret (Some (LogicalUseBF st.2 card [u.1] related (match st.1 with Some pre => [pre] | None => [] end)), st.2 + 1).

(** [BuildUseOperator]: a chain, the last filter at the bottom. *)
Definition BuildUseOperator (nm : NodesManager) (rmap : gmap Z (option LogicalOperator)) (node : LogicalOperator)
    (uses : list (nat * Z)) (next : Z) : outcome (option LogicalOperator * Z) :=
  ofold (build_use nm rmap (cardinality node)) (reverse uses) (None, next).

(** [BuildSingleCreateOperator]. *)
Definition BuildSingleCreateOperator (node : LogicalOperator) (bfs : list nat) (next : Z) : LogicalOperator * Z :=
  (LogicalCreateBF next (cardinality node) bfs [], next + 1).

(** [BuildCreateUsePair]. *)
Definition BuildCreateUsePair (nm : NodesManager) (rmap : gmap Z (option LogicalOperator)) (node : LogicalOperator)
    (uses : list (nat * Z)) (bfs : list nat) (next : Z) : outcome (LogicalOperator * Z) :=
  let* r := BuildUseOperator nm rmap node uses next in
  let* use_bf := deref r.1 in
  Ret (LogicalCreateBF r.2 (cardinality node) bfs [use_bf], r.2 + 1).

(** [PossibleFilterAny] returns at once. *)
Definition PossibleFilterAny (node : LogicalOperator) (reverse : bool) : bool := true.

(** [CreateBloomFilter]: the filters a table creates, with the table. *)
Definition CreateBloomFilter (node : LogicalOperator) (reverse : bool) (o : PredicateTransferOptimizer)
    : outcome (list (Z * nat) * PredicateTransferOptimizer) :=
  let* cur := GetNodeId node in
  match o.(dag_manager).(dag) !! to_int cur with
  | None => Ret ([], o)
  | Some n =>
      let nm := o.(dag_manager).(nodes_manager) in
      let* used := GetAllBFUsed n reverse o.(heap) in
      let* created := GetAllBFCreate nm cur n reverse used.1 in
      let o := mkOptimizer o.(dag_manager) created.1 o.(replace_map_forward) o.(replace_map_backward) o.(next_address) in
      let with_next (next : Z) := mkOptimizer o.(dag_manager) o.(heap) o.(replace_map_forward) o.(replace_map_backward) next in
      match used.2, created.2 with
      | [], [] => Ret ([], o)
      | [], bfs =>
          if negb (PossibleFilterAny node reverse) then Ret ([], o) else
          let '(create_bf, next) := BuildSingleCreateOperator node bfs o.(next_address) in
          Ret ((λ f, (cur, f)) <$> bfs, set_replace reverse (address node) create_bf (with_next next))
      | uses, [] =>
          let* r := BuildUseOperator nm (replace_map reverse o) node uses o.(next_address) in
          let* use_bf := deref r.1 in
          Ret ([], set_replace reverse (address node) use_bf (with_next r.2))
      | uses, bfs =>
          let* r := BuildCreateUsePair nm (replace_map reverse o) node uses bfs o.(next_address) in
          Ret ((λ f, (cur, f)) <$> bfs, set_replace reverse (address node) r.1 (with_next r.2))
      end
  end.

(** ** The plan *)

(** The chain of operators gets the plan as its deepest child. *)
Fixpoint add_bottom (op child : LogicalOperator) : LogicalOperator :=
  match op with
  | Op i [] => Op i [child]
  | Op i (c :: cs) => Op i (add_bottom c child :: cs)
  end.

Definition put_above (addr : Z) (rmap : gmap Z (option LogicalOperator)) (plan : LogicalOperator)
    : outcome (LogicalOperator * gmap Z (option LogicalOperator)) :=
  match rmap !! addr with
  | None => Ret (plan, rmap)
  | Some entry => let* op := deref entry in Ret (add_bottom op plan, <[addr := None]> rmap)
  end.

(** [InsertCreateBFOperator_d]. *)
Fixpoint InsertCreateBFOperator_d (plan : LogicalOperator) (maps : gmap Z (option LogicalOperator) * gmap Z (option LogicalOperator))
    : outcome (LogicalOperator * (gmap Z (option LogicalOperator) * gmap Z (option LogicalOperator))) :=
  match plan with
  | Op i cs =>
      let* r := (fix insert_children cs maps :=
        match cs with
        | [] => Ret ([], maps)
        | c :: cs =>
            let* r := InsertCreateBFOperator_d c maps in
            let* rs := insert_children cs r.2 in
            Ret (r.1 :: rs.1, rs.2)
        end) cs maps in
      let* fw := put_above i.(ptr) r.2.1 (Op i r.1) in
      let* bw := put_above i.(ptr) r.2.2 fw.1 in
      Ret (bw.1, (fw.2, bw.2))
  end.

(** ** The passes *)

(** [PreOptimize]: the graph is built from the plan; the plan is unchanged. *)
Definition PreOptimize `{StdOrder} `{CardinalityEstimator} (plan : LogicalOperator) (mark : bool) (next : Z)
    : outcome PredicateTransferOptimizer :=
  let* r := Build plan mark new_manager in
  Ret (mkOptimizer r.2 [] ∅ ∅ next).

(** [dag_manager.Add] for a filter just created. *)
Definition add_filter (reverse : bool) (o : PredicateTransferOptimizer) (BF : Z * nat) : outcome PredicateTransferOptimizer :=
  let* f := deref (o.(heap) !! BF.2) in
  let* m := Add BF.1 BF.2 f.(column_bindings_applied_) reverse o.(dag_manager) in
  Ret (with_dag_manager m o).

Definition visit_node (reverse : bool) (o : PredicateTransferOptimizer) (node : LogicalOperator) : outcome PredicateTransferOptimizer :=
  let* r := CreateBloomFilter node reverse o in
  ofold (add_filter reverse) r.1 r.2.

(** [Optimize].  The nodes are operators of the plan, which other rules have
    worked on since [PreOptimize]: [now] gives their present state. *)
Definition Optimize (now : LogicalOperator → LogicalOperator) (plan : LogicalOperator) (o : PredicateTransferOptimizer)
    : outcome (LogicalOperator * PredicateTransferOptimizer) :=
  let ordered_nodes := now <$> o.(dag_manager).(ExecOrder) in
  let* o := ofold (visit_node false) (reverse ordered_nodes) o in
  let* o := ofold (visit_node true) ordered_nodes o in
  let* r := InsertCreateBFOperator_d plan (o.(replace_map_forward), o.(replace_map_backward)) in
  Ret (r.1, mkOptimizer o.(dag_manager) o.(heap) r.2.1 r.2.2 o.(next_address)).
