(* ===== verification/TransferInsert.v ===== *)
(** * TransferInsert: the plan with its filter operators

    What [InsertCreateBFOperator_d] does to a plan: the operators it adds are
    those of the two replace maps, and taking them out again gives back the
    plan it was given. *)

From S2P Require Import Prelude BloomFilter LogicalPlan NodesManager Dag TransferOptimizer.
Local Open Scope Z_scope.
Local Open Scope machine_scope.

(** ** Taking the filter operators out *)

Definition is_filter_op (t : LogicalOperatorType) : bool :=
  match t with LOGICAL_CREATE_BF | LOGICAL_USE_BF => true | _ => false end.

Fixpoint erase (op : LogicalOperator) : LogicalOperator :=
  match op with
  | Op i cs => match is_filter_op i.(otype), cs with true, [c] => erase c | _, _ => Op i (map erase cs) end
  end.

(** A plan without filter operators. *)
Definition plain (plan : LogicalOperator) : Prop := Forall (λ op, is_filter_op (type op) = false) (suboperators plan).

(** Filter operators only, one below the other. *)
Fixpoint chain (op : LogicalOperator) : Prop :=
  match op with
  | Op i cs => is_filter_op i.(otype) = true ∧ match cs with [] => True | [c] => chain c | _ => False end
  end.

(** What the operators of a plan hold. *)
Fixpoint infos (op : LogicalOperator) : list op_info :=
  match op with Op i cs => i :: concat (map infos cs) end.

Lemma erase_add_bottom op p : chain op → erase (add_bottom op p) = erase p.
Proof.
  induction op as [i cs IH] using LogicalOperator_nested_ind. simpl. intros [Hf Hc].
  destruct cs as [|c [|? ?]]; simpl; rewrite Hf; [done| |done]. apply Forall_cons in IH as [IH _]. by apply IH.
Qed.

Lemma infos_add_bottom op p : infos (add_bottom op p) ≡ₚ infos op ++ infos p.
Proof.
  induction op as [i cs IH] using LogicalOperator_nested_ind. destruct cs as [|c cs]; simpl; [by rewrite app_nil_r|].
  apply Forall_cons in IH as [IH _]. rewrite IH. rewrite <- !app_assoc. apply Permutation_skip, Permutation_app_head, Permutation_app_comm.
Qed.

Lemma plain_children i cs : plain (Op i cs) → is_filter_op i.(otype) = false ∧ Forall plain cs.
Proof.
  unfold plain. simpl. intros [Hi Hc]%Forall_cons. split; [done|]. clear Hi.
  induction cs as [|c cs IH]; [done|]. simpl in Hc. apply Forall_app in Hc as [Hc Hcs]. constructor; auto.
Qed.

(** ** Inserting *)

Definition addresses (op : LogicalOperator) : list Z := address <$> suboperators op.

Abbreviation rmap := (gmap Z (option LogicalOperator)).

(** Entries that can be taken, for the addresses [A]. *)
Record takeable (A : list Z) (M : rmap) : Prop := {
  tk_there : ∀ a, a ∈ A → M !! a ≠ Some None;
  tk_chain : ∀ a op, M !! a = Some (Some op) → chain op
}.

Definition taken (A : list Z) (M M' : rmap) : Prop :=
  ∀ a, M' !! a = if decide (a ∈ A) then (λ _, None) <$> M !! a else M !! a.

Definition inserted (A : list Z) (M : rmap) (x : op_info) : Prop := ∃ a op, a ∈ A ∧ M !! a = Some (Some op) ∧ x ∈ infos op.

Lemma takeable_sub A A' M : (∀ a, a ∈ A → a ∈ A') → takeable A' M → takeable A M.
Proof. intros HA []. split; auto. Qed.

Lemma taken_takeable A B M M' : taken A M M' → takeable B M → (∀ a, a ∈ A → a ∉ B) → takeable B M'.
Proof.
  intros HT [H1 H2] Hdis. split.
  - intros a Ha. rewrite HT. rewrite decide_False; [by apply H1|]. intros HaA. by apply (Hdis a).
  - intros a op. rewrite HT. case_decide; [by destruct (M !! a)|]. apply H2.
Qed.

Lemma taken_app A B M M' M'' : taken A M M' → taken B M' M'' → taken (A ++ B) M M''.
Proof.
  intros H1 H2 a. rewrite H2, H1. destruct (decide (a ∈ A)), (decide (a ∈ B));
    [rewrite decide_True by set_solver|rewrite decide_True by set_solver|rewrite decide_True by set_solver|rewrite decide_False by set_solver];
    by destruct (M !! a).
Qed.

Lemma taken_inserted A B M M' x : taken A M M' → (∀ a, a ∈ A → a ∉ B) → inserted B M' x ↔ inserted B M x.
Proof.
  intros HT Hdis. unfold inserted. split; intros (a & op & Ha & Hop & Hx); exists a, op; (split; [done|split; [|done]]).
  - rewrite HT in Hop. case_decide; [by destruct (Hdis a)|done].
  - rewrite HT. rewrite decide_False; [done|]. intros HA. by apply (Hdis a).
Qed.

Lemma inserted_app A B M x : inserted (A ++ B) M x ↔ inserted A M x ∨ inserted B M x.
Proof. unfold inserted. setoid_rewrite elem_of_app. naive_solver. Qed.

(** The plan with the operators of an address on top. *)
Definition above (M : rmap) (a : Z) (p : LogicalOperator) : LogicalOperator :=
  match M !! a with Some (Some op) => add_bottom op p | _ => p end.

(** The plan in which every operator has its operators directly above it, the
    ones of the forward pass below the ones of the backward pass. *)
Fixpoint decorate (maps : rmap * rmap) (plan : LogicalOperator) : LogicalOperator :=
  match plan with Op i cs => above maps.2 i.(ptr) (above maps.1 i.(ptr) (Op i (map (decorate maps) cs))) end.

(** Taking the operators of one address. *)
Lemma put_above_ok a M p :
  takeable [a] M → ∃ M', put_above a M p = Ret (above M a p, M') ∧ erase (above M a p) = erase p ∧ taken [a] M M' ∧
    ∀ x, x ∈ infos (above M a p) ↔ x ∈ infos p ∨ inserted [a] M x.
Proof.
  intros [Hthere Hchain]. unfold put_above, above. destruct (M !! a) as [[op|]|] eqn:E.
  - orun. eexists. split; [done|]. split; [apply erase_add_bottom; eauto|]. split.
    + intros b. destruct (decide (b ∈ [a])) as [->%list_elem_of_singleton|Hb]; [by rewrite lookup_insert_eq, E|].
      rewrite lookup_insert_ne; [done|]. intros ->. apply Hb. left.
    + intros x. rewrite infos_add_bottom, elem_of_app. unfold inserted. setoid_rewrite list_elem_of_singleton. naive_solver.
  - by apply Hthere in E; [|left].
  - eexists. split; [done|]. split; [done|]. split.
    + intros b. case_decide as Hb; [|done]. apply list_elem_of_singleton in Hb as ->. by rewrite E.
    + intros x. unfold inserted. setoid_rewrite list_elem_of_singleton. naive_solver.
Qed.

(** The result of inserting into a plan (or a list of plans) with addresses [A]. *)
Record insertion (A : list Z) (old new : list op_info) (maps maps' : rmap * rmap) : Prop := {
  ins_fw : taken A maps.1 maps'.1;
  ins_bw : taken A maps.2 maps'.2;
  ins_infos : ∀ x, x ∈ new ↔ x ∈ old ∨ inserted A maps.1 x ∨ inserted A maps.2 x
}.

Lemma insertion_perm A B old new maps maps' : (∀ a, a ∈ A ↔ a ∈ B) → insertion A old new maps maps' → insertion B old new maps maps'.
Proof.
  intros HAB [F B' X]. split.
  - intros a. rewrite F. by apply decide_ext.
  - intros a. rewrite B'. by apply decide_ext.
  - intros x. rewrite X. unfold inserted. by setoid_rewrite HAB.
Qed.

Lemma insertion_compose A B old1 new1 old2 new2 m1 m2 m3 :
  (∀ a, a ∈ A → a ∉ B) → insertion A old1 new1 m1 m2 → insertion B old2 new2 m2 m3 →
  insertion (A ++ B) (old1 ++ old2) (new1 ++ new2) m1 m3.
Proof.
  intros Hdis [F1 B1 I1] [F2 B2 I2]. split; [by eapply taken_app|by eapply taken_app|].
  intros x. rewrite !elem_of_app, I1, I2, !inserted_app, (taken_inserted A B _ _ x F1 Hdis), (taken_inserted A B _ _ x B1 Hdis). tauto.
Qed.

Lemma addresses_cons i cs : addresses (Op i cs) = i.(ptr) :: concat (map addresses cs).
Proof.
  unfold addresses. csimpl. f_equal. induction cs as [|c cs IH]; [done|]. csimpl. by rewrite fmap_app, IH.
Qed.

Lemma above_taken A a M M' p : taken A M M' → a ∉ A → above M' a p = above M a p.
Proof. intros HT Ha. unfold above. by rewrite HT, decide_False. Qed.

Lemma decorate_taken A maps maps' plan :
  taken A maps.1 maps'.1 → taken A maps.2 maps'.2 → (∀ a, a ∈ A → a ∉ addresses plan) → decorate maps' plan = decorate maps plan.
Proof.
  intros H1 H2. induction plan as [i cs IH] using LogicalOperator_nested_ind. rewrite addresses_cons. intros Hdis. simpl.
  rewrite (above_taken A _ _ _ _ H2), (above_taken A _ _ _ _ H1) by set_solver. do 3 f_equal. induction IH as [|c cs Hc _ IH]; [done|]. simpl in *.
  rewrite Hc, IH by set_solver. done.
Qed.

(** What is inserted, and that erasing it gives the plan back. *)
Definition insert_spec (plan : LogicalOperator) : Prop :=
  plain plan → NoDup (addresses plan) → ∀ maps, takeable (addresses plan) maps.1 → takeable (addresses plan) maps.2 →
  ∃ plan' maps', InsertCreateBFOperator_d plan maps = Ret (plan', maps') ∧ erase plan' = plan ∧ plan' = decorate maps plan ∧
    insertion (addresses plan) (infos plan) (infos plan') maps maps'.

Lemma insert_children_ok cs maps :
  Forall insert_spec cs → Forall plain cs → NoDup (concat (map addresses cs)) →
  takeable (concat (map addresses cs)) maps.1 → takeable (concat (map addresses cs)) maps.2 →
  ∃ cs' maps', (fix insert_children cs maps :=
        match cs with
        | [] => Ret ([], maps)
        | c :: cs =>
            let* r := InsertCreateBFOperator_d c maps in
            let* rs := insert_children cs r.2 in
            Ret (r.1 :: rs.1, rs.2)
        end) cs maps = Ret (cs', maps') ∧ map erase cs' = cs ∧ cs' = map (decorate maps) cs ∧
    insertion (concat (map addresses cs)) (concat (map infos cs)) (concat (map infos cs')) maps maps'.
Proof.
  intros Hcs. revert maps. induction Hcs as [|c cs Hc _ IH]; intros maps Hp Hn H1 H2; simpl in *.
  { exists [], maps. split_and!; [done|done|done|]. split; [intros a; by rewrite decide_False by set_solver..|].
    intros x. unfold inserted. set_solver. }
  apply Forall_cons in Hp as [Hpc Hp]. apply NoDup_app in Hn as (Hn1 & Hdis & Hn2).
  destruct (Hc Hpc Hn1 maps) as (c' & m1 & E1 & Er1 & Ed1 & I1).
  { eapply takeable_sub; [|exact H1]. set_solver. }
  { eapply takeable_sub; [|exact H2]. set_solver. }
  rewrite E1. orun. destruct (IH m1) as (cs' & m2 & E2 & Er2 & Ed2 & I2); [done|done| | |].
  { eapply taken_takeable; [apply (ins_fw _ _ _ _ _ I1)|eapply takeable_sub; [|exact H1]; set_solver|done]. }
  { eapply taken_takeable; [apply (ins_bw _ _ _ _ _ I1)|eapply takeable_sub; [|exact H2]; set_solver|done]. }
  simpl. rewrite E2. orun. exists (c' :: cs'), m2. split_and!; [done|simpl; by rewrite Er1, Er2| |].
  { rewrite Ed1, Ed2. f_equal. apply map_ext_in. intros c1 Hc1%list_elem_of_In.
    eapply decorate_taken; [apply (ins_fw _ _ _ _ _ I1)|apply (ins_bw _ _ _ _ _ I1)|]. intros a Ha Ha'. apply (Hdis a Ha).
    apply list_elem_of_In, in_concat. exists (addresses c1). split; [by apply in_map, list_elem_of_In|by apply list_elem_of_In]. }
  by eapply insertion_compose.
Qed.

Lemma insert_plan_ok plan : insert_spec plan.
Proof.
  induction plan as [i cs IH] using LogicalOperator_nested_ind. intros [Hi Hp]%plain_children Hn maps H1 H2.
  rewrite addresses_cons in *. apply NoDup_cons in Hn as [Hi0 Hn].
  destruct (insert_children_ok cs maps IH Hp Hn) as (cs' & m1 & E1 & Er & Ed & I1).
  { eapply takeable_sub; [|exact H1]. set_solver. }
  { eapply takeable_sub; [|exact H2]. set_solver. }
  simpl. rewrite E1. orun. cbn [fst snd].
  assert (∀ a, a ∈ concat (map addresses cs) → a ∉ [ptr i]) as Hdis by (intros a Ha ->%list_elem_of_singleton; done).
  destruct (put_above_ok i.(ptr) m1.1 (Op i cs')) as (M1 & Ep1 & Ee1 & T1 & X1).
  { eapply taken_takeable; [apply (ins_fw _ _ _ _ _ I1)|eapply takeable_sub; [|exact H1]; set_solver|done]. }
  destruct (put_above_ok i.(ptr) m1.2 (above m1.1 i.(ptr) (Op i cs'))) as (M2 & Ep2 & Ee2 & T2 & X2).
  { eapply taken_takeable; [apply (ins_bw _ _ _ _ _ I1)|eapply takeable_sub; [|exact H2]; set_solver|done]. }
  rewrite Ep1. orun. cbn [fst snd]. rewrite Ep2. orun. exists (above m1.2 i.(ptr) (above m1.1 i.(ptr) (Op i cs'))), (M1, M2).
  split_and!; [done| | |].
  - rewrite Ee2, Ee1. simpl. rewrite Hi, Er. done.
  - simpl. by rewrite Ed, (above_taken _ _ _ _ _ (ins_fw _ _ _ _ _ I1)), (above_taken _ _ _ _ _ (ins_bw _ _ _ _ _ I1)).
  - destruct I1 as [F1 B1 X]. apply (insertion_perm (concat (map addresses cs) ++ [ptr i])); [set_solver|].
    split; simpl; [by eapply taken_app|by eapply taken_app|].
    intros x. rewrite X2, X1, !inserted_app. simpl. rewrite !elem_of_cons, X.
    rewrite (taken_inserted _ _ _ _ x F1 Hdis), (taken_inserted _ _ _ _ x B1 Hdis). tauto.
Qed.
