(* ===== verification/PlanTree.v ===== *)
(** * PlanTree: operators of a plan as a tree

    Operators are told apart by their address.  When the addresses of a plan
    are distinct, two operators of it are apart or one is below the other, and
    each has one parent. *)

From S2P Require Import Prelude BloomFilter LogicalPlan NodesManager Dag TransferOptimizer TransferInsert.
Local Open Scope Z_scope.
Local Open Scope machine_scope.

Lemma infos_child i cs c t : c ∈ cs → t ∈ infos c → t ∈ infos (Op i cs).
Proof.
  intros Hc Ht. simpl. right. apply list_elem_of_In, in_concat. exists (infos c). split; [by apply in_map, list_elem_of_In|by apply list_elem_of_In].
Qed.

Lemma infos_children t i cs : t ∈ infos (Op i cs) → t = i ∨ ∃ c, c ∈ cs ∧ t ∈ infos c.
Proof.
  simpl. intros [->|Ht]%elem_of_cons; [by left|right]. apply list_elem_of_In, in_concat in Ht as (l & Hl & Ht).
  apply in_map_iff in Hl as (c & <- & Hc). exists c. split; by apply list_elem_of_In.
Qed.

Lemma suboperators_cases x i cs : x ∈ suboperators (Op i cs) → x = Op i cs ∨ ∃ c, c ∈ cs ∧ x ∈ suboperators c.
Proof.
  simpl. intros [->|Ht]%elem_of_cons; [by left|right]. apply list_elem_of_In, in_concat in Ht as (l & Hl & Ht).
  apply in_map_iff in Hl as (c & <- & Hc). exists c. split; by apply list_elem_of_In.
Qed.

Lemma NoDup_concat_elem {A} (ls : list (list A)) l : NoDup (concat ls) → l ∈ ls → NoDup l.
Proof.
  induction ls as [|l' ls IH]; [set_solver|]. simpl. intros (H1 & _ & H2)%NoDup_app [->|Hl]%elem_of_cons; auto.
Qed.

Lemma sub_address_inj plan x y : NoDup (addresses plan) → x ∈ suboperators plan → y ∈ suboperators plan → address x = address y → x = y.
Proof.
  intros Hn Hx Hy E. apply list_elem_of_lookup in Hx as [n Hx]. apply list_elem_of_lookup in Hy as [k Hy].
  assert (n = k) as ->; [|congruence]. unfold addresses in Hn.
  eapply NoDup_lookup; [exact Hn|..]; rewrite list_lookup_fmap; [by rewrite Hx|rewrite Hy; simpl; by rewrite E].
Qed.

(** A child of an operator is not the operator. *)
Lemma child_strict plan i cs c x : NoDup (addresses plan) → Op i cs ∈ suboperators plan → c ∈ cs → x ∈ suboperators c → address x ≠ i.(ptr).
Proof.
  intros Hn. revert x. induction plan as [j ds IH] using LogicalOperator_nested_ind. intros x Hop Hc Hx Hadr.
  rewrite addresses_cons in Hn. apply NoDup_cons in Hn as [Hj Hn]. apply suboperators_cases in Hop as [[= -> ->]|(d & Hd & Hop)].
  - apply Hj. rewrite <- Hadr. apply list_elem_of_In, in_concat. exists (addresses c).
    split; [by apply in_map, list_elem_of_In|]. by apply list_elem_of_In, list_elem_of_fmap_2.
  - rewrite Forall_forall in IH. apply (IH d Hd) with x; try done.
    eapply NoDup_concat_elem; [exact Hn|]. apply list_elem_of_In, in_map. by apply list_elem_of_In.
Qed.

Lemma children_disjoint {A B} (f : A → list B) (cs : list A) c d x :
  NoDup (concat (map f cs)) → c ∈ cs → d ∈ cs → x ∈ f c → x ∈ f d → c = d.
Proof.
  intros Hn. induction cs as [|e cs IH]; [by intros ?%elem_of_nil|]. simpl in Hn. apply NoDup_app in Hn as (_ & Hd & Hn).
  assert (∀ c', c' ∈ cs → x ∈ f c' → x ∈ concat (map f cs)) as Hin.
  { intros c' Hc' Hx. apply list_elem_of_In, in_concat. exists (f c'). split; [by apply in_map, list_elem_of_In|by apply list_elem_of_In]. }
  intros [->|Hc]%elem_of_cons [->|Hd']%elem_of_cons Hx Hy; [done|..|by apply IH]; exfalso; eapply Hd; eauto.
Qed.

Lemma address_in op : address op ∈ addresses op.
Proof. apply list_elem_of_fmap_2, suboperators_self. Qed.

Lemma addresses_sub c op a : c ∈ suboperators op → a ∈ addresses c → a ∈ addresses op.
Proof.
  intros Hc (x & -> & Hx)%list_elem_of_fmap. apply list_elem_of_fmap_2. by eapply suboperators_trans.
Qed.

Lemma addresses_cases a i cs : a ∈ addresses (Op i cs) → a = i.(ptr) ∨ ∃ c, c ∈ cs ∧ a ∈ addresses c.
Proof.
  intros (x & -> & [->|(c & Hc & Hx)]%suboperators_cases)%list_elem_of_fmap; [by left|]. right. exists c. split; [done|by apply list_elem_of_fmap_2].
Qed.

(** What is below an operator is the operator or below a child of something below it. *)
Lemma sub_parent x c : x ∈ suboperators c → x = c ∨ ∃ p, p ∈ suboperators c ∧ x ∈ children p.
Proof.
  induction c as [i cs IH] using LogicalOperator_nested_ind. intros [->|(d & Hd & Hx)]%suboperators_cases; [by left|right].
  rewrite Forall_forall in IH. destruct (IH d Hd Hx) as [->|(p & Hp & Hxp)]; [exists (Op i cs); split; [apply suboperators_self|done]|].
  exists p. split; [|done]. by apply (suboperators_child (Op i cs) d).
Qed.

Lemma addresses_sub_nodup c op : NoDup (addresses op) → c ∈ suboperators op → NoDup (addresses c).
Proof.
  induction op as [i cs IH] using LogicalOperator_nested_ind. intros Hn [->|(d & Hd & Hc)]%suboperators_cases; [done|].
  rewrite Forall_forall in IH. apply (IH d Hd); [|done]. rewrite addresses_cons in Hn. apply NoDup_cons in Hn as [_ Hn].
  eapply NoDup_concat_elem; [exact Hn|]. by apply list_elem_of_In, in_map, list_elem_of_In.
Qed.

Lemma addresses_children_nodup i cs op : NoDup (addresses op) → Op i cs ∈ suboperators op → NoDup (concat (map addresses cs)).
Proof. intros Hn Hop. pose proof (addresses_sub_nodup _ _ Hn Hop) as H. rewrite addresses_cons in H. by apply NoDup_cons in H as [_ ?]. Qed.

Section Tree.
  Context (plan : LogicalOperator) (Hn : NoDup (addresses plan)).

Lemma addresses_sub_op a c : c ∈ suboperators plan → a ∈ addresses c → ∀ x, x ∈ suboperators plan → address x = a → x ∈ suboperators c.
Proof.
  intros Hc (y & -> & Hy)%list_elem_of_fmap x Hx Hxy. rewrite (sub_address_inj plan x y); try done. exact (suboperators_trans plan c y Hc Hy).
Qed.

(** Operators that share something are one below the other. *)
Lemma nested c d a :
  c ∈ suboperators plan → d ∈ suboperators plan → a ∈ addresses c → a ∈ addresses d → c ∈ suboperators d ∨ d ∈ suboperators c.
Proof.
  clear -Hn. induction plan as [i cs IH] using LogicalOperator_nested_ind. intros Hc Hd Ha Hb.
  pose proof Hc as [->|(c' & Hc' & Hcc)]%suboperators_cases; [by right|]. pose proof Hd as [->|(d' & Hd' & Hdd)]%suboperators_cases; [by left|].
  rewrite addresses_cons in Hn. apply NoDup_cons in Hn as [_ Hn'].
  assert (c' = d') as <-.
  { apply (children_disjoint addresses cs c' d' a Hn' Hc' Hd'); [exact (addresses_sub c c' a Hcc Ha)|exact (addresses_sub d d' a Hdd Hb)]. }
  rewrite Forall_forall in IH. apply (IH c' Hc'); try done.
  eapply NoDup_concat_elem; [exact Hn'|]. by apply list_elem_of_In, in_map, list_elem_of_In.
Qed.

Lemma child_not_above p x : p ∈ suboperators plan → x ∈ children p → p ∉ suboperators x.
Proof. destruct p as [i cs]. intros Hp Hx Hin. exact (child_strict plan i cs x (Op i cs) Hn Hp Hx Hin eq_refl). Qed.

Lemma parent_unique p q x : p ∈ suboperators plan → q ∈ suboperators plan → x ∈ children p → x ∈ children q → p = q.
Proof.
  intros Hp Hq Hxp Hxq. assert (∀ r, x ∈ children r → address x ∈ addresses r) as Hin.
  { intros r Hr. apply (addresses_sub x); [|apply address_in]. by eapply suboperators_child; [|apply suboperators_self]. }
  assert (∀ r r', r ∈ suboperators plan → r' ∈ suboperators plan → x ∈ children r → x ∈ children r' → r ∈ suboperators r' → r = r') as Hone.
  { intros [i cs] [j ds] Hr Hr' Hxr Hxr' [E|(c & Hc & Hin')]%suboperators_cases; [done|]. exfalso.
    assert (c = x) as ->.
    { apply (children_disjoint addresses ds c x (address x) (addresses_children_nodup _ _ _ Hn Hr')); try done; [|apply address_in].
      apply (addresses_sub (Op i cs)); [done|]. by apply Hin. }
    by apply (child_not_above (Op i cs) x). }
  destruct (nested p q (address x)) as [H|H]; auto. symmetry. auto.
Qed.
End Tree.
