(* ===== verification/TransferPasses.v ===== *)
(** * TransferPasses: the passes over the transfer graph

    What the forward and the backward pass of [Optimize] leave behind: each
    table's operators create one filter for each edge out of it, and use the
    filters on the edges into it, each of which another table creates. *)

From S2P Require Import Prelude BloomFilter LogicalPlan NodesManager Dag DagOrder DagDirections DagBuild TransferOptimizer TransferInsert.
Local Open Scope Z_scope.
Local Open Scope machine_scope.

(** ** Columns of a filter *)

(** The columns of a condition between [a], where the filter is built, and [b]. *)
Definition cond_columns (nm : NodesManager) (a b : Z) (cond : Expression) (p : ColumnBinding * ColumnBinding) : Prop :=
  ∃ c0 c1 b0 b1, GetColumnBindingExpression cond = [c0; c1] ∧ FindRename nm c0 = Ret b0 ∧ FindRename nm c1 = Ret b1 ∧
    ((p = (b0, b1) ∧ b0.(table_index) = a ∧ b1.(table_index) = b) ∨ (p = (b1, b0) ∧ b1.(table_index) = a ∧ b0.(table_index) = b)).

(** [f] is built on the columns of [a] and applied to those of [b] the conditions equate. *)
Definition filter_for (nm : NodesManager) (a b : Z) (conds : list Expression) (f : BlockedBloomFilter) : Prop :=
  ∃ cols, f.(column_bindings_built_) = cols.*1 ∧ f.(column_bindings_applied_) = cols.*2 ∧ Forall2 (cond_columns nm a b) conds cols.

Lemma default_not_renamed rank nm : ranked rank nm.(rename_cols) → FindRename nm default_binding = Ret default_binding.
Proof.
  intros Hr. unfold FindRename. destruct (rename_cols nm !! default_binding) as [b|] eqn:E.
  - by apply Hr in E as [_ ?].
  - destruct (size (rename_cols nm)); simpl; by rewrite E.
Qed.

Lemma node_column rank nm e b op :
  ranked rank nm.(rename_cols) → nodes_ok nm.(nodes) → FindRename nm (column_of e) = Ret b →
  nm.(nodes) !! b.(table_index) = Some op → GetColumnBindingExpression e = [ebinding e] ∧ FindRename nm (ebinding e) = Ret b.
Proof.
  intros Hr Hn. unfold column_of. case_decide as Ht.
  - intros E _. split; [|done]. destruct e as [t c bd es]. simpl in *. by rewrite decide_True.
  - rewrite (default_not_renamed rank) by done. intros [= <-] Hop. apply (nodes_small _ Hn) in Hop. simpl in Hop.
    unfold INVALID_INDEX in Hop. lia.
Qed.

Lemma edge_cond_columns rank nm joins e lt rt j cond L R :
  ranked rank nm.(rename_cols) → nodes_ok nm.(nodes) → edge_cond nm joins e lt rt j cond L R →
  ∃ bl br, bl.(table_index) = lt ∧ br.(table_index) = rt ∧
    cond_columns nm lt rt e.(edge_filter) (bl, br) ∧ cond_columns nm rt lt e.(edge_filter) (br, bl).
Proof.
  intros Hr Hn [_ _ _ (bl & El & Hl) (br & Er & Hrt) HL HR (x & y & Hi)]. exists bl, br. split_and!; [done|done|..];
    apply edge_info_ends in Hi as [Hf _]; rewrite Hf; subst lt rt;
    destruct (node_column rank nm _ _ _ Hr Hn El HL) as [Cl Fl], (node_column rank nm _ _ _ Hr Hn Er HR) as [Cr Fr];
    exists (ebinding (cond.(left))), (ebinding (cond.(right))), bl, br; (split; [simpl; by rewrite Cl, Cr|]); auto 6.
Qed.

Lemma built_columns rank nm joins E0 pl es m a b w f :
  ranked rank nm.(rename_cols) → nodes_ok nm.(nodes) → built nm joins E0 pl es m →
  f ∈ sent (prio_of pl) es a b w → ∃ p, cond_columns nm a b f p.
Proof.
  intros Hr Hn Hm Hf. apply list_elem_of_fmap in Hf as (e & -> & [Hs He]%list_elem_of_filter).
  pose proof (b_tables _ _ _ _ _ _ Hm) as Ht. rewrite Forall_forall in Ht. destruct (Ht e He) as [_ [key Hkey]].
  destruct (sends_protected _ _ _ _ _ _ _ _ Hn Hkey Hs) as (lt & rt & j & cond & L & R & Hc & Hside).
  destruct (edge_cond_columns rank _ _ _ _ _ _ _ _ _ Hr Hn Hc) as (bl & br & _ & _ & H1 & H2).
  destruct Hside as [[[= -> ->] _]|[[= -> ->] _]]; eauto.
Qed.

(** ** Filters created *)

Section Create.
  Context (nm : NodesManager).

Lemma add_columns_ok a b cond f p :
  a ≠ b → cond_columns nm a b cond p →
  add_columns nm a f cond = Ret (AddColumnBindingBuilt p.1 (AddColumnBindingApplied p.2 f)).
Proof.
  intros Hab (c0 & c1 & b0 & b1 & E & E0 & E1 & Hp). unfold add_columns. rewrite E. orun. simpl. rewrite E0. orun.
  rewrite E1. orun. destruct Hp as [(-> & H0 & H1)|(-> & H1 & H0)].
  - by rewrite H0, Z.eqb_refl.
  - assert ((table_index b0 =? a) = false) as -> by (apply Z.eqb_neq; congruence). by rewrite H1, Z.eqb_refl.
Qed.

Lemma add_columns_all a b conds f cols0 conds0 :
  a ≠ b → f.(Used_) = false → f.(column_bindings_built_) = cols0.*1 → f.(column_bindings_applied_) = cols0.*2 →
  Forall2 (cond_columns nm a b) conds0 cols0 → Forall (λ c, ∃ p, cond_columns nm a b c p) conds →
  ∃ f', ofold (add_columns nm a) conds f = Ret f' ∧ filter_for nm a b (conds0 ++ conds) f' ∧ f'.(Used_) = false.
Proof.
  intros Hab. revert f cols0 conds0. induction conds as [|c conds IH]; intros f cols0 conds0 Hu Hb Ha H0 Hc.
  { exists f. rewrite app_nil_r. split_and!; [done|by exists cols0|done]. }
  apply Forall_cons in Hc as [[p Hp] Hc]. simpl. rewrite (add_columns_ok a b c f p) by done. orun.
  rewrite cons_middle, app_assoc. apply (IH _ (cols0 ++ [p])); simpl; try done.
  - by rewrite Hb, fmap_app.
  - by rewrite Ha, fmap_app.
  - apply Forall2_app; [done|]. by constructor.
Qed.

Lemma create_filter_ok a e (reverse : bool) h :
  a ≠ e.(dest_) → e.(filters) ≠ [] → Forall (λ c, ∃ p, cond_columns nm a e.(dest_) c p) e.(filters) →
  ∃ f, create_filter nm a reverse h e = Ret (h ++ [f]) ∧ filter_for nm a e.(dest_) e.(filters) f ∧ f.(Used_) = false.
Proof.
  intros Hne Hf Hc. unfold create_filter.
  destruct (add_columns_all a e.(dest_) e.(filters) new_filter [] []) as (f & E & Hff & Hu); try done.
  rewrite E. orun. exists f. rewrite bool_decide_false; [done|]. destruct Hff as (cols & -> & _ & H2).
  apply Forall2_length in H2. simpl in H2. destruct cols; [by destruct (filters e)|done].
Qed.

Lemma GetAllBFCreate_ok a n (reverse : bool) h es :
  es = (if reverse then n.(backward_out_) else n.(forward_out_)) →
  Forall (λ e, a ≠ e.(dest_) ∧ e.(filters) ≠ [] ∧ Forall (λ c, ∃ p, cond_columns nm a e.(dest_) c p) e.(filters)) es →
  ∃ fs, GetAllBFCreate nm a n reverse h = Ret (h ++ fs, seq (length h) (length es)) ∧
    Forall2 (λ e f, filter_for nm a e.(dest_) e.(filters) f ∧ f.(Used_) = false) es fs.
Proof.
  intros -> Hes. unfold GetAllBFCreate.
  assert (∀ es h, Forall (λ e, a ≠ e.(dest_) ∧ e.(filters) ≠ [] ∧ Forall (λ c, ∃ p, cond_columns nm a e.(dest_) c p) e.(filters)) es →
    ∃ fs, ofold (create_filter nm a reverse) es h = Ret (h ++ fs) ∧
      Forall2 (λ e f, filter_for nm a e.(dest_) e.(filters) f ∧ f.(Used_) = false) es fs) as Hloop.
  { clear. induction es as [|e es IH]; intros h Hes; [exists []; by rewrite app_nil_r|].
    apply Forall_cons in Hes as [(H1 & H2 & H3) Hes].
    destruct (create_filter_ok a e reverse h H1 H2 H3) as (f & E & Hf). simpl. rewrite E. orun.
    destruct (IH (h ++ [f]) Hes) as (fs & E' & Hfs). exists (f :: fs). rewrite E', <- app_assoc. auto. }
  destruct (Hloop _ h Hes) as (fs & E & Hfs). rewrite E. orun. exists fs. split; [|done].
  rewrite length_app. apply Forall2_length in Hfs. rewrite Hfs. do 3 f_equal. lia.
Qed.
End Create.

(** ** Filters used *)

(** Every edge carries one filter that nobody uses yet. *)
Definition carries (h : list BlockedBloomFilter) (e : DAGEdge) (x : nat) : Prop :=
  e.(bloom_filters) = [x] ∧ ∃ f, h !! x = Some f ∧ f.(Used_) = false.

Definition mark_used (xs : list nat) (h h' : list BlockedBloomFilter) : Prop :=
  length h' = length h ∧ ∀ y, h' !! y = if decide (y ∈ xs) then setUsed <$> h !! y else h !! y.

Lemma use_edges_ok es xs h us :
  Forall2 (carries h) es xs → NoDup xs →
  ∃ h', ofold use_edge es (h, us) = Ret (h', us ++ zip xs (dest_ <$> es)) ∧ mark_used xs h h'.
Proof.
  intros Hes. revert us. revert h Hes. revert xs. induction es as [|e es IH]; intros xs h Hes us Hn.
  { apply Forall2_nil_inv_l in Hes as ->. exists h. rewrite app_nil_r. split; [done|]. split; [done|]. by intros y. }
  apply Forall2_cons_inv_l in Hes as (x & xs' & (Hb & f & Hf & Hu) & Hes & ->). apply NoDup_cons in Hn as [Hx Hn].
  simpl. unfold use_edge at 1. rewrite Hb. simpl. unfold use_filter. simpl. rewrite Hf. orun. rewrite Hu. orun.
  destruct (IH xs' (<[x := setUsed f]> h)) with (us := us ++ [(x, e.(dest_))]) as (h' & E & Hlen & Hh'); [|done|].
  { apply Forall2_same_length_lookup_2; [by eapply Forall2_length|]. intros k e' x' Hk Hk'.
    destruct (Forall2_lookup_lr _ _ _ _ _ _ Hes Hk Hk') as (Hb' & f' & Hf' & Hu'). split; [done|]. exists f'.
    rewrite list_lookup_insert_ne; [done|]. intros ->. apply Hx. by eapply list_elem_of_lookup_2. }
  exists h'. rewrite E, <- app_assoc. split; [done|]. split; [by rewrite Hlen, length_insert|].
  intros y. rewrite Hh'. destruct (decide (y = x)) as [->|Hyx].
  - rewrite decide_False by done. rewrite decide_True by left. rewrite list_lookup_insert_eq by (by eapply lookup_lt_Some). by rewrite Hf.
  - rewrite list_lookup_insert_ne by done. apply decide_ext. set_solver.
Qed.

(** ** Operators made *)

(** [t] is a [LogicalUseBF] of filter [u.1], which an operator above table [u.2] creates. *)
Definition uses_filter (nm : NodesManager) (M : rmap) (u : nat * Z) (t : op_info) : Prop :=
  t.(otype) = LOGICAL_USE_BF ∧ t.(filters_of) = [u.1] ∧
  ∃ op entry, nm.(nodes) !! u.2 = Some op ∧ M !! address op = Some (Some entry) ∧ type entry = LOGICAL_CREATE_BF ∧
              t.(related_create_bf) = [address entry] ∧ u.1 ∈ (info entry).(filters_of).

Definition usable (nm : NodesManager) (M : rmap) (u : nat * Z) : Prop :=
  ∃ op entry, nm.(nodes) !! u.2 = Some op ∧ M !! address op = Some (Some entry) ∧ type entry = LOGICAL_CREATE_BF ∧
              u.1 ∈ (info entry).(filters_of).

Definition opt_infos (op : option LogicalOperator) : list op_info := match op with Some op => infos op | None => [] end.

(** The filters operators use, and those they create. *)
Definition used_filters (ts : list op_info) : list nat := concat (filters_of <$> base.filter (λ t, t.(otype) = LOGICAL_USE_BF) ts).

Definition created_filters (ts : list op_info) : list nat := concat (filters_of <$> base.filter (λ t, t.(otype) = LOGICAL_CREATE_BF) ts).

Definition filters_once (op : LogicalOperator) : Prop := NoDup (used_filters (infos op)) ∧ NoDup (created_filters (infos op)).

(** The chain of uses: one operator for each filter. *)
Record use_chain (nm : NodesManager) (M : rmap) (us : list (nat * Z)) (pre : option LogicalOperator) : Prop := {
  uc_chain : ∀ op, pre = Some op → chain op;
  uc_some : us ≠ [] → is_Some pre;
  uc_only : Forall (λ t, ∃ u, u ∈ us ∧ uses_filter nm M u t) (opt_infos pre);
  uc_all : Forall (λ u, ∃ t, t ∈ opt_infos pre ∧ uses_filter nm M u t) us;
  uc_used : used_filters (opt_infos pre) ≡ₚ us.*1;
  uc_created : created_filters (opt_infos pre) = []
}.

Lemma build_use_chain nm M card us u pre next :
  use_chain nm M us pre → usable nm M u →
  ∃ pre' next', build_use nm M card (pre, next) u = Ret (pre', next') ∧ use_chain nm M (us ++ [u]) pre'.
Proof.
  intros [Hc Hs Ho Ha Hus Hcr] (op & entry & Hop & He & Ht & Hx). unfold build_use, getNode. rewrite Hop. orun. rewrite He. orun.
  rewrite decide_True by done. simpl.
  set (new := LogicalUseBF next card [u.1] [address entry] (match pre with Some p => [p] | None => [] end)).
  assert (infos new = info new :: opt_infos pre) as Hnew by (destruct pre; simpl; by rewrite ?app_nil_r).
  assert (uses_filter nm M u (info new)) as Hu by (split_and!; [done|done|eauto 8]).
  eexists _, _. split; [done|]. split.
  - intros ? [= <-]. simpl. split; [done|]. destruct pre; [by apply Hc|done].
  - eauto.
  - change (opt_infos (Some new)) with (infos new). rewrite Hnew. constructor; [exists u; set_solver|].
    eapply Forall_impl; [exact Ho|]. intros t (u' & Hu' & ?). exists u'. set_solver.
  - change (opt_infos (Some new)) with (infos new). rewrite Hnew. apply Forall_app. split.
    + eapply Forall_impl; [exact Ha|]. intros u' (t & Ht' & ?). exists t. set_solver.
    + constructor; [exists (info new); set_solver|constructor].
  - change (opt_infos (Some new)) with (infos new). rewrite Hnew. unfold used_filters in *. rewrite filter_cons_True by done. csimpl.
    rewrite Hus, fmap_app. csimpl. solve_Permutation.
  - change (opt_infos (Some new)) with (infos new). rewrite Hnew. unfold created_filters in *. by rewrite filter_cons_False.
Qed.

Lemma BuildUseOperator_ok nm M node us next :
  Forall (usable nm M) us →
  ∃ pre next', BuildUseOperator nm M node us next = Ret (pre, next') ∧ use_chain nm M us pre.
Proof.
  intros Hus. unfold BuildUseOperator.
  destruct (ofold_prefix (λ us st, use_chain nm M us st.1) (build_use nm M (cardinality node)) (reverse us) (None, next))
    as ([pre next'] & E & [Hc Hs Ho Ha Hus' Hcr]).
  - split; simpl; [done|done|constructor|constructor|done|done].
  - intros pre u [op n] (post & Hl) Hinv. destruct (build_use_chain nm M (cardinality node) pre u op n) as (p' & n' & E & H); [done| |].
    + rewrite Forall_forall in Hus. apply Hus. rewrite <- elem_of_reverse, Hl. set_solver.
    + exists (p', n'). done.
  - exists pre, next'. split; [done|]. split; [done| | | |simpl in Hus'; by rewrite Hus', fmap_reverse, reverse_Permutation|done].
    + intros Hne. apply Hs. intros Hr. apply Hne. apply (f_equal reverse) in Hr. by rewrite reverse_involutive in Hr.
    + eapply Forall_impl; [exact Ho|]. intros t (u & Hu & ?). exists u. by rewrite elem_of_reverse in Hu.
    + rewrite Forall_forall in Ha |- *. intros u Hu. apply Ha. by rewrite elem_of_reverse.
Qed.

(** The operators above a table: one that creates the filters [bfs], if any,
    over the ones that use the filters [us]. *)
Record table_entry (nm : NodesManager) (M : rmap) (us : list (nat * Z)) (bfs : list nat) (op : LogicalOperator) : Prop := {
  te_chain : chain op;
  te_create : bfs ≠ [] → type op = LOGICAL_CREATE_BF ∧ (info op).(filters_of) = bfs;
  te_only : Forall (λ t, (t.(otype) = LOGICAL_CREATE_BF ∧ t.(filters_of) = bfs) ∨ ∃ u, u ∈ us ∧ uses_filter nm M u t) (infos op);
  te_all : Forall (λ u, ∃ t, t ∈ infos op ∧ uses_filter nm M u t) us;
  te_used : used_filters (infos op) ≡ₚ us.*1;
  te_created : created_filters (infos op) = bfs
}.

Lemma create_above nm M us bfs pre addr card :
  use_chain nm M us pre → table_entry nm M us bfs (LogicalCreateBF addr card bfs (match pre with Some p => [p] | None => [] end)).
Proof.
  intros [Hc Hs Ho Ha Hus Hcr]. set (new := LogicalCreateBF _ _ _ _).
  assert (infos new = info new :: opt_infos pre) as Hnew by (destruct pre; simpl; by rewrite ?app_nil_r).
  split.
  - simpl. split; [done|]. destruct pre; [by apply Hc|done].
  - done.
  - rewrite Hnew. constructor; [by left|]. eapply Forall_impl; [exact Ho|]. intros t ?. by right.
  - rewrite Hnew. eapply Forall_impl; [exact Ha|]. intros u (t & ? & ?). exists t. set_solver.
  - rewrite Hnew. unfold used_filters in *. by rewrite filter_cons_False.
  - rewrite Hnew. unfold created_filters in *. rewrite filter_cons_True by done. csimpl. by rewrite Hcr, app_nil_r.
Qed.

Lemma uses_alone nm M us op : use_chain nm M us (Some op) → table_entry nm M us [] op.
Proof.
  intros [Hc Hs Ho Ha Hus Hcr]. split; [by apply Hc|done| |done|done|done]. eapply Forall_impl; [exact Ho|]. intros t ?. by right.
Qed.

Lemma replace_map_other reverse addr op o : replace_map (negb reverse) (set_replace reverse addr op o) = replace_map (negb reverse) o.
Proof. by destruct reverse. Qed.

Lemma replace_map_set reverse addr op o : replace_map reverse (set_replace reverse addr op o) = <[addr := Some op]> (replace_map reverse o).
Proof. by destruct reverse. Qed.

(** ** One table *)

(** What [CreateBloomFilter] does for table [i]. *)
Record table_step (nm : NodesManager) (reverse : bool) (addr : Z) (us : list (nat * Z)) (bfs xs : list nat) (fs : list BlockedBloomFilter)
    (o o' : PredicateTransferOptimizer) : Prop := {
  ts_manager : o'.(dag_manager) = o.(dag_manager);
  ts_heap : ∃ h1, mark_used xs o.(heap) h1 ∧ o'.(heap) = h1 ++ fs;
  ts_other : replace_map (negb reverse) o' = replace_map (negb reverse) o;
  ts_entry : (us = [] ∧ bfs = [] ∧ replace_map reverse o' = replace_map reverse o) ∨
    ∃ op, replace_map reverse o' = <[addr := Some op]> (replace_map reverse o) ∧ table_entry nm (replace_map reverse o) us bfs op
}.

Lemma CreateBloomFilter_ok o node i n (w : bool) xs :
  GetNodeId node = Ret i → 0 ≤ i < 2 ^ 31 → o.(dag_manager).(dag) !! i = Some n →
  Forall2 (carries o.(heap)) (ins w n) xs → NoDup xs →
  Forall (usable o.(dag_manager).(nodes_manager) (replace_map (negb w) o)) (zip xs (dest_ <$> ins w n)) →
  Forall (λ e, i ≠ e.(dest_) ∧ e.(filters) ≠ [] ∧
    Forall (λ c, ∃ p, cond_columns o.(dag_manager).(nodes_manager) i e.(dest_) c p) e.(filters)) (outs w n) →
  ∃ fs o', CreateBloomFilter node (negb w) o = Ret ((λ f, (i, f)) <$> seq (length o.(heap)) (length (outs w n)), o') ∧
    Forall2 (λ e f, filter_for o.(dag_manager).(nodes_manager) i e.(dest_) e.(filters) f ∧ f.(Used_) = false) (outs w n) fs ∧
    table_step o.(dag_manager).(nodes_manager) (negb w) (address node) (zip xs (dest_ <$> ins w n))
      (seq (length o.(heap)) (length (outs w n))) xs fs o o'.
Proof.
  intros Hid Hi Hn Hin Hnd Hus Hout. unfold CreateBloomFilter. rewrite Hid. orun. rewrite to_int_id, Hn by done.
  set (nm := nodes_manager (dag_manager o)) in *. set (us := zip xs (dest_ <$> ins w n)) in *.
  destruct (use_edges_ok (ins w n) xs o.(heap) [] Hin Hnd) as (h1 & E1 & Hused).
  assert (GetAllBFUsed n (negb w) o.(heap) = Ret (h1, us)) as -> by (unfold GetAllBFUsed; by destruct w). orun.
  destruct (GetAllBFCreate_ok nm i n (negb w) h1 (outs w n)) as (fs & E2 & Hfs); [by destruct w|done|].
  cbn [fst snd]. rewrite E2. orun. cbn [fst snd]. destruct Hused as [Hlen Hh1]. rewrite Hlen.
  set (bfs := seq (length o.(heap)) (length (outs w n))) in *. exists fs.
  set (o1 := mkOptimizer o.(dag_manager) (h1 ++ fs) o.(replace_map_forward) o.(replace_map_backward) o.(next_address)).
  assert (∀ next op, table_entry nm (replace_map (negb w) o) us bfs op →
    table_step nm (negb w) (address node) us bfs xs fs o (set_replace (negb w) (address node) op
      (mkOptimizer o.(dag_manager) (h1 ++ fs) o.(replace_map_forward) o.(replace_map_backward) next))) as Hstep.
  { intros next op Hop. split; [by destruct w|exists h1; split; [done|by destruct w]|by destruct w|].
    right. exists op. split; [by destruct w|done]. }
  destruct us as [|u us'] eqn:Eus.
  - destruct bfs as [|b bfs'] eqn:Ebfs.
    + eexists. split; [done|]. split; [done|]. split; [done|by exists h1|by destruct w|left; by destruct w].
    + simpl. eexists. split; [done|]. split; [done|]. apply Hstep, (create_above nm _ [] (b :: bfs') None).
      split; [done|done|constructor|constructor|done|done].
  - assert (replace_map (negb w) o1 = replace_map (negb w) o) as Hmap by (by destruct w).
    destruct (BuildUseOperator_ok nm (replace_map (negb w) o) node (u :: us') o.(next_address) Hus) as (pre & next & E3 & Hch).
    destruct (uc_some _ _ _ _ Hch) as [p ->]; [done|].
    destruct bfs as [|b bfs'] eqn:Ebfs.
    + rewrite Hmap. change (next_address o1) with (next_address o). rewrite E3. orun. eexists. split; [done|]. split; [done|].
      apply Hstep. by apply uses_alone.
    + rewrite Hmap. change (next_address o1) with (next_address o). unfold BuildCreateUsePair. rewrite E3. orun. eexists. split; [done|].
      split; [done|]. apply Hstep. by apply (create_above nm _ _ _ (Some p)).
Qed.

(** Handing the filters of table [i] to the tables they go to. *)
Lemma add_filters_ok i (w : bool) es xs o :
  NoDup (dest_ <$> es) →
  Forall2 (λ e x, 0 ≤ e.(dest_) < 2 ^ 31 ∧ is_Some (o.(dag_manager).(dag) !! e.(dest_)) ∧
    ∃ f b bs, o.(heap) !! x = Some f ∧ f.(column_bindings_applied_) = b :: bs ∧ b.(table_index) = e.(dest_)) es xs →
  ∃ d, ofold (add_filter (negb w)) ((λ x, (i, x)) <$> xs) o = Ret (with_dag_manager (with_dag d o.(dag_manager)) o) ∧
    Forall2 (λ e x, d !! e.(dest_) = add_in (push_bf x) i w <$> o.(dag_manager).(dag) !! e.(dest_)) es xs ∧
    ∀ b, b ∉ dest_ <$> es → d !! b = o.(dag_manager).(dag) !! b.
Proof.
  revert xs o. induction es as [|e es IH]; intros xs o Hn Hes.
  { apply Forall2_nil_inv_l in Hes as ->. exists o.(dag_manager).(dag). split_and!; [by destruct o as [[] ? ? ? ?]|done|done]. }
  apply Forall2_cons_inv_l in Hes as (x & xs' & (Hr & [n Hdn] & f & b & bs & Hf & Ha & Hb) & Hes & ->).
  csimpl in Hn. apply NoDup_cons in Hn as [He Hn].
  csimpl. unfold add_filter at 1. simpl. rewrite Hf. orun. unfold Add. rewrite Ha. unfold vec_at. simpl.
  rewrite Hb, to_int_id, Hdn by done. orun. rewrite negb_involutive.
  set (o1 := with_dag_manager _ o).
  destruct (IH xs' o1) as (d & E & Hd1 & Hd2); [done| |].
  { eapply Forall2_impl; [exact Hes|]. intros e' x' (Hr' & Hs' & Hx'). split; [done|]. split; [|exact Hx']. simpl.
    destruct (decide (e.(dest_) = e'.(dest_))) as [<-|]; [rewrite lookup_insert_eq; eauto|by rewrite lookup_insert_ne]. }
  exists d. split; [exact E|]. split.
  - constructor; [rewrite Hd2, Hdn by done; simpl; by rewrite lookup_insert_eq|].
    apply Forall2_same_length_lookup_2; [by eapply Forall2_length|]. intros k e' x' Hk Hk'.
    rewrite (Forall2_lookup_lr _ _ _ _ _ _ Hd1 Hk Hk'). simpl. rewrite lookup_insert_ne; [done|].
    intros Heq. apply He. rewrite Heq. apply list_elem_of_fmap_2. by eapply list_elem_of_lookup_2.
  - intros b' Hb'. rewrite Hd2 by set_solver. simpl. rewrite lookup_insert_ne; [done|]. set_solver.
Qed.

(** Pushing a filter on the edge from table [i]. *)
Lemma push_bf_edges i x es ed :
  NoDup (dest_ <$> es) → i ∈ dest_ <$> es → ed ∈ push_edge (push_bf x) i es →
  ∃ ed0, ed0 ∈ es ∧ ed.(dest_) = ed0.(dest_) ∧ ed.(bloom_filters) = ed0.(bloom_filters) ++ (if decide (ed.(dest_) = i) then [x] else []).
Proof.
  induction es as [|e es IH]; csimpl; [set_solver|]. intros [He Hn]%NoDup_cons Hi.
  destruct (decide (e.(dest_) = i)) as [<-|Hne]; intros [->|Hed]%elem_of_cons.
  - exists e. split_and!; [left|done|]. simpl. by rewrite decide_True.
  - exists ed. split_and!; [by right|done|]. rewrite decide_False, app_nil_r; [done|]. intros E. apply He. rewrite <- E. by apply list_elem_of_fmap_2.
  - exists e. split_and!; [left|done|]. by rewrite decide_False, app_nil_r.
  - destruct IH as (ed0 & ? & ? & ?); [done|set_solver|done|]. exists ed0. split_and!; [by right|done|done].
Qed.

(** ** A pass *)

Section Pass.
  Context (nm : NodesManager) (G : flow) (HN : nodes_ok nm.(nodes)).
  Context (HGn : ∀ a b w, G a b w ≠ [] → a ≠ b ∧ is_Some (nm.(nodes) !! a) ∧ is_Some (nm.(nodes) !! b)).
  Context (HGc : ∀ a b w f, f ∈ G a b w → ∃ p, cond_columns nm a b f p).

(** Filter [x] goes from [a] to [i], and an operator above [a] creates it. *)
Definition created (w : bool) (o : PredicateTransferOptimizer) (x : nat) (a i : Z) : Prop :=
  ∃ op entry f, nm.(nodes) !! a = Some op ∧ replace_map (negb w) o !! address op = Some (Some entry) ∧
    type entry = LOGICAL_CREATE_BF ∧ x ∈ (info entry).(filters_of) ∧
    o.(heap) !! x = Some f ∧ filter_for nm a i (G a i w) f.

Record node_shape (i : Z) (n : DAGNode) : Prop := {
  ns_out : ∀ w, edges_hold (λ b, G i b w) (outs w n);
  ns_nodup : ∀ w, NoDup (dest_ <$> ins w n);
  ns_in : ∀ w a, a ∈ dest_ <$> ins w n ↔ G a i w ≠ []
}.

(** The filters of the visited tables [P] wait on the edges into the others. *)
Definition waiting (w : bool) (P : list Z) (o : PredicateTransferOptimizer) : Prop :=
  ∀ i n ed, i ∉ P → o.(dag_manager).(dag) !! i = Some n → is_Some (nm.(nodes) !! i) → ed ∈ ins w n →
  if decide (ed.(dest_) ∈ P)
  then ∃ x, ed.(bloom_filters) = [x] ∧ created w o x ed.(dest_) i ∧ ∃ f, o.(heap) !! x = Some f ∧ f.(Used_) = false
  else ed.(bloom_filters) = [].

(** The operators above table [i]: what they create and what they use. *)
Definition table_ok (w : bool) (o : PredicateTransferOptimizer) (i : Z) (op : LogicalOperator) : Prop :=
  chain op ∧ Forall (λ t,
    (t.(otype) = LOGICAL_CREATE_BF ∧ ∀ x, x ∈ t.(filters_of) → ∃ b, G i b w ≠ [] ∧ ∃ f, o.(heap) !! x = Some f ∧ filter_for nm i b (G i b w) f) ∨
    (∃ x a, G a i w ≠ [] ∧ uses_filter nm (replace_map (negb w) o) (x, a) t ∧ ∃ f, o.(heap) !! x = Some f ∧ filter_for nm a i (G a i w) f)) (infos op).

Definition entries_ok (w : bool) (P : list Z) (o : PredicateTransferOptimizer) : Prop :=
  ∀ addr e, replace_map (negb w) o !! addr = Some e →
  ∃ op i opi, e = Some op ∧ i ∈ P ∧ nm.(nodes) !! i = Some opi ∧ addr = address opi ∧ table_ok w o i op.

(** Every edge into a visited table has given it a filter to use. *)
Definition transferred (w : bool) (P : list Z) (o : PredicateTransferOptimizer) : Prop :=
  ∀ i opi a, i ∈ P → nm.(nodes) !! i = Some opi → G a i w ≠ [] →
  ∃ op t x f, replace_map (negb w) o !! address opi = Some (Some op) ∧ t ∈ infos op ∧
    uses_filter nm (replace_map (negb w) o) (x, a) t ∧ o.(heap) !! x = Some f ∧ filter_for nm a i (G a i w) f.

Record pass_state (w : bool) (P : list Z) (o : PredicateTransferOptimizer) : Prop := {
  ps_manager : o.(dag_manager).(nodes_manager) = nm;
  ps_nodes : ∀ i, is_Some (nm.(nodes) !! i) → ∃ n, o.(dag_manager).(dag) !! i = Some n ∧ node_shape i n;
  ps_waiting : waiting w P o;
  ps_entries : entries_ok w P o;
  ps_transferred : transferred w P o;
  ps_once : ∀ addr op, replace_map (negb w) o !! addr = Some (Some op) → filters_once op
}.

(** ** Growing *)

(** The columns of filters stay, and so do the operators made. *)
Definition heap_le (h h' : list BlockedBloomFilter) : Prop :=
  ∀ x f, h !! x = Some f → ∃ f', h' !! x = Some f' ∧
    f'.(column_bindings_built_) = f.(column_bindings_built_) ∧ f'.(column_bindings_applied_) = f.(column_bindings_applied_).

Definition maps_le (M M' : rmap) : Prop := ∀ addr e, M !! addr = Some e → M' !! addr = Some e.

Lemma filter_for_le a b conds f f' :
  f'.(column_bindings_built_) = f.(column_bindings_built_) → f'.(column_bindings_applied_) = f.(column_bindings_applied_) →
  filter_for nm a b conds f → filter_for nm a b conds f'.
Proof. intros Hb Ha (cols & H1 & H2 & H3). exists cols. by rewrite Hb, Ha. Qed.

Lemma heap_filter_le h h' x a b conds :
  heap_le h h' → (∃ f, h !! x = Some f ∧ filter_for nm a b conds f) → ∃ f, h' !! x = Some f ∧ filter_for nm a b conds f.
Proof. intros Hle (f & Hf & Hff). destruct (Hle x f Hf) as (f' & Hf' & Hb & Ha). exists f'. split; [done|]. by eapply filter_for_le. Qed.

Lemma uses_filter_le M M' u t : maps_le M M' → uses_filter nm M u t → uses_filter nm M' u t.
Proof. intros Hle (H1 & H2 & op & entry & H3 & H4 & H5). split_and!; [done|done|]. exists op, entry. split_and!; [done|by apply Hle|apply H5..]. Qed.

Lemma table_ok_le w o o' i op :
  heap_le o.(heap) o'.(heap) → maps_le (replace_map (negb w) o) (replace_map (negb w) o') → table_ok w o i op → table_ok w o' i op.
Proof.
  intros Hh Hm [Hc Ht]. split; [done|]. eapply Forall_impl; [exact Ht|]. intros t [[H1 H2]|(x & a & H0 & H1 & H2)].
  - left. split; [done|]. intros x Hx. destruct (H2 x Hx) as (b & HG & f & Hf). exists b. split; [done|]. by eapply heap_filter_le; eauto.
  - right. exists x, a. split_and!; [done|by eapply uses_filter_le|]. by eapply heap_filter_le.
Qed.

Lemma entries_le w P o o' :
  heap_le o.(heap) o'.(heap) → replace_map (negb w) o' = replace_map (negb w) o → entries_ok w P o → entries_ok w P o'.
Proof.
  intros Hh Hm He addr e Hae. rewrite Hm in Hae. destruct (He addr e Hae) as (op & i & opi & H1 & H2 & H3 & H4 & H5).
  exists op, i, opi. split_and!; try done. eapply table_ok_le; [done| |done]. rewrite Hm. by intros ? ?.
Qed.

Lemma transferred_le w P o o' :
  heap_le o.(heap) o'.(heap) → maps_le (replace_map (negb w) o) (replace_map (negb w) o') → transferred w P o → transferred w P o'.
Proof.
  intros Hh Hm Ht i opi a Hi Hopi Ha. destruct (Ht i opi a Hi Hopi Ha) as (op & t & x & f & H1 & H2 & H3 & Hf).
  destruct (heap_filter_le _ _ _ _ _ _ Hh (ex_intro _ f Hf)) as (f' & Hf' & Hff').
  exists op, t, x, f'. split_and!; [by apply Hm|done|by eapply uses_filter_le|done|done].
Qed.

(** A filter says where it comes from and where it goes. *)
Lemma filter_for_inj a b a' b' conds conds' f :
  conds ≠ [] → filter_for nm a b conds f → filter_for nm a' b' conds' f → a = a' ∧ b = b'.
Proof.
  intros Hne (cols & B1 & A1 & F1) (cols' & B2 & A2 & F2). rewrite B1 in B2. rewrite A1 in A2.
  destruct F1 as [|c p conds cols Hp _]; [done|]. destruct F2 as [|c' p' conds' cols' Hp' _]; [done|]. csimpl in *.
  injection B2 as E1 _. injection A2 as E2 _. destruct p as [p1 p2], p' as [p1' p2']. simpl in *. subst p1' p2'.
  assert (∀ x y c, cond_columns nm x y c (p1, p2) → table_index p1 = x ∧ table_index p2 = y) as Htab.
  { intros x y c'' (? & ? & ? & ? & _ & _ & _ & [([= -> ->] & ? & ?)|([= -> ->] & ? & ?)]); auto. }
  destruct (Htab _ _ _ Hp), (Htab _ _ _ Hp'). split; congruence.
Qed.

(** ** Visiting a table *)

(** What waits on the edges into the next table. *)
Lemma incoming_ok w P o i n :
  pass_state w P o → i ∉ P → is_Some (nm.(nodes) !! i) → o.(dag_manager).(dag) !! i = Some n → node_shape i n →
  (∀ a, G a i w ≠ [] → a ∈ P) →
  ∃ xs, Forall2 (carries o.(heap)) (ins w n) xs ∧ Forall2 (λ ed x, created w o x ed.(dest_) i) (ins w n) xs ∧ NoDup xs.
Proof.
  intros Ho Hi HiN Hn Hs Hpre.
  assert (∀ ed, ed ∈ ins w n → ∃ x, carries o.(heap) ed x ∧ created w o x ed.(dest_) i) as Hx.
  { intros ed Hed. pose proof (ps_waiting _ _ _ Ho i n ed Hi Hn HiN Hed) as Hw. rewrite decide_True in Hw.
    - destruct Hw as (x & Hb & Hc & f & Hf & Hu). exists x. split; [split; eauto|done].
    - apply Hpre, (ns_in _ _ Hs). by apply list_elem_of_fmap_2. }
  pose proof (ns_nodup _ _ Hs w) as Hnd.
  assert (∀ ed, ed ∈ ins w n → G ed.(dest_) i w ≠ []) as HG.
  { intros ed Hed. apply (ns_in _ _ Hs). by apply list_elem_of_fmap_2. }
  induction (ins w n) as [|ed es IH]; [exists []; split_and!; constructor|].
  csimpl in Hnd. apply NoDup_cons in Hnd as [Hd Hnd].
  destruct IH as (xs & H1 & H2 & H3); [intros e He; apply Hx; by right|done|intros e He; apply HG; by right|].
  destruct (Hx ed) as (x & Hc & Hcr); [left|]. exists (x :: xs). split_and!; [by constructor|by constructor|].
  constructor; [|done]. intros Hin. apply list_elem_of_lookup in Hin as [k Hk].
  destruct (Forall2_lookup_r _ _ _ _ _ H2 Hk) as (ed' & Hk' & Hcr').
  destruct Hcr as (? & ? & f & _ & _ & _ & _ & Hf & Hff), Hcr' as (? & ? & f' & _ & _ & _ & _ & Hf' & Hff').
  assert (f = f') as <- by congruence.
  destruct (filter_for_inj _ _ _ _ _ _ _ (HG ed (list_elem_of_here _ _)) Hff Hff') as [E _].
  apply Hd. rewrite E. apply list_elem_of_fmap_2. by eapply list_elem_of_lookup_2.
Qed.

Lemma created_usable w o x a i : created w o x a i → usable nm (replace_map (negb w) o) (x, a).
Proof. intros (op & entry & f & H1 & H2 & H3 & H4 & _). exists op, entry. done. Qed.

Lemma outgoing_ok i n w :
  node_shape i n → Forall (λ e, i ≠ e.(dest_) ∧ e.(filters) ≠ [] ∧ Forall (λ c, ∃ p, cond_columns nm i e.(dest_) c p) e.(filters)) (outs w n).
Proof.
  intros Hs. apply Forall_forall. intros e He. pose proof (filters_to_elem _ _ _ (ns_out _ _ Hs w) He) as Hf. simpl in Hf.
  pose proof (eh_edges _ _ (ns_out _ _ Hs w)) as Hne. rewrite Forall_forall in Hne. destruct (Hne e He) as [Hne' _].
  split_and!; [|done|].
  - rewrite Hf in Hne'. by apply HGn in Hne' as [? _].
  - apply Forall_forall. intros c Hc. rewrite Hf in Hc. by eapply HGc.
Qed.

Lemma mark_used_heap_le xs h h1 fs : mark_used xs h h1 → heap_le h (h1 ++ fs).
Proof.
  intros [Hlen Hh1] x f Hf. pose proof (lookup_lt_Some _ _ _ Hf) as Hlt. rewrite lookup_app_l by lia. rewrite Hh1, Hf.
  case_decide; simpl; eauto.
Qed.

(** Where the edges into the tables stand after the filters of table [i] were handed on. *)
Lemma handed_on i (w : bool) n0 (o : PredicateTransferOptimizer) (d : gmap Z DAGNode) ids b n' :
  node_shape i n0 → (∀ b, is_Some (nm.(nodes) !! b) → ∃ n, o.(dag_manager).(dag) !! b = Some n ∧ node_shape b n) →
  Forall2 (λ e x, d !! e.(dest_) = add_in (push_bf x) i w <$> o.(dag_manager).(dag) !! e.(dest_)) (outs w n0) ids →
  (∀ b, b ∉ dest_ <$> outs w n0 → d !! b = o.(dag_manager).(dag) !! b) →
  is_Some (nm.(nodes) !! b) → d !! b = Some n' →
  ∃ n, o.(dag_manager).(dag) !! b = Some n ∧ node_shape b n ∧ node_shape b n' ∧ ins (negb w) n' = ins (negb w) n ∧
    ∀ ed, ed ∈ ins w n' → ∃ ed0, ed0 ∈ ins w n ∧ ed.(dest_) = ed0.(dest_) ∧
      if decide (ed.(dest_) = i) then ∃ k e x, outs w n0 !! k = Some e ∧ e.(dest_) = b ∧ ids !! k = Some x ∧ ed.(bloom_filters) = ed0.(bloom_filters) ++ [x]
      else ed.(bloom_filters) = ed0.(bloom_filters).
Proof.
  intros Hs0 Hnodes Hd1 Hd2 Hb Hn'. destruct (Hnodes b Hb) as (n & Hn & Hs). exists n. split; [done|]. split; [done|].
  destruct (decide (b ∈ dest_ <$> outs w n0)) as [Hin|Hout].
  - apply list_elem_of_fmap in Hin as (e & -> & [k Hk]%list_elem_of_lookup).
    destruct (Forall2_lookup_l _ _ _ _ _ Hd1 Hk) as (x & Hx & Hdx). rewrite Hdx, Hn in Hn'. injection Hn' as <-.
    assert (i ∈ dest_ <$> ins w n) as Hi.
    { apply (ns_in _ _ Hs). pose proof (outgoing_ok i n0 w Hs0) as Ho. eapply Forall_lookup_1 in Ho as (_ & Hf & _); [|exact Hk].
      apply list_elem_of_lookup_2 in Hk. rewrite (filters_to_elem _ _ _ (ns_out _ _ Hs0 w) Hk) in Hf. done. }
    assert (ins w (add_in (push_bf x) i w n) = push_edge (push_bf x) i (ins w n)) as Ei by (by destruct w).
    assert (∀ v, dest_ <$> ins v (add_in (push_bf x) i w n) = dest_ <$> ins v n) as Edest.
    { intros v. destruct (decide (v = w)) as [->|]; [rewrite Ei, push_edge_dests by done; by rewrite decide_True, app_nil_r|by destruct v, w]. }
    split_and!; [|by destruct w|].
    + split; [intros v; destruct w; apply (ns_out _ _ Hs v)|intros v; rewrite Edest; apply (ns_nodup _ _ Hs)|].
      intros v a. rewrite Edest. apply (ns_in _ _ Hs).
    + intros ed. rewrite Ei. intros Hed.
      destruct (push_bf_edges i x _ ed (ns_nodup _ _ Hs w) Hi Hed) as (ed0 & H1 & H2 & H3). exists ed0. split_and!; [done|done|].
      case_decide; [by exists k, e, x|by rewrite app_nil_r in H3].
  - rewrite Hd2, Hn in Hn' by done. injection Hn' as <-. split_and!; [done|done|]. intros ed Hed. exists ed. split_and!; [done|done|].
    case_decide as Hdi; [|done]. exfalso. apply Hout. subst i.
    assert (G ed.(dest_) b w ≠ []) as HG by (apply (ns_in _ _ Hs), list_elem_of_fmap_2; done).
    pose proof (eh_filters _ _ (ns_out _ _ Hs0 w) b) as Hf. simpl in Hf. rewrite <- Hf in HG. clear -HG.
    induction (outs w n0) as [|e es IH]; [done|]. csimpl in *. destruct (decide (dest_ e = b)) as [->|]; [left|right; by apply IH].
Qed.

(** The state after table [i]: its operators are in the map, its filters on their edges. *)
Record visited (w : bool) (i : Z) (opi : LogicalOperator) (n : DAGNode) (xs : list nat) (fs : list BlockedBloomFilter)
    (o o' : PredicateTransferOptimizer) : Prop := {
  v_heap : ∃ h1, mark_used xs o.(heap) h1 ∧ o'.(heap) = h1 ++ fs;
  v_manager : o'.(dag_manager).(nodes_manager) = nm;
  v_entry : (ins w n = [] ∧ outs w n = [] ∧ replace_map (negb w) o' = replace_map (negb w) o) ∨
    ∃ op, replace_map (negb w) o' = <[address opi := Some op]> (replace_map (negb w) o) ∧
      table_entry nm (replace_map (negb w) o) (zip xs (dest_ <$> ins w n)) (seq (length o.(heap)) (length (outs w n))) op;
  v_other : replace_map w o' = replace_map w o;
  v_created : Forall2 (λ e f, filter_for nm i e.(dest_) e.(filters) f ∧ f.(Used_) = false) (outs w n) fs;
  v_pushed : Forall2 (λ e x, o'.(dag_manager).(dag) !! e.(dest_) = add_in (push_bf x) i w <$> o.(dag_manager).(dag) !! e.(dest_))
    (outs w n) (seq (length o.(heap)) (length (outs w n)));
  v_rest : ∀ b, b ∉ dest_ <$> outs w n → o'.(dag_manager).(dag) !! b = o.(dag_manager).(dag) !! b
}.

Lemma filter_applied a b conds f : conds ≠ [] → filter_for nm a b conds f →
  ∃ c cs, f.(column_bindings_applied_) = c :: cs ∧ c.(table_index) = b.
Proof.
  intros Hne (cols & _ & -> & Hf). destruct Hf as [|c p conds cols Hp _]; [done|]. csimpl. eexists _, _. split; [done|].
  destruct Hp as (? & ? & ? & ? & _ & _ & _ & [(-> & _ & ?)|(-> & _ & ?)]); done.
Qed.

Lemma visit_node_ok w P o i opi node n :
  pass_state w P o → i ∉ P → nm.(nodes) !! i = Some opi → address node = address opi → node_index node = Ret (Some i) →
  (∀ a, G a i w ≠ [] → a ∈ P) → o.(dag_manager).(dag) !! i = Some n → node_shape i n →
  ∃ xs fs o', visit_node (negb w) o node = Ret o' ∧ visited w i opi n xs fs o o' ∧
    Forall2 (carries o.(heap)) (ins w n) xs ∧ Forall2 (λ ed x, created w o x ed.(dest_) i) (ins w n) xs ∧ NoDup xs.
Proof.
  intros Ho HiP Hopi Hadr Hidx Hpre Hn Hs.
  destruct (incoming_ok w P o i n) as (xs & Hcar & Hcr & Hnd); [done|done|eauto|done|done|done|].
  pose proof (outgoing_ok i n w Hs) as Hout.
  destruct (CreateBloomFilter_ok o node i n w xs) as (fs & o1 & E1 & Hfs & Hstep); rewrite ?(ps_manager _ _ _ Ho); try done.
  { unfold GetNodeId. by rewrite Hidx. }
  { by eapply nodes_small. }
  { apply Forall_forall. intros [x a] [k Hk]%list_elem_of_lookup. apply lookup_zip_Some in Hk as [Hx Ha].
    rewrite list_lookup_fmap in Ha. destruct (ins w n !! k) as [ed|] eqn:Ek; [|done]. injection Ha as <-.
    by eapply created_usable, (Forall2_lookup_lr _ _ _ _ _ _ Hcr Ek Hx). }
  rewrite (ps_manager _ _ _ Ho) in Hfs, Hstep. destruct Hstep as [Hm (h1 & Hused & Hheap) Hother Hentry].
  rewrite negb_involutive in Hother. pose proof (Forall2_length _ _ _ Hfs) as Hlen.
  unfold visit_node. rewrite E1. orun. cbn [fst snd].
  destruct (add_filters_ok i w (outs w n) (seq (length o.(heap)) (length (outs w n))) o1) as (d & E2 & Hd1 & Hd2).
  - apply (eh_nodup _ _ (ns_out _ _ Hs w)).
  - apply Forall2_same_length_lookup_2; [by rewrite length_seq|]. intros k e x Hk Hx.
    apply lookup_seq in Hx as [-> Hlt]. destruct (Forall2_lookup_l _ _ _ _ _ Hfs Hk) as (f & Hf & Hff & _).
    eapply Forall_lookup_1 in Hout as (Hne & Hfe & _); [|exact Hk]. rewrite Hm.
    assert (G i e.(dest_) w ≠ []) as HG.
    { apply list_elem_of_lookup_2 in Hk. by rewrite <- (filters_to_elem _ _ _ (ns_out _ _ Hs w) Hk). }
    apply HGn in HG as (_ & _ & Hdest). split; [destruct Hdest; by eapply nodes_small|].
    split; [destruct (ps_nodes _ _ _ Ho _ Hdest) as (? & -> & _); eauto|].
    destruct (filter_applied _ _ _ _ Hfe Hff) as (c & cs & Hc & Ht). exists f, c, cs. split_and!; [|done|done].
    rewrite Hheap. destruct Hused as [Hl _]. rewrite lookup_app_r, Hl by lia. by replace (length (heap o) + k - length (heap o))%nat with k by lia.
  - rewrite E2. exists xs, fs. eexists. split; [done|]. split; [|done]. rewrite Hm in Hd1, Hd2.
    split; simpl; try done.
    + eauto.
    + rewrite Hm. apply (ps_manager _ _ _ Ho).
    + rewrite <- Hadr. destruct Hentry as [(Hz & Hb & Hr)|(op & Hr & Hop)]; [left|right; exists op; destruct w; done].
      split_and!; [|by destruct (outs w n)|by destruct w]. apply Forall2_length in Hcar.
      destruct (ins w n), xs; done.
Qed.

Section Visited.
  Context (w : bool) (P : list Z) (o o' : PredicateTransferOptimizer) (i : Z) (opi : LogicalOperator) (n : DAGNode).
  Context (xs : list nat) (fs : list BlockedBloomFilter).
  Context (Ho : pass_state w P o) (HiP : i ∉ P) (Hopi : nm.(nodes) !! i = Some opi).
  Context (Hn : o.(dag_manager).(dag) !! i = Some n) (Hs : node_shape i n) (Hv : visited w i opi n xs fs o o').
  Context (Hcar : Forall2 (carries o.(heap)) (ins w n) xs) (Hcr : Forall2 (λ ed x, created w o x ed.(dest_) i) (ins w n) xs) (Hxs : NoDup xs).

Lemma visited_heap_le : heap_le o.(heap) o'.(heap).
Proof. destruct (v_heap _ _ _ _ _ _ _ _ Hv) as (h1 & Hused & ->). by eapply mark_used_heap_le. Qed.

Lemma visited_fresh : replace_map (negb w) o !! address opi = None.
Proof.
  destruct (replace_map (negb w) o !! address opi) as [e|] eqn:E; [|done].
  destruct (ps_entries _ _ _ Ho _ _ E) as (op & j & opj & _ & Hj & Hopj & Ha & _).
  assert (i = j) as -> by (by eapply nodes_distinct). done.
Qed.

Lemma visited_maps_le : maps_le (replace_map (negb w) o) (replace_map (negb w) o').
Proof.
  intros addr e He. destruct (v_entry _ _ _ _ _ _ _ _ Hv) as [(_ & _ & ->)|(op & -> & _)]; [done|].
  rewrite lookup_insert_ne; [done|]. intros <-. by rewrite visited_fresh in He.
Qed.

(** A filter waiting elsewhere is still unused. *)
Lemma visited_unused x a j f :
  created w o x a j → G a j w ≠ [] → j ≠ i → o.(heap) !! x = Some f → o'.(heap) !! x = Some f.
Proof.
  intros (? & ? & f' & _ & _ & _ & _ & Hf' & Hff) HG Hji Hf. assert (f' = f) as -> by congruence.
  destruct (v_heap _ _ _ _ _ _ _ _ Hv) as (h1 & [Hlen Hh1] & ->). pose proof (lookup_lt_Some _ _ _ Hf) as Hlt.
  rewrite lookup_app_l, Hh1 by lia. rewrite decide_False; [done|].
  intros [k Hk]%list_elem_of_lookup. destruct (Forall2_lookup_r _ _ _ _ _ Hcr Hk) as (ed & _ & ? & ? & f' & _ & _ & _ & _ & Hf'' & Hff').
  assert (f' = f) as -> by congruence. destruct (filter_for_inj _ _ _ _ _ _ _ HG Hff Hff') as [_ ?]. done.
Qed.

Lemma visited_created x a j : created w o x a j → created w o' x a j.
Proof.
  intros (op & entry & f & H1 & H2 & H3 & H4 & Hf).
  destruct (heap_filter_le _ _ _ _ _ _ visited_heap_le (ex_intro _ f Hf)) as (f' & Hf').
  exists op, entry, f'. split_and!; try done; [by apply visited_maps_le|apply Hf'..].
Qed.

(** The filters just made. *)
Lemma visited_new k e x :
  outs w n !! k = Some e → seq (length o.(heap)) (length (outs w n)) !! k = Some x →
  created w o' x i e.(dest_) ∧ ∃ f, o'.(heap) !! x = Some f ∧ f.(Used_) = false ∧ filter_for nm i e.(dest_) e.(filters) f.
Proof.
  intros Hk Hx. pose proof Hx as Hx'. apply lookup_seq in Hx' as [-> Hlt].
  destruct (Forall2_lookup_l _ _ _ _ _ (v_created _ _ _ _ _ _ _ _ Hv) Hk) as (f & Hf & Hff & Hu).
  assert (o'.(heap) !! (length (heap o) + k)%nat = Some f) as Hh.
  { destruct (v_heap _ _ _ _ _ _ _ _ Hv) as (h1 & [Hlen Hh1] & ->). rewrite lookup_app_r, Hlen by lia.
    by replace (length (heap o) + k - length (heap o))%nat with k by lia. }
  split; [|eauto]. assert (e.(filters) = G i e.(dest_) w) as Ef.
  { apply list_elem_of_lookup_2 in Hk. by apply (filters_to_elem _ _ _ (ns_out _ _ Hs w)). }
  destruct (v_entry _ _ _ _ _ _ _ _ Hv) as [(_ & Hout & _)|(op & Hr & Hop)]; [by rewrite Hout in Hk|].
  destruct (te_create _ _ _ _ _ Hop) as [Ht Hb]; [intros E; by rewrite E in Hx|].
  exists opi, op, f. split_and!; [done|by rewrite Hr, lookup_insert_eq|done| |done|by rewrite <- Ef].
  rewrite Hb. by eapply list_elem_of_lookup_2.
Qed.

Lemma visited_waiting : waiting w (P ++ [i]) o'.
Proof.
  intros j n' ed Hj Hn' HjN Hed.
  destruct (handed_on i w n o o'.(dag_manager).(dag) _ j n' Hs (ps_nodes _ _ _ Ho) (v_pushed _ _ _ _ _ _ _ _ Hv)
    (v_rest _ _ _ _ _ _ _ _ Hv) HjN Hn') as (nj & Hnj & Hsj & _ & _ & Hedges).
  destruct (Hedges ed Hed) as (ed0 & Hed0 & Hdest & Hbloom).
  assert ((j ∉ P) ∧ j ≠ i) as [HjP Hji] by set_solver.
  pose proof (ps_waiting _ _ _ Ho j nj ed0 HjP Hnj HjN Hed0) as Hw. rewrite <- Hdest in Hw.
  destruct (decide (ed.(dest_) = i)) as [Hdi|Hdi].
  - rewrite Hdi in *. rewrite decide_False in Hw by done. rewrite decide_True by set_solver.
    destruct Hbloom as (k & e & x & Hk & <- & Hx & Hb). exists x. rewrite Hw in Hb. split; [done|].
    destruct (visited_new k e x Hk Hx) as [Hc (f & Hf & Hu & _)]. eauto.
  - destruct (decide (ed.(dest_) ∈ P)) as [HdP|HdP].
    + rewrite decide_True by set_solver. destruct Hw as (x & Hb & Hc & f & Hf & Hu). exists x. split; [congruence|].
      split; [by apply visited_created|]. exists f. split; [|done]. eapply visited_unused; try done.
      apply (ns_in _ _ Hsj). rewrite Hdest. by apply list_elem_of_fmap_2.
    + rewrite decide_False by set_solver. congruence.
Qed.

Lemma use_of_edge u :
  u ∈ zip xs (dest_ <$> ins w n) → created w o u.1 u.2 i ∧ G u.2 i w ≠ [].
Proof.
  destruct u as [x a]. intros [k Hk]%list_elem_of_lookup. apply lookup_zip_Some in Hk as [Hx Ha].
  rewrite list_lookup_fmap in Ha. destruct (ins w n !! k) as [ed|] eqn:Ek; [|done]. injection Ha as <-. simpl.
  split; [by apply (Forall2_lookup_lr _ _ _ _ _ _ Hcr Ek Hx)|]. apply (ns_in _ _ Hs), list_elem_of_fmap_2.
  by eapply list_elem_of_lookup_2.
Qed.

Lemma visited_table_ok op :
  table_entry nm (replace_map (negb w) o) (zip xs (dest_ <$> ins w n)) (seq (length o.(heap)) (length (outs w n))) op → table_ok w o' i op.
Proof.
  intros [Hc _ Honly _ _ _]. split; [done|]. eapply Forall_impl; [exact Honly|]. intros t [[Ht Hf]|(u & Hu & Huf)].
  - left. split; [done|]. intros x. rewrite Hf. intros [k Hx]%list_elem_of_lookup. pose proof Hx as [_ Hlt]%lookup_seq.
    destruct (lookup_lt_is_Some_2 (outs w n) k) as [e He]; [done|].
    destruct (visited_new k e x He Hx) as [(? & ? & f & _ & _ & _ & _ & Hfx & Hff) _]. exists e.(dest_). split; [|eauto].
    pose proof (outgoing_ok i n w Hs) as Hout. eapply Forall_lookup_1 in Hout as (_ & Hne & _); [|exact He].
    by rewrite <- (filters_to_elem _ _ _ (ns_out _ _ Hs w) (list_elem_of_lookup_2 _ _ _ He)).
  - right. exists u.1, u.2. destruct (use_of_edge u Hu) as [(? & ? & f & _ & _ & _ & _ & Hf) HG].
    split_and!; [done|destruct u; eapply uses_filter_le; [apply visited_maps_le|done]|].
    eapply heap_filter_le; [apply visited_heap_le|eauto].
Qed.

Lemma visited_once addr op : replace_map (negb w) o' !! addr = Some (Some op) → filters_once op.
Proof.
  intros He. destruct (v_entry _ _ _ _ _ _ _ _ Hv) as [(_ & _ & Hr)|(op' & Hr & Hop)]; rewrite Hr in He; [by eapply ps_once|].
  destruct (decide (addr = address opi)) as [->|Hne]; [|rewrite lookup_insert_ne in He by done; by eapply ps_once].
  rewrite lookup_insert_eq in He. injection He as <-. split; [|rewrite (te_created _ _ _ _ _ Hop); apply NoDup_seq].
  rewrite (te_used _ _ _ _ _ Hop), fst_zip; [done|]. rewrite length_fmap. apply Forall2_length in Hcar. lia.
Qed.

Lemma visited_state : pass_state w (P ++ [i]) o'.
Proof.
  split.
  - apply (v_manager _ _ _ _ _ _ _ _ Hv).
  - intros b Hb. assert (∃ n', o'.(dag_manager).(dag) !! b = Some n') as [n' Hn'].
    { destruct (decide (b ∈ dest_ <$> outs w n)) as [Hin|Hout].
      - apply list_elem_of_fmap in Hin as (e & -> & [k Hk]%list_elem_of_lookup).
        destruct (Forall2_lookup_l _ _ _ _ _ (v_pushed _ _ _ _ _ _ _ _ Hv) Hk) as (x & _ & ->).
        destruct (ps_nodes _ _ _ Ho _ Hb) as (? & -> & _). simpl. eauto.
      - rewrite (v_rest _ _ _ _ _ _ _ _ Hv) by done. destruct (ps_nodes _ _ _ Ho _ Hb) as (? & -> & _). eauto. }
    exists n'. split; [done|].
    by destruct (handed_on i w n o o'.(dag_manager).(dag) _ b n' Hs (ps_nodes _ _ _ Ho) (v_pushed _ _ _ _ _ _ _ _ Hv)
      (v_rest _ _ _ _ _ _ _ _ Hv) Hb Hn') as (? & _ & _ & ? & _).
  - apply visited_waiting.
  - intros addr e He. destruct (v_entry _ _ _ _ _ _ _ _ Hv) as [(_ & _ & Hr)|(op & Hr & Hop)]; rewrite Hr in He.
    2: destruct (decide (addr = address opi)) as [->|Hne].
    2: { rewrite lookup_insert_eq in He. injection He as <-. exists op, i, opi. split_and!; [done|set_solver|done|done|by apply visited_table_ok]. }
    2: rewrite lookup_insert_ne in He by done.
    all: destruct (ps_entries _ _ _ Ho addr e He) as (op' & j & opj & -> & Hj & Hopj & -> & Hok); exists op', j, opj;
      split_and!; [done|set_solver|done|done|]; (eapply table_ok_le; [apply visited_heap_le|apply visited_maps_le|done]).
  - intros j opj a [Hj| ->%list_elem_of_singleton]%elem_of_app Hopj Ha.
    + by apply (transferred_le w P o o' visited_heap_le visited_maps_le (ps_transferred _ _ _ Ho)).
    + assert (opj = opi) as -> by congruence. apply (ns_in _ _ Hs), list_elem_of_lookup in Ha as [k Hk].
      rewrite list_lookup_fmap in Hk. destruct (ins w n !! k) as [ed|] eqn:Ek; [|done]. injection Hk as <-.
      destruct (Forall2_lookup_l _ _ _ _ _ Hcr Ek) as (x & Hx & ? & ? & f & _ & _ & _ & _ & Hf).
      assert ((x, ed.(dest_)) ∈ zip xs (dest_ <$> ins w n)) as Hu.
      { apply (list_elem_of_lookup_2 _ k), lookup_zip_Some. by rewrite list_lookup_fmap, Ek. }
      destruct (v_entry _ _ _ _ _ _ _ _ Hv) as [(Hnil & _ & _)|(op & Hr & Hop)]; [by rewrite Hnil in Ek|].
      pose proof (te_all _ _ _ _ _ Hop) as Hall. rewrite Forall_forall in Hall. destruct (Hall _ Hu) as (t & Ht & Huse).
      destruct (heap_filter_le _ _ _ _ _ _ visited_heap_le (ex_intro _ f Hf)) as (f' & Hf' & Hff').
      exists op, t, x, f'. split_and!; try done; [by rewrite Hr, lookup_insert_eq|].
      eapply uses_filter_le; [apply visited_maps_le|done].
  - apply visited_once.
Qed.
End Visited.

(** ** All tables *)

(** What a pass leaves alone. *)
Record pass_frame (w : bool) (o o' : PredicateTransferOptimizer) : Prop := {
  pf_heap : heap_le o.(heap) o'.(heap);
  pf_map : replace_map w o' = replace_map w o;
  pf_ins : ∀ b n', is_Some (nm.(nodes) !! b) → o'.(dag_manager).(dag) !! b = Some n' →
    ∃ n, o.(dag_manager).(dag) !! b = Some n ∧ ins (negb w) n' = ins (negb w) n
}.

Lemma pass_frame_refl w o : pass_frame w o o.
Proof. split; [intros x f Hf; eauto|done|eauto]. Qed.

Lemma pass_frame_trans w o1 o2 o3 : pass_frame w o1 o2 → pass_frame w o2 o3 → pass_frame w o1 o3.
Proof.
  intros [H1 M1 I1] [H2 M2 I2]. split; [|congruence|].
  - intros x f Hf. destruct (H1 x f Hf) as (f' & Hf' & ? & ?). destruct (H2 x f' Hf') as (f'' & Hf'' & ? & ?).
    exists f''. split_and!; congruence.
  - intros b n3 Hb Hn3. destruct (I2 b n3 Hb Hn3) as (n2 & Hn2 & E2). destruct (I1 b n2 Hb Hn2) as (n1 & Hn1 & E1).
    exists n1. split; congruence.
Qed.

(** The operators in their present state. *)
Context (now : LogicalOperator → LogicalOperator).

Definition same_nodes : Prop :=
  ∀ i op, nm.(nodes) !! i = Some op → address (now op) = address op ∧ node_index (now op) = node_index op.

Lemma visit_ok w P o i opi :
  same_nodes → pass_state w P o → i ∉ P → nm.(nodes) !! i = Some opi → (∀ a, G a i w ≠ [] → a ∈ P) →
  ∃ o', visit_node (negb w) o (now opi) = Ret o' ∧ pass_state w (P ++ [i]) o' ∧ pass_frame w o o'.
Proof.
  intros Hnow Ho HiP Hopi Hpre. destruct (Hnow i opi Hopi) as [Hadr Hidx]. rewrite (nodes_index _ HN i opi Hopi) in Hidx.
  destruct (ps_nodes _ _ _ Ho i) as (n & Hn & Hs); [eauto|].
  destruct (visit_node_ok w P o i opi (now opi) n) as (xs & fs & o' & E & Hv & Hcar & Hcr & Hxs); try done.
  exists o'. split; [done|]. split; [by eapply visited_state|]. split.
  - by eapply visited_heap_le.
  - apply (v_other _ _ _ _ _ _ _ _ Hv).
  - intros b n' Hb Hn'.
    destruct (handed_on i w n o o'.(dag_manager).(dag) _ b n' Hs (ps_nodes _ _ _ Ho) (v_pushed _ _ _ _ _ _ _ _ Hv)
      (v_rest _ _ _ _ _ _ _ _ Hv) Hb Hn') as (n1 & Hn1 & _ & _ & E1 & _). eauto.
Qed.

(** A pass visits the senders of a table before the table. *)
Definition senders_first (w : bool) (ids : list Z) : Prop :=
  ∀ pre i post a, ids = pre ++ i :: post → G a i w ≠ [] → a ∈ pre.

Lemma transfer_pass_ok w ids ops o :
  same_nodes → Forall2 (λ i op, nm.(nodes) !! i = Some op) ids ops → NoDup ids → senders_first w ids → pass_state w [] o →
  ∃ o', ofold (visit_node (negb w)) (now <$> ops) o = Ret o' ∧ pass_state w ids o' ∧ pass_frame w o o'.
Proof.
  intros Hnow Hops Hnd Hsf Ho.
  assert (∀ post pops pre o, ids = pre ++ post → Forall2 (λ i op, nm.(nodes) !! i = Some op) post pops → pass_state w pre o →
    ∃ o', ofold (visit_node (negb w)) (now <$> pops) o = Ret o' ∧ pass_state w ids o' ∧ pass_frame w o o') as Hloop;
    [|by apply (Hloop ids ops [])].
  clear ops Hops Ho o. induction post as [|i post IH]; intros pops pre o El Hpops Ho.
  { apply Forall2_nil_inv_l in Hpops as ->. exists o. rewrite app_nil_r in El. subst pre.
    split_and!; [done|done|apply pass_frame_refl]. }
  apply Forall2_cons_inv_l in Hpops as (op & pops' & Hop & Hpops & ->).
  destruct (visit_ok w pre o i op) as (o1 & E1 & Ho1 & F1); try done.
  { rewrite El in Hnd. apply NoDup_app in Hnd as (_ & Hnd & _). intros Hi. apply (Hnd i Hi). left. }
  { intros a. by eapply Hsf. }
  csimpl. rewrite E1. orun. destruct (IH pops' (pre ++ [i]) o1) as (o2 & E2 & Ho2 & F2); [by rewrite <- app_assoc|done|done|].
  exists o2. split_and!; [done|done|by eapply pass_frame_trans].
Qed.
End Pass.
