(* ===== verification/TransferCorrect.v ===== *)
(** * TransferCorrect: the optimizer as a whole

    [PreOptimize] and [Optimize] together: the plan keeps its operators and
    gains filter operators; every filter used is created elsewhere in the
    plan, and its columns are equated by a join that lets it filter. *)

From S2P Require Import Prelude BloomFilter LogicalPlan NodesManager Dag DagOrder DagDirections DagBuild TransferOptimizer TransferInsert TransferPasses.
Local Open Scope Z_scope.
Local Open Scope machine_scope.

(** ** Order of the visits *)

Lemma place_split pre i post a :
  NoDup (pre ++ i :: post) → a ∈ pre ++ i :: post →
  (place (pre ++ i :: post) a < place (pre ++ i :: post) i → a ∈ pre) ∧
  (place (pre ++ i :: post) i < place (pre ++ i :: post) a → a ∈ post).
Proof.
  intros Hnd Ha. assert (place (pre ++ i :: post) i = Z.of_nat (length pre)) as ->.
  { apply place_lookup; [done|]. by rewrite list_lookup_middle. }
  apply list_elem_of_lookup in Ha as [k Hk]. rewrite (place_lookup _ k a) by done. split; intros Hlt.
  - rewrite lookup_app_l in Hk by lia. by eapply list_elem_of_lookup_2.
  - rewrite lookup_app_r in Hk by lia. destruct (k - length pre)%nat eqn:E; [lia|]. simpl in Hk. by eapply list_elem_of_lookup_2.
Qed.

(** ** Justified filters *)

(** A join condition lets a filter built on [cb] apply to [ca]: it equates the
    two columns, and its join does not preserve the side of [ca]. *)
Definition justified (nm : NodesManager) (joins : list LogicalOperator) (cb ca : ColumnBinding) : Prop :=
  ∃ j cond, j ∈ joins ∧ cond ∈ (info j).(conditions) ∧ cond.(comparison) = COMPARE_EQUAL ∧
    ((FindRename nm (column_of cond.(left)) = Ret cb ∧ FindRename nm (column_of cond.(right)) = Ret ca ∧ (info j).(join_type) ≠ RIGHT) ∨
     (FindRename nm (column_of cond.(right)) = Ret cb ∧ FindRename nm (column_of cond.(left)) = Ret ca ∧ (info j).(join_type) ≠ LEFT)).

Definition filter_justified (nm : NodesManager) (joins : list LogicalOperator) (f : BlockedBloomFilter) : Prop :=
  f.(column_bindings_built_) ≠ [] ∧ Forall2 (justified nm joins) f.(column_bindings_built_) f.(column_bindings_applied_).

Section Built.
  Context (rank : ColumnBinding → nat) (nm0 : NodesManager) (joins : list LogicalOperator).
  Context (E0 : gmap (Z * Z) (list (option DAGEdgeInfo))) (pl : list (Z * option Z)) (es : list DAGEdgeInfo) (m : DAGManager).
  Context (Hm : built nm0 joins E0 pl es m) (Hnodes : nodes_ok nm0.(nodes)) (Hrank : ranked rank nm0.(rename_cols)).

Let nm : NodesManager := m.(nodes_manager).
Let G : flow := sent (prio_of pl) es.

Lemma FindRename_same c : FindRename nm c = FindRename nm0 c.
Proof. unfold FindRename, nm. by rewrite (b_renames _ _ _ _ _ _ Hm). Qed.

Lemma cond_columns_same a b c p : cond_columns nm0 a b c p → cond_columns nm a b c p.
Proof. unfold cond_columns. by setoid_rewrite FindRename_same. Qed.

Lemma nodes_same : nm.(nodes) = nm0.(nodes).
Proof. apply (b_nodes _ _ _ _ _ _ Hm). Qed.

Lemma flow_edge a b w f :
  f ∈ G a b w → ∃ e key, e ∈ es ∧ e.(edge_filter) = f ∧ (a, b, w) ∈ sends (prio_of pl) e ∧ edge_tables nm0.(nodes) e ∧ edge_between nm0 joins e key.
Proof.
  intros (e & -> & [Hs He]%list_elem_of_filter)%list_elem_of_fmap.
  pose proof (b_tables _ _ _ _ _ _ Hm) as Ht. rewrite Forall_forall in Ht. destruct (Ht e He) as [Htab [key Hkey]]. eauto 8.
Qed.

Lemma flow_ends a b w :
  G a b w ≠ [] → a ≠ b ∧ is_Some (nm0.(nodes) !! a) ∧ is_Some (nm0.(nodes) !! b) ∧ (if w : bool then prio_of pl a < prio_of pl b else prio_of pl b < prio_of pl a).
Proof.
  intros HG. destruct (G a b w) as [|f fs] eqn:Eq; [done|].
  destruct (flow_edge a b w f) as (e & key & _ & _ & Hs & Ht & _); [rewrite Eq; left|].
  eapply sends_ends; [|done|done]. intros x y. by apply (prio_inj _ _ _ _ _ _ x y Hm).
Qed.

Lemma flow_columns a b w f : f ∈ G a b w → ∃ p, cond_columns nm a b f p.
Proof. intros Hf. destruct (built_columns rank nm0 joins E0 pl es m a b w f Hrank Hnodes Hm Hf) as [p Hp]. exists p. by apply cond_columns_same. Qed.

Lemma flow_justified a b w c p : c ∈ G a b w → cond_columns nm a b c p → justified nm joins p.1 p.2.
Proof.
  intros Hc Hp. destruct (flow_edge a b w c Hc) as (e & key & He & <- & Hs & Ht & Hkey).
  assert (a ≠ b) as Hab by (apply (flow_ends a b w); intros E; rewrite E in Hc; set_solver).
  destruct (sends_protected _ _ _ _ _ _ _ _ Hnodes Hkey Hs) as (lt & rt & j & cond & L & R & Hcond & Hside).
  pose proof Hcond as [Hj Hcd Heq (bl & El & Hl) (br & Er & Hr) HL HR (x & y & Hi)].
  apply edge_info_ends in Hi as [Hf _]. rewrite Hf in Hp. clear Hf.
  subst lt rt. destruct (node_column rank _ _ _ _ Hrank Hnodes El HL) as [Cl Fl], (node_column rank _ _ _ _ Hrank Hnodes Er HR) as [Cr Fr].
  destruct Hp as (c0 & c1 & b0 & b1 & Hcols & H0 & H1 & Hp). simpl in Hcols. rewrite Cl, Cr in Hcols. injection Hcols as <- <-.
  rewrite FindRename_same, Fl in H0. rewrite FindRename_same, Fr in H1. injection H0 as <-. injection H1 as <-.
  exists j, cond. split_and!; [done|done|done|]. rewrite !FindRename_same.
  destruct Hside as [[[= -> ->] ?]|[[= -> ->] ?]]; destruct Hp as [(-> & ? & ?)|(-> & ? & ?)]; try congruence; auto.
Qed.

Lemma filter_for_justified a b w f : G a b w ≠ [] → filter_for nm a b (G a b w) f → filter_justified nm joins f.
Proof.
  intros Hne (cols & Hb & Ha & Hc). split.
  - rewrite Hb. apply Forall2_length in Hc. destruct cols; [|done]. by destruct (G a b w).
  - rewrite Hb, Ha. assert (Forall (λ c, c ∈ G a b w) (G a b w)) as Hin by (by apply Forall_forall).
    revert Hin Hc. clear Hb Ha. generalize (G a b w) at 2 3 as conds. intros conds Hin Hc.
    induction Hc as [|c p conds cols Hp _ IH]; [done|]. apply Forall_cons in Hin as [Hin1 Hin]. csimpl.
    constructor; [by eapply flow_justified|by apply IH].
Qed.

(** ** The passes *)

Lemma built_shape i n : node_holds (prio_of pl) G i n → node_shape G i n.
Proof.
  intros [_ _ Hin Hout]. split; [done|intros w; apply (eh_nodup _ _ (Hin w))|].
  intros w a. pose proof (eh_filters _ _ (Hin w) a) as Hf. simpl in Hf. rewrite <- Hf. pose proof (eh_edges _ _ (Hin w)) as He.
  clear -He. induction He as [|e es' [He _] _ IH]; csimpl; [split; [set_solver|done]|].
  destruct (decide (dest_ e = a)) as [<-|Hne]; [split; [done|intros _; left]|]. rewrite <- IH. set_solver.
Qed.

Lemma start_state next : pass_state nm G true [] (mkOptimizer m [] ∅ ∅ next).
Proof.
  split; simpl; [done| | | | |done].
  - intros i Hi. rewrite nodes_same in Hi. destruct (b_dag _ _ _ _ _ _ Hm i Hi) as (n & Hn & Hh). exists n.
    split; [done|by apply built_shape].
  - intros i n ed _ Hn Hi Hed. rewrite nodes_same in Hi. simpl in Hn. destruct (b_dag _ _ _ _ _ _ Hm i Hi) as (n' & Hn' & [_ _ Hin _]).
    assert (n = n') as -> by congruence. pose proof (eh_edges _ _ (Hin true)) as He. rewrite Forall_forall in He.
    rewrite decide_False by set_solver. by apply (He ed Hed).
  - by intros addr e He.
  - intros i opi a Hi. set_solver.
Qed.

Lemma forward_first : senders_first G true (reverse pl.*1).
Proof.
  intros pre i post a El HG. apply flow_ends in HG as (_ & Ha & _ & Hlt). unfold prio_of in Hlt.
  apply (f_equal reverse) in El. rewrite reverse_involutive, reverse_app, reverse_cons, <- app_assoc in El. simpl in El.
  pose proof (forest_nodup _ _ _ (b_forest _ _ _ _ _ _ Hm)) as Hnd. apply (b_all _ _ _ _ _ _ Hm) in Ha. rewrite El in Hnd, Ha, Hlt.
  apply elem_of_reverse. apply (place_split _ _ _ _ Hnd Ha). lia.
Qed.

Lemma backward_first : senders_first G false pl.*1.
Proof.
  intros pre i post a El HG. apply flow_ends in HG as (_ & Ha & _ & Hlt). unfold prio_of in Hlt.
  pose proof (forest_nodup _ _ _ (b_forest _ _ _ _ _ _ Hm)) as Hnd. apply (b_all _ _ _ _ _ _ Hm) in Ha. rewrite El in Hnd, Ha, Hlt.
  apply (place_split _ _ _ _ Hnd Ha). lia.
Qed.

(** After both passes, the operators of both are in the maps. *)
Record passes_done (o : PredicateTransferOptimizer) : Prop := {
  pd_entries : ∀ w, entries_ok nm G w pl.*1 o;
  pd_transferred : ∀ w, transferred nm G w pl.*1 o;
  pd_manager : o.(dag_manager).(nodes_manager) = nm;
  pd_once : ∀ w addr op, replace_map w o !! addr = Some (Some op) → filters_once op
}.

Lemma passes_ok now next :
  same_nodes nm now →
  ∃ o1 o2, ofold (visit_node false) (reverse (now <$> m.(ExecOrder))) (mkOptimizer m [] ∅ ∅ next) = Ret o1 ∧
    ofold (visit_node true) (now <$> m.(ExecOrder)) o1 = Ret o2 ∧ passes_done o2.
Proof.
  intros Hnow. pose proof (forest_nodup _ _ _ (b_forest _ _ _ _ _ _ Hm)) as Hnd.
  assert (Forall2 (λ i op, nm.(nodes) !! i = Some op) pl.*1 m.(ExecOrder)) as Hex.
  { rewrite nodes_same. apply Forall2_fmap_l. eapply Forall2_impl; [apply (b_exec _ _ _ _ _ _ Hm)|]. done. }
  assert (nodes_ok nm.(nodes)) as Hok by (by rewrite nodes_same).
  assert (∀ a b w, G a b w ≠ [] → a ≠ b ∧ is_Some (nm.(nodes) !! a) ∧ is_Some (nm.(nodes) !! b)) as HGn.
  { intros a b w HG. rewrite nodes_same. by apply flow_ends in HG as (? & ? & ? & _). }
  destruct (transfer_pass_ok nm G Hok HGn flow_columns now true (reverse pl.*1) (reverse m.(ExecOrder)) (mkOptimizer m [] ∅ ∅ next))
    as (o1 & E1 & Ho1 & F1); [done|by apply Forall2_reverse|by rewrite reverse_Permutation|apply forward_first|apply start_state|].
  assert (pass_state nm G false [] o1) as Hstart.
  { destruct Ho1 as [HM HNd _ _ _ _]. split; [done|done| | | |].
    - intros i n ed _ Hn Hi Hed. rewrite decide_False by set_solver. destruct (pf_ins _ _ _ _ F1 i n Hi Hn) as (n0 & Hn0 & Ei).
      simpl in Hn0, Ei. simpl in Hed. rewrite Ei in Hed. rewrite nodes_same in Hi.
      destruct (b_dag _ _ _ _ _ _ Hm i Hi) as (n' & Hn' & [_ _ Hin _]). assert (n0 = n') as -> by congruence.
      pose proof (eh_edges _ _ (Hin false)) as He. rewrite Forall_forall in He. by apply (He ed Hed).
    - intros addr e He. simpl in He. pose proof (pf_map _ _ _ _ F1) as Hmap. simpl in Hmap. by rewrite Hmap in He.
    - intros i opi a Hi. set_solver.
    - intros addr op He. simpl in He. pose proof (pf_map _ _ _ _ F1) as Hmap. simpl in Hmap. by rewrite Hmap in He. }
  destruct (transfer_pass_ok nm G Hok HGn flow_columns now false pl.*1 m.(ExecOrder) o1 Hnow Hex Hnd backward_first Hstart)
    as (o2 & E2 & Ho2 & F2).
  exists o1, o2. rewrite <- fmap_reverse. split; [exact E1|]. split; [exact E2|].
  assert (∀ l l' : list Z, (∀ x, x ∈ l ↔ x ∈ l') → entries_ok nm G true l o1 → entries_ok nm G true l' o2) as Hent.
  { intros l l' Hl He. eapply entries_le; [apply (pf_heap _ _ _ _ F2)|apply (pf_map _ _ _ _ F2)|].
    intros addr e Hae. destruct (He addr e Hae) as (op & i & opi & H1 & H2 & H3). exists op, i, opi. by rewrite <- Hl. }
  split; [| |apply (ps_manager _ _ _ _ _ Ho2)|].
  - intros []; [|apply (ps_entries _ _ _ _ _ Ho2)]. eapply Hent; [|apply (ps_entries _ _ _ _ _ Ho1)]. intros x. apply elem_of_reverse.
  - intros []; [|apply (ps_transferred _ _ _ _ _ Ho2)]. eapply transferred_le; [apply (pf_heap _ _ _ _ F2)| |].
    + simpl. pose proof (pf_map _ _ _ _ F2) as Hmap. simpl in Hmap. rewrite Hmap. by intros ? ?.
    + intros i opi a Hi. apply (ps_transferred _ _ _ _ _ Ho1). by apply elem_of_reverse.
  - intros []; [apply (ps_once _ _ _ _ _ Ho2)|]. intros addr op He. apply (ps_once _ _ _ _ _ Ho1 addr). simpl.
    pose proof (pf_map _ _ _ _ F2) as Hmap. simpl in Hmap. by rewrite <- Hmap.
Qed.
End Built.

(** ** The plan *)

Section Optimize.
  Context `{StdOrderOk} `{CardinalityEstimator}.

(** What may have happened to the plan between the two phases: the operators
    that are nodes are still there, with their addresses and table indexes. *)
Record plan_now (now : LogicalOperator → LogicalOperator) (plan : LogicalOperator) (m : DAGManager) : Prop := {
  pn_plain : plain plan;
  pn_addresses : NoDup (addresses plan);
  pn_nodes : ∀ i op, m.(nodes_manager).(nodes) !! i = Some op →
    address op ∈ addresses plan ∧ address (now op) = address op ∧ node_index (now op) = node_index op
}.

(** A [LogicalUseBF] of one filter, created by a [LogicalCreateBF] of the plan. *)
Definition use_served (nm : NodesManager) (joins : list LogicalOperator) (h : list BlockedBloomFilter) (plan : LogicalOperator) (t : op_info) : Prop :=
  ∃ x f c, t.(filters_of) = [x] ∧ t.(related_create_bf) = [c.(ptr)] ∧ c ∈ infos plan ∧ c.(otype) = LOGICAL_CREATE_BF ∧
    x ∈ c.(filters_of) ∧ h !! x = Some f ∧ filter_justified nm joins f.

(** What [Optimize] promises of the plan it returns. *)
Record optimized (joins : list LogicalOperator) (m : DAGManager) (plan plan' : LogicalOperator) (o' : PredicateTransferOptimizer) : Prop := {
  op_erase : erase plan' = plan;
  op_uses : ∀ t, t ∈ infos plan' → t.(otype) = LOGICAL_USE_BF → use_served m.(nodes_manager) joins o'.(heap) plan' t;
  op_edges : ∀ i op n w ed, m.(nodes_manager).(nodes) !! i = Some op → m.(dag) !! i = Some n → ed ∈ ins w n →
    ∃ t x f, t ∈ infos plan' ∧ t.(otype) = LOGICAL_USE_BF ∧ t.(filters_of) = [x] ∧ o'.(heap) !! x = Some f ∧
      filter_for m.(nodes_manager) ed.(dest_) i ed.(filters) f
}.

Lemma plain_infos plan t : plain plan → t ∈ infos plan → is_filter_op t.(otype) = false.
Proof.
  induction plan as [i cs IH] using LogicalOperator_nested_ind. intros [Hi Hcs]%plain_children. simpl.
  intros [->|Ht]%elem_of_cons; [done|]. apply list_elem_of_In, in_concat in Ht as (l & Hl & Ht).
  apply in_map_iff in Hl as (c & <- & Hc%list_elem_of_In). rewrite Forall_forall in IH, Hcs.
  apply (IH c Hc (Hcs c Hc)). by apply list_elem_of_In.
Qed.

Lemma info_infos op : info op ∈ infos op.
Proof. destruct op. left. Qed.

Lemma entries_takeable nm G o A : (∀ w, ∃ P, entries_ok nm G w P o) → takeable A o.(replace_map_forward) ∧ takeable A o.(replace_map_backward).
Proof.
  intros Hen.
  assert (∀ w, takeable A (replace_map (negb w) o)) as Ht; [|split; [apply (Ht true)|apply (Ht false)]].
  intros w. destruct (Hen w) as [P He]. split.
  - intros a _ Ha. by destruct (He _ _ Ha) as (? & ? & ? & ? & _).
  - intros a op Ha. destruct (He _ _ Ha) as (op' & i & opi & [= <-] & _ & _ & _ & [Hc _]). done.
Qed.

(** The operators of a map whose addresses are in the plan are in the result. *)
Lemma inserted_both A (o : PredicateTransferOptimizer) w a op x :
  a ∈ A → replace_map (negb w) o !! a = Some (Some op) → x ∈ infos op →
  inserted A o.(replace_map_forward) x ∨ inserted A o.(replace_map_backward) x.
Proof. intros Ha Hop Hx. destruct w; [left|right]; by exists a, op. Qed.

(** The two passes, and the plan with their operators. *)
Lemma Optimize_run rank nm0 joins E0 pl es m now plan next :
  built nm0 joins E0 pl es m → nodes_ok nm0.(nodes) → ranked rank nm0.(rename_cols) → plan_now now plan m →
  ∃ o o', Optimize now plan (mkOptimizer m [] ∅ ∅ next) = Ret (decorate (o.(replace_map_forward), o.(replace_map_backward)) plan, o') ∧
    (∃ o1, ofold (visit_node false) (reverse (now <$> m.(ExecOrder))) (mkOptimizer m [] ∅ ∅ next) = Ret o1 ∧
      ofold (visit_node true) (now <$> m.(ExecOrder)) o1 = Ret o) ∧
    o'.(heap) = o.(heap) ∧ passes_done pl es m o ∧ erase (decorate (o.(replace_map_forward), o.(replace_map_backward)) plan) = plan ∧
    ∀ x, x ∈ infos (decorate (o.(replace_map_forward), o.(replace_map_backward)) plan) ↔
      x ∈ infos plan ∨ inserted (addresses plan) o.(replace_map_forward) x ∨ inserted (addresses plan) o.(replace_map_backward) x.
Proof.
  intros Hm Hn Hr [Hpl Hadr Hnow].
  destruct (passes_ok rank nm0 joins E0 pl es m Hm Hn Hr now next) as (o1 & o2 & E1 & E2 & Hdone).
  { intros i op Hop. by destruct (Hnow i op Hop) as (_ & ? & ?). }
  pose proof Hdone as [Hent _ _ _].
  destruct (entries_takeable _ _ o2 (addresses plan) (λ w, ex_intro (λ P, entries_ok _ _ w P o2) _ (Hent w))) as [T1 T2].
  destruct (insert_plan_ok plan Hpl Hadr (o2.(replace_map_forward), o2.(replace_map_backward)) T1 T2)
    as (plan' & maps' & E3 & Her & -> & [_ _ Hin]). simpl in Hin.
  unfold Optimize. cbn [dag_manager]. rewrite E1. orun. rewrite E2. orun. rewrite E3. orun. exists o2. eexists. split; [done|]. split; [eauto|]. done.
Qed.

Lemma Optimize_built rank nm0 joins E0 pl es m now plan next :
  built nm0 joins E0 pl es m → nodes_ok nm0.(nodes) → ranked rank nm0.(rename_cols) → plan_now now plan m →
  ∃ plan' o', Optimize now plan (mkOptimizer m [] ∅ ∅ next) = Ret (plan', o') ∧ optimized joins m plan plan' o'.
Proof.
  intros Hm Hn Hr Hpn. destruct (Optimize_run rank nm0 joins E0 pl es m now plan next Hm Hn Hr Hpn) as (o2 & o' & E & _ & Hheap & [Hent Htr Hman] & Her & Hin).
  destruct Hpn as [Hpl Hadr Hnow]. set (plan' := decorate _ plan) in *. exists plan', o'. split; [done|].
  assert (∀ w i op op' t, m.(nodes_manager).(nodes) !! i = Some op → replace_map (negb w) o2 !! address op = Some (Some op') →
    t ∈ infos op' → t ∈ infos plan') as Hins.
  { intros w i op op' t Hop Hop' Ht. apply Hin. right. eapply inserted_both; [|done|done]. by apply (Hnow i). }
  assert (∀ w x a t, uses_filter m.(nodes_manager) (replace_map (negb w) o2) (x, a) t → ∃ c, t.(filters_of) = [x] ∧
    t.(related_create_bf) = [c.(ptr)] ∧ c ∈ infos plan' ∧ c.(otype) = LOGICAL_CREATE_BF ∧ x ∈ c.(filters_of)) as Huse.
  { intros w x a t (_ & Hf & op & entry & Hop & He & Ht & Hrel & Hx). exists (info entry).
    split_and!; [done|done| |done|done]. by eapply Hins, info_infos. }
  split; rewrite ?Hheap; [done| |].
  - intros t Ht Hu. assert (∃ w addr op, replace_map (negb w) o2 !! addr = Some (Some op) ∧ t ∈ infos op) as (w & addr & op & Hop & Hti).
    { apply Hin in Ht as [Ht|[(a & op & _ & Hop & Ht)|(a & op & _ & Hop & Ht)]].
      - apply (plain_infos _ _ Hpl) in Ht. by rewrite Hu in Ht.
      - by exists true, a, op.
      - by exists false, a, op. }
    destruct (Hent w _ _ Hop) as (op' & i & opi & [= <-] & _ & _ & _ & [_ Hall]). rewrite Forall_forall in Hall.
    destruct (Hall t Hti) as [[? _]|(x & a & HG & Hux & f & Hf & Hff)]; [congruence|].
    destruct (Huse w x a t Hux) as (c & K1 & K2 & K3 & K4 & K5). exists x, f, c. split_and!; try done.
    by eapply (filter_for_justified rank nm0).
  - intros i op n w ed Hop Hdn Hed. pose proof Hop as HopN. rewrite (b_nodes _ _ _ _ _ _ Hm) in HopN.
    destruct (b_dag _ _ _ _ _ _ Hm i) as (n' & Hn' & Hh); [eauto|]. assert (n = n') as <- by congruence.
    assert (ed.(filters) = sent (prio_of pl) es ed.(dest_) i w) as Ef by (apply (filters_to_elem _ _ _ (nh_in _ _ _ _ Hh w) Hed)).
    destruct (Htr w i op ed.(dest_)) as (op' & t & x & f & Hop' & Ht & (Hot & Hft & _) & Hf & Hff).
    + apply (b_all _ _ _ _ _ _ Hm). eauto.
    + done.
    + pose proof (eh_edges _ _ (nh_in _ _ _ _ Hh w)) as He. rewrite Forall_forall in He. rewrite <- Ef. by apply (He ed Hed).
    + exists t, x, f. rewrite Ef. split_and!; try done. by eapply Hins.
Qed.

(** With nothing to transfer, the plan stays as it is. *)
Lemma Optimize_nothing joins m now plan next :
  m.(ExecOrder) = [] → m.(dag) = ∅ → plan_now now plan m →
  ∃ plan' o', Optimize now plan (mkOptimizer m [] ∅ ∅ next) = Ret (plan', o') ∧ optimized joins m plan plan' o'.
Proof.
  intros Hex Hd [Hpl Hadr _]. unfold Optimize. cbn [dag_manager]. rewrite Hex. csimpl. orun.
  assert (takeable (addresses plan) ∅) as Ht by (split; [by intros a _|done]).
  destruct (insert_plan_ok plan Hpl Hadr (∅, ∅) Ht Ht) as (plan' & maps' & E & Her & _ & [_ _ Hin]). simpl in E. rewrite E. orun.
  eexists _, _. split; [done|]. split; cbn [fst]; [done| |intros i op n w ed _ Hn; by rewrite Hd in Hn].
  intros t Ht' Hu. exfalso. apply Hin in Ht' as [Ht'|[(a & op & _ & Hop & _)|(a & op & _ & Hop & _)]]; [|done|done].
  apply (plain_infos _ _ Hpl) in Ht'. by rewrite Hu in Ht'.
Qed.

Lemma decorate_nothing plan : decorate (∅, ∅) plan = plan.
Proof.
  induction plan as [i cs IH] using LogicalOperator_nested_ind. simpl. unfold above. rewrite lookup_empty. f_equal.
  rewrite <- (map_id cs) at 2. apply map_ext_in. intros c Hc%list_elem_of_In. rewrite Forall_forall in IH. by apply IH.
Qed.

Lemma Optimize_same m now plan next :
  m.(ExecOrder) = [] → plan_now now plan m → ∃ o', Optimize now plan (mkOptimizer m [] ∅ ∅ next) = Ret (plan, o').
Proof.
  intros Hex [Hpl Hadr _]. unfold Optimize. cbn [dag_manager]. rewrite Hex. csimpl. orun.
  assert (takeable (addresses plan) ∅) as Ht by (split; [by intros a _|done]).
  destruct (insert_plan_ok plan Hpl Hadr (∅, ∅) Ht Ht) as (plan' & maps' & E & _ & -> & _). simpl in E. rewrite E. orun.
  cbn [fst snd]. rewrite decorate_nothing. by eexists.
Qed.

Lemma transfer_ok rank plan0 mark next :
  plan_wf rank plan0 → distinct_comparisons (plan_joins plan0 mark) →
  ∃ o, PreOptimize plan0 mark next = Ret o ∧ ∀ now plan, plan_now now plan o.(dag_manager) →
    ∃ plan' o', Optimize now plan o = Ret (plan', o') ∧ optimized (plan_joins plan0 mark) o.(dag_manager) plan plan' o'.
Proof.
  intros Hwf Hdist. destruct (Build_ok rank plan0 mark Hwf Hdist) as (ok & mark' & m & nm & E & Hn & _ & Hr & Hok).
  unfold PreOptimize. rewrite E. orun. eexists. split; [done|]. intros now plan Hnow. simpl in *. destruct ok.
  - destruct Hok as (E0 & pl & es & Hm). by eapply Optimize_built.
  - destruct Hok. by apply Optimize_nothing.
Qed.

(** ** Properties *)

(** C10: the optimizer only adds filter operators.  On a well-formed plan
    [PreOptimize] returns; then [Optimize] returns on whatever plan still holds
    the nodes, and taking the filter operators out of its result gives that
    plan back. *)
Theorem Optimize_only_adds_filters rank plan0 mark next :
  plan_wf rank plan0 → distinct_comparisons (plan_joins plan0 mark) →
  ∃ o, PreOptimize plan0 mark next = Ret o ∧ ∀ now plan, plan_now now plan o.(dag_manager) →
    ∃ plan' o', Optimize now plan o = Ret (plan', o') ∧ erase plan' = plan.
Proof.
  intros Hwf Hdist. destruct (transfer_ok rank plan0 mark next Hwf Hdist) as (o & E & Ho).
  exists o. split; [done|]. intros now plan Hnow. destruct (Ho now plan Hnow) as (plan' & o' & E' & []). eauto.
Qed.

(** C3: every filter used is served and justified.  Each [LogicalUseBF] of the
    result uses one filter and depends on a [LogicalCreateBF] of the result
    that creates it; the columns the filter is built on and applied to are
    paired by equality conditions of joins of the plan, none of which
    preserves the side that is filtered. *)
Theorem uses_are_served_and_justified rank plan0 mark next :
  plan_wf rank plan0 → distinct_comparisons (plan_joins plan0 mark) →
  ∃ o, PreOptimize plan0 mark next = Ret o ∧ ∀ now plan, plan_now now plan o.(dag_manager) →
    ∃ plan' o', Optimize now plan o = Ret (plan', o') ∧
      ∀ t, t ∈ infos plan' → t.(otype) = LOGICAL_USE_BF →
        use_served o.(dag_manager).(nodes_manager) (plan_joins plan0 mark) o'.(heap) plan' t.
Proof.
  intros Hwf Hdist. destruct (transfer_ok rank plan0 mark next Hwf Hdist) as (o & E & Ho).
  exists o. split; [done|]. intros now plan Hnow. destruct (Ho now plan Hnow) as (plan' & o' & E' & []). eauto.
Qed.

(** C13: every edge of the transfer graph is used.  For each edge into a table,
    in either pass, the result has a [LogicalUseBF] of a filter built on the
    table the edge comes from, with all the conditions of the edge. *)
Theorem every_edge_gives_a_use rank plan0 mark next :
  plan_wf rank plan0 → distinct_comparisons (plan_joins plan0 mark) →
  ∃ o, PreOptimize plan0 mark next = Ret o ∧ ∀ now plan, plan_now now plan o.(dag_manager) →
    ∃ plan' o', Optimize now plan o = Ret (plan', o') ∧
      ∀ i op n forward ed, o.(dag_manager).(nodes_manager).(nodes) !! i = Some op → o.(dag_manager).(dag) !! i = Some n → ed ∈ ins forward n →
        ∃ t x f, t ∈ infos plan' ∧ t.(otype) = LOGICAL_USE_BF ∧ t.(filters_of) = [x] ∧ o'.(heap) !! x = Some f ∧
          filter_for o.(dag_manager).(nodes_manager) ed.(dest_) i ed.(filters) f.
Proof.
  intros Hwf Hdist. destruct (transfer_ok rank plan0 mark next Hwf Hdist) as (o & E & Ho).
  exists o. split; [done|]. intros now plan Hnow. destruct (Ho now plan Hnow) as (plan' & o' & E' & []). eauto 10.
Qed.
End Optimize.

(** ** A plan *)

Definition sample_optimizer : PredicateTransferOptimizer :=
  match PreOptimize sample_plan true 100 with Ret o => o | _ => mkOptimizer new_manager [] ∅ ∅ 0 end.

Definition nodes_in_plan (plan : LogicalOperator) (m : DAGManager) : bool :=
  bool_decide (map_Forall (λ _ op, address op ∈ addresses plan) m.(nodes_manager).(nodes)).

Lemma sample_now o : PreOptimize sample_plan true 100 = Ret o → plan_now (λ op, op) sample_plan o.(dag_manager).
Proof.
  intros E. assert (nodes_in_plan sample_plan o.(dag_manager) = true) as Hin.
  { assert (match PreOptimize sample_plan true 100 with Ret o => nodes_in_plan sample_plan o.(dag_manager) | _ => false end = true) as Hb
      by (vm_compute; reflexivity).
    rewrite E in Hb. exact Hb. }
  split.
  - repeat (apply Forall_cons; split); try exact (Forall_nil_2 _); reflexivity.
  - apply (bool_decide_unpack _). vm_compute. exact I.
  - intros i op Hop. split; [|split; reflexivity]. apply bool_decide_eq_true in Hin. exact (Hin i op Hop).
Qed.

(** The filter operators of the result: address, filters, and the creators of the filters used. *)
Definition filter_ops (plan : LogicalOperator) (o : PredicateTransferOptimizer) : list (Z * list nat * list Z) :=
  match Optimize (λ op, op) plan o with
  | Ret (plan', _) => (λ t, (t.(ptr), t.(filters_of), t.(related_create_bf))) <$> base.filter (λ t, is_filter_op t.(otype) = true) (infos plan')
  | _ => []
  end.

Lemma Optimize_only_adds_filters_witness :
  ∃ o, PreOptimize sample_plan true 100 = Ret o ∧ ∃ plan' o', Optimize (λ op, op) sample_plan o = Ret (plan', o') ∧ erase plan' = sample_plan.
Proof.
  destruct (Optimize_only_adds_filters sample_rank sample_plan true 100 sample_plan_wf sample_distinct) as (o & E & Ho).
  exists o. split; [exact E|]. exact (Ho _ _ (sample_now o E)).
Defined.

Lemma uses_are_served_and_justified_witness :
  filter_ops sample_plan sample_optimizer =
    [(100, [0%nat], []); (105, [2%nat], [104]); (102, [1%nat], []); (101, [0%nat], [100]); (104, [2%nat], []); (103, [1%nat], [102])] ∧
  ∃ o, PreOptimize sample_plan true 100 = Ret o ∧ ∃ plan' o', Optimize (λ op, op) sample_plan o = Ret (plan', o') ∧
    ∀ t, t ∈ infos plan' → t.(otype) = LOGICAL_USE_BF →
      use_served o.(dag_manager).(nodes_manager) (plan_joins sample_plan true) o'.(heap) plan' t.
Proof.
  split; [vm_compute; reflexivity|].
  destruct (uses_are_served_and_justified sample_rank sample_plan true 100 sample_plan_wf sample_distinct) as (o & E & Ho).
  exists o. split; [exact E|]. exact (Ho _ _ (sample_now o E)).
Defined.

Lemma every_edge_gives_a_use_witness :
  ∃ o, PreOptimize sample_plan true 100 = Ret o ∧ ∃ plan' o', Optimize (λ op, op) sample_plan o = Ret (plan', o') ∧
    ∀ i op n forward ed, o.(dag_manager).(nodes_manager).(nodes) !! i = Some op → o.(dag_manager).(dag) !! i = Some n → ed ∈ ins forward n →
      ∃ t x f, t ∈ infos plan' ∧ t.(otype) = LOGICAL_USE_BF ∧ t.(filters_of) = [x] ∧ o'.(heap) !! x = Some f ∧
        filter_for o.(dag_manager).(nodes_manager) ed.(dest_) i ed.(filters) f.
Proof.
  destruct (every_edge_gives_a_use sample_rank sample_plan true 100 sample_plan_wf sample_distinct) as (o & E & Ho).
  exists o. split; [exact E|]. exact (Ho _ _ (sample_now o E)).
Defined.
