(* ===== verification/PlanSemantics.v ===== *)
(** * PlanSemantics: what a plan computes

    An abstract specification of logical plans: the rows an operator gives,
    as maps from columns to values, with filter operators among them.  A
    [LogicalUseBF] keeps the rows its filter accepts; a [LogicalCreateBF]
    hands its rows on.  Columns a projection passes on keep the name they
    have in the table they come from.  Shown here: turning one more filter on
    does not change the result, if the filter accepts every key of the table
    it is built on and a join above both tables compares the keys. *)

From S2P Require Import Prelude BloomFilter LogicalPlan NodesManager Dag TransferOptimizer TransferInsert.
Local Open Scope Z_scope.
Local Open Scope machine_scope.

(** ** Keeping elements of a list *)

Definition keep {A : Type} (p : A → bool) (l : list A) : list A := List.filter p l.

Lemma keep_cons {A} (p : A → bool) x l : keep p (x :: l) = if p x then x :: keep p l else keep p l.
Proof. done. Qed.

Lemma elem_of_keep {A} (p : A → bool) l x : x ∈ keep p l ↔ x ∈ l ∧ p x = true.
Proof. rewrite !list_elem_of_In. apply filter_In. Qed.

Lemma keep_ext {A} (p q : A → bool) l : (∀ x, x ∈ l → p x = q x) → keep p l = keep q l.
Proof. intros H. apply filter_ext_in. intros x Hx. apply H. by apply list_elem_of_In. Qed.

Lemma keep_keep {A} (p q : A → bool) l : keep p (keep q l) = keep (λ x, q x && p x) l.
Proof. induction l as [|x l IH]; [done|]. simpl. destruct (q x); simpl; rewrite IH; done. Qed.

Lemma keep_comm {A} (p q : A → bool) l : keep p (keep q l) = keep q (keep p l).
Proof. rewrite !keep_keep. apply keep_ext. intros x _. apply andb_comm. Qed.

Lemma keep_all {A} (p : A → bool) l : (∀ x, x ∈ l → p x = true) → keep p l = l.
Proof. intros H. induction l as [|x l IH]; [done|]. simpl. rewrite H by left. f_equal. apply IH. intros y Hy. apply H. by right. Qed.

Lemma keep_none {A} (p : A → bool) l : (∀ x, x ∈ l → p x = false) → keep p l = [].
Proof. intros H. induction l as [|x l IH]; [done|]. simpl. rewrite H by left. apply IH. intros y Hy. apply H. by right. Qed.

Lemma keep_app {A} (p : A → bool) l l' : keep p (l ++ l') = keep p l ++ keep p l'.
Proof. apply List.filter_app. Qed.

Lemma keep_map {A B} (p : B → bool) (f : A → B) l : keep p (f <$> l) = f <$> keep (λ x, p (f x)) l.
Proof. induction l as [|x l IH]; [done|]. csimpl. rewrite IH. by destruct (p (f x)). Qed.

(** A property of results that only depends on the element they come from. *)
Lemma keep_bind_source {A B} (p : B → bool) (q : A → bool) (f : A → list B) l :
  (∀ x y, x ∈ l → y ∈ f x → p y = q x) → keep p (l ≫= f) = keep q l ≫= f.
Proof.
  induction l as [|x l IH]; intros H; [done|]. csimpl. rewrite keep_app, IH by (intros y z Hy; apply H; by right).
  destruct (q x) eqn:E; csimpl.
  - by rewrite keep_all by (intros y Hy; rewrite (H x y) by (done || left); done).
  - by rewrite keep_none by (intros y Hy; rewrite (H x y) by (done || left); done).
Qed.

Lemma keep_bind {A B} (p : B → bool) (f g : A → list B) l :
  (∀ x, x ∈ l → keep p (f x) = g x) → keep p (l ≫= f) = l ≫= g.
Proof.
  induction l as [|x l IH]; intros H; [done|]. csimpl. rewrite keep_app, IH by (intros y Hy; apply H; by right).
  by rewrite H by left.
Qed.

(** Elements without results can be left out. *)
Lemma bind_keep {A B} (q : A → bool) (f : A → list B) l : (∀ x, x ∈ l → q x = false → f x = []) → keep q l ≫= f = l ≫= f.
Proof.
  induction l as [|x l IH]; intros H; [done|]. csimpl. destruct (q x) eqn:E; csimpl; rewrite IH by (intros y Hy; apply H; by right); [done|].
  by rewrite (H x) by (done || left).
Qed.

Lemma bind_ext_in {A B} (f g : A → list B) l : (∀ x, x ∈ l → f x = g x) → l ≫= f = l ≫= g.
Proof.
  induction l as [|x l IH]; intros H; [done|]. csimpl. rewrite (H x) by left. f_equal. apply IH. intros y Hy. apply H. by right.
Qed.

Lemma existsb_keep {A} (p q : A → bool) l : (∀ x, x ∈ l → p x = true → q x = true) → existsb p (keep q l) = existsb p l.
Proof.
  induction l as [|x l IH]; intros H; [done|]. simpl. rewrite <- IH by (intros y Hy; apply H; by right).
  destruct (q x) eqn:E; [done|]. destruct (p x) eqn:Ep; [|done]. rewrite (H x) in E; [done|left|done].
Qed.

(** ** Semantics *)

Abbreviation env := (gmap ColumnBinding Z).

(** What the tables hold, when a join condition holds, what an expression of a
    filter gives, and what the other operators with one child (aggregates,
    sorts, limits) make of its rows. *)
Class PlanSemantics := {
  scan : op_info → list env;
  holds : JoinCondition → env → bool;
  passes : Expression → env → bool;
  compute : op_info → list env → list env
}.

(** The rows of a scan have columns of its tables, computed rows have columns
    of the operator or of its input; an equality of two columns holds only when
    both have the same value.  [resolve] gives the column a reference stands
    for. *)
Class PlanSemanticsOk `{PlanSemantics} (resolve : ColumnBinding → ColumnBinding) : Prop := {
  scan_columns i σ b : σ ∈ scan i → is_Some (σ !! b) → b.(table_index) ∈ i.(table_indexes);
  compute_columns i r σ b : σ ∈ compute i r → is_Some (σ !! b) → b.(table_index) ∈ i.(table_indexes) ∨ ∃ σ', σ' ∈ r ∧ is_Some (σ' !! b);
  holds_equal c σ : c.(comparison) = COMPARE_EQUAL → etype c.(left) = TYPE_BOUND_COLUMN_REF → etype c.(right) = TYPE_BOUND_COLUMN_REF →
    holds c σ = true → ∃ v, σ !! resolve (ebinding c.(left)) = Some v ∧ σ !! resolve (ebinding c.(right)) = Some v
}.

(** A filter: the columns it is built on and applied to, and the keys it accepts. *)
Class FilterContents := {
  built_on : nat → list ColumnBinding;
  applied_to : nat → list ColumnBinding;
  accepts : nat → list (option Z) → bool
}.

Definition key (bs : list ColumnBinding) (σ : env) : list (option Z) := (λ b, σ !! b) <$> bs.

(** The pairs of rows a condition joins. *)
Definition matches (cond : env → bool) (σl : env) (r : list env) : list env := (λ σr, σl ∪ σr) <$> keep (λ σr, cond (σl ∪ σr)) r.
Definition rmatches (cond : env → bool) (l : list env) (σr : env) : list env := (λ σl, σl ∪ σr) <$> keep (λ σl, cond (σl ∪ σr)) l.
Definition matched (cond : env → bool) (σl : env) (r : list env) : bool := existsb (λ σr, cond (σl ∪ σr)) r.
Definition rmatched (cond : env → bool) (l : list env) (σr : env) : bool := existsb (λ σl, cond (σl ∪ σr)) l.

Definition or_self (σ : env) (ms : list env) : list env := match ms with [] => [σ] | _ => ms end.

(** The joins.  A MARK join adds a column that says whether there is a match. *)
Definition join (jt : JoinType) (mark : ColumnBinding) (cond : env → bool) (l r : list env) : list env :=
  match jt with
  | INNER => l ≫= λ σl, matches cond σl r
  | LEFT => l ≫= λ σl, or_self σl (matches cond σl r)
  | RIGHT => r ≫= λ σr, or_self σr (rmatches cond l σr)
  | OUTER => (l ≫= λ σl, or_self σl (matches cond σl r)) ++ keep (λ σr, negb (rmatched cond l σr)) r
  | SEMI => keep (λ σl, matched cond σl r) l
  | ANTI => keep (λ σl, negb (matched cond σl r)) l
  | RIGHT_SEMI => keep (λ σr, rmatched cond l σr) r
  | RIGHT_ANTI => keep (λ σr, negb (rmatched cond l σr)) r
  | MARK => (λ σl, <[mark := Z.b2z (matched cond σl r)]> σl) <$> l
  | SINGLE | JOIN_INVALID => []
  end.

Section Eval.
  Context `{PlanSemantics} `{FilterContents}.

Definition join_condition (i : op_info) (σ : env) : bool := forallb (λ c, holds c σ) i.(conditions).
Definition mark_column (i : op_info) : ColumnBinding := mkBinding (default 0 (i.(table_indexes) !! 0%nat)) 0.

(** Filter [x] keeps a row, when it is on. *)
Definition lets_pass (on : nat → bool) (σ : env) (x : nat) : bool := implb (on x) (accepts x (key (applied_to x) σ)).

(** One operator, given the rows of its children. *)
Definition eval_op (on : nat → bool) (i : op_info) (rs : list (list env)) : list env :=
  match i.(otype), rs with
  | LOGICAL_USE_BF, [r] => keep (λ σ, forallb (lets_pass on σ) i.(filters_of)) r
  | LOGICAL_CREATE_BF, [r] | LOGICAL_PROJECTION, [r] => r
  | LOGICAL_FILTER, [r] => keep (λ σ, forallb (λ e, passes e σ) i.(expressions)) r
  | LOGICAL_COMPARISON_JOIN, [l; r] => join i.(join_type) (mark_column i) (join_condition i) l r
  | LOGICAL_CROSS_PRODUCT, [l; r] => join INNER (mark_column i) (λ _, true) l r
  | _, [r] => compute i r
  | _, _ => scan i
  end.

(** The rows of a plan, with the filters that are [on]. *)
Fixpoint eval (on : nat → bool) (op : LogicalOperator) : list env :=
  match op with Op i cs => eval_op on i (map (eval on) cs) end.
End Eval.

(** ** Rows of a join *)

Lemma elem_of_or_self σ ms τ : τ ∈ or_self σ ms → τ = σ ∨ τ ∈ ms.
Proof. destruct ms; simpl; [intros ->%list_elem_of_singleton; by left|by right]. Qed.

Lemma elem_of_matches cond σl r τ : τ ∈ matches cond σl r → ∃ σr, σr ∈ r ∧ cond (σl ∪ σr) = true ∧ τ = σl ∪ σr.
Proof. intros (σr & -> & [? ?]%elem_of_keep)%list_elem_of_fmap. eauto. Qed.

Lemma elem_of_rmatches cond l σr τ : τ ∈ rmatches cond l σr → ∃ σl, σl ∈ l ∧ cond (σl ∪ σr) = true ∧ τ = σl ∪ σr.
Proof. intros (σl & -> & [? ?]%elem_of_keep)%list_elem_of_fmap. eauto. Qed.

(** Every row of a join is a row of one side, maybe with a mark, or of both. *)
Lemma join_rows jt mark cond l r τ :
  τ ∈ join jt mark cond l r →
  (∃ σl σr, σl ∈ l ∧ σr ∈ r ∧ τ = σl ∪ σr) ∨ τ ∈ l ∨ τ ∈ r ∨ (jt = MARK ∧ ∃ σl v, σl ∈ l ∧ τ = <[mark := v]> σl).
Proof.
  assert (τ ∈ (l ≫= λ σl, or_self σl (matches cond σl r)) → (∃ σl σr, σl ∈ l ∧ σr ∈ r ∧ τ = σl ∪ σr) ∨ τ ∈ l) as Hleft.
  { intros (σl & [->|(σr & ? & _ & ->)%elem_of_matches]%elem_of_or_self & ?)%list_elem_of_bind; eauto 6. }
  destruct jt; simpl; try (intros [? _]%elem_of_keep; by auto); try (by intros ?%elem_of_nil).
  - intros ?%Hleft. naive_solver.
  - intros (σr & [->|(σl & ? & _ & ->)%elem_of_rmatches]%elem_of_or_self & ?)%list_elem_of_bind; eauto 8.
  - intros (σl & (σr & ? & _ & ->)%elem_of_matches & ?)%list_elem_of_bind. eauto 8.
  - intros [?%Hleft|[? _]%elem_of_keep]%elem_of_app; naive_solver.
  - intros (σl & -> & ?)%list_elem_of_fmap. eauto 10.
Qed.

(** ** Goodness

    [bs] are the columns a filter is applied to, [ok] says which keys it
    accepts.  A good row has all the columns and is accepted. *)

Section Good.
  Context (bs : list ColumnBinding) (ok : list (option Z) → bool).

Definition good (σ : env) : bool := bool_decide (Forall is_Some (key bs σ)) && ok (key bs σ).

Definition lacks (bs : list ColumnBinding) (σ : env) : Prop := Forall (λ b, σ !! b = None) bs.

Lemma key_union_l σl σr cs : lacks cs σr → key cs (σl ∪ σr) = key cs σl.
Proof.
  intros Hl. unfold key. apply list_fmap_ext. intros k b Hb. apply lookup_union_l. by eapply Forall_lookup_1 in Hl; [|done].
Qed.

Lemma key_union_r σl σr cs : lacks cs σl → key cs (σl ∪ σr) = key cs σr.
Proof.
  intros Hl. unfold key. apply list_fmap_ext. intros k b Hb. apply lookup_union_r. by eapply Forall_lookup_1 in Hl; [|done].
Qed.

Lemma key_insert cs mark v σ : mark ∉ cs → key cs (<[mark := v]> σ) = key cs σ.
Proof.
  intros Hm. unfold key. apply list_fmap_ext. intros k b Hb. apply lookup_insert_ne. intros ->. by apply Hm, list_elem_of_lookup_2 with k.
Qed.

Lemma good_union_l σl σr : lacks bs σr → good (σl ∪ σr) = good σl.
Proof. intros Hl. unfold good. by rewrite key_union_l. Qed.

Lemma good_union_r σl σr : lacks bs σl → good (σl ∪ σr) = good σr.
Proof. intros Hl. unfold good. by rewrite key_union_r. Qed.

Lemma lacks_not_good σ : bs ≠ [] → lacks bs σ → good σ = false.
Proof.
  intros Hne Hl. unfold good. rewrite bool_decide_false; [done|]. unfold key. rewrite Forall_fmap. destruct Hl as [|b bs' Hb _]; [done|].
  intros [H _]%Forall_cons. simpl in H. rewrite Hb in H. by destruct H.
Qed.

Context (Hbs : bs ≠ []).

Lemma good_or_self σ ms : lacks bs σ → keep good (or_self σ ms) = keep good ms.
Proof. intros Hl. destruct ms; [|done]. simpl. by rewrite lacks_not_good. Qed.

Lemma good_matches cond σl r : lacks bs σl → keep good (matches cond σl r) = matches cond σl (keep good r).
Proof.
  intros Hl. unfold matches. rewrite keep_map, (keep_comm (λ σr, cond _) good). f_equal.
  apply keep_ext. intros σr _. by apply good_union_r.
Qed.

Lemma good_rmatches cond l σr : lacks bs σr → keep good (rmatches cond l σr) = rmatches cond (keep good l) σr.
Proof.
  intros Hl. unfold rmatches. rewrite keep_map, (keep_comm (λ σl, cond _) good). f_equal.
  apply keep_ext. intros σl _. by apply good_union_l.
Qed.

Lemma keep_good_idem l : keep good (keep good l) = keep good l.
Proof. rewrite keep_keep. apply keep_ext. intros σ _. by destruct (good σ). Qed.

(** The good rows of a join come from the good rows of the side that has the columns. *)
Lemma join_good_left jt mark cond l r :
  mark ∉ bs ∨ jt ≠ MARK → Forall (lacks bs) r → keep good (join jt mark cond l r) = keep good (join jt mark cond (keep good l) r).
Proof.
  intros Hmark Hr. rewrite Forall_forall in Hr.
  assert (∀ f : env → list env, (∀ σl τ, τ ∈ f σl → τ = σl ∨ ∃ σr, σr ∈ r ∧ τ = σl ∪ σr) →
    ∀ l, keep good (l ≫= f) = keep good l ≫= f) as Hsrc.
  { intros f Hf l0. apply keep_bind_source. intros σl τ _ [->|(σr & Hσ & ->)]%Hf; [done|]. by apply good_union_l, Hr. }
  assert (∀ p, keep good (keep p r) = []) as Hnone.
  { intros p. apply keep_none. intros σ [Hσ _]%elem_of_keep. by apply lacks_not_good, Hr. }
  assert (∀ σl τ, τ ∈ or_self σl (matches cond σl r) → τ = σl ∨ ∃ σr, σr ∈ r ∧ τ = σl ∪ σr) as Hself.
  { intros σl τ [->|(σr & ? & _ & ->)%elem_of_matches]%elem_of_or_self; eauto. }
  destruct jt; simpl; try done.
  - by rewrite !Hsrc, keep_good_idem.
  - rewrite !(keep_bind good _ (λ σr, rmatches cond (keep good l) σr)); [done|..];
      intros σr Hσ; rewrite good_or_self, good_rmatches, ?keep_good_idem by auto; done.
  - by rewrite !Hsrc, keep_good_idem by (intros σl τ (σr & ? & _ & ->)%elem_of_matches; eauto).
  - by rewrite !keep_app, !Hsrc, keep_good_idem, !Hnone.
  - by rewrite !(keep_comm good), keep_good_idem.
  - by rewrite !(keep_comm good), keep_good_idem.
  - destruct Hmark as [Hmark|]; [|done]. rewrite !keep_map, !(keep_ext (λ σ, good (<[mark:=_]> σ)) good), keep_good_idem; [done|..];
      intros σ _; unfold good; by rewrite key_insert.
  - by rewrite !Hnone.
  - by rewrite !Hnone.
Qed.

Lemma join_good_right jt mark cond l r :
  mark ∉ bs ∨ jt ≠ MARK → Forall (lacks bs) l → keep good (join jt mark cond l r) = keep good (join jt mark cond l (keep good r)).
Proof.
  intros Hmark Hl. rewrite Forall_forall in Hl.
  assert (∀ f : env → list env, (∀ σr τ, τ ∈ f σr → τ = σr ∨ ∃ σl, σl ∈ l ∧ τ = σl ∪ σr) →
    ∀ r, keep good (r ≫= f) = keep good r ≫= f) as Hsrc.
  { intros f Hf r0. apply keep_bind_source. intros σr τ _ [->|(σl & Hσ & ->)]%Hf; [done|]. by apply good_union_r, Hl. }
  assert (∀ p, keep good (keep p l) = []) as Hnone.
  { intros p. apply keep_none. intros σ [Hσ _]%elem_of_keep. by apply lacks_not_good, Hl. }
  assert (∀ r0, keep good (l ≫= λ σl, or_self σl (matches cond σl r0)) = l ≫= λ σl, matches cond σl (keep good r0)) as Hleft.
  { intros r0. apply keep_bind. intros σl Hσ. rewrite good_or_self, good_matches by auto. done. }
  destruct jt; simpl; try done.
  - by rewrite !Hleft, keep_good_idem.
  - by rewrite !Hsrc, keep_good_idem by (intros σr τ [->|(σl & ? & _ & ->)%elem_of_rmatches]%elem_of_or_self; eauto).
  - rewrite !(keep_bind good _ (λ σl, matches cond σl (keep good r))); [done|..];
      intros σl Hσ; rewrite good_matches, ?keep_good_idem by auto; done.
  - by rewrite !keep_app, !Hleft, keep_good_idem, !(keep_comm good), keep_good_idem.
  - by rewrite !Hnone.
  - by rewrite !Hnone.
  - destruct Hmark as [Hmark|]; [|done]. rewrite !keep_map. rewrite !(keep_none _ l); [done|..]; intros σ Hσ;
      unfold good; rewrite key_insert by done; by apply lacks_not_good, Hl.
  - by rewrite !(keep_comm good), keep_good_idem.
  - by rewrite !(keep_comm good), keep_good_idem.
Qed.

(** A join that only pairs good rows of a side it does not preserve. *)
Lemma join_same_left jt mark cond l r :
  jt ∈ [INNER; RIGHT; SEMI; RIGHT_SEMI] → (∀ σl σr, σl ∈ l → σr ∈ r → cond (σl ∪ σr) = true → good σl = true) →
  join jt mark cond l r = join jt mark cond (keep good l) r.
Proof.
  intros Hjt Hg. assert (∀ σr, σr ∈ r → rmatches cond (keep good l) σr = rmatches cond l σr) as Hm.
  { intros σr Hr. unfold rmatches. f_equal. rewrite keep_keep. apply keep_ext. intros σl Hσ.
    destruct (cond (σl ∪ σr)) eqn:E; [by rewrite (Hg σl σr)|by destruct (good σl)]. }
  repeat (apply elem_of_cons in Hjt as [->|Hjt]); [..|set_solver]; simpl.
  - symmetry. apply bind_keep. intros σl Hσ Hb. unfold matches. rewrite keep_none; [done|]. intros σr Hr.
    destruct (cond (σl ∪ σr)) eqn:E; [|done]. by rewrite (Hg σl σr) in Hb.
  - apply bind_ext_in. intros σr Hr. by rewrite Hm.
  - rewrite keep_keep. apply keep_ext. intros σl Hσ. destruct (good σl) eqn:E; [done|]. unfold matched. simpl.
    apply not_true_is_false. intros (σr & Hr%list_elem_of_In & Hc)%existsb_exists. by rewrite (Hg σl σr) in E.
  - apply keep_ext. intros σr Hr. symmetry. apply existsb_keep. eauto.
Qed.

Lemma join_same_right jt mark cond l r :
  jt ∈ [INNER; LEFT; SEMI; RIGHT_SEMI] → (∀ σl σr, σl ∈ l → σr ∈ r → cond (σl ∪ σr) = true → good σr = true) →
  join jt mark cond l r = join jt mark cond l (keep good r).
Proof.
  intros Hjt Hg. assert (∀ σl, σl ∈ l → matches cond σl (keep good r) = matches cond σl r) as Hm.
  { intros σl Hσl. unfold matches. f_equal. rewrite keep_keep. apply keep_ext. intros σr Hσ.
    destruct (cond (σl ∪ σr)) eqn:E; [by rewrite (Hg σl σr)|by destruct (good σr)]. }
  repeat (apply elem_of_cons in Hjt as [->|Hjt]); [..|set_solver]; simpl.
  - apply bind_ext_in. intros σl Hσl. by rewrite Hm.
  - apply bind_ext_in. intros σl Hσl. by rewrite Hm.
  - apply keep_ext. intros σl Hσl. symmetry. apply existsb_keep. eauto.
  - rewrite keep_keep. apply keep_ext. intros σr Hσ. destruct (good σr) eqn:E; [done|]. unfold rmatched. simpl.
    apply not_true_is_false. intros (σl & Hl%list_elem_of_In & Hc)%existsb_exists. by rewrite (Hg σl σr) in E.
Qed.
End Good.

(** ** One more filter *)

(** The tables whose columns the rows of a plan can have. *)
Definition own_tables (i : op_info) (n : nat) : list Z :=
  match i.(otype), n with
  | LOGICAL_USE_BF, 1%nat | LOGICAL_CREATE_BF, 1%nat | LOGICAL_PROJECTION, 1%nat | LOGICAL_FILTER, 1%nat | LOGICAL_CROSS_PRODUCT, 2%nat => []
  | LOGICAL_COMPARISON_JOIN, 2%nat => match i.(join_type) with MARK => [(mark_column i).(table_index)] | _ => [] end
  | _, _ => i.(table_indexes)
  end.

Fixpoint tables (op : LogicalOperator) : list Z :=
  match op with Op i cs => own_tables i (length cs) ++ concat (map tables cs) end.

(** No column of [bs] is a column of the plan. *)
Definition apart (bs : list ColumnBinding) (op : LogicalOperator) : Prop := Forall (λ b, b.(table_index) ∉ tables op) bs.

(** No operator of the plan uses filter [x]. *)
Definition unused (x : nat) (t : op_info) : Prop := t.(otype) = LOGICAL_USE_BF → x ∉ t.(filters_of).
Definition free (x : nat) (op : LogicalOperator) : Prop := Forall (unused x) (infos op).

Definition is_join (i : op_info) : Prop := i.(otype) = LOGICAL_COMPARISON_JOIN ∨ i.(otype) = LOGICAL_CROSS_PRODUCT.
Definition hands_rows_on (i : op_info) : Prop :=
  i.(otype) ∈ [LOGICAL_USE_BF; LOGICAL_CREATE_BF; LOGICAL_PROJECTION; LOGICAL_FILTER].

(** The mark a join adds, if it adds one, is none of the columns [bs]. *)
Definition no_mark (bs : list ColumnBinding) (i : op_info) : Prop :=
  i.(otype) = LOGICAL_COMPARISON_JOIN → mark_column i ∉ bs ∨ i.(join_type) ≠ MARK.

Section Step.
  Context {sem : PlanSemantics} (resolve : ColumnBinding → ColumnBinding) {semok : PlanSemanticsOk resolve} {fc : FilterContents}.

Lemma unary_rows on i r σ : hands_rows_on i → σ ∈ eval_op on i [r] → σ ∈ r.
Proof.
  unfold hands_rows_on, eval_op. intros Hi. repeat (apply elem_of_cons in Hi as [->|Hi]); [..|set_solver]; try done;
    by intros [? _]%elem_of_keep.
Qed.

Lemma binary_rows on i l r : is_join i →
  ∃ jt cond, eval_op on i [l; r] = join jt (mark_column i) cond l r ∧ (jt = MARK → i.(otype) = LOGICAL_COMPARISON_JOIN ∧ i.(join_type) = MARK).
Proof.
  intros [E|E]; unfold eval_op; rewrite E; [by exists i.(join_type), (join_condition i)|by exists INNER, (λ _, true)].
Qed.

(** Rows only have columns of the tables below them. *)
Lemma eval_tables on op σ b : σ ∈ eval on op → is_Some (σ !! b) → b.(table_index) ∈ tables op.
Proof.
  revert σ. induction op as [i cs IH] using LogicalOperator_nested_ind. intros σ. simpl. rewrite elem_of_app.
  assert (own_tables i (length cs) = i.(table_indexes) → σ ∈ scan i → is_Some (σ !! b) → b.(table_index) ∈ own_tables i (length cs)) as Hscan.
  { intros ->. apply scan_columns. }
  destruct cs as [|l [|r [|? ?]]]; simpl in *; rewrite ?app_nil_r.
  - intros Hσ Hb. left. apply Hscan; [| |done]; unfold own_tables, eval_op in *; by destruct (otype i).
  - apply Forall_cons in IH as [IH _]. destruct (decide (hands_rows_on i)) as [Hi|Hi].
    + intros Hσ%unary_rows Hb; [|done]. right. eauto.
    + assert (own_tables i 1 = i.(table_indexes) ∧ eval_op on i [eval on l] = compute i (eval on l)) as [-> ->].
      { unfold hands_rows_on, own_tables, eval_op in *. destruct (otype i); try done; by destruct Hi; set_solver. }
      intros Hσ Hb. destruct (compute_columns _ _ _ _ Hσ Hb) as [?|(σ' & ? & ?)]; eauto.
  - apply Forall_cons in IH as [IHl [IHr _]%Forall_cons]. destruct (decide (i.(otype) = LOGICAL_COMPARISON_JOIN ∨ i.(otype) = LOGICAL_CROSS_PRODUCT)) as [Hi|Hi].
    + destruct (binary_rows on i (eval on l) (eval on r) Hi) as (jt & cond & -> & Hm). rewrite elem_of_app.
      intros [(σl & σr & Hl & Hr & ->)|[Hl|[Hr|(-> & σl & v & Hl & ->)]]]%join_rows Hb; [|by eauto|by eauto|].
      * rewrite lookup_union_is_Some in Hb. destruct Hb; eauto.
      * destruct (Hm eq_refl) as [E1 E2]. unfold own_tables. rewrite E1, E2.
        destruct (decide (b = mark_column i)) as [->|Hne]; [set_solver|]. rewrite lookup_insert_ne in Hb by done. eauto.
    + intros Hσ Hb. left. apply Hscan; [| |done]; unfold own_tables, eval_op in *; destruct (otype i); try done; destruct Hi; auto.
  - intros Hσ Hb. left. apply Hscan; [| |done]; unfold own_tables, eval_op in *; by destruct (otype i).
Qed.

Lemma apart_lacks bs on op : apart bs op → Forall (lacks bs) (eval on op).
Proof.
  intros Ha. apply Forall_forall. intros σ Hσ. eapply Forall_impl; [exact Ha|]. intros b Hb.
  apply eq_None_not_Some. intros Hs. by apply Hb, (eval_tables on op σ).
Qed.

Lemma row_lacks bs on op σ : apart bs op → σ ∈ eval on op → lacks bs σ.
Proof. intros Ha Hσ. pose proof (apart_lacks bs on op Ha) as Hl. rewrite Forall_forall in Hl. by apply Hl. Qed.

Context (x : nat) (on : nat → bool).

Definition on' (y : nat) : bool := on y || bool_decide (y = x).

Lemma unused_pass i r : unused x i → eval_op on' i [r] = eval_op on i [r].
Proof.
  intros Hu. unfold eval_op. destruct (otype i) eqn:E; try done. apply keep_ext. intros σ _.
  assert (∀ y, y ∈ i.(filters_of) → lets_pass on' σ y = lets_pass on σ y) as Hy.
  { intros y Hy. unfold lets_pass, on'. rewrite bool_decide_false, orb_false_r; [done|]. intros ->. by apply Hu. }
  clear Hu. induction (filters_of i) as [|y ys IH]; [done|]. simpl. rewrite Hy by left. rewrite IH; [done|]. intros z Hz. apply Hy. by right.
Qed.

Lemma unused_op i rs : unused x i → eval_op on' i rs = eval_op on i rs.
Proof.
  intros Hu. destruct rs as [|r [|? ?]]; [|by apply unused_pass|]; unfold eval_op; by destruct (otype i).
Qed.

Lemma free_children i cs : free x (Op i cs) → unused x i ∧ Forall (free x) cs.
Proof.
  unfold free. simpl. intros [Hi Hc]%Forall_cons. split; [done|]. clear Hi. induction cs as [|c cs IH]; [done|]. simpl in Hc.
  apply Forall_app in Hc as [Hc Hcs]. constructor; auto.
Qed.

Lemma free_eval op : free x op → eval on' op = eval on op.
Proof.
  induction op as [i cs IH] using LogicalOperator_nested_ind. intros [Hi Hc]%free_children. simpl. rewrite unused_op by done. f_equal.
  induction IH as [|c cs Hcc _ IHs]; [done|]. apply Forall_cons in Hc as [Hf Hc]. simpl. by rewrite Hcc, IHs.
Qed.

Let goodx : env → bool := good (applied_to x) (accepts x).

(** The filter is used on one side only, the one that has the columns. *)
Fixpoint sited (op : LogicalOperator) : Prop :=
  match op with
  | Op i [] => True
  | Op i [c] => hands_rows_on i ∧ sited c
  | Op i [l; r] => no_mark (applied_to x) i ∧
      ((sited l ∧ free x r ∧ apart (applied_to x) r) ∨ (sited r ∧ free x l ∧ apart (applied_to x) l))
  | _ => False
  end.

Context (Happ : applied_to x ≠ []).

Lemma good_use i r : keep goodx (eval_op on' i [r]) = keep goodx (eval_op on i [r]).
Proof.
  unfold eval_op. destruct (otype i) eqn:E; try done. rewrite !keep_keep. apply keep_ext. intros σ _.
  destruct (goodx σ) eqn:Eg; [|by rewrite !andb_false_r]. rewrite !andb_true_r.
  apply andb_true_iff in Eg as [_ Eg]. induction (filters_of i) as [|y ys IH]; [done|]. simpl. rewrite IH. f_equal.
  unfold lets_pass, on'. case_bool_decide as Hy; [subst y; rewrite Eg; by rewrite !implb_true_r|by rewrite orb_false_r].
Qed.

(** Below the join, the filter takes no good row away and adds none. *)
Lemma good_unary o i r r' :
  hands_rows_on i → keep goodx r = keep goodx r' → keep goodx (eval_op o i [r]) = keep goodx (eval_op o i [r']).
Proof.
  unfold hands_rows_on, eval_op. intros Hi Hr. repeat (apply elem_of_cons in Hi as [->|Hi]); [..|set_solver]; try done;
    by rewrite !(keep_comm goodx), Hr.
Qed.

Lemma good_binary_l o i l l' r :
  no_mark (applied_to x) i → Forall (lacks (applied_to x)) r → keep goodx l = keep goodx l' →
  keep goodx (eval_op o i [l; r]) = keep goodx (eval_op o i [l'; r]).
Proof.
  intros Hm Hr Hl. unfold eval_op. destruct (otype i) eqn:E; try done.
  - specialize (Hm E). unfold goodx. rewrite join_good_left by done. rewrite (join_good_left _ _ Happ _ _ _ l') by done. by fold goodx; rewrite Hl.
  - unfold goodx. rewrite join_good_left by auto. rewrite (join_good_left _ _ Happ _ _ _ l') by auto. by fold goodx; rewrite Hl.
Qed.

Lemma good_binary_r o i l r r' :
  no_mark (applied_to x) i → Forall (lacks (applied_to x)) l → keep goodx r = keep goodx r' →
  keep goodx (eval_op o i [l; r]) = keep goodx (eval_op o i [l; r']).
Proof.
  intros Hm Hl Hr. unfold eval_op. destruct (otype i) eqn:E; try done.
  - specialize (Hm E). unfold goodx. rewrite join_good_right by done. rewrite (join_good_right _ _ Happ _ _ _ _ r') by done. by fold goodx; rewrite Hr.
  - unfold goodx. rewrite join_good_right by auto. rewrite (join_good_right _ _ Happ _ _ _ _ r') by auto. by fold goodx; rewrite Hr.
Qed.

Lemma sited_good op : sited op → keep goodx (eval on' op) = keep goodx (eval on op).
Proof.
  induction op as [i cs IH] using LogicalOperator_nested_ind. destruct cs as [|l [|r [|? ?]]]; simpl; [| | |done].
  - intros _. unfold eval_op. by destruct (otype i).
  - apply Forall_cons in IH as [IH _]. intros [Hi Hs]. rewrite good_use. by apply good_unary, IH.
  - apply Forall_cons in IH as [IHl [IHr _]%Forall_cons].
    assert (∀ a b, eval_op on' i [a; b] = eval_op on i [a; b]) as Hop by (intros; unfold eval_op; by destruct (otype i)).
    intros (Hm & [(Hs & Hf & Ha)|(Hs & Hf & Ha)]); rewrite Hop, (free_eval _ Hf).
    + apply good_binary_l; [done|by apply apart_lacks|auto].
    + apply good_binary_r; [done|by apply apart_lacks|auto].
Qed.

(** The rows have keys the filter accepts: the columns it is built on come
    from below the operator that creates it. *)
Inductive covered : LogicalOperator → Prop :=
| covered_apart op : apart (built_on x) op → covered op
| covered_create i c : i.(otype) = LOGICAL_CREATE_BF → (∀ σ, σ ∈ eval on c → accepts x (key (built_on x) σ) = true) → covered (Op i [c])
| covered_unary i c : hands_rows_on i → covered c → covered (Op i [c])
| covered_left i l r : is_join i → no_mark (built_on x) i → covered l → apart (built_on x) r → covered (Op i [l; r])
| covered_right i l r : is_join i → no_mark (built_on x) i → covered r → apart (built_on x) l → covered (Op i [l; r]).

Context (Hbuilt : built_on x ≠ []).

Lemma lacks_no_key bs σ : bs ≠ [] → lacks bs σ → ¬ Forall is_Some (key bs σ).
Proof.
  intros Hne Hl Hk. unfold key in Hk. rewrite Forall_fmap in Hk. destruct Hl as [|b bs' Hb _]; [done|].
  apply Forall_cons in Hk as [Hk _]. simpl in Hk. rewrite Hb in Hk. by destruct Hk.
Qed.

Lemma covered_join i l r σ :
  is_join i → no_mark (built_on x) i → σ ∈ eval_op on i [l; r] → Forall is_Some (key (built_on x) σ) →
  (Forall (lacks (built_on x)) r ∧ ∃ σl, σl ∈ l ∧ key (built_on x) σ = key (built_on x) σl) ∨
  (Forall (lacks (built_on x)) l ∧ ∃ σr, σr ∈ r ∧ key (built_on x) σ = key (built_on x) σr) ∨
  (¬ Forall (lacks (built_on x)) l ∧ ¬ Forall (lacks (built_on x)) r).
Proof.
  intros Hi Hm Hσ Hk. destruct (binary_rows on i l r Hi) as (jt & cond & E & HM). rewrite E in Hσ. clear E.
  assert (∀ l : list env, Forall (lacks (built_on x)) l ∨ ¬ Forall (lacks (built_on x)) l) as Hdec.
  { intros l0. unfold lacks. destruct (decide (Forall (λ σ : env, Forall (λ b, σ !! b = None) (built_on x)) l0)); auto. }
  destruct (Hdec r) as [Hr|Hr]; [left|destruct (Hdec l) as [Hl|Hl]; [right; left|by right; right]]; (split; [done|]).
  - rewrite Forall_forall in Hr. apply join_rows in Hσ as [(σl & σr & Hl & Hσ & ->)|[Hl|[Hσ|(-> & σl & v & Hl & ->)]]].
    + exists σl. split; [done|]. apply key_union_l; auto.
    + eauto.
    + by destruct (lacks_no_key (built_on x) σ Hbuilt (Hr σ Hσ)).
    + exists σl. split; [done|]. destruct (HM eq_refl) as [Hi' ?], (Hm Hi'); [by apply key_insert|done].
  - rewrite Forall_forall in Hl. apply join_rows in Hσ as [(σl & σr & Hσl & Hσ & ->)|[Hσ|[Hσ|(-> & σl & v & Hσ & ->)]]].
    + exists σr. split; [done|]. apply key_union_r; auto.
    + by destruct (lacks_no_key (built_on x) σ Hbuilt (Hl σ Hσ)).
    + eauto.
    + destruct (HM eq_refl) as [Hi' ?], (Hm Hi'); [|done]. rewrite key_insert in Hk by done.
      by destruct (lacks_no_key (built_on x) σl Hbuilt (Hl σl Hσ)).
Qed.

Lemma covered_accepts op σ :
  covered op → σ ∈ eval on op → Forall is_Some (key (built_on x) σ) → accepts x (key (built_on x) σ) = true.
Proof.
  intros Hc. revert σ. induction Hc as [op Ha|i c Hi Ha|i c Hi _ IH|i l r Hi Hm _ IH Ha|i l r Hi Hm _ IH Ha]; intros σ Hσ Hk.
  - pose proof (apart_lacks _ on _ Ha) as Hl. rewrite Forall_forall in Hl. by destruct (lacks_no_key _ _ Hbuilt (Hl σ Hσ)).
  - simpl in Hσ. unfold eval_op in Hσ. rewrite Hi in Hσ. by apply Ha.
  - by apply IH; [apply unary_rows in Hσ|].
  - pose proof (apart_lacks _ on _ Ha) as Hl. simpl in Hσ.
    destruct (covered_join i _ _ σ Hi Hm Hσ Hk) as [(_ & σl & Hσl & E)|[(Hll & σr & Hσr & E)|[_ ?]]]; [| |done].
    + rewrite E in *. by apply IH.
    + rewrite E in Hk. rewrite Forall_forall in Hl. by destruct (lacks_no_key _ _ Hbuilt (Hl σr Hσr)).
  - pose proof (apart_lacks _ on _ Ha) as Hl. simpl in Hσ.
    destruct (covered_join i _ _ σ Hi Hm Hσ Hk) as [(Hrr & σl & Hσl & E)|[(_ & σr & Hσr & E)|[? _]]]; [| |done].
    + rewrite E in Hk. rewrite Forall_forall in Hl. by destruct (lacks_no_key _ _ Hbuilt (Hl σl Hσl)).
    + rewrite E in *. by apply IH.
Qed.

(** A join whose condition equates the columns of the filter. *)
Definition equates (i : op_info) : Prop :=
  ∀ σ, join_condition i σ = true → key (applied_to x) σ = key (built_on x) σ ∧ Forall is_Some (key (built_on x) σ).

(** The filter can be turned on. *)
#[warnings="-register-all"] Inductive ready : LogicalOperator → Prop :=
| ready_op i cs : unused x i → Forall ready cs → ready (Op i cs)
| ready_left i l r : i.(otype) = LOGICAL_COMPARISON_JOIN → i.(join_type) ∈ [INNER; RIGHT; SEMI; RIGHT_SEMI] → equates i →
    sited l → apart (built_on x) l → free x r → apart (applied_to x) r → covered r → ready (Op i [l; r])
| ready_right i l r : i.(otype) = LOGICAL_COMPARISON_JOIN → i.(join_type) ∈ [INNER; LEFT; SEMI; RIGHT_SEMI] → equates i →
    sited r → apart (built_on x) r → free x l → apart (applied_to x) l → covered l → ready (Op i [l; r]).

(** Turning the filter on does not change the rows. *)
Lemma ready_eval op : ready op → eval on' op = eval on op.
Proof.
  induction op as [i cs IH] using LogicalOperator_nested_ind. intros Hr.
  inversion Hr as [i' cs' Hu Hcs|i' l r Ht Hjt Heq Hs Hbl Hf Ha Hc|i' l r Ht Hjt Heq Hs Hbr Hf Ha Hc]; subst i' cs; simpl.
  - rewrite unused_op by done. f_equal. clear Hr Hu. induction IH as [|c cs Hcc _ IHs]; [done|].
    apply Forall_cons in Hcs as [Hrc Hcs]. simpl. by rewrite Hcc, IHs.
  - unfold eval_op. rewrite Ht, (free_eval _ Hf). pose proof (sited_good l Hs) as Hg.
    rewrite (join_same_left (applied_to x) (accepts x) Happ _ _ _ (eval on' l)), (join_same_left (applied_to x) (accepts x) Happ _ _ _ (eval on l)); try done;
      [fold goodx; by rewrite Hg|..];
      intros σl σr Hσl Hσr [Ek Hk]%Heq; pose proof (row_lacks _ _ _ _ Ha Hσr) as HA; pose proof (row_lacks _ _ _ _ Hbl Hσl) as HB;
      rewrite (key_union_l _ _ _ HA) in Ek; rewrite (key_union_r _ _ _ HB) in Ek, Hk;
      unfold good; rewrite Ek, bool_decide_true by done; by apply (covered_accepts r).
  - unfold eval_op. rewrite Ht, (free_eval _ Hf). pose proof (sited_good r Hs) as Hg.
    rewrite (join_same_right (applied_to x) (accepts x) Happ _ _ _ _ (eval on' r)), (join_same_right (applied_to x) (accepts x) Happ _ _ _ _ (eval on r)); try done;
      [fold goodx; by rewrite Hg|..];
      intros σl σr Hσl Hσr [Ek Hk]%Heq; pose proof (row_lacks _ _ _ _ Ha Hσl) as HA; pose proof (row_lacks _ _ _ _ Hbr Hσr) as HB;
      rewrite (key_union_r _ _ _ HA) in Ek; rewrite (key_union_l _ _ _ HB) in Ek, Hk;
      unfold good; rewrite Ek, bool_decide_true by done; by apply (covered_accepts l).
Qed.
End Step.
