(* ===== verification/TransferSound.v ===== *)
(** * TransferSound: predicate transfer keeps the result of a query

    The plan [PredicateTransferOptimizer::Optimize] returns computes the rows
    of the plan it is given, in the same order, with any filters that accept
    the keys they are built from.  The argument turns the filters on one at a
    time, in the order of the passes. *)

From S2P Require Import Prelude BloomFilter LogicalPlan NodesManager Dag DagOrder DagDirections DagBuild TransferOptimizer TransferInsert PlanTree TransferPasses TransferCorrect PlanSemantics.
Local Open Scope Z_scope.
Local Open Scope machine_scope.

(** ** Evaluation and filters *)

Section Agree.
  Context `{PlanSemantics} `{FilterContents}.

(** Only the filters a plan uses matter. *)
Definition filters_used (op : LogicalOperator) (x : nat) : Prop := ∃ t, t ∈ infos op ∧ t.(otype) = LOGICAL_USE_BF ∧ x ∈ t.(filters_of).

Lemma eval_agree on1 on2 op : (∀ x, filters_used op x → on1 x = on2 x) → eval on1 op = eval on2 op.
Proof.
  induction op as [i cs IH] using LogicalOperator_nested_ind. intros Hon. simpl.
  assert (map (eval on1) cs = map (eval on2) cs) as ->.
  { apply map_ext_in. intros c Hc%list_elem_of_In. rewrite Forall_forall in IH. apply IH; [done|].
    intros x (t & Ht & ?). apply Hon. exists t. split; [by eapply infos_child|done]. }
  unfold eval_op. destruct (otype i) eqn:E; try done. destruct (map (eval on2) cs) as [|r [|? ?]]; try done.
  apply keep_ext. intros σ _. assert (∀ y, y ∈ i.(filters_of) → on1 y = on2 y) as Hy.
  { intros y Hy. apply Hon. exists i. split_and!; [left|done|done]. }
  induction (filters_of i) as [|y ys IHy]; [done|]. simpl. unfold lets_pass at 1 3. rewrite Hy by left.
  rewrite IHy; [done|]. intros z Hz. apply Hy. by right.
Qed.

(** Without filters, the filter operators do nothing. *)
Lemma eval_erase op : eval (λ _, false) op = eval (λ _, false) (erase op).
Proof.
  induction op as [i cs IH] using LogicalOperator_nested_ind.
  assert (map (eval (λ _, false)) cs = map (eval (λ _, false)) (map erase cs)) as Hcs.
  { rewrite map_map. apply map_ext_in. intros c Hc%list_elem_of_In. rewrite Forall_forall in IH. by apply IH. }
  simpl. destruct (is_filter_op (otype i)) eqn:Ef; [|simpl; by rewrite Hcs].
  destruct cs as [|c [|? ?]]; [done| |simpl in *; by rewrite Hcs].
  apply Forall_cons in IH as [IH _]. simpl. rewrite <- IH. unfold eval_op. destruct (otype i); try done.
  apply keep_all. intros σ _. induction (filters_of i) as [|y ys IHy]; [done|]. by simpl.
Qed.
End Agree.

(** ** Chains of filter operators *)

Lemma add_bottom_ind (Q : LogicalOperator → Prop) op p :
  chain op → (∀ t c, t ∈ infos op → is_filter_op t.(otype) = true → Q c → Q (Op t [c])) → Q p → Q (add_bottom op p).
Proof.
  intros Hc Hstep Hp. induction op as [i cs IH] using LogicalOperator_nested_ind. destruct Hc as [Hf Hc].
  destruct cs as [|c [|? ?]]; simpl; [apply Hstep; [left|done|done]| |done].
  apply Forall_cons in IH as [IH _]. apply Hstep; [left|done|]. apply IH; [done|]. intros t q Ht. apply Hstep. simpl. rewrite app_nil_r. by right.
Qed.

Lemma add_bottom_sub op p c : c ∈ suboperators p → c ∈ suboperators (add_bottom op p).
Proof.
  intros Hc. induction op as [i cs IH] using LogicalOperator_nested_ind. destruct cs as [|d cs]; simpl; right; rewrite elem_of_app; left; [done|].
  by apply Forall_cons in IH as [IH _].
Qed.

(** ** Plans with a meaning *)

(** Below a join, operators with one child hand its rows on. *)
Definition streams (op : LogicalOperator) : Prop :=
  match op with Op i [_] => i.(otype) ∈ [LOGICAL_PROJECTION; LOGICAL_FILTER] | _ => True end.
Definition streaming (op : LogicalOperator) : Prop := Forall streams (suboperators op).

(** The operators [eval] gives a meaning to: scans, any operators with one
    child above the joins, and projections and filters below them. *)
Definition supported (op : LogicalOperator) : Prop :=
  match op with
  | Op i [] => i.(otype) ∈ [LOGICAL_GET; LOGICAL_EXPRESSION_GET; LOGICAL_DUMMY_SCAN; LOGICAL_EMPTY_RESULT]
  | Op i [_] => i.(otype) ∉ [LOGICAL_COMPARISON_JOIN; LOGICAL_CROSS_PRODUCT; LOGICAL_DELIM_JOIN]
  | Op i [l; r] => (i.(otype) = LOGICAL_CROSS_PRODUCT ∨
      i.(otype) = LOGICAL_COMPARISON_JOIN ∧ i.(join_type) ∈ [INNER; LEFT; RIGHT; OUTER; SEMI; ANTI; RIGHT_SEMI; RIGHT_ANTI]) ∧
      streaming l ∧ streaming r
  | _ => False
  end.

#[global] Instance streams_dec op : Decision (streams op).
Proof. destruct op as [i [|? [|? ?]]]; simpl; apply _. Defined.
#[global] Instance supported_dec op : Decision (supported op).
Proof. destruct op as [i [|l [|r [|? ?]]]]; simpl; unfold streaming; apply _. Defined.

(** The scan of table [k], maybe below a filter. *)
Definition base_op (k : Z) (op : LogicalOperator) : Prop :=
  match op with
  | Op i [] => i.(table_indexes) = [k]
  | Op i [Op g []] => i.(otype) = LOGICAL_FILTER ∧ g.(table_indexes) = [k]
  | _ => False
  end.

(** The join compares the two columns. *)
Definition compares (nm : NodesManager) (i : op_info) (cb ca : ColumnBinding) : Prop :=
  ∃ c, c ∈ i.(conditions) ∧ c.(comparison) = COMPARE_EQUAL ∧ etype c.(left) = TYPE_BOUND_COLUMN_REF ∧ etype c.(right) = TYPE_BOUND_COLUMN_REF ∧
    ((FindRename nm (ebinding c.(left)) = Ret cb ∧ FindRename nm (ebinding c.(right)) = Ret ca) ∨
     (FindRename nm (ebinding c.(left)) = Ret ca ∧ FindRename nm (ebinding c.(right)) = Ret cb)).

(** Where the tables of two columns meet, a join compares the columns and does
    not preserve the side of [ca]. *)
Definition equated (nm : NodesManager) (plan : LogicalOperator) (cb ca : ColumnBinding) : Prop :=
  ∀ i l r, Op i [l; r] ∈ suboperators plan →
    (ca.(table_index) ∈ tables l → cb.(table_index) ∈ tables r →
      i.(otype) = LOGICAL_COMPARISON_JOIN ∧ i.(join_type) ∈ [INNER; RIGHT; SEMI; RIGHT_SEMI] ∧ compares nm i cb ca) ∧
    (ca.(table_index) ∈ tables r → cb.(table_index) ∈ tables l →
      i.(otype) = LOGICAL_COMPARISON_JOIN ∧ i.(join_type) ∈ [INNER; LEFT; SEMI; RIGHT_SEMI] ∧ compares nm i cb ca).

(** A plan [Optimize] may be given: it has a meaning, its tables are distinct,
    the nodes the filters go between are its scans, and it has the conditions
    of the joins of the plan the transfer graph was built from. *)
Record transfer_plan (nm : NodesManager) (joins : list LogicalOperator) (plan : LogicalOperator) : Prop := {
  tp_supported : Forall supported (suboperators plan);
  tp_tables : NoDup (tables plan);
  tp_nodes : ∀ k op cb ca, nm.(nodes) !! k = Some op → justified nm joins cb ca → cb.(table_index) = k ∨ ca.(table_index) = k → ∃ op', op' ∈ suboperators plan ∧ address op' = address op ∧ base_op k op';
  tp_conditions : ∀ cb ca, justified nm joins cb ca → equated nm plan cb ca
}.

Lemma base_op_tables k op : base_op k op → tables op = [k].
Proof.
  destruct op as [i [|[g [|? ?]] [|? ?]]]; simpl; try done.
  - intros <-. unfold own_tables. rewrite app_nil_r. by destruct (otype i).
  - intros [Hi <-]. unfold own_tables at 1. rewrite Hi. simpl. rewrite !app_nil_r. unfold own_tables. by destruct (otype g).
Qed.

Lemma tables_sub c op k : c ∈ suboperators op → k ∈ tables c → k ∈ tables op.
Proof.
  induction op as [i cs IH] using LogicalOperator_nested_ind. intros [->|(d & Hd & Hc)]%suboperators_cases Hk; [done|].
  simpl. apply elem_of_app. right. apply list_elem_of_In, in_concat. exists (tables d). split; [by apply in_map, list_elem_of_In|].
  apply list_elem_of_In. rewrite Forall_forall in IH. by apply IH.
Qed.

Lemma tables_sub_nodup c op : NoDup (tables op) → c ∈ suboperators op → NoDup (tables c).
Proof.
  induction op as [i cs IH] using LogicalOperator_nested_ind. intros Hn [->|(d & Hd & Hc)]%suboperators_cases; [done|].
  rewrite Forall_forall in IH. apply (IH d Hd); [|done]. simpl in Hn. apply NoDup_app in Hn as (_ & _ & Hn).
  eapply NoDup_concat_elem; [exact Hn|]. apply list_elem_of_In, in_map. by apply list_elem_of_In.
Qed.

(** Decorating keeps what is below what. *)
Lemma decorate_sub maps plan S c : S ∈ suboperators plan → c ∈ suboperators (decorate maps S) → c ∈ suboperators (decorate maps plan).
Proof.
  induction plan as [j cs IH] using LogicalOperator_nested_ind.
  intros [->|(d & Hd & HS)]%suboperators_cases Hc; [done|]. rewrite Forall_forall in IH.
  assert (c ∈ suboperators (Op j (map (decorate maps) cs))) as Hin.
  { eapply suboperators_child; [|by apply (IH d Hd)]. simpl. by apply list_elem_of_In, in_map, list_elem_of_In. }
  cbn [decorate]. unfold above. repeat case_match; by repeat apply add_bottom_sub.
Qed.

(** The top of a chain, and what is below it. *)
Lemma add_bottom_top entry p :
  chain entry → ∃ q, add_bottom entry p = Op (info entry) [q] ∧ ∀ t, t ∈ infos q → t ∈ infos entry ∨ t ∈ infos p.
Proof.
  destruct entry as [e [|c [|? ?]]]; simpl; [|intros _|by intros [_ ?]].
  - intros _. exists p. split; [done|]. by right.
  - exists (add_bottom c p). split; [done|]. intros t. rewrite infos_add_bottom, elem_of_app, app_nil_r. intros [?|?]; [left; by right|by right].
Qed.

(** The column a reference stands for. *)
Definition resolve (nm : NodesManager) (b : ColumnBinding) : ColumnBinding :=
  match FindRename nm b with Ret r => r | _ => b end.

(** The filters of a heap, with the keys they accept. *)
Definition contents_of (h : list BlockedBloomFilter) (acc : nat → list (option Z) → bool) : FilterContents := {|
  built_on x := match h !! x with Some f => f.(column_bindings_built_) | None => [] end;
  applied_to x := match h !! x with Some f => f.(column_bindings_applied_) | None => [] end;
  accepts := acc
|}.

(** ** The operators of both passes *)

Section Arranged.
  Context (nm : NodesManager) (G : flow) (prio : Z → Z) (N : Z).
  Context (h : list BlockedBloomFilter) (M : bool → rmap) (joins : list LogicalOperator).

(** Filter [x] goes from table [a] to table [i] in pass [w], and is created above [a]. *)
Record use_of (x : nat) (a i : Z) (w : bool) : Prop := {
  uo_flow : G a i w ≠ [];
  uo_filter : ∃ f, h !! x = Some f ∧ filter_for nm a i (G a i w) f;
  uo_created : ∃ opa entry, nm.(nodes) !! a = Some opa ∧ M w !! address opa = Some (Some entry) ∧
                 type entry = LOGICAL_CREATE_BF ∧ x ∈ (info entry).(filters_of)
}.

(** What the passes leave in their maps: at the address of a node, operators
    that only use filters that go to its table. *)
Record arranged : Prop := {
  ar_flow : ∀ a i w, G a i w ≠ [] → a ≠ i ∧ is_Some (nm.(nodes) !! i) ∧ if w : bool then prio a < prio i else prio i < prio a;
  ar_prio : ∀ i, prio i < N;
  ar_distinct : ∀ i j a b, nm.(nodes) !! i = Some a → nm.(nodes) !! j = Some b → address a = address b → i = j;
  ar_chain : ∀ w addr op, M w !! addr = Some (Some op) → chain op;
  ar_uses : ∀ w addr op t, M w !! addr = Some (Some op) → t ∈ infos op → t.(otype) = LOGICAL_USE_BF →
    ∃ x a i opi, t.(filters_of) = [x] ∧ use_of x a i w ∧ nm.(nodes) !! i = Some opi ∧ addr = address opi;
  ar_justified : ∀ x f a i w, use_of x a i w → h !! x = Some f → filter_justified nm joins f
}.

Context (Har : arranged).

Lemma use_of_inj x a i w a' i' w' : use_of x a i w → use_of x a' i' w' → a = a' ∧ i = i' ∧ w = w'.
Proof.
  intros [G1 (f & Hf & F1) _] [G2 (f' & Hf' & F2) _]. assert (f' = f) as -> by congruence.
  destruct (filter_for_inj nm _ _ _ _ _ _ _ G1 F1 F2) as [<- <-]. split_and!; [done|done|].
  apply (ar_flow Har) in G1 as (_ & _ & G1), G2 as (_ & _ & G2). destruct w, w'; [done|lia|lia|done].
Qed.

(** The order in which the filters are turned on. *)
Definition stage_of (i : Z) (w : bool) : Z := if w then prio i else 2 * N - prio i.

Definition stage (x : nat) : Z :=
  match h !! x with
  | Some f => match f.(column_bindings_built_), f.(column_bindings_applied_) with
              | cb :: _, ca :: _ => stage_of ca.(table_index) (prio cb.(table_index) <? prio ca.(table_index))
              | _, _ => 0
              end
  | None => 0
  end.

Lemma use_of_columns x a i w f :
  use_of x a i w → h !! x = Some f →
  f.(column_bindings_built_) ≠ [] ∧ f.(column_bindings_applied_) ≠ [] ∧
  Forall (λ b, b.(table_index) = a) f.(column_bindings_built_) ∧ Forall (λ b, b.(table_index) = i) f.(column_bindings_applied_).
Proof.
  intros [HG (f' & Hf' & (cols & Eb & Ea & Hc)) _] Hf. assert (f' = f) as -> by congruence. rewrite Eb, Ea. split_and!.
  - destruct Hc; [done|]. done.
  - destruct Hc; [done|]. done.
  - clear Eb Ea Hf Hf' HG. induction Hc as [|c p conds cols Hp _ IH]; [constructor|]. csimpl. constructor; [|done].
    destruct Hp as (? & ? & ? & ? & _ & _ & _ & [(-> & ? & ?)|(-> & ? & ?)]); done.
  - clear Eb Ea Hf Hf' HG. induction Hc as [|c p conds cols Hp _ IH]; [constructor|]. csimpl. constructor; [|done].
    destruct Hp as (? & ? & ? & ? & _ & _ & _ & [(-> & ? & ?)|(-> & ? & ?)]); done.
Qed.

Lemma use_of_stage x a i w : use_of x a i w → stage x = stage_of i w.
Proof.
  intros Hu. pose proof Hu as [HG (f & Hf & _) _]. destruct (use_of_columns x a i w f Hu Hf) as (Hb & Ha & Fb & Fa).
  unfold stage. rewrite Hf. destruct (column_bindings_built_ f) as [|cb ?], (column_bindings_applied_ f) as [|ca ?]; [done..|].
  apply Forall_cons in Fb as [-> _]. apply Forall_cons in Fa as [-> _]. f_equal.
  apply (ar_flow Har) in HG as (_ & _ & HG). destruct w; [by apply Z.ltb_lt|apply Z.ltb_ge; lia].
Qed.

(** The filters used at the table where [x] is created, in its pass or before it, come first. *)
Lemma stage_before x a i w y a' w' :
  use_of x a i w → use_of y a' a w' → w' = w ∨ w = false → stage y < stage x.
Proof.
  intros Hx Hy Hw. rewrite (use_of_stage _ _ _ _ Hx), (use_of_stage _ _ _ _ Hy). unfold stage_of.
  pose proof (ar_flow Har _ _ _ (uo_flow _ _ _ _ Hx)) as (_ & _ & H1).
  pose proof (ar_prio Har i). pose proof (ar_prio Har a). destruct Hw as [->| ->]; [destruct w; lia|destruct w'; lia].
Qed.

Context (plan : LogicalOperator) (Htp : transfer_plan nm joins plan) (Hplain : plain plan) (Hadr : NoDup (addresses plan)).

Let maps : rmap * rmap := (M true, M false).

Lemma plain_sub S : S ∈ suboperators plan → is_filter_op (type S) = false.
Proof. unfold plain in Hplain. rewrite Forall_forall in Hplain. by apply Hplain. Qed.

Lemma supported_sub S : S ∈ suboperators plan → supported S.
Proof. pose proof (tp_supported _ _ _ Htp) as Hs. rewrite Forall_forall in Hs. by apply Hs. Qed.

Lemma child_sub i cs c : Op i cs ∈ suboperators plan → c ∈ cs → c ∈ suboperators plan.
Proof. intros Hop Hc. eapply suboperators_trans; [exact Hop|]. by eapply suboperators_child; [|apply suboperators_self]. Qed.

Lemma above_ind (Q : LogicalOperator → Prop) w addr p :
  (∀ op t c, M w !! addr = Some (Some op) → t ∈ infos op → is_filter_op t.(otype) = true → Q c → Q (Op t [c])) → Q p → Q (above (M w) addr p).
Proof.
  intros Hstep Hp. unfold above. destruct (M w !! addr) as [[op|]|] eqn:E; [|done..].
  apply add_bottom_ind; [by eapply (ar_chain Har)|eauto|done].
Qed.

(** Properties of an operator that the filter operators above it keep. *)
Lemma decorate_ind (Q : LogicalOperator → Prop) i cs :
  (∀ w op t c, M w !! i.(ptr) = Some (Some op) → t ∈ infos op → is_filter_op t.(otype) = true → Q c → Q (Op t [c])) →
  Q (Op i (map (decorate maps) cs)) → Q (decorate maps (Op i cs)).
Proof. intros Hstep Hp. simpl. apply (above_ind Q false); [eauto|]. apply (above_ind Q true); eauto. Qed.

Lemma own_tables_filter t : is_filter_op t.(otype) = true → own_tables t 1 = [].
Proof. unfold own_tables. by destruct (otype t). Qed.

Lemma tables_decorate S : tables (decorate maps S) = tables S.
Proof.
  induction S as [i cs IH] using LogicalOperator_nested_ind. apply (decorate_ind (λ op, tables op = tables (Op i cs))).
  - intros w op t c _ _ Ht Hc. simpl. by rewrite own_tables_filter, app_nil_r.
  - simpl. rewrite length_map. f_equal. rewrite map_map. f_equal. apply map_ext_in. intros c Hc%list_elem_of_In. rewrite Forall_forall in IH. by apply IH.
Qed.

Lemma infos_above w addr p t : t ∈ infos (above (M w) addr p) → t ∈ infos p ∨ ∃ op, M w !! addr = Some (Some op) ∧ t ∈ infos op.
Proof. unfold above. destruct (M w !! addr) as [[op|]|]; [|by left..]. rewrite infos_add_bottom, elem_of_app. naive_solver. Qed.

Lemma infos_decorate S t :
  t ∈ infos (decorate maps S) → t ∈ infos S ∨ ∃ w c op, c ∈ suboperators S ∧ M w !! address c = Some (Some op) ∧ t ∈ infos op.
Proof.
  induction S as [i cs IH] using LogicalOperator_nested_ind. cbn [decorate]. intros [[Ht|(op & Hop & Ht)]%infos_above|(op & Hop & Ht)]%infos_above.
  - apply infos_children in Ht as [->|(c & Hc & Ht)]; [left; left|]. apply list_elem_of_In, in_map_iff in Hc as (d & <- & Hd%list_elem_of_In).
    rewrite Forall_forall in IH. apply (IH d Hd) in Ht as [Ht|(w & c & op & Hc & Hop & Ht)]; [left; by eapply infos_child|].
    right. exists w, c, op. split; [by eapply suboperators_child|done].
  - right. exists true, (Op i cs), op. split; [apply suboperators_self|done].
  - right. exists false, (Op i cs), op. split; [apply suboperators_self|done].
Qed.

(** The filters used in a part of the plan are those that go to its nodes. *)
Lemma used_decorate S x :
  S ∈ suboperators plan → filters_used (decorate maps S) x → ∃ w c a i opi, c ∈ suboperators S ∧ use_of x a i w ∧
    nm.(nodes) !! i = Some opi ∧ address c = address opi.
Proof.
  intros HS (t & Ht & Hu & Hx). apply infos_decorate in Ht as [Ht|(w & c & op & Hc & Hop & Ht)].
  - assert (plain S) as Hp.
    { apply Forall_forall. intros op Hop. apply plain_sub. by eapply suboperators_trans. }
    apply (plain_infos _ _ Hp) in Ht. by rewrite Hu in Ht.
  - destruct (ar_uses Har w _ op t Hop Ht Hu) as (x' & a & i & opi & Hf & Huse & Hi & Ha). rewrite Hf in Hx.
    apply list_elem_of_singleton in Hx as ->. eauto 10.
Qed.

Lemma not_used_free x op : ¬ filters_used op x → free x op.
Proof. intros Hn. apply Forall_forall. intros t Ht Hu Hx. apply Hn. by exists t. Qed.

(** Where a table is scanned. *)
Definition site (k : Z) (op : LogicalOperator) : Prop :=
  op ∈ suboperators plan ∧ base_op k op ∧ ∃ opk, nm.(nodes) !! k = Some opk ∧ address opk = address op.

(** A filter has a pair of columns, which justify it. *)
Lemma use_of_pair x a i w : use_of x a i w → ∃ cb ca, justified nm joins cb ca ∧ cb.(table_index) = a ∧ ca.(table_index) = i.
Proof.
  intros Hx. pose proof Hx as [_ (f & Hf & _) _]. destruct (use_of_columns x a i w f Hx Hf) as (Hne & _ & Fb & Fa).
  destruct (ar_justified Har x f a i w Hx Hf) as [_ Hj].
  destruct Hj as [|cb ca bs cs Hj _]; [done|]. apply Forall_cons in Fb as [? _]. apply Forall_cons in Fa as [? _]. eauto.
Qed.

Lemma use_of_sites x a i w : use_of x a i w → (∃ op, site a op) ∧ ∃ op, site i op.
Proof.
  intros Hx. destruct (use_of_pair x a i w Hx) as (cb & ca & Hj & Hcb & Hca).
  pose proof (ar_flow Har _ _ _ (uo_flow _ _ _ _ Hx)) as (_ & [opi Hi] & _). pose proof (uo_created _ _ _ _ Hx) as (opa & _ & Ha & _).
  destruct (tp_nodes _ _ _ Htp a opa cb ca Ha Hj) as (sa & ? & ? & ?); [auto|].
  destruct (tp_nodes _ _ _ Htp i opi cb ca Hi Hj) as (si & ? & ? & ?); [auto|].
  split; [exists sa|exists si]; split_and!; eauto.
Qed.

(** A part of the plan without the scan of table [i] does not use the filters that go to [i]. *)
Lemma free_decorate x a i w op S :
  use_of x a i w → site i op → S ∈ suboperators plan → op ∉ suboperators S → free x (decorate maps S).
Proof.
  intros Hx (Hop & _ & opi & Hi & Ha) HS Hnot. apply not_used_free. intros Hu.
  destruct (used_decorate S x HS Hu) as (w' & c & a' & i' & opi' & Hc & Hx' & Hi' & Ha').
  destruct (use_of_inj _ _ _ _ _ _ _ Hx Hx') as (_ & <- & _). assert (opi' = opi) as -> by congruence.
  apply Hnot. rewrite (sub_address_inj plan op c); [done|done|done|by eapply suboperators_trans|congruence].
Qed.

(** The filter operators right above another operator do not use [x]. *)
Lemma unused_decorate x a i w op j cs w' entry t :
  use_of x a i w → site i op → Op j cs ∈ suboperators plan → op ≠ Op j cs →
  M w' !! j.(ptr) = Some (Some entry) → t ∈ infos entry → unused x t.
Proof.
  intros Hx (Hop & _ & opi & Hi & Ha) HS Hne He Ht Hu Hin.
  destruct (ar_uses Har w' _ entry t He Ht Hu) as (x' & a' & i' & opi' & Hf & Hx' & Hi' & Ha'). rewrite Hf in Hin.
  apply list_elem_of_singleton in Hin as <-. destruct (use_of_inj _ _ _ _ _ _ _ Hx Hx') as (_ & <- & _).
  assert (opi' = opi) as -> by congruence. apply Hne. apply (sub_address_inj plan); try done. rewrite <- Ha. by rewrite <- Ha'.
Qed.

Lemma sides_disjoint j l r k : Op j [l; r] ∈ suboperators plan → k ∈ tables l → k ∉ tables r.
Proof.
  intros HS Hl Hr. pose proof (tables_sub_nodup _ _ (tp_tables _ _ _ Htp) HS) as Hn. simpl in Hn. rewrite app_nil_r in Hn.
  apply NoDup_app in Hn as (_ & _ & (_ & Hd & _)%NoDup_app). by apply (Hd k).
Qed.

Lemma streaming_child i cs c : streaming (Op i cs) → c ∈ cs → streaming c.
Proof.
  intros Hs Hc. unfold streaming in *. rewrite Forall_forall in *. intros x Hx. apply Hs. by eapply suboperators_child.
Qed.

Lemma streaming_hands_on i c : streaming (Op i [c]) → hands_rows_on i.
Proof. intros [Hs _]%Forall_cons. unfold hands_rows_on. simpl in Hs. set_solver. Qed.

Lemma filter_hands_on t : is_filter_op t.(otype) = true → hands_rows_on t.
Proof. unfold hands_rows_on. destruct (otype t); try done; set_solver. Qed.

Lemma site_in_tables k op S : site k op → op ∈ suboperators S → k ∈ tables S.
Proof. intros (_ & Hb & _) Hop. eapply tables_sub; [exact Hop|]. rewrite (base_op_tables k) by done. left. Qed.

Lemma site_is_not_binary k j l r : ¬ site k (Op j [l; r]).
Proof. intros (_ & Hb & _). simpl in Hb. by destruct l as [? []]. Qed.

(** A scan below a join is below one side. *)
Lemma site_sides k op j l r :
  site k op → op ∈ suboperators (Op j [l; r]) → op ∈ suboperators l ∨ op ∈ suboperators r.
Proof.
  intros Hs [->|(c & Hc & Hop)]%suboperators_cases; [by apply site_is_not_binary in Hs|]. set_solver.
Qed.

(** *** One filter *)

Section Filter.
  Context {sem : PlanSemantics} {semok : PlanSemanticsOk (resolve nm)} (acc : nat → list (option Z) → bool).
Let fc : FilterContents := contents_of h acc.
  #[local] Existing Instance fc.
  Context (x : nat) (a i : Z) (w : bool) (Hx : use_of x a i w) (on : nat → bool).
  Context (opa opi : LogicalOperator) (Ha : site a opa) (Hi : site i opi).

Lemma applied_tables : applied_to x ≠ [] ∧ Forall (λ b, b.(table_index) = i) (applied_to x).
Proof.
  pose proof Hx as [_ (f & Hf & _) _]. destruct (use_of_columns x a i w f Hx Hf) as (_ & ? & _ & ?). simpl. by rewrite Hf.
Qed.

Lemma built_tables : built_on x ≠ [] ∧ Forall (λ b, b.(table_index) = a) (built_on x).
Proof.
  pose proof Hx as [_ (f & Hf & _) _]. destruct (use_of_columns x a i w f Hx Hf) as (? & _ & ? & _). simpl. by rewrite Hf.
Qed.

Lemma apart_applied S : i ∉ tables S → apart (applied_to x) (decorate maps S).
Proof. intros Hn. eapply Forall_impl; [apply applied_tables|]. intros b ->. by rewrite tables_decorate. Qed.

Lemma apart_built S : a ∉ tables S → apart (built_on x) (decorate maps S).
Proof. intros Hn. eapply Forall_impl; [apply built_tables|]. intros b ->. by rewrite tables_decorate. Qed.

Lemma supported_no_mark bs j l r : Op j [l; r] ∈ suboperators plan → no_mark bs j.
Proof.
  intros HS Hj. apply supported_sub in HS as [[E|[_ Hjt]] _]; [congruence|]. right. intros E. rewrite E in Hjt. set_solver.
Qed.

(** The filter is used on one side of every join, the side of its table. *)
Lemma sited_decorate S : S ∈ suboperators plan → streaming S → sited x (decorate maps S).
Proof.
  induction S as [j cs IH] using LogicalOperator_nested_ind. intros HS Hst.
  apply decorate_ind; [intros v op t c _ _ Ht Hc; split; [by apply filter_hands_on|done]|].
  rewrite Forall_forall in IH. pose proof (supported_sub _ HS) as Hs.
  assert (∀ c, c ∈ cs → sited x (decorate maps c)) as Hc by (intros c Hc; apply IH; [done|by eapply child_sub|by eapply streaming_child]).
  destruct cs as [|l [|r [|? ?]]]; simpl; [done|split; [by eapply streaming_hands_on|apply Hc; left]| |done].
  split; [by eapply supported_no_mark|]. destruct (decide (i ∈ tables r)) as [Hr|Hr].
  - assert (i ∉ tables l) as Hl by (intros Hl; by apply (sides_disjoint j l r i HS)).
    right. split_and!; [apply Hc; set_solver| |by apply apart_applied].
    eapply free_decorate; [done|done|by eapply child_sub; [|left]|]. intros Hin. by apply Hl, (site_in_tables _ opi).
  - left. split_and!; [apply Hc; left| |by apply apart_applied].
    eapply free_decorate; [done|done|by eapply child_sub; [|right; left]|]. intros Hin. by apply Hr, (site_in_tables _ opi).
Qed.

Context (plan' : LogicalOperator) (Hplan' : plan' = decorate maps plan).

(** The filters are built: they accept the keys of the rows below the operators that create them. *)
Context (Hbuilt : ∀ t c y, Op t [c] ∈ suboperators plan' → t.(otype) = LOGICAL_CREATE_BF → y ∈ t.(filters_of) →
  ∀ σ, σ ∈ eval (λ _, true) c → accepts y (key (built_on y) σ) = true).

(** The filters before [x] are on. *)
Context (Hon : ∀ y, filters_used plan' y → stage y < stage x → on y = true).

(** Below the operators of a scan there are no others. *)
Lemma site_child_free j cs c y : site a (Op j cs) → c ∈ cs → ¬ filters_used (decorate maps c) y.
Proof.
  intros (HS & Hb & opk & Hk & Hadrk) Hc Hu. pose proof (child_sub _ _ _ HS Hc) as Hcs.
  destruct (used_decorate c y Hcs Hu) as (w' & d & a' & k & opk' & Hd & Huse & Hk' & Hadr').
  destruct (use_of_sites _ _ _ _ Huse) as [_ (op' & Hop' & Hb' & opk2 & Hk2 & Ha')]. assert (opk2 = opk') as -> by congruence.
  assert (op' = d) as ->.
  { apply (sub_address_inj plan); [done|done|exact (suboperators_trans plan c d Hcs Hd)|congruence]. }
  assert (k ∈ tables (Op j cs)) as Hin.
  { eapply tables_sub; [exact (suboperators_child (Op j cs) c d Hc Hd)|]. rewrite (base_op_tables k) by done. left. }
  rewrite (base_op_tables a) in Hin by done. apply list_elem_of_singleton in Hin as ->.
  assert (opk' = opk) as -> by congruence. apply (child_strict plan j cs c d); try done. by rewrite Hadr', Hadrk.
Qed.

(** The filters used right above a scan. *)
Lemma used_above_site w' j cs entry t y :
  site a (Op j cs) → M w' !! j.(ptr) = Some (Some entry) → t ∈ infos entry → t.(otype) = LOGICAL_USE_BF → y ∈ t.(filters_of) →
  ∃ a', use_of y a' a w'.
Proof.
  intros (_ & _ & opk & Hk & Hadrk) He Ht Hu Hy. destruct (ar_uses Har w' _ entry t He Ht Hu) as (y' & a' & k & opk' & Hf & Huse & Hk' & Ha').
  rewrite Hf in Hy. apply list_elem_of_singleton in Hy as ->. exists a'.
  rewrite (ar_distinct Har a k opk opk'); [done|done|done|]. by rewrite Hadrk, <- Ha'.
Qed.

(** The rows below the operator that creates [x] are those of the full run. *)
Lemma rows_at_creation q :
  (∀ y, filters_used q y → filters_used plan' y ∧ stage y < stage x) → eval on q = eval (λ _, true) q.
Proof. intros Hq. apply eval_agree. intros y Hy. destruct (Hq y Hy). by apply Hon. Qed.

Lemma filters_used_sub c op y : c ∈ suboperators op → filters_used c y → filters_used op y.
Proof.
  induction op as [j cs IH] using LogicalOperator_nested_ind. intros [->|(d & Hd & Hc)]%suboperators_cases Hy; [done|].
  rewrite Forall_forall in IH. destruct (IH d Hd Hc Hy) as (t & Ht & ?). exists t. split; [by eapply infos_child|done].
Qed.

(** The filters used by the scan and the operators of one pass above it. *)
Lemma used_at_site j cs q (ws : list bool) y :
  site a (Op j cs) → (∀ v, v ∈ ws → v = w ∨ w = false) →
  (∀ t, t ∈ infos q → t ∈ infos (Op j (map (decorate maps) cs)) ∨ ∃ v entry, v ∈ ws ∧ M v !! j.(ptr) = Some (Some entry) ∧ t ∈ infos entry) →
  filters_used q y → stage y < stage x.
Proof.
  intros Hsite Hws Hq (t & Ht & Hu & Hy). destruct (Hq t Ht) as [Hj|(v & entry & Hv & He & Hte)].
  - exfalso. apply infos_children in Hj as [->|(c & Hc & Htc)].
    + destruct Hsite as [HS _]. apply plain_sub in HS. unfold type in HS. simpl in HS. by rewrite Hu in HS.
    + apply list_elem_of_In, in_map_iff in Hc as (d & <- & Hd%list_elem_of_In).
      apply (site_child_free j cs d y Hsite Hd). by exists t.
  - destruct (used_above_site v j cs entry t y Hsite He Hte Hu Hy) as (a' & Hy').
    eapply stage_before; [exact Hx|exact Hy'|by apply Hws].
Qed.

Lemma covered_create_above j cs entry p (ws : list bool) :
  site a (Op j cs) → M w !! j.(ptr) = Some (Some entry) → type entry = LOGICAL_CREATE_BF → x ∈ (info entry).(filters_of) →
  add_bottom entry p ∈ suboperators plan' → w ∈ ws → (∀ v, v ∈ ws → v = w ∨ w = false) →
  (∀ t, t ∈ infos p → t ∈ infos (Op j (map (decorate maps) cs)) ∨ ∃ v entry, v ∈ ws ∧ M v !! j.(ptr) = Some (Some entry) ∧ t ∈ infos entry) →
  covered x on (add_bottom entry p).
Proof.
  intros Hsite He Hte Hxe Hsub Hw Hws Hp. destruct (add_bottom_top entry p (ar_chain Har _ _ _ He)) as (q & Eq & Hq).
  rewrite Eq in Hsub |- *. apply covered_create; [done|]. intros σ Hσ. eapply Hbuilt; [exact Hsub|done|done|].
  rewrite <- rows_at_creation; [exact Hσ|]. intros y Hy. split.
  - eapply filters_used_sub; [exact Hsub|]. destruct Hy as (t & Ht & ?). exists t. split; [by eapply infos_child; [left|]|done].
  - eapply (used_at_site j cs q ws); [done|done| |done]. intros t [Ht|Ht]%Hq; [right; by exists w, entry|by apply Hp].
Qed.

Lemma covered_site : covered x on (decorate maps opa).
Proof.
  pose proof (uo_created _ _ _ _ Hx) as (opa' & entry & Hna & He & Hte & Hxe).
  pose proof Ha as (HS & _ & opk & Hk & Hadrk). assert (opk = opa') as -> by congruence.
  assert (∃ j cs, opa = Op j cs) as (j & cs & Eo) by (destruct opa; eauto).
  pose proof Ha as Hsite. rewrite Eo in Hsite, HS, Hadrk |- *. rewrite Hadrk in He. change (address (Op j cs)) with (ptr j) in He.
  assert (∀ c, c ∈ suboperators (decorate maps (Op j cs)) → c ∈ suboperators plan') as Hsub.
  { intros c. rewrite Hplan'. by apply decorate_sub. }
  destruct (bool_dec w true) as [Ew|Ew%not_true_is_false]; pose proof He as He'; rewrite Ew in He'; simpl.
  - apply (above_ind (covered x on) false).
    { intros op t c _ _ Ht Hc. apply covered_unary; [by apply filter_hands_on|done]. }
    unfold above. rewrite He'. apply (covered_create_above j cs entry _ [true]); try done; [|set_solver|set_solver|by left].
    apply Hsub. simpl. unfold above at 2. rewrite He'. unfold above. repeat case_match; first [apply suboperators_self | apply add_bottom_sub, suboperators_self].
  - unfold above at 1. rewrite He'. apply (covered_create_above j cs entry _ [true; false]); try done; [|set_solver|by right|].
    + apply Hsub. simpl. unfold above at 2. rewrite He'. apply suboperators_self.
    + intros t [Ht|(op & Hop & Ht)]%infos_above; [by left|right; exists true, op; set_solver].
Qed.

Lemma covered_decorate S : S ∈ suboperators plan → streaming S → opa ∈ suboperators S → covered x on (decorate maps S).
Proof.
  induction S as [j cs IH] using LogicalOperator_nested_ind. intros HS Hst Hin.
  apply suboperators_cases in Hin as [<-|(c & Hc & Hin)]; [apply covered_site|]. rewrite Forall_forall in IH.
  pose proof (supported_sub _ HS) as Hs. apply decorate_ind.
  { intros v op t d _ _ Ht Hd. apply covered_unary; [by apply filter_hands_on|done]. }
  pose proof (child_sub _ _ _ HS Hc) as Hcs.
  pose proof (streaming_child _ _ _ Hst Hc) as Hcst. destruct cs as [|l [|r [|? ?]]]; simpl in *; [set_solver| | |done].
  - apply list_elem_of_singleton in Hc as ->. apply covered_unary; [by eapply streaming_hands_on|]. by apply IH; [left| | |].
  - assert (is_join j) as Hj by (unfold is_join; naive_solver).
    apply elem_of_cons in Hc as [->| ->%list_elem_of_singleton].
    + apply covered_left; [done|by eapply supported_no_mark|by apply IH; [left| | |]|]. apply apart_built. eapply sides_disjoint; [exact HS|].
      by apply (site_in_tables a opa).
    + apply covered_right; [done|by eapply supported_no_mark|by apply IH; [right; left| | |]|]. apply apart_built. intros Hl.
      apply (sides_disjoint j l r a HS Hl). by apply (site_in_tables a opa).
Qed.

(** The join where the two tables meet compares all columns of the filter. *)
Lemma compared_equal j cb ca σ :
  compares nm j cb ca → join_condition j σ = true → ∃ v, σ !! cb = Some v ∧ σ !! ca = Some v.
Proof.
  intros (c & Hc & Hcmp & Hl & Hr & Hcols) Hj. unfold join_condition in Hj. rewrite forallb_forall in Hj.
  destruct (holds_equal c σ Hcmp Hl Hr (Hj c (proj1 (list_elem_of_In _ _) Hc))) as (v & H1 & H2). exists v.
  unfold resolve in H1, H2. destruct Hcols as [[E1 E2]|[E1 E2]]; rewrite E1 in H1; rewrite E2 in H2; done.
Qed.

Lemma meeting_equates j l r f :
  Op j [l; r] ∈ suboperators plan → h !! x = Some f →
  (∀ cb ca, justified nm joins cb ca → ca.(table_index) = i → cb.(table_index) = a → compares nm j cb ca) → equates x j.
Proof.
  intros HS Hf Hcmp σ Hσ. destruct (use_of_columns x a i w f Hx Hf) as (_ & _ & Fb & Fa).
  destruct (ar_justified Har x f a i w Hx Hf) as [_ Hj]. simpl. rewrite Hf. unfold key.
  induction Hj as [|cb ca bs cs Hj _ IH]; [done|]. apply Forall_cons in Fb as [Eb Fb]. apply Forall_cons in Fa as [Ea Fa].
  destruct (IH Fb Fa) as [E1 E2]. destruct (compared_equal j cb ca σ (Hcmp cb ca Hj Ea Eb) Hσ) as (v & Hv1 & Hv2). csimpl.
  split; [by rewrite Hv1, Hv2, E1|]. constructor; [rewrite Hv1; eauto|done].
Qed.

Lemma free_ready op : free x op → ready x on op.
Proof.
  induction op as [j cs IH] using LogicalOperator_nested_ind. intros [Hj Hcs]%free_children. constructor; [done|].
  rewrite Forall_forall in *. auto.
Qed.

Lemma free_side c : c ∈ suboperators plan → i ∉ tables c → free x (decorate maps c).
Proof. intros Hc Hn. eapply free_decorate; [exact Hx|exact Hi|done|]. intros Hin. by apply Hn, (site_in_tables i opi). Qed.

Lemma ready_meeting_left j l r :
  Op j [l; r] ∈ suboperators plan → opi ∈ suboperators l → opa ∈ suboperators r → ready x on (Op j [decorate maps l; decorate maps r]).
Proof.
  intros HS Hil Har'. pose proof (uo_filter _ _ _ _ Hx) as (f & Hf & _). destruct (use_of_pair x a i w Hx) as (cb0 & ca0 & Hj0 & Eb0 & Ea0).
  pose proof (site_in_tables _ _ _ Hi Hil) as Til. pose proof (site_in_tables _ _ _ Ha Har') as Tar.
  assert (∀ cb ca, justified nm joins cb ca → ca.(table_index) = i → cb.(table_index) = a →
    j.(otype) = LOGICAL_COMPARISON_JOIN ∧ j.(join_type) ∈ [INNER; RIGHT; SEMI; RIGHT_SEMI] ∧ compares nm j cb ca) as Heq.
  { intros cb ca Hj Ea Eb. apply (tp_conditions _ _ _ Htp cb ca Hj j l r HS); congruence. }
  destruct (Heq cb0 ca0 Hj0 Ea0 Eb0) as (Ht & Hjt & _). pose proof (supported_sub _ HS) as (_ & Hsl & Hsr).
  apply ready_left; try done.
  - eapply meeting_equates; [exact HS|exact Hf|]. intros cb ca Hj Ea Eb. by apply Heq.
  - apply sited_decorate; [by eapply child_sub; [|left]|done].
  - apply apart_built. intros Hal. by apply (sides_disjoint j l r a HS Hal).
  - apply free_side; [by eapply child_sub; [|right; left]|]. by eapply sides_disjoint.
  - apply apart_applied. by eapply sides_disjoint.
  - apply covered_decorate; [by eapply child_sub; [|right; left]|done|done].
Qed.

Lemma ready_meeting_right j l r :
  Op j [l; r] ∈ suboperators plan → opi ∈ suboperators r → opa ∈ suboperators l → ready x on (Op j [decorate maps l; decorate maps r]).
Proof.
  intros HS Hir Hal'. pose proof (uo_filter _ _ _ _ Hx) as (f & Hf & _). destruct (use_of_pair x a i w Hx) as (cb0 & ca0 & Hj0 & Eb0 & Ea0).
  pose proof (site_in_tables _ _ _ Hi Hir) as Tir. pose proof (site_in_tables _ _ _ Ha Hal') as Tal.
  assert (∀ cb ca, justified nm joins cb ca → ca.(table_index) = i → cb.(table_index) = a →
    j.(otype) = LOGICAL_COMPARISON_JOIN ∧ j.(join_type) ∈ [INNER; LEFT; SEMI; RIGHT_SEMI] ∧ compares nm j cb ca) as Heq.
  { intros cb ca Hj Ea Eb. apply (tp_conditions _ _ _ Htp cb ca Hj j l r HS); congruence. }
  assert (i ∉ tables l) as Hil by (intros Hil; by apply (sides_disjoint j l r i HS Hil)).
  destruct (Heq cb0 ca0 Hj0 Ea0 Eb0) as (Ht & Hjt & _). pose proof (supported_sub _ HS) as (_ & Hsl & Hsr).
  apply ready_right; try done.
  - eapply meeting_equates; [exact HS|exact Hf|]. intros cb ca Hj Ea Eb. by apply Heq.
  - apply sited_decorate; [by eapply child_sub; [|right; left]|done].
  - apply apart_built. by eapply sides_disjoint.
  - apply free_side; [by eapply child_sub; [|left]|done].
  - by apply apart_applied.
  - apply covered_decorate; [by eapply child_sub; [|left]|done|done].
Qed.

Lemma scans_differ : opa ≠ opi.
Proof.
  intros E. pose proof Ha as (_ & H1 & _). pose proof Hi as (_ & H2 & _). rewrite E in H1.
  apply base_op_tables in H1, H2. apply (ar_flow Har _ _ _ (uo_flow _ _ _ _ Hx)). congruence.
Qed.

Lemma scans_apart k op k' op' : site k op → site k' op' → k ≠ k' → op ∉ suboperators op'.
Proof.
  intros (_ & H1 & _) (_ & H2 & _) Hne Hin. apply base_op_tables in H1, H2. apply Hne.
  assert (k ∈ tables op') as Hk by (eapply tables_sub; [exact Hin|rewrite H1; left]). rewrite H2 in Hk. by apply list_elem_of_singleton in Hk.
Qed.

Lemma ready_decorate S :
  S ∈ suboperators plan → opa ∈ suboperators S → opi ∈ suboperators S → ready x on (decorate maps S).
Proof.
  pose proof (ar_flow Har _ _ _ (uo_flow _ _ _ _ Hx)) as (Hai & _).
  induction S as [j cs IH] using LogicalOperator_nested_ind. intros HS HaS HiS. rewrite Forall_forall in IH.
  assert (opi ≠ Op j cs) as Hni by (intros E; apply (scans_apart a opa i opi); try done; by rewrite E).
  assert (opa ≠ Op j cs) as Hna by (intros E; apply (scans_apart i opi a opa); try done; by rewrite E).
  assert (unused x j) as Huj.
  { intros E. apply plain_sub in HS. unfold type in HS. simpl in HS. by rewrite E in HS. }
  apply decorate_ind.
  { intros v op t c Hop Ht _ Hc. constructor; [|by constructor]. by eapply unused_decorate. }
  apply suboperators_cases in HaS as [?|(ca & Hca & HaS)]; [done|]. apply suboperators_cases in HiS as [?|(ci & Hci & HiS)]; [done|].
  pose proof (supported_sub _ HS) as Hs. destruct cs as [|l [|r [|? ?]]]; simpl in *; [set_solver| | |done].
  - apply list_elem_of_singleton in Hca as ->, Hci as ->. constructor; [done|]. constructor; [|done].
    by apply IH; [left|eapply child_sub; [|left]| |].
  - apply elem_of_cons in Hca as [->| ->%list_elem_of_singleton], Hci as [->| ->%list_elem_of_singleton].
    + constructor; [done|]. repeat constructor; [by apply IH; [left|eapply child_sub; [|left]| |]|].
      apply free_ready, free_side; [by eapply child_sub; [|right; left]|]. eapply sides_disjoint; [done|]. by apply (site_in_tables i opi).
    + by apply ready_meeting_right.
    + by apply ready_meeting_left.
    + constructor; [done|]. repeat constructor; [|by apply IH; [right; left|eapply child_sub; [|right; left]| |]].
      apply free_ready, free_side; [by eapply child_sub; [|left]|]. intros Hil.
      apply (sides_disjoint j l r i HS Hil). by apply (site_in_tables i opi).
Qed.

(** Turning on the next filter. *)
Lemma next_filter : eval (on' x on) plan' = eval on plan'.
Proof.
  apply (ready_eval (resolve nm)); [apply applied_tables|apply built_tables|]. rewrite Hplan'.
  pose proof Ha as [? _]. pose proof Hi as [? _]. apply ready_decorate; [apply suboperators_self|done|done].
Qed.
End Filter.

(** *** All filters *)

Section Filters.
  Context {sem : PlanSemantics} {semok : PlanSemanticsOk (resolve nm)} (acc : nat → list (option Z) → bool).
Let fc : FilterContents := contents_of h acc.
  #[local] Existing Instance fc.
  Context (plan' : LogicalOperator) (Hplan' : plan' = decorate maps plan).
  Context (Hbuilt : ∀ t c y, Op t [c] ∈ suboperators plan' → t.(otype) = LOGICAL_CREATE_BF → y ∈ t.(filters_of) →
    ∀ σ, σ ∈ eval (λ _, true) c → accepts y (key (built_on y) σ) = true).

Definition used_list : list nat := concat (filters_of <$> base.filter (λ t, t.(otype) = LOGICAL_USE_BF) (infos plan')).

Lemma elem_of_used x : x ∈ used_list ↔ filters_used plan' x.
Proof.
  unfold used_list, filters_used. rewrite list_elem_of_In, in_concat. split.
  - intros (l & Hl%list_elem_of_In & Hx%list_elem_of_In). apply list_elem_of_fmap in Hl as (t & -> & [? ?]%list_elem_of_filter). eauto.
  - intros (t & Ht & Hu & Hx). exists (filters_of t). split; [|by apply list_elem_of_In].
    apply list_elem_of_In, list_elem_of_fmap_2, list_elem_of_filter. done.
Qed.

Lemma least_stage l : l ≠ [] → ∃ x, x ∈ l ∧ ∀ y, y ∈ l → stage x ≤ stage y.
Proof.
  induction l as [|z l IH]; [done|]. intros _. destruct l as [|z' l']; [exists z; set_solver by lia|].
  destruct IH as (x & Hx & Hmin); [done|]. destruct (decide (stage z ≤ stage x)) as [Hle|Hgt].
  - exists z. split; [left|]. intros y [->|Hy]%elem_of_cons; [lia|]. specialize (Hmin y Hy). lia.
  - exists x. split; [by right|]. intros y [->|Hy]%elem_of_cons; [lia|]. by apply Hmin.
Qed.

Lemma fewer_off x on l :
  on x = false → x ∈ l → (length (base.filter (λ y, on' x on y = false) l) < length (base.filter (λ y, on y = false) l))%nat.
Proof.
  intros Hx Hin. eapply length_filter_lt; [|exact Hin|done|].
  - intros y Hy. by apply orb_false_iff in Hy as [? _].
  - unfold on'. rewrite bool_decide_true by done. by destruct (on x).
Qed.

Lemma some_filters n : ∀ on, length (base.filter (λ y, on y = false) used_list) = n → eval on plan' = eval (λ _, true) plan'.
Proof.
  induction n as [n IH] using lt_wf_ind. intros on Hlen. destruct (base.filter (λ y, on y = false) used_list) as [|z l] eqn:El.
  { apply eval_agree. intros y Hy%elem_of_used. destruct (on y) eqn:E; [done|].
    assert (y ∈ base.filter (λ y, on y = false) used_list) as Hin by (by apply list_elem_of_filter). rewrite El in Hin. set_solver. }
  rewrite <- El in Hlen. destruct (least_stage (base.filter (λ y, on y = false) used_list)) as (x & [Hx Hux]%list_elem_of_filter & Hmin);
    [by rewrite El|]. clear El. pose proof Hux as Hux'. apply elem_of_used in Hux'. rewrite Hplan' in Hux'.
  destruct (used_decorate plan x (suboperators_self _) Hux') as (w & _ & a & i & opi & _ & Huse & Hi & _).
  destruct (use_of_sites x a i w Huse) as [[sa Hsa] [si Hsi]].
  etrans; [symmetry; apply (next_filter acc x a i w Huse on sa si Hsa Hsi plan' Hplan' Hbuilt)|].
  2: { eapply IH; [|done]. rewrite <- Hlen. by apply fewer_off. }
  intros y Hy Hlt. destruct (on y) eqn:E; [done|]. apply elem_of_used in Hy.
    assert (stage x ≤ stage y); [|lia]. apply Hmin. by apply list_elem_of_filter.
Qed.

Lemma all_filters : erase plan' = plan → eval (λ _, true) plan' = eval (λ _, true) plan.
Proof.
  intros He. rewrite <- (some_filters _ (λ _, false)) by done. rewrite eval_erase, He. apply eval_agree.
  intros y (t & Ht & Hu & _). apply (plain_infos _ _ Hplain) in Ht. by rewrite Hu in Ht.
Qed.
End Filters.
End Arranged.

(** ** The optimizer *)

Section Optimizer.
  Context `{StdOrderOk} `{CardinalityEstimator}.

Lemma place_nonneg l i : 0 ≤ place l i.
Proof. induction l; simpl; [done|]. case_decide; lia. Qed.

Lemma passes_arranged rank nm0 joins E0 pl es m o :
  built nm0 joins E0 pl es m → nodes_ok nm0.(nodes) → ranked rank nm0.(rename_cols) → passes_done pl es m o →
  arranged m.(nodes_manager) (sent (prio_of pl) es) (prio_of pl) (Z.of_nat (length pl)) o.(heap) (λ w, replace_map (negb w) o) joins.
Proof.
  intros Hm Hn Hr [Hent _ _]. split.
  - intros a i w HG. rewrite (b_nodes _ _ _ _ _ _ Hm). by destruct (flow_ends nm0 joins E0 pl es m Hm a i w HG) as (? & _ & ? & ?).
  - intros i. unfold prio_of. pose proof (place_nonneg pl.*1 i). lia.
  - intros i j a b. rewrite (b_nodes _ _ _ _ _ _ Hm). by apply (nodes_distinct _ Hn).
  - intros w addr op Hop. by destruct (Hent w addr _ Hop) as (? & ? & ? & [= <-] & _ & _ & _ & [? _]).
  - intros w addr op t Hop Ht Hu. destruct (Hent w addr _ Hop) as (? & i & opi & [= <-] & _ & Hi & -> & [_ Hall]).
    rewrite Forall_forall in Hall. destruct (Hall t Ht) as [[? _]|(x & a & HG & (_ & Hf & opa & entry & Ha) & f & Hh & Hff)]; [congruence|].
    exists x, a, i, opi. split_and!; [done| |done|done]. split; [done|eauto|]. exists opa, entry. naive_solver.
  - intros x f a i w [HG (f' & Hf' & Hff) _] Hf. assert (f' = f) as -> by congruence. by eapply (filter_for_justified rank nm0).
Qed.

(** Filters that were built: each accepts the keys of the rows below the
    operator that creates it. *)
Definition filters_built (sem : PlanSemantics) (fc : FilterContents) (plan : LogicalOperator) : Prop :=
  ∀ t c x, Op t [c] ∈ suboperators plan → t.(otype) = LOGICAL_CREATE_BF → x ∈ t.(filters_of) →
  ∀ σ, σ ∈ eval (λ _, true) c → accepts x (key (built_on x) σ) = true.

(** The rows of a plan with all its filters. *)
Definition rows (sem : PlanSemantics) (fc : FilterContents) (plan : LogicalOperator) : list env := eval (λ _, true) plan.

(** C1: predicate transfer does not change the result of a join query over
    scans.  For a [transfer_plan] the plan [Optimize] returns gives the same
    rows, in the same order, as the plan without filters, whatever the tables
    hold: for every meaning of scans, conditions and filter expressions, and
    all filters without false negatives.  In a [transfer_plan] leaves are
    scans; joins are cross products and comparison joins other than MARK and
    SINGLE joins, and no delim joins; below a join there are only joins,
    projections and filters (so no LIMIT, aggregate, window or set operation,
    which may stand above the joins); tables occur once; every node a join
    condition names is a scan of the plan, maybe with its filter; and where
    two tables meet whose columns a condition of the plan the graph was built
    from equates, a join with that condition stands that does not preserve the
    filtered side.  The plan may otherwise differ from the one the graph was
    built from. *)
Theorem predicate_transfer_keeps_results rank plan0 mark next :
  plan_wf rank plan0 → distinct_comparisons (plan_joins plan0 mark) →
  ∃ o, PreOptimize plan0 mark next = Ret o ∧ ∀ now plan, plan_now now plan o.(dag_manager) →
    transfer_plan o.(dag_manager).(nodes_manager) (plan_joins plan0 mark) plan →
    ∃ plan' o', Optimize now plan o = Ret (plan', o') ∧
      ∀ (sem : PlanSemantics), PlanSemanticsOk (resolve o.(dag_manager).(nodes_manager)) →
      ∀ acc, filters_built sem (contents_of o'.(heap) acc) plan' →
        rows sem (contents_of o'.(heap) acc) plan' = rows sem (contents_of o'.(heap) acc) plan.
Proof.
  intros Hwf Hdist. destruct (Build_ok rank plan0 mark Hwf Hdist) as (ok & mark' & m & nm & E & Hn & _ & Hr & Hok).
  unfold PreOptimize. rewrite E. orun. eexists. split; [done|]. intros now plan Hnow Htp. simpl in *. destruct ok.
  - destruct Hok as (E0 & pl & es & Hm).
    destruct (Optimize_run rank nm _ E0 pl es m now plan next Hm Hn Hr Hnow) as (o & o' & Eo & _ & Hheap & Hdone & Her & _).
    eexists _, o'. split; [exact Eo|]. intros sem semok acc Hb. rewrite Hheap in *. destruct Hnow as [Hpl Hadr _].
    eapply (all_filters _ _ _ _ _ _ _ (passes_arranged rank nm _ E0 pl es m o Hm Hn Hr Hdone) plan Htp Hpl Hadr acc); [done|exact Hb|exact Her].
  - destruct Hok as [Hex _]. destruct (Optimize_same m now plan next Hex Hnow) as [o' Eo]. by exists plan, o'.
Qed.
End Optimizer.

(** ** The plan the graph was built from *)

(** The sides of a condition come from the sides of its join. *)
Definition scoped_op (nm : NodesManager) (op : LogicalOperator) : bool :=
  match op with
  | Op i [l; r] => forallb (λ c, implb (equal_columns c)
      match FindRename nm (ebinding c.(left)), FindRename nm (ebinding c.(right)) with
      | Ret bl, Ret br => bool_decide (bl.(table_index) ∈ tables l) && bool_decide (br.(table_index) ∈ tables r)
      | _, _ => false
      end) i.(conditions)
  | _ => true
  end.

Definition scoped (nm : NodesManager) (plan : LogicalOperator) : bool := forallb (scoped_op nm) (suboperators plan).

(** The join separates the two tables. *)
Definition separates (s t : Z) (op : LogicalOperator) : Prop :=
  match op with
  | Op _ [l; r] => (s ∈ tables l ∧ t ∈ tables r) ∨ (t ∈ tables l ∧ s ∈ tables r)
  | _ => False
  end.

Lemma separates_tables s t op : separates s t op → s ∈ tables op ∧ t ∈ tables op.
Proof.
  destruct op as [i [|l [|r [|? ?]]]]; simpl; try done. rewrite app_nil_r, !elem_of_app. naive_solver.
Qed.

Lemma separates_not_below s t i l r c op :
  NoDup (tables (Op i [l; r])) → separates s t (Op i [l; r]) → c ∈ [l; r] → op ∈ suboperators c → ¬ separates s t op.
Proof.
  intros Hn Hs Hc Hop Ho. apply separates_tables in Ho as [H1 H2].
  pose proof (tables_sub _ _ _ Hop H1) as S1. pose proof (tables_sub _ _ _ Hop H2) as S2. simpl in Hn. rewrite app_nil_r in Hn.
  apply NoDup_app in Hn as (_ & _ & (_ & Hd & _)%NoDup_app). simpl in Hs. specialize (Hd s) as Hds. specialize (Hd t) as Hdt.
  apply elem_of_cons in Hc as [->| ->%list_elem_of_singleton]; naive_solver.
Qed.

(** Two tables meet at one join. *)
Lemma separates_unique plan s t x y :
  NoDup (tables plan) → x ∈ suboperators plan → y ∈ suboperators plan → separates s t x → separates s t y → x = y.
Proof.
  induction plan as [i cs IH] using LogicalOperator_nested_ind. intros Hn Hx Hy Sx Sy.
  assert (∀ c op, c ∈ cs → op ∈ suboperators c → separates s t (Op i cs) → ¬ separates s t op) as Hbelow.
  { intros c op Hc Hop Hs. destruct cs as [|l [|r [|? ?]]]; try done. by apply (separates_not_below s t i l r c). }
  apply suboperators_cases in Hx as [->|(c & Hc & Hx)], Hy as [->|(d & Hd & Hy)]; [done|by destruct (Hbelow d y)|by destruct (Hbelow c x)|].
  pose proof Hn as Hn'. simpl in Hn'. apply NoDup_app in Hn' as (_ & _ & Hn').
  assert (c = d) as <-.
  { eapply (children_disjoint tables cs); [done|done|done|eapply tables_sub; [exact Hx|by apply (separates_tables s t)]|].
    eapply tables_sub; [exact Hy|by apply (separates_tables s t)]. }
  rewrite Forall_forall in IH. apply (IH c Hc); try done. eapply tables_sub_nodup; [exact Hn|].
  by eapply suboperators_child; [|apply suboperators_self].
Qed.

Section Unchanged.
  Context `{StdOrderOk} `{CardinalityEstimator}.
  Context (rank : ColumnBinding → nat) (plan : LogicalOperator) (nm : NodesManager) (joins : list LogicalOperator).
  Context (Hr : ranked rank nm.(rename_cols)) (Hscoped : scoped nm plan = true) (Hnd : NoDup (tables plan)).
  Context (Hjoins : Forall (λ j, j ∈ suboperators plan ∧ transfer_join j) joins).
  Context (Hsup : Forall supported (suboperators plan)) (Hsmall : INVALID_INDEX ∉ tables plan).

(** The two columns of a condition of a join, one on each side. *)
Lemma condition_sides j c bl br :
  j ∈ joins → c ∈ (info j).(conditions) → c.(comparison) = COMPARE_EQUAL →
  FindRename nm (column_of c.(left)) = Ret bl → FindRename nm (column_of c.(right)) = Ret br →
  bl.(table_index) ∈ tables plan → br.(table_index) ∈ tables plan →
  ∃ i l r, j = Op i [l; r] ∧ bl.(table_index) ∈ tables l ∧ br.(table_index) ∈ tables r ∧
    etype c.(left) = TYPE_BOUND_COLUMN_REF ∧ etype c.(right) = TYPE_BOUND_COLUMN_REF ∧
    FindRename nm (ebinding c.(left)) = Ret bl ∧ FindRename nm (ebinding c.(right)) = Ret br.
Proof.
  intros Hj Hc Hcmp El Er Tl Tr. rewrite Forall_forall in Hjoins, Hsup. destruct (Hjoins j Hj) as [Hsub Hjoin].
  assert (∀ e b, FindRename nm (column_of e) = Ret b → b.(table_index) ∈ tables plan →
    etype e = TYPE_BOUND_COLUMN_REF ∧ FindRename nm (ebinding e) = Ret b) as Hcol.
  { intros e b. unfold column_of. case_decide; [done|]. rewrite (default_not_renamed rank) by done. intros [= <-] Ht. by destruct (Hsmall Ht). }
  destruct (Hcol _ _ El Tl) as [Cl Fl], (Hcol _ _ Er Tr) as [Cr Fr].
  assert (∃ i l r, j = Op i [l; r]) as (i & l & r & ->).
  { pose proof (proj1 Hjoin) as Ht. pose proof (Hsup j Hsub) as Hs. clear -Ht Hs.
    destruct j as [i [|l [|r [|? ?]]]]; unfold type in Ht; simpl in *; [| |eauto|done]; exfalso; destruct Ht as [Ht|Ht]; rewrite Ht in Hs; set_solver. }
  exists i, l, r. unfold scoped in Hscoped. rewrite forallb_forall in Hscoped. pose proof (Hscoped _ (proj1 (list_elem_of_In _ _) Hsub)) as Hs.
  simpl in Hs. rewrite forallb_forall in Hs. specialize (Hs c (proj1 (list_elem_of_In _ _) Hc)). rewrite Fl, Fr in Hs.
  unfold equal_columns in Hs. rewrite !bool_decide_true in Hs by done. simpl in Hs. apply andb_true_iff in Hs as [K1%bool_decide_eq_true K2%bool_decide_eq_true].
  done.
Qed.

(** The kind of a transfer join the semantics supports. *)
Lemma transfer_join_kind i l r :
  Op i [l; r] ∈ joins → i.(otype) = LOGICAL_COMPARISON_JOIN ∧
    (i.(join_type) ≠ LEFT → i.(join_type) ∈ [INNER; RIGHT; SEMI; RIGHT_SEMI]) ∧
    (i.(join_type) ≠ RIGHT → i.(join_type) ∈ [INNER; LEFT; SEMI; RIGHT_SEMI]).
Proof.
  intros Hj. rewrite Forall_forall in Hjoins, Hsup. destruct (Hjoins _ Hj) as [Hsub (Ht & Hk & _)]. pose proof (Hsup _ Hsub) as Hs.
  unfold type in Ht. simpl in *. clear -Ht Hk Hs. destruct Ht as [Ht|Ht]; rewrite Ht in Hs; destruct Hs as [[?|[? Hs]] _]; try done.
  split; [done|]. repeat (apply elem_of_cons in Hk as [Hk|Hk]); try (by apply elem_of_nil in Hk); rewrite Hk in *; split; intros ?; try done; set_solver.
Qed.

Lemma unchanged_equated cb ca : justified nm joins cb ca → equated nm plan cb ca.
Proof.
  intros (j & c & Hj & Hc & Hcmp & Hcols) i l r HS.
  assert (∀ k, k ∈ tables l → k ∈ tables plan) as HTl.
  { intros k Hk. eapply tables_sub; [exact HS|]. simpl. set_solver. }
  assert (∀ k, k ∈ tables r → k ∈ tables plan) as HTr.
  { intros k Hk. eapply tables_sub; [exact HS|]. simpl. set_solver. }
  assert (∀ k, k ∈ tables l → k ∉ tables r) as Hd.
  { pose proof (tables_sub_nodup _ _ Hnd HS) as Hn. simpl in Hn. rewrite app_nil_r in Hn.
    by apply NoDup_app in Hn as (_ & _ & (_ & Hd & _)%NoDup_app). }
  assert (j ∈ suboperators plan) as Hjs by (rewrite Forall_forall in Hjoins; by apply Hjoins).
  assert (∀ s t, separates s t j → separates s t (Op i [l; r]) → j = Op i [l; r]) as Hsame.
  { intros s t Hsj Hst. by apply (separates_unique plan s t). }
  split; intros Ta Tb; destruct Hcols as [(El & Er & Hjt)|(Er & El & Hjt)];
    destruct (condition_sides j c _ _ Hj Hc Hcmp El Er) as (i' & l' & r' & -> & Tl & Tr & Cl & Cr & Fl & Fr); auto;
    (pose proof (Hsame cb.(table_index) ca.(table_index)) as E; simpl in E; specialize (E ltac:(auto) ltac:(auto)));
    injection E as -> -> ->; try (exfalso; by eapply Hd); destruct (transfer_join_kind _ _ _ Hj) as (K1 & K2 & K3);
    (split_and!; [done|auto|]); exists c; split_and!; auto.
Qed.
End Unchanged.

#[global] Instance base_op_dec k op : Decision (base_op k op).
Proof. destruct op as [i [|[g [|? ?]] [|? ?]]]; simpl; apply _. Defined.

Definition nodes_are_scans (nm : NodesManager) (plan : LogicalOperator) : bool :=
  bool_decide (map_Forall (λ k op, Exists (λ op', address op' = address op ∧ base_op k op') (suboperators plan)) nm.(nodes)).

(** The plan the graph was built from is one [Optimize] may be given. *)
Lemma unchanged_plan rank plan nm joins :
  ranked rank nm.(rename_cols) → scoped nm plan = true → nodes_are_scans nm plan = true → NoDup (tables plan) →
  Forall (λ j, j ∈ suboperators plan ∧ transfer_join j) joins → Forall supported (suboperators plan) → INVALID_INDEX ∉ tables plan →
  transfer_plan nm joins plan.
Proof.
  intros Hr Hs Hn Hnd Hj Hsup Hinv. split; [done|done| |].
  - intros k op cb ca Hk _ _. apply bool_decide_eq_true in Hn. pose proof (Hn k op Hk) as He. apply Exists_exists in He as (op' & ? & ? & ?). eauto.
  - intros cb ca. by apply (unchanged_equated rank).
Qed.

(** ** A query *)

(** Three tables of one or two columns; a condition compares columns. *)
Definition sample_rows (t : Z) : list env :=
  if t =? 0 then [{[mkBinding 0 0 := 1]}; {[mkBinding 0 0 := 2]}; {[mkBinding 0 0 := 3]}]
  else if t =? 1 then [{[mkBinding 1 0 := 1; mkBinding 1 1 := 10]}; {[mkBinding 1 0 := 2; mkBinding 1 1 := 20]}; {[mkBinding 1 0 := 9; mkBinding 1 1 := 10]}]
  else [{[mkBinding 2 0 := 10]}; {[mkBinding 2 0 := 30]}].

Definition sample_semantics (nm : NodesManager) : PlanSemantics := {|
  scan i := match i.(table_indexes) with [t] => if (0 <=? t) && (t <=? 2) then sample_rows t else [] | _ => [] end;
  holds c σ := match σ !! resolve nm (ebinding c.(left)), σ !! resolve nm (ebinding c.(right)) with
               | Some v, Some v' => v =? v' | _, _ => false end;
  passes _ _ := true;
  compute _ r := r
|}.

Lemma sample_semantics_ok nm : PlanSemanticsOk (H := sample_semantics nm) (resolve nm).
Proof.
  split.
  - intros i σ b. cbn [scan sample_semantics]. destruct (table_indexes i) as [|t [|? ?]]; [by intros ?%elem_of_nil| |by intros ?%elem_of_nil].
    destruct (_ && _) eqn:E; [|by intros ?%elem_of_nil]. apply andb_true_iff in E as [E1%Z.leb_le E2%Z.leb_le]. intros Hσ Hb.
    enough (table_index b = t) as -> by left. unfold sample_rows in Hσ.
    destruct (t =? 0) eqn:E0; [|destruct (t =? 1) eqn:E3];
      repeat (apply elem_of_cons in Hσ as [->|Hσ]); try (by apply elem_of_nil in Hσ);
      rewrite ?lookup_insert_is_Some', ?lookup_singleton_is_Some in Hb; naive_solver lia.
  - intros i r σ b Hσ Hb. right. by exists σ.
  - intros c σ _ _ _. cbn [holds sample_semantics]. intros Hh. destruct (σ !! _) as [v|], (σ !! resolve nm (ebinding (right c))) as [v'|]; try done.
    apply Z.eqb_eq in Hh as ->. eauto.
Qed.

(** The keys the filters of the sample accept: exactly those they are built from. *)
Definition sample_accepts (x : nat) (k : list (option Z)) : bool :=
  match x with
  | 0%nat => bool_decide (k ∈ [[Some 1]; [Some 2]; [Some 3]])
  | 1%nat => bool_decide (k ∈ [[Some 10]; [Some 20]])
  | _ => bool_decide (k = [Some 10])
  end.

Definition built_check (sem : PlanSemantics) (fc : FilterContents) (plan : LogicalOperator) : bool :=
  forallb (λ op, match op with
    | Op t [c] => implb (bool_decide (t.(otype) = LOGICAL_CREATE_BF))
        (forallb (λ x, forallb (λ σ, accepts x (key (built_on x) σ)) (eval (λ _, true) c)) t.(filters_of))
    | _ => true
    end) (suboperators plan).

Lemma built_check_ok sem fc plan : built_check sem fc plan = true → filters_built sem fc plan.
Proof.
  unfold built_check. rewrite forallb_forall. intros Hb t c x Hop Ht Hx σ Hσ. specialize (Hb _ (proj1 (list_elem_of_In _ _) Hop)).
  simpl in Hb. rewrite bool_decide_true in Hb by done. simpl in Hb. rewrite forallb_forall in Hb.
  specialize (Hb x (proj1 (list_elem_of_In _ _) Hx)). rewrite forallb_forall in Hb. by apply Hb, list_elem_of_In.
Qed.

(** What is computed about the sample: renames, scopes and scans, and that the filters are built. *)
Definition sample_check (o : PredicateTransferOptimizer) : bool :=
  let nm := o.(dag_manager).(nodes_manager) in
  bool_decide (map_Forall (λ col res, (sample_rank res < sample_rank col)%nat ∧ col ≠ default_binding) nm.(rename_cols)) &&
  scoped nm sample_plan && nodes_are_scans nm sample_plan &&
  match Optimize (λ op, op) sample_plan o with
  | Ret (plan', o') => built_check (sample_semantics nm) (contents_of o'.(heap) sample_accepts) plan'
  | _ => false
  end.

Lemma sample_checked o : PreOptimize sample_plan true 100 = Ret o → sample_check o = true.
Proof.
  intros E. assert (match PreOptimize sample_plan true 100 with Ret o => sample_check o | _ => false end = true) as Hb by (vm_compute; reflexivity).
  rewrite E in Hb. exact Hb.
Qed.

Lemma sample_joins : Forall (λ j, j ∈ suboperators sample_plan ∧ transfer_join j) (plan_joins sample_plan true).
Proof.
  destruct (ExtractNodes_plan sample_rank sample_plan true (wf_ops _ _ sample_plan_wf)) as (s & E & [_ Hj _ _]).
  unfold plan_joins. rewrite E. exact Hj.
Qed.

Lemma sample_supported : Forall supported (suboperators sample_plan).
Proof. apply (bool_decide_unpack _). vm_compute. exact I. Qed.

Lemma sample_transfer_plan o :
  PreOptimize sample_plan true 100 = Ret o → transfer_plan o.(dag_manager).(nodes_manager) (plan_joins sample_plan true) sample_plan.
Proof.
  intros E. pose proof (sample_checked o E) as Hc. unfold sample_check in Hc. apply andb_true_iff in Hc as [Hc _].
  apply andb_true_iff in Hc as [[Hr%bool_decide_eq_true Hs]%andb_true_iff Hn].
  apply (unchanged_plan sample_rank); [exact Hr|exact Hs|exact Hn| |exact sample_joins| |].
  - apply (bool_decide_unpack _). vm_compute. exact I.
  - exact sample_supported.
  - apply (bool_decide_unpack _). vm_compute. exact I.
Qed.

Lemma predicate_transfer_keeps_results_witness :
  ∃ o, PreOptimize sample_plan true 100 = Ret o ∧ ∃ plan' o', Optimize (λ op, op) sample_plan o = Ret (plan', o') ∧
    rows (sample_semantics o.(dag_manager).(nodes_manager)) (contents_of o'.(heap) sample_accepts) plan' =
    rows (sample_semantics o.(dag_manager).(nodes_manager)) (contents_of o'.(heap) sample_accepts) sample_plan.
Proof.
  destruct (predicate_transfer_keeps_results sample_rank sample_plan true 100 sample_plan_wf sample_distinct) as (o & E & Ho).
  exists o. split; [exact E|]. destruct (Ho _ _ (sample_now o E) (sample_transfer_plan o E)) as (plan' & o' & E' & Hrows).
  exists plan', o'. split; [exact E'|]. apply Hrows; [apply sample_semantics_ok|]. apply built_check_ok.
  pose proof (sample_checked o E) as Hc. unfold sample_check in Hc. rewrite E' in Hc. apply andb_true_iff in Hc as [_ Hc]. exact Hc.
Defined.
