(* ===== verification/TransferGaps.v ===== *)
(** * TransferGaps: plans whose result the transfer changes

    The joins and operators [predicate_transfer_keeps_results] leaves out are
    left out for a reason: two plans where [Optimize] adds filters that change
    the result, a MARK join below a disjunction and a join above a LIMIT. *)

From S2P Require Import Prelude BloomFilter LogicalPlan NodesManager Dag DagOrder DagDirections DagBuild TransferOptimizer TransferInsert TransferPasses TransferCorrect PlanSemantics TransferSound.
Local Open Scope Z_scope.
Local Open Scope machine_scope.

(** Two tables of one column each, and what filters and other operators do. *)
Definition two_tables (nm : NodesManager) (t0 t1 : list Z) (pass : env → bool) (comp : op_info → list env → list env) : PlanSemantics := {|
  scan i := match i.(table_indexes) with
            | [t] => if t =? 0 then (λ v, {[mkBinding 0 0 := v]}) <$> t0 else if t =? 1 then (λ v, {[mkBinding 1 0 := v]}) <$> t1 else []
            | _ => []
            end;
  holds c σ := match σ !! resolve nm (ebinding c.(left)), σ !! resolve nm (ebinding c.(right)) with
               | Some v, Some v' => v =? v' | _, _ => false end;
  passes _ := pass;
  compute := comp
|}.

Lemma two_tables_ok nm t0 t1 pass comp :
  (∀ i r σ, σ ∈ comp i r → σ ∈ r) → PlanSemanticsOk (H := two_tables nm t0 t1 pass comp) (resolve nm).
Proof.
  intros Hcomp. split.
  - intros i σ b. cbn [scan two_tables]. destruct (table_indexes i) as [|t [|? ?]]; [by intros ?%elem_of_nil| |by intros ?%elem_of_nil].
    destruct (t =? 0) eqn:E0; [|destruct (t =? 1) eqn:E1; [|by intros ?%elem_of_nil]];
      intros (v & -> & _)%list_elem_of_fmap <-%lookup_singleton_is_Some; simpl; apply list_elem_of_singleton; lia.
  - intros i r σ b Hσ Hb. right. exists σ. split; [by eapply Hcomp|done].
  - intros c σ _ _ _. cbn [holds two_tables]. intros Hh. destruct (σ !! _) as [v|], (σ !! resolve nm (ebinding (right c))) as [v'|]; try done.
    apply Z.eqb_eq in Hh as ->. eauto.
Qed.

(** The optimizer runs on the plan, all its filters are built, and the rows differ. *)
Definition changes_result (plan : LogicalOperator) (sem : NodesManager → PlanSemantics) (acc : nat → list (option Z) → bool) : Prop :=
  ∃ o plan' o', PreOptimize plan true 100 = Ret o ∧ Optimize (λ op, op) plan o = Ret (plan', o') ∧
    let nm := o.(dag_manager).(nodes_manager) in
    PlanSemanticsOk (H := sem nm) (resolve nm) ∧ filters_built (sem nm) (contents_of o'.(heap) acc) plan' ∧
    rows (sem nm) (contents_of o'.(heap) acc) plan' ≠ rows (sem nm) (contents_of o'.(heap) acc) plan.

Definition differs (plan : LogicalOperator) (sem : NodesManager → PlanSemantics) (acc : nat → list (option Z) → bool) : bool :=
  match PreOptimize plan true 100 with
  | Ret o => match Optimize (λ op, op) plan o with
             | Ret (plan', o') =>
                 let nm := o.(dag_manager).(nodes_manager) in
                 built_check (sem nm) (contents_of o'.(heap) acc) plan' &&
                 negb (bool_decide (rows (sem nm) (contents_of o'.(heap) acc) plan' = rows (sem nm) (contents_of o'.(heap) acc) plan))
             | _ => false
             end
  | _ => false
  end.

Lemma differs_changes plan sem acc : (∀ nm, PlanSemanticsOk (H := sem nm) (resolve nm)) → differs plan sem acc = true → changes_result plan sem acc.
Proof.
  intros Hok. unfold differs. destruct (PreOptimize plan true 100) as [o| | |] eqn:E1; try done.
  destruct (Optimize (λ op, op) plan o) as [[plan' o']| | |] eqn:E2; try done.
  intros [Hb Hne]%andb_true_iff. exists o, plan', o'. split; [done|]. split; [done|]. cbv zeta. split_and!; [apply Hok|by apply built_check_ok|].
  by apply negb_true_iff, bool_decide_eq_false in Hne.
Qed.

(** [SELECT * FROM t0 WHERE t0.0 IN (SELECT t1.0 FROM t1) OR t0.0 = 5]: a filter
    over a MARK join whose mark is column [2.0]. *)
Definition mark_column_ref : Expression := BoundColumnRef (mkBinding 2 0).
Definition disjunction : Expression := Expr (OTHER_EXPRESSION_TYPE 0) (OTHER_EXPRESSION_CLASS 0) default_binding [mark_column_ref; BoundColumnRef (mkBinding 0 0)].

Definition mark_plan : LogicalOperator :=
  Op (mkInfo 14 LOGICAL_FILTER 0 [] [] [disjunction] JOIN_INVALID [] [] 0 [] [])
    [Op (mkInfo 13 LOGICAL_COMPARISON_JOIN 0 [2] [] [] MARK
           [mkCondition COMPARE_EQUAL (BoundColumnRef (mkBinding 0 0)) (BoundColumnRef (mkBinding 1 0))] [] 0 [] [])
       [sample_get 11 0 100; sample_get 12 1 10]].

Definition mark_semantics (nm : NodesManager) : PlanSemantics :=
  two_tables nm [1; 5] [1] (λ σ, bool_decide (σ !! mkBinding 2 0 = Some 1) || bool_decide (σ !! mkBinding 0 0 = Some 5)) (λ _ r, r).

(** [SELECT * FROM (SELECT * FROM t0 LIMIT 1) JOIN t1 ON t0.0 = t1.0]. *)
Definition limit_plan : LogicalOperator :=
  sample_join 14 INNER (mkBinding 0 0) (mkBinding 1 0)
    (Op (mkInfo 13 LOGICAL_LIMIT 0 [] [] [] JOIN_INVALID [] [] 0 [] []) [sample_get 11 0 100]) (sample_get 12 1 10).

Definition limit_semantics (nm : NodesManager) : PlanSemantics :=
  two_tables nm [1; 2] [2] (λ _, true) (λ i r, match i.(otype) with LOGICAL_LIMIT => take 1 r | _ => r end).

(** The result of a MARK join below a disjunction changes.  Table [t0] holds
    1 and 5, table [t1] holds 1, and the filter keeps rows that match or that
    are 5: with the exact filter on [t1], the row 5 is gone. *)
Example mark_join_below_a_disjunction : changes_result mark_plan mark_semantics (λ _ k, bool_decide (k = [Some 1])).
Proof. apply differs_changes; [intros nm; by apply two_tables_ok|vm_compute; reflexivity]. Qed.

(** The result of a join above a LIMIT changes.  Table [t0] holds 1 and 2,
    table [t1] holds 2: the first row of [t0] has no match, but with the exact
    filter below the LIMIT the row 2 comes first, and joins. *)
Example filter_below_a_limit : changes_result limit_plan limit_semantics (λ _ k, bool_decide (k = [Some 2])).
Proof.
  apply differs_changes; [|vm_compute; reflexivity]. intros nm. apply two_tables_ok. intros i r σ.
  destruct (otype i); try done. intros Hσ. apply (subseteq_take 1 r), Hσ.
Qed.
