(* ===== verification/PhysicalPlan.v ===== *)
(** * PhysicalPlan: from the optimized plan to physical operators

    [PhysicalPlanGenerator::CreatePlan] on plans with filter operators
    ([plan_create_bf.cpp], [plan_use_bf.cpp]).  Planning a [LogicalUseBF] also
    plans the [LogicalCreateBF]s it depends on, wherever they are in the plan;
    the field [physical] makes sure that each is planned once. *)

From S2P Require Import Prelude BloomFilter LogicalPlan NodesManager Dag TransferOptimizer TransferInsert PlanTree.
Local Open Scope Z_scope.
Local Open Scope machine_scope.

(** ** Physical operators *)

Module PhysicalTypes.

Inductive PhysicalOperatorType :=
| INVALID | ORDER_BY | LIMIT | STREAMING_LIMIT | LIMIT_PERCENT | TOP_N | WINDOW | UNNEST | UNGROUPED_AGGREGATE | HASH_GROUP_BY
| PERFECT_HASH_GROUP_BY | FILTER | PROJECTION | COPY_TO_FILE | BATCH_COPY_TO_FILE | FIXED_BATCH_COPY_TO_FILE | RESERVOIR_SAMPLE
| STREAMING_SAMPLE | STREAMING_WINDOW | PIVOT | COPY_DATABASE
| TABLE_SCAN | DUMMY_SCAN | COLUMN_DATA_SCAN | CHUNK_SCAN | RECURSIVE_CTE_SCAN | CTE_SCAN | DELIM_SCAN | EXPRESSION_SCAN | POSITIONAL_SCAN
| BLOCKWISE_NL_JOIN | NESTED_LOOP_JOIN | HASH_JOIN | CROSS_PRODUCT | PIECEWISE_MERGE_JOIN | IE_JOIN | LEFT_DELIM_JOIN | RIGHT_DELIM_JOIN
| POSITIONAL_JOIN | ASOF_JOIN
| UNION | RECURSIVE_CTE | CTE
| INSERT | BATCH_INSERT | DELETE_OPERATOR | UPDATE
| CREATE_TABLE | CREATE_TABLE_AS | BATCH_CREATE_TABLE_AS | CREATE_INDEX | ALTER | CREATE_SEQUENCE | CREATE_VIEW | CREATE_SCHEMA | CREATE_MACRO
| DROP | PRAGMA | TRANSACTION | CREATE_TYPE | ATTACH | DETACH
| EXPLAIN | EXPLAIN_ANALYZE | EMPTY_RESULT | EXECUTE | PREPARE | VACUUM | EXPORT | SET | LOAD | INOUT_FUNCTION | RESULT_COLLECTOR | RESET | EXTENSION
| CREATE_SECRET | CREATE_BF | USE_BF.
End PhysicalTypes.

Export PhysicalTypes (PhysicalOperatorType).

(** What a physical operator is: one of the two filter operators, with the
    filters and the creators it points to, or another operator. *)
Inductive PhysicalKind :=
| PCreateBF (bf_to_create : list nat)
| PUseBF (bf_to_use : list nat) (related : list nat)
| POther (t : PhysicalOperatorType).

(** A physical operator: the logical operator it is made from, what it is, and
    its children.  Operators are told apart by their place in the heap. *)
Record PhysicalOperator := mkPhysical { made_from : Z; pkind : PhysicalKind; pchildren : list nat }.

(** What is planned for a logical operator other than the two, over the plans
    of its children, when the next free place is [n]: new physical operators,
    and which operator is its plan.  That may be the plan of a child, as for a
    projection that changes nothing. *)
Class OtherPlans := other_plan : LogicalOperator → list nat → nat → list PhysicalOperator * nat.

(** New operators are above the children and above operators made before. *)
Class OtherPlansOk `{OtherPlans} : Prop := {
  other_kind op cs n i p : (other_plan op cs n).1 !! i = Some p → ∃ t, p.(pkind) = POther t;
  other_children op cs n i p c : (other_plan op cs n).1 !! i = Some p → c ∈ p.(pchildren) → c ∈ cs ∨ (n ≤ c < n + i)%nat;
  other_root op cs n : (other_plan op cs n).2 ∈ cs ∨ (n ≤ (other_plan op cs n).2 < n + length (other_plan op cs n).1)%nat
}.

(** ** Planning *)

(** The operators made so far, the field [physical] of each [LogicalCreateBF],
    and a record, which the code does not keep, of what has been planned: the
    logical operators, each with its plan. *)
Record planner := mkPlanner { plans : list PhysicalOperator; physical : gmap Z nat; planned : list (Z * nat) }.

Definition new_planner : planner := mkPlanner [] ∅ [].

(** The plan of [op] is [id], with new operators. *)
Definition make_plan (op : LogicalOperator) (new : list PhysicalOperator) (id : nat) (st : planner) : planner :=
  mkPlanner (st.(plans) ++ new) st.(physical) (st.(planned) ++ [(address op, id)]).

Definition make_op (op : LogicalOperator) (k : PhysicalKind) (cs : list nat) (st : planner) : nat * planner :=
  (length st.(plans), make_plan op [mkPhysical (address op) k cs] (length st.(plans)) st).

Section Planning.
  (** [find]: the operator a pointer to a [LogicalCreateBF] points to. *)
  Context `{OtherPlans} (find : Z → option LogicalOperator).

(** Planning operators one after the other. *)
Fixpoint plan_all {A : Type} (f : A → planner → outcome (nat * planner)) (l : list A) (st : planner) : outcome (list nat * planner) :=
  match l with
  | [] => Ret ([], st)
  | x :: l => let* r := f x st in let* rs := plan_all f l r.2 in Ret (r.1 :: rs.1, rs.2)
  end.

(** The body [CreatePlan] and [CreatePlanfromRelated] share for a [LogicalCreateBF]. *)
Definition plan_create_bf (CreatePlan : LogicalOperator → planner → outcome (nat * planner)) (op : LogicalOperator) (st : planner)
    : outcome (nat * planner) :=
  match st.(physical) !! address op with
  | Some create_bf => Ret (create_bf, st)
  | None =>
      let* child := vec_at (children op) 0 in
      let* plan := CreatePlan child st in
      let '(create_bf, st) := make_op op (PCreateBF (info op).(filters_of)) [plan.1] plan.2 in
      Ret (create_bf, mkPlanner st.(plans) (<[address op := create_bf]> st.(physical)) st.(planned))
  end.

Definition plan_use_bf (CreatePlan : LogicalOperator → planner → outcome (nat * planner)) (op : LogicalOperator) (st : planner)
    : outcome (nat * planner) :=
  let* child := vec_at (children op) 0 in
  let* plan := CreatePlan child st in
  let* related := plan_all (λ cell st, let* create := deref (find cell) in plan_create_bf CreatePlan create st)
    (info op).(related_create_bf) plan.2 in
  Ret (make_op op (PUseBF (info op).(filters_of) related.1) [plan.1] related.2).

(** [CreatePlan].  Operators other than the two plan their children in order.
    [fuel] bounds the depth of the recursion. *)
Fixpoint CreatePlan (fuel : nat) (op : LogicalOperator) (st : planner) : outcome (nat * planner) :=
  match fuel with
  | O => NoFuel
  | S fuel =>
      match type op with
      | LOGICAL_CREATE_BF => plan_create_bf (CreatePlan fuel) op st
      | LOGICAL_USE_BF => plan_use_bf (CreatePlan fuel) op st
      | _ =>
          let* cs := plan_all (CreatePlan fuel) (children op) st in
          let '(new, id) := other_plan op cs.1 (length cs.2.(plans)) in
          Ret (id, make_plan op new id cs.2)
      end
  end.
End Planning.

Definition find_op (plan : LogicalOperator) (addr : Z) : option LogicalOperator :=
  snd <$> list_find (λ op, address op = addr) (suboperators plan).

Definition plan_fuel (plan : LogicalOperator) : nat := (S (length (suboperators plan)) * S (length (suboperators plan)))%nat.

(** The whole plan. *)
Definition PlanQuery `{OtherPlans} (plan : LogicalOperator) : outcome (nat * planner) :=
  CreatePlan (find_op plan) (plan_fuel plan) plan new_planner.

(** ** Plans that can be planned *)

(** Every creator a [LogicalUseBF] depends on is in the plan, and comes before
    the creators the use is below. *)
Record plannable (rank : Z → nat) (plan : LogicalOperator) : Prop := {
  pl_addresses : NoDup (addresses plan);
  pl_unary : ∀ op, op ∈ suboperators plan → is_filter_op (type op) = true → ∃ c, children op = [c];
  pl_related : ∀ t a, t ∈ suboperators plan → type t = LOGICAL_USE_BF → a ∈ (info t).(related_create_bf) →
    ∃ c, c ∈ suboperators plan ∧ type c = LOGICAL_CREATE_BF ∧ address c = a ∧
      ∀ d, d ∈ suboperators plan → type d = LOGICAL_CREATE_BF → t ∈ suboperators d → (rank a < rank (address d))%nat
}.

(** Plans of the operators with addresses [l]. *)
Definition plans_of (st : planner) (l : list Z) (ids : list nat) : Prop := Forall2 (λ a id, (a, id) ∈ st.(planned)) l ids.

(** The plan [id] of the operator at [a] is what it asks for. *)
Definition made_right `{OtherPlans} (plan : LogicalOperator) (st : planner) (a : Z) (id : nat) : Prop :=
  ∃ op cs, op ∈ suboperators plan ∧ a = address op ∧ plans_of st (address <$> children op) cs ∧
    match type op with
    | LOGICAL_CREATE_BF => st.(plans) !! id = Some (mkPhysical a (PCreateBF (info op).(filters_of)) cs)
    | LOGICAL_USE_BF => ∃ related, plans_of st (info op).(related_create_bf) related ∧
        st.(plans) !! id = Some (mkPhysical a (PUseBF (info op).(filters_of) related) cs)
    | _ => ∃ n, (other_plan op cs n).2 = id ∧ ∀ i p, (other_plan op cs n).1 !! i = Some p → st.(plans) !! (n + i)%nat = Some p
    end.

(** [p], at [id], is the plan of a filter operator. *)
Definition made_for_filter (plan : LogicalOperator) (st : planner) (id : nat) (p : PhysicalOperator) : Prop :=
  ∃ op, op ∈ suboperators plan ∧ is_filter_op (type op) = true ∧ p.(made_from) = address op ∧ (address op, id) ∈ st.(planned).

(** What an operator is made of. *)
Definition points_to (p : PhysicalOperator) : list nat := p.(pchildren) ++ match p.(pkind) with PUseBF _ related => related | _ => [] end.

Lemma plans_of_elem st l ids c : plans_of st l ids → c ∈ ids → ∃ a, a ∈ l ∧ (a, c) ∈ st.(planned).
Proof.
  intros Hl (i & Hi)%list_elem_of_lookup. destruct (Forall2_lookup_r _ _ _ _ _ Hl Hi) as (a & Ha & Hp).
  exists a. split; [by eapply list_elem_of_lookup_2|done].
Qed.

Section Plannable.
  Context `{OtherPlansOk} (rank : Z → nat) (plan : LogicalOperator) (Hpl : plannable rank plan).

Let find : Z → option LogicalOperator := find_op plan.

Lemma find_op_ok c : c ∈ suboperators plan → find (address c) = Some c.
Proof.
  intros Hc. unfold find, find_op. destruct (list_find (λ op, address op = address c) (suboperators plan)) as [[k d]|] eqn:E.
  - apply list_find_Some in E as (Hk & Ha & _). simpl. f_equal. apply (sub_address_inj plan); try done; [apply (pl_addresses _ _ Hpl)|].
    by eapply list_elem_of_lookup_2.
  - apply list_find_None in E. rewrite Forall_forall in E. by destruct (E c Hc).
Qed.

Definition creates (c : LogicalOperator) : Prop := c ∈ suboperators plan ∧ type c = LOGICAL_CREATE_BF.

(** [c] comes before all creators above [op]. *)
Definition before (c op : LogicalOperator) : Prop := ∀ d, creates d → op ∈ suboperators d → (rank (address c) < rank (address d))%nat.

Definition done (st : planner) : list Z := st.(planned).*1.

Record planner_ok (st : planner) : Prop := {
  po_once : NoDup (done st);
  po_right : ∀ a id, (a, id) ∈ st.(planned) → made_right plan st a id ∧ (id < length st.(plans))%nat;
  po_made : ∀ id p, st.(plans) !! id = Some p → (∃ t, p.(pkind) = POther t) ∨ made_for_filter plan st id p;
  po_down : ∀ id p c, st.(plans) !! id = Some p → c ∈ points_to p → (c < id)%nat;
  po_physical : ∀ a id, st.(physical) !! a = Some id → (a, id) ∈ st.(planned);
  po_creates : ∀ c, creates c → address c ∈ done st → is_Some (st.(physical) !! address c);
  po_closed : ∀ c a, creates c → address c ∈ done st → a ∈ addresses c → a ∈ done st
}.

(** What is planned below [op] is below a creator that is planned. *)
Definition fresh (op : LogicalOperator) (st : planner) : Prop :=
  ∀ a, a ∈ addresses op → a ∈ done st → ∃ c, c ∈ suboperators op ∧ creates c ∧ address c ∈ done st ∧ a ∈ addresses c.

(** So it is for the creators that may be planned for [op]. *)
Definition others_fresh (op : LogicalOperator) (st : planner) : Prop :=
  ∀ c, creates c → before c op → address c ∉ done st → fresh c st.

(** The operators with addresses [A] are planned, and creators that come before [op]. *)
Record planned_more (op : LogicalOperator) (A : list Z) (st st' : planner) : Prop := {
  pm_ok : planner_ok st';
  pm_prefix : st.(plans) `prefix_of` st'.(plans);
  pm_planned : st.(planned) `prefix_of` st'.(planned);
  pm_all : ∀ a, a ∈ A → a ∈ done st';
  pm_only : ∀ a, a ∈ done st' → a ∈ done st ∨ a ∈ A ∨ ∃ c, creates c ∧ before c op ∧ address c ∈ done st' ∧ a ∈ addresses c
}.

Lemma before_sub c op x : x ∈ suboperators op → before c x → before c op.
Proof. intros Hx Hb d Hd Hop. apply Hb; [done|]. by eapply suboperators_trans. Qed.

Lemma before_not_above c op : creates c → before c op → op ∉ suboperators c.
Proof. intros Hc Hb Hop. specialize (Hb c Hc Hop). lia. Qed.

Lemma done_prefix st st' a : st.(planned) `prefix_of` st'.(planned) → a ∈ done st → a ∈ done st'.
Proof. intros [l E]. unfold done. rewrite E, fmap_app. set_solver. Qed.

Lemma planned_done st id a : (a, id) ∈ st.(planned) → a ∈ done st.
Proof. intros Ha. unfold done. apply list_elem_of_fmap. by exists (a, id). Qed.

Lemma plans_of_prefix st st' l ids : st.(planned) `prefix_of` st'.(planned) → plans_of st l ids → plans_of st' l ids.
Proof. intros Hp Hl. eapply Forall2_impl; [exact Hl|]. intros a id Ha. simpl in *. by eapply elem_of_prefix. Qed.

Lemma made_right_prefix st st' a id :
  st.(plans) `prefix_of` st'.(plans) → st.(planned) `prefix_of` st'.(planned) → made_right plan st a id → made_right plan st' a id.
Proof.
  intros Hp Hl (op & cs & Hop & Ha & Hc & Hk). exists op, cs. split_and!; [done|done|by eapply plans_of_prefix|].
  assert (∀ i p, st.(plans) !! i = Some p → st'.(plans) !! i = Some p) as Hat by (intros i p Hi; by eapply prefix_lookup_Some).
  destruct (type op); try (destruct Hk as (n & ? & Hn); exists n; split; [done|]; intros i p Hi; by apply Hat, Hn).
  - by apply Hat.
  - destruct Hk as (rel & Hr & Hi). exists rel. split; [by eapply plans_of_prefix|by apply Hat].
Qed.

Lemma planned_more_refl op st : planner_ok st → planned_more op [] st st.
Proof. intros Hok. split; [done|done|done|set_solver|auto]. Qed.

Lemma planned_more_trans op A B st1 st2 st3 :
  planned_more op A st1 st2 → planned_more op B st2 st3 → planned_more op (A ++ B) st1 st3.
Proof.
  intros [O1 P1 L1 A1 X1] [O2 P2 L2 A2 X2]. split; [done|by etrans|by etrans| |].
  - intros a [Ha|Ha]%elem_of_app; [eapply done_prefix; [exact L2|]; auto|auto].
  - intros a Ha. rewrite elem_of_app. destruct (X2 a Ha) as [Ha2|[Ha2|Ha2]]; [|auto..].
    destruct (X1 a Ha2) as [?|[?|(c & ? & ? & ? & ?)]]; [auto..|]. right; right. exists c. split_and!; try done. by eapply done_prefix.
Qed.

Lemma planned_more_up op x A st st' : x ∈ suboperators op → planned_more x A st st' → planned_more op A st st'.
Proof.
  intros Hx [O P L Al X]. split; [done..|]. intros a Ha. destruct (X a Ha) as [?|[?|(c & ? & ? & ? & ?)]]; [auto..|].
  right; right. exists c. split_and!; try done. by eapply before_sub.
Qed.

(** An operator is not planned by its children or by creators before it. *)
Lemma not_planned op A st st' :
  op ∈ suboperators plan → planned_more op A st st' → address op ∉ done st → address op ∉ A → address op ∉ done st'.
Proof.
  intros Hop Hm Hn HA Hd. destruct (pm_only _ _ _ _ Hm _ Hd) as [?|[?|(c & Hc & Hb & _ & Ha)]]; [done..|].
  apply (before_not_above c op Hc Hb). pose proof Hc as [Hcs _].
  by apply (addresses_sub_op plan (pl_addresses _ _ Hpl) (address op) c).
Qed.

Definition of_children (op : LogicalOperator) (A : list Z) : Prop :=
  ∀ a, a ∈ A → ∃ x, x ∈ children op ∧ a ∈ addresses x ∧ ∀ b, b ∈ addresses x → b ∈ A.

Let Hnd : NoDup (addresses plan) := pl_addresses _ _ Hpl.

Lemma child_in op x : op ∈ suboperators plan → x ∈ children op → x ∈ suboperators plan.
Proof. intros Hop Hx. eapply suboperators_trans; [exact Hop|]. by eapply suboperators_child; [|apply suboperators_self]. Qed.

(** A creator that comes before [op] and shares something with a child of it is below the child. *)
Lemma before_below op x c a :
  op ∈ suboperators plan → x ∈ children op → creates c → before c op → a ∈ addresses c → a ∈ addresses x → c ∈ suboperators x.
Proof.
  intros Hop Hx Hc Hb Ha Hax. pose proof Hc as [Hcs _].
  destruct (nested plan Hnd c x a Hcs (child_in op x Hop Hx) Ha Hax) as [?|[->|(p & Hp & Hxp)]%sub_parent]; [done|apply suboperators_self|].
  exfalso. apply (before_not_above c op Hc Hb). rewrite <- (parent_unique plan Hnd p op x); try done. exact (suboperators_trans plan c p Hcs Hp).
Qed.

Lemma others_fresh_more op A st st' :
  op ∈ suboperators plan → others_fresh op st → planned_more op A st st' → of_children op A → others_fresh op st'.
Proof.
  intros Hop Hof Hm HA c Hc Hb Hnc a Ha Hd. pose proof Hc as [Hcs _].
  destruct (pm_only _ _ _ _ Hm a Hd) as [Hold|[HaA|(c2 & Hc2 & Hb2 & Hd2 & Ha2)]].
  - destruct (Hof c Hc Hb) with a as (c0 & ? & ? & ? & ?); [|done|done|].
    + intros Hdc. apply Hnc. eapply done_prefix; [apply Hm|done].
    + exists c0. split_and!; try done. eapply done_prefix; [apply Hm|done].
  - exfalso. destruct (HA a HaA) as (x & Hx & Hax & Hall). apply Hnc, (pm_all _ _ _ _ Hm), Hall.
    apply (addresses_sub c); [|apply address_in]. by apply (before_below op x c a).
  - destruct (nested plan Hnd c c2 a Hcs (proj1 Hc2) Ha Ha2) as [Hcc|Hcc]; [|by exists c2].
    exfalso. apply Hnc. apply (po_closed _ (pm_ok _ _ _ _ Hm) c2); try done. apply (addresses_sub c); [done|apply address_in].
Qed.

Lemma fresh_more op A st st' y :
  op ∈ suboperators plan → y ∈ children op → fresh y st → planned_more op A st st' → (∀ a, a ∈ A → a ∉ addresses y) → fresh y st'.
Proof.
  intros Hop Hy Hf Hm HA a Ha Hd. destruct (pm_only _ _ _ _ Hm a Hd) as [Hold|[HaA|(c2 & Hc2 & Hb2 & Hd2 & Ha2)]].
  - destruct (Hf a Ha Hold) as (c0 & ? & ? & ? & ?). exists c0. split_and!; try done. eapply done_prefix; [apply Hm|done].
  - by destruct (HA a HaA).
  - exists c2. split_and!; try done. by apply (before_below op y c2 a).
Qed.

Lemma others_fresh_child op x st : x ∈ children op → others_fresh op st → others_fresh x st.
Proof.
  intros Hx Hof c Hc Hb. apply Hof; [done|]. eapply before_sub; [|exact Hb]. by eapply suboperators_child; [|apply suboperators_self].
Qed.

(** *** Children *)

Definition plans_well (f : LogicalOperator → planner → outcome (nat * planner)) (x : LogicalOperator) : Prop :=
  ∀ st, planner_ok st → others_fresh x st → fresh x st →
  ∃ id st', f x st = Ret (id, st') ∧ (address x, id) ∈ st'.(planned) ∧ planned_more x (addresses x) st st'.

Lemma concat_of_children op cs : (∀ x, x ∈ cs → x ∈ children op) → of_children op (concat (map addresses cs)).
Proof.
  intros Hcs a Ha. apply list_elem_of_In, in_concat in Ha as (l & Hl & Ha). apply in_map_iff in Hl as (x & <- & Hx).
  exists x. split_and!; [by apply Hcs, list_elem_of_In|by apply list_elem_of_In|]. intros b Hb. apply list_elem_of_In, in_concat.
  exists (addresses x). split; [by apply in_map|by apply list_elem_of_In].
Qed.

Lemma plan_all_ok f op cs st :
  op ∈ suboperators plan → (∀ x, x ∈ cs → x ∈ children op) → NoDup (concat (map addresses cs)) → (∀ x, x ∈ cs → plans_well f x) →
  planner_ok st → others_fresh op st → (∀ x, x ∈ cs → fresh x st) →
  ∃ ids st', plan_all f cs st = Ret (ids, st') ∧ plans_of st' (address <$> cs) ids ∧
    planned_more op (concat (map addresses cs)) st st'.
Proof.
  intros Hop. revert st. induction cs as [|x cs IH]; intros st Hcs Hn Hf Hok Hof Hfr.
  { exists [], st. split_and!; [done|constructor|by apply planned_more_refl]. }
  simpl in Hn. apply NoDup_app in Hn as (_ & Hd & Hn). assert (x ∈ children op) as Hx by (apply Hcs; left).
  destruct (Hf x (list_elem_of_here _ _) st Hok (others_fresh_child op x st Hx Hof) (Hfr x (list_elem_of_here _ _))) as (id & st1 & E1 & O1 & M1).
  apply (planned_more_up op) in M1; [|by eapply suboperators_child; [|apply suboperators_self]].
  destruct (IH st1) as (ids & st2 & E2 & O2 & M2); [set_solver|done|set_solver|apply M1| | |].
  - eapply others_fresh_more; [done|done|exact M1|]. pose proof (concat_of_children op [x]) as Hoc. simpl in Hoc. rewrite app_nil_r in Hoc. apply Hoc. set_solver.
  - intros y Hy. eapply fresh_more; [done|set_solver|apply Hfr; by right|exact M1|]. intros a Ha Hay. apply (Hd a Ha).
    apply list_elem_of_In, in_concat. exists (addresses y). split; [by apply in_map, list_elem_of_In|by apply list_elem_of_In].
  - simpl. rewrite E1. orun. simpl. rewrite E2. orun. eexists _, _. split; [done|]. split.
    + csimpl. constructor; [|done]. eapply elem_of_prefix; [done|apply M2].
    + simpl. by eapply planned_more_trans.
Qed.

(** *** A new operator *)

Definition set_physical (op : LogicalOperator) (id : nat) (m : gmap Z nat) : gmap Z nat :=
  match type op with LOGICAL_CREATE_BF => <[address op := id]> m | _ => m end.

(** The places of new operators. *)
Lemma new_lookup st new i p : (st.(plans) ++ new) !! i = Some p → st.(plans) !! i = Some p ∨ (length st.(plans) ≤ i)%nat ∧ new !! (i - length st.(plans))%nat = Some p.
Proof. intros [?|[? ?]]%lookup_app_Some; auto. Qed.

Lemma make_plan_ok op st new id :
  op ∈ suboperators plan → planner_ok st → address op ∉ done st →
  let st' := mkPlanner (st.(plans) ++ new) (set_physical op id st.(physical)) (st.(planned) ++ [(address op, id)]) in
  made_right plan st' (address op) id → (id < length st'.(plans))%nat →
  (∀ i p, new !! i = Some p → ((∃ t, p.(pkind) = POther t) ∨ is_filter_op (type op) = true ∧ p.(made_from) = address op ∧ id = (length st.(plans) + i)%nat) ∧
    ∀ c, c ∈ points_to p → (c < length st.(plans) + i)%nat) →
  (∀ a, a ∈ addresses op → a = address op ∨ a ∈ done st) →
  planned_more op [address op] st st'.
Proof.
  intros Hop [O1 O2 O3 O4 O5 O6 O7] Hfresh st' Hr Hid Hnew Hall.
  assert (st.(plans) `prefix_of` st'.(plans)) as Hpre by (by exists new).
  assert (st.(planned) `prefix_of` st'.(planned)) as Hpl' by (by exists [(address op, id)]).
  assert (done st' = done st ++ [address op]) as Hdone by (unfold done; simpl; by rewrite fmap_app).
  assert ((address op, id) ∈ st'.(planned)) as Hin by (simpl; set_solver).
  split; [|done|done|rewrite Hdone; set_solver|rewrite Hdone; set_solver]. split.
  - rewrite Hdone. apply NoDup_app. split_and!; [done|set_solver|apply NoDup_singleton].
  - intros a k [Ha|[= -> ->]%list_elem_of_singleton]%elem_of_app; [|done]. destruct (O2 a k Ha) as [? ?].
    split; [by eapply made_right_prefix|]. simpl. rewrite length_app. lia.
  - intros k p [Hk|[Hle Hk]]%new_lookup.
    + destruct (O3 k p Hk) as [?|(o & ? & ? & ? & ?)]; [by left|right]. exists o. split_and!; try done. by eapply elem_of_prefix.
    + destruct (Hnew _ p Hk) as [[?|(? & ? & E)] _]; [by left|right]. replace k with id by lia. by exists op.
  - intros k p c [Hk|[Hle Hk]]%new_lookup Hc; [by eapply O4|]. destruct (Hnew _ p Hk) as [_ Hlt]. specialize (Hlt c Hc). lia.
  - intros a k. simpl. unfold set_physical. assert (physical st !! a = Some k → (a, k) ∈ st'.(planned)) as Hold.
    { intros E. eapply elem_of_prefix; [by apply O5|done]. }
    destruct (type op); try apply Hold. destruct (decide (a = address op)) as [->|Hne]; [rewrite lookup_insert_eq; by intros [= <-]|].
    rewrite lookup_insert_ne by done. apply Hold.
  - intros c Hc. rewrite Hdone. intros [Hd|Hd%list_elem_of_singleton]%elem_of_app; simpl; unfold set_physical.
    + destruct (O6 c Hc Hd) as [k Hk]. assert (address c ≠ address op) by (intros E; rewrite E in Hd; done).
      destruct (type op); rewrite ?lookup_insert_ne by done; eauto.
    + assert (c = op) as -> by (apply (sub_address_inj plan); try done; apply Hc). pose proof Hc as [_ Ht]. rewrite Ht, lookup_insert_eq. eauto.
  - intros c a Hc. rewrite Hdone, !elem_of_app. intros [Hd|Hd%list_elem_of_singleton] Ha; [left; by eapply O7|].
    assert (c = op) as -> by (apply (sub_address_inj plan); try done; apply Hc). destruct (Hall a Ha) as [->|?]; [right; left|by left].
Qed.

(** What is planned is in the heap. *)
Lemma plans_of_lt st l ids c : planner_ok st → plans_of st l ids → c ∈ ids → (c < length st.(plans))%nat.
Proof. intros Hok Hl Hc. destruct (plans_of_elem st l ids c Hl Hc) as (a & _ & Ha). by apply (po_right _ Hok a c). Qed.

(** A single new operator. *)
Lemma make_op_ok op st k cs :
  op ∈ suboperators plan → planner_ok st → address op ∉ done st → plans_of st (address <$> children op) cs →
  match k with
  | PCreateBF fs => type op = LOGICAL_CREATE_BF ∧ fs = (info op).(filters_of)
  | PUseBF fs related => type op = LOGICAL_USE_BF ∧ fs = (info op).(filters_of) ∧ plans_of st (info op).(related_create_bf) related
  | POther _ => False
  end →
  (∀ a, a ∈ addresses op → a = address op ∨ a ∈ done st) →
  let id := length st.(plans) in
  let st' := mkPlanner (st.(plans) ++ [mkPhysical (address op) k cs]) (set_physical op id st.(physical)) (st.(planned) ++ [(address op, id)]) in
  planned_more op [address op] st st'.
Proof.
  intros Hop Hok Hfresh Hcs Hk Hall id st'. assert (st.(planned) `prefix_of` st'.(planned)) as Hpre by (by exists [(address op, id)]).
  assert (st'.(plans) !! id = Some (mkPhysical (address op) k cs)) as Hid by (simpl; unfold id; by rewrite list_lookup_middle).
  apply make_plan_ok; try done.
  - exists op, cs. split_and!; [done|done|by eapply plans_of_prefix|]. fold st'. destruct k as [fs|fs related|]; [|by destruct Hk as (-> & -> & Hrel); eauto using plans_of_prefix|done].
    by destruct Hk as [-> ->].
  - simpl. rewrite length_app. simpl. unfold id. lia.
  - intros i p Hi. apply list_lookup_singleton_Some in Hi as [-> <-]. split; [right; unfold id; simpl; split_and!; [|done|lia]|].
    { destruct k; [destruct Hk as [-> _]|destruct Hk as (-> & _)|]; done. }
    intros c. unfold points_to. simpl. rewrite Nat.add_0_r, elem_of_app. intros [Hc|Hc]; [by eapply plans_of_lt|].
    destruct k as [|fs related|]; [by apply elem_of_nil in Hc|destruct Hk as (_ & _ & Hrel); by eapply plans_of_lt|done].
Qed.

(** *** Creators *)

Lemma sub_antisym c op : op ∈ suboperators plan → c ∈ suboperators op → op ∈ suboperators c → c = op.
Proof.
  destruct op as [i cs]. intros Hop [->|(x & Hx & Hc)]%suboperators_cases Ho; [done|]. exfalso.
  apply (child_not_above plan Hnd (Op i cs) x Hop Hx). by eapply suboperators_trans.
Qed.

Lemma planned_already op st : planner_ok st → creates op → address op ∈ done st → planned_more op (addresses op) st st.
Proof. intros Hok Hc Hd. split; [done|done|done|intros a Ha; by eapply (po_closed _ Hok)|auto]. Qed.

Lemma plan_create_ok f op c st :
  creates op → children op = [c] → plans_well f c → planner_ok st → others_fresh c st → fresh op st →
  ∃ id st', plan_create_bf f op st = Ret (id, st') ∧ (address op, id) ∈ st'.(planned) ∧ planned_more op (addresses op) st st'.
Proof.
  intros Hc Hch Hf Hok Hof Hfr. pose proof Hc as [Hop Ht]. unfold plan_create_bf.
  destruct (physical st !! address op) as [id|] eqn:E.
  { pose proof (po_physical _ Hok _ _ E) as Ho. exists id, st. split_and!; [done|done|]. apply planned_already; [done|done|by eapply planned_done]. }
  assert (address op ∉ done st) as Hnew by (intros Hd; destruct (po_creates _ Hok op Hc Hd); congruence).
  rewrite Hch. unfold vec_at. simpl. destruct op as [i cs]. simpl in Hch. subst cs.
  destruct (Hf st Hok Hof) as (id & st1 & E1 & O1 & M1).
  { intros a Ha Hd. destruct (Hfr a) as (c0 & Hc0 & ? & Hd0 & ?); [eapply addresses_sub; [|done]; by eapply suboperators_child; [left|apply suboperators_self]|done|].
    exists c0. apply suboperators_cases in Hc0 as [->|(x & Hx & Hcx)]; [done|]. apply list_elem_of_singleton in Hx as ->. done. }
  rewrite E1. orun. simpl. apply (planned_more_up (Op i [c])) in M1; [|by eapply suboperators_child; [left|apply suboperators_self]].
  assert (address (Op i [c]) ∉ addresses c) as Hac.
  { intros Hin. apply (child_not_above plan Hnd (Op i [c]) c Hop); [left|]. apply (addresses_sub_op plan Hnd (address (Op i [c]))); try done. apply (child_in (Op i [c])); [done|left]. }
  opose proof* (make_op_ok (Op i [c]) st1 (PCreateBF i.(filters_of)) [id]) as M2; [done|apply M1|by eapply not_planned|by repeat constructor|done| |].
  { intros a [->|(x & Hx & Hax)]%addresses_cases; [by left|right]. apply list_elem_of_singleton in Hx as ->. by apply (pm_all _ _ _ _ M1). }
  eexists _, _. split; [done|]. unfold set_physical in M2. rewrite Ht in M2. split; [simpl; set_solver|].
  pose proof (planned_more_trans _ _ _ _ _ _ M1 M2) as [P1 P2 P2' P3 P4]. split; [done|done|done| |].
  - intros a [->|(x & Hx & Hax)]%addresses_cases; apply P3; [set_solver|]. apply list_elem_of_singleton in Hx as ->. set_solver.
  - intros a Ha. destruct (P4 a Ha) as [?|[[Hac'| ->%list_elem_of_singleton]%elem_of_app|?]]; auto.
    + right; left. eapply addresses_sub; [|exact Hac']. by eapply suboperators_child; [left|apply suboperators_self].
    + right; left. apply address_in.
Qed.

(** The creators a use depends on. *)
Lemma plan_related_ok f op l st :
  op ∈ suboperators plan →
  (∀ a, a ∈ l → ∃ c q, creates c ∧ address c = a ∧ before c op ∧ children c = [q] ∧ plans_well f q) →
  planner_ok st → others_fresh op st →
  ∃ ids st', plan_all (λ cell st, let* create := deref (find cell) in plan_create_bf f create st) l st = Ret (ids, st') ∧
    plans_of st' l ids ∧ planned_more op [] st st'.
Proof.
  intros Hop. revert st. induction l as [|a l IH]; intros st Hl Hok Hof.
  { exists [], st. split_and!; [done|constructor|by apply planned_more_refl]. }
  destruct (Hl a) as (c & q & Hc & Ha & Hb & Hch & Hf); [left|]. pose proof Hc as [Hcs _].
  assert (∀ st, planner_ok st → others_fresh op st → ∃ id st', plan_create_bf f c st = Ret (id, st') ∧ (address c, id) ∈ st'.(planned) ∧ planned_more c (addresses c) st st') as Hplan.
  { intros st' Hok' Hof'. destruct (decide (address c ∈ done st')) as [Hd|Hd].
    - destruct (po_creates _ Hok' c Hc Hd) as [id Hid]. exists id, st'. unfold plan_create_bf. rewrite Hid. split_and!; [done|by apply (po_physical _ Hok')|by apply planned_already].
    - apply (plan_create_ok f c q); try done; [|by apply Hof']. intros c2 Hc2 Hb2. apply Hof'; [done|]. intros d Hd' Hopd.
      specialize (Hb d Hd' Hopd). assert (rank (address c2) < rank (address c))%nat; [|lia]. apply Hb2; [done|].
      eapply suboperators_child; [|apply suboperators_self]. rewrite Hch. left. }
  destruct (Hplan st Hok Hof) as (id & st1 & E1 & O1 & [P1 P2 P2' P3 P4]).
  assert (planned_more op [] st st1) as M1.
  { split; [done|done|done|set_solver|]. intros b Hb'. destruct (P4 b Hb') as [?|[Hbc|(c2 & Hc2 & Hb2 & ? & ?)]]; [by left|..]; right; right.
    - exists c. split_and!; try done. apply P3, address_in.
    - exists c2. split_and!; try done. intros d Hd Hopd. specialize (Hb d Hd Hopd). specialize (Hb2 c Hc (suboperators_self c)). lia. }
  destruct (IH st1) as (ids & st2 & E2 & O2 & M2); [set_solver|done| |].
  { eapply others_fresh_more; [done|done|exact M1|]. intros ? Hx. by apply elem_of_nil in Hx. }
  simpl. rewrite <- Ha, (find_op_ok c Hcs). orun. rewrite E1. orun. simpl. rewrite E2. orun. eexists _, _. split; [done|]. split.
  - constructor; [eapply elem_of_prefix; [done|apply M2]|done].
  - by apply (planned_more_trans op [] []) with st1.
Qed.

(** *** Any operator *)

Let D : nat := length (suboperators plan).

(** The uses below [op] depend on creators of a rank below [n]. *)
Definition level (n : nat) (op : LogicalOperator) : Prop :=
  ∀ t a, t ∈ suboperators op → type t = LOGICAL_USE_BF → a ∈ (info t).(related_create_bf) → (rank a < n)%nat.

Lemma level_child n op x : x ∈ children op → level n op → level n x.
Proof. intros Hx Hl t a Ht. apply Hl. by eapply suboperators_child. Qed.

Lemma suboperators_length_child i cs x : x ∈ cs → (length (suboperators x) < length (suboperators (Op i cs)))%nat.
Proof.
  intros Hx. simpl. apply Nat.lt_succ_r. induction cs as [|y cs IH]; [by apply elem_of_nil in Hx|]. simpl. rewrite length_app.
  apply elem_of_cons in Hx as [->|Hx]; [lia|]. apply IH in Hx. lia.
Qed.

Lemma suboperators_length_sub op : op ∈ suboperators plan → (length (suboperators op) ≤ D)%nat.
Proof.
  intros Hop. pose proof (addresses_sub_nodup op plan Hnd Hop) as Hn. unfold D.
  rewrite <- !(length_fmap address). apply submseteq_length, NoDup_submseteq; [done|]. intros a. by apply addresses_sub.
Qed.

Lemma not_done op st : op ∈ suboperators plan → type op ≠ LOGICAL_CREATE_BF → fresh op st → address op ∉ done st.
Proof.
  intros Hop Ht Hf Hd. destruct (Hf _ (address_in op) Hd) as (c & Hc & Hcr & _ & Ha). pose proof Hcr as [Hcs Hct].
  assert (op ∈ suboperators c) as Hoc by (by apply (addresses_sub_op plan Hnd (address op) c)).
  apply (sub_antisym c op Hop Hc) in Hoc as ->. done.
Qed.

Lemma addresses_children op a : a ∈ addresses op ↔ a = address op ∨ a ∈ concat (map addresses (children op)).
Proof. destruct op as [i cs]. rewrite addresses_cons, elem_of_cons. done. Qed.

Lemma own_address_not_below op : op ∈ suboperators plan → address op ∉ concat (map addresses (children op)).
Proof.
  intros Hop. pose proof (addresses_sub_nodup op plan Hnd Hop) as Hn. destruct op as [i cs]. rewrite addresses_cons in Hn. by apply NoDup_cons in Hn as [? _].
Qed.

Lemma finish_more op st st' st2 :
  planned_more op (concat (map addresses (children op))) st st' → planned_more op [address op] st' st2 → planned_more op (addresses op) st st2.
Proof.
  intros M1 M2. destruct (planned_more_trans _ _ _ _ _ _ M1 M2) as [P1 P2 P2' P3 P4]. split; [done|done|done| |].
  - intros a [->|Ha]%addresses_children; apply P3; set_solver.
  - intros a Ha. rewrite addresses_children. destruct (P4 a Ha) as [?|[?|?]]; [auto| |auto]. set_solver.
Qed.

Lemma keep_physical op id m : type op ≠ LOGICAL_CREATE_BF → set_physical op id m = m.
Proof. unfold set_physical. by destruct (type op). Qed.

(** The last step for a use. *)
Lemma finish_use op st st' cs related :
  op ∈ suboperators plan → type op = LOGICAL_USE_BF → fresh op st →
  planned_more op (concat (map addresses (children op))) st st' → plans_of st' (address <$> children op) cs → plans_of st' (info op).(related_create_bf) related →
  let r := make_op op (PUseBF (info op).(filters_of) related) cs st' in
  (address op, r.1) ∈ r.2.(planned) ∧ planned_more op (addresses op) st r.2.
Proof.
  intros Hop Ht Hf Hm Hcs Hrel r. assert (type op ≠ LOGICAL_CREATE_BF) as Hne by congruence. split; [simpl; set_solver|].
  opose proof* (make_op_ok op st' (PUseBF (info op).(filters_of) related) cs) as M2; [done|apply Hm| |done|done| |].
  - eapply not_planned; [done|exact Hm|by apply not_done|by apply own_address_not_below].
  - intros a [->|Ha]%addresses_children; [by left|right]. by apply (pm_all _ _ _ _ Hm).
  - cbv zeta in M2. rewrite keep_physical in M2 by done. by eapply finish_more.
Qed.

(** The last step for an operator that is not a filter operator. *)
Lemma finish_other op st st' cs :
  op ∈ suboperators plan → is_filter_op (type op) = false → fresh op st →
  planned_more op (concat (map addresses (children op))) st st' → plans_of st' (address <$> children op) cs →
  let r := other_plan op cs (length st'.(plans)) in let st2 := make_plan op r.1 r.2 st' in
  (address op, r.2) ∈ st2.(planned) ∧ planned_more op (addresses op) st st2.
Proof.
  intros Hop Ht Hf Hm Hcs r st2. assert (type op ≠ LOGICAL_CREATE_BF) as Hne by (intros E; by rewrite E in Ht). split; [simpl; set_solver|].
  pose proof (pm_ok _ _ _ _ Hm) as Hok. opose proof* (make_plan_ok op st' r.1 r.2) as M2; [done|done| | | | | |].
  - eapply not_planned; [done|exact Hm|by apply not_done|by apply own_address_not_below].
  - rewrite keep_physical by done. exists op, cs. split_and!; [done|done|eapply plans_of_prefix; [by eexists|done]|].
    destruct (type op); try done; exists (length st'.(plans)); (split; [done|]); intros i p Hi; simpl; rewrite lookup_app_r by lia; by rewrite Nat.add_sub'.
  - simpl. rewrite length_app. destruct (other_root op cs (length st'.(plans))) as [Hc|Hc]; fold r in Hc; [|lia].
    pose proof (plans_of_lt st' _ _ _ Hok Hcs Hc). lia.
  - intros i p Hi. destruct (other_kind op cs _ i p Hi) as [t Hk]. split; [left; eauto|]. intros c Hc. unfold points_to in Hc. rewrite Hk, app_nil_r in Hc.
    destruct (other_children op cs _ i p c Hi Hc) as [Hc'|?]; [|lia]. pose proof (plans_of_lt st' _ _ _ Hok Hcs Hc'). lia.
  - intros a [->|Ha]%addresses_children; [by left|right]. by apply (pm_all _ _ _ _ Hm).
  - cbv zeta in M2. rewrite keep_physical in M2 by done. by eapply finish_more.
Qed.

Lemma fresh_child op x st : op ∈ suboperators plan → address op ∉ done st → fresh op st → x ∈ children op → fresh x st.
Proof.
  intros Hop Hn Hf Hx a Ha Hd. destruct op as [i cs]. simpl in Hx.
  destruct (Hf a) as (c & Hc & Hcr & Hcd & Hca); [by eapply addresses_sub; [eapply suboperators_child; [exact Hx|apply suboperators_self]|]|done|].
  exists c. split_and!; try done. apply suboperators_cases in Hc as [->|(y & Hy & Hc)]; [done|].
  assert (y = x) as ->; [|done].
  apply (children_disjoint addresses cs y x a (addresses_children_nodup _ _ _ Hnd Hop)); try done. by eapply addresses_sub.
Qed.

Lemma CreatePlan_ok fuel n op :
  op ∈ suboperators plan → level n op → (n * S D + length (suboperators op) ≤ fuel)%nat → plans_well (CreatePlan find fuel) op.
Proof.
  revert n op. induction fuel as [|fuel IH]; intros n op Hop Hl Hfuel; [destruct op; simpl in Hfuel; lia|].
  intros st Hok Hof Hfr.
  assert (∀ x, x ∈ children op → plans_well (CreatePlan find fuel) x) as Hch.
  { intros x Hx. apply (IH n); [by eapply child_in|by eapply level_child|]. destruct op as [i cs]. pose proof (suboperators_length_child i cs x Hx). lia. }
  assert (∀ cs, cs = children op → address op ∉ done st → ∃ ids st', plan_all (CreatePlan find fuel) cs st = Ret (ids, st') ∧ plans_of st' (address <$> cs) ids ∧
    planned_more op (concat (map addresses cs)) st st') as Hall.
  { intros cs -> Hn. apply plan_all_ok; try done; [|intros x Hx; by apply (fresh_child op)]. destruct op as [i cs]. by eapply addresses_children_nodup. }
  destruct (decide (type op = LOGICAL_CREATE_BF)) as [Ht|Ht].
  { destruct (pl_unary _ _ Hpl op Hop) as [c Hc]; [by rewrite Ht|]. assert (c ∈ children op) as Hcin by (rewrite Hc; left).
    simpl. rewrite Ht. apply (plan_create_ok _ op c); try done; [by apply Hch|by eapply others_fresh_child]. }
  pose proof (not_done op st Hop Ht Hfr) as Hnew. destruct (decide (type op = LOGICAL_USE_BF)) as [Hu|Hu].
  - destruct (pl_unary _ _ Hpl op Hop) as [c Hc]; [by rewrite Hu|]. assert (c ∈ children op) as Hcin by (rewrite Hc; left).
    destruct (Hall [c] (eq_sym Hc) Hnew) as (ids & st1 & E1 & O1 & M1).
    simpl in E1. apply obind_Ret in E1 as ([id st0] & E1 & E1'). injection E1' as <- <-. simpl in M1.
    destruct (plan_related_ok (CreatePlan find fuel) op (info op).(related_create_bf) st0) as (rel & st2 & E2 & O2 & M2); [done| |apply M1| |].
    + intros a Ha. destruct (pl_related _ _ Hpl op a Hop Hu Ha) as (cr & Hcr & Hct & <- & Hb).
      destruct (pl_unary _ _ Hpl cr Hcr) as [q Hq]; [by rewrite Hct|]. assert (q ∈ children cr) as Hqin by (rewrite Hq; left).
      exists cr, q. split_and!; [done|done| |done|]. { intros d [? ?] ?. by apply Hb. }
      apply (IH (rank (address cr))); [by eapply child_in| |].
      * intros t b Ht' Htu Hb'. destruct (pl_related _ _ Hpl t b) as (? & _ & _ & _ & Hrank); [by eapply suboperators_trans; [eapply child_in; [exact Hcr|exact Hqin]|]|done|done|].
        apply Hrank; [done|done|]. by eapply suboperators_child.
      * pose proof (Hl op _ (suboperators_self op) Hu Ha). pose proof (suboperators_length_sub q (child_in cr q Hcr Hqin)).
        assert (1 ≤ length (suboperators op))%nat by (destruct op; simpl; lia). nia.
    + eapply others_fresh_more; [done|done|exact M1|]. pose proof (concat_of_children op [c]) as Hoc. apply Hoc. set_solver.
    + simpl. rewrite Hu. unfold plan_use_bf. rewrite Hc. unfold vec_at. simpl. rewrite E1. orun. simpl. rewrite E2. orun. simpl.
      destruct (finish_use op st st2 [id] rel) as [F1 F2]; try done.
      * rewrite Hc, <- (app_nil_r (concat _)). by eapply planned_more_trans.
      * rewrite Hc. eapply plans_of_prefix; [apply M2|done].
      * eexists _, _. split; [done|]. by split.
  - destruct (Hall _ eq_refl Hnew) as (ids & st1 & E1 & O1 & M1).
    assert (is_filter_op (type op) = false) as Hno by (by destruct (type op)).
    destruct (finish_other op st st1 ids) as [F1 F2]; try done. eexists _, _. split; [|split; [exact F1|exact F2]].
    simpl. destruct (type op); try done; rewrite E1; orun; simpl; by destruct (other_plan op ids _).
Qed.
End Plannable.

(** ** The whole plan *)

(** Ranks below the number of operators. *)
Definition small_rank (rank : Z → nat) (plan : LogicalOperator) (a : Z) : nat :=
  length (base.filter (λ c, type c = LOGICAL_CREATE_BF ∧ (rank (address c) < rank a)%nat) (suboperators plan)).

Lemma small_rank_lt rank plan c a : 
  c ∈ suboperators plan → type c = LOGICAL_CREATE_BF → (rank (address c) < rank a)%nat → (small_rank rank plan (address c) < small_rank rank plan a)%nat.
Proof.
  intros Hc Ht Hlt. unfold small_rank. eapply length_filter_lt; [|exact Hc|done|].
  - intros x [? ?]. split; [done|lia].
  - intros [_ ?]. lia.
Qed.

Lemma small_rank_plannable rank plan : plannable rank plan → plannable (small_rank rank plan) plan.
Proof.
  intros [Hn Hu Hr]. split; [done|done|]. intros t a Ht Htt Ha. destruct (Hr t a Ht Htt Ha) as (c & Hc & Hct & <- & Hrank).
  exists c. split_and!; try done. intros d Hd Hdt Htd. apply small_rank_lt; auto.
Qed.

Lemma small_rank_level rank plan : plannable rank plan → level (small_rank rank plan) (length (suboperators plan)) plan.
Proof.
  intros [_ _ Hr] t a Ht Htt Ha. destruct (Hr t a Ht Htt Ha) as (c & Hc & Hct & <- & _). unfold small_rank.
  eapply Nat.lt_le_trans; [eapply (length_filter_lt _ (λ _, True)); [done|exact Hc|done|intros [_ ?]; lia]|]. apply length_filter.
Qed.

Lemma new_planner_ok `{OtherPlansOk} plan : planner_ok plan new_planner.
Proof. split; try done; simpl; [constructor|..]; intros c; [intros id Hc|intros Hc Hd|intros a Hc Hd]; set_solver. Qed.

Section Whole.
  Context `{OtherPlansOk}.

(** Planning returns, and leaves a heap with what was asked for. *)
Lemma PlanQuery_ok rank plan :
  plannable rank plan →
  ∃ root st, PlanQuery plan = Ret (root, st) ∧ (address plan, root) ∈ st.(planned) ∧ st.(planned).*1 ≡ₚ addresses plan ∧ planner_ok plan st.
Proof.
  intros Hpl. pose proof (small_rank_plannable rank plan Hpl) as Hpl'.
  destruct (CreatePlan_ok (small_rank rank plan) plan Hpl' (plan_fuel plan) (length (suboperators plan)) plan) with new_planner
    as (root & st & E & Ho & [Hok _ _ Hall Honly]).
  - apply suboperators_self.
  - by apply small_rank_level.
  - unfold plan_fuel. nia.
  - apply new_planner_ok.
  - intros c _ _ _ a _ Hd. by apply elem_of_nil in Hd.
  - intros a _ Hd. by apply elem_of_nil in Hd.
  - exists root, st. split_and!; [exact E|done| |done].
    apply NoDup_Permutation; [apply (po_once _ _ Hok)|apply (pl_addresses _ _ Hpl)|]. intros a. split; [|apply Hall].
    intros Ha. destruct (Honly a Ha) as [Hd|[?|(c & [Hc _] & _ & _ & Hac)]]; [by apply elem_of_nil in Hd|done|by eapply addresses_sub].
Qed.

(** C21: planning terminates, and plans each logical operator once.  Each plan
    is made as its operator asks for, over the plans of its children; a
    [PhysicalUseBF] points to the [PhysicalCreateBF]s that were made for the
    [LogicalCreateBF]s it depends on, each of which is planned once although
    it is reached both from its parent and from its uses; and there are no
    other filter operators. *)
Theorem every_operator_is_planned_once rank plan :
  plannable rank plan →
  ∃ root st, PlanQuery plan = Ret (root, st) ∧ (address plan, root) ∈ st.(planned) ∧ st.(planned).*1 ≡ₚ addresses plan ∧
    (∀ a id, (a, id) ∈ st.(planned) → made_right plan st a id) ∧
    ∀ id p, st.(plans) !! id = Some p → (∃ t, p.(pkind) = POther t) ∨ made_for_filter plan st id p.
Proof.
  intros Hpl. destruct (PlanQuery_ok rank plan Hpl) as (root & st & E & Hr & Hp & Hok). exists root, st.
  split_and!; [done|done|done| |apply (po_made _ _ Hok)]. intros a id Ha. by apply (po_right _ _ Hok).
Qed.
End Whole.
