(* ===== verification/Pipelines.v ===== *)
(** * Pipelines: the order in which physical operators run

    [BuildPipelines] of the filter operators, of joins and of other operators,
    with the [MetaPipeline]s they add to ([physical_create_bf.cpp],
    [physical_use_bf.cpp], [physical_operator.cpp], [physical_join.cpp],
    [meta_pipeline.cpp], [executor.cpp]).  Shown: a pipeline that uses a filter
    waits for the pipeline that builds it, and no pipelines wait for each
    other. *)

From S2P Require Import Prelude BloomFilter LogicalPlan NodesManager Dag TransferOptimizer TransferInsert PlanTree PhysicalPlan.
Local Open Scope Z_scope.
Local Open Scope machine_scope.

(** ** Pipelines *)

(** A pipeline; operators and pipelines are told apart by their place in the
    heap they are in. *)
Record Pipeline := mkPipeline {
  source : option nat;
  operators : list nat;
  sink : option nat;
  parents : list nat;
  dependencies : list nat;
  base_batch_index : Z
}.

Record MetaPipeline := mkMeta {
  mp_sink : option nat;
  mp_pipelines : list nat;
  mp_dependencies : gmap nat (list nat);
  mp_children : list nat;
  recursive_cte : bool;
  next_batch_index : Z;
  finish_pipelines : list nat;
  finish_map : gmap nat nat
}.

(** Changes to the pipelines, the dependencies and the children of a meta pipeline. *)
Definition set_pipelines (l : list nat) (mp : MetaPipeline) : MetaPipeline :=
  mkMeta mp.(mp_sink) l mp.(mp_dependencies) mp.(mp_children) mp.(recursive_cte) mp.(next_batch_index) mp.(finish_pipelines) mp.(finish_map).

Definition set_dependencies (d : gmap nat (list nat)) (mp : MetaPipeline) : MetaPipeline :=
  mkMeta mp.(mp_sink) mp.(mp_pipelines) d mp.(mp_children) mp.(recursive_cte) mp.(next_batch_index) mp.(finish_pipelines) mp.(finish_map).

Definition set_children (l : list nat) (mp : MetaPipeline) : MetaPipeline :=
  mkMeta mp.(mp_sink) mp.(mp_pipelines) mp.(mp_dependencies) l mp.(recursive_cte) mp.(next_batch_index) mp.(finish_pipelines) mp.(finish_map).

Definition set_recursive_cte (r : bool) (mp : MetaPipeline) : MetaPipeline :=
  mkMeta mp.(mp_sink) mp.(mp_pipelines) mp.(mp_dependencies) mp.(mp_children) r mp.(next_batch_index) mp.(finish_pipelines) mp.(finish_map).

Definition set_batch_index (n : Z) (mp : MetaPipeline) : MetaPipeline :=
  mkMeta mp.(mp_sink) mp.(mp_pipelines) mp.(mp_dependencies) mp.(mp_children) mp.(recursive_cte) n mp.(finish_pipelines) mp.(finish_map).

(** All pipelines and meta pipelines, and the field [this_pipeline] of each
    [PhysicalCreateBF]. *)
Record build := mkBuild { pipes : list Pipeline; metas : list MetaPipeline; this_pipeline : gmap nat nat }.

Definition BATCH_INCREMENT : Z := 10000000000000.

Definition with_pipe (i : nat) (f : Pipeline → Pipeline) (b : build) : outcome build :=
  let* p := deref (b.(pipes) !! i) in Ret (mkBuild (<[i := f p]> b.(pipes)) b.(metas) b.(this_pipeline)).

Definition with_meta (m : nat) (f : MetaPipeline → MetaPipeline) (b : build) : outcome build :=
  let* p := deref (b.(metas) !! m) in Ret (mkBuild b.(pipes) (<[m := f p]> b.(metas)) b.(this_pipeline)).

Definition SetPipelineSource (i op : nat) : build → outcome build :=
  with_pipe i (λ p, mkPipeline (Some op) p.(operators) p.(sink) p.(parents) p.(dependencies) p.(base_batch_index)).

Definition AddPipelineOperator (i op : nat) : build → outcome build :=
  with_pipe i (λ p, mkPipeline p.(source) (p.(operators) ++ [op]) p.(sink) p.(parents) p.(dependencies) p.(base_batch_index)).

(** [Pipeline::AddDependency]. *)
Definition AddDependency (i on : nat) (b : build) : outcome build :=
  let* b := with_pipe i (λ p, mkPipeline p.(source) p.(operators) p.(sink) p.(parents) (p.(dependencies) ++ [on]) p.(base_batch_index)) b in
  with_pipe on (λ p, mkPipeline p.(source) p.(operators) p.(sink) (p.(parents) ++ [i]) p.(dependencies) p.(base_batch_index)) b.

(** [MetaPipeline::CreatePipeline]. *)
Definition CreatePipeline (m : nat) (b : build) : outcome (nat * build) :=
  let* mp := deref (b.(metas) !! m) in
  let i := length b.(pipes) in
  let p := mkPipeline None [] mp.(mp_sink) [] [] (wrap 64 (BATCH_INCREMENT * mp.(next_batch_index))) in
  let mp := set_batch_index (wrap 64 (mp.(next_batch_index) + 1)) (set_pipelines (mp.(mp_pipelines) ++ [i]) mp) in
  Ret (i, mkBuild (b.(pipes) ++ [p]) (<[m := mp]> b.(metas)) b.(this_pipeline)).

(** The constructor of [MetaPipeline]. *)
Definition new_meta (sink : option nat) (b : build) : outcome (nat * build) :=
  let m := length b.(metas) in
  let* r := CreatePipeline m (mkBuild b.(pipes) (b.(metas) ++ [mkMeta sink [] ∅ [] false 0 [] ∅]) b.(this_pipeline)) in
  Ret (m, r.2).

Definition GetBasePipeline (m : nat) (b : build) : outcome nat :=
  let* mp := deref (b.(metas) !! m) in vec_at mp.(mp_pipelines) 0.

(** [CreateChildMetaPipeline]. *)
Definition CreateChildMetaPipeline (m current op : nat) (b : build) : outcome (nat * build) :=
  let* r := new_meta (Some op) b in
  let child := r.1 in
  let* b := with_meta m (λ mp, set_children (mp.(mp_children) ++ [child]) mp) r.2 in
  let* base := GetBasePipeline child b in
  let* b := AddDependency current base b in
  let* mp := deref (b.(metas) !! m) in
  let* b := with_meta child (set_recursive_cte mp.(recursive_cte)) b in
  Ret (child, b).

(** The pipelines of the list from [start] on, or after it. *)
Fixpoint from_pipeline (start : nat) (including : bool) (l : list nat) : outcome (list nat) :=
  match l with
  | [] => Undef
  | x :: l => if decide (x = start) then Ret (if including then x :: l else l) else from_pipeline start including l
  end.

(** [AddDependenciesFrom]. *)
Definition AddDependenciesFrom (m dependant start : nat) (including : bool) (b : build) : outcome build :=
  let* mp := deref (b.(metas) !! m) in
  let* rest := from_pipeline start including mp.(mp_pipelines) in
  let created := base.filter (λ x, x ≠ dependant) rest in
  let deps := default [] (mp.(mp_dependencies) !! dependant) in
  with_meta m (set_dependencies (<[dependant := created ++ deps]> mp.(mp_dependencies))) b.

(** The operators before [op]. *)
Fixpoint operators_until (op : nat) (l : list nat) : list nat :=
  match l with [] => [] | x :: l => if decide (x = op) then [] else x :: operators_until op l end.

(** [CreateChildPipeline]: a pipeline with [op] as its source, and the operators above it. *)
Definition CreateChildPipeline (m current op last_pipeline : nat) (b : build) : outcome build :=
  let* cur := deref (b.(pipes) !! current) in
  let child := length b.(pipes) in
  let p := mkPipeline (Some op) (operators_until op cur.(operators)) cur.(sink) [] [] cur.(base_batch_index) in
  let* b := with_meta m (λ mp,
    set_dependencies (<[child := default [] (mp.(mp_dependencies) !! child) ++ [current]]> mp.(mp_dependencies)) (set_pipelines (mp.(mp_pipelines) ++ [child]) mp))
    (mkBuild (b.(pipes) ++ [p]) b.(metas) b.(this_pipeline)) in
  AddDependenciesFrom m child last_pipeline false b.

(** ** Building *)

(** Joins, which build their pipelines by [PhysicalJoin::BuildJoinPipelines]. *)
Definition builds_join (t : PhysicalOperatorType) : bool :=
  match t with
  | PhysicalTypes.BLOCKWISE_NL_JOIN | PhysicalTypes.NESTED_LOOP_JOIN | PhysicalTypes.HASH_JOIN | PhysicalTypes.CROSS_PRODUCT
  | PhysicalTypes.PIECEWISE_MERGE_JOIN | PhysicalTypes.POSITIONAL_JOIN | PhysicalTypes.ASOF_JOIN => true
  | _ => false
  end.

(** Operators with a [BuildPipelines] of their own. *)
Definition builds_own (t : PhysicalOperatorType) : bool :=
  match t with
  | PhysicalTypes.UNION | PhysicalTypes.CTE | PhysicalTypes.RECURSIVE_CTE | PhysicalTypes.RECURSIVE_CTE_SCAN | PhysicalTypes.DELIM_SCAN
  | PhysicalTypes.LEFT_DELIM_JOIN | PhysicalTypes.RIGHT_DELIM_JOIN | PhysicalTypes.IE_JOIN | PhysicalTypes.EXPORT | PhysicalTypes.EXECUTE => true
  | _ => false
  end.

(** Virtual functions of the operators other than the two; [BuildOwn] is
    [BuildPipelines] of those that have their own. *)
Class PhysicalOps := {
  IsSink : PhysicalOperator → bool;
  IsSource : PhysicalOperator → bool;
  BuildOwn : PhysicalOperator → nat → nat → nat → build → outcome build
}.

Section Build.
  Context `{PhysicalOps} (ops : list PhysicalOperator).

(** What the two ways to reach a [PhysicalCreateBF] share: its pipeline is
    built once, and the current pipeline waits for it. *)
Definition build_create_bf (BuildPipelines : nat → nat → nat → build → outcome build) (op : nat) (p : PhysicalOperator) (current m : nat) (b : build)
    : outcome build :=
  match b.(this_pipeline) !! op with
  | Some this => AddDependency current this b
  | None =>
      let* (child_meta, b) := CreateChildMetaPipeline m current op b in
      let* base := GetBasePipeline child_meta b in
      let* child := vec_at p.(pchildren) 0 in
      BuildPipelines child base child_meta (mkBuild b.(pipes) b.(metas) (<[op := base]> b.(this_pipeline)))
  end.

(** [MetaPipeline::Build] on a new meta pipeline. *)
Definition build_child (BuildPipelines : nat → nat → nat → build → outcome build) (op child current m : nat) (b : build) : outcome build :=
  let* (child_meta, b) := CreateChildMetaPipeline m current op b in
  let* base := GetBasePipeline child_meta b in
  BuildPipelines child base child_meta b.

(** [PhysicalJoin::BuildJoinPipelines]. *)
Definition build_join (BuildPipelines : nat → nat → nat → build → outcome build) (t : PhysicalOperatorType) (op : nat) (p : PhysicalOperator) (current m : nat) (b : build)
    : outcome build :=
  let* b := AddPipelineOperator current op b in
  let* mp := deref (b.(metas) !! m) in
  let* last_pipeline := deref (last mp.(mp_pipelines)) in
  let* rhs := vec_at p.(pchildren) 1 in
  let* b := build_child BuildPipelines op rhs current m b in
  let* lhs := vec_at p.(pchildren) 0 in
  let* b := BuildPipelines lhs current m b in
  match t with
  | PhysicalTypes.POSITIONAL_JOIN => CreateChildPipeline m current op last_pipeline b
  | PhysicalTypes.CROSS_PRODUCT => Ret b
  | _ => if IsSource p then CreateChildPipeline m current op last_pipeline b else Ret b
  end.

(** [BuildPipelines] of all operators.  [PhysicalResultCollector], which keeps
    its plan beside its children, has one of its own that does with the plan
    what the case of a sink does with its child.  [fuel] bounds the depth of
    the recursion. *)
Fixpoint BuildPipelines (fuel : nat) (op current m : nat) (b : build) : outcome build :=
  match fuel with
  | O => NoFuel
  | S fuel =>
      let* p := deref (ops !! op) in
      match p.(pkind) with
      | PCreateBF _ =>
          let* b := SetPipelineSource current op b in
          build_create_bf (BuildPipelines fuel) op p current m b
      | PUseBF _ related =>
          let* b := AddPipelineOperator current op b in
          let* b := ofold (λ b cell, let* c := deref (ops !! cell) in build_create_bf (BuildPipelines fuel) cell c current m b) related b in
          let* child := vec_at p.(pchildren) 0 in
          BuildPipelines fuel child current m b
      | POther t =>
          if builds_join t then build_join (BuildPipelines fuel) t op p current m b
          else if builds_own t then BuildOwn p op current m b
          else if IsSink p then
            let* b := SetPipelineSource current op b in
            let* child := vec_at p.(pchildren) 0 in
            build_child (BuildPipelines fuel) op child current m b
          else
            match p.(pchildren) with
            | [] => SetPipelineSource current op b
            | [child] => let* b := AddPipelineOperator current op b in BuildPipelines fuel child current m b
            | _ => Throw "Operator not supported in BuildPipelines"
            end
      end
  end.

(** The pipelines [Executor::InitializeInternal] builds for a plan, among the
    pipelines there are: the root meta pipeline and the result. *)
Definition build_plan (root : nat) (b : build) : outcome (nat * build) :=
  let* (m, b) := new_meta None b in
  let* base := GetBasePipeline m b in
  let* b := BuildPipelines (S (length ops)) root base m b in
  Ret (m, b).
End Build.

Definition no_pipelines : build := mkBuild [] [] ∅.

(** ** What is built *)

(** A pipeline waits for pipelines of other meta pipelines, and for pipelines of
    its own meta pipeline. *)
Definition outer (b : build) (i j : nat) : Prop := ∃ p, b.(pipes) !! i = Some p ∧ j ∈ p.(dependencies).

Definition inner (b : build) (i j : nat) : Prop := ∃ m mp l, b.(metas) !! m = Some mp ∧ mp.(mp_dependencies) !! i = Some l ∧ j ∈ l.

Definition depends (b : build) (i j : nat) : Prop := outer b i j ∨ inner b i j.

(** A pipeline with operator [u] waits for the pipelines of the filters [u] uses. *)
Definition waits (ops : list PhysicalOperator) (b : build) (i u : nat) : Prop :=
  ∀ p fs related c, ops !! u = Some p → p.(pkind) = PUseBF fs related → c ∈ related →
  ∃ j q k, b.(this_pipeline) !! c = Some j ∧ b.(pipes) !! j = Some q ∧ q.(sink) = Some c ∧ rtc (inner b) i k ∧ outer b k j.

Definition served (ops : list PhysicalOperator) (b : build) (i : nat) : Prop :=
  ∀ p u, b.(pipes) !! i = Some p → u ∈ p.(operators) → waits ops b i u.

Definition has_source (b : build) (i : nat) : Prop := ∃ p, b.(pipes) !! i = Some p ∧ is_Some p.(source).

(** Building only adds. *)
Definition pipe_le (p p' : Pipeline) : Prop :=
  p'.(sink) = p.(sink) ∧ (is_Some p.(source) → is_Some p'.(source)) ∧ (∀ j, j ∈ p.(dependencies) → j ∈ p'.(dependencies)).

Definition meta_le (m m' : MetaPipeline) : Prop :=
  m'.(mp_sink) = m.(mp_sink) ∧ m.(mp_pipelines) `prefix_of` m'.(mp_pipelines) ∧
  ∀ i l, m.(mp_dependencies) !! i = Some l → ∃ l', m'.(mp_dependencies) !! i = Some l' ∧ ∀ j, j ∈ l → j ∈ l'.

Record ext (b b' : build) : Prop := {
  ex_pipes : ∀ i p, b.(pipes) !! i = Some p → ∃ p', b'.(pipes) !! i = Some p' ∧ pipe_le p p';
  ex_metas : ∀ m mp, b.(metas) !! m = Some mp → ∃ mp', b'.(metas) !! m = Some mp' ∧ meta_le mp mp';
  ex_this : ∀ c j, b.(this_pipeline) !! c = Some j → b'.(this_pipeline) !! c = Some j
}.

Lemma pipe_le_refl p : pipe_le p p.
Proof. done. Qed.

Lemma meta_le_refl m : meta_le m m.
Proof. split_and!; [done|done|]. eauto. Qed.

Lemma ext_refl b : ext b b.
Proof. split; [eauto using pipe_le_refl|eauto using meta_le_refl|done]. Qed.

Lemma ext_trans b1 b2 b3 : ext b1 b2 → ext b2 b3 → ext b1 b3.
Proof.
  intros [P1 M1 T1] [P2 M2 T2]. split; [| |auto].
  - intros i p Hp. destruct (P1 i p Hp) as (p1 & Hp1 & (S1 & R1 & D1)). destruct (P2 i p1 Hp1) as (p2 & Hp2 & (S2 & R2 & D2)).
    exists p2. split; [done|]. split_and!; [congruence|auto|auto].
  - intros m mp Hm. destruct (M1 m mp Hm) as (m1 & Hm1 & (S1 & R1 & D1)). destruct (M2 m m1 Hm1) as (m2 & Hm2 & (S2 & R2 & D2)).
    exists m2. split; [done|]. split_and!; [congruence|by etrans|]. intros i l Hl. destruct (D1 i l Hl) as (l1 & Hl1 & I1).
    destruct (D2 i l1 Hl1) as (l2 & Hl2 & I2). eauto.
Qed.

Lemma outer_ext b b' i j : ext b b' → outer b i j → outer b' i j.
Proof. intros [P _ _] (p & Hp & Hj). destruct (P i p Hp) as (p' & Hp' & (_ & _ & Hd)). exists p'. auto. Qed.

Lemma inner_ext b b' i j : ext b b' → inner b i j → inner b' i j.
Proof.
  intros [_ M _] (m & mp & l & Hm & Hl & Hj). destruct (M m mp Hm) as (mp' & Hm' & (_ & _ & Hd)).
  destruct (Hd i l Hl) as (l' & Hl' & Hi). exists m, mp', l'. eauto.
Qed.

Lemma waits_ext ops b b' i u : ext b b' → waits ops b i u → waits ops b' i u.
Proof.
  intros He Hw p fs related c Hp Hk Hc. destruct (Hw p fs related c Hp Hk Hc) as (j & q & k & Hj & Hq & Hs & Hi & Ho).
  destruct (ex_pipes _ _ He j q Hq) as (q' & Hq' & (Hs' & _)). exists j, q', k.
  split_and!; [by apply (ex_this _ _ He)|done|congruence| |by eapply outer_ext].
  eapply rtc_congruence with (f := λ x, x); [|exact Hi]. intros x y. by apply inner_ext.
Qed.

Lemma has_source_ext b b' i : ext b b' → has_source b i → has_source b' i.
Proof. intros He (p & Hp & Hs). destruct (ex_pipes _ _ He i p Hp) as (p' & Hp' & (_ & Hs' & _)). exists p'. auto. Qed.

(** The operators of the pipelines there are stay the same, but for [current]. *)
Definition same_operators (except : nat → Prop) (b b' : build) : Prop :=
  ∀ i p p', ¬ except i → b.(pipes) !! i = Some p → b'.(pipes) !! i = Some p' → p'.(operators) = p.(operators).

Lemma served_ext ops (except : nat → Prop) b b' i :
  ext b b' → same_operators except b b' → ¬ except i → (i < length b.(pipes))%nat → served ops b i → served ops b' i.
Proof.
  intros He Hs Hi Hlt Hsv p u Hp Hu. destruct (lookup_lt_is_Some_2 _ _ Hlt) as [p0 Hp0]. rewrite (Hs i p0 p Hi Hp0 Hp) in Hu.
  eapply waits_ext; [done|]. by eapply Hsv.
Qed.

(** ** Well-formed pipelines *)

Lemma concat_insert {A} (f : A → list nat) l m x y new :
  l !! m = Some x → f y = f x ++ new → concat (f <$> <[m := y]> l) ≡ₚ concat (f <$> l) ++ new.
Proof.
  intros Hm Hf. rewrite list_fmap_insert. apply (f_equal (fmap f)) in Hm as Hm'. rewrite <- list_lookup_fmap in Hm'. simpl in Hm'.
  rewrite Hf. revert Hm'. generalize (f x), (f <$> l). clear. intros k ls. revert m.
  induction ls as [|h ls IH]; intros m; [done|]. destruct m as [|m]; simpl.
  - intros [= ->]. solve_Permutation.
  - intros Hm. rewrite (IH m Hm). by rewrite app_assoc.
Qed.

Lemma elem_of_concat_fmap {A} (f : A → list nat) l k x y : l !! k = Some x → y ∈ f x → y ∈ concat (f <$> l).
Proof.
  intros Hl Hy. apply list_elem_of_In, in_concat. exists (f x). split; [|by apply list_elem_of_In].
  apply list_elem_of_In, list_elem_of_fmap_2. by eapply list_elem_of_lookup_2.
Qed.

Lemma list_insert_Some {A} (l : list A) m x k y : <[m := x]> l !! k = Some y → l !! k = Some y ∨ k = m ∧ y = x.
Proof. intros [(<- & <- & _)|[_ ?]]%list_lookup_insert_Some; auto. Qed.

(** Operators other than the filter operators have the children [BuildPipelines]
    looks at, and none has a [BuildPipelines] of its own. *)
Definition arity_ok `{PhysicalOps} (p : PhysicalOperator) : bool :=
  match p.(pkind) with
  | POther t =>
      if builds_join t then (length p.(pchildren) =? 2)%nat
      else negb (builds_own t) && (if IsSink p then length p.(pchildren) =? 1 else length p.(pchildren) <=? 1)%nat
  | _ => true
  end.

Definition shaped `{PhysicalOps} (ops : list PhysicalOperator) : bool := forallb arity_ok ops.

Section Runs.
  Context `{PhysicalOps} (ops : list PhysicalOperator) (w : nat → nat) (top : nat).

(** Plans that can be run: operators have the children [BuildPipelines] looks
    at, and weigh more than what is built for them. *)
Record runnable : Prop := {
  ru_top : ∀ id, (id < length ops)%nat → (w id < top)%nat;
  ru_children : ∀ id p c, ops !! id = Some p → c ∈ p.(pchildren) → (c < length ops)%nat ∧ (w c < w id)%nat;
  ru_related : ∀ id p fs related c, ops !! id = Some p → p.(pkind) = PUseBF fs related → c ∈ related →
    (w c < w id)%nat ∧ ∃ q fs', ops !! c = Some q ∧ q.(pkind) = PCreateBF fs';
  ru_unary : ∀ id p, ops !! id = Some p → match p.(pkind) with POther _ => True | _ => length p.(pchildren) = 1%nat end;
  ru_arity : ∀ id p, ops !! id = Some p → arity_ok p = true
}.

Definition sink_weight (s : option nat) : nat := from_option w top s.

Record wf (b : build) : Prop := {
  wf_pipelines : concat (mp_pipelines <$> b.(metas)) ≡ₚ seq 0 (length b.(pipes));
  wf_base : ∀ m mp, b.(metas) !! m = Some mp → mp.(mp_pipelines) ≠ [];
  wf_tree : concat (mp_children <$> b.(metas)) ≡ₚ seq 1 (length b.(metas) - 1);
  wf_down : ∀ m mp c, b.(metas) !! m = Some mp → c ∈ mp.(mp_children) → (m < c)%nat;
  wf_root : ∀ m mp, b.(metas) !! m = Some mp → mp.(mp_sink) = None ↔ m = O;
  wf_sinks : ∀ m mp i, b.(metas) !! m = Some mp → i ∈ mp.(mp_pipelines) → ∃ p, b.(pipes) !! i = Some p ∧ p.(sink) = mp.(mp_sink);
  wf_inner : ∀ m mp i l j, b.(metas) !! m = Some mp → mp.(mp_dependencies) !! i = Some l → j ∈ l →
    i ∈ mp.(mp_pipelines) ∧ j ∈ mp.(mp_pipelines) ∧ (j < i)%nat;
  wf_finish : ∀ m mp, b.(metas) !! m = Some mp → mp.(finish_pipelines) = [] ∧ mp.(finish_map) = ∅;
  wf_outer : ∀ i p j, b.(pipes) !! i = Some p → j ∈ p.(dependencies) →
    ∃ q, b.(pipes) !! j = Some q ∧ (sink_weight q.(sink) < sink_weight p.(sink))%nat;
  wf_this : ∀ c j, b.(this_pipeline) !! c = Some j → ∃ q, b.(pipes) !! j = Some q ∧ q.(sink) = Some c;
  wf_top : ∀ m mp, b.(metas) !! m = Some mp → (sink_weight mp.(mp_sink) ≤ top)%nat
}.

Lemma wf_pipelines_lt b m mp i : wf b → b.(metas) !! m = Some mp → i ∈ mp.(mp_pipelines) → (i < length b.(pipes))%nat.
Proof.
  intros Hw Hm Hi. destruct (wf_sinks _ Hw m mp i Hm Hi) as (p & Hp & _). by eapply lookup_lt_Some.
Qed.

Lemma pipe_owner b i : wf b → (i < length b.(pipes))%nat → ∃ m mp, b.(metas) !! m = Some mp ∧ i ∈ mp.(mp_pipelines).
Proof.
  intros Hw Hi. assert (i ∈ concat (mp_pipelines <$> b.(metas))) as Hin by (rewrite (wf_pipelines _ Hw); apply elem_of_seq; lia).
  apply list_elem_of_In, in_concat in Hin as (l & Hl%list_elem_of_In & Hi'%list_elem_of_In).
  apply list_elem_of_fmap in Hl as (mp & -> & (m & Hm)%list_elem_of_lookup). eauto.
Qed.

Lemma pipe_top b i p : wf b → b.(pipes) !! i = Some p → (sink_weight p.(sink) ≤ top)%nat.
Proof.
  intros Hw Hp. destruct (pipe_owner b i Hw) as (m & mp & Hm & Hi); [by eapply lookup_lt_Some|].
  destruct (wf_sinks _ Hw m mp i Hm Hi) as (q & Hq & Hs). simplify_eq. rewrite Hs. by eapply wf_top.
Qed.

(** Changing a pipeline. *)
Lemma with_pipe_ok i f b p :
  wf b → b.(pipes) !! i = Some p → pipe_le p (f p) →
  (∀ j, j ∈ (f p).(dependencies) → j ∈ p.(dependencies) ∨ ∃ q, b.(pipes) !! j = Some q ∧ (sink_weight q.(sink) < sink_weight p.(sink))%nat) →
  with_pipe i f b = Ret (mkBuild (<[i := f p]> b.(pipes)) b.(metas) b.(this_pipeline)) ∧
  wf (mkBuild (<[i := f p]> b.(pipes)) b.(metas) b.(this_pipeline)) ∧ ext b (mkBuild (<[i := f p]> b.(pipes)) b.(metas) b.(this_pipeline)).
Proof.
  intros Hw Hp Hle Hd. assert (∀ j q, b.(pipes) !! j = Some q → ∃ q', <[i := f p]> b.(pipes) !! j = Some q' ∧ pipe_le q q') as Hpipes.
  { intros j q Hq. destruct (decide (i = j)) as [<-|Hij].
    - exists (f p). rewrite list_lookup_insert_eq by (by eapply lookup_lt_Some). split; [done|]. by simplify_eq.
    - exists q. rewrite list_lookup_insert_ne by done. split; [done|apply pipe_le_refl]. }
  split_and!; [unfold with_pipe; by rewrite Hp| |].
  - destruct Hw as [W1 W2 W3 W4 W5 W6 W7 W8 W9 W10 W11]. split; simpl; try done.
    + by rewrite length_insert.
    + intros m mp j Hm Hj. destruct (W6 m mp j Hm Hj) as (q & Hq & Hs). destruct (Hpipes j q Hq) as (q' & Hq' & (Hs' & _)).
      exists q'. split; [done|congruence].
    + assert (∀ j q q', b.(pipes) !! j = Some q → <[i := f p]> b.(pipes) !! j = Some q' → q'.(sink) = q.(sink)) as Hsink.
      { intros j q q' Hq Hq'. destruct (Hpipes j q Hq) as (q2 & ? & (? & _)). congruence. }
      intros j q k Hq Hk. assert (∃ q0, b.(pipes) !! j = Some q0) as (q0 & Hq0).
      { apply lookup_lt_is_Some_2. apply lookup_lt_Some in Hq. by rewrite length_insert in Hq. }
      assert (∃ r, b.(pipes) !! k = Some r ∧ (sink_weight r.(sink) < sink_weight q0.(sink))%nat) as (r & Hr & Hlt).
      { destruct (decide (i = j)) as [<-|Hij].
        - rewrite list_lookup_insert_eq in Hq by (by eapply lookup_lt_Some). simplify_eq. destruct (Hd k Hk) as [?|?]; [by eapply W9|done].
        - rewrite list_lookup_insert_ne in Hq by done. simplify_eq. by eapply W9. }
      destruct (Hpipes k r Hr) as (r' & Hr' & (Hs' & _)). exists r'. split; [done|]. rewrite Hs', (Hsink j q0 q Hq0 Hq). done.
    + intros c j Hc. destruct (W10 c j Hc) as (q & Hq & Hs). destruct (Hpipes j q Hq) as (q' & Hq' & (Hs' & _)). exists q'. split; [done|congruence].
  - split; simpl; [done| |done]. eauto using meta_le_refl.
Qed.

(** What changing a pipeline leaves as it was. *)
Lemma with_pipe_operators i f b p b' :
  b.(pipes) !! i = Some p → with_pipe i f b = Ret b' → same_operators (λ j, j = i) b b' ∧ length b'.(pipes) = length b.(pipes) ∧ b'.(metas) = b.(metas).
Proof.
  unfold with_pipe. intros Hp. rewrite Hp. intros [= <-]. simpl. split_and!; [|apply length_insert|done].
  intros j q q' Hj Hq Hq'. simpl in Hq'. rewrite list_lookup_insert_ne in Hq' by done. by simplify_eq.
Qed.

(** Changing a meta pipeline, whose new pipelines are [ps]. *)
Record meta_change (b : build) (ps : list Pipeline) (mp mp' : MetaPipeline) : Prop := {
  mc_new : Forall (λ p, p.(sink) = mp.(mp_sink) ∧ p.(dependencies) = []) ps;
  mc_sink : mp'.(mp_sink) = mp.(mp_sink);
  mc_pipelines : mp'.(mp_pipelines) = mp.(mp_pipelines) ++ seq (length b.(pipes)) (length ps);
  mc_children : mp'.(mp_children) = mp.(mp_children);
  mc_finish : mp'.(finish_pipelines) = mp.(finish_pipelines) ∧ mp'.(finish_map) = mp.(finish_map);
  mc_more : ∀ i l, mp.(mp_dependencies) !! i = Some l → ∃ l', mp'.(mp_dependencies) !! i = Some l' ∧ ∀ j, j ∈ l → j ∈ l';
  mc_inner : ∀ i l j, mp'.(mp_dependencies) !! i = Some l → j ∈ l → i ∈ mp'.(mp_pipelines) ∧ j ∈ mp'.(mp_pipelines) ∧ (j < i)%nat
}.

Lemma meta_change_ok m b mp mp' ps :
  wf b → b.(metas) !! m = Some mp → meta_change b ps mp mp' →
  wf (mkBuild (b.(pipes) ++ ps) (<[m := mp']> b.(metas)) b.(this_pipeline)) ∧
  ext b (mkBuild (b.(pipes) ++ ps) (<[m := mp']> b.(metas)) b.(this_pipeline)).
Proof.
  intros Hw Hm [Hps Hs Hp Hc [Hf1 Hf2] Hmore Hdeps].
  assert (∀ i q, b.(pipes) !! i = Some q → (b.(pipes) ++ ps) !! i = Some q) as Hold by (intros i q; apply lookup_app_l_Some).
  destruct Hw as [W1 W2 W3 W4 W5 W6 W7 W8 W9 W10 W11]. split.
  - split; simpl; rewrite ?length_insert; try done.
    + rewrite (concat_insert mp_pipelines _ _ _ _ (seq (length b.(pipes)) (length ps))) by done. rewrite W1, length_app, seq_app. done.
    + intros k x [?|[-> ->]]%list_insert_Some; [eauto|rewrite Hp]. intros [?%(W2 m)]%app_nil; done.
    + rewrite (concat_insert mp_children _ _ _ _ []) by (rewrite ?app_nil_r; done). by rewrite app_nil_r.
    + intros k x c [?|[-> ->]]%list_insert_Some; [eauto|rewrite Hc; eauto].
    + intros k x [?|[-> ->]]%list_insert_Some; [eauto|rewrite Hs; eauto].
    + intros k x i [?|[-> ->]]%list_insert_Some; [intros Hi; destruct (W6 k x i) as (q & ? & ?); eauto|]. rewrite Hs, Hp.
      intros [Hi|Hi%elem_of_seq]%elem_of_app; [destruct (W6 m mp i) as (q & ? & ?); eauto|].
      destruct (lookup_lt_is_Some_2 ps (i - length b.(pipes))) as [p Hpi]; [lia|]. exists p. rewrite lookup_app_r by lia.
      split; [done|]. eapply Forall_lookup in Hps; [|done]. by destruct Hps.
    + intros k x i l j [?|[-> ->]]%list_insert_Some; eauto.
    + intros k x [?|[-> ->]]%list_insert_Some; [eauto|rewrite Hf1, Hf2; eauto].
    + intros i q j [Hq|[_ Hq]]%lookup_app_Some Hj; [destruct (W9 i q j Hq Hj) as (r & ? & ?); eauto|].
      eapply Forall_lookup in Hps as [_ Hd]; [|done]. rewrite Hd in Hj. by apply elem_of_nil in Hj.
    + intros c j Hj. destruct (W10 c j Hj) as (q & ? & ?). eauto.
    + intros k x [?|[-> ->]]%list_insert_Some; [eauto|rewrite Hs; eauto].
  - split; simpl; [eauto using pipe_le_refl| |done]. intros k x Hk. destruct (decide (m = k)) as [<-|Hne].
    + simplify_eq. exists mp'. rewrite list_lookup_insert_eq by (by eapply lookup_lt_Some). split; [done|]. split_and!; [done|rewrite Hp; by apply prefix_app_r|done].
    + exists x. rewrite list_lookup_insert_ne by done. split; [done|apply meta_le_refl].
Qed.

(** A new meta pipeline below [m]. *)
Lemma child_meta_ok m b mp p new :
  wf b → b.(metas) !! m = Some mp → is_Some p.(sink) → (sink_weight p.(sink) ≤ top)%nat → p.(dependencies) = [] →
  new.(mp_sink) = p.(sink) → new.(mp_pipelines) = [length b.(pipes)] → new.(mp_children) = [] → new.(mp_dependencies) = ∅ →
  new.(finish_pipelines) = [] → new.(finish_map) = ∅ →
  wf (mkBuild (b.(pipes) ++ [p]) (<[m := set_children (mp.(mp_children) ++ [length b.(metas)]) mp]> b.(metas) ++ [new]) b.(this_pipeline)) ∧
  ext b (mkBuild (b.(pipes) ++ [p]) (<[m := set_children (mp.(mp_children) ++ [length b.(metas)]) mp]> b.(metas) ++ [new]) b.(this_pipeline)).
Proof.
  intros Hw Hm [op Hps] Htop Hpd Hns Hnp Hnc Hnd Hf1 Hf2. pose proof (lookup_lt_Some _ _ _ Hm) as Hlt.
  assert (∀ i q, b.(pipes) !! i = Some q → (b.(pipes) ++ [p]) !! i = Some q) as Hold by (intros i q; apply lookup_app_l_Some).
  assert (∀ k x, (<[m := set_children (mp.(mp_children) ++ [length b.(metas)]) mp]> b.(metas) ++ [new]) !! k = Some x →
    b.(metas) !! k = Some x ∨ (k = m ∧ x = set_children (mp.(mp_children) ++ [length b.(metas)]) mp) ∨ (k = length b.(metas) ∧ x = new)) as Hget.
  { intros k x [[?|[-> ->]]%list_insert_Some|[Hge Hk]]%lookup_app_Some; [by left|by right; left|]. rewrite length_insert in *.
    apply list_lookup_singleton_Some in Hk as [? <-]. right; right. split; [lia|done]. }
  destruct Hw as [W1 W2 W3 W4 W5 W6 W7 W8 W9 W10 W11]. split.
  - split; simpl.
    + rewrite fmap_app, concat_app. rewrite (concat_insert mp_pipelines _ _ _ _ []) by (try done; by rewrite app_nil_r).
      rewrite app_nil_r. simpl. rewrite Hnp, W1, app_nil_r, length_app, seq_app. done.
    + intros k x [?|[[-> ->]|[-> ->]]]%Hget; [eauto|simpl; eauto|by rewrite Hnp].
    + rewrite fmap_app, concat_app. rewrite (concat_insert mp_children _ _ _ _ [length b.(metas)]) by done. simpl.
      rewrite Hnc, !app_nil_r, W3, length_app, length_insert. simpl. replace (length b.(metas) + 1 - 1)%nat with (length b.(metas) - 1 + 1)%nat by lia.
      rewrite seq_app. simpl. by replace (S (length b.(metas) - 1)) with (length b.(metas)) by lia.
    + intros k x c [?|[[-> ->]|[-> ->]]]%Hget; [eauto| |rewrite Hnc; by intros ?%elem_of_nil].
      simpl. intros [?| ->%list_elem_of_singleton]%elem_of_app; [eauto|done].
    + intros k x [?|[[-> ->]|[-> ->]]]%Hget; [eauto|simpl; eauto|]. rewrite Hns, Hps. split; [done|lia].
    + intros k x i [?|[[-> ->]|[-> ->]]]%Hget; [intros Hi; destruct (W6 k x i) as (q & ? & ?); eauto| |].
      * simpl. intros Hi. destruct (W6 m mp i) as (q & ? & ?); eauto.
      * rewrite Hnp. intros ->%list_elem_of_singleton. exists p. by rewrite list_lookup_middle.
    + intros k x i l j [?|[[-> ->]|[-> ->]]]%Hget; [eauto|simpl; eauto|]. by rewrite Hnd, lookup_empty.
    + intros k x [?|[[-> ->]|[-> ->]]]%Hget; [eauto|simpl; eauto|done].
    + intros i q j [Hq|[_ Hq]]%lookup_app_Some Hj; [destruct (W9 i q j Hq Hj) as (r & ? & ?); eauto|].
      apply list_lookup_singleton_Some in Hq as [_ <-]. rewrite Hpd in Hj. by apply elem_of_nil in Hj.
    + intros c j Hj. destruct (W10 c j Hj) as (q & ? & ?). eauto.
    + intros k x [?|[[-> ->]|[-> ->]]]%Hget; [eauto|simpl; eauto|by rewrite Hns].
  - split; simpl; [eauto using pipe_le_refl| |done]. intros k x Hk. destruct (decide (m = k)) as [<-|Hne].
    + simplify_eq. eexists. split; [apply lookup_app_l_Some, list_lookup_insert_eq; done|]. split_and!; [done|done|eauto].
    + exists x. split; [|apply meta_le_refl]. apply lookup_app_l_Some. by rewrite list_lookup_insert_ne.
Qed.

(** Operations that keep the operators of all pipelines. *)
Record kept (b b' : build) : Prop := {
  ke_wf : wf b';
  ke_ext : ext b b';
  ke_operators : same_operators (λ _, False) b b'
}.

Lemma same_operators_trans P b1 b2 b3 : ext b1 b2 → same_operators P b1 b2 → same_operators P b2 b3 → same_operators P b1 b3.
Proof.
  intros He H1 H2 i p p' Hi Hp Hp'. destruct (ex_pipes _ _ He i p Hp) as (q & Hq & _). rewrite (H2 i q p' Hi Hq Hp'). eauto.
Qed.

Lemma same_operators_refl P b : same_operators P b b.
Proof. intros i p p' _ Hp Hp'. by simplify_eq. Qed.

Lemma same_operators_weaken (P Q : nat → Prop) b b' : (∀ i, P i → Q i) → same_operators P b b' → same_operators Q b b'.
Proof. intros HPQ Hs i p p' Hi. apply Hs. auto. Qed.

Lemma kept_trans b1 b2 b3 : kept b1 b2 → kept b2 b3 → kept b1 b3.
Proof. intros [] []. split; [done|by eapply ext_trans|by eapply same_operators_trans]. Qed.

Lemma with_pipe_kept i f b p b' :
  b.(pipes) !! i = Some p → with_pipe i f b = Ret b' → (f p).(operators) = p.(operators) → same_operators (λ _, False) b b'.
Proof.
  unfold with_pipe. intros Hp. rewrite Hp. intros [= <-] Ho j q q' _ Hq Hq'. simpl in Hq'.
  destruct (decide (i = j)) as [<-|Hij]; [|rewrite list_lookup_insert_ne in Hq' by done; by simplify_eq].
  rewrite list_lookup_insert_eq in Hq' by (by eapply lookup_lt_Some). by simplify_eq.
Qed.

Lemma AddDependency_ok i on b p q :
  wf b → b.(pipes) !! i = Some p → b.(pipes) !! on = Some q → (sink_weight q.(sink) < sink_weight p.(sink))%nat →
  ∃ b', AddDependency i on b = Ret b' ∧ kept b b' ∧ outer b' i on ∧ length b'.(pipes) = length b.(pipes) ∧ b'.(metas) = b.(metas) ∧
    b'.(this_pipeline) = b.(this_pipeline).
Proof.
  intros Hw Hp Hq Hlt. assert (i ≠ on) as Hne by (intros ->; simplify_eq; lia).
  destruct (with_pipe_ok i (λ p, mkPipeline p.(source) p.(operators) p.(sink) p.(parents) (p.(dependencies) ++ [on]) p.(base_batch_index)) b p Hw Hp) as (E1 & W1 & X1).
  { split_and!; [done|done|]. intros j Hj. simpl. apply elem_of_app. by left. }
  { simpl. intros j [?| ->%list_elem_of_singleton]%elem_of_app; [by left|right; eauto]. }
  pose proof (with_pipe_kept _ _ _ _ _ Hp E1 eq_refl) as S1. unfold AddDependency. rewrite E1. orun.
  set (b1 := mkBuild _ _ _) in *. assert (b1.(pipes) !! on = Some q) as Hq1 by (simpl; by rewrite list_lookup_insert_ne).
  destruct (with_pipe_ok on (λ p, mkPipeline p.(source) p.(operators) p.(sink) (p.(parents) ++ [i]) p.(dependencies) p.(base_batch_index)) b1 q W1 Hq1) as (E2 & W2 & X2).
  { done. }
  { by left. }
  rewrite E2. eexists. split; [done|]. pose proof (with_pipe_kept _ _ _ _ _ Hq1 E2 eq_refl) as S2. split_and!.
  - split; [done|by eapply ext_trans|by eapply same_operators_trans].
  - eapply outer_ext; [exact X2|]. eexists. simpl. rewrite list_lookup_insert_eq by (by eapply lookup_lt_Some). split; [done|].
    simpl. apply elem_of_app. right. by apply list_elem_of_singleton.
  - simpl. by rewrite !length_insert.
  - done.
  - done.
Qed.

(** A new meta pipeline with sink [op], which the current pipeline waits for. *)
Record child_made (b b' : build) (current op : nat) : Prop := {
  cm_kept : kept b b';
  cm_base : GetBasePipeline (length b.(metas)) b' = Ret (length b.(pipes));
  cm_length : length b'.(pipes) = S (length b.(pipes));
  cm_pipe : ∃ p, b'.(pipes) !! length b.(pipes) = Some p ∧ p.(sink) = Some op ∧ p.(operators) = [];
  cm_depends : outer b' current (length b.(pipes));
  cm_in : ∃ mp, b'.(metas) !! length b.(metas) = Some mp ∧ length b.(pipes) ∈ mp.(mp_pipelines);
  cm_this : b'.(this_pipeline) = b.(this_pipeline)
}.

Lemma meta_child_ne b m mp : b.(metas) !! m = Some mp → m ≠ length b.(metas).
Proof. intros Hm%lookup_lt_Some. lia. Qed.

Lemma CreateChildMetaPipeline_ok m current op b mp p :
  wf b → b.(metas) !! m = Some mp → b.(pipes) !! current = Some p → (w op < sink_weight p.(sink))%nat →
  ∃ b', CreateChildMetaPipeline m current op b = Ret (length b.(metas), b') ∧ child_made b b' current op.
Proof.
  intros Hw Hm Hp Hlt. pose proof (lookup_lt_Some _ _ _ Hm) as Hml. pose proof (lookup_lt_Some _ _ _ Hp) as Hpl.
  set (q := mkPipeline None [] (Some op) [] [] (wrap 64 (BATCH_INCREMENT * 0))).
  set (new := mkMeta (Some op) [length b.(pipes)] ∅ [] false (wrap 64 (0 + 1)) [] ∅).
  destruct (child_meta_ok m b mp q new) as [W1 X1]; try done.
  { simpl. pose proof (pipe_top b current p Hw Hp). lia. }
  set (b1 := mkBuild _ _ _) in *. assert (same_operators (λ _, False) b b1) as S1.
  { intros i p1 p2 _ H1 H2. simpl in H2. rewrite lookup_app_l in H2 by (by eapply lookup_lt_Some). by simplify_eq. }
  destruct (AddDependency_ok current (length b.(pipes)) b1 p q W1) as (b2 & E2 & K2 & D2 & L2 & M2 & T2); [by apply lookup_app_l_Some|by apply list_lookup_middle|done|].
  assert (b2.(metas) !! length b.(metas) = Some new) as Hnew by (rewrite M2; simpl; rewrite lookup_app_r; rewrite length_insert; [by rewrite Nat.sub_diag|lia]).
  destruct (meta_change_ok (length b.(metas)) b2 new (set_recursive_cte mp.(recursive_cte) new) [] (ke_wf _ _ K2) Hnew) as (W3 & X3).
  { by split. }
  rewrite app_nil_r in W3, X3. set (b3 := mkBuild b2.(pipes) _ _) in *. exists b3. split.
  - unfold CreateChildMetaPipeline, new_meta, CreatePipeline. simpl. rewrite list_lookup_middle by done. orun. unfold with_meta. simpl.
    rewrite insert_app_r_alt by done. rewrite Nat.sub_diag. simpl. rewrite lookup_app_l by done. rewrite Hm. orun. simpl.
    rewrite insert_app_l by done. fold q new b1. unfold GetBasePipeline at 1. simpl. rewrite lookup_app_r; rewrite length_insert; [|lia].
    rewrite Nat.sub_diag. simpl. change (set_batch_index _ _) with new. fold b1. rewrite E2. orun.
    assert (b2.(metas) !! m = Some (set_children (mp.(mp_children) ++ [length b.(metas)]) mp)) as ->.
    { rewrite M2. simpl. rewrite lookup_app_l by (rewrite length_insert; lia). by rewrite list_lookup_insert_eq. }
    orun. rewrite Hnew. done.
  - split.
    + apply (kept_trans b b1); [by split|]. eapply kept_trans; [done|]. split; [done|done|]. intros i p1 p2 _ H1 H2. simpl in H2. by simplify_eq.
    + unfold GetBasePipeline, b3. simpl. rewrite list_lookup_insert_eq by (by eapply lookup_lt_Some). done.
    + simpl. rewrite L2. simpl. rewrite length_app. simpl. lia.
    + destruct (ex_pipes _ _ (ke_ext _ _ K2) (length b.(pipes)) q) as (q' & Hq' & (Hs & _)); [by apply list_lookup_middle|].
      exists q'. split_and!; [done|by rewrite Hs|]. apply (ke_operators _ _ K2 (length b.(pipes)) q q'); [auto|by apply list_lookup_middle|done].
    + by eapply outer_ext.
    + simpl. rewrite list_lookup_insert_eq by (by eapply lookup_lt_Some). eexists. split; [done|]. simpl. by left.
    + done.
Qed.

(** ** Growing *)

(** Operators are added to the pipelines [P] alone, and all new pipelines are
    complete. *)
Record grown (P : nat → Prop) (b b' : build) : Prop := {
  gr_wf : wf b';
  gr_ext : ext b b';
  gr_operators : same_operators P b b';
  gr_new : ∀ i, (length b.(pipes) ≤ i < length b'.(pipes))%nat → served ops b' i ∧ has_source b' i
}.

Lemma ext_length b b' : ext b b' → (length b.(pipes) ≤ length b'.(pipes))%nat.
Proof.
  intros He. destruct (length b.(pipes)) as [|n] eqn:E; [lia|]. destruct (lookup_lt_is_Some_2 b.(pipes) n) as [p Hp]; [lia|].
  destruct (ex_pipes _ _ He n p Hp) as (q & Hq & _). by apply lookup_lt_Some in Hq.
Qed.

Lemma grown_trans P b1 b2 b3 : (∀ i, P i → (i < length b1.(pipes))%nat) → grown P b1 b2 → grown P b2 b3 → grown P b1 b3.
Proof.
  intros Hc [W1 X1 S1 N1] [W2 X2 S2 N2]. pose proof (ext_length _ _ X1). split; [done|by eapply ext_trans|by eapply same_operators_trans|].
  intros i Hi. destruct (decide (i < length b2.(pipes))%nat); [|apply N2; lia]. destruct (N1 i) as [Hs Hsrc]; [lia|].
  split; [|by eapply has_source_ext]. eapply served_ext; [done|done| |done|done]. intros ?%Hc. lia.
Qed.

Lemma grown_weaken (P Q : nat → Prop) b b' : (∀ i, P i → Q i) → grown P b b' → grown Q b b'.
Proof. intros HPQ [W X S N]. split; [done|done|by eapply same_operators_weaken|done]. Qed.

Lemma kept_grown P b b' : kept b b' → length b'.(pipes) = length b.(pipes) → grown P b b'.
Proof. intros [W X S] L. split; [done|done|by eapply same_operators_weaken; [|exact S]|]. intros i. lia. Qed.

(** The current pipeline alone, and none. *)
Abbreviation only current := (λ i : nat, i = current).
Abbreviation nowhere := (λ _ : nat, False).

(** The current pipeline: where it is, and that it is complete so far. *)
Record at_work (b : build) (current m : nat) (weight : nat) : Prop := {
  aw_meta : ∃ mp, b.(metas) !! m = Some mp ∧ current ∈ mp.(mp_pipelines);
  aw_pipe : ∃ p, b.(pipes) !! current = Some p ∧ (weight < sink_weight p.(sink))%nat
}.

Lemma at_work_ext b b' current m x : ext b b' → at_work b current m x → at_work b' current m x.
Proof.
  intros He [(mp & Hm & Hc) (p & Hp & Hlt)]. split.
  - destruct (ex_metas _ _ He m mp Hm) as (mp' & Hm' & (_ & Hpre & _)). exists mp'. split; [done|]. by eapply elem_of_prefix.
  - destruct (ex_pipes _ _ He current p Hp) as (p' & Hp' & (Hs & _)). exists p'. by rewrite Hs.
Qed.

Lemma at_work_less b current m x y : (y ≤ x)%nat → at_work b current m x → at_work b current m y.
Proof. intros Hle [? (p & ? & ?)]. split; [done|]. exists p. split; [done|lia]. Qed.

Lemma at_work_lt b current m x : at_work b current m x → (current < length b.(pipes))%nat.
Proof. intros [_ (p & Hp & _)]. by eapply lookup_lt_Some. Qed.

Lemma SetPipelineSource_ok current op b p :
  wf b → b.(pipes) !! current = Some p → ∃ b', SetPipelineSource current op b = Ret b' ∧ grown (only current) b b' ∧ kept b b' ∧ has_source b' current.
Proof.
  intros Hw Hp. unfold SetPipelineSource. set (f := λ p : Pipeline, _). destruct (with_pipe_ok current f b p Hw Hp) as (E & W & X); [by split_and!; eauto|by left|].
  pose proof (with_pipe_kept _ _ _ _ _ Hp E eq_refl) as S. pose proof (with_pipe_operators _ _ _ _ _ Hp E) as (_ & L & _).
  eexists. split; [exact E|]. assert (kept b (mkBuild (<[current := f p]> b.(pipes)) b.(metas) b.(this_pipeline))) as K by done.
  split_and!; [by apply kept_grown|done|]. exists (f p). split; [|done]. simpl. apply list_lookup_insert_eq. by eapply lookup_lt_Some.
Qed.

Lemma AddPipelineOperator_ok current op b p :
  wf b → b.(pipes) !! current = Some p →
  ∃ b', AddPipelineOperator current op b = Ret b' ∧ grown (only current) b b' ∧ b'.(metas) = b.(metas) ∧ b'.(this_pipeline) = b.(this_pipeline) ∧
    ∃ p', b'.(pipes) !! current = Some p' ∧ p'.(operators) = p.(operators) ++ [op].
Proof.
  intros Hw Hp. unfold AddPipelineOperator. set (f := λ p : Pipeline, _). destruct (with_pipe_ok current f b p Hw Hp) as (E & W & X); [done|by left|].
  pose proof (with_pipe_operators _ _ _ _ _ Hp E) as (S & L & M). eexists. split; [exact E|].
  split_and!; [|done|done|]; [split; [done|done|done|]; intros i; rewrite L; lia|]. exists (f p). split; [|done].
  simpl. apply list_lookup_insert_eq. by eapply lookup_lt_Some.
Qed.

(** What [BuildPipelines] does for the operator [op] on the current pipeline. *)
Definition builds (run : build → outcome build) (b : build) (current m : nat) : Prop :=
  ∃ b', run b = Ret b' ∧ grown (only current) b b' ∧ served ops b' current ∧ has_source b' current.

Definition builds_below (run : nat → nat → nat → build → outcome build) (bound : nat) : Prop :=
  ∀ id current m b, (id < length ops)%nat → (w id < bound)%nat → wf b → at_work b current m (w id) → served ops b current →
    builds (run id current m) b current m.

(** Building a new meta pipeline below the current pipeline. *)
Lemma new_child_grown b b1 b2 :
  kept b b1 → length b1.(pipes) = S (length b.(pipes)) → grown (only (length b.(pipes))) b1 b2 →
  served ops b2 (length b.(pipes)) → has_source b2 (length b.(pipes)) → grown nowhere b b2.
Proof.
  intros [W1 X1 S1] L1 [W2 X2 S2 N2] Hs Hsrc. split; [done|by eapply ext_trans| |].
  - intros i p p' Hi Hp Hp'. destruct (ex_pipes _ _ X1 i p Hp) as (q & Hq & _). rewrite (S2 i q p').
    + apply (S1 i p q); auto.
    + intros ->. apply lookup_lt_Some in Hp. lia.
    + done.
    + done.
  - intros i Hi. destruct (decide (i = length b.(pipes))) as [->|]; [done|]. apply N2. lia.
Qed.

Lemma child_at_work b b1 current op x :
  child_made b b1 current op → (x < w op)%nat → at_work b1 (length b.(pipes)) (length b.(metas)) x ∧ served ops b1 (length b.(pipes)).
Proof.
  intros [_ _ _ (q & Hq & Hs & Ho) _ Hin _] Hlt. split; [split; [done|exists q; by rewrite Hs]|].
  intros q' u Hq' Hu. simplify_eq. rewrite Ho in Hu. by apply elem_of_nil in Hu.
Qed.

Lemma build_child_ok run bound op child current m b :
  builds_below run bound → (child < length ops)%nat → (w child < bound)%nat → (w child < w op)%nat → wf b → at_work b current m (w op) →
  ∃ b', build_child run op child current m b = Ret b' ∧ grown nowhere b b'.
Proof.
  intros Hrun Hid Hb Hlt Hw [(mp & Hm & Hc) (p & Hp & Hpw)].
  destruct (CreateChildMetaPipeline_ok m current op b mp p Hw Hm Hp Hpw) as (b1 & E1 & C1).
  destruct (child_at_work _ _ _ _ (w child) C1 Hlt) as [A1 S1]. pose proof C1 as [K1 B1 L1 _ _ _ _].
  destruct (Hrun child _ _ b1 Hid Hb (ke_wf _ _ K1) A1 S1) as (b2 & E2 & G2 & S2 & R2). exists b2. unfold build_child.
  rewrite E1. orun. rewrite B1. orun. split; [done|]. by apply (new_child_grown b b1).
Qed.

(** The pipeline that makes the filters of [c], which [current] waits for. *)
Definition waits_for (b : build) (current c : nat) : Prop :=
  ∃ j q, b.(this_pipeline) !! c = Some j ∧ b.(pipes) !! j = Some q ∧ q.(sink) = Some c ∧ outer b current j.

Lemma waits_for_ext b b' current c : ext b b' → waits_for b current c → waits_for b' current c.
Proof.
  intros He (j & q & Hj & Hq & Hs & Hd). destruct (ex_pipes _ _ He j q Hq) as (q' & Hq' & (Hs' & _)). exists j, q'.
  split_and!; [by apply (ex_this _ _ He)|done|congruence|by eapply outer_ext].
Qed.

Lemma set_this_kept b op j q :
  wf b → b.(this_pipeline) !! op = None → b.(pipes) !! j = Some q → q.(sink) = Some op →
  kept b (mkBuild b.(pipes) b.(metas) (<[op := j]> b.(this_pipeline))).
Proof.
  intros [W1 W2 W3 W4 W5 W6 W7 W8 W9 W10 W11] Hnone Hq Hs. split.
  - split; simpl; try done. intros c k [[<- <-]|[_ Hk]]%lookup_insert_Some; eauto.
  - split; simpl; [eauto using pipe_le_refl|eauto using meta_le_refl|]. intros c k Hk. rewrite lookup_insert_ne; [done|congruence].
  - intros i p p' _ Hp Hp'. simpl in Hp'. by simplify_eq.
Qed.

Lemma build_create_bf_ok run bound op p fs current m b :
  runnable → builds_below run bound → ops !! op = Some p → p.(pkind) = PCreateBF fs → (w op ≤ bound)%nat → wf b → at_work b current m (w op) →
  ∃ b', build_create_bf run op p current m b = Ret b' ∧ grown nowhere b b' ∧ waits_for b' current op.
Proof.
  intros Hru Hrun Hop Hk Hb Hw Haw. pose proof Haw as [(mp & Hm & Hc) (pc & Hp & Hpw)]. unfold build_create_bf.
  destruct (b.(this_pipeline) !! op) as [j|] eqn:Ht.
  - destruct (wf_this _ Hw op j Ht) as (q & Hq & Hs).
    destruct (AddDependency_ok current j b pc q Hw Hp Hq) as (b' & E & K & D & L & _ & T); [by rewrite Hs|]. exists b'. split; [done|].
    split; [by apply kept_grown|]. destruct (ex_pipes _ _ (ke_ext _ _ K) j q Hq) as (q' & Hq' & (Hs' & _)). exists j, q'. rewrite T.
    split_and!; [done|done|congruence|done].
  - destruct (CreateChildMetaPipeline_ok m current op b mp pc Hw Hm Hp Hpw) as (b1 & E1 & C1). pose proof C1 as [K1 B1 L1 (q & Hq & Hs & _) D1 _ T1].
    pose proof (ru_unary Hru op p Hop) as Har. rewrite Hk in Har. destruct p.(pchildren) as [|child [|]] eqn:Hcs; try done.
    destruct (ru_children Hru op p child Hop) as [Hid Hlt]; [rewrite Hcs; by left|].
    destruct (child_at_work _ _ _ _ (w child) C1 Hlt) as [A1 S1].
    pose proof (set_this_kept b1 op (length b.(pipes)) q (ke_wf _ _ K1)) as K2. rewrite T1 in K2. specialize (K2 Ht Hq Hs).
    set (b2 := mkBuild _ _ _) in K2. destruct (Hrun child (length b.(pipes)) (length b.(metas)) b2 Hid) as (b3 & E3 & G3 & S3 & R3); [lia|apply (ke_wf _ _ K2)| | |].
    { eapply at_work_ext; [apply (ke_ext _ _ K2)|done]. }
    { eapply (served_ext _ (λ _, False)); [apply (ke_ext _ _ K2)|apply (ke_operators _ _ K2)|auto|lia|done]. }
    exists b3. rewrite E1. orun. rewrite B1. orun. simpl. rewrite T1. split; [done|]. split.
    + apply (new_child_grown b b2); try done. by eapply kept_trans.
    + apply (waits_for_ext b2); [apply (gr_ext _ _ _ G3)|]. exists (length b.(pipes)), q. split_and!; [apply lookup_insert_eq|done|done|].
      eapply outer_ext; [apply (ke_ext _ _ K2)|done].
Qed.

(** The creators a [PhysicalUseBF] depends on, one after the other. *)
Lemma build_related_ok run bound related current m x b :
  runnable → builds_below run bound → (x ≤ bound)%nat →
  (∀ c, c ∈ related → (w c < x)%nat ∧ ∃ q fs, ops !! c = Some q ∧ q.(pkind) = PCreateBF fs) → wf b → at_work b current m x →
  ∃ b', ofold (λ b cell, let* c := deref (ops !! cell) in build_create_bf run cell c current m b) related b = Ret b' ∧
    grown nowhere b b' ∧ ∀ c, c ∈ related → waits_for b' current c.
Proof.
  intros Hru Hrun Hb. revert b. induction related as [|c related IH]; intros b Hrel Hw Haw.
  - exists b. split; [done|]. split; [|by intros ? ?%elem_of_nil]. apply kept_grown; [|done]. split; [done|apply ext_refl|apply same_operators_refl].
  - destruct (Hrel c) as [Hlt (q & fs & Hq & Hk)]; [by left|].
    destruct (build_create_bf_ok run bound c q fs current m b) as (b1 & E1 & G1 & W1); try done; [lia|by eapply at_work_less; [|done]; lia|].
    destruct (IH b1) as (b2 & E2 & G2 & W2); [by intros c' Hc'; apply Hrel; right|apply (gr_wf _ _ _ G1)|by eapply at_work_ext; [apply (gr_ext _ _ _ G1)|]|].
    exists b2. simpl. rewrite Hq. orun. rewrite E1. orun. split; [done|]. split; [by eapply grown_trans|].
    intros c' [->|Hc']%elem_of_cons; [|auto]. eapply waits_for_ext; [apply (gr_ext _ _ _ G2)|done].
Qed.

(** ** Child pipelines *)

Lemma from_pipeline_ok start including l :
  start ∈ l → ∃ rest, from_pipeline start including l = Ret rest ∧ ∀ x, x ∈ rest → x ∈ l.
Proof.
  induction l as [|y l IH]; [by intros ?%elem_of_nil|]. intros Hs. simpl. case_decide as Hy.
  - eexists. split; [done|]. intros x. destruct including; [done|by right].
  - destruct IH as (rest & E & Hin); [by apply elem_of_cons in Hs as [->|]|]. exists rest. split; [done|]. right. auto.
Qed.

Lemma operators_until_sub op l u : u ∈ operators_until op l → u ∈ l.
Proof. induction l as [|x l IH]; [done|]. simpl. case_decide; [by intros ?%elem_of_nil|]. intros [->|?]%elem_of_cons; [left|right; auto]. Qed.

Lemma AddDependenciesFrom_ok m dependant start including b mp :
  wf b → b.(metas) !! m = Some mp → start ∈ mp.(mp_pipelines) → dependant ∈ mp.(mp_pipelines) → (∀ j, j ∈ mp.(mp_pipelines) → (j ≤ dependant)%nat) →
  ∃ b', AddDependenciesFrom m dependant start including b = Ret b' ∧ kept b b' ∧ b'.(pipes) = b.(pipes).
Proof.
  intros Hw Hm Hs Hd Hle. destruct (from_pipeline_ok start including _ Hs) as (rest & E & Hrest).
  unfold AddDependenciesFrom, with_meta. rewrite Hm. orun. rewrite E. orun. eexists. split; [done|].
  set (mp' := set_dependencies _ _). destruct (meta_change_ok m b mp mp' [] Hw Hm) as (W & X); [|rewrite app_nil_r in *; split; [split; [done|done|]|done]].
  - split; simpl; rewrite ?app_nil_r; try done.
    + intros i l Hl. destruct (decide (i = dependant)) as [->|Hne]; [|rewrite lookup_insert_ne by done; eauto].
      rewrite lookup_insert_eq, Hl. eexists. split; [done|]. intros j Hj. apply elem_of_app. by right.
    + intros i l j [[<- <-]|[_ Hl]]%lookup_insert_Some; [|by eapply wf_inner].
      intros [[Hne Hj%Hrest]%list_elem_of_filter|Hj]%elem_of_app; [split_and!; [done|done|]; specialize (Hle j Hj); lia|].
      destruct (mp.(mp_dependencies) !! dependant) as [l'|] eqn:El; [by eapply wf_inner|by apply elem_of_nil in Hj].
  - intros i p p' _ Hp Hp'. simpl in Hp'. by simplify_eq.
Qed.

Lemma CreateChildPipeline_ok m current op last_pipeline b mp :
  wf b → b.(metas) !! m = Some mp → current ∈ mp.(mp_pipelines) → last_pipeline ∈ mp.(mp_pipelines) → served ops b current →
  ∃ b', CreateChildPipeline m current op last_pipeline b = Ret b' ∧ grown nowhere b b'.
Proof.
  intros Hw Hm Hc Hl Hserved. destruct (wf_sinks _ Hw m mp current Hm Hc) as (cur & Hcur & Hsink). unfold CreateChildPipeline, with_meta.
  rewrite Hcur. orun. simpl. rewrite Hm. orun. set (p := mkPipeline _ _ _ _ _ _). set (mp' := set_dependencies _ _).
  assert (meta_change b [p] mp mp') as Hch.
  { split; simpl; try done; [by repeat constructor| |].
    - intros i l Hi. destruct (decide (i = length b.(pipes))) as [->|Hne]; [|rewrite lookup_insert_ne by done; eauto].
      rewrite lookup_insert_eq, Hi. eexists. split; [done|]. intros j Hj. apply elem_of_app. by left.
    - intros i l j Hi Hj. apply lookup_insert_Some in Hi as [[<- <-]|[_ Hi]].
      + apply elem_of_app in Hj as [Hj| ->%list_elem_of_singleton].
        * destruct (mp.(mp_dependencies) !! length b.(pipes)) as [l'|] eqn:El; [|by apply elem_of_nil in Hj].
          destruct (wf_inner _ Hw m mp _ l' j Hm El Hj) as (Hin & _). apply (wf_pipelines_lt b m mp) in Hin; [lia|done|done].
        * split_and!; [apply elem_of_app; right; by left|apply elem_of_app; by left|by eapply wf_pipelines_lt].
      + destruct (wf_inner _ Hw m mp i l j Hm Hi Hj) as (? & ? & ?). split_and!; [apply elem_of_app; by left|apply elem_of_app; by left|done]. }
  destruct (meta_change_ok m b mp mp' [p] Hw Hm Hch) as (W1 & X1). set (b1 := mkBuild _ _ _) in *.
  assert (b1.(metas) !! m = Some mp') as Hm1 by (simpl; apply list_lookup_insert_eq; by eapply lookup_lt_Some).
  destruct (AddDependenciesFrom_ok m (length b.(pipes)) last_pipeline false b1 mp' W1 Hm1) as (b2 & E2 & [W2 X2 S2] & P2).
  { apply elem_of_app. by left. }
  { apply elem_of_app. right. by left. }
  { intros j [Hj| ->%list_elem_of_singleton]%elem_of_app; [|lia]. apply (wf_pipelines_lt b m mp) in Hj; [lia|done|done]. }
  exists b2. split; [done|]. split; [done|by eapply ext_trans| |].
  - intros i q q' _ Hq Hq'. rewrite P2 in Hq'. simpl in Hq'. rewrite lookup_app_l in Hq' by (by eapply lookup_lt_Some). by simplify_eq.
  - rewrite P2. simpl. rewrite length_app. simpl. intros i Hi. assert (i = length b.(pipes)) as -> by lia.
    assert (b2.(pipes) !! length b.(pipes) = Some p) as Hp by (rewrite P2; simpl; by apply list_lookup_middle).
    split; [|exists p; by split]. intros q u Hq Hu. simplify_eq. simpl in Hu. apply operators_until_sub in Hu.
    assert (inner b2 (length b.(pipes)) current) as Hdep.
    { apply (inner_ext b1); [done|]. exists m, mp'. simpl. eexists. split; [done|]. simpl. rewrite lookup_insert_eq. split; [done|].
      apply elem_of_app. right. by left. }
    intros r fs related c Hr Hk Hcr. destruct (waits_ext ops b b2 current u) with r fs related c as (j & q & k & Hj & Hq' & Hs & Hi' & Ho); try done.
    { by eapply ext_trans. }
    { by eapply Hserved. }
    exists j, q, k. split_and!; try done. by eapply rtc_l.
Qed.

(** ** All operators *)

(** The operators of the current pipeline are served when the new one is. *)
Lemma added_served b b1 b2 current op p p1 :
  served ops b current → b.(pipes) !! current = Some p → ext b b1 → b1.(pipes) !! current = Some p1 → p1.(operators) = p.(operators) ++ [op] →
  ext b1 b2 → same_operators nowhere b1 b2 → waits ops b2 current op → served ops b2 current.
Proof.
  intros Hs Hp He Hp1 Ho He2 Hs2 Hw q u Hq Hu. rewrite (Hs2 current p1 q), Ho in Hu by auto.
  apply elem_of_app in Hu as [Hu| ->%list_elem_of_singleton]; [|done]. apply (waits_ext _ b); [by apply (ext_trans b b1)|]. by eapply Hs.
Qed.

Lemma other_waits b i op p : ops !! op = Some p → (∀ fs related, p.(pkind) ≠ PUseBF fs related) → waits ops b i op.
Proof. intros Hp Hk p' fs related c Hp' Hk'. simplify_eq. by destruct (Hk fs related). Qed.

Lemma same_served b b' i : ext b b' → same_operators nowhere b b' → (i < length b.(pipes))%nat → served ops b i → served ops b' i.
Proof. intros He Hs. eapply served_ext; eauto. Qed.

Section Cases.
  Context (run : nat → nat → nat → build → outcome build) (bound : nat) (Hru : runnable) (Hrun : builds_below run bound).
  Context (op : nat) (p : PhysicalOperator) (Hop : ops !! op = Some p) (Hb : (w op ≤ bound)%nat).
  Context (current m : nat) (b : build) (Hw : wf b) (Haw : at_work b current m (w op)) (Hs : served ops b current).

Lemma only_lt i : i = current → (i < length b.(pipes))%nat.
Proof. intros ->. by eapply at_work_lt. Qed.

(** Building the child of [op] on, after [b1]. *)
Lemma child_builds b1 child :
  grown (only current) b b1 → served ops b1 current → child ∈ p.(pchildren) →
  ∃ b', run child current m b1 = Ret b' ∧ grown (only current) b b' ∧ served ops b' current ∧ has_source b' current.
Proof.
  intros G1 S1 Hc. destruct (ru_children Hru op p child Hop Hc) as [Hid Hlt].
  destruct (Hrun child current m b1) as (b2 & E2 & G2 & S2 & R2); try done; [lia|apply (gr_wf _ _ _ G1)| |].
  - eapply at_work_ext; [apply (gr_ext _ _ _ G1)|]. eapply at_work_less; [|done]. lia.
  - exists b2. split_and!; try done. eapply grown_trans; [apply only_lt|done|done].
Qed.

(** A source, and what is built below it. *)
Lemma source_builds next :
  (∀ b1, wf b1 → at_work b1 current m (w op) → ∃ b2, next b1 = Ret b2 ∧ grown nowhere b1 b2) →
  ∃ b', (let* b1 := SetPipelineSource current op b in next b1) = Ret b' ∧ grown (only current) b b' ∧ served ops b' current ∧ has_source b' current.
Proof.
  clear Hb. intros Hnext. pose proof Haw as [_ (pc & Hp & _)]. destruct (SetPipelineSource_ok current op b pc Hw Hp) as (b1 & E1 & G1 & [_ X1 S1] & R1).
  destruct (Hnext b1) as (b2 & E2 & G2); [apply (gr_wf _ _ _ G1)|by eapply at_work_ext|]. exists b2. rewrite E1. orun. split; [done|].
  pose proof (at_work_lt _ _ _ _ Haw). pose proof (ext_length _ _ X1). split_and!.
  - eapply grown_trans; [apply only_lt|done|]. by eapply grown_weaken; [|exact G2].
  - eapply same_served; [apply (gr_ext _ _ _ G2)|apply (gr_operators _ _ _ G2)|lia|]. eapply same_served; [done|done|lia|done].
  - eapply has_source_ext; [apply (gr_ext _ _ _ G2)|done].
Qed.

(** An operator, what is built for it, and what is built below it. *)
Lemma operator_builds between child :
  child ∈ p.(pchildren) →
  (∀ b1, wf b1 → at_work b1 current m (w op) → ∃ b2, between b1 = Ret b2 ∧ grown nowhere b1 b2 ∧ waits ops b2 current op) →
  ∃ b', (let* b1 := AddPipelineOperator current op b in let* b2 := between b1 in run child current m b2) = Ret b' ∧
    grown (only current) b b' ∧ served ops b' current ∧ has_source b' current.
Proof.
  intros Hc Hbetween. pose proof Haw as [_ (pc & Hp & _)].
  destruct (AddPipelineOperator_ok current op b pc Hw Hp) as (b1 & E1 & G1 & _ & _ & (p1 & Hp1 & Ho1)).
  destruct (Hbetween b1) as (b2 & E2 & G2 & W2); [apply (gr_wf _ _ _ G1)|by eapply at_work_ext; [apply (gr_ext _ _ _ G1)|]|].
  destruct (child_builds b2 child) as (b3 & E3 & R3); [| |done|].
  - eapply grown_trans; [apply only_lt|done|]. by eapply grown_weaken; [|exact G2].
  - eapply added_served; [done|done|apply (gr_ext _ _ _ G1)|done|done|apply (gr_ext _ _ _ G2)|apply (gr_operators _ _ _ G2)|done].
  - exists b3. rewrite E1. orun. rewrite E2. orun. done.
Qed.

Lemma join_builds t :
  builds_join t = true → p.(pkind) = POther t →
  ∃ b', build_join run t op p current m b = Ret b' ∧ grown (only current) b b' ∧ served ops b' current ∧ has_source b' current.
Proof.
  intros Hj Hk. pose proof Haw as [(mp & Hm & Hc) (pc & Hp & _)]. pose proof (ru_arity Hru op p Hop) as Har. unfold arity_ok in Har. rewrite Hk, Hj in Har.
  destruct p.(pchildren) as [|lhs [|rhs [|]]] eqn:Hcs; try done.
  destruct (operator_builds (λ b1, build_child run op rhs current m b1) lhs) as (b3 & E3 & G3 & S3 & R3).
  { rewrite Hcs. by left. }
  { intros b1 W1 A1. destruct (ru_children Hru op p rhs Hop) as [Hid Hlt]; [rewrite Hcs; right; by left|].
    destruct (build_child_ok run bound op rhs current m b1) as (b2 & E2 & G2); try done; [lia|]. exists b2. split_and!; [done|done|].
    apply (other_waits _ _ _ p); [done|]. by rewrite Hk. }
  destruct (AddPipelineOperator_ok current op b pc Hw Hp) as (b1 & E1 & _ & M1 & _ & _). rewrite E1 in E3.
  destruct (last mp.(mp_pipelines)) as [lp|] eqn:Hlast; [|apply last_None in Hlast; by destruct (wf_base _ Hw m mp Hm)].
  assert (build_join run t op p current m b =
    match t with
    | PhysicalTypes.POSITIONAL_JOIN => CreateChildPipeline m current op lp b3
    | PhysicalTypes.CROSS_PRODUCT => Ret b3
    | _ => if IsSource p then CreateChildPipeline m current op lp b3 else Ret b3
    end) as ->.
  { unfold build_join. rewrite E1. orun. rewrite M1, Hm. orun. rewrite Hlast. orun. rewrite Hcs. simpl. orun. simpl in E3.
    destruct (build_child run op rhs current m b1) as [b2| | |]; try done. simpl in E3. orun. by rewrite E3. }
  assert (∃ b4, CreateChildPipeline m current op lp b3 = Ret b4 ∧ grown nowhere b3 b4) as (b4 & E4 & G4).
  { destruct (ex_metas _ _ (gr_ext _ _ _ G3) m mp Hm) as (mp3 & Hm3 & (_ & Hpre & _)).
    apply (CreateChildPipeline_ok m current op lp b3 mp3); [apply (gr_wf _ _ _ G3)|done|by eapply elem_of_prefix| |done].
    eapply elem_of_prefix; [|done]. rewrite last_lookup in Hlast. by eapply list_elem_of_lookup_2. }
  assert (grown (only current) b b4 ∧ served ops b4 current ∧ has_source b4 current) as Hb4.
  { split_and!; [eapply grown_trans; [apply only_lt|done|by eapply grown_weaken; [|exact G4]]| |by eapply has_source_ext; [apply (gr_ext _ _ _ G4)|]].
    eapply same_served; [apply (gr_ext _ _ _ G4)|apply (gr_operators _ _ _ G4)| |done].
    pose proof (at_work_lt _ _ _ _ Haw). pose proof (ext_length _ _ (gr_ext _ _ _ G3)). lia. }
  destruct t; first [by exists b4|by exists b3|destruct (IsSource p); [by exists b4|by exists b3]].
Qed.
End Cases.

Lemma BuildPipelines_ok fuel : runnable → builds_below (BuildPipelines ops fuel) fuel.
Proof.
  intros Hru. induction fuel as [|fuel IH]; intros op current m b Hid Hlt Hw Haw Hs; [lia|].
  destruct (lookup_lt_is_Some_2 _ _ Hid) as [p Hop]. unfold builds. simpl. rewrite Hop. orun.
  pose proof (ru_arity Hru op p Hop) as Har. unfold arity_ok in Har. pose proof (ru_unary Hru op p Hop) as Hone.
  destruct (p.(pkind)) as [fs|fs related|t] eqn:Hk.
  - apply (source_builds op current m b Hw Haw Hs). intros b1 W1 A1.
    destruct (build_create_bf_ok (BuildPipelines ops fuel) fuel op p fs current m b1) as (b2 & E2 & G2 & _); try done; [lia|]. by exists b2.
  - destruct p.(pchildren) as [|child [|]] eqn:Hcs; try done. orun.
    apply (operator_builds (BuildPipelines ops fuel) fuel Hru IH op p Hop ltac:(lia) current m b Hw Haw Hs
      (ofold (λ b cell, let* c := deref (ops !! cell) in build_create_bf (BuildPipelines ops fuel) cell c current m b) related) child);
      [rewrite Hcs; by left|]. intros b1 W1 A1.
    destruct (build_related_ok (BuildPipelines ops fuel) fuel related current m (w op) b1) as (b2 & E2 & G2 & W2); try done; [lia|by intros c; apply (ru_related Hru op p fs related)|].
    exists b2. split_and!; [done|done|]. intros p' fs' related' c Hp' Hk' Hc. simplify_eq. rewrite Hk in Hk'. simplify_eq.
    destruct (W2 c Hc) as (j & q & Hj & Hq & Hsk & Hd). by exists j, q, current.
  - destruct (builds_join t) eqn:Hj; [apply (join_builds (BuildPipelines ops fuel) fuel Hru IH op p Hop); try done; lia|].
    apply andb_true_iff in Har as [->%negb_true_iff Har]. destruct (IsSink p).
    + destruct p.(pchildren) as [|child [|]] eqn:Hcs; try done. simpl. apply (source_builds op current m b Hw Haw Hs). intros b1 W1 A1. orun.
      destruct (ru_children Hru op p child Hop) as [Hidc Hltc]; [rewrite Hcs; by left|].
      destruct (build_child_ok (BuildPipelines ops fuel) fuel op child current m b1) as (b2 & E2 & G2); try done; [lia|]. by exists b2.
    + destruct p.(pchildren) as [|child [|]] eqn:Hcs; [| |done].
      * destruct (source_builds op current m b Hw Haw Hs Ret) as (b' & E & R); [|by exists b'; destruct (SetPipelineSource current op b)].
        intros b1 W1 A1. exists b1. split; [done|]. apply kept_grown; [|done]. split; [done|apply ext_refl|apply same_operators_refl].
      * apply (operator_builds (BuildPipelines ops fuel) fuel Hru IH op p Hop ltac:(lia) current m b Hw Haw Hs Ret child); [rewrite Hcs; by left|].
        intros b1 W1 A1. exists b1. split_and!; [done| |apply (other_waits _ _ _ p); [done|by rewrite Hk]].
        apply kept_grown; [|done]. split; [done|apply ext_refl|apply same_operators_refl].
Qed.

(** ** Whole plans *)

Lemma root_wf : ∃ b, new_meta None no_pipelines = Ret (0%nat, b) ∧ GetBasePipeline 0 b = Ret 0%nat ∧ wf b ∧ length b.(pipes) = 1%nat ∧
  served ops b 0 ∧
  b.(metas) !! 0%nat = Some (mkMeta None [0%nat] ∅ [] false (wrap 64 1) [] ∅) ∧ ∃ p, b.(pipes) !! 0%nat = Some p ∧ p.(sink) = None.
Proof.
  eexists. split; [reflexivity|]. split_and!; [done| |done| |done|by eexists].
  - split; simpl.
    + done.
    + by intros [|] mp [= <-].
    + done.
    + by intros [|] mp c [= <-] ?%elem_of_nil.
    + by intros [|] mp [= <-].
    + intros [|] mp i [= <-]. simpl. intros ->%list_elem_of_singleton. by eexists.
    + by intros [|] mp i l j [= <-].
    + by intros [|] mp [= <-].
    + intros [|] p j [= <-] Hj. by apply elem_of_nil in Hj.
    + done.
    + by intros [|] mp [= <-].
  - intros p u [= <-] Hu. by apply elem_of_nil in Hu.
Qed.

Lemma build_plan_ok root :
  runnable → (top ≤ length ops)%nat → (root < length ops)%nat →
  ∃ b, build_plan ops root no_pipelines = Ret (0%nat, b) ∧ wf b ∧ (0 < length b.(metas))%nat ∧
    ∀ i, (i < length b.(pipes))%nat → served ops b i ∧ has_source b i.
Proof.
  intros Hru Htop Hroot. destruct root_wf as (b0 & E0 & B0 & W0 & L0 & S0 & M0 & (p & Hp & Hs)).
  pose proof (ru_top Hru root Hroot) as Hlt.
  destruct (BuildPipelines_ok (S (length ops)) Hru root 0%nat 0%nat b0 Hroot) as (b & E & G & Sv & Src); [lia|done| |done|].
  { split; [eexists; split; [done|by left]|]. exists p. by rewrite Hs. }
  exists b. unfold build_plan. rewrite E0. orun. rewrite B0. orun. rewrite E. orun. split; [done|]. split; [apply (gr_wf _ _ _ G)|].
  split; [destruct (ex_metas _ _ (gr_ext _ _ _ G) 0%nat _ M0) as (mp & Hm & _); by eapply lookup_lt_Some|].
  intros i Hi. destruct (decide (i = 0%nat)) as [->|]; [done|]. apply (gr_new _ _ _ G). lia.
Qed.

(** Waiting goes down: to a pipeline with a lighter sink, or to an earlier one
    with the same sink. *)
Definition pipe_order (b : build) (i : nat) : nat :=
  match b.(pipes) !! i with Some p => sink_weight p.(sink) * length b.(pipes) + i | None => 0 end.

Lemma depends_down b i j : wf b → depends b i j → (pipe_order b j < pipe_order b i)%nat.
Proof.
  intros Hw [(p & Hp & Hj)|(m & mp & l & Hm & Hl & Hj)]; unfold pipe_order.
  - destruct (wf_outer _ Hw i p j Hp Hj) as (q & Hq & Hlt). rewrite Hp, Hq. apply lookup_lt_Some in Hq. nia.
  - destruct (wf_inner _ Hw m mp i l j Hm Hl Hj) as (Hi & Hj' & Hlt).
    destruct (wf_sinks _ Hw m mp i Hm Hi) as (p & Hp & Hsp). destruct (wf_sinks _ Hw m mp j Hm Hj') as (q & Hq & Hsq).
    rewrite Hp, Hq, Hsp, Hsq. lia.
Qed.

Lemma depends_acyclic b i : wf b → ¬ tc (depends b) i i.
Proof.
  intros Hw. assert (∀ x y, tc (depends b) x y → (pipe_order b y < pipe_order b x)%nat) as Hdown.
  { induction 1 as [x y Hd|x y z Hd _ IH]; apply depends_down in Hd; [done|done|lia|done]. }
  intros Ht%Hdown. lia.
Qed.
End Runs.

Section Plan.
  Context `{OtherPlansOk} `{PhysicalOps} (rank : Z → nat) (plan : LogicalOperator) (Hpl : plannable rank plan).

(** What a filter operator was made from. *)
Lemma filter_made st id p :
  planner_ok plan st → st.(plans) !! id = Some p →
  match p.(pkind) with
  | POther _ => True
  | PCreateBF _ => length p.(pchildren) = 1%nat
  | PUseBF _ related => length p.(pchildren) = 1%nat ∧
      ∃ op, op ∈ suboperators plan ∧ type op = LOGICAL_USE_BF ∧ plans_of st (info op).(related_create_bf) related
  end.
Proof.
  intros Hok Hp. destruct (po_made _ _ Hok id p Hp) as [[t ->]|(op & Hop & Hf & _ & Hin)]; [done|].
  destruct (po_right _ _ Hok _ _ Hin) as [(op' & cs & Hop' & Ha & Hcs & Hm) _].
  assert (op' = op) as -> by (by apply (sub_address_inj plan); [apply (pl_addresses _ _ Hpl)|..]).
  destruct (pl_unary _ _ Hpl op Hop Hf) as [c Hc]. apply Forall2_length in Hcs. rewrite Hc in Hcs. simpl in Hcs.
  destruct (type op) eqn:Ht; try done; [|destruct Hm as (related & Hrel & Hm)]; rewrite Hp in Hm; injection Hm as ->; simpl; eauto.
Qed.

(** The plan of a [LogicalCreateBF] is a [PhysicalCreateBF]. *)
Lemma creator_made st c id :
  planner_ok plan st → c ∈ suboperators plan → type c = LOGICAL_CREATE_BF → (address c, id) ∈ st.(planned) →
  ∃ q fs, st.(plans) !! id = Some q ∧ q.(pkind) = PCreateBF fs.
Proof.
  intros Hok Hc Ht Hin. destruct (po_right _ _ Hok _ _ Hin) as [(op' & cs & Hop' & Ha & _ & Hm) _].
  assert (op' = c) as -> by (by apply (sub_address_inj plan); [apply (pl_addresses _ _ Hpl)|..]). rewrite Ht in Hm. eauto.
Qed.

(** Operators are made after what they point to. *)
Lemma plan_runnable st : planner_ok plan st → shaped st.(plans) = true → runnable st.(plans) (λ id, id) (length st.(plans)).
Proof.
  intros Hok Hshape. assert (∀ id p c, st.(plans) !! id = Some p → c ∈ points_to p → (c < id)%nat) as Hdown by apply (po_down _ _ Hok).
  split.
  - done.
  - intros id p c Hp Hc. assert (c < id)%nat by (eapply Hdown; [done|]; unfold points_to; set_solver). apply lookup_lt_Some in Hp. lia.
  - intros id p fs related c Hp Hk Hc. split; [eapply Hdown; [done|]; unfold points_to; rewrite Hk; set_solver|].
    pose proof (filter_made st id p Hok Hp) as Hm. rewrite Hk in Hm. destruct Hm as (_ & op & Hop & Ht & Hrel).
    destruct (plans_of_elem _ _ _ _ Hrel Hc) as (a & Ha & Hin). destruct (pl_related _ _ Hpl op a Hop Ht Ha) as (cr & Hcr & Hct & <- & _).
    by eapply creator_made.
  - intros id p Hp. pose proof (filter_made st id p Hok Hp) as Hm. by destruct p.(pkind); [|destruct Hm|].
  - intros id p Hp. unfold shaped in Hshape. rewrite forallb_forall in Hshape. by apply Hshape, list_elem_of_In, (list_elem_of_lookup_2 _ id).
Qed.
End Plan.

Section Built.
  Context `{OtherPlansOk} `{PhysicalOps}.

Lemma plan_built rank plan root st :
  plannable rank plan → PlanQuery plan = Ret (root, st) → shaped st.(plans) = true →
  ∃ w top b, runnable st.(plans) w top ∧ build_plan st.(plans) root no_pipelines = Ret (0%nat, b) ∧ wf w top b ∧
    (0 < length b.(metas))%nat ∧ ∀ i, (i < length b.(pipes))%nat → served st.(plans) b i ∧ has_source b i.
Proof.
  intros Hpl Hq Hsh. destruct (PlanQuery_ok rank plan Hpl) as (root' & st' & Hq' & Hroot & _ & Hok). rewrite Hq in Hq'. simplify_eq.
  pose proof (plan_runnable rank plan Hpl st' Hok Hsh) as Hru. destruct (po_right _ _ Hok _ _ Hroot) as [_ Hlt].
  destruct (build_plan_ok _ _ _ root' Hru) as (b & E & Hw & Hm & Hall); [done|done|]. eauto 8.
Qed.

(** C22: the pipelines of a plan with filters.  [build_plan] returns; all
    pipelines have a source; a pipeline in which rows are filtered waits, by
    its own dependencies and those of its meta pipelines, for the pipelines
    that end in the [PhysicalCreateBF]s of these filters; and no pipeline waits
    for itself. *)
Theorem pipelines_wait_for_filters rank plan root st :
  plannable rank plan → PlanQuery plan = Ret (root, st) → shaped st.(plans) = true →
  ∃ b, build_plan st.(plans) root no_pipelines = Ret (0%nat, b) ∧
    (∀ i, (i < length b.(pipes))%nat → served st.(plans) b i ∧ has_source b i) ∧ ∀ i, ¬ tc (depends b) i i.
Proof.
  intros Hpl Hq Hsh. destruct (plan_built rank plan root st Hpl Hq Hsh) as (w & top & b & _ & E & Hw & _ & Hall).
  exists b. split_and!; [done|done|]. intros i. by eapply depends_acyclic.
Qed.
End Built.
