(* ===== verification/PipelineExecutor.v ===== *)
(** * PipelineExecutor: pushing chunks through a pipeline

    [PipelineExecutor] of [parallel/pipeline_executor.cpp]: a task fetches
    chunks from the source of a pipeline, pushes each through the operators
    into the sink, and at the end flushes the operators that keep rows back.
    An operator may need several calls for one chunk, the source and the sink
    may block, and a task that stopped for either goes on where it was.
    Chunks, operators, source and sink are an interface; the buffers between
    the operators are a store, to which inputs and results are references. *)

From S2P Require Import Prelude VectorHash Storage UseBF Pipelines.
Local Open Scope Z_scope.
Local Open Scope machine_scope.

(** ** Interfaces *)

(** Chunks of rows. *)
Class Chunks (C Row : Type) := { reset_chunk : C; chunk_size : C → Z; rows : C → list Row }.

Inductive SourceResultType := SourceHaveMoreOutput | SourceFinished | SourceBlocked.
#[export] Instance SourceResultType_eq_dec : EqDecision SourceResultType.
Proof. solve_decision. Defined.
Inductive SinkResultType := SinkNeedMoreInput | SinkFinished | SinkBlocked.
Inductive SinkCombineResultType := CombineFinished | CombineBlocked.
Inductive SinkNextBatchType := NextBatchReady | NextBatchBlocked.
Inductive OperatorFinalizeResultType := FinalHaveMoreOutput | FinalFinished.
Inductive PipelineExecuteResult := ExecuteFinished | NotFinished | Interrupted.
Inductive TaskExecutionMode := PROCESS_ALL | PROCESS_PARTIAL.
Inductive TaskExecutionResult := TASK_FINISHED | TASK_NOT_FINISHED | TASK_ERROR | TASK_BLOCKED.

Definition PARTIAL_CHUNK_COUNT : Z := 50.

Section Executor.
  Context {C Row OS Src Snk : Type} `{Chunks C Row}.

(** The functions of an operator the executor calls; [op_no_output] tells that
    it is a sink whose other side leaves nothing to do. *)
Record operator := mkOperator {
  op_Execute : C → OS → outcome (OperatorResultType * C * OS);
  op_RequiresFinalExecute : bool;
  op_FinalExecute : OS → outcome (OperatorFinalizeResultType * C * OS);
  op_no_output : bool
}.

Record source := mkSource {
  src_GetData : Src → outcome (SourceResultType * C * Src);
  src_GetBatchIndex : C → Src → outcome Z
}.

(** [snk_requires_batch_index]: the sink asks for batch indexes and the source
    has them. *)
Record sink := mkSink {
  snk_Sink : C → Snk → outcome (SinkResultType * Snk);
  snk_Combine : Snk → outcome (SinkCombineResultType * Snk);
  snk_NextBatch : Snk → outcome (SinkNextBatchType * Snk);
  snk_requires_batch_index : bool
}.

(** [pipeline]; [interrupted] is set when the user cancels the query. *)
Record pipeline := mkPipe {
  p_operators : list operator;
  p_source : source;
  p_sink : sink;
  p_base_batch_index : Z;
  interrupted : bool
}.

(** ** The state of an executor *)

(** Where a chunk is. *)
Inductive chunk_ref := FinalChunk | Intermediate (i : nat).

Record executor := mkExecutor {
  intermediate_chunks : list C;
  intermediate_states : list OS;
  local_source_state : Src;
  local_sink_state : Snk;
  final_chunk : C;
  in_process_operators : list nat;
  finalized : bool;
  finished_processing_idx : Z;
  exhausted_source : bool;
  started_flushing : bool;
  done_flushing : bool;
  remaining_sink_chunk : bool;
  next_batch_blocked : bool;
  flushing_idx : nat;
  should_flush_current_idx : bool;
  batch_index : Z;
  min_batch_index : Z;
  batch_indexes : list Z
}.

Definition set_chunks l f st := mkExecutor l st.(intermediate_states) st.(local_source_state) st.(local_sink_state) f st.(in_process_operators) st.(finalized) st.(finished_processing_idx) st.(exhausted_source) st.(started_flushing) st.(done_flushing) st.(remaining_sink_chunk) st.(next_batch_blocked) st.(flushing_idx) st.(should_flush_current_idx) st.(batch_index) st.(min_batch_index) st.(batch_indexes).
Definition set_states l st := mkExecutor st.(intermediate_chunks) l st.(local_source_state) st.(local_sink_state) st.(final_chunk) st.(in_process_operators) st.(finalized) st.(finished_processing_idx) st.(exhausted_source) st.(started_flushing) st.(done_flushing) st.(remaining_sink_chunk) st.(next_batch_blocked) st.(flushing_idx) st.(should_flush_current_idx) st.(batch_index) st.(min_batch_index) st.(batch_indexes).
Definition set_source s e st := mkExecutor st.(intermediate_chunks) st.(intermediate_states) s st.(local_sink_state) st.(final_chunk) st.(in_process_operators) st.(finalized) st.(finished_processing_idx) e st.(started_flushing) st.(done_flushing) st.(remaining_sink_chunk) st.(next_batch_blocked) st.(flushing_idx) st.(should_flush_current_idx) st.(batch_index) st.(min_batch_index) st.(batch_indexes).
Definition set_sink k st := mkExecutor st.(intermediate_chunks) st.(intermediate_states) st.(local_source_state) k st.(final_chunk) st.(in_process_operators) st.(finalized) st.(finished_processing_idx) st.(exhausted_source) st.(started_flushing) st.(done_flushing) st.(remaining_sink_chunk) st.(next_batch_blocked) st.(flushing_idx) st.(should_flush_current_idx) st.(batch_index) st.(min_batch_index) st.(batch_indexes).
Definition set_in_process l st := mkExecutor st.(intermediate_chunks) st.(intermediate_states) st.(local_source_state) st.(local_sink_state) st.(final_chunk) l st.(finalized) st.(finished_processing_idx) st.(exhausted_source) st.(started_flushing) st.(done_flushing) st.(remaining_sink_chunk) st.(next_batch_blocked) st.(flushing_idx) st.(should_flush_current_idx) st.(batch_index) st.(min_batch_index) st.(batch_indexes).
Definition set_finished i st := mkExecutor st.(intermediate_chunks) st.(intermediate_states) st.(local_source_state) st.(local_sink_state) st.(final_chunk) st.(in_process_operators) st.(finalized) i st.(exhausted_source) st.(started_flushing) st.(done_flushing) st.(remaining_sink_chunk) st.(next_batch_blocked) st.(flushing_idx) st.(should_flush_current_idx) st.(batch_index) st.(min_batch_index) st.(batch_indexes).
Definition set_flushing b i s st := mkExecutor st.(intermediate_chunks) st.(intermediate_states) st.(local_source_state) st.(local_sink_state) st.(final_chunk) st.(in_process_operators) st.(finalized) st.(finished_processing_idx) st.(exhausted_source) b st.(done_flushing) st.(remaining_sink_chunk) st.(next_batch_blocked) i s st.(batch_index) st.(min_batch_index) st.(batch_indexes).
Definition set_done_flushing b st := mkExecutor st.(intermediate_chunks) st.(intermediate_states) st.(local_source_state) st.(local_sink_state) st.(final_chunk) st.(in_process_operators) st.(finalized) st.(finished_processing_idx) st.(exhausted_source) st.(started_flushing) b st.(remaining_sink_chunk) st.(next_batch_blocked) st.(flushing_idx) st.(should_flush_current_idx) st.(batch_index) st.(min_batch_index) st.(batch_indexes).
Definition set_remaining b st := mkExecutor st.(intermediate_chunks) st.(intermediate_states) st.(local_source_state) st.(local_sink_state) st.(final_chunk) st.(in_process_operators) st.(finalized) st.(finished_processing_idx) st.(exhausted_source) st.(started_flushing) st.(done_flushing) b st.(next_batch_blocked) st.(flushing_idx) st.(should_flush_current_idx) st.(batch_index) st.(min_batch_index) st.(batch_indexes).
Definition set_batch_blocked b st := mkExecutor st.(intermediate_chunks) st.(intermediate_states) st.(local_source_state) st.(local_sink_state) st.(final_chunk) st.(in_process_operators) st.(finalized) st.(finished_processing_idx) st.(exhausted_source) st.(started_flushing) st.(done_flushing) st.(remaining_sink_chunk) b st.(flushing_idx) st.(should_flush_current_idx) st.(batch_index) st.(min_batch_index) st.(batch_indexes).
Definition set_batch b m l st := mkExecutor st.(intermediate_chunks) st.(intermediate_states) st.(local_source_state) st.(local_sink_state) st.(final_chunk) st.(in_process_operators) st.(finalized) st.(finished_processing_idx) st.(exhausted_source) st.(started_flushing) st.(done_flushing) st.(remaining_sink_chunk) st.(next_batch_blocked) st.(flushing_idx) st.(should_flush_current_idx) b m l.
Definition set_finalized b st := mkExecutor st.(intermediate_chunks) st.(intermediate_states) st.(local_source_state) st.(local_sink_state) st.(final_chunk) st.(in_process_operators) b st.(finished_processing_idx) st.(exhausted_source) st.(started_flushing) st.(done_flushing) st.(remaining_sink_chunk) st.(next_batch_blocked) st.(flushing_idx) st.(should_flush_current_idx) st.(batch_index) st.(min_batch_index) st.(batch_indexes).

Definition load (r : chunk_ref) (st : executor) : outcome C :=
  match r with FinalChunk => Ret st.(final_chunk) | Intermediate i => vec_at st.(intermediate_chunks) i end.

Definition store (r : chunk_ref) (c : C) (st : executor) : outcome executor :=
  match r with
  | FinalChunk => Ret (set_chunks st.(intermediate_chunks) c st)
  | Intermediate i => let* _ := vec_at st.(intermediate_chunks) i in Ret (set_chunks (<[i := c]> st.(intermediate_chunks)) st.(final_chunk) st)
  end.

(** The buffer an operator writes: the final chunk after the last one. *)
Definition chunk_at (i : nat) (st : executor) : chunk_ref := if decide (length st.(intermediate_chunks) ≤ i)%nat then FinalChunk else Intermediate i.

Context (pipe : pipeline).

Definition check_interrupted : outcome unit := if pipe.(interrupted) then Throw "Interrupted!" else Ret tt.

(** [FinishProcessing] and [IsFinished]. *)
Definition FinishProcessing (operator_idx : Z) (st : executor) : executor :=
  set_in_process [] (set_finished (if operator_idx <? 0 then 2 ^ 31 - 1 else operator_idx) st).

Definition IsFinished (st : executor) : bool := 0 <=? st.(finished_processing_idx).

(** ** Pushing a chunk *)

(** [GoToSource]: the operator to go on with. *)
Definition GoToSource (st : executor) (initial_idx : nat) : nat * executor :=
  match st.(in_process_operators) with [] => (initial_idx, st) | top :: l => (top, set_in_process l st) end.

(** The call of one operator: its result, and the size of the chunk it wrote. *)
Definition call_operator (input : chunk_ref) (initial_idx current_idx : nat) (st : executor) : outcome (OperatorResultType * Z * executor) :=
  let* prev := load (if decide (current_idx = S initial_idx) then input else Intermediate (current_idx - 1)) st in
  let* op := vec_at pipe.(p_operators) (current_idx - 1) in
  let* _ := check_interrupted in
  let* s := vec_at st.(intermediate_states) (current_idx - 1) in
  let* (result, c, s) := op.(op_Execute) prev s in
  let* st := store (chunk_at current_idx st) c (set_states (<[(current_idx - 1)%nat := s]> st.(intermediate_states)) st) in
  Ret (result, chunk_size c, st).

(** The loop of [Execute(input, result, initial_idx)]. *)
Fixpoint execute_operators (fuel : nat) (input : chunk_ref) (initial_idx current_idx : nat) (st : executor) : outcome (OperatorResultType * executor) :=
  match fuel with
  | O => NoFuel
  | S fuel =>
      let* _ := check_interrupted in
      let* st := store (chunk_at current_idx st) reset_chunk st in
      if decide (current_idx = initial_idx) then Ret (NEED_MORE_INPUT, st) else
      let* (result, size, st) := call_operator input initial_idx current_idx st in
      match result with
      | FINISHED => Ret (FINISHED, FinishProcessing (Z.of_nat current_idx) st)
      | _ =>
          let st := match result with HAVE_MORE_OUTPUT => set_in_process (current_idx :: st.(in_process_operators)) st | _ => st end in
          if size =? 0 then let (current_idx, st) := GoToSource st initial_idx in execute_operators fuel input initial_idx current_idx st
          else if decide (length pipe.(p_operators) < S current_idx)%nat
          then Ret (match st.(in_process_operators) with [] => NEED_MORE_INPUT | _ => HAVE_MORE_OUTPUT end, st)
          else execute_operators fuel input initial_idx (S current_idx) st
      end
  end.

(** [Execute(input, result, initial_idx)]; the result is the final chunk. *)
Definition Execute_chunk (fuel : nat) (input : chunk_ref) (initial_idx : nat) (st : executor) : outcome (OperatorResultType * executor) :=
  let* c := load input st in
  if chunk_size c =? 0 then Ret (NEED_MORE_INPUT, st) else
  let (current_idx, st) := GoToSource st initial_idx in
  let current_idx := if decide (current_idx = initial_idx) then S current_idx else current_idx in
  if decide (length pipe.(p_operators) < current_idx)%nat then let* st := store FinalChunk c st in Ret (NEED_MORE_INPUT, st)
  else execute_operators fuel input initial_idx current_idx st.

(** Handing the final chunk to the sink. *)
Definition push_sink (st : executor) : outcome (SinkResultType * executor) :=
  if 0 <? chunk_size st.(final_chunk) then
    let* _ := check_interrupted in
    let* (r, k) := pipe.(p_sink).(snk_Sink) st.(final_chunk) st.(local_sink_state) in
    Ret (r, set_sink k st)
  else Ret (SinkNeedMoreInput, st).

(** [ExecutePushInternal]. *)
Fixpoint push_loop (fuel : nat) (input : chunk_ref) (initial_idx : nat) (st : executor) : outcome (OperatorResultType * executor) :=
  match fuel with
  | O => NoFuel
  | S fuel' =>
      let* (result, st) := match input with
        | FinalChunk => Ret (NEED_MORE_INPUT, st)
        | Intermediate _ => Execute_chunk fuel input initial_idx (set_chunks st.(intermediate_chunks) reset_chunk st)
        end in
      match result with
      | FINISHED => Ret (FINISHED, st)
      | _ =>
          let* (r, st) := push_sink st in
          match r with
          | SinkBlocked => Ret (BLOCKED, st)
          | SinkFinished => Ret (FINISHED, FinishProcessing (-1) st)
          | SinkNeedMoreInput => match result with NEED_MORE_INPUT => Ret (NEED_MORE_INPUT, st) | _ => push_loop fuel' input initial_idx st end
          end
      end
  end.

Definition ExecutePushInternal (fuel : nat) (input : chunk_ref) (initial_idx : nat) (st : executor) : outcome (OperatorResultType * executor) :=
  let* c := load input st in
  if chunk_size c =? 0 then Ret (NEED_MORE_INPUT, st) else push_loop fuel input initial_idx st.

(** ** Flushing *)

(** [FinalExecute] of the operator that is flushed. *)
Definition final_execute (op : operator) (st : executor) : outcome (OperatorFinalizeResultType * executor) :=
  let* st := store (chunk_at (S st.(flushing_idx)) st) reset_chunk st in
  let* _ := check_interrupted in
  let* s := vec_at st.(intermediate_states) st.(flushing_idx) in
  let* (r, c, s) := op.(op_FinalExecute) s in
  let* st := store (chunk_at (S st.(flushing_idx)) st) c (set_states (<[st.(flushing_idx) := s]> st.(intermediate_states)) st) in
  Ret (r, st).

Fixpoint flush_loop (fuel : nat) (st : executor) : outcome (bool * executor) :=
  match fuel with
  | O => NoFuel
  | S fuel' =>
      if decide (st.(flushing_idx) < length pipe.(p_operators))%nat then
        let* op := vec_at pipe.(p_operators) st.(flushing_idx) in
        if negb op.(op_RequiresFinalExecute) then flush_loop fuel' (set_flushing st.(started_flushing) (S st.(flushing_idx)) st.(should_flush_current_idx) st) else
        let none := match st.(in_process_operators) with [] => true | _ => false end in
        if negb st.(should_flush_current_idx) && none then flush_loop fuel' (set_flushing st.(started_flushing) (S st.(flushing_idx)) true st) else
        let* (finalize_result, st) := if none then final_execute op st else Ret (FinalHaveMoreOutput, st) in
        let* (push_result, st) := ExecutePushInternal fuel (chunk_at (S st.(flushing_idx)) st) (S st.(flushing_idx)) st in
        let st := set_flushing st.(started_flushing) st.(flushing_idx) (match finalize_result with FinalHaveMoreOutput => true | FinalFinished => false end) st in
        match push_result with
        | BLOCKED => Ret (false, set_remaining true st)
        | FINISHED => Ret (true, st)
        | _ => flush_loop fuel' st
        end
      else Ret (true, st)
  end.

(** [TryFlushCachingOperators]. *)
Definition TryFlushCachingOperators (fuel : nat) (st : executor) : outcome (bool * executor) :=
  let st := if st.(started_flushing) then st
    else set_flushing true (if IsFinished st then Z.to_nat st.(finished_processing_idx) else 0%nat) st.(should_flush_current_idx) st in
  flush_loop fuel st.

(** ** Batches *)

(** The least of the active batch indexes. *)
Definition least_index (l : list Z) : option Z := match l with [] => None | x :: l => Some (foldr Z.min x l) end.

Definition RegisterNewBatchIndex (l : list Z) : Z * list Z :=
  let minimum := default pipe.(p_base_batch_index) (least_index l) in (minimum, minimum :: l).

Definition UpdateBatchIndex (old_index new_index : Z) (l : list Z) : outcome (Z * list Z) :=
  let* least := deref (least_index l) in
  if new_index <? least then Throw "Processing batch index, but previous min batch index was" else
  if decide (old_index ∈ l) then
    match list_find (λ i, i = old_index) l with
    | Some (p, _) => let l := new_index :: delete p l in let* least := deref (least_index l) in Ret (least, l)
    | None => Undef
    end
  else Throw "Batch index was not found in set of active batch indexes".

(** [NextBatch]. *)
Definition NextBatch (source_chunk : C) (st : executor) : outcome (SinkNextBatchType * executor) :=
  let max_batch_index := wrap 64 (pipe.(p_base_batch_index) + BATCH_INCREMENT - 1) in
  let* next_batch_index := if chunk_size source_chunk =? 0 then Ret max_batch_index else
    let* batch_index := pipe.(p_source).(src_GetBatchIndex) source_chunk st.(local_source_state) in
    let next := wrap 64 (pipe.(p_base_batch_index) + batch_index + 1) in
    if max_batch_index <=? next then Throw "Pipeline batch index - invalid batch index returned by source operator" else Ret next in
  if next_batch_index =? st.(batch_index) then Ret (NextBatchReady, st) else
  if next_batch_index <? st.(batch_index) then Throw "Pipeline batch index - gotten lower batch index" else
  let current_batch := st.(batch_index) in
  let* (r, k) := pipe.(p_sink).(snk_NextBatch) st.(local_sink_state) in
  let st := set_sink k st in
  match r with
  | NextBatchBlocked => Ret (NextBatchBlocked, st)
  | NextBatchReady =>
      let* (m, l) := UpdateBatchIndex current_batch next_batch_index st.(batch_indexes) in
      Ret (NextBatchReady, set_batch next_batch_index m l st)
  end.

(** ** Execution *)

Definition source_chunk_ref : chunk_ref := match pipe.(p_operators) with [] => FinalChunk | _ => Intermediate 0 end.

(** [FetchFromSource] into the source chunk. *)
Definition FetchFromSource (st : executor) : outcome (SourceResultType * executor) :=
  let* st := store source_chunk_ref reset_chunk st in
  let* _ := check_interrupted in
  let* (r, c, s) := pipe.(p_source).(src_GetData) st.(local_source_state) in
  let* st := store source_chunk_ref c (set_source s st.(exhausted_source) st) in
  Ret (r, st).

(** What one round of [Execute(max_chunks)] does next: return, leave the loop,
    or go on after pushing a chunk or without one. *)
Inductive round := Return (r : PipelineExecuteResult) | Break | Pushed (r : OperatorResultType) | Continue.

Definition next_round (fuel : nat) (st : executor) : outcome (round * executor) :=
  let* _ := check_interrupted in
  let none := match st.(in_process_operators) with [] => true | _ => false end in
  if st.(exhausted_source) && st.(done_flushing) && negb st.(remaining_sink_chunk) && negb st.(next_batch_blocked) && none then Ret (Break, st)
  else if st.(remaining_sink_chunk) then
    let* (result, st) := ExecutePushInternal fuel FinalChunk 0 st in
    Ret (Pushed result, set_remaining false st)
  else if negb none && negb st.(started_flushing) then
    let* (result, st) := ExecutePushInternal fuel source_chunk_ref 0 st in Ret (Pushed result, st)
  else if st.(exhausted_source) && negb st.(next_batch_blocked) && negb st.(done_flushing) then
    let* (completed, st) := TryFlushCachingOperators fuel st in
    if completed : bool then Ret (Break, set_done_flushing true st) else Ret (Return Interrupted, st)
  else if negb st.(exhausted_source) || st.(next_batch_blocked) then
    let* (blocked, st) := if st.(next_batch_blocked) then Ret (false, st) else
      let* (r, st) := FetchFromSource st in
      match r with
      | SourceBlocked => Ret (true, st)
      | SourceFinished => Ret (false, set_source st.(local_source_state) true st)
      | SourceHaveMoreOutput => Ret (false, st)
      end in
    if blocked : bool then Ret (Return Interrupted, st) else
    let* (blocked, st) := if pipe.(p_sink).(snk_requires_batch_index) then
      let* c := load source_chunk_ref st in
      let* (r, st) := NextBatch c st in
      let b := match r with NextBatchBlocked => true | NextBatchReady => false end in Ret (b, set_batch_blocked b st)
      else Ret (false, st) in
    if blocked : bool then Ret (Return Interrupted, st) else
    let* c := load source_chunk_ref st in
    if st.(exhausted_source) && (chunk_size c =? 0) then Ret (Continue, st) else
    let* (result, st) := ExecutePushInternal fuel source_chunk_ref 0 st in Ret (Pushed result, st)
  else Throw "Unexpected state reached in pipeline executor".

Fixpoint execute_rounds (fuel : nat) (i max_chunks : Z) (st : executor) : outcome (option PipelineExecuteResult * executor) :=
  if i <? max_chunks then
    match fuel with
    | O => NoFuel
    | S fuel' =>
        let* (r, st) := next_round fuel st in
        match r with
        | Return r => Ret (Some r, st)
        | Break => Ret (None, st)
        | Continue => execute_rounds fuel' (i + 1) max_chunks st
        | Pushed BLOCKED => Ret (Some Interrupted, set_remaining true st)
        | Pushed FINISHED => Ret (None, st)
        | Pushed _ => execute_rounds fuel' (i + 1) max_chunks st
        end
    end
  else Ret (None, st).

(** [PushFinalize]. *)
Definition PushFinalize (st : executor) : outcome (PipelineExecuteResult * executor) :=
  if st.(finalized) then Throw "Calling PushFinalize on a pipeline that has been finalized already" else
  let* (r, k) := pipe.(p_sink).(snk_Combine) st.(local_sink_state) in
  let st := set_sink k st in
  match r with CombineBlocked => Ret (Interrupted, st) | CombineFinished => Ret (ExecuteFinished, set_finalized true st) end.

(** [Execute(max_chunks)]. *)
Definition Execute_pipeline (fuel : nat) (max_chunks : Z) (st : executor) : outcome (PipelineExecuteResult * executor) :=
  let* (r, st) := execute_rounds fuel 0 max_chunks st in
  match r with
  | Some r => Ret (r, st)
  | None =>
      if (negb st.(exhausted_source) || negb st.(done_flushing)) && negb (IsFinished st) then Ret (NotFinished, st) else PushFinalize st
  end.

(** The constructor. *)
Definition new_executor (states : list OS) (s : Src) (k : Snk) (l : list Z) : executor :=
  let '(b, l) := if pipe.(p_sink).(snk_requires_batch_index) then RegisterNewBatchIndex l else (0, l) in
  let st := mkExecutor (replicate (length pipe.(p_operators)) reset_chunk) states s k reset_chunk [] false (-1) false false false false false 0 true b b l in
  if existsb op_no_output pipe.(p_operators) then FinishProcessing (-1) st else st.

(** *** Pulling *)

(** The wait for a source that blocks. *)
Fixpoint await_source (fuel : nat) (st : executor) : outcome (SourceResultType * executor) :=
  match fuel with
  | O => NoFuel
  | S fuel => let* (r, st) := FetchFromSource st in match r with SourceBlocked => await_source fuel st | _ => Ret (r, st) end
  end.

(** The loop of [ExecutePull]; the result is the final chunk. *)
Fixpoint pull_loop (fuel : nat) (st : executor) : outcome executor :=
  match fuel with
  | O => NoFuel
  | S fuel' =>
      let none := match st.(in_process_operators) with [] => true | _ => false end in
      if (chunk_size st.(final_chunk) =? 0) && (negb st.(exhausted_source) || negb none) then
        let* (stop, st) := if none then
            let* (r, st) := await_source fuel st in
            match r with
            | SourceFinished =>
                let st := set_source st.(local_source_state) true st in
                let* c := load source_chunk_ref st in Ret (chunk_size c =? 0, st)
            | _ => Ret (false, st)
            end
          else Ret (false, st) in
        if stop : bool then Ret st else
        match pipe.(p_operators) with
        | [] => pull_loop fuel' st
        | _ =>
            let* (r, st) := Execute_chunk fuel source_chunk_ref 0 st in
            match r with FINISHED => Ret st | _ => pull_loop fuel' st end
        end
      else Ret st
  end.

(** [ExecutePull] into a fresh chunk, and [PullFinalize]. *)
Definition ExecutePull (fuel : nat) (st : executor) : outcome executor :=
  let st := set_chunks st.(intermediate_chunks) reset_chunk st in
  if IsFinished st then Ret st else pull_loop fuel st.

Definition PullFinalize (st : executor) : outcome executor :=
  if st.(finalized) then Throw "Calling PullFinalize on a pipeline that has been finalized already" else Ret (set_finalized true st).

(** The chunks [Executor::FetchChunk] gets from the last pipeline, up to the
    empty one: their rows. *)
Fixpoint fetch_chunks (calls fuel : nat) (st : executor) : outcome (list Row * executor) :=
  match calls with
  | O => NoFuel
  | S calls =>
      let* st := ExecutePull fuel st in
      if chunk_size st.(final_chunk) =? 0 then let* st := PullFinalize st in Ret ([], st) else
      let* (l, st') := fetch_chunks calls fuel st in Ret (rows st.(final_chunk) ++ l, st')
  end.

(** *** Tasks *)

(** [PipelineTask::ExecuteTask], up to the end of the event. *)
Definition ExecuteTask_pipeline (mode : TaskExecutionMode) (fuel : nat) (st : executor) : outcome (TaskExecutionResult * executor) :=
  let* (res, st) := Execute_pipeline fuel (match mode with PROCESS_PARTIAL => PARTIAL_CHUNK_COUNT | PROCESS_ALL => 2 ^ 64 - 1 end) st in
  match res, mode with
  | NotFinished, PROCESS_PARTIAL => Ret (TASK_NOT_FINISHED, st)
  | NotFinished, PROCESS_ALL => Throw "Execute without limit should not return NOT_FINISHED"
  | Interrupted, _ => Ret (TASK_BLOCKED, st)
  | ExecuteFinished, _ => Ret (TASK_FINISHED, st)
  end.

(** The calls of a task, in these modes, until one of them finishes. *)
Fixpoint run_calls (fuel : nat) (modes : list TaskExecutionMode) (st : executor) : outcome (bool * executor) :=
  match modes with
  | [] => Ret (false, st)
  | mode :: modes =>
      let* (r, st) := ExecuteTask_pipeline mode fuel st in
      match r with TASK_FINISHED => Ret (true, st) | _ => run_calls fuel modes st end
  end.
End Executor.

(** ** Laws *)

Class ChunksOk (C Row : Type) `{Chunks C Row} := {
  good_chunk : C → Prop;
  good_reset : good_chunk reset_chunk;
  reset_rows : rows reset_chunk = [];
  chunk_size_rows : ∀ c, good_chunk c → chunk_size c = Z.of_nat (length (rows c))
}.

Section Laws.
  Context {C Row OS Src Snk : Type} `{ChunksOk C Row}.

(** An operator that turns each row into some rows.  It may keep output back
    ([kept]) until it is flushed, and may need more calls with the same chunk
    ([at_chunk]), with output still to come ([todo]). *)
Record operator_laws (o : operator (C := C) (OS := OS)) := mkLaws {
  good_state : OS → Prop;
  on_row : Row → list Row;
  kept : OS → list Row;
  todo : OS → list Row;
  at_chunk : OS → option C;
  calls : OS → nat;
  law_fresh : ∀ s, good_state s → at_chunk s = None → todo s = [];
  law_keeps : o.(op_RequiresFinalExecute) = false → ∀ s, good_state s → kept s = [];
  law_execute : ∀ c s, good_state s → good_chunk c → chunk_size c ≠ 0 → at_chunk s = None ∨ at_chunk s = Some c →
    ∃ r out s', o.(op_Execute) c s = Ret (r, out, s') ∧ good_state s' ∧ good_chunk out ∧
      rows out ++ kept s' ++ todo s' ≡ₚ kept s ++ match at_chunk s with Some _ => todo s | None => flat_map on_row (rows c) end ∧
      (r = NEED_MORE_INPUT ∧ at_chunk s' = None ∨ r = HAVE_MORE_OUTPUT ∧ at_chunk s' = Some c ∧ (at_chunk s = Some c → (calls s' < calls s)%nat));
  law_final : o.(op_RequiresFinalExecute) = true → ∀ s, good_state s → at_chunk s = None →
    ∃ r out s', o.(op_FinalExecute) s = Ret (r, out, s') ∧ good_state s' ∧ good_chunk out ∧ at_chunk s' = None ∧ rows out ++ kept s' ≡ₚ kept s ∧
      (r = FinalFinished ∧ kept s' = [] ∨ r = FinalHaveMoreOutput ∧ (calls s' < calls s)%nat)
}.
Arguments mkLaws {o}.
Arguments good_state {o}.
Arguments on_row {o}.
Arguments kept {o}.
Arguments todo {o}.
Arguments at_chunk {o}.
Arguments calls {o}.
Arguments law_fresh {o}.
Arguments law_keeps {o}.
Arguments law_execute {o}.
Arguments law_final {o}.

Definition lawful : Type := { o : operator (C := C) (OS := OS) & operator_laws o }.

Definition op_of (o : lawful) : operator := projT1 o.
Definition laws (o : lawful) : operator_laws (op_of o) := projT2 o.

(** A sink that takes every chunk, after blocking a bounded number of times. *)
Record sink_laws (k : sink (C := C) (Snk := Snk)) := mkSinkLaws {
  good_sink : Snk → Prop;
  received : Snk → list Row;
  blocks : Snk → nat;
  combined : Snk → Prop;
  law_sink : ∀ c s, good_sink s → good_chunk c → chunk_size c ≠ 0 →
    ∃ r s', k.(snk_Sink) c s = Ret (r, s') ∧ good_sink s' ∧
      (r = SinkNeedMoreInput ∧ received s' ≡ₚ received s ++ rows c ∧ (blocks s' ≤ blocks s)%nat ∨ r = SinkBlocked ∧ received s' ≡ₚ received s ∧ (blocks s' < blocks s)%nat);
  law_combine : ∀ s, good_sink s →
    ∃ r s', k.(snk_Combine) s = Ret (r, s') ∧ received s' ≡ₚ received s ∧ (r = CombineFinished ∧ combined s' ∨ r = CombineBlocked ∧ good_sink s' ∧ (blocks s' < blocks s)%nat)
}.

(** A source that gives its rows, after a bounded number of calls. *)
Record source_laws (o : source (C := C) (Src := Src)) := mkSourceLaws {
  good_source : Src → Prop;
  rest : Src → list Row;
  fetches : Src → nat;
  law_get : ∀ s, good_source s →
    ∃ r c s', o.(src_GetData) s = Ret (r, c, s') ∧ good_chunk c ∧ rows c ++ rest s' ≡ₚ rest s ∧
      (r = SourceFinished ∧ rest s' = [] ∨ good_source s' ∧ (fetches s' < fetches s)%nat ∧ (r = SourceHaveMoreOutput ∨ r = SourceBlocked ∧ rows c = []))
}.

(** The rows that come out of operators for the rows that go in. *)
Fixpoint through (ops : list lawful) (rs : list Row) : list Row :=
  match ops with [] => rs | o :: ops => through ops (flat_map (on_row (laws o)) rs) end.

(** The rows operators owe to the sink. *)
Fixpoint owed (ops : list lawful) (ss : list OS) : list Row :=
  match ops, ss with
  | o :: ops, s :: ss => through ops (kept (laws o) s ++ todo (laws o) s) ++ owed ops ss
  | _, _ => []
  end.

#[export] Instance through_proper ops : Proper (Permutation ==> Permutation) (through ops).
Proof.
  induction ops as [|o ops IH]; intros l l' Hl; [done|]. cbn [through]. apply IH. by apply Permutation_flat_map.
Qed.

Lemma through_app ops l l' : through ops (l ++ l') = through ops l ++ through ops l'.
Proof. revert l l'. induction ops as [|o ops IH]; intros l l'; [done|]. cbn [through]. by rewrite flat_map_app, IH. Qed.

Lemma through_nil ops : through ops [] = [].
Proof. induction ops as [|o ops IH]; [done|]. cbn [through]. exact IH. Qed.

(** Changing the state of one operator. *)
Lemma owed_insert ops ss i o s s' :
  ops !! i = Some o → ss !! i = Some s →
  owed ops (<[i := s']> ss) ++ through (drop (S i) ops) (kept (laws o) s ++ todo (laws o) s) ≡ₚ
  owed ops ss ++ through (drop (S i) ops) (kept (laws o) s' ++ todo (laws o) s').
Proof.
  revert ss i. induction ops as [|o1 ops IH]; intros ss i Ho Hs; [done|]. destruct ss as [|s1 ss]; [done|]. destruct i as [|i]; cbn in Ho, Hs.
  - injection Ho as ->. injection Hs as ->. cbn. rewrite drop_0. solve_Permutation.
  - change (<[S i := s']> (s1 :: ss)) with (s1 :: <[i := s']> ss). cbn [owed]. change (drop (S (S i)) (o1 :: ops)) with (drop (S i) ops).
    rewrite <- !app_assoc, (IH ss i Ho Hs). done.
Qed.

(** All operators kept nothing and have no chunk at work. *)
Lemma owed_nothing ops ss :
  Forall2 (λ o s, kept (laws o) s = [] ∧ todo (laws o) s = []) ops ss → owed ops ss = [].
Proof. induction 1 as [|o s ops ss [Hk Ht] _ IH]; [done|]. cbn [owed]. by rewrite Hk, Ht, IH, through_nil. Qed.
End Laws.
Arguments lawful C {Row} OS {_ _}.
Arguments good_state {C Row OS _ _ o}.
Arguments on_row {C Row OS _ _ o}.
Arguments kept {C Row OS _ _ o}.
Arguments todo {C Row OS _ _ o}.
Arguments at_chunk {C Row OS _ _ o}.
Arguments calls {C Row OS _ _ o}.
Arguments law_fresh {C Row OS _ _ o}.
Arguments law_keeps {C Row OS _ _ o}.
Arguments law_execute {C Row OS _ _ o}.
Arguments law_final {C Row OS _ _ o}.
Arguments mkLaws {C Row OS _ _ o}.
Arguments mkSinkLaws {C Row Snk _ _ k}.
Arguments good_sink {C Row Snk _ _ k}.
Arguments received {C Row Snk _ _ k}.
Arguments blocks {C Row Snk _ _ k}.
Arguments combined {C Row Snk _ _ k}.
Arguments law_sink {C Row Snk _ _ k}.
Arguments law_combine {C Row Snk _ _ k}.
Arguments mkSourceLaws {C Row Src _ _ o}.
Arguments good_source {C Row Src _ _ o}.
Arguments rest {C Row Src _ _ o}.
Arguments fetches {C Row Src _ _ o}.
Arguments law_get {C Row Src _ _ o}.
