(* ===== verification/PipelineFlow.v ===== *)
(** * PipelineFlow: the executor neither loses nor repeats rows

    The proofs about [PipelineExecutor]: the rows a pipeline delivers to its
    sink are those of its source, sent through the operators, however often
    operators ask to be called again and source and sink block. *)

From S2P Require Import Prelude VectorHash Storage UseBF PipelineExecutor.
Local Open Scope Z_scope.
Local Open Scope machine_scope.

Section Flow.
  Context {C Row OS Src Snk : Type} `{ChunksOk C Row} (pipe : pipeline (C := C) (OS := OS) (Src := Src) (Snk := Snk)) (ops : list (lawful C OS)).
  Context (Hops : pipe.(p_operators) = op_of <$> ops) (Hint : pipe.(interrupted) = false).

(** ** One chunk through the operators *)

(** The parts of the state that change while a chunk is pushed. *)
Definition upd (st : executor) (ch : list C) (f : C) (ss : list OS) (stk : list nat) : executor (Src := Src) (Snk := Snk) :=
  set_in_process stk (set_states ss (set_chunks ch f st)).

(** Operator [j] is called again with its chunk exactly if it is on the stack. *)
Definition at_ok (ch : list C) (ss : list OS) (stk : list nat) (j : nat) : Prop :=
  ∀ o s, ops !! j = Some o → ss !! j = Some s →
    if decide (S j ∈ stk) then ∃ c, ch !! j = Some c ∧ chunk_size c ≠ 0 ∧ at_chunk (laws o) s = Some c else at_chunk (laws o) s = None.

(** [skip]: the operator that is just being called. *)
Record flow (initial : nat) (skip : option nat) (ch : list C) (f : C) (ss : list OS) (stk : list nat) : Prop := {
  fl_length : length ch = length ops;
  fl_chunks : Forall good_chunk ch;
  fl_final : good_chunk f;
  fl_states : Forall2 (λ o s, good_state (laws o) s) ops ss;
  fl_stack : StronglySorted (λ a b, (b < a)%nat) stk;
  fl_range : Forall (λ e, (initial < e ≤ length ops)%nat) stk;
  fl_at : ∀ j, Some j ≠ skip → at_ok ch ss stk j
}.

Lemma operator_at i o : ops !! i = Some o → vec_at pipe.(p_operators) i = Ret (op_of o).
Proof. intros Ho. unfold vec_at. by rewrite Hops, list_lookup_fmap, Ho. Qed.

Lemma not_interrupted : check_interrupted pipe = Ret tt.
Proof. unfold check_interrupted. by rewrite Hint. Qed.

(** Writing the buffer after operator [i]. *)
Definition put_chunk (i : nat) (c : C) (ch : list C) : list C := if decide (S i < length ops)%nat then <[S i := c]> ch else ch.
Definition put_final (i : nat) (c f : C) : C := if decide (S i < length ops)%nat then f else c.

Lemma store_at st ch f ss stk i c :
  length ch = length ops → (i < length ops)%nat → store (chunk_at (S i) (upd st ch f ss stk)) c (upd st ch f ss stk) = Ret (upd st (put_chunk i c ch) (put_final i c f) ss stk).
Proof.
  intros Hl Hi. unfold chunk_at, put_chunk, put_final. cbn [intermediate_chunks upd set_in_process set_states set_chunks]. rewrite Hl.
  destruct (decide (S i < length ops)%nat) as [Hlt|Hge]; [rewrite decide_False by lia|rewrite decide_True by lia]; [|done].
  unfold store, vec_at. cbn [intermediate_chunks upd set_in_process set_states set_chunks]. destruct (lookup_lt_is_Some_2 ch (S i)) as [x Hx]; [lia|]. rewrite Hx. done.
Qed.

(** The call of operator [i], which works on the chunk [c]. *)
Lemma call_step st initial ch f ss stk i o c s :
  length ch = length ops → length ss = length ops → (initial ≤ i)%nat → ops !! i = Some o → ch !! i = Some c → ss !! i = Some s → good_chunk c → chunk_size c ≠ 0 →
  good_state (laws o) s → at_chunk (laws o) s = None ∨ at_chunk (laws o) s = Some c →
  ∃ r out s', good_state (laws o) s' ∧ good_chunk out ∧
    rows out ++ kept (laws o) s' ++ todo (laws o) s' ≡ₚ kept (laws o) s ++ match at_chunk (laws o) s with Some _ => todo (laws o) s | None => flat_map (on_row (laws o)) (rows c) end ∧
    (r = NEED_MORE_INPUT ∧ at_chunk (laws o) s' = None ∨ r = HAVE_MORE_OUTPUT ∧ at_chunk (laws o) s' = Some c ∧ (at_chunk (laws o) s = Some c → (calls (laws o) s' < calls (laws o) s)%nat)) ∧
    let stk' := match r with HAVE_MORE_OUTPUT => S i :: stk | _ => stk end in
    let st' := upd st (put_chunk i out ch) (put_final i out f) (<[i := s']> ss) stk' in
    ∀ k, execute_operators pipe (S k) (Intermediate initial) initial (S i) (upd st ch f ss stk) =
      if chunk_size out =? 0 then let (cur, st') := GoToSource st' initial in execute_operators pipe k (Intermediate initial) initial cur st'
      else if decide (length ops < S (S i))%nat then Ret (match stk' with [] => NEED_MORE_INPUT | _ => HAVE_MORE_OUTPUT end, st')
      else execute_operators pipe k (Intermediate initial) initial (S (S i)) st'.
Proof.
  intros Hlc Hls Hi Ho Hc Hs Hgc Hsz Hgs Hat. destruct (law_execute (laws o) c s Hgs Hgc Hsz Hat) as (r & out & s' & E & Hgs' & Hgo & Hrows & Hr). exists r, out, s'. split_and!; [done|done|done|done|]. intros stk' st' k.
  assert (i < length ops)%nat as Hin by (by eapply lookup_lt_Some). subst stk' st'. cbn [execute_operators]. rewrite not_interrupted. orun. rewrite store_at by done. orun. rewrite decide_False by lia.
  unfold call_operator. replace (S i - 1)%nat with i by lia.
  assert (load (if decide (S i = S initial) then Intermediate initial else Intermediate i) (upd st (put_chunk i reset_chunk ch) (put_final i reset_chunk f) ss stk) = Ret c) as ->.
  { assert ((if decide (S i = S initial) then Intermediate initial else Intermediate i) = Intermediate i) as -> by (case_decide; [f_equal; lia|done]).
    unfold load, vec_at. cbn. unfold put_chunk. case_decide; [rewrite list_lookup_insert_ne by lia|]; by rewrite Hc. }
  orun. rewrite (operator_at i o Ho). orun. rewrite not_interrupted. orun. unfold vec_at at 1. cbn [intermediate_states upd set_in_process set_states set_chunks]. rewrite Hs. orun. rewrite E. orun.
  change (set_states (<[i := s']> ss) (upd st (put_chunk i reset_chunk ch) (put_final i reset_chunk f) ss stk)) with (upd st (put_chunk i reset_chunk ch) (put_final i reset_chunk f) (<[i := s']> ss) stk).
  change (chunk_at (S i) (upd st (put_chunk i reset_chunk ch) (put_final i reset_chunk f) ss stk)) with (chunk_at (S i) (upd st (put_chunk i reset_chunk ch) (put_final i reset_chunk f) (<[i := s']> ss) stk)).
  rewrite store_at; [|unfold put_chunk; case_decide; by rewrite ?length_insert|done]. orun.
  assert (put_chunk i out (put_chunk i reset_chunk ch) = put_chunk i out ch) as -> by (unfold put_chunk; case_decide; [by rewrite list_insert_insert_eq|done]).
  assert (put_final i out (put_final i reset_chunk f) = put_final i out f) as -> by (unfold put_final; by case_decide).
  assert (length (p_operators pipe) = length ops) as -> by (by rewrite Hops, length_fmap). destruct Hr as [[-> _]|(-> & _)]; destruct (chunk_size out =? 0); done.
Qed.

Lemma through_at i o rs : ops !! i = Some o → through (drop i ops) rs = through (drop (S i) ops) (flat_map (on_row (laws o)) rs).
Proof. intros Ho. by rewrite (drop_S ops o i Ho). Qed.

(** The rows a chunk still brings to an operator. *)
Definition incoming (i : nat) (a : option C) (c : C) : list Row := match a with None => through (drop i ops) (rows c) | Some _ => [] end.

Lemma call_balance i o ss s s' c out :
  ops !! i = Some o → ss !! i = Some s → good_state (laws o) s →
  rows out ++ kept (laws o) s' ++ todo (laws o) s' ≡ₚ kept (laws o) s ++ match at_chunk (laws o) s with Some _ => todo (laws o) s | None => flat_map (on_row (laws o)) (rows c) end →
  through (drop (S i) ops) (rows out) ++ owed ops (<[i := s']> ss) ≡ₚ incoming i (at_chunk (laws o) s) c ++ owed ops ss.
Proof.
  intros Ho Hs Hgs Hrows. set (T := through (drop (S i) ops)). pose proof (owed_insert ops ss i o s s' Ho Hs) as Hins. rewrite !through_app in Hins.
  apply (Permutation_app_inv_r (T (kept (laws o) s) ++ T (todo (laws o) s))). fold T in Hins.
  assert (T (rows out) ++ T (kept (laws o) s') ++ T (todo (laws o) s') ≡ₚ T (kept (laws o) s) ++ T (match at_chunk (laws o) s with Some _ => todo (laws o) s | None => flat_map (on_row (laws o)) (rows c) end)) as Hout.
  { unfold T. rewrite <- !through_app. by rewrite Hrows. }
  rewrite <- app_assoc, Hins, (Permutation_app_comm (owed ops ss)), (app_assoc (T (rows out))), Hout. unfold incoming. destruct (at_chunk (laws o) s) eqn:Ea; [solve_Permutation|].
  rewrite (law_fresh (laws o) s Hgs Ea), (through_at i o _ Ho). unfold T. rewrite through_nil. solve_Permutation.
Qed.

Definition level (o : lawful C OS) (s : OS) : nat := match at_chunk (laws o) s with None => 0 | Some _ => S (calls (laws o) s) end.

(** What pushing from operator [i] on leaves alone. *)
Record kept_below (i : nat) (ch ch' : list C) (ss ss' : list OS) : Prop := {
  kb_chunks : ∀ j, (j ≤ i)%nat → ch' !! j = ch !! j;
  kb_states : ∀ j, (j < i)%nat → ss' !! j = ss !! j
}.

Lemma kept_below_trans i ch ch1 ch2 ss ss1 ss2 : kept_below i ch ch1 ss ss1 → kept_below i ch1 ch2 ss1 ss2 → kept_below i ch ch2 ss ss2.
Proof. intros [H1c H1s] [H2c H2s]. split; intros j Hj; [by rewrite H2c, H1c|by rewrite H2s, H1s]. Qed.

(** From operator [i] on: either a chunk reaches the end, or all that is left is below. *)
Definition pushed (st : executor) (initial i : nat) (o : lawful C OS) (ch : list C) (f : C) (ss : list OS) (stk : list nat) (c : C) (s : OS) : Prop :=
  ∃ k ch' f' ss', kept_below i ch ch' ss ss' ∧ (rows f' ++ owed ops ss' ≡ₚ incoming i (at_chunk (laws o) s) c ++ owed ops ss) ∧
    (at_chunk (laws o) s ≠ None → ∃ s', ss' !! i = Some s' ∧ (level o s' < level o s)%nat) ∧
    ((∃ new, flow initial None ch' f' ss' (new ++ stk) ∧ Forall (λ e, (i < e)%nat) new ∧ rows f' ≠ [] ∧
        ∀ g, execute_operators pipe (k + g) (Intermediate initial) initial (S i) (upd st ch f ss stk) =
          Ret (match new ++ stk with [] => NEED_MORE_INPUT | _ => HAVE_MORE_OUTPUT end, upd st ch' f' ss' (new ++ stk))) ∨
     (flow initial None ch' f' ss' stk ∧ rows f' = [] ∧
        ∀ g, execute_operators pipe (k + g) (Intermediate initial) initial (S i) (upd st ch f ss stk) =
          let (cur, st') := GoToSource (upd st ch' f' ss' stk) initial in execute_operators pipe g (Intermediate initial) initial cur st')).

(** After a call of operator [i]. *)
Lemma flow_call initial ch f ss stk i o c s r out s' :
  flow initial (Some i) ch f ss stk → Forall (λ e, (e ≤ i)%nat) stk → (initial ≤ i)%nat → ops !! i = Some o → ch !! i = Some c → chunk_size c ≠ 0 → ss !! i = Some s →
  good_state (laws o) s' → good_chunk out → (r = NEED_MORE_INPUT ∧ at_chunk (laws o) s' = None ∨ r = HAVE_MORE_OUTPUT ∧ at_chunk (laws o) s' = Some c) →
  flow initial None (put_chunk i out ch) (put_final i out f) (<[i := s']> ss) (match r with HAVE_MORE_OUTPUT => S i :: stk | _ => stk end).
Proof.
  intros [Hl Hgc Hgf Hgs Hst Hrg Hat] Hle Hi Ho Hc Hsz Hs Hgs' Hgo Hr. pose proof (lookup_lt_Some _ _ _ Ho) as Hin. rewrite Forall_forall in Hle. split.
  - unfold put_chunk. case_decide; by rewrite ?length_insert.
  - unfold put_chunk. case_decide; [by apply Forall_insert|done].
  - unfold put_final. by case_decide.
  - apply Forall2_same_length_lookup_2; [rewrite length_insert; by eapply Forall2_length|]. intros j o' x Ho' Hx. destruct (decide (j = i)) as [->|Hne].
    + rewrite list_lookup_insert_eq in Hx by (by eapply lookup_lt_Some). by simplify_eq.
    + rewrite list_lookup_insert_ne in Hx by done. by apply (Forall2_lookup_lr _ _ _ _ _ _ Hgs Ho' Hx).
  - destruct Hr as [[-> _]|[-> _]]; [done|]. constructor; [done|]. apply Forall_forall. intros e He. specialize (Hle e He). lia.
  - destruct Hr as [[-> _]|[-> _]]; [done|]. constructor; [lia|done].
  - intros j _ o' x Ho' Hx. destruct (decide (j = i)) as [->|Hne].
    + rewrite list_lookup_insert_eq in Hx by (by eapply lookup_lt_Some). injection Hx as <-. assert (o' = o) as -> by congruence. assert (S i ∉ stk) as Hni by (intros He; specialize (Hle _ He); lia).
      destruct Hr as [[-> Ha]|[-> Ha]]; [by rewrite decide_False|]. rewrite decide_True by left. exists c. split_and!; [|done|done]. unfold put_chunk. case_decide; [by rewrite list_lookup_insert_ne by lia|done].
    + rewrite list_lookup_insert_ne in Hx by done. specialize (Hat j ltac:(congruence) o' x Ho' Hx). destruct (decide (S j ∈ stk)) as [Hj|Hj].
      * rewrite decide_True by (destruct Hr as [[-> _]|[-> _]]; [done|by right]). destruct Hat as (c' & Hc' & Hsz' & Ha'). exists c'. split_and!; [|done|done]. specialize (Hle _ Hj).
        unfold put_chunk. case_decide; [by rewrite list_lookup_insert_ne by lia|done].
      * rewrite decide_False; [done|]. destruct Hr as [[-> _]|[-> _]]; [done|]. intros [?|?]%elem_of_cons; [lia|done].
Qed.

Lemma flow_skip initial i ch f ss stk : flow initial None ch f ss stk → flow initial (Some i) ch f ss stk.
Proof. intros []. by split; auto. Qed.

Lemma flow_pop initial i ch f ss stk : flow initial None ch f ss (S i :: stk) → flow initial (Some i) ch f ss stk ∧ Forall (λ e, (e ≤ i)%nat) stk ∧ (initial ≤ i)%nat.
Proof.
  intros [Hl Hgc Hgf Hgs [Hst Hall]%StronglySorted_inv [Hr Hrg]%Forall_cons Hat]. split_and!; [|by eapply Forall_impl; [exact Hall|]; cbn; lia|lia].
  split; [done|done|done|done|done|done|]. intros j Hj o s Ho Hs. specialize (Hat j ltac:(done) o s Ho Hs). assert (j ≠ i) by congruence.
  destruct (decide (S j ∈ stk)) as [Hx|Hx]; [by rewrite decide_True in Hat by (by right)|]. rewrite decide_False in Hat; [done|]. intros [?|?]%elem_of_cons; [lia|done].
Qed.

(** The premises of a call of operator [i]. *)
Record calling (initial i : nat) (o : lawful C OS) (ch : list C) (f : C) (ss : list OS) (stk : list nat) (c : C) (s : OS) : Prop := {
  cl_flow : flow initial (Some i) ch f ss stk;
  cl_stack : Forall (λ e, (e ≤ i)%nat) stk;
  cl_chunk : ch !! i = Some c;
  cl_size : chunk_size c ≠ 0;
  cl_state : ss !! i = Some s;
  cl_at : at_chunk (laws o) s = None ∨ at_chunk (laws o) s = Some c;
  cl_final : rows f = []
}.

Lemma size_empty c : good_chunk c → chunk_size c = 0 ↔ rows c = [].
Proof. intros Hc. rewrite chunk_size_rows by done. split; [|by intros ->]. destruct (rows c); simpl; [done|lia]. Qed.

Lemma cons_ne_self {A} (x : A) l : x :: l ≠ l.
Proof. intros E. apply (f_equal length) in E. cbn in E. lia. Qed.

Lemma put_chunk_le i c ch j : (j ≤ i)%nat → put_chunk i c ch !! j = ch !! j.
Proof. intros Hj. unfold put_chunk. case_decide; [by rewrite list_lookup_insert_ne by lia|done]. Qed.

(** What the call of operator [i] leaves. *)
Record called st initial i o ch f ss stk c s (out : C) (s' : OS) (stk' : list nat) (ch1 : list C) (f1 : C) (ss1 : list OS) : Prop := {
  ca_chunks : ch1 = put_chunk i out ch ∧ f1 = put_final i out f;
  ca_flow : flow initial None ch1 f1 ss1 stk';
  ca_out : good_chunk out;
  ca_balance : through (drop (S i) ops) (rows out) ++ owed ops ss1 ≡ₚ incoming i (at_chunk (laws o) s) c ++ owed ops ss;
  ca_below : kept_below i ch ch1 ss ss1;
  ca_state : ss1 !! i = Some s';
  ca_level : at_chunk (laws o) s ≠ None → (level o s' < level o s)%nat;
  ca_stack : stk' = stk ∧ at_chunk (laws o) s' = None ∨
    stk' = S i :: stk ∧ at_chunk (laws o) s' = Some c ∧ (at_chunk (laws o) s = Some c → (calls (laws o) s' < calls (laws o) s)%nat);
  ca_execute : ∀ k, execute_operators pipe (S k) (Intermediate initial) initial (S i) (upd st ch f ss stk) =
    if chunk_size out =? 0 then let (cur, st') := GoToSource (upd st ch1 f1 ss1 stk') initial in execute_operators pipe k (Intermediate initial) initial cur st'
    else if decide (length ops < S (S i))%nat then Ret (match stk' with [] => NEED_MORE_INPUT | _ => HAVE_MORE_OUTPUT end, upd st ch1 f1 ss1 stk')
    else execute_operators pipe k (Intermediate initial) initial (S (S i)) (upd st ch1 f1 ss1 stk')
}.

Lemma called_ok st initial i o ch f ss stk c s :
  (initial ≤ i)%nat → ops !! i = Some o → calling initial i o ch f ss stk c s → ∃ out s' stk' ch1 f1 ss1, called st initial i o ch f ss stk c s out s' stk' ch1 f1 ss1.
Proof.
  intros Hi Ho [Hfl Hle Hc Hsz Hs Hat Hf]. pose proof Hfl as [Hl Hgc Hgf Hgs _ _ _]. pose proof (lookup_lt_Some _ _ _ Ho) as Hin.
  assert (good_state (laws o) s) as Hgood by exact (Forall2_lookup_lr _ _ _ _ _ _ Hgs Ho Hs). assert (good_chunk c) as Hgoodc by exact (Forall_lookup_1 _ _ _ _ Hgc Hc).
  destruct (call_step st initial ch f ss stk i o c s Hl (eq_sym (Forall2_length _ _ _ Hgs)) Hi Ho Hc Hs Hgoodc Hsz Hgood Hat) as (r & out & s' & Hgs' & Hgo & Hrows & Hr & Hexec).
  eexists out, s', (match r with HAVE_MORE_OUTPUT => S i :: stk | _ => stk end), _, _, _. split; [done| |done| | | | | |exact Hexec].
  - apply (flow_call initial ch f ss stk i o c s r out s'); try done. destruct Hr as [?|(? & ? & _)]; [by left|by right].
  - by apply (call_balance i o ss s s' c out).
  - split; intros j Hj; [by apply put_chunk_le|by rewrite list_lookup_insert_ne by lia].
  - apply list_lookup_insert_eq. by eapply lookup_lt_Some.
  - intros Ha. destruct Hat as [?|Ea]; [done|]. unfold level. rewrite Ea. destruct Hr as [(_ & ->)|(_ & -> & Hlt)]; [lia|]. specialize (Hlt Ea). lia.
  - destruct Hr as [[-> ?]|(-> & ? & ?)]; [by left|by right].
Qed.

Section Call.
  Context (st : executor (C := C) (OS := OS) (Src := Src) (Snk := Snk)) (initial i : nat) (o : lawful C OS) (ch : list C) (f : C) (ss : list OS) (stk : list nat) (c : C) (s : OS).
  Context (Hi : (initial ≤ i)%nat) (Ho : ops !! i = Some o) (Hcalling : calling initial i o ch f ss stk c s).
  Context (Hnext : ∀ o' ch' f' ss' stk' c' s', ops !! S i = Some o' → calling initial (S i) o' ch' f' ss' stk' c' s' → pushed st initial (S i) o' ch' f' ss' stk' c' s').
  Context (Hagain : ∀ ch' f' ss' s', calling initial i o ch' f' ss' stk c s' → at_chunk (laws o) s' = Some c →
    (at_chunk (laws o) s = Some c → (calls (laws o) s' < calls (laws o) s)%nat) → pushed st initial i o ch' f' ss' stk c s').
  Context (out : C) (s' : OS) (stk' : list nat) (ch1 : list C) (f1 : C) (ss1 : list OS) (Hcalled : called st initial i o ch f ss stk c s out s' stk' ch1 f1 ss1).

(** The operator is called again from a later state. *)
Lemma pushed_loop k ch2 f2 ss2 :
  stk' = S i :: stk → kept_below (S i) ch1 ch2 ss1 ss2 → flow initial None ch2 f2 ss2 stk' → rows f2 = [] → owed ops ss2 ≡ₚ incoming i (at_chunk (laws o) s) c ++ owed ops ss →
  (∀ g, execute_operators pipe (k + g) (Intermediate initial) initial (S i) (upd st ch f ss stk) = execute_operators pipe g (Intermediate initial) initial (S i) (upd st ch2 f2 ss2 stk)) →
  pushed st initial i o ch f ss stk c s.
Proof.
  intros Estk Hkb2 Hfl2 Hf2 Hbal2 Hk. destruct Hcalled as [_ _ _ _ Hkb Hs1 Hlevel Hr _]. destruct Hr as [[E _]|(_ & Ha' & Hlt)]; [exfalso; rewrite Estk in E; by apply (cons_ne_self (S i) stk)|].
  rewrite Estk in Hfl2. destruct (flow_pop _ _ _ _ _ _ Hfl2) as (Hfl3 & Hle3 & _). assert (ss2 !! i = Some s') as Hs2 by (rewrite (kb_states _ _ _ _ _ Hkb2) by lia; done).
  destruct (Hagain ch2 f2 ss2 s') as (k3 & ch3 & f3 & ss3 & Hkb3 & Hbal3 & Hlev3 & Hend).
  { split; [done|done| |by apply Hcalling|done|by right|done]. rewrite (kb_chunks _ _ _ _ _ Hkb2) by lia. rewrite (kb_chunks _ _ _ _ _ Hkb) by lia. by apply Hcalling. }
  { done. } { done. }
  exists (k + k3)%nat, ch3, f3, ss3. split_and!.
  - eapply kept_below_trans; [exact Hkb|]. eapply kept_below_trans; [|exact Hkb3]. destruct Hkb2 as [Hkc Hks]. split; intros j Hj; [apply Hkc|apply Hks]; lia.
  - rewrite Hbal3, Ha'. cbn [incoming app]. exact Hbal2.
  - intros Ha. destruct Hlev3 as (s3 & Hs3 & Hlt3); [by rewrite Ha'|]. exists s3. split; [done|]. specialize (Hlevel Ha). lia.
  - destruct Hend as [(new & Hfl4 & Hnew & Hne & Hg)|(Hfl4 & Hnil & Hg)]; [left; exists new|right]; (split_and!; [done..|]); intros g; rewrite <- Nat.add_assoc, Hk; apply Hg.
Qed.

(** The call gave no rows. *)
Lemma pushed_nothing : rows out = [] → pushed st initial i o ch f ss stk c s.
Proof.
  intros Hnil. destruct Hcalled as [[_ Ef1] Hfl1 Hgo Hbal Hkb Hs1 Hlevel Hr Hexec]. rewrite Hnil, through_nil in Hbal. cbn [app] in Hbal. rewrite (proj2 (Z.eqb_eq _ _) (proj2 (size_empty out Hgo) Hnil)) in Hexec.
  assert (rows f1 = []) as Hf1 by (rewrite Ef1; unfold put_final; case_decide; [by apply Hcalling|done]). destruct Hr as [(Estk & _)|(Estk & _)]; rewrite Estk in Hexec.
  - exists 1%nat, ch1, f1, ss1. split_and!; [done|by rewrite Hf1|intros Ha; exists s'; split; [done|by apply Hlevel]|]. right. rewrite Estk in Hfl1. split_and!; [done|done|]. intros g. exact (Hexec g).
  - apply (pushed_loop 1%nat ch1 f1 ss1); try done.
Qed.

(** The call gave rows, and there is no other operator. *)
Lemma pushed_last : rows out ≠ [] → (length ops < S (S i))%nat → pushed st initial i o ch f ss stk c s.
Proof.
  intros Hout Hlast. destruct Hcalled as [[_ Ef1] Hfl1 Hgo Hbal Hkb Hs1 Hlevel Hr Hexec]. unfold put_final in Ef1. rewrite decide_False in Ef1 by lia. subst f1.
  exists 1%nat, ch1, out, ss1. split_and!; [done| |intros Ha; exists s'; split; [done|by apply Hlevel]|]; [rewrite <- Hbal; by rewrite (drop_ge ops (S i)) by lia|].
  left. rewrite (proj2 (Z.eqb_neq _ _)) in Hexec by (by rewrite size_empty). destruct (decide (length ops < S (S i))%nat) as [_|]; [|done].
  destruct Hr as [(-> & _)|(-> & _)]; [exists []|exists [S i]]; cbn [app]; (split_and!; [done|repeat constructor; lia|done|]); intros g; exact (Hexec g).
Qed.

(** The premises of the call of the next operator. *)
Lemma calling_next : rows out ≠ [] → (S i < length ops)%nat → ∃ o2 s2, ops !! S i = Some o2 ∧ calling initial (S i) o2 ch1 f1 ss1 stk' out s2 ∧ at_chunk (laws o2) s2 = None.
Proof.
  intros Hout Hlt. destruct Hcalled as [[Ech1 Ef1] Hfl1 Hgo _ _ _ _ Hr _]. destruct (lookup_lt_is_Some_2 ops (S i) Hlt) as [o2 Ho2].
  destruct (lookup_lt_is_Some_2 ss1 (S i)) as [s2 Hs2]; [rewrite <- (Forall2_length _ _ _ (fl_states _ _ _ _ _ _ Hfl1)); lia|].
  assert (Forall (λ e, (e ≤ S i)%nat) stk') as Hle'.
  { assert (Forall (λ e, (e ≤ S i)%nat) stk) as Hle1 by (eapply Forall_impl; [exact (cl_stack _ _ _ _ _ _ _ _ _ Hcalling)|]; cbn; lia). destruct Hr as [(-> & _)|(-> & _)]; [done|by constructor]. }
  assert (at_chunk (laws o2) s2 = None) as Ha2.
  { pose proof (fl_at _ _ _ _ _ _ Hfl1 (S i) ltac:(done) o2 s2 Ho2 Hs2) as Hx. rewrite decide_False in Hx; [done|]. intros Hin2. rewrite Forall_forall in Hle'. specialize (Hle' _ Hin2). lia. }
  exists o2, s2. split_and!; [done| |done]. split; [by apply flow_skip|done| |by rewrite size_empty|done|by left|].
  - rewrite Ech1. unfold put_chunk. rewrite decide_True by lia. apply list_lookup_insert_eq. rewrite (fl_length _ _ _ _ _ _ (cl_flow _ _ _ _ _ _ _ _ _ Hcalling)). lia.
  - rewrite Ef1. unfold put_final. rewrite decide_True by lia. by apply Hcalling.
Qed.

(** The call gave rows, which the next operator gets. *)
Lemma pushed_next : rows out ≠ [] → (S i < length ops)%nat → pushed st initial i o ch f ss stk c s.
Proof.
  intros Hout Hlt. destruct (calling_next Hout Hlt) as (o2 & s2 & Ho2 & Hcl2 & Ha2). pose proof Hcalled as [_ Hfl1 Hgo Hbal Hkb Hs1 Hlevel Hr Hexec].
  rewrite (proj2 (Z.eqb_neq _ _)) in Hexec by (by rewrite size_empty). destruct (decide (length ops < S (S i))%nat) as [|_]; [lia|].
  destruct (Hnext o2 ch1 f1 ss1 stk' out s2 Ho2 Hcl2) as (k2 & ch2 & f2 & ss2 & Hkb2 & Hbal2 & _ & Hend). rewrite Ha2 in Hbal2. cbn [incoming] in Hbal2. rewrite Hbal in Hbal2.
  assert (kept_below i ch ch2 ss ss2) as Hkb' by (eapply kept_below_trans; [exact Hkb|]; destruct Hkb2 as [Hkc Hks]; split; intros j Hj; [apply Hkc|apply Hks]; lia).
  assert (ss2 !! i = Some s') as Hs2' by (rewrite (kb_states _ _ _ _ _ Hkb2) by lia; done). destruct Hend as [(new & Hfl2 & Hnew & Hne2 & Hg)|(Hfl2 & Hnil & Hg)].
  - exists (S k2), ch2, f2, ss2. split_and!; [done|done|intros Ha; exists s'; split; [done|by apply Hlevel]|]. left.
    assert (Forall (λ e, (i < e)%nat) new) as Hn by (eapply Forall_impl; [exact Hnew|]; cbn; lia). assert (∃ new', new' ++ stk = new ++ stk' ∧ Forall (λ e, (i < e)%nat) new') as (new' & Enew & Hn').
    { destruct Hr as [(-> & _)|(-> & _)]; [by exists new|]. exists (new ++ [S i]). rewrite <- app_assoc. split; [done|]. apply Forall_app. split; [done|repeat constructor; lia]. }
    exists new'. rewrite Enew. split_and!; [done|done|done|]. intros g. rewrite Nat.add_succ_l, Hexec. apply Hg.
  - destruct Hr as [(Estk & _)|(Estk & _)].
    + exists (S k2), ch2, f2, ss2. split_and!; [done|done|intros Ha; exists s'; split; [done|by apply Hlevel]|]. right. rewrite Estk in Hfl2, Hg, Hexec. split_and!; [done|done|]. intros g. rewrite Nat.add_succ_l, Hexec. apply Hg.
    + rewrite Hnil in Hbal2. cbn [app] in Hbal2. apply (pushed_loop (S k2) ch2 f2 ss2); try done. intros g. rewrite Nat.add_succ_l, Hexec, Hg, Estk. done.
Qed.
End Call.

(** A call, given what happens when the operator is called again and in the next operator. *)
Lemma pushed_call st initial i o ch f ss stk c s :
  (initial ≤ i)%nat → ops !! i = Some o → calling initial i o ch f ss stk c s →
  (∀ o' ch' f' ss' stk' c' s', ops !! S i = Some o' → calling initial (S i) o' ch' f' ss' stk' c' s' → pushed st initial (S i) o' ch' f' ss' stk' c' s') →
  (∀ ch' f' ss' s', calling initial i o ch' f' ss' stk c s' → at_chunk (laws o) s' = Some c → (at_chunk (laws o) s = Some c → (calls (laws o) s' < calls (laws o) s)%nat) →
    pushed st initial i o ch' f' ss' stk c s') →
  pushed st initial i o ch f ss stk c s.
Proof.
  intros Hi Ho Hcl Hnext Hagain. destruct (called_ok st initial i o ch f ss stk c s Hi Ho Hcl) as (out & s' & stk' & ch1 & f1 & ss1 & Hca).
  destruct (rows out) as [|r l] eqn:Eout; [by eapply pushed_nothing|]. assert (rows out ≠ []) as Hout by (by rewrite Eout). destruct (decide (length ops < S (S i))%nat); [by eapply pushed_last|].
  eapply pushed_next; try done. lia.
Qed.

Lemma pushed_again st initial i o stk c m :
  (initial ≤ i)%nat → ops !! i = Some o →
  (∀ o' ch' f' ss' stk' c' s', ops !! S i = Some o' → calling initial (S i) o' ch' f' ss' stk' c' s' → pushed st initial (S i) o' ch' f' ss' stk' c' s') →
  ∀ ch f ss s, calling initial i o ch f ss stk c s → at_chunk (laws o) s = Some c → (calls (laws o) s < m)%nat → pushed st initial i o ch f ss stk c s.
Proof.
  intros Hi Ho Hnext. induction m as [|m IH]; intros ch f ss s Hcl Ha Hm; [lia|]. apply pushed_call; [done|done|done|done|].
  intros ch' f' ss' s' Hcl' Ha' Hlt. apply IH; [done|done|]. specialize (Hlt Ha). lia.
Qed.

Lemma pushed_all st initial d : ∀ i o ch f ss stk c s,
  (length ops - i ≤ d)%nat → (initial ≤ i)%nat → ops !! i = Some o → calling initial i o ch f ss stk c s → pushed st initial i o ch f ss stk c s.
Proof.
  induction d as [|d IH]; intros i o ch f ss stk c s Hd Hi Ho Hcl; pose proof (lookup_lt_Some _ _ _ Ho) as Hin; [lia|].
  assert (∀ o' ch' f' ss' stk' c' s', ops !! S i = Some o' → calling initial (S i) o' ch' f' ss' stk' c' s' → pushed st initial (S i) o' ch' f' ss' stk' c' s') as Hnext by (intros; apply IH; [lia|lia|done|done]).
  apply pushed_call; [done|done|done|done|]. intros ch' f' ss' s' Hcl' Ha' _. by apply (pushed_again st initial i o stk c (S (calls (laws o) s'))); [..|lia].
Qed.

(** The states that were reached are below the ones before in the order of the
    calls left, operators near the source counting most. *)
Definition fewer_calls (stk : list nat) (ss' ss : list OS) : Prop :=
  ∃ i o s s', S i ∈ stk ∧ ops !! i = Some o ∧ ss !! i = Some s ∧ ss' !! i = Some s' ∧ (level o s' < level o s)%nat ∧ ∀ j, (j < i)%nat → ss' !! j = ss !! j.

(** Going on with the operators on the stack. *)
Lemma resume st initial stk : ∀ ch f ss,
  (initial < length ops)%nat → flow initial None ch f ss stk → rows f = [] →
  ∃ k ch' f' ss' stk', flow initial None ch' f' ss' stk' ∧ rows f' ++ owed ops ss' ≡ₚ owed ops ss ∧ (rows f' = [] → stk' = []) ∧
    (∀ j, (j < initial)%nat → ch' !! j = ch !! j ∧ ss' !! j = ss !! j) ∧ (stk' ≠ [] → ch' !! initial = ch !! initial) ∧ (stk = [] → ss' = ss) ∧ (stk ≠ [] → fewer_calls stk ss' ss) ∧
    ∀ g, (let (cur, st') := GoToSource (upd st ch f ss stk) initial in execute_operators pipe (k + g) (Intermediate initial) initial cur st') =
      Ret (match stk' with [] => NEED_MORE_INPUT | _ => HAVE_MORE_OUTPUT end, upd st ch' f' ss' stk').
Proof.
  induction stk as [|e stk IH]; intros ch f ss Hinit Hfl Hf.
  - exists 1%nat, (<[initial := reset_chunk]> ch), f, ss, []. pose proof Hfl as [Hl Hgc Hgf Hgs _ _ Hat]. split_and!; try done.
    + split; [by rewrite length_insert|by apply Forall_insert; [|apply good_reset]|done|done|constructor|constructor|]. intros j Hj o s Ho Hs. specialize (Hat j Hj o s Ho Hs).
      destruct (decide (S j ∈ [])) as [Hx|_]; [by apply elem_of_nil in Hx|done].
    + by rewrite Hf.
    + intros j Hj. by rewrite list_lookup_insert_ne by lia.
    + intros g. cbn. rewrite not_interrupted. orun. unfold chunk_at. cbn [upd set_in_process set_states set_chunks intermediate_chunks]. rewrite decide_False by lia. unfold store, vec_at.
      cbn [upd set_in_process set_states set_chunks intermediate_chunks]. destruct (lookup_lt_is_Some_2 ch initial) as [x Hx]; [lia|]. rewrite Hx. orun. by rewrite decide_True by done.
  - assert (e ≠ 0)%nat as He by (pose proof (fl_range _ _ _ _ _ _ Hfl) as [? _]%Forall_cons; lia). destruct e as [|i]; [done|]. clear He.
    destruct (flow_pop _ _ _ _ _ _ Hfl) as (Hfl1 & Hle & Hi). pose proof (fl_range _ _ _ _ _ _ Hfl) as [[_ Hin] _]%Forall_cons. destruct (lookup_lt_is_Some_2 ops i) as [o Ho]; [lia|].
    destruct (lookup_lt_is_Some_2 ss i) as [s Hs]; [rewrite <- (Forall2_length _ _ _ (fl_states _ _ _ _ _ _ Hfl)); lia|].
    pose proof (fl_at _ _ _ _ _ _ Hfl i ltac:(done) o s Ho Hs) as Hat. rewrite decide_True in Hat by left. destruct Hat as (c & Hc & Hsz & Ha).
    destruct (pushed_all st initial (length ops) i o ch f ss stk c s) as (k & ch1 & f1 & ss1 & Hkb & Hbal & Hlev & Hend); [lia|done|done|by split; try done; right|].
    rewrite Ha in Hbal. cbn [incoming app] in Hbal. destruct Hlev as (s1 & Hs1 & Hlt); [by rewrite Ha|]. destruct Hend as [(new & Hfl2 & Hnew & Hne & Hg)|(Hfl2 & Hnil & Hg)].
    + exists k, ch1, f1, ss1, (new ++ stk). split_and!; [done|done|done|intros j Hj; split; [apply (kb_chunks _ _ _ _ _ Hkb)|apply (kb_states _ _ _ _ _ Hkb)]; lia|intros _; apply (kb_chunks _ _ _ _ _ Hkb); lia|done| |exact Hg].
      intros _. exists i, o, s, s1. split_and!; [left|done..|]. apply (kb_states _ _ _ _ _ Hkb).
    + destruct (IH ch1 f1 ss1 Hinit Hfl2 Hnil) as (k2 & ch2 & f2 & ss2 & stk2 & Hfl3 & Hbal3 & Hend3 & Hbel3 & Hch3 & Hsame3 & Hfew3 & Hg3).
      exists (k + k2)%nat, ch2, f2, ss2, stk2. rewrite Hnil in Hbal. cbn [app] in Hbal. split_and!; [done|by rewrite Hbal3|done| | |done| |].
      * intros j Hj. destruct (Hbel3 j Hj) as [-> ->]. split; [apply (kb_chunks _ _ _ _ _ Hkb)|apply (kb_states _ _ _ _ _ Hkb)]; lia.
      * intros Hx. rewrite (Hch3 Hx). apply (kb_chunks _ _ _ _ _ Hkb). lia.
      * intros _. destruct (decide (stk = [])) as [->|Hne].
        { rewrite (Hsame3 eq_refl). exists i, o, s, s1. split_and!; [left|done..|]. apply (kb_states _ _ _ _ _ Hkb). }
        destruct (Hfew3 Hne) as (i2 & o2 & s2 & s2' & Hin2 & Ho2 & Hs2 & Hs2' & Hlt2 & Hbel2). rewrite Forall_forall in Hle. specialize (Hle _ Hin2). rewrite (kb_states _ _ _ _ _ Hkb) in Hs2 by lia.
        exists i2, o2, s2, s2'. split_and!; [by right|done..|]. intros j Hj. rewrite Hbel2 by done. apply (kb_states _ _ _ _ _ Hkb). lia.
      * intros g. rewrite <- Nat.add_assoc. cbn [GoToSource upd set_in_process in_process_operators]. change (set_in_process stk (upd st ch f ss (S i :: stk))) with (upd st ch f ss stk). rewrite Hg. apply Hg3.
Qed.

(** [Execute] on a chunk. *)
Lemma Execute_chunk_ok st initial ch f ss stk c :
  (initial < length ops)%nat → flow initial None ch f ss stk → rows f = [] → ch !! initial = Some c → chunk_size c ≠ 0 →
  ∃ k ch' f' ss' stk', flow initial None ch' f' ss' stk' ∧
    rows f' ++ owed ops ss' ≡ₚ match stk with [] => through (drop initial ops) (rows c) | _ => [] end ++ owed ops ss ∧ (rows f' = [] → stk' = []) ∧
    (∀ j, (j < initial)%nat → ch' !! j = ch !! j ∧ ss' !! j = ss !! j) ∧ (stk' ≠ [] → ch' !! initial = Some c) ∧ (stk ≠ [] → fewer_calls stk ss' ss) ∧
    ∀ g, Execute_chunk pipe (k + g) (Intermediate initial) initial (upd st ch f ss stk) = Ret (match stk' with [] => NEED_MORE_INPUT | _ => HAVE_MORE_OUTPUT end, upd st ch' f' ss' stk').
Proof.
  intros Hinit Hfl Hf Hc Hsz. assert (length (p_operators pipe) = length ops) as Hlen by (by rewrite Hops, length_fmap).
  assert (∀ g, Execute_chunk pipe g (Intermediate initial) initial (upd st ch f ss stk) =
    let (cur, st') := GoToSource (upd st ch f ss stk) initial in execute_operators pipe g (Intermediate initial) initial (if decide (cur = initial) then S cur else cur) st') as Hexec.
  { intros g. unfold Execute_chunk. unfold load, vec_at. cbn [upd set_in_process set_states set_chunks intermediate_chunks]. rewrite Hc. orun. rewrite (proj2 (Z.eqb_neq _ _) Hsz).
    destruct (GoToSource _ initial) as [cur st'] eqn:Eg. rewrite decide_False; [done|]. rewrite Hlen. unfold GoToSource in Eg. cbn in Eg. destruct stk as [|e stk]; injection Eg as <- _.
    - rewrite decide_True by done. lia.
    - pose proof (fl_range _ _ _ _ _ _ Hfl) as [? _]%Forall_cons. rewrite decide_False by lia. lia. }
  destruct stk as [|e stk].
  - destruct (lookup_lt_is_Some_2 ops initial) as [o Ho]; [lia|]. destruct (lookup_lt_is_Some_2 ss initial) as [s Hs]; [rewrite <- (Forall2_length _ _ _ (fl_states _ _ _ _ _ _ Hfl)); lia|].
    pose proof (fl_at _ _ _ _ _ _ Hfl initial ltac:(done) o s Ho Hs) as Hat. rewrite decide_False in Hat by apply not_elem_of_nil.
    destruct (pushed_all st initial (length ops) initial o ch f ss [] c s) as (k & ch1 & f1 & ss1 & Hkb & Hbal & _ & Hend); [lia|done|done|split; try done; [by apply flow_skip|by left]|].
    rewrite Hat in Hbal. cbn [incoming] in Hbal. destruct Hend as [(new & Hfl2 & Hnew & Hne & Hg)|(Hfl2 & Hnil & Hg)].
    + rewrite app_nil_r in Hfl2, Hg. exists k, ch1, f1, ss1, new. split_and!; [done|done|done|intros j Hj; split; [apply (kb_chunks _ _ _ _ _ Hkb)|apply (kb_states _ _ _ _ _ Hkb)]; lia| |done|].
      * intros _. by rewrite (kb_chunks _ _ _ _ _ Hkb).
      * intros g. rewrite Hexec. cbn. rewrite decide_True by done. apply Hg.
    + destruct (resume st initial [] ch1 f1 ss1 Hinit Hfl2 Hnil) as (k2 & ch2 & f2 & ss2 & stk2 & Hfl3 & Hbal3 & Hend3 & Hbel3 & Hch3 & _ & _ & Hg3).
      rewrite Hnil in Hbal. cbn [app] in Hbal. exists (k + k2)%nat, ch2, f2, ss2, stk2. split_and!; [done|by rewrite Hbal3|done| | |done|].
      * intros j Hj. destruct (Hbel3 j Hj) as [-> ->]. split; [apply (kb_chunks _ _ _ _ _ Hkb)|apply (kb_states _ _ _ _ _ Hkb)]; lia.
      * intros Hx. rewrite (Hch3 Hx). by rewrite (kb_chunks _ _ _ _ _ Hkb).
      * intros g. rewrite Hexec. cbn. rewrite decide_True by done. rewrite <- Nat.add_assoc, Hg. apply Hg3.
  - destruct (resume st initial (e :: stk) ch f ss Hinit Hfl Hf) as (k & ch2 & f2 & ss2 & stk2 & Hfl3 & Hbal3 & Hend3 & Hbel3 & Hch3 & _ & Hfew & Hg3).
    exists k, ch2, f2, ss2, stk2. split_and!; [done|done|done|done|by intros Hx; rewrite (Hch3 Hx)|done|]. intros g. rewrite Hexec, <- (Hg3 g). cbn.
    pose proof (fl_range _ _ _ _ _ _ Hfl) as [? _]%Forall_cons. by rewrite decide_False by lia.
Qed.

(** ** One chunk into the sink *)

(** Fewer calls are left, lexicographically. *)
Inductive lower : list (lawful C OS) → list OS → list OS → Prop :=
| lower_here o l s s' ss ss' : (level o s' < level o s)%nat → lower (o :: l) (s' :: ss') (s :: ss)
| lower_next o l s ss ss' : lower l ss' ss → lower (o :: l) (s :: ss') (s :: ss).

Lemma lower_wf l : well_founded (lower l).
Proof.
  induction l as [|o l IH]; intros ss; [constructor; by inversion 1|]. destruct ss as [|s ss]; [constructor; by inversion 1|].
  remember (level o s) as m eqn:Em. revert s ss Em. induction (lt_wf m) as [m _ IHm]. intros s ss ->. induction (IH ss) as [ss _ IHss].
  constructor. inversion 1; subst; [by eapply IHm|by apply IHss].
Qed.

Lemma fewer_calls_lower stk ss ss' : length ss = length ops → length ss' = length ops → fewer_calls stk ss' ss → lower ops ss' ss.
Proof.
  intros Hl Hl' (i & o & s & s' & _ & Ho & Hs & Hs' & Hlt & Hbel). clear Hops. revert i ss ss' Hl Hl' Ho Hs Hs' Hbel. induction ops as [|o1 l IH]; intros i ss ss' Hl Hl' Ho Hs Hs' Hbel; [done|].
  destruct ss as [|x ss], ss' as [|x' ss']; try done. destruct i as [|i].
  - cbn in Ho, Hs, Hs'. simplify_eq. by apply lower_here.
  - pose proof (Hbel 0%nat ltac:(lia)) as E. cbn in E. injection E as ->. apply lower_next, (IH i); try done; [simpl in Hl; lia|simpl in Hl'; lia|].
    intros j Hj. apply (Hbel (S j)). lia.
Qed.

Context (ks : sink_laws pipe.(p_sink)).

(** Sinking the final chunk. *)
Lemma push_sink_ok st ch f ss stk :
  good_sink ks st.(local_sink_state) → good_chunk f →
  ∃ r κ, push_sink pipe (upd st ch f ss stk) = Ret (r, upd (set_sink κ st) ch f ss stk) ∧ good_sink ks κ ∧
    (r = SinkNeedMoreInput ∧ received ks κ ≡ₚ received ks st.(local_sink_state) ++ rows f ∧ (blocks ks κ ≤ blocks ks st.(local_sink_state))%nat ∨
     r = SinkBlocked ∧ rows f ≠ [] ∧ received ks κ ≡ₚ received ks st.(local_sink_state) ∧ (blocks ks κ < blocks ks st.(local_sink_state))%nat).
Proof.
  intros Hk Hf. unfold push_sink. cbn [upd set_in_process set_states set_chunks final_chunk local_sink_state]. destruct (Z.ltb_spec 0 (chunk_size f)) as [Hlt|Hge].
  - rewrite not_interrupted. orun. destruct (law_sink ks f st.(local_sink_state) Hk Hf ltac:(lia)) as (r & κ & E & Hgk & Hr). rewrite E. orun. exists r, κ. split_and!; [done|done|].
    destruct Hr as [?|(-> & ? & ?)]; [by left|]. right. split_and!; [done| |done|done]. intros E0. apply size_empty in E0; [lia|done].
  - exists SinkNeedMoreInput, st.(local_sink_state). split_and!; [by destruct st|done|]. left. split_and!; [done| |done].
    rewrite chunk_size_rows in Hge by done. assert (rows f = []) as -> by (destruct (rows f); simpl in Hge; [done|lia]). by rewrite app_nil_r.
Qed.

(** What pushing a chunk at operator [initial] leads to; [inc] are the rows it brings. *)
Definition sunk (κ0 : Snk) (initial : nat) (ch : list C) (ss : list OS) (inc : list Row) (r : OperatorResultType) (κ : Snk) (ch' : list C) (f' : C) (ss' : list OS) (stk' : list nat) : Prop :=
  good_sink ks κ ∧ flow initial None ch' f' ss' stk' ∧ (∀ j, (j < initial)%nat → ch' !! j = ch !! j ∧ ss' !! j = ss !! j) ∧
  (r = NEED_MORE_INPUT ∧ stk' = [] ∧ received ks κ ++ owed ops ss' ≡ₚ received ks κ0 ++ inc ++ owed ops ss ∧ (blocks ks κ ≤ blocks ks κ0)%nat ∨
   r = BLOCKED ∧ rows f' ≠ [] ∧ received ks κ ++ rows f' ++ owed ops ss' ≡ₚ received ks κ0 ++ inc ++ owed ops ss ∧ (blocks ks κ < blocks ks κ0)%nat ∧
     (stk' ≠ [] → ∃ c, ch' !! initial = Some c ∧ chunk_size c ≠ 0)).

Definition incoming_at (initial : nat) (stk : list nat) (c : C) : list Row := match stk with [] => through (drop initial ops) (rows c) | _ => [] end.

(** A round of the loop, given the rounds that follow. *)
Lemma push_round initial ch f ss stk c st :
  (initial < length ops)%nat → flow initial None ch f ss stk → ch !! initial = Some c → chunk_size c ≠ 0 → good_sink ks st.(local_sink_state) →
  (∀ ch' f' ss' stk' st', stk' ≠ [] → (stk ≠ [] → lower ops ss' ss) → flow initial None ch' f' ss' stk' → ch' !! initial = Some c → good_sink ks st'.(local_sink_state) →
    ∃ k r κ ch2 f2 ss2 stk2, sunk st'.(local_sink_state) initial ch' ss' [] r κ ch2 f2 ss2 stk2 ∧
      ∀ g, push_loop pipe (k + g) (Intermediate initial) initial (upd st' ch' f' ss' stk') = Ret (r, upd (set_sink κ st') ch2 f2 ss2 stk2)) →
  ∃ k r κ ch' f' ss' stk', sunk st.(local_sink_state) initial ch ss (incoming_at initial stk c) r κ ch' f' ss' stk' ∧
    ∀ g, push_loop pipe (k + g) (Intermediate initial) initial (upd st ch f ss stk) = Ret (r, upd (set_sink κ st) ch' f' ss' stk').
Proof.
  intros Hinit Hfl Hc Hsz Hk Hrec. assert (flow initial None ch reset_chunk ss stk) as Hfl0 by (destruct Hfl; split; try done; apply good_reset).
  destruct (Execute_chunk_ok st initial ch reset_chunk ss stk c Hinit Hfl0 reset_rows Hc Hsz) as (k & ch1 & f1 & ss1 & stk1 & Hfl1 & Hbal & Hend & Hbel & Hch & Hfew & Hg). fold (incoming_at initial stk c) in Hbal.
  destruct (push_sink_ok st ch1 f1 ss1 stk1 Hk (fl_final _ _ _ _ _ _ Hfl1)) as (r & κ & Es & Hgk & Hr).
  assert (∀ fuel, push_loop pipe (S (k + fuel)) (Intermediate initial) initial (upd st ch f ss stk) =
    match r with
    | SinkBlocked => Ret (BLOCKED, upd (set_sink κ st) ch1 f1 ss1 stk1)
    | SinkFinished => Ret (FINISHED, FinishProcessing (-1) (upd (set_sink κ st) ch1 f1 ss1 stk1))
    | SinkNeedMoreInput => match stk1 with [] => Ret (NEED_MORE_INPUT, upd (set_sink κ st) ch1 f1 ss1 stk1) | _ => push_loop pipe (k + fuel) (Intermediate initial) initial (upd (set_sink κ st) ch1 f1 ss1 stk1) end
    end) as Hloop.
  { intros fuel. cbn [push_loop]. change (set_chunks (intermediate_chunks (upd st ch f ss stk)) reset_chunk (upd st ch f ss stk)) with (upd st ch reset_chunk ss stk).
    rewrite <- Nat.add_succ_r, Hg. orun. destruct stk1; rewrite Es; by destruct r. }
  destruct Hr as [(-> & Hrec1 & Hb1)|(-> & Hne & Hrec1 & Hb1)].
  - destruct (decide (stk1 = [])) as [->|Hstk].
    + exists (S k), NEED_MORE_INPUT, κ, ch1, f1, ss1, []. split; [|intros g; apply (Hloop g)]. split_and!; [done|done|done|]. left. split_and!; [done|done| |done]. rewrite Hrec1, <- app_assoc. by rewrite Hbal.
    + destruct (Hrec ch1 f1 ss1 stk1 (set_sink κ st) Hstk) as (k2 & r2 & κ2 & ch2 & f2 & ss2 & stk2 & (Hgk2 & Hfl2 & Hbel2 & Hres) & Hg2); [|done|by apply Hch|done|].
      { intros Hx. apply (fewer_calls_lower stk); [symmetry; exact (Forall2_length _ _ _ (fl_states _ _ _ _ _ _ Hfl))|symmetry; exact (Forall2_length _ _ _ (fl_states _ _ _ _ _ _ Hfl1))|by apply Hfew]. }
      exists (S (k + k2)), r2, κ2, ch2, f2, ss2, stk2. cbn [local_sink_state set_sink] in Hres. split.
      * split_and!; [done|done|intros j Hj; destruct (Hbel2 j Hj) as [-> ->]; by apply Hbel|].
        assert (∀ X, X ≡ₚ received ks κ ++ [] ++ owed ops ss1 → X ≡ₚ received ks st.(local_sink_state) ++ incoming_at initial stk c ++ owed ops ss) as HX by (intros X ->; cbn [app]; rewrite Hrec1, <- app_assoc; by rewrite Hbal).
        destruct Hres as [(-> & -> & Hbal2 & Hb2)|(-> & Hne2 & Hbal2 & Hb2 & Hch2)]; [left|right]; (split_and!; [done|done|by apply HX|lia|..]); done.
      * intros g. rewrite Nat.add_succ_l, <- Nat.add_assoc, Hloop. destruct stk1; [done|]. rewrite Nat.add_assoc, (Nat.add_comm k k2), <- Nat.add_assoc. rewrite Hg2. done.
  - exists (S k), BLOCKED, κ, ch1, f1, ss1, stk1. split; [|intros g; apply (Hloop g)]. split_and!; [done|done|done|]. right. split_and!; [done|done| |done|intros Hx; exists c; by rewrite Hch].
    rewrite Hrec1. by rewrite Hbal.
Qed.

Lemma push_rounds initial c ss : (initial < length ops)%nat → chunk_size c ≠ 0 →
  ∀ ch f stk st, stk ≠ [] → flow initial None ch f ss stk → ch !! initial = Some c → good_sink ks st.(local_sink_state) →
  ∃ k r κ ch' f' ss' stk', sunk st.(local_sink_state) initial ch ss [] r κ ch' f' ss' stk' ∧
    ∀ g, push_loop pipe (k + g) (Intermediate initial) initial (upd st ch f ss stk) = Ret (r, upd (set_sink κ st) ch' f' ss' stk').
Proof.
  intros Hinit Hsz. induction (lower_wf ops ss) as [ss _ IH]. intros ch f stk st Hstk Hfl Hc Hk.
  destruct (push_round initial ch f ss stk c st Hinit Hfl Hc Hsz Hk) as (k & r & κ & ch' & f' & ss' & stk' & Hs & Hg).
  - intros ch' f' ss' stk' st' Hstk' Hlow Hfl' Hc' Hk'. by apply (IH ss' (Hlow Hstk)).
  - exists k, r, κ, ch', f', ss', stk'. split; [|done]. by destruct stk.
Qed.

Lemma push_loop_ok initial ch f ss stk c st :
  (initial < length ops)%nat → flow initial None ch f ss stk → ch !! initial = Some c → chunk_size c ≠ 0 → good_sink ks st.(local_sink_state) →
  ∃ k r κ ch' f' ss' stk', sunk st.(local_sink_state) initial ch ss (incoming_at initial stk c) r κ ch' f' ss' stk' ∧
    ∀ g, push_loop pipe (k + g) (Intermediate initial) initial (upd st ch f ss stk) = Ret (r, upd (set_sink κ st) ch' f' ss' stk').
Proof.
  intros Hinit Hfl Hc Hsz Hk. apply push_round; try done. intros ch' f' ss' stk' st' Hstk' _ Hfl' Hc' Hk'. by apply (push_rounds initial c ss').
Qed.

(** ** The whole run *)

Context (sl : source_laws pipe.(p_source)) (Hbatch : pipe.(p_sink).(snk_requires_batch_index) = false).

Lemma upd_self st : upd st st.(intermediate_chunks) st.(final_chunk) st.(intermediate_states) st.(in_process_operators) = st.
Proof. by destruct st. Qed.

Lemma set_sink_self (st : executor (C := C) (OS := OS) (Src := Src) (Snk := Snk)) : set_sink st.(local_sink_state) st = st.
Proof. by destruct st. Qed.

(** [ExecutePushInternal] on a buffer between operators. *)
Lemma push_internal_ok initial st c :
  (initial < length ops)%nat → flow initial None st.(intermediate_chunks) st.(final_chunk) st.(intermediate_states) st.(in_process_operators) →
  st.(intermediate_chunks) !! initial = Some c → (chunk_size c = 0 → st.(in_process_operators) = []) → good_sink ks st.(local_sink_state) →
  ∃ k r κ ch' f' ss' stk', sunk st.(local_sink_state) initial st.(intermediate_chunks) st.(intermediate_states) (incoming_at initial st.(in_process_operators) c) r κ ch' f' ss' stk' ∧
    ∀ g, ExecutePushInternal pipe (k + g) (Intermediate initial) initial st = Ret (r, upd (set_sink κ st) ch' f' ss' stk').
Proof.
  intros Hinit Hfl Hc Hempty Hk. unfold ExecutePushInternal, load, vec_at. rewrite Hc. orun. destruct (Z.eqb_spec (chunk_size c) 0) as [E0|Hne].
  - exists 0%nat, NEED_MORE_INPUT, st.(local_sink_state), st.(intermediate_chunks), st.(final_chunk), st.(intermediate_states), []. specialize (Hempty E0). rewrite Hempty in *.
    split; [|intros _; by rewrite set_sink_self, <- Hempty, upd_self]. split_and!; [done|done|done|]. left. split_and!; [done|done| |done]. cbn [incoming_at].
    assert (rows c = []) as -> by (apply size_empty; [|done]; exact (Forall_lookup_1 _ _ _ _ (fl_chunks _ _ _ _ _ _ Hfl) Hc)). by rewrite through_nil.
  - destruct (push_loop_ok initial st.(intermediate_chunks) st.(final_chunk) st.(intermediate_states) st.(in_process_operators) c st Hinit Hfl Hc Hne Hk) as (k & r & κ & ch' & f' & ss' & stk' & Hs & Hg).
    rewrite upd_self in Hg. by exists k, r, κ, ch', f', ss', stk'.
Qed.

(** [ExecutePushInternal] on the final chunk. *)
Lemma push_final_ok initial st :
  good_sink ks st.(local_sink_state) → good_chunk st.(final_chunk) →
  ∃ r κ, good_sink ks κ ∧ (∀ g, ExecutePushInternal pipe (1 + g) FinalChunk initial st = Ret (r, set_sink κ st)) ∧
    (r = NEED_MORE_INPUT ∧ received ks κ ≡ₚ received ks st.(local_sink_state) ++ rows st.(final_chunk) ∧ (blocks ks κ ≤ blocks ks st.(local_sink_state))%nat ∨
     r = BLOCKED ∧ rows st.(final_chunk) ≠ [] ∧ received ks κ ≡ₚ received ks st.(local_sink_state) ∧ (blocks ks κ < blocks ks st.(local_sink_state))%nat).
Proof.
  intros Hk Hf. destruct (push_sink_ok st st.(intermediate_chunks) st.(final_chunk) st.(intermediate_states) st.(in_process_operators) Hk Hf) as (r & κ & E & Hgk & Hr). rewrite upd_self in E.
  assert (upd (set_sink κ st) st.(intermediate_chunks) st.(final_chunk) st.(intermediate_states) st.(in_process_operators) = set_sink κ st) as Eu by (by destruct st). rewrite Eu in E.
  unfold ExecutePushInternal, load. orun. destruct (Z.eqb_spec (chunk_size st.(final_chunk)) 0) as [E0|Hne].
  - exists NEED_MORE_INPUT, st.(local_sink_state). split_and!; [done|intros g; by rewrite set_sink_self|]. left. split_and!; [done| |done]. apply size_empty in E0; [|done]. rewrite E0. by rewrite app_nil_r.
  - destruct Hr as [(-> & Hr)|(-> & Hr)]; [exists NEED_MORE_INPUT, κ|exists BLOCKED, κ]; (split_and!; [done| |]); [intros g; cbn; by rewrite E|by left|intros g; cbn; by rewrite E|by right].
Qed.

(** Operator [j] keeps nothing back. *)
Definition drained (ss : list OS) (j : nat) : Prop := ∀ o s, ops !! j = Some o → ss !! j = Some s → kept (laws o) s = [].

(** The first operator chunks are pushed to. *)
Definition push_entry (st : executor (C := C) (OS := OS) (Src := Src) (Snk := Snk)) : nat := if st.(started_flushing) then S st.(flushing_idx) else 0.

Definition in_sink (st : executor (C := C) (OS := OS) (Src := Src) (Snk := Snk)) : list Row := received ks st.(local_sink_state).

(** All rows are accounted for: in the sink, in the chunk the sink did not take,
    owed by operators, or not fetched. *)
Record exec_inv (total : list Row) (st : executor) : Prop := {
  ei_source : st.(exhausted_source) = false → good_source sl st.(local_source_state);
  ei_sink : good_sink ks st.(local_sink_state);
  ei_flow : flow (push_entry st) None st.(intermediate_chunks) st.(final_chunk) st.(intermediate_states) st.(in_process_operators);
  ei_input : st.(in_process_operators) ≠ [] → ∃ c, st.(intermediate_chunks) !! push_entry st = Some c ∧ chunk_size c ≠ 0;
  ei_balance : in_sink st ++ (if st.(remaining_sink_chunk) then rows st.(final_chunk) else []) ++ owed ops st.(intermediate_states) ++
    through ops (if st.(exhausted_source) then [] else rest sl st.(local_source_state)) ≡ₚ total;
  ei_flushing : st.(started_flushing) = true → st.(exhausted_source) = true ∧ (st.(flushing_idx) ≤ length ops)%nat ∧ (∀ j, (j < st.(flushing_idx))%nat → drained st.(intermediate_states) j) ∧
    (st.(should_flush_current_idx) = false → drained st.(intermediate_states) st.(flushing_idx)) ∧
    (st.(should_flush_current_idx) = false ∨ st.(in_process_operators) ≠ [] → ∃ o, ops !! st.(flushing_idx) = Some o ∧ (op_of o).(op_RequiresFinalExecute) = true);
  ei_before : st.(started_flushing) = false → st.(should_flush_current_idx) = true ∧ st.(done_flushing) = false;
  ei_done : st.(done_flushing) = true → (length ops ≤ st.(flushing_idx))%nat ∧ st.(remaining_sink_chunk) = false ∧ st.(in_process_operators) = [];
  ei_flags : st.(finished_processing_idx) < 0 ∧ st.(finalized) = false ∧ st.(next_batch_blocked) = false
}.

(** *** Flushing *)

Lemma final_execute_step st ch f ss stk o s r out s' :
  length ch = length ops → (st.(flushing_idx) < length ops)%nat → ss !! st.(flushing_idx) = Some s → (op_of o).(op_FinalExecute) s = Ret (r, out, s') → let i := st.(flushing_idx) in
  final_execute pipe (op_of o) (upd st ch f ss stk) = Ret (r, upd st (put_chunk i out ch) (put_final i out f) (<[i := s']> ss) stk).
Proof.
  intros Hl Hi Hs E i. unfold final_execute. change (flushing_idx (upd st ch f ss stk)) with i. rewrite store_at by done. orun. rewrite not_interrupted. orun.
  cbn [flushing_idx upd set_in_process set_states set_chunks intermediate_states]. fold i. unfold vec_at at 1. fold i in Hs. rewrite Hs. orun. rewrite E. orun. fold i.
  change (store _ _ _) with (store (chunk_at (S i) (upd st (put_chunk i reset_chunk ch) (put_final i reset_chunk f) (<[i := s']> ss) stk)) out (upd st (put_chunk i reset_chunk ch) (put_final i reset_chunk f) (<[i := s']> ss) stk)).
  rewrite store_at; [|unfold put_chunk; case_decide; by rewrite ?length_insert|done]. orun.
  assert (put_chunk i out (put_chunk i reset_chunk ch) = put_chunk i out ch) as -> by (unfold put_chunk; case_decide; [by rewrite list_insert_insert_eq|done]).
  assert (put_final i out (put_final i reset_chunk f) = put_final i out f) as -> by (unfold put_final; by case_decide). done.
Qed.

(** [FinalExecute] puts what the operator kept into the next buffer. *)
Lemma final_execute_ok st o s :
  flow (S st.(flushing_idx)) None st.(intermediate_chunks) st.(final_chunk) st.(intermediate_states) st.(in_process_operators) → st.(in_process_operators) = [] →
  ops !! st.(flushing_idx) = Some o → (op_of o).(op_RequiresFinalExecute) = true → st.(intermediate_states) !! st.(flushing_idx) = Some s →
  ∃ r out s', let i := st.(flushing_idx) in
    let ch1 := put_chunk i out st.(intermediate_chunks) in let f1 := put_final i out st.(final_chunk) in let ss1 := <[i := s']> st.(intermediate_states) in
    final_execute pipe (op_of o) st = Ret (r, upd st ch1 f1 ss1 []) ∧ flow (S i) None ch1 f1 ss1 [] ∧ good_chunk out ∧
    through (drop (S i) ops) (rows out) ++ owed ops ss1 ≡ₚ owed ops st.(intermediate_states) ∧ at_chunk (laws o) s' = None ∧
    (r = FinalFinished ∧ kept (laws o) s' = [] ∨ r = FinalHaveMoreOutput ∧ (calls (laws o) s' < calls (laws o) s)%nat).
Proof.
  intros Hfl Hstk Ho Hreq Hs. pose proof Hfl as [Hl Hgc Hgf Hgs _ _ Hat]. pose proof (lookup_lt_Some _ _ _ Ho) as Hin. set (i := st.(flushing_idx)) in *.
  assert (good_state (laws o) s) as Hgood by exact (Forall2_lookup_lr _ _ _ _ _ _ Hgs Ho Hs). pose proof (Hat i ltac:(done) o s Ho Hs) as Ha. rewrite Hstk, decide_False in Ha by apply not_elem_of_nil.
  destruct (law_final (laws o) Hreq s Hgood Ha) as (r & out & s' & E & Hgs' & Hgo & Ha' & Hrows & Hr). exists r, out, s'. intros i' ch1 f1 ss1. subst i'. split_and!; try done.
  - rewrite <- (upd_self st) at 1. rewrite Hstk. by apply (final_execute_step st _ _ _ [] o s).
  - split; [unfold ch1, put_chunk; case_decide; by rewrite ?length_insert|unfold ch1, put_chunk; case_decide; [by apply Forall_insert|done]|unfold f1, put_final; by case_decide| |constructor|constructor|].
    + apply Forall2_same_length_lookup_2; [unfold ss1; rewrite length_insert; by eapply Forall2_length|]. intros j o' x Ho' Hx. unfold ss1 in Hx. destruct (decide (j = i)) as [->|Hne].
      * rewrite list_lookup_insert_eq in Hx by (by eapply lookup_lt_Some). by simplify_eq.
      * rewrite list_lookup_insert_ne in Hx by done. by apply (Forall2_lookup_lr _ _ _ _ _ _ Hgs Ho' Hx).
    + intros j _ o' x Ho' Hx. rewrite decide_False by apply not_elem_of_nil. unfold ss1 in Hx. destruct (decide (j = i)) as [->|Hne].
      * rewrite list_lookup_insert_eq in Hx by (by eapply lookup_lt_Some). by simplify_eq.
      * rewrite list_lookup_insert_ne in Hx by done. pose proof (Hat j ltac:(done) o' x Ho' Hx) as Hj. by rewrite Hstk, decide_False in Hj by apply not_elem_of_nil.
  - pose proof (owed_insert ops st.(intermediate_states) i o s s' Ho Hs) as Hins. fold ss1 in Hins. rewrite (law_fresh (laws o) s Hgood Ha), (law_fresh (laws o) s' Hgs' Ha'), !app_nil_r in Hins.
    apply (Permutation_app_inv_r (through (drop (S i) ops) (kept (laws o) s))). rewrite <- app_assoc, Hins, <- Hrows, through_app. solve_Permutation.
Qed.

(** The rows the buffer after the flushed operator brings. *)
Definition flush_rows (st : executor (C := C) (OS := OS) (Src := Src) (Snk := Snk)) : list Row :=
  match st.(intermediate_chunks) !! S st.(flushing_idx) with
  | Some c => incoming_at (S st.(flushing_idx)) st.(in_process_operators) c
  | None => rows st.(final_chunk)
  end.

Lemma flush_push_ok st :
  (st.(flushing_idx) < length ops)%nat → flow (S st.(flushing_idx)) None st.(intermediate_chunks) st.(final_chunk) st.(intermediate_states) st.(in_process_operators) →
  (∀ c, st.(intermediate_chunks) !! S st.(flushing_idx) = Some c → chunk_size c = 0 → st.(in_process_operators) = []) → good_sink ks st.(local_sink_state) →
  ∃ k r κ ch' f' ss' stk', sunk st.(local_sink_state) (S st.(flushing_idx)) st.(intermediate_chunks) st.(intermediate_states) (flush_rows st) r κ ch' f' ss' stk' ∧
    ∀ g, ExecutePushInternal pipe (k + g) (chunk_at (S st.(flushing_idx)) st) (S st.(flushing_idx)) st = Ret (r, upd (set_sink κ st) ch' f' ss' stk').
Proof.
  intros Hi Hfl Hin Hk. unfold flush_rows, chunk_at. rewrite (fl_length _ _ _ _ _ _ Hfl). destruct (decide (S st.(flushing_idx) < length ops)%nat) as [Hlt|Hge].
  - rewrite decide_False by lia. destruct (lookup_lt_is_Some_2 st.(intermediate_chunks) (S st.(flushing_idx))) as [c Hc]; [rewrite (fl_length _ _ _ _ _ _ Hfl); lia|].
    rewrite Hc. apply push_internal_ok; try done. by apply Hin.
  - rewrite decide_True by lia. rewrite lookup_ge_None_2 by (rewrite (fl_length _ _ _ _ _ _ Hfl); lia).
    destruct (push_final_ok (S st.(flushing_idx)) st Hk (fl_final _ _ _ _ _ _ Hfl)) as (r & κ & Hgk & Hg & Hr).
    assert (st.(in_process_operators) = []) as Hstk.
    { pose proof (fl_range _ _ _ _ _ _ Hfl) as Hr'. destruct st.(in_process_operators); [done|]. apply Forall_cons in Hr' as [? _]. lia. }
    exists 1%nat, r, κ, st.(intermediate_chunks), st.(final_chunk), st.(intermediate_states), []. split.
    + split_and!; [done|by rewrite Hstk in Hfl|done|]. destruct Hr as [(-> & Hrec & Hb)|(-> & Hne & Hrec & Hb)]; [left|right].
      * split_and!; [done|done| |done]. by rewrite Hrec, <- app_assoc.
      * split_and!; [done|done|by rewrite Hrec|done|done].
    + intros g. rewrite Hg. do 2 f_equal. rewrite <- Hstk. by destruct st.
Qed.

(** What a push after the flushed operator leaves. *)
Lemma flush_after total st o ch1 ss1 inc sh r κ ch' f' ss' stk' :
  exec_inv total st → st.(started_flushing) = true → ops !! st.(flushing_idx) = Some o → (op_of o).(op_RequiresFinalExecute) = true →
  in_sink st ++ inc ++ owed ops ss1 ≡ₚ total → (∀ j, (j < st.(flushing_idx))%nat → ss1 !! j = st.(intermediate_states) !! j) → (sh = false → drained ss1 st.(flushing_idx)) →
  sunk st.(local_sink_state) (S st.(flushing_idx)) ch1 ss1 inc r κ ch' f' ss' stk' →
  let st' := set_flushing true st.(flushing_idx) sh (upd (set_sink κ st) ch' f' ss' stk') in
  (r = NEED_MORE_INPUT ∧ stk' = [] ∧ exec_inv total (set_remaining false st') ∧ (blocks ks κ ≤ blocks ks st.(local_sink_state))%nat ∧ ss' !! st.(flushing_idx) = ss1 !! st.(flushing_idx)) ∨
  (r = BLOCKED ∧ exec_inv total (set_remaining true st') ∧ (blocks ks κ < blocks ks st.(local_sink_state))%nat).
Proof.
  intros [Hsrc Hsnk Hfl Hinp Hbal Hflu Hbef Hdone Hflags] Hst Ho Hreq Htot Hsame Hdr (Hgk & Hfl' & Hbel & Hcases) st'.
  pose proof (lookup_lt_Some _ _ _ Ho) as Hlt. destruct (Hflu Hst) as (Hex & Hle & Hbelow & _).
  assert (∀ j, (j < st.(flushing_idx))%nat → drained ss' j) as Hdr'.
  { intros j Hj o' s' Ho' Hs'. rewrite (proj2 (Hbel j ltac:(lia))), Hsame in Hs' by done. by apply (Hbelow j Hj o' s'). }
  assert (sh = false → drained ss' st.(flushing_idx)) as Hdrs.
  { intros Hsh o' s' Ho' Hs'. rewrite (proj2 (Hbel _ (Nat.lt_succ_diag_r _))) in Hs'. by apply (Hdr Hsh o' s'). }
  destruct Hcases as [(-> & -> & Hrec & Hb)|(-> & Hne & Hrec & Hb & Hstk)]; [left; split_and!; try done|right; split_and!; try done].
  - split; try done; cbn.
    + rewrite Hex, through_nil, app_nil_r. unfold in_sink. cbn. by rewrite Hrec.
    + intros _. split_and!; [done|lia|done|done|by exists o].
    + intros Hd. specialize (Hdone Hd). lia.
  - apply Hbel. lia.
  - split; try done; cbn.
    + rewrite Hex, through_nil, app_nil_r. unfold in_sink. cbn. by rewrite Hrec.
    + intros _. split_and!; [done|lia|done|done|by exists o].
    + intros Hd. specialize (Hdone Hd). lia.
Qed.

(** The rounds that follow run with this state. *)
Definition same_run (st st' : executor (C := C) (OS := OS) (Src := Src) (Snk := Snk)) : Prop :=
  st'.(local_source_state) = st.(local_source_state) ∧ st'.(exhausted_source) = st.(exhausted_source) ∧ st'.(done_flushing) = st.(done_flushing) ∧
  (blocks ks st'.(local_sink_state) ≤ blocks ks st.(local_sink_state))%nat.

#[local] Instance same_run_preorder : PreOrder same_run.
Proof. split; [intros st; by repeat split|]. intros st1 st2 st3 (E1 & E2 & E3 & E4) (F1 & F2 & F3 & F4). split_and!; try congruence. lia. Qed.

Lemma set_remaining_same b (st : executor (C := C) (OS := OS) (Src := Src) (Snk := Snk)) : st.(remaining_sink_chunk) = b → set_remaining b st = st.
Proof. intros <-. by destruct st. Qed.

Lemma turn_flags st i κ ch f ss stk b sh :
  st.(started_flushing) = b → st.(flushing_idx) = i →
  let st' := upd (set_sink κ st) ch f ss stk in set_flushing st'.(started_flushing) st'.(flushing_idx) sh st' = set_flushing b i sh st'.
Proof. by intros <- <-. Qed.

(** One turn of the flushing loop. *)
Lemma flush_turn st o :
  ops !! st.(flushing_idx) = Some o → (op_of o).(op_RequiresFinalExecute) = true → st.(should_flush_current_idx) = true ∨ st.(in_process_operators) ≠ [] → ∀ fuel,
  flush_loop pipe (S fuel) st =
    let* (finalize_result, st) := if bool_decide (st.(in_process_operators) = []) then final_execute pipe (op_of o) st else Ret (FinalHaveMoreOutput, st) in
    let* (push_result, st) := ExecutePushInternal pipe (S fuel) (chunk_at (S st.(flushing_idx)) st) (S st.(flushing_idx)) st in
    let st := set_flushing st.(started_flushing) st.(flushing_idx) (match finalize_result with FinalHaveMoreOutput => true | FinalFinished => false end) st in
    match push_result with BLOCKED => Ret (false, set_remaining true st) | FINISHED => Ret (true, st) | _ => flush_loop pipe fuel st end.
Proof.
  intros Ho Hreq Hgo fuel. cbn [flush_loop]. pose proof (lookup_lt_Some _ _ _ Ho) as Hlt. rewrite decide_True by (by rewrite Hops, length_fmap). rewrite (operator_at _ o Ho). orun. rewrite Hreq. cbn [negb].
  destruct st.(in_process_operators) eqn:Estk; [|by rewrite andb_false_r]. destruct Hgo as [->|?]; done.
Qed.

(** The state after a turn, and whether the loop goes on. *)
Definition turned (total : list Row) (st : executor) (k : nat) (st' : executor) : Prop :=
  same_run st st' ∧ st'.(started_flushing) = true ∧ st'.(flushing_idx) = st.(flushing_idx) ∧ exec_inv total st' ∧
  (st'.(remaining_sink_chunk) = false ∧ st'.(in_process_operators) = [] ∧ (∀ g, flush_loop pipe (S (k + g)) st = flush_loop pipe (k + g) st') ∨
   st'.(remaining_sink_chunk) = true ∧ (blocks ks st'.(local_sink_state) < blocks ks st.(local_sink_state))%nat ∧ ∀ g, flush_loop pipe (S (k + g)) st = Ret (false, st')).

(** The push of what is left from a blocked push. *)
Lemma flush_again total st o :
  exec_inv total st → st.(started_flushing) = true → st.(remaining_sink_chunk) = false → ops !! st.(flushing_idx) = Some o → (op_of o).(op_RequiresFinalExecute) = true →
  st.(in_process_operators) ≠ [] → ∃ k st', turned total st k st'.
Proof.
  intros Hinv Hst Hrem Ho Hreq Estk. pose proof Hinv as [Hsrc Hsnk Hfl Hinp Hbal Hflu _ _ _]. pose proof (lookup_lt_Some _ _ _ Ho) as Hlt. pose proof (flush_turn st o Ho Hreq (or_intror Estk)) as Hloop.
  unfold push_entry in Hfl, Hinp. rewrite Hst in Hfl, Hinp. destruct (Hflu Hst) as (Hex & _). rewrite Hrem, Hex, through_nil, app_nil_r in Hbal. cbn [app] in Hbal.
  destruct (Hinp Estk) as (c & Hc & Hsz). destruct (flush_push_ok st Hlt Hfl) as (k & pr & κ & ch' & f' & ss' & stk' & Hsunk & Hpush); [intros c' Hc' Hz; by simplify_eq|done|].
  assert (flush_rows st = []) as Einc by (unfold flush_rows; rewrite Hc; by destruct st.(in_process_operators)). rewrite Einc in Hsunk. exists k, (set_remaining (match pr with BLOCKED => true | _ => false end) (set_flushing true st.(flushing_idx) true (upd (set_sink κ st) ch' f' ss' stk'))).
  destruct (flush_after total st o _ _ [] true pr κ ch' f' ss' stk' Hinv Hst Ho Hreq Hbal ltac:(done) ltac:(done) Hsunk) as [(-> & -> & Hinv' & Hb & _)|(-> & Hinv' & Hb)].
  - split_and!; [done..|]. left. split_and!; [done..|]. intros g. rewrite Hloop, bool_decide_false by done. orun. rewrite <- Nat.add_succ_r, Hpush. orun. rewrite (turn_flags st st.(flushing_idx) _ _ _ _ _ true) by done. by rewrite set_remaining_same.
  - split_and!; [split_and!; [done..|cbn; lia]|done|done|done|]. right. split_and!; [done..|]. intros g. rewrite Hloop, bool_decide_false by done. orun. rewrite <- Nat.add_succ_r, Hpush. orun. by rewrite (turn_flags st st.(flushing_idx) _ _ _ _ _ true).
Qed.

(** The push of what [FinalExecute] gives. *)
Lemma flush_step total st o s :
  exec_inv total st → st.(started_flushing) = true → st.(remaining_sink_chunk) = false → ops !! st.(flushing_idx) = Some o → (op_of o).(op_RequiresFinalExecute) = true →
  st.(intermediate_states) !! st.(flushing_idx) = Some s → st.(should_flush_current_idx) = true → st.(in_process_operators) = [] →
  ∃ k st', turned total st k st' ∧
    (st'.(remaining_sink_chunk) = false → st'.(should_flush_current_idx) = false ∨ ∃ s', st'.(intermediate_states) !! st'.(flushing_idx) = Some s' ∧ (calls (laws o) s' < calls (laws o) s)%nat).
Proof.
  intros Hinv Hst Hrem Ho Hreq Hs Hgo Estk. pose proof Hinv as [Hsrc Hsnk Hfl _ Hbal Hflu _ _ _]. pose proof (lookup_lt_Some _ _ _ Ho) as Hlt. pose proof (flush_turn st o Ho Hreq (or_introl Hgo)) as Hloop.
  unfold push_entry in Hfl. rewrite Hst in Hfl. destruct (Hflu Hst) as (Hex & _). rewrite Hrem, Hex, through_nil, app_nil_r in Hbal. cbn [app] in Hbal.
  destruct (final_execute_ok st o s Hfl Estk Ho Hreq Hs) as (r & out & s' & Hrun & Hfl1 & Hout & Hbal1 & Hat1 & Hr). cbv zeta in Hrun, Hfl1, Hbal1.
  set (i := st.(flushing_idx)) in *. set (ch1 := put_chunk i out st.(intermediate_chunks)) in *. set (f1 := put_final i out st.(final_chunk)) in *. set (ss1 := <[i:=s']> st.(intermediate_states)) in *.
  set (st1 := upd st ch1 f1 ss1 []) in *. set (sh := match r with FinalHaveMoreOutput => true | FinalFinished => false end).
  assert (flush_rows st1 = through (drop (S i) ops) (rows out)) as Einc.
  { unfold flush_rows. cbn. fold i. unfold ch1, f1, put_chunk, put_final. case_decide as Hd.
    - rewrite list_lookup_insert_eq by (rewrite (fl_length _ _ _ _ _ _ Hfl); lia). done.
    - rewrite lookup_ge_None_2 by (rewrite (fl_length _ _ _ _ _ _ Hfl); lia). by rewrite drop_ge by lia. }
  destruct (flush_push_ok st1 Hlt Hfl1 ltac:(done) Hsnk) as (k & pr & κ & ch' & f' & ss' & stk' & Hsunk & Hpush). rewrite Einc in Hsunk. cbn in Hsunk. fold i in Hsunk. change (flushing_idx st1) with i in Hpush. change (upd (set_sink κ st1) ch' f' ss' stk') with (upd (set_sink κ st) ch' f' ss' stk') in Hpush.
  assert (ss1 !! i = Some s') as Hs1 by (apply list_lookup_insert_eq; by eapply lookup_lt_Some).
  exists k, (set_remaining (match pr with BLOCKED => true | _ => false end) (set_flushing true i sh (upd (set_sink κ st) ch' f' ss' stk'))).
  destruct (flush_after total st o ch1 ss1 (through (drop (S i) ops) (rows out)) sh pr κ ch' f' ss' stk' Hinv Hst Ho Hreq)
    as [(-> & -> & Hinv' & Hb & Hsame)|(-> & Hinv' & Hb)]; try done.
  - by rewrite Hbal1.
  - intros j Hj. apply list_lookup_insert_ne. fold i in Hj. lia.
  - intros Hsh o' x Ho' Hx. fold i in Ho', Hx. simplify_eq. by destruct Hr as [[-> ?]|[-> _]].
  - split; [split_and!; [done..|]; left; split_and!; [done..|]|].
    + intros g. rewrite Hloop, bool_decide_true by done. rewrite Hrun. orun. change (flushing_idx st1) with i. rewrite <- Nat.add_succ_r, Hpush. orun. rewrite (turn_flags st st.(flushing_idx) _ _ _ _ _ true) by done. by rewrite set_remaining_same.
    + intros _. cbn. fold i in Hsame. rewrite Hsame, Hs1. destruct Hr as [[-> _]|[-> Hc]]; [by left|right; by exists s'].
  - split; [split_and!; [split_and!; [done..|cbn; lia]|done|done|done|]; right; split_and!; [done..|]|done].
    intros g. rewrite Hloop, bool_decide_true by done. rewrite Hrun. orun. change (flushing_idx st1) with i. rewrite <- Nat.add_succ_r, Hpush. orun. by rewrite (turn_flags st st.(flushing_idx) _ _ _ _ _ true).
Qed.

(** The flushing loop ends: all operators are flushed, or the sink blocked. *)
Definition flushes (total : list Row) (st : executor) : Prop :=
  ∃ k b st', same_run st st' ∧ exec_inv total st' ∧ st'.(started_flushing) = true ∧
    (b = true ∧ (length ops ≤ st'.(flushing_idx))%nat ∧ st'.(remaining_sink_chunk) = false ∧ st'.(in_process_operators) = [] ∨
     b = false ∧ st'.(remaining_sink_chunk) = true ∧ (blocks ks st'.(local_sink_state) < blocks ks st.(local_sink_state))%nat) ∧
    ∀ g, flush_loop pipe (k + g) st = Ret (b, st').

Lemma flushes_after total k st st1 :
  (∀ g, flush_loop pipe (S (k + g)) st = flush_loop pipe (k + g) st1) → same_run st st1 → flushes total st1 → flushes total st.
Proof.
  intros Hk Hsame (k1 & b & st' & Hrun & Hinv & Hst & Hb & Hg). exists (S (k + k1)), b, st'. split_and!; [by etrans|done|done| |].
  - destruct Hsame as (_ & _ & _ & Hle). destruct Hb as [Hb|(-> & Hr & Hlt)]; [by left|right; split_and!; [done..|lia]].
  - intros g. replace (S (k + k1) + g)%nat with (S (k + (k1 + g))) by lia. rewrite Hk. replace (k + (k1 + g))%nat with (k1 + (k + g))%nat by lia. apply Hg.
Qed.

Lemma turned_flushes total st k st' : turned total st k st' → (st'.(remaining_sink_chunk) = false → st'.(in_process_operators) = [] → flushes total st') → flushes total st.
Proof.
  intros (Hrun & Hst & Hidx & Hinv & [(Hrem & Hstk & Hg)|(Hrem & Hb & Hg)]) Hon; [by eapply flushes_after; [exact Hg|done|apply Hon]|].
  exists (S k), false, st'. split_and!; try done. by right.
Qed.

(** The next operator. *)
Lemma flush_advance total st :
  exec_inv total st → st.(started_flushing) = true → (st.(flushing_idx) < length ops)%nat → st.(in_process_operators) = [] → drained st.(intermediate_states) st.(flushing_idx) →
  exec_inv total (set_flushing true (S st.(flushing_idx)) true st).
Proof.
  intros [Hsrc Hsnk Hfl Hinp Hbal Hflu Hbef Hdone Hflags] Hst Hlt Hstk Hdr. destruct (Hflu Hst) as (Hex & Hle & Hbelow & Hsh & Hreq). split; try done; cbn.
  - unfold push_entry in Hfl |- *. cbn. rewrite Hst, Hstk in Hfl. rewrite Hstk. by destruct Hfl; split.
  - intros _. split_and!; [done|lia| |done|by intros [?|?]]. intros j Hj. destruct (decide (j = st.(flushing_idx))) as [->|]; [done|]. apply Hbelow. lia.
  - intros Hd. specialize (Hdone Hd). lia.
Qed.

Section Loop.
  Context (total : list Row) (m : nat).
  Context (IH : ∀ st, (length ops - st.(flushing_idx) < m)%nat → exec_inv total st → st.(started_flushing) = true → st.(remaining_sink_chunk) = false → flushes total st).

Lemma flush_next st o :
  (length ops - st.(flushing_idx) ≤ m)%nat → exec_inv total st → st.(started_flushing) = true → st.(remaining_sink_chunk) = false → ops !! st.(flushing_idx) = Some o →
  st.(in_process_operators) = [] → ((op_of o).(op_RequiresFinalExecute) = true → st.(should_flush_current_idx) = false) → flushes total st.
Proof.
  intros Hm Hinv Hst Hrem Ho Hstk Hgo. pose proof (lookup_lt_Some _ _ _ Ho) as Hlt. destruct (ei_flushing _ _ Hinv Hst) as (_ & _ & _ & Hsh & Hreq).
  assert (drained st.(intermediate_states) st.(flushing_idx)) as Hdr.
  { destruct (op_of o).(op_RequiresFinalExecute) eqn:Er; [by apply Hsh, Hgo|]. intros o' s Ho' Hs. assert (o' = o) as -> by congruence. apply (law_keeps (laws o) Er). exact (Forall2_lookup_lr _ _ _ _ _ _ (fl_states _ _ _ _ _ _ (ei_flow _ _ Hinv)) Ho' Hs). }
  assert (flushes total (set_flushing true (S st.(flushing_idx)) true st)) as Hnext by (apply IH; [cbn; lia|by apply flush_advance|done|done]).
  apply (flushes_after total 0 st) in Hnext; [done| |by split_and!]. intros g. cbn [flush_loop]. rewrite decide_True by (by rewrite Hops, length_fmap). rewrite (operator_at _ o Ho). orun. rewrite Hst.
  destruct (op_of o).(op_RequiresFinalExecute) eqn:Er; cbn [negb].
  - by rewrite (Hgo eq_refl), Hstk.
  - destruct st.(should_flush_current_idx); [done|]. destruct Hreq as (o' & Ho' & Hr); [by left|]. congruence.
Qed.

Lemma flush_calls o c st s :
  (length ops - st.(flushing_idx) ≤ m)%nat → exec_inv total st → st.(started_flushing) = true → st.(remaining_sink_chunk) = false → ops !! st.(flushing_idx) = Some o →
  st.(in_process_operators) = [] → st.(intermediate_states) !! st.(flushing_idx) = Some s → (calls (laws o) s < c)%nat → flushes total st.
Proof.
  revert st s. induction c as [|c IHc]; intros st s Hm Hinv Hst Hrem Ho Hstk Hs Hc; [lia|]. destruct (op_of o).(op_RequiresFinalExecute) eqn:Er; [|apply (flush_next st o); try done; congruence].
  destruct st.(should_flush_current_idx) eqn:Esh; [|by apply (flush_next st o)].
  destruct (flush_step total st o s Hinv Hst Hrem Ho Er Hs Esh Hstk) as (k & st' & Hturn & Hnext). pose proof Hturn as (_ & Hst' & Hidx & Hinv' & _). rewrite <- Hidx in Hm, Ho.
  apply (turned_flushes total st k st' Hturn). intros Hrem' Hstk'. destruct (Hnext Hrem') as [Hsh|(s' & Hs' & Hlt)]; [by apply (flush_next st' o)|]. apply (IHc st' s'); try done. lia.
Qed.

Lemma flush_here st :
  (length ops - st.(flushing_idx) ≤ m)%nat → exec_inv total st → st.(started_flushing) = true → st.(remaining_sink_chunk) = false → flushes total st.
Proof.
  intros Hm Hinv Hst Hrem. pose proof (ei_flow _ _ Hinv) as Hfl. unfold push_entry in Hfl. rewrite Hst in Hfl. destruct (ops !! st.(flushing_idx)) as [o|] eqn:Ho.
  - assert (∀ st', exec_inv total st' → st'.(started_flushing) = true → st'.(remaining_sink_chunk) = false → st'.(flushing_idx) = st.(flushing_idx) → st'.(in_process_operators) = [] → flushes total st') as Hempty.
    { intros st' Hinv' Hst' Hrem' Hidx Hstk. rewrite <- Hidx in Hm, Ho. destruct (Forall2_lookup_l _ _ _ _ _ (fl_states _ _ _ _ _ _ (ei_flow _ _ Hinv')) Ho) as (s & Hs & _). by eapply (flush_calls o (S (calls (laws o) s)) st' s); try done; lia. }
    destruct (decide (st.(in_process_operators) = [])) as [Hstk|Hstk]; [by apply Hempty|]. destruct (ei_flushing _ _ Hinv Hst) as (_ & _ & _ & _ & Hreq).
    destruct Hreq as (o' & Ho' & Hr); [by right|]. destruct (flush_again total st o' Hinv Hst Hrem Ho' Hr Hstk) as (k & st' & Hturn). pose proof Hturn as (_ & Hst' & Hidx & Hinv' & _).
    apply (turned_flushes total st k st' Hturn). intros Hrem' Hstk'. by apply Hempty.
  - apply lookup_ge_None in Ho. exists 1%nat, true, st. split_and!; try done.
    + left. split_and!; [done..|]. pose proof (fl_range _ _ _ _ _ _ Hfl) as Hr. destruct st.(in_process_operators); [done|]. apply Forall_cons in Hr as [? _]. lia.
    + intros g. cbn. rewrite decide_False; [done|]. rewrite Hops, length_fmap. lia.
Qed.
End Loop.

Lemma flush_loop_ok total st : exec_inv total st → st.(started_flushing) = true → st.(remaining_sink_chunk) = false → flushes total st.
Proof.
  remember (length ops - st.(flushing_idx))%nat as m eqn:Em. revert st Em. induction m as [m IH] using lt_wf_ind. intros st -> Hinv Hst Hrem.
  apply (flush_here total (length ops - st.(flushing_idx))); try done. intros st' Hlt Hinv' Hst' Hrem'. by eapply IH.
Qed.

(** [TryFlushCachingOperators], once the source is exhausted. *)
Lemma TryFlush_ok total st :
  exec_inv total st → st.(exhausted_source) = true → st.(remaining_sink_chunk) = false → (st.(started_flushing) = false → st.(in_process_operators) = []) →
  ∃ k b st', same_run st st' ∧ exec_inv total st' ∧ st'.(started_flushing) = true ∧
    (b = true ∧ (length ops ≤ st'.(flushing_idx))%nat ∧ st'.(remaining_sink_chunk) = false ∧ st'.(in_process_operators) = [] ∨
     b = false ∧ st'.(remaining_sink_chunk) = true ∧ (blocks ks st'.(local_sink_state) < blocks ks st.(local_sink_state))%nat) ∧
    ∀ g, TryFlushCachingOperators pipe (k + g) st = Ret (b, st').
Proof.
  intros Hinv Hex Hrem Hstk. unfold TryFlushCachingOperators. destruct st.(started_flushing) eqn:Hst; [by apply flush_loop_ok|].
  destruct Hinv as [Hsrc Hsnk Hfl Hinp Hbal Hflu Hbef Hdone Hflags]. specialize (Hstk eq_refl). destruct (Hbef Hst) as [Hsh Hnd].
  assert (IsFinished st = false) as -> by (unfold IsFinished; apply Z.leb_gt; lia). rewrite Hsh.
  change (∃ k b st', same_run (set_flushing true 0 true st) st' ∧ exec_inv total st' ∧ st'.(started_flushing) = true ∧
    (b = true ∧ (length ops ≤ st'.(flushing_idx))%nat ∧ st'.(remaining_sink_chunk) = false ∧ st'.(in_process_operators) = [] ∨
     b = false ∧ st'.(remaining_sink_chunk) = true ∧ (blocks ks st'.(local_sink_state) < blocks ks (set_flushing true 0 true st).(local_sink_state))%nat) ∧
    ∀ g, flush_loop pipe (k + g) (set_flushing true 0 true st) = Ret (b, st')).
  apply flush_loop_ok; [|done|done]. split; try done; cbn.
  - unfold push_entry in Hfl |- *. cbn. rewrite Hst, Hstk in Hfl. rewrite Hstk. by destruct Hfl; split.
  - intros _. split_and!; [done|lia|lia|done|by intros [?|?]].
  - congruence.
Qed.

(** *** Rounds *)

Lemma source_ref : source_chunk_ref pipe = match ops with [] => FinalChunk | _ => Intermediate 0 end.
Proof using Hops. clear - Hops. unfold source_chunk_ref. rewrite Hops. by destruct ops. Qed.

(** The rows the source chunk brings. *)
Definition source_rows (st : executor (C := C) (OS := OS) (Src := Src) (Snk := Snk)) : list Row :=
  match st.(intermediate_chunks) !! 0%nat with Some c => incoming_at 0 st.(in_process_operators) c | None => rows st.(final_chunk) end.

Lemma source_sunk st :
  flow 0 None st.(intermediate_chunks) st.(final_chunk) st.(intermediate_states) st.(in_process_operators) → good_sink ks st.(local_sink_state) →
  (st.(in_process_operators) ≠ [] → ∃ c, st.(intermediate_chunks) !! 0%nat = Some c ∧ chunk_size c ≠ 0) →
  ∃ k r κ ch' f' ss' stk', sunk st.(local_sink_state) 0 st.(intermediate_chunks) st.(intermediate_states) (source_rows st) r κ ch' f' ss' stk' ∧
    ∀ g, ExecutePushInternal pipe (k + g) (source_chunk_ref pipe) 0 st = Ret (r, upd (set_sink κ st) ch' f' ss' stk').
Proof.
  intros Hfl Hsnk Hinp. unfold source_rows. rewrite source_ref. destruct (st.(intermediate_chunks) !! 0%nat) as [c|] eqn:Ec.
  - pose proof (lookup_lt_Some _ _ _ Ec) as Hlt. rewrite (fl_length _ _ _ _ _ _ Hfl) in Hlt.
    assert (match ops with [] => FinalChunk | _ => Intermediate 0 end = Intermediate 0) as -> by (destruct ops; [cbn in Hlt; lia|done]). apply push_internal_ok; try done.
    intros Hz. destruct (decide (st.(in_process_operators) = [])) as [|Hne]; [done|]. destruct (Hinp Hne) as (c' & Hc' & ?). by simplify_eq.
  - apply lookup_ge_None in Ec. rewrite (fl_length _ _ _ _ _ _ Hfl) in Ec. assert (ops = []) as E0 by (apply nil_length_inv; lia).
    assert (match ops with [] => FinalChunk | _ => Intermediate 0 end = FinalChunk) as -> by (by rewrite E0).
    destruct (push_final_ok 0 st Hsnk (fl_final _ _ _ _ _ _ Hfl)) as (r & κ & Hgk & Hg & Hr).
    assert (st.(in_process_operators) = []) as Hstk.
    { pose proof (fl_range _ _ _ _ _ _ Hfl) as Hr'. destruct st.(in_process_operators); [done|]. apply Forall_cons in Hr' as [? _]. lia. }
    exists 1%nat, r, κ, st.(intermediate_chunks), st.(final_chunk), st.(intermediate_states), []. split.
    + split_and!; [done|by rewrite <- Hstk|intros j Hj; lia|]. destruct Hr as [(-> & Hrec & Hb)|(-> & Hne & Hrec & Hb)]; [left|right].
      * split_and!; [done|done| |done]. by rewrite Hrec, <- app_assoc.
      * split_and!; [done|done|by rewrite Hrec|done|done].
    + intros g. rewrite Hg. do 2 f_equal. rewrite <- Hstk. by destruct st.
Qed.

(** Pushing the source chunk. *)
Lemma source_push total rest_total st :
  exec_inv rest_total st → st.(started_flushing) = false → st.(remaining_sink_chunk) = false → source_rows st ++ rest_total ≡ₚ total →
  ∃ k r st', same_run st st' ∧ st'.(remaining_sink_chunk) = false ∧ (∀ g, ExecutePushInternal pipe (k + g) (source_chunk_ref pipe) 0 st = Ret (r, st')) ∧
    (r = NEED_MORE_INPUT ∧ st'.(in_process_operators) = [] ∧ exec_inv total st' ∨
     r = BLOCKED ∧ exec_inv total (set_remaining true st') ∧ (blocks ks st'.(local_sink_state) < blocks ks st.(local_sink_state))%nat).
Proof.
  intros Hinv Hst Hrem Htot. pose proof Hinv as [Hsrc Hsnk Hfl Hinp Hbal Hflu Hbef Hdone Hflags]. destruct (Hbef Hst) as [Hsh Hnd]. unfold push_entry in Hfl, Hinp. rewrite Hst in Hfl, Hinp.
  destruct (source_sunk st Hfl Hsnk Hinp) as (k & r & κ & ch' & f' & ss' & stk' & (Hgk & Hfl' & _ & Hcases) & Hg).
  exists k, r, (upd (set_sink κ st) ch' f' ss' stk'). assert ((blocks ks κ ≤ blocks ks st.(local_sink_state))%nat) as Hle by (destruct Hcases as [?|?]; naive_solver lia).
  split_and!; [by split_and!|done|done|]. rewrite Hrem in Hbal. cbn [app] in Hbal. unfold in_sink in Hbal. assert (∀ x, push_entry (set_remaining x (upd (set_sink κ st) ch' f' ss' stk')) = 0%nat) as Hentry by (intros; unfold push_entry; cbn; by rewrite Hst).
  destruct Hcases as [(-> & -> & Hrec & Hb)|(-> & Hne & Hrec & Hb & Hstk)]; [left; split_and!; [done..|]; rewrite <- (set_remaining_same false (upd _ _ _ _ _)) by done|right; split_and!; [done| |done]].
  - split; rewrite ?Hentry; try done; cbn; try congruence. rewrite app_assoc. unfold in_sink. cbn. rewrite Hrec, <- Htot, <- Hbal. solve_Permutation.
  - split; rewrite ?Hentry; try done; cbn; try congruence. rewrite (app_assoc (rows f')), app_assoc. unfold in_sink. cbn. rewrite Hrec, <- Htot, <- Hbal. solve_Permutation.
Qed.

(** Sinking the chunk again that the sink did not take. *)
Lemma retry_sink total st :
  exec_inv total st → st.(remaining_sink_chunk) = true →
  ∃ k r st', same_run st st' ∧ st'.(in_process_operators) = st.(in_process_operators) ∧ (∀ g, ExecutePushInternal pipe (k + g) FinalChunk 0 st = Ret (r, st')) ∧
    (r = NEED_MORE_INPUT ∧ exec_inv total (set_remaining false st') ∨
     r = BLOCKED ∧ exec_inv total (set_remaining true st') ∧ (blocks ks st'.(local_sink_state) < blocks ks st.(local_sink_state))%nat).
Proof.
  intros [Hsrc Hsnk Hfl Hinp Hbal Hflu Hbef Hdone Hflags] Hrem. destruct (push_final_ok 0 st Hsnk (fl_final _ _ _ _ _ _ Hfl)) as (r & κ & Hgk & Hg & Hr). rewrite Hrem in Hbal.
  exists 1%nat, r, (set_sink κ st). assert ((blocks ks κ ≤ blocks ks st.(local_sink_state))%nat) as Hle by (destruct Hr as [?|?]; naive_solver lia).
  assert (st.(done_flushing) = true → False) as Hnd by (intros Hd; destruct (Hdone Hd) as (_ & Hd' & _); congruence).
  split_and!; [by split_and!|done|done|]. destruct Hr as [(-> & Hrec & _)|(-> & _ & Hrec & Hb)]; [left|right]; split_and!; try done.
  - split; try done; cbn; try (by intros Hd; destruct (Hnd Hd)). unfold in_sink. cbn. rewrite Hrec, <- Hbal. unfold in_sink. solve_Permutation.
  - split; try done; cbn; try (by intros Hd; destruct (Hnd Hd)). unfold in_sink. cbn. by rewrite Hrec.
Qed.

(** The state after a fetch. *)
Definition fetched (c : C) (st : executor (C := C) (OS := OS) (Src := Src) (Snk := Snk)) : executor :=
  match st.(intermediate_chunks) with [] => set_chunks [] c st | _ :: ch => set_chunks (c :: ch) st.(final_chunk) st end.

Lemma store_source c st : length st.(intermediate_chunks) = length ops → store (source_chunk_ref pipe) c st = Ret (fetched c st).
Proof. intros Hl. rewrite source_ref. unfold store, fetched. destruct ops, st.(intermediate_chunks) as [|x ch] eqn:E; try done. Qed.

Lemma load_source c st : length st.(intermediate_chunks) = length ops → load (source_chunk_ref pipe) (fetched c st) = Ret c.
Proof. intros Hl. rewrite source_ref. unfold load, fetched. destruct ops, st.(intermediate_chunks) as [|x ch] eqn:E; try done. Qed.

Lemma source_rows_fetched c st : length st.(intermediate_chunks) = length ops → st.(in_process_operators) = [] → source_rows (fetched c st) = through ops (rows c).
Proof.
  intros Hl Hstk. unfold source_rows, fetched. destruct st.(intermediate_chunks) as [|x ch] eqn:E; cbn; [|by rewrite Hstk]. by destruct ops.
Qed.

Lemma fetch_step st r c s :
  length st.(intermediate_chunks) = length ops → st.(exhausted_source) = false → pipe.(p_source).(src_GetData) st.(local_source_state) = Ret (r, c, s) →
  FetchFromSource pipe st = Ret (r, fetched c (set_source s false st)).
Proof.
  intros Hl Hex E. unfold FetchFromSource. rewrite store_source by done. orun. rewrite not_interrupted. orun. unfold fetched.
  destruct st.(intermediate_chunks) as [|x ch] eqn:Ech; cbn; rewrite E, Hex; cbn; rewrite store_source by exact Hl; unfold fetched; cbn; by rewrite ?Ech.
Qed.

Lemma fetched_flow c s ex st :
  flow 0 None st.(intermediate_chunks) st.(final_chunk) st.(intermediate_states) [] → good_chunk c →
  let st' := fetched c (set_source s ex st) in flow 0 None st'.(intermediate_chunks) st'.(final_chunk) st.(intermediate_states) [].
Proof.
  intros [Hlen Hgch Hgf Hgst _ _ Hat] Hc. unfold fetched. cbn. destruct st.(intermediate_chunks) as [|x ch]; split; cbn; try (by constructor); try done. apply Forall_cons in Hgch as [_ ?]. by constructor.
Qed.

Lemma fetch_ok total st :
  exec_inv total st → st.(exhausted_source) = false → st.(remaining_sink_chunk) = false → st.(in_process_operators) = [] →
  ∃ r c s rest_total, FetchFromSource pipe st = Ret (r, fetched c (set_source s false st)) ∧ good_chunk c ∧
    (let st' := fetched c (set_source s (bool_decide (r = SourceFinished)) st) in exec_inv rest_total st' ∧ source_rows st' ++ rest_total ≡ₚ total) ∧
    (r = SourceFinished ∨ r = SourceHaveMoreOutput ∧ (fetches sl s < fetches sl st.(local_source_state))%nat ∨ r = SourceBlocked ∧ rows c = [] ∧ (fetches sl s < fetches sl st.(local_source_state))%nat).
Proof.
  intros [Hsrc Hsnk Hfl Hinp Hbal Hflu Hbef Hdone Hflags] Hex Hrem Hstk. assert (st.(started_flushing) = false) as Hst by (destruct st.(started_flushing); [destruct (Hflu eq_refl); congruence|done]).
  destruct (Hbef Hst) as [Hsh Hnd]. destruct (law_get sl _ (Hsrc Hex)) as (r & c & s & E & Hgc & Hrows & Hr). pose proof (fl_length _ _ _ _ _ _ Hfl) as Hl.
  exists r, c, s, (in_sink st ++ owed ops st.(intermediate_states) ++ through ops (rest sl s)). split_and!; [|done| |naive_solver].
  - by apply fetch_step.
  - intros st'. assert (source_rows st' = through ops (rows c)) as Hsr by (by apply source_rows_fetched). split.
    + assert (flow 0 None st'.(intermediate_chunks) st'.(final_chunk) st.(intermediate_states) []) as Hfl'.
      { unfold push_entry in Hfl. rewrite Hst, Hstk in Hfl. by apply fetched_flow. }
      assert (st'.(intermediate_states) = st.(intermediate_states) ∧ st'.(in_process_operators) = [] ∧ st'.(local_source_state) = s ∧ st'.(local_sink_state) = st.(local_sink_state) ∧ st'.(started_flushing) = false ∧
        st'.(exhausted_source) = bool_decide (r = SourceFinished) ∧ st'.(remaining_sink_chunk) = false ∧ st'.(should_flush_current_idx) = true ∧ st'.(done_flushing) = false ∧
        st'.(finished_processing_idx) = st.(finished_processing_idx) ∧ st'.(finalized) = st.(finalized) ∧ st'.(next_batch_blocked) = st.(next_batch_blocked)) as (E1 & E2 & E3 & E4 & E5 & E6 & E7 & E8 & E9 & F1 & F2 & F3).
      { unfold st', fetched. cbn. destruct st.(intermediate_chunks); cbn; done. }
      split; unfold push_entry, in_sink; rewrite ?E1, ?E2, ?E3, ?E4, ?E5, ?E6, ?E7, ?E8, ?E9, ?F1, ?F2, ?F3; try done; cbn [app].
      * intros Hne%bool_decide_eq_false. by destruct Hr as [[-> _]|[? _]].
      * destruct Hr as [[-> Hrest]|Hr]; [by rewrite Hrest|]. rewrite bool_decide_false; [done|]. naive_solver.
    + rewrite Hsr, <- Hbal, Hrem, Hex, <- Hrows, through_app. solve_Permutation.
Qed.

Local Ltac fields := cbn [local_sink_state exhausted_source local_source_state in_process_operators remaining_sink_chunk done_flushing set_remaining set_done_flushing set_source].

(** How far a run is from its end. *)
Definition to_go (st : executor (C := C) (OS := OS) (Src := Src) (Snk := Snk)) : nat :=
  4 * blocks ks st.(local_sink_state) + (if st.(exhausted_source) then 0 else 8 * fetches sl st.(local_source_state) + 4) +
  match st.(in_process_operators) with [] => 0 | _ => 2 end + (if st.(remaining_sink_chunk) then 1 else 0) + (if st.(done_flushing) then 0 else 1).

(** What a round of [Execute(max_chunks)] leaves: the loop is left only when all
    is flushed, and otherwise the run comes closer to its end. *)
Definition round_ok (total : list Row) (st : executor) (r : round) (st' : executor) : Prop :=
  (r = Break ∧ exec_inv total st' ∧ st'.(exhausted_source) = true ∧ st'.(done_flushing) = true ∧ (to_go st' ≤ to_go st)%nat) ∨
  ((r = Return Interrupted ∨ r = Continue ∨ r = Pushed NEED_MORE_INPUT) ∧ exec_inv total st' ∧ (to_go st' < to_go st)%nat) ∨
  (r = Pushed BLOCKED ∧ exec_inv total (set_remaining true st') ∧ (to_go (set_remaining true st') < to_go st)%nat).

Lemma exec_inv_done total st :
  exec_inv total st → st.(exhausted_source) = true → (length ops ≤ st.(flushing_idx))%nat → st.(started_flushing) = true → st.(remaining_sink_chunk) = false → st.(in_process_operators) = [] → exec_inv total (set_done_flushing true st).
Proof. intros [Hsrc Hsnk Hfl Hinp Hbal Hflu Hbef Hdone Hflags] Hex Hidx Hst Hrem Hstk. split; try done; cbn. intros ?. congruence. Qed.

(** A round that pushes the source chunk. *)
Lemma pushed_round total rest_total st st0 :
  exec_inv rest_total st → st.(started_flushing) = false → st.(remaining_sink_chunk) = false → source_rows st ++ rest_total ≡ₚ total →
  (to_go st + 1 < to_go st0 ∨ to_go st ≤ to_go st0 ∧ st.(in_process_operators) ≠ [])%nat →
  ∃ k r st', round_ok total st0 r st' ∧ ∀ g, (let* (result, st') := ExecutePushInternal pipe (k + g) (source_chunk_ref pipe) 0 st in Ret (Pushed result, st')) = Ret (r, st').
Proof.
  intros Hinv Hst Hrem Htot Hgo. destruct (source_push total rest_total st Hinv Hst Hrem Htot) as (k & r & st' & (E1 & E2 & E3 & E4) & Hrem' & Hg & Hr).
  exists k, (Pushed r), st'. split; [|intros g; by rewrite Hg]. unfold round_ok, to_go in *. fields. rewrite Hrem in Hgo. rewrite E1, E2, E3 in *.
  destruct Hr as [(-> & Hstk & Hinv')|(-> & Hinv' & Hb)]; right; [left|right].
  - rewrite Hstk, Hrem'. split_and!; [by auto|done|]. destruct st.(in_process_operators); [destruct Hgo as [Hx|[_ ?]]; [lia|done]|lia].
  - split_and!; [done|done|]. destruct st'.(in_process_operators), st.(in_process_operators); lia.
Qed.

Lemma exec_inv_rows total total' st : exec_inv total st → total ≡ₚ total' → exec_inv total' st.
Proof. intros [Hsrc Hsnk Hfl Hinp Hbal Hflu Hbef Hdone Hflags] Hp. split; try done. by rewrite Hbal. Qed.

Lemma fetched_fields c s ex st :
  let st' := fetched c (set_source s ex st) in
  st'.(local_sink_state) = st.(local_sink_state) ∧ st'.(exhausted_source) = ex ∧ st'.(local_source_state) = s ∧ st'.(in_process_operators) = st.(in_process_operators) ∧ st'.(started_flushing) = st.(started_flushing) ∧
  st'.(remaining_sink_chunk) = st.(remaining_sink_chunk) ∧ st'.(done_flushing) = st.(done_flushing) ∧ st'.(next_batch_blocked) = st.(next_batch_blocked) ∧ length st'.(intermediate_chunks) = length st.(intermediate_chunks).
Proof. unfold fetched. cbn. destruct st.(intermediate_chunks); by split_and!. Qed.

Lemma fetched_exhausted c s ex ex' st : set_source (fetched c (set_source s ex st)).(local_source_state) ex' (fetched c (set_source s ex st)) = fetched c (set_source s ex' st).
Proof. unfold fetched. cbn. by destruct st.(intermediate_chunks). Qed.

(** A round that fetches a chunk. *)
Definition fetch_round (fuel : nat) (st : executor) : outcome (round * executor) :=
  let* (blocked, st) := let* (r, st) := FetchFromSource pipe st in
    match r with SourceBlocked => Ret (true, st) | SourceFinished => Ret (false, set_source st.(local_source_state) true st) | SourceHaveMoreOutput => Ret (false, st) end in
  if blocked : bool then Ret (Return Interrupted, st) else
  let* c := load (source_chunk_ref pipe) st in
  if st.(exhausted_source) && (chunk_size c =? 0) then Ret (Continue, st) else
  let* (result, st) := ExecutePushInternal pipe fuel (source_chunk_ref pipe) 0 st in Ret (Pushed result, st).

Lemma fetch_round_ok total st :
  exec_inv total st → st.(exhausted_source) = false → st.(started_flushing) = false → st.(remaining_sink_chunk) = false → st.(in_process_operators) = [] →
  ∃ k r st', round_ok total st r st' ∧ ∀ g, fetch_round (k + g) st = Ret (r, st').
Proof.
  intros Hinv Hex Hst Hrem Hstk. pose proof (fl_length _ _ _ _ _ _ (ei_flow _ _ Hinv)) as Hl. destruct (fetch_ok total st Hinv Hex Hrem Hstk) as (r & c & s & rt & Hfetch & Hgc & [Hinv' Htot] & Hr).
  set (st' := fetched c (set_source s (bool_decide (r = SourceFinished)) st)) in *. pose proof (fetched_fields c s (bool_decide (r = SourceFinished)) st) as (E1 & E2 & E3 & E4 & E5 & E6 & E7 & E8 & E9). fold st' in E1, E2, E3, E4, E5, E6, E7, E8, E9.
  assert (source_rows st' = through ops (rows c)) as Hsr by (by apply source_rows_fetched).
  assert (rows c = [] → exec_inv total st') as Hempty by (intros E0; apply (exec_inv_rows rt); [done|]; by rewrite <- Htot, Hsr, E0, through_nil).
  assert (r ≠ SourceBlocked → ∀ fuel, fetch_round fuel st = if st'.(exhausted_source) && (chunk_size c =? 0) then Ret (Continue, st') else
    let* (result, st) := ExecutePushInternal pipe fuel (source_chunk_ref pipe) 0 st' in Ret (Pushed result, st)) as Hrun.
  { intros Hnb fuel. unfold fetch_round. rewrite Hfetch. orun. unfold st'. destruct r; [..|done]; orun.
    - rewrite load_source by done. done.
    - rewrite fetched_exhausted, load_source by done. done. }
  assert (r ≠ SourceBlocked → st'.(exhausted_source) && (chunk_size c =? 0) = false → ∃ k r st'', round_ok total st r st'' ∧ ∀ g, fetch_round (k + g) st = Ret (r, st'')) as Hpush.
  { intros Hnb Hc. destruct (pushed_round total rt st' st Hinv' ltac:(congruence) ltac:(congruence) Htot) as (k & r' & st'' & Hround & Hg).
    - left. unfold to_go. rewrite E1, E2, ?E3, E4, E6, E7, Hex. destruct Hr as [->|[[-> ?]|[-> _]]]; [rewrite bool_decide_true by done; lia|rewrite bool_decide_false by done; lia|done].
    - exists k, r', st''. split; [done|]. intros g. rewrite Hrun, Hc by done. apply Hg. }
  destruct Hr as [->|[[-> Hf]|(-> & E0 & Hf)]].
  - rewrite bool_decide_true in E2 by done. destruct (chunk_size c =? 0) eqn:Ec; [|by apply Hpush; [done|rewrite andb_false_r]]. apply Z.eqb_eq, size_empty in Ec as E0; [|done].
    exists 0%nat, Continue, st'. split; [right; left; split_and!; [by auto|by apply Hempty|]|intros g; by rewrite Hrun, E2]. unfold to_go. rewrite E1, E2, ?E3, E4, E6, E7, Hex. lia.
  - apply Hpush; [done|]. by rewrite E2.
  - exists 0%nat, (Return Interrupted), st'. split; [right; left; split_and!; [by auto|by apply Hempty|]|intros g; unfold fetch_round; by rewrite Hfetch]. unfold to_go. rewrite E1, E2, ?E3, E4, E6, E7, Hex, bool_decide_false by done. lia.
Qed.

(** A round that flushes. *)
Lemma flush_round_ok total st :
  exec_inv total st → st.(exhausted_source) = true → st.(done_flushing) = false → st.(remaining_sink_chunk) = false → (st.(started_flushing) = false → st.(in_process_operators) = []) →
  ∃ k r st', round_ok total st r st' ∧
    ∀ g, (let* (completed, st) := TryFlushCachingOperators pipe (k + g) st in if completed : bool then Ret (Break, set_done_flushing true st) else Ret (Return Interrupted, st)) = Ret (r, st').
Proof.
  intros Hinv Hex Hdone Hrem Hstk. destruct (TryFlush_ok total st Hinv Hex Hrem Hstk) as (k & b & st' & (E1 & E2 & E3 & E4) & Hinv' & Hst' & Hb & Hg).
  exists k. destruct Hb as [(-> & Hidx & Hrem' & Hstk')|(-> & Hrem' & Hb)]; eexists _, _; (split; [|intros g; by rewrite Hg]); [left|right; left].
  - split_and!; [done|apply exec_inv_done; congruence|cbn; congruence|done|]. unfold to_go. fields. rewrite E1, E2, Hstk', Hrem', Hex, Hrem. lia.
  - split_and!; [by auto|done|]. unfold to_go. rewrite E1, E2, E3, Hrem', Hex, Hrem. destruct st'.(in_process_operators), st.(in_process_operators); lia.
Qed.

(** A round that sinks a chunk again. *)
Lemma retry_round_ok total st :
  exec_inv total st → st.(remaining_sink_chunk) = true →
  ∃ k r st', round_ok total st r st' ∧ ∀ g, (let* (result, st) := ExecutePushInternal pipe (k + g) FinalChunk 0 st in Ret (Pushed result, set_remaining false st)) = Ret (r, st').
Proof.
  intros Hinv Hrem. destruct (retry_sink total st Hinv Hrem) as (k & r & st' & (E1 & E2 & E3 & E4) & Hstk & Hg & Hr). exists k, (Pushed r), (set_remaining false st'). split; [|intros g; by rewrite Hg].
  right. unfold to_go. fields. rewrite E1, E2, E3, Hstk, Hrem. destruct Hr as [(-> & Hinv')|(-> & Hinv' & Hb)]; [left|right]; (split_and!; [by auto|done|lia]).
Qed.

Lemma next_round_ok total st : exec_inv total st → ∃ k r st', round_ok total st r st' ∧ ∀ g, next_round pipe (k + g) st = Ret (r, st').
Proof.
  intros Hinv. pose proof (ei_flags _ _ Hinv) as (Hfin & Hnf & Hnb).
  assert (∀ fuel, next_round pipe fuel st = let none := match st.(in_process_operators) with [] => true | _ => false end in
    if st.(exhausted_source) && st.(done_flushing) && negb st.(remaining_sink_chunk) && none then Ret (Break, st)
    else if st.(remaining_sink_chunk) then let* (result, st) := ExecutePushInternal pipe fuel FinalChunk 0 st in Ret (Pushed result, set_remaining false st)
    else if negb none && negb st.(started_flushing) then let* (result, st) := ExecutePushInternal pipe fuel (source_chunk_ref pipe) 0 st in Ret (Pushed result, st)
    else if st.(exhausted_source) && negb st.(done_flushing) then
      let* (completed, st) := TryFlushCachingOperators pipe fuel st in if completed : bool then Ret (Break, set_done_flushing true st) else Ret (Return Interrupted, st)
    else if negb st.(exhausted_source) then fetch_round fuel st else Throw "Unexpected state reached in pipeline executor") as Hrun.
  { intros fuel. unfold next_round, fetch_round. rewrite not_interrupted, Hnb, Hbatch. cbn [negb]. rewrite !andb_true_r, orb_false_r. done. }
  destruct st.(remaining_sink_chunk) eqn:Hrem.
  { destruct (retry_round_ok total st Hinv Hrem) as (k & r & st' & Hok & Hg). exists k, r, st'. split; [done|]. intros g. rewrite Hrun. cbn [negb]. rewrite andb_false_r. apply Hg. }
  destruct (decide (st.(in_process_operators) ≠ [] ∧ st.(started_flushing) = false)) as [[Hstk Hst]|Hnot].
  { destruct (pushed_round total total st st Hinv Hst Hrem) as (k & r & st' & Hround & Hg); [|by right|].
    - destruct (ei_input _ _ Hinv Hstk) as (c & Hc & _). unfold push_entry in Hc. rewrite Hst in Hc. unfold source_rows. rewrite Hc. by destruct st.(in_process_operators).
    - exists k, r, st'. split; [done|]. intros g. rewrite Hrun, Hst. destruct st.(in_process_operators); [done|]. cbv zeta. rewrite andb_false_r. apply Hg. }
  assert (negb match st.(in_process_operators) with [] => true | _ => false end && negb st.(started_flushing) = false) as Hsecond.
  { destruct st.(in_process_operators); [done|]. destruct st.(started_flushing); [done|]. by destruct Hnot. }
  assert (st.(started_flushing) = false → st.(in_process_operators) = []) as Hstk by (intros Hst; destruct (decide (st.(in_process_operators) = [])); [done|by destruct Hnot]).
  destruct st.(exhausted_source) eqn:Hex; [destruct st.(done_flushing) eqn:Hdone|].
  - destruct (ei_done _ _ Hinv Hdone) as (_ & _ & Hstk'). exists 0%nat, Break, st. split; [left; by split_and!|]. intros g. by rewrite Hrun, Hstk'.
  - destruct (flush_round_ok total st Hinv Hex Hdone Hrem Hstk) as (k & r & st' & Hok & Hg). exists k, r, st'. split; [done|]. intros g. rewrite Hrun. cbv zeta. rewrite Hsecond. apply Hg.
  - assert (st.(started_flushing) = false) as Hst by (destruct st.(started_flushing) eqn:E; [destruct (ei_flushing _ _ Hinv E); congruence|done]).
    destruct (fetch_round_ok total st Hinv Hex Hst Hrem (Hstk Hst)) as (k & r & st' & Hok & Hg). exists k, r, st'. split; [done|]. intros g. rewrite Hrun. cbv zeta. rewrite Hsecond. apply Hg.
Qed.

(** Everything is flushed: all rows are in the sink. *)
Lemma all_delivered total st : exec_inv total st → st.(exhausted_source) = true → st.(done_flushing) = true → in_sink st ≡ₚ total.
Proof.
  intros [Hsrc Hsnk Hfl Hinp Hbal Hflu Hbef Hdone Hflags] Hex Hd. destruct (Hdone Hd) as (Hidx & Hrem & Hstk).
  assert (st.(started_flushing) = true) as Hst by (destruct st.(started_flushing); [done|destruct (Hbef eq_refl); congruence]). destruct (Hflu Hst) as (_ & _ & Hdr & _).
  rewrite Hrem, Hex, through_nil, app_nil_r, owed_nothing, app_nil_r in Hbal; [done|]. apply Forall2_same_length_lookup_2; [by eapply Forall2_length, fl_states|].
  intros j o s Ho Hs. pose proof (lookup_lt_Some _ _ _ Ho) as Hlt. split; [by eapply (Hdr j); [lia|..]|]. apply (law_fresh (laws o)); [exact (Forall2_lookup_lr _ _ _ _ _ _ (fl_states _ _ _ _ _ _ Hfl) Ho Hs)|].
  pose proof (fl_at _ _ _ _ _ _ Hfl j ltac:(done) o s Ho Hs) as Ha. by rewrite Hstk, decide_False in Ha by apply not_elem_of_nil.
Qed.

Lemma execute_rounds_ok total max_chunks st i :
  exec_inv total st →
  ∃ k r st', exec_inv total st' ∧ (∀ g, execute_rounds pipe (k + g) i max_chunks st = Ret (r, st')) ∧
    (r = None ∧ st'.(exhausted_source) = true ∧ st'.(done_flushing) = true ∧ (to_go st' ≤ to_go st)%nat ∨
     r = Some Interrupted ∧ (to_go st' < to_go st)%nat ∨
     r = None ∧ st'.(exhausted_source) && st'.(done_flushing) = false ∧ (i < max_chunks → (to_go st' < to_go st)%nat) ∧ max_chunks - i ≤ Z.of_nat (to_go st)).
Proof.
  remember (to_go st) as n eqn:En. revert st i En. induction n as [n IH] using lt_wf_ind. intros st i -> Hinv. destruct (i <? max_chunks) eqn:Elim.
  - destruct (next_round_ok total st Hinv) as (k & r & st1 & Hround & Hg).
    assert (∀ k2 g, execute_rounds pipe (S (k + k2) + g) i max_chunks st = match r with
      | Return r => Ret (Some r, st1) | Break => Ret (None, st1) | Pushed BLOCKED => Ret (Some Interrupted, set_remaining true st1) | Pushed FINISHED => Ret (None, st1)
      | _ => execute_rounds pipe (k2 + (k + g)) (i + 1) max_chunks st1 end) as Hrun.
    { intros k2 g. replace (S (k + k2) + g)%nat with (S (k2 + (k + g))) by lia. cbn [execute_rounds]. rewrite Elim. replace (S (k2 + (k + g))) with (k + S (k2 + g))%nat by lia. rewrite Hg. orun. by destruct r as [| |[]|]. }
    destruct Hround as [(-> & Hinv1 & Hex & Hd & Hle)|[(Hr & Hinv1 & Hlt)|(-> & Hinv1 & Hlt)]].
    + exists (S (k + 0)), None, st1. split_and!; [done|intros g; by rewrite Hrun|]. left. by split_and!.
    + assert (r = Return Interrupted ∨ ∀ k2 g, execute_rounds pipe (S (k + k2) + g) i max_chunks st = execute_rounds pipe (k2 + (k + g)) (i + 1) max_chunks st1) as [->|Hon].
      { destruct Hr as [->|Hr]; [by left|right]. intros k2 g. rewrite Hrun. by destruct Hr as [-> | ->]. }
      * exists (S (k + 0)), (Some Interrupted), st1. split_and!; [done|intros g; by rewrite Hrun|]. right; left. by split.
      * destruct (IH (to_go st1) Hlt st1 (i + 1) eq_refl Hinv1) as (k2 & r' & st' & Hinv' & Hg' & Hres). exists (S (k + k2)), r', st'. split_and!; [done|intros g; by rewrite Hon|].
        destruct Hres as [(-> & Hex & Hd & Hle)|[(-> & Hlt')|(-> & Hnd & Hlt' & Hmax)]]; [left; split_and!; [done..|lia]|right; left; split; [done|lia]|right; right; split_and!; [done..| |lia]].
        intros _. destruct (decide (i + 1 < max_chunks)) as [Hi|Hi]; [specialize (Hlt' Hi); lia|]. specialize (Hg' 1%nat). rewrite Nat.add_1_r in Hg'. cbn [execute_rounds] in Hg'. rewrite (proj2 (Z.ltb_ge _ _)) in Hg' by lia. by simplify_eq.
    + exists (S (k + 0)), (Some Interrupted), (set_remaining true st1). split_and!; [done|intros g; by rewrite Hrun|]. right; left. by split.
  - apply Z.ltb_ge in Elim as Hge. exists 0%nat, None, st. split_and!; [done|intros g; destruct g; cbn; by rewrite Elim|].
    destruct (st.(exhausted_source) && st.(done_flushing)) eqn:E; [left|right; right]; [apply andb_true_iff in E as [??]; by split_and!|]. split_and!; [done..|lia|lia].
Qed.

(** A call of [Execute]: it finishes with all rows in the sink, or comes closer to
    that. *)
Lemma Execute_pipeline_ok total max_chunks st :
  exec_inv total st → 1 ≤ max_chunks →
  ∃ k r st', (∀ g, Execute_pipeline pipe (k + g) max_chunks st = Ret (r, st')) ∧
    (r = ExecuteFinished ∧ in_sink st' ≡ₚ total ∧ combined ks st'.(local_sink_state) ∨
     (r = Interrupted ∨ r = NotFinished ∧ max_chunks ≤ Z.of_nat (to_go st)) ∧ exec_inv total st' ∧ (to_go st' < to_go st)%nat).
Proof.
  intros Hinv Hmax. destruct (execute_rounds_ok total max_chunks st 0 Hinv) as (k & r & st1 & Hinv1 & Hg & Hr). exists k. unfold Execute_pipeline.
  assert (IsFinished st1 = false) as Hfin by (unfold IsFinished; apply Z.leb_gt; destruct (ei_flags _ _ Hinv1); lia).
  destruct Hr as [(-> & Hex & Hd & Hle)|[(-> & Hlt)|(-> & Hnd & Hlt & Hlim)]].
  - destruct (law_combine ks _ (ei_sink _ _ Hinv1)) as (rc & κ & Ec & Hrec & Hrc). pose proof (ei_flags _ _ Hinv1) as (_ & Hnf & _).
    assert (∀ g, Execute_pipeline pipe (k + g) max_chunks st = match rc with CombineBlocked => Ret (Interrupted, set_sink κ st1) | CombineFinished => Ret (ExecuteFinished, set_finalized true (set_sink κ st1)) end) as Hrun.
    { intros g. unfold Execute_pipeline. rewrite Hg. orun. rewrite Hex, Hd. cbn. unfold PushFinalize. rewrite Hnf, Ec. orun. by destruct rc. }
    destruct Hrc as [[-> Hcomb]|(-> & Hgk & Hb)].
    + eexists _, _. split; [exact Hrun|]. left. split_and!; [done| |done]. unfold in_sink. cbn. rewrite Hrec. by apply all_delivered.
    + eexists _, _. split; [exact Hrun|]. right. split_and!; [by left| |].
      * destruct Hinv1 as [Hsrc Hsnk Hfl Hinp Hbal Hflu Hbef Hdone Hflags]. split; try done. unfold in_sink. cbn. by rewrite Hrec.
      * unfold to_go in *. cbn [local_sink_state exhausted_source local_source_state in_process_operators remaining_sink_chunk done_flushing set_sink]. lia.
  - eexists _, _. split; [intros g; by rewrite Hg|]. right. split_and!; [by left|done..].
  - exists NotFinished, st1. split; [intros g; rewrite Hg; orun; rewrite <- negb_andb, Hnd, Hfin; done|]. right. split_and!; [right; split; [done|lia]|done|]. apply Hlt. lia.
Qed.

(** The calls of a task. *)
Lemma ExecuteTask_pipeline_ok total mode st :
  exec_inv total st → Z.of_nat (to_go st) < 2 ^ 64 - 1 →
  ∃ k r st', (∀ g, ExecuteTask_pipeline pipe mode (k + g) st = Ret (r, st')) ∧
    (r = TASK_FINISHED ∧ in_sink st' ≡ₚ total ∧ combined ks st'.(local_sink_state) ∨ r ≠ TASK_FINISHED ∧ exec_inv total st' ∧ (to_go st' < to_go st)%nat).
Proof.
  intros Hinv Hgo. destruct (Execute_pipeline_ok total (match mode with PROCESS_PARTIAL => PARTIAL_CHUNK_COUNT | PROCESS_ALL => 2 ^ 64 - 1 end) st Hinv) as (k & r & st' & Hg & Hr); [by destruct mode|].
  exists k. unfold ExecuteTask_pipeline. destruct Hr as [(-> & Hin)|([->|[-> Hmax]] & Hinv' & Hlt)].
  - exists TASK_FINISHED, st'. split; [intros g; by rewrite Hg|by left].
  - exists TASK_BLOCKED, st'. split; [intros g; by rewrite Hg|by right].
  - destruct mode; [lia|]. exists TASK_NOT_FINISHED, st'. split; [intros g; by rewrite Hg|by right].
Qed.

Lemma run_calls_ok total modes st :
  exec_inv total st → Z.of_nat (to_go st) < 2 ^ 64 - 1 → (to_go st < length modes)%nat →
  ∃ k st', (∀ g, run_calls pipe (k + g) modes st = Ret (true, st')) ∧ in_sink st' ≡ₚ total ∧ combined ks st'.(local_sink_state).
Proof.
  revert st. induction modes as [|mode modes IH]; intros st Hinv Hgo Hlen; [cbn [length] in Hlen; lia|].
  destruct (ExecuteTask_pipeline_ok total mode st Hinv Hgo) as (k & r & st1 & Hg & Hr). destruct Hr as [(-> & Hin)|(Hnf & Hinv1 & Hlt)].
  - exists k, st1. split; [|done]. intros g. cbn [run_calls]. by rewrite Hg.
  - destruct (IH st1 Hinv1) as (k2 & st' & Hg2 & Hin); [lia|cbn [length] in Hlen; lia|]. exists (k + k2)%nat, st'. split; [|done]. intros g. cbn [run_calls]. rewrite <- Nat.add_assoc, Hg. orun.
    replace (k + (k2 + g))%nat with (k2 + (k + g))%nat by lia. rewrite Hg2. by destruct r.
Qed.

(** A new executor. *)
Definition fresh_operator (o : lawful C OS) (s : OS) : Prop := good_state (laws o) s ∧ at_chunk (laws o) s = None ∧ kept (laws o) s = [].

Lemma no_outputs (l : list (lawful C OS)) : Forall (λ o, op_no_output (op_of o) = false) l → existsb op_no_output (op_of <$> l) = false.
Proof. induction 1 as [|o os Ho _ IH]; [done|]. cbn. by rewrite Ho. Qed.

Lemma fresh_flow states : Forall2 fresh_operator ops states → flow 0 None (replicate (length ops) reset_chunk) reset_chunk states [].
Proof.
  intros Hss. split; cbn; [by rewrite length_replicate|apply Forall_replicate, good_reset|apply good_reset| |constructor|constructor|].
  - by eapply Forall2_impl; [exact Hss|intros o x (? & _ & _)].
  - intros j _ o x Ho Hx. rewrite decide_False by apply not_elem_of_nil. by destruct (Forall2_lookup_lr _ _ _ _ _ _ Hss Ho Hx) as (_ & ? & _).
Qed.

Lemma fresh_owed states : Forall2 fresh_operator ops states → owed ops states = [].
Proof. intros Hss. apply owed_nothing. eapply Forall2_impl; [exact Hss|]. intros o x (Hgx & Ha & Hkx). split; [done|]. by apply (law_fresh (laws o)). Qed.

Lemma new_executor_inv states s κ l :
  Forall2 fresh_operator ops states → good_source sl s → good_sink ks κ → Forall (λ o, op_no_output (op_of o) = false) ops →
  exec_inv (received ks κ ++ through ops (rest sl s)) (new_executor pipe states s κ l) ∧ (to_go (new_executor pipe states s κ l) = 4 * blocks ks κ + (8 * fetches sl s + 4) + 1)%nat.
Proof.
  intros Hss Hs Hk Hno. unfold new_executor. rewrite Hbatch. assert (existsb op_no_output pipe.(p_operators) = false) as -> by (rewrite Hops; by apply no_outputs).
  split; [|unfold to_go; cbn [local_sink_state exhausted_source local_source_state in_process_operators remaining_sink_chunk done_flushing]; lia].
  assert (length pipe.(p_operators) = length ops) as -> by (by rewrite Hops, length_fmap). split; try done; cbn.
  - by apply fresh_flow.
  - unfold in_sink. cbn. by rewrite fresh_owed.
Qed.
End Flow.

(** ** Properties *)

(** C14: the pipeline executor neither loses nor repeats rows.  Operators turn
    each row into some rows, may keep output back until they are flushed and
    may want to be called again with the same chunk, and source and sink may
    block, a bounded number of times.  Then calls of [ExecuteTask] in any
    modes, of which a bounded number suffices, finish the task without an
    error, and the sink received exactly the rows of the source sent
    through the operators and was combined. *)
Theorem pipeline_delivers_every_row {C Row OS Src Snk : Type} `{ChunksOk C Row} (pipe : pipeline (C := C) (OS := OS) (Src := Src) (Snk := Snk)) (ops : list (lawful C OS))
    (ks : sink_laws pipe.(p_sink)) (sl : source_laws pipe.(p_source)) (states : list OS) (s : Src) (κ : Snk) (indexes : list Z) (modes : list TaskExecutionMode) :
  pipe.(p_operators) = op_of <$> ops → pipe.(interrupted) = false → pipe.(p_sink).(snk_requires_batch_index) = false → Forall (λ o, op_no_output (op_of o) = false) ops →
  Forall2 fresh_operator ops states → good_source sl s → good_sink ks κ → (4 * blocks ks κ + 8 * fetches sl s + 5 < length modes)%nat → Z.of_nat (4 * blocks ks κ + 8 * fetches sl s + 5) < 2 ^ 64 - 1 →
  ∃ k st', (∀ g, run_calls pipe (k + g) modes (new_executor pipe states s κ indexes) = Ret (true, st')) ∧
    received ks st'.(local_sink_state) ≡ₚ received ks κ ++ through ops (rest sl s) ∧ combined ks st'.(local_sink_state).
Proof.
  intros Hops Hint Hbatch Hno Hss Hs Hk Hlen Hmax. destruct (new_executor_inv pipe ops Hops ks sl Hbatch states s κ indexes Hss Hs Hk Hno) as [Hinv Hgo].
  apply (run_calls_ok pipe ops Hops Hint ks sl Hbatch _ modes _ Hinv); rewrite Hgo; lia.
Qed.

(** A pipeline with an operator that gives every chunk twice, one that keeps
    all rows back, and a sink that blocks. *)
#[local] Instance sample_lists : Chunks (list Z) Z := { reset_chunk := []; chunk_size c := Z.of_nat (length c); rows c := c }.

#[local] Instance sample_lists_ok : ChunksOk (list Z) Z.
Proof. by refine {| good_chunk _ := True |}. Defined.

Definition twice : operator (C := list Z) (OS := option (list Z)) :=
  mkOperator (λ c s, Ret (match s with None => (HAVE_MORE_OUTPUT, c, Some c) | Some _ => (NEED_MORE_INPUT, c, None) end)) false (λ s, Ret (FinalFinished, [], s)) false.

Definition hold : operator (C := list Z) (OS := option (list Z)) :=
  mkOperator (λ c s, Ret (NEED_MORE_INPUT, [], Some (default [] s ++ c))) true (λ s, Ret (FinalFinished, default [] s, None)) false.

Definition sample_pipe_sink : sink (C := list Z) (Snk := nat * (list Z * bool)) :=
  mkSink (λ c k, Ret (match k with (S n, l) => (SinkBlocked, (n, l)) | (O, (l, b)) => (SinkNeedMoreInput, (O, (l ++ c, b))) end)) (λ k, Ret (CombineFinished, (k.1, (k.2.1, true)))) (λ k, Ret (NextBatchReady, k)) false.

Definition sample_pipe_source : source (C := list Z) (Src := list (list Z)) :=
  mkSource (λ s, Ret (match s with [] => (SourceFinished, [], []) | c :: s => (SourceHaveMoreOutput, c, s) end)) (λ _ _, Undef).

Lemma doubled (c : list Z) : c ++ c ≡ₚ flat_map (λ r, [r; r]) c.
Proof. induction c as [|r c IH]; [done|]. cbn. rewrite <- IH. solve_Permutation. Qed.

Definition twice_laws : operator_laws twice.
Proof.
  refine (mkLaws (λ _, True) (λ r, [r; r]) (λ _, []) (default []) id (λ _, 0%nat) _ _ _ _); try done.
  - intros s _ Hs. cbn in Hs. by subst s.
  - intros c s _ _ _ [Ha|Ha]; cbn in Ha; subst s; eexists _, _, _; (split; [done|]); split_and!; try done; cbn.
    + apply doubled.
    + right. by split_and!.
    + by rewrite app_nil_r.
    + by left.
Defined.

Lemma each_row {A} (c : list A) : flat_map (λ r, [r]) c = c.
Proof. induction c as [|r c IH]; [done|]. cbn. by rewrite IH. Qed.

Definition hold_laws : operator_laws hold.
Proof.
  refine (mkLaws (λ _, True) (λ r, [r]) (default []) (λ _, []) (λ _, None) (λ _, 0%nat) _ _ _ _); try done.
  - intros c s _ _ _ _. eexists _, _, _. split; [done|]. split_and!; try done; [|by left]. cbn. by rewrite app_nil_r, each_row.
  - intros _ s _ _. eexists _, _, _. split; [done|]. split_and!; try done; [|by left]. cbn. by rewrite app_nil_r.
Defined.

Definition sample_sink_laws : sink_laws sample_pipe_sink.
Proof.
  refine (mkSinkLaws (λ _, True) (λ k, k.2.1) fst (λ k, k.2.2 = true) _ _).
  - intros c [[|n] [l b]] _ _ _; eexists _, _; (split; [done|]); (split; [done|]); [left|right]; split_and!; first [done|cbn; lia].
  - intros k _. eexists _, _. split; [done|]. split; [done|]. by left.
Defined.

Definition sample_source_laws : source_laws sample_pipe_source.
Proof.
  refine (mkSourceLaws (λ _, True) (@concat Z) (@length (list Z)) _). intros [|c s] _; eexists _, _, _; (split; [done|]); split_and!; try done; [by left|right]. split_and!; [done|cbn; lia|by left].
Defined.

Definition sample_operators : list (lawful (list Z) (option (list Z))) := [existT twice twice_laws; existT hold hold_laws; existT twice twice_laws].

Lemma pipeline_delivers_every_row_witness :
  ∃ k st', (∀ g, run_calls (mkPipe [twice; hold; twice] sample_pipe_source sample_pipe_sink 0 false) (k + g) (PROCESS_PARTIAL :: replicate 39 PROCESS_ALL)
      (new_executor (mkPipe [twice; hold; twice] sample_pipe_source sample_pipe_sink 0 false) [None; None; None] [[1; 2]; []; [3]] (2%nat, ([], false)) []) = Ret (true, st')) ∧
    st'.(local_sink_state).2.1 ≡ₚ [1; 1; 1; 1; 2; 2; 2; 2; 3; 3; 3; 3] ∧ st'.(local_sink_state).2.2 = true.
Proof.
  apply (pipeline_delivers_every_row (mkPipe [twice; hold; twice] sample_pipe_source sample_pipe_sink 0 false) sample_operators sample_sink_laws sample_source_laws); try done.
  - repeat constructor.
  - repeat constructor.
  - cbn. lia.
Defined.
