(* ===== verification/PipelinePull.v ===== *)
(** * PipelinePull: a pipeline whose result is fetched

    The last pipeline of a query with a streaming result has no sink:
    [ExecutePull] of [PipelineExecutor] gets the next chunk.  The chunks hold
    exactly the rows of the source sent through the operators. *)

From S2P Require Import Prelude VectorHash Storage UseBF PipelineExecutor PipelineFlow.
Local Open Scope Z_scope.
Local Open Scope machine_scope.

Section Pull.
  Context {C Row OS Src Snk : Type} `{ChunksOk C Row} (pipe : pipeline (C := C) (OS := OS) (Src := Src) (Snk := Snk)) (ops : list (lawful C OS)).
  Context (Hops : pipe.(p_operators) = op_of <$> ops) (Hint : pipe.(interrupted) = false) (sl : source_laws pipe.(p_source)).
  Context (Hkept : Forall (λ o, ∀ s, good_state (laws o) s → kept (laws o) s = []) ops).

(** The rows that are still to come. *)
Record pull_inv (total : list Row) (st : executor (C := C) (OS := OS) (Src := Src) (Snk := Snk)) : Prop := {
  pi_source : st.(exhausted_source) = false → good_source sl st.(local_source_state);
  pi_flow : flow ops 0 None st.(intermediate_chunks) st.(final_chunk) st.(intermediate_states) st.(in_process_operators);
  pi_input : st.(in_process_operators) ≠ [] → ∃ c, st.(intermediate_chunks) !! 0%nat = Some c ∧ chunk_size c ≠ 0;
  pi_balance : owed ops st.(intermediate_states) ++ through ops (if st.(exhausted_source) then [] else rest sl st.(local_source_state)) ≡ₚ total;
  pi_flags : st.(finished_processing_idx) < 0 ∧ st.(finalized) = false
}.

(** Nothing is owed while no operator is at work. *)
Lemma nothing_owed total st : pull_inv total st → st.(in_process_operators) = [] → owed ops st.(intermediate_states) = [].
Proof.
  intros [_ Hfl _ _ _] Hstk. apply owed_nothing. pose proof (fl_states _ _ _ _ _ _ _ Hfl) as Hss. apply Forall2_same_length_lookup_2; [by eapply Forall2_length|].
  intros j o s Ho Hs. pose proof (Forall2_lookup_lr _ _ _ _ _ _ Hss Ho Hs) as Hg. split; [exact (Forall_lookup_1 _ _ _ _ Hkept Ho s Hg)|]. apply (law_fresh (laws o)); [done|].
  pose proof (fl_at _ _ _ _ _ _ _ Hfl j ltac:(done) o s Ho Hs) as Ha. by rewrite Hstk, decide_False in Ha by apply not_elem_of_nil.
Qed.

Lemma pull_fetched total st r c s :
  pull_inv total st → st.(exhausted_source) = false → st.(in_process_operators) = [] → good_chunk c → rows c ++ rest sl s ≡ₚ rest sl st.(local_source_state) →
  r = SourceFinished ∧ rest sl s = [] ∨ good_source sl s ∧ r ≠ SourceFinished →
  pull_inv (owed ops st.(intermediate_states) ++ through ops (rest sl s)) (fetched c (set_source s (bool_decide (r = SourceFinished)) st)) ∧
  through ops (rows c) ++ owed ops st.(intermediate_states) ++ through ops (rest sl s) ≡ₚ total.
Proof.
  intros [Hsrc Hfl Hinp Hbal Hflags] Hex Hstk Hc Hrows Hr. split; [|rewrite <- Hbal, Hex, <- Hrows, through_app; solve_Permutation].
  rewrite Hstk in Hfl. pose proof (fetched_flow ops c s (bool_decide (r = SourceFinished)) st Hfl Hc) as Hfl'. pose proof (fetched_fields c s (bool_decide (r = SourceFinished)) st) as (_ & E2 & E3 & E4 & _).
  set (st' := fetched c (set_source s (bool_decide (r = SourceFinished)) st)) in *. assert (st'.(intermediate_states) = st.(intermediate_states) ∧ st'.(finished_processing_idx) = st.(finished_processing_idx) ∧ st'.(finalized) = st.(finalized)) as (F1 & F2 & F3).
  { unfold st', fetched. cbn. by destruct st.(intermediate_chunks). }
  cbv zeta in Hfl'. split; rewrite ?E2, ?E3, ?E4, ?Hstk, ?F1, ?F2, ?F3; try done.
  - intros Hne%bool_decide_eq_false. by destruct Hr as [[? _]|[? _]].
  - destruct Hr as [[-> ->]|[_ Hne]]; [done|]. by rewrite bool_decide_false.
Qed.

Lemma fetched_again c c' s s' ex ex' (st : executor (C := C) (OS := OS) (Src := Src) (Snk := Snk)) : fetched c' (set_source s' ex' (fetched c (set_source s ex st))) = fetched c' (set_source s' ex' st).
Proof. unfold fetched. cbn. by destruct st.(intermediate_chunks) eqn:E; cbn; rewrite ?E. Qed.

Lemma pull_inv_rows total total' st : pull_inv total st → total ≡ₚ total' → pull_inv total' st.
Proof. intros [Hsrc Hfl Hinp Hbal Hflags] Hp. split; try done. by rewrite Hbal. Qed.

(** Fetching from the source, which may block before. *)
Lemma await_ok total n st :
  (fetches sl st.(local_source_state) < n)%nat → pull_inv total st → st.(exhausted_source) = false → st.(in_process_operators) = [] →
  ∃ k r c s rt, (∀ g, await_source pipe (k + g) st = Ret (r, fetched c (set_source s false st))) ∧ good_chunk c ∧
    pull_inv rt (fetched c (set_source s (bool_decide (r = SourceFinished)) st)) ∧ through ops (rows c) ++ rt ≡ₚ total ∧
    (r = SourceFinished ∨ r = SourceHaveMoreOutput ∧ (fetches sl s < fetches sl st.(local_source_state))%nat).
Proof.
  revert total st. induction n as [|n IH]; intros total st Hn Hinv Hex Hstk; [lia|]. destruct (law_get sl _ (pi_source _ _ Hinv Hex)) as (r & c & s & E & Hgc & Hrows & Hr).
  pose proof (fetch_step pipe ops Hops Hint st r c s (fl_length _ _ _ _ _ _ _ (pi_flow _ _ Hinv)) Hex E) as Hfetch.
  destruct (pull_fetched total st r c s Hinv Hex Hstk Hgc Hrows) as [Hinv' Htot]; [destruct Hr as [?|(? & _ & [->|[-> _]])]; [by left|by right..]|].
  assert (r ≠ SourceBlocked → ∀ g, await_source pipe (1 + g) st = Ret (r, fetched c (set_source s false st))) as Hone by (intros Hnb g; cbn; rewrite Hfetch; orun; by destruct r).
  destruct Hr as [[-> Hrest]|(Hgs & Hlt & [->|[-> Hnil]])].
  - eexists 1%nat, SourceFinished, c, s, _. split_and!; [by apply Hone|done|exact Hinv'|done|by left].
  - eexists 1%nat, SourceHaveMoreOutput, c, s, _. split_and!; [by apply Hone|done|exact Hinv'|done|by right].
  - rewrite bool_decide_false in Hinv' by done. rewrite Hnil, through_nil in Htot. cbn [app] in Htot. set (st1 := fetched c (set_source s false st)) in *. pose proof (fetched_fields c s false st) as (_ & E2 & E3 & E4 & _). fold st1 in E2, E3, E4.
    destruct (IH (owed ops st.(intermediate_states) ++ through ops (rest sl s)) st1) as (k & r' & c' & s' & rt & Hk & Hgc' & Hinv2 & Htot2 & Hr'); [rewrite E3; lia|exact Hinv'|done|congruence|].
    exists (S k), r', c', s', rt. unfold st1 in Hk, Hinv2. rewrite fetched_again in Hinv2. setoid_rewrite fetched_again in Hk. split_and!; [|done|done|by rewrite Htot2, Htot|].
    + intros g. cbn [Nat.add await_source]. rewrite Hfetch. orun. apply Hk.
    + destruct Hr' as [?|[? Hlt']]; [by left|right]. split; [done|]. rewrite E3 in Hlt'. lia.
Qed.

(** *** The loop *)

(** A call gives the next rows, and none only at the end. *)
Definition pulls (total : list Row) (run : nat → outcome executor) : Prop :=
  ∃ k st' rt, (∀ g, run (k + g)%nat = Ret st') ∧ pull_inv rt st' ∧ rows st'.(final_chunk) ++ rt ≡ₚ total ∧ (rows st'.(final_chunk) = [] → rt = []).

(** The loop stops when there are rows. *)
Lemma pulls_rows total rt st : pull_inv rt st → rows st.(final_chunk) ≠ [] → rows st.(final_chunk) ++ rt ≡ₚ total → pulls total (λ fuel, pull_loop pipe fuel st).
Proof.
  intros Hinv Hne Htot. exists 1%nat, st, rt. split_and!; [|done|done|done]. intros g. cbn.
  rewrite (proj2 (Z.eqb_neq _ _)); [done|]. by rewrite (size_empty _ (fl_final _ _ _ _ _ _ _ (pi_flow _ _ Hinv))).
Qed.

(** One turn runs the operators on the source chunk. *)
Lemma execute_pulls total rt st c :
  pull_inv rt st → rows st.(final_chunk) = [] → st.(intermediate_chunks) !! 0%nat = Some c → chunk_size c ≠ 0 →
  match st.(in_process_operators) with [] => through ops (rows c) | _ => [] end ++ rt ≡ₚ total →
  (∀ st' rt', st'.(exhausted_source) = st.(exhausted_source) → st'.(local_source_state) = st.(local_source_state) → st'.(in_process_operators) = [] → rows st'.(final_chunk) = [] → pull_inv rt' st' →
    rt' ≡ₚ total → pulls total (λ fuel, pull_loop pipe fuel st')) →
  pulls total (λ fuel, let* (r, st) := Execute_chunk pipe (S fuel) (source_chunk_ref pipe) 0 st in match r with FINISHED => Ret st | _ => pull_loop pipe fuel st end).
Proof.
  intros Hinv Hf Hc Hsz Htot Hnext. pose proof Hinv as [Hsrc Hfl Hinp Hbal Hflags]. pose proof (lookup_lt_Some _ _ _ Hc) as Hlt. rewrite (fl_length _ _ _ _ _ _ _ Hfl) in Hlt.
  assert (source_chunk_ref pipe = Intermediate 0) as -> by (rewrite (source_ref pipe ops Hops); destruct ops; [cbn in Hlt; lia|done]).
  destruct (Execute_chunk_ok pipe ops Hops Hint st 0 _ _ _ _ c Hlt Hfl Hf Hc Hsz) as (k & ch' & f' & ss' & stk' & Hfl' & Hbal' & Hend & _ & Hch & _ & Hg). rewrite upd_self in Hg. rewrite drop_0 in Hbal'.
  set (st' := upd st ch' f' ss' stk') in *. set (rt' := owed ops ss' ++ through ops (if st.(exhausted_source) then [] else rest sl st.(local_source_state))).
  assert (pull_inv rt' st') as Hinv' by (split; try done; intros Hne; exists c; split; [by apply Hch|done]).
  assert (rows f' ++ rt' ≡ₚ total) as Htot' by (unfold rt'; rewrite app_assoc, Hbal', <- Htot, <- Hbal; by rewrite app_assoc).
  assert (pulls total (λ fuel, pull_loop pipe fuel st')) as (k2 & st2 & rt2 & Hk2 & Hrest).
  { destruct (decide (rows f' = [])) as [E|E]; [|by apply (pulls_rows total rt')]. apply (Hnext st' rt'); try done; [by apply Hend|]. by rewrite E in Htot'. }
  exists (k + k2)%nat, st2, rt2. split; [|done]. intros g. cbn beta. replace (S (k + k2 + g)) with (k + S (k2 + g))%nat by lia. rewrite Hg. orun. replace (k + k2 + g)%nat with (k2 + (k + g))%nat by lia. rewrite Hk2. by destruct stk'.
Qed.

(** The source is exhausted and no operator is at work. *)
Lemma pulls_end total st : pull_inv total st → st.(exhausted_source) = true → st.(in_process_operators) = [] → rows st.(final_chunk) = [] → total = [].
Proof.
  intros Hinv Hex Hstk Hf. pose proof (pi_balance _ _ Hinv) as Hbal. rewrite Hex, (nothing_owed total st Hinv Hstk), through_nil in Hbal. symmetry. by apply Permutation_nil_l.
Qed.

Definition fetches_left (st : executor (C := C) (OS := OS) (Src := Src) (Snk := Snk)) : nat := if st.(exhausted_source) then 0 else S (fetches sl st.(local_source_state)).

(** One turn of the loop that fetches a chunk. *)
Lemma pull_turn k r c s st :
  length st.(intermediate_chunks) = length ops → chunk_size st.(final_chunk) = 0 → st.(exhausted_source) = false → st.(in_process_operators) = [] → r ≠ SourceBlocked →
  (∀ g, await_source pipe (k + g) st = Ret (r, fetched c (set_source s false st))) → let st' := fetched c (set_source s (bool_decide (r = SourceFinished)) st) in
  ∀ fuel, pull_loop pipe (S (k + fuel)) st =
    if bool_decide (r = SourceFinished) && (chunk_size c =? 0) then Ret st' else
    match ops with
    | [] => pull_loop pipe (k + fuel) st'
    | _ => let* (r, st) := Execute_chunk pipe (S (k + fuel)) (source_chunk_ref pipe) 0 st' in match r with FINISHED => Ret st | _ => pull_loop pipe (k + fuel) st end
    end.
Proof.
  intros Hl Hsz Hex Hstk Hnb Hk st' fuel. cbn [pull_loop]. rewrite Hsz, Hex, Hstk. cbn [Z.eqb negb andb orb]. rewrite <- Nat.add_succ_r, Hk. orun. rewrite Hops. destruct r; [| |done]; unfold st'.
  - rewrite bool_decide_false by done. cbn [andb]. orun. by destruct ops.
  - rewrite bool_decide_true by done. cbn [andb]. rewrite fetched_exhausted, (load_source pipe ops Hops c (set_source s true st) Hl). orun. by destruct (chunk_size c =? 0), ops.
Qed.

Lemma pulls_shift total k (run run' : nat → outcome executor) : (∀ g, run (S (k + g)) = run' (k + g)%nat) → pulls total run' → pulls total run.
Proof.
  intros Hrun (k' & st' & rt & Hk & Hrest). exists (S (k + k')), st', rt. split; [|done]. intros g. replace (S (k + k') + g)%nat with (S (k + (k' + g))) by lia. rewrite Hrun.
  replace (k + (k' + g))%nat with (k' + (k + g))%nat by lia. apply Hk.
Qed.

Lemma fetched_final c s ex (st : executor (C := C) (OS := OS) (Src := Src) (Snk := Snk)) : rows st.(final_chunk) = [] → rows (fetched c (set_source s ex st)).(final_chunk) = if decide (st.(intermediate_chunks) = []) then rows c else [].
Proof. intros Hf. unfold fetched. cbn. destruct st.(intermediate_chunks); cbn; [by rewrite decide_True by done|by rewrite decide_False by done]. Qed.

Lemma fetched_chunk_at c s ex (st : executor (C := C) (OS := OS) (Src := Src) (Snk := Snk)) : st.(intermediate_chunks) ≠ [] → (fetched c (set_source s ex st)).(intermediate_chunks) !! 0%nat = Some c.
Proof. intros Hne. unfold fetched. cbn. by destruct st.(intermediate_chunks). Qed.

Lemma pull_none total n st :
  (fetches_left st < n)%nat → pull_inv total st → st.(in_process_operators) = [] → rows st.(final_chunk) = [] → pulls total (λ fuel, pull_loop pipe fuel st).
Proof.
  revert total st. induction n as [|n IH]; intros total st Hn Hinv Hstk Hf; [lia|]. pose proof (fl_length _ _ _ _ _ _ _ (pi_flow _ _ Hinv)) as Hl.
  assert (chunk_size st.(final_chunk) = 0) as Hsz by (by apply (size_empty _ (fl_final _ _ _ _ _ _ _ (pi_flow _ _ Hinv)))). destruct st.(exhausted_source) eqn:Hex.
  { pose proof (pulls_end total st Hinv Hex Hstk Hf) as ->. exists 1%nat, st, []. split_and!; [|done|by rewrite Hf|done]. intros g. cbn. by rewrite Hsz, Hex, Hstk. }
  destruct (await_ok total (S (fetches sl st.(local_source_state))) st (Nat.lt_succ_diag_r _) Hinv Hex Hstk) as (k & r & c & s & rt & Hk & Hgc & Hinv' & Htot & Hr).
  assert (r ≠ SourceBlocked) as Hnb by (destruct Hr as [->|[-> _]]; done). pose proof (pull_turn k r c s st Hl Hsz Hex Hstk Hnb Hk) as Hturn. cbv zeta in Hturn.
  pose proof (fetched_fields c s (bool_decide (r = SourceFinished)) st) as (_ & E2 & E3 & E4 & _). pose proof (fetched_final c s (bool_decide (r = SourceFinished)) st Hf) as Hf'.
  set (st' := fetched c (set_source s (bool_decide (r = SourceFinished)) st)) in *.
  assert (load (source_chunk_ref pipe) st' = Ret c) as Hload by (apply (load_source pipe ops Hops); exact Hl).
  assert (fetches_left st' < n)%nat as Hleft.
  { unfold fetches_left in Hn |- *. rewrite Hex in Hn. rewrite E2, E3. destruct Hr as [->|[-> ?]]; [rewrite bool_decide_true by done|rewrite bool_decide_false by done]; lia. }
  destruct (decide (rows c = [])) as [Ec|Ec].
  - assert (chunk_size c = 0) as Hc0 by (by apply size_empty). rewrite Ec, through_nil in Htot. cbn [app] in Htot. assert (rows st'.(final_chunk) = []) as Hf2 by (rewrite Hf', Ec; by case_decide).
    apply (pull_inv_rows rt total) in Hinv'; [|done]. rewrite Hc0 in Hturn. destruct (bool_decide (r = SourceFinished)) eqn:Efin; cbn [andb Z.eqb] in Hturn.
    + pose proof (pulls_end total st' Hinv' E2 ltac:(congruence) Hf2) as ->. exists (S k), st', []. split_and!; [|done|by rewrite Hf2|done]. intros g. apply Hturn.
    + apply (pulls_shift total k _ (λ fuel, pull_loop pipe fuel st')); [|apply (IH total st' Hleft Hinv'); congruence]. intros g. rewrite Hturn. destruct ops as [|o os] eqn:Eops; [done|]. rewrite <- Eops in *.
      unfold Execute_chunk. rewrite Hload. orun. by rewrite Hc0.
  - assert (chunk_size c ≠ 0) as Hc0 by (by rewrite size_empty). rewrite (proj2 (Z.eqb_neq _ _) Hc0), andb_false_r in Hturn. destruct (decide (ops = [])) as [Eops|Eops].
    + apply (pulls_shift total k _ (λ fuel, pull_loop pipe fuel st')); [intros g; rewrite Hturn; by rewrite Eops|]. assert (rows st'.(final_chunk) = rows c) as Hfc by (rewrite Hf', decide_True; [done|]; apply nil_length_inv; by rewrite Hl, Eops).
      apply (pulls_rows total rt st' Hinv'); rewrite Hfc; [done|]. by rewrite Eops in Htot.
    + apply (pulls_shift total k _ (λ fuel, let* (r, st) := Execute_chunk pipe (S fuel) (source_chunk_ref pipe) 0 st' in match r with FINISHED => Ret st | _ => pull_loop pipe fuel st end)).
      { intros g. rewrite Hturn. by destruct ops. }
      assert (st.(intermediate_chunks) ≠ []) as Hne by (intros E; apply Eops, nil_length_inv; by rewrite <- Hl, E). rewrite decide_False in Hf' by done.
      apply (execute_pulls total rt st' c Hinv' Hf'); [by apply fetched_chunk_at|done|by rewrite E4, Hstk|].
      intros st2 rt2 F1 F2 F3 F4 Hinv2 Htot2. apply (IH total st2); [|by apply (pull_inv_rows rt2)|done|done]. unfold fetches_left in Hleft |- *. by rewrite F1, F2.
Qed.

(** [ExecutePull]. *)
Lemma ExecutePull_ok total st : pull_inv total st → pulls total (λ fuel, ExecutePull pipe fuel st).
Proof.
  intros Hinv. pose proof (pi_flags _ _ Hinv) as [Hfin _]. set (st0 := set_chunks st.(intermediate_chunks) reset_chunk st).
  assert (pull_inv total st0) as Hinv0. { destruct Hinv as [Hsrc Hfl Hinp Hbal Hflags]. split; try done. destruct Hfl; split; try done. apply good_reset. }
  assert (∀ fuel, ExecutePull pipe fuel st = pull_loop pipe fuel st0) as Hrun. { intros fuel. unfold ExecutePull. fold st0. unfold IsFinished. rewrite (proj2 (Z.leb_gt _ _)); [done|]. exact Hfin. }
  assert (pulls total (λ fuel, pull_loop pipe fuel st0)) as (k & st' & rt & Hk & Hrest); [|exists k, st', rt; split; [|done]; intros g; rewrite Hrun; apply Hk].
  destruct (decide (st.(in_process_operators) = [])) as [Hstk|Hstk]; [apply (pull_none total (S (fetches_left st0)) st0 (Nat.lt_succ_diag_r _) Hinv0 Hstk reset_rows)|].
  destruct (pi_input _ _ Hinv0 Hstk) as (c & Hc & Hsz). pose proof (lookup_lt_Some _ _ _ Hc) as Hlt. rewrite (fl_length _ _ _ _ _ _ _ (pi_flow _ _ Hinv0)) in Hlt.
  apply (pulls_shift total 0 _ (λ fuel, let* (r, st) := Execute_chunk pipe (S fuel) (source_chunk_ref pipe) 0 st0 in match r with FINISHED => Ret st | _ => pull_loop pipe fuel st end)).
  - intros g. cbn [pull_loop Nat.add]. change (in_process_operators st0) with st.(in_process_operators). rewrite (proj2 (size_empty _ good_reset) reset_rows : chunk_size st0.(final_chunk) = 0). cbn [Z.eqb andb].
    destruct st.(in_process_operators) eqn:E; [done|]. rewrite orb_true_r. orun. rewrite Hops. destruct ops; [cbn in Hlt; lia|done].
  - apply (execute_pulls total total st0 c Hinv0 reset_rows Hc Hsz); [by change (in_process_operators st0) with st.(in_process_operators); destruct st.(in_process_operators)|].
    intros st2 rt2 F1 F2 F3 F4 Hinv2 Htot2. apply (pull_none total (S (fetches_left st2)) st2 (Nat.lt_succ_diag_r _)); [by apply (pull_inv_rows rt2)|done|done].
Qed.

(** All chunks. *)
Lemma fetch_chunks_ok total n st : pull_inv total st → (length total < n)%nat → ∃ k st' l, (∀ g, fetch_chunks pipe n (k + g) st = Ret (l, st')) ∧ l ≡ₚ total.
Proof.
  revert total st. induction n as [|n IH]; intros total st Hinv Hn; [lia|]. destruct (ExecutePull_ok total st Hinv) as (k & st1 & rt & Hk & Hinv1 & Htot & Hend).
  pose proof (fl_final _ _ _ _ _ _ _ (pi_flow _ _ Hinv1)) as Hgf. destruct (decide (rows st1.(final_chunk) = [])) as [E|E].
  - exists k, (set_finalized true st1), []. rewrite E, (Hend E) in Htot. split; [|done]. intros g. cbn [fetch_chunks]. rewrite Hk. orun. rewrite (proj2 (size_empty _ Hgf) E). cbn [Z.eqb]. unfold PullFinalize. destruct (pi_flags _ _ Hinv1) as [_ ->]. done.
  - destruct (IH rt st1 Hinv1) as (k2 & st' & l & Hk2 & Hl). { apply Permutation_length in Htot. rewrite length_app in Htot. destruct (rows st1.(final_chunk)); [done|]. cbn in Htot. lia. }
    exists (k + k2)%nat, st', (rows st1.(final_chunk) ++ l). split; [|by rewrite Hl]. intros g. cbn [fetch_chunks]. rewrite <- Nat.add_assoc, Hk. orun. rewrite (proj2 (Z.eqb_neq _ _)) by (by rewrite size_empty).
    replace (k + (k2 + g))%nat with (k2 + (k + g))%nat by lia. by rewrite Hk2.
Qed.
End Pull.

(** ** Properties *)

(** C15: a pipeline without a sink.  When no operator keeps rows back, the chunks
    the client fetches, up to the empty one, hold exactly the rows of the
    source sent through the operators, and a bounded number of calls gets
    them. *)
Theorem pull_delivers_every_row {C Row OS Src Snk : Type} `{ChunksOk C Row} (pipe : pipeline (C := C) (OS := OS) (Src := Src) (Snk := Snk)) (ops : list (lawful C OS))
    (sl : source_laws pipe.(p_source)) (states : list OS) (s : Src) (κ : Snk) (indexes : list Z) (n : nat) :
  pipe.(p_operators) = op_of <$> ops → pipe.(interrupted) = false → pipe.(p_sink).(snk_requires_batch_index) = false → Forall (λ o, op_no_output (op_of o) = false) ops →
  Forall (λ o, ∀ s, good_state (laws o) s → kept (laws o) s = []) ops → Forall2 fresh_operator ops states → good_source sl s → (length (through ops (rest sl s)) < n)%nat →
  ∃ k st' l, (∀ g, fetch_chunks pipe n (k + g) (new_executor pipe states s κ indexes) = Ret (l, st')) ∧ l ≡ₚ through ops (rest sl s).
Proof.
  intros Hops Hint Hbatch Hno Hkept Hss Hs Hn. apply (fetch_chunks_ok pipe ops Hops Hint sl Hkept); [|done]. unfold new_executor. rewrite Hbatch.
  assert (existsb op_no_output pipe.(p_operators) = false) as -> by (rewrite Hops; by apply no_outputs). rewrite Hops, length_fmap. split; try done; cbn.
  - by apply fresh_flow.
  - by rewrite fresh_owed.
Qed.

(** The operator that gives every chunk twice, before a client that fetches. *)
#[local] Existing Instances sample_lists sample_lists_ok.

Lemma pull_delivers_every_row_witness :
  ∃ k st' l, (∀ g, fetch_chunks (mkPipe [twice; twice] sample_pipe_source sample_pipe_sink 0 false) 13 (k + g)
      (new_executor (mkPipe [twice; twice] sample_pipe_source sample_pipe_sink 0 false) [None; None] [[1; 2]; []; [3]] (0%nat, ([], false)) []) = Ret (l, st')) ∧
    l ≡ₚ [1; 1; 1; 1; 2; 2; 2; 2; 3; 3; 3; 3].
Proof.
  apply (pull_delivers_every_row (mkPipe [twice; twice] sample_pipe_source sample_pipe_sink 0 false) [existT twice twice_laws; existT twice twice_laws] sample_source_laws); try done.
  - repeat constructor.
  - repeat constructor.
  - repeat constructor.
  - cbn. lia.
Defined.
