(* ===== verification/TransferPipeline.v ===== *)
(** * TransferPipeline: a pipeline of the predicate transfer

    The pipeline from one [PhysicalCreateBF] through operators [PhysicalUseBF]
    into another [PhysicalCreateBF], run by the executor of
    [PipelineExecutor]: the operators meet the laws the executor asks for, and
    the tasks of the pipeline buffer exactly the rows the filters accept. *)

From S2P Require Import Prelude Arrow BloomMasks BloomFilter BloomAvx2 BloomLookup ValueHash Values VectorHash Storage UseBF CreateBF PipelineExecutor PipelineFlow.
Local Open Scope Z_scope.
Local Open Scope machine_scope.

(** ** The operators *)

Section Operators.
  Context `{ArrowBits} `{ColumnCopy} {G : Type} {ts : list Ty} (masks_ : list Z).

#[export] Instance data_chunks : Chunks (DataChunk ts) (tuple ts) := { reset_chunk := chunk_of []; chunk_size := csize; rows := chunk_rows }.

(** [PhysicalUseBF], a [CachingPhysicalOperator]. *)
Definition use_operator (allowed : bool) (sel : list Z) (bf : BlockedBloomFilter) : operator (C := DataChunk ts) (OS := CachingOperatorState ts) :=
  mkOperator (λ input state, let* (r, state, chunk) := Execute (PhysicalUseBF masks_ [bf] sel) allowed state input in Ret (r, chunk, state))
    (caching_supported (ts := ts)) (λ state, let (chunk, state) := FinalExecute state in Ret (FinalFinished, chunk, state)) false.

(** [PhysicalCreateBF] as a source; [data] is the state its sink side left. *)
Definition create_source (data : CreateBFGlobalSinkState G ts)
    : source (C := DataChunk ts) (Src := CreateBFGlobalSourceState * CreateBFLocalSourceState) :=
  PipelineExecutor.mkSource (λ s, let* (r, g, l, out) := GetData data s.1 s.2 in
      Ret (match r with SOURCE_FINISHED => SourceFinished | SOURCE_HAVE_MORE_OUTPUT => SourceHaveMoreOutput end, chunk_of (from_option snd [] out), (g, l)))
    (λ _ _, Throw "Calling GetBatchIndex on a node that does not support it").

(** [PhysicalCreateBF] as a sink: the shared state, and the rows of the task,
    which [Combine] moves. *)
Definition create_sink : sink (C := DataChunk ts) (Snk := CreateBFGlobalSinkState G ts * option (ColumnDataCollection (tuple ts))) :=
  PipelineExecutor.mkSink (λ chunk k, let* local := deref k.2 in let* local := Sink local chunk in Ret (SinkNeedMoreInput, (k.1, Some local)))
    (λ k, let* local := deref k.2 in Ret (CombineFinished, (CombineLocal k.1 local, None))) (λ k, Ret (NextBatchReady, k)) false.

Definition transfer_pipeline (allowed : bool) (sel : list Z) (bfs : list BlockedBloomFilter) (data : CreateBFGlobalSinkState G ts) (base_batch_index : Z) : pipeline :=
  mkPipe (use_operator allowed sel <$> bfs) (create_source data) create_sink base_batch_index false.

(** A task of the pipeline, which takes the range of chunks [partition], adds
    its rows to what other tasks buffered. *)
Definition transfer_task (allowed : bool) (sel : list Z) (bfs : list BlockedBloomFilter) (data : CreateBFGlobalSinkState G ts) (num_threads : Z) (fuel : nat) (modes : list TaskExecutionMode)
    (gstate : CreateBFGlobalSinkState G ts) (partition : Z) : outcome (CreateBFGlobalSinkState G ts) :=
  let pipe := transfer_pipeline allowed sel bfs data 0 in
  let source_state := CreateBF.mkSource (GetGlobalSourceState num_threads data).(chunks_todo) partition in
  let* (finished, st) := run_calls pipe fuel modes
    (new_executor pipe (replicate (length bfs) GetOperatorState) (source_state, GetLocalSourceState) (gstate, Some GetLocalSinkState) []) in
  if finished : bool then Ret st.(local_sink_state).1 else NoFuel.
End Operators.

(** ** Laws *)

Section Lawful.
  Context `{ArrowBitsOk} `{ColumnCopyOk} {G : Type} {ts : list Ty} (ts_ok : forallb array_free ts = true) (masks_ : list Z) (masks_good : masks_ok masks_).

Lemma small_no_values t : small t [].
Proof.
  induction t as [s|us IH|t IH|t n IH] using Ty_nested_ind; try done. cbn [small]. induction IH as [|t us Ht _ IHus]; [done|]. by split.
Qed.

Lemma small_no_rows us : small_rows us [].
Proof. induction us as [|t us IH]; [done|]. split; [apply small_no_values|exact IH]. Qed.

Lemma empty_chunk_ok : chunk_ok (chunk_of (ts := ts) []).
Proof. by apply chunk_of_rows; [|apply small_no_rows|]. Qed.

#[export] Instance data_chunks_ok : ChunksOk (DataChunk ts) (tuple ts).
Proof.
  refine {| good_chunk := chunk_ok |}.
  - apply empty_chunk_ok.
  - done.
  - intros c [Hc _]. cbn. rewrite chunk_rows_length. lia.
Defined.

(** *** PhysicalUseBF *)

Lemma flat_map_filter {A} (P : A → bool) (l : list A) : flat_map (λ r, if P r then [r] else []) l = base.filter (λ r, P r = true) l.
Proof. induction l as [|a l IH]; [done|]. cbn [flat_map]. rewrite filter_cons, IH. destruct (P a) eqn:E; [by rewrite decide_True|by rewrite decide_False]. Qed.

Section Use.
  Context (allowed : bool) (sel : list Z) (bf : BlockedBloomFilter) (bs : list Z).
  Context (Hsel : Z.of_nat (length sel) = STANDARD_VECTOR_SIZE) (Hkeys : keys_safe ts bf.(BoundColsApplied) = true) (Hbf : bf_ok bf bs).

Definition use_laws : operator_laws (use_operator (ts := ts) masks_ allowed sel bf).
Proof.
  refine (mkLaws caching_ok (λ r, if accepted masks_ bf bs ts bf.(BoundColsApplied) r then [r] else []) (λ s, default [] s.(cached_chunk)) (λ _, []) (λ _, None) (λ _, 0%nat) _ _ _ _).
  - done.
  - intros Hno s (K1 & _ & K3 & _). cbn in Hno. destruct (cached_chunk s) as [l|] eqn:E; [|done]. rewrite K1 in Hno; [done|]. by apply K3.
  - intros c s Hs Hc _ _. destruct (ExecuteInternal_ok masks_ masks_good bf [] bs sel c ts_ok Hkeys Hbf Hsel Hc) as (out & E & Hout & Hrows).
    assert (PhysicalUseBF masks_ [bf] sel c = Ret (NEED_MORE_INPUT, out)) as Ein by (unfold PhysicalUseBF; by rewrite E).
    destruct (Execute_ok (PhysicalUseBF masks_ [bf] sel) allowed s c (chunk_rows out) Hs) as (r & s' & c' & E' & Hs' & (c2 & E2) & Hc' & Hp); [rewrite Ein; by intros ?? [= <- <-]|by eexists _, _|].
    assert (r = NEED_MORE_INPUT) as -> by congruence. exists NEED_MORE_INPUT, c', s'. split_and!; [cbn; by rewrite E'|apply Hs'|apply Hc'| |by left]. cbn [rows data_chunks].
    rewrite app_nil_r, Hp, Hrows, flat_map_filter. done.
  - intros _ s (K1 & K2 & K3 & K4) _. cbn. unfold FinalExecute. destruct (cached_chunk s) as [l|] eqn:E; cbn in *.
    + destruct (chunk_of_ok (ts := ts) l) as [Hok Hr]; [by apply K1, K3|unfold CACHE_THRESHOLD in K4; lia|]. eexists _, _, _. split; [done|]. split_and!; try done; [cbn; by rewrite Hr, app_nil_r|by left].
    + eexists _, _, _. split; [done|]. split; [by unfold caching_ok; rewrite E|]. rewrite E. split; [apply empty_chunk_ok|]. split_and!; try done. by left.
Defined.
End Use.

(** *** PhysicalCreateBF as a source *)

Section Source.
  Context (data : CreateBFGlobalSinkState G ts) (Hdata : collection_ok data.(total_data)) (Hsmall : small_rows ts (Some <$> all_rows data.(total_data))).
  Context (rs : list (Z * Z)) (rs_ok : Forall (λ r, 0 ≤ r.1 < r.2 ∧ r.2 ≤ ChunkCount data.(total_data)) rs).

(** The chunks of range [p], and those a task has still to fetch. *)
Definition range_chunks (p : Z) : list Z := match rs !! Z.to_nat p with Some (a, b) => seqZ a (b - a) | None => [] end.

Definition pending_chunks (s : CreateBFGlobalSourceState * CreateBFLocalSourceState) : list Z :=
  if s.2.(initial) then range_chunks s.1.(partition_id)
  else match s.2.(chunk_to) with Some b => seqZ s.2.(local_current_chunk_id) (b - s.2.(local_current_chunk_id)) | None => [] end.

Definition chunk_rows_at (i : Z) : list (tuple ts) := default [] (all_chunks data.(total_data) !! Z.to_nat i).

Definition task_state (s : CreateBFGlobalSourceState * CreateBFLocalSourceState) : Prop :=
  s.1.(chunks_todo) = rs ∧ (s.2 = GetLocalSourceState ∨
    ∃ j a b c, s.2 = mkLocalSource c (Some j) (Some a) (Some b) false ∧ 0 ≤ a < c ∧ c ≤ b ≤ ChunkCount data.(total_data)).

Lemma fetched_chunk i : 0 ≤ i < ChunkCount data.(total_data) → FetchChunk data.(total_data) i = Ret (chunk_rows_at i) ∧
  chunk_ok (chunk_of (chunk_rows_at i)) ∧ chunk_rows (chunk_of (chunk_rows_at i)) = chunk_rows_at i.
Proof.
  intros Hi. destruct (FetchChunk_ok data.(total_data) i Hi) as (l & Ef & El). unfold chunk_rows_at. rewrite El. cbn. split; [done|]. apply chunk_of_rows; [done| |].
  - unfold all_rows in Hsmall. rewrite <- (take_drop_middle _ _ _ El), concat_app in Hsmall. cbn [concat] in Hsmall.
    rewrite !fmap_app in Hsmall. apply small_rows_app in Hsmall as [_ Hs]. by apply small_rows_app in Hs as [Hs _].
  - exact (Forall_lookup_1 _ _ _ _ (coll_fits _ Hdata) El).
Qed.

Lemma pending_step a b : a < b → seqZ a (b - a) = a :: seqZ (a + 1) (b - (a + 1)).
Proof. intros Hab. rewrite seqZ_cons by lia. do 2 f_equal; lia. Qed.

(** What a call of [GetData] does to the chunks that are pending. *)
Lemma GetData_pending s :
  task_state s → ∃ r g l out, GetData data s.1 s.2 = Ret (r, g, l, out) ∧
    (r = SOURCE_FINISHED ∧ out = None ∧ pending_chunks s = [] ∧ pending_chunks (g, l) = [] ∨
     ∃ i, r = SOURCE_HAVE_MORE_OUTPUT ∧ out = Some (i, chunk_rows_at i) ∧ 0 ≤ i < ChunkCount data.(total_data) ∧ pending_chunks s = i :: pending_chunks (g, l) ∧ task_state (g, l)).
Proof.
  destruct s as [g l]. intros (Hrs & Hl). cbn [fst snd] in *. destruct Hl as [->|(j & a & b & c & -> & Ha & Hc)].
  - unfold GetData, pending_chunks, range_chunks. cbn [initial GetLocalSourceState chunks_todo local_current_chunk_id fst snd]. rewrite Hrs. destruct (rs !! Z.to_nat (partition_id g)) as [[a b]|] eqn:E.
    + pose proof (proj1 (Forall_lookup _ _) rs_ok _ _ E) as Hab. cbn [fst snd] in Hab. cbn [local_current_chunk_id chunk_from Z.eqb]. orun. destruct (fetched_chunk a) as [-> _]; [lia|]. orun.
      eexists _, _, _, _. split; [done|]. right. exists a. split_and!; [done|done|lia|lia| |split; [done|]].
      * cbn. apply pending_step. lia.
      * right. exists (partition_id g), a, b, (a + 1). split_and!; [done|lia..].
    + eexists _, _, _, _. split; [done|]. left. by split_and!.
  - unfold GetData, pending_chunks. cbn [initial local_current_chunk_id chunk_to fst snd]. rewrite (proj2 (Z.eqb_neq _ _)) by lia. orun. destruct (Z.leb_spec b c).
    + eexists _, _, _, _. split; [done|]. left. split_and!; [done|done|..]; cbn; apply seqZ_nil; lia.
    + destruct (fetched_chunk c) as [-> _]; [lia|]. orun. eexists _, _, _, _. split; [done|]. right. exists c. split_and!; [done|done|lia|lia| |split; [done|]].
      * cbn. apply pending_step. lia.
      * right. exists j, a, b, (c + 1). split_and!; [done|lia..].
Qed.

Definition create_source_laws : source_laws (create_source data).
Proof.
  refine (mkSourceLaws task_state (λ s, concat (chunk_rows_at <$> pending_chunks s)) (λ s, length (pending_chunks s)) _).
  intros s Hs. destruct (GetData_pending s Hs) as (r & g & l & out & E & Hr). cbn [src_GetData create_source]. rewrite E. orun. eexists _, _, _. split; [done|].
  destruct Hr as [(-> & -> & Hp & Hp')|(i & -> & -> & Hi & Hp & Hs')]; rewrite Hp.
  - rewrite Hp'. split_and!; try done; [by apply empty_chunk_ok|by left].
  - destruct (fetched_chunk i Hi) as (_ & Hok & Hrows). cbn [from_option snd]. split; [done|]. split; [cbn; by rewrite Hrows|]. right. split_and!; [done|cbn; lia|by left].
Defined.
End Source.

(** *** PhysicalCreateBF as a sink *)

Definition create_sink_laws : sink_laws (create_sink (G := G) (ts := ts)).
Proof.
  refine (mkSinkLaws (λ k, ∃ local, k.2 = Some local ∧ collection_ok local) (λ k, concat (all_rows <$> k.1.(local_data_collections)) ++ from_option all_rows [] k.2) (λ _, 0%nat)
    (λ k, k.2 = None) _ _).
  - intros c [g l] (local & E & Hl) _ _. cbn in E. subst l. destruct (Append_ok local (chunk_rows c) Hl) as (local' & E' & Hl' & Hr). cbn [snk_Sink create_sink fst snd deref]. orun. unfold Sink. rewrite E'. orun.
    eexists _, _. split; [done|]. split; [by exists local'|]. left. split_and!; [done| |done]. cbn. by rewrite Hr, app_assoc.
  - intros [g l] (local & E & Hl). cbn in E. subst l. cbn. eexists _, _. split; [done|]. split; [|by left]. cbn. by rewrite fmap_app, concat_app, app_nil_r; cbn; rewrite app_nil_r.
Defined.
End Lawful.

(** ** Tasks *)

(** The ranges hold every chunk once. *)
Lemma ranges_cover {G : Type} {ts : list Ty} (data : CreateBFGlobalSinkState G ts) num_threads order :
  1 ≤ num_threads → order ≡ₚ seqZ 0 num_threads → concat (range_chunks (GetGlobalSourceState num_threads data).(chunks_todo) <$> order) ≡ₚ seqZ 0 (ChunkCount data.(total_data)).
Proof.
  intros Hthreads ->. set (rs := (GetGlobalSourceState num_threads data).(chunks_todo)). destruct (source_ranges_ok data num_threads Hthreads) as [Hcov _]. fold rs in Hcov. rewrite <- Hcov. unfold covered.
  assert (Z.of_nat (length rs) ≤ num_threads) as Hlen by (pose proof (length_source_ranges (Z.to_nat num_threads) (chunks_per_thread (ChunkCount data.(total_data)) num_threads) (ChunkCount data.(total_data)) 0); unfold rs; cbn; lia). clearbody rs.
  assert (range_chunks rs <$> seqZ 0 num_threads = ((λ r : Z * Z, seqZ r.1 (r.2 - r.1)) <$> rs) ++ replicate (Z.to_nat num_threads - length rs) []) as ->.
  { apply list_eq. intros i. rewrite list_lookup_fmap. destruct (decide (i < Z.to_nat num_threads)%nat) as [Hi|Hi].
    - rewrite lookup_seqZ_lt by lia. cbn. unfold range_chunks. rewrite Z.add_0_l, Nat2Z.id. destruct (rs !! i) as [[a b]|] eqn:E.
      + rewrite lookup_app_l by (rewrite length_fmap; by eapply lookup_lt_Some). by rewrite list_lookup_fmap, E.
      + apply lookup_ge_None in E. rewrite lookup_app_r, length_fmap, lookup_replicate_2 by (rewrite ?length_fmap; lia). done.
    - rewrite lookup_seqZ_ge by lia. symmetry. apply lookup_ge_None. rewrite length_app, length_fmap, length_replicate. lia. }
  rewrite concat_app. assert (∀ n, concat (replicate n []) = ([] : list Z)) as -> by (intros n; induction n; [done|cbn; done]). by rewrite app_nil_r.
Qed.

Section Tasks.
  Context `{ArrowBitsOk} `{ColumnCopyOk} {G : Type} {ts : list Ty} (ts_ok : forallb array_free ts = true) (masks_ : list Z) (masks_good : masks_ok masks_).
  Context (allowed : bool) (sel : list Z) (Hsel : Z.of_nat (length sel) = STANDARD_VECTOR_SIZE) (bfs : list BlockedBloomFilter).
  Context (Hbfs : Forall (λ bf, keys_safe ts bf.(BoundColsApplied) = true ∧ ∃ bs, bf_ok bf bs) bfs).

(** A row every filter accepts. *)
Definition accepts_all (fs : list BlockedBloomFilter) (r : tuple ts) : bool := forallb (λ bf, answers (Find masks_ bf (row_hash ts bf.(BoundColsApplied) r))) fs.

#[local] Instance chunks_good : ChunksOk (DataChunk ts) (tuple ts) := data_chunks_ok ts_ok.

Lemma lawful_filters :
  ∃ ops : list (lawful (DataChunk ts) (CachingOperatorState ts)), use_operator masks_ allowed sel <$> bfs = op_of <$> ops ∧ Forall (λ o, op_no_output (op_of o) = false) ops ∧
    Forall2 fresh_operator ops (replicate (length bfs) GetOperatorState) ∧ ∀ l, through ops l = base.filter (λ r, accepts_all bfs r = true) l.
Proof.
  induction Hbfs as [|bf fs (Hk & bs & Hbf) Hfs IH].
  - exists []. split_and!; [done|constructor|constructor|]. intros l. rewrite <- (flat_map_filter (accepts_all [])). cbn. by rewrite each_row.
  - destruct IH as (ops & E1 & E2 & E3 & E4); [done|]. exists (existT _ (use_laws ts_ok masks_ masks_good allowed sel bf bs Hsel Hk Hbf) :: ops). split_and!.
    + cbn. by rewrite E1.
    + by constructor.
    + constructor; [|done]. by split_and!.
    + intros l. cbn [through]. rewrite E4. cbn [on_row laws projT2 use_laws]. rewrite flat_map_filter. rewrite list_filter_filter. apply list_filter_iff. intros r. cbn [accepts_all forallb]. rewrite andb_true_iff.
      rewrite (Find_find_in masks_ bf bs) by done. unfold accepted. cbn [answers]. tauto.
Qed.

Section Data.
  Context (data : CreateBFGlobalSinkState G ts) (Hdata : collection_ok data.(total_data)) (Hsmall : small_rows ts (Some <$> all_rows data.(total_data))).
  Context (num_threads : Z) (Hthreads : 1 ≤ num_threads) (modes : list TaskExecutionMode).
  Context (Hlength : 8 * ChunkCount data.(total_data) + 5 < Z.of_nat (length modes)) (Hmax : 8 * ChunkCount data.(total_data) + 5 < 2 ^ 64 - 1).

Let rs : list (Z * Z) := (GetGlobalSourceState num_threads data).(chunks_todo).

(** One task. *)
Lemma transfer_task_ok (g : CreateBFGlobalSinkState G ts) p :
  ∃ k g', (∀ e, transfer_task masks_ allowed sel bfs data num_threads (k + e) modes g p = Ret g') ∧
    concat (all_rows <$> g'.(local_data_collections)) ≡ₚ
      concat (all_rows <$> g.(local_data_collections)) ++ base.filter (λ r, accepts_all bfs r = true) (concat (chunk_rows_at data <$> range_chunks rs p)).
Proof.
  destruct (source_ranges_ok data num_threads Hthreads) as [_ Hrs]. fold rs in Hrs. destruct lawful_filters as (ops & E1 & E2 & E3 & E4).
  set (pipe := transfer_pipeline masks_ allowed sel bfs data 0). set (sl := create_source_laws ts_ok data Hdata Hsmall rs Hrs). set (ks := create_sink_laws (G := G) (ts := ts) ts_ok).
  set (s := (CreateBF.mkSource rs p, GetLocalSourceState)).
  assert (good_source sl s) as Hs by (split; [done|by left]).
  assert (length (pending_chunks rs s) ≤ Z.to_nat (ChunkCount data.(total_data)))%nat as Hfetch.
  { unfold pending_chunks, range_chunks, s. cbn [fst snd initial GetLocalSourceState partition_id]. destruct (rs !! Z.to_nat p) as [[a b]|] eqn:E; [|cbn [length]; lia].
    pose proof (proj1 (Forall_lookup _ _) Hrs _ _ E) as Hab. cbn [fst snd] in Hab. rewrite length_seqZ. lia. }
  destruct (new_executor_inv pipe ops E1 ks sl eq_refl (replicate (length bfs) GetOperatorState) s (g, Some GetLocalSinkState) [] E3 Hs) as [Hinv Hgo]; [eexists; split; [done|apply empty_collection_ok]|done|].
  destruct (run_calls_ok pipe ops E1 eq_refl ks sl eq_refl _ modes _ Hinv) as (k & st' & Hrun & Hrec & Hcomb).
  { rewrite Hgo. change (Z.of_nat (4 * 0 + (8 * length (pending_chunks rs s) + 4) + 1) < 2 ^ 64 - 1). pose proof (ChunkCount_nonneg data.(total_data)). lia. }
  { rewrite Hgo. change (4 * 0 + (8 * length (pending_chunks rs s) + 4) + 1 < length modes)%nat. pose proof (ChunkCount_nonneg data.(total_data)). lia. }
  exists k, (st'.(local_sink_state)).1. split; [intros e; unfold transfer_task; fold pipe rs s; by rewrite Hrun|].
  unfold in_sink in Hrec. cbn [received ks create_sink_laws combined] in Hrec, Hcomb. rewrite Hcomb in Hrec. cbn [from_option] in Hrec. rewrite app_nil_r in Hrec. rewrite Hrec, E4. cbn. by rewrite app_nil_r.
Qed.

(** All tasks, which take the ranges in any order. *)
Lemma transfer_tasks_ok order (g : CreateBFGlobalSinkState G ts) :
  ∃ k g', (∀ e, ofold (transfer_task masks_ allowed sel bfs data num_threads (k + e) modes) order g = Ret g') ∧
    concat (all_rows <$> g'.(local_data_collections)) ≡ₚ
      concat (all_rows <$> g.(local_data_collections)) ++ base.filter (λ r, accepts_all bfs r = true) (concat (chunk_rows_at data <$> concat (range_chunks rs <$> order))).
Proof.
  revert g. induction order as [|p order IH]; intros g; [exists 0%nat, g; split; [done|]; cbn; by rewrite app_nil_r|].
  destruct (transfer_task_ok g p) as (k1 & g1 & Hk1 & Hr1). destruct (IH g1) as (k2 & g2 & Hk2 & Hr2). exists (k1 + k2)%nat, g2. split.
  - intros e. cbn [ofold]. rewrite <- Nat.add_assoc, Hk1. orun. replace (k1 + (k2 + e))%nat with (k2 + (k1 + e))%nat by lia. apply Hk2.
  - rewrite Hr2, Hr1. cbn [fmap list_fmap concat]. rewrite fmap_app, concat_app, filter_app. by rewrite app_assoc.
Qed.
End Data.
End Tasks.

(** ** Properties *)

(** C16: a pipeline of the predicate transfer buffers exactly the rows its
    filters accept.  The rows one [PhysicalCreateBF] buffered are split into
    ranges of chunks; the tasks of the pipeline take the ranges in any order,
    are called in any modes, push the chunks through the operators
    [PhysicalUseBF], with or without caching, and sink them into the next
    [PhysicalCreateBF].  The tasks finish, and together they have buffered
    the rows that every filter accepts, each as often as before. *)
Theorem transfer_pipeline_exact `{ArrowBitsOk} `{ColumnCopyOk} {G : Type} {ts : list Ty} (masks_ sel : list Z) (allowed : bool) (bfs : list BlockedBloomFilter)
    (data : CreateBFGlobalSinkState G ts) (num_threads : Z) (modes : list TaskExecutionMode) (order : list Z) :
  forallb array_free ts = true → masks_ok masks_ → Z.of_nat (length sel) = STANDARD_VECTOR_SIZE →
  Forall (λ bf, keys_safe ts bf.(BoundColsApplied) = true ∧ ∃ bs, bf_ok bf bs) bfs →
  collection_ok data.(total_data) → small_rows ts (Some <$> all_rows data.(total_data)) → 1 ≤ num_threads → order ≡ₚ seqZ 0 num_threads →
  8 * ChunkCount data.(total_data) + 5 < Z.of_nat (length modes) → 8 * ChunkCount data.(total_data) + 5 < 2 ^ 64 - 1 →
  ∃ k g, (∀ e, ofold (transfer_task masks_ allowed sel bfs data num_threads (k + e) modes) order GetGlobalSinkState = Ret g) ∧
    concat (all_rows <$> g.(local_data_collections)) ≡ₚ base.filter (λ r, accepts_all masks_ bfs r = true) (all_rows data.(total_data)).
Proof.
  intros Hts Hm Hsel Hbfs Hd Hsm Hn Hord Hlen Hmax.
  destruct (transfer_tasks_ok Hts masks_ Hm allowed sel Hsel bfs Hbfs data Hd Hsm num_threads Hn modes Hlen Hmax order GetGlobalSinkState) as (k & g & Hrun & Hrows).
  exists k, g. split; [done|]. rewrite Hrows. cbn [local_data_collections GetGlobalSinkState fmap list_fmap concat app]. apply filter_Permutation.
  rewrite (ranges_cover data num_threads order Hn Hord). unfold chunk_rows_at. by rewrite chunks_in_order.
Qed.

Lemma transfer_pipeline_exact_witness :
  ∃ k g, (∀ e, ofold (transfer_task sample_masks true (replicate 2048 0) [bind_applied [0%nat] sample_result] sample_sink 2 (k + e) (replicate 30 PROCESS_PARTIAL)) [1; 0] GetGlobalSinkState = Ret g) ∧
    concat (all_rows <$> g.(local_data_collections)) ≡ₚ base.filter (λ r, accepts_all sample_masks [bind_applied [0%nat] sample_result] r = true) (all_rows sample_sink.(total_data)).
Proof.
  apply (transfer_pipeline_exact sample_masks (replicate 2048 0) true [bind_applied [0%nat] sample_result] sample_sink 2 (replicate 30 PROCESS_PARTIAL) [1; 0]); try done.
  - apply sample_masks_ok.
  - constructor; [|constructor]. split; [done|]. eexists. apply bind_applied_ok, sample_result_ok.
  - split; [done|]. do 2 (apply Forall_cons; split; [done|]). apply Forall_nil_2.
  - apply Permutation_swap.
Defined.
