(* ===== verification/StreamingLimit.v ===== *)
(** * StreamingLimit: an operator that finishes a pipeline

    [PhysicalStreamingLimit], with [ComputeOffset] and [HandleOffset] of
    [PhysicalLimit], and when operators of a pipeline may keep rows back
    ([OperatorCachingAllowed]).  The operator hands on a window of its rows;
    but a pipeline that it finishes drops the rows later operators kept. *)

From S2P Require Import Prelude Arrow BloomMasks BloomFilter BloomAvx2 BloomLookup PartitionSort ValueHash Values VectorHash Storage UseBF CreateBF LogicalPlan PipelineExecutor PipelineFlow TransferPipeline.
Local Open Scope Z_scope.
Local Open Scope machine_scope.

(** ** The operator *)

Section Limit.
  Context {ts : list Ty}.

(** An expression for a limit or an offset, on a chunk whose cardinality is
    set to one: NULL, or a number. *)
Definition delimiter : Type := option (DataChunk ts → outcome (option Z)).

(** [GetDelimiter], cast to [idx_t]. *)
Definition GetDelimiter (input : DataChunk ts) (expr : delimiter) : outcome (option Z) :=
  let* f := deref expr in f (mkChunk input.(cdata) 1).

(** A limit or offset that is not known yet. *)
Definition resolve_delimiter (input : DataChunk ts) (value fallback : Z) (expr : delimiter) : outcome Z :=
  if value =? INVALID_INDEX then
    let* val := GetDelimiter input expr in
    let value := default fallback val in
    if 2 ^ 62 <? value then Throw "Max value for LIMIT/OFFSET" else Ret value
  else Ret value.

(** [ComputeOffset]: whether rows are left, the limit and the offset. *)
Definition ComputeOffset (input : DataChunk ts) (limit offset current_offset : Z) (limit_expression offset_expression : delimiter) : outcome (bool * Z * Z) :=
  if negb (limit =? INVALID_INDEX) && negb (offset =? INVALID_INDEX) && ((limit =? 0) || (u64 (limit + offset) <=? current_offset)) &&
     negb (bool_decide (is_Some limit_expression) || bool_decide (is_Some offset_expression)) then Ret (false, limit, offset) else
  let* limit := resolve_delimiter input limit (2 ^ 62) limit_expression in
  let* offset := resolve_delimiter input offset 0 offset_expression in
  Ret (negb ((limit =? 0) || (u64 (limit + offset) <=? current_offset)), limit, offset).

(** [HandleOffset]: whether there are rows, and the input, which it changes. *)
Definition HandleOffset (input : DataChunk ts) (current_offset offset limit : Z) : outcome (bool * DataChunk ts) :=
  let max_element := if limit =? INVALID_INDEX then INVALID_INDEX else u64 (limit + offset) in
  if current_offset <? offset then
    if offset <? u64 (current_offset + input.(csize)) then
      let start_position := offset - current_offset in
      let chunk_count := Z.min limit (input.(csize) - start_position) in
      let* input := Slice input (seqZ start_position chunk_count) chunk_count in Ret (true, input)
    else Ret (false, input)
  else
    let chunk_count := if max_element <=? u64 (current_offset + input.(csize)) then max_element - current_offset else input.(csize) in
    Ret (true, mkChunk input.(cdata) chunk_count).

Record StreamingLimitState := mkLimit { state_limit : Z; state_offset : Z; current_offset : Z }.

(** [PhysicalStreamingLimit::Execute]; the shared counter [current_offset] is
    that of the only task. *)
Definition limit_execute `{ColumnCopy} (limit_expression offset_expression : delimiter) (input : DataChunk ts) (state : StreamingLimitState)
    : outcome (OperatorResultType * DataChunk ts * StreamingLimitState) :=
  let current := state.(current_offset) in
  let next := u64 (current + input.(csize)) in
  let* (more, limit, offset) := ComputeOffset input state.(state_limit) state.(state_offset) current limit_expression offset_expression in
  if negb more then Ret (FINISHED, chunk_of [], mkLimit limit offset next) else
  let* (some, input) := HandleOffset input current offset limit in
  Ret (NEED_MORE_INPUT, if some : bool then Reference input else chunk_of [], mkLimit limit offset next).

(** The operator on a sequence of chunks, until it finishes. *)
Fixpoint run_limit `{ColumnCopy} (limit_expression offset_expression : delimiter) (inputs : list (DataChunk ts)) (state : StreamingLimitState) : outcome (list (tuple ts)) :=
  match inputs with
  | [] => Ret []
  | input :: inputs =>
      let* (r, out, state) := limit_execute limit_expression offset_expression input state in
      match r with
      | FINISHED => Ret []
      | _ => let* rest := run_limit limit_expression offset_expression inputs state in Ret (chunk_rows out ++ rest)
      end
  end.

(** ** Facts *)

Context `{ColumnCopyOk} (ts_ok : forallb array_free ts = true).

(** The rows of positions [from] to [to]. *)
Definition rows_between (from to : Z) (rows : list (tuple ts)) : list (tuple ts) := drop (Z.to_nat from) (take (Z.to_nat to) rows).

Lemma ComputeOffset_ok input limit offset current :
  0 ≤ limit → 0 ≤ offset → limit + offset < 2 ^ 64 - 1 →
  ComputeOffset input limit offset current None None = Ret (bool_decide (0 < limit ∧ current < limit + offset), limit, offset).
Proof.
  intros Hl Ho Hs. unfold ComputeOffset, resolve_delimiter, INVALID_INDEX. rewrite !(proj2 (Z.eqb_neq _ (2 ^ 64 - 1))) by lia. cbn [negb andb].
  assert (u64 (limit + offset) = limit + offset) as Hu by (unfold wrap; rewrite Z.mod_small; lia). rewrite Hu, !(bool_decide_false (is_Some (@None (DataChunk ts → outcome (option Z))))) by (by intros [? ?]). cbn [orb negb]. rewrite andb_true_r.
  destruct (Z.eqb_spec limit 0), (Z.leb_spec (limit + offset) current); cbn; [by rewrite bool_decide_false by lia..|]. orun. rewrite bool_decide_true by lia. rewrite Hu, (proj2 (Z.eqb_neq limit 0)), (proj2 (Z.leb_gt _ _)) by lia. done.
Qed.

Lemma chunk_rows_slice (c : DataChunk ts) from to :
  0 ≤ from ≤ to → to ≤ c.(csize) → struct_rows ts c.(cdata) <$> seqZ from (to - from) = rows_between from to (chunk_rows c).
Proof.
  intros Hf Ht. unfold rows_between, chunk_rows. rewrite <- fmap_take, <- fmap_drop. f_equal. replace c.(csize) with (from + ((to - from) + (c.(csize) - to))) by lia.
  rewrite seqZ_app by lia. rewrite seqZ_app by lia. rewrite app_assoc, take_app_length' by (rewrite length_app, !length_seqZ; lia). by rewrite drop_app_length' by (rewrite length_seqZ; lia).
Qed.

(** What is handed on of a chunk at position [current]. *)
Lemma HandleOffset_ok (input : DataChunk ts) current offset limit :
  chunk_ok input → 0 < limit → 0 ≤ offset → 0 ≤ current < limit + offset → limit + offset < 2 ^ 64 - 1 → current + input.(csize) < 2 ^ 64 →
  ∃ b c, HandleOffset input current offset limit = Ret (b, c) ∧
    (if b then chunk_rows c else []) = rows_between (Z.max 0 (offset - current)) (Z.max 0 (Z.min input.(csize) (limit + offset - current))) (chunk_rows input).
Proof.
  intros Hin Hl Ho Hc Hs Hsz. pose proof Hin as [Hsize _]. unfold HandleOffset, INVALID_INDEX. rewrite (proj2 (Z.eqb_neq limit _)) by lia.
  replace (u64 (limit + offset)) with (limit + offset) by (unfold wrap; rewrite Z.mod_small; lia). replace (u64 (current + csize input)) with (current + csize input) by (unfold wrap; rewrite Z.mod_small; lia).
  destruct (Z.ltb_spec current offset) as [Hlt|Hge]; [destruct (Z.ltb_spec offset (current + csize input)) as [Hin2|Hout]|].
  - set (start := offset - current). set (count := Z.min limit (csize input - start)).
    destruct (Slice_ok input (seqZ start count) count Hin ts_ok) as (c & E & Hok & Hcs & Hr).
    + split; [rewrite length_seqZ; lia|]. intros i Hi. rewrite (blk_lookup _ _ (start + i)) by (rewrite lookup_seqZ_lt by lia; f_equal; lia). lia.
    + lia.
    + exists true, c. rewrite E. split; [done|]. rewrite Z.max_r, (Z.max_r 0) by lia. replace (Z.min (csize input) (limit + offset - current)) with (start + count) by lia.
      rewrite <- chunk_rows_slice by lia. unfold chunk_rows. rewrite Hcs. replace (start + count - start) with count by lia. apply list_eq. intros i. rewrite !list_lookup_fmap.
      destruct (decide (Z.of_nat i < count)) as [Hi|Hi]; [|by rewrite !lookup_seqZ_ge by lia]. rewrite !lookup_seqZ_lt by lia. cbn. f_equal. rewrite Hr by lia. f_equal.
      rewrite (blk_lookup _ _ (start + Z.of_nat i)); [lia|]. rewrite lookup_seqZ_lt by lia. f_equal. lia.
  - exists false, input. split; [done|]. unfold rows_between. rewrite drop_ge; [done|]. rewrite length_take, chunk_rows_length. lia.
  - set (count := if _ <=? _ then _ else _). exists true, (mkChunk input.(cdata) count). split; [done|]. assert (count = Z.min (csize input) (limit + offset - current)) as Ec by (unfold count; destruct (Z.leb_spec (limit + offset) (current + csize input)); lia).
    rewrite Z.max_l, (Z.max_r 0), <- Ec by lia. rewrite <- chunk_rows_slice by lia. unfold chunk_rows. cbn. by rewrite Z.sub_0_r.
Qed.

Lemma rows_between_app from to (l1 l2 : list (tuple ts)) :
  0 ≤ from → 0 ≤ to →
  rows_between from to (l1 ++ l2) = rows_between from (Z.max 0 (Z.min (Z.of_nat (length l1)) to)) l1 ++ rows_between (Z.max 0 (from - Z.of_nat (length l1))) (Z.max 0 (to - Z.of_nat (length l1))) l2.
Proof.
  intros Hf Ht. unfold rows_between. rewrite take_app, drop_app. f_equal.
  - f_equal. destruct (decide (Z.of_nat (length l1) ≤ to)); [rewrite !take_ge by lia; done|]. f_equal. lia.
  - rewrite length_take. destruct (decide (Z.of_nat (length l1) ≤ to)).
    + f_equal; [lia|f_equal; lia].
    + replace (Z.to_nat to - length l1)%nat with 0%nat by lia. replace (Z.to_nat (Z.max 0 (to - Z.of_nat (length l1)))) with 0%nat by lia. by rewrite !take_0, !drop_nil.
Qed.

Lemma run_limit_ok inputs limit offset current :
  Forall chunk_ok inputs → 0 ≤ limit → 0 ≤ offset → limit + offset < 2 ^ 64 - 1 → 0 ≤ current → current + Z.of_nat (length (concat (chunk_rows <$> inputs))) < 2 ^ 64 →
  run_limit None None inputs (mkLimit limit offset current) = Ret (rows_between (Z.max 0 (offset - current)) (Z.max 0 (limit + offset - current)) (concat (chunk_rows <$> inputs))).
Proof.
  intros Hin Hl Ho Hs. revert current. induction Hin as [|input inputs Hi Hin IH]; intros current Hc Htot; [cbn [fmap list_fmap concat]; unfold rows_between; by rewrite take_nil, drop_nil|].
  cbn [run_limit]. unfold limit_execute. cbn [state_limit state_offset current_offset]. rewrite ComputeOffset_ok by done. orun.
  cbn [fmap list_fmap concat] in Htot |- *. rewrite length_app, chunk_rows_length in Htot. pose proof Hi as [Hsize _]. case_bool_decide as Hmore; cbn [negb].
  - destruct (HandleOffset_ok input current offset limit) as (b & c & -> & Hrows); [done|lia..|]. orun.
    replace (u64 (current + csize input)) with (current + csize input) by (unfold wrap; rewrite Z.mod_small; lia). rewrite IH by lia. orun. rewrite rows_between_app, chunk_rows_length by lia. do 2 f_equal.
    + rewrite Z2Nat.id, (Z.max_r 0 (limit + offset - current)) by lia. rewrite <- Hrows. by destruct b.
    + f_equal; lia.
  - f_equal. unfold rows_between. destruct (decide (limit = 0)) as [->|]; [rewrite drop_ge; [done|rewrite length_take; lia]|].
    replace (Z.to_nat (Z.max 0 (limit + offset - current))) with 0%nat by lia. by rewrite take_0, drop_nil.
Qed.
End Limit.

(** ** When operators may keep rows back *)

Inductive OrderPreservationType := NO_ORDER | INSERTION_ORDER | FIXED_ORDER.

(** What [Pipeline::IsOrderDependent] and [OperatorCachingAllowed] ask for:
    the order of the source and of the operators, and whether the sink, if
    there is one, depends on the order and requires a batch index. *)
Record pipeline_order := mkOrder {
  SourceOrder : option OrderPreservationType;
  OperatorOrders : list OrderPreservationType;
  sink_requirements : option (bool * bool)
}.

Fixpoint operators_order (orders : list OrderPreservationType) : option bool :=
  match orders with
  | [] => None
  | NO_ORDER :: _ => Some false
  | FIXED_ORDER :: _ => Some true
  | INSERTION_ORDER :: orders => operators_order orders
  end.

Definition IsOrderDependent (preserve_insertion_order : bool) (p : pipeline_order) : bool :=
  match p.(SourceOrder) with
  | Some FIXED_ORDER => true
  | Some NO_ORDER => false
  | _ =>
      match operators_order p.(OperatorOrders) with
      | Some b => b
      | None => preserve_insertion_order && match p.(sink_requirements) with Some (order_dependent, _) => order_dependent | None => false end
      end
  end.

Definition OperatorCachingAllowed (enable_caching_operators preserve_insertion_order : bool) (p : option pipeline_order) : bool :=
  enable_caching_operators && match p with
  | None => false
  | Some p =>
      match p.(sink_requirements) with
      | None => false
      | Some (_, requires_batch_index) => negb requires_batch_index && negb (IsOrderDependent preserve_insertion_order p)
      end
  end.

(** ** A limit in a pipeline *)

Section Operators.
  Context `{ArrowBits} `{ColumnCopy} {ts : list Ty}.

(** The states of the two operators. *)
Definition limit_or_use : Type := StreamingLimitState + CachingOperatorState ts.

Definition limit_operator : operator (C := DataChunk ts) (OS := limit_or_use) :=
  mkOperator (λ input s, match s with inl s => let* (r, chunk, s) := limit_execute None None input s in Ret (r, chunk, inl s) | inr _ => Undef end)
    false (λ _, Throw "Calling FinalExecute on a node that is not an operator!") false.

Definition use_after_limit (masks_ : list Z) (allowed : bool) (sel : list Z) (bf : BlockedBloomFilter) : operator (C := DataChunk ts) (OS := limit_or_use) :=
  let op := use_operator masks_ allowed sel bf in
  mkOperator (λ input s, match s with inr s => let* (r, chunk, s) := op.(op_Execute) input s in Ret (r, chunk, inr s) | inl _ => Undef end)
    op.(op_RequiresFinalExecute) (λ s, match s with inr s => let* (r, chunk, s) := op.(op_FinalExecute) s in Ret (r, chunk, inr s) | inl _ => Undef end) false.

(** A source that gives these chunks. *)
Definition chunk_source : source (C := DataChunk ts) (Src := list (DataChunk ts)) :=
  PipelineExecutor.mkSource (λ s, Ret (match s with [] => (SourceFinished, chunk_of [], []) | c :: s => (SourceHaveMoreOutput, c, s) end))
    (λ _ _, Throw "Calling GetBatchIndex on a node that does not support it").
End Operators.

(** ** Properties *)

(** C19: the streaming limit.  A task that sends chunks, in any representation,
    through [PhysicalStreamingLimit] hands on the [limit] rows after the first
    [offset] rows, in order. *)
Theorem streaming_limit_takes_a_window `{ColumnCopyOk} {ts : list Ty} (inputs : list (DataChunk ts)) (limit offset : Z) :
  forallb array_free ts = true → Forall chunk_ok inputs → 0 ≤ limit → 0 ≤ offset → limit + offset < 2 ^ 64 - 1 → Z.of_nat (length (concat (chunk_rows <$> inputs))) < 2 ^ 64 →
  run_limit None None inputs (mkLimit limit offset 0) = Ret (take (Z.to_nat limit) (drop (Z.to_nat offset) (concat (chunk_rows <$> inputs)))).
Proof.
  intros Hts Hin Hl Ho Hs Htot. rewrite run_limit_ok by done. f_equal. unfold rows_between. rewrite take_drop_commute. f_equal; [lia|]. f_equal. lia.
Qed.

(** A filter that accepts the first sample row. *)
Definition sample_use : BlockedBloomFilter :=
  bind_applied [0%nat] (with_blocks (Some (puts sample_masks 3 (replicate 8 0) (row_hash sample_types [0%nat] <$> take 1 sample_rows))) sample_result).

Definition limit_pipeline (allowed : bool) : pipeline :=
  mkPipe [limit_operator; use_after_limit sample_masks allowed (replicate 2048 0) sample_use] chunk_source (create_sink (G := Z) (ts := sample_types)) 0 false.

(** A task of this pipeline, with a limit of one row: the rows it buffers. *)
Definition limit_task (allowed : bool) (chunks : list (DataChunk sample_types)) : outcome (list (tuple sample_types)) :=
  let* (finished, st) := run_calls (limit_pipeline allowed) 50 [PROCESS_ALL]
    (new_executor (limit_pipeline allowed) [inl (mkLimit 1 0 0); inr GetOperatorState] chunks (GetGlobalSinkState, Some GetLocalSinkState) []) in
  if finished : bool then Ret (concat (all_rows <$> st.(local_sink_state).1.(local_data_collections))) else NoFuel.

(** The row the limit handed on, which the filter accepts, is lost.  Without
    caching it arrives, and so it does if the source has no further chunk. *)
Example limit_task_drops_a_row :
  let order := mkOrder (Some NO_ORDER) [FIXED_ORDER; INSERTION_ORDER] (Some (false, false)) in
  let chunks := [chunk_of (take 2 sample_rows); chunk_of (drop 2 sample_rows)] in
  OperatorCachingAllowed true true (Some order) = true ∧ limit_task true chunks = Ret [] ∧ limit_task false chunks = Ret (take 1 sample_rows) ∧
  limit_task true (take 1 chunks) = Ret (take 1 sample_rows).
Proof. split_and!; vm_compute; reflexivity. Qed.

(** ** Pipelines that are finished early *)

Section Finished.
  Context {C Row OS Src Snk : Type} `{ChunksOk C Row} (pipe : pipeline (C := C) (OS := OS) (Src := Src) (Snk := Snk)).

(** An executor between two chunks, with more to come. *)
Record between_chunks (st : executor (C := C) (OS := OS) (Src := Src) (Snk := Snk)) : Prop := {
  bc_interrupted : pipe.(interrupted) = false;
  bc_batches : pipe.(p_sink).(snk_requires_batch_index) = false;
  bc_buffers : length st.(intermediate_chunks) = length pipe.(p_operators);
  bc_in_process : st.(in_process_operators) = [];
  bc_source : st.(exhausted_source) = false;
  bc_remaining : st.(remaining_sink_chunk) = false;
  bc_blocked : st.(next_batch_blocked) = false;
  bc_finalized : st.(finalized) = false
}.

(** The first operator finishes the pipeline on the chunk it is given. *)
Lemma first_operator_finishes op ops s0 ss c bs s0' out fuel st :
  pipe.(interrupted) = false → pipe.(p_operators) = op :: ops → st.(intermediate_chunks) = c :: bs → length bs = length ops → st.(intermediate_states) = s0 :: ss → st.(in_process_operators) = [] →
  chunk_size c ≠ 0 → op.(op_Execute) c s0 = Ret (FINISHED, out, s0') →
  ∃ st', ExecutePushInternal pipe (S fuel) (Intermediate 0) 0 st = Ret (FINISHED, st') ∧ st'.(intermediate_states) = s0' :: ss ∧ st'.(local_sink_state) = st.(local_sink_state) ∧
    IsFinished st' = true ∧ st'.(finalized) = st.(finalized).
Proof.
  intros Hi Hops Hch Hl Hst Hp Hc Hex. destruct st; simpl in *; subst. apply Z.eqb_neq in Hc.
  unfold ExecutePushInternal. simpl. rewrite Hc. cbn [push_loop]. unfold Execute_chunk. simpl. rewrite Hc. simpl. rewrite Hops. simpl.
  unfold check_interrupted. rewrite Hi. simpl. unfold chunk_at. simpl.
  destruct bs as [|b bs]; simpl; unfold call_operator; simpl; rewrite Hops; simpl; unfold check_interrupted; rewrite Hi; simpl; rewrite Hex; simpl; by eexists.
Qed.

(** The round in which that happens. *)
Lemma finishing_round op ops s0 ss c src s0' out fuel st :
  between_chunks st → pipe.(p_operators) = op :: ops → st.(intermediate_states) = s0 :: ss →
  pipe.(p_source).(src_GetData) st.(local_source_state) = Ret (SourceHaveMoreOutput, c, src) → chunk_size c ≠ 0 → op.(op_Execute) c s0 = Ret (FINISHED, out, s0') →
  ∃ st', next_round pipe (S fuel) st = Ret (Pushed FINISHED, st') ∧ st'.(intermediate_states) = s0' :: ss ∧ st'.(local_sink_state) = st.(local_sink_state) ∧
    IsFinished st' = true ∧ st'.(finalized) = false.
Proof.
  intros [Hi Hb Hl Hp He Hr Hn Hf] Hops Hst Hget Hc Hex. destruct st; simpl in *; subst. rewrite Hops in Hl. destruct intermediate_chunks as [|b bs]; [done|].
  unfold next_round, check_interrupted. rewrite Hi. simpl. unfold FetchFromSource, source_chunk_ref, check_interrupted. rewrite Hops, Hi. simpl. rewrite Hget. simpl. rewrite Hb. simpl.
  match goal with |- context [ExecutePushInternal pipe (S fuel) (Intermediate 0) 0 ?x] =>
    destruct (first_operator_finishes op ops s0 ss c bs s0' out fuel x) as (st' & E & Hs & Hk & Hd & Hz) end; try done; [simpl in Hl; lia|].
  rewrite E. exists st'. done.
Qed.
End Finished.

(** C24: a pipeline that an operator finishes drops what later operators keep.
    In any pipeline, between two chunks: if the first operator ends the
    pipeline on the next chunk, as [PhysicalStreamingLimit] does when its
    limit is reached, the task finishes at once.  The operators after it are
    not flushed but left in the states they are in, and the sink gets no row
    any more, so the rows these operators keep back for a larger chunk are
    lost. *)
Theorem finished_pipeline_drops_kept_rows {C Row OS Src Snk : Type} `{ChunksOk C Row} (pipe : pipeline (C := C) (OS := OS) (Src := Src) (Snk := Snk))
    (L : sink_laws pipe.(p_sink)) op ops s0 ss c src s0' out k fuel mode st :
  between_chunks pipe st → pipe.(p_operators) = op :: ops → st.(intermediate_states) = s0 :: ss →
  pipe.(p_source).(src_GetData) st.(local_source_state) = Ret (SourceHaveMoreOutput, c, src) → chunk_size c ≠ 0 →
  op.(op_Execute) c s0 = Ret (FINISHED, out, s0') →
  good_sink L st.(local_sink_state) → pipe.(p_sink).(snk_Combine) st.(local_sink_state) = Ret (CombineFinished, k) →
  ∃ st', ExecuteTask_pipeline pipe mode (S fuel) st = Ret (TASK_FINISHED, st') ∧ st'.(finalized) = true ∧
    st'.(intermediate_states) = s0' :: ss ∧ st'.(local_sink_state) = k ∧ received L k ≡ₚ received L st.(local_sink_state).
Proof.
  intros Hbc Hops Hst Hget Hc Hex Hg Hk. destruct (finishing_round pipe op ops s0 ss c src s0' out fuel st Hbc Hops Hst Hget Hc Hex) as (st1 & E1 & Hs1 & Hk1 & Hd1 & Hf1).
  assert (received L k ≡ₚ received L st.(local_sink_state)) as Hrec.
  { destruct (law_combine L _ Hg) as (r & k' & E & Hr & _). congruence. }
  exists (set_finalized true (set_sink k st1)). split_and!; [|done|done|done|done].
  assert (∀ max, 0 < max → Execute_pipeline pipe (S fuel) max st = Ret (ExecuteFinished, set_finalized true (set_sink k st1))) as He.
  { intros max Hmax. unfold Execute_pipeline. cbn [execute_rounds]. rewrite (proj2 (Z.ltb_lt 0 max)) by done. rewrite E1. orun. rewrite Hd1, andb_false_r.
    unfold PushFinalize. rewrite Hf1, Hk1, Hk. done. }
  unfold ExecuteTask_pipeline. destruct mode; rewrite He; done.
Qed.

(** The task of the limit after its first chunk; the operator that uses the filter keeps a row. *)
Definition two_chunks : list (DataChunk sample_types) := [chunk_of (take 2 sample_rows); chunk_of (drop 2 sample_rows)].

Definition limit_start : executor :=
  new_executor (limit_pipeline true) [inl (mkLimit 1 0 0); inr GetOperatorState] two_chunks (GetGlobalSinkState, Some GetLocalSinkState) [].

Definition after_first : executor := match next_round (limit_pipeline true) 50 limit_start with Ret (_, st) => st | _ => limit_start end.

Definition kept_rows (st : executor (OS := limit_or_use (ts := sample_types)) (C := DataChunk sample_types) (Src := list (DataChunk sample_types))
    (Snk := CreateBFGlobalSinkState Z sample_types * option (ColumnDataCollection (tuple sample_types)))) : list (tuple sample_types) :=
  concat ((λ s, match s with inr s => default [] s.(cached_chunk) | inl _ => [] end) <$> st.(intermediate_states)).

#[local] Instance sample_chunks_ok : ChunksOk (DataChunk sample_types) (tuple sample_types) := data_chunks_ok (ts := sample_types) eq_refl.

Lemma finished_pipeline_drops_kept_rows_witness :
  kept_rows after_first = take 1 sample_rows ∧
  ∃ st', ExecuteTask_pipeline (limit_pipeline true) PROCESS_ALL 50 after_first = Ret (TASK_FINISHED, st') ∧ st'.(finalized) = true ∧
    st'.(intermediate_states) = [inl (mkLimit 1 0 3); inr (mkCaching (Some (take 1 sample_rows)) true true)] ∧
    st'.(local_sink_state) = (CombineLocal GetGlobalSinkState GetLocalSinkState, None) ∧
    received (create_sink_laws (G := Z) (ts := sample_types) eq_refl) (CombineLocal GetGlobalSinkState GetLocalSinkState, None) ≡ₚ
      received (create_sink_laws (G := Z) (ts := sample_types) eq_refl) after_first.(local_sink_state).
Proof.
  split; [vm_compute; reflexivity|].
  apply (finished_pipeline_drops_kept_rows (limit_pipeline true) (create_sink_laws (G := Z) (ts := sample_types) eq_refl) limit_operator
    [use_after_limit sample_masks true (replicate 2048 0) sample_use] (inl (mkLimit 1 0 2)) [inr (mkCaching (Some (take 1 sample_rows)) true true)]
    (chunk_of (drop 2 sample_rows)) [] (inl (mkLimit 1 0 3)) (chunk_of []) (CombineLocal GetGlobalSinkState GetLocalSinkState, None) 49 PROCESS_ALL after_first).
  - split; vm_compute; reflexivity.
  - reflexivity.
  - vm_compute. reflexivity.
  - vm_compute. reflexivity.
  - vm_compute. discriminate.
  - vm_compute. reflexivity.
  - exists GetLocalSinkState. split; [vm_compute; reflexivity|]. apply empty_collection_ok.
  - vm_compute. reflexivity.
Defined.

Lemma streaming_limit_takes_a_window_witness : run_limit None None two_chunks (mkLimit 1 1 0) = Ret (take 1 (drop 1 sample_rows)).
Proof.
  apply (streaming_limit_takes_a_window two_chunks 1 1); try lia.
  - reflexivity.
  - do 2 (apply Forall_cons; split; [by apply chunk_of_ok|]). apply Forall_nil_2.
  - vm_compute. reflexivity.
Defined.
