(* ===== verification/Scheduling.v ===== *)
(** * Scheduling: the events of a query

    The events [Executor] makes for the pipelines of a query ([executor.cpp],
    [event.cpp], [meta_pipeline.cpp]).  Shown: [SchedulePipeline] and
    [ScheduleEventsInternal] find what they look up, and make a graph of events
    without cycles in which an event waits for all that its pipeline depends
    on. *)

From S2P Require Import Prelude BloomFilter LogicalPlan NodesManager Dag TransferOptimizer TransferInsert PlanTree PhysicalPlan Pipelines.
Local Open Scope nat_scope.
Local Open Scope machine_scope.

(** ** Meta pipelines *)

(** [GetMetaPipelines], recursive.  [fuel] bounds the depth of the tree. *)
Fixpoint GetMetaPipelines (fuel : nat) (b : build) (m : nat) (skip : bool) : outcome (list nat) :=
  match fuel with
  | O => NoFuel
  | S fuel =>
      let* mp := deref (b.(metas) !! m) in
      let* rest := ofold (λ l c, let* r := GetMetaPipelines fuel b c false in Ret (l ++ r)) mp.(mp_children) [] in
      Ret ((if skip then [] else [m]) ++ rest)
  end.

(** ** Events *)

(** Events, with the pipeline each is made for. *)
Inductive EventKind :=
| PipelineInitializeEvent (p : nat)
| PipelineEvent (p : nat)
| PipelineFinishEvent (p : nat)
| PipelineCompleteEvent (p : nat)
| InsertedEvent (p : nat).

#[global] Instance EventKind_eq : EqDecision EventKind.
Proof. solve_decision. Defined.

(** An event; events are told apart by their place in the vector. *)
Record Event := mkEvent { ekind : EventKind; total_dependencies : nat; eparents : list nat }.

Record PipelineEventStack := mkStack {
  pipeline_initialize_event : nat;
  pipeline_event : nat;
  pipeline_finish_event : nat;
  pipeline_complete_event : nat
}.

Record ScheduleEventData := mkData { events : list Event; event_map : gmap nat PipelineEventStack }.

(** [events.push_back(make_shared<...>(...))]. *)
Definition push_event (k : EventKind) (d : ScheduleEventData) : nat * ScheduleEventData :=
  (length d.(events), mkData (d.(events) ++ [mkEvent k 0 []]) d.(event_map)).

(** [Event::AddDependency]. *)
Definition AddEventDependency (e on : nat) (d : ScheduleEventData) : outcome ScheduleEventData :=
  let* ev := deref (d.(events) !! e) in
  let events := <[e := mkEvent ev.(ekind) (S ev.(total_dependencies)) ev.(eparents)]> d.(events) in
  let* o := deref (events !! on) in
  Ret (mkData (<[on := mkEvent o.(ekind) o.(total_dependencies) (o.(eparents) ++ [e])]> events) d.(event_map)).

(** [event_map.insert], which keeps what is there. *)
Definition map_stack (p : nat) (s : PipelineEventStack) (d : ScheduleEventData) : ScheduleEventData :=
  mkData d.(events) (match d.(event_map) !! p with Some _ => d.(event_map) | None => <[p := s]> d.(event_map) end).

(** The events of a pipeline other than the base pipeline. *)
Definition schedule_other (mp : MetaPipeline) (base_stack : PipelineEventStack) (d : ScheduleEventData) (p : nat) : outcome ScheduleEventData :=
  match mp.(finish_map) !! p with
  | Some group =>
      let* group_stack := deref (d.(event_map) !! group) in
      let (e, d) := push_event (PipelineEvent p) d in
      let* d := AddEventDependency e base_stack.(pipeline_finish_event) d in
      let* d := AddEventDependency group_stack.(pipeline_finish_event) e d in
      Ret (map_stack p (mkStack base_stack.(pipeline_initialize_event) e group_stack.(pipeline_finish_event) base_stack.(pipeline_complete_event)) d)
  | None =>
      if decide (p ∈ mp.(finish_pipelines)) then
        let (f, d) := push_event (PipelineFinishEvent p) d in
        let (e, d) := push_event (PipelineEvent p) d in
        let* d := AddEventDependency e base_stack.(pipeline_finish_event) d in
        let* d := AddEventDependency f e d in
        let* d := AddEventDependency base_stack.(pipeline_complete_event) f d in
        Ret (map_stack p (mkStack base_stack.(pipeline_initialize_event) e f base_stack.(pipeline_complete_event)) d)
      else
        let (e, d) := push_event (PipelineEvent p) d in
        let* d := AddEventDependency e base_stack.(pipeline_initialize_event) d in
        let* d := AddEventDependency base_stack.(pipeline_finish_event) e d in
        Ret (map_stack p (mkStack base_stack.(pipeline_initialize_event) e base_stack.(pipeline_finish_event) base_stack.(pipeline_complete_event)) d)
  end.

(** The dependencies within a meta pipeline. *)
Definition schedule_inner (b : build) (mp : MetaPipeline) (d : ScheduleEventData) (p : nat) : outcome ScheduleEventData :=
  let* pipe := deref (b.(pipes) !! p) in
  let* _ := match pipe.(source) with Some s => Ret s | None => Throw "Attempting to dereference an optional pointer that is not set" end in
  match mp.(mp_dependencies) !! p with
  | None => Ret d
  | Some deps =>
      let* stack := deref (d.(event_map) !! p) in
      ofold (λ d dep, let* s := deref (d.(event_map) !! dep) in AddEventDependency stack.(pipeline_event) s.(pipeline_event) d) (reverse deps) d
  end.

(** [SchedulePipeline]. *)
Definition SchedulePipeline (b : build) (d : ScheduleEventData) (m : nat) : outcome ScheduleEventData :=
  let* mp := deref (b.(metas) !! m) in
  let* base := GetBasePipeline m b in
  let (i, d) := push_event (PipelineInitializeEvent base) d in
  let (e, d) := push_event (PipelineEvent base) d in
  let (f, d) := push_event (PipelineFinishEvent base) d in
  let (c, d) := push_event (PipelineCompleteEvent base) d in
  let base_stack := mkStack i e f c in
  let* d := AddEventDependency e i d in
  let* d := AddEventDependency f e d in
  let* d := AddEventDependency c f d in
  let* d := ofold (schedule_other mp base_stack) (drop 1 mp.(mp_pipelines)) d in
  ofold (schedule_inner b mp) mp.(mp_pipelines) (map_stack base base_stack d).

(** The order in which [event_map] is walked. *)
Class EventMapOrder := event_order : gmap nat PipelineEventStack → list (nat * PipelineEventStack).

Class EventMapOrderOk `{EventMapOrder} : Prop := event_order_perm m : event_order m ≡ₚ map_to_list m.

#[global] Instance event_order_ref : EventMapOrder := map_to_list.

#[global] Instance event_order_ref_ok : EventMapOrderOk.
Proof. intros m. reflexivity. Qed.

(** The dependencies of a pipeline on pipelines of other meta pipelines. *)
Definition schedule_outer (b : build) (d : ScheduleEventData) (entry : nat * PipelineEventStack) : outcome ScheduleEventData :=
  let* pipe := deref (b.(pipes) !! entry.1) in
  ofold (λ d dep, let* s := deref (d.(event_map) !! dep) in AddEventDependency entry.2.(pipeline_event) s.(pipeline_complete_event) d)
    pipe.(dependencies) d.

(** [ScheduleEventsInternal], up to the start of the events. *)
Definition ScheduleEventsInternal `{EventMapOrder} (b : build) (meta_pipelines : list nat) : outcome ScheduleEventData :=
  let* d := ofold (SchedulePipeline b) meta_pipelines (mkData [] ∅) in
  ofold (schedule_outer b) (event_order d.(event_map)) d.

(** [Executor::InitializeInternal] on a plan, among the pipelines there are: the
    events, and how many pipelines are to be completed. *)
Definition InitializeInternal `{PhysicalOps, EventMapOrder} (ops : list PhysicalOperator) (root : nat) (b : build)
    : outcome (ScheduleEventData * nat * build) :=
  let* (m, b) := build_plan ops root b in
  let* to_schedule := GetMetaPipelines (S (length b.(metas))) b m true in
  let* d := ScheduleEventsInternal b to_schedule in
  Ret (d, length to_schedule, b).

(** ** All meta pipelines are scheduled *)

Abbreviation occurrences x l := (count_occ Nat.eq_dec l x).

Lemma occurrences_perm x l k : l ≡ₚ k → occurrences x l = occurrences x k.
Proof. intros Hp. revert x. by apply (Permutation_count_occ Nat.eq_dec). Qed.

(** Where an element of disjoint lists is. *)
Lemma occurrences_where x (ls : list (list nat)) :
  occurrences x (concat ls) = 1 → ∃ p, p < length ls ∧ ∀ m l, ls !! m = Some l → occurrences x l = if decide (m = p) then 1 else 0.
Proof.
  induction ls as [|l ls IH]; [done|]. simpl. rewrite count_occ_app. intros E. destruct (occurrences x l) as [|n] eqn:El.
  - destruct IH as (p & Hp & Hin); [lia|]. exists (S p). split; [lia|]. intros [|m] k Hk; [injection Hk as <-; by rewrite decide_False by lia|]. rewrite (Hin m k Hk).
    by destruct (decide (m = p)) as [->|]; [rewrite decide_True|rewrite decide_False by lia].
  - exists 0. split; [lia|]. intros [|m] k Hk; [injection Hk as <-; rewrite decide_True by done; lia|]. rewrite decide_False by lia. simpl in Hk.
    assert (occurrences x (concat ls) = 0) as Hz by lia. apply count_occ_not_In in Hz. apply count_occ_not_In. intros Hx. apply Hz.
    apply in_concat. exists k. split; [|done]. apply list_elem_of_In. by eapply list_elem_of_lookup_2.
Qed.

Section Metas.
  Context (w : nat → nat) (top : nat) (b : build) (Hw : wf w top b).

Lemma parent_of x : 1 ≤ x < length b.(metas) → ∃ p, p < x ∧ ∀ m mp, b.(metas) !! m = Some mp → occurrences x mp.(mp_children) = if decide (m = p) then 1 else 0.
Proof.
  intros Hx. destruct (occurrences_where x (mp_children <$> b.(metas))) as (p & Hp & Hin).
  { rewrite (occurrences_perm _ _ _ (wf_tree _ _ _ Hw)). apply NoDup_count_occ'; [apply NoDup_ListNoDup, NoDup_seq|]. apply in_seq. lia. }
  assert (∀ m mp, b.(metas) !! m = Some mp → occurrences x mp.(mp_children) = if decide (m = p) then 1 else 0) as Hall.
  { intros m mp Hm. apply Hin. by rewrite list_lookup_fmap, Hm. }
  exists p. split; [|done]. rewrite length_fmap in Hp. destruct (lookup_lt_is_Some_2 _ _ Hp) as [mp Hm].
  apply (wf_down _ _ _ Hw p mp x Hm). apply list_elem_of_In, (count_occ_In Nat.eq_dec). rewrite (Hall p mp Hm), decide_True by done. lia.
Qed.

(** How often a meta pipeline is reached: when it is the first, and as often as
    its parent is. *)
Definition reached (m : nat) (l : list nat) : Prop :=
  ∀ x, (x = 0 → occurrences x l = if decide (m = x) then 1 else 0) ∧
    (∀ p, 1 ≤ x < length b.(metas) → (∀ m mp, b.(metas) !! m = Some mp → occurrences x mp.(mp_children) = if decide (m = p) then 1 else 0) →
      occurrences x l = (if decide (m = x) then 1 else 0) + occurrences p l) ∧
    (length b.(metas) ≤ x → occurrences x l = 0).

Lemma children_bound m mp c : b.(metas) !! m = Some mp → c ∈ mp.(mp_children) → m < c < length b.(metas).
Proof.
  intros Hm Hc. split; [by eapply wf_down|]. assert (c ∈ seq 1 (length b.(metas) - 1)) as Hs%elem_of_seq; [|lia].
  rewrite <- (wf_tree _ _ _ Hw). by eapply elem_of_concat_fmap.
Qed.

Lemma GetMetaPipelines_reached fuel m :
  m < length b.(metas) → length b.(metas) < fuel + m → ∃ l, GetMetaPipelines fuel b m false = Ret l ∧ reached m l.
Proof.
  revert m. induction fuel as [|fuel IH]; intros m Hm Hf; [lia|]. destruct (lookup_lt_is_Some_2 _ _ Hm) as [mp Hmp].
  simpl. rewrite Hmp. orun.
  destruct (ofold_prefix (λ pre l, ∀ x, (x = 0 → occurrences x l = 0) ∧
    (∀ p, 1 ≤ x < length b.(metas) → (∀ m mp, b.(metas) !! m = Some mp → occurrences x mp.(mp_children) = if decide (m = p) then 1 else 0) →
      occurrences x l = occurrences x pre + occurrences p l) ∧ (length b.(metas) ≤ x → occurrences x l = 0))
    (λ l c, let* r := GetMetaPipelines fuel b c false in Ret (l ++ r)) mp.(mp_children) []) as (rest & E & Hrest).
  - done.
  - intros pre c l (post & Hpost) Hl. assert (m < c < length b.(metas)) as Hc.
    { eapply children_bound; [done|]. rewrite Hpost. apply elem_of_app. right. by left. }
    destruct (IH c) as (r & Er & Hr); [lia|lia|]. rewrite Er. orun. eexists. split; [done|]. intros x. destruct (Hl x) as (L1 & L2 & L3).
    destruct (Hr x) as (R1 & R2 & R3). split_and!.
    + intros Hx. rewrite count_occ_app, L1, R1 by done. case_decide; lia.
    + intros p Hx Hp. rewrite !count_occ_app, (L2 p Hx Hp), (R2 p Hx Hp). simpl.
      destruct (Nat.eq_dec c x); case_decide; try done; lia.
    + intros Hx. rewrite count_occ_app, L3, R3 by done. done.
  - rewrite E. orun. eexists. split; [done|]. intros x. destruct (Hrest x) as (L1 & L2 & L3). simpl.
    destruct (Nat.eq_dec m x) as [Hmx|Hmx]; [rewrite decide_True by done|rewrite decide_False by done].
    + split_and!; [intros ->; by rewrite L1| |lia]. intros p Hx Hp. destruct (Nat.eq_dec m p) as [Hmp'|Hmp']; rewrite (L2 p Hx Hp), (Hp m mp Hmp).
      * rewrite decide_True by done. done.
      * rewrite decide_False by done. done.
    + split_and!; [done| |done]. intros p Hx Hp. destruct (Nat.eq_dec m p) as [Hmp'|Hmp']; rewrite (L2 p Hx Hp), (Hp m mp Hmp).
      * rewrite decide_True by done. done.
      * rewrite decide_False by done. done.
Qed.

(** Every meta pipeline but the root is scheduled once. *)
Lemma GetMetaPipelines_ok fuel :
  0 < length b.(metas) < fuel → ∃ l, GetMetaPipelines fuel b 0 true = Ret l ∧ l ≡ₚ seq 1 (length b.(metas) - 1).
Proof.
  intros Hf. destruct (GetMetaPipelines_reached fuel 0) as (l & E & Hl); [lia|lia|].
  assert (∀ x, x < length b.(metas) → occurrences x l = 1) as Hone.
  { induction x as [x IHx] using lt_wf_ind. intros Hx. destruct (Hl x) as (L1 & L2 & _). destruct (decide (x = 0)) as [->|Hne]; [by rewrite L1|].
    destruct (parent_of x) as (p & Hp & Hin); [lia|]. rewrite (L2 p ltac:(lia) Hin), decide_False by done. rewrite IHx by lia. done. }
  destruct fuel as [|fuel]; [lia|]. simpl in *. destruct (b.(metas) !! 0) as [mp|] eqn:Hm; [|apply lookup_ge_None in Hm; lia]. simpl in *.
  destruct (ofold _ mp.(mp_children) []) as [rest| | |] eqn:Er; try done. simpl in *. simplify_eq. exists rest. split; [done|].
  apply (Permutation_count_occ Nat.eq_dec). intros x. destruct (decide (x < length b.(metas))) as [Hx|Hx].
  - specialize (Hone x Hx). destruct (decide (0 = x)) as [<-|Hne].
    + rewrite count_occ_cons_eq in Hone by done. assert (occurrences 0 (seq 1 (length b.(metas) - 1)) = 0) as ->; [|lia]. apply count_occ_not_In. rewrite in_seq. lia.
    + rewrite count_occ_cons_neq in Hone by done. rewrite Hone. symmetry. apply NoDup_count_occ'; [apply NoDup_ListNoDup, NoDup_seq|]. apply in_seq. lia.
  - destruct (Hl x) as (_ & _ & L3). specialize (L3 ltac:(lia)). rewrite count_occ_cons_neq in L3 by lia. rewrite L3.
    symmetry. apply count_occ_not_In. rewrite in_seq. lia.
Qed.
End Metas.

(** ** The graph of events *)

Definition kinds (d : ScheduleEventData) : list EventKind := ekind <$> d.(events).

(** Event [x] waits for event [e]. *)
Definition edge (evs : list Event) (e x : nat) : Prop := ∃ ev, evs !! e = Some ev ∧ x ∈ ev.(eparents).

(** Each event counts the events it waits for. *)
Definition counted (evs : list Event) : Prop := ∀ x ev, evs !! x = Some ev → ev.(total_dependencies) = occurrences x (concat (eparents <$> evs)).

Lemma concat_update {A} (f : A → list nat) (l : list A) i x y z :
  l !! i = Some x → occurrences z (concat (f <$> <[i := y]> l)) + occurrences z (f x) = occurrences z (concat (f <$> l)) + occurrences z (f y).
Proof.
  revert i. induction l as [|h l IH]; intros i; [done|]. destruct i as [|i]; csimpl.
  - intros [= ->]. rewrite !count_occ_app. lia.
  - intros Hi. rewrite !count_occ_app. specialize (IH i Hi). lia.
Qed.

Section Graph.
  Context (w : nat → nat) (top : nat) (b : build) (Hw : wf w top b).

Definition pipe_of (k : EventKind) : nat :=
  match k with PipelineInitializeEvent p | PipelineEvent p | PipelineFinishEvent p | PipelineCompleteEvent p | InsertedEvent p => p end.

Definition phase (k : EventKind) : nat :=
  match k with
  | PipelineInitializeEvent _ => 0
  | PipelineEvent p => S p
  | PipelineFinishEvent _ | InsertedEvent _ => S (length b.(pipes))
  | PipelineCompleteEvent _ => S (S (length b.(pipes)))
  end.

Definition pipe_weight (p : nat) : nat := from_option (λ p, sink_weight w top p.(sink)) 0 (b.(pipes) !! p).

(** Events of lighter sinks come first, those of one sink in their phases. *)
Definition event_rank (k : EventKind) : nat := pipe_weight (pipe_of k) * (3 + length b.(pipes)) + phase k.

(** The events of pipeline [i]. *)
Record stack_ok (d : ScheduleEventData) (i : nat) (s : PipelineEventStack) : Prop := {
  st_meta : ∃ m mp base, b.(metas) !! m = Some mp ∧ i ∈ mp.(mp_pipelines) ∧ mp.(mp_pipelines) !! 0 = Some base ∧
    kinds d !! s.(pipeline_initialize_event) = Some (PipelineInitializeEvent base) ∧
    kinds d !! s.(pipeline_finish_event) = Some (PipelineFinishEvent base) ∧
    kinds d !! s.(pipeline_complete_event) = Some (PipelineCompleteEvent base);
  st_event : kinds d !! s.(pipeline_event) = Some (PipelineEvent i);
  st_finish : edge d.(events) s.(pipeline_event) s.(pipeline_finish_event);
  st_complete : edge d.(events) s.(pipeline_finish_event) s.(pipeline_complete_event)
}.

Record data_ok (d : ScheduleEventData) : Prop := {
  do_rank : ∀ e x, edge d.(events) e x → ∃ k k', kinds d !! e = Some k ∧ kinds d !! x = Some k' ∧ event_rank k < event_rank k';
  do_count : counted d.(events);
  do_stack : ∀ i s, d.(event_map) !! i = Some s → stack_ok d i s
}.

(** Scheduling only adds. *)
Record data_ext (d d' : ScheduleEventData) : Prop := {
  de_kinds : kinds d `prefix_of` kinds d';
  de_edges : ∀ e x, edge d.(events) e x → edge d'.(events) e x;
  de_map : d.(event_map) ⊆ d'.(event_map)
}.

Lemma data_ext_refl d : data_ext d d.
Proof. by split. Qed.

Lemma data_ext_trans d1 d2 d3 : data_ext d1 d2 → data_ext d2 d3 → data_ext d1 d3.
Proof. intros [] []. split; [by etrans|auto|by etrans]. Qed.

Lemma stack_ok_ext d d' i s : data_ext d d' → stack_ok d i s → stack_ok d' i s.
Proof.
  intros [Hk He _] [(m & mp & base & ? & ? & ? & ? & ? & ?) ? ? ?]. split; [|by eapply prefix_lookup_Some|auto|auto].
  exists m, mp, base. split_and!; try done; by eapply prefix_lookup_Some.
Qed.

(** A new event. *)
Lemma push_event_ok k d :
  data_ok d → data_ok (push_event k d).2 ∧ data_ext d (push_event k d).2 ∧ kinds (push_event k d).2 = kinds d ++ [k] ∧
    kinds (push_event k d).2 !! (push_event k d).1 = Some k.
Proof.
  intros [Hr Hc Hs]. unfold push_event. simpl.
  assert (kinds (mkData (d.(events) ++ [mkEvent k 0 []]) d.(event_map)) = kinds d ++ [k]) as Hk by (unfold kinds; simpl; by rewrite fmap_app).
  assert (∀ e x, edge (d.(events) ++ [mkEvent k 0 []]) e x ↔ edge d.(events) e x) as Hedge.
  { intros e x. split.
    - intros (ev & [He|[_ He]]%lookup_app_Some & Hx); [by exists ev|]. apply list_lookup_singleton_Some in He as [_ <-]. by apply elem_of_nil in Hx.
    - intros (ev & He & Hx). exists ev. split; [by apply lookup_app_l_Some|done]. }
  assert (data_ext d (mkData (d.(events) ++ [mkEvent k 0 []]) d.(event_map))) as Hext.
  { split; [rewrite Hk; by apply prefix_app_r|intros e x; apply Hedge|done]. }
  split_and!; [split; simpl|done|done|rewrite Hk; apply list_lookup_middle; unfold kinds; by rewrite length_fmap].
  - intros e x (k1 & k2 & ? & ? & ?)%Hedge%Hr. exists k1, k2. rewrite Hk. split_and!; [by apply lookup_app_l_Some|by apply lookup_app_l_Some|done].
  - intros x ev He. rewrite fmap_app, concat_app, count_occ_app. simpl. rewrite Nat.add_0_r. apply lookup_app_Some in He as [He|[Hge He]]; [by apply Hc|].
    apply list_lookup_singleton_Some in He as [Hx <-]. simpl. symmetry. apply count_occ_not_In. intros (l & Hl & Hin)%in_concat.
    apply list_elem_of_In, list_elem_of_fmap in Hl as (ev & -> & (e & He)%list_elem_of_lookup).
    destruct (Hr e x) as (k1 & k2 & _ & Hk2 & _); [exists ev; split; [done|by apply list_elem_of_In]|].
    apply lookup_lt_Some in Hk2. unfold kinds in Hk2. rewrite length_fmap in Hk2. lia.
  - intros i s Hi. eapply stack_ok_ext; [done|]. auto.
Qed.

(** Events, edges and counts after [AddDependency]. *)
Lemma AddEventDependency_edges e on d ev o :
  d.(events) !! e = Some ev → d.(events) !! on = Some o → counted d.(events) →
  ∃ d', AddEventDependency e on d = Ret d' ∧ kinds d' = kinds d ∧ d'.(event_map) = d.(event_map) ∧ counted d'.(events) ∧
    ∀ i x, edge d'.(events) i x ↔ edge d.(events) i x ∨ (i = on ∧ x = e).
Proof.
  intros He Ho Hc. unfold AddEventDependency. rewrite He. orun. set (ev' := mkEvent _ _ _). set (evs := <[e := ev']> d.(events)).
  assert (∃ o', evs !! on = Some o' ∧ o'.(ekind) = o.(ekind) ∧ o'.(eparents) = o.(eparents)) as (o' & Ho' & Hk & Hp).
  { unfold evs. destruct (decide (e = on)) as [<-|Hne]; [|exists o; by rewrite list_lookup_insert_ne].
    simplify_eq. exists ev'. by rewrite list_lookup_insert_eq by (by eapply lookup_lt_Some). }
  rewrite Ho'. orun. eexists. split; [done|]. set (o2 := mkEvent _ _ _). simpl.
  assert (∀ i p, <[on := o2]> evs !! i = Some p → ∃ q, d.(events) !! i = Some q ∧ p.(ekind) = q.(ekind) ∧
    p.(total_dependencies) = (if decide (i = e) then 1 else 0) + q.(total_dependencies) ∧ p.(eparents) = q.(eparents) ++ (if decide (i = on) then [e] else [])) as Hget.
  { assert (∀ i p, evs !! i = Some p → ∃ q, d.(events) !! i = Some q ∧ p.(ekind) = q.(ekind) ∧
      p.(total_dependencies) = (if decide (i = e) then 1 else 0) + q.(total_dependencies) ∧ p.(eparents) = q.(eparents)) as Hevs.
    { intros i p. unfold evs. destruct (decide (i = e)) as [->|Hne].
      - rewrite list_lookup_insert_eq by (by eapply lookup_lt_Some). intros [= <-]. by exists ev.
      - rewrite list_lookup_insert_ne by done. intros Hp'. by exists p. }
    intros i p. destruct (decide (i = on)) as [->|Hne].
    - rewrite list_lookup_insert_eq by (by eapply lookup_lt_Some). intros [= <-]. destruct (Hevs on o' Ho') as (q & Hq & K & T & P).
      exists q. simpl. rewrite <- K, <- T, <- P. done.
    - rewrite list_lookup_insert_ne by done. intros Hi. destruct (Hevs i p Hi) as (q & ? & ? & ? & ?). exists q. by rewrite app_nil_r. }
  split_and!; [|done| |].
  - unfold kinds. simpl. apply list_eq_same_length with (n := length d.(events)); [by rewrite length_fmap|unfold evs; by rewrite length_fmap, !length_insert|].
    intros i k1 k2 _. rewrite !list_lookup_fmap. intros (p & Hp' & ->)%fmap_Some (q & Hq & ->)%fmap_Some. destruct (Hget i p Hp') as (q' & ? & ? & _). congruence.
  - intros x p Hx. destruct (Hget x p Hx) as (q & Hq & _ & HT & _). rewrite HT, (Hc x q Hq).
    pose proof (concat_update eparents evs on o' o2 x Ho') as U1. pose proof (concat_update eparents d.(events) e ev ev' x He) as U2. fold evs in U2.
    simpl in U1, U2. rewrite Hp, count_occ_app in U1. simpl in U1. destruct (Nat.eq_dec e x); case_decide; try congruence; lia.
  - intros i x. split.
    + intros (p & Hi & Hx). destruct (Hget i p Hi) as (q & Hq & _ & _ & HP). rewrite HP in Hx. apply elem_of_app in Hx as [Hx|Hx]; [left; by exists q|].
      case_decide; [|by apply elem_of_nil in Hx]. apply list_elem_of_singleton in Hx. by right.
    + intros Hix. assert (is_Some (<[on := o2]> evs !! i)) as [p Hp'].
      { apply lookup_lt_is_Some_2. unfold evs. rewrite !length_insert. destruct Hix as [(q & Hq & _)|[-> _]]; by eapply lookup_lt_Some. }
      exists p. split; [done|]. destruct (Hget i p Hp') as (q & Hq & _ & _ & ->). apply elem_of_app.
      destruct Hix as [(q' & Hq' & Hx)|[-> ->]]; [left; by simplify_eq|right]. rewrite decide_True by done. by left.
Qed.

Lemma AddEventDependency_ok e on d k k' :
  data_ok d → kinds d !! e = Some k → kinds d !! on = Some k' → event_rank k' < event_rank k →
  ∃ d', AddEventDependency e on d = Ret d' ∧ data_ok d' ∧ data_ext d d' ∧ kinds d' = kinds d ∧ d'.(event_map) = d.(event_map) ∧ edge d'.(events) on e.
Proof.
  intros [Hr Hc Hs] He Ho Hlt. unfold kinds in He, Ho. rewrite list_lookup_fmap in He, Ho. apply fmap_Some in He as (ev & He & Hk). apply fmap_Some in Ho as (o & Ho & Hk').
  destruct (AddEventDependency_edges e on d ev o He Ho Hc) as (d' & E & K & M & C & Hedge). exists d'.
  assert (data_ext d d') as Hext by (split; [by rewrite K|intros i x Hi; apply Hedge; by left|by rewrite M]).
  split_and!; try done; [|apply Hedge; by right]. split; [|done|].
  - intros i x [Hi|[-> ->]]%Hedge; rewrite K; [by apply Hr|]. exists k', k. unfold kinds. rewrite !list_lookup_fmap, He, Ho. simpl. split_and!; [congruence|congruence|done].
  - rewrite M. intros i s Hi. eapply stack_ok_ext; [done|auto].
Qed.

Lemma map_stack_ok i s d :
  data_ok d → d.(event_map) !! i = None → stack_ok d i s →
  data_ok (map_stack i s d) ∧ data_ext d (map_stack i s d) ∧ (map_stack i s d).(event_map) = <[i := s]> d.(event_map).
Proof.
  intros [Hr Hc Hs] Hi Hst. unfold map_stack. rewrite Hi. assert (data_ext d (mkData d.(events) (<[i := s]> d.(event_map)))) as Hext.
  { split; [done|done|]. simpl. by apply insert_subseteq. }
  split_and!; [|done|done]. split; simpl; [done|done|]. intros j s' [[<- <-]|[_ Hj]]%lookup_insert_Some; eapply stack_ok_ext; eauto.
Qed.

(** ** Scheduling a meta pipeline *)

Definition is_complete (k : EventKind) : bool := match k with PipelineCompleteEvent _ => true | _ => false end.

Definition completes (d : ScheduleEventData) : nat := length (base.filter is_complete (kinds d)).

Lemma completes_snoc d d' k : kinds d' = kinds d ++ [k] → completes d' = completes d + (if is_complete k then 1 else 0).
Proof. unfold completes. intros ->. rewrite filter_app, length_app. f_equal. by destruct k. Qed.

Section Meta.
  Context (m : nat) (mp : MetaPipeline) (base : nat) (Hm : b.(metas) !! m = Some mp) (Hbase : mp.(mp_pipelines) !! 0 = Some base).

Lemma base_in : base ∈ mp.(mp_pipelines).
Proof. by eapply list_elem_of_lookup_2. Qed.

Lemma pipe_weight_meta i : i ∈ mp.(mp_pipelines) → pipe_weight i = sink_weight w top mp.(mp_sink) ∧ i < length b.(pipes).
Proof.
  intros Hi. destruct (wf_sinks _ _ _ Hw m mp i Hm Hi) as (p & Hp & Hs). unfold pipe_weight. rewrite Hp. simpl. rewrite Hs.
  split; [done|]. by eapply lookup_lt_Some.
Qed.

(** Events of one meta pipeline are in the order of their phases. *)
Lemma rank_phase k k' : pipe_of k ∈ mp.(mp_pipelines) → pipe_of k' ∈ mp.(mp_pipelines) → phase k < phase k' → event_rank k < event_rank k'.
Proof. intros [Hk _]%pipe_weight_meta [Hk' _]%pipe_weight_meta Hlt. unfold event_rank. rewrite Hk, Hk'. lia. Qed.

Record base_ok (d : ScheduleEventData) (s : PipelineEventStack) : Prop := {
  ba_initialize : kinds d !! s.(pipeline_initialize_event) = Some (PipelineInitializeEvent base);
  ba_event : kinds d !! s.(pipeline_event) = Some (PipelineEvent base);
  ba_finish : kinds d !! s.(pipeline_finish_event) = Some (PipelineFinishEvent base);
  ba_complete : kinds d !! s.(pipeline_complete_event) = Some (PipelineCompleteEvent base);
  ba_finishes : edge d.(events) s.(pipeline_event) s.(pipeline_finish_event);
  ba_completes : edge d.(events) s.(pipeline_finish_event) s.(pipeline_complete_event)
}.

Lemma base_ok_ext d d' s : data_ext d d' → base_ok d s → base_ok d' s.
Proof. intros [Hk He _] []. split; [by eapply prefix_lookup_Some..|auto|auto]. Qed.

Lemma base_stack_ok d s : base_ok d s → stack_ok d base s.
Proof. intros []. split; [|done|done|done]. exists m, mp, base. split_and!; try done. apply base_in. Qed.

Lemma schedule_other_ok s d p :
  data_ok d → base_ok d s → p ∈ mp.(mp_pipelines) → d.(event_map) !! p = None →
  ∃ d', schedule_other mp s d p = Ret d' ∧ data_ok d' ∧ data_ext d d' ∧ dom d'.(event_map) = {[p]} ∪ dom d.(event_map) ∧ completes d' = completes d.
Proof.
  intros Hd [Bi Be Bf Bc B1 B2] Hp Hnone. destruct (wf_finish _ _ _ Hw m mp Hm) as [F1 F2]. pose proof (pipe_weight_meta p Hp) as [_ Hlt].
  unfold schedule_other. rewrite F2, lookup_empty, F1, decide_False by (by intros ?%elem_of_nil).
  destruct (push_event_ok (PipelineEvent p) d Hd) as (D1 & X1 & K1 & N1). destruct (push_event (PipelineEvent p) d) as [e d1] eqn:Ep. simpl in *.
  assert (d1.(event_map) = d.(event_map)) as M1 by (unfold push_event in Ep; by simplify_eq).
  destruct (AddEventDependency_ok e s.(pipeline_initialize_event) d1 (PipelineEvent p) (PipelineInitializeEvent base)) as (d2 & E2 & D2 & X2 & K2 & M2 & G2);
    [done|done|by eapply prefix_lookup_Some; [|apply (de_kinds _ _ X1)]|apply rank_phase; [apply base_in|done|simpl; lia]|].
  destruct (AddEventDependency_ok s.(pipeline_finish_event) e d2 (PipelineFinishEvent base) (PipelineEvent p)) as (d3 & E3 & D3 & X3 & K3 & M3 & G3);
    [done|rewrite K2; by eapply prefix_lookup_Some; [|apply (de_kinds _ _ X1)]|by rewrite K2|apply rank_phase; [done|apply base_in|simpl; lia]|].
  rewrite E2. orun. rewrite E3. orun. pose proof (data_ext_trans _ _ _ X1 (data_ext_trans _ _ _ X2 X3)) as X.
  set (s' := mkStack _ _ _ _). destruct (map_stack_ok p s' d3 D3) as (D4 & X4 & M4); [by rewrite M3, M2, M1| |].
  { split; simpl; [|by rewrite K3, K2|done|by apply (de_edges _ _ X)]. exists m, mp, base.
    split_and!; try done; by eapply prefix_lookup_Some; [|apply (de_kinds _ _ X)]. }
  eexists. split; [done|]. split_and!; [done|by eapply data_ext_trans|rewrite M4, dom_insert_L, M3, M2, M1; done|].
  rewrite <- (Nat.add_0_r (completes d)). apply (completes_snoc _ _ (PipelineEvent p)). unfold map_stack, kinds. simpl. fold (kinds d3). by rewrite K3, K2.
Qed.

(** The four events of the base pipeline. *)
Definition base_events (d : ScheduleEventData) : ScheduleEventData :=
  mkData (d.(events) ++ [mkEvent (PipelineInitializeEvent base) 0 []] ++ [mkEvent (PipelineEvent base) 0 []] ++
    [mkEvent (PipelineFinishEvent base) 0 []] ++ [mkEvent (PipelineCompleteEvent base) 0 []]) d.(event_map).

Definition base_stack (d : ScheduleEventData) : PipelineEventStack :=
  let n := length d.(events) in mkStack n (n + 1) (n + 2) (n + 3).

Lemma base_events_ok d :
  data_ok d → data_ok (base_events d) ∧ data_ext d (base_events d) ∧ completes (base_events d) = S (completes d) ∧
    kinds (base_events d) = kinds d ++ [PipelineInitializeEvent base; PipelineEvent base; PipelineFinishEvent base; PipelineCompleteEvent base].
Proof.
  intros Hd. destruct (push_event_ok (PipelineInitializeEvent base) d Hd) as (D1 & X1 & K1 & _).
  destruct (push_event_ok (PipelineEvent base) _ D1) as (D2 & X2 & K2 & _). destruct (push_event_ok (PipelineFinishEvent base) _ D2) as (D3 & X3 & K3 & _).
  destruct (push_event_ok (PipelineCompleteEvent base) _ D3) as (D4 & X4 & K4 & _).
  assert ((push_event (PipelineCompleteEvent base) (push_event (PipelineFinishEvent base) (push_event (PipelineEvent base)
    (push_event (PipelineInitializeEvent base) d).2).2).2).2 = base_events d) as E.
  { unfold push_event, base_events. simpl. by rewrite <- !app_assoc. }
  rewrite E in *. split_and!; [done|by repeat (eapply data_ext_trans; [eassumption|])| |].
  - rewrite (completes_snoc _ _ _ K4), (completes_snoc _ _ _ K3), (completes_snoc _ _ _ K2), (completes_snoc _ _ _ K1). simpl. lia.
  - by rewrite K4, K3, K2, K1, <- !app_assoc.
Qed.

Lemma SchedulePipeline_eq d :
  SchedulePipeline b d m =
  (let s := base_stack d in
   let* d1 := AddEventDependency s.(pipeline_event) s.(pipeline_initialize_event) (base_events d) in
   let* d2 := AddEventDependency s.(pipeline_finish_event) s.(pipeline_event) d1 in
   let* d3 := AddEventDependency s.(pipeline_complete_event) s.(pipeline_finish_event) d2 in
   let* d4 := ofold (schedule_other mp s) (drop 1 mp.(mp_pipelines)) d3 in
   ofold (schedule_inner b mp) mp.(mp_pipelines) (map_stack base s d4)).
Proof.
  unfold SchedulePipeline, GetBasePipeline. rewrite Hm. orun. unfold vec_at. simpl. rewrite Hbase. orun. unfold push_event, base_events, base_stack. simpl.
  rewrite <- !app_assoc. simpl. rewrite !length_app. simpl. done.
Qed.

Lemma start_ok d :
  data_ok d → let s := base_stack d in
  ∃ d3, (let* d1 := AddEventDependency s.(pipeline_event) s.(pipeline_initialize_event) (base_events d) in
         let* d2 := AddEventDependency s.(pipeline_finish_event) s.(pipeline_event) d1 in
         AddEventDependency s.(pipeline_complete_event) s.(pipeline_finish_event) d2) = Ret d3 ∧
    data_ok d3 ∧ data_ext d d3 ∧ completes d3 = S (completes d) ∧ d3.(event_map) = d.(event_map) ∧ base_ok d3 s.
Proof.
  intros Hd s. destruct (base_events_ok d Hd) as (D0 & X0 & C0 & K0). set (d0 := base_events d) in *.
  assert (length (kinds d) = length d.(events)) as Hlen by (unfold kinds; by rewrite length_fmap).
  assert (kinds d0 !! s.(pipeline_initialize_event) = Some (PipelineInitializeEvent base) ∧ kinds d0 !! s.(pipeline_event) = Some (PipelineEvent base) ∧
    kinds d0 !! s.(pipeline_finish_event) = Some (PipelineFinishEvent base) ∧ kinds d0 !! s.(pipeline_complete_event) = Some (PipelineCompleteEvent base))
    as (Ki & Ke & Kf & Kc).
  { rewrite K0. unfold s, base_stack. simpl. rewrite !lookup_app_r by lia. rewrite Hlen, Nat.sub_diag.
    replace (length d.(events) + 1 - length d.(events)) with 1 by lia. replace (length d.(events) + 2 - length d.(events)) with 2 by lia.
    by replace (length d.(events) + 3 - length d.(events)) with 3 by lia. }
  pose proof base_in as Hb. pose proof (pipe_weight_meta base Hb) as [_ Hlt].
  destruct (AddEventDependency_ok s.(pipeline_event) s.(pipeline_initialize_event) d0 (PipelineEvent base) (PipelineInitializeEvent base)) as (d1 & E1 & D1 & X1 & K1 & M1 & _);
    try done; [by apply rank_phase; [done|done|simpl; lia]|].
  destruct (AddEventDependency_ok s.(pipeline_finish_event) s.(pipeline_event) d1 (PipelineFinishEvent base) (PipelineEvent base)) as (d2 & E2 & D2 & X2 & K2 & M2 & G2);
    [done|by rewrite K1|by rewrite K1|by apply rank_phase; [done|done|simpl; lia]|].
  destruct (AddEventDependency_ok s.(pipeline_complete_event) s.(pipeline_finish_event) d2 (PipelineCompleteEvent base) (PipelineFinishEvent base)) as (d3 & E3 & D3 & X3 & K3 & M3 & G3);
    [done|by rewrite K2, K1|by rewrite K2, K1|by apply rank_phase; [done|done|simpl; lia]|].
  exists d3. rewrite E1. orun. rewrite E2. orun. rewrite E3. split_and!; [done|done| | | |].
  - by repeat (eapply data_ext_trans; [eassumption|]).
  - unfold completes. rewrite K3, K2, K1. done.
  - by rewrite M3, M2, M1.
  - split; rewrite ?K3, ?K2, ?K1; try done. by apply (de_edges _ _ X3).
Qed.

Lemma mp_pipelines_nodup : NoDup mp.(mp_pipelines).
Proof.
  apply (NoDup_concat_elem (mp_pipelines <$> b.(metas))); [rewrite (wf_pipelines _ _ _ Hw); apply NoDup_seq|].
  apply list_elem_of_fmap_2. by eapply list_elem_of_lookup_2.
Qed.

Lemma others_ok s d :
  data_ok d → base_ok d s → (∀ i, i ∈ mp.(mp_pipelines) → d.(event_map) !! i = None) →
  ∃ d', ofold (schedule_other mp s) (drop 1 mp.(mp_pipelines)) d = Ret d' ∧ data_ok d' ∧ data_ext d d' ∧ completes d' = completes d ∧
    dom d'.(event_map) = list_to_set (drop 1 mp.(mp_pipelines)) ∪ dom d.(event_map).
Proof.
  intros Hd Hb Hnone. pose proof mp_pipelines_nodup as Hnd. rewrite <- (take_drop 1 mp.(mp_pipelines)) in Hnd. apply NoDup_app in Hnd as (_ & _ & Hnd).
  assert (∀ i, i ∈ drop 1 mp.(mp_pipelines) → i ∈ mp.(mp_pipelines)) as Hsub.
  { intros i Hi. rewrite <- (take_drop 1 mp.(mp_pipelines)). apply elem_of_app. by right. }
  destruct (ofold_prefix (λ pre d', data_ok d' ∧ data_ext d d' ∧ completes d' = completes d ∧ dom d'.(event_map) = list_to_set pre ∪ dom d.(event_map))
    (schedule_other mp s) (drop 1 mp.(mp_pipelines)) d) as (d' & E & D & X & C & M).
  - split_and!; [done|apply data_ext_refl|done|set_solver].
  - intros pre p d1 (post & Hpost) (D1 & X1 & C1 & M1). rewrite Hpost in Hnd, Hsub. apply NoDup_app in Hnd as (_ & Hdisj & _).
    destruct (schedule_other_ok s d1 p) as (d2 & E2 & D2 & X2 & M2 & C2); [done|by eapply base_ok_ext|apply Hsub; set_solver| |].
    { apply not_elem_of_dom. rewrite M1. assert (p ∈ mp.(mp_pipelines)) as Hp by (apply Hsub; set_solver). specialize (Hnone p Hp).
      apply not_elem_of_dom in Hnone. specialize (Hdisj p). set_solver. }
    exists d2. split_and!; [done|done|by eapply data_ext_trans|congruence|]. rewrite M2, M1, list_to_set_app_L. simpl. set_solver.
  - eauto 7.
Qed.

(** The inner dependencies of [p] are edges between the events. *)
Definition inner_done (d : ScheduleEventData) (p : nat) : Prop :=
  ∀ l j, mp.(mp_dependencies) !! p = Some l → j ∈ l →
    ∃ sp sj, d.(event_map) !! p = Some sp ∧ d.(event_map) !! j = Some sj ∧ edge d.(events) sj.(pipeline_event) sp.(pipeline_event).

Lemma inner_done_ext d d' p : data_ext d d' → inner_done d p → inner_done d' p.
Proof.
  intros [_ He Hm'] Hi l j Hl Hj. destruct (Hi l j Hl Hj) as (sp & sj & ? & ? & ?). exists sp, sj.
  split_and!; [by eapply lookup_weaken|by eapply lookup_weaken|auto].
Qed.

Lemma schedule_inner_ok d p :
  data_ok d → (∀ i, i ∈ mp.(mp_pipelines) → is_Some (d.(event_map) !! i)) → p ∈ mp.(mp_pipelines) → has_source b p →
  ∃ d', schedule_inner b mp d p = Ret d' ∧ data_ok d' ∧ data_ext d d' ∧ kinds d' = kinds d ∧ d'.(event_map) = d.(event_map) ∧ inner_done d' p.
Proof.
  intros Hd Hall Hp (pp & Hpp & [src Hsrc]). unfold schedule_inner. rewrite Hpp. orun. rewrite Hsrc. orun.
  destruct (mp.(mp_dependencies) !! p) as [deps|] eqn:Hdeps.
  2: { exists d. split_and!; [done|done|apply data_ext_refl|done|done|]. intros l j Hl. congruence. }
  destruct (Hall p Hp) as [sp Hsp]. rewrite Hsp. orun.
  destruct (ofold_prefix (λ pre d', data_ok d' ∧ data_ext d d' ∧ kinds d' = kinds d ∧ d'.(event_map) = d.(event_map) ∧
      ∀ j sj, j ∈ pre → d.(event_map) !! j = Some sj → edge d'.(events) sj.(pipeline_event) sp.(pipeline_event))
    (λ d dep, let* s := deref (d.(event_map) !! dep) in AddEventDependency sp.(pipeline_event) s.(pipeline_event) d) (reverse deps) d) as (d' & E & D & X & K & M & G).
  - split_and!; [done|apply data_ext_refl|done|done|by intros j sj ?%elem_of_nil].
  - intros pre j d1 (post & Hpost) (D1 & X1 & K1 & M1 & G1). assert (j ∈ deps) as Hj by (apply elem_of_reverse; rewrite Hpost; set_solver).
    destruct (wf_inner _ _ _ Hw m mp p deps j Hm Hdeps Hj) as (_ & Hjm & Hlt). destruct (Hall j Hjm) as [sj Hsj]. rewrite M1, Hsj. orun.
    destruct (AddEventDependency_ok sp.(pipeline_event) sj.(pipeline_event) d1 (PipelineEvent p) (PipelineEvent j)) as (d2 & E2 & D2 & X2 & K2 & M2 & G2).
    + done.
    + rewrite K1. by apply (st_event _ _ _ (do_stack _ Hd p sp Hsp)).
    + rewrite K1. by apply (st_event _ _ _ (do_stack _ Hd j sj Hsj)).
    + apply rank_phase; [done|done|simpl; lia].
    + exists d2. split_and!; [done|done|by eapply data_ext_trans|congruence|congruence|].
      intros j' sj' [Hj'| ->%list_elem_of_singleton]%elem_of_app Hs'; [apply (de_edges _ _ X2); eauto|by simplify_eq].
  - exists d'. split_and!; try done. intros l j Hl Hj. rewrite Hdeps in Hl. injection Hl as <-. destruct (wf_inner _ _ _ Hw m mp p deps j Hm Hdeps Hj) as (_ & Hjm & _).
    destruct (Hall j Hjm) as [sj Hsj]. exists sp, sj. rewrite M. split_and!; try done. apply (G j); [by apply elem_of_reverse|done].
Qed.

Lemma inners_ok d :
  data_ok d → (∀ i, i ∈ mp.(mp_pipelines) → is_Some (d.(event_map) !! i)) → (∀ i, i ∈ mp.(mp_pipelines) → has_source b i) →
  ∃ d', ofold (schedule_inner b mp) mp.(mp_pipelines) d = Ret d' ∧ data_ok d' ∧ data_ext d d' ∧ kinds d' = kinds d ∧ d'.(event_map) = d.(event_map) ∧
    ∀ i, i ∈ mp.(mp_pipelines) → inner_done d' i.
Proof.
  intros Hd Hall Hsrc.
  destruct (ofold_prefix (λ pre d', data_ok d' ∧ data_ext d d' ∧ kinds d' = kinds d ∧ d'.(event_map) = d.(event_map) ∧ ∀ i, i ∈ pre → inner_done d' i)
    (schedule_inner b mp) mp.(mp_pipelines) d) as (d' & E & D & X & K & M & G).
  - split_and!; [done|apply data_ext_refl|done|done|by intros i ?%elem_of_nil].
  - intros pre p d1 (post & Hpost) (D1 & X1 & K1 & M1 & G1). assert (p ∈ mp.(mp_pipelines)) as Hp by (rewrite Hpost; set_solver).
    destruct (schedule_inner_ok d1 p) as (d2 & E2 & D2 & X2 & K2 & M2 & G2); [done|by rewrite M1|done|auto|].
    exists d2. split_and!; [done|done|by eapply data_ext_trans|congruence|congruence|].
    intros i [Hi| ->%list_elem_of_singleton]%elem_of_app; [|done]. eapply inner_done_ext; [done|auto].
  - exists d'. by split_and!.
Qed.

Lemma SchedulePipeline_ok d :
  data_ok d → (∀ i, i ∈ mp.(mp_pipelines) → d.(event_map) !! i = None) → (∀ i, i ∈ mp.(mp_pipelines) → has_source b i) →
  ∃ d', SchedulePipeline b d m = Ret d' ∧ data_ok d' ∧ data_ext d d' ∧ completes d' = S (completes d) ∧
    dom d'.(event_map) = list_to_set mp.(mp_pipelines) ∪ dom d.(event_map) ∧ ∀ i, i ∈ mp.(mp_pipelines) → inner_done d' i.
Proof.
  intros Hd Hnone Hsrc. rewrite SchedulePipeline_eq. destruct (start_ok d Hd) as (d3 & E3 & D3 & X3 & C3 & M3 & B3). simpl in E3 |- *.
  set (s := base_stack d) in *. destruct (others_ok s d3 D3 B3) as (d4 & E4 & D4 & X4 & C4 & M4); [by rewrite M3|].
  assert (mp.(mp_pipelines) = base :: drop 1 mp.(mp_pipelines)) as Hcons.
  { destruct mp.(mp_pipelines) as [|x l]; [done|]. simpl in Hbase. by simplify_eq. }
  assert (d4.(event_map) !! base = None) as Hb.
  { apply not_elem_of_dom. rewrite M4, M3. specialize (Hnone base base_in). apply not_elem_of_dom in Hnone. pose proof mp_pipelines_nodup as Hnd.
    rewrite Hcons in Hnd. apply NoDup_cons in Hnd as [Hnot _]. set_solver. }
  destruct (map_stack_ok base s d4 D4 Hb) as (D5 & X5 & M5); [by apply base_stack_ok, (base_ok_ext d3)|].
  assert (dom (map_stack base s d4).(event_map) = list_to_set mp.(mp_pipelines) ∪ dom d.(event_map)) as M5'.
  { rewrite M5, dom_insert_L, M4, M3. rewrite Hcons at 2. simpl. by rewrite (assoc_L (∪)). }
  destruct (inners_ok (map_stack base s d4) D5) as (d6 & E6 & D6 & X6 & K6 & M6 & G6); [|done|].
  { intros i Hi. apply elem_of_dom. rewrite M5'. set_solver. }
  exists d6. split_and!; [|done| | |by rewrite M6|done].
  - destruct (AddEventDependency _ _ (base_events d)) as [d1| | |]; try done. simpl in *.
    destruct (AddEventDependency _ _ d1) as [d2| | |]; try done. simpl in *. rewrite E3. orun. rewrite E4. orun. done.
  - by repeat (eapply data_ext_trans; [eassumption|]).
  - unfold completes at 1. rewrite K6. change (kinds (map_stack base s d4)) with (kinds d4). fold (completes d4). lia.
Qed.
End Meta.

(** ** Scheduling all *)

Context (Hsource : ∀ i, i < length b.(pipes) → has_source b i).

(** A pipeline that is scheduled is of a meta pipeline other than the root. *)
Definition below_root (i : nat) : Prop := ∃ m mp, 0 < m ∧ b.(metas) !! m = Some mp ∧ i ∈ mp.(mp_pipelines).

Lemma owner_unique m mp m' mp' i :
  b.(metas) !! m = Some mp → b.(metas) !! m' = Some mp' → i ∈ mp.(mp_pipelines) → i ∈ mp'.(mp_pipelines) → m = m'.
Proof.
  intros Hm Hm' Hi Hi'. pose proof (wf_pipelines _ _ _ Hw) as Hperm. assert (i < length b.(pipes)) as Hlt by (by eapply wf_pipelines_lt).
  destruct (occurrences_where i (mp_pipelines <$> b.(metas))) as (p & _ & Hin).
  { rewrite (occurrences_perm _ _ _ Hperm). apply NoDup_count_occ'; [apply NoDup_ListNoDup, NoDup_seq|]. apply in_seq. lia. }
  assert (∀ k kp, b.(metas) !! k = Some kp → i ∈ kp.(mp_pipelines) → k = p) as Hp; [|by rewrite (Hp m mp), (Hp m' mp')].
  intros k kp Hk Hik. specialize (Hin k kp.(mp_pipelines)). rewrite list_lookup_fmap, Hk in Hin. specialize (Hin eq_refl).
  apply list_elem_of_In, (count_occ_In Nat.eq_dec) in Hik. case_decide; [done|lia].
Qed.

(** What a pipeline below the root waits for is below the root. *)
Lemma outer_below i p j : b.(pipes) !! i = Some p → j ∈ p.(dependencies) → below_root j.
Proof.
  intros Hp Hj. destruct (wf_outer _ _ _ Hw i p j Hp Hj) as (q & Hq & Hlt). pose proof (pipe_top w top b i p Hw Hp) as Htop.
  destruct (pipe_owner w top b j Hw) as (m & mp & Hm & Hi); [by eapply lookup_lt_Some|].
  destruct (wf_sinks _ _ _ Hw m mp j Hm Hi) as (q' & Hq' & Hs). simplify_eq. exists m, mp. split_and!; try done.
  destruct (decide (m = 0)) as [->|]; [|lia]. assert (mp.(mp_sink) = None) as Hnone by (by apply (wf_root _ _ _ Hw 0 mp Hm)).
  rewrite Hs, Hnone in Hlt. simpl in Hlt. lia.
Qed.

(** An event waits for what its pipeline depends on within the meta pipeline,
    and across meta pipelines. *)
Definition inner_all (d : ScheduleEventData) (i : nat) : Prop :=
  ∀ m mp l j, b.(metas) !! m = Some mp → mp.(mp_dependencies) !! i = Some l → j ∈ l →
    ∃ si sj, d.(event_map) !! i = Some si ∧ d.(event_map) !! j = Some sj ∧ edge d.(events) sj.(pipeline_event) si.(pipeline_event).

Definition outer_all (d : ScheduleEventData) (i : nat) : Prop :=
  ∀ p j, b.(pipes) !! i = Some p → j ∈ p.(dependencies) →
    ∃ si sj, d.(event_map) !! i = Some si ∧ d.(event_map) !! j = Some sj ∧ edge d.(events) sj.(pipeline_complete_event) si.(pipeline_event).

Lemma inner_all_ext d d' i : data_ext d d' → inner_all d i → inner_all d' i.
Proof.
  intros [_ He Hm'] Hi m mp l j Hm Hl Hj. destruct (Hi m mp l j Hm Hl Hj) as (sp & sj & ? & ? & ?). exists sp, sj.
  split_and!; [by eapply lookup_weaken|by eapply lookup_weaken|auto].
Qed.

Lemma outer_all_ext d d' i : data_ext d d' → outer_all d i → outer_all d' i.
Proof.
  intros [_ He Hm'] Hi p j Hp Hj. destruct (Hi p j Hp Hj) as (sp & sj & ? & ? & ?). exists sp, sj.
  split_and!; [by eapply lookup_weaken|by eapply lookup_weaken|auto].
Qed.

Lemma empty_data_ok : data_ok (mkData [] ∅).
Proof. split; simpl; [by intros e x (ev & ? & _)|by intros x ev ?|]. intros i s. by rewrite lookup_empty. Qed.

Lemma pipelines_scheduled l :
  NoDup l → (∀ m, m ∈ l → m < length b.(metas)) →
  ∃ d, ofold (SchedulePipeline b) l (mkData [] ∅) = Ret d ∧ data_ok d ∧ completes d = length l ∧
    (∀ i, is_Some (d.(event_map) !! i) ↔ ∃ m mp, m ∈ l ∧ b.(metas) !! m = Some mp ∧ i ∈ mp.(mp_pipelines)) ∧
    ∀ i, is_Some (d.(event_map) !! i) → inner_all d i.
Proof.
  intros Hnd Hl. apply (ofold_prefix (λ pre d, data_ok d ∧ completes d = length pre ∧
    (∀ i, is_Some (d.(event_map) !! i) ↔ ∃ m mp, m ∈ pre ∧ b.(metas) !! m = Some mp ∧ i ∈ mp.(mp_pipelines)) ∧
    ∀ i, is_Some (d.(event_map) !! i) → inner_all d i)).
  - split_and!; [apply empty_data_ok|done| |].
    + intros i. split; [intros [s Hs]; simpl in Hs; by rewrite lookup_empty in Hs|]. by intros (m & mp & ?%elem_of_nil & _).
    + intros i [s Hs]. simpl in Hs. by rewrite lookup_empty in Hs.
  - intros pre m d (post & ->) (D & C & M & I). apply NoDup_app in Hnd as (_ & Hdisj & _).
    destruct (lookup_lt_is_Some_2 b.(metas) m) as [mp Hm]; [apply Hl; set_solver|].
    destruct (mp.(mp_pipelines) !! 0) as [base|] eqn:Hbase; [|apply lookup_ge_None in Hbase; destruct (wf_base _ _ _ Hw m mp Hm); by apply length_zero_iff_nil; lia].
    destruct (SchedulePipeline_ok m mp base Hm Hbase d D) as (d' & E & D' & X' & C' & M' & I').
    + intros i Hi. apply eq_None_not_Some. rewrite M. intros (m' & mp' & Hm' & Hmp' & Hi'). rewrite <- (owner_unique m mp m' mp' i) in Hm' by done.
      apply (Hdisj m); [done|by left].
    + intros i Hi. apply Hsource. by eapply wf_pipelines_lt.
    + exists d'. split; [done|]. assert (∀ i, is_Some (d'.(event_map) !! i) ↔ i ∈ mp.(mp_pipelines) ∨ is_Some (d.(event_map) !! i)) as Mi.
      { intros i. rewrite <- !elem_of_dom, M'. set_solver. }
      split_and!; [done|rewrite C', C, length_app; simpl; lia| |].
      * intros i. rewrite Mi, M. split.
        -- intros [Hi|(m' & mp' & ? & ? & ?)]; [exists m, mp|exists m', mp']; set_solver.
        -- intros (m' & mp' & [?| ->%list_elem_of_singleton]%elem_of_app & ? & ?); [right; eauto|left; by simplify_eq].
      * intros i [Hi|Hi]%Mi; [|eapply inner_all_ext; [done|auto]]. intros m' mp' l' j Hm' Hl' Hj.
        destruct (wf_inner _ _ _ Hw m' mp' i l' j Hm' Hl' Hj) as (Hi' & _ & _).
        assert (m' = m) as -> by (by eapply owner_unique). simplify_eq. by eapply I'.
Qed.

Lemma rank_outer d i p j sj :
  data_ok d → b.(pipes) !! i = Some p → j ∈ p.(dependencies) → d.(event_map) !! j = Some sj →
  ∃ k, kinds d !! sj.(pipeline_complete_event) = Some k ∧ event_rank k < event_rank (PipelineEvent i).
Proof.
  intros Hd Hp Hj Hsj. destruct (st_meta _ _ _ (do_stack _ Hd j sj Hsj)) as (m & mp & base & Hm & Hjm & Hbase & _ & _ & Hk). eexists. split; [exact Hk|].
  destruct (wf_outer _ _ _ Hw i p j Hp Hj) as (q & Hq & Hlt). destruct (pipe_weight_meta m mp Hm base) as [Wb _]; [by eapply list_elem_of_lookup_2|].
  destruct (wf_sinks _ _ _ Hw m mp j Hm Hjm) as (q' & Hq' & Hs). simplify_eq. unfold event_rank. simpl. rewrite Wb. unfold pipe_weight. rewrite Hp. simpl.
  rewrite <- Hs. nia.
Qed.

Lemma schedule_outer_ok d i s :
  data_ok d → d.(event_map) !! i = Some s → (∀ j, below_root j → is_Some (d.(event_map) !! j)) →
  ∃ d', schedule_outer b d (i, s) = Ret d' ∧ data_ok d' ∧ data_ext d d' ∧ kinds d' = kinds d ∧ d'.(event_map) = d.(event_map) ∧ outer_all d' i.
Proof.
  intros Hd Hs Hbelow. destruct (st_meta _ _ _ (do_stack _ Hd i s Hs)) as (m & mp & _ & Hm & Hi & _).
  destruct (wf_sinks _ _ _ Hw m mp i Hm Hi) as (p & Hp & _). unfold schedule_outer. simpl. rewrite Hp. orun.
  destruct (ofold_prefix (λ pre d', data_ok d' ∧ data_ext d d' ∧ kinds d' = kinds d ∧ d'.(event_map) = d.(event_map) ∧
      ∀ j sj, j ∈ pre → d.(event_map) !! j = Some sj → edge d'.(events) sj.(pipeline_complete_event) s.(pipeline_event))
    (λ d dep, let* sj := deref (d.(event_map) !! dep) in AddEventDependency s.(pipeline_event) sj.(pipeline_complete_event) d) p.(dependencies) d)
    as (d' & E & D & X & K & M & G).
  - split_and!; [done|apply data_ext_refl|done|done|by intros j sj ?%elem_of_nil].
  - intros pre j d1 (post & Hpost) (D1 & X1 & K1 & M1 & G1). assert (j ∈ p.(dependencies)) as Hj by (rewrite Hpost; set_solver).
    destruct (Hbelow j) as [sj Hsj]; [by eapply outer_below|]. rewrite M1, Hsj. orun. destruct (rank_outer d i p j sj Hd Hp Hj Hsj) as (k & Hk & Hlt).
    destruct (AddEventDependency_ok s.(pipeline_event) sj.(pipeline_complete_event) d1 (PipelineEvent i) k) as (d2 & E2 & D2 & X2 & K2 & M2 & G2);
      [done|rewrite K1; by apply (st_event _ _ _ (do_stack _ Hd i s Hs))|by rewrite K1|done|].
    exists d2. split_and!; [done|done|by eapply data_ext_trans|congruence|congruence|].
    intros j' sj' [Hj'| ->%list_elem_of_singleton]%elem_of_app Hs'; [apply (de_edges _ _ X2); eauto|by simplify_eq].
  - exists d'. split_and!; try done. intros p' j Hp' Hj. simplify_eq. destruct (Hbelow j) as [sj Hsj]; [by eapply outer_below|].
    exists s, sj. rewrite M. split_and!; try done. by apply (G j).
Qed.

(** The graph of events of a query. *)
Record event_graph (d : ScheduleEventData) : Prop := {
  eg_ok : data_ok d;
  eg_completes : completes d = length b.(metas) - 1;
  eg_map : ∀ i, is_Some (d.(event_map) !! i) ↔ below_root i;
  eg_inner : ∀ i, below_root i → inner_all d i;
  eg_outer : ∀ i, below_root i → outer_all d i
}.

Lemma ScheduleEventsInternal_ok `{EventMapOrderOk} l : l ≡ₚ seq 1 (length b.(metas) - 1) → ∃ d, ScheduleEventsInternal b l = Ret d ∧ event_graph d.
Proof.
  intros Hl. destruct (pipelines_scheduled l) as (d & E & D & C & M & I).
  { rewrite Hl. apply NoDup_seq. }
  { intros m. rewrite Hl, elem_of_seq. lia. }
  assert (∀ i, is_Some (d.(event_map) !! i) ↔ below_root i) as Hbelow.
  { intros i. rewrite M. split; intros (m & mp & Hm & Hmp & Hi); exists m, mp; (split_and!; [|done|done]); [apply (elem_of_Permutation_proper _ _ _ Hl), elem_of_seq in Hm; lia|].
    apply lookup_lt_Some in Hmp. rewrite Hl, elem_of_seq. lia. }
  unfold ScheduleEventsInternal. rewrite E. orun.
  destruct (ofold_prefix (λ pre d', data_ok d' ∧ data_ext d d' ∧ kinds d' = kinds d ∧ d'.(event_map) = d.(event_map) ∧
      ∀ i s, (i, s) ∈ pre → outer_all d' i) (schedule_outer b) (event_order d.(event_map)) d) as (d' & E' & D' & X' & K' & M' & O').
  - split_and!; [done|apply data_ext_refl|done|done|by intros i s ?%elem_of_nil].
  - intros pre [i s] d1 (post & Hpost) (D1 & X1 & K1 & M1 & O1). assert (d.(event_map) !! i = Some s) as Hs.
    { apply elem_of_map_to_list. rewrite <- event_order_perm, Hpost. set_solver. }
    destruct (schedule_outer_ok d1 i s) as (d2 & E2 & D2 & X2 & K2 & M2 & O2); [done|by rewrite M1|by intros j Hj; rewrite M1; apply Hbelow|].
    exists d2. split_and!; [done|done|by eapply data_ext_trans|congruence|congruence|].
    intros i' s' [Hi'|[= -> ->]%list_elem_of_singleton]%elem_of_app; [|done]. eapply outer_all_ext; [done|eauto].
  - exists d'. split; [done|]. split; [done| | | |].
    + unfold completes in *. rewrite K', C, Hl. by rewrite length_seq.
    + by rewrite M'.
    + intros i Hi. eapply inner_all_ext; [done|]. by apply I, Hbelow.
    + intros i Hi. apply Hbelow in Hi as [s Hs]. apply (O' i s). rewrite event_order_perm. by apply elem_of_map_to_list.
Qed.
End Graph.
