(* ===== verification/Execution.v ===== *)
(** * Execution: the events of a query as they run

    [Event] of [event.cpp] as a step relation: events that wait for none are
    scheduled, an event that is finished tells those that wait for it, the last
    of which to be told schedules them, and a sink may insert an event after
    its own ([InsertEvent]), as [PhysicalCreateBF] does to fill its filters.
    Threads interleave between any two of these steps.  Shown: rows are
    filtered only when the filters are filled, and a query comes to its end. *)

From S2P Require Import Prelude BloomFilter LogicalPlan NodesManager Dag TransferOptimizer TransferInsert PlanTree PhysicalPlan Pipelines Scheduling.
Local Open Scope nat_scope.
Local Open Scope machine_scope.

(** ** Running events *)

(** What an event is doing; one that is finishing has to tell the events left. *)
Inductive EventStatus := Waiting | Scheduled | Finishing (left : list nat) | Finished.

#[global] Instance EventStatus_eq : EqDecision EventStatus.
Proof. solve_decision. Defined.

(** An event as it runs.  [to_insert]: how many events the sink will insert
    after this one, one after the other. *)
Record running := mkRunning {
  rkind : EventKind;
  rtotal : nat;
  rparents : list nat;
  finished_dependencies : nat;
  status : EventStatus;
  to_insert : nat
}.

Record exec := mkExec { revents : list running; completed_pipelines : nat }.

Definition set_status (st : EventStatus) (r : running) : running :=
  mkRunning r.(rkind) r.(rtotal) r.(rparents) r.(finished_dependencies) st r.(to_insert).

(** [CompleteDependency]: the last one schedules the event. *)
Definition CompleteDependency (r : running) : running :=
  let n := S r.(finished_dependencies) in
  mkRunning r.(rkind) r.(rtotal) r.(rparents) n (if decide (n = r.(rtotal)) then Scheduled else r.(status)) r.(to_insert).

(** [InsertEvent]: the new event takes the parents, and waits for this one. *)
Definition InsertEvent (e : nat) (r : running) (s : exec) : exec :=
  let new := length s.(revents) in
  mkExec (<[e := mkRunning r.(rkind) r.(rtotal) [new] r.(finished_dependencies) r.(status) 0]> s.(revents) ++
    [mkRunning (InsertedEvent (pipe_of r.(rkind))) 1 r.(rparents) 0 Waiting (pred r.(to_insert))]) s.(completed_pipelines).

Inductive step : exec → exec → Prop :=
| step_insert s e r :
    s.(revents) !! e = Some r → r.(status) = Scheduled → 0 < r.(to_insert) → step s (InsertEvent e r s)
| step_finish s e r :
    s.(revents) !! e = Some r → r.(status) = Scheduled → r.(to_insert) = 0 →
    step s (mkExec (<[e := set_status (Finishing r.(rparents)) r]> s.(revents)) s.(completed_pipelines))
| step_notify s e r x left p :
    s.(revents) !! e = Some r → r.(status) = Finishing (x :: left) → <[e := set_status (Finishing left) r]> s.(revents) !! x = Some p →
    step s (mkExec (<[x := CompleteDependency p]> (<[e := set_status (Finishing left) r]> s.(revents))) s.(completed_pipelines))
| step_finalize s e r :
    s.(revents) !! e = Some r → r.(status) = Finishing [] →
    step s (mkExec (<[e := set_status Finished r]> s.(revents)) ((if is_complete r.(rkind) then 1 else 0) + s.(completed_pipelines))).

(** How many events the [Finalize] of sinks other than [PhysicalCreateBF] inserts. *)
Class SinkEvents := other_inserted : PhysicalOperator → nat.

(** [PhysicalCreateBF::Finalize] inserts one, which fills the filters. *)
Definition inserted_after `{SinkEvents} (ops : list PhysicalOperator) (b : build) (k : EventKind) : nat :=
  match k with
  | PipelineFinishEvent i =>
      match (p ← b.(pipes) !! i; s ← p.(sink); ops !! s) with
      | Some q => match q.(pkind) with PCreateBF _ => 1 | _ => other_inserted q end
      | None => 0
      end
  | _ => 0
  end.

Definition start_event (inserted : EventKind → nat) (ev : Event) : running :=
  mkRunning ev.(ekind) ev.(total_dependencies) ev.(eparents) 0 (if decide (ev.(total_dependencies) = 0) then Scheduled else Waiting) (inserted ev.(ekind)).

(** The end of [ScheduleEventsInternal]: events that wait for none are scheduled. *)
Definition start (inserted : EventKind → nat) (d : ScheduleEventData) : exec := mkExec (start_event inserted <$> d.(events)) 0.

(** ** Invariant *)

Definition started (r : running) : Prop := r.(status) ≠ Waiting.

Definition is_done (r : running) : Prop := match r.(status) with Finishing _ | Finished => True | _ => False end.

Definition completed (r : running) : bool := is_complete r.(rkind) && bool_decide (r.(status) = Finished).

(** The events that an event has still to tell. *)
Definition remaining (r : running) : list nat :=
  match r.(status) with Waiting | Scheduled => r.(rparents) | Finishing left => left | Finished => [] end.

Record exec_ok (s : exec) : Prop := {
  ex_count : ∀ x r, s.(revents) !! x = Some r → r.(finished_dependencies) + occurrences x (concat (remaining <$> s.(revents))) = r.(rtotal);
  ex_waiting : ∀ x r, s.(revents) !! x = Some r → r.(status) = Waiting ↔ r.(finished_dependencies) < r.(rtotal);
  ex_inserted : ∀ x r, s.(revents) !! x = Some r → is_done r → r.(to_insert) = 0;
  ex_remaining : ∀ e r x, s.(revents) !! e = Some r → x ∈ remaining r → x ∈ r.(rparents);
  ex_rank : ∃ R : nat → nat, ∀ e r x, s.(revents) !! e = Some r → x ∈ r.(rparents) → x < length s.(revents) ∧ R e < R x;
  ex_completed : s.(completed_pipelines) = length (base.filter completed s.(revents))
}.

(** An event that has started was told by all it waits for. *)
Lemma started_done s e r x p :
  exec_ok s → s.(revents) !! e = Some r → x ∈ r.(rparents) → s.(revents) !! x = Some p → started p → is_done r.
Proof.
  intros Hs He Hx Hp Hst. pose proof (ex_count _ Hs x p Hp) as Hc. assert (¬ p.(finished_dependencies) < p.(rtotal)) as Hn.
  { intros Hlt. by apply Hst, (ex_waiting _ Hs x p Hp). }
  assert (occurrences x (concat (remaining <$> s.(revents))) = 0) as Hz by lia. apply count_occ_not_In in Hz.
  unfold is_done. destruct r.(status) eqn:E; try done; exfalso; apply Hz, list_elem_of_In, (elem_of_concat_fmap _ _ e r); try done; unfold remaining; by rewrite E.
Qed.

Lemma done_started r : is_done r → started r.
Proof. unfold is_done, started. by destruct r.(status). Qed.

(** ** Steps keep the invariant *)

Lemma length_filter_insert {A} (f : A → bool) (l : list A) i x y :
  l !! i = Some x → length (base.filter f (<[i := y]> l)) + (if f x then 1 else 0) = length (base.filter f l) + (if f y then 1 else 0).
Proof.
  revert i. induction l as [|h l IH]; intros i; [done|]. destruct i as [|i]; simpl; rewrite !filter_cons.
  - intros [= ->]. destruct (f x), (f y); simpl; lia.
  - intros Hi. specialize (IH i Hi). destruct (f h); simpl; lia.
Qed.

Lemma not_completed r : r.(status) ≠ Finished → completed r = false.
Proof. intros Hr. unfold completed. rewrite bool_decide_false by done. apply andb_false_r. Qed.

Lemma update_lookup {A} (l : list A) e r r' x p :
  l !! e = Some r → <[e := r']> l !! x = Some p → (x = e ∧ p = r') ∨ (x ≠ e ∧ l !! x = Some p).
Proof.
  intros He. destruct (decide (x = e)) as [->|Hne]; [rewrite list_lookup_insert_eq by (by eapply lookup_lt_Some); intros [= <-]; auto|].
  rewrite list_lookup_insert_ne by done. auto.
Qed.

(** A change of the status of one event that tells no event. *)
Lemma update_status s e r st n :
  exec_ok s → s.(revents) !! e = Some r → r.(status) ≠ Waiting → st ≠ Waiting → remaining (set_status st r) = remaining r →
  (is_done (set_status st r) → r.(to_insert) = 0) →
  n + (if completed r then 1 else 0) = s.(completed_pipelines) + (if completed (set_status st r) then 1 else 0) →
  exec_ok (mkExec (<[e := set_status st r]> s.(revents)) n).
Proof.
  intros Hs He Hr Hst Hrem Hins Hn. destruct Hs as [S1 S2 S3 S4 (R & S5) S6]. pose proof (lookup_lt_Some _ _ _ He) as Hlt.
  assert (∀ x, occurrences x (concat (remaining <$> <[e := set_status st r]> s.(revents))) = occurrences x (concat (remaining <$> s.(revents)))) as Hocc.
  { intros x. pose proof (concat_update remaining s.(revents) e r (set_status st r) x He) as U. rewrite Hrem in U. lia. }
  split; simpl.
  - intros x p Hx. rewrite Hocc. destruct (update_lookup _ _ _ _ x p He Hx) as [[-> ->]|[_ Hx']]; [by apply (S1 e r)|by apply S1].
  - intros x p Hx. destruct (update_lookup _ _ _ _ x p He Hx) as [[-> ->]|[_ Hx']]; [|exact (S2 x p Hx')]. simpl.
    split; [done|]. intros Hf. by apply (S2 e r He) in Hf.
  - intros x p Hx. destruct (update_lookup _ _ _ _ x p He Hx) as [[-> ->]|[_ Hx']]; [done|exact (S3 x p Hx')].
  - intros x p y Hx. destruct (update_lookup _ _ _ _ x p He Hx) as [[-> ->]|[_ Hx']]; [rewrite Hrem; by apply (S4 e)|by apply (S4 x)].
  - exists R. intros x p y Hx. rewrite length_insert. destruct (update_lookup _ _ _ _ x p He Hx) as [[-> ->]|[_ Hx']]; [exact (S5 e r y He)|exact (S5 x p y Hx')].
  - pose proof (length_filter_insert completed s.(revents) e r (set_status st r) He) as U. lia.
Qed.

Lemma step_finish_ok s e r :
  exec_ok s → s.(revents) !! e = Some r → r.(status) = Scheduled → r.(to_insert) = 0 →
  exec_ok (mkExec (<[e := set_status (Finishing r.(rparents)) r]> s.(revents)) s.(completed_pipelines)).
Proof.
  intros Hs He Hst Hins. apply update_status; try done; [congruence|unfold remaining; by rewrite Hst|].
  by rewrite !not_completed by (simpl; congruence).
Qed.

Lemma step_finalize_ok s e r :
  exec_ok s → s.(revents) !! e = Some r → r.(status) = Finishing [] →
  exec_ok (mkExec (<[e := set_status Finished r]> s.(revents)) ((if is_complete r.(rkind) then 1 else 0) + s.(completed_pipelines))).
Proof.
  intros Hs He Hst. apply update_status; try done; [congruence|unfold remaining; by rewrite Hst| |].
  - intros _. apply (ex_inserted _ Hs e r He). unfold is_done. by rewrite Hst.
  - rewrite (not_completed r) by congruence. unfold completed. simpl. destruct (is_complete r.(rkind)); simpl; lia.
Qed.

(** The event that is told waits. *)
Lemma step_notify_waiting s e r x left p :
  exec_ok s → s.(revents) !! e = Some r → r.(status) = Finishing (x :: left) → <[e := set_status (Finishing left) r]> s.(revents) !! x = Some p →
  p.(status) = Waiting.
Proof.
  intros Hs He Hst Hx. pose proof Hs as [S1 S2 _ S4 (R & S5) _]. assert (x ∈ remaining r) as Hrem by (unfold remaining; rewrite Hst; by left).
  destruct (S5 e r x He (S4 e r x He Hrem)) as [Hlt HR]. destruct (update_lookup _ e r _ x p He Hx) as [[-> _]|[_ Hxp]]; [lia|].
  apply (S2 x p Hxp). pose proof (S1 x p Hxp) as Hc. assert (0 < occurrences x (concat (remaining <$> s.(revents)))); [|lia].
  apply (count_occ_In Nat.eq_dec), list_elem_of_In. exact (elem_of_concat_fmap remaining _ e r x He Hrem).
Qed.

(** One event less is to be told. *)
Lemma step_notify_occurrences s e r x left p y :
  exec_ok s → s.(revents) !! e = Some r → r.(status) = Finishing (x :: left) → <[e := set_status (Finishing left) r]> s.(revents) !! x = Some p →
  occurrences y (concat (remaining <$> <[x := CompleteDependency p]> (<[e := set_status (Finishing left) r]> s.(revents)))) + (if decide (y = x) then 1 else 0) =
    occurrences y (concat (remaining <$> s.(revents))).
Proof.
  intros Hs He Hst Hx. pose proof (step_notify_waiting s e r x left p Hs He Hst Hx) as Hwt. set (r' := set_status (Finishing left) r) in *.
  pose proof (concat_update remaining s.(revents) e r r' y He) as U1.
  pose proof (concat_update remaining (<[e := r']> s.(revents)) x p (CompleteDependency p) y Hx) as U2.
  assert (remaining (CompleteDependency p) = remaining p) as E2 by (unfold remaining, CompleteDependency; simpl; rewrite Hwt; by case_decide).
  rewrite E2 in U2. unfold remaining at 2 4 in U1. rewrite Hst in U1. simpl in U1. destruct (Nat.eq_dec x y); case_decide; try congruence; lia.
Qed.

Lemma step_notify_ok s e r x left p :
  exec_ok s → s.(revents) !! e = Some r → r.(status) = Finishing (x :: left) → <[e := set_status (Finishing left) r]> s.(revents) !! x = Some p →
  exec_ok (mkExec (<[x := CompleteDependency p]> (<[e := set_status (Finishing left) r]> s.(revents))) s.(completed_pipelines)).
Proof.
  intros Hs He Hst Hx. pose proof Hs as [S1 S2 S3 S4 (R & S5) S6]. set (r' := set_status (Finishing left) r) in *.
  assert (x ∈ remaining r) as Hrem by (unfold remaining; rewrite Hst; by left).
  destruct (S5 e r x He (S4 e r x He Hrem)) as [Hlt HR]. assert (x ≠ e) as Hne by (intros ->; lia).
  destruct (update_lookup _ e r r' x p He Hx) as [[? _]|[_ Hxp]]; [done|].
  pose proof (step_notify_waiting s e r x left p Hs He Hst Hx) as Hwt. pose proof (proj1 (S2 x p Hxp) Hwt) as Hfin.
  pose proof (λ y, step_notify_occurrences s e r x left p y Hs He Hst Hx) as Hocc. fold r' in Hocc.
  assert (∀ y q, <[x := CompleteDependency p]> (<[e := r']> s.(revents)) !! y = Some q →
    (y = x ∧ q = CompleteDependency p) ∨ (y ≠ x ∧ y = e ∧ q = r') ∨ (y ≠ x ∧ y ≠ e ∧ s.(revents) !! y = Some q)) as Hget.
  { intros y q Hy. destruct (decide (y = x)) as [->|Hyx]; [rewrite list_lookup_insert_eq in Hy by (by rewrite length_insert); left; split; congruence|].
    rewrite list_lookup_insert_ne in Hy by done. right. destruct (update_lookup _ e r r' y q He Hy) as [[? ?]|[? ?]]; auto. }
  split; simpl.
  - intros y q Hy. pose proof (Hocc y) as Ho. destruct (Hget y q Hy) as [[-> ->]|[(? & -> & ->)|(? & ? & Hq)]].
    + rewrite decide_True in Ho by done. simpl. pose proof (S1 x p Hxp). lia.
    + rewrite decide_False in Ho by done. simpl. pose proof (S1 e r He). lia.
    + rewrite decide_False in Ho by done. pose proof (S1 y q Hq). lia.
  - intros y q Hy. destruct (Hget y q Hy) as [[-> ->]|[(? & -> & ->)|(? & ? & Hq)]]; [|simpl|exact (S2 y q Hq)].
    + simpl. case_decide; [split; [done|lia]|]. rewrite Hwt. split; [lia|done].
    + split; [done|]. intros Hf. apply (S2 e r He) in Hf. congruence.
  - intros y q Hy. destruct (Hget y q Hy) as [[-> ->]|[(? & -> & ->)|(? & ? & Hq)]]; [|intros _; simpl; apply (S3 e r He); unfold is_done; by rewrite Hst|exact (S3 y q Hq)].
    unfold is_done. simpl. rewrite Hwt. by case_decide.
  - intros y q z Hy. destruct (Hget y q Hy) as [[-> ->]|[(? & -> & ->)|(? & ? & Hq)]]; [| |exact (S4 y q z Hq)].
    + unfold remaining. simpl. rewrite Hwt. by case_decide.
    + intros Hz. apply (S4 e r z He). unfold remaining. rewrite Hst. by right.
  - exists R. intros y q z Hy. rewrite !length_insert. destruct (Hget y q Hy) as [[-> ->]|[(? & -> & ->)|(? & ? & Hq)]]; [exact (S5 x p z Hxp)|exact (S5 e r z He)|exact (S5 y q z Hq)].
  - pose proof (length_filter_insert completed s.(revents) e r r' He) as U1.
    pose proof (length_filter_insert completed (<[e := r']> s.(revents)) x p (CompleteDependency p) Hx) as U2.
    rewrite !not_completed in U1 by (simpl; congruence). rewrite !not_completed in U2 by (simpl; try case_decide; congruence). lia.
Qed.

(** The events after [InsertEvent]. *)
Lemma insert_lookup_cases s e r x p :
  s.(revents) !! e = Some r → (InsertEvent e r s).(revents) !! x = Some p →
  (x = e ∧ p = mkRunning r.(rkind) r.(rtotal) [length s.(revents)] r.(finished_dependencies) r.(status) 0) ∨
  (x = length s.(revents) ∧ p = mkRunning (InsertedEvent (pipe_of r.(rkind))) 1 r.(rparents) 0 Waiting (pred r.(to_insert))) ∨
  (x ≠ e ∧ x < length s.(revents) ∧ s.(revents) !! x = Some p).
Proof.
  intros He [Hx|[Hge Hx]]%lookup_app_Some.
  - destruct (update_lookup _ e r _ x p He Hx) as [[-> ->]|[? ?]]; [by left|right; right]. split_and!; [done|by eapply lookup_lt_Some|done].
  - rewrite length_insert in Hge, Hx. apply list_lookup_singleton_Some in Hx as [? <-]. right; left. split; [lia|done].
Qed.

Lemma remaining_lt s x : exec_ok s → length s.(revents) ≤ x → occurrences x (concat (remaining <$> s.(revents))) = 0.
Proof.
  intros [_ _ _ S4 (R & S5) _] Hx. apply count_occ_not_In. intros (l & Hl & Hin)%in_concat.
  apply list_elem_of_In, list_elem_of_fmap in Hl as (q & -> & (i & Hi)%list_elem_of_lookup).
  destruct (S5 i q x Hi) as [? _]; [|lia]. apply (S4 i q x Hi). by apply list_elem_of_In.
Qed.

Lemma insert_occurrences s e r x :
  exec_ok s → s.(revents) !! e = Some r → r.(status) = Scheduled →
  occurrences x (concat (remaining <$> (InsertEvent e r s).(revents))) =
    occurrences x (concat (remaining <$> s.(revents))) + (if decide (x = length s.(revents)) then 1 else 0).
Proof.
  intros Hs He Hst. simpl. rewrite fmap_app, concat_app, count_occ_app. simpl. rewrite app_nil_r. unfold remaining at 2. simpl.
  pose proof (concat_update remaining s.(revents) e r (mkRunning r.(rkind) r.(rtotal) [length s.(revents)] r.(finished_dependencies) r.(status) 0) x He) as U.
  unfold remaining at 2 4 in U. simpl in U. rewrite Hst in *. simpl in U. destruct (Nat.eq_dec (length s.(revents)) x); case_decide; try congruence; lia.
Qed.

Lemma step_insert_ok s e r :
  exec_ok s → s.(revents) !! e = Some r → r.(status) = Scheduled → exec_ok (InsertEvent e r s).
Proof.
  intros Hs He Hst. pose proof Hs as [S1 S2 S3 S4 (R & S5) S6]. pose proof (lookup_lt_Some _ _ _ He) as Hlt. split.
  - intros x p Hx. rewrite insert_occurrences by done. destruct (insert_lookup_cases s e r x p He Hx) as [[-> ->]|[[-> ->]|(? & ? & Hp)]]; simpl.
    + rewrite decide_False by lia. pose proof (S1 e r He). lia.
    + rewrite decide_True, remaining_lt by done. done.
    + rewrite decide_False by lia. pose proof (S1 x p Hp). lia.
  - intros x p Hx. destruct (insert_lookup_cases s e r x p He Hx) as [[-> ->]|[[-> ->]|(? & ? & Hp)]]; simpl; [exact (S2 e r He)| |exact (S2 x p Hp)].
    split; [lia|done].
  - intros x p Hx. destruct (insert_lookup_cases s e r x p He Hx) as [[-> ->]|[[-> ->]|(? & ? & Hp)]]; [done|by intros []|exact (S3 x p Hp)].
  - intros x p y Hx. destruct (insert_lookup_cases s e r x p He Hx) as [[-> ->]|[[-> ->]|(? & ? & Hp)]]; [|done|exact (S4 x p y Hp)].
    unfold remaining. simpl. by rewrite Hst.
  - exists (λ x, if decide (x = length s.(revents)) then S (2 * R e) else 2 * R x). intros x p y Hx Hy.
    assert (length (InsertEvent e r s).(revents) = S (length s.(revents))) as -> by (simpl; rewrite length_app, length_insert; simpl; lia).
    destruct (insert_lookup_cases s e r x p He Hx) as [[-> ->]|[[-> ->]|(? & ? & Hp)]]; simpl in Hy.
    + apply list_elem_of_singleton in Hy as ->. rewrite decide_False, decide_True by lia. lia.
    + destruct (S5 e r y He Hy). rewrite decide_True, decide_False by lia. lia.
    + destruct (S5 x p y Hp Hy). rewrite !decide_False by lia. lia.
  - simpl. rewrite filter_app, length_app, S6. simpl.
    pose proof (length_filter_insert completed s.(revents) e r (mkRunning r.(rkind) r.(rtotal) [length s.(revents)] r.(finished_dependencies) r.(status) 0) He) as U.
    rewrite !not_completed in U by (simpl; congruence). simpl. lia.
Qed.

Lemma run_step_ok s s' : exec_ok s → step s s' → exec_ok s'.
Proof.
  intros Hs Hstep. destruct Hstep; [by apply step_insert_ok|by apply step_finish_ok|by apply step_notify_ok|by apply step_finalize_ok].
Qed.

(** ** The start *)

Lemma start_remaining inserted d : remaining <$> (start inserted d).(revents) = eparents <$> d.(events).
Proof. simpl. rewrite <- list_fmap_compose. apply list_fmap_ext. intros i ev _. unfold remaining. simpl. by case_decide. Qed.

Lemma start_ok_exec w top b inserted d : data_ok w top b d → exec_ok (start inserted d).
Proof.
  intros [Dr Dc _]. assert (∀ x r, (start inserted d).(revents) !! x = Some r → ∃ ev, d.(events) !! x = Some ev ∧ r = start_event inserted ev) as Hget.
  { intros x r. simpl. rewrite list_lookup_fmap. intros (ev & Hev & ->)%fmap_Some. eauto. }
  split.
  - intros x r Hx. rewrite start_remaining. destruct (Hget x r Hx) as (ev & Hev & ->). simpl. symmetry. by apply Dc.
  - intros x r Hx. destruct (Hget x r Hx) as (ev & Hev & ->). simpl. case_decide; split; (done || lia).
  - intros x r Hx. destruct (Hget x r Hx) as (ev & Hev & ->). unfold is_done. simpl. by case_decide.
  - intros x r y Hx. destruct (Hget x r Hx) as (ev & Hev & ->). unfold remaining. simpl. by case_decide.
  - exists (λ x, from_option (event_rank w top b) 0 (kinds d !! x)). intros x r y Hx Hy. destruct (Hget x r Hx) as (ev & Hev & ->).
    destruct (Dr x y) as (k & k' & Hk & Hk' & Hlt); [by exists ev|]. rewrite Hk, Hk'. simpl. split; [|done].
    apply lookup_lt_Some in Hk'. unfold kinds in Hk'. rewrite length_fmap in Hk'. by rewrite length_fmap.
  - simpl. clear. induction d.(events) as [|ev l IH]; [done|]. rewrite fmap_cons, filter_cons_False; [done|].
    rewrite not_completed; [auto|]. simpl. by case_decide.
Qed.

(** ** What comes before what *)

(** Event [z] was inserted after event [y]. *)
Definition link (s : exec) (y z : nat) : Prop :=
  ∃ r q, s.(revents) !! y = Some r ∧ r.(rparents) = [z] ∧ r.(to_insert) = 0 ∧ s.(revents) !! z = Some q ∧ q.(rkind) = InsertedEvent (pipe_of r.(rkind)).

(** The events [d] the query started with: each is there, and those that waited
    for it wait for the last of the events inserted after it. *)
Record follows (inserted : EventKind → nat) (d : ScheduleEventData) (s : exec) : Prop := {
  fo_kind : ∀ e ev, d.(events) !! e = Some ev → ∃ r, s.(revents) !! e = Some r ∧ r.(rkind) = ev.(ekind);
  fo_edge : ∀ y ev x, d.(events) !! y = Some ev → x ∈ ev.(eparents) →
    ∃ h k q, nsteps (link s) k y h ∧ s.(revents) !! h = Some q ∧ x ∈ q.(rparents) ∧ k + q.(to_insert) = inserted ev.(ekind)
}.

Lemma start_follows inserted d : follows inserted d (start inserted d).
Proof.
  split; simpl.
  - intros e ev He. exists (start_event inserted ev). by rewrite list_lookup_fmap, He.
  - intros y ev x Hy Hx. exists y, 0, (start_event inserted ev). split_and!; [constructor|by rewrite list_lookup_fmap, Hy|done|done].
Qed.

(** Steps that leave kinds, parents and insertions as they are. *)
Definition same_shape (s s' : exec) : Prop :=
  ∀ e r, s.(revents) !! e = Some r → ∃ r', s'.(revents) !! e = Some r' ∧ r'.(rkind) = r.(rkind) ∧ r'.(rparents) = r.(rparents) ∧ r'.(to_insert) = r.(to_insert).

Lemma link_shape s s' y z : same_shape s s' → link s y z → link s' y z.
Proof.
  intros Hf (r & q & Hr & Hp & Hi & Hq & Hk). destruct (Hf y r Hr) as (r' & Hr' & Rk & Rp & Ri). destruct (Hf z q Hq) as (q' & Hq' & Qk & _ & _).
  exists r', q'. split_and!; congruence.
Qed.

Lemma nsteps_impl {A} (R R' : A → A → Prop) n x y : (∀ x y, R x y → R' x y) → nsteps R n x y → nsteps R' n x y.
Proof. intros HR. induction 1 as [|n x y z Hxy _ IH]; econstructor; eauto. Qed.

Lemma follows_shape inserted d s s' : same_shape s s' → follows inserted d s → follows inserted d s'.
Proof.
  intros Hf [Fk Fe]. split.
  - intros e ev He. destruct (Fk e ev He) as (r & Hr & Hk). destruct (Hf e r Hr) as (r' & Hr' & Hk' & _). exists r'. split; [done|congruence].
  - intros y ev x Hy Hx. destruct (Fe y ev x Hy Hx) as (h & k & q & Hn & Hq & Hxq & Hk). destruct (Hf h q Hq) as (q' & Hq' & _ & Qp & Qi).
    exists h, k, q'. rewrite Qp, Qi. split_and!; try done. eapply nsteps_impl; [|done]. intros ? ?. by apply link_shape.
Qed.

Lemma update_shape s e r r' n :
  s.(revents) !! e = Some r → r'.(rkind) = r.(rkind) → r'.(rparents) = r.(rparents) → r'.(to_insert) = r.(to_insert) → same_shape s (mkExec (<[e := r']> s.(revents)) n).
Proof.
  intros He Hk Hp Hi x p Hx. simpl. destruct (decide (x = e)) as [->|Hne].
  - rewrite list_lookup_insert_eq by (by eapply lookup_lt_Some). simplify_eq. eauto.
  - rewrite list_lookup_insert_ne by done. eauto.
Qed.

Lemma insert_follows inserted d s e r :
  s.(revents) !! e = Some r → 0 < r.(to_insert) → follows inserted d s → follows inserted d (InsertEvent e r s).
Proof.
  intros He Hi [Fk Fe]. pose proof (lookup_lt_Some _ _ _ He) as Hlt. set (s' := InsertEvent e r s).
  set (r' := mkRunning r.(rkind) r.(rtotal) [length s.(revents)] r.(finished_dependencies) r.(status) 0).
  set (new := mkRunning (InsertedEvent (pipe_of r.(rkind))) 1 r.(rparents) 0 Waiting (pred r.(to_insert))).
  assert (s'.(revents) !! e = Some r') as He'.
  { simpl. rewrite lookup_app_l by (by rewrite length_insert). by apply list_lookup_insert_eq. }
  assert (s'.(revents) !! length s.(revents) = Some new) as Hnew.
  { simpl. apply list_lookup_middle. by rewrite length_insert. }
  assert (∀ x p, x ≠ e → s.(revents) !! x = Some p → s'.(revents) !! x = Some p) as Hother.
  { intros x p Hne Hx. simpl. rewrite lookup_app_l by (rewrite length_insert; by eapply lookup_lt_Some). by rewrite list_lookup_insert_ne. }
  assert (∀ x p, s.(revents) !! x = Some p → ∃ p', s'.(revents) !! x = Some p' ∧ p'.(rkind) = p.(rkind)) as Hkind.
  { intros x p Hx. destruct (decide (x = e)) as [->|Hne]; [exists r'; by simplify_eq|exists p; auto]. }
  assert (∀ x y, link s x y → link s' x y) as Hlink.
  { intros x y (p & q & Hp & Hpp & Hpi & Hq & Hk). assert (x ≠ e) as Hne by (intros ->; simplify_eq; lia).
    destruct (Hkind y q Hq) as (q' & Hq' & Hk'). exists p, q'. split_and!; auto. congruence. }
  split.
  - intros x ev Hx. destruct (Fk x ev Hx) as (p & Hp & Hk). destruct (Hkind x p Hp) as (p' & Hp' & Hk'). exists p'. split; [done|congruence].
  - intros y ev x Hy Hx. destruct (Fe y ev x Hy Hx) as (h & k & q & Hn & Hq & Hxq & Hk). apply (nsteps_impl _ _ _ _ _ Hlink) in Hn.
    destruct (decide (h = e)) as [->|Hne]; [simplify_eq|exists h, k, q; split_and!; auto].
    exists (length s.(revents)), (S k), new. split_and!; [|done|done|simpl; lia].
    eapply nsteps_r; [exact Hn|]. exists r', new. by split_and!.
Qed.

Lemma step_follows inserted d s s' : step s s' → follows inserted d s → follows inserted d s'.
Proof.
  destruct 1 as [s e r He Hst Hi|s e r He Hst Hi|s e r x left p He Hst Hx|s e r He Hst]; [by apply insert_follows|..]; apply follows_shape; try by apply (update_shape s e r).
  intros y q Hy. destruct (update_shape s e r (set_status (Finishing left) r) s.(completed_pipelines) He eq_refl eq_refl eq_refl y q Hy) as (q1 & Hq1 & K1 & P1 & I1).
  destruct (update_shape (mkExec (<[e := set_status (Finishing left) r]> s.(revents)) s.(completed_pipelines)) x p (CompleteDependency p) s.(completed_pipelines) Hx eq_refl eq_refl eq_refl y q1 Hq1)
    as (q2 & Hq2 & K2 & P2 & I2). exists q2. split_and!; [done|congruence..].
Qed.

Lemma link_done s y z r q :
  exec_ok s → link s y z → s.(revents) !! y = Some r → s.(revents) !! z = Some q → started q → is_done r.
Proof.
  intros Hs (r' & q' & Hr' & Hp & _ & Hq' & _) Hr Hq Hst. simplify_eq. eapply (started_done s y _ z); try done. rewrite Hp. by left.
Qed.

Lemma chain_done s k y h q :
  exec_ok s → nsteps (link s) k y h → s.(revents) !! h = Some q → is_done q → ∃ r, s.(revents) !! y = Some r ∧ is_done r.
Proof.
  intros Hs Hn Hq Hd. induction Hn as [|k x y z Hxy _ IH]; [by exists q|]. destruct (IH Hq) as (r & Hr & Hrd).
  pose proof Hxy as (p & _ & Hp & _). exists p. split; [done|]. eapply link_done; try done. by apply done_started.
Qed.

(** When an event has started, the events it waited for are done, with the
    events inserted after them. *)
Lemma precedes inserted d s y ev x p :
  exec_ok s → follows inserted d s → d.(events) !! y = Some ev → x ∈ ev.(eparents) → s.(revents) !! x = Some p → started p →
  ∃ r h q, s.(revents) !! y = Some r ∧ r.(rkind) = ev.(ekind) ∧ is_done r ∧
    nsteps (link s) (inserted ev.(ekind)) y h ∧ s.(revents) !! h = Some q ∧ is_done q.
Proof.
  intros Hs [Fk Fe] Hy Hx Hp Hst. destruct (Fe y ev x Hy Hx) as (h & k & q & Hn & Hq & Hxq & Hk).
  assert (is_done q) as Hqd by (by eapply started_done). pose proof (ex_inserted _ Hs h q Hq Hqd) as Hz. rewrite Hz, Nat.add_0_r in Hk. subst k.
  destruct (chain_done s _ y h q Hs Hn Hq Hqd) as (r & Hr & Hrd). destruct (Fk y ev Hy) as (r' & Hr' & Hk). simplify_eq. by exists r, h, q.
Qed.

(** The events that complete pipelines stay the same. *)
Definition complete_events (s : exec) : nat := length (base.filter (λ r, is_complete r.(rkind)) s.(revents)).

Lemma step_complete_events s s' : step s s' → complete_events s' = complete_events s.
Proof.
  unfold complete_events. destruct 1 as [s e r He Hst Hi|s e r He Hst Hi|s e r x left p He Hst Hx|s e r He Hst]; simpl.
  - rewrite filter_app, length_app. simpl. set (r' := mkRunning _ _ [_] _ _ _).
    pose proof (length_filter_insert (λ r, is_complete r.(rkind)) s.(revents) e r r' He) as U. simpl in U. lia.
  - pose proof (length_filter_insert (λ r, is_complete r.(rkind)) s.(revents) e r (set_status (Finishing r.(rparents)) r) He) as U. simpl in U. lia.
  - set (r' := set_status (Finishing left) r) in *. pose proof (length_filter_insert (λ r, is_complete r.(rkind)) s.(revents) e r r' He) as U1.
    pose proof (length_filter_insert (λ r, is_complete r.(rkind)) (<[e := r']> s.(revents)) x p (CompleteDependency p) Hx) as U2. simpl in U1, U2. lia.
  - pose proof (length_filter_insert (λ r, is_complete r.(rkind)) s.(revents) e r (set_status Finished r) He) as U. simpl in U. lia.
Qed.

(** When all are completed, all are finished. *)
Lemma complete_finished s :
  exec_ok s → s.(completed_pipelines) = complete_events s → ∀ e r, s.(revents) !! e = Some r → is_complete r.(rkind) = true → r.(status) = Finished.
Proof.
  intros Hs Hall e r He Hc. rewrite (ex_completed _ Hs) in Hall. unfold complete_events in Hall.
  destruct (decide (r.(status) = Finished)) as [|Hne]; [done|exfalso].
  assert (length (base.filter completed s.(revents)) < length (base.filter (λ r, is_complete r.(rkind)) s.(revents))); [|lia].
  eapply length_filter_lt; [|by eapply list_elem_of_lookup_2| |].
  - intros x Hx. unfold completed in Hx. by apply andb_prop_elim in Hx as [? _].
  - simpl. by rewrite Hc.
  - rewrite (not_completed r Hne). by intros [].
Qed.

(** ** Rows are filtered by filled filters *)

(** The event that fills the filters of creator [c] is done. *)
Definition filter_ready (b : build) (s : exec) (c : nat) : Prop :=
  ∃ j p f h r q, b.(pipes) !! j = Some p ∧ p.(sink) = Some c ∧ s.(revents) !! f = Some r ∧ r.(rkind) = PipelineFinishEvent j ∧ is_done r ∧
    link s f h ∧ s.(revents) !! h = Some q ∧ is_done q.

Section Safety.
  Context `{PhysicalOps, SinkEvents} (ops : list PhysicalOperator) (w : nat → nat) (top : nat) (b : build) (Hw : wf w top b).
  Context (d : ScheduleEventData) (Hd : event_graph w top b d) (s : exec) (Hs : exec_ok s) (Hf : follows (inserted_after ops b) d s).

(** The event of pipeline [i] has started. *)
Definition pipeline_started (i : nat) : Prop := ∃ si r, d.(event_map) !! i = Some si ∧ s.(revents) !! si.(pipeline_event) = Some r ∧ started r.

Lemma inner_started i k : rtc (inner b) i k → pipeline_started i → pipeline_started k.
Proof.
  induction 1 as [|i j k (m & mp & l & Hm & Hl & Hj) _ IH]; [done|]. intros (si & r & Hsi & Hr & Hst). apply IH.
  destruct (eg_inner _ _ _ _ Hd i) with m mp l j as (si' & sj & Hsi' & Hsj & (ev & Hev & Hin)); try done; [by apply (eg_map _ _ _ _ Hd)|]. simplify_eq.
  destruct (precedes _ d s _ ev _ r Hs Hf Hev Hin Hr Hst) as (q & _ & _ & Hq & _ & Hqd & _). exists sj, q. split_and!; try done. by apply done_started.
Qed.

(** When the completion of pipeline [j] has started, the filters of its sink are filled. *)
Lemma complete_ready j sj q c p fs r :
  d.(event_map) !! j = Some sj → s.(revents) !! sj.(pipeline_complete_event) = Some r → started r →
  b.(pipes) !! j = Some q → q.(sink) = Some c → ops !! c = Some p → p.(pkind) = PCreateBF fs → filter_ready b s c.
Proof.
  intros Hsj Hr Hst Hq Hc Hp Hk.
  pose proof (do_stack _ _ _ _ (eg_ok _ _ _ _ Hd) j sj Hsj) as [(m & mp & base & Hm & Hjm & Hbase & _ & Hfin & _) _ _ (ef & Hef & Hine)].
  destruct (precedes _ d s _ ef _ r Hs Hf Hef Hine Hr Hst) as (rf & h & qh & Hrf & Hkf & Hfd & Hn & Hqh & Hqd).
  unfold kinds in Hfin. rewrite list_lookup_fmap, Hef in Hfin. simpl in Hfin. injection Hfin as Hfin.
  destruct (wf_sinks _ _ _ Hw m mp j Hm Hjm) as (q' & Hq' & Hs1). destruct (wf_sinks _ _ _ Hw m mp base Hm) as (qb & Hqb & Hs2); [by eapply list_elem_of_lookup_2|].
  simplify_eq. assert (qb.(sink) = Some c) as Hsb by congruence. exists base, qb, sj.(pipeline_finish_event), h, rf, qh. split_and!; try done; [congruence|].
  assert (inserted_after ops b ef.(ekind) = 1) as E.
  { rewrite Hfin. simpl. rewrite Hqb. simpl. rewrite Hsb. simpl. by rewrite Hp, Hk. }
  rewrite E in Hn. by apply nsteps_once_inv.
Qed.

Lemma outer_started k j :
  pipeline_started k → outer b k j → ∃ sj r, d.(event_map) !! j = Some sj ∧ s.(revents) !! sj.(pipeline_complete_event) = Some r ∧ started r.
Proof.
  intros (sk & r & Hsk & Hr & Hst) (pk & Hpk & Hj).
  destruct (eg_outer _ _ _ _ Hd k) with pk j as (sk' & sj & Hsk' & Hsj & (ev & Hev & Hin)); try done; [by apply (eg_map _ _ _ _ Hd)|]. simplify_eq.
  destruct (precedes _ d s _ ev _ r Hs Hf Hev Hin Hr Hst) as (rc & _ & _ & Hrc & _ & Hcd & _). exists sj, rc. split_and!; try done. by apply done_started.
Qed.

(** When all pipelines are completed, each completion has started. *)
Lemma completed_started j : below_root b j → s.(completed_pipelines) = complete_events s →
  ∃ sj r, d.(event_map) !! j = Some sj ∧ s.(revents) !! sj.(pipeline_complete_event) = Some r ∧ started r.
Proof.
  intros Hj Hall. apply (eg_map _ _ _ _ Hd) in Hj as [sj Hsj].
  pose proof (do_stack _ _ _ _ (eg_ok _ _ _ _ Hd) j sj Hsj) as [(m & mp & base & _ & _ & _ & _ & _ & Hcomp) _ _ _].
  unfold kinds in Hcomp. rewrite list_lookup_fmap in Hcomp. apply fmap_Some in Hcomp as (ev & Hev & Hk).
  destruct (fo_kind _ _ _ Hf _ ev Hev) as (r & Hr & Hkr). exists sj, r. split_and!; try done. unfold started.
  rewrite (complete_finished s Hs Hall _ r Hr); [done|]. by rewrite Hkr, <- Hk.
Qed.

Lemma use_ready n i p u c q fs related :
  runnable ops w top → served ops b i → n = complete_events s → pipeline_started i ∨ s.(completed_pipelines) = n → b.(pipes) !! i = Some p → u ∈ p.(operators) →
  ops !! u = Some q → q.(pkind) = PUseBF fs related → c ∈ related → filter_ready b s c.
Proof.
  intros Hru Hsv -> Hst Hp Hu Hq Hk Hc. destruct (Hsv p u Hp Hu q fs related c Hq Hk Hc) as (j & qj & k & _ & Hqj & Hsink & Hin & Hout).
  destruct (ru_related _ _ _ Hru u q fs related c Hq Hk Hc) as [_ (pc & fs' & Hpc & Hkc)].
  assert (∃ sj r, d.(event_map) !! j = Some sj ∧ s.(revents) !! sj.(pipeline_complete_event) = Some r ∧ started r) as (sj & r & Hsj & Hr & Hrs).
  { destruct Hst as [Hst|Hall]; [eapply outer_started; [|exact Hout]; by eapply inner_started|].
    apply completed_started; [|done]. destruct Hout as (pk & Hpk & Hj). by eapply outer_below. }
  by eapply complete_ready.
Qed.
End Safety.

Lemma reachable_ok `{SinkEvents} ops w top b d s :
  data_ok w top b d → rtc step (start (inserted_after ops b) d) s → exec_ok s ∧ follows (inserted_after ops b) d s.
Proof.
  intros Hd Hr. eapply (rtc_ind_r (λ s, exec_ok s ∧ follows (inserted_after ops b) d s)); [|intros s1 s2 _ Hst [Ho Hf]|exact Hr].
  - split; [by eapply start_ok_exec|apply start_follows].
  - split; [by eapply run_step_ok|by eapply step_follows].
Qed.

(** ** Queries come to their end *)

Lemma sum_update {A} (f : A → nat) (l : list A) i x y : l !! i = Some x → sum_list_with f (<[i := y]> l) + f x = sum_list_with f l + f y.
Proof.
  revert i. induction l as [|h l IH]; intros i; [done|]. destruct i as [|i]; simpl; [intros [= ->]; lia|]. intros Hi. specialize (IH i Hi). lia.
Qed.

(** What is left to do. *)
Definition event_cost (r : running) : nat :=
  match r.(status) with Waiting => 3 | Scheduled => 2 | Finishing _ => 1 | Finished => 0 end + length (remaining r) + 10 * r.(to_insert).

Definition cost (s : exec) : nat := sum_list_with event_cost s.(revents).

Lemma step_cost s s' : exec_ok s → step s s' → cost s' < cost s.
Proof.
  intros Hs Hstep. unfold cost. destruct Hstep as [s e r He Hst Hi|s e r He Hst Hi|s e r x left p He Hst Hx|s e r He Hst]; simpl.
  - rewrite sum_list_with_app. cbn [sum_list_with]. set (r' := mkRunning _ _ [_] _ _ _). pose proof (sum_update event_cost s.(revents) e r r' He) as U.
    assert (event_cost r' = 3) as E1 by (unfold event_cost, remaining; simpl; by rewrite Hst).
    assert (event_cost r = 2 + length r.(rparents) + 10 * r.(to_insert)) as E2 by (unfold event_cost, remaining; by rewrite Hst).
    set (new := mkRunning (InsertedEvent _) _ _ _ _ _). assert (event_cost new = 3 + length r.(rparents) + 10 * pred r.(to_insert)) as E3 by done.
    rewrite E1, E2 in U. rewrite E3. lia.
  - pose proof (sum_update event_cost s.(revents) e r (set_status (Finishing r.(rparents)) r) He) as U.
    unfold event_cost at 2 4, remaining in U. simpl in U. rewrite Hst in U. lia.
  - set (r' := set_status (Finishing left) r) in *. pose proof (sum_update event_cost s.(revents) e r r' He) as U1.
    pose proof (sum_update event_cost (<[e := r']> s.(revents)) x p (CompleteDependency p) Hx) as U2.
    unfold event_cost at 2 4, remaining in U1. simpl in U1. rewrite Hst in U1. simpl in U1.
    assert (event_cost (CompleteDependency p) ≤ event_cost p) as Hle; [|lia].
    pose proof (step_notify_waiting s e r x left p Hs He Hst Hx) as Hwt. unfold event_cost, remaining. simpl. rewrite Hwt. case_decide; lia.
  - pose proof (sum_update event_cost s.(revents) e r (set_status Finished r) He) as U.
    unfold event_cost at 2 4, remaining in U. simpl in U. rewrite Hst in U. simpl in U. lia.
Qed.

Lemma steps_cost s s' n : exec_ok s → nsteps step n s s' → n ≤ cost s.
Proof.
  intros Hs Hn. revert Hs. induction Hn as [|n s1 s2 s3 Hst _ IH]; intros Hs; [lia|]. pose proof (step_cost s1 s2 Hs Hst).
  specialize (IH (run_step_ok s1 s2 Hs Hst)). lia.
Qed.

(** Some event runs when one waits. *)
Lemma waiting_runs s x r :
  exec_ok s → s.(revents) !! x = Some r → r.(status) = Waiting →
  ∃ e q, s.(revents) !! e = Some q ∧ q.(status) ≠ Waiting ∧ q.(status) ≠ Finished.
Proof.
  intros Hs. pose proof Hs as [S1 S2 _ S4 (R & S5) _]. remember (R x) as n eqn:En. revert x r En.
  induction n as [n IH] using lt_wf_ind. intros x r -> Hx Hwt. pose proof (S1 x r Hx) as Hc. apply (S2 x r Hx) in Hwt.
  assert (In x (concat (remaining <$> s.(revents)))) as (l & Hl & Hin)%in_concat by (apply (count_occ_In Nat.eq_dec); lia).
  apply list_elem_of_In, list_elem_of_fmap in Hl as (q & -> & (e & He)%list_elem_of_lookup). apply list_elem_of_In in Hin.
  destruct (S5 e q x He (S4 e q x He Hin)) as [_ HR]. destruct q.(status) eqn:Eq.
  - exact (IH (R e) HR e q eq_refl He Eq).
  - exists e, q. by rewrite Eq.
  - exists e, q. by rewrite Eq.
  - unfold remaining in Hin. rewrite Eq in Hin. by apply elem_of_nil in Hin.
Qed.

Lemma progress s x r : exec_ok s → s.(revents) !! x = Some r → r.(status) ≠ Finished → ∃ s', step s s'.
Proof.
  intros Hs Hx Hr. assert (∃ e q, s.(revents) !! e = Some q ∧ q.(status) ≠ Waiting ∧ q.(status) ≠ Finished) as (e & q & He & Hq1 & Hq2).
  { destruct (decide (r.(status) = Waiting)); [by eapply waiting_runs|by exists x, r]. }
  destruct q.(status) as [| |[|y left]|] eqn:Eq; try done.
  - destruct (decide (q.(to_insert) = 0)); eexists; [by eapply step_finish|eapply step_insert; [done|done|lia]].
  - eexists. by eapply step_finalize.
  - pose proof (ex_rank _ Hs) as (R & HR). destruct (HR e q y He) as [Hlt _]; [apply (ex_remaining _ Hs e q y He); unfold remaining; rewrite Eq; by left|].
    destruct (lookup_lt_is_Some_2 (<[e := set_status (Finishing left) q]> s.(revents)) y) as [p Hp]; [by rewrite length_insert|].
    eexists. by eapply step_notify.
Qed.

Lemma start_complete_events inserted d : complete_events (start inserted d) = completes d.
Proof.
  unfold complete_events, completes, kinds, start. simpl. induction d.(events) as [|ev l IH]; [done|]. rewrite !fmap_cons, !filter_cons. simpl.
  destruct (is_complete ev.(ekind)); simpl; lia.
Qed.

Lemma all_completed s : exec_ok s → (∀ e r, s.(revents) !! e = Some r → r.(status) = Finished) → s.(completed_pipelines) = complete_events s.
Proof.
  intros Hs Hall. rewrite (ex_completed _ Hs). unfold complete_events. assert (Forall (λ r, r.(status) = Finished) s.(revents)) as HF by (by apply Forall_lookup).
  clear Hs Hall. induction HF as [|r l Hr _ IH]; [done|].
  assert (completed r = is_complete r.(rkind)) as E by (unfold completed; rewrite Hr; by rewrite andb_true_r).
  rewrite !filter_cons, E. destruct (is_complete r.(rkind)); simpl; lia.
Qed.

(** ** Whole queries *)

Lemma query_starts `{OtherPlansOk} `{PhysicalOps} `{EventMapOrderOk} rank plan root st :
  plannable rank plan → PlanQuery plan = Ret (root, st) → shaped st.(plans) = true →
  ∃ w top d n b, InitializeInternal st.(plans) root no_pipelines = Ret (d, n, b) ∧ runnable st.(plans) w top ∧ wf w top b ∧
    event_graph w top b d ∧ n = completes d ∧ ∀ i, i < length b.(pipes) → served st.(plans) b i.
Proof.
  intros Hpl Hq Hsh. destruct (plan_built rank plan root st Hpl Hq Hsh) as (w & top & b & Hru & E & Hw & Hm & Hall).
  destruct (GetMetaPipelines_ok w top b Hw (S (length b.(metas)))) as (l & El & Hl); [lia|].
  destruct (ScheduleEventsInternal_ok w top b Hw (λ i Hi, proj2 (Hall i Hi)) l Hl) as (d & Ed & Hd).
  exists w, top, d, (length l), b. unfold InitializeInternal. rewrite E. orun. rewrite El. orun. rewrite Ed. orun. split_and!; try done.
  - rewrite (eg_completes _ _ _ _ Hd), Hl. apply length_seq.
  - intros i Hi. by apply Hall.
Qed.

Lemma reachable_complete inserted d s : rtc step (start inserted d) s → complete_events s = completes d.
Proof.
  intros Hs. rewrite <- (start_complete_events inserted d).
  eapply (rtc_ind_r (λ s, complete_events s = complete_events (start inserted d))); [done| |exact Hs]. intros s1 s2 _ Hst <-. by apply step_complete_events.
Qed.

(** When the tasks of a pipeline that filters have been started, by its event
    or, for the pipelines of the root, when all others are completed, its
    filters are filled. *)
Definition filters_filled `{SinkEvents} (ops : list PhysicalOperator) (d : ScheduleEventData) (n : nat) (b : build) : Prop :=
  ∀ s i p u q fs related c, rtc step (start (inserted_after ops b) d) s → pipeline_started d s i ∨ s.(completed_pipelines) = n →
    b.(pipes) !! i = Some p → u ∈ p.(operators) → ops !! u = Some q → q.(pkind) = PUseBF fs related → c ∈ related → filter_ready b s c.

(** Runs are bounded, and end when all events are finished. *)
Definition comes_to_end `{SinkEvents} (ops : list PhysicalOperator) (d : ScheduleEventData) (n : nat) (b : build) : Prop :=
  let s0 := start (inserted_after ops b) d in
  (∀ k s, nsteps step k s0 s → k ≤ cost s0) ∧
  ∀ s, rtc step s0 s → (∀ s', ¬ step s s') → Forall (λ r, r.(status) = Finished) s.(revents) ∧ s.(completed_pipelines) = n.

Lemma query_runs `{OtherPlansOk} `{PhysicalOps} `{EventMapOrderOk} `{SinkEvents} rank plan root st :
  plannable rank plan → PlanQuery plan = Ret (root, st) → shaped st.(plans) = true →
  ∃ d n b, InitializeInternal st.(plans) root no_pipelines = Ret (d, n, b) ∧ filters_filled st.(plans) d n b ∧ comes_to_end st.(plans) d n b.
Proof.
  intros Hpl Hq Hsh. destruct (query_starts rank plan root st Hpl Hq Hsh) as (w & top & d & n & b & E & Hru & Hw & Hd & -> & Hall).
  exists d, (completes d), b. split; [done|]. split.
  - intros s i p u q' fs related c Hs Hst Hp Hu Hq' Hk Hc. destruct (reachable_ok st.(plans) w top b d s (eg_ok _ _ _ _ Hd) Hs) as [Ho Hf].
    eapply (use_ready st.(plans) w top b Hw d Hd s Ho Hf (completes d) i p u c); try done; [apply Hall; by eapply lookup_lt_Some|].
    symmetry. by eapply reachable_complete.
  - split; [intros k s; apply steps_cost; by eapply start_ok_exec, eg_ok|].
    intros s Hs Hstuck. destruct (reachable_ok st.(plans) w top b d s (eg_ok _ _ _ _ Hd) Hs) as [Ho _].
    assert (∀ e r, s.(revents) !! e = Some r → r.(status) = Finished) as Hfin.
    { intros e r He. destruct (decide (r.(status) = Finished)) as [|Hr]; [done|]. destruct (progress s e r Ho He Hr) as [s' Hs']. by destruct (Hstuck s'). }
    split; [by apply Forall_lookup|]. rewrite (all_completed s Ho Hfin). by eapply reachable_complete.
Qed.
