(* ===== verification/TransferAddresses.v ===== *)
(** * TransferAddresses: when the filter operators are made

    The operators the passes make have addresses of their own, and each use of
    a filter is made after the operator that creates it.  So the plan
    [Optimize] returns can be planned and run: no creator of a filter waits
    for itself. *)

From S2P Require Import Prelude BloomFilter LogicalPlan NodesManager Dag DagOrder DagDirections DagBuild TransferOptimizer TransferInsert PlanTree TransferPasses TransferCorrect PhysicalPlan.
Local Open Scope Z_scope.
Local Open Scope machine_scope.

(** ** Operators made in an interval *)

(** Operators with addresses of [lo, hi), each its own, that depend on
    operators made before. *)
Record made_in (lo hi : Z) (ts : list op_info) : Prop := {
  mi_nodup : NoDup (ptr <$> ts);
  mi_range : ∀ t, t ∈ ts → lo ≤ t.(ptr) < hi;
  mi_related : ∀ t a, t ∈ ts → a ∈ t.(related_create_bf) → a < lo
}.

Lemma made_in_nil lo hi : made_in lo hi [].
Proof. split; [constructor|by intros t ?%elem_of_nil|by intros t a ?%elem_of_nil]. Qed.

Lemma made_in_cons lo n t ts :
  made_in lo n ts → lo ≤ n → t.(ptr) = n → (∀ a, a ∈ t.(related_create_bf) → a < lo) → made_in lo (n + 1) (t :: ts).
Proof.
  intros [Hn Hr Ha] Hle Ht Hrel. split.
  - csimpl. constructor; [|done]. intros (x & Hx & Hin)%list_elem_of_fmap. apply Hr in Hin. lia.
  - intros x [->|Hx]%elem_of_cons; [lia|]. apply Hr in Hx. lia.
  - intros x a [->|Hx]%elem_of_cons; [auto|eauto].
Qed.

(** Entries that exist have been made before [n]. *)
Definition made_before (n : Z) (M : rmap) : Prop := ∀ a op, M !! a = Some (Some op) → address op < n.

(** A loop keeps what every iteration that returns keeps. *)
Lemma ofold_post {A S} (P : S → Prop) (f : S → A → outcome S) (l : list A) (s s' : S) :
  ofold f l s = Ret s' → P s → (∀ s a s', P s → f s a = Ret s' → P s') → P s'.
Proof.
  revert s. induction l as [|a l IH]; intros s E Hs Hf; simpl in E; [by simplify_eq|].
  destruct (f s a) as [s1| | |] eqn:E1; try done. eauto.
Qed.

Lemma build_use_made nm M card lo st u st' :
  build_use nm M card st u = Ret st' → made_before lo M → lo ≤ st.2 ∧ made_in lo st.2 (opt_infos st.1) → lo ≤ st'.2 ∧ made_in lo st'.2 (opt_infos st'.1).
Proof.
  intros E HM [Hle Hst]. unfold build_use in E. destruct (getNode nm u.2) as [base|]; [|done]. simpl in E.
  destruct (M !! address base) as [[entry|]|] eqn:Em; [|done|done]. simpl in E. injection E as <-. cbn [fst snd]. split; [lia|].
  assert (opt_infos (Some (LogicalUseBF st.2 card [u.1] (if decide (type entry = LOGICAL_CREATE_BF) then [address entry] else [])
    (match st.1 with Some pre => [pre] | None => [] end))) =
    info (LogicalUseBF st.2 card [u.1] (if decide (type entry = LOGICAL_CREATE_BF) then [address entry] else []) []) :: opt_infos st.1) as ->.
  { destruct st.1; simpl; by rewrite ?app_nil_r. }
  apply made_in_cons; [done|done|done|]. simpl. intros a. case_decide; [|by intros ?%elem_of_nil]. intros ->%list_elem_of_singleton. by eapply HM.
Qed.

Lemma BuildUseOperator_made nm M node us lo r :
  BuildUseOperator nm M node us lo = Ret r → made_before lo M → lo ≤ r.2 ∧ made_in lo r.2 (opt_infos r.1).
Proof.
  intros E HM. apply (ofold_post (λ st, lo ≤ st.2 ∧ made_in lo st.2 (opt_infos st.1)) _ _ _ _ E).
  - split; [simpl; lia|apply made_in_nil].
  - intros st u st' Hst E'. by eapply build_use_made.
Qed.

(** ** Visiting a table *)

(** The maps and the next address after a table: its entry is new, or nothing is. *)
Definition allocated (reverse : bool) (addr : Z) (o o' : PredicateTransferOptimizer) : Prop :=
  o.(next_address) ≤ o'.(next_address) ∧
  (replace_map true o' = replace_map true o ∧ replace_map false o' = replace_map false o ∨
   ∃ op, replace_map reverse o' = <[addr := Some op]> (replace_map reverse o) ∧ replace_map (negb reverse) o' = replace_map (negb reverse) o ∧
     made_in o.(next_address) o'.(next_address) (infos op)).

Lemma CreateBloomFilter_allocated node reverse o r :
  CreateBloomFilter node reverse o = Ret r → made_before o.(next_address) (replace_map reverse o) → allocated reverse (address node) o r.2.
Proof.
  intros E HM. unfold CreateBloomFilter in E. destruct (GetNodeId node) as [cur| | |]; try done. simpl in E.
  destruct (o.(dag_manager).(dag) !! to_int cur) as [n|]; [|injection E as <-; split; [simpl; lia|by left]].
  destruct (GetAllBFUsed n reverse o.(heap)) as [used| | |]; try done. simpl in E.
  destruct (GetAllBFCreate _ _ _ _ _) as [created| | |]; try done. simpl in E. set (o1 := mkOptimizer _ created.1 _ _ _) in *.
  assert (∀ next op, o.(next_address) ≤ next → made_in o.(next_address) next (infos op) →
    allocated reverse (address node) o (set_replace reverse (address node) op
      (mkOptimizer o.(dag_manager) created.1 o.(replace_map_forward) o.(replace_map_backward) next))) as Hset.
  { intros next op Hle Hop. unfold allocated. destruct reverse; simpl; (split; [done|]); right; exists op; done. }
  assert (replace_map reverse o1 = replace_map reverse o) as Hmap by (by destruct reverse).
  destruct used.2 as [|u us], created.2 as [|b bs]; simpl in E.
  - injection E as <-. split; [simpl; lia|]. left. done.
  - injection E as <-. apply Hset; [lia|]. simpl. apply made_in_cons; [apply made_in_nil|lia|done|by intros a ?%elem_of_nil].
  - rewrite Hmap in E. destruct (BuildUseOperator _ _ _ _ _) as [r1| | |] eqn:E1; try done. simpl in E.
    destruct (BuildUseOperator_made _ _ _ _ _ _ E1 HM) as [Hle Hr]. destruct r1.1 as [op|]; [|done]. simpl in E. injection E as <-. by apply Hset.
  - rewrite Hmap in E. unfold BuildCreateUsePair in E. destruct (BuildUseOperator _ _ _ _ _) as [r1| | |] eqn:E1; try done. simpl in E.
    destruct (BuildUseOperator_made _ _ _ _ _ _ E1 HM) as [Hle Hr]. destruct r1.1 as [op|]; [|done]. simpl in E. injection E as <-.
    apply Hset; [simpl; lia|]. simpl. rewrite app_nil_r. apply made_in_cons; [done|done|done|by intros a ?%elem_of_nil].
Qed.

(** ** The passes *)

Definition entry_at (o : PredicateTransferOptimizer) (w : bool) (a : Z) (op : LogicalOperator) : Prop := replace_map w o !! a = Some (Some op).

(** The operators of each entry were made in an interval of their own, those of
    the backward pass after those of the forward pass. *)
Record alloc_ok (base : Z) (rng : bool → Z → Z * Z) (o : PredicateTransferOptimizer) : Prop := {
  al_next : base ≤ o.(next_address);
  al_made : ∀ w a op, entry_at o w a op → base ≤ (rng w a).1 ∧ (rng w a).1 ≤ (rng w a).2 ≤ o.(next_address) ∧ made_in (rng w a).1 (rng w a).2 (infos op);
  al_apart : ∀ w a op w' a' op', entry_at o w a op → entry_at o w' a' op' → (w, a) ≠ (w', a') → (rng w a).2 ≤ (rng w' a').1 ∨ (rng w' a').2 ≤ (rng w a).1;
  al_passes : ∀ a op a' op', entry_at o false a op → entry_at o true a' op' → (rng false a).2 ≤ (rng true a').1
}.

Lemma alloc_before base rng o w : alloc_ok base rng o → made_before o.(next_address) (replace_map w o).
Proof.
  intros Ho a op Hop. destruct (al_made _ _ _ Ho w a op Hop) as (_ & [_ Hhi] & Hm). destruct (mi_range _ _ _ Hm (info op)) as [_ Hlt]; [apply info_infos|].
  unfold address. lia.
Qed.

Definition extend_rng (rng : bool → Z → Z * Z) (w : bool) (a lo hi : Z) (w' : bool) (a' : Z) : Z * Z :=
  if decide ((w', a') = (w, a)) then (lo, hi) else rng w' a'.

Lemma allocated_ok base rng reverse addr o o' :
  alloc_ok base rng o → (reverse = false → replace_map true o = ∅) → allocated reverse addr o o' → ∃ rng', alloc_ok base rng' o'.
Proof.
  intros [A1 A2 A3 A4] Hfw [Hle [[Et Ef]|(op & Eset & Eother & Hop)]].
  - exists rng. assert (∀ w a e, entry_at o' w a e → entry_at o w a e) as Hsame by (unfold entry_at; intros []; by rewrite ?Et, ?Ef).
    split; [lia| |eauto 10|eauto]. intros w a e He%Hsame. destruct (A2 w a e He) as (? & ? & ?). split_and!; [done|lia|lia|done].
  - set (n := o.(next_address)) in *. exists (extend_rng rng reverse addr n o'.(next_address)).
    assert (∀ w a e, entry_at o' w a e → ((w, a) = (reverse, addr) ∧ e = op) ∨ ((w, a) ≠ (reverse, addr) ∧ entry_at o w a e)) as Hget.
    { intros w a e He. unfold entry_at in *. destruct (decide (w = reverse)) as [->|Hw].
      - rewrite Eset in He. apply lookup_insert_Some in He as [[<- [= <-]]|[Hne He]]; [by left|right]. split; [congruence|done].
      - assert (w = negb reverse) as -> by (by destruct w, reverse). rewrite Eother in He. right. split; [by intros [= ?]|done]. }
    assert (∀ w a e, entry_at o w a e → (rng w a).2 ≤ n) as Hhi by (intros w a e He; destruct (A2 w a e He) as (_ & [_ ?] & _); done).
    split; [lia| | |].
    + intros w a e He. unfold extend_rng. destruct (Hget w a e He) as [[E ->]|[E He']]; [rewrite decide_True by done; simpl; split_and!; [lia|lia|lia|done]|].
      rewrite decide_False by done. destruct (A2 w a e He') as (? & ? & ?). split_and!; [done|lia|lia|done].
    + intros w a e w' a' e' He He' Hne. unfold extend_rng.
      destruct (Hget w a e He) as [[E _]|[E Ho]], (Hget w' a' e' He') as [[E' _]|[E' Ho']]; [congruence|..].
      * rewrite decide_True, decide_False by done. simpl. right. eauto.
      * rewrite decide_False, decide_True by done. simpl. left. eauto.
      * rewrite !decide_False by done. eauto.
    + intros a e a' e' He He'. unfold extend_rng. destruct (Hget _ _ _ He) as [[E _]|[E Ho]], (Hget _ _ _ He') as [[E' _]|[E' Ho']].
      * congruence.
      * exfalso. injection E as <- _. unfold entry_at in Ho'. by rewrite Hfw in Ho'.
      * rewrite decide_False, decide_True by done. simpl. eauto.
      * rewrite !decide_False by done. eauto.
Qed.

Lemma add_filter_allocation reverse o BF o' :
  add_filter reverse o BF = Ret o' → o'.(next_address) = o.(next_address) ∧ ∀ w, replace_map w o' = replace_map w o.
Proof.
  unfold add_filter. destruct (o.(heap) !! BF.2) as [f|]; [|done]. simpl. destruct (Add _ _ _ _ _) as [m| | |]; try done. simpl.
  intros [= <-]. split; [done|]. by intros [].
Qed.

Lemma alloc_ok_same base rng o o' : o'.(next_address) = o.(next_address) → (∀ w, replace_map w o' = replace_map w o) → alloc_ok base rng o → alloc_ok base rng o'.
Proof.
  intros En Em [A1 A2 A3 A4]. split; unfold entry_at in *; [lia|..]; repeat setoid_rewrite Em; [by rewrite En|done|done].
Qed.

Lemma visit_node_alloc reverse o node o' base :
  visit_node reverse o node = Ret o' → (reverse = false → replace_map true o = ∅) → (∃ rng, alloc_ok base rng o) →
  (∃ rng, alloc_ok base rng o') ∧ (reverse = false → replace_map true o' = ∅).
Proof.
  intros E Hfw [rng Ho]. unfold visit_node in E. destruct (CreateBloomFilter node reverse o) as [r| | |] eqn:Ec; try done. simpl in E.
  pose proof (CreateBloomFilter_allocated node reverse o r Ec (alloc_before _ _ _ reverse Ho)) as Ha.
  pose proof (allocated_ok base rng reverse (address node) o r.2 Ho Hfw Ha) as Hr.
  apply (ofold_post (λ o', (∃ rng, alloc_ok base rng o') ∧ (reverse = false → replace_map true o' = ∅)) _ _ _ _ E).
  - split; [done|]. intros ->. destruct Ha as [_ [[Et _]|(op & _ & Eo & _)]]; [rewrite Et; auto|]. cbn [negb] in Eo. rewrite Eo. auto.
  - intros s a s' [[rng' Hs] Hs'] Ea. destruct (add_filter_allocation reverse s a s' Ea) as [En Em].
    split; [exists rng'; by eapply alloc_ok_same|]. rewrite Em. auto.
Qed.

Lemma passes_alloc nodes m next o1 o2 :
  ofold (visit_node false) (reverse nodes) (mkOptimizer m [] ∅ ∅ next) = Ret o1 → ofold (visit_node true) nodes o1 = Ret o2 → ∃ rng, alloc_ok next rng o2.
Proof.
  intros E1 E2. assert ((∃ rng, alloc_ok next rng o1) ∧ (false = false → replace_map true o1 = ∅)) as [Ho1 _].
  { eapply (ofold_post (λ o, (∃ rng, alloc_ok next rng o) ∧ (false = false → replace_map true o = ∅))); [exact E1| |].
    - split; [|done]. exists (λ _ _, (0, 0)). split; simpl; [lia|by intros []|by intros []|done].
    - intros s a s' [Hs Hs'] E. by eapply visit_node_alloc. }
  apply (ofold_post (λ o, ∃ rng, alloc_ok next rng o) _ _ _ _ E2); [done|]. intros s a s' Hs E. by eapply visit_node_alloc.
Qed.

(** ** The plan with its operators *)

Lemma infos_suboperators op : infos op = info <$> suboperators op.
Proof.
  induction op as [i cs IH] using LogicalOperator_nested_ind. csimpl. f_equal.
  induction IH as [|c cs Hc _ IH]; [done|]. csimpl. by rewrite fmap_app, Hc, IH.
Qed.

Lemma addresses_infos op : addresses op = ptr <$> infos op.
Proof. rewrite infos_suboperators, <- list_fmap_compose. done. Qed.

Lemma infos_operator op t : t ∈ infos op → ∃ x, x ∈ suboperators op ∧ info x = t.
Proof. rewrite infos_suboperators. intros (x & -> & Hx)%list_elem_of_fmap. eauto. Qed.

(** The operators of a chain, with [p] below them. *)
Fixpoint tower (op p : LogicalOperator) : list LogicalOperator :=
  match op with
  | Op i [] => [Op i [p]]
  | Op i (c :: cs) => Op i (add_bottom c p :: cs) :: tower c p
  end.

Lemma tower_sub op p x : chain op → x ∈ suboperators (add_bottom op p) → x ∈ tower op p ∨ x ∈ suboperators p.
Proof.
  induction op as [i cs IH] using LogicalOperator_nested_ind. intros [Hf Hc]. destruct cs as [|c [|? ?]]; [| |done]; cbn [add_bottom tower].
  - intros [->|(c & ->%list_elem_of_singleton & Hx)]%suboperators_cases; [left; by left|by right].
  - apply Forall_cons in IH as [IH _]. intros [->|(d & ->%list_elem_of_singleton & Hx)]%suboperators_cases; [left; by left|].
    destruct (IH Hc Hx); [left; by right|by right].
Qed.

(** An operator of the chain: a filter operator over one child. *)
Lemma tower_op op p x :
  chain op → x ∈ tower op p → info x ∈ infos op ∧ is_filter_op (type x) = true ∧ (∃ c, children x = [c]) ∧
    ∀ y, y ∈ suboperators x → y ∈ tower op p ∨ y ∈ suboperators p.
Proof.
  induction op as [i cs IH] using LogicalOperator_nested_ind. intros Hch Hx. pose proof Hch as [Hf Hc]. destruct cs as [|c [|? ?]]; [| |done]; cbn [tower] in Hx |- *.
  - apply list_elem_of_singleton in Hx as ->. split_and!; [by left|done|eauto|]. intros y Hy. by apply (tower_sub (Op i []) p).
  - apply Forall_cons in IH as [IH _]. apply elem_of_cons in Hx as [->|Hx].
    + split_and!; [by left|done|eauto|]. intros y Hy. by apply (tower_sub (Op i [c]) p).
    + destruct (IH Hc Hx) as (Hi & Ht & Hcs & Hsub). split_and!; [by eapply infos_child; [left|]|done|done|].
      intros y Hy. destruct (Hsub y Hy); [left; by right|by right].
Qed.

Section Decorated.
  Context (M : bool → rmap) (Hchain : ∀ w a op, M w !! a = Some (Some op) → chain op).

Let maps : rmap * rmap := (M false, M true).

Definition body (P : LogicalOperator) : LogicalOperator := Op (info P) (map (decorate maps) (children P)).

(** [x] is an operator of the pass [w] above [P]. *)
Definition stands (w : bool) (P x : LogicalOperator) : Prop :=
  ∃ op, M w !! address P = Some (Some op) ∧ x ∈ tower op (if w then above (M false) (address P) (body P) else body P).

Lemma above_sub w a p x : x ∈ suboperators (above (M w) a p) → (∃ op, M w !! a = Some (Some op) ∧ x ∈ tower op p) ∨ x ∈ suboperators p.
Proof.
  unfold above. destruct (M w !! a) as [[op|]|] eqn:E; [|by right..]. intros Hx. destruct (tower_sub op p x (Hchain _ _ _ E) Hx); [left; eauto|by right].
Qed.

Lemma body_sub P x : x ∈ suboperators (body P) → x = body P ∨ ∃ c, c ∈ children P ∧ x ∈ suboperators (decorate maps c).
Proof.
  intros [->|(d & Hd & Hx)]%suboperators_cases; [by left|]. apply list_elem_of_In, in_map_iff in Hd as (c & <- & Hc%list_elem_of_In). eauto.
Qed.

Lemma decorate_eq P : decorate maps P = above (M true) (address P) (above (M false) (address P) (body P)).
Proof. by destruct P. Qed.

(** Every operator of the result is of a pass, or one of the plan. *)
Lemma sub_decorate S x : x ∈ suboperators (decorate maps S) → ∃ P, P ∈ suboperators S ∧ (x = body P ∨ ∃ w, stands w P x).
Proof.
  induction S as [i cs IH] using LogicalOperator_nested_ind. rewrite decorate_eq.
  intros [(op & Hop & Hx)|[(op & Hop & Hx)|[->|(c & Hc & Hx)]%body_sub]%above_sub]%above_sub.
  - exists (Op i cs). split; [apply suboperators_self|]. right. exists true, op. done.
  - exists (Op i cs). split; [apply suboperators_self|]. right. exists false, op. done.
  - exists (Op i cs). split; [apply suboperators_self|by left].
  - rewrite Forall_forall in IH. destruct (IH c Hc Hx) as (P & HP & Hx'). exists P. split; [by eapply suboperators_child|done].
Qed.

(** What is below an operator of a pass: the operators of the pass below it, of
    the forward pass when it is of the backward pass, and what was below before. *)
Lemma under Q wd d t :
  stands wd Q d → t ∈ suboperators d → t ≠ body Q →
  (∃ w, stands w Q t ∧ (w = true → wd = true)) ∨ ∃ c, c ∈ children Q ∧ t ∈ suboperators (decorate maps c).
Proof.
  intros (op & Hop & Hd) Ht Hne. destruct (tower_op op _ d (Hchain _ _ _ Hop) Hd) as (_ & _ & _ & Hsub). destruct (Hsub t Ht) as [Ht'|Ht'].
  - left. exists wd. split; [by exists op|done].
  - destruct wd.
    + apply above_sub in Ht' as [(op' & Hop' & Ht')|[->|?]%body_sub]; [left; exists false; split; [by exists op'|done]|done|by right].
    + apply body_sub in Ht' as [->|?]; [done|by right].
Qed.

(** The operators of a pass above an address. *)
Definition extra (w : bool) (a : Z) : list op_info := match M w !! a with Some (Some op) => infos op | _ => [] end.

Lemma infos_above_perm w a p : infos (above (M w) a p) ≡ₚ extra w a ++ infos p.
Proof. unfold above, extra. destruct (M w !! a) as [[op|]|]; [apply infos_add_bottom|done|done]. Qed.

Lemma infos_decorate_perm S : infos (decorate maps S) ≡ₚ infos S ++ concat ((λ a, extra true a ++ extra false a) <$> addresses S).
Proof.
  induction S as [i cs IH] using LogicalOperator_nested_ind. rewrite decorate_eq, !infos_above_perm, addresses_cons. csimpl.
  assert (concat (map infos (map (decorate maps) cs)) ≡ₚ concat (map infos cs) ++ concat ((λ a, extra true a ++ extra false a) <$> concat (map addresses cs))) as ->.
  { induction IH as [|c cs Hc _ IH]; [done|]. csimpl. rewrite fmap_app, concat_app, Hc, IH. solve_Permutation. }
  unfold address. simpl. solve_Permutation.
Qed.
End Decorated.

Lemma NoDup_concat_fmap {A B} (f : A → list B) (l : list A) :
  NoDup l → (∀ a, a ∈ l → NoDup (f a)) → (∀ a b x, a ∈ l → b ∈ l → x ∈ f a → x ∈ f b → a = b) → NoDup (concat (f <$> l)).
Proof.
  intros Hl Hf Hd. induction Hl as [|a l Ha _ IH]; [constructor|]. csimpl. apply NoDup_app. split_and!.
  - apply Hf. left.
  - intros x Hx (k & Hk & Hin)%list_elem_of_In%in_concat. apply list_elem_of_In, list_elem_of_fmap in Hk as (b & -> & Hb).
    apply Ha. rewrite (Hd a b x); [done|left|by right|done|by apply list_elem_of_In].
  - apply IH; [intros; apply Hf; by right|]. intros b c x Hb Hc. apply Hd; by right.
Qed.

Lemma concat_fmap_fmap {A B C} (g : B → C) (f : A → list B) (l : list A) : g <$> concat (f <$> l) = concat ((λ a, g <$> f a) <$> l).
Proof. induction l as [|a l IH]; [done|]. csimpl. by rewrite fmap_app, IH. Qed.

Section Allocated.
  Context (base : Z) (rng : bool → Z → Z * Z) (o : PredicateTransferOptimizer) (Ho : alloc_ok base rng o).

Let M (w : bool) : rmap := replace_map w o.

Lemma extra_range w a t : t ∈ extra M w a → base ≤ t.(ptr) < o.(next_address) ∧ (rng w a).1 ≤ t.(ptr) < (rng w a).2 ∧ ∀ r, r ∈ t.(related_create_bf) → r < (rng w a).1.
Proof.
  unfold extra. destruct (M w !! a) as [[op|]|] eqn:E; [|by intros ?%elem_of_nil..]. intros Ht.
  destruct (al_made _ _ _ Ho w a op E) as (Hb & Hlh & [_ Hr Hrel]). specialize (Hr t Ht). split_and!; [lia|lia|lia|lia|]. intros r. by apply Hrel.
Qed.

(** The operators of two entries have different addresses. *)
Lemma extra_apart w a w' a' t t' : t ∈ extra M w a → t' ∈ extra M w' a' → t.(ptr) = t'.(ptr) → (w, a) = (w', a').
Proof.
  intros Ht Ht' E. destruct (decide ((w, a) = (w', a'))) as [|Hne]; [done|exfalso].
  pose proof (extra_range _ _ _ Ht) as (_ & R & _). pose proof (extra_range _ _ _ Ht') as (_ & R' & _).
  unfold extra in Ht, Ht'. destruct (M w !! a) as [[op|]|] eqn:E1; [|by apply elem_of_nil in Ht..]. destruct (M w' !! a') as [[op'|]|] eqn:E2; [|by apply elem_of_nil in Ht'..].
  destruct (al_apart _ _ _ Ho w a op w' a' op' E1 E2 Hne); lia.
Qed.

Lemma extra_nodup w a : NoDup (ptr <$> extra M w a).
Proof.
  unfold extra. destruct (M w !! a) as [[op|]|] eqn:E; [|constructor..]. destruct (al_made _ _ _ Ho w a op E) as (_ & _ & [? _ _]). done.
Qed.

Lemma decorate_nodup plan : NoDup (addresses plan) → (∀ a, a ∈ addresses plan → a < base) → NoDup (addresses (decorate (M false, M true) plan)).
Proof.
  intros Hn Hlt. rewrite addresses_infos, (infos_decorate_perm M), fmap_app, <- addresses_infos. apply NoDup_app. split_and!; [done| |].
  - intros a Ha (t & -> & (k & Hk & Hin)%list_elem_of_In%in_concat)%list_elem_of_fmap. specialize (Hlt _ Ha).
    apply list_elem_of_In, list_elem_of_fmap in Hk as (b & -> & _). apply list_elem_of_In, elem_of_app in Hin as [Ht|Ht]; apply extra_range in Ht as [? _]; lia.
  - rewrite concat_fmap_fmap. apply NoDup_concat_fmap; [done| |].
    + intros a _. rewrite fmap_app. apply NoDup_app. split_and!; [apply extra_nodup| |apply extra_nodup].
      intros x (t & -> & Ht)%list_elem_of_fmap (t' & Hp & Ht')%list_elem_of_fmap. by pose proof (extra_apart _ _ _ _ _ _ Ht Ht' Hp).
    + intros a b x _ _ Ha Hb. assert (∀ c, x ∈ ptr <$> (extra M true c ++ extra M false c) → ∃ w t, t ∈ extra M w c ∧ x = t.(ptr)) as Hx.
      { intros c (t & -> & [Ht|Ht]%elem_of_app)%list_elem_of_fmap; eauto. }
      destruct (Hx a Ha) as (w & t & Ht & ->), (Hx b Hb) as (w' & t' & Ht' & E). by pose proof (extra_apart _ _ _ _ _ _ Ht Ht' E) as [= _ ->].
Qed.
End Allocated.

(** ** Plans that can be planned *)

(** The operator at [a] is above the one at [b]. *)
Definition encloses (plan : LogicalOperator) (a b : Z) : Prop :=
  Exists (λ x, address x = a ∧ b ∈ concat (map addresses (children x))) (suboperators plan).

#[global] Instance encloses_dec plan a b : Decision (encloses plan a b).
Proof. unfold encloses. apply _. Defined.

Lemma encloses_child plan Q c P : Q ∈ suboperators plan → c ∈ children Q → P ∈ suboperators c → encloses plan (address Q) (address P).
Proof.
  intros HQ Hc HP. apply Exists_exists. exists Q. split_and!; [done|done|]. apply list_elem_of_In, in_concat. exists (addresses c).
  split; [by apply in_map, list_elem_of_In|]. by apply list_elem_of_In, list_elem_of_fmap_2.
Qed.

Section Depth.
  Context (plan : LogicalOperator) (Hn : NoDup (addresses plan)) (nm : NodesManager).

(** How many nodes are above an operator. *)
Definition depth (a : Z) : nat := length (base.filter (λ kn, encloses plan (address kn.2) a) (map_to_list nm.(nodes))).

Lemma depth_bound a : (depth a ≤ size nm.(nodes))%nat.
Proof. unfold depth. rewrite <- length_map_to_list. apply length_filter. Qed.

Lemma encloses_sub a P c :
  P ∈ suboperators plan → c ∈ suboperators P → encloses plan a (address P) → encloses plan a (address c).
Proof.
  intros HP Hc (x & Hx & <- & Hin)%Exists_exists. apply Exists_exists. exists x. split_and!; [done|done|].
  apply list_elem_of_In, in_concat in Hin as (l & Hl & Hin). apply in_map_iff in Hl as (d & <- & Hd%list_elem_of_In). apply list_elem_of_In in Hin.
  apply list_elem_of_In, in_concat. exists (addresses d). split; [by apply in_map, list_elem_of_In|]. apply list_elem_of_In.
  apply (addresses_sub P); [|by apply (addresses_sub c); [|apply address_in]].
  apply list_elem_of_fmap in Hin as (y & Hy & Hyd). rewrite (sub_address_inj plan P y Hn HP); [done| |done].
  eapply suboperators_trans; [exact Hx|]. by eapply suboperators_child.
Qed.

Lemma not_encloses_self P : P ∈ suboperators plan → ¬ encloses plan (address P) (address P).
Proof.
  intros HP (x & Hx & Hxa & Hin)%Exists_exists. assert (x = P) as -> by (by apply (sub_address_inj plan)).
  apply list_elem_of_In, in_concat in Hin as (l & Hl & Hin). apply in_map_iff in Hl as (d & <- & Hd%list_elem_of_In). apply list_elem_of_In in Hin.
  apply list_elem_of_fmap in Hin as (y & Hy & Hyd). destruct P as [i cs]. by eapply (child_strict plan i cs d y Hn).
Qed.

(** A node below a node is deeper. *)
Lemma depth_below k opk Q c P :
  nm.(nodes) !! k = Some opk → address opk = address Q → Q ∈ suboperators plan → c ∈ children Q → P ∈ suboperators c → (depth (address Q) < depth (address P))%nat.
Proof.
  intros Hk HQa HQ Hc HP. unfold depth. eapply length_filter_lt with (x := (k, opk)).
  - intros [k' op'] Hk'. simpl in *. eapply encloses_sub; [exact HQ| |done]. by eapply suboperators_child.
  - by apply elem_of_map_to_list.
  - simpl. rewrite HQa. by eapply encloses_child.
  - simpl. rewrite HQa. by apply not_encloses_self.
Qed.
End Depth.

(** Nodes below the same nodes. *)
Definition alike (plan : LogicalOperator) (nm : NodesManager) (a b : Z) : Prop :=
  ∀ k opk, nm.(nodes) !! k = Some opk → encloses plan (address opk) a ↔ encloses plan (address opk) b.

Lemma alike_depth plan nm a b : alike plan nm a b → depth plan nm a = depth plan nm b.
Proof.
  intros Hab. unfold depth. assert (Forall (λ kn : Z * LogicalOperator, nm.(nodes) !! kn.1 = Some kn.2) (map_to_list nm.(nodes))) as Hall.
  { apply Forall_forall. intros [k op] Hk. by apply elem_of_map_to_list. }
  induction Hall as [|[k op] l Hk _ IH]; [done|]. rewrite !filter_cons. simpl in *. pose proof (Hab k op Hk) as E.
  destruct (decide (encloses plan (address op) a)), (decide (encloses plan (address op) b)); simpl; tauto || congruence.
Qed.

Section Rank.
  Context (base : Z) (rng : bool → Z → Z * Z) (o : PredicateTransferOptimizer) (Ho : alloc_ok base rng o).
  Context (plan : LogicalOperator) (Hplain : plain plan) (Hn : NoDup (addresses plan)) (Hlt : ∀ a, a ∈ addresses plan → a < base).
  Context (nm : NodesManager) (Hnodes : ∀ i op, nm.(nodes) !! i = Some op → address op ∈ addresses plan).

Let M (w : bool) : rmap := replace_map w o.

(** The entries: each is for a node, and uses what entries for nodes alike create. *)
Definition entry_use (w : bool) (a : Z) (t : op_info) : Prop :=
  ∃ j opj entry, nm.(nodes) !! j = Some opj ∧ M w !! address opj = Some (Some entry) ∧ type entry = LOGICAL_CREATE_BF ∧
    t.(related_create_bf) = [address entry] ∧ alike plan nm (address opj) a.

Context (Hentry : ∀ w a op, M w !! a = Some (Some op) →
  chain op ∧ (∃ i opi, nm.(nodes) !! i = Some opi ∧ address opi = a) ∧ ∀ t, t ∈ infos op → t.(otype) = LOGICAL_USE_BF → entry_use w a t).

Definition owner (a : Z) : option Z := snd <$> list_find (λ p, a ∈ ptr <$> (extra M true p ++ extra M false p)) (addresses plan).

Definition made_rank (a : Z) : nat :=
  match owner a with
  | Some p => (S (size nm.(nodes)) - depth plan nm p) * Z.to_nat (o.(next_address) - base) + Z.to_nat (a - base)
  | None => 0
  end.

Lemma owner_at w p t : p ∈ addresses plan → t ∈ extra M w p → owner t.(ptr) = Some p.
Proof.
  intros Hp Ht. assert (∀ q, t.(ptr) ∈ ptr <$> (extra M true q ++ extra M false q) → q = p) as Hone.
  { intros q (t' & E & [Ht'|Ht']%elem_of_app)%list_elem_of_fmap; by pose proof (extra_apart base rng o Ho _ _ _ _ _ _ Ht Ht' E) as [= _ ->]. }
  unfold owner. destruct (list_find _ (addresses plan)) as [[k q]|] eqn:E.
  - apply list_find_Some in E as (_ & Hq & _). simpl. f_equal. by apply Hone.
  - apply list_find_None in E. rewrite Forall_forall in E. destruct (E p Hp). apply list_elem_of_fmap_2, elem_of_app. destruct w; auto.
Qed.

(** The rank of an operator: nodes that are deeper first, then what was made first. *)
Lemma made_rank_lt w p t w' q d :
  p ∈ addresses plan → q ∈ addresses plan → t ∈ extra M w p → d ∈ extra M w' q →
  (depth plan nm q < depth plan nm p)%nat ∨ depth plan nm q = depth plan nm p ∧ t.(ptr) < d.(ptr) → (made_rank t.(ptr) < made_rank d.(ptr))%nat.
Proof.
  intros Hp Hq Ht Hd Hor. unfold made_rank. rewrite (owner_at w p t Hp Ht), (owner_at w' q d Hq Hd).
  destruct (extra_range base rng o Ho _ _ _ Ht) as (Rt & _). destruct (extra_range base rng o Ho _ _ _ Hd) as (Rd & _).
  pose proof (depth_bound plan nm p). pose proof (depth_bound plan nm q).
  assert (Z.to_nat (t.(ptr) - base) < Z.to_nat (o.(next_address) - base))%nat by lia. destruct Hor as [Hlt'|[-> Hlt']]; [|lia].
  set (K := Z.to_nat (o.(next_address) - base)) in *. assert (S (S (size nm.(nodes)) - depth plan nm p) ≤ S (size nm.(nodes)) - depth plan nm q)%nat by lia. nia.
Qed.

Lemma stands_extra w P x : stands M w P x → info x ∈ extra M w (address P) ∧ is_filter_op (type x) = true ∧ ∃ c, children x = [c].
Proof.
  intros (op & Hop & Hx). destruct (Hentry w _ op Hop) as (Hch & _). destruct (tower_op op _ x Hch Hx) as (Hi & Hf & Hc & _).
  split_and!; [|done|done]. unfold extra. by rewrite Hop.
Qed.

Lemma chains w a op : M w !! a = Some (Some op) → chain op.
Proof. intros Hop. by destruct (Hentry w a op Hop). Qed.

(** A filter operator of the result is of a pass. *)
Lemma filter_stands S x :
  S ∈ suboperators plan → x ∈ suboperators (decorate (M false, M true) S) → is_filter_op (type x) = true → ∃ P w, P ∈ suboperators S ∧ stands M w P x.
Proof.
  intros HS Hx Hf. destruct (sub_decorate M chains S x Hx) as (P & HP & [->|[w Hw]]); [|eauto].
  unfold plain in Hplain. rewrite Forall_forall in Hplain. unfold body, type in Hf. simpl in Hf. fold (type P) in Hf. rewrite Hplain in Hf; [done|].
  by eapply suboperators_trans.
Qed.

(** The creator a use depends on is in the result. *)
Lemma creator_there j opj entry w :
  nm.(nodes) !! j = Some opj → M w !! address opj = Some (Some entry) →
  info entry ∈ extra M w (address opj) ∧ ∃ c, c ∈ suboperators (decorate (M false, M true) plan) ∧ info c = info entry.
Proof.
  intros Hj He. assert (info entry ∈ extra M w (address opj)) as Hin by (unfold extra; rewrite He; apply info_infos). split; [done|].
  apply infos_operator. rewrite (infos_decorate_perm M). apply elem_of_app. right. apply list_elem_of_In, in_concat.
  exists (extra M true (address opj) ++ extra M false (address opj)). split.
  - apply list_elem_of_In. apply (list_elem_of_fmap_2 (λ a, extra M true a ++ extra M false a)). by eapply Hnodes.
  - apply list_elem_of_In, elem_of_app. destruct w; auto.
Qed.

(** It comes before the creators the use is below. *)
Lemma creator_first Q wd d P w t entry opj j :
  Q ∈ suboperators plan → stands M wd Q d → t ∈ suboperators d → P ∈ suboperators plan → stands M w P t →
  (P = Q ∧ (w = true → wd = true)) ∨ (∃ c, c ∈ children Q ∧ P ∈ suboperators c) →
  nm.(nodes) !! j = Some opj → M w !! address opj = Some (Some entry) → (info t).(related_create_bf) = [address entry] → alike plan nm (address opj) (address P) →
  (made_rank (address entry) < made_rank (address d))%nat.
Proof.
  intros HQ Hd Ht HP Hst Hcase Hj He Hrel Hal. destruct (stands_extra _ _ _ Hd) as (Hde & _). destruct (stands_extra _ _ _ Hst) as (Hte & _).
  destruct (creator_there j opj entry w Hj He) as (Hen & _). change (made_rank (info entry).(ptr) < made_rank (info d).(ptr))%nat.
  apply (made_rank_lt w (address opj) (info entry) wd (address Q) (info d)); [by eapply Hnodes|by apply list_elem_of_fmap_2|done|done|].
  rewrite (alike_depth _ _ _ _ Hal). destruct Hcase as [[-> Hwd]|(c & Hc & HPc)].
  - right. split; [done|]. destruct (extra_range base rng o Ho _ _ _ Hte) as (_ & Rt & Hr). specialize (Hr (address entry)). rewrite Hrel in Hr.
    specialize (Hr ltac:(by left)). destruct (extra_range base rng o Ho _ _ _ Hde) as (_ & Rd & _). change (address entry) with (info entry).(ptr) in Hr.
    destruct (decide (w = wd)) as [->|Hne]; [lia|]. assert (w = false ∧ wd = true) as [-> ->] by (destruct w, wd; try done; by specialize (Hwd eq_refl)).
    destruct Hst as (op & Hop & _), Hd as (opd & Hopd & _). pose proof (al_passes _ _ _ Ho _ _ _ _ Hop Hopd). lia.
  - left. destruct Hd as (opd & Hopd & _). destruct (Hentry wd _ opd Hopd) as (_ & (k & opk & Hk & Hka) & _). by eapply (depth_below plan Hn nm k opk Q c P).
Qed.

Lemma decorate_plannable : plannable made_rank (decorate (M false, M true) plan).
Proof.
  split.
  - by eapply decorate_nodup.
  - intros x Hx Hf. destruct (filter_stands plan x (suboperators_self plan) Hx Hf) as (P & w & _ & Hst). by destruct (stands_extra _ _ _ Hst) as (_ & _ & ?).
  - intros t r Ht Hu Hr. destruct (filter_stands plan t (suboperators_self plan) Ht) as (P & w & HP & Hst); [by rewrite Hu|].
    pose proof Hst as (op & Hop & _). destruct (stands_extra _ _ _ Hst) as (Hte & _). destruct (Hentry w _ op Hop) as (_ & _ & Huse).
    destruct (Huse (info t)) as (j & opj & entry & Hj & He & Hte' & Hrel & Hal); [unfold extra in Hte; by rewrite Hop in Hte|done|].
    rewrite Hrel in Hr. apply list_elem_of_singleton in Hr as ->. destruct (creator_there j opj entry w Hj He) as (Hen & (c & Hc & Hci)).
    exists c. assert (address c = address entry) as Ea by (unfold address; by rewrite Hci). split_and!; [done|unfold type; by rewrite Hci|done|].
    intros d Hd Hdt Htd. destruct (filter_stands plan d (suboperators_self plan) Hd) as (Q & wd & HQ & Hstd); [by rewrite Hdt|].
    assert (t ≠ body M Q) as Hnb.
    { intros ->. unfold plain in Hplain. rewrite Forall_forall in Hplain. specialize (Hplain Q HQ). unfold body, type in Hu, Hplain. simpl in Hu. by rewrite Hu in Hplain. }
    assert (∀ P' w', P' ∈ suboperators plan → stands M w' P' t → P' = P ∧ w' = w) as Hone.
    { intros P' w' HP' Hst'. destruct (stands_extra _ _ _ Hst') as (Hte2 & _). pose proof (extra_apart base rng o Ho _ _ _ _ _ _ Hte Hte2 eq_refl) as [= <- Epa].
      split; [|done]. by apply (sub_address_inj plan). }
    apply (creator_first Q wd d P w t entry opj j); try done.
    destruct (under M chains Q wd d t Hstd Htd Hnb) as [(w' & Hst' & Hw')|(c' & Hc' & Htc)].
    + left. by destruct (Hone Q w' HQ Hst') as [-> ->].
    + right. exists c'. split; [done|]. assert (c' ∈ suboperators plan) as Hc'p by (eapply suboperators_trans; [exact HQ|]; by eapply suboperators_child; [|apply suboperators_self]).
      destruct (filter_stands c' t Hc'p Htc) as (P' & w' & HP' & Hst'); [by rewrite Hu|].
      destruct (Hone P' w') as [<- _]; [by eapply suboperators_trans|done|done].
Qed.
End Rank.

(** ** The optimizer *)

(** The two sides of a join condition a filter is made of are below the same nodes. *)
Definition joined_alike (nm : NodesManager) (joins : list LogicalOperator) (plan : LogicalOperator) : Prop :=
  ∀ cb ca opb opa, justified nm joins cb ca → nm.(nodes) !! cb.(table_index) = Some opb → nm.(nodes) !! ca.(table_index) = Some opa →
    alike plan nm (address opb) (address opa).

Lemma plain_plannable rank plan : plain plan → NoDup (addresses plan) → plannable rank plan.
Proof.
  intros Hp Hn. unfold plain in Hp. rewrite Forall_forall in Hp. split; [done| |].
  - intros op Hop Hf. by rewrite Hp in Hf.
  - intros t a Ht Hu. specialize (Hp t Ht). by rewrite Hu in Hp.
Qed.

Section Optimizer.
  Context `{StdOrderOk} `{CardinalityEstimator}.

Lemma Optimize_built_plannable rank nm0 joins E0 pl es m now plan next :
  built nm0 joins E0 pl es m → nodes_ok nm0.(nodes) → ranked rank nm0.(rename_cols) → plan_now now plan m → (∀ a, a ∈ addresses plan → a < next) →
  joined_alike m.(nodes_manager) joins plan →
  ∃ plan' o' rank', Optimize now plan (mkOptimizer m [] ∅ ∅ next) = Ret (plan', o') ∧ plannable rank' plan'.
Proof.
  intros Hm Hn Hr Hpn Hlt Hal. destruct (Optimize_run rank nm0 joins E0 pl es m now plan next Hm Hn Hr Hpn) as (o & o' & E & (o1 & E1 & E2) & _ & [Hent _ Hman _] & _ & _).
  destruct (passes_alloc _ _ _ _ _ E1 E2) as [rng Ho]. destruct Hpn as [Hpl Hadr Hnow]. eexists _, o', _. split; [exact E|].
  apply (decorate_plannable next rng o Ho plan Hpl Hadr Hlt m.(nodes_manager)); [intros i op Hop; by apply (Hnow i)|].
  intros w a op Hop. rewrite <- (negb_involutive w) in Hop. destruct (Hent (negb w) a (Some op) Hop) as (op' & i & opi & [= <-] & _ & Hi & -> & [Hch Hall]).
  rewrite Forall_forall in Hall. split_and!; [done|eauto|]. intros t Ht Hu. destruct (Hall t Ht) as [[? _]|(x & j & HG & (_ & _ & (opj & entry & Hj & He & Hte & Hrel & _)) & _)]; [congruence|].
  rewrite negb_involutive in He. exists j, opj, entry. split_and!; try done.
  destruct (sent (prio_of pl) es j i (negb w)) as [|f fs] eqn:Eg; [done|]. assert (f ∈ sent (prio_of pl) es j i (negb w)) as Hf by (rewrite Eg; left).
  destruct (flow_columns rank nm0 joins E0 pl es m Hm Hn Hr j i (negb w) f Hf) as [p Hp].
  pose proof (flow_justified rank nm0 joins E0 pl es m Hm Hn Hr j i (negb w) f p Hf Hp) as Hjust.
  destruct Hp as (c0 & c1 & b0 & b1 & _ & _ & _ & [(-> & <- & <-)|(-> & <- & <-)]); by eapply Hal.
Qed.

Lemma optimized_plannable rank plan0 mark next :
  plan_wf rank plan0 → distinct_comparisons (plan_joins plan0 mark) →
  ∃ o, PreOptimize plan0 mark next = Ret o ∧ ∀ now plan, plan_now now plan o.(dag_manager) → (∀ a, a ∈ addresses plan → a < next) →
    joined_alike o.(dag_manager).(nodes_manager) (plan_joins plan0 mark) plan →
    ∃ plan' o' rank', Optimize now plan o = Ret (plan', o') ∧ plannable rank' plan'.
Proof.
  intros Hwf Hdist. destruct (Build_ok rank plan0 mark Hwf Hdist) as (ok & mark' & m & nm & E & Hn & _ & Hr & Hok).
  unfold PreOptimize. rewrite E. orun. eexists. split; [done|]. intros now plan Hnow Hlt Hal. simpl in *. destruct ok.
  - destruct Hok as (E0 & pl & es & Hm). by eapply Optimize_built_plannable.
  - destruct Hok as [Hex _]. destruct (Optimize_same m now plan next Hex Hnow) as (o' & Eo). exists plan, o', (λ _, 0%nat).
    split; [done|]. apply plain_plannable; apply Hnow.
Qed.

(** C20: the result of the optimizer can be planned.  When new operators get new
    addresses, and the two sides of a join condition are below the same nodes,
    the plan [Optimize] returns has distinct operators, each filter operator
    over one child, and no [LogicalCreateBF] whose rows are filtered, directly
    or through other filters, by its own filters. *)
Theorem optimized_plans_are_plannable rank plan0 mark next :
  plan_wf rank plan0 → distinct_comparisons (plan_joins plan0 mark) →
  ∃ o, PreOptimize plan0 mark next = Ret o ∧ ∀ now plan, plan_now now plan o.(dag_manager) → (∀ a, a ∈ addresses plan → a < next) →
    joined_alike o.(dag_manager).(nodes_manager) (plan_joins plan0 mark) plan →
    ∃ plan' o' rank', Optimize now plan o = Ret (plan', o') ∧ plannable rank' plan'.
Proof. apply optimized_plannable. Qed.
End Optimizer.
