(* ===== verification/ColumnResolver.v ===== *)
(** * ColumnResolver: the columns filters are built on and applied to

    [ColumnBindingResolver::VisitOperator] of [column_binding_resolver.cpp],
    which runs before planning and turns the columns of filters and expressions
    into positions in the chunks of the operators.  Expressions are followed as
    far as whether they can be bound; the positions put into them are left out.
    Shown: the resolver accepts the plan the transfer optimizer returns when it
    accepts the plan without filters, and the keys that are hashed for a
    filter, on both sides, are the columns a join compares. *)

From S2P Require Import Prelude BloomFilter LogicalPlan NodesManager Dag DagOrder DagDirections DagBuild TransferOptimizer TransferInsert PlanTree TransferPasses TransferCorrect TransferAddresses.
Local Open Scope Z_scope.
Local Open Scope machine_scope.

(** ** The resolver *)

(** [GetColumnBindings]: filter operators hand on what is below them. *)
Fixpoint GetColumnBindings (op : LogicalOperator) : outcome (list ColumnBinding) :=
  match op with
  | Op i cs =>
      if is_filter_op i.(otype) then match cs with [] => vec_at [] 0 | c :: _ => GetColumnBindings c end
      else Ret i.(column_bindings)
  end.

(** The bindings of the operator visited last, and the filters. *)
Record resolver := mkResolver { bindings : list ColumnBinding; bloom : list BlockedBloomFilter }.

(** The position of a column, if it is there. *)
Definition bind_column (bs : list ColumnBinding) (col : ColumnBinding) : list nat :=
  match list_find (col =.) bs with Some (i, _) => [i] | None => [] end.

Definition set_bound (applied built : list nat) (f : BlockedBloomFilter) : BlockedBloomFilter :=
  mkBlockedBloomFilter f.(column_bindings_applied_) f.(column_bindings_built_) applied built f.(log_num_blocks_) f.(num_blocks_)
    f.(use_64bit_hashes_) f.(blocks_) f.(Used_).

(** The loop over the columns a filter is built on, and the one over the columns it is applied to. *)
Definition resolve_built (bs : list ColumnBinding) (f : BlockedBloomFilter) : outcome BlockedBloomFilter :=
  let cols := f.(BoundColsBuilt) ++ concat (bind_column bs <$> f.(column_bindings_built_)) in
  if decide (cols = []) then Throw "No bound colmun found!" else Ret (set_bound f.(BoundColsApplied) cols f).

Definition resolve_applied (bs : list ColumnBinding) (f : BlockedBloomFilter) : outcome BlockedBloomFilter :=
  let cols := f.(BoundColsApplied) ++ concat (bind_column bs <$> f.(column_bindings_applied_)) in
  if decide (cols = []) then Throw "No bound colmun found!" else Ret (set_bound cols f.(BoundColsBuilt) f).

Definition resolve_filters (resolve : BlockedBloomFilter → outcome BlockedBloomFilter) (xs : list nat) (h : list BlockedBloomFilter)
    : outcome (list BlockedBloomFilter) :=
  ofold (λ h x, let* f := deref (h !! x) in let* f := resolve f in Ret (<[x := f]> h)) xs h.

(** ** Expressions *)

(** [VisitExpression]: a column reference becomes a reference to a position, or
    it cannot be bound. *)
Fixpoint resolve_expression (bs : list ColumnBinding) (e : Expression) : outcome unit :=
  match e with
  | Expr _ c b es =>
      if decide (c = BOUND_COLUMN_REF) then match list_find (b =.) bs with Some _ => Ret tt | None => Throw "Failed to bind column reference" end
      else (fix go es := match es with [] => Ret tt | e :: es => let* _ := resolve_expression bs e in go es end) es
  end.

Definition resolve_all (bs : list ColumnBinding) (es : list Expression) : outcome unit := ofold (λ _ e, resolve_expression bs e) es tt.

(** What only particular operators have: [delim_flipped] and
    [duplicate_eliminated_columns] of joins, the columns of the table of a
    CREATE INDEX, the [excluded] columns of an INSERT with ON CONFLICT, and the
    expressions [EnumerateExpressions] visits before those of all operators. *)
Class ResolverFields := {
  delim_flipped : op_info → bool;
  duplicate_eliminated_columns : op_info → list Expression;
  index_bindings : op_info → list ColumnBinding;
  excluded_bindings : op_info → list ColumnBinding;
  own_expressions : op_info → list Expression
}.

Section Resolver.
  Context `{ResolverFields}.

(** [EnumerateExpressions]. *)
Definition operator_expressions (i : op_info) : list Expression := own_expressions i ++ i.(groups) ++ i.(expressions).

(** [VisitOperator].  An extension operator resolves its columns by a virtual
    function of its own, [ResolveColumnBindings], whose implementation in the
    repository ([logical_extension_operator.cpp]) is the general case. *)
Fixpoint VisitOperator (op : LogicalOperator) (st : resolver) : outcome resolver :=
  let visit_children := fix visit_children (cs : list LogicalOperator) (st : resolver) : outcome resolver :=
    match cs with [] => Ret st | c :: cs => let* st := VisitOperator c st in visit_children cs st end in
  let side (visit : resolver → outcome resolver) (es : list Expression) (st : resolver) :=
    let* st := visit st in let* _ := resolve_all st.(bindings) es in Ret st in
  match op with
  | Op i cs =>
      let lefts := left <$> i.(conditions) in
      let rights := right <$> i.(conditions) in
      match i.(otype) with
      | LOGICAL_ASOF_JOIN | LOGICAL_COMPARISON_JOIN =>
          let* st := match cs with
            | c0 :: c1 :: _ =>
                let* st := side (VisitOperator c0) (lefts ++ duplicate_eliminated_columns i) st in side (VisitOperator c1) rights st
            | _ => let* _ := visit_children cs st in vec_at [] 0
            end in
          Ret (mkResolver i.(column_bindings) st.(bloom))
      | LOGICAL_DELIM_JOIN =>
          let* st := match cs with
            | c0 :: c1 :: _ =>
                if delim_flipped i then let* st := side (VisitOperator c1) (rights ++ duplicate_eliminated_columns i) st in side (VisitOperator c0) lefts st
                else let* st := side (VisitOperator c0) (lefts ++ duplicate_eliminated_columns i) st in side (VisitOperator c1) rights st
            | _ => let* _ := visit_children cs st in vec_at [] 0
            end in
          Ret (mkResolver i.(column_bindings) st.(bloom))
      | LOGICAL_ANY_JOIN =>
          let* st := visit_children cs st in
          let* bs := match i.(join_type) with
            | SEMI | ANTI =>
                let* right := match cs with _ :: c1 :: _ => GetColumnBindings c1 | _ => vec_at [] 0 end in
                Ret (i.(column_bindings) ++ right)
            | RIGHT_SEMI | RIGHT_ANTI => Throw "RIGHT SEMI/ANTI any join not supported yet"
            | _ => Ret i.(column_bindings)
            end in
          let* _ := resolve_all bs (operator_expressions i) in
          Ret (mkResolver bs st.(bloom))
      | LOGICAL_CREATE_INDEX =>
          let* _ := resolve_all (index_bindings i) (operator_expressions i) in
          Ret (mkResolver (index_bindings i) st.(bloom))
      | LOGICAL_GET =>
          let* _ := resolve_all i.(column_bindings) (operator_expressions i) in
          Ret (mkResolver i.(column_bindings) st.(bloom))
      | LOGICAL_CREATE_BF =>
          let* st := visit_children cs st in
          let* h := resolve_filters (resolve_built st.(bindings)) i.(filters_of) st.(bloom) in
          let* bs := GetColumnBindings op in
          Ret (mkResolver bs h)
      | LOGICAL_USE_BF =>
          let* st := visit_children cs st in
          let* h := resolve_filters (resolve_applied st.(bindings)) i.(filters_of) st.(bloom) in
          let* bs := GetColumnBindings op in
          Ret (mkResolver bs h)
      | LOGICAL_INSERT =>
          let* st := visit_children cs st in
          let* _ := resolve_all (excluded_bindings i ++ st.(bindings)) (operator_expressions i) in
          Ret (mkResolver i.(column_bindings) st.(bloom))
      | _ =>
          let* st := visit_children cs st in
          let* _ := resolve_all st.(bindings) (operator_expressions i) in
          Ret (mkResolver i.(column_bindings) st.(bloom))
      end
  end.
End Resolver.

(** ** What is resolved, in order *)

Definition columns (op : LogicalOperator) : list ColumnBinding := match GetColumnBindings op with Ret l => l | _ => [] end.

(** The columns an expression refers to. *)
Fixpoint refs (e : Expression) : list ColumnBinding :=
  match e with Expr _ c b es => if decide (c = BOUND_COLUMN_REF) then [b] else concat (map refs es) end.

Section Expression_induction.
  Context (P : Expression → Prop) (Pexpr : ∀ t c b es, Forall P es → P (Expr t c b es)).

Fixpoint Expression_nested_ind (e : Expression) : P e :=
  match e with
  | Expr t c b es =>
      Pexpr t c b es ((fix go es : Forall P es :=
        match es with [] => Forall_nil_2 P | e :: es => Forall_cons_2 P e es (Expression_nested_ind e) (go es) end) es)
  end.
End Expression_induction.

Lemma resolve_expression_ok bs e : (∀ b, b ∈ refs e → b ∈ bs) → resolve_expression bs e = Ret tt.
Proof.
  induction e as [t c b es IH] using Expression_nested_ind. simpl. case_decide as Hc; intros Hin.
  - destruct (list_find (b =.) bs) as [p|] eqn:E; [done|]. apply list_find_None in E. rewrite Forall_forall in E. by destruct (E b (Hin b (list_elem_of_here _ _))).
  - induction IH as [|e es He _ IH]; [done|]. simpl in Hin. rewrite He by set_solver. simpl. apply IH. set_solver.
Qed.

(** All columns of the expressions are there. *)
Definition resolved (bs : list ColumnBinding) (es : list Expression) : bool := forallb (λ e, forallb (λ b, bool_decide (b ∈ bs)) (refs e)) es.

Lemma resolve_all_ok bs bs' es : resolved bs es = true → (∀ b, b ∈ bs → b ∈ bs') → resolve_all bs' es = Ret tt.
Proof.
  unfold resolved, resolve_all. rewrite forallb_forall. intros Hes Hbs. induction es as [|e es IH]; [done|]. simpl. rewrite resolve_expression_ok; [apply IH; intros x Hx; apply Hes; by right|].
  intros b Hb. specialize (Hes e (or_introl eq_refl)). rewrite forallb_forall in Hes. apply Hbs. by apply (bool_decide_eq_true_1 _ (Hes b (proj1 (list_elem_of_In _ _) Hb))).
Qed.

Section Flat.
  Context `{ResolverFields}.

(** The bindings after an operator was visited. *)
Definition after (op : LogicalOperator) : list ColumnBinding :=
  match type op with
  | LOGICAL_CREATE_INDEX => index_bindings (info op)
  | LOGICAL_ANY_JOIN =>
      match (info op).(join_type), children op with
      | SEMI, [_; c] | ANTI, [_; c] => (info op).(column_bindings) ++ columns c
      | _, _ => (info op).(column_bindings)
      end
  | _ => columns op
  end.

Definition below (cs : list LogicalOperator) : list ColumnBinding := match last cs with Some c => after c | None => [] end.

(** The expressions of an operator, with the bindings they are resolved in. *)
Definition checks (op : LogicalOperator) : list (list ColumnBinding * list Expression) :=
  let i := info op in
  let lefts := left <$> i.(conditions) in
  let rights := right <$> i.(conditions) in
  let dups := duplicate_eliminated_columns i in
  match type op with
  | LOGICAL_ASOF_JOIN | LOGICAL_COMPARISON_JOIN => match children op with [c0; c1] => [(after c0, lefts ++ dups); (after c1, rights)] | _ => [] end
  | LOGICAL_DELIM_JOIN =>
      match children op with
      | [c0; c1] => if delim_flipped i then [(after c1, rights ++ dups); (after c0, lefts)] else [(after c0, lefts ++ dups); (after c1, rights)]
      | _ => []
      end
  | LOGICAL_ANY_JOIN | LOGICAL_GET | LOGICAL_CREATE_INDEX => [(after op, operator_expressions i)]
  | LOGICAL_CREATE_BF | LOGICAL_USE_BF => []
  | LOGICAL_INSERT => [(excluded_bindings i ++ below (children op), operator_expressions i)]
  | _ => [(below (children op), operator_expressions i)]
  end.

(** Plans the resolver accepts, but for their filters: operators have the
    children they are visited with, and expressions refer to columns below. *)
Definition shape_op (op : LogicalOperator) : bool :=
  match type op with
  | LOGICAL_GET | LOGICAL_CREATE_INDEX => (length (children op) =? 0)%nat
  | LOGICAL_ASOF_JOIN | LOGICAL_COMPARISON_JOIN | LOGICAL_DELIM_JOIN => (length (children op) =? 2)%nat
  | LOGICAL_ANY_JOIN => (length (children op) =? 2)%nat && match (info op).(join_type) with RIGHT_SEMI | RIGHT_ANTI => false | _ => true end
  | LOGICAL_CREATE_BF | LOGICAL_USE_BF => (length (children op) =? 1)%nat
  | _ => true
  end.

Definition resolvable_op (op : LogicalOperator) : bool := shape_op op && forallb (λ c, resolved c.1 c.2) (checks op).

Definition resolvable (op : LogicalOperator) : bool := forallb resolvable_op (suboperators op).

(** The filters to resolve: whether they are created, the bindings, and the filter. *)
Definition tasks_here (op : LogicalOperator) : list (bool * list ColumnBinding * nat) :=
  match children op with
  | [c] => if is_filter_op (type op) then (λ x, (bool_decide (type op = LOGICAL_CREATE_BF), after c, x)) <$> (info op).(filters_of) else []
  | _ => []
  end.

Fixpoint tasks (op : LogicalOperator) : list (bool * list ColumnBinding * nat) :=
  match op with
  | Op i cs =>
      concat (let l := map tasks cs in if decide (i.(otype) = LOGICAL_DELIM_JOIN) then if delim_flipped i then reverse l else l else l) ++ tasks_here op
  end.

Definition resolve_one (create : bool) (bs : list ColumnBinding) (f : BlockedBloomFilter) : outcome BlockedBloomFilter :=
  if create then resolve_built bs f else resolve_applied bs f.

Definition resolve_task (h : list BlockedBloomFilter) (t : bool * list ColumnBinding * nat) : outcome (list BlockedBloomFilter) :=
  let* f := deref (h !! t.2) in let* f := resolve_one t.1.1 t.1.2 f in Ret (<[t.2 := f]> h).

Lemma resolve_filters_tasks k bs xs h : resolve_filters (resolve_one k bs) xs h = ofold resolve_task ((λ x, (k, bs, x)) <$> xs) h.
Proof.
  unfold resolve_filters. revert h. induction xs as [|x xs IH]; intros h; [done|]. csimpl. unfold resolve_task at 1. simpl.
  destruct (deref (h !! x)) as [f| | |]; try done. simpl. destruct (resolve_one k bs f) as [f'| | |]; try done. simpl. apply IH.
Qed.

Lemma columns_filter i c : is_filter_op i.(otype) = true → columns (Op i [c]) = columns c.
Proof. intros Hf. unfold columns. simpl. by rewrite Hf. Qed.

Lemma GetColumnBindings_ok op : resolvable op = true → GetColumnBindings op = Ret (columns op).
Proof.
  unfold columns. induction op as [i cs IH] using LogicalOperator_nested_ind. unfold resolvable. simpl. intros [[Hop _]%andb_true_iff Hcs]%andb_true_iff.
  destruct (is_filter_op i.(otype)) eqn:Hf; [|done]. unfold shape_op, type in Hop. simpl in Hop.
  destruct cs as [|c [|]]; [by destruct i.(otype)| |by destruct i.(otype)]. apply Forall_cons in IH as [IH _].
  rewrite IH; [done|]. simpl in Hcs. by rewrite app_nil_r in Hcs.
Qed.

Lemma resolvable_child i cs c : resolvable (Op i cs) = true → c ∈ cs → resolvable c = true.
Proof.
  unfold resolvable. simpl. intros [_ Hcs]%andb_true_iff Hc. rewrite forallb_forall in Hcs |- *. intros x Hx. apply Hcs, in_concat.
  exists (suboperators c). split; [by apply in_map, list_elem_of_In|done].
Qed.

Definition visits (op : LogicalOperator) : Prop :=
  ∀ st, VisitOperator op st = let* h := ofold resolve_task (tasks op) st.(bloom) in Ret (mkResolver (after op) h).

Let visit_children := fix visit_children (cs : list LogicalOperator) (st : resolver) : outcome resolver :=
  match cs with [] => Ret st | c :: cs => let* st := VisitOperator c st in visit_children cs st end.

Lemma visit_children_flat cs st :
  Forall visits cs → visit_children cs st = let* h := ofold resolve_task (concat (map tasks cs)) st.(bloom) in
    Ret (mkResolver (match last cs with Some c => after c | None => st.(bindings) end) h).
Proof.
  intros Hcs. revert st. induction Hcs as [|c cs Hc _ IH]; intros st; [by destruct st|]. simpl. rewrite Hc, ofold_app.
  destruct (ofold resolve_task (tasks c) st.(bloom)) as [h| | |]; try done. cbn [obind]. rewrite IH. cbn [bloom bindings].
  destruct cs as [|d cs]; [done|]. rewrite last_cons_cons. destruct (last (d :: cs)) eqn:E; [done|by apply last_None in E].
Qed.

(** One side of a join, then the other. *)
Lemma two_flat c0 c1 es0 es1 st :
  visits c0 → visits c1 → resolved (after c0) es0 = true → resolved (after c1) es1 = true →
  (let* st := (let* st := VisitOperator c0 st in let* _ := resolve_all st.(bindings) es0 in Ret st) in
   let* st := VisitOperator c1 st in let* _ := resolve_all st.(bindings) es1 in Ret st) =
    let* h := ofold resolve_task (tasks c0 ++ tasks c1) st.(bloom) in Ret (mkResolver (after c1) h).
Proof.
  intros H0 H1 E0 E1. rewrite H0, ofold_app. destruct (ofold resolve_task (tasks c0) st.(bloom)) as [h| | |]; try done. simpl.
  rewrite (resolve_all_ok (after c0)) by done. simpl. rewrite H1. simpl. destruct (ofold resolve_task (tasks c1) h); try done. simpl.
  by rewrite (resolve_all_ok (after c1)).
Qed.

(** Any operator but those with a case of their own. *)
Lemma other_flat i cs pre st :
  Forall visits cs → resolved (pre ++ below cs) (operator_expressions i) = true →
  (let* st := visit_children cs st in let* _ := resolve_all (pre ++ st.(bindings)) (operator_expressions i) in Ret (mkResolver i.(column_bindings) st.(bloom))) =
    let* h := ofold resolve_task (concat (map tasks cs)) st.(bloom) in Ret (mkResolver i.(column_bindings) h).
Proof.
  intros Hv Hr. rewrite visit_children_flat by done. destruct (ofold _ _ _); try done. simpl. rewrite (resolve_all_ok _ _ _ Hr); [done|].
  unfold below. destruct (last cs); [done|]. intros b. rewrite app_nil_r. set_solver.
Qed.

Lemma filter_flat i c st (k : bool) :
  visits c → resolvable c = true → is_filter_op i.(otype) = true → bool_decide (i.(otype) = LOGICAL_CREATE_BF) = k →
  (let* st := visit_children [c] st in let* h := resolve_filters (resolve_one k st.(bindings)) i.(filters_of) st.(bloom) in
    let* bs := GetColumnBindings (Op i [c]) in Ret (mkResolver bs h)) =
  let* h := ofold resolve_task (tasks (Op i [c])) st.(bloom) in Ret (mkResolver (columns (Op i [c])) h).
Proof.
  intros Hv Hr Hf Hk. rewrite visit_children_flat by (by repeat constructor).
  assert (tasks (Op i [c]) = tasks c ++ ((λ x, (k, after c, x)) <$> i.(filters_of))) as ->.
  { simpl. rewrite decide_False by (intros Hd; by rewrite Hd in Hf). simpl. rewrite app_nil_r. unfold tasks_here, type. simpl. by rewrite Hf, Hk. }
  simpl. rewrite app_nil_r, ofold_app. destruct (ofold resolve_task (tasks c) st.(bloom)) as [h| | |]; try done. simpl.
  rewrite resolve_filters_tasks. destruct (ofold resolve_task _ h) as [h'| | |]; try done. simpl.
  rewrite columns_filter by done. rewrite Hf. by rewrite GetColumnBindings_ok.
Qed.

Lemma VisitOperator_flat op : resolvable op = true → visits op.
Proof.
  induction op as [i cs IH] using LogicalOperator_nested_ind. intros Hres st.
  assert (Forall visits cs) as Hv.
  { rewrite Forall_forall in IH |- *. intros c Hc. apply IH; [done|]. by eapply resolvable_child. }
  pose proof Hres as Hop. unfold resolvable in Hop. simpl in Hop. apply andb_true_iff in Hop as [[Hop Hch]%andb_true_iff _]. unfold shape_op, type in Hop. unfold checks, type in Hch. simpl in Hop, Hch.
  assert (is_filter_op i.(otype) = false → i.(otype) ≠ LOGICAL_DELIM_JOIN → tasks (Op i cs) = concat (map tasks cs)) as Htasks.
  { intros Hf Hd. simpl. rewrite decide_False by done. unfold tasks_here, type. simpl. rewrite Hf. destruct cs as [|? [|]]; by rewrite app_nil_r. }
  assert (is_filter_op i.(otype) = false → columns (Op i cs) = i.(column_bindings)) as Hcols by (intros Hf; unfold columns; simpl; by rewrite Hf).
  unfold after, type. cbn [info VisitOperator]. fold visit_children.
  destruct (i.(otype)) eqn:Ht; simpl in Hop, Hch;
    try (rewrite Hcols, Htasks by done; rewrite andb_true_r in Hch; by apply (other_flat i cs []) || by apply other_flat).
  - destruct cs; [|done]. unfold after in Hch. unfold type in Hch. simpl in Hch. rewrite Ht, Hcols, andb_true_r in Hch by done. rewrite Hcols, Htasks by done.
    by rewrite (resolve_all_ok _ _ _ Hch).
  - destruct cs as [|c0 [|c1 [|]]]; try done. apply Forall_cons in Hv as [V0 [V1 _]%Forall_cons]. rewrite Hcols by done.
    assert (tasks (Op i [c0; c1]) = if delim_flipped i then tasks c1 ++ tasks c0 else tasks c0 ++ tasks c1) as ->.
    { simpl. rewrite decide_True by done. unfold tasks_here. simpl. rewrite app_nil_r. destruct (delim_flipped i); simpl; by rewrite app_nil_r. }
    destruct (delim_flipped i); simpl in Hch; rewrite andb_true_r in Hch; apply andb_true_iff in Hch as [C0 C1]; rewrite two_flat by done; by destruct (ofold _ _ _).
  - destruct cs as [|c0 [|c1 [|]]]; try done. apply Forall_cons in Hv as [V0 [V1 _]%Forall_cons]. rewrite Hcols, Htasks by done. simpl in Hch |- *. rewrite app_nil_r.
    rewrite andb_true_r in Hch. apply andb_true_iff in Hch as [C0 C1]. rewrite two_flat by done. by destruct (ofold _ _ _).
  - apply andb_true_iff in Hop as [Hlen Hjt]. destruct cs as [|c0 [|c1 [|]]]; try done. rewrite Htasks, visit_children_flat by done.
    rewrite (GetColumnBindings_ok c1) by (eapply resolvable_child; [exact Hres|right; left]). unfold after, type in Hch. cbn [info children] in Hch. rewrite Ht, andb_true_r in Hch.
    destruct (ofold _ _ _) as [h| | |]; try done. simpl. by destruct (i.(join_type)); try done; simpl; rewrite (resolve_all_ok _ _ _ Hch).
  - destruct cs as [|c0 [|c1 [|]]]; try done. apply Forall_cons in Hv as [V0 [V1 _]%Forall_cons]. rewrite Hcols, Htasks by done. simpl in Hch |- *. rewrite app_nil_r.
    rewrite andb_true_r in Hch. apply andb_true_iff in Hch as [C0 C1]. rewrite two_flat by done. by destruct (ofold _ _ _).
  - destruct cs; [|done]. unfold after, type in Hch. cbn [info children] in Hch. rewrite Ht, andb_true_r in Hch. rewrite Htasks by done. by rewrite (resolve_all_ok _ _ _ Hch).
  - destruct cs as [|c [|]]; try done. apply Forall_cons in Hv as [V0 _]. rewrite <- filter_flat with (k := true); [done|done| |by rewrite Ht|by rewrite Ht].
    eapply resolvable_child; [exact Hres|left].
  - destruct cs as [|c [|]]; try done. apply Forall_cons in Hv as [V0 _]. rewrite <- filter_flat with (k := false); [done|done| |by rewrite Ht|by rewrite Ht].
    eapply resolvable_child; [exact Hres|left].
Qed.
End Flat.

(** ** Resolving filters one after the other *)

Definition bound (create : bool) (f : BlockedBloomFilter) : list nat := if create then f.(BoundColsBuilt) else f.(BoundColsApplied).

Definition cols_of (create : bool) (f : BlockedBloomFilter) : list ColumnBinding :=
  if create then f.(column_bindings_built_) else f.(column_bindings_applied_).

(** Positions of columns. *)
Definition bound_at (bs cols : list ColumnBinding) (ks : list nat) : Prop := Forall2 (λ col i, bs !! i = Some col) cols ks.

Lemma bind_columns_ok bs cols : (∀ col, col ∈ cols → col ∈ bs) → bound_at bs cols (concat (bind_column bs <$> cols)).
Proof.
  induction cols as [|col cols IH]; intros Hin; [constructor|]. csimpl. unfold bind_column at 1.
  destruct (list_find (col =.) bs) as [[i b]|] eqn:E.
  - apply list_find_Some in E as (Hi & -> & _). constructor; [done|]. apply IH. intros c Hc. apply Hin. by right.
  - apply list_find_None in E. rewrite Forall_forall in E. by destruct (E col (Hin col (list_elem_of_here _ _))).
Qed.

Lemma resolve_one_ok k bs f :
  bound k f = [] → cols_of k f ≠ [] → (∀ col, col ∈ cols_of k f → col ∈ bs) →
  ∃ f', resolve_one k bs f = Ret f' ∧ (∀ k', cols_of k' f' = cols_of k' f) ∧ bound_at bs (cols_of k f) (bound k f') ∧ bound (negb k) f' = bound (negb k) f.
Proof.
  intros Hb Hne Hin. pose proof (bind_columns_ok bs _ Hin) as Hbound. pose proof (Forall2_length _ _ _ Hbound) as Hlen.
  destruct k; simpl in *; unfold resolve_built, resolve_applied; rewrite Hb; simpl; rewrite decide_False by (intros E; rewrite E in Hlen; by apply Hne, nil_length_inv);
    (eexists; split; [done|]); (split; [by intros []|done]).
Qed.

(** The filters of one kind among the tasks. *)
Definition keys (create : bool) (l : list (bool * list ColumnBinding * nat)) : list nat := snd <$> base.filter (λ t, t.1.1 = create) l.

Lemma elem_of_keys k bs x l : (k, bs, x) ∈ l → x ∈ keys k l.
Proof. intros Ht. apply (list_elem_of_fmap_2 snd _ (k, bs, x)), list_elem_of_filter. done. Qed.

Lemma keys_cons k t l : keys k (t :: l) = (if decide (t.1.1 = k) then [t.2] else []) ++ keys k l.
Proof. unfold keys. rewrite filter_cons. by case_decide. Qed.

Lemma tasks_ok l h :
  (∀ k, NoDup (keys k l)) →
  (∀ k bs x, (k, bs, x) ∈ l → ∃ f, h !! x = Some f ∧ bound k f = [] ∧ cols_of k f ≠ [] ∧ ∀ col, col ∈ cols_of k f → col ∈ bs) →
  ∃ h', ofold resolve_task l h = Ret h' ∧ ∀ x f, h !! x = Some f → ∃ f', h' !! x = Some f' ∧ (∀ k, cols_of k f' = cols_of k f) ∧
    ∀ k, (∀ bs, (k, bs, x) ∈ l → bound_at bs (cols_of k f) (bound k f')) ∧ (x ∉ keys k l → bound k f' = bound k f).
Proof.
  revert h. induction l as [|[[k bs] x] l IH]; intros h Hn Hl.
  { exists h. split; [done|]. intros x f Hf. exists f. split_and!; [done|done|]. intros k. split; [by intros bs ?%elem_of_nil|done]. }
  destruct (Hl k bs x) as (f & Hf & Hb & Hne & Hin); [left|]. destruct (resolve_one_ok k bs f Hb Hne Hin) as (f1 & E1 & Hc1 & Hb1 & Ho1).
  assert (x ∉ keys k l) as Hx by (specialize (Hn k); rewrite keys_cons, decide_True in Hn by done; by apply NoDup_cons in Hn as [? _]).
  destruct (IH (<[x := f1]> h)) as (h' & E & Hh').
  { intros k'. specialize (Hn k'). rewrite keys_cons in Hn. by apply NoDup_app in Hn as (_ & _ & ?). }
  { intros k' bs' x' Ht. destruct (Hl k' bs' x') as (f' & Hf' & R); [by right|]. destruct (decide (x = x')) as [<-|Hxx].
    - exists f1. rewrite list_lookup_insert_eq by (by eapply lookup_lt_Some). assert (f' = f) as -> by congruence. split; [done|]. rewrite Hc1.
      assert (k' = negb k) as -> by (destruct k, k'; try done; by apply elem_of_keys in Ht). by rewrite Ho1.
    - exists f'. by rewrite list_lookup_insert_ne. }
  exists h'. split; [cbn [ofold]; unfold resolve_task at 1; simpl; rewrite Hf; simpl; by rewrite E1|].
  intros y g Hg. destruct (decide (x = y)) as [<-|Hxy].
  - assert (g = f) as -> by congruence. destruct (Hh' x f1) as (f' & Hf' & Hc' & R); [by rewrite list_lookup_insert_eq by (by eapply lookup_lt_Some)|].
    exists f'. split_and!; [done|intros k'; by rewrite Hc', Hc1|]. intros k'. destruct (R k') as [R1 R2]. rewrite Hc1 in R1. split.
    + intros bs' [[= -> ->]|Ht]%elem_of_cons; [|by apply R1]. by rewrite R2.
    + rewrite keys_cons. case_decide as Hk; [set_solver|]. intros Hk'. rewrite R2 by done. simpl in Hk. by assert (k' = negb k) as -> by (by destruct k, k').
  - destruct (Hh' y g) as (f' & Hf' & Hc' & R); [by rewrite list_lookup_insert_ne|]. exists f'. split_and!; [done|done|]. intros k'.
    destruct (R k') as [R1 R2]. split; [|rewrite keys_cons; set_solver]. intros bs' [[= _ _ ->]|Ht]%elem_of_cons; [done|by apply R1].
Qed.

(** ** Plans *)

Section Plan.
  Context `{ResolverFields}.

Lemma tasks_perm i cs : tasks (Op i cs) ≡ₚ concat (map tasks cs) ++ tasks_here (Op i cs).
Proof.
  cbn [tasks]. f_equiv. case_decide; [|done]. destruct (delim_flipped i); [|done].
  induction (map tasks cs) as [|l ls IH]; [done|]. rewrite reverse_cons, concat_app, IH. simpl. rewrite app_nil_r. apply Permutation_app_comm.
Qed.

Lemma elem_of_tasks op k bs x :
  (k, bs, x) ∈ tasks op ↔ ∃ i c, Op i [c] ∈ suboperators op ∧ is_filter_op i.(otype) = true ∧ k = bool_decide (i.(otype) = LOGICAL_CREATE_BF) ∧
    bs = after c ∧ x ∈ i.(filters_of).
Proof.
  induction op as [i cs IH] using LogicalOperator_nested_ind. rewrite tasks_perm, elem_of_app, list_elem_of_In, in_concat. rewrite Forall_forall in IH. split.
  - intros [(l & Hl & Ht)|Ht].
    + apply in_map_iff in Hl as (c & <- & Hc%list_elem_of_In). apply list_elem_of_In, (IH c Hc) in Ht as (j & d & Hd & R). exists j, d.
      split; [by eapply suboperators_child|done].
    + unfold tasks_here in Ht. simpl in Ht. destruct cs as [|c [|]]; [by apply elem_of_nil in Ht| |by apply elem_of_nil in Ht]. unfold type in Ht. simpl in Ht.
      destruct (is_filter_op i.(otype)) eqn:Hf; [|by apply elem_of_nil in Ht]. apply list_elem_of_fmap in Ht as (y & [= -> -> ->] & Hy).
      exists i, c. split_and!; try done. apply suboperators_self.
  - intros (j & d & [Hd|(c & Hc & Hd)]%suboperators_cases & Hf & -> & -> & Hx).
    + injection Hd as <- <-. right. unfold tasks_here. simpl. unfold type. simpl. rewrite Hf. apply list_elem_of_fmap. by exists x.
    + left. exists (tasks c). split; [by apply in_map, list_elem_of_In|]. apply list_elem_of_In, (IH c Hc). eauto 8.
Qed.

(** The filters of the tasks are those of the operators. *)
Lemma keys_app k l l' : keys k (l ++ l') = keys k l ++ keys k l'.
Proof. unfold keys. by rewrite filter_app, fmap_app. Qed.

Definition filters_in (create : bool) (ts : list op_info) : list nat := if create then created_filters ts else used_filters ts.

Lemma filters_in_app k ts ts' : filters_in k (ts ++ ts') = filters_in k ts ++ filters_in k ts'.
Proof. destruct k; simpl; unfold created_filters, used_filters; by rewrite filter_app, fmap_app, concat_app. Qed.

Lemma keys_here k op : shape_op op = true → keys k (tasks_here op) = filters_in k [info op].
Proof.
  assert (∀ k' bs xs, keys k ((λ x, (k', bs, x)) <$> xs) = if decide (k' = k) then xs else []) as Hkeys.
  { intros k' bs xs. induction xs as [|x xs IH]; [by case_decide|]. csimpl. rewrite keys_cons, IH. simpl. by case_decide. }
  destruct op as [i cs]. unfold tasks_here, shape_op, filters_in, created_filters, used_filters, type. simpl. intros Hr.
  destruct (i.(otype)) eqn:Ht; rewrite ?filter_cons, ?Ht; simpl; try (by destruct cs as [|? [|]], k; simpl; unfold keys; rewrite ?filter_nil).
  - destruct cs as [|c [|]]; try done. rewrite Hkeys. destruct k; simpl; by rewrite ?app_nil_r.
  - destruct cs as [|c [|]]; try done. rewrite Hkeys. destruct k; simpl; by rewrite ?app_nil_r.
Qed.

Lemma keys_tasks k op : resolvable op = true → keys k (tasks op) ≡ₚ filters_in k (infos op).
Proof.
  induction op as [i cs IH] using LogicalOperator_nested_ind. intros Hres. pose proof Hres as Hop. unfold resolvable in Hop. simpl in Hop. apply andb_true_iff in Hop as [[Hop _]%andb_true_iff _].
  assert (keys k (concat (map tasks cs)) ≡ₚ filters_in k (concat (map infos cs))) as Hcs.
  { rewrite Forall_forall in IH. assert (∀ c, c ∈ cs → keys k (tasks c) ≡ₚ filters_in k (infos c)) as Hc.
    { intros c Hc. apply IH; [done|]. by eapply resolvable_child. }
    clear IH Hres Hop. induction cs as [|c cs IHcs]; [by destruct k|]. simpl. rewrite keys_app, filters_in_app, IHcs, Hc by set_solver. done. }
  change (infos (Op i cs)) with ([i] ++ concat (map infos cs)). rewrite filters_in_app, <- Hcs. change i with (info (Op i cs)) at 2. rewrite <- keys_here by done.
  rewrite Permutation_app_comm, <- keys_app. unfold keys. by rewrite tasks_perm.
Qed.

(** Resolving a plan: all filters get the positions of their columns. *)
Lemma VisitOperator_ok op st :
  resolvable op = true → (∀ k, NoDup (filters_in k (infos op))) →
  (∀ i c x, Op i [c] ∈ suboperators op → is_filter_op i.(otype) = true → x ∈ i.(filters_of) →
    let k := bool_decide (i.(otype) = LOGICAL_CREATE_BF) in
    ∃ f, st.(bloom) !! x = Some f ∧ bound k f = [] ∧ cols_of k f ≠ [] ∧ ∀ col, col ∈ cols_of k f → col ∈ after c) →
  ∃ h, VisitOperator op st = Ret (mkResolver (after op) h) ∧ ∀ x f, st.(bloom) !! x = Some f → ∃ f', h !! x = Some f' ∧ (∀ k, cols_of k f' = cols_of k f) ∧
    ∀ i c, Op i [c] ∈ suboperators op → is_filter_op i.(otype) = true → x ∈ i.(filters_of) →
      let k := bool_decide (i.(otype) = LOGICAL_CREATE_BF) in bound_at (after c) (cols_of k f) (bound k f').
Proof.
  intros Hres Hn Hall. destruct (tasks_ok (tasks op) st.(bloom)) as (h & E & Hh).
  - intros k. by rewrite keys_tasks.
  - intros k bs x (i & c & Hop & Hf & -> & -> & Hx)%elem_of_tasks. by apply (Hall i c x).
  - exists h. rewrite VisitOperator_flat by done. rewrite E. split; [done|]. intros x f Hf. destruct (Hh x f Hf) as (f' & Hf' & Hc & R).
    exists f'. split_and!; [done|done|]. intros i c Hop Hi Hx. apply (R _), elem_of_tasks. eauto 8.
Qed.
End Plan.

(** ** Filters that were just made *)

Definition unbound (h : list BlockedBloomFilter) : Prop := Forall (λ f, ∀ k, bound k f = []) h.

Lemma use_edge_unbound st e st' : use_edge st e = Ret st' → unbound st.1 → unbound st'.1.
Proof.
  intros E Hst. apply (ofold_post (λ st, unbound st.1) _ _ _ _ E Hst). intros s x s' Hs. unfold use_filter.
  destruct (s.1 !! x) as [f|] eqn:Hf; [|done]. simpl. destruct (Used_ f); intros [= <-]; [done|]. apply Forall_insert; [done|].
  intros k. pose proof (Forall_lookup_1 _ _ _ _ Hs Hf k) as Hb. by destruct k.
Qed.

Lemma create_filter_unbound nm cur reverse h e h' : create_filter nm cur reverse h e = Ret h' → unbound h → unbound h'.
Proof.
  unfold create_filter. destruct (ofold (add_columns nm cur) (filters e) new_filter) as [f| | |] eqn:E; try done. simpl.
  case_bool_decide; [done|]. intros [= <-] Hh. apply Forall_app. split; [done|]. constructor; [|constructor].
  apply (ofold_post (λ f, ∀ k, bound k f = []) _ _ _ _ E); [by intros []|]. intros s c s' Hs Ec.
  assert (∀ k, bound k s' = bound k s) as Hb; [|intros k; by rewrite Hb]. unfold add_columns in Ec.
  destruct (vec_at _ 0) as [c0| | |]; try done. simpl in Ec. destruct (FindRename nm c0) as [b0| | |]; try done. simpl in Ec.
  destruct (_ =? _); (destruct (vec_at _ 1) as [c1| | |]; try done; simpl in Ec; destruct (FindRename nm c1) as [b1| | |]; try done; simpl in Ec);
    [|destruct (_ =? _)]; simplify_eq; by intros [].
Qed.

Lemma visit_node_unbound reverse o node o' : visit_node reverse o node = Ret o' → unbound o.(heap) → unbound o'.(heap).
Proof.
  intros E Ho. unfold visit_node in E. destruct (CreateBloomFilter node reverse o) as [r| | |] eqn:Ec; try done. simpl in E.
  apply (ofold_post (λ o, unbound o.(heap)) _ _ _ _ E).
  - unfold CreateBloomFilter in Ec. destruct (GetNodeId node) as [cur| | |]; try done. simpl in Ec.
    destruct (o.(dag_manager).(dag) !! to_int cur) as [n|]; [|by injection Ec as <-].
    destruct (GetAllBFUsed n reverse o.(heap)) as [used| | |] eqn:Eu; try done. simpl in Ec.
    assert (unbound used.1) as Hu by (apply (ofold_post (λ st, unbound st.1) _ _ _ _ Eu Ho); intros s e s' Hs Es; by eapply use_edge_unbound).
    unfold GetAllBFCreate in Ec. destruct (ofold _ _ used.1) as [h| | |] eqn:Eh; try done. simpl in Ec.
    assert (unbound h) as Hh by (apply (ofold_post unbound _ _ _ _ Eh Hu); intros s e s' Hs Es; by eapply create_filter_unbound).
    assert (∀ addr op next, unbound (heap (set_replace reverse addr op (mkOptimizer o.(dag_manager) h o.(replace_map_forward) o.(replace_map_backward) next)))) as Hset
      by (intros; by destruct reverse).
    destruct used.2, (seq _ _); simpl in Ec.
    + by injection Ec as <-.
    + injection Ec as <-. apply Hset.
    + destruct (BuildUseOperator _ _ _ _ _) as [r1| | |]; try done. simpl in Ec. destruct r1.1; [|done]. simpl in Ec. injection Ec as <-. apply Hset.
    + destruct (BuildCreateUsePair _ _ _ _ _ _) as [r1| | |]; try done. simpl in Ec. injection Ec as <-. apply Hset.
  - intros s a s' Hs. unfold add_filter. destruct (s.(heap) !! a.2) as [f|]; [|done]. simpl.
    destruct (Add _ _ _ _ _) as [m| | |]; try done. simpl. by intros [= <-].
Qed.

(** ** The plan of the optimizer *)

Lemma concat_perm {A} (l l' : list (list A)) : l ≡ₚ l' → concat l ≡ₚ concat l'.
Proof. induction 1; simpl; [done|by f_equiv|solve_Permutation|by etrans]. Qed.

#[global] Instance filters_in_proper k : Proper ((≡ₚ) ==> (≡ₚ)) (filters_in k).
Proof. intros ts ts' E. destruct k; simpl; unfold created_filters, used_filters; apply concat_perm; by rewrite E. Qed.

Lemma elem_of_filters_in k ts x :
  x ∈ filters_in k ts ↔ ∃ t, t ∈ ts ∧ t.(otype) = (if k then LOGICAL_CREATE_BF else LOGICAL_USE_BF) ∧ x ∈ t.(filters_of).
Proof.
  assert (∀ ty, x ∈ concat (filters_of <$> base.filter (λ t, t.(otype) = ty) ts) ↔ ∃ t, t ∈ ts ∧ t.(otype) = ty ∧ x ∈ t.(filters_of)) as Hty; [|by destruct k; apply Hty].
  intros ty. rewrite list_elem_of_In, in_concat. setoid_rewrite <- list_elem_of_In. setoid_rewrite list_elem_of_fmap. setoid_rewrite list_elem_of_filter. naive_solver.
Qed.

Lemma columns_add_bottom op p : chain op → columns (add_bottom op p) = columns p.
Proof.
  induction op as [i cs IH] using LogicalOperator_nested_ind. intros [Hf Hc]. destruct cs as [|c [|? ?]]; [| |done]; cbn [add_bottom].
  - by apply columns_filter.
  - apply Forall_cons in IH as [IH _]. rewrite columns_filter by done. by apply IH.
Qed.

Lemma chain_type op p : chain op → is_filter_op (type (add_bottom op p)) = true.
Proof. destruct op as [i [|c cs]]; by intros [Hf _]. Qed.

(** Below an operator of a chain is one of the chain, or what the chain is on. *)
Lemma tower_child op p i c : chain op → Op i [c] ∈ tower op p → columns c = columns p ∧ (c = p ∨ is_filter_op (type c) = true).
Proof.
  induction op as [j cs IH] using LogicalOperator_nested_ind. intros Hch Hx. pose proof Hch as [Hf Hc]. destruct cs as [|d [|? ?]]; [| |done]; cbn [tower] in Hx.
  - apply list_elem_of_singleton in Hx as [= -> ->]. auto.
  - apply Forall_cons in IH as [IH _]. apply elem_of_cons in Hx as [[= -> ->]|Hx]; [|by apply IH]. split; [by apply columns_add_bottom|right; by apply chain_type].
Qed.

Section Made.
  Context `{ResolverFields} (nm : NodesManager) (G : flow) (prio : Z → Z) (o : PredicateTransferOptimizer) (plan : LogicalOperator).
  Context (Hflow : ∀ a b w, G a b w ≠ [] → if w : bool then prio a < prio b else prio b < prio a).
  Context (Hent : ∀ w, ∃ P, entries_ok nm G w P o) (Honce : ∀ w addr op, replace_map w o !! addr = Some (Some op) → filters_once op).
  Context (Hplain : plain plan) (Hn : NoDup (addresses plan)).

Let M (w : bool) : rmap := replace_map w o.

Let plan' : LogicalOperator := decorate (M false, M true) plan.

Lemma entry_of w a op : M w !! a = Some (Some op) → ∃ i opi, nm.(nodes) !! i = Some opi ∧ a = address opi ∧ table_ok nm G (negb w) o i op.
Proof.
  intros Hop. destruct (Hent (negb w)) as [P He]. destruct (He a (Some op)) as (op' & i & opi & [= <-] & _ & Hi & Ha & Ht); [by rewrite negb_involutive|eauto].
Qed.

Lemma entry_chain w a op : M w !! a = Some (Some op) → chain op.
Proof. intros Hop. destruct (entry_of w a op Hop) as (i & opi & _ & _ & [? _]). done. Qed.

(** A filter of an operator of the result: where it goes, and which table the operator is above. *)
Lemma extra_filter w addr t x (k : bool) :
  t ∈ extra M w addr → t.(otype) = (if k then LOGICAL_CREATE_BF else LOGICAL_USE_BF) → x ∈ t.(filters_of) →
  ∃ a b op f, G a b (negb w) ≠ [] ∧ o.(heap) !! x = Some f ∧ filter_for nm a b (G a b (negb w)) f ∧ nm.(nodes) !! (if k then a else b) = Some op ∧ address op = addr.
Proof.
  unfold extra. destruct (M w !! addr) as [[op|]|] eqn:E; [|by intros ?%elem_of_nil..]. intros Ht Hk Hx.
  destruct (entry_of w addr op E) as (i & opi & Hi & -> & [_ Hall]). rewrite Forall_forall in Hall. destruct (Hall t Ht) as [[Hc Hcr]|(y & a & HG & (Hu & Hy & _) & f & Hf)].
  - destruct k; [|congruence]. destruct (Hcr x Hx) as (b & HG & f & Hf & Hff). by exists i, b, opi, f.
  - destruct k; [congruence|]. rewrite Hy in Hx. apply list_elem_of_singleton in Hx as ->. destruct Hf as [Hf Hff]. by exists a, i, opi, f.
Qed.

Lemma filters_apart k x w a w' a' : x ∈ filters_in k (extra M w a) → x ∈ filters_in k (extra M w' a') → (w, a) = (w', a').
Proof.
  intros (t & Ht & Hk & Hx)%elem_of_filters_in (t' & Ht' & Hk' & Hx')%elem_of_filters_in.
  destruct (extra_filter w a t x k Ht Hk Hx) as (i & j & op & f & HG & Hf & Hff & Hop & <-).
  destruct (extra_filter w' a' t' x k Ht' Hk' Hx') as (i' & j' & op' & f' & HG' & Hf' & Hff' & Hop' & <-). assert (f' = f) as -> by congruence.
  destruct (filter_for_inj nm _ _ _ _ _ _ _ HG Hff Hff') as [<- <-]. assert (op' = op) as -> by congruence. f_equal.
  apply Hflow in HG, HG'. destruct w, w'; simpl in *; [done|lia|lia|done].
Qed.

Lemma extra_once k w a : NoDup (filters_in k (extra M w a)).
Proof.
  unfold extra. destruct (M w !! a) as [[op|]|] eqn:E; [|by destruct k; constructor..]. destruct (Honce w a op E). by destruct k.
Qed.

(** Each filter is created once and used once. *)
Lemma decorate_once k : NoDup (filters_in k (infos plan')).
Proof.
  unfold plan'. rewrite (infos_decorate_perm M), filters_in_app. assert (filters_in k (infos plan) = []) as ->.
  { apply elem_of_nil_inv. intros x (t & Ht & Hk & _)%elem_of_filters_in. apply (plain_infos _ _ Hplain) in Ht. by destruct k; rewrite Hk in Ht. }
  assert (∀ l, filters_in k (concat ((λ a, extra M true a ++ extra M false a) <$> l)) = concat ((λ a, filters_in k (extra M true a) ++ filters_in k (extra M false a)) <$> l)) as ->.
  { induction l as [|a l IH]; [by destruct k|]. csimpl. by rewrite !filters_in_app, IH. }
  simpl. apply NoDup_concat_fmap; [done| |].
  - intros a _. apply NoDup_app. split_and!; [apply extra_once| |apply extra_once]. intros x Hx Hx'. by pose proof (filters_apart _ _ _ _ _ _ Hx Hx').
  - intros a b x _ _ [Ha|Ha]%elem_of_app [Hb|Hb]%elem_of_app; by pose proof (filters_apart _ _ _ _ _ _ Ha Hb) as [= ?].
Qed.

Lemma above_columns w a p : columns (above (M w) a p) = columns p ∧ (above (M w) a p = p ∨ is_filter_op (type (above (M w) a p)) = true).
Proof.
  unfold above. destruct (M w !! a) as [[op|]|] eqn:E; [|auto..]. pose proof (entry_chain _ _ _ E). split; [by apply columns_add_bottom|right; by apply chain_type].
Qed.

Lemma plain_columns P cs : P ∈ suboperators plan → columns (Op (info P) cs) = (info P).(column_bindings).
Proof.
  intros HP. unfold plain in Hplain. rewrite Forall_forall in Hplain. specialize (Hplain P HP). unfold columns. simpl. unfold type in Hplain. by rewrite Hplain.
Qed.

(** A filter operator of the result hands on the columns of an operator of the plan. *)
Lemma filter_columns i c :
  Op i [c] ∈ suboperators plan' → is_filter_op i.(otype) = true →
  ∃ P w, P ∈ suboperators plan ∧ i ∈ extra M w (address P) ∧ columns c = (info P).(column_bindings) ∧ (type c = type P ∨ is_filter_op (type c) = true).
Proof.
  intros Hop Hf. destruct (sub_decorate M entry_chain plan _ Hop) as (P & HP & [Hb|(w & op & Hw & Hx)]).
  - exfalso. unfold plain in Hplain. rewrite Forall_forall in Hplain. specialize (Hplain P HP). injection Hb as -> _. unfold type in Hplain. by rewrite Hf in Hplain.
  - exists P, w. pose proof (entry_chain _ _ _ Hw) as Hch. destruct (tower_op op _ _ Hch Hx) as (Hi & _). destruct (tower_child op _ i c Hch Hx) as [Hcol Hty].
    destruct (above_columns false (address P) (body M P)) as [Ha Ht]. split_and!; [done|unfold extra; by rewrite Hw| |].
    + rewrite Hcol, <- (plain_columns P (map (decorate (M false, M true)) (children P))) by done. by destruct w.
    + destruct Hty as [->|]; [|by right]. destruct w; [|by left]. destruct Ht as [->|]; [by left|by right].
Qed.

(** Filters are only put above operators the resolver treats as tables. *)
Context (Htable : ∀ w P op, P ∈ suboperators plan → M w !! address P = Some (Some op) → type P ≠ LOGICAL_ANY_JOIN ∧ type P ≠ LOGICAL_CREATE_INDEX).

Lemma columns_decorate P : P ∈ suboperators plan → columns (decorate (M false, M true) P) = columns P.
Proof.
  intros HP. rewrite decorate_eq. rewrite (proj1 (above_columns true _ _)), (proj1 (above_columns false _ _)). unfold body. rewrite plain_columns by done.
  destruct P as [i cs]. by rewrite <- (plain_columns (Op i cs) cs).
Qed.

Lemma after_columns op : type op ≠ LOGICAL_ANY_JOIN → type op ≠ LOGICAL_CREATE_INDEX → after op = columns op.
Proof. unfold after. by destruct (type op). Qed.

Lemma after_body P : P ∈ suboperators plan → after (body M P) = after P.
Proof.
  intros HP. unfold after, body, type. cbn [info children]. rewrite plain_columns by done. destruct P as [i cs]. rewrite <- (plain_columns (Op i cs) cs) by done. cbn [info children].
  destruct (i.(otype)); try done. destruct (i.(join_type)); try done; destruct cs as [|c0 [|c1 [|]]]; try done; cbn [map];
    (rewrite columns_decorate; [done|]); (eapply suboperators_trans; [exact HP|]); (eapply suboperators_child; [right; left|apply suboperators_self]).
Qed.

Lemma after_decorate P : P ∈ suboperators plan → after (decorate (M false, M true) P) = after P.
Proof.
  intros HP. assert (decorate (M false, M true) P = body M P ∨ after P = columns P ∧ is_filter_op (type (decorate (M false, M true) P)) = true) as [->|[Ha Hf]].
  { rewrite decorate_eq. destruct (M true !! address P) as [[op|]|] eqn:Et; [|destruct (M false !! address P) as [[op|]|] eqn:Ef..];
      unfold above; rewrite ?Et, ?Ef; (by left) || right; (split; [apply after_columns; by eapply Htable|apply chain_type; by eapply entry_chain]). }
  - by apply after_body.
  - rewrite Ha, after_columns, columns_decorate by (by destruct (type _)). done.
Qed.

Lemma checks_body P : P ∈ suboperators plan → checks (body M P) = checks P.
Proof.
  intros HP. pose proof (after_body P HP) as Hown. destruct P as [i cs]. assert (∀ c, c ∈ cs → after (decorate (M false, M true) c) = after c) as Hc.
  { intros c Hc. apply after_decorate. eapply suboperators_trans; [exact HP|]. eapply suboperators_child; [exact Hc|apply suboperators_self]. }
  assert (below (map (decorate (M false, M true)) cs) = below cs) as Hbelow.
  { unfold below. change (map ?f cs) with (f <$> cs). rewrite fmap_last. destruct (last cs) as [c|] eqn:E; [|done]. apply Hc. by apply last_Some_elem_of. }
  unfold checks, type. rewrite Hown. unfold body. cbn [info children]. rewrite Hbelow.
  destruct (i.(otype)); try done; destruct cs as [|c0 [|c1 [|]]]; try done; cbn [map]; by rewrite !Hc by (constructor; constructor || constructor).
Qed.

Lemma decorate_resolvable : resolvable plan = true → resolvable plan' = true.
Proof.
  unfold resolvable. rewrite !forallb_forall. intros Hr x Hx%list_elem_of_In. destruct (sub_decorate M entry_chain plan _ Hx) as (P & HP & [->|(w & op & Hw & Hst)]).
  - rewrite <- (Hr P) by (by apply list_elem_of_In). unfold resolvable_op. rewrite checks_body by done. f_equal. unfold shape_op, body, type. simpl. by rewrite length_map.
  - destruct (tower_op op _ _ (entry_chain _ _ _ Hw) Hst) as (_ & Hf & (c & Hc) & _). unfold resolvable_op, shape_op, checks. rewrite Hc. by destruct (type x).
Qed.
End Made.

(** ** The optimizer and the resolver *)

(** The columns join conditions compare. *)
Definition compared (joins : list LogicalOperator) : list Expression :=
  concat ((λ j, concat ((λ cond, [cond.(left); cond.(right)]) <$> (info j).(conditions))) <$> joins).

(** [P], the operator of table [i], gives the columns of its table that are compared. *)
Definition gives (nm : NodesManager) (joins : list LogicalOperator) (i : Z) (P : LogicalOperator) : bool :=
  bool_decide (type P ≠ LOGICAL_ANY_JOIN ∧ type P ≠ LOGICAL_CREATE_INDEX) &&
  forallb (λ e, match FindRename nm (column_of e) with Ret b => negb (b.(table_index) =? i) || bool_decide (b ∈ (info P).(column_bindings)) | _ => true end)
    (compared joins).

Definition columns_there (nm : NodesManager) (joins : list LogicalOperator) (plan : LogicalOperator) : bool :=
  forallb (λ P, forallb (λ n : Z * LogicalOperator, negb (address n.2 =? address P) || gives nm joins n.1 P) (map_to_list nm.(nodes))) (suboperators plan).

Lemma columns_there_gives nm joins plan P i op :
  columns_there nm joins plan = true → P ∈ suboperators plan → nm.(nodes) !! i = Some op → address op = address P → gives nm joins i P = true.
Proof.
  unfold columns_there. rewrite forallb_forall. intros Hall HP Hi Ha. specialize (Hall P (proj1 (list_elem_of_In _ _) HP)). rewrite forallb_forall in Hall.
  specialize (Hall (i, op) (proj1 (list_elem_of_In _ _) (proj2 (elem_of_map_to_list _ _ _) Hi))). simpl in Hall. by rewrite Ha, Z.eqb_refl in Hall.
Qed.

Lemma gives_column nm joins P cb ca (k : bool) :
  justified nm joins cb ca → gives nm joins (if k then cb else ca).(table_index) P = true → (if k then cb else ca) ∈ (info P).(column_bindings).
Proof.
  intros (j & cond & Hj & Hc & _ & Hside) [_ Hg]%andb_true_iff. rewrite forallb_forall in Hg.
  assert (∃ e, (e = cond.(left) ∨ e = cond.(right)) ∧ FindRename nm (column_of e) = Ret (if k then cb else ca)) as (e & He & Ef) by (destruct k; naive_solver).
  specialize (Hg e). rewrite Ef, Z.eqb_refl in Hg. cbn [negb orb] in Hg. eapply bool_decide_eq_true_1, Hg. apply in_concat. exists (concat ((λ cond, [cond.(left); cond.(right)]) <$> (info j).(conditions))).
  split; [by apply list_elem_of_In, (list_elem_of_fmap_2 (λ j, concat ((λ cond, [cond.(left); cond.(right)]) <$> (info j).(conditions))))|].
  apply in_concat. exists [cond.(left); cond.(right)]. split; [by apply list_elem_of_In, (list_elem_of_fmap_2 (λ cond, [cond.(left); cond.(right)]))|].
  apply list_elem_of_In. set_solver.
Qed.

(** The columns of a filter, each with its counterpart. *)
Lemma filter_for_column nm joins a b conds f (k : bool) col :
  filter_for nm a b conds f → filter_justified nm joins f → col ∈ cols_of k f →
  ∃ cb ca, justified nm joins cb ca ∧ col = (if k then cb else ca) ∧ col.(table_index) = if k then a else b.
Proof.
  intros (cols & Hb & Ha & Hc) [_ Hj] Hcol. rewrite Hb, Ha, Forall2_fmap in Hj. assert (∃ p, p ∈ cols ∧ col = if k then p.1 else p.2) as (p & Hp & ->).
  { destruct k; simpl in Hcol; rewrite ?Hb, ?Ha in Hcol; apply list_elem_of_fmap in Hcol as (p & -> & Hp); eauto. }
  exists p.1, p.2. apply list_elem_of_lookup in Hp as [n Hn]. split_and!; [by apply (Forall2_lookup_lr _ _ _ _ _ _ Hj Hn Hn)|done|].
  destruct (Forall2_lookup_r _ _ _ _ _ Hc Hn) as (c & _ & (? & ? & ? & ? & _ & _ & _ & [(-> & ? & ?)|(-> & ? & ?)])); by destruct k.
Qed.

(** The keys hashed for the filters used: the operator that uses a filter and
    the one that creates it hash columns at the positions the resolver found,
    and a join of the plan compares these columns, one by one. *)
Definition hashes_joined (nm : NodesManager) (joins : list LogicalOperator) (plan : LogicalOperator) (h : list BlockedBloomFilter) : Prop :=
  ∀ t c x, Op t [c] ∈ suboperators plan → t.(otype) = LOGICAL_USE_BF → x ∈ t.(filters_of) →
  ∃ k d f, Op k [d] ∈ suboperators plan ∧ k.(otype) = LOGICAL_CREATE_BF ∧ x ∈ k.(filters_of) ∧ h !! x = Some f ∧ f.(BoundColsApplied) ≠ [] ∧
    Forall2 (λ i j, ∃ cb ca, columns d !! i = Some cb ∧ columns c !! j = Some ca ∧ justified nm joins cb ca) f.(BoundColsBuilt) f.(BoundColsApplied).

Lemma bound_joined nm joins bs bs' f f' :
  filter_justified nm joins f → bound_at bs f.(column_bindings_built_) f'.(BoundColsBuilt) → bound_at bs' f.(column_bindings_applied_) f'.(BoundColsApplied) →
  f'.(BoundColsApplied) ≠ [] ∧ Forall2 (λ i j, ∃ cb ca, bs !! i = Some cb ∧ bs' !! j = Some ca ∧ justified nm joins cb ca) f'.(BoundColsBuilt) f'.(BoundColsApplied).
Proof.
  intros [Hne Hj] Hb Ha. split.
  - intros E. rewrite E in Ha. apply Forall2_nil_inv_r in Ha. rewrite Ha in Hj. by apply Forall2_nil_inv_r in Hj.
  - apply Forall2_same_length_lookup_2.
    { by rewrite <- (Forall2_length _ _ _ Hb), <- (Forall2_length _ _ _ Ha), (Forall2_length _ _ _ Hj). }
    intros n i j Hi Hn. destruct (Forall2_lookup_r _ _ _ _ _ Hb Hi) as (cb & Hcb & ?), (Forall2_lookup_r _ _ _ _ _ Ha Hn) as (ca & Hca & ?).
    exists cb, ca. split_and!; [done|done|]. by apply (Forall2_lookup_lr _ _ _ _ _ _ Hj Hcb Hca).
Qed.

(** A filter operator of the plan can resolve its filters. *)
Definition resolves `{ResolverFields} (plan : LogicalOperator) (h : list BlockedBloomFilter) : Prop :=
  ∀ i c x, Op i [c] ∈ suboperators plan → is_filter_op i.(otype) = true → x ∈ i.(filters_of) →
    let k := bool_decide (i.(otype) = LOGICAL_CREATE_BF) in
    ∃ f, h !! x = Some f ∧ bound k f = [] ∧ cols_of k f ≠ [] ∧ after c = columns c ∧ ∀ col, col ∈ cols_of k f → col ∈ columns c.

Lemma resolved_hashes `{ResolverFields} nm joins plan h :
  resolvable plan = true → (∀ k, NoDup (filters_in k (infos plan))) → resolves plan h →
  (∀ t, t ∈ infos plan → t.(otype) = LOGICAL_USE_BF → use_served nm joins h plan t) →
  ∃ st, VisitOperator plan (mkResolver [] h) = Ret st ∧ hashes_joined nm joins plan st.(bloom).
Proof.
  intros Hres Honce Hall Huse. destruct (VisitOperator_ok plan (mkResolver [] h) Hres Honce) as (h' & E & Hh).
  { intros i c x Hop Hf Hx. destruct (Hall i c x Hop Hf Hx) as (f & H1 & H2 & H3 & -> & H5). by exists f. }
  eexists. split; [done|]. intros t c x Hop Ht Hx. cbn [bloom] in *.
  destruct (Huse t) as (x' & f & k & Hfs & _ & Hk & Hkt & Hkx & Hf & Hjust); [rewrite infos_suboperators; by apply (list_elem_of_fmap_2 info _ _ Hop)|done|].
  rewrite Hfs in Hx. apply list_elem_of_singleton in Hx as ->. destruct (infos_operator _ _ Hk) as ([k' cs] & Hkop & [= ->]).
  assert (∃ d, cs = [d]) as [d ->].
  { unfold resolvable in Hres. rewrite forallb_forall in Hres. specialize (Hres _ (proj1 (list_elem_of_In _ _) Hkop)). apply andb_true_iff in Hres as [Hres _]. unfold shape_op, type in Hres. simpl in Hres.
    rewrite Hkt in Hres. destruct cs as [|d [|]]; [done|eauto|done]. }
  destruct (Hh x' f Hf) as (f' & Hf' & _ & Hb). pose proof (Hb t c Hop ltac:(by rewrite Ht) ltac:(rewrite Hfs; left)) as Ha.
  pose proof (Hb k d Hkop ltac:(by rewrite Hkt) Hkx) as Hc. destruct (Hall t c x' Hop) as (_ & _ & _ & _ & Hac & _); [by rewrite Ht|rewrite Hfs; left|].
  destruct (Hall k d x' Hkop) as (_ & _ & _ & _ & Had & _); [by rewrite Hkt|done|]. rewrite Ht in Ha. rewrite Hkt in Hc. cbn in Ha, Hc. rewrite Hac in Ha. rewrite Had in Hc.
  destruct (bound_joined nm joins _ _ f f' Hjust Hc Ha). by exists k, d, f'.
Qed.

Section Optimizer.
  Context `{StdOrderOk} `{CardinalityEstimator} `{ResolverFields}.

Lemma Optimize_built_resolves rank nm0 joins E0 pl es m now plan next :
  built nm0 joins E0 pl es m → nodes_ok nm0.(nodes) → ranked rank nm0.(rename_cols) → plan_now now plan m →
  resolvable plan = true → columns_there m.(nodes_manager) joins plan = true →
  ∃ plan' o', Optimize now plan (mkOptimizer m [] ∅ ∅ next) = Ret (plan', o') ∧ resolvable plan' = true ∧
    (∀ k, NoDup (filters_in k (infos plan'))) ∧ resolves plan' o'.(heap).
Proof.
  intros Hm Hn Hr Hpn Hres Hcols. destruct (Optimize_run rank nm0 joins E0 pl es m now plan next Hm Hn Hr Hpn) as (o & o' & E & (o1 & E1 & E2) & Hheap & [Hent _ Hman Honce] & _ & _).
  destruct Hpn as [Hpl Hadr _]. eexists _, o'. split; [exact E|]. rewrite Hheap. set (G := sent (prio_of pl) es) in *.
  assert (∀ w, ∃ P, entries_ok m.(nodes_manager) G w P o) as Hent' by eauto.
  assert (∀ a b w, G a b w ≠ [] → if w : bool then prio_of pl a < prio_of pl b else prio_of pl b < prio_of pl a) as Hflow
    by (intros a b w HG; by destruct (flow_ends nm0 joins E0 pl es m Hm a b w HG) as (_ & _ & _ & ?)).
  assert (∀ w P op, P ∈ suboperators plan → replace_map w o !! address P = Some (Some op) → type P ≠ LOGICAL_ANY_JOIN ∧ type P ≠ LOGICAL_CREATE_INDEX) as Htable.
  { intros w P op HP Hop. destruct (entry_of m.(nodes_manager) G o Hent' w _ op Hop) as (i & opi & Hi & Ha & _).
    pose proof (columns_there_gives _ _ _ P _ opi Hcols HP Hi (eq_sym Ha)) as [Hg _]%andb_true_iff. by apply bool_decide_eq_true in Hg. }
  split_and!; [by apply (decorate_resolvable m.(nodes_manager) G)|by apply (decorate_once m.(nodes_manager) G (prio_of pl))|].
  intros i c x Hop Hf Hx k. destruct (filter_columns m.(nodes_manager) G o plan Hent' Hpl i c Hop Hf) as (P & w & HP & Hi & Hc & Hty).
  assert (i.(otype) = if k then LOGICAL_CREATE_BF else LOGICAL_USE_BF) as Hk by (unfold k; by destruct (i.(otype))).
  destruct (extra_filter m.(nodes_manager) G o Hent' w _ i x k Hi Hk Hx) as (a & b & op & f & HG & Hhx & Hff & Hnode & Hadr').
  pose proof (filter_for_justified rank nm0 joins E0 pl es m Hm Hn Hr a b (negb w) f HG Hff) as Hj.
  pose proof (columns_there_gives _ _ _ P _ op Hcols HP Hnode Hadr') as Hg. exists f. split_and!; [done| | | |].
  - assert (unbound o.(heap)) as Hu; [|by apply (Forall_lookup_1 _ _ _ _ Hu Hhx)].
    eapply (ofold_post (λ o, unbound o.(heap))); [exact E2| |intros s n s' Hs Es; by eapply visit_node_unbound].
    eapply (ofold_post (λ o, unbound o.(heap))); [exact E1|constructor|intros s n s' Hs Es; by eapply visit_node_unbound].
  - destruct Hj as [Hne Hj]. destruct k; [done|]. simpl. intros E0'. rewrite E0' in Hj. by apply Forall2_nil_inv_r in Hj.
  - apply andb_true_iff in Hg as [[Hg1 Hg2]%bool_decide_eq_true _]. unfold after. destruct Hty as [->|Hty]; [|by destruct (type c)]. by destruct (type P).
  - intros col Hcol. destruct (filter_for_column _ joins _ _ _ _ k col Hff Hj Hcol) as (cb & ca & Hjust & -> & Ht). rewrite Hc. apply (gives_column _ joins P cb ca k Hjust). by rewrite Ht.
Qed.

Lemma plain_resolves plan h : plain plan → (∀ k, NoDup (filters_in k (infos plan))) ∧ resolves plan h.
Proof.
  intros Hpl. split.
  - intros k. assert (filters_in k (infos plan) = []) as ->; [|constructor]. apply elem_of_nil_inv. intros x (t & Ht & Hk & _)%elem_of_filters_in.
    apply (plain_infos _ _ Hpl) in Ht. by destruct k; rewrite Hk in Ht.
  - intros i c x Hop Hf. unfold plain in Hpl. rewrite Forall_forall in Hpl. specialize (Hpl _ Hop). unfold type in Hpl. simpl in Hpl. by rewrite Hf in Hpl.
Qed.

(** C6: the filters hash the columns that are joined.  When the expressions of a
    plan can be bound, and the operator of each node gives the columns the join
    conditions name, the resolver accepts the plan [Optimize] returns; every [LogicalUseBF] then hashes at least one
    column, and the columns it and the [LogicalCreateBF] of its filter hash are,
    one by one, the two sides of equality conditions of joins that let the
    filter apply. *)
Theorem filters_hash_joined_columns rank plan0 mark next :
  plan_wf rank plan0 → distinct_comparisons (plan_joins plan0 mark) →
  ∃ o, PreOptimize plan0 mark next = Ret o ∧ ∀ now plan, plan_now now plan o.(dag_manager) → resolvable plan = true →
    columns_there o.(dag_manager).(nodes_manager) (plan_joins plan0 mark) plan = true →
    ∃ plan' o' st, Optimize now plan o = Ret (plan', o') ∧ VisitOperator plan' (mkResolver [] o'.(heap)) = Ret st ∧
      hashes_joined o.(dag_manager).(nodes_manager) (plan_joins plan0 mark) plan' st.(bloom).
Proof.
  intros Hwf Hdist. destruct (Build_ok rank plan0 mark Hwf Hdist) as (ok & mark' & m & nm & E & Hn & _ & Hr & Hok).
  unfold PreOptimize. rewrite E. orun. eexists. split; [done|]. intros now plan Hnow Hres Hcols. cbn [dag_manager] in *.
  assert (∃ plan' o', Optimize now plan (mkOptimizer m [] ∅ ∅ next) = Ret (plan', o') ∧ optimized (plan_joins plan0 mark) m plan plan' o' ∧ resolvable plan' = true ∧
    (∀ k, NoDup (filters_in k (infos plan'))) ∧ resolves plan' o'.(heap)) as (plan' & o' & Eo & [_ Huse _] & R1 & R2 & R3).
  { destruct ok.
    - destruct Hok as (E0 & pl & es & Hm). destruct (Optimize_built_resolves rank nm _ E0 pl es m now plan next Hm Hn Hr Hnow Hres Hcols) as (plan' & o' & Eo & Hall).
      destruct (Optimize_built rank nm _ E0 pl es m now plan next Hm Hn Hr Hnow) as (p2 & o2 & Eo2 & Hopt). rewrite Eo in Eo2. injection Eo2 as <- <-. eauto 10.
    - destruct Hok as [Hex Hd]. destruct (Optimize_same m now plan next Hex Hnow) as (o' & Eo). exists plan, o'. split; [done|].
      destruct (Optimize_nothing (plan_joins plan0 mark) m now plan next Hex Hd Hnow) as (p2 & o2 & Eo2 & Hopt). rewrite Eo in Eo2. injection Eo2 as <- <-.
      split; [done|]. split; [done|]. apply plain_resolves, Hnow. }
  exists plan', o'. destruct (resolved_hashes m.(nodes_manager) (plan_joins plan0 mark) plan' o'.(heap) R1 R2 R3 Huse) as (st & Est & Hst). by exists st.
Qed.
End Optimizer.

(** ** A plan *)

(** The sample plan with the columns its tables give. *)
Definition bound_get (ptr t card : Z) (cols : list Z) : LogicalOperator :=
  Op (mkInfo ptr LOGICAL_GET card [t] (mkBinding t <$> cols) [] JOIN_INVALID [] [] 0 [] []) [].

Definition bound_join (ptr : Z) (jt : JoinType) (l r : ColumnBinding) (lc rc : LogicalOperator) : LogicalOperator :=
  Op (mkInfo ptr LOGICAL_COMPARISON_JOIN 0 [] (columns lc ++ columns rc) [] jt [mkCondition COMPARE_EQUAL (BoundColumnRef l) (BoundColumnRef r)] [] 0 [] []) [lc; rc].

Definition bound_plan : LogicalOperator :=
  bound_join 15 INNER (mkBinding 1 1) (mkBinding 3 0)
    (bound_join 14 LEFT (mkBinding 0 0) (mkBinding 1 0) (bound_get 10 0 100 [1; 0]) (bound_get 11 1 10 [0; 1; 2]))
    (sample_projection 13 3 (mkBinding 2 0) (bound_get 12 2 1000 [2; 0])).

#[global] Instance sample_fields : ResolverFields := {|
  delim_flipped _ := false; duplicate_eliminated_columns _ := []; index_bindings _ := []; excluded_bindings _ := []; own_expressions _ := []
|}.

Definition bound_check (o : PredicateTransferOptimizer) : bool :=
  nodes_in_plan bound_plan o.(dag_manager) && columns_there o.(dag_manager).(nodes_manager) (plan_joins sample_plan true) bound_plan.

Lemma bound_checked o : PreOptimize sample_plan true 100 = Ret o → bound_check o = true.
Proof.
  intros E. assert (match PreOptimize sample_plan true 100 with Ret o => bound_check o | _ => false end = true) as Hb by (vm_compute; reflexivity).
  rewrite E in Hb. exact Hb.
Qed.

Lemma bound_now o : PreOptimize sample_plan true 100 = Ret o → plan_now (λ op, op) bound_plan o.(dag_manager).
Proof.
  intros E. pose proof (bound_checked o E) as [Hin _]%andb_true_iff. split.
  - repeat (apply Forall_cons; split); try exact (Forall_nil_2 _); reflexivity.
  - apply (bool_decide_unpack _). vm_compute. exact I.
  - intros i op Hop. split; [|split; reflexivity]. apply bool_decide_eq_true in Hin. exact (Hin i op Hop).
Qed.

(** The positions of the filters: built and applied. *)
Definition bound_positions : list (list nat * list nat) :=
  match Optimize (λ op, op) bound_plan sample_optimizer with
  | Ret (plan', o') => match VisitOperator plan' (mkResolver [] o'.(heap)) with
                       | Ret st => (λ f, (f.(BoundColsBuilt), f.(BoundColsApplied))) <$> st.(bloom)
                       | _ => []
                       end
  | _ => []
  end.

Lemma filters_hash_joined_columns_witness :
  bound_positions = [([1%nat], [0%nat]); ([1%nat], [1%nat]); ([1%nat], [1%nat])] ∧
  ∃ o, PreOptimize sample_plan true 100 = Ret o ∧
    ∃ plan' o' st, Optimize (λ op, op) bound_plan o = Ret (plan', o') ∧ VisitOperator plan' (mkResolver [] o'.(heap)) = Ret st ∧
      hashes_joined o.(dag_manager).(nodes_manager) (plan_joins sample_plan true) plan' st.(bloom).
Proof.
  split; [vm_compute; reflexivity|].
  destruct (filters_hash_joined_columns sample_rank sample_plan true 100 sample_plan_wf sample_distinct) as (o & E & Ho).
  exists o. split; [exact E|]. apply (Ho _ _ (bound_now o E)); [reflexivity|]. exact (proj2 (proj1 (andb_true_iff _ _) (bound_checked o E))).
Defined.
