(* ===== verification/PlanColumns.v ===== *)
(** * PlanColumns: the columns of a plan, and references to them

    Logical operators as the optimizers after the transfer see them
    ([planner/operator/]): the columns an operator gives
    ([GetColumnBindings]), computed from those of its children, and the
    references to columns in expressions.  A [BoundColumnRefExpression] is an
    object that several places point to, so that its binding is kept in a store
    and an expression has its address.  [scoped] says that all references and
    the columns of all filters are columns of the operators below. *)

From S2P Require Import Prelude BloomFilter LogicalPlan ColumnResolver.
Local Open Scope Z_scope.
Local Open Scope machine_scope.

(** ** Expressions *)

(** A reference to a column, by its address; a [BoundReferenceExpression], which
    only belongs in physical plans; and any other expression with what it is and
    its children. *)
#[warnings="-register-all"] Inductive bound_expression :=
| ColumnRef (p : nat)
| Reference (index : nat)
| Apply (f : Z) (args : list bound_expression).

Abbreviation binding_store := (gmap nat ColumnBinding).

Section Bound_expression_induction.
  Context (P : bound_expression → Prop) (Pref : ∀ p, P (ColumnRef p)) (Ppos : ∀ i, P (Reference i)).
  Context (Papp : ∀ f es, Forall P es → P (Apply f es)).

Fixpoint bound_expression_nested_ind (e : bound_expression) : P e :=
  match e with
  | ColumnRef p => Pref p
  | Reference i => Ppos i
  | Apply f es =>
      Papp f es ((fix go es : Forall P es :=
        match es with [] => Forall_nil_2 P | e :: es => Forall_cons_2 P e es (bound_expression_nested_ind e) (go es) end) es)
  end.
End Bound_expression_induction.

(** The references of an expression, in the order they are visited. *)
Fixpoint expr_refs (e : bound_expression) : list nat :=
  match e with
  | ColumnRef p => [p]
  | Reference _ => []
  | Apply _ es => concat (map expr_refs es)
  end.

Definition exprs_refs (es : list bound_expression) : list nat := concat (map expr_refs es).

(** No [BoundReferenceExpression]. *)
Fixpoint expr_unbound (e : bound_expression) : bool :=
  match e with
  | ColumnRef _ => true
  | Reference _ => false
  | Apply _ es => forallb expr_unbound es
  end.

(** [Expression::Equals]: references are equal when their bindings are. *)
Fixpoint bound_equals (σ : binding_store) (a b : bound_expression) : bool :=
  match a, b with
  | ColumnRef p, ColumnRef q => bool_decide (σ !! p = σ !! q)
  | Reference i, Reference j => (i =? j)%nat
  | Apply f es, Apply g es' =>
      (f =? g) && (fix go l1 l2 := match l1, l2 with
        | [], [] => true
        | e1 :: l1, e2 :: l2 => bound_equals σ e1 e2 && go l1 l2
        | _, _ => false
        end) es es'
  | _, _ => false
  end.

(** ** Operators *)

(** [LogicalGet]: the columns it reads, those it hands on of them if that is not
    all ([projection_ids]), the columns it takes from its child
    ([projected_input]), the columns with table filters, and what its function
    supports. *)
Record LogicalGet := mkGet {
  get_index : Z;
  column_ids : list Z;
  projection_ids : list nat;
  projected_input : list nat;
  table_filters : list Z;
  projection_pushdown : bool;
  filter_prune : bool;
  get_expressions : list bound_expression
}.

Record BoundCondition := mkBoundCondition { cond_comparison : ExpressionType; cond_left : bound_expression; cond_right : bound_expression }.

(** [LogicalComparisonJoin], also of ASOF and DELIM joins. *)
Record LogicalComparisonJoin := mkComparisonJoin {
  comp_type : JoinType;
  comp_mark : Z;
  comp_duplicates : list bound_expression;
  comp_conditions : list BoundCondition;
  comp_expressions : list bound_expression;
  left_projection_map : list nat;
  right_projection_map : list nat
}.

(** [LogicalAggregate]. *)
Record LogicalAggregate := mkAggregate {
  group_index : Z;
  aggregate_index : Z;
  groupings_index : Z;
  grouping_functions : nat;
  aggr_groups : list bound_expression;
  aggr_expressions : list bound_expression
}.

Inductive SetOperation := SET_UNION | SET_EXCEPT | SET_INTERSECT.

#[global] Instance SetOperation_eq_dec : EqDecision SetOperation.
Proof. solve_decision. Defined.

(** How the columns of the operators not named below come about: [Own] columns
    (scans of other kinds, PIVOT, CTEs, EXPLAIN), the columns of the child
    followed by own ones (LIMIT, SAMPLE, DISTINCT, TOP N, WINDOW, UNNEST), those
    of both children (cross products, positional and ANY joins), those of the
    second child (a materialized CTE). *)
Inductive output :=
| Own (bs : list ColumnBinding)
| Through (bs : list ColumnBinding)
| Joined (jt : JoinType) (mark : Z) (left_map right_map : list nat)
| Second.

(** Which of the other operators it is, as far as the optimizers care: DISTINCT,
    and PIVOT and CTEs, from which on every column may count as referenced. *)
Inductive other_kind := Plain | Distinct | PivotOrCTE.

Definition references_all (o : other_kind) : bool := match o with Plain => false | _ => true end.

(** The operators the optimizers treat in their own way, and the others.
    [LogicalModify] is INSERT, UPDATE and DELETE, with the columns [excluded] of
    an INSERT. *)
Inductive logical_kind :=
| Get (g : LogicalGet)
| Projection (table_index : Z) (expressions : list bound_expression)
| Aggregate (a : LogicalAggregate)
| ComparisonJoin (j : LogicalComparisonJoin)
| SetOp (kind : SetOperation) (table_index : Z) (column_count : nat)
| Order (orders : list bound_expression) (projections : list nat)
| Filter (expressions : list bound_expression) (projection_map : list nat)
| BloomOp (create : bool) (bfs : list nat)
| Modify (expressions : list bound_expression) (excluded : list ColumnBinding) (columns : list ColumnBinding)
| Other (o : other_kind) (expressions : list bound_expression) (out : output).

#[warnings="-register-all"] Inductive column_plan := Node (k : logical_kind) (cs : list column_plan).

Definition node_kind (op : column_plan) : logical_kind := let '(Node k _) := op in k.
Definition node_children (op : column_plan) : list column_plan := let '(Node _ cs) := op in cs.

Section Column_plan_induction.
  Context (P : column_plan → Prop) (Pnode : ∀ k cs, Forall P cs → P (Node k cs)).

Fixpoint column_plan_nested_ind (op : column_plan) : P op :=
  match op with
  | Node k cs =>
      Pnode k cs ((fix go cs : Forall P cs :=
        match cs with [] => Forall_nil_2 P | c :: cs => Forall_cons_2 P c cs (column_plan_nested_ind c) (go cs) end) cs)
  end.
End Column_plan_induction.

(** ** The columns of an operator *)

(** [COLUMN_IDENTIFIER_ROW_ID]. *)
Definition COLUMN_IDENTIFIER_ROW_ID : Z := 2 ^ 64 - 1.

Definition column (t : Z) (i : nat) : ColumnBinding := mkBinding t (Z.of_nat i).

Definition GenerateColumnBindings (t : Z) (n : nat) : list ColumnBinding := column t <$> seq 0 n.

(** [MapBindings] skips positions that are not there. *)
Definition MapBindings (bs : list ColumnBinding) (projection_map : list nat) : list ColumnBinding :=
  if decide (projection_map = []) then bs else omap (λ i, bs !! i) projection_map.

(** [LogicalJoin::GetColumnBindings]. *)
Definition join_columns (jt : JoinType) (mark : Z) (lmap rmap : list nat) (l r : outcome (list ColumnBinding)) : outcome (list ColumnBinding) :=
  let* l := l in
  let left_bindings := MapBindings l lmap in
  match jt with
  | SEMI | ANTI => Ret left_bindings
  | MARK => Ret (left_bindings ++ [mkBinding mark 0])
  | _ =>
      let* r := r in
      let right_bindings := MapBindings r rmap in
      match jt with RIGHT_SEMI | RIGHT_ANTI => Ret right_bindings | _ => Ret (left_bindings ++ right_bindings) end
  end.

(** The elements of [bs] at some positions. *)
Fixpoint select_all {A : Type} (bs : list A) (positions : list nat) : outcome (list A) :=
  match positions with
  | [] => Ret []
  | i :: positions => let* b := vec_at bs i in let* r := select_all bs positions in Ret (b :: r)
  end.

(** [LogicalGet::GetColumnBindings]: the columns it reads itself. *)
Definition own_columns (g : LogicalGet) : list ColumnBinding :=
  if decide (g.(column_ids) = []) then [column g.(get_index) 0]
  else if decide (g.(projection_ids) = []) then GenerateColumnBindings g.(get_index) (length g.(column_ids))
  else column g.(get_index) <$> g.(projection_ids).

Definition table_get_columns (g : LogicalGet) (bs : list (outcome (list ColumnBinding))) : outcome (list ColumnBinding) :=
  if decide (g.(column_ids) = []) then Ret (own_columns g)
  else if decide (g.(projected_input) = []) then Ret (own_columns g)
  else if decide (length bs = 1%nat) then
    let* c := let* m := vec_at bs 0 in m in let* input := select_all c g.(projected_input) in Ret (own_columns g ++ input)
  else Throw "LogicalGet::project_input can only be set for table-in-out functions".

(** [LogicalAggregate::GetColumnBindings]. *)
Definition aggregate_columns (a : LogicalAggregate) : list ColumnBinding :=
  GenerateColumnBindings a.(group_index) (length a.(aggr_groups)) ++ GenerateColumnBindings a.(aggregate_index) (length a.(aggr_expressions)) ++
    GenerateColumnBindings a.(groupings_index) a.(grouping_functions).

(** [LogicalOrder::GetColumnBindings]. *)
Definition order_columns (projections : list nat) (child : outcome (list ColumnBinding)) : outcome (list ColumnBinding) :=
  let* c := child in if decide (projections = []) then Ret c else select_all c projections.

(** The columns of an operator whose children have the columns [bs]: the
    virtual function [GetColumnBindings], by its overrides.  Projections and set
    operations number their columns, filters map those of their child, and
    [LogicalCreateBF] and [LogicalUseBF] hand them on. *)
Definition kind_columns (k : logical_kind) (bs : list (outcome (list ColumnBinding))) : outcome (list ColumnBinding) :=
  let child i := let* m := vec_at bs i in m in
  match k with
  | Get g => table_get_columns g bs
  | Projection t es => Ret (GenerateColumnBindings t (length es))
  | Aggregate a => Ret (aggregate_columns a)
  | ComparisonJoin j => join_columns j.(comp_type) j.(comp_mark) j.(left_projection_map) j.(right_projection_map) (child 0%nat) (child 1%nat)
  | SetOp _ t n => Ret (GenerateColumnBindings t n)
  | Order _ projections => order_columns projections (child 0%nat)
  | Filter _ projection_map => let* c := child 0%nat in Ret (MapBindings c projection_map)
  | BloomOp _ _ => child 0%nat
  | Modify _ _ cols => Ret cols
  | Other _ _ (Own cols) => Ret cols
  | Other _ _ (Through cols) => let* c := child 0%nat in Ret (c ++ cols)
  | Other _ _ (Joined jt mark lmap rmap) => join_columns jt mark lmap rmap (child 0%nat) (child 1%nat)
  | Other _ _ Second => child 1%nat
  end.

Fixpoint GetColumnBindings (op : column_plan) : outcome (list ColumnBinding) :=
  match op with Node k cs => kind_columns k (map GetColumnBindings cs) end.

Definition columns (op : column_plan) : list ColumnBinding := match GetColumnBindings op with Ret l => l | _ => [] end.

Definition has_columns (op : column_plan) : bool := match GetColumnBindings op with Ret _ => true | _ => false end.

(** ** What is visited *)

(** [LogicalOperatorVisitor::EnumerateExpressions]. *)
Definition EnumerateExpressions (k : logical_kind) : list bound_expression :=
  match k with
  | Get g => g.(get_expressions)
  | Projection _ es => es
  | Aggregate a => a.(aggr_groups) ++ a.(aggr_expressions)
  | ComparisonJoin j =>
      j.(comp_duplicates) ++ concat ((λ c, [c.(cond_left); c.(cond_right)]) <$> j.(comp_conditions)) ++ j.(comp_expressions)
  | SetOp _ _ _ => []
  | Order es _ => es
  | Filter es _ => es
  | BloomOp _ _ => []
  | Modify es _ _ => es
  | Other _ es _ => es
  end.

Definition own_refs (k : logical_kind) : list nat := exprs_refs (EnumerateExpressions k).

(** All references of a plan. *)
Fixpoint plan_refs (op : column_plan) : list nat := match op with Node k cs => own_refs k ++ concat (map plan_refs cs) end.

(** The tables an operator brings in. *)
Definition tables_of (bs : list ColumnBinding) : list Z := remove_dups (table_index <$> bs).

Definition mark_tables (jt : JoinType) (mark : Z) : list Z := if decide (jt = MARK) then [mark] else [].

Definition own_tables (k : logical_kind) : list Z :=
  match k with
  | Get g => [g.(get_index)]
  | Projection t _ => [t]
  | Aggregate a => [a.(group_index); a.(aggregate_index)] ++ (if decide (a.(grouping_functions) = 0%nat) then [] else [a.(groupings_index)])
  | ComparisonJoin j => mark_tables j.(comp_type) j.(comp_mark)
  | SetOp _ t _ => [t]
  | Order _ _ | Filter _ _ | BloomOp _ _ => []
  | Modify _ excluded cols => tables_of (excluded ++ cols)
  | Other _ _ (Own cols) | Other _ _ (Through cols) => tables_of cols
  | Other _ _ (Joined jt mark _ _) => mark_tables jt mark
  | Other _ _ Second => []
  end.

Fixpoint tables (op : column_plan) : list Z := match op with Node k cs => own_tables k ++ concat (map tables cs) end.

(** The filters of a plan, with whether they are created. *)
Definition own_filters (k : logical_kind) : list (bool * nat) := match k with BloomOp create bfs => pair create <$> bfs | _ => [] end.

Fixpoint plan_filters (op : column_plan) : list (bool * nat) := match op with Node k cs => own_filters k ++ concat (map plan_filters cs) end.

Fixpoint depth (op : column_plan) : nat := match op with Node _ cs => S (list_max (map depth cs)) end.

(** ** Plans whose references are columns below *)

(** The columns a filter is built on, or applied to. *)
Definition filter_cols (F : list BlockedBloomFilter) (create : bool) (x : nat) : option (list ColumnBinding) := cols_of create <$> F !! x.

Section Scoped.
  Context (σ : binding_store) (F : list BlockedBloomFilter).

Definition ref_in (bs : list ColumnBinding) (p : nat) : bool := match σ !! p with Some b => bool_decide (b ∈ bs) | None => false end.

Definition exprs_in (bs : list ColumnBinding) (es : list bound_expression) : bool :=
  forallb expr_unbound es && forallb (ref_in bs) (exprs_refs es).

(** The columns of a filter are there. *)
Definition filter_in (create : bool) (bs : list ColumnBinding) (x : nat) : bool :=
  match filter_cols F create x with
  | Some cols => negb (bool_decide (cols = [])) && forallb (λ v, bool_decide (v ∈ bs)) cols
  | None => false
  end.

(** One operator, given the columns of its children. *)
Definition kind_scoped (k : logical_kind) (css : list (list ColumnBinding)) : bool :=
  match k, css with
  | Get g, _ => exprs_in (own_columns g) g.(get_expressions) && forallb (λ c, bool_decide (c ∈ g.(column_ids))) g.(table_filters)
  | Projection _ es, [c] => exprs_in c es
  | Aggregate a, [c] => exprs_in c (a.(aggr_groups) ++ a.(aggr_expressions))
  | ComparisonJoin j, [l; r] =>
      exprs_in (l ++ r) (j.(comp_duplicates) ++ j.(comp_expressions)) &&
      forallb (λ c, exprs_in l [c.(cond_left)] && exprs_in r [c.(cond_right)]) j.(comp_conditions)
  | SetOp _ _ n, _ => forallb (λ c, length c =? n)%nat css
  | Order es _, [c] => exprs_in c es
  | Filter es _, [c] => exprs_in c es
  | BloomOp create bfs, [c] => forallb (filter_in create c) bfs
  | Modify es excluded _, [c] => exprs_in (excluded ++ c) es
  | Other _ es _, _ => exprs_in (concat css) es
  | _, _ => false
  end.

Fixpoint scoped (op : column_plan) : bool :=
  match op with Node k cs => has_columns op && kind_scoped k (columns <$> cs) && forallb scoped cs end.
End Scoped.
