(* ===== verification/RemoveColumns.v ===== *)
(** * RemoveColumns: columns nobody refers to are removed

    [RemoveUnusedColumns] of [optimizer/remove_unused_columns.cpp], which runs
    after the transfer optimizer: it collects pointers to the references of
    each column on its way down, drops the columns that have none, and assigns
    new bindings to the references of the others, and to the columns of
    filters.  The bindings of references are a store; an expression that is
    destroyed leaves it, so that a pointer that dangles can be told. *)

From S2P Require Import Prelude BloomFilter LogicalPlan ColumnResolver PlanColumns.
Local Open Scope Z_scope.
Local Open Scope machine_scope.

(** ** State *)

Abbreviation references := (gmap ColumnBinding (list nat)).

(** The visitor: [everything_referenced] and [column_references]. *)
Record RemoveUnusedColumns := mkRemover { everything_referenced : bool; column_references : references }.

(** What visitors share: the bindings of references, the next address and the
    next table index of the binder, and the filters. *)
Record columns_world := mkWorld { store : binding_store; next_ref : nat; next_table : Z; filters : list BlockedBloomFilter }.

Definition set_store (σ : binding_store) (w : columns_world) : columns_world := mkWorld σ w.(next_ref) w.(next_table) w.(filters).

(** ** References *)

(** [VisitReplace] of a column reference. *)
Definition push_reference (R : references) (b : ColumnBinding) (p : nat) : references := <[b := default [] (R !! b) ++ [p]]> R.

(** [VisitExpression]. *)
Fixpoint VisitExpression (σ : binding_store) (e : bound_expression) (R : references) : outcome references :=
  match e with
  | ColumnRef p => let* b := deref (σ !! p) in Ret (push_reference R b p)
  | Reference _ => Throw "BoundReferenceExpression should not be used here yet!"
  | Apply _ es => (fix go es R := match es with [] => Ret R | e :: es => let* R := VisitExpression σ e R in go es R end) es R
  end.

Definition VisitExpressions (σ : binding_store) (es : list bound_expression) (R : references) : outcome references :=
  ofold (λ R e, VisitExpression σ e R) es R.

(** An expression is destroyed. *)
Definition destroy (e : bound_expression) (σ : binding_store) : binding_store := foldr delete σ (expr_refs e).

(** A reference that is pointed to gets a new binding. *)
Definition assign (b : ColumnBinding) (σ : binding_store) (p : nat) : outcome binding_store :=
  let* _ := deref (σ !! p) in Ret (<[p := b]> σ).

(** [ReplaceBinding]. *)
Definition ReplaceBinding (R : references) (current_binding new_binding : ColumnBinding) (σ : binding_store) : outcome binding_store :=
  match R !! current_binding with
  | Some colrefs => ofold (assign new_binding) colrefs σ
  | None => Ret σ
  end.

(** [ClearUnusedExpressions]: what the list holds is destroyed by [free].  After
    an erasure [col_idx--] and the [col_idx++] of the loop leave the index as it
    was, also when it is 0. *)
Section Clear.
  Context {T : Type} (free : T → binding_store → binding_store) (table_idx : Z) (replace : bool) (R : references).

Fixpoint clear_loop (n : nat) (l : list T) (col_idx offset : nat) (σ : binding_store) : outcome (list T * binding_store) :=
  match n with
  | O => NoFuel
  | S n =>
      if (length l <=? col_idx)%nat then Ret (l, σ) else
      let current_binding := column table_idx (col_idx + offset) in
      match R !! current_binding with
      | None =>
          let* x := vec_at l col_idx in
          clear_loop n (delete col_idx l) col_idx (S offset) (free x σ)
      | Some _ =>
          let* σ := if (0 <? offset)%nat && replace then ReplaceBinding R current_binding (column table_idx col_idx) σ else Ret σ in
          clear_loop n l (S col_idx) offset σ
      end
  end.

Definition ClearUnusedExpressions (l : list T) (σ : binding_store) : outcome (list T * binding_store) := clear_loop (S (length l)) l 0 0 σ.
End Clear.

(** ** Joins *)

(** The references to the right side of [X = Y] become references to the left
    side.  The loop appends to the list of the left side; if that is the list it
    goes through, its iterator is invalid. *)
Definition replace_right (st : references * binding_store) (cond : BoundCondition) : outcome (references * binding_store) :=
  let '(R, σ) := st in
  match cond.(cond_left), cond.(cond_right) with
  | ColumnRef lhs, ColumnRef rhs =>
      if decide (cond.(cond_comparison) = COMPARE_EQUAL) then
        let* lb := deref (σ !! lhs) in
        let* rb := deref (σ !! rhs) in
        match R !! rb with
        | None => Ret st
        | Some colrefs =>
            if decide (lb = rb ∧ colrefs ≠ []) then Undef else
            let* (R, σ) := ofold (λ st p, let* σ := assign lb st.2 p in Ret (push_reference st.1 lb p, σ)) colrefs (R, σ) in
            Ret (delete rb R, σ)
        end
      else Ret st
  | _, _ => Ret st
  end.

(** After the children: conditions that have become equal. *)
Definition same_condition (σ : binding_store) (c d : BoundCondition) : bool :=
  bool_decide (c.(cond_comparison) = d.(cond_comparison)) && bound_equals σ c.(cond_left) d.(cond_left) && bound_equals σ c.(cond_right) d.(cond_right).

Fixpoint unique_loop (σ : binding_store) (conds unique : list BoundCondition) : list BoundCondition :=
  match conds with
  | [] => unique
  | c :: conds => unique_loop σ conds (if existsb (same_condition σ c) unique then unique else unique ++ [c])
  end.

(** Those that are left out are destroyed when the vector is replaced. *)
Fixpoint dropped_loop (σ : binding_store) (conds unique : list BoundCondition) : list BoundCondition :=
  match conds with
  | [] => []
  | c :: conds =>
      if existsb (same_condition σ c) unique then c :: dropped_loop σ conds unique else dropped_loop σ conds (unique ++ [c])
  end.

Definition destroy_condition (c : BoundCondition) (σ : binding_store) : binding_store := destroy c.(cond_right) (destroy c.(cond_left) σ).

Definition set_conditions (conds : list BoundCondition) (j : LogicalComparisonJoin) : LogicalComparisonJoin :=
  mkComparisonJoin j.(comp_type) j.(comp_mark) j.(comp_duplicates) conds j.(comp_expressions) j.(left_projection_map) j.(right_projection_map).

Definition unique_conditions (j : LogicalComparisonJoin) (σ : binding_store) : LogicalComparisonJoin * binding_store :=
  (set_conditions (unique_loop σ j.(comp_conditions) []) j, foldr destroy_condition σ (dropped_loop σ j.(comp_conditions) [])).

(** ** Scans *)

(** The columns with table filters are kept. *)
Definition keep_filter_column (g : LogicalGet) (R : references) (column_id : Z) : outcome references :=
  match list_find (column_id =.) g.(column_ids) with
  | None => Throw "Could not find column index for table filter"
  | Some (index, _) =>
      let filter_binding := column g.(get_index) index in
      match R !! filter_binding with Some _ => Ret R | None => Ret (<[filter_binding := []]> R) end
  end.

(** The positions in [col_sel] of the columns of [proj_sel]: the inner loop
    goes on where it stopped. *)
Fixpoint match_columns (proj_sel col_sel : list nat) (col_idx : nat) : list nat :=
  match proj_sel with
  | [] => []
  | proj_sel_idx :: proj_sel =>
      match list_find (proj_sel_idx =.) (drop col_idx col_sel) with
      | Some (k, _) => (col_idx + k)%nat :: match_columns proj_sel col_sel (col_idx + k)
      | None => match_columns proj_sel col_sel (length col_sel)
      end
  end.

Definition prune_get (g : LogicalGet) (R : references) (σ : binding_store) : outcome (LogicalGet * references * binding_store) :=
  let proj_sel := seq 0 (length g.(column_ids)) in
  let col_sel := proj_sel in
  let* (proj_sel, σ) := ClearUnusedExpressions (λ _ σ, σ) g.(get_index) false R proj_sel σ in
  let* R := ofold (keep_filter_column g) g.(table_filters) R in
  let* (col_sel, σ) := ClearUnusedExpressions (λ _ σ, σ) g.(get_index) true R col_sel σ in
  let* ids := select_all g.(column_ids) col_sel in
  let projection_ids := if g.(filter_prune) then g.(projection_ids) ++ match_columns proj_sel col_sel 0 else g.(projection_ids) in
  let ids := if decide (ids = []) then [COLUMN_IDENTIFIER_ROW_ID] else ids in
  Ret (mkGet g.(get_index) ids projection_ids g.(projected_input) g.(table_filters) g.(projection_pushdown) g.(filter_prune) g.(get_expressions), R, σ).

(** [ResolveOperatorTypes]: what it changes besides the types is that a scan
    without columns reads the row ids. *)
Definition resolve_get (g : LogicalGet) : LogicalGet :=
  if decide (g.(column_ids) = []) then
    mkGet g.(get_index) [COLUMN_IDENTIFIER_ROW_ID] g.(projection_ids) g.(projected_input) g.(table_filters) g.(projection_pushdown) g.(filter_prune) g.(get_expressions)
  else g.

Definition resolve_kind (k : logical_kind) : logical_kind := match k with Get g => Get (resolve_get g) | _ => k end.

Fixpoint ResolveOperatorTypes (op : column_plan) : column_plan := match op with Node k cs => Node (resolve_kind k) (map ResolveOperatorTypes cs) end.

(** ** Projections and aggregates *)

(** [BoundConstantExpression(Value::INTEGER(42))], and COUNT( * ). *)
Definition constant_42 : bound_expression := Apply 42 [].
Definition count_star : bound_expression := Apply 0 [].

Definition prune_projection (st : RemoveUnusedColumns) (t : Z) (es : list bound_expression) (σ : binding_store) : outcome (list bound_expression * binding_store) :=
  if st.(everything_referenced) then Ret (es, σ) else
  let* (es, σ) := ClearUnusedExpressions destroy t true st.(column_references) es σ in
  Ret (if decide (es = []) then [constant_42] else es, σ).

Definition set_aggregates (es : list bound_expression) (a : LogicalAggregate) : LogicalAggregate :=
  mkAggregate a.(group_index) a.(aggregate_index) a.(groupings_index) a.(grouping_functions) a.(aggr_groups) es.

Definition prune_aggregate (st : RemoveUnusedColumns) (a : LogicalAggregate) (σ : binding_store) : outcome (LogicalAggregate * binding_store) :=
  if st.(everything_referenced) then Ret (a, σ) else
  let* (es, σ) := ClearUnusedExpressions destroy a.(aggregate_index) true st.(column_references) a.(aggr_expressions) σ in
  Ret (set_aggregates (if decide (es = [] ∧ a.(aggr_groups) = []) then [count_star] else es) a, σ).

(** New references to the columns of a child, one per entry. *)
Fixpoint new_references (bs : list ColumnBinding) (entries : list nat) (w : columns_world) : outcome (list bound_expression * columns_world) :=
  match entries with
  | [] => Ret ([], w)
  | i :: entries =>
      let* b := vec_at bs i in
      let* (es, w') := new_references bs entries (mkWorld (<[w.(next_ref) := b]> w.(store)) (S w.(next_ref)) w.(next_table) w.(filters)) in
      Ret (ColumnRef w.(next_ref) :: es, w')
  end.

(** ** Filters *)

(** The loop at the end of [VisitOperator] for [LogicalCreateBF] and [LogicalUseBF]. *)
Definition new_column (R : references) (σ : binding_store) (v : ColumnBinding) : outcome ColumnBinding :=
  match R !! v with
  | Some exprs => let* p := vec_at exprs 0 in deref (σ !! p)
  | None => Ret v
  end.

Fixpoint new_columns (R : references) (σ : binding_store) (vs : list ColumnBinding) : outcome (list ColumnBinding) :=
  match vs with
  | [] => Ret []
  | v :: vs => let* v := new_column R σ v in let* vs := new_columns R σ vs in Ret (v :: vs)
  end.

Definition set_cols (create : bool) (cols : list ColumnBinding) (f : BlockedBloomFilter) : BlockedBloomFilter :=
  mkBlockedBloomFilter (if create then f.(column_bindings_applied_) else cols) (if create then cols else f.(column_bindings_built_))
    f.(BoundColsApplied) f.(BoundColsBuilt) f.(log_num_blocks_) f.(num_blocks_) f.(use_64bit_hashes_) f.(blocks_) f.(Used_).

Definition update_filter (create : bool) (R : references) (σ : binding_store) (F : list BlockedBloomFilter) (x : nat) : outcome (list BlockedBloomFilter) :=
  let* f := deref (F !! x) in
  let* cols := new_columns R σ (cols_of create f) in
  Ret (<[x := set_cols create cols f]> F).

Definition update_filters (create : bool) (bfs : list nat) (st : RemoveUnusedColumns) (w : columns_world) : outcome columns_world :=
  let* F := ofold (update_filter create st.(column_references) w.(store)) bfs w.(filters) in
  Ret (mkWorld w.(store) w.(next_ref) w.(next_table) F).

(** ** Operators *)

Abbreviation visitor := (column_plan → RemoveUnusedColumns → columns_world → outcome (column_plan * RemoveUnusedColumns * columns_world)).

(** [VisitOperatorChildren]: one visitor for all children. *)
Fixpoint VisitOperatorChildren (visit : visitor) (cs : list column_plan) (st : RemoveUnusedColumns) (w : columns_world)
    : outcome (list column_plan * RemoveUnusedColumns * columns_world) :=
  match cs with
  | [] => Ret ([], st, w)
  | c :: cs =>
      let* (c, st, w) := visit c st w in
      let* (cs, st, w) := VisitOperatorChildren visit cs st w in
      Ret (c :: cs, st, w)
  end.

(** A new visitor for a child. *)
Definition visit_new (visit : visitor) (everything : bool) (R : references) (c : column_plan) (w : columns_world) : outcome (column_plan * columns_world) :=
  let* (c, _, w) := visit c (mkRemover everything R) w in Ret (c, w).

(** A loop over the children in which each has its own visitor. *)
Fixpoint visit_each (step : column_plan → columns_world → outcome (column_plan * columns_world)) (cs : list column_plan) (w : columns_world)
    : outcome (list column_plan * columns_world) :=
  match cs with
  | [] => Ret ([], w)
  | c :: cs =>
      let* (c, w) := step c w in
      let* (cs, w) := visit_each step cs w in
      Ret (c :: cs, w)
  end.

(** Everything is referenced in each child. *)
Definition visit_all (visit : visitor) (cs : list column_plan) (w : columns_world) : outcome (list column_plan * columns_world) :=
  visit_each (visit_new visit true ∅) cs w.

(** The expressions of an operator and its first child, by a new visitor. *)
Definition visit_below (visit : visitor) (everything : bool) (k : logical_kind) (cs : list column_plan) (w : columns_world) : outcome (column_plan * columns_world) :=
  let* R := VisitExpressions w.(store) (EnumerateExpressions k) ∅ in
  let* c := vec_at cs 0 in
  let* (c, w) := visit_new visit everything R c w in
  Ret (Node k (<[0%nat := c]> cs), w).

(** A projection. *)
Definition visit_projection (visit : visitor) (st : RemoveUnusedColumns) (t : Z) (es : list bound_expression) (cs : list column_plan) (w : columns_world)
    : outcome (column_plan * columns_world) :=
  let* (es, σ) := prune_projection st t es w.(store) in
  visit_below visit false (Projection t es) cs (set_store σ w).

(** A child of a UNION that lost columns: a projection on top, visited by a new
    visitor. *)
Definition project_child (visit : visitor) (entries : list nat) (c : column_plan) (w : columns_world) : outcome (column_plan * columns_world) :=
  let c := ResolveOperatorTypes c in
  let* bindings := GetColumnBindings c in
  let* (es, w) := new_references bindings entries w in
  let t := w.(next_table) in
  visit_projection visit (mkRemover true ∅) t es [c] (mkWorld w.(store) w.(next_ref) (t + 1) w.(filters)).

(** The end of the switch: [VisitOperatorExpressions] and [VisitOperatorChildren]. *)
Definition visit_default (visit : visitor) (k : logical_kind) (cs : list column_plan) (st : RemoveUnusedColumns) (w : columns_world)
    : outcome (list column_plan * RemoveUnusedColumns * columns_world) :=
  let* R := VisitExpressions w.(store) (EnumerateExpressions k) st.(column_references) in
  VisitOperatorChildren visit cs (mkRemover st.(everything_referenced) R) w.

(** The case of a scan. *)
Definition visit_get (g : LogicalGet) (st : RemoveUnusedColumns) (w : columns_world) : outcome (LogicalGet * RemoveUnusedColumns * columns_world) :=
  let* R := VisitExpressions w.(store) g.(get_expressions) st.(column_references) in
  if st.(everything_referenced) || negb g.(projection_pushdown) then Ret (g, mkRemover st.(everything_referenced) R, w) else
  let* (g, R, σ) := prune_get g R w.(store) in
  Ret (g, mkRemover false R, set_store σ w).

(** The case of a UNION: the entries that are kept. *)
Definition union_entries (st : RemoveUnusedColumns) (t : Z) (n : nat) (σ : binding_store) : outcome (list nat * binding_store) :=
  if st.(everything_referenced) then Ret (seq 0 n, σ)
  else ClearUnusedExpressions (λ _ σ, σ) t true st.(column_references) (seq 0 n) σ.

(** The case of ORDER BY: the columns of [all_bindings] that are referenced. *)
Definition order_projections (R : references) (all_bindings : list ColumnBinding) : list nat :=
  base.filter (λ i, is_Some (all_bindings !! i ≫= (R !!.))) (seq 0 (length all_bindings)).

(** [VisitOperator]. *)
Fixpoint VisitOperator (n : nat) (op : column_plan) (st : RemoveUnusedColumns) (w : columns_world)
    : outcome (column_plan * RemoveUnusedColumns * columns_world) :=
  match n with
  | O => NoFuel
  | S n =>
      let visit := VisitOperator n in
      let all := mkRemover true st.(column_references) in
      match op with
      | Node (Aggregate a) cs =>
          let* (a, σ) := prune_aggregate st a w.(store) in
          let* (op, w) := visit_below visit false (Aggregate a) cs (set_store σ w) in
          Ret (op, st, w)
      | Node (ComparisonJoin j) cs =>
          let* (R, σ) :=
            if negb st.(everything_referenced) && bool_decide (j.(comp_type) = INNER) then ofold replace_right j.(comp_conditions) (st.(column_references), w.(store))
            else Ret (st.(column_references), w.(store)) in
          let* (cs, st, w) := visit_default visit (ComparisonJoin j) cs (mkRemover st.(everything_referenced) R) (set_store σ w) in
          let '(j, σ) := unique_conditions j w.(store) in
          Ret (Node (ComparisonJoin j) cs, st, set_store σ w)
      | Node (SetOp SET_UNION t count) cs =>
          let* (entries, σ) := union_entries st t count w.(store) in
          let w := set_store σ w in
          if (length entries <? count)%nat then
            let entries := if decide (entries = []) then [0%nat] else entries in
            let* (cs, w) := visit_each (project_child visit entries) cs w in
            Ret (Node (SetOp SET_UNION t (length entries)) cs, st, w)
          else
            let* (cs, w) := visit_all visit cs w in
            Ret (Node (SetOp SET_UNION t count) cs, st, w)
      | Node (SetOp kind t count) cs =>
          let* (cs, w) := visit_all visit cs w in
          Ret (Node (SetOp kind t count) cs, st, w)
      | Node (Order orders projections) cs =>
          let* projections :=
            if st.(everything_referenced) then Ret projections else
            let* all_bindings := GetColumnBindings op in
            Ret (projections ++ order_projections st.(column_references) all_bindings) in
          let* (cs, w) := visit_all visit cs w in
          Ret (Node (Order orders projections) cs, st, w)
      | Node (Projection t es) cs =>
          let* (op, w) := visit_projection visit st t es cs w in
          Ret (op, st, w)
      | Node (Modify es excluded cols) cs =>
          let* (op, w) := visit_below visit true (Modify es excluded cols) cs w in
          Ret (op, st, w)
      | Node (Get g) cs =>
          let* (g, st, w) := visit_get g st w in
          Ret (Node (Get g) cs, st, w)
      | Node (Filter es projection_map) cs =>
          let* (cs, st, w) := visit_default visit (Filter es projection_map) cs (if decide (projection_map = []) then st else all) w in
          Ret (Node (Filter es projection_map) cs, st, w)
      | Node (BloomOp create bfs) cs =>
          let* (cs, st, w) := visit_default visit (BloomOp create bfs) cs st w in
          let* w := update_filters create bfs st w in
          Ret (Node (BloomOp create bfs) cs, st, w)
      | Node (Other o es out) cs =>
          let* (cs, st, w) := visit_default visit (Other o es out) cs (if references_all o then all else st) w in
          Ret (Node (Other o es out) cs, st, w)
      end
  end.

(** The call in [Optimizer::Optimize], with a visitor that is the root. *)
Definition remove_unused_columns (op : column_plan) (w : columns_world) : outcome (column_plan * columns_world) :=
  let* (op, _, w) := VisitOperator (depth op) op (mkRemover true ∅) w in Ret (op, w).
