(* ===== verification/RemoveBase.v ===== *)
(** * RemoveBase: references, and lists that lose elements

    The loops of [RemoveColumns]: what the map of references holds after
    expressions were visited, what [ClearUnusedExpressions] keeps of a list and
    the bindings it assigns, and how the conditions of an inner join move
    references from one side to the other. *)

From S2P Require Import Prelude BloomFilter LogicalPlan ColumnResolver PlanColumns RemoveColumns.
Local Open Scope Z_scope.
Local Open Scope machine_scope.

(** ** The references of a column *)

Definition refs_at (R : references) (b : ColumnBinding) : list nat := default [] (R !! b).

Lemma refs_at_Some (R : references) b p : p ∈ refs_at R b → is_Some (R !! b).
Proof. unfold refs_at. destruct (R !! b); [eauto|]. by intros ?%elem_of_nil. Qed.

Lemma refs_at_ne (R : references) b : refs_at R b ≠ [] → is_Some (R !! b).
Proof. unfold refs_at. destruct (R !! b); [eauto|done]. Qed.

Lemma refs_at_push (R : references) b p b' : refs_at (push_reference R b p) b' = refs_at R b' ++ (if decide (b = b') then [p] else []).
Proof.
  unfold refs_at, push_reference. case_decide as E; [subst b'; by rewrite lookup_insert_eq|]. by rewrite lookup_insert_ne, app_nil_r.
Qed.

Lemma push_Some (R : references) b p b' : is_Some (push_reference R b p !! b') ↔ is_Some (R !! b') ∨ b = b'.
Proof.
  unfold push_reference. destruct (decide (b = b')) as [<-|Hne]; [rewrite lookup_insert_eq; naive_solver|]. rewrite lookup_insert_ne by done. naive_solver.
Qed.

(** The references among [ps] that have the binding [b]. *)
Definition bound_to (σ : binding_store) (ps : list nat) (b : ColumnBinding) : list nat := base.filter (λ p, σ !! p = Some b) ps.

Definition push_all (σ : binding_store) (R : references) (ps : list nat) : references :=
  foldl (λ R p, match σ !! p with Some b => push_reference R b p | None => R end) R ps.

Lemma push_all_cons σ R p ps : push_all σ R (p :: ps) = push_all σ (match σ !! p with Some b => push_reference R b p | None => R end) ps.
Proof. done. Qed.

Lemma push_all_app σ R ps qs : push_all σ R (ps ++ qs) = push_all σ (push_all σ R ps) qs.
Proof. apply foldl_app. Qed.

Lemma refs_at_push_all σ R ps b : refs_at (push_all σ R ps) b = refs_at R b ++ bound_to σ ps b.
Proof.
  revert R. induction ps as [|p ps IH]; intros R; [by rewrite app_nil_r|]. rewrite push_all_cons, IH. unfold bound_to.
  rewrite filter_cons. destruct (σ !! p) as [b'|] eqn:E; [|by rewrite decide_False by done].
  rewrite refs_at_push, <- app_assoc. f_equal. destruct (decide (b' = b)) as [->|Hne]; [by rewrite decide_True|by rewrite decide_False by congruence].
Qed.

Lemma push_all_Some σ R ps b : is_Some (push_all σ R ps !! b) ↔ is_Some (R !! b) ∨ bound_to σ ps b ≠ [].
Proof.
  revert R. induction ps as [|p ps IH]; intros R; [unfold bound_to; naive_solver|]. rewrite push_all_cons, IH. unfold bound_to.
  rewrite filter_cons. destruct (σ !! p) as [b'|] eqn:E; [|rewrite decide_False by done; naive_solver].
  rewrite push_Some. destruct (decide (b' = b)) as [->|Hne]; [rewrite decide_True by done; naive_solver|rewrite decide_False by congruence; naive_solver].
Qed.

Lemma push_all_other σ R ps b : (∀ p, p ∈ ps → σ !! p ≠ Some b) → push_all σ R ps !! b = R !! b.
Proof.
  revert R. induction ps as [|p ps IH]; intros R H; [done|]. rewrite push_all_cons, IH by (intros q ?; apply H; by right). pose proof (H p (list_elem_of_here _ _)) as Hp.
  destruct (σ !! p) as [b'|]; [|done]. unfold push_reference. apply lookup_insert_ne. congruence.
Qed.

Lemma elem_of_bound_to σ ps b p : p ∈ bound_to σ ps b ↔ p ∈ ps ∧ σ !! p = Some b.
Proof. unfold bound_to. rewrite list_elem_of_filter. naive_solver. Qed.

Lemma push_all_new σ R ps b p : p ∈ ps → σ !! p = Some b → p ∈ refs_at (push_all σ R ps) b.
Proof. intros Hp Hb. rewrite refs_at_push_all. apply elem_of_app. right. by apply elem_of_bound_to. Qed.

(** Visiting expressions whose references are there. *)
Definition live (σ : binding_store) (ps : list nat) : Prop := ∀ p, p ∈ ps → is_Some (σ !! p).

Lemma VisitExpression_ok σ e R : expr_unbound e = true → live σ (expr_refs e) → VisitExpression σ e R = Ret (push_all σ R (expr_refs e)).
Proof.
  revert R. induction e as [p|i|f es IH] using bound_expression_nested_ind; intros R Hu Hl; [| done |].
  - destruct (Hl p) as [b Hb]; [left|]. simpl. unfold push_all. simpl. by rewrite Hb.
  - cbn [VisitExpression expr_refs]. simpl in Hu. cbn [expr_refs] in Hl. revert R. induction IH as [|e es He _ IH]; intros R; [done|].
    simpl in Hu, Hl. apply andb_true_iff in Hu as [Hu1 Hu2]. rewrite He; [|done|intros p Hp; apply Hl; apply elem_of_app; by left]. orun.
    cbn [map concat]. rewrite push_all_app. apply IH; [done|]. intros p Hp. apply Hl. apply elem_of_app. by right.
Qed.

Lemma VisitExpressions_ok σ es R : forallb expr_unbound es = true → live σ (exprs_refs es) → VisitExpressions σ es R = Ret (push_all σ R (exprs_refs es)).
Proof.
  unfold VisitExpressions, exprs_refs. revert R. induction es as [|e es IH]; intros R Hu Hl; [done|]. simpl in Hu, Hl. apply andb_true_iff in Hu as [Hu1 Hu2].
  cbn [ofold map concat]. rewrite VisitExpression_ok; [|done|intros p Hp; apply Hl; apply elem_of_app; by left]. orun.
  rewrite push_all_app. apply IH; [done|]. intros p Hp. apply Hl. apply elem_of_app. by right.
Qed.

(** ** Assigning and destroying *)

Lemma assign_all_ok (b : ColumnBinding) ps σ : live σ ps → ∃ σ', ofold (assign b) ps σ = Ret σ' ∧ ∀ p, σ' !! p = if decide (p ∈ ps) then Some b else σ !! p.
Proof.
  revert σ. induction ps as [|p ps IH]; intros σ Hl; [exists σ; split; [done|]; intros p; by rewrite decide_False by (by intros ?%elem_of_nil)|].
  destruct (Hl p) as [b0 Hb0]; [left|]. cbn [ofold]. unfold assign at 1. rewrite Hb0. orun.
  destruct (IH (<[p := b]> σ)) as (σ' & E & Hσ').
  { intros q Hq. destruct (decide (p = q)) as [<-|Hne]; [rewrite lookup_insert_eq; eauto|]. rewrite lookup_insert_ne by done. apply Hl. by right. }
  exists σ'. split; [done|]. intros q. rewrite Hσ'. destruct (decide (q ∈ ps)) as [Hq|Hq].
  - rewrite decide_True; [done|by right].
  - destruct (decide (p = q)) as [<-|Hne]; [by rewrite lookup_insert_eq, decide_True by left|].
    rewrite lookup_insert_ne, decide_False; [done| |done]. intros [->|?]%elem_of_cons; done.
Qed.

Lemma ReplaceBinding_ok R b b' σ : live σ (refs_at R b) → ∃ σ', ReplaceBinding R b b' σ = Ret σ' ∧ ∀ p, σ' !! p = if decide (p ∈ refs_at R b) then Some b' else σ !! p.
Proof.
  unfold ReplaceBinding, refs_at. destruct (R !! b) as [ps|]; intros Hl; [by apply assign_all_ok|].
  exists σ. split; [done|]. intros p. rewrite decide_False; [done|]. by intros ?%elem_of_nil.
Qed.

Lemma foldr_delete_lookup (σ : binding_store) ps p : foldr delete σ ps !! p = if decide (p ∈ ps) then None else σ !! p.
Proof.
  induction ps as [|q ps IH]; cbn [foldr]; [by rewrite decide_False by (by intros ?%elem_of_nil)|].
  destruct (decide (q = p)) as [->|Hne]; [by rewrite lookup_delete_eq, decide_True by left|]. rewrite lookup_delete_ne, IH by done.
  destruct (decide (p ∈ ps)); [by rewrite decide_True by (by right)|]. rewrite decide_False; [done|]. intros [->|?]%elem_of_cons; done.
Qed.

(** ** Lists that lose elements *)

Section Clear.
  Context {T : Type} (freed : T → list nat) (t : Z) (R : references).

Definition kept (i : nat) : bool := match R !! column t i with Some _ => true | None => false end.

Lemma kept_true i : kept i = true ↔ is_Some (R !! column t i).
Proof. unfold kept. destruct (R !! column t i); split; intros ?; naive_solver. Qed.

(** The elements of a list that are kept, counting from [i], and the place of
    element [i] among them. *)
Fixpoint keep_from (i : nat) (l : list T) : list T :=
  match l with [] => [] | x :: l => if kept i then x :: keep_from (S i) l else keep_from (S i) l end.

Definition rank (i : nat) : nat := length (base.filter (λ j, kept j = true) (seq 0 i)).

Lemma rank_S i : rank (S i) = if kept i then S (rank i) else rank i.
Proof.
  unfold rank. rewrite seq_S, filter_app, length_app, filter_cons, filter_nil. simpl. destruct (kept i); simpl; lia.
Qed.

Lemma rank_le i : (rank i ≤ i)%nat.
Proof. induction i as [|i IH]; [unfold rank; simpl; lia|]. rewrite rank_S. destruct (kept i); lia. Qed.

Lemma rank_all i : (∀ j, (j < i)%nat → kept j = true) → rank i = i.
Proof. induction i as [|i IH]; intros H; [done|]. rewrite rank_S, (H i) by lia. f_equal. apply IH. intros; apply H; lia. Qed.

Lemma keep_from_lookup l i j x : l !! j = Some x → kept (i + j) = true → ∃ k, keep_from i l !! k = Some x ∧ (k + rank i = rank (i + j))%nat.
Proof.
  revert i j. induction l as [|y l IH]; intros i [|j] Hj Hk; try done.
  - injection Hj as ->. rewrite Nat.add_0_r in *. exists 0%nat. simpl. rewrite Hk. done.
  - simpl in Hj. destruct (IH (S i) j Hj) as (k & Hl & Er); [by replace (S i + j)%nat with (i + S j)%nat by lia|].
    replace (S i + j)%nat with (i + S j)%nat in Er by lia. rewrite rank_S in Er. simpl. destruct (kept i); [exists (S k); split; [done|lia]|exists k; split; [done|lia]].
Qed.

Lemma keep_lookup l i x : l !! i = Some x → kept i = true → keep_from 0 l !! rank i = Some x.
Proof. intros Hi Hk. destruct (keep_from_lookup l 0 i x Hi Hk) as (k & E & Hr). change (rank 0) with 0%nat in Hr. by replace (rank i) with k by (simpl in Hr; lia). Qed.

Lemma keep_from_sublist i l : sublist (keep_from i l) l.
Proof. revert i. induction l as [|x l IH]; intros i; simpl; [constructor|]. destruct (kept i); by constructor. Qed.

Lemma keep_from_nil i l : keep_from i l = [] → ∀ j, (j < length l)%nat → kept (i + j) = false.
Proof.
  revert i. induction l as [|x l IH]; intros i E j Hj; simpl in *; [lia|]. destruct (kept i) eqn:Ek; [done|]. destruct j as [|j]; [by rewrite Nat.add_0_r|].
  replace (i + S j)%nat with (S i + j)%nat by lia. apply IH; [done|lia].
Qed.

Lemma elem_of_keep_from i l x : x ∈ keep_from i l → ∃ j, l !! j = Some x ∧ kept (i + j) = true.
Proof.
  revert i. induction l as [|y l IH]; intros i Hx; simpl in Hx; [by apply elem_of_nil in Hx|]. destruct (kept i) eqn:Ek.
  - apply elem_of_cons in Hx as [->|Hx]; [exists 0%nat; by rewrite Nat.add_0_r|]. destruct (IH _ Hx) as (j & ? & ?). exists (S j). by replace (i + S j)%nat with (S i + j)%nat by lia.
  - destruct (IH _ Hx) as (j & ? & ?). exists (S j). by replace (i + S j)%nat with (S i + j)%nat by lia.
Qed.

(** The references to the columns of the list. *)
Definition list_refs (from n : nat) (p : nat) : Prop := ∃ i, (from ≤ i < n)%nat ∧ p ∈ refs_at R (column t i).

Context (free : T → binding_store → binding_store) (Hfree : ∀ x σ, free x σ = foldr delete σ (freed x)).

Lemma column_inj i j : column t i = column t j → i = j.
Proof. unfold column. intros [= ?]. lia. Qed.

Definition frees (l : list T) : list nat := concat (map freed l).

Lemma frees_keep i l p : p ∈ frees (keep_from i l) → p ∈ frees l.
Proof.
  unfold frees. intros Hp. apply list_elem_of_In, in_concat in Hp as (ps & Hps & Hp). apply in_map_iff in Hps as (x & <- & Hx%list_elem_of_In).
  apply list_elem_of_In, in_concat. exists (freed x). split; [|done]. apply in_map, list_elem_of_In. eapply sublist_subseteq; [apply keep_from_sublist|done].
Qed.

(** The loop, when the elements before [i] are done: every reference to an
    element that is kept gets its place, those of the elements that are dropped
    are destroyed, and nothing else changes. *)
Lemma clear_loop_ok (replace : bool) rest : ∀ before i σ n,
  length before = rank i → (length rest < n)%nat → NoDup (frees rest) →
  (∀ j p, (i ≤ j < i + length rest)%nat → p ∈ refs_at R (column t j) → σ !! p = Some (column t j) ∧ p ∉ frees rest) →
  ∃ σ', clear_loop free t replace R n (before ++ rest) (rank i) (i - rank i) σ = Ret (before ++ keep_from i rest, σ') ∧
    (∀ j p, (i ≤ j < i + length rest)%nat → p ∈ refs_at R (column t j) → σ' !! p = Some (column t (if replace then rank j else j))) ∧
    (∀ p, ¬ list_refs i (i + length rest) p → p ∉ frees rest ∨ p ∈ frees (keep_from i rest) → σ' !! p = σ !! p) ∧
    (∀ p, is_Some (σ' !! p) → is_Some (σ !! p)).
Proof.
  induction rest as [|x rest IH]; intros before i σ n Hlen Hn Hnd Hok; (destruct n as [|n]; [simpl in Hn; lia|]); cbn [clear_loop].
  { rewrite (proj2 (Nat.leb_le _ _)) by (rewrite length_app; simpl; lia). exists σ. split_and!; [done| |done|done]. simpl. lia. }
  rewrite (proj2 (Nat.leb_gt _ _)) by (rewrite length_app; simpl; lia). pose proof (rank_le i) as Hle. replace (rank i + (i - rank i))%nat with i by lia.
  simpl in Hn, Hok. change (frees (x :: rest)) with (freed x ++ frees rest) in *. apply NoDup_app in Hnd as (Hnx & Hdis & Hnd).
  pose proof (rank_S i) as Hr. unfold kept in Hr. destruct (R !! column t i) as [ps|] eqn:E.
  - assert (∀ p, p ∈ refs_at R (column t i) → σ !! p = Some (column t i)) as Hi by (intros p Hp; apply (Hok i); [lia|done]).
    assert (∃ σ1, (if (0 <? i - rank i)%nat && replace then ReplaceBinding R (column t i) (column t (rank i)) σ else Ret σ) = Ret σ1 ∧
      ∀ p, σ1 !! p = if decide (p ∈ refs_at R (column t i)) then Some (column t (if replace then rank i else i)) else σ !! p) as (σ1 & -> & Hσ1).
    { destruct (0 <? i - rank i)%nat eqn:Eo; simpl; [destruct replace|].
      - apply ReplaceBinding_ok. intros p Hp. rewrite (Hi p Hp). eauto.
      - exists σ. split; [done|]. intros p. case_decide; auto.
      - exists σ. split; [done|]. apply Nat.ltb_ge in Eo. intros p. case_decide; [|done]. replace (rank i) with i by lia. destruct replace; auto. }
    orun. destruct (IH (before ++ [x]) (S i) σ1 n) as (σ' & E' & H1 & H2 & H3); [rewrite length_app; simpl; lia|lia|done| |].
    { intros j p Hj Hp. destruct (Hok j p) as [Hjp Hf]; [lia|done|]. split; [|intros ?; apply Hf; apply elem_of_app; by right].
      rewrite Hσ1, decide_False; [done|]. intros Hp'. rewrite (Hi p Hp') in Hjp. injection Hjp as Hjp. lia. }
    rewrite Hr in E'. replace (S i - S (rank i))%nat with (i - rank i)%nat in E' by lia. rewrite <- !app_assoc in E'. exists σ'. split_and!.
    + etrans; [exact E'|]. simpl. unfold kept. by rewrite E.
    + intros j p Hj Hp. simpl in Hj. destruct (decide (j = i)) as [->|Hne]; [|apply H1; [lia|done]]. destruct (Hok i p) as [Hjp Hf]; [lia|done|].
      rewrite H2; [by rewrite Hσ1, decide_True| |left; intros ?; apply Hf; apply elem_of_app; by right].
      intros (k & Hk & Hpk). destruct (Hok k p) as [Hkp _]; [lia|done|]. rewrite Hjp in Hkp. injection Hkp as Hkp. lia.
    + intros p Hp Hf. rewrite H2.
      * rewrite Hσ1, decide_False; [done|]. intros Hp'. apply Hp. exists i. split; [simpl; lia|done].
      * intros (k & Hk & Hpk). apply Hp. exists k. split; [simpl; lia|done].
      * simpl in Hf. unfold kept in Hf. rewrite E in Hf. change (frees (x :: keep_from (S i) rest)) with (freed x ++ frees (keep_from (S i) rest)) in Hf.
        destruct Hf as [Hf|[Hf|Hf]%elem_of_app]; [left; intros ?; apply Hf; apply elem_of_app; by right|left; by apply Hdis|by right].
    + intros p Hp%H3. rewrite Hσ1 in Hp. case_decide; [rewrite Hi by done; eauto|done].
  - assert (vec_at (before ++ x :: rest) (rank i) = Ret x) as -> by (unfold vec_at; by rewrite <- Hlen, list_lookup_middle). orun.
    assert (delete (rank i) (before ++ x :: rest) = before ++ rest) as -> by (rewrite <- Hlen; apply delete_middle).
    destruct (IH before (S i) (free x σ) n) as (σ' & E' & H1 & H2 & H3); [lia|lia|done| |].
    { intros j p Hj Hp. destruct (Hok j p) as [Hjp Hf]; [lia|done|]. rewrite Hfree, foldr_delete_lookup. split; [rewrite decide_False; [done|]|]; intros ?; apply Hf; apply elem_of_app; auto. }
    rewrite Hr in E'. replace (S i - rank i)%nat with (S (i - rank i))%nat in E' by lia. exists σ'. split_and!.
    + etrans; [exact E'|]. simpl. unfold kept. by rewrite E.
    + intros j p Hj Hp. simpl in Hj. destruct (decide (j = i)) as [->|Hne]; [|apply H1; [lia|done]]. unfold refs_at in Hp. rewrite E in Hp. by apply elem_of_nil in Hp.
    + intros p Hp Hf. simpl in Hf. unfold kept in Hf. rewrite E in Hf. assert (p ∉ freed x) as Hx.
      { intros Hx. destruct Hf as [Hf|Hf]; [apply Hf; apply elem_of_app; by left|]. apply (Hdis p Hx). by eapply frees_keep. }
      rewrite H2; [by rewrite Hfree, foldr_delete_lookup, decide_False| |].
      * intros (k & Hk & Hpk). apply Hp. exists k. split; [simpl; lia|done].
      * destruct Hf as [Hf|Hf]; [left; intros ?; apply Hf; apply elem_of_app; by right|by right].
    + intros p Hp%H3. rewrite Hfree, foldr_delete_lookup in Hp. case_decide; [by destruct Hp|done].
Qed.

Lemma ClearUnusedExpressions_ok (replace : bool) l σ :
  NoDup (frees l) → (∀ j p, (j < length l)%nat → p ∈ refs_at R (column t j) → σ !! p = Some (column t j) ∧ p ∉ frees l) →
  ∃ σ', ClearUnusedExpressions free t replace R l σ = Ret (keep_from 0 l, σ') ∧
    (∀ j p, (j < length l)%nat → p ∈ refs_at R (column t j) → σ' !! p = Some (column t (if replace then rank j else j))) ∧
    (∀ p, ¬ list_refs 0 (length l) p → p ∉ frees l ∨ p ∈ frees (keep_from 0 l) → σ' !! p = σ !! p) ∧
    (∀ p, is_Some (σ' !! p) → is_Some (σ !! p)).
Proof.
  intros Hnd Hok. destruct (clear_loop_ok replace l [] 0 σ (S (length l))) as (σ' & E & H1 & H2 & H3); [done|lia|done| |].
  { intros j p Hj. apply Hok. lia. }
  exists σ'. split_and!; [done| |done|done]. intros j p Hj. apply H1. lia.
Qed.
End Clear.

(** ** What a visitor knows

    For the tables [T] of a part of the plan that is not visited yet, with the
    references [Q]: the lists hold references from above it, with the binding
    they are listed under. *)
Record tracks (T : list Z) (Q : list nat) (R : references) (σ : binding_store) : Prop := {
  tracks_bound b p : b.(table_index) ∈ T → p ∈ refs_at R b → σ !! p = Some b ∧ p ∉ Q;
  tracks_ne b : b.(table_index) ∈ T → R !! b ≠ Some []
}.

Lemma tracks_empty T Q σ : tracks T Q ∅ σ.
Proof. split; [intros b p _; unfold refs_at; rewrite lookup_empty; by intros ?%elem_of_nil|]. intros b _. by rewrite lookup_empty. Qed.

Lemma tracks_weaken T T' Q Q' R σ : tracks T Q R σ → (∀ t, t ∈ T' → t ∈ T) → (∀ p, p ∈ Q' → p ∈ Q) → tracks T' Q' R σ.
Proof. intros [H1 H2] HT HQ. split; [|auto]. intros b p Hb Hp. destruct (H1 b p) as [? Hq]; [auto|done|]. auto. Qed.

(** The expressions of an operator are visited. *)
Lemma tracks_push T Q R σ ps : tracks T (ps ++ Q) R σ → NoDup (ps ++ Q) → tracks T Q (push_all σ R ps) σ.
Proof.
  intros [H1 H2] (_ & Hd & _)%NoDup_app. split.
  - intros b p Hb. rewrite refs_at_push_all. intros [Hp|[Hp ?]%elem_of_bound_to]%elem_of_app.
    + destruct (H1 b p Hb Hp) as [? Hq]. split; [done|]. intros ?. apply Hq, elem_of_app. by right.
    + split; [done|]. by apply Hd.
  - intros b Hb E. assert (is_Some (push_all σ R ps !! b)) as Hs by (rewrite E; eauto). apply push_all_Some in Hs.
    assert (refs_at (push_all σ R ps) b = []) as Hn by (unfold refs_at; by rewrite E). rewrite refs_at_push_all in Hn. apply app_eq_nil in Hn as [Hr Hn].
    destruct Hs as [[l Hl]|]; [|done]. unfold refs_at in Hr. rewrite Hl in Hr. simpl in Hr. subst l. by apply (H2 b).
Qed.

(** Changes elsewhere. *)
Lemma tracks_frame T Q R σ R' σ' :
  tracks T Q R σ → (∀ b, b.(table_index) ∈ T → R' !! b = R !! b) → (∀ b p, b.(table_index) ∈ T → p ∈ refs_at R b → σ' !! p = σ !! p) → tracks T Q R' σ'.
Proof.
  intros [H1 H2] HR Hσ. split; [|intros b Hb; rewrite HR by done; auto]. intros b p Hb. unfold refs_at. rewrite HR by done. intros Hp. rewrite (Hσ b p) by done. auto.
Qed.

(** ** The conditions of an inner join *)

(** References are moved to columns of [L], away from the columns [rs]. *)
Record moved (T : list Z) (Q : list nat) (L rs : list ColumnBinding) (R : references) (σ : binding_store) (R' : references) (σ' : binding_store) : Prop := {
  moved_tracks : tracks T Q R' σ';
  moved_to b : b.(table_index) ∈ T → is_Some (R !! b) → ∃ b', (b' = b ∨ b' ∈ L) ∧ is_Some (R' !! b') ∧ ∀ p, p ∈ refs_at R b → p ∈ refs_at R' b';
  moved_from b p : b.(table_index) ∈ T → p ∈ refs_at R' b → ∃ b0, b0.(table_index) ∈ T ∧ p ∈ refs_at R b0;
  moved_away b : refs_at R b ≠ [] → refs_at R' b ≠ [] ∨ b ∈ rs;
  moved_else b : b.(table_index) ∉ T → R' !! b = R !! b;
  moved_frame p : (∀ b, b.(table_index) ∈ T → p ∉ refs_at R b) → σ' !! p = σ !! p;
  moved_live p : is_Some (σ' !! p) → is_Some (σ !! p)
}.

Lemma moved_refl T Q L R σ : tracks T Q R σ → moved T Q L [] R σ R σ.
Proof. intros Ht. split; try done; eauto. Qed.

Lemma moved_trans T Q L rs rs' R σ R1 σ1 R2 σ2 :
  (∀ l, l ∈ L → l.(table_index) ∈ T) → moved T Q L rs R σ R1 σ1 → moved T Q L rs' R1 σ1 R2 σ2 → moved T Q L (rs ++ rs') R σ R2 σ2.
Proof.
  intros HL [A1 A2 A7 A3 A4 A5 A6] [B1 B2 B7 B3 B4 B5 B6]. split; [done| | | | | |auto].
  - intros b Hb Hs. destruct (A2 b Hb Hs) as (b1 & Hb1 & Hs1 & Hin1). destruct (B2 b1) as (b2 & Hb2 & Hs2 & Hin2); [destruct Hb1 as [->|?]; auto|done|].
    exists b2. split_and!; [|done|auto]. destruct Hb2 as [->|?]; auto.
  - intros b p Hb Hp. destruct (B7 b p Hb Hp) as (b1 & Hb1 & Hp1). eauto.
  - intros b Hb. destruct (A3 b Hb) as [Hb1|?]; [destruct (B3 b Hb1)|]; rewrite elem_of_app; auto.
  - intros b Hb. by rewrite B4, A4.
  - intros p Hp. rewrite B5; [by apply A5|]. intros b Hb Hpb. destruct (A7 b p Hb Hpb) as (b0 & Hb0 & Hp0). by apply (Hp b0).
Qed.

(** The loop over the references of one column. *)
Lemma move_loop lb ps R σ :
  live σ ps → ∃ R' σ', ofold (λ st p, let* σ := assign lb st.2 p in Ret (push_reference st.1 lb p, σ)) ps (R, σ) = Ret (R', σ') ∧
    (∀ p, σ' !! p = if decide (p ∈ ps) then Some lb else σ !! p) ∧ refs_at R' lb = refs_at R lb ++ ps ∧ (∀ b, b ≠ lb → R' !! b = R !! b) ∧
    (is_Some (R' !! lb) ↔ is_Some (R !! lb) ∨ ps ≠ []).
Proof.
  revert R σ. induction ps as [|p ps IH]; intros R σ Hl.
  { exists R, σ. rewrite app_nil_r. split_and!; try done; naive_solver. }
  destruct (Hl p) as [b0 Hb0]; [left|]. cbn [ofold]. unfold assign at 1. simpl. rewrite Hb0. orun.
  destruct (IH (push_reference R lb p) (<[p := lb]> σ)) as (R' & σ' & E & H1 & H2 & H3 & H4).
  { intros q Hq. destruct (decide (p = q)) as [<-|Hne]; [rewrite lookup_insert_eq; eauto|]. rewrite lookup_insert_ne by done. apply Hl. by right. }
  exists R', σ'. split_and!; [done| | | |].
  - intros q. rewrite H1. destruct (decide (q ∈ ps)) as [Hq|Hq]; [by rewrite decide_True by (by right)|].
    destruct (decide (p = q)) as [<-|Hne]; [by rewrite lookup_insert_eq, decide_True by left|].
    rewrite lookup_insert_ne, decide_False; [done| |done]. intros [->|?]%elem_of_cons; done.
  - rewrite H2, refs_at_push, decide_True, <- app_assoc by done. done.
  - intros b Hb. rewrite H3 by done. unfold push_reference. by rewrite lookup_insert_ne.
  - rewrite H4, push_Some. naive_solver.
Qed.

(** A condition the code may replace references for: its sides are references
    of the join to a column of [L] and to another column. *)
Definition sides_ok (T : list Z) (Q : list nat) (L : list ColumnBinding) (σ : binding_store) (c : BoundCondition) : Prop :=
  ∀ p q, c.(cond_left) = ColumnRef p → c.(cond_right) = ColumnRef q →
    ∃ lb rb, σ !! p = Some lb ∧ σ !! q = Some rb ∧ p ∈ Q ∧ q ∈ Q ∧ lb ∈ L ∧ (rb ∉ L) ∧ rb.(table_index) ∈ T.

(** The columns of the right sides. *)
Definition right_columns (σ : binding_store) (conds : list BoundCondition) : list ColumnBinding :=
  omap (λ c, match c.(cond_right) with ColumnRef q => σ !! q | _ => None end) conds.

Lemma replace_right_ok T Q L R σ c :
  (∀ l, l ∈ L → l.(table_index) ∈ T) → tracks T Q R σ → sides_ok T Q L σ c →
  ∃ R' σ', replace_right (R, σ) c = Ret (R', σ') ∧ moved T Q L (right_columns σ [c]) R σ R' σ'.
Proof.
  intros HL Ht Hc. pose proof (moved_refl T Q L R σ Ht) as Hsame.
  assert (moved T Q L (right_columns σ [c]) R σ R σ) as Hsame'.
  { destruct Hsame as [A1 A2 A7 A3 A4 A5 A6]. split; auto. }
  unfold replace_right. destruct (cond_left c) as [p| |] eqn:El; [|by eauto..]. destruct (cond_right c) as [q| |] eqn:Er; [|by eauto..].
  case_decide; [|by eauto]. destruct (Hc p q) as (lb & rb & Hp & Hq & HpQ & HqQ & Hlb & Hrb & HrT); [done|done|]. rewrite Hp, Hq. orun.
  destruct (R !! rb) as [ps|] eqn:E; [|by eauto]. assert (lb ≠ rb) as Hne by congruence. rewrite decide_False by naive_solver.
  assert (refs_at R rb = ps) as Eps by (unfold refs_at; by rewrite E).
  assert (∀ p, p ∈ ps → σ !! p = Some rb ∧ p ∉ Q) as Hps by (intros p' Hp'; apply (tracks_bound _ _ _ _ Ht); [done|by rewrite Eps]).
  destruct (move_loop lb ps R σ) as (R1 & σ1 & -> & H1 & H2 & H3 & H4); [intros p' Hp'; destruct (Hps p' Hp') as [-> _]; eauto|].
  orun. exists (delete rb R1), σ1. split; [done|].
  assert (∀ b, b ≠ rb → delete rb R1 !! b = R1 !! b) as Hdel by (intros b Hb; by rewrite lookup_delete_ne).
  assert (∀ b, b ≠ lb → b ≠ rb → refs_at (delete rb R1) b = refs_at R b) as Hother by (intros b Hb1 Hb2; unfold refs_at; by rewrite Hdel, H3).
  assert (refs_at (delete rb R1) lb = refs_at R lb ++ ps) as Hlbs by (unfold refs_at at 1; by rewrite Hdel).
  assert (refs_at (delete rb R1) rb = []) as Hrbs by (unfold refs_at; by rewrite lookup_delete_eq).
  assert (ps ≠ []) as Hpsne by (intros ->; by apply (tracks_ne _ _ _ _ Ht rb HrT)).
  split.
  - split.
    + intros b p' Hb Hp'. rewrite H1. destruct (decide (b = rb)) as [->|Hb2]; [rewrite Hrbs in Hp'; by apply elem_of_nil in Hp'|].
      destruct (decide (b = lb)) as [->|Hb1].
      * rewrite Hlbs in Hp'. case_decide as Hd; [split; [done|by apply Hps]|]. apply elem_of_app in Hp' as [Hp'|?]; [|done]. by apply (tracks_bound _ _ _ _ Ht).
      * rewrite Hother in Hp' by done. destruct (tracks_bound _ _ _ _ Ht b p' Hb Hp') as [Hbp ?]. rewrite decide_False; [done|]. intros Hd%Hps. destruct Hd. congruence.
    + intros b Hb. destruct (decide (b = rb)) as [->|Hb2]; [by rewrite lookup_delete_eq|]. rewrite Hdel by done. destruct (decide (b = lb)) as [->|Hb1].
      * intros E1. unfold refs_at in H2. rewrite E1 in H2. simpl in H2. symmetry in H2. apply app_eq_nil in H2 as [_ ?]. done.
      * rewrite H3 by done. by apply (tracks_ne _ _ _ _ Ht).
  - intros b Hb Hs. destruct (decide (b = rb)) as [->|Hb2].
    + exists lb. split_and!; [by right|rewrite Hdel by done; apply H4; by right|]. intros p'. rewrite Hlbs, Eps. intros. apply elem_of_app. by right.
    + exists b. split_and!; [by left| |]; rewrite ?Hdel by done.
      * destruct (decide (b = lb)) as [->|Hb1]; [apply H4; by left|by rewrite H3].
      * intros p' Hp'. destruct (decide (b = lb)) as [->|Hb1]; [rewrite Hlbs; apply elem_of_app; by left|by rewrite Hother].
  - intros b p' Hb Hp'. destruct (decide (b = rb)) as [->|Hb2]; [rewrite Hrbs in Hp'; by apply elem_of_nil in Hp'|].
    destruct (decide (b = lb)) as [->|Hb1]; [|rewrite Hother in Hp' by done; eauto]. rewrite Hlbs in Hp'. apply elem_of_app in Hp' as [?|?]; [eauto|]. exists rb. by rewrite Eps.
  - intros b Hb. destruct (decide (b = rb)) as [->|Hb2]; [right; unfold right_columns; simpl; rewrite Er, Hq; left|]. left.
    destruct (decide (b = lb)) as [->|Hb1]; [rewrite Hlbs; by destruct (refs_at R lb)|by rewrite Hother].
  - intros b Hb. destruct (decide (b = rb)) as [->|Hb2]; [done|]. rewrite Hdel, H3; [done| |done]. intros ->. by apply Hb, HL.
  - intros p' Hp'. rewrite H1, decide_False; [done|]. intros Hd. apply (Hp' rb HrT). by rewrite Eps.
  - intros p' Hp'. rewrite H1 in Hp'. case_decide as Hd; [|done]. destruct (Hps p' Hd) as [-> _]. eauto.
Qed.

Lemma right_columns_cons σ c conds : right_columns σ (c :: conds) = right_columns σ [c] ++ right_columns σ conds.
Proof. unfold right_columns. csimpl. destruct (cond_right c); try done. by destruct (σ !! _). Qed.

Lemma replace_all_ok T Q L conds R σ :
  (∀ l, l ∈ L → l.(table_index) ∈ T) → tracks T Q R σ → (∀ c, c ∈ conds → sides_ok T Q L σ c ∧ ∀ p, p ∈ expr_refs c.(cond_left) ++ expr_refs c.(cond_right) → p ∈ Q) →
  ∃ R' σ', ofold replace_right conds (R, σ) = Ret (R', σ') ∧ moved T Q L (right_columns σ conds) R σ R' σ'.
Proof.
  intros HL. revert R σ. induction conds as [|c conds IH]; intros R σ Ht Hc; [exists R, σ; split; [done|]; by apply moved_refl|].
  destruct (Hc c) as [Hc1 HcQ]; [left|]. destruct (replace_right_ok T Q L R σ c HL Ht Hc1) as (R1 & σ1 & E & M1). cbn [ofold]. rewrite E. orun.
  assert (∀ p, p ∈ Q → σ1 !! p = σ !! p) as HQ.
  { intros p Hp. apply (moved_frame _ _ _ _ _ _ _ _ M1). intros b Hb Hpb. by apply (tracks_bound _ _ _ _ Ht b p Hb) in Hpb as [_ ?]. }
  destruct (IH R1 σ1) as (R2 & σ2 & -> & M2); [apply M1| |].
  { intros d Hd. destruct (Hc d) as [Hd1 HdQ]; [by right|]. split; [|done]. intros p q Hp Hq. destruct (Hd1 p q Hp Hq) as (lb & rb & ? & ? & Hp' & Hq' & ?).
    exists lb, rb. by rewrite !HQ. }
  exists R2, σ2. split; [done|]. rewrite right_columns_cons. replace (right_columns σ conds) with (right_columns σ1 conds); [by eapply moved_trans|].
  unfold right_columns. apply list_omap_ext. clear -HQ Hc. induction conds as [|d conds IH]; [constructor|]. constructor.
  - destruct (Hc d) as [_ Hd]; [right; left|]. destruct (cond_right d) as [q| |]; [|done..]. apply HQ, Hd, elem_of_app. right. left.
  - apply IH. intros e He. apply Hc. apply elem_of_cons in He as [->|He]; [left|right; by right].
Qed.

(** ** Scans *)

Lemma select_all_ok {A} (l : list A) ks : (∀ k, k ∈ ks → (k < length l)%nat) → ∃ r, select_all l ks = Ret r ∧ Forall2 (λ k x, l !! k = Some x) ks r.
Proof.
  induction ks as [|k ks IH]; intros Hk; [exists []; by split|]. destruct (lookup_lt_is_Some_2 l k) as [x Hx]; [apply Hk; left|].
  destruct IH as (r & E & Hr); [intros j Hj; apply Hk; by right|]. exists (x :: r). cbn [select_all]. unfold vec_at. rewrite Hx. orun. rewrite E. split; [done|by constructor].
Qed.

Lemma select_all_inv {A} (l : list A) ks r : select_all l ks = Ret r → Forall2 (λ k x, l !! k = Some x) ks r.
Proof.
  revert r. induction ks as [|k ks IH]; intros r; cbn [select_all]; [by intros [= <-]|]. unfold vec_at. destruct (l !! k) as [x|] eqn:E; [|done]. orun.
  destruct (select_all l ks) as [r'| | |]; try done. intros [= <-]. constructor; auto.
Qed.

Lemma match_columns_ok proj col c i k :
  NoDup col → sublist proj (drop c col) → i ∈ proj → col !! k = Some i → k ∈ match_columns proj col c.
Proof.
  intros Hnd. revert c. induction proj as [|x proj IH]; intros c Hs Hi Hk; [by apply elem_of_nil in Hi|]. cbn [match_columns].
  apply sublist_cons_l in Hs as (l1 & l2 & Ed & Hs). assert (NoDup (drop c col)) as Hd by (eapply sublist_NoDup; [done|apply sublist_drop]).
  assert (list_find (x =.) (drop c col) = Some (length l1, x)) as ->.
  { apply list_find_Some. rewrite Ed. split_and!; [by apply list_lookup_middle|done|]. intros j y Hj Hlt ->. rewrite Ed in Hd. apply NoDup_app in Hd as (_ & Hd & _).
    rewrite lookup_app_l in Hj by done. apply (Hd y); [by eapply list_elem_of_lookup_2|left]. }
  assert (drop (c + length l1) col = x :: l2) as Ed' by (rewrite <- drop_drop, Ed; apply drop_app_length).
  apply elem_of_cons in Hi as [->|Hi].
  - assert (col !! (c + length l1)%nat = Some x) as Hx by (rewrite <- lookup_drop, Ed; by apply list_lookup_middle).
    assert (k = (c + length l1)%nat) as -> by exact (NoDup_lookup _ _ _ _ Hnd Hk Hx). left.
  - right. apply IH; [|done|done]. rewrite Ed'. by constructor.
Qed.

Lemma keep_from_mono {T} t (R R' : references) (l : list T) i :
  (∀ b, is_Some (R !! b) → is_Some (R' !! b)) → sublist (keep_from t R i l) (keep_from t R' i l).
Proof.
  intros H. revert i. induction l as [|x l IH]; intros i; [constructor|]. simpl. destruct (kept t R i) eqn:E.
  - apply kept_true, H, kept_true in E. rewrite E. by constructor.
  - destruct (kept t R' i); [by constructor|done].
Qed.

(** The columns of table filters. *)
Lemma keep_filters_ok g ids R :
  (∀ c, c ∈ ids → c ∈ g.(column_ids)) →
  ∃ R', ofold (keep_filter_column g) ids R = Ret R' ∧ (∀ b, refs_at R' b = refs_at R b) ∧ (∀ b, b.(table_index) ≠ g.(get_index) → R' !! b = R !! b) ∧
    (∀ b, is_Some (R !! b) → is_Some (R' !! b)) ∧ (∀ c, c ∈ ids → ∃ i, g.(column_ids) !! i = Some c ∧ kept g.(get_index) R' i = true).
Proof.
  revert R. induction ids as [|c ids IH]; intros R Hin; [exists R; split_and!; try done; by intros c ?%elem_of_nil|].
  assert (∃ i, list_find (c =.) g.(column_ids) = Some (i, c)) as [i Ei].
  { destruct (list_find (c =.) (column_ids g)) as [[i d]|] eqn:E; [apply list_find_Some in E as (_ & -> & _); eauto|].
    apply list_find_None in E. rewrite Forall_forall in E. by destruct (E c (Hin c (list_elem_of_here _ _))). }
  pose proof Ei as (Hi & _ & _)%list_find_Some. set (fb := column g.(get_index) i).
  assert (∃ R1, keep_filter_column g R c = Ret R1 ∧ (∀ b, refs_at R1 b = refs_at R b) ∧ (∀ b, b.(table_index) ≠ g.(get_index) → R1 !! b = R !! b) ∧
    (∀ b, is_Some (R !! b) → is_Some (R1 !! b)) ∧ is_Some (R1 !! fb)) as (R1 & E1 & A1 & A2 & A3 & A4).
  { unfold keep_filter_column. rewrite Ei. fold fb. destruct (R !! fb) as [ps|] eqn:E; [exists R; rewrite E; eauto 10|]. exists (<[fb := []]> R). split_and!; [done| | | |].
    - intros b. unfold refs_at. destruct (decide (fb = b)) as [<-|Hne]; [by rewrite lookup_insert_eq, E|by rewrite lookup_insert_ne].
    - intros b Hb. apply lookup_insert_ne. intros <-. by apply Hb.
    - intros b Hb. destruct (decide (fb = b)) as [<-|Hne]; [rewrite lookup_insert_eq; eauto|by rewrite lookup_insert_ne].
    - rewrite lookup_insert_eq. eauto. }
  destruct (IH R1) as (R2 & E2 & B1 & B2 & B3 & B4); [intros d Hd; apply Hin; by right|]. exists R2. cbn [ofold]. rewrite E1. orun. split_and!; [done| | |auto|].
  - intros b. by rewrite B1.
  - intros b Hb. by rewrite B2, A2.
  - intros d [->|Hd]%elem_of_cons; [exists i; split; [done|]; apply kept_true; by apply B3|auto].
Qed.

(** The scan after the visit: what is referenced is still there, under its new
    binding, and nothing else is assigned. *)
Lemma prune_get_ok g R σ :
  g.(projection_ids) = [] → (∀ c, c ∈ g.(table_filters) → c ∈ g.(column_ids)) →
  (∀ i p, (i < length g.(column_ids))%nat → p ∈ refs_at R (column g.(get_index) i) → σ !! p = Some (column g.(get_index) i)) →
  ∃ g' R' σ' new, prune_get g R σ = Ret (g', R', σ') ∧
    g' = mkGet g.(get_index) g'.(column_ids) g'.(projection_ids) g.(projected_input) g.(table_filters) g.(projection_pushdown) g.(filter_prune) g.(get_expressions) ∧
    (∀ b, refs_at R' b = refs_at R b) ∧ (∀ b, b.(table_index) ≠ g.(get_index) → R' !! b = R !! b) ∧
    (∀ i p, (i < length g.(column_ids))%nat → p ∈ refs_at R (column g.(get_index) i) → σ' !! p = Some (column g.(get_index) (new i))) ∧
    (∀ p, ¬ list_refs g.(get_index) R 0 (length g.(column_ids)) p → σ' !! p = σ !! p) ∧ (∀ p, is_Some (σ' !! p) → is_Some (σ !! p)) ∧
    (∀ i, (i < length g.(column_ids))%nat → is_Some (R !! column g.(get_index) i) →
      column g.(get_index) (new i) ∈ own_columns g' ∧ g'.(column_ids) !! new i = g.(column_ids) !! i) ∧
    g'.(column_ids) ≠ [] ∧ (∀ c, c ∈ g.(table_filters) → c ∈ g'.(column_ids)) ∧ (g.(column_ids) = [] → g'.(column_ids) = [COLUMN_IDENTIFIER_ROW_ID] ∧ own_columns g' = own_columns g).
Proof.
  intros Hproj Hfil Hok. set (t := g.(get_index)) in *. set (n := length g.(column_ids)) in *. unfold prune_get. fold t n.
  assert (∀ l, frees (λ _ : nat, []) l = []) as Hfr by (induction l; done).
  destruct (ClearUnusedExpressions_ok (λ _ : nat, []) t R (λ _ σ, σ) ltac:(done) false (seq 0 n) σ) as (σ1 & -> & C1 & C2 & C3).
  { rewrite Hfr. constructor. } { rewrite length_seq, Hfr. intros j p Hj Hp. split; [auto|by intros ?%elem_of_nil]. }
  orun. destruct (keep_filters_ok g g.(table_filters) R Hfil) as (R' & -> & F1 & F2 & F3 & F4). orun. rewrite length_seq in C1, C2.
  assert (∀ p, σ1 !! p = σ !! p) as Hσ1.
  { intros p. destruct (decide (Exists (λ i, p ∈ refs_at R (column t i)) (seq 0 n))) as [Hex|Hex].
    - apply Exists_exists in Hex as (i & Hi%elem_of_seq & Hp). rewrite (C1 i p), (Hok i p); [done|lia|done|lia|done].
    - apply C2; [|rewrite Hfr; left; by intros ?%elem_of_nil]. intros (i & Hi & Hp). apply Hex, Exists_exists. exists i. split; [apply elem_of_seq; lia|done]. }
  destruct (ClearUnusedExpressions_ok (λ _ : nat, []) t R' (λ _ σ, σ) ltac:(done) true (seq 0 n) σ1) as (σ2 & -> & D1 & D2 & D3).
  { rewrite Hfr. constructor. } { rewrite length_seq, Hfr. intros j p Hj. rewrite F1, Hσ1. intros Hp. split; [auto|by intros ?%elem_of_nil]. }
  orun. rewrite length_seq in D1, D2. destruct (select_all_ok g.(column_ids) (keep_from t R' 0 (seq 0 n))) as (ids & -> & Hids).
  { intros k Hk. eapply sublist_subseteq in Hk; [|apply keep_from_sublist]. apply elem_of_seq in Hk. fold n. lia. }
  orun. assert (∀ i, (i < n)%nat → kept t R' i = true → ids !! rank t R' i = g.(column_ids) !! i) as Hnew.
  { intros i Hi Hk. pose proof (keep_lookup t R' (seq 0 n) i i (proj2 (lookup_seq 0 n i i) (conj eq_refl Hi)) Hk) as Hl.
    destruct (Forall2_lookup_l _ _ _ _ _ Hids Hl) as (c & -> & ->). done. }
  eexists _, R', σ2, (rank t R'). split; [done|]. split; [done|]. split; [done|]. split; [done|]. split.
  { intros i p Hi Hp. apply D1; [done|by rewrite F1]. }
  split. { intros p Hp. rewrite D2, Hσ1; [done| |rewrite Hfr; left; by intros ?%elem_of_nil]. intros (i & Hi & Hpi). apply Hp. exists i. by rewrite <- F1. }
  split. { intros p Hp%D3. by rewrite <- Hσ1. }
  cbn [column_ids projection_ids get_index]. rewrite Hproj. split_and!.
  - intros i Hi Hk. assert (kept t R' i = true) as Hk' by (by apply kept_true, F3). pose proof (Hnew i Hi Hk') as Hid.
    assert (∃ c, g.(column_ids) !! i = Some c) as [c Hc] by (by apply lookup_lt_is_Some_2). rewrite Hc in Hid.
    rewrite decide_False by (by intros ->). split; [|by rewrite Hid]. unfold own_columns. cbn [column_ids projection_ids get_index].
    rewrite decide_False by (by intros ->). pose proof (keep_lookup t R' (seq 0 n) i i (proj2 (lookup_seq 0 n i i) (conj eq_refl Hi)) Hk') as Hl.
    destruct (filter_prune g); cbn [app].
    + assert (rank t R' i ∈ match_columns (keep_from t R 0 (seq 0 n)) (keep_from t R' 0 (seq 0 n)) 0) as Hm.
      { apply (match_columns_ok _ _ 0 i); [|rewrite drop_0; by apply keep_from_mono| |done].
        - eapply sublist_NoDup; [|apply keep_from_sublist]. apply NoDup_seq.
        - apply (list_elem_of_lookup_2 _ (rank t R i)), keep_lookup; [by apply lookup_seq|by apply kept_true]. }
      rewrite decide_False by (by intros E; rewrite E in Hm; apply elem_of_nil in Hm). by apply list_elem_of_fmap_2.
    + rewrite decide_True by done. apply list_elem_of_fmap_2, elem_of_seq. apply lookup_lt_Some in Hid. lia.
  - case_decide; done.
  - intros c Hc. destruct (F4 c Hc) as (i & Hi & Hk). pose proof (lookup_lt_Some _ _ _ Hi) as Hlt. pose proof (Hnew i Hlt Hk) as Hid. rewrite Hi in Hid.
    rewrite decide_False by (by intros ->). by eapply list_elem_of_lookup_2.
  - intros E. unfold n in Hids. rewrite E in Hids. simpl in Hids. apply Forall2_nil_inv_l in Hids as ->. rewrite decide_True by done. split; [done|].
    unfold own_columns. cbn [column_ids projection_ids get_index]. unfold n. rewrite E. by destruct (filter_prune g).
Qed.

(** ** Conditions that have become equal *)

Definition cond_refs (c : BoundCondition) : list nat := expr_refs c.(cond_left) ++ expr_refs c.(cond_right).

Lemma unique_dropped σ conds unique : unique_loop σ conds unique ++ dropped_loop σ conds unique ≡ₚ unique ++ conds.
Proof.
  revert unique. induction conds as [|c conds IH]; intros unique; [done|]. simpl. destruct (existsb (same_condition σ c) unique).
  - rewrite <- !Permutation_middle, IH. done.
  - rewrite IH, <- app_assoc. done.
Qed.

Lemma destroy_conditions_lookup σ ds p : foldr destroy_condition σ ds !! p = if decide (p ∈ concat (map cond_refs ds)) then None else σ !! p.
Proof.
  induction ds as [|d ds IH]; cbn [foldr map concat]; [by rewrite decide_False by (by intros ?%elem_of_nil)|].
  unfold destroy_condition at 1, destroy. rewrite !foldr_delete_lookup. unfold cond_refs at 1.
  destruct (decide (p ∈ expr_refs (cond_right d))) as [H1|H1]; [by rewrite decide_True by set_solver|].
  destruct (decide (p ∈ expr_refs (cond_left d))) as [H2|H2]; [by rewrite decide_True by set_solver|]. rewrite IH.
  destruct (decide (p ∈ concat (map cond_refs ds))) as [H3|H3]; [by rewrite decide_True by set_solver|by rewrite decide_False by set_solver].
Qed.

(** Equal expressions refer to the same columns. *)
Lemma bound_equals_refs σ e : ∀ f p, bound_equals σ e f = true → p ∈ expr_refs e → ∃ q, q ∈ expr_refs f ∧ σ !! q = σ !! p.
Proof.
  induction e as [p'|i|f es IH] using bound_expression_nested_ind; intros [q|j|g es'] p; try done; cbn [bound_equals expr_refs].
  - intros H%bool_decide_eq_true ->%list_elem_of_singleton. exists q. split; [left|done].
  - intros _ Hp. by apply elem_of_nil in Hp.
  - intros [_ H]%andb_true_iff. revert es' H. induction IH as [|e es He _ IHes]; intros [|e' es'] H; try done; [by intros ?%elem_of_nil|]. apply andb_true_iff in H as [H1 H2]. cbn [map concat]. intros [Hp|Hp]%elem_of_app.
    + destruct (He e' p H1 Hp) as (q & ? & ?). exists q. split; [apply elem_of_app; by left|done].
    + destruct (IHes es' H2 Hp) as (q & ? & ?). exists q. split; [apply elem_of_app; by right|done].
Qed.

(** A condition that is left out equals one that is kept. *)
Lemma unique_grows σ conds : ∀ unique c, c ∈ unique → c ∈ unique_loop σ conds unique.
Proof. induction conds as [|d conds IH]; intros unique c Hc; [done|]. simpl. apply IH. destruct (existsb _ _); [done|apply elem_of_app; by left]. Qed.

Lemma dropped_same σ conds : ∀ unique c, c ∈ dropped_loop σ conds unique → ∃ d, d ∈ unique_loop σ conds unique ∧ same_condition σ c d = true.
Proof.
  induction conds as [|d conds IH]; intros unique c; [by intros ?%elem_of_nil|]. simpl. destruct (existsb (same_condition σ d) unique) eqn:E; [|apply IH]. intros [->|Hc]%elem_of_cons; [|by apply IH].
  apply existsb_exists in E as (d' & Hd' & Hs). exists d'. split; [|done]. apply unique_grows. by apply list_elem_of_In.
Qed.

Lemma dropped_refs_same σ conds c p : c ∈ dropped_loop σ conds [] → p ∈ cond_refs c → ∃ d q, d ∈ unique_loop σ conds [] ∧ q ∈ cond_refs d ∧ σ !! q = σ !! p.
Proof.
  intros (d & Hd & [[_ Hl]%andb_true_iff Hr]%andb_true_iff)%dropped_same. unfold cond_refs. intros [Hp|Hp]%elem_of_app.
  - destruct (bound_equals_refs σ _ _ p Hl Hp) as (q & ? & ?). exists d, q. split_and!; [done|apply elem_of_app; by left|done].
  - destruct (bound_equals_refs σ _ _ p Hr Hp) as (q & ? & ?). exists d, q. split_and!; [done|apply elem_of_app; by right|done].
Qed.
