(* ===== verification/RemoveSpec.v ===== *)
(** * RemoveSpec: what removing columns is to keep

    The conditions under which [RemoveColumns] is shown to be right, and what it
    keeps: where the columns of filters come from.  [demanded] says, by a
    traversal of its own, that the columns of filters are referenced by the
    operators above, as the columns join conditions compare are. *)

From S2P Require Import Prelude BloomFilter LogicalPlan ColumnResolver PlanColumns RemoveColumns RemoveBase.
Local Open Scope Z_scope.
Local Open Scope machine_scope.

(** ** Plans before the pass *)

(** Projections of scans, sorts and joins are not set yet. *)
Definition untouched_kind (k : logical_kind) : bool :=
  match k with
  | Get g => bool_decide (g.(projection_ids) = []) && (negb (bool_decide (g.(column_ids) = [])) || bool_decide (g.(projected_input) = []))
  | ComparisonJoin j => bool_decide (j.(left_projection_map) = []) && bool_decide (j.(right_projection_map) = [])
  | Order _ projections => bool_decide (projections = [])
  | Other _ _ (Joined _ _ lmap rmap) => bool_decide (lmap = []) && bool_decide (rmap = [])
  | _ => true
  end.

Fixpoint untouched (op : column_plan) : bool := match op with Node k cs => untouched_kind k && forallb untouched cs end.

(** Operators that hand on the columns of one child. *)
Definition passes (k : logical_kind) : bool :=
  match k with Order _ _ | Filter _ _ | BloomOp _ _ | Other _ _ (Through _) => true | _ => false end.

(** Below filters there are tables, and no joins before these: scans, selections
    on them, aggregates, set operations. *)
Fixpoint on_table (op : column_plan) : bool :=
  match op with
  | Node k cs =>
      if passes k then match cs with [c] => on_table c | _ => false end
      else match k with ComparisonJoin _ | Other _ _ (Joined _ _ _ _) | Other _ _ Second => false | _ => true end
  end.

Fixpoint placed (op : column_plan) : bool :=
  match op with Node k cs => match k with BloomOp _ _ => forallb on_table cs | _ => true end && forallb placed cs end.

(** ** Where columns come from *)

(** A column of a table, or an expression of a projection or an aggregate. *)
Inductive column_source := Stored (t : Z) (column_id : Z) | Computed (t : Z) (e : bound_expression).

Definition read_ids (g : LogicalGet) : list Z := if decide (g.(column_ids) = []) then [COLUMN_IDENTIFIER_ROW_ID] else g.(column_ids).

Definition own_source (k : logical_kind) (b : ColumnBinding) : option column_source :=
  let i := Z.to_nat b.(column_index) in
  match k with
  | Get g => if decide (b.(table_index) = g.(get_index)) then Stored g.(get_index) <$> read_ids g !! i else None
  | Projection t es => if decide (b.(table_index) = t) then Computed t <$> es !! i else None
  | Aggregate a =>
      if decide (b.(table_index) = a.(group_index)) then Computed a.(group_index) <$> a.(aggr_groups) !! i
      else if decide (b.(table_index) = a.(aggregate_index)) then Computed a.(aggregate_index) <$> a.(aggr_expressions) !! i else None
  | _ => None
  end.

Definition kind_extra (k : logical_kind) : list ColumnBinding :=
  match k with
  | ComparisonJoin j => if decide (j.(comp_type) = MARK) then [mkBinding j.(comp_mark) 0] else []
  | Other _ _ (Own bs) | Other _ _ (Through bs) => bs
  | Other _ _ (Joined jt mark _ _) => if decide (jt = MARK) then [mkBinding mark 0] else []
  | _ => []
  end.

Fixpoint source (op : column_plan) (b : ColumnBinding) : option column_source :=
  match op with
  | Node k cs =>
      if passes k then if decide (b ∈ kind_extra k) then None else match cs with [c] => source c b | _ => None end
      else own_source k b
  end.

(** The columns of all filters of a plan, by where they come from. *)
Definition child_source (cs : list column_plan) (b : ColumnBinding) : option column_source := match cs with [c] => source c b | _ => None end.

Definition own_filter_sources (F : list BlockedBloomFilter) (k : logical_kind) (cs : list column_plan) : list (bool * nat * list (option column_source)) :=
  match k with
  | BloomOp create bfs => (λ x, (create, x, child_source cs <$> default [] (filter_cols F create x))) <$> bfs
  | _ => []
  end.

Fixpoint filter_sources (F : list BlockedBloomFilter) (op : column_plan) : list (bool * nat * list (option column_source)) :=
  match op with Node k cs => own_filter_sources F k cs ++ concat (map (filter_sources F) cs) end.

(** ** What is referenced *)

Definition bindings_of (σ : binding_store) (es : list bound_expression) : list ColumnBinding := omap (λ p, σ !! p) (exprs_refs es).

(** The elements of [l] whose column of table [t] is among [D]. *)
Definition wanted {A : Type} (t : Z) (D : list ColumnBinding) (l : list A) : list A := omap (λ i, if decide (column t i ∈ D) then l !! i else None) (seq 0 (length l)).

(** Where a pass takes everything below to be referenced, besides sorts and set
    operations: when columns are removed, and when their lifetimes are analyzed.
    The removal does not look below scans. *)
Definition removal_takes_all (k : logical_kind) : bool :=
  match k with
  | Get _ | Modify _ _ _ => true
  | Filter _ projection_map => negb (bool_decide (projection_map = []))
  | Other o _ _ => references_all o
  | _ => false
  end.

Definition lifetime_takes_all (k : logical_kind) : bool := match k with Other Distinct _ _ => true | _ => false end.

Definition filters_in (F : list BlockedBloomFilter) (bs : list ColumnBinding) (k : logical_kind) : bool :=
  forallb (λ f, match filter_cols F f.1 f.2 with Some cols => forallb (λ v, bool_decide (v ∈ bs)) cols | None => false end) (own_filters k).

(** The columns of filters are referenced, when those of [D] are, or all, by
    expressions that are not removed. *)
Fixpoint demanded_by (everything : logical_kind → bool) (σ : binding_store) (F : list BlockedBloomFilter) (all : bool) (D : list ColumnBinding) (op : column_plan) : bool :=
  match op with
  | Node k cs =>
      match k with
      | BloomOp _ _ => (all || filters_in F D k) && forallb (demanded_by everything σ F all D) cs
      | Projection t es => forallb (demanded_by everything σ F false (bindings_of σ (if all then es else wanted t D es))) cs
      | Aggregate a =>
          forallb (demanded_by everything σ F false (bindings_of σ (a.(aggr_groups) ++ (if all then a.(aggr_expressions) else wanted a.(aggregate_index) D a.(aggr_expressions))))) cs
      | SetOp SET_UNION t n => forallb (λ c, demanded_by everything σ F all (wanted t D (columns c)) c) cs
      | SetOp _ _ _ | Order _ _ => forallb (demanded_by everything σ F true []) cs
      | Get _ => everything k || bool_decide (concat (map plan_filters cs) = [])
      | Modify es _ _ => forallb (demanded_by everything σ F (all || everything k) (bindings_of σ es)) cs
      | ComparisonJoin _ | Filter _ _ | Other _ _ _ => forallb (demanded_by everything σ F (all || everything k) (D ++ bindings_of σ (EnumerateExpressions k))) cs
      end
  end.

Abbreviation demanded := (demanded_by removal_takes_all).

(** The same, when nothing is removed any more. *)
Fixpoint needed (σ : binding_store) (F : list BlockedBloomFilter) (all : bool) (D : list ColumnBinding) (op : column_plan) : bool :=
  match op with
  | Node k cs =>
      let own := bindings_of σ (EnumerateExpressions k) in
      (all || filters_in F D k) &&
      match k with
      | Aggregate _ | Projection _ _ => forallb (needed σ F false own) cs
      | SetOp _ _ _ => forallb (needed σ F true []) cs
      | Order _ _ | Other Distinct _ _ => forallb (needed σ F true (D ++ own)) cs
      | _ => forallb (needed σ F all (D ++ own)) cs
      end
  end.

(** No projection maps, and scans without input. *)
Definition kind_unmapped (k : logical_kind) : bool :=
  match k with
  | Get g => bool_decide (g.(projected_input) = [])
  | ComparisonJoin j => bool_decide (j.(left_projection_map) = []) && bool_decide (j.(right_projection_map) = [])
  | Other _ _ (Joined _ _ lmap rmap) => bool_decide (lmap = []) && bool_decide (rmap = [])
  | _ => true
  end.

Fixpoint unmapped (op : column_plan) : bool := match op with Node k cs => kind_unmapped k && forallb unmapped cs end.

(** ** Plans in other states *)

(** Nothing a plan has to do with differs. *)
Record agree (op : column_plan) (σ : binding_store) (F : list BlockedBloomFilter) (σ' : binding_store) (F' : list BlockedBloomFilter) : Prop := {
  agree_refs p : p ∈ plan_refs op → σ' !! p = σ !! p;
  agree_filters k x : (k, x) ∈ plan_filters op → filter_cols F' k x = filter_cols F k x
}.

Lemma elem_of_concat_map {A B} (f : A → list B) l x : x ∈ concat (map f l) ↔ ∃ a, a ∈ l ∧ x ∈ f a.
Proof.
  rewrite list_elem_of_In, in_concat. split.
  - intros (ys & (a & <- & Ha)%in_map_iff & Hx). exists a. by rewrite !list_elem_of_In.
  - intros (a & Ha & Hx). exists (f a). split; [by apply in_map, list_elem_of_In|by apply list_elem_of_In].
Qed.

Lemma agree_child k cs c σ F σ' F' : agree (Node k cs) σ F σ' F' → c ∈ cs → agree c σ F σ' F'.
Proof.
  intros [H1 H2] Hc. split.
  - intros p Hp. apply H1. simpl. apply elem_of_app. right. apply elem_of_concat_map. eauto.
  - intros k' x Hx. apply H2. simpl. apply elem_of_app. right. apply elem_of_concat_map. eauto.
Qed.

Lemma agree_own k cs σ F σ' F' : agree (Node k cs) σ F σ' F' → ∀ p, p ∈ own_refs k → σ' !! p = σ !! p.
Proof. intros [H1 _] p Hp. apply H1. simpl. apply elem_of_app. by left. Qed.

Lemma agree_own_filter create bfs cs σ F σ' F' x : agree (Node (BloomOp create bfs) cs) σ F σ' F' → x ∈ bfs → filter_cols F' create x = filter_cols F create x.
Proof. intros [_ H2] Hx. apply H2. simpl. apply elem_of_app. left. by apply list_elem_of_fmap_2. Qed.

Lemma forallb_ext_elem {A} (f g : A → bool) l : (∀ x, x ∈ l → f x = g x) → forallb f l = forallb g l.
Proof. induction l as [|x l IH]; intros H; [done|]. simpl. rewrite (H x), IH; [done| |left]. intros y Hy. apply H. by right. Qed.

Lemma forallb_elem {A} (f : A → bool) l x : forallb f l = true → x ∈ l → f x = true.
Proof. rewrite forallb_forall. intros H Hx. by apply H, list_elem_of_In. Qed.

Lemma forallb_intro {A} (f : A → bool) l : (∀ x, x ∈ l → f x = true) → forallb f l = true.
Proof. intros H. apply forallb_forall. intros x Hx. by apply H, list_elem_of_In. Qed.

Lemma exprs_in_ext σ σ' bs es : (∀ p, p ∈ exprs_refs es → σ' !! p = σ !! p) → exprs_in σ' bs es = exprs_in σ bs es.
Proof. intros H. unfold exprs_in. f_equal. apply forallb_ext_elem. intros p Hp. unfold ref_in. by rewrite H. Qed.

Lemma exprs_refs_app es es' : exprs_refs (es ++ es') = exprs_refs es ++ exprs_refs es'.
Proof. unfold exprs_refs. by rewrite map_app, concat_app. Qed.

Lemma elem_of_exprs_refs es p : p ∈ exprs_refs es ↔ ∃ e, e ∈ es ∧ p ∈ expr_refs e.
Proof. apply elem_of_concat_map. Qed.

(** The references of the parts of a join. *)
Lemma join_own_refs j p :
  p ∈ own_refs (ComparisonJoin j) ↔ p ∈ exprs_refs (j.(comp_duplicates) ++ j.(comp_expressions)) ∨ ∃ c, c ∈ j.(comp_conditions) ∧ (p ∈ expr_refs c.(cond_left) ∨ p ∈ expr_refs c.(cond_right)).
Proof.
  unfold own_refs. simpl. rewrite !exprs_refs_app, !elem_of_app. split.
  - intros [?|[Hp|?]]; [by left; left| |by left; right]. right. apply elem_of_exprs_refs in Hp as (e & He & Hp). apply list_elem_of_In, in_concat in He as (l & Hl & He).
    apply list_elem_of_In, list_elem_of_fmap in Hl as (c & -> & Hc). exists c. split; [done|]. destruct He as [<-|[<-|[]]]; auto.
  - intros [[?|?]|(c & Hc & Hp)]; [by left|by right; right|]. right. left. apply elem_of_exprs_refs. exists (if decide (p ∈ expr_refs (cond_left c)) then cond_left c else cond_right c).
    split; [|case_decide; naive_solver]. apply list_elem_of_In, in_concat. exists [cond_left c; cond_right c]. split; [by apply list_elem_of_In, (list_elem_of_fmap_2 (λ c, [cond_left c; cond_right c]))|].
    apply list_elem_of_In. case_decide; set_solver.
Qed.

Lemma kind_scoped_ext σ F σ' F' k css :
  (∀ p, p ∈ own_refs k → σ' !! p = σ !! p) → (∀ c x, (c, x) ∈ own_filters k → filter_cols F' c x = filter_cols F c x) → kind_scoped σ' F' k css = kind_scoped σ F k css.
Proof.
  intros H HF. destruct k as [g|t es|a|j|s t n|os ps|es pm|create bfs|es ex cols|r es out]; simpl; try (by destruct css as [|c [|]]; try done; apply exprs_in_ext).
  - by rewrite (exprs_in_ext σ σ').
  - destruct css as [|l [|r [|]]]; try done. rewrite (exprs_in_ext σ σ') by (intros p Hp; apply H, join_own_refs; by left). f_equal. apply forallb_ext_elem. intros c Hc.
    f_equal; apply exprs_in_ext; intros p Hp; apply H, join_own_refs; right; exists c; unfold exprs_refs in Hp; simpl in Hp; rewrite app_nil_r in Hp; auto.
  - destruct css as [|c [|]]; try done. apply forallb_ext_elem. intros x Hx. unfold filter_in. rewrite HF; [done|]. by apply list_elem_of_fmap_2.
Qed.

Lemma scoped_ext op σ F σ' F' : agree op σ F σ' F' → scoped σ' F' op = scoped σ F op.
Proof.
  induction op as [k cs IH] using column_plan_nested_ind. intros Ha. cbn [scoped]. f_equal; [f_equal|].
  - apply kind_scoped_ext; [by eapply agree_own|]. intros c x Hx. apply (agree_filters _ _ _ _ _ Ha). simpl. apply elem_of_app. by left.
  - apply forallb_ext_elem. intros c Hc. rewrite Forall_forall in IH. apply IH; [done|]. by eapply agree_child.
Qed.

Lemma filter_sources_ext op σ F σ' F' : agree op σ F σ' F' → filter_sources F' op = filter_sources F op.
Proof.
  induction op as [k cs IH] using column_plan_nested_ind. intros Ha. cbn [filter_sources]. f_equal.
  - destruct k; try done. simpl. apply list_fmap_ext. intros i x Hx. by rewrite (agree_own_filter _ _ _ _ _ _ _ x Ha (list_elem_of_lookup_2 _ _ _ Hx)).
  - f_equal. apply map_ext_in. intros c Hc%list_elem_of_In. rewrite Forall_forall in IH. apply IH; [done|]. by eapply agree_child.
Qed.

Lemma bindings_of_ext σ σ' es : (∀ p, p ∈ exprs_refs es → σ' !! p = σ !! p) → bindings_of σ' es = bindings_of σ es.
Proof.
  unfold bindings_of. induction (exprs_refs es) as [|p ps IH]; intros H; [done|]. csimpl. rewrite (H p) by left. rewrite IH; [done|]. intros q Hq. apply H. by right.
Qed.

Lemma elem_of_wanted {A} t D (l : list A) x : x ∈ wanted t D l → ∃ i, l !! i = Some x ∧ column t i ∈ D.
Proof. unfold wanted. intros (i & Hi & E)%list_elem_of_omap. case_decide; [eauto|done]. Qed.

Lemma wanted_refs t D es p : p ∈ exprs_refs (wanted t D es) → p ∈ exprs_refs es.
Proof.
  rewrite !elem_of_exprs_refs. intros (e & (i & Hi & _)%elem_of_wanted & Hp). exists e. split; [by eapply list_elem_of_lookup_2|done].
Qed.

Lemma filters_in_ext k cs σ F σ' F' D : agree (Node k cs) σ F σ' F' → filters_in F' D k = filters_in F D k.
Proof.
  intros [_ H]. apply forallb_ext_elem. intros [c x] Hx. cbn [fst snd]. rewrite H; [done|]. cbn [plan_filters]. apply elem_of_app. by left.
Qed.

Lemma demanded_ext everything op : ∀ σ F σ' F' all D, agree op σ F σ' F' → demanded_by everything σ' F' all D op = demanded_by everything σ F all D op.
Proof.
  induction op as [k cs IH] using column_plan_nested_ind. intros σ F σ' F' all D Ha. rewrite Forall_forall in IH.
  assert (∀ all D, forallb (demanded_by everything σ' F' all D) cs = forallb (demanded_by everything σ F all D) cs) as Hcs.
  { intros all' D'. apply forallb_ext_elem. intros c Hc. apply IH; [done|]. by eapply agree_child. }
  pose proof (agree_own _ _ _ _ _ _ Ha) as Hown. unfold own_refs in Hown.
  destruct k as [g|t es|a|j|s t n|os ps|es pm|create bfs|es ex cols|r es out]; cbn [demanded_by EnumerateExpressions] in *; try done; try (by rewrite (bindings_of_ext σ σ')).
  - rewrite (bindings_of_ext σ σ'); [done|]. intros p Hp. apply Hown. destruct all; [done|by eapply wanted_refs].
  - rewrite (bindings_of_ext σ σ'); [done|]. intros p. rewrite exprs_refs_app in Hown |- *. intros [Hp|Hp]%elem_of_app; apply Hown, elem_of_app; [by left|right].
    destruct all; [done|by eapply wanted_refs].
  - destruct s; [|done|done]. apply forallb_ext_elem. intros c Hc. apply IH; [done|]. by eapply agree_child.
  - by rewrite Hcs, (filters_in_ext _ _ _ _ _ _ _ Ha).
Qed.

Lemma needed_ext op : ∀ σ F σ' F' all D, agree op σ F σ' F' → needed σ' F' all D op = needed σ F all D op.
Proof.
  induction op as [k cs IH] using column_plan_nested_ind. intros σ F σ' F' all D Ha. rewrite Forall_forall in IH.
  assert (∀ all D, forallb (needed σ' F' all D) cs = forallb (needed σ F all D) cs) as Hcs.
  { intros all' D'. apply forallb_ext_elem. intros c Hc. apply IH; [done|]. by eapply agree_child. }
  cbn [needed]. rewrite (bindings_of_ext σ σ' _ (agree_own _ _ _ _ _ _ Ha)), (filters_in_ext _ _ _ _ _ _ _ Ha). f_equal. destruct k as [| | | | | | | | |[]]; auto.
Qed.

(** ** More is referenced *)

Definition refer_more (all : bool) (D : list ColumnBinding) (all' : bool) (D' : list ColumnBinding) : Prop := all' = true ∨ all = false ∧ ∀ b, b ∈ D → b ∈ D'.

Lemma filters_in_mono F D D' k : (∀ b, b ∈ D → b ∈ D') → filters_in F D k = true → filters_in F D' k = true.
Proof.
  intros HD H. apply forallb_intro. intros f Hf. apply (forallb_elem _ _ f) in H; [|done]. cbv beta in H. destruct (filter_cols _ _ _) as [cols|]; [|done]. apply forallb_intro. intros v Hv. apply (forallb_elem _ _ v) in H; [|done].
  apply bool_decide_eq_true. apply bool_decide_eq_true in H. auto.
Qed.

Lemma refer_filters F all D all' D' k : refer_more all D all' D' → all || filters_in F D k = true → all' || filters_in F D' k = true.
Proof. intros [->|[-> HD]] H; [done|]. simpl in H. rewrite (filters_in_mono F D D' k) by done. by rewrite orb_true_r. Qed.

Lemma refer_app all D all' D' D1 (x : bool) : refer_more all D all' D' → refer_more (all || x) (D ++ D1) (all' || x) (D' ++ D1).
Proof. intros [->|[-> HD]]; [by left|]. destruct all', x; try (by left). right. split; [done|]. set_solver. Qed.

Lemma elem_of_bindings σ es b : b ∈ bindings_of σ es ↔ ∃ p, p ∈ exprs_refs es ∧ σ !! p = Some b.
Proof. unfold bindings_of. by rewrite list_elem_of_omap. Qed.

Lemma wanted_elem {A} t D (l : list A) i x : l !! i = Some x → column t i ∈ D → x ∈ wanted t D l.
Proof. intros Hi HD. apply list_elem_of_omap. exists i. rewrite decide_True by done. split; [apply elem_of_seq; apply lookup_lt_Some in Hi; lia|done]. Qed.

Lemma refer_wanted {A} t (l : list A) all D all' D' x : refer_more all D all' D' → x ∈ (if all then l else wanted t D l) → x ∈ (if all' then l else wanted t D' l).
Proof.
  intros Hm Hx. assert (x ∈ l) as Hl by (destruct all; [done|]; apply elem_of_wanted in Hx as (i & ? & _); by eapply list_elem_of_lookup_2). destruct Hm as [->|[-> HD]]; [done|]. destruct all'; [done|].
  apply elem_of_wanted in Hx as (i & Hi & Ht). by eapply wanted_elem; [|apply HD].
Qed.

Lemma bindings_mono σ es es' : (∀ e, e ∈ es → e ∈ es') → ∀ b, b ∈ bindings_of σ es → b ∈ bindings_of σ es'.
Proof. intros H b (p & Hp & ?)%elem_of_bindings. apply elem_of_bindings. exists p. split; [|done]. apply elem_of_exprs_refs in Hp as (e & ? & ?). apply elem_of_exprs_refs. eauto. Qed.

Lemma demanded_mono everything σ F op : ∀ all D all' D', refer_more all D all' D' → demanded_by everything σ F all D op = true → demanded_by everything σ F all' D' op = true.
Proof.
  induction op as [k cs IH] using column_plan_nested_ind. rewrite Forall_forall in IH. intros all D all' D' Hm.
  assert (∀ all D all' D', refer_more all D all' D' → forallb (demanded_by everything σ F all D) cs = true → forallb (demanded_by everything σ F all' D') cs = true) as Hcs.
  { intros a1 D1 a2 D2 Hm' H. apply forallb_intro. intros c Hc. eapply IH; [done|exact Hm'|]. by eapply forallb_elem. }
  destruct k as [g|t es|a|j|s t n|os ps|es pm|create bfs|es ex cols|r es out]; cbn [demanded_by]; try done; try (by apply Hcs, refer_app).
  - apply Hcs. right. split; [done|]. apply bindings_mono. intros e. by apply refer_wanted.
  - apply Hcs. right. split; [done|]. apply bindings_mono. intros e. rewrite !elem_of_app. intros [?|?]; [by left|right]. by eapply refer_wanted.
  - destruct s; try done. intros H. apply forallb_intro. intros c Hc. apply (forallb_elem _ _ c) in H; [|done]. eapply IH; [done| |exact H]. destruct Hm as [->|[-> HD]]; [by left|right]. split; [done|].
    intros b (i & Hi & ?)%elem_of_wanted. by eapply wanted_elem; [|apply HD].
  - intros [Hf Hc]%andb_true_iff. apply andb_true_iff. split; [by eapply refer_filters|by eapply Hcs].
  - apply Hcs. destruct Hm as [->|[-> _]]; [by left|]. destruct all'; [by left|]. destruct (everything _); [by left|by right].
Qed.

Lemma needed_mono σ F op : ∀ all D all' D', refer_more all D all' D' → needed σ F all D op = true → needed σ F all' D' op = true.
Proof.
  induction op as [k cs IH] using column_plan_nested_ind. rewrite Forall_forall in IH. intros all D all' D' Hm.
  assert (∀ all D all' D', refer_more all D all' D' → forallb (needed σ F all D) cs = true → forallb (needed σ F all' D') cs = true) as Hcs.
  { intros a1 D1 a2 D2 Hm' H. apply forallb_intro. intros c Hc. eapply IH; [done|exact Hm'|]. by eapply forallb_elem. }
  assert (∀ D1, refer_more all (D ++ D1) all' (D' ++ D1)) as Ha by (intros D1; destruct Hm as [->|[-> HD]]; [by left|right; set_solver]).
  cbn [needed]. intros [Hf Hn]%andb_true_iff. apply andb_true_iff. split; [by eapply refer_filters|]. destruct k as [| | | | | | | | |[]]; try done; try (by eapply Hcs; [apply Ha|]); by eapply Hcs; [left|].
Qed.

Lemma needed_without_filters σ F op : ∀ all D, plan_filters op = [] → needed σ F all D op = true.
Proof.
  induction op as [k cs IH] using column_plan_nested_ind. rewrite Forall_forall in IH. intros all D [Ek Ecs]%app_eq_nil.
  assert (∀ all D, forallb (needed σ F all D) cs = true) as Hcs.
  { intros all' D'. apply forallb_intro. intros c Hc. apply IH; [done|]. destruct (plan_filters c) as [|x l] eqn:E; [done|]. exfalso. apply (not_elem_of_nil x). change (concat (map plan_filters cs) = []) in Ecs. rewrite <- Ecs. apply elem_of_concat_map. exists c.
    rewrite E. split; [done|left]. }
  cbn [needed]. apply andb_true_iff. split; [unfold filters_in; rewrite Ek; by rewrite orb_true_r|]. by destruct k as [| | | | | | | | |[]].
Qed.

(** ** The columns of operators *)

Lemma GetColumnBindings_Ret op : has_columns op = true → GetColumnBindings op = Ret (columns op).
Proof. unfold has_columns, columns. by destruct (GetColumnBindings op). Qed.

Lemma scoped_has_columns σ F op : scoped σ F op = true → has_columns op = true.
Proof. destruct op. cbn [scoped]. by intros [[? _]%andb_true_iff _]%andb_true_iff. Qed.

Lemma GetColumnBindings_node k cs : forallb has_columns cs = true → GetColumnBindings (Node k cs) = kind_columns k (Ret <$> (columns <$> cs)).
Proof.
  intros H. cbn [GetColumnBindings]. f_equal. induction cs as [|c cs IH]; [done|]. simpl in H. apply andb_true_iff in H as [H1 H2]. csimpl. by rewrite GetColumnBindings_Ret, IH.
Qed.

Lemma columns_node k cs l : forallb has_columns cs = true → kind_columns k (Ret <$> (columns <$> cs)) = Ret l → columns (Node k cs) = l ∧ has_columns (Node k cs) = true.
Proof. intros H E. unfold columns, has_columns. rewrite GetColumnBindings_node by done. by rewrite E. Qed.

Lemma node_columns k cs : forallb has_columns cs = true → has_columns (Node k cs) = true → kind_columns k (Ret <$> (columns <$> cs)) = Ret (columns (Node k cs)).
Proof. intros H H'. rewrite <- GetColumnBindings_node by done. by apply GetColumnBindings_Ret. Qed.

Lemma scoped_children σ F cs : forallb (scoped σ F) cs = true → forallb has_columns cs = true.
Proof. intros H. apply forallb_intro. intros c Hc. eapply scoped_has_columns. by eapply forallb_elem. Qed.

(** The children whose columns an operator hands on. *)
Definition join_exports (jt : JoinType) : list nat :=
  match jt with SEMI | ANTI | MARK => [0%nat] | RIGHT_SEMI | RIGHT_ANTI => [1%nat] | _ => [0%nat; 1%nat] end.

Definition exports (k : logical_kind) : list nat :=
  match k with
  | ComparisonJoin j => join_exports j.(comp_type)
  | Filter _ _ | BloomOp _ _ | Other _ _ (Through _) => [0%nat]
  | Other _ _ (Joined jt _ _ _) => join_exports jt
  | Other _ _ Second => [1%nat]
  | _ => []
  end.

(** Operators that go through the end of the switch. *)
Definition by_default (k : logical_kind) : bool := match k with ComparisonJoin _ | Filter _ _ | BloomOp _ _ | Other _ _ _ => true | _ => false end.

Definition maps_empty (k : logical_kind) : Prop :=
  match k with
  | ComparisonJoin j => j.(left_projection_map) = [] ∧ j.(right_projection_map) = []
  | Filter _ pm => pm = []
  | Other _ _ (Joined _ _ lmap rmap) => lmap = [] ∧ rmap = []
  | _ => True
  end.

Lemma child_at (css : list (list ColumnBinding)) i : (let* m := vec_at (Ret <$> css) i in m) = vec_at css i.
Proof. unfold vec_at. rewrite list_lookup_fmap. by destruct (css !! i). Qed.

Lemma join_columns_exports jt mark css :
  join_columns jt mark [] [] (vec_at css 0) (vec_at css 1) = let* ls := select_all css (join_exports jt) in Ret (concat ls ++ (if decide (jt = MARK) then [mkBinding mark 0] else [])).
Proof.
  destruct jt, css as [|l [|r css]]; cbn; by rewrite ?app_nil_r.
Qed.

Lemma kind_columns_exports k css :
  by_default k = true → maps_empty k → kind_columns k (Ret <$> css) = let* ls := select_all css (exports k) in Ret (concat ls ++ kind_extra k).
Proof.
  intros Hd Hm. destruct k as [| | |j| | |es pm|create bfs| |r es out]; try done; cbn [kind_columns exports kind_extra maps_empty] in *; rewrite ?child_at.
  - destruct Hm as [-> ->]. apply join_columns_exports.
  - subst pm. cbn [select_all]. destruct (vec_at css 0); try done. orun. cbn [concat]. by rewrite !app_nil_r.
  - cbn [select_all]. destruct (vec_at css 0); try done. orun. cbn [concat]. by rewrite !app_nil_r.
  - destruct out as [bs|bs|jt mark lm rm|]; rewrite ?child_at.
    + done.
    + cbn [select_all]. destruct (vec_at css 0); try done. orun. cbn [concat]. by rewrite !app_nil_r.
    + destruct Hm as [-> ->]. apply join_columns_exports.
    + cbn [select_all]. destruct (vec_at css 1); try done. orun. cbn [concat]. by rewrite !app_nil_r.
Qed.

(** Every column is one of a child, or the operator's own. *)
Lemma elem_of_MapBindings bs pm b : b ∈ MapBindings bs pm → b ∈ bs.
Proof. unfold MapBindings. case_decide; [done|]. intros (i & _ & Hi)%list_elem_of_omap. by eapply list_elem_of_lookup_2. Qed.

Lemma vec_at_elem {A} (l : list A) i x : vec_at l i = Ret x → x ∈ l.
Proof. unfold vec_at. destruct (l !! i) eqn:E; [|done]. intros [= <-]. by eapply list_elem_of_lookup_2. Qed.

Lemma join_columns_from jt mark lm rm css l b :
  join_columns jt mark lm rm (vec_at css 0) (vec_at css 1) = Ret l → b ∈ l → b ∈ (if decide (jt = MARK) then [mkBinding mark 0] else []) ∨ ∃ c, c ∈ css ∧ b ∈ c.
Proof.
  unfold join_columns. destruct (vec_at css 0) as [c0| | |] eqn:E0; try done. orun. apply vec_at_elem in E0. intros E Hb.
  assert (b ∈ MapBindings c0 lm ∨ (∃ c1, vec_at css 1 = Ret c1 ∧ b ∈ MapBindings c1 rm) ∨ (jt = MARK ∧ b = mkBinding mark 0)) as [H|[(c1 & E1 & H)|[-> ->]]].
  { destruct jt; (destruct (vec_at css 1) as [c1| | |]; try done; orun); cbn [obind] in E; simplify_eq; try (apply elem_of_app in Hb as [?|?]); eauto; set_solver. }
  - right. exists c0. split; [done|by eapply elem_of_MapBindings].
  - right. exists c1. split; [by eapply vec_at_elem|by eapply elem_of_MapBindings].
  - left. rewrite decide_True by done. left.
Qed.

Lemma kind_columns_from k css l b : by_default k = true → kind_columns k (Ret <$> css) = Ret l → b ∈ l → b ∈ kind_extra k ∨ ∃ c, c ∈ css ∧ b ∈ c.
Proof.
  intros Hd. destruct k as [| | |j| | |es pm|create bfs| |r es out]; try done; cbn [kind_columns kind_extra]; rewrite ?child_at.
  - apply join_columns_from.
  - destruct (vec_at css 0) as [c| | |] eqn:E; try done. orun. intros [= <-] Hb%elem_of_MapBindings. right. exists c. split; [by eapply vec_at_elem|done].
  - intros E Hb. right. exists l. split; [by eapply vec_at_elem|done].
  - destruct out as [bs|bs|jt mark lm rm|]; rewrite ?child_at.
    + intros [= <-]. by left.
    + destruct (vec_at css 0) as [c| | |] eqn:E; try done. orun. intros [= <-] [Hb|Hb]%elem_of_app; [|by left]. right. exists c. split; [by eapply vec_at_elem|done].
    + apply join_columns_from.
    + intros E Hb. right. exists l. split; [by eapply vec_at_elem|done].
Qed.

Lemma kind_extra_tables k b : by_default k = true → b ∈ kind_extra k → b.(table_index) ∈ own_tables k.
Proof.
  assert (∀ bs, b ∈ bs → b.(table_index) ∈ tables_of bs) as Ht by (intros bs Hb; unfold tables_of; apply elem_of_remove_dups; by apply list_elem_of_fmap_2).
  intros Hd Hb. destruct k as [| | |j| | | | | |r es out]; try done; simpl in *; try (by apply elem_of_nil in Hb).
  - unfold mark_tables. case_decide; [|by apply elem_of_nil in Hb]. apply list_elem_of_singleton in Hb as ->. left.
  - destruct out; try (by apply Ht); [|by apply elem_of_nil in Hb]. unfold mark_tables. case_decide; [|by apply elem_of_nil in Hb]. apply list_elem_of_singleton in Hb as ->. left.
Qed.

Lemma elem_of_Generate t n b : b ∈ GenerateColumnBindings t n ↔ ∃ i, (i < n)%nat ∧ b = column t i.
Proof. unfold GenerateColumnBindings. rewrite list_elem_of_fmap. setoid_rewrite elem_of_seq. split; intros (i & ? & ?); exists i; split; (done || lia). Qed.

Lemma own_columns_table g b : b ∈ own_columns g → ∃ i, b = column g.(get_index) i.
Proof.
  unfold own_columns. case_decide; [intros ->%list_elem_of_singleton; eauto|]. case_decide; [intros (i & _ & ->)%elem_of_Generate; eauto|intros (i & -> & _)%list_elem_of_fmap; eauto].
Qed.

(** The columns of an operator belong to its tables. *)
Lemma columns_tables op b : b ∈ columns op → b.(table_index) ∈ tables op.
Proof.
  revert b. induction op as [k cs IH] using column_plan_nested_ind. intros b. unfold columns. cbn [GetColumnBindings tables]. rewrite Forall_forall in IH.
  assert (∀ l, l ∈ map GetColumnBindings cs → b ∈ (match l with Ret l => l | _ => [] end) → b.(table_index) ∈ concat (map tables cs)) as Hcs.
  { intros l Hl Hb. apply list_elem_of_fmap in Hl as (c & -> & Hc). apply elem_of_concat_map. exists c. split; [done|]. by apply IH. }
  assert (∀ i l, (let* m := vec_at (map GetColumnBindings cs) i in m) = Ret l → b ∈ l → b.(table_index) ∈ concat (map tables cs)) as Hat.
  { intros i l E Hb. destruct (vec_at (map GetColumnBindings cs) i) as [m| | |] eqn:Em; try done. simpl in E. subst m. apply (Hcs (Ret l)); [by eapply vec_at_elem|done]. }
  assert (∀ jt mark lm rm l, join_columns jt mark lm rm (let* m := vec_at (map GetColumnBindings cs) 0 in m) (let* m := vec_at (map GetColumnBindings cs) 1 in m) = Ret l →
    b ∈ l → b.(table_index) ∈ mark_tables jt mark ++ concat (map tables cs)) as Hjoin.
  { intros jt mark lm rm l. generalize (Hat 0%nat) (Hat 1%nat). generalize (let* m := vec_at (map GetColumnBindings cs) 0 in m) (let* m := vec_at (map GetColumnBindings cs) 1 in m).
    intros m0 m1 H0 H1. unfold join_columns, mark_tables. destruct m0 as [c0| | |]; try done. orun.
    assert (b ∈ MapBindings c0 lm → b.(table_index) ∈ concat (map tables cs)) as G0 by (intros ?%elem_of_MapBindings; by apply (H0 c0)).
    assert (∀ c1, m1 = Ret c1 → b ∈ MapBindings c1 rm → b.(table_index) ∈ concat (map tables cs)) as G1 by (intros c1 -> ?%elem_of_MapBindings; by apply (H1 c1)).
    rewrite elem_of_app. destruct jt; try (destruct m1 as [c1| | |]; try done; orun); intros [= <-]; try (intros [Hb|Hb]%elem_of_app); try (by eauto); try (intros Hb; by eauto).
    all: apply list_elem_of_singleton in Hb as ->; left; rewrite decide_True by done; left. }
  assert (∀ bs, b ∈ bs → b.(table_index) ∈ tables_of bs) as Ht by (intros bs Hb; unfold tables_of; apply elem_of_remove_dups; by apply list_elem_of_fmap_2).
  destruct (kind_columns k (map GetColumnBindings cs)) as [l| | |] eqn:E; try (by intros ?%elem_of_nil). intros Hb. apply elem_of_app.
  destruct k as [g|t es|a|j|s t n|os ps|es pm|create bfs|es ex cols|r es out]; simpl in E; unfold table_get_columns, aggregate_columns, order_columns in E.
  - assert (b ∈ own_columns g → b.(table_index) ∈ own_tables (Get g)) as Ho by (intros (i & ->)%own_columns_table; left).
    case_decide; [simplify_eq; auto|]. case_decide; [simplify_eq; auto|]. case_decide; [|done]. destruct (let* m := vec_at (map GetColumnBindings cs) 0 in m) as [c| | |] eqn:Ec; try done. simpl in E.
    destruct (select_all c (projected_input g)) as [input| | |] eqn:Es; try done. simpl in E. simplify_eq. apply elem_of_app in Hb as [Hb|Hb]; [auto|right]. apply select_all_inv in Es.
    apply list_elem_of_lookup in Hb as [i Hi]. destruct (Forall2_lookup_r _ _ _ _ _ Es Hi) as (j & _ & Hj). eapply Hat; [exact Ec|]. by eapply list_elem_of_lookup_2.
  - simplify_eq. apply elem_of_Generate in Hb as (i & _ & ->). left. simpl. left.
  - simplify_eq. left. simpl. apply elem_of_app in Hb as [(i & _ & ->)%elem_of_Generate|[(i & _ & ->)%elem_of_Generate|(i & Hi & ->)%elem_of_Generate]%elem_of_app]; simpl; [left|right; left|].
    right. right. case_decide; [lia|left].
  - apply Hjoin in E; [|done]. by apply elem_of_app.
  - simplify_eq. apply elem_of_Generate in Hb as (i & _ & ->). left. simpl. left.
  - destruct (let* m := vec_at (map GetColumnBindings cs) 0 in m) as [c| | |] eqn:Ec; try done. simpl in E. right. case_decide; [simplify_eq; by eauto|]. apply select_all_inv in E.
    apply list_elem_of_lookup in Hb as [i Hi]. destruct (Forall2_lookup_r _ _ _ _ _ E Hi) as (j & _ & Hj). eapply Hat; [exact Ec|]. by eapply list_elem_of_lookup_2.
  - destruct (let* m := vec_at (map GetColumnBindings cs) 0 in m) as [c| | |] eqn:Ec; try done. simpl in E. simplify_eq. apply elem_of_MapBindings in Hb. eauto.
  - eauto.
  - simplify_eq. left. simpl. apply Ht. apply elem_of_app. by right.
  - destruct out; simpl in E; simplify_eq; try (by left; apply Ht); [|by apply Hjoin in E; [apply elem_of_app in E|]|by eauto].
    destruct (let* m := vec_at (map GetColumnBindings cs) 0 in m) as [c| | |] eqn:Ec; try done. simpl in E. simplify_eq. apply elem_of_app in Hb as [?|?]; [by eauto|left; by apply Ht].
Qed.

(** ** Resolving types changes nothing of this *)

Lemma map_id_in {A} (f : A → A) l : (∀ x, x ∈ l → f x = x) → map f l = l.
Proof. induction l as [|x l IH]; intros H; [done|]. simpl. rewrite H by left. f_equal. apply IH. intros y Hy. apply H. by right. Qed.

Lemma map_map_in {A B} (f : A → A) (g : A → B) l : (∀ x, x ∈ l → g (f x) = g x) → map g (map f l) = map g l.
Proof. intros H. rewrite map_map. apply map_ext_in. intros x Hx. by apply H, list_elem_of_In. Qed.

Lemma forallb_map_in {A} (f : A → A) (g : A → bool) l : (∀ x, x ∈ l → g (f x) = g x) → forallb g (map f l) = forallb g l.
Proof. induction l as [|x l IH]; intros H; [done|]. simpl. rewrite H by left. f_equal. apply IH. intros y Hy. apply H. by right. Qed.

Lemma resolve_get_columns g : g.(projection_ids) = [] → own_columns (resolve_get g) = own_columns g.
Proof. intros E. unfold resolve_get, own_columns. destruct (decide (g.(column_ids) = [])) as [H|H]; [|by rewrite decide_False by done]. simpl. by rewrite E. Qed.

Lemma resolve_kind_refs k : own_refs (resolve_kind k) = own_refs k.
Proof. destruct k; try done. unfold own_refs, resolve_kind, resolve_get. simpl. by case_decide. Qed.

Lemma resolve_kind_tables k : own_tables (resolve_kind k) = own_tables k.
Proof. destruct k; try done. unfold resolve_kind, resolve_get. by case_decide. Qed.

Lemma resolve_kind_filters k : own_filters (resolve_kind k) = own_filters k.
Proof. by destruct k. Qed.

Lemma resolve_kind_columns k bs : untouched_kind k = true → kind_columns (resolve_kind k) bs = kind_columns k bs.
Proof.
  destruct k as [g| | | | | | | | |]; try done. simpl. intros [Hp%bool_decide_eq_true Hi]%andb_true_iff. unfold table_get_columns. rewrite resolve_get_columns by done. unfold resolve_get.
  destruct (decide (g.(column_ids) = [])) as [E|E]; [|by rewrite decide_False by done]. simpl. rewrite E in Hi. simpl in Hi. apply bool_decide_eq_true in Hi. by rewrite Hi.
Qed.

Lemma resolve_kind_untouched k : untouched_kind k = true → untouched_kind (resolve_kind k) = true.
Proof. destruct k as [g| | | | | | | | |]; try done. simpl. unfold resolve_get. case_decide; [|done]. simpl. intros [-> _]%andb_true_iff. done. Qed.

Section Resolve.
  Context (σ : binding_store) (F : list BlockedBloomFilter).

Ltac resolve_node op k cs IH Hk Hc H :=
  induction op as [k cs IH] using column_plan_nested_ind; cbn [untouched]; intros H; apply andb_true_iff in H as [Hk H]; rewrite Forall_forall in IH;
  assert (∀ c, c ∈ cs → untouched c = true) as Hc by (intros ? ?; by eapply forallb_elem).

Lemma resolve_columns op : untouched op = true → GetColumnBindings (ResolveOperatorTypes op) = GetColumnBindings op.
Proof. resolve_node op k cs IH Hk Hc H. cbn [ResolveOperatorTypes GetColumnBindings]. rewrite resolve_kind_columns by done. f_equal. apply map_map_in. auto. Qed.

Lemma resolve_tables op : tables (ResolveOperatorTypes op) = tables op.
Proof.
  induction op as [k cs IH] using column_plan_nested_ind. rewrite Forall_forall in IH. cbn [ResolveOperatorTypes tables]. rewrite resolve_kind_tables. f_equal. f_equal. by apply map_map_in.
Qed.

Lemma resolve_refs op : plan_refs (ResolveOperatorTypes op) = plan_refs op.
Proof.
  induction op as [k cs IH] using column_plan_nested_ind. rewrite Forall_forall in IH. cbn [ResolveOperatorTypes plan_refs]. rewrite resolve_kind_refs. f_equal. f_equal. by apply map_map_in.
Qed.

Lemma resolve_plan_filters op : plan_filters (ResolveOperatorTypes op) = plan_filters op.
Proof.
  induction op as [k cs IH] using column_plan_nested_ind. rewrite Forall_forall in IH. cbn [ResolveOperatorTypes plan_filters]. rewrite resolve_kind_filters. f_equal. f_equal. by apply map_map_in.
Qed.

Lemma resolve_depth op : depth (ResolveOperatorTypes op) = depth op.
Proof. induction op as [k cs IH] using column_plan_nested_ind. rewrite Forall_forall in IH. cbn [ResolveOperatorTypes depth]. do 2 f_equal. by apply map_map_in. Qed.

Lemma resolve_untouched op : untouched op = true → untouched (ResolveOperatorTypes op) = true.
Proof.
  resolve_node op k cs IH Hk Hc H. cbn [ResolveOperatorTypes untouched]. rewrite resolve_kind_untouched by done. apply forallb_intro. intros c (d & -> & Hd)%list_elem_of_fmap. auto.
Qed.

Lemma resolve_source op b : untouched op = true → source (ResolveOperatorTypes op) b = source op b.
Proof.
  resolve_node op k cs IH Hk Hc H. cbn [ResolveOperatorTypes source]. assert (passes (resolve_kind k) = passes k ∧ kind_extra (resolve_kind k) = kind_extra k) as [-> ->] by (by destruct k).
  destruct (passes k); [case_decide; [done|]; destruct cs as [|c [|]]; try done; apply IH; [left|apply Hc; left]|].
  destruct k as [g| | | | | | | | |]; try done. simpl. unfold resolve_get, read_ids. by destruct (decide (g.(column_ids) = [])) as [E|E]; simpl; rewrite ?E; repeat case_decide.
Qed.

Lemma resolve_on_table op : on_table (ResolveOperatorTypes op) = on_table op.
Proof.
  induction op as [k cs IH] using column_plan_nested_ind. rewrite Forall_forall in IH. cbn [ResolveOperatorTypes on_table]. assert (passes (resolve_kind k) = passes k) as -> by (by destruct k).
  destruct (passes k); [destruct cs as [|c [|]]; try done; apply IH; left|]. by destruct k.
Qed.

Lemma resolve_placed op : placed (ResolveOperatorTypes op) = placed op.
Proof.
  induction op as [k cs IH] using column_plan_nested_ind. rewrite Forall_forall in IH. cbn [ResolveOperatorTypes placed]. f_equal; [|by apply forallb_map_in].
  destruct k; try done. simpl. apply forallb_map_in. intros c _. apply resolve_on_table.
Qed.

Lemma resolve_filter_sources op : untouched op = true → filter_sources F (ResolveOperatorTypes op) = filter_sources F op.
Proof.
  resolve_node op k cs IH Hk Hc H. cbn [ResolveOperatorTypes filter_sources]. f_equal; [|f_equal; apply map_map_in; auto]. destruct k; try done. simpl. apply list_fmap_ext. intros i x _. f_equal.
  apply list_fmap_ext. intros j b _. unfold child_source. destruct cs as [|c [|]]; try done. simpl. apply resolve_source, Hc. left.
Qed.

Lemma resolve_scoped op : untouched op = true → scoped σ F op = true → scoped σ F (ResolveOperatorTypes op) = true.
Proof.
  resolve_node op k cs IH Hk Hc H. cbn [scoped]. intros [[Hh Hs]%andb_true_iff Hcs]%andb_true_iff. cbn [ResolveOperatorTypes scoped].
  assert (columns <$> map ResolveOperatorTypes cs = columns <$> cs) as Ecs.
  { apply map_map_in. intros c ?. unfold columns. by rewrite resolve_columns by auto. }
  rewrite Ecs. repeat (apply andb_true_iff; split).
  - unfold has_columns in *. pose proof (resolve_columns (Node k cs)) as Er. cbn [ResolveOperatorTypes] in Er. rewrite Er; [done|]. cbn [untouched]. by rewrite Hk, H.
  - destruct k as [g| | | | | | | | |]; try done. simpl in Hk, Hs |- *. apply andb_true_iff in Hk as [Hp%bool_decide_eq_true _]. rewrite resolve_get_columns by done.
    unfold resolve_get. destruct (decide (g.(column_ids) = [])) as [E|E]; [|done]. simpl. rewrite E in Hs. apply andb_true_iff in Hs as [-> Hf]. simpl.
    by destruct (table_filters g).
  - apply forallb_intro. intros c (d & -> & Hd)%list_elem_of_fmap. apply IH; [done|auto|by eapply forallb_elem].
Qed.

Lemma resolve_demanded everything op :
  untouched op = true → (∀ g g', everything (Get g') = everything (Get g)) → ∀ all D, demanded_by everything σ F all D (ResolveOperatorTypes op) = demanded_by everything σ F all D op.
Proof.
  intros Hun He. revert Hun. resolve_node op k cs IH Hk Hc H. intros all D. assert (∀ all D, forallb (demanded_by everything σ F all D) (map ResolveOperatorTypes cs) = forallb (demanded_by everything σ F all D) cs) as Hcs.
  { intros. apply forallb_map_in. intros c ?. apply IH; auto. }
  destruct k as [g| | | |s t n| | | | |]; cbn [ResolveOperatorTypes resolve_kind demanded_by]; rewrite ?Hcs; try done.
  - rewrite (He g), (map_map_in ResolveOperatorTypes plan_filters cs); [done|]. intros c _. apply resolve_plan_filters.
  - destruct s; rewrite ?Hcs; try done. apply forallb_map_in. intros c ?. unfold columns. rewrite resolve_columns by auto. apply IH; auto.
Qed.

Lemma resolve_unmapped op : unmapped (ResolveOperatorTypes op) = unmapped op.
Proof.
  induction op as [k cs IH] using column_plan_nested_ind. rewrite Forall_forall in IH. cbn [ResolveOperatorTypes unmapped]. f_equal; [|by apply forallb_map_in].
  destruct k as [g| | | | | | | | |]; try done. simpl. unfold resolve_get. by case_decide.
Qed.
End Resolve.
