(* ===== verification/RemoveFrames.v ===== *)
(** * RemoveFrames: what a visit changes, and what it leaves alone

    The theory of [RemoveColumns] that all operators share: a visit changes
    bindings of references to its own tables and of its own, so that visits of
    siblings do not disturb each other, and what is to be shown of a visit,
    with loops over children. *)

From S2P Require Import Prelude BloomFilter LogicalPlan ColumnResolver PlanColumns RemoveColumns RemoveBase RemoveSpec.
Local Open Scope Z_scope.
Local Open Scope machine_scope.

(** ** What a visit changes

    [T] are the tables, [Q] the references, and [X] the filters of what is
    visited. *)
Record changes (T : list Z) (Q : list nat) (X : list (bool * nat)) (R : references) (w : columns_world) (R' : references) (w' : columns_world) : Prop := {
  ch_keys b : b.(table_index) ∉ T → R' !! b = R !! b;
  ch_frame p : (p < w.(next_ref))%nat → p ∉ Q → (∀ b, b.(table_index) ∈ T → p ∉ refs_at R b) → w'.(store) !! p = w.(store) !! p;
  ch_live p : is_Some (w'.(store) !! p) → (p < w'.(next_ref))%nat;
  ch_next : (w.(next_ref) ≤ w'.(next_ref))%nat;
  ch_table : w.(next_table) ≤ w'.(next_table);
  ch_filters k x : (k, x) ∉ X → filter_cols w'.(filters) k x = filter_cols w.(filters) k x;
  ch_bound x f : w.(filters) !! x = Some f → ∃ f', w'.(filters) !! x = Some f' ∧ ∀ k, bound k f' = bound k f
}.

Definition fresh (w : columns_world) : Prop := ∀ p, is_Some (w.(store) !! p) → (p < w.(next_ref))%nat.

Lemma changes_refl T Q X R w : fresh w → changes T Q X R w R w.
Proof. intros Hf. split; try done. eauto. Qed.

Lemma changes_trans T1 Q1 X1 T2 Q2 X2 T Q X R w R1 w1 R2 w2 :
  changes T1 Q1 X1 R w R1 w1 → changes T2 Q2 X2 R1 w1 R2 w2 →
  (∀ t, t ∈ T1 ∨ t ∈ T2 → t ∈ T) → (∀ p, p ∈ Q1 ∨ p ∈ Q2 → p ∈ Q) → (∀ x, x ∈ X1 ∨ x ∈ X2 → x ∈ X) →
  (∀ b p, b.(table_index) ∈ T2 → p ∈ refs_at R1 b → p ∈ Q ∨ ∃ b0, b0.(table_index) ∈ T ∧ p ∈ refs_at R b0) →
  changes T Q X R w R2 w2.
Proof.
  intros [A1 A2 A3 A4 A5 A6 A7] [B1 B2 B3 B4 B5 B6 B7] HT HQ HX HR. split; [| |done|lia|lia| |].
  - intros b Hb. rewrite B1, A1; [done|..]; intros ?; apply Hb; auto.
  - intros p Hp HpQ Hpb. rewrite B2; [apply A2|lia|..]; auto. intros b Hb Hin. destruct (HR b p Hb Hin) as [?|(b0 & ? & ?)]; [done|]. by apply (Hpb b0).
  - intros k x Hx. rewrite B6, A6; [done|..]; intros ?; apply Hx; auto.
  - intros x f Hf. destruct (A7 x f Hf) as (f1 & Hf1 & E1). destruct (B7 x f1 Hf1) as (f2 & Hf2 & E2). exists f2. split; [done|]. intros k. by rewrite E2, E1.
Qed.

(** Another visitor did it. *)
Lemma changes_hide T Q X R1 w R1' w' T' Q' X' R :
  changes T Q X R1 w R1' w' → (∀ b p, p ∈ refs_at R1 b → p ∈ Q') → (∀ p, p ∈ Q → p ∈ Q') → (∀ x, x ∈ X → x ∈ X') → changes T' Q' X' R w R w'.
Proof.
  intros [A1 A2 A3 A4 A5 A6 A7] HR HQ HX. split; auto. intros p Hp HpQ _. apply A2; [done|auto|]. intros b _ Hin. by apply HpQ, (HR b).
Qed.

(** The store is all that changed. *)
Lemma changes_store T Q X R R' w σ' :
  fresh w → (∀ b, b.(table_index) ∉ T → R' !! b = R !! b) → (∀ p, p ∉ Q → (∀ b, b.(table_index) ∈ T → p ∉ refs_at R b) → σ' !! p = w.(store) !! p) →
  (∀ p, is_Some (σ' !! p) → is_Some (w.(store) !! p)) → changes T Q X R w R' (set_store σ' w).
Proof. intros Hf HR Hσ Hl. split; simpl; auto; [lia|eauto]. Qed.

Lemma changes_agree T Q X R w R' w' op :
  changes T Q X R w R' w' → (∀ p, p ∈ plan_refs op → (p < w.(next_ref))%nat ∧ (p ∉ Q) ∧ ∀ b, b.(table_index) ∈ T → p ∉ refs_at R b) →
  (∀ x, x ∈ plan_filters op → x ∉ X) → agree op w.(store) w.(filters) w'.(store) w'.(filters).
Proof.
  intros H Hp Hx. split.
  - intros p (H1 & H2 & H3)%Hp. by apply (ch_frame _ _ _ _ _ _ _ H).
  - intros k x ?%Hx. by apply (ch_filters _ _ _ _ _ _ _ H).
Qed.

(** ** Plans to visit *)

Record forest_ok (cs : list column_plan) (w : columns_world) : Prop := {
  f_tables : NoDup (concat (map tables cs));
  f_refs : NoDup (concat (map plan_refs cs));
  f_filters : NoDup (concat (map plan_filters cs));
  f_scoped : forallb (scoped w.(store) w.(filters)) cs = true;
  f_untouched : forallb untouched cs = true;
  f_placed : forallb placed cs = true;
  f_fresh : fresh w;
  f_fresh_table t : t ∈ concat (map tables cs) → t < w.(next_table)
}.

Lemma exprs_in_live σ bs es p : exprs_in σ bs es = true → p ∈ exprs_refs es → ∃ b, σ !! p = Some b ∧ b ∈ bs.
Proof. intros [_ H]%andb_true_iff Hp. apply (forallb_elem _ _ p) in H; [|done]. unfold ref_in in H. destruct (σ !! p) as [b|]; [|done]. apply bool_decide_eq_true in H. eauto. Qed.

Lemma exprs_in_unbound σ bs es : exprs_in σ bs es = true → forallb expr_unbound es = true.
Proof. by intros [? _]%andb_true_iff. Qed.

Lemma exprs_in_app σ bs es es' : exprs_in σ bs (es ++ es') = exprs_in σ bs es && exprs_in σ bs es'.
Proof. unfold exprs_in. rewrite exprs_refs_app, !forallb_app. by destruct (forallb expr_unbound es), (forallb expr_unbound es'), (forallb _ (exprs_refs es)), (forallb _ (exprs_refs es')). Qed.

Lemma exprs_in_intro σ bs es : forallb expr_unbound es = true → (∀ p, p ∈ exprs_refs es → ∃ b, σ !! p = Some b ∧ b ∈ bs) → exprs_in σ bs es = true.
Proof.
  intros Hu Hp. unfold exprs_in. rewrite Hu. apply forallb_intro. intros p (b & E & Hb)%Hp. unfold ref_in. rewrite E. by apply bool_decide_eq_true.
Qed.

(** The references of an operator are to columns of its children, of its own, or to excluded ones. *)
Definition reach (k : logical_kind) (css : list (list ColumnBinding)) : list ColumnBinding :=
  match k with Get g => own_columns g | Modify _ excluded _ => excluded ++ concat css | _ => concat css end.

Lemma condition_unbound j l r σ :
  forallb (λ c, exprs_in σ l [c.(cond_left)] && exprs_in σ r [c.(cond_right)]) j.(comp_conditions) = true →
  forallb expr_unbound (concat ((λ c, [c.(cond_left); c.(cond_right)]) <$> j.(comp_conditions))) = true.
Proof.
  induction (comp_conditions j) as [|c conds IH]; [done|]. simpl. intros [[H1 H2]%andb_true_iff Hc]%andb_true_iff. apply exprs_in_unbound in H1, H2. simpl in H1, H2.
  rewrite andb_true_r in H1, H2. rewrite H1, H2. simpl. by apply IH.
Qed.

Lemma kind_scoped_refs σ F k css :
  kind_scoped σ F k css = true → forallb expr_unbound (EnumerateExpressions k) = true ∧ ∀ p, p ∈ own_refs k → ∃ b, σ !! p = Some b ∧ b ∈ reach k css.
Proof.
  assert (∀ bs es, exprs_in σ bs es = true → forallb expr_unbound es = true ∧ ∀ p, p ∈ exprs_refs es → ∃ b, σ !! p = Some b ∧ b ∈ bs) as Hes.
  { intros bs es He. split; [by eapply exprs_in_unbound|]. intros p Hp. by eapply exprs_in_live. }
  destruct k as [g|t es|a|j|s t n|os ps|es pm|create bfs|es ex cols|r es out]; cbn [EnumerateExpressions reach]; unfold own_refs; cbn [EnumerateExpressions kind_scoped].
  - intros [He _]%andb_true_iff. by apply Hes.
  - destruct css as [|c [|]]; try done. simpl. rewrite app_nil_r. apply Hes.
  - destruct css as [|c [|]]; try done. simpl. rewrite app_nil_r. apply Hes.
  - destruct css as [|l [|r [|]]]; try done. simpl. rewrite app_nil_r. intros [He Hc]%andb_true_iff. split.
    + pose proof He as Hu%exprs_in_unbound. rewrite !forallb_app in *. apply andb_true_iff in Hu as [-> ->]. by rewrite (condition_unbound j l r σ).
    + intros p Hp. apply (join_own_refs j p) in Hp as [Hp|(c & Hc' & Hp)]; [by apply (Hes _ _ He)|]. apply (forallb_elem _ _ c) in Hc; [|done]. apply andb_true_iff in Hc as [Hl Hr].
      assert (∀ e, exprs_refs [e] = expr_refs e) as E1 by (intros e; unfold exprs_refs; simpl; by rewrite app_nil_r).
      destruct Hp as [Hp|Hp]; [destruct (Hes _ _ Hl) as [_ Hx]|destruct (Hes _ _ Hr) as [_ Hx]]; rewrite E1 in Hx; destruct (Hx p Hp) as (b & ? & ?); exists b; rewrite elem_of_app; auto.
  - intros _. split; [done|]. intros p Hp. by apply elem_of_nil in Hp.
  - destruct css as [|c [|]]; try done. simpl. rewrite app_nil_r. apply Hes.
  - destruct css as [|c [|]]; try done. simpl. rewrite app_nil_r. apply Hes.
  - intros _. split; [done|]. intros p Hp. by apply elem_of_nil in Hp.
  - destruct css as [|c [|]]; try done. simpl. rewrite app_nil_r. apply Hes.
  - apply Hes.
Qed.

Lemma scoped_node σ F k cs : scoped σ F (Node k cs) = true → has_columns (Node k cs) = true ∧ kind_scoped σ F k (columns <$> cs) = true ∧ forallb (scoped σ F) cs = true.
Proof. cbn [scoped]. by intros [[? ?]%andb_true_iff ?]%andb_true_iff. Qed.

Lemma scoped_live σ F op p : scoped σ F op = true → p ∈ plan_refs op → is_Some (σ !! p).
Proof.
  induction op as [k cs IH] using column_plan_nested_ind. rewrite Forall_forall in IH. intros (_ & Hk & Hcs)%scoped_node. cbn [plan_refs].
  intros [Hp|(c & Hc & Hp)%elem_of_concat_map]%elem_of_app.
  - destruct (kind_scoped_refs _ _ _ _ Hk) as [_ Hl]. destruct (Hl p Hp) as (b & -> & _). eauto.
  - apply (IH c); [done| |done]. by eapply forallb_elem.
Qed.

Lemma forest_live cs w p : forest_ok cs w → p ∈ concat (map plan_refs cs) → (p < w.(next_ref))%nat.
Proof. intros H (c & Hc & Hp)%elem_of_concat_map. apply (f_fresh _ _ H). eapply scoped_live; [|done]. eapply forallb_elem; [apply H|done]. Qed.

Lemma forest_cons c cs w : forest_ok (c :: cs) w → forest_ok [c] w ∧ forest_ok cs w.
Proof.
  intros [H1 H2 H3 H4 H5 H6 H7 H8]. cbn [map concat forallb] in *. apply NoDup_app in H1 as (? & _ & ?), H2 as (? & _ & ?), H3 as (? & _ & ?). apply andb_true_iff in H4 as [? ?], H5 as [? ?], H6 as [? ?].
  split; split; cbn [map concat forallb]; rewrite ?app_nil_r; auto; try (by apply andb_true_iff); intros t Ht; apply H8, elem_of_app; auto.
Qed.

(** The rest of the children, when one was visited. *)
Lemma forest_after c cs w R R' w' :
  forest_ok (c :: cs) w → tracks (tables c) (concat (map plan_refs (c :: cs))) R w.(store) →
  changes (tables c) (plan_refs c) (plan_filters c) R w R' w' → forest_ok cs w' ∧ ∀ d, d ∈ cs → agree d w.(store) w.(filters) w'.(store) w'.(filters).
Proof.
  intros Hok Ht Hch. pose proof (forest_cons _ _ _ Hok) as [_ Hcs].
  assert (∀ d, d ∈ cs → agree d w.(store) w.(filters) w'.(store) w'.(filters)) as Ha.
  { intros d Hd. eapply changes_agree; [done| |].
    - intros p Hp. assert (p ∈ concat (map plan_refs cs)) as Hp' by (apply elem_of_concat_map; eauto). split_and!; [by eapply forest_live| |].
      + pose proof (f_refs _ _ Hok) as (_ & Hd' & _)%NoDup_app. intros Hc. by apply (Hd' p).
      + intros b Hb Hpb. apply (tracks_bound _ _ _ _ Ht b p Hb) in Hpb as [_ Hq]. apply Hq. cbn [map concat]. apply elem_of_app. by right.
    - intros x Hx. pose proof (f_filters _ _ Hok) as (_ & Hd' & _)%NoDup_app. intros Hc. apply (Hd' x Hc), elem_of_concat_map. eauto. }
  split; [|done]. destruct Hcs as [H1 H2 H3 H4 H5 H6 H7 H8]. split; try done.
  - apply forallb_intro. intros d Hd. rewrite (scoped_ext d w.(store) w.(filters)) by auto. by eapply forallb_elem.
  - exact (ch_live _ _ _ _ _ _ _ Hch).
  - intros t Ht'. pose proof (ch_table _ _ _ _ _ _ _ Hch). specialize (H8 t Ht'). lia.
Qed.

(** ** What comes of one operator *)

(** The part that does not depend on the visitor. *)
Record stepped (c c' : column_plan) (w w' : columns_world) : Prop := {
  s_scoped : scoped w'.(store) w'.(filters) c' = true;
  s_refs p : p ∈ plan_refs c' → p ∈ plan_refs c ∨ (w.(next_ref) ≤ p)%nat;
  s_filters : plan_filters c' = plan_filters c;
  s_sources : filter_sources w'.(filters) c' = filter_sources w.(filters) c;
  s_unmapped : unmapped c = true → unmapped c' = true
}.

(** References to a column of the operator are references to one column of the
    result, the same one if everything is referenced. *)
Definition lands (all : bool) (R : references) (σ' : binding_store) (cols' : list ColumnBinding) (b : ColumnBinding) : Prop :=
  ∃ b', b' ∈ cols' ∧ (∀ p, p ∈ refs_at R b → σ' !! p = Some b') ∧ (all = true → b' = b).

(** The columns of filters are needed, when references to the columns that were demanded, or all, became references to those of [D']. *)
Abbreviation demanded_later := (demanded_by lifetime_takes_all).

Definition needs_kept (c c' : column_plan) (ev : bool) (R : references) (w w' : columns_world) : Prop :=
  ∀ all D D', demanded_later w.(store) w.(filters) all D c = true → (all = true → ev = true) → (all = false → ∀ b, b ∈ D → b.(table_index) ∈ tables c → refs_at R b ≠ []) →
    (∀ b p, b.(table_index) ∈ tables c → p ∈ refs_at R b → ∃ b', w'.(store) !! p = Some b' ∧ b' ∈ D') → needed w'.(store) w'.(filters) all D' c' = true.

Record delivered (c c' : column_plan) (all : bool) (R : references) (w w' : columns_world) : Prop := {
  d_stepped : stepped c c' w w';
  d_lands b : b ∈ columns c → all = true ∨ is_Some (R !! b) → lands all R w'.(store) (columns c') b;
  d_all : all = true → columns c' = columns c;
  d_needs : needs_kept c c' all R w w'
}.

Lemma stepped_later c c' w w1 w2 : stepped c c' w w1 → agree c' w1.(store) w1.(filters) w2.(store) w2.(filters) → stepped c c' w w2.
Proof. intros [H1 H2 H3 H4 H5] Ha. split; try done; [by rewrite (scoped_ext c' w1.(store) w1.(filters))|by rewrite (filter_sources_ext c' _ _ _ _ Ha)]. Qed.

Lemma delivered_later c c' all R w w1 w2 :
  delivered c c' all R w w1 → agree c' w1.(store) w1.(filters) w2.(store) w2.(filters) →
  (∀ b p, b.(table_index) ∈ tables c → p ∈ refs_at R b → w2.(store) !! p = w1.(store) !! p) → delivered c c' all R w w2.
Proof.
  intros [H1 H2 H3 H4] Ha Hp. split; [by eapply stepped_later| |done|].
  - intros b Hb Hs. destruct (H2 b Hb Hs) as (b' & ? & Hl & ?). exists b'. split_and!; [done| |done]. intros p Hpb. rewrite (Hp b p) by (try apply columns_tables; done). auto.
  - intros all0 D D' Hd He HD HD'. rewrite (needed_ext c' w1.(store) w1.(filters)) by done. eapply H4; [exact Hd|done|done|]. intros b p Hb Hpb. rewrite <- (Hp b p Hb Hpb). by apply (HD' b).
Qed.

(** On tables, the visitor can tell the new column from the references it has. *)
Definition table_ok (c c' : column_plan) (all : bool) (R R' : references) (w' : columns_world) : Prop :=
  on_table c = true → ∀ b, b ∈ columns c → all = true ∨ refs_at R b ≠ [] →
    ∃ b', b' ∈ columns c' ∧ (all = true → b' = b ∧ R' !! b ≠ Some []) ∧ (∀ p, p ∈ refs_at R' b → w'.(store) !! p = Some b') ∧
      (∃ l, refs_at R' b = refs_at R b ++ l) ∧ source c' b' = source c b ∧ b'.(table_index) = b.(table_index).

Record visited (c c' : column_plan) (st : RemoveUnusedColumns) (w : columns_world) (st' : RemoveUnusedColumns) (w' : columns_world) : Prop := {
  v_changes : changes (tables c) (plan_refs c) (plan_filters c) st.(column_references) w st'.(column_references) w';
  v_delivered : delivered c c' st.(everything_referenced) st.(column_references) w w';
  v_table : table_ok c c' st.(everything_referenced) st.(column_references) st'.(column_references) w';
  v_all : st.(everything_referenced) = true → st'.(everything_referenced) = true
}.

(** The visitor has references to the columns that are demanded. *)
Definition ready (T : list Z) (all : bool) (D : list ColumnBinding) (st : RemoveUnusedColumns) : Prop :=
  st.(everything_referenced) = true ∨ (all = false ∧ ∀ b, b ∈ D → b.(table_index) ∈ T → refs_at st.(column_references) b ≠ []).

(** What is to be shown of a visit. *)
Definition visits_well (visit : visitor) (c : column_plan) : Prop :=
  ∀ st w all D, forest_ok [c] w → tracks (tables c) (plan_refs c) st.(column_references) w.(store) → demanded w.(store) w.(filters) all D c = true → ready (tables c) all D st →
    ∃ c' st' w', visit c st w = Ret (c', st', w') ∧ visited c c' st w st' w'.

(** ** Children *)

Abbreviation all_tables cs := (concat (map tables cs)).
Abbreviation all_refs cs := (concat (map plan_refs cs)).
Abbreviation all_filters cs := (concat (map plan_filters cs)).

Lemma Forall2_impl_in {A B} (P Q : A → B → Prop) l k : Forall2 P l k → (∀ x y, x ∈ l → P x y → Q x y) → Forall2 Q l k.
Proof.
  induction 1 as [|x y l k Hxy _ IH]; intros H; [constructor|]. constructor; [apply H; [left|done]|]. apply IH. intros x' y' ?. apply H. by right.
Qed.

(** What one child became is not touched by the visit of the others. *)
Lemma kept_apart c c' cs R w R1 w1 R2 w2 :
  forest_ok (c :: cs) w → tracks (all_tables cs) (all_refs (c :: cs)) R w.(store) →
  stepped c c' w w1 → (∀ b, b.(table_index) ∈ all_tables cs → R1 !! b = R !! b) → fresh w1 →
  changes (all_tables cs) (all_refs cs) (all_filters cs) R1 w1 R2 w2 → agree c' w1.(store) w1.(filters) w2.(store) w2.(filters).
Proof.
  intros Hok Ht Hst HR Hf1 Hch. eapply changes_agree; [done| |].
  - intros p Hp. pose proof (forest_cons _ _ _ Hok) as [_ Hcs]. pose proof (s_refs _ _ _ _ Hst p Hp) as Hp'. split_and!.
    + apply Hf1. eapply scoped_live; [apply Hst|done].
    + intros Hq. destruct Hp' as [Hp'|Hp']; [|pose proof (forest_live _ _ _ Hcs Hq); lia]. pose proof (f_refs _ _ Hok) as (_ & Hd & _)%NoDup_app. by apply (Hd p).
    + intros b Hb Hpb. unfold refs_at in Hpb. rewrite HR in Hpb by done. destruct (tracks_bound _ _ _ _ Ht b p Hb Hpb) as [Hbp Hq]. destruct Hp' as [Hp'|Hp'].
      * apply Hq. cbn [map concat]. apply elem_of_app. by left.
      * assert (p < w.(next_ref))%nat; [|lia]. apply (f_fresh _ _ Hok). eauto.
  - intros x Hx Hx'. rewrite (s_filters _ _ _ _ Hst) in Hx. pose proof (f_filters _ _ Hok) as (_ & Hd & _)%NoDup_app. by apply (Hd x).
Qed.

(** A visit that began later. *)
Lemma stepped_earlier c c' w w1 w2 : stepped c c' w1 w2 → agree c w.(store) w.(filters) w1.(store) w1.(filters) → (w.(next_ref) ≤ w1.(next_ref))%nat → stepped c c' w w2.
Proof.
  intros [H1 H2 H3 H4 H5] Ha Hle. split; try done; [|by rewrite H4, (filter_sources_ext c _ _ _ _ Ha)]. intros p [?|?]%H2; [by left|right; lia].
Qed.

Lemma delivered_earlier c c' all all1 R R1 w w1 w2 :
  delivered c c' all1 R1 w1 w2 → (all = true → all1 = true) → (∀ b, b.(table_index) ∈ tables c → R1 !! b = R !! b) →
  agree c w.(store) w.(filters) w1.(store) w1.(filters) → (w.(next_ref) ≤ w1.(next_ref))%nat → delivered c c' all R w w2.
Proof.
  intros [H1 H2 H3 H4] Hall HR Ha Hle. split; [by eapply stepped_earlier| |auto|].
  - intros b Hb Hs. pose proof (HR b (columns_tables _ _ Hb)) as HRb. destruct (H2 b Hb) as (b' & ? & Hp & ?); [rewrite HRb; naive_solver|]. exists b'. split_and!; [done| |auto]. intros p. unfold refs_at. rewrite <- HRb. apply Hp.
  - intros all0 D D' Hd He HD HD'. apply (H4 all0 D D'); [by rewrite (demanded_ext _ c w.(store) w.(filters))|auto|..].
    + intros Ea b Hb Ht. unfold refs_at. rewrite HR by done. by apply HD.
    + intros b p Ht. unfold refs_at. rewrite HR by done. by apply HD'.
Qed.

Lemma visit_children_ok visit cs all D : ∀ st w,
  (∀ c, c ∈ cs → visits_well visit c) → forest_ok cs w → tracks (all_tables cs) (all_refs cs) st.(column_references) w.(store) →
  (∀ c, c ∈ cs → demanded w.(store) w.(filters) all D c = true) → ready (all_tables cs) all D st →
  ∃ cs' st' w', VisitOperatorChildren visit cs st w = Ret (cs', st', w') ∧
    changes (all_tables cs) (all_refs cs) (all_filters cs) st.(column_references) w st'.(column_references) w' ∧
    Forall2 (λ c c', delivered c c' st.(everything_referenced) st.(column_references) w w') cs cs' ∧ (st.(everything_referenced) = true → st'.(everything_referenced) = true).
Proof.
  induction cs as [|c cs IH]; intros st w Hv Hok Ht Hd Hr; [exists [], st, w; split_and!; [done| |constructor|done]; apply changes_refl, Hok|].
  pose proof (forest_cons _ _ _ Hok) as [Hc Hcs]. cbn [map concat] in Ht, Hr. set (R := st.(column_references)) in *.
  assert (tracks (tables c) (all_refs (c :: cs)) R w.(store)) as Htc by (eapply tracks_weaken; [exact Ht| |done]; intros t ?; apply elem_of_app; by left).
  assert (tracks (all_tables cs) (all_refs (c :: cs)) R w.(store)) as Htcs by (eapply tracks_weaken; [exact Ht| |done]; intros t ?; apply elem_of_app; by right).
  destruct (Hv c (list_elem_of_here _ _) st w all D Hc) as (c' & st1 & w1 & E & [V1 V2 V3 V4]).
  { eapply tracks_weaken; [exact Htc|done|]. intros p ?. cbn [map concat]. apply elem_of_app. by left. } { apply Hd. left. }
  { destruct Hr as [?|[? Hr]]; [by left|right]. split; [done|]. intros b ? ?. apply Hr; [done|apply elem_of_app; by left]. }
  pose proof (f_tables _ _ Hok) as Hdis. cbn [map concat] in Hdis. apply NoDup_app in Hdis as (_ & Hdis & _). fold R in V1, V2, V3.
  assert (∀ b, b.(table_index) ∈ all_tables cs → st1.(column_references) !! b = R !! b) as HR.
  { intros b Hb. apply (ch_keys _ _ _ _ _ _ _ V1). intros Hb'. by apply (Hdis _ Hb'). }
  destruct (forest_after c cs w R st1.(column_references) w1 Hok Htc V1) as [Hok1 Hag].
  assert (∀ b p, b.(table_index) ∈ all_tables cs → p ∈ refs_at R b → w1.(store) !! p = w.(store) !! p) as Hσ.
  { intros b p Hb Hp. destruct (tracks_bound _ _ _ _ Htcs b p Hb Hp) as [Hbp Hq]. apply (ch_frame _ _ _ _ _ _ _ V1); [apply (f_fresh _ _ Hok); eauto| |].
    - intros ?. apply Hq. cbn [map concat]. apply elem_of_app. by left.
    - intros b' Hb' Hp'. destruct (tracks_bound _ _ _ _ Htc b' p Hb' Hp') as [Hbp' _]. rewrite Hbp in Hbp'. injection Hbp' as ->. by apply (Hdis _ Hb'). }
  destruct (IH st1 w1) as (cs' & st2 & w2 & E2 & C2 & F2 & A2); [intros; apply Hv; by right|done| | | |].
  { eapply tracks_frame; [|exact HR|exact Hσ]. eapply tracks_weaken; [exact Htcs|done|]. intros p ?. cbn [map concat]. apply elem_of_app. by right. }
  { intros d Hdin. rewrite (demanded_ext _ d w.(store) w.(filters)) by auto. apply Hd. by right. }
  { destruct Hr as [?|[? Hr]]; [left; auto|right]. split; [done|]. intros b ? Hb. unfold refs_at. rewrite HR by done. apply Hr; [done|apply elem_of_app; by right]. }
  exists (c' :: cs'), st2, w2. cbn [VisitOperatorChildren]. rewrite E. orun. rewrite E2. orun. split_and!; [done| | |auto].
  - cbn [map concat]. eapply changes_trans; [exact V1|exact C2|set_solver..|]. intros b p Hb Hp. right. exists b. split; [apply elem_of_app; by right|]. unfold refs_at in *. by rewrite <- HR.
  - constructor.
    + eapply delivered_later; [exact V2|eapply (kept_apart c c' cs R w); [done|done|apply V2|exact HR|apply Hok1|exact C2]|].
      intros b p Hb Hp. destruct (tracks_bound _ _ _ _ Htc b p Hb Hp) as [Hbp Hq].
      apply (ch_frame _ _ _ _ _ _ _ C2).
      * pose proof (ch_next _ _ _ _ _ _ _ V1). assert (p < w.(next_ref))%nat; [|lia]. apply (f_fresh _ _ Hok). eauto.
      * intros ?. apply Hq. cbn [map concat]. apply elem_of_app. by right.
      * intros b' Hb' Hp'. unfold refs_at in Hp'. rewrite HR in Hp' by done. destruct (tracks_bound _ _ _ _ Htcs b' p Hb' Hp') as [Hbp' _]. rewrite Hbp in Hbp'. injection Hbp' as <-. by apply (Hdis _ Hb).
    + apply (Forall2_impl_in _ _ _ _ F2). intros d d' Hin Hd'. eapply delivered_earlier; [exact Hd'|done| |by apply Hag|apply (ch_next _ _ _ _ _ _ _ V1)].
      intros b Hb. apply HR, elem_of_concat_map. eauto.
Qed.

(** Children with visitors of their own: what is needed below them does not depend on the operator. *)
Definition served (Q : bool → list ColumnBinding → column_plan → Prop) (c c' : column_plan) (w w' : columns_world) : Prop :=
  ∀ all D, Q all D c → demanded_later w.(store) w.(filters) all D c = true → needed w'.(store) w'.(filters) true [] c' = true.

Lemma each_ok step (P : binding_store → list BlockedBloomFilter → column_plan → Prop) (E : column_plan → column_plan → Prop) Q cs : ∀ w,
  (∀ c σ F σ' F', agree c σ F σ' F' → P σ F c → P σ' F' c) →
  (∀ c w, c ∈ cs → forest_ok [c] w → P w.(store) w.(filters) c →
    ∃ c' w', step c w = Ret (c', w') ∧ changes [] (plan_refs c) (plan_filters c) ∅ w ∅ w' ∧ stepped c c' w w' ∧ E c c' ∧ served Q c c' w w') →
  forest_ok cs w → (∀ c, c ∈ cs → P w.(store) w.(filters) c) →
  ∃ cs' w', visit_each step cs w = Ret (cs', w') ∧ changes [] (all_refs cs) (all_filters cs) ∅ w ∅ w' ∧ Forall2 (λ c c', stepped c c' w w' ∧ E c c' ∧ served Q c c' w w') cs cs'.
Proof.
  induction cs as [|c cs IH]; intros w HP Hs Hok Hw; [exists [], w; split_and!; [done| |constructor]; apply changes_refl, Hok|].
  pose proof (forest_cons _ _ _ Hok) as [Hc Hcs]. destruct (Hs c w (list_elem_of_here _ _) Hc) as (c' & w1 & E1 & C1 & S1 & HE & N1); [apply Hw; left|].
  destruct (forest_after c cs w ∅ ∅ w1 Hok) as [Hok1 Hag]; [apply tracks_empty|by eapply changes_hide; [exact C1|intros b p ?; by apply refs_at_Some in H as [? ?]|auto..]|].
  destruct (IH w1) as (cs' & w2 & E2 & C2 & F2); [done|intros; apply Hs; [by right|done..]|done|intros d Hd; eapply HP; [by apply Hag|apply Hw; by right]|].
  exists (c' :: cs'), w2. cbn [visit_each]. rewrite E1. orun. rewrite E2. orun. split_and!; [done| |].
  - cbn [map concat]. eapply changes_trans; [exact C1|exact C2|set_solver..|]. intros b p Hb. by apply elem_of_nil in Hb.
  - constructor.
    + assert (agree c' w1.(store) w1.(filters) w2.(store) w2.(filters)) as Ha'.
      { eapply (kept_apart c c' cs ∅ w ∅ w1 ∅); [done|apply tracks_empty|done|done|apply Hok1|]. eapply changes_hide; [exact C2|intros b p ?; by apply refs_at_Some in H as [? ?]|auto..]. }
      split_and!; [by eapply stepped_later|done|]. intros all D HQ Hd. rewrite (needed_ext c' w1.(store) w1.(filters)) by done. by apply (N1 all D).
    + apply (Forall2_impl_in _ _ _ _ F2). intros d d' Hd (HS & ? & N2). split_and!; [eapply stepped_earlier; [exact HS|by apply Hag|apply (ch_next _ _ _ _ _ _ _ C1)]|done|].
      intros all D HQ Hdm. apply (N2 all D HQ). by rewrite (demanded_ext _ d w.(store) w.(filters)) by auto.
Qed.

Lemma refs_at_empty b p : p ∉ refs_at ∅ b.
Proof. unfold refs_at. rewrite lookup_empty. by intros ?%elem_of_nil. Qed.

Lemma bound_to_ne σ ps b : bound_to σ ps b ≠ [] ↔ ∃ p, p ∈ ps ∧ σ !! p = Some b.
Proof.
  split.
  - intros H. destruct (bound_to σ ps b) as [|p l] eqn:E; [done|]. exists p. apply elem_of_bound_to. rewrite E. left.
  - intros (p & Hp & Hb) E. assert (p ∈ bound_to σ ps b) as Hin by (by apply elem_of_bound_to). rewrite E in Hin. by apply elem_of_nil in Hin.
Qed.

(** The expressions of an operator and its child, by a new visitor. *)
Lemma below_ok visit (ev : bool) k c w all D :
  visits_well visit c → forest_ok [c] w → NoDup (own_refs k ++ plan_refs c) → forallb expr_unbound (EnumerateExpressions k) = true → live w.(store) (own_refs k) →
  demanded w.(store) w.(filters) all D c = true → ev = true ∨ (all = false ∧ ∀ b, b ∈ D → b ∈ bindings_of w.(store) (EnumerateExpressions k)) →
  ∃ c' w', visit_below visit ev k [c] w = Ret (Node k [c'], w') ∧ stepped c c' w w' ∧ (ev = true → columns c' = columns c) ∧
    (∀ T R, changes T (own_refs k ++ plan_refs c) (plan_filters c) R w R w') ∧
    (∀ p b, p ∈ own_refs k → w.(store) !! p = Some b → b ∈ columns c → ∃ b', w'.(store) !! p = Some b' ∧ b' ∈ columns c' ∧ (ev = true → b' = b)) ∧
    (∀ p b, p ∈ own_refs k → w.(store) !! p = Some b → b.(table_index) ∉ tables c → w'.(store) !! p = Some b) ∧
    (∀ all D, demanded_later w.(store) w.(filters) all D c = true → (all = true → ev = true) → (all = false → ∀ b, b ∈ D → b ∈ bindings_of w.(store) (EnumerateExpressions k)) →
      live w'.(store) (own_refs k) → needed w'.(store) w'.(filters) all (bindings_of w'.(store) (EnumerateExpressions k)) c' = true).
Proof.
  intros Hv Hok Hnd Hu Hl Hd Hr. set (R1 := push_all w.(store) ∅ (own_refs k)).
  assert (∀ b p, p ∈ refs_at R1 b ↔ p ∈ own_refs k ∧ w.(store) !! p = Some b) as HR1.
  { intros b p. unfold R1. rewrite refs_at_push_all, elem_of_app, elem_of_bound_to. pose proof (refs_at_empty b p). naive_solver. }
  destruct (Hv (mkRemover ev R1) w all D) as (c' & st' & w' & E & [V1 [V2 V3 V4 V5] _ _]); [done| |done| |].
  { apply tracks_push; [apply tracks_empty|done]. }
  { destruct Hr as [?|[? Hr]]; [by left|right]. split; [done|]. intros b Hb _. destruct (proj1 (elem_of_bindings _ _ _) (Hr b Hb)) as (p & Hp & Hpb).
    cbn [column_references]. intros Hn. assert (p ∈ refs_at R1 b) as Hin by (by apply HR1). rewrite Hn in Hin. by apply elem_of_nil in Hin. }
  cbn [column_references everything_referenced] in *. exists c', w'. split_and!; [|done|done| | | |].
  - unfold visit_below. rewrite VisitExpressions_ok by done. orun. unfold vec_at. cbn [lookup list_lookup]. orun. unfold visit_new. fold (own_refs k) R1. rewrite E. done.
  - intros T R. eapply changes_hide; [exact V1|intros b p [? _]%HR1; apply elem_of_app; by left|intros p ?; apply elem_of_app; by right|done].
  - intros p b Hp Hb Hc. destruct (V3 b Hc) as (b' & Hb' & Hpb' & ?).
    + right. apply (refs_at_Some _ _ p). by apply HR1.
    + exists b'. split_and!; [|done|done]. apply Hpb'. by apply HR1.
  - intros p b Hp Hb Ht. rewrite <- Hb. apply (ch_frame _ _ _ _ _ _ _ V1).
    + apply (f_fresh _ _ Hok). eauto.
    + apply NoDup_app in Hnd as (_ & Hdis & _). by apply Hdis.
    + intros b' Hb' [_ Hp']%HR1. rewrite Hb in Hp'. by injection Hp' as <-.
  - intros all0 D0 Hd0 He HD0 Hl'. apply (V5 all0 D0); [done|done|..].
    + intros Ea b Hb _ Hn. destruct (proj1 (elem_of_bindings _ _ _) (HD0 Ea b Hb)) as (p & Hp & Hpb). assert (p ∈ refs_at R1 b) as Hin by (by apply HR1). rewrite Hn in Hin. by apply elem_of_nil in Hin.
    + intros b p _ [Hp _]%HR1. destruct (Hl' p Hp) as [b' Hb']. exists b'. split; [done|]. apply elem_of_bindings. eauto.
Qed.
