(* ===== verification/PlanFilters.v ===== *)
(** * PlanFilters: the filters of a plan, as the resolver comes to them

    The order in which the column binding resolver goes through the filters of
    a plan, with the columns it looks for theirs in.  When these are there, the
    resolver finds the position of each. *)

From S2P Require Import Prelude BloomFilter LogicalPlan ColumnResolver PlanColumns RemoveColumns RemoveBase RemoveSpec RemoveFrames.
Local Open Scope Z_scope.
Local Open Scope machine_scope.

(** An operator with one child. *)
Lemma one_child {A} (css : list A) (f : A → bool) : match css with [c] => f c | _ => false end = true → ∃ c, css = [c].
Proof. destruct css as [|c [|]]; [done| |done]. eauto. Qed.

Lemma fmap_single (cs : list column_plan) c : columns <$> cs = [c] → ∃ d, cs = [d].
Proof. destruct cs as [|d [|]]; try done. eauto. Qed.

(** The filters of a plan, with the columns the resolver finds below them, in
    the order it comes to them. *)
Definition own_tasks (k : logical_kind) (cs : list column_plan) : list (bool * list ColumnBinding * nat) :=
  match k, cs with BloomOp create bfs, [c] => (λ x, (create, columns c, x)) <$> bfs | _, _ => [] end.

Fixpoint plan_tasks (op : column_plan) : list (bool * list ColumnBinding * nat) :=
  match op with Node k cs => concat (map plan_tasks cs) ++ own_tasks k cs end.

Definition task_filter (t : bool * list ColumnBinding * nat) : bool * nat := (t.1.1, t.2).

Lemma plan_tasks_filters σ F op : scoped σ F op = true → task_filter <$> plan_tasks op ≡ₚ plan_filters op.
Proof.
  induction op as [k cs IH] using column_plan_nested_ind. intros (_ & Hs & Hcs)%scoped_node. cbn [plan_tasks plan_filters]. rewrite fmap_app, (Permutation_app_comm (own_filters k)). apply Permutation_app.
  - clear Hs. induction IH as [|c cs Hc _ IH]; [done|]. cbn [forallb map concat] in *. apply andb_true_iff in Hcs as [? ?]. rewrite fmap_app. apply Permutation_app; auto.
  - destruct k; try done. cbn [kind_scoped own_tasks own_filters] in *. apply one_child in Hs as [c' [c ->]%fmap_single]. rewrite <- list_fmap_compose. done.
Qed.

Lemma keys_filters k l : keys k l = snd <$> base.filter (λ x, x.1 = k) (task_filter <$> l).
Proof. unfold keys. induction l as [|t l IH]; [done|]. csimpl. rewrite !filter_cons. simpl. case_decide; csimpl; by rewrite IH. Qed.

Lemma plan_keys_NoDup σ F op k : scoped σ F op = true → NoDup (plan_filters op) → NoDup (keys k (plan_tasks op)).
Proof.
  intros Hs Hn. rewrite keys_filters. apply (NoDup_fmap_2_strong snd).
  - intros [k1 x1] [k2 x2] [Hk1 _]%list_elem_of_filter [Hk2 _]%list_elem_of_filter. simpl in *. by intros ->; subst.
  - apply NoDup_filter. by rewrite (plan_tasks_filters σ F).
Qed.

Lemma plan_tasks_in σ F op k bs x :
  scoped σ F op = true → (k, bs, x) ∈ plan_tasks op → (k, x) ∈ plan_filters op ∧ ∃ cols, filter_cols F k x = Some cols ∧ cols ≠ [] ∧ ∀ v, v ∈ cols → v ∈ bs.
Proof.
  intros Hs Ht. split; [rewrite <- (plan_tasks_filters σ F op Hs); apply list_elem_of_fmap; exists (k, bs, x); done|]. revert Hs Ht. induction op as [kd cs IH] using column_plan_nested_ind. rewrite Forall_forall in IH.
  intros (_ & Hs & Hcs)%scoped_node. cbn [plan_tasks]. intros [(c & Hc & Ht)%elem_of_concat_map|Ht]%elem_of_app; [apply (IH c Hc); [by eapply forallb_elem|done]|].
  destruct kd as [| | | | | | |create bfs| |]; try (by apply elem_of_nil in Ht). cbn [kind_scoped own_tasks] in *. destruct cs as [|c [|]]; try done. apply list_elem_of_fmap in Ht as (y & [= -> -> ->] & Hy). cbn [fmap list_fmap] in Hs.
  apply (forallb_elem _ _ y) in Hs; [|done]. unfold filter_in in Hs. destruct (filter_cols F create y) as [cols|]; [|done]. apply andb_true_iff in Hs as [Hne%negb_true_iff%bool_decide_eq_false Hin]. exists cols. split_and!; [done|done|].
  intros v Hv. by apply (forallb_elem _ _ v), bool_decide_eq_true in Hin.
Qed.

(** No filter is resolved yet. *)
Definition unresolved (F : list BlockedBloomFilter) (op : column_plan) : bool :=
  forallb (λ x, match F !! x.2 with Some f => bool_decide (bound x.1 f = []) | None => false end) (plan_filters op).

Lemma unresolved_bound F op k x : unresolved F op = true → (k, x) ∈ plan_filters op → ∃ f, F !! x = Some f ∧ bound k f = [].
Proof.
  intros H Hx. unfold unresolved in H. apply (forallb_elem _ _ (k, x)) in H; [|done]. cbn [fst snd] in H. destruct (F !! x) as [f|]; [|done]. apply bool_decide_eq_true in H. eauto.
Qed.

(** What the resolver makes of the filters. *)
Definition resolved_in (F h : list BlockedBloomFilter) (op : column_plan) : Prop :=
  ∀ create bs x, (create, bs, x) ∈ plan_tasks op →
    ∃ f f', F !! x = Some f ∧ h !! x = Some f' ∧ cols_of create f' = cols_of create f ∧ bound_at bs (cols_of create f) (bound create f').

(** The resolver goes through, and leaves the sides that are not in the plan. *)
Lemma filters_run σ F op :
  scoped σ F op = true → NoDup (plan_filters op) → unresolved F op = true →
  ∃ h, ofold resolve_task (plan_tasks op) F = Ret h ∧ ∀ x f, F !! x = Some f → ∃ f', h !! x = Some f' ∧ (∀ k, cols_of k f' = cols_of k f) ∧
    ∀ k, (∀ bs, (k, bs, x) ∈ plan_tasks op → bound_at bs (cols_of k f) (bound k f')) ∧ ((k, x) ∉ plan_filters op → bound k f' = bound k f).
Proof.
  intros Hs Hn Hu. destruct (tasks_ok (plan_tasks op) F) as (h & Eh & Hh).
  { intros k. by eapply plan_keys_NoDup. }
  { intros k bs x Ht. destruct (plan_tasks_in _ _ _ _ _ _ Hs Ht) as (Hx & cols & Hc & Hne & Hin). destruct (unresolved_bound F op k x Hu Hx) as (f & Hf & Hb). exists f. unfold filter_cols in Hc. rewrite Hf in Hc. by injection Hc as <-. }
  exists h. split; [done|]. intros x f Hf. destruct (Hh x f Hf) as (f' & Hf' & Hc & Hk). exists f'. split_and!; [done|done|]. intros k. destruct (Hk k) as [H1 H2]. split; [done|].
  intros Hx. apply H2. rewrite keys_filters, (plan_tasks_filters σ F op Hs). intros ([k' x'] & -> & [Hk' Hin]%list_elem_of_filter)%list_elem_of_fmap. simpl in *. by subst.
Qed.

Lemma filters_resolved σ F op :
  scoped σ F op = true → NoDup (plan_filters op) → unresolved F op = true → ∃ h, ofold resolve_task (plan_tasks op) F = Ret h ∧ resolved_in F h op.
Proof.
  intros Hs Hn Hu. destruct (filters_run σ F op Hs Hn Hu) as (h & Eh & Hh). exists h. split; [done|]. intros k bs x Ht. destruct (plan_tasks_in _ _ _ _ _ _ Hs Ht) as (_ & cols & Hc & _). unfold filter_cols in Hc. destruct (F !! x) as [f|] eqn:Ef; [|done].
  destruct (Hh x f Ef) as (f' & Hf' & Hcf & Hk). exists f, f'. split_and!; [done|done|done|]. by apply (Hk k).
Qed.
