(* ===== verification/RemoveCases.v ===== *)
(** * RemoveCases: the operators, one by one

    What [RemoveUnusedColumns] makes of projections, aggregates, scans, set
    operations, sorts and modifications, given that it is right about their
    children, and the end of the switch that the other operators share. *)

From S2P Require Import Prelude BloomFilter LogicalPlan ColumnResolver PlanColumns RemoveColumns RemoveBase RemoveSpec RemoveFrames.
Local Open Scope Z_scope.
Local Open Scope machine_scope.

(** ** Expressions that are dropped *)

Record pruned (t : Z) (all : bool) (R : references) (es es' : list bound_expression) (σ σ' : binding_store) (new : nat → nat) : Prop := {
  pr_refs p : p ∈ exprs_refs es' → p ∈ exprs_refs es ∧ σ' !! p = σ !! p;
  pr_nodup : NoDup (exprs_refs es');
  pr_elem e : e ∈ es' → e ∈ es ∨ exprs_refs [e] = [] ∧ expr_unbound e = true;
  pr_new i : (i < length es)%nat → all = true ∨ is_Some (R !! column t i) →
    es' !! new i = es !! i ∧ (∀ p, p ∈ refs_at R (column t i) → σ' !! p = Some (column t (new i))) ∧ (all = true → new i = i);
  pr_frame p : p ∉ exprs_refs es → (∀ i, (i < length es)%nat → p ∉ refs_at R (column t i)) → σ' !! p = σ !! p;
  pr_live p : is_Some (σ' !! p) → is_Some (σ !! p);
  pr_all : all = true → es' = es
}.

Lemma prune_list_ok t (all : bool) R es σ (stop : bool) e :
  exprs_refs [e] = [] → expr_unbound e = true → NoDup (exprs_refs es) →
  (∀ i p, (i < length es)%nat → p ∈ refs_at R (column t i) → σ !! p = Some (column t i) ∧ p ∉ exprs_refs es) →
  ∃ es' σ' new, (if all then Ret (es, σ) else
      let* (es, σ) := ClearUnusedExpressions destroy t true R es σ in Ret (if decide (es = [] ∧ stop = true) then [e] else es, σ)) = Ret (es', σ') ∧
    pruned t all R es es' σ σ' new.
Proof.
  intros He Hue Hnd Hok. destruct all.
  { exists es, σ, id. split; [done|]. split; try done; auto. intros i Hi _. split_and!; [done| |done]. intros p Hp. by apply Hok. }
  destruct (ClearUnusedExpressions_ok expr_refs t R destroy ltac:(done) true es σ) as (σ' & -> & H1 & H2 & H3); [done|done|]. orun.
  eexists _, σ', (rank t R). split; [done|]. set (kp := keep_from t R 0 es) in *.
  assert (∀ p, p ∈ exprs_refs kp → p ∈ exprs_refs es ∧ σ' !! p = σ !! p) as Hkp.
  { intros p Hp. assert (p ∈ exprs_refs es) as Hp' by (by apply (frees_keep expr_refs t R 0)). split; [done|]. apply H2; [|by right].
    intros (i & [_ Hi] & Hpi). by destruct (Hok i p Hi Hpi). }
  assert (sublist kp es) as Hsub by apply keep_from_sublist. split; try done.
  - intros p. case_decide; [rewrite He; by intros ?%elem_of_nil|apply Hkp].
  - case_decide; [rewrite He; constructor|]. clear -Hnd Hsub. revert Hnd. unfold exprs_refs. induction Hsub as [|x l k Hs IH|x l k Hs IH]; cbn [map concat]; [done| |].
    + intros (N1 & N2 & N3)%NoDup_app. apply NoDup_app. split_and!; [done| |by apply IH]. intros p Hp Hp'. apply (N2 p Hp). rewrite elem_of_concat_map in Hp' |- *.
      destruct Hp' as (a & Ha & ?). exists a. split; [|done]. by eapply sublist_subseteq.
    + intros (_ & _ & N3)%NoDup_app. by apply IH.
  - intros x. case_decide; [intros ->%list_elem_of_singleton; by right|]. intros Hx. left. by eapply sublist_subseteq.
  - intros i Hi [|Hs]; [done|]. destruct (lookup_lt_is_Some_2 _ _ Hi) as [x Hx]. pose proof (keep_lookup t R es i x Hx (proj2 (kept_true _ _ _) Hs)) as Hk. fold kp in Hk.
    rewrite decide_False by (intros [E _]; by rewrite E in Hk). split_and!; [by rewrite Hk|auto|done].
  - intros p Hp Hpi. apply H2; [|by left]. intros (i & [_ Hi] & ?). by apply (Hpi i).
Qed.

(** ** Projections and aggregates *)

Lemma forest_node k cs w :
  forest_ok [Node k cs] w → forest_ok cs w ∧ NoDup (own_refs k ++ all_refs cs) ∧ NoDup (own_tables k ++ all_tables cs) ∧ NoDup (own_filters k ++ all_filters cs) ∧
    scoped w.(store) w.(filters) (Node k cs) = true ∧ untouched_kind k = true ∧ placed (Node k cs) = true.
Proof.
  intros [H1 H2 H3 H4 H5 H6 H7 H8]. cbn [map concat forallb] in *. rewrite ?app_nil_r, ?andb_true_r in *. cbn [tables plan_refs plan_filters] in *.
  pose proof H4 as (_ & _ & H4')%scoped_node. cbn [untouched] in H5. apply andb_true_iff in H5 as [H5 H5']. pose proof H6 as H6'. cbn [placed] in H6'. apply andb_true_iff in H6' as [_ H6'].
  pose proof H1 as (_ & _ & ?)%NoDup_app. pose proof H2 as (_ & _ & ?)%NoDup_app. pose proof H3 as (_ & _ & ?)%NoDup_app. split_and!; try done.
  split; try done. intros t ?. apply H8, elem_of_app. by right.
Qed.

(** Plans to visit when other bindings were changed. *)
Lemma forest_store cs w σ1 :
  forest_ok cs w → (∀ c, c ∈ cs → agree c w.(store) w.(filters) σ1 w.(filters)) → (∀ p, is_Some (σ1 !! p) → is_Some (w.(store) !! p)) → forest_ok cs (set_store σ1 w).
Proof.
  intros [K1 K2 K3 K4 K5 K6 K7 K8] Ha Hl. split; try done; [|intros p ?%Hl; by apply K7]. apply forallb_intro. intros c Hc. cbn [set_store store filters]. rewrite (scoped_ext c w.(store) w.(filters)) by auto. by eapply forallb_elem.
Qed.

(** The expressions [es] of an operator are pruned, then its child is visited. *)
Lemma prune_below visit k k' pre es es' (t : Z) (ev : bool) R c w σ1 new all D :
  EnumerateExpressions k = pre ++ es → EnumerateExpressions k' = pre ++ es' →
  visits_well visit c → forest_ok [Node k [c]] w → tracks (tables (Node k [c])) (plan_refs (Node k [c])) R w.(store) → t ∈ own_tables k →
  exprs_in w.(store) (columns c) (pre ++ es) = true → pruned t ev R es es' w.(store) σ1 new →
  demanded w.(store) w.(filters) all D c = true → all = false → (∀ b, b ∈ D → b ∈ bindings_of σ1 (pre ++ es')) →
  ∃ c' w', visit_below visit false k' [c] (set_store σ1 w) = Ret (Node k' [c'], w') ∧ stepped c c' w w' ∧
    changes (tables (Node k [c])) (plan_refs (Node k [c])) (plan_filters (Node k [c])) R w R w' ∧ exprs_in w'.(store) (columns c') (pre ++ es') = true ∧
    (∀ b p, b.(table_index) ∈ tables (Node k [c]) → p ∈ refs_at R b → w'.(store) !! p = σ1 !! p) ∧
    (∀ D, demanded_later w.(store) w.(filters) false D c = true → (∀ b, b ∈ D → b ∈ bindings_of σ1 (pre ++ es')) → needed w'.(store) w'.(filters) false (bindings_of w'.(store) (pre ++ es')) c' = true).
Proof.
  intros Ek Ek' Hv Hok Ht Htk He [P1 P2 P3 P4 P5 P6 P7] Hd Hall HD. destruct (forest_node _ _ _ Hok) as (Hc & Hnr & Hnt & Hnf & Hs & _). cbn [map concat] in Hnr. rewrite app_nil_r in Hnr.
  assert (own_refs k = exprs_refs pre ++ exprs_refs es) as Eo by (unfold own_refs; by rewrite Ek, exprs_refs_app).
  assert (own_refs k' = exprs_refs pre ++ exprs_refs es') as Eo' by (unfold own_refs; by rewrite Ek', exprs_refs_app).
  assert (plan_refs (Node k [c]) = own_refs k ++ plan_refs c) as Er by (cbn [plan_refs map concat]; by rewrite app_nil_r).
  assert (∀ i, t ∈ tables (Node k [c]) ∧ (column t i).(table_index) = t) as Htt by (intros i; split; [cbn [tables]; apply elem_of_app; by left|done]).
  assert (∀ p, p ∈ exprs_refs pre ∨ p ∈ plan_refs c → σ1 !! p = w.(store) !! p) as Hσ.
  { intros p Hp. assert (p ∈ plan_refs (Node k [c]) ∧ p ∉ exprs_refs es) as [HpQ Hpe].
    { rewrite Er, Eo. rewrite Eo in Hnr. apply NoDup_app in Hnr as ((N1 & N2 & N3)%NoDup_app & N4 & _). rewrite !elem_of_app. destruct Hp as [Hp|Hp]; split; [auto|by apply N2|auto|].
      intros ?. apply (N4 p); [apply elem_of_app; by right|done]. }
    apply P5; [done|]. intros i _ Hpi. destruct (Htt i) as [H1 H2]. rewrite <- H2 in H1. by destruct (tracks_bound _ _ _ _ Ht _ p H1 Hpi). }
  assert (agree c w.(store) w.(filters) σ1 w.(filters)) as Ha by (split; [intros p ?; apply Hσ; by right|done]).
  assert (forest_ok [c] (set_store σ1 w)) as Hok1 by (apply forest_store; [done|by intros d ->%list_elem_of_singleton|done]).
  assert (∀ p, p ∈ own_refs k' → p ∈ own_refs k ∧ σ1 !! p = w.(store) !! p) as Hown.
  { intros p. rewrite Eo', Eo, !elem_of_app. intros [?|Hp]; [split; [by left|apply Hσ; by left]|]. destruct (P1 p Hp). split; [by right|done]. }
  assert (NoDup (own_refs k' ++ plan_refs c)) as Hn'.
  { apply NoDup_app in Hnr as (N1 & N2 & N3). apply NoDup_app. split_and!; [|intros p Hp; apply N2, (Hown p Hp)|done]. rewrite Eo'. rewrite Eo in N1. apply NoDup_app in N1 as (N4 & N5 & _).
    apply NoDup_app. split_and!; [done| |done]. intros p Hp Hp'. apply (N5 p Hp). by apply P1. }
  assert (forallb expr_unbound (EnumerateExpressions k') = true) as Hu.
  { pose proof (exprs_in_unbound _ _ _ He) as Hu. rewrite Ek'. rewrite forallb_app in Hu |- *. apply andb_true_iff in Hu as [-> Hu]. apply forallb_intro. intros x [Hx|[_ ?]]%P3; [by eapply forallb_elem|done]. }
  assert (∀ p, p ∈ own_refs k' → ∃ b, w.(store) !! p = Some b ∧ b ∈ columns c) as Hin.
  { intros p [Hp _]%Hown. rewrite Eo, <- exprs_refs_app in Hp. by eapply exprs_in_live. }
  destruct (below_ok visit false k' c (set_store σ1 w) false D Hv Hok1 Hn' Hu) as (c' & w' & E & S & _ & C & L & _ & N).
  { intros p Hp. simpl. rewrite (proj2 (Hown p Hp)). destruct (Hin p Hp) as (b & -> & _). eauto. } { simpl. rewrite (demanded_ext _ c w.(store) w.(filters)) by done. by rewrite <- Hall. }
  { right. split; [done|]. intros b Hb. rewrite Ek'. by apply HD. }
  assert (∀ p, p ∈ own_refs k' → ∃ b', w'.(store) !! p = Some b' ∧ b' ∈ columns c') as Hlive.
  { intros p Hp. destruct (Hin p Hp) as (b & Hb & Hbc). destruct (L p b Hp) as (b' & ? & ? & _); [simpl; by rewrite (proj2 (Hown p Hp))|done|eauto]. }
  exists c', w'. split_and!; [done| | | | |].
  - eapply stepped_earlier; [exact S|done|done].
  - eapply (changes_trans _ _ _ _ _ _ _ _ _ _ _ R (set_store σ1 w)); [|apply (C (tables (Node k [c])) R)| | | |].
    + apply (changes_store (tables (Node k [c])) (plan_refs (Node k [c])) []); [apply Hc|done| |done]. intros p HpQ Hpb. apply P5; [intros ?; apply HpQ; rewrite Er, Eo, !elem_of_app; auto|].
      intros i _. apply Hpb. destruct (Htt i) as [H1 H2]. by rewrite H2.
    + naive_solver.
    + intros p [?|[?%Hown|?]%elem_of_app]; [done|..]; rewrite Er, elem_of_app; naive_solver.
    + cbn [plan_filters map concat]. rewrite app_nil_r. intros x [?%elem_of_nil|?]; [done|]. apply elem_of_app. by right.
    + eauto.
  - apply exprs_in_intro; [by rewrite <- Ek'|]. intros p Hp. rewrite <- Ek' in Hp. by apply Hlive.
  - intros b p Hb Hp. destruct (tracks_bound _ _ _ _ Ht b p Hb Hp) as [Hbp Hq]. apply (ch_frame _ _ _ _ _ _ _ (C [] R)); [simpl; apply (f_fresh _ _ Hc); eauto| |intros ? ?%elem_of_nil; done].
    intros [?%Hown|?]%elem_of_app; apply Hq; rewrite Er, elem_of_app; naive_solver.
  - intros D0 Hd0 HD0. rewrite <- Ek' in *. apply (N false D0); [simpl; by rewrite (demanded_ext _ c w.(store) w.(filters))|done|done|]. intros p (b' & -> & _)%Hlive. eauto.
Qed.

Lemma Forall2_single {A B} (P : A → B → Prop) x y : P x y → Forall2 P [x] [y].
Proof. by repeat constructor. Qed.

(** An operator that is no filter is right when its children are. *)
Lemma stepped_node k k' cs cs' w w' :
  Forall2 (λ c c', stepped c c' w w') cs cs' → own_filters k = [] → own_filters k' = [] → (∀ p, p ∈ own_refs k' → p ∈ own_refs k) → (kind_unmapped k = true → kind_unmapped k' = true) →
  has_columns (Node k' cs') = true → kind_scoped w'.(store) w'.(filters) k' (columns <$> cs') = true → stepped (Node k cs) (Node k' cs') w w'.
Proof.
  intros Hcs Ek Ek' Hr Hm Hc Hs. assert (∀ k, own_filters k = [] → ∀ F cs, own_filter_sources F k cs = []) as Hsrc.
  { intros k0 E0 F0 cs0. destruct k0; try done. cbn [own_filters own_filter_sources] in *. by apply fmap_nil_inv in E0 as ->. }
  split.
  - cbn [scoped]. rewrite Hc, Hs. simpl. apply forallb_intro. intros c' Hc'. apply list_elem_of_lookup in Hc' as [i Hi]. destruct (Forall2_lookup_r _ _ _ _ _ Hcs Hi) as (c & _ & H). apply H.
  - intros p. cbn [plan_refs]. rewrite !elem_of_app, !elem_of_concat_map. intros [?%Hr|(c' & Hc' & Hp)]; [auto|].
    apply list_elem_of_lookup in Hc' as [i Hi]. destruct (Forall2_lookup_r _ _ _ _ _ Hcs Hi) as (c & Hci & H). destruct (s_refs _ _ _ _ H p Hp) as [Hp'|?]; [|auto]. left. right.
    exists c. split; [by eapply list_elem_of_lookup_2|done].
  - cbn [plan_filters]. rewrite Ek, Ek'. simpl. clear -Hcs. induction Hcs as [|c c' cs cs' H _ IH]; [done|]. cbn [map concat]. by rewrite IH, (s_filters _ _ _ _ H).
  - cbn [filter_sources]. rewrite !Hsrc by done. simpl. clear -Hcs. induction Hcs as [|c c' cs cs' H _ IH]; [done|]. cbn [map concat]. by rewrite IH, (s_sources _ _ _ _ H).
  - cbn [unmapped]. intros [H1 H2]%andb_true_iff. rewrite Hm by done. apply forallb_intro. intros c' Hc'. apply list_elem_of_lookup in Hc' as [i Hi]. destruct (Forall2_lookup_r _ _ _ _ _ Hcs Hi) as (c & Hci & H).
    apply (s_unmapped _ _ _ _ H). eapply (forallb_elem _ _ c H2). by eapply list_elem_of_lookup_2.
Qed.

Lemma no_filters_in F D (all : bool) k : own_filters k = [] → all || filters_in F D k = true.
Proof. intros E. unfold filters_in. rewrite E. apply orb_true_r. Qed.

Lemma prune_projection_eq st t es σ :
  prune_projection st t es σ = if st.(everything_referenced) then Ret (es, σ) else
    let* (es, σ) := ClearUnusedExpressions destroy t true st.(column_references) es σ in Ret (if decide (es = [] ∧ true = true) then [constant_42] else es, σ).
Proof.
  unfold prune_projection. destruct (everything_referenced st); [done|]. destruct (ClearUnusedExpressions _ _ _ _ _ _) as [[es' σ']| | |]; try done. orun.
  by destruct (decide (es' = [])) as [->|H]; [rewrite decide_True by done|rewrite decide_False by naive_solver].
Qed.

(** The columns demanded below are referenced by what is kept. *)
Lemma demanded_kept t (ev all : bool) R es es' σ σ1 new D T (pre : list bound_expression) b :
  pruned t ev R es es' σ σ1 new → t ∈ T → (∀ p, p ∈ exprs_refs pre → σ1 !! p = σ !! p) → ready T all D (mkRemover ev R) →
  b ∈ bindings_of σ (pre ++ (if all then es else wanted t D es)) → b ∈ bindings_of σ1 (pre ++ es').
Proof.
  intros [P1 P2 P3 P4 P5 P6 P7] HtT Hpre Hr. rewrite !elem_of_bindings. intros (p & Hp & Hb). rewrite exprs_refs_app in Hp. rewrite exprs_refs_app. apply elem_of_app in Hp as [Hp|Hp].
  { exists p. rewrite Hpre by done. split; [apply elem_of_app; by left|done]. }
  exists p. assert (p ∈ exprs_refs es') as Hp'; [|split; [apply elem_of_app; by right|by rewrite (proj2 (P1 p Hp'))]].
  assert (p ∈ exprs_refs es) as Hpe by (destruct all; [done|by eapply wanted_refs]). destruct Hr as [Hev|[-> Hr]]; [simpl in Hev; by rewrite P7|]. simpl in Hr.
  apply elem_of_exprs_refs in Hp as (e & (i & Hi & HD)%elem_of_wanted & Hp). apply elem_of_exprs_refs. exists e. split; [|done].
  destruct (P4 i) as (Hn & _ & _); [by eapply lookup_lt_Some|right; apply refs_at_ne, Hr; [done|done]|]. rewrite Hi in Hn. by eapply list_elem_of_lookup_2.
Qed.

(** A visitor is ready for what [needs_kept] asks of it. *)
Lemma ready_later T all D ev R : (all = true → ev = true) → (all = false → ∀ b, b ∈ D → b.(table_index) ∈ T → refs_at R b ≠ []) → ready T all D (mkRemover ev R).
Proof. intros He HD. destruct all; [left; by apply He|right; eauto]. Qed.

Lemma projection_ok visit t es c st w all D :
  visits_well visit c → forest_ok [Node (Projection t es) [c]] w → tracks (tables (Node (Projection t es) [c])) (plan_refs (Node (Projection t es) [c])) st.(column_references) w.(store) →
  demanded w.(store) w.(filters) all D (Node (Projection t es) [c]) = true → ready (tables (Node (Projection t es) [c])) all D st →
  ∃ op' w', visit_projection visit st t es [c] w = Ret (op', w') ∧ visited (Node (Projection t es) [c]) op' st w st w'.
Proof.
  set (op := Node (Projection t es) [c]). intros Hv Hok Ht Hd Hr. destruct st as [ev R]. cbn [column_references everything_referenced] in *.
  destruct (forest_node _ _ _ Hok) as (Hc & Hnr & Hnt & _ & Hs & _). destruct (scoped_node _ _ _ _ Hs) as (_ & Hks & _). simpl in Hks.
  assert (t ∈ tables op) as Htt by (simpl; left). assert (own_refs (Projection t es) = exprs_refs es) as Eo by done.
  destruct (prune_list_ok t ev R es w.(store) true constant_42 eq_refl eq_refl) as (es' & σ1 & new & E & Hpr).
  { rewrite Eo in Hnr. by apply NoDup_app in Hnr as (? & _ & _). }
  { intros i p _ Hp. destruct (tracks_bound _ _ _ _ Ht (column t i) p Htt Hp) as [? Hq]. split; [done|]. intros ?. apply Hq. cbn [op plan_refs]. apply elem_of_app. by left. }
  simpl in Hd. rewrite andb_true_r in Hd.
  destruct (prune_below visit (Projection t es) (Projection t es') [] es es' t ev R c w σ1 new false (bindings_of w.(store) (if all then es else wanted t D es)))
    as (c' & w' & E' & S & C & He & Hptr & Hn0); try done; [by left| |].
  { intros b Hb. eapply (demanded_kept t ev all R es es' w.(store) σ1 new D (tables op) []); try done. intros p ?%elem_of_nil. done. }
  unfold visit_projection. rewrite prune_projection_eq. cbn [everything_referenced column_references]. rewrite E. orun. rewrite E'. exists (Node (Projection t es') [c']), w'. split; [done|].
  pose proof Hpr as [P1 P2 P3 P4 P5 P6 P7].
  assert (∀ es c, columns (Node (Projection t es) [c]) = GenerateColumnBindings t (length es)) as Hcols by done.
  assert (∀ b, b ∈ columns op → ev = true ∨ is_Some (R !! b) → ∃ i, b = column t i ∧ (i < length es)%nat ∧ column t (new i) ∈ columns (Node (Projection t es') [c']) ∧
    es' !! new i = es !! i ∧ (∀ p, p ∈ refs_at R b → w'.(store) !! p = Some (column t (new i))) ∧ (ev = true → new i = i)) as Hland.
  { intros b (i & Hi & ->)%elem_of_Generate Hs'. exists i. destruct (P4 i Hi Hs') as (Hn & Hpn & Hall). split_and!; try done.
    - apply elem_of_Generate. exists (new i). split; [|done]. apply lookup_lt_is_Some. rewrite Hn. by apply lookup_lt_is_Some.
    - intros p Hp. rewrite (Hptr (column t i)) by done. auto. }
  split; [done| | |done].
  - split.
    + apply stepped_node; try done; [by apply Forall2_single|]. intros p Hp. by apply P1.
    + intros b Hb Hs'. destruct (Hland b Hb Hs') as (i & -> & _ & Hin & _ & Hpn & Hall). exists (column t (new i)). split_and!; [done|done|]. intros Ha. by rewrite Hall.
    + intros Ha. by rewrite !Hcols, P7.
    + intros all0 D0 D' Hd0 He0 HD0 _. cbn [needed forallb EnumerateExpressions]. rewrite no_filters_in, andb_true_r by done. cbn [op demanded_by forallb] in Hd0. rewrite andb_true_r in Hd0. eapply (Hn0 _ Hd0). intros b Hb.
      by eapply (demanded_kept t ev all0 R es es' w.(store) σ1 new D0 (tables op) []); [|done|intros p ?%elem_of_nil; done|apply ready_later|exact Hb].
  - intros _ b Hb Hs'. destruct (Hland b Hb) as (i & -> & Hi & Hin & Hn & Hpn & Hall); [destruct Hs' as [?|?%refs_at_ne]; auto|]. exists (column t (new i)). split_and!; try done.
    + intros Ha. split; [by rewrite Hall|]. by apply (tracks_ne _ _ _ _ Ht).
    + exists []. by rewrite app_nil_r.
    + cbn [source passes own_source op table_index column_index column]. rewrite !decide_True by done. rewrite !Nat2Z.id. by rewrite Hn.
Qed.

Lemma prune_aggregate_eq st a σ :
  prune_aggregate st a σ = let* (es, σ) := if st.(everything_referenced) then Ret (a.(aggr_expressions), σ) else
    let* (es, σ) := ClearUnusedExpressions destroy a.(aggregate_index) true st.(column_references) a.(aggr_expressions) σ in
    Ret (if decide (es = [] ∧ bool_decide (a.(aggr_groups) = []) = true) then [count_star] else es, σ) in Ret (set_aggregates es a, σ).
Proof.
  unfold prune_aggregate. destruct (everything_referenced st); [by destruct a|]. destruct (ClearUnusedExpressions _ _ _ _ _ _) as [[es' σ']| | |]; try done. orun.
  by destruct (decide (es' = [] ∧ aggr_groups a = [])) as [Hg|Hg]; [rewrite decide_True by (by rewrite bool_decide_eq_true)|rewrite decide_False by (by rewrite bool_decide_eq_true)].
Qed.

(** Where references to columns of an aggregate go. *)
Lemma aggregate_lands a c c' es' new (ev : bool) R σ σ1 (σ' : binding_store) b :
  let op := Node (Aggregate a) [c] in
  NoDup (own_tables (Aggregate a)) → pruned a.(aggregate_index) ev R a.(aggr_expressions) es' σ σ1 new →
  (∀ p b, p ∈ refs_at R b → b.(table_index) ∈ tables op → b.(table_index) ≠ a.(aggregate_index) → σ1 !! p = Some b) →
  (∀ b p, b.(table_index) ∈ tables op → p ∈ refs_at R b → σ' !! p = σ1 !! p) → b ∈ columns op → ev = true ∨ is_Some (R !! b) →
  ∃ b', b' ∈ columns (Node (Aggregate (set_aggregates es' a)) [c']) ∧
    own_source (Aggregate (set_aggregates es' a)) b' = own_source (Aggregate a) b ∧ (∀ p, p ∈ refs_at R b → σ' !! p = Some b') ∧ (ev = true → b' = b) ∧ b'.(table_index) = b.(table_index).
Proof.
  intros op Hnt [P1 P2 P3 P4 P5 P6 P7] Hother Hptr Hb Hs'. set (t := a.(aggregate_index)) in *. set (es := a.(aggr_expressions)) in *. cbn [own_tables] in Hnt. apply NoDup_cons in Hnt as [Hga Hnt].
  assert (a.(group_index) ≠ t) as Hne by (intros Eg; apply Hga; rewrite Eg; left). assert (t ∈ tables op) as Htt by (simpl; right; left).
  pose proof (columns_tables op b Hb) as Hbt. unfold columns in Hb. simpl in Hb. unfold aggregate_columns in Hb. rewrite !elem_of_app in Hb. unfold columns. simpl. unfold aggregate_columns. simpl. setoid_rewrite elem_of_app. setoid_rewrite elem_of_app.
  assert ((∃ i, (i < length es)%nat ∧ b = column t i) ∨ b.(table_index) ≠ t ∧ (b ∈ GenerateColumnBindings a.(group_index) (length a.(aggr_groups)) ∨ b ∈ GenerateColumnBindings a.(groupings_index) a.(grouping_functions)))
    as [(i & Hi & ->)|[Hbne Hb']].
  { destruct Hb as [Hb|[(i & ? & ->)%elem_of_Generate|Hb]]; [right|left; eauto|right].
    - split; [|by left]. apply elem_of_Generate in Hb as (i & _ & ->). done.
    - split; [|by right]. apply elem_of_Generate in Hb as (i & Hi & ->). simpl. intros Eg. apply NoDup_cons in Hnt as [Hnt _]. apply Hnt. rewrite decide_False by lia. simpl. rewrite Eg. left. }
  - destruct (P4 i Hi Hs') as (Hn & Hpn & Hall). exists (column t (new i)). split_and!.
    + right. left. apply elem_of_Generate. exists (new i). split; [|done]. apply lookup_lt_is_Some. rewrite Hn. by apply lookup_lt_is_Some.
    + cbn [column table_index column_index]. rewrite !decide_False by (by intros ?). rewrite !decide_True by done. rewrite !Nat2Z.id. fold es. rewrite Hn. rewrite decide_False by (by intros ?). by rewrite decide_True.
    + intros p Hp. rewrite (Hptr (column t i)) by done. auto.
    + intros Ha. by rewrite Hall.
    + done.
  - exists b. split_and!; [naive_solver| |intros p Hp; rewrite (Hptr b) by done; by apply Hother|done|done]. by rewrite !(decide_False (P := table_index b = aggregate_index _)) by done.
Qed.

Lemma aggregate_ok visit a c st w all D :
  visits_well visit c → forest_ok [Node (Aggregate a) [c]] w → tracks (tables (Node (Aggregate a) [c])) (plan_refs (Node (Aggregate a) [c])) st.(column_references) w.(store) →
  demanded w.(store) w.(filters) all D (Node (Aggregate a) [c]) = true → ready (tables (Node (Aggregate a) [c])) all D st →
  ∃ op' w', (let* (a, σ) := prune_aggregate st a w.(store) in visit_below visit false (Aggregate a) [c] (set_store σ w)) = Ret (op', w') ∧ visited (Node (Aggregate a) [c]) op' st w st w'.
Proof.
  set (op := Node (Aggregate a) [c]). intros Hv Hok Ht Hd Hr. destruct st as [ev R]. cbn [column_references everything_referenced] in *.
  destruct (forest_node _ _ _ Hok) as (Hc & Hnr & Hnt & _ & Hs & _). destruct (scoped_node _ _ _ _ Hs) as (_ & Hks & _). simpl in Hks.
  set (t := a.(aggregate_index)). set (es := a.(aggr_expressions)).
  assert (t ∈ tables op) as Htt by (simpl; right; left). assert (own_refs (Aggregate a) = exprs_refs a.(aggr_groups) ++ exprs_refs es) as Eo by (unfold own_refs; simpl; apply exprs_refs_app).
  destruct (prune_list_ok t ev R es w.(store) (bool_decide (a.(aggr_groups) = [])) count_star eq_refl eq_refl) as (es' & σ1 & new & E & Hp).
  { rewrite Eo in Hnr. by apply NoDup_app in Hnr as ((_ & _ & ?)%NoDup_app & _ & _). }
  { intros i p _ Hp. destruct (tracks_bound _ _ _ _ Ht (column t i) p Htt Hp) as [? Hq]. split; [done|]. intros ?. apply Hq. cbn [op plan_refs]. rewrite Eo, !elem_of_app. auto. }
  simpl in Hd. rewrite andb_true_r in Hd.
  assert (∀ p b, p ∈ refs_at R b → b.(table_index) ∈ tables op → b.(table_index) ≠ t → σ1 !! p = Some b) as Hother.
  { intros p b Hpb Hb Hne. destruct (tracks_bound _ _ _ _ Ht b p Hb Hpb) as [Hbp Hq]. rewrite <- Hbp. eapply pr_frame; [exact Hp|intros ?; apply Hq; cbn [op plan_refs]; rewrite Eo, !elem_of_app; auto|].
    intros i _ Hpi. destruct (tracks_bound _ _ _ _ Ht (column t i) p Htt Hpi) as [Hbp' _]. rewrite Hbp in Hbp'. by injection Hbp' as ->. }
  assert (∀ p, p ∈ exprs_refs a.(aggr_groups) → σ1 !! p = w.(store) !! p) as Hgr.
  { intros p Hpg. eapply pr_frame; [exact Hp|..].
    - intros ?. rewrite Eo in Hnr. apply NoDup_app in Hnr as ((_ & N & _)%NoDup_app & _ & _). by apply (N p).
    - intros i _ Hpi. destruct (tracks_bound _ _ _ _ Ht (column t i) p Htt Hpi) as [_ Hq]. apply Hq. cbn [op plan_refs]. rewrite Eo, !elem_of_app. auto. }
  destruct (prune_below visit (Aggregate a) (Aggregate (set_aggregates es' a)) a.(aggr_groups) es es' t ev R c w σ1 new false
    (bindings_of w.(store) (a.(aggr_groups) ++ (if all then es else wanted t D es)))) as (c' & w' & E' & S & C & He & Hptr & Hn0); try done; [right; by left| |].
  { intros b Hb. by eapply (demanded_kept t ev all R es es' w.(store) σ1 new D (tables op)). }
  rewrite prune_aggregate_eq. cbn [everything_referenced column_references]. fold t es. rewrite E. orun. rewrite E'. exists (Node (Aggregate (set_aggregates es' a)) [c']), w'. split; [done|].
  apply NoDup_app in Hnt as (Hnt & _). pose proof (λ b, aggregate_lands a c c' es' new ev R w.(store) σ1 w'.(store) b Hnt Hp Hother Hptr) as Hland. pose proof Hp as [P1 P2 P3 P4 P5 P6 P7].
  split; [done| | |done].
  - split.
    + apply stepped_node; try done; [by apply Forall2_single|]. intros p. rewrite Eo. unfold own_refs. simpl. rewrite exprs_refs_app, !elem_of_app. intros [?|?%P1]; naive_solver.
    + intros b Hb Hs'. destruct (Hland b Hb Hs') as (b' & ? & _ & ? & ? & _). by exists b'.
    + intros Ha. unfold columns. simpl. by rewrite P7.
    + intros all0 D0 D' Hd0 He0 HD0 _. cbn [needed forallb]. rewrite no_filters_in, andb_true_r by done. cbn [op demanded_by forallb] in Hd0. rewrite andb_true_r in Hd0. eapply (Hn0 _ Hd0). intros b Hb.
      by eapply (demanded_kept t ev all0 R es es' w.(store) σ1 new D0 (tables op)); [| |done|apply ready_later|exact Hb].
  - intros _ b Hb Hs'. destruct (Hland b Hb) as (b' & ? & ? & ? & ? & ?); [destruct Hs' as [?|?%refs_at_ne]; auto|]. exists b'. split_and!; try done.
    + intros Ha. split; [auto|]. apply (tracks_ne _ _ _ _ Ht). by apply columns_tables.
    + exists []. by rewrite app_nil_r.
Qed.

(** ** Scans *)

Lemma get_columns g cs :
  (g.(column_ids) = [] → g.(projected_input) = []) → has_columns (Node (Get g) cs) = true →
  ∃ input, (∀ b, b ∈ input → b.(table_index) ∈ all_tables cs) ∧ columns (Node (Get g) cs) = own_columns g ++ input ∧
    ∀ g', g'.(projected_input) = g.(projected_input) → g'.(column_ids) ≠ [] → columns (Node (Get g') cs) = own_columns g' ++ input ∧ has_columns (Node (Get g') cs) = true.
Proof.
  intros Hi. unfold has_columns, columns. cbn [GetColumnBindings kind_columns]. unfold table_get_columns.
  destruct (decide (g.(projected_input) = [])) as [E|E].
  { intros _. exists []. split_and!; [by intros b ?%elem_of_nil|rewrite app_nil_r; by case_decide|]. intros g' Ep Hne. rewrite Ep, E, app_nil_r. rewrite decide_False by done. by rewrite decide_True. }
  rewrite decide_False by naive_solver. case_decide as Hl; [|done]. destruct cs as [|c [|]]; try done. cbn [map]. unfold vec_at. cbn [lookup list_lookup]. orun.
  destruct (GetColumnBindings c) as [cb| | |] eqn:Ec; try done. orun. destruct (select_all cb (projected_input g)) as [input| | |] eqn:Es; try done. orun. intros _. exists input. split_and!; [|done|].
  - intros b Hb. apply select_all_inv in Es. apply list_elem_of_lookup in Hb as [i Hb]. destruct (Forall2_lookup_r _ _ _ _ _ Es Hb) as (j & _ & Hj). simpl. rewrite app_nil_r.
    apply columns_tables. unfold columns. rewrite Ec. by eapply list_elem_of_lookup_2.
  - intros g' -> Hne. rewrite decide_False by done. rewrite decide_False by done. by rewrite Es.
Qed.

(** Where references to columns of a scan go, when it is pruned. *)
Lemma get_own_lands g g' R1 (σ σ' : binding_store) (new : nat → nat) b :
  let t := g.(get_index) in let n := length g.(column_ids) in
  g.(projection_ids) = [] → g'.(get_index) = t → (∀ i p, p ∈ refs_at R1 (column t i) → σ !! p = Some (column t i)) →
  (∀ i p, (i < n)%nat → p ∈ refs_at R1 (column t i) → σ' !! p = Some (column t (new i))) → (∀ p, ¬ list_refs t R1 0 n p → σ' !! p = σ !! p) →
  (∀ i, (i < n)%nat → is_Some (R1 !! column t i) → column t (new i) ∈ own_columns g' ∧ g'.(column_ids) !! new i = g.(column_ids) !! i) → g'.(column_ids) ≠ [] →
  (g.(column_ids) = [] → g'.(column_ids) = [COLUMN_IDENTIFIER_ROW_ID] ∧ own_columns g' = own_columns g) → b ∈ own_columns g → is_Some (R1 !! b) →
  ∃ b', b' ∈ own_columns g' ∧ (∀ p, p ∈ refs_at R1 b → σ' !! p = Some b') ∧ own_source (Get g') b' = own_source (Get g) b ∧ b'.(table_index) = b.(table_index).
Proof.
  intros t n Hproj Et Hbound G3 G4 G6 G7 G9 Hb Hsb. cbn [own_source]. rewrite Et. unfold own_columns in Hb. destruct (decide (g.(column_ids) = [])) as [E0|E0].
  - destruct (G9 E0) as [Ei Eo]. apply list_elem_of_singleton in Hb as ->. fold t. exists (column t 0). split_and!.
    + rewrite Eo. unfold own_columns. rewrite decide_True by done. left.
    + intros p Hp. rewrite G4; [by apply Hbound|]. unfold n. rewrite E0. intros (i & Hi & _). simpl in Hi. lia.
    + unfold read_ids. rewrite Ei, E0. done.
    + done.
  - rewrite decide_True in Hb by done. apply elem_of_Generate in Hb as (i & Hi & ->). destruct (G6 i Hi Hsb) as [Hn1 Hn2]. exists (column t (new i)). split_and!; [done|intros p Hp; by apply (G3 i p)| |done].
    unfold read_ids. fold t. cbn [column table_index column_index]. rewrite !Nat2Z.id. rewrite !(decide_False (P := column_ids _ = [])) by done. by rewrite Hn2.
Qed.

(** There are no filters below scans. *)
Lemma get_needed g g' cs σ F σ' F' all D all' D' : demanded_later σ F all D (Node (Get g) cs) = true → needed σ' F' all' D' (Node (Get g') cs) = true.
Proof. intros H%bool_decide_eq_true. by apply needed_without_filters. Qed.

(** The scan itself is right, when its own references are. *)
Lemma get_stepped g g' cs w σ' :
  scoped w.(store) w.(filters) (Node (Get g) cs) = true → has_columns (Node (Get g') cs) = true → g'.(projected_input) = g.(projected_input) → g'.(get_expressions) = g.(get_expressions) →
  g'.(table_filters) = g.(table_filters) → (∀ p, p ∈ all_refs cs → σ' !! p = w.(store) !! p) → (∀ p, p ∈ exprs_refs g.(get_expressions) → ∃ b, σ' !! p = Some b ∧ b ∈ own_columns g') →
  (∀ c, c ∈ g.(table_filters) → c ∈ g'.(column_ids)) → stepped (Node (Get g) cs) (Node (Get g') cs) w (set_store σ' w).
Proof.
  intros (_ & [Hex _]%andb_true_iff & Hscs)%scoped_node Hh Ep Ee Ef Hr Hown Hf. assert (∀ c, c ∈ cs → stepped c c w (set_store σ' w)) as Hst.
  { intros c Hc. split; [|by left|done|done|done]. simpl. rewrite (scoped_ext c w.(store) w.(filters)); [by eapply forallb_elem|]. split; [|done]. intros p Hp. apply Hr, elem_of_concat_map. eauto. }
  apply stepped_node; [|done|done| |simpl; by rewrite Ep|done|].
  - clear -Hst. induction cs as [|c cs IH]; [constructor|]. constructor; [apply Hst; left|apply IH; intros; apply Hst; by right].
  - intros p. unfold own_refs. simpl. by rewrite Ee.
  - cbn [kind_scoped store set_store]. rewrite Ee, Ef. apply andb_true_iff. split; [apply exprs_in_intro; [by eapply exprs_in_unbound|done]|]. apply forallb_intro. intros c Hc. apply bool_decide_eq_true. auto.
Qed.

(** A scan that is pruned, with the references [R1] after its expressions were visited. *)
Lemma pruned_get_ok g cs R R1 w op :
  op = Node (Get g) cs → R1 = push_all w.(store) R (own_refs (Get g)) → forest_ok [op] w → tracks (tables op) (plan_refs op) R w.(store) → tracks (tables op) (all_refs cs) R1 w.(store) →
  (∀ b, b.(table_index) ∉ tables op → R1 !! b = R !! b) →
  ∃ g' R' σ', prune_get g R1 w.(store) = Ret (g', R', σ') ∧ visited op (Node (Get g') cs) (mkRemover false R) w (mkRemover false R') (set_store σ' w).
Proof.
  intros Eop ER1 Hok Ht Ht1 HR1. subst op. set (op := Node (Get g) cs) in *. destruct (forest_node _ _ _ Hok) as (Hcs & Hnr & Hnt & _ & Hs & Hun & _). destruct (scoped_node _ _ _ _ Hs) as (Hhas & Hks & Hscs).
  cbn [untouched_kind] in Hun. apply andb_true_iff in Hun as [Hproj%bool_decide_eq_true Hinp]. cbn [kind_scoped] in Hks. apply andb_true_iff in Hks as [Hex Hfil].
  assert (g.(column_ids) = [] → g.(projected_input) = []) as Hinp'.
  { intros E. rewrite E in Hinp. simpl in Hinp. by apply bool_decide_eq_true in Hinp. }
  destruct (get_columns g cs Hinp' Hhas) as (input & Hin & Hcols & Hcols'). fold op in Hcols. set (t := g.(get_index)) in *.
  assert (t ∈ tables op) as Htt by (simpl; left). cbn [own_tables] in Hnt. apply NoDup_cons in Hnt as [Htn _]. simpl in Htn.
  destruct (prune_get_ok g R1 w.(store)) as (g' & R' & σ' & new & E & Eg & G1 & G2 & G3 & G4 & G5 & G6 & G7 & G8 & G9); [done| | |].
  { intros c Hc. apply (forallb_elem _ _ c) in Hfil; [|done]. by apply bool_decide_eq_true in Hfil. } { intros i p _ Hp. by apply (tracks_bound _ _ _ _ Ht1). }
  fold t in G2, G3, G4, G6. assert (g'.(projected_input) = g.(projected_input) ∧ g'.(get_index) = t) as [Ep Et] by exact (conj (f_equal projected_input Eg) (f_equal get_index Eg)).
  assert (g'.(get_expressions) = g.(get_expressions) ∧ g'.(table_filters) = g.(table_filters)) as [Ee Ef] by exact (conj (f_equal get_expressions Eg) (f_equal table_filters Eg)). clear Eg. destruct (Hcols' g' Ep G7) as [Hc' Hh'].
  exists g', R', σ'. split; [done|]. set (op' := Node (Get g') cs) in *.
  assert (∀ b p, b.(table_index) ∈ tables op → b.(table_index) ≠ t → p ∈ refs_at R1 b → σ' !! p = Some b) as Hother.
  { intros b p Hb Hne Hp. destruct (tracks_bound _ _ _ _ Ht1 b p Hb Hp) as [Hbp _]. rewrite <- Hbp. apply G4. intros (i & _ & Hpi).
    destruct (tracks_bound _ _ _ _ Ht1 (column t i) p Htt Hpi) as [Hbp' _]. rewrite Hbp in Hbp'. by injection Hbp' as ->. }
  assert (∀ i p, p ∈ refs_at R1 (column t i) → w.(store) !! p = Some (column t i)) as Hbound by (intros i p Hp; by apply (tracks_bound _ _ _ _ Ht1)).
  pose proof (λ b, get_own_lands g g' R1 w.(store) σ' new b Hproj Et Hbound G3 G4 G6 G7 G9) as Hown.
  assert (∀ b, b ∈ columns op → is_Some (R1 !! b) → ∃ b', b' ∈ columns op' ∧ (∀ p, p ∈ refs_at R1 b → σ' !! p = Some b') ∧ source op' b' = source op b ∧ b'.(table_index) = b.(table_index)) as Hland.
  { intros b Hb Hsb. pose proof (columns_tables op b Hb) as Hbt. rewrite Hcols in Hb. rewrite Hc'. setoid_rewrite elem_of_app. apply elem_of_app in Hb as [Hb|Hb].
    - destruct (Hown b Hb Hsb) as (b' & ? & ? & ? & ?). exists b'. auto.
    - exists b. assert (b.(table_index) ≠ t) as Hne by (intros Eb; apply Htn; change (t ∈ all_tables cs); rewrite <- Eb; by apply Hin). split_and!; [by right|intros p Hp; by apply (Hother b)| |done].
      simpl. rewrite Et. fold t. by rewrite !decide_False. }
  assert (∀ b, refs_at R1 b = refs_at R b ++ bound_to w.(store) (own_refs (Get g)) b) as Hrefs by (intros b; by rewrite ER1, refs_at_push_all).
  assert (∀ b, is_Some (R !! b) → is_Some (R1 !! b)) as Hmono by (intros b ?; rewrite ER1; apply push_all_Some; by left).
  split; cbn [column_references everything_referenced]; [| | |done].
  - apply changes_store; [apply Hok| | |done].
    + intros b Hb. rewrite G2, HR1; [done|done|]. intros Eb. by apply Hb; rewrite Eb.
    + intros p HpQ Hpb. apply G4. intros (i & _ & Hpi). rewrite Hrefs in Hpi. apply elem_of_app in Hpi as [Hpi|[Hpi _]%elem_of_bound_to]; [by apply (Hpb (column t i))|].
      apply HpQ. simpl. apply elem_of_app. by left.
  - split; [|intros b Hb [?|Hs']; [done|]|done|intros all0 D0 D' Hd0 _ _ _; by eapply get_needed].
    + apply get_stepped; try done; [|intros p Hp].
      * intros p Hp. apply G4. intros (i & _ & Hpi). by apply (tracks_bound _ _ _ _ Ht1 (column t i) p Htt) in Hpi as [_ ?].
      * destruct (exprs_in_live _ _ _ p Hex Hp) as (b & Hb & Hbo). assert (p ∈ refs_at R1 b) as Hpr by (rewrite Hrefs; apply elem_of_app; right; by apply elem_of_bound_to).
        destruct (Hown b Hbo (refs_at_Some _ _ _ Hpr)) as (b' & ? & Hp' & _). eauto.
    + destruct (Hland b Hb (Hmono b Hs')) as (b' & ? & Hp' & _). exists b'. split_and!; [done| |done]. intros p Hp. apply Hp'. rewrite Hrefs. apply elem_of_app. by left.
  - intros _ b Hb [?|Hs']; [done|]. destruct (Hland b Hb) as (b' & ? & Hp' & ? & ?); [by apply Hmono, refs_at_ne|]. exists b'. split_and!; [done|done| | |done|done].
    + intros p. rewrite G1. apply Hp'.
    + exists (bound_to w.(store) (own_refs (Get g)) b). by rewrite G1, Hrefs.
Qed.

Lemma get_ok g cs st w :
  forest_ok [Node (Get g) cs] w → tracks (tables (Node (Get g) cs)) (plan_refs (Node (Get g) cs)) st.(column_references) w.(store) →
  ∃ g' st' w', visit_get g st w = Ret (g', st', w') ∧ visited (Node (Get g) cs) (Node (Get g') cs) st w st' w'.
Proof.
  set (op := Node (Get g) cs). intros Hok Ht. destruct st as [ev R]. cbn [column_references everything_referenced] in *.
  destruct (forest_node _ _ _ Hok) as (Hcs & Hnr & Hnt & _ & Hs & Hun & _). destruct (scoped_node _ _ _ _ Hs) as (Hhas & Hks & _). destruct (kind_scoped_refs _ _ _ _ Hks) as [Hu Hl].
  unfold visit_get. cbn [column_references everything_referenced]. rewrite VisitExpressions_ok; [|done|intros p Hp; destruct (Hl p Hp) as (b & -> & _); eauto]. orun. set (R1 := push_all w.(store) R (own_refs (Get g))).
  assert (tracks (tables op) (all_refs cs) R1 w.(store)) as Ht1 by (by apply tracks_push).
  assert (∀ b, b.(table_index) ∉ tables op → R1 !! b = R !! b) as HR1.
  { intros b Hb. apply push_all_other. intros p Hp Hbp. destruct (Hl p Hp) as (b' & Hb' & (i & ->)%own_columns_table). rewrite Hbp in Hb'. injection Hb' as ->. apply Hb. simpl. left. }
  assert (∀ b, refs_at R1 b = refs_at R b ++ bound_to w.(store) (own_refs (Get g)) b) as Hrefs by (intros b; apply refs_at_push_all).
  destruct (ev || negb (projection_pushdown g)) eqn:E.
  - exists g, (mkRemover ev R1), w. split; [done|]. assert (∀ b p, b ∈ columns op → p ∈ refs_at R1 b → w.(store) !! p = Some b) as Hp.
    { intros b p Hb%columns_tables Hp. by apply (tracks_bound _ _ _ _ Ht1). }
    split; cbn [column_references everything_referenced]; [|split| |done].
    + split; try done; [apply Hok|eauto].
    + split; try done. by left.
    + intros b Hb _. exists b. split_and!; [done| |done]. intros p Hp'. apply (Hp b p Hb). rewrite Hrefs. apply elem_of_app. by left.
    + done.
    + intros all0 D0 D' Hd0 _ _ _. by eapply get_needed.
    + intros _ b Hb _. exists b. split_and!; [done| |intros p; by apply (Hp b p)|eauto|done|done]. intros _. split; [done|]. apply (tracks_ne _ _ _ _ Ht1). by apply columns_tables.
  - apply orb_false_iff in E as [-> E]. destruct (pruned_get_ok g cs R R1 w op) as (g' & R' & σ' & E' & Hv); try done. change (push_all w.(store) R (exprs_refs (get_expressions g))) with R1. rewrite E'. orun. eauto.
Qed.

(** ** Operators whose children have new visitors *)

(** A child in which everything is referenced keeps its columns. *)
Definition same_columns (c c' : column_plan) : Prop := columns c' = columns c ∧ (on_table c = true → ∀ b, b ∈ columns c → source c' b = source c b).

Definition some_demand (σ : binding_store) (F : list BlockedBloomFilter) (c : column_plan) : Prop := ∃ all D, demanded σ F all D c = true.

Lemma some_demand_ext c σ F σ' F' : agree c σ F σ' F' → some_demand σ F c → some_demand σ' F' c.
Proof. intros Ha (all & D & H). exists all, D. by rewrite (demanded_ext _ c σ F). Qed.

Abbreviation any_demand := (λ _ _ _, True).

Lemma visit_all_ok visit cs w :
  (∀ c, c ∈ cs → visits_well visit c) → forest_ok cs w → (∀ c, c ∈ cs → some_demand w.(store) w.(filters) c) →
  ∃ cs' w', visit_all visit cs w = Ret (cs', w') ∧ changes [] (all_refs cs) (all_filters cs) ∅ w ∅ w' ∧ Forall2 (λ c c', stepped c c' w w' ∧ same_columns c c' ∧ served any_demand c c' w w') cs cs'.
Proof.
  intros Hv Hok Hd. apply (each_ok _ some_demand same_columns); [apply some_demand_ext| |done|done].
  intros c w1 Hc Hok1 (all & D & Hd1). destruct (Hv c Hc (mkRemover true ∅) w1 all D Hok1) as (c' & st' & w' & E & [V1 [V2 _ V3 V5] V4 _]); [apply tracks_empty|done|by left|].
  exists c', w'. unfold visit_new. rewrite E. cbn [column_references everything_referenced] in *. split_and!; [done| |done| |].
  - eapply changes_hide; [exact V1|intros b p ?; by destruct (refs_at_empty b p)|done|done].
  - split; [auto|]. intros Ho b Hb. destruct (V4 Ho b Hb (or_introl eq_refl)) as (b' & _ & Hb' & _ & _ & Hs & _). by destruct (Hb' eq_refl) as [-> _].
  - intros all0 D0 _ Hd0. apply (V5 true []); [|done|done|intros b p _ ?; by destruct (refs_at_empty b p)]. eapply demanded_mono; [|exact Hd0]. by left.
Qed.

Lemma same_columns_all cs cs' (P Q : column_plan → column_plan → Prop) : Forall2 (λ c c', P c c' ∧ same_columns c c' ∧ Q c c') cs cs' → columns <$> cs' = columns <$> cs.
Proof. induction 1 as [|c c' cs cs' (_ & [H _] & _) _ IH]; [done|]. csimpl. by rewrite H, IH. Qed.

(** Children that are served are, when what the operator asks of them was demanded. *)
Lemma served_all (P Q : column_plan → column_plan → Prop) S cs cs' w w' all (f : column_plan → list ColumnBinding) :
  Forall2 (λ c c', P c c' ∧ Q c c' ∧ served S c c' w w') cs cs' → (∀ c, c ∈ cs → S all (f c) c) → forallb (λ c, demanded_later w.(store) w.(filters) all (f c) c) cs = true →
  ∀ D', forallb (needed w'.(store) w'.(filters) true D') cs' = true.
Proof.
  intros HF HS Hd D'. apply forallb_intro. intros c' Hc'. apply list_elem_of_lookup in Hc' as [i Hi]. destruct (Forall2_lookup_r _ _ _ _ _ HF Hi) as (c & Hci & _ & _ & Hn). apply list_elem_of_lookup_2 in Hci.
  eapply (needed_mono _ _ _ true []); [by left|]. apply (Hn all (f c)); [by apply HS|]. by apply (forallb_elem _ _ c Hd).
Qed.

Lemma Forall2_left {A B} (P Q : A → B → Prop) l k : Forall2 (λ x y, P x y ∧ Q x y) l k → Forall2 P l k.
Proof. induction 1 as [|x y l k [? _] _ IH]; by constructor. Qed.

Lemma stepped_columns cs cs' w w' : Forall2 (λ c c', stepped c c' w w') cs cs' → forallb has_columns cs' = true.
Proof.
  intros H. apply forallb_intro. intros c' Hc'. apply list_elem_of_lookup in Hc' as [i Hi]. destruct (Forall2_lookup_r _ _ _ _ _ H Hi) as (c & _ & Hst). eapply scoped_has_columns, Hst.
Qed.

(** References from above stay, if their columns do. *)
Lemma quiet_refs op cs w w' R b p :
  forest_ok [op] w → tracks (tables op) (plan_refs op) R w.(store) → (∀ q, q ∈ all_refs cs → q ∈ plan_refs op) → changes [] (all_refs cs) (all_filters cs) ∅ w ∅ w' →
  b.(table_index) ∈ tables op → p ∈ refs_at R b → w'.(store) !! p = w.(store) !! p.
Proof.
  intros Hok Ht Hq C Hb Hp. destruct (tracks_bound _ _ _ _ Ht b p Hb Hp) as [Hbp HpQ]. apply (ch_frame _ _ _ _ _ _ _ C); [apply (f_fresh _ _ Hok); eauto|auto|]. intros b' ?%elem_of_nil. done.
Qed.

Lemma quiet_changes k cs w w' R :
  changes [] (all_refs cs) (all_filters cs) ∅ w ∅ w' → changes (tables (Node k cs)) (plan_refs (Node k cs)) (plan_filters (Node k cs)) R w R w'.
Proof. intros C. eapply changes_hide; [exact C|intros b p ?; by destruct (refs_at_empty b p)|..]; intros x ?; cbn [plan_refs plan_filters]; apply elem_of_app; by right. Qed.

(** An operator with columns of its own that keeps these. *)
Lemma same_op_visited k cs cs' st w w' :
  forest_ok [Node k cs] w → tracks (tables (Node k cs)) (plan_refs (Node k cs)) st.(column_references) w.(store) →
  changes [] (all_refs cs) (all_filters cs) ∅ w ∅ w' → stepped (Node k cs) (Node k cs') w w' → columns (Node k cs') = columns (Node k cs) →
  (on_table (Node k cs) = true → ∀ b, b ∈ columns (Node k cs) → source (Node k cs') b = source (Node k cs) b) →
  needs_kept (Node k cs) (Node k cs') st.(everything_referenced) st.(column_references) w w' → visited (Node k cs) (Node k cs') st w st w'.
Proof.
  intros Hok Ht C S Ec Hsrc Hn. assert (∀ b p, b ∈ columns (Node k cs) → p ∈ refs_at st.(column_references) b → w'.(store) !! p = Some b) as Hp.
  { intros b p Hb%columns_tables Hp. rewrite (quiet_refs (Node k cs) cs w w' st.(column_references) b p); try done; [by apply (tracks_bound _ _ _ _ Ht)|]. intros q ?. cbn [plan_refs]. apply elem_of_app. by right. }
  split; [by apply quiet_changes|split; [done| |done|done]| |done].
  - intros b Hb _. exists b. split_and!; [by rewrite Ec|intros p; by apply Hp|done].
  - intros Ho b Hb _. exists b. split_and!; [by rewrite Ec| |intros p; by apply Hp|exists []; by rewrite app_nil_r|auto|done]. intros _. split; [done|]. apply (tracks_ne _ _ _ _ Ht). by apply columns_tables.
Qed.

Lemma setop_same_ok visit kind t n cs st w :
  (∀ c, c ∈ cs → visits_well visit c) → forest_ok [Node (SetOp kind t n) cs] w →
  tracks (tables (Node (SetOp kind t n) cs)) (plan_refs (Node (SetOp kind t n) cs)) st.(column_references) w.(store) → (∀ c, c ∈ cs → some_demand w.(store) w.(filters) c) →
  ∃ cs' w', visit_all visit cs w = Ret (cs', w') ∧ visited (Node (SetOp kind t n) cs) (Node (SetOp kind t n) cs') st w st w'.
Proof.
  intros Hv Hok Ht Hd. destruct (forest_node _ _ _ Hok) as (Hcs & _ & _ & _ & Hs & _). destruct (scoped_node _ _ _ _ Hs) as (Hh & Hks & _).
  destruct (visit_all_ok visit cs w Hv Hcs Hd) as (cs' & w' & E & C & F). exists cs', w'. split; [done|]. apply same_op_visited; try done.
  - apply stepped_node; try done; [exact (Forall2_left _ _ _ _ F)|]. cbn [kind_scoped]. by rewrite (same_columns_all _ _ _ _ F).
  - intros all D D' Hn _ _ _. cbn [needed]. rewrite no_filters_in by done. destruct kind; cbn [demanded_by] in Hn; by eapply (served_all _ _ _ _ _ _ _ _ _ F (λ _ _, I) Hn).
Qed.

Lemma order_projections_elem R bs i : i ∈ order_projections R bs ↔ ∃ b, bs !! i = Some b ∧ is_Some (R !! b).
Proof.
  unfold order_projections. rewrite list_elem_of_filter, elem_of_seq. split.
  - intros [[l Hl] _]. destruct (bs !! i) as [b|]; [|done]. simpl in Hl. eauto.
  - intros (b & Hb & Hs). rewrite Hb. split; [done|]. apply lookup_lt_Some in Hb. lia.
Qed.

Lemma order_ok visit es c st w :
  let op := Node (Order es []) [c] in
  visits_well visit c → forest_ok [op] w → tracks (tables op) (plan_refs op) st.(column_references) w.(store) → some_demand w.(store) w.(filters) c →
  ∃ ps cs' w', (if st.(everything_referenced) then Ret [] else let* all_bindings := GetColumnBindings op in Ret ([] ++ order_projections st.(column_references) all_bindings)) = Ret ps ∧
    visit_all visit [c] w = Ret (cs', w') ∧ visited op (Node (Order es ps) cs') st w st w'.
Proof.
  intros op Hv Hok Ht Hd. destruct (forest_node _ _ _ Hok) as (Hcs & Hnr & _ & _ & Hs & _). destruct (scoped_node _ _ _ _ Hs) as (Hh & Hks & Hsc). simpl in Hsc. rewrite andb_true_r in Hsc.
  pose proof (GetColumnBindings_Ret c (scoped_has_columns _ _ _ Hsc)) as Hcb.
  assert (GetColumnBindings op = Ret (columns c)) as Eop by (cbn [op GetColumnBindings kind_columns map]; unfold order_columns, vec_at; cbn [lookup list_lookup]; orun; by rewrite Hcb).
  assert (columns op = columns c) as Ecol by (unfold columns at 1; by rewrite Eop). rewrite Eop. orun.
  set (R := st.(column_references)) in *. set (ps := if st.(everything_referenced) then [] else order_projections R (columns c)).
  destruct (visit_all_ok visit [c] w) as (cs' & w' & E & C & F); [intros d ->%list_elem_of_singleton; done|done|intros d ->%list_elem_of_singleton; done|].
  destruct (Forall2_cons_inv_l _ _ _ _ F) as (c' & cs0 & (S & [Ec Hsrc] & _) & F0 & ->). apply Forall2_nil_inv_l in F0 as ->. exists ps, [c'], w'. split_and!; [unfold ps; by destruct (everything_referenced st)|done|].
  pose proof (GetColumnBindings_Ret c' (scoped_has_columns _ _ _ (s_scoped _ _ _ _ S))) as Hcb'. set (op' := Node (Order es ps) [c']).
  assert (∃ l, GetColumnBindings op' = Ret l ∧ (ps = [] → l = columns c) ∧ ∀ b, b ∈ columns c → is_Some (R !! b) → b ∈ l) as (l & El & Hl1 & Hl2).
  { cbn [op' GetColumnBindings kind_columns map]. unfold order_columns, vec_at. cbn [lookup list_lookup]. orun. rewrite Hcb'. orun. rewrite Ec. destruct (decide (ps = [])) as [Ep|Ep].
    - exists (columns c). done.
    - destruct (select_all_ok (columns c) ps) as (l & -> & Hl).
      { intros i Hi. unfold ps in Hi. destruct (everything_referenced st); [by apply elem_of_nil in Hi|]. apply order_projections_elem in Hi as (b & Hb & _). by eapply lookup_lt_Some. }
      exists l. split_and!; [done|done|]. intros b Hb HbR. apply list_elem_of_lookup in Hb as [i Hi]. assert (i ∈ ps) as Hip.
      { unfold ps in *. destruct (everything_referenced st); [done|]. apply order_projections_elem. eauto. }
      apply list_elem_of_lookup in Hip as [j Hj]. destruct (Forall2_lookup_l _ _ _ _ _ Hl Hj) as (x & Hx & Hix). rewrite Hi in Hix. injection Hix as <-. by eapply list_elem_of_lookup_2. }
  assert (columns op' = l) as Ecol' by (unfold columns; by rewrite El).
  assert (∀ b, b ∈ columns op → st.(everything_referenced) = true ∨ is_Some (R !! b) → b ∈ columns op') as Hin.
  { intros b Hb [Ha|Hs']; rewrite Ecol'; rewrite Ecol in Hb; [|by apply Hl2]. rewrite Hl1; [done|]. unfold ps. by rewrite Ha. }
  assert (∀ b p, b ∈ columns op → p ∈ refs_at R b → w'.(store) !! p = Some b) as Hp.
  { intros b p Hb%columns_tables Hp. rewrite (quiet_refs op [c] w w' R b p); try done; [by apply (tracks_bound _ _ _ _ Ht)|]. intros q ?. cbn [op plan_refs]. apply elem_of_app. by right. }
  split; [by apply quiet_changes|split| |done].
  - apply stepped_node; try done; [by apply Forall2_single|change (has_columns op' = true); unfold has_columns; by rewrite El|]. simpl in Hks |- *. rewrite Ec. rewrite (exprs_in_ext w.(store)); [done|].
    intros p Hp'. apply (ch_frame _ _ _ _ _ _ _ C); [|simpl; rewrite app_nil_r|intros b ?%elem_of_nil; done].
    + apply (f_fresh _ _ Hok). destruct (exprs_in_live _ _ _ p Hks Hp') as (b & -> & _). eauto.
    + simpl in Hnr. rewrite app_nil_r in Hnr. apply NoDup_app in Hnr as (_ & N & _). by apply N.
  - intros b Hb Hs'. exists b. split_and!; [by apply Hin|intros p; by apply Hp|done].
  - intros Ha. rewrite Ecol', Ecol. apply Hl1. unfold ps. by rewrite Ha.
  - intros all0 D0 D' Hn _ _ _. cbn [op' needed]. rewrite no_filters_in by done. cbn [op demanded_by] in Hn. by eapply (served_all _ _ _ _ _ _ _ _ _ F (λ _ _, I) Hn).
  - intros Ho b Hb Hs'. exists b. split_and!; [apply Hin; [done|]; destruct Hs' as [?|?%refs_at_ne]; auto| |intros p; by apply Hp|exists []; by rewrite app_nil_r| |done].
    + intros _. split; [done|]. apply (tracks_ne _ _ _ _ Ht). by apply columns_tables.
    + cbn [op op' source passes kind_extra]. rewrite decide_False by (by intros ?%elem_of_nil). apply Hsrc; [done|]. by rewrite <- Ecol.
Qed.

Lemma modify_ok visit es ex cols c st w :
  let op := Node (Modify es ex cols) [c] in
  visits_well visit c → forest_ok [op] w → tracks (tables op) (plan_refs op) st.(column_references) w.(store) → some_demand w.(store) w.(filters) c →
  ∃ op' w', visit_below visit true (Modify es ex cols) [c] w = Ret (op', w') ∧ visited op op' st w st w'.
Proof.
  intros op Hv Hok Ht (all & D & Hd). destruct (forest_node _ _ _ Hok) as (Hcs & Hnr & Hnt & _ & Hs & _). destruct (scoped_node _ _ _ _ Hs) as (Hh & Hks & _).
  destruct (kind_scoped_refs _ _ _ _ Hks) as [Hu Hl]. simpl in Hl, Hks. cbn [map concat] in Hnr. rewrite app_nil_r in Hnr. rewrite app_nil_r in Hl.
  destruct (below_ok visit true (Modify es ex cols) c w all D) as (c' & w' & E & S & Ec & C & L1 & L2 & Hn0); try done; [intros p Hp; destruct (Hl p Hp) as (b & -> & _); eauto|by left|].
  exists (Node (Modify es ex cols) [c']), w'. split; [done|]. set (op' := Node (Modify es ex cols) [c']).
  assert (∀ b p, b ∈ columns op → p ∈ refs_at st.(column_references) b → w'.(store) !! p = Some b) as Hp.
  { intros b p Hb%columns_tables Hp. destruct (tracks_bound _ _ _ _ Ht b p Hb Hp) as [Hbp Hq]. rewrite <- Hbp. apply (ch_frame _ _ _ _ _ _ _ (C [] ∅)); [apply (f_fresh _ _ Hok); eauto| |intros ? ?%elem_of_nil; done].
    intros ?. apply Hq. cbn [op plan_refs map concat]. by rewrite app_nil_r. }
  assert (stepped op op' w w') as Hst.
  { apply stepped_node; try done; [by apply Forall2_single|]. simpl. rewrite Ec by done. apply exprs_in_intro; [done|]. intros p Hp'. destruct (Hl p Hp') as (b & Hb & Hbin). exists b. split; [|done].
    apply elem_of_app in Hbin as [Hbe|Hbc].
    - apply (L2 p b); [done|done|]. simpl in Hnt. rewrite app_nil_r in Hnt. apply NoDup_app in Hnt as (_ & N & _). apply N. unfold tables_of. apply elem_of_remove_dups, list_elem_of_fmap_2, elem_of_app. by left.
    - destruct (L1 p b Hp' Hb Hbc) as (b' & -> & _ & ->); done. }
  split; [|split; [done| |done|]| |done].
  - specialize (C (tables op) st.(column_references)). cbn [op plan_refs plan_filters own_filters map concat]. rewrite !app_nil_r. exact C.
  - intros b Hb _. exists b. split_and!; [done|intros p; by apply Hp|done].
  - intros all0 D0 D' Hn _ _ _. cbn [op' needed forallb]. rewrite no_filters_in by done. cbn [op demanded_by forallb lifetime_takes_all] in Hn. rewrite orb_false_r in Hn. rewrite andb_true_r in Hn |- *.
    eapply needed_mono; [|apply (Hn0 all0 _ Hn); [done|done|]].
    + destruct all0; [by left|right]. split; [done|]. set_solver.
    + intros p Hp'. pose proof (s_scoped _ _ _ _ Hst) as (_ & Hks' & _)%scoped_node. destruct (kind_scoped_refs _ _ _ _ Hks') as [_ Hl']. destruct (Hl' p Hp') as (b & -> & _). eauto.
  - intros _ b Hb _. exists b. split_and!; [done| |intros p; by apply Hp|exists []; by rewrite app_nil_r|done|done]. intros _. split; [done|]. apply (tracks_ne _ _ _ _ Ht). by apply columns_tables.
Qed.

(** ** UNION *)

Lemma new_references_ok bs entries : ∀ w,
  (∀ i, i ∈ entries → (i < length bs)%nat) → fresh w →
  ∃ es w', new_references bs entries w = Ret (es, w') ∧ exprs_refs es = seq w.(next_ref) (length entries) ∧ forallb expr_unbound es = true ∧ length es = length entries ∧
    w' = mkWorld w'.(store) (w.(next_ref) + length entries) w.(next_table) w.(filters) ∧ fresh w' ∧
    (∀ p, (p < w.(next_ref))%nat → w'.(store) !! p = w.(store) !! p) ∧
    (∀ j i, entries !! j = Some i → w'.(store) !! (w.(next_ref) + j)%nat = bs !! i).
Proof.
  induction entries as [|i entries IH]; intros w Hin Hf.
  { exists [], w. split_and!; try done. destruct w; simpl. by rewrite Nat.add_0_r. }
  destruct (lookup_lt_is_Some_2 bs i) as [b Hb]; [apply Hin; left|]. cbn [new_references]. unfold vec_at. rewrite Hb. orun.
  set (w1 := mkWorld (<[w.(next_ref) := b]> w.(store)) (S w.(next_ref)) w.(next_table) w.(filters)).
  destruct (IH w1) as (es & w' & E & H1 & H2 & H3 & H4 & H5 & H6 & H7); [intros; apply Hin; by right| |].
  { intros p. simpl. destruct (decide (w.(next_ref) = p)) as [<-|Hne]; [lia|]. rewrite lookup_insert_ne by done. intros ?%Hf. lia. }
  rewrite E. orun. exists (ColumnRef w.(next_ref) :: es), w'. simpl in H4, H6, H7. split_and!; [done| |done|simpl; lia| |done| |].
  - change (exprs_refs (ColumnRef (next_ref w) :: es)) with (next_ref w :: exprs_refs es). by rewrite H1.
  - rewrite H4 at 1. simpl. by rewrite Nat.add_succ_r.
  - intros p Hp. rewrite H6 by lia. apply lookup_insert_ne. lia.
  - intros [|j] k Hk; simpl in Hk.
    + injection Hk as <-. rewrite Nat.add_0_r, H6 by lia. simpl. by rewrite lookup_insert_eq.
    + rewrite <- (H7 j k Hk). f_equal. lia.
Qed.

(** What is known of a child before it gets a projection. *)
Definition to_project (t : Z) (entries : list nat) (D : list ColumnBinding) (σ : binding_store) (F : list BlockedBloomFilter) (c : column_plan) : Prop :=
  (∀ i, i ∈ entries → (i < length (columns c))%nat) ∧ demanded σ F false (wanted t D (columns c)) c = true ∧ (∀ i, column t i ∈ D → (i < length (columns c))%nat → i ∈ entries).

(** What a new projection refers to. *)
Definition projected (entries : list nat) (all : bool) (D : list ColumnBinding) (c : column_plan) : Prop := all = false ∧ ∀ b, b ∈ D → ∃ i, i ∈ entries ∧ columns c !! i = Some b.

Lemma resolve_forest c w w' :
  forest_ok [c] w → agree c w.(store) w.(filters) w'.(store) w'.(filters) → fresh w' → w.(next_table) ≤ w'.(next_table) → forest_ok [ResolveOperatorTypes c] w'.
Proof.
  intros [K1 K2 K3 K4 K5 K6 K7 K8] Ha Hf Ht. cbn [map concat forallb] in *. rewrite ?app_nil_r, ?andb_true_r in *.
  split; cbn [map concat forallb]; rewrite ?app_nil_r, ?andb_true_r, ?resolve_tables, ?resolve_refs, ?resolve_plan_filters, ?resolve_placed; try done.
  - apply resolve_scoped; [done|]. by rewrite (scoped_ext c w.(store) w.(filters)).
  - by apply resolve_untouched.
  - intros t ?%K8. lia.
Qed.

Lemma project_child_ok visit t entries D c w :
  visits_well visit (ResolveOperatorTypes c) → forest_ok [c] w → to_project t entries D w.(store) w.(filters) c →
  ∃ c' w', project_child visit entries c w = Ret (c', w') ∧ changes [] (plan_refs c) (plan_filters c) ∅ w ∅ w' ∧ stepped c c' w w' ∧ length (columns c') = length entries ∧ served (projected entries) c c' w w'.
Proof.
  intros Hv Hok (Hent & Hd & HD). pose proof Hok as [K1 K2 K3 K4 K5 K6 K7 K8]. cbn [map concat forallb] in K1, K2, K3, K4, K5, K6, K8. rewrite ?app_nil_r, ?andb_true_r in *. set (c1 := ResolveOperatorTypes c) in *.
  assert (GetColumnBindings c1 = Ret (columns c)) as Ecb by (unfold c1; rewrite resolve_columns by done; by eapply GetColumnBindings_Ret, scoped_has_columns).
  assert (columns c1 = columns c) as Ecol by (unfold columns at 1; by rewrite Ecb).
  destruct (new_references_ok (columns c) entries w Hent K7) as (es & w1 & E1 & R1 & R2 & R3 & R4 & R5 & R6 & R7). set (t' := w.(next_table)).
  set (w2 := mkWorld w1.(store) w1.(next_ref) (t' + 1) w1.(filters)).
  assert (w1.(next_table) = t' ∧ w1.(filters) = w.(filters) ∧ w1.(next_ref) = (w.(next_ref) + length entries)%nat) as (Ent & Ef & Enr) by (by rewrite R4). clear R4.
  assert (∀ p, p ∈ plan_refs c → (p < w.(next_ref))%nat) as Hlt by (intros p Hp; apply K7; by eapply scoped_live).
  assert (agree c w.(store) w.(filters) w2.(store) w2.(filters)) as Ha by (split; [intros p ?; apply R6; auto|simpl; by rewrite Ef]).
  assert (forest_ok [c1] w2) as Hok1 by (apply (resolve_forest c w w2); [done|done|done|simpl; unfold t'; lia]).
  assert (own_refs (Projection t' es) = seq w.(next_ref) (length entries)) as Eo by done.
  assert (∀ j i, entries !! j = Some i → ∃ b, w2.(store) !! (w.(next_ref) + j)%nat = Some b ∧ columns c !! i = Some b) as Hnew.
  { intros j i Hj. pose proof (R7 j i Hj) as Ej. destruct (lookup_lt_is_Some_2 (columns c) i) as [b Hb]; [apply Hent; by eapply list_elem_of_lookup_2|]. exists b. by rewrite <- Hb. }
  assert (∀ p, p ∈ seq w.(next_ref) (length entries) → ∃ b, w2.(store) !! p = Some b ∧ b ∈ columns c) as Hin.
  { intros p [Hp1 Hp2]%elem_of_seq. destruct (lookup_lt_is_Some_2 entries (p - w.(next_ref))) as [i Hi]; [lia|]. destruct (Hnew _ i Hi) as (b & Hb & Hc). replace (w.(next_ref) + (p - w.(next_ref)))%nat with p in Hb by lia.
    exists b. split; [done|by eapply list_elem_of_lookup_2]. }
  assert (∀ D0 : list ColumnBinding, (∀ b, b ∈ D0 → ∃ i, i ∈ entries ∧ columns c !! i = Some b) → ∀ b, b ∈ D0 → b ∈ bindings_of w2.(store) es) as Hrefer.
  { intros D0 HD0 b Hb. apply elem_of_bindings. destruct (HD0 b Hb) as (i & [j Hj]%list_elem_of_lookup & Hi). destruct (Hnew j i Hj) as (b' & Hb' & Hc'). exists (w.(next_ref) + j)%nat. rewrite R1. split; [|congruence].
    apply elem_of_seq. apply lookup_lt_Some in Hj. lia. }
  destruct (below_ok visit false (Projection t' es) c1 w2 false (wanted t D (columns c))) as (c' & w' & E & S & _ & C & L & _ & N); try done.
  { rewrite Eo. unfold c1. rewrite resolve_refs. apply NoDup_app. split_and!; [apply NoDup_seq|intros p [? _]%elem_of_seq ?%Hlt; lia|done]. }
  { rewrite Eo. intros p Hp. destruct (Hin p Hp) as (b & -> & _). eauto. }
  { unfold c1. rewrite resolve_demanded by done. by rewrite (demanded_ext _ c w.(store) w.(filters)). }
  { right. split; [done|]. apply Hrefer. intros b (i & Hi & HDi)%elem_of_wanted. exists i. split; [|done]. apply HD; [done|by eapply lookup_lt_Some]. }
  assert (∀ p, p ∈ exprs_refs es → ∃ b', w'.(store) !! p = Some b' ∧ b' ∈ columns c') as Hlive.
  { intros p Hp. rewrite R1 in Hp. destruct (Hin p Hp) as (b & Hb & Hc). destruct (L p b) as (b' & ? & ? & _); [by rewrite Eo|done|by rewrite Ecol|eauto]. }
  exists (Node (Projection t' es) [c']), w'. unfold project_child. fold c1. rewrite Ecb. orun. rewrite E1. orun. rewrite Ent. unfold visit_projection, prune_projection. orun. cbn [everything_referenced].
  change (set_store w2.(store) w2) with w2 in *. split_and!; [exact E| | |unfold columns; simpl; unfold GenerateColumnBindings; by rewrite length_fmap, length_seq|].
  - specialize (C [] ∅). rewrite Eo in C. unfold c1 in C. rewrite resolve_refs, resolve_plan_filters in C. destruct C as [C1 C2 C3 C4 C5 C6 C7]. simpl in C4, C5, C6, C7. rewrite Ef in C6, C7. split; try done; [|lia|unfold t' in C5; lia].
    intros p Hp Hq _. rewrite C2; [by apply R6|simpl; lia| |intros b ?%elem_of_nil; done]. intros [[? _]%elem_of_seq|?]%elem_of_app; [lia|done].
  - destruct S as [S1 S2 S3 S4 S5]. split.
    + cbn [scoped forallb]. rewrite S1. simpl. rewrite ?andb_true_r. by apply exprs_in_intro.
    + cbn [plan_refs map concat]. rewrite Eo, app_nil_r. intros p [[? _]%elem_of_seq|Hp]%elem_of_app; [by right|]. destruct (S2 p Hp) as [Hp'|Hp']; [left; unfold c1 in Hp'; by rewrite resolve_refs in Hp'|right; simpl in Hp'; lia].
    + cbn [plan_filters own_filters map concat]. rewrite app_nil_r. simpl. rewrite S3. apply resolve_plan_filters.
    + cbn [filter_sources own_filter_sources map concat]. rewrite app_nil_r. simpl. rewrite S4. simpl. rewrite Ef. by apply resolve_filter_sources.
    + cbn [unmapped forallb kind_unmapped]. rewrite andb_true_r. intros ?. apply S5. unfold c1. by rewrite resolve_unmapped.
  - intros all0 D0 [-> HD0] Hd0. cbn [needed forallb]. rewrite no_filters_in by done. cbn [andb EnumerateExpressions]. rewrite andb_true_r. apply (N false D0); [|done|intros _; by apply Hrefer|intros p (b' & -> & _)%Hlive; eauto].
    unfold c1. rewrite resolve_demanded by done. by rewrite (demanded_ext _ c w.(store) w.(filters)).
Qed.

(** The children of a UNION, when [entries] are kept. *)
Lemma union_children_ok visit t n cs entries D w :
  (∀ c, c ∈ cs → visits_well visit c ∧ visits_well visit (ResolveOperatorTypes c)) → forest_ok cs w → (∀ c, c ∈ cs → some_demand w.(store) w.(filters) c) →
  (∀ i, i ∈ entries → (i < n)%nat) → (length entries ≤ n)%nat → forallb (λ c, length c =? n)%nat (columns <$> cs) = true →
  (∀ c, c ∈ cs → demanded w.(store) w.(filters) false (wanted t D (columns c)) c = true) → (∀ i, column t i ∈ D → (i < n)%nat → i ∈ entries) →
  ∃ n' cs' w', (if (length entries <? n)%nat then
        let entries := if decide (entries = []) then [0%nat] else entries in
        let* (cs, w) := visit_each (project_child visit entries) cs w in Ret (Node (SetOp SET_UNION t (length entries)) cs, w)
      else let* (cs, w) := visit_all visit cs w in Ret (Node (SetOp SET_UNION t n) cs, w)) = Ret (Node (SetOp SET_UNION t n') cs', w') ∧ (length entries ≤ n')%nat ∧
    changes [] (all_refs cs) (all_filters cs) ∅ w ∅ w' ∧ Forall2 (λ c c', stepped c c' w w') cs cs' ∧ forallb (λ c, length c =? n')%nat (columns <$> cs') = true ∧
    (∀ D0, (∀ i, column t i ∈ D0 → (i < n)%nat → i ∈ entries) → forallb (λ c, demanded_later w.(store) w.(filters) false (wanted t D0 (columns c)) c) cs = true →
      forallb (needed w'.(store) w'.(filters) true []) cs' = true).
Proof.
  intros Hv Hok Hsome Hlt Hle Hks Hd HD.
  assert (∀ c, c ∈ cs → length (columns c) = n) as Hlen by (intros c Hc; apply (forallb_elem _ _ (columns c)) in Hks; [by apply Nat.eqb_eq in Hks|by apply list_elem_of_fmap_2]). destruct (length entries <? n)%nat eqn:El.
  - cbv zeta. set (es := if decide (entries = []) then [0%nat] else entries). apply Nat.ltb_lt in El.
    assert (∀ i, i ∈ es → (i < n)%nat) as Hes by (intros i; unfold es; case_decide; [intros ->%list_elem_of_singleton; lia|auto]).
    assert (∀ i, i ∈ entries → i ∈ es) as Hin by (intros i Hi; unfold es; by rewrite decide_False by (intros Ee; rewrite Ee in Hi; by apply elem_of_nil in Hi)).
    destruct (each_ok (project_child visit es) (λ σ F c, c ∈ cs ∧ to_project t es D σ F c) (λ _ c', length (columns c') = length es) (projected es) cs w) as (cs' & w' & -> & C & F); try done.
    { intros c σ F σ' F' Ha [Hc (? & Hde & ?)]. split; [done|]. split_and!; [done|by rewrite (demanded_ext _ c σ F)|done]. }
    { intros c w2 Hc Hok2 [_ Hp]. eapply (project_child_ok visit t es D); [by apply Hv|done|done]. }
    { intros c Hc. pose proof (Hlen c Hc) as Elen. split; [done|]. split_and!; [intros i ?%Hes; lia|auto|]. intros i Hi Hlti. apply Hin; [by apply HD; [|lia]]. }
    orun. exists (length es), cs', w'. split_and!; [done|unfold es; case_decide as Ee; [rewrite Ee; simpl; lia|done]|done|exact (Forall2_left _ _ _ _ F)| |].
    + apply forallb_intro. intros l (c' & -> & Hc')%list_elem_of_fmap. apply list_elem_of_lookup in Hc' as [i Hi]. destruct (Forall2_lookup_r _ _ _ _ _ F Hi) as (c & _ & _ & Hl & _). by apply Nat.eqb_eq.
    + intros D0 HD0 Hd0. refine (served_all _ _ _ _ _ _ _ _ _ F _ Hd0 []). intros c Hc. split; [done|]. intros b (i & Hi & Ht)%elem_of_wanted. exists i. split; [|done]. apply Hin, HD0; [done|]. rewrite <- (Hlen c Hc). by eapply lookup_lt_Some.
  - destruct (visit_all_ok visit cs w) as (cs' & w' & -> & C & F); [intros; by apply Hv|done|done|]. orun.
    exists n, cs', w'. split_and!; [done|done|done|exact (Forall2_left _ _ _ _ F)|by rewrite (same_columns_all _ _ _ _ F)|]. intros D0 _ Hd0. by eapply (served_all _ _ _ _ _ _ _ _ _ F (λ _ _, I) Hd0).
Qed.

Lemma union_ok visit t n cs st w all D :
  let op := Node (SetOp SET_UNION t n) cs in
  (∀ c, c ∈ cs → visits_well visit c ∧ visits_well visit (ResolveOperatorTypes c)) → forest_ok [op] w → tracks (tables op) (plan_refs op) st.(column_references) w.(store) →
  demanded w.(store) w.(filters) all D op = true → ready (tables op) all D st →
  ∃ op' w', (let* (entries, σ) := union_entries st t n w.(store) in
      let w := set_store σ w in
      if (length entries <? n)%nat then
        let entries := if decide (entries = []) then [0%nat] else entries in
        let* (cs, w) := visit_each (project_child visit entries) cs w in Ret (Node (SetOp SET_UNION t (length entries)) cs, w)
      else let* (cs, w) := visit_all visit cs w in Ret (Node (SetOp SET_UNION t n) cs, w)) = Ret (op', w') ∧ visited op op' st w st w'.
Proof.
  intros op Hv Hok Ht Hd Hr. destruct (forest_node _ _ _ Hok) as (Hcs & Hnr & Hnt & _ & Hs & _). destruct (scoped_node _ _ _ _ Hs) as (_ & Hks & _). simpl in Hks.
  assert (∀ c, c ∈ cs → some_demand w.(store) w.(filters) c) as Hsome by (intros c Hc; eexists _, _; by apply (forallb_elem _ _ c Hd)).
  destruct st as [ev R]. unfold union_entries. cbn [column_references everything_referenced] in *. destruct ev.
  { orun. rewrite length_seq, Nat.ltb_irrefl. change (set_store w.(store) w) with (mkWorld w.(store) w.(next_ref) w.(next_table) w.(filters)). destruct w as [σ nr nt F]. cbn [store next_ref next_table filters] in *.
    destruct (setop_same_ok visit SET_UNION t n cs (mkRemover true R) (mkWorld σ nr nt F)) as (cs' & w' & E & Hvis); try done; [intros c Hc; by apply Hv|]. rewrite E. orun. eauto. }
  assert (t ∈ tables op) as Htt by (simpl; left). assert (∀ l, frees (λ _ : nat, []) l = []) as Hfr by (induction l; done).
  destruct (ClearUnusedExpressions_ok (λ _ : nat, []) t R (λ _ σ, σ) ltac:(done) true (seq 0 n) w.(store)) as (σ1 & E1 & C1 & C2 & C3).
  { rewrite Hfr. constructor. } { rewrite Hfr. intros j p _ Hp. split; [by apply (tracks_bound _ _ _ _ Ht)|by intros ?%elem_of_nil]. }
  rewrite E1. orun. rewrite length_seq in C1, C2. set (entries := keep_from t R 0 (seq 0 n)). set (w1 := set_store σ1 w).
  assert (∀ p, (∀ b, b.(table_index) ∈ tables op → p ∉ refs_at R b) → σ1 !! p = w.(store) !! p) as Hσ1.
  { intros p Hp. apply C2; [|rewrite Hfr; left; by intros ?%elem_of_nil]. intros (i & _ & Hpi). by apply (Hp (column t i)). }
  assert (changes (tables op) (plan_refs op) (plan_filters op) R w R w1) as Ch1 by (apply changes_store; [apply Hok|done|auto|done]).
  assert (∀ c, c ∈ cs → agree c w.(store) w.(filters) w1.(store) w1.(filters)) as Hag.
  { intros c Hc. split; [|done]. intros p Hp. apply Hσ1. intros b Hb Hpb. apply (tracks_bound _ _ _ _ Ht b p Hb) in Hpb as [_ Hq]. apply Hq. cbn [op plan_refs]. apply elem_of_app. right. apply elem_of_concat_map. eauto. }
  assert (forest_ok cs w1) as Hcs1 by (by apply forest_store).
  assert (∀ i, (i < n)%nat → is_Some (R !! column t i) → entries !! rank t R i = Some i) as Hkeep.
  { intros i Hi Hsi. apply keep_lookup; [by apply lookup_seq|by apply kept_true]. }
  assert (∀ i, i ∈ entries → (i < n)%nat) as Hlt by (intros i Hi; eapply sublist_subseteq in Hi; [|apply keep_from_sublist]; apply elem_of_seq in Hi; lia).
  destruct Hr as [|[-> Hr]]; [done|]. destruct (union_children_ok visit t n cs entries D w1) as (n' & cs' & w' & E & Hn' & C & F & Hlen & Hserved); try done.
  { intros c Hc. eapply some_demand_ext; [by apply Hag|auto]. }
  { pose proof (sublist_length _ _ (keep_from_sublist t R 0 (seq 0 n))) as Hle. by rewrite length_seq in Hle. }
  { intros c Hc. rewrite (demanded_ext _ c w.(store) w.(filters)) by auto. by apply (forallb_elem _ _ c) in Hd. }
  { intros i Hi Hlti. assert (is_Some (R !! column t i)) as Hsi by (apply refs_at_ne, Hr; done). eapply list_elem_of_lookup_2. by apply Hkeep. }
  exists (Node (SetOp SET_UNION t n') cs'), w'. split; [exact E|]. set (op' := Node (SetOp SET_UNION t n') cs').
  assert (∀ b, b ∈ columns op → is_Some (R !! b) → ∃ b', b' ∈ columns op' ∧ (∀ p, p ∈ refs_at R b → w'.(store) !! p = Some b') ∧ b'.(table_index) = b.(table_index)) as Hland.
  { intros b Hb Hsb. pose proof (columns_tables op b Hb) as Hbt. apply elem_of_Generate in Hb as (i & Hi & ->). exists (column t (rank t R i)). split_and!; [|  |done].
    - apply elem_of_Generate. exists (rank t R i). split; [|done]. pose proof (lookup_lt_Some _ _ _ (Hkeep i Hi Hsb)). lia.
    - intros p Hp. rewrite <- (C1 i p Hi Hp). destruct (tracks_bound _ _ _ _ Ht _ p Hbt Hp) as [Hbp Hq]. apply (ch_frame _ _ _ _ _ _ _ C); [simpl; apply (f_fresh _ _ Hok); eauto| |intros ? ?%elem_of_nil; done].
      intros ?. apply Hq. cbn [op plan_refs]. apply elem_of_app. by right. }
  split; [|split; [|intros b Hb [|Hsb]; [done|]|done|]|intros _ b Hb [|Hsb]; [done|]|done].
  - eapply changes_trans; [exact Ch1|apply (quiet_changes (SetOp SET_UNION t n) cs _ _ R C)|naive_solver..|]. intros b p ? ?. right. eauto.
  - eapply stepped_earlier; [apply (stepped_node (SetOp SET_UNION t n) (SetOp SET_UNION t n') cs cs' w1 w')| |]; try done. split; [|done]. intros p Hp. cbn [plan_refs own_refs] in Hp. simpl in Hp.
    apply elem_of_concat_map in Hp as (c & Hc & Hp). by apply (agree_refs _ _ _ _ _ (Hag c Hc)).
  - destruct (Hland b Hb Hsb) as (b' & ? & ? & _). by exists b'.
  - intros all0 D0 D' Hd0 He0 HD0 _. cbn [op' needed]. rewrite no_filters_in by done. destruct all0; [by specialize (He0 eq_refl)|]. cbn [op demanded_by] in Hd0. apply (Hserved D0).
    + intros i Hi Hlti. assert (is_Some (R !! column t i)) as Hsi by (by apply refs_at_ne, HD0). eapply list_elem_of_lookup_2. by apply Hkeep.
    + apply forallb_intro. intros c Hc. rewrite (demanded_ext _ c w.(store) w.(filters)) by auto. by apply (forallb_elem _ _ c) in Hd0.
  - destruct (Hland b Hb (refs_at_ne _ _ Hsb)) as (b' & ? & ? & ?). exists b'. split_and!; try done. exists []. by rewrite app_nil_r.
Qed.

(** ** The end of the switch *)

Section Default.
  Context (visit : visitor) (k : logical_kind) (cs : list column_plan) (ev : bool) (R : references) (w : columns_world) (all : bool) (D : list ColumnBinding).

Let op := Node k cs.

Context (Hk : by_default k = true) (Hv : ∀ c, c ∈ cs → visits_well visit c) (Hok : forest_ok [op] w) (Ht : tracks (tables op) (plan_refs op) R w.(store)).
Context (Hd : ∀ c, c ∈ cs → demanded w.(store) w.(filters) all (D ++ bindings_of w.(store) (EnumerateExpressions k)) c = true).
Context (Hr : ready (all_tables cs) all (D ++ bindings_of w.(store) (EnumerateExpressions k)) (mkRemover ev (push_all w.(store) R (own_refs k)))).
Context (Hmaps : ev = false → maps_empty k).

Let R1 := push_all w.(store) R (own_refs k).

Lemma default_refs : forallb expr_unbound (EnumerateExpressions k) = true ∧ ∀ p, p ∈ own_refs k → ∃ b, w.(store) !! p = Some b ∧ b ∈ concat (columns <$> cs).
Proof.
  destruct (forest_node _ _ _ Hok) as (_ & _ & _ & _ & (_ & Hks & _)%scoped_node & _). destruct (kind_scoped_refs _ _ _ _ Hks) as [Hu Hl]. split; [done|]. intros p Hp. destruct (Hl p Hp) as (b & ? & Hb). exists b.
  split; [done|]. clear -Hk Hb. by destruct k.
Qed.

Lemma concat_columns_tables b : b ∈ concat (columns <$> cs) → b.(table_index) ∈ all_tables cs.
Proof. intros (c & Hc & Hb%columns_tables)%(elem_of_concat_map columns). apply elem_of_concat_map. eauto. Qed.

Lemma default_tracks : tracks (all_tables cs) (all_refs cs) R1 w.(store).
Proof.
  destruct (forest_node _ _ _ Hok) as (_ & Hnr & _). apply tracks_push; [|done]. eapply tracks_weaken; [exact Ht| |done]. intros t ?. cbn [op tables]. apply elem_of_app. by right.
Qed.

Lemma default_pushed : changes (tables op) (plan_refs op) [] R w R1 w.
Proof.
  split; try done; [|apply Hok|eauto]. intros b Hb. apply push_all_other. intros p Hp Hbp. destruct default_refs as [_ Hl]. destruct (Hl p Hp) as (b' & Hb' & Hin). rewrite Hbp in Hb'. injection Hb' as <-.
  apply Hb. cbn [op tables]. apply elem_of_app. right. by apply concat_columns_tables.
Qed.

Lemma R1_refs b p : p ∈ refs_at R1 b ↔ p ∈ refs_at R b ∨ p ∈ own_refs k ∧ w.(store) !! p = Some b.
Proof. unfold R1. by rewrite refs_at_push_all, elem_of_app, elem_of_bound_to. Qed.

Lemma R1_Some b : is_Some (R !! b) → is_Some (R1 !! b).
Proof. intros ?. apply push_all_Some. by left. Qed.

(** References to the operator's own columns stay. *)
Lemma default_extra w' R' b p :
  changes (all_tables cs) (all_refs cs) (all_filters cs) R1 w R' w' → b ∈ kind_extra k → p ∈ refs_at R b → w'.(store) !! p = Some b.
Proof.
  intros C Hb Hp. pose proof (kind_extra_tables k b Hk Hb) as Hbt. destruct (forest_node _ _ _ Hok) as (_ & _ & Hnt & _). apply NoDup_app in Hnt as (_ & Hdis & _).
  destruct (tracks_bound _ _ _ _ Ht b p) as [Hbp Hq]; [cbn [op tables]; apply elem_of_app; by left|done|]. rewrite <- Hbp. apply (ch_frame _ _ _ _ _ _ _ C); [apply (f_fresh _ _ Hok); eauto| |].
  - intros ?. apply Hq. cbn [op plan_refs]. apply elem_of_app. by right.
  - intros b' Hb' [Hp'|[Hp' _]]%R1_refs; [|apply Hq; cbn [op plan_refs]; apply elem_of_app; by left].
    destruct (tracks_bound _ _ _ _ Ht b' p) as [Hbp' _]; [cbn [op tables]; apply elem_of_app; by right|done|]. rewrite Hbp in Hbp'. injection Hbp' as <-. by apply (Hdis _ Hbt).
Qed.

(** The columns of the operator, when its children have other columns. *)
Lemma default_columns cs' w' :
  Forall2 (λ c c', delivered c c' ev R1 w w') cs cs' →
  has_columns (Node k cs') = true ∧ (ev = true → columns (Node k cs') = columns op) ∧ (∀ b, b ∈ kind_extra k → b ∈ columns op → b ∈ columns (Node k cs')) ∧
  ∀ b, b ∈ columns op → b ∈ kind_extra k ∨ ∃ i c c', cs !! i = Some c ∧ cs' !! i = Some c' ∧ b ∈ columns c ∧ ∀ b', b' ∈ columns c' → (ev = true → b' = b) → b' ∈ columns (Node k cs').
Proof.
  intros HF. destruct (forest_node _ _ _ Hok) as (Hcs & _ & _ & _ & (Hh & _ & Hscs)%scoped_node & _). pose proof (scoped_children _ _ _ Hscs) as Hhc. pose proof (node_columns k cs Hhc Hh) as Ecol.
  assert (forallb has_columns cs' = true) as Hhc'.
  { eapply (stepped_columns cs cs' w w'), Forall2_impl; [exact HF|]. intros c c' Hdel. apply Hdel. }
  assert (ev = true → columns <$> cs' = columns <$> cs) as Esame.
  { intros Ha. clear -HF Ha. induction HF as [|c c' cs cs' Hdel _ IH]; [done|]. csimpl. by rewrite IH, (d_all _ _ _ _ _ _ Hdel). }
  assert (length cs' = length cs) as Elen by (symmetry; by eapply Forall2_length). destruct ev eqn:Eev.
  - assert (columns (Node k cs') = columns op ∧ has_columns (Node k cs') = true) as [Ec Hc] by (apply columns_node; [done|by rewrite Esame]). split_and!; [done|done|by rewrite Ec|].
    intros b Hb. destruct (kind_columns_from k _ _ b Hk Ecol Hb) as [?|(l & Hl & Hbl)]; [by left|right]. apply list_elem_of_fmap in Hl as (c & -> & Hc'). apply list_elem_of_lookup in Hc' as [i Hi].
    destruct (Forall2_lookup_l _ _ _ _ _ HF Hi) as (c' & Hi' & _). exists i, c, c'. split_and!; try done. intros b' _ ->; [|done]. by rewrite Ec.
  - specialize (Hmaps eq_refl). rewrite kind_columns_exports in Ecol by done. destruct (select_all (columns <$> cs) (exports k)) as [ls| | |] eqn:Es; try done. simpl in Ecol. injection Ecol as Ecol.
    apply select_all_inv in Es. destruct (select_all_ok (columns <$> cs') (exports k)) as (ls' & Es' & Hls').
    { intros i Hi. apply list_elem_of_lookup in Hi as [j Hj]. destruct (Forall2_lookup_l _ _ _ _ _ Es Hj) as (l & _ & Hl). apply lookup_lt_Some in Hl. by rewrite length_fmap in Hl |- *; rewrite Elen. }
    assert (columns (Node k cs') = concat ls' ++ kind_extra k ∧ has_columns (Node k cs') = true) as [Ec Hc] by (apply columns_node; [done|]; rewrite kind_columns_exports, Es' by done; done).
    split_and!; [done|done|intros b Hb _; rewrite Ec; apply elem_of_app; by right|]. intros b. unfold op. rewrite <- Ecol. intros [Hb|?]%elem_of_app; [right|by left]. apply list_elem_of_In, in_concat in Hb as (l & Hl & Hb).
    apply list_elem_of_In, list_elem_of_lookup in Hl as [j Hj]. destruct (Forall2_lookup_r _ _ _ _ _ Es Hj) as (i & Hji & Hi). rewrite list_lookup_fmap in Hi. destruct (cs !! i) as [c|] eqn:Eci; [|done].
    injection Hi as <-. destruct (Forall2_lookup_l _ _ _ _ _ HF Eci) as (c' & Hi' & _). exists i, c, c'. split_and!; [done|done|by apply list_elem_of_In|]. intros b' Hb' _. rewrite Ec. apply elem_of_app. left.
    destruct (Forall2_lookup_l _ _ _ _ _ Hls' Hji) as (l' & Hj' & Hil'). rewrite list_lookup_fmap, Hi' in Hil'. injection Hil' as <-. apply list_elem_of_In, in_concat. exists (columns c'). split; [|by apply list_elem_of_In].
    apply list_elem_of_In. by eapply list_elem_of_lookup_2.
Qed.

Lemma default_ok :
  ∃ cs' st' w', visit_default visit k cs (mkRemover ev R) w = Ret (cs', st', w') ∧ VisitOperatorChildren visit cs (mkRemover ev R1) w = Ret (cs', st', w') ∧
    changes (tables op) (plan_refs op) (all_filters cs) R w st'.(column_references) w' ∧ (ev = true → st'.(everything_referenced) = true) ∧
    changes (all_tables cs) (all_refs cs) (all_filters cs) R1 w st'.(column_references) w' ∧ Forall2 (λ c c', delivered c c' ev R1 w w') cs cs' ∧
    (∀ b, b ∈ columns op → ev = true ∨ is_Some (R !! b) → lands ev R w'.(store) (columns (Node k cs')) b).
Proof.
  destruct default_refs as [Hu Hl]. destruct (forest_node _ _ _ Hok) as (Hcs & _).
  destruct (visit_children_ok visit cs all (D ++ bindings_of w.(store) (EnumerateExpressions k)) (mkRemover ev R1) w Hv Hcs default_tracks Hd Hr) as (cs' & st' & w' & E & C & F & A). cbn [column_references everything_referenced] in *.
  exists cs', st', w'. split_and!; [|done| |done|done|done|].
  - unfold visit_default. rewrite VisitExpressions_ok; [|done|intros p Hp; destruct (Hl p Hp) as (b & -> & _); eauto]. orun. exact E.
  - eapply changes_trans; [exact default_pushed|exact C|..].
    + intros t [?|?]; [done|]. cbn [op tables]. apply elem_of_app. by right.
    + intros p [?|?]; [done|]. cbn [op plan_refs]. apply elem_of_app. by right.
    + intros x [?%elem_of_nil|?]; done.
    + intros b p Hb [Hp|[Hp _]]%R1_refs; [right|left; cbn [op plan_refs]; apply elem_of_app; by left]. exists b. split; [cbn [op tables]; apply elem_of_app; by right|done].
  - intros b Hb Hs. destruct (default_columns cs' w' F) as (_ & _ & Hex & Hfrom). destruct (Hfrom b Hb) as [Hbx|(i & c & c' & Hi & Hi' & Hbc & Hin)].
    + exists b. split_and!; [by apply Hex| |done]. intros p Hp. by eapply default_extra.
    + destruct (Forall2_lookup_lr _ _ _ _ _ _ F Hi Hi') as [_ Hland _]. destruct (Hland b Hbc) as (b' & Hb' & Hp' & Ha); [destruct Hs as [?|?]; [by left|right; by apply R1_Some]|].
      exists b'. split_and!; [by apply Hin| |done]. intros p Hp. apply Hp', R1_refs. by left.
Qed.

(** The references of the operator itself. *)
Lemma default_own cs' w' p i c c' b :
  Forall2 (λ c c', delivered c c' ev R1 w w') cs cs' → p ∈ own_refs k → w.(store) !! p = Some b → cs !! i = Some c → cs' !! i = Some c' → b ∈ columns c → ∃ b', w'.(store) !! p = Some b' ∧ b' ∈ columns c'.
Proof.
  intros HF Hp Hb Hi Hi' Hbc. destruct (Forall2_lookup_lr _ _ _ _ _ _ HF Hi Hi') as [_ Hland _]. assert (p ∈ refs_at R1 b) as Hpr by (apply R1_refs; auto).
  destruct (Hland b Hbc) as (b' & ? & Hp' & _); [right; by eapply refs_at_Some|]. eauto.
Qed.

Lemma default_exprs cs' w' es i c c' :
  Forall2 (λ c c', delivered c c' ev R1 w w') cs cs' → (∀ p, p ∈ exprs_refs es → p ∈ own_refs k) → cs !! i = Some c → cs' !! i = Some c' → exprs_in w.(store) (columns c) es = true →
  exprs_in w'.(store) (columns c') es = true.
Proof.
  intros HF Hes Hi Hi' He. apply exprs_in_intro; [by eapply exprs_in_unbound|]. intros p Hp. destruct (exprs_in_live _ _ _ p He Hp) as (b & Hb & Hbc). by eapply default_own; eauto.
Qed.

Lemma default_exprs_all cs' w' es :
  Forall2 (λ c c', delivered c c' ev R1 w w') cs cs' → (∀ p, p ∈ exprs_refs es → p ∈ own_refs k) → exprs_in w.(store) (concat (columns <$> cs)) es = true →
  exprs_in w'.(store) (concat (columns <$> cs')) es = true.
Proof.
  intros HF Hes He. apply exprs_in_intro; [by eapply exprs_in_unbound|]. intros p Hp. destruct (exprs_in_live _ _ _ p He Hp) as (b & Hb & (c & Hc & Hbc)%(elem_of_concat_map columns)).
  apply list_elem_of_lookup in Hc as [i Hi]. destruct (Forall2_lookup_l _ _ _ _ _ HF Hi) as (c' & Hi' & _). destruct (default_own cs' w' p i c c' b) as (b' & ? & ?); auto. exists b'. split; [done|].
  apply (elem_of_concat_map columns). exists c'. split; [by eapply list_elem_of_lookup_2|done].
Qed.

Lemma default_scoped cs' w' :
  Forall2 (λ c c', delivered c c' ev R1 w w') cs cs' → own_filters k = [] → kind_scoped w'.(store) w'.(filters) k (columns <$> cs') = true.
Proof.
  intros HF Hno. destruct (forest_node _ _ _ Hok) as (_ & _ & _ & _ & (_ & Hks & _)%scoped_node & _). pose proof (default_exprs_all cs' w') as Hall. pose proof (default_exprs cs' w') as Hone. unfold own_refs in Hall, Hone.
  clear Hmaps Hr Hd. destruct k as [| | |j| | |es pm|create bfs| |r es out]; try done; cbn [kind_scoped] in *.
  - destruct cs as [|c0 [|c1 [|]]]; try done. destruct (Forall2_cons_inv_l _ _ _ _ HF) as (c0' & cs1 & _ & HF1 & ->). destruct (Forall2_cons_inv_l _ _ _ _ HF1) as (c1' & cs2 & _ & HF2 & ->). apply Forall2_nil_inv_l in HF2 as ->.
    cbn [fmap list_fmap concat] in *. apply andb_true_iff in Hks as [He Hc]. rewrite !app_nil_r in Hall. apply andb_true_iff. split; [apply Hall; [done| |done]; intros p Hp; apply (join_own_refs j p); by left|].
    apply forallb_intro. intros c Hcin. apply (forallb_elem _ _ c) in Hc; [|done]. apply andb_true_iff in Hc as [Hl' Hr']. assert (∀ e, exprs_refs [e] = expr_refs e) as E1 by (intros e; unfold exprs_refs; simpl; by rewrite app_nil_r).
    apply andb_true_iff. split; [apply (Hone _ 0%nat c0 c0')|apply (Hone _ 1%nat c1 c1')]; try done; intros p; rewrite E1; intros Hp; apply (join_own_refs j p); right; exists c; auto.
  - destruct cs as [|c [|]]; try done. destruct (Forall2_cons_inv_l _ _ _ _ HF) as (c' & cs1 & _ & HF1 & ->). apply Forall2_nil_inv_l in HF1 as ->. cbn [fmap list_fmap] in *. by apply (Hone _ 0%nat c c').
  - destruct cs as [|c [|]]; try done. destruct (Forall2_cons_inv_l _ _ _ _ HF) as (c' & cs1 & _ & HF1 & ->). apply Forall2_nil_inv_l in HF1 as ->. cbn [fmap list_fmap own_filters] in *.
    apply fmap_nil_inv in Hno as ->. done.
  - by apply Hall.
Qed.

(** What is needed by the children. *)
Lemma default_needed cs' w' all0 D0 D' :
  Forall2 (λ c c', delivered c c' ev R1 w w') cs cs' → forallb (demanded_later w.(store) w.(filters) all0 D0) cs = true → (all0 = true → ev = true) →
  (all0 = false → ∀ b, b ∈ D0 → b.(table_index) ∈ all_tables cs → refs_at R1 b ≠ []) →
  (∀ b p, b.(table_index) ∈ all_tables cs → p ∈ refs_at R1 b → ∃ b', w'.(store) !! p = Some b' ∧ b' ∈ D') → forallb (needed w'.(store) w'.(filters) all0 D') cs' = true.
Proof.
  intros HF Hd0 He HD HD'. apply forallb_intro. intros c' Hc'. apply list_elem_of_lookup in Hc' as [i Hi]. destruct (Forall2_lookup_r _ _ _ _ _ HF Hi) as (c & Hci & Hdel). apply list_elem_of_lookup_2 in Hci.
  assert (∀ t, t ∈ tables c → t ∈ all_tables cs) as Htc by (intros t ?; apply elem_of_concat_map; eauto). apply (d_needs _ _ _ _ _ _ Hdel all0 D0 D'); [by apply (forallb_elem _ _ c Hd0)|done|intros Ea b ? ?%Htc; by apply HD|intros b p ?%Htc; by apply HD'].
Qed.

(** The operator's own references are still live. *)
Lemma default_live cs' w' p : Forall2 (λ c c', delivered c c' ev R1 w w') cs cs' → p ∈ own_refs k → is_Some (w'.(store) !! p).
Proof.
  intros HF Hp. destruct default_refs as [_ Hl]. destruct (Hl p Hp) as (b & Hb & (c & Hc & Hbc)%(elem_of_concat_map columns)). apply list_elem_of_lookup in Hc as [i Hi]. destruct (Forall2_lookup_l _ _ _ _ _ HF Hi) as (c' & Hi' & _).
  destruct (default_own cs' w' p i c c' b) as (b' & -> & _); eauto.
Qed.

(** On one table. *)
Lemma default_table c cs' st' w' :
  cs = [c] → VisitOperatorChildren visit cs (mkRemover ev R1) w = Ret (cs', st', w') → ∃ c', cs' = [c'] ∧ table_ok c c' ev R1 st'.(column_references) w'.
Proof.
  intros Ecs E. destruct (forest_node _ _ _ Hok) as (Hcs & _). pose proof default_tracks as Ht1. rewrite Ecs in *. cbn [map concat] in *. rewrite app_nil_r in Ht1, Hr. rewrite app_nil_r in Ht1.
  destruct (Hv c (list_elem_of_here _ _) (mkRemover ev R1) w all (D ++ bindings_of w.(store) (EnumerateExpressions k)) Hcs Ht1 (Hd c (list_elem_of_here _ _)) Hr) as (c' & st1 & w1 & E1 & V).
  cbn [VisitOperatorChildren] in E. rewrite E1 in E. cbn [obind] in E. injection E as <- <- <-. exists c'. split; [done|apply V].
Qed.
End Default.
