(* ===== verification/RemoveCorrect.v ===== *)
(** * RemoveCorrect: removing unused columns keeps filters on their columns

    [RemoveUnusedColumns] returns on every plan whose references are columns
    below, no pointer it follows dangles, all references of the result are
    columns below again, and the columns of each filter come from where they
    came from. *)

From S2P Require Import Prelude BloomFilter LogicalPlan ColumnResolver PlanColumns RemoveColumns RemoveBase RemoveSpec RemoveFrames PlanFilters RemoveCases.
Local Open Scope Z_scope.
Local Open Scope machine_scope.

(** ** Selections and other operators *)

(** An operator on one table hands on what is known of it. *)
Lemma default_table_ok visit k cs (ev0 ev : bool) R w cs' st' w' all D :
  let op := Node k cs in let R1 := push_all w.(store) R (own_refs k) in
  by_default k = true → (∀ c, c ∈ cs → visits_well visit c) → forest_ok [op] w → tracks (tables op) (plan_refs op) R w.(store) →
  (∀ c, c ∈ cs → demanded w.(store) w.(filters) all (D ++ bindings_of w.(store) (EnumerateExpressions k)) c = true) →
  ready (all_tables cs) all (D ++ bindings_of w.(store) (EnumerateExpressions k)) (mkRemover ev R1) → (ev = false → maps_empty k) → (ev0 = true → ev = true) →
  VisitOperatorChildren visit cs (mkRemover ev R1) w = Ret (cs', st', w') → changes (all_tables cs) (all_refs cs) (all_filters cs) R1 w st'.(column_references) w' →
  Forall2 (λ c c', delivered c c' ev R1 w w') cs cs' → table_ok op (Node k cs') ev0 R st'.(column_references) w'.
Proof.
  intros op R1 Hk Hv Hok Ht Hd Hr Hmaps Hev E C F Ho b Hb Hs. destruct (default_columns k cs ev R w all D Hk Hok Hr Hmaps cs' w' F) as (_ & _ & Hex & Hfrom).
  destruct (forest_node _ _ _ Hok) as (_ & _ & Hnt & _). apply NoDup_app in Hnt as (_ & Hdis & _). pose proof (columns_tables op b Hb) as Hbt.
  destruct (decide (b ∈ kind_extra k)) as [Hbx|Hbx].
  - pose proof (kind_extra_tables k b Hk Hbx) as Hbo. assert (st'.(column_references) !! b = R !! b) as HR'.
    { rewrite (ch_keys _ _ _ _ _ _ _ C) by (by apply Hdis). apply push_all_other. intros p Hp Hbp. destruct (default_refs k cs w Hk Hok) as [_ Hl]. destruct (Hl p Hp) as (b' & Hb' & Hin).
      rewrite Hbp in Hb'. injection Hb' as <-. by apply (Hdis _ Hbo), concat_columns_tables. }
    assert (refs_at st'.(column_references) b = refs_at R b) as Er by (unfold refs_at; by rewrite HR').
    exists b. split_and!; [by apply Hex| |intros p; rewrite Er; by eapply default_extra|exists []; by rewrite Er, app_nil_r| |done].
    + intros _. split; [done|]. rewrite HR'. by apply (tracks_ne _ _ _ _ Ht).
    + cbn [op source]. destruct (passes k) eqn:Ep; [by rewrite !decide_True|]. by destruct k.
  - destruct (Hfrom b Hb) as [?|(i & c & c' & Hi & Hi' & Hbc & Hin)]; [done|]. cbn [op on_table] in Ho. destruct (passes k) eqn:Ep.
    + destruct cs as [|c0 [|]]; try done. destruct i as [|]; [|done]. injection Hi as ->. destruct (default_table visit k [c] ev R w all D Hv Hok Ht Hd Hr c cs' st' w' eq_refl E) as (c1 & -> & Htab).
      injection Hi' as ->. destruct (Htab Ho b Hbc) as (b' & Hb' & Ha & Hp & [l Hl] & Hsrc & Htt).
      { destruct Hs as [?|Hne]; [left; auto|right]. rewrite refs_at_push_all. by destruct (refs_at R b). }
      exists b'. split_and!; [apply Hin; [done|]; intros ?; by apply Ha|intros ?; apply Ha; auto|done| | |done].
      * rewrite Hl, refs_at_push_all, <- app_assoc. eauto.
      * cbn [op source]. rewrite Ep, (decide_False (P := b ∈ kind_extra k)) by done. rewrite decide_False; [done|]. intros Hbx'. apply kind_extra_tables in Hbx'; [|done]. rewrite Htt in Hbx'. apply (Hdis _ Hbx').
        cbn [map concat]. rewrite app_nil_r. by apply columns_tables.
    + exfalso. destruct k as [| | |j| | |es pm|create bfs| |r es out]; try done. by destruct out.
Qed.

(** References below an operator whose expressions were visited. *)
Lemma refs_below k cs R D σ :
  (∀ b, b ∈ D → b.(table_index) ∈ tables (Node k cs) → refs_at R b ≠ []) →
  ∀ b, b ∈ D ++ bindings_of σ (EnumerateExpressions k) → b.(table_index) ∈ all_tables cs → refs_at (push_all σ R (own_refs k)) b ≠ [].
Proof.
  intros Hr b Hb Hbt. rewrite refs_at_push_all. intros [E1 E2]%app_eq_nil. apply elem_of_app in Hb as [Hb|(p & Hp & Hpb)%elem_of_bindings].
  - apply (Hr b Hb); [|done]. cbn [tables]. apply elem_of_app. by right.
  - assert (bound_to σ (own_refs k) b ≠ []) as Hne by (apply bound_to_ne; eauto). done.
Qed.

Lemma ready_below k cs (ev0 ev all0 all : bool) R D σ :
  (ev0 = true → ev = true) → (all = false → all0 = false) → (ev = false → all = false) → ready (tables (Node k cs)) all0 D (mkRemover ev0 R) →
  ready (all_tables cs) all (D ++ bindings_of σ (EnumerateExpressions k)) (mkRemover ev (push_all σ R (own_refs k))).
Proof.
  intros Hev Hall Hea Hr. destruct ev; [by left|right]. split; [auto|]. destruct Hr as [Hr|[_ Hr]]; [simpl in Hr; specialize (Hev Hr); done|]. by apply refs_below.
Qed.

(** What is demanded and needed at the operators that share the end of the switch. *)
Lemma demanded_default σ F all D k cs :
  by_default k = true → demanded_later σ F all D (Node k cs) = true → forallb (demanded_later σ F (all || lifetime_takes_all k) (D ++ bindings_of σ (EnumerateExpressions k))) cs = true.
Proof.
  intros Hk. destruct k as [| | |j| | |es pm|create bfs| |r es out]; try done; cbn [demanded_by lifetime_takes_all]. intros [_ H]%andb_true_iff. unfold bindings_of. cbn. by rewrite app_nil_r, orb_false_r.
Qed.

Lemma needed_default σ F all D k cs :
  by_default k = true → needed σ F all D (Node k cs) = (all || filters_in F D k) && forallb (needed σ F (all || lifetime_takes_all k) (D ++ bindings_of σ (EnumerateExpressions k))) cs.
Proof. intros Hk. destruct k as [| | |j| | |es pm|create bfs| |[] es out]; try done; cbn [needed lifetime_takes_all]; by rewrite ?orb_false_r, ?orb_true_r. Qed.

(** The children of such an operator get what they need. *)
Lemma plain_below k cs (ev0 ev : bool) R w cs' w' all D D' :
  let op := Node k cs in let R1 := push_all w.(store) R (own_refs k) in
  by_default k = true → (ev0 = true → ev = true) → (lifetime_takes_all k = true → ev = true) → (∀ p, p ∈ own_refs k → is_Some (w'.(store) !! p)) → Forall2 (λ c c', delivered c c' ev R1 w w') cs cs' →
  demanded_later w.(store) w.(filters) all D op = true → (all = true → ev0 = true) → (all = false → ∀ b, b ∈ D → b.(table_index) ∈ tables op → refs_at R b ≠ []) →
  (∀ b p, b.(table_index) ∈ tables op → p ∈ refs_at R b → ∃ b', w'.(store) !! p = Some b' ∧ b' ∈ D') →
  forallb (needed w'.(store) w'.(filters) (all || lifetime_takes_all k) (D' ++ bindings_of w'.(store) (EnumerateExpressions k))) cs' = true.
Proof.
  intros op R1 Hk Hev Hta Hl HF Hd%demanded_default He HD HD'; [|done]. eapply (default_needed k cs ev R w); [exact HF|exact Hd|intros [?|?]%orb_true_iff; auto|intros [Ea _]%orb_false_iff; apply refs_below; auto|].
  intros b p Hb. unfold R1. rewrite refs_at_push_all, elem_of_app, elem_of_bound_to. intros [Hp|[Hp _]].
  - destruct (HD' b p) as (b' & ? & ?); [cbn [op tables]; apply elem_of_app; by right|done|]. exists b'. split; [done|]. apply elem_of_app. by left.
  - destruct (Hl p Hp) as [b' Hb']. exists b'. split; [done|]. apply elem_of_app. right. apply elem_of_bindings. eauto.
Qed.

(** Selections, and the operators without a case of their own. *)
Lemma plain_ok visit k cs (ev0 ev : bool) R w all0 all D :
  let op := Node k cs in
  by_default k = true → own_filters k = [] → (∀ c, c ∈ cs → visits_well visit c) → forest_ok [op] w → tracks (tables op) (plan_refs op) R w.(store) →
  (∀ c, c ∈ cs → demanded w.(store) w.(filters) all (D ++ bindings_of w.(store) (EnumerateExpressions k)) c = true) →
  (ev0 = true → ev = true) → (all = false → all0 = false) → (ev = false → all = false) → (ev = false → maps_empty k) → (lifetime_takes_all k = true → ev = true) → ready (tables op) all0 D (mkRemover ev0 R) →
  ∃ cs' st' w', visit_default visit k cs (mkRemover ev R) w = Ret (cs', st', w') ∧ visited op (Node k cs') (mkRemover ev0 R) w st' w'.
Proof.
  intros op Hk Hno Hv Hok Ht Hd Hev Hall Hea Hmaps Hta Hr. pose proof (ready_below k cs ev0 ev all0 all R D w.(store) Hev Hall Hea Hr) as Hr1.
  destruct (default_ok visit k cs ev R w all D Hk Hv Hok Ht Hd Hr1 Hmaps) as (cs' & st' & w' & E & E' & C & A & C1 & F & L). exists cs', st', w'. split; [done|].
  destruct (default_columns k cs ev R w all D Hk Hok Hr1 Hmaps cs' w' F) as (Hh & Hsame & _).
  split; cbn [column_references everything_referenced].
  - cbn [op plan_filters]. by rewrite Hno.
  - split; [|intros b Hb Hs|auto|].
    + apply stepped_node; try done; [|by eapply default_scoped]. eapply Forall2_impl; [exact F|]. intros c c' Hdel. apply Hdel.
    + destruct (L b Hb) as (b' & ? & ? & ?); [naive_solver|]. exists b'. auto.
    + intros a0 D0 D' Hd0 He0 HD0 HD'. rewrite needed_default, no_filters_in by done. cbn [andb]. eapply (plain_below k cs ev0 ev R w cs' w'); try done. intros p Hp. by eapply default_live.
  - eapply (default_table_ok visit k cs ev0 ev R w cs' st' w'); done.
  - auto.
Qed.

(** ** Filters *)

Lemma set_cols_other create cols f k : k ≠ create → cols_of k (set_cols create cols f) = cols_of k f.
Proof. by destruct k, create. Qed.

Lemma set_cols_same create cols f : cols_of create (set_cols create cols f) = cols.
Proof. by destruct create. Qed.

Lemma new_columns_ok R σ (P : ColumnBinding → ColumnBinding → Prop) vs :
  (∀ v, v ∈ vs → ∃ v', new_column R σ v = Ret v' ∧ P v v') → ∃ vs', new_columns R σ vs = Ret vs' ∧ Forall2 P vs vs'.
Proof.
  induction vs as [|v vs IH]; intros H; [exists []; by split|]. destruct (H v) as (v' & E & Hv); [left|]. destruct IH as (vs' & E' & Hvs); [intros; apply H; by right|].
  exists (v' :: vs'). cbn [new_columns]. rewrite E. orun. rewrite E'. split; [done|by constructor].
Qed.

Lemma update_filters_ok create R σ (P : ColumnBinding → ColumnBinding → Prop) bfs : ∀ F,
  NoDup bfs → (∀ x, x ∈ bfs → ∃ cols, filter_cols F create x = Some cols ∧ ∀ v, v ∈ cols → ∃ v', new_column R σ v = Ret v' ∧ P v v') →
  ∃ F', ofold (update_filter create R σ) bfs F = Ret F' ∧
    (∀ x, x ∈ bfs → ∃ cols cols', filter_cols F create x = Some cols ∧ filter_cols F' create x = Some cols' ∧ Forall2 P cols cols') ∧
    (∀ k x, (k, x) ∉ pair create <$> bfs → filter_cols F' k x = filter_cols F k x) ∧
    (∀ x f, F !! x = Some f → ∃ f', F' !! x = Some f' ∧ ∀ k, bound k f' = bound k f).
Proof.
  induction bfs as [|x bfs IH]; intros F Hn Hx; [exists F; split_and!; [done|by intros x ?%elem_of_nil|done|eauto]|]. apply NoDup_cons in Hn as [Hxn Hn].
  destruct (Hx x) as (cols & Hcols & Hv); [left|]. unfold filter_cols in Hcols. destruct (F !! x) as [f|] eqn:Ef; [|done]. injection Hcols as Hcols.
  destruct (new_columns_ok R σ P cols Hv) as (cols' & E & HP). cbn [ofold]. unfold update_filter at 1. rewrite Ef. orun. rewrite Hcols, E. orun. set (F1 := <[x := set_cols create cols' f]> F).
  assert (∀ k y, y ≠ x → filter_cols F1 k y = filter_cols F k y) as Hother by (intros k y Hy; unfold filter_cols, F1; by rewrite list_lookup_insert_ne).
  assert (F1 !! x = Some (set_cols create cols' f)) as Ex by (apply list_lookup_insert_eq; by eapply lookup_lt_Some).
  destruct (IH F1 Hn) as (F' & -> & I1 & I2 & I3).
  { intros y Hy. destruct (Hx y) as (c & Hc & Hvc); [by right|]. exists c. split; [|done]. rewrite Hother; [done|]. by intros ->. }
  exists F'. split_and!; [done| | |].
  - intros y [->|Hy]%elem_of_cons.
    + exists cols, cols'. split_and!; [unfold filter_cols; rewrite Ef; simpl; by rewrite Hcols| |done]. rewrite I2 by (intros (z & [= ->] & ?)%list_elem_of_fmap; done). unfold filter_cols. rewrite Ex. simpl. by rewrite set_cols_same.
    + destruct (I1 y Hy) as (c & c' & Hc & ? & ?). exists c, c'. split_and!; [|done|done]. rewrite <- Hc. symmetry. apply Hother. by intros ->.
  - intros k y Hy. rewrite I2 by (intros ?; apply Hy; csimpl; by right). destruct (decide (y = x)) as [->|Hne]; [|by apply Hother]. unfold filter_cols. rewrite Ex, Ef. simpl. f_equal. apply set_cols_other. intros ->. apply Hy. csimpl. left.
  - intros y g Hg. destruct (decide (y = x)) as [->|Hne].
    + destruct (I3 x _ Ex) as (f' & Hf' & Hb). exists f'. split; [done|]. intros k. rewrite Hb. assert (g = f) as -> by congruence. by destruct k.
    + apply I3. unfold F1. by rewrite list_lookup_insert_ne.
Qed.

(** What the visitor finds for a column of a filter on a table. *)
Lemma new_column_ok c c' (ev : bool) R R' w' v :
  table_ok c c' ev R R' w' → on_table c = true → v ∈ columns c → ev = true ∨ refs_at R v ≠ [] →
  ∃ v', new_column R' w'.(store) v = Ret v' ∧ v' ∈ columns c' ∧ source c' v' = source c v ∧ ∀ p, p ∈ refs_at R v → w'.(store) !! p = Some v'.
Proof.
  intros Htab Ho Hv Hs. destruct (Htab Ho v Hv Hs) as (b' & Hb' & Ha & Hp & [l Hl] & Hsrc & _). exists b'. split; [|split_and!; [done|done|]; intros p ?; apply Hp; rewrite Hl; apply elem_of_app; by left]. unfold new_column.
  destruct (R' !! v) as [ps|] eqn:E.
  - assert (refs_at R' v = ps) as Eps by (unfold refs_at; by rewrite E). destruct ps as [|p ps].
    + destruct Hs as [Hev|Hne]; [by destruct (Ha Hev)|]. rewrite Eps in Hl. symmetry in Hl. by apply app_eq_nil in Hl as [? _].
    + unfold vec_at. simpl. by rewrite (Hp p) by (rewrite Eps; left).
  - destruct Hs as [Hev|Hne]; [by destruct (Ha Hev) as [-> _]|]. unfold refs_at in Hl at 1. rewrite E in Hl. simpl in Hl. symmetry in Hl. by apply app_eq_nil in Hl as [? _].
Qed.

Lemma update_changes create bfs R w F' :
  fresh w → (∀ k x, (k, x) ∉ pair create <$> bfs → filter_cols F' k x = filter_cols w.(filters) k x) →
  (∀ x f, w.(filters) !! x = Some f → ∃ f', F' !! x = Some f' ∧ ∀ k, bound k f' = bound k f) →
  changes [] [] (pair create <$> bfs) R w R (mkWorld w.(store) w.(next_ref) w.(next_table) F').
Proof. intros Hf H1 H2. by split. Qed.

(** The columns of the filters of an operator are referenced. *)
Lemma bloom_cols create bfs c (ev : bool) R w all D x :
  let op := Node (BloomOp create bfs) [c] in
  scoped w.(store) w.(filters) op = true → demanded w.(store) w.(filters) all D op = true → ready (tables op) all D (mkRemover ev R) → x ∈ bfs →
  ∃ cols, filter_cols w.(filters) create x = Some cols ∧ cols ≠ [] ∧ ∀ v, v ∈ cols → v ∈ columns c ∧ (ev = true ∨ refs_at R v ≠ []).
Proof.
  intros op (_ & Hs & _)%scoped_node Hd Hr Hx. cbn [op demanded_by] in Hd. apply andb_true_iff in Hd as [Hd _]. cbn [kind_scoped fmap list_fmap] in Hs. apply (forallb_elem _ _ x) in Hs; [|done]. unfold filter_in in Hs.
  destruct (filter_cols w.(filters) create x) as [cols|] eqn:E; [|done]. apply andb_true_iff in Hs as [Hne Hs]. exists cols. split_and!; [done|by apply negb_true_iff, bool_decide_eq_false in Hne|].
  intros v Hv. apply (forallb_elem _ _ v) in Hs; [|done]. apply bool_decide_eq_true in Hs. split; [done|]. destruct Hr as [?|[-> Hr]]; [by left|right]. apply orb_true_iff in Hd as [?|Hd]; [done|].
  apply (forallb_elem _ _ (create, x)) in Hd; [|by apply list_elem_of_fmap_2]. cbn [fst snd] in Hd. rewrite E in Hd. apply (forallb_elem _ _ v) in Hd; [|done]. apply bool_decide_eq_true in Hd. apply Hr; [done|]. cbn [op tables own_tables map concat]. rewrite app_nil_r.
  by apply columns_tables.
Qed.

(** The operator with the filters updated. *)
Lemma bloom_stepped create bfs c c' w w1 F' :
  let op := Node (BloomOp create bfs) [c] in let w' := mkWorld w1.(store) w1.(next_ref) w1.(next_table) F' in
  agree c' w1.(store) w1.(filters) w'.(store) w'.(filters) → has_columns (Node (BloomOp create bfs) [c']) = true → stepped c c' w w1 →
  (∀ x, x ∈ bfs → ∃ cols cols', filter_cols w.(filters) create x = Some cols ∧ cols ≠ [] ∧ filter_cols F' create x = Some cols' ∧ Forall2 (λ v v', v' ∈ columns c' ∧ source c' v' = source c v) cols cols') → stepped op (Node (BloomOp create bfs) [c']) w w'.
Proof.
  intros op w' Ha Hh [S1 S2 S3 S4 S5] Hx. split.
  - cbn [scoped fmap list_fmap kind_scoped forallb]. rewrite Hh, (scoped_ext c' w1.(store) w1.(filters) w'.(store) w'.(filters) Ha), S1. cbn [andb]. rewrite andb_true_r. apply forallb_intro. intros x Hin.
    destruct (Hx x Hin) as (cols & cols' & _ & Hne & E & F). unfold filter_in. cbn [w' filters]. rewrite E. apply andb_true_iff. split; [apply negb_true_iff, bool_decide_eq_false; intros ->; by apply Forall2_nil_inv_r in F|].
    apply forallb_intro. intros v' Hv'. apply list_elem_of_lookup in Hv' as [i Hi]. destruct (Forall2_lookup_r _ _ _ _ _ F Hi) as (v & _ & Hv' & _). by apply bool_decide_eq_true.
  - cbn [plan_refs op own_refs EnumerateExpressions exprs_refs map concat app]. rewrite !app_nil_r. apply S2.
  - cbn [plan_filters op map concat]. by rewrite S3.
  - cbn [filter_sources op map concat own_filter_sources]. rewrite !app_nil_r, (filter_sources_ext c' _ _ _ _ Ha), S4. f_equal. apply list_fmap_ext. intros i x Hi. f_equal.
    destruct (Hx x (list_elem_of_lookup_2 _ _ _ Hi)) as (cols & cols' & E1 & _ & E2 & F). cbn [w' filters]. rewrite E1, E2. cbn [default from_option id]. clear -F. unfold id. induction F as [|v v' vs vs' [_ Hs] _ IH]; [done|]. csimpl. rewrite IH. f_equal. exact Hs.
  - cbn [op unmapped forallb kind_unmapped]. rewrite !andb_true_r. exact S5.
Qed.

(** The columns of the filters became those the references to them became. *)
Lemma bloom_needs create bfs c (ev : bool) R w F' (σ' : binding_store) all D D' :
  let op := Node (BloomOp create bfs) [c] in
  scoped w.(store) w.(filters) op = true → demanded_later w.(store) w.(filters) all D op = true →
  (all = false → ∀ b, b ∈ D → b.(table_index) ∈ tables op → refs_at R b ≠ []) → (∀ b p, b.(table_index) ∈ tables op → p ∈ refs_at R b → ∃ b', σ' !! p = Some b' ∧ b' ∈ D') →
  (∀ x, x ∈ bfs → ∃ cols cols', filter_cols w.(filters) create x = Some cols ∧ filter_cols F' create x = Some cols' ∧ Forall2 (λ v v', ∀ p, p ∈ refs_at R v → σ' !! p = Some v') cols cols') →
  all || filters_in F' D' (BloomOp create bfs) = true.
Proof.
  intros op (_ & Hs & _)%scoped_node Hd HD HD' Hx. destruct all; [done|]. cbn [op demanded_by orb] in Hd |- *. apply andb_true_iff in Hd as [Hd _]. apply forallb_intro. intros f (x & -> & Hin)%list_elem_of_fmap. cbn [fst snd].
  destruct (Hx x Hin) as (cols & cols' & Ec & -> & HF). apply forallb_intro. intros v' Hv'. apply bool_decide_eq_true. apply list_elem_of_lookup in Hv' as [i Hi]. destruct (Forall2_lookup_r _ _ _ _ _ HF Hi) as (v & Hvi & Hp). apply list_elem_of_lookup_2 in Hvi.
  apply (forallb_elem _ _ (create, x)) in Hd; [|by apply list_elem_of_fmap_2]. cbn [fst snd] in Hd. rewrite Ec in Hd. apply (forallb_elem _ _ v) in Hd; [|done]. apply bool_decide_eq_true in Hd.
  cbn [kind_scoped fmap list_fmap] in Hs. apply (forallb_elem _ _ x) in Hs; [|done]. unfold filter_in in Hs. rewrite Ec in Hs. apply andb_true_iff in Hs as [_ Hs]. apply (forallb_elem _ _ v) in Hs; [|done]. apply bool_decide_eq_true in Hs.
  assert (v.(table_index) ∈ tables op) as Hvt by (cbn [op tables own_tables map concat]; rewrite app_nil_r; by apply columns_tables). pose proof (HD eq_refl v Hd Hvt) as Hne. destruct (refs_at R v) as [|p ps] eqn:E; [done|].
  destruct (HD' v p Hvt) as (b' & Hb' & ?); [rewrite E; left|]. rewrite (Hp p) in Hb' by left. by injection Hb' as ->.
Qed.

Lemma bloom_ok visit create bfs c (ev : bool) R w all D :
  let op := Node (BloomOp create bfs) [c] in
  visits_well visit c → forest_ok [op] w → tracks (tables op) (plan_refs op) R w.(store) → demanded w.(store) w.(filters) all D op = true → ready (tables op) all D (mkRemover ev R) →
  ∃ cs' st' w1 w', visit_default visit (BloomOp create bfs) [c] (mkRemover ev R) w = Ret (cs', st', w1) ∧ update_filters create bfs st' w1 = Ret w' ∧
    visited op (Node (BloomOp create bfs) cs') (mkRemover ev R) w st' w'.
Proof.
  intros op Hv Hok Ht Hd Hr. destruct (forest_node _ _ _ Hok) as (_ & _ & _ & Hnf & Hs & _ & Hpl). assert (∀ d, d ∈ [c] → visits_well visit d) as Hv' by (by intros d ->%list_elem_of_singleton).
  assert (∀ d, d ∈ [c] → demanded w.(store) w.(filters) all (D ++ bindings_of w.(store) (EnumerateExpressions (BloomOp create bfs))) d = true) as Hd'.
  { intros d ->%list_elem_of_singleton. cbn [bindings_of]. unfold bindings_of. cbn. rewrite app_nil_r. apply andb_true_iff in Hd as [_ Hd]. by apply andb_true_iff in Hd as [Hd _]. }
  assert (ready (all_tables [c]) all (D ++ bindings_of w.(store) (EnumerateExpressions (BloomOp create bfs))) (mkRemover ev (push_all w.(store) R (own_refs (BloomOp create bfs))))) as Hr1.
  { eapply (ready_below _ _ ev ev all all); [done|done| |exact Hr]. intros ->. by destruct Hr as [?|[? _]]. }
  destruct (default_ok visit (BloomOp create bfs) [c] ev R w all D eq_refl Hv' Hok Ht Hd' Hr1) as (cs' & st' & w1 & E & E' & C & A & C1 & F & L); [done|].
  destruct (default_table visit (BloomOp create bfs) [c] ev R w all D Hv' Hok Ht Hd' Hr1 c cs' st' w1 eq_refl E') as (c' & -> & Htab).
  destruct (default_columns (BloomOp create bfs) [c] ev R w all D eq_refl Hok Hr1 (λ _, I) [c'] w1 F) as (Hh & Hsame & _).
  cbn [placed forallb] in Hpl. apply andb_true_iff in Hpl as [Hpl _]. rewrite andb_true_r in Hpl.
  assert (∀ x, x ∈ bfs → filter_cols w1.(filters) create x = filter_cols w.(filters) create x) as Hkeep.
  { intros x Hx. apply (ch_filters _ _ _ _ _ _ _ C). apply NoDup_app in Hnf as (_ & Hdis & _). apply Hdis. by apply list_elem_of_fmap_2. }
  destruct (update_filters_ok create st'.(column_references) w1.(store) (λ v v', v' ∈ columns c' ∧ source c' v' = source c v ∧ ∀ p, p ∈ refs_at R v → w1.(store) !! p = Some v') bfs w1.(filters)) as (F' & EF & I1 & I2 & I3).
  { apply NoDup_app in Hnf as (Hnf & _). by apply NoDup_fmap_1 in Hnf. }
  { intros x Hx. destruct (bloom_cols create bfs c ev R w all D x Hs Hd Hr Hx) as (cols & Ec & _ & Hcols). exists cols. rewrite Hkeep by done. split; [done|]. intros v Hv0. destruct (Hcols v Hv0). by eapply new_column_ok. }
  set (w' := mkWorld w1.(store) w1.(next_ref) w1.(next_table) F'). pose proof (Forall2_lookup_lr _ _ _ 0%nat c c' F eq_refl eq_refl) as Hdel.
  assert (agree c' w1.(store) w1.(filters) w'.(store) w'.(filters)) as Ha'.
  { split; [done|]. intros k x Hin. rewrite (s_filters _ _ _ _ (d_stepped _ _ _ _ _ _ Hdel)) in Hin. apply I2. intros Hin'. apply NoDup_app in Hnf as (_ & Hdis & _). apply (Hdis _ Hin'). cbn [map concat]. by rewrite app_nil_r. }
  assert (∀ x, x ∈ bfs → ∃ cols cols', filter_cols w.(filters) create x = Some cols ∧ cols ≠ [] ∧ filter_cols F' create x = Some cols' ∧
    Forall2 (λ v v', v' ∈ columns c' ∧ source c' v' = source c v ∧ ∀ p, p ∈ refs_at R v → w1.(store) !! p = Some v') cols cols') as Hcols.
  { intros x Hx. destruct (I1 x Hx) as (cols & cols' & Ec & Ec' & HF). destruct (bloom_cols create bfs c ev R w all D x Hs Hd Hr Hx) as (cols0 & Ec0 & Hne & _). rewrite Hkeep, Ec0 in Ec by done. injection Ec as <-. eauto 10. }
  exists [c'], st', w1, w'. split_and!; [done|unfold update_filters; by rewrite EF|]. split; cbn [column_references everything_referenced].
  - eapply changes_trans; [exact C|eapply (update_changes create bfs _ w1 F'); [exact (ch_live _ _ _ _ _ _ _ C)|done|done]|set_solver|set_solver| |by intros b p ?%elem_of_nil].
    intros x Hx. cbn [op plan_filters own_filters]. apply elem_of_app. tauto.
  - split; [|intros b Hb Hs'; by apply (L b)|done|].
    + eapply bloom_stepped; [exact Ha'|done|apply Hdel|]. intros x Hx. destruct (Hcols x Hx) as (cols & cols' & ? & ? & ? & HF). exists cols, cols'. split_and!; try done. eapply Forall2_impl; [exact HF|]. by intros v v' (? & ? & _).
    + intros a0 D0 D' Hd0 He0 HD0 HD'. rewrite needed_default by done. apply andb_true_iff. split.
      * eapply (bloom_needs create bfs c ev R w F' w1.(store) a0 D0 D'); try done. intros x Hx. destruct (Hcols x Hx) as (cols & cols' & ? & ? & ? & HF). exists cols, cols'. split_and!; try done. eapply Forall2_impl; [exact HF|]. by intros v v' (_ & _ & ?).
      * pose proof (plain_below (BloomOp create bfs) [c] ev ev R w [c'] w1 a0 D0 D') as Hbelow. cbn [forallb] in Hbelow |- *. rewrite (needed_ext c' w1.(store) w1.(filters)) by done. apply Hbelow; try done. by intros p ?%elem_of_nil.
  - eapply (default_table_ok visit (BloomOp create bfs) [c] ev ev R w [c'] st' w1); done.
  - done.
Qed.

(** ** Joins *)

Section Join.
  Context (visit : visitor) (j : LogicalComparisonJoin) (l r : column_plan) (ev : bool) (R : references) (w : columns_world) (all : bool) (D : list ColumnBinding).

Let op := Node (ComparisonJoin j) [l; r].

Context (Hok : forest_ok [op] w) (Ht : tracks (tables op) (plan_refs op) R w.(store)).

Definition replace_step : outcome (references * binding_store) :=
  if negb ev && bool_decide (j.(comp_type) = INNER) then ofold replace_right j.(comp_conditions) (R, w.(store)) else Ret (R, w.(store)).

Lemma left_tables b : b ∈ columns l → b.(table_index) ∈ tables op.
Proof. intros Hb%columns_tables. cbn [op tables map concat]. rewrite !elem_of_app. auto. Qed.

Lemma join_sides_ok c : c ∈ j.(comp_conditions) → sides_ok (tables op) (plan_refs op) (columns l) w.(store) c.
Proof.
  intros Hc p q Hp Hq. destruct (forest_node _ _ _ Hok) as (_ & _ & Hnt & _ & (_ & Hs & _)%scoped_node & _). cbn [kind_scoped fmap list_fmap] in Hs. apply andb_true_iff in Hs as [_ Hs].
  apply (forallb_elem _ _ c) in Hs; [|done]. apply andb_true_iff in Hs as [Hl Hr]. rewrite Hp in Hl. rewrite Hq in Hr.
  destruct (exprs_in_live _ _ _ p Hl) as (lb & ? & ?); [left|]. destruct (exprs_in_live _ _ _ q Hr) as (rb & ? & Hrb); [left|]. exists lb, rb.
  assert (∀ p, p ∈ expr_refs (cond_left c) ∨ p ∈ expr_refs (cond_right c) → p ∈ plan_refs op) as Hown by (intros p' Hp'; cbn [op plan_refs]; apply elem_of_app; left; apply join_own_refs; eauto).
  split_and!; try done; [apply Hown; rewrite Hp; left; left|apply Hown; rewrite Hq; right; left| |].
  - intros Hl'. apply columns_tables in Hl', Hrb. cbn [map concat] in Hnt. apply NoDup_app in Hnt as (_ & _ & (_ & Hd & _)%NoDup_app). apply (Hd _ Hl'). by rewrite app_nil_r.
  - apply columns_tables in Hrb. cbn [op tables map concat]. rewrite !elem_of_app. auto.
Qed.

(** References to right sides, if any, become references to the left sides. *)
Lemma replace_step_ok :
  ∃ R1 σ1 rs, replace_step = Ret (R1, σ1) ∧ moved (tables op) (plan_refs op) (columns l) rs R w.(store) R1 σ1 ∧ (∀ b, b ∈ rs → b ∈ bindings_of w.(store) (EnumerateExpressions (ComparisonJoin j))) ∧
    (ev = true ∨ comp_type j ≠ INNER → R1 = R).
Proof.
  unfold replace_step. destruct (negb ev && bool_decide (j.(comp_type) = INNER)) eqn:E.
  - apply andb_true_iff in E as [Hev%negb_true_iff Hin%bool_decide_eq_true]. destruct (replace_all_ok (tables op) (plan_refs op) (columns l) j.(comp_conditions) R w.(store)) as (R1 & σ1 & E & M); [apply left_tables|done| |].
    { intros c Hc. split; [by apply join_sides_ok|]. intros p Hp%elem_of_app. cbn [op plan_refs]. apply elem_of_app. left. apply join_own_refs. eauto. }
    exists R1, σ1, (right_columns w.(store) j.(comp_conditions)). split_and!; [done|done| |intros [?|?]; congruence]. intros b (c & Hc & Hb)%list_elem_of_omap. apply elem_of_bindings. destruct (cond_right c) as [q| |] eqn:Eq; try done.
    exists q. split; [|done]. apply (join_own_refs j q). right. exists c. split; [done|]. rewrite Eq. right. left.
  - exists R, w.(store), []. split_and!; [done| |by intros b ?%elem_of_nil|done]. destruct (moved_refl (tables op) (plan_refs op) (columns l) R w.(store) Ht). by split.
Qed.

(** What the first loop leaves is a plan to visit. *)
Section Replaced.
  Context (R1 : references) (σ1 : binding_store) (rs : list ColumnBinding).
  Context (M : moved (tables op) (plan_refs op) (columns l) rs R w.(store) R1 σ1) (Hrs : ∀ b, b ∈ rs → b ∈ bindings_of w.(store) (EnumerateExpressions (ComparisonJoin j))).

Let w1 := set_store σ1 w.

Lemma replaced_agree : agree op w.(store) w.(filters) w1.(store) w1.(filters).
Proof. split; [|done]. intros p Hp. apply (moved_frame _ _ _ _ _ _ _ _ M). intros b Hb Hpb. by destruct (tracks_bound _ _ _ _ Ht b p Hb Hpb). Qed.

Lemma replaced_changes : changes (tables op) (plan_refs op) [] R w R1 w1.
Proof. apply changes_store; [apply Hok|apply (moved_else _ _ _ _ _ _ _ _ M)|intros p _; apply (moved_frame _ _ _ _ _ _ _ _ M)|apply (moved_live _ _ _ _ _ _ _ _ M)]. Qed.

Lemma replaced_forest : forest_ok [op] w1.
Proof.
  destruct Hok as [H1 H2 H3 H4 H5 H6 H7 H8]. split; try done.
  - cbn [forallb] in *. by rewrite (scoped_ext op _ _ _ _ replaced_agree).
  - exact (ch_live _ _ _ _ _ _ _ replaced_changes).
Qed.

Lemma replaced_bindings : bindings_of w1.(store) (EnumerateExpressions (ComparisonJoin j)) = bindings_of w.(store) (EnumerateExpressions (ComparisonJoin j)).
Proof. apply bindings_of_ext. apply (agree_own _ _ _ _ _ _ replaced_agree). Qed.

Lemma replaced_refs D0 :
  (∀ b, b ∈ D0 → b.(table_index) ∈ tables op → refs_at R b ≠ []) →
  ∀ b, b ∈ D0 ++ bindings_of w1.(store) (EnumerateExpressions (ComparisonJoin j)) → b.(table_index) ∈ all_tables [l; r] → refs_at (push_all w1.(store) R1 (own_refs (ComparisonJoin j))) b ≠ [].
Proof.
  intros Hr b Hb Hbt. rewrite refs_at_push_all. intros [E1 E2]%app_eq_nil.
  assert (b ∉ bindings_of w1.(store) (EnumerateExpressions (ComparisonJoin j))) as Hno.
  { intros (p & Hp & Hpb)%elem_of_bindings. assert (p ∈ bound_to w1.(store) (own_refs (ComparisonJoin j)) b) as Hin by (by apply elem_of_bound_to). rewrite E2 in Hin. by apply elem_of_nil in Hin. }
  apply elem_of_app in Hb as [Hb|?]; [|done]. destruct (moved_away _ _ _ _ _ _ _ _ M b) as [?|?]; [|done|apply Hno; rewrite replaced_bindings; auto].
  apply Hr; [done|]. cbn [op tables]. apply elem_of_app. by right.
Qed.

Lemma replaced_ready :
  ready (tables op) all D (mkRemover ev R) →
  ready (all_tables [l; r]) all (D ++ bindings_of w1.(store) (EnumerateExpressions (ComparisonJoin j))) (mkRemover ev (push_all w1.(store) R1 (own_refs (ComparisonJoin j)))).
Proof. intros [Hr|[? Hr]]; [by left|right]. split; [done|]. by apply replaced_refs. Qed.
End Replaced.
End Join.

(** Conditions that are left out are those of the join. *)
Lemma unique_parts σ j c : c ∈ unique_loop σ j.(comp_conditions) [] ∨ c ∈ dropped_loop σ j.(comp_conditions) [] ↔ c ∈ j.(comp_conditions).
Proof. pose proof (unique_dropped σ j.(comp_conditions) []) as H. rewrite app_nil_l in H. by rewrite <- elem_of_app, H. Qed.

Lemma conditions_refs (conds : list BoundCondition) : exprs_refs (concat ((λ c, [c.(cond_left); c.(cond_right)]) <$> conds)) = concat (map cond_refs conds).
Proof. induction conds as [|c conds IH]; [done|]. unfold exprs_refs in *. csimpl. rewrite IH. unfold cond_refs at 2. by rewrite <- app_assoc. Qed.

Lemma unique_refs σ j p :
  NoDup (own_refs (ComparisonJoin j)) → p ∈ own_refs (ComparisonJoin (set_conditions (unique_loop σ j.(comp_conditions) []) j)) →
  p ∈ own_refs (ComparisonJoin j) ∧ p ∉ concat (map cond_refs (dropped_loop σ j.(comp_conditions) [])).
Proof.
  unfold own_refs. cbn [EnumerateExpressions set_conditions comp_duplicates comp_conditions comp_expressions]. rewrite !exprs_refs_app, !conditions_refs.
  pose proof (unique_dropped σ j.(comp_conditions) []) as H. rewrite app_nil_l in H. symmetry in H. apply (Permutation_flat_map cond_refs) in H. rewrite !flat_map_concat_map, map_app, concat_app in H. revert H.
  generalize (concat (map cond_refs j.(comp_conditions))) (concat (map cond_refs (unique_loop σ j.(comp_conditions) []))) (concat (map cond_refs (dropped_loop σ j.(comp_conditions) []))).
  generalize (exprs_refs j.(comp_duplicates)) (exprs_refs j.(comp_expressions)). intros A B C U X ->. rewrite !NoDup_app. set_solver.
Qed.

Lemma dropped_refs σ j p : p ∈ concat (map cond_refs (dropped_loop σ j.(comp_conditions) [])) → p ∈ own_refs (ComparisonJoin j).
Proof. intros (c & Hc & Hp%elem_of_app)%elem_of_concat_map. apply join_own_refs. right. exists c. split; [|done]. apply unique_parts with σ. by right. Qed.

Lemma unique_scoped σ F j css :
  kind_scoped σ F (ComparisonJoin j) css = true → NoDup (own_refs (ComparisonJoin j)) →
  kind_scoped (unique_conditions j σ).2 F (ComparisonJoin (unique_conditions j σ).1) css = true.
Proof.
  intros Hs Hn. cbn [unique_conditions fst snd]. rewrite (kind_scoped_ext σ F); [|intros p Hp; rewrite destroy_conditions_lookup, decide_False; [done|by apply unique_refs]|done].
  cbn [kind_scoped] in *. destruct css as [|l [|r [|]]]; try done. apply andb_true_iff in Hs as [He Hc]. apply andb_true_iff. split; [done|]. apply forallb_intro. intros c Hin.
  apply (forallb_elem _ _ c) in Hc; [done|]. apply unique_parts with σ. by left.
Qed.

(** The conditions that are left refer to all that was referred to. *)
Lemma unique_bindings σ j p b :
  NoDup (own_refs (ComparisonJoin j)) → p ∈ own_refs (ComparisonJoin j) → σ !! p = Some b →
  b ∈ bindings_of (unique_conditions j σ).2 (EnumerateExpressions (ComparisonJoin (unique_conditions j σ).1)).
Proof.
  intros Hn Hp Hb. cbn [unique_conditions fst snd]. set (j' := set_conditions _ j). assert (∃ q, q ∈ own_refs (ComparisonJoin j') ∧ σ !! q = Some b) as (q & Hq & Hqb).
  { apply (join_own_refs j p) in Hp as [Hp|(c & Hc & Hp)]; [exists p; split; [apply (join_own_refs j'); by left|done]|]. apply (unique_parts σ) in Hc as [Hc|Hc].
    - exists p. split; [|done]. apply (join_own_refs j'). right. eauto.
    - destruct (dropped_refs_same σ _ c p Hc) as (d & q & Hd & Hq & E); [by apply elem_of_app|]. exists q. rewrite E. split; [|done]. apply (join_own_refs j'). right. exists d. split; [done|]. by apply elem_of_app. }
  apply elem_of_bindings. exists q. split; [done|]. rewrite destroy_conditions_lookup, decide_False; [done|]. by apply unique_refs.
Qed.

Section Join_visit.
  Context (visit : visitor) (j : LogicalComparisonJoin) (l r : column_plan) (ev : bool) (R : references) (w : columns_world) (all : bool) (D : list ColumnBinding).

Let op := Node (ComparisonJoin j) [l; r].

Context (Hok : forest_ok [op] w) (Ht : tracks (tables op) (plan_refs op) R w.(store)).

(** What is destroyed at the end does not concern the children. *)
Lemma unique_apart w1 w2 c c' :
  w1.(next_ref) = w.(next_ref) → c ∈ [l; r] → stepped c c' w1 w2 → agree c' w2.(store) w2.(filters) (unique_conditions j w2.(store)).2 w2.(filters).
Proof.
  intros En Hc Hst. destruct (forest_node _ _ _ Hok) as (Hcs & Hnr & _ & _ & Hs & _). split; [|done]. intros p Hp. cbn [unique_conditions snd]. rewrite destroy_conditions_lookup, decide_False; [done|].
  intros Hx%dropped_refs. destruct (s_refs _ _ _ _ Hst p Hp) as [Hp'|Hp'].
  - apply NoDup_app in Hnr as (_ & Hd & _). apply (Hd p Hx), elem_of_concat_map. eauto.
  - rewrite En in Hp'. assert (p < w.(next_ref))%nat; [|lia]. apply (f_fresh _ _ Hok). eapply scoped_live; [exact Hs|]. cbn [plan_refs]. apply elem_of_app. by left.
Qed.

Lemma unique_agree w1 w2 cs' :
  agree op w.(store) w.(filters) w1.(store) w1.(filters) → w1.(next_ref) = w.(next_ref) → Forall2 (λ c c', stepped c c' w1 w2) [l; r] cs' →
  let w' := set_store (unique_conditions j w2.(store)).2 w2 in Forall2 (λ c c', stepped c c' w w') [l; r] cs'.
Proof.
  intros Ha En HF w'. apply (Forall2_impl_in _ _ _ _ HF). intros c c' Hc Hst. eapply stepped_earlier; [|by eapply agree_child|by rewrite En]. eapply stepped_later; [exact Hst|]. exact (unique_apart w1 w2 c c' En Hc Hst).
Qed.

(** What is needed below a join. *)
Lemma join_needs R1 σ1 rs cs' w2 :
  let w1 := set_store σ1 w in let k := ComparisonJoin j in
  moved (tables op) (plan_refs op) (columns l) rs R w.(store) R1 σ1 → (∀ b, b ∈ rs → b ∈ bindings_of w.(store) (EnumerateExpressions k)) →
  Forall2 (λ c c', delivered c c' ev (push_all w1.(store) R1 (own_refs k)) w1 w2) [l; r] cs' → (∀ p, p ∈ own_refs k → is_Some (w2.(store) !! p)) →
  needs_kept op (Node (ComparisonJoin (unique_conditions j w2.(store)).1) cs') ev R w (set_store (unique_conditions j w2.(store)).2 w2).
Proof.
  intros w1 k M Hrs HF Hl all0 D0 D' Hd0 He0 HD0 HD'. cbn [set_store store filters] in *. rewrite needed_default, no_filters_in by done. cbn [andb lifetime_takes_all]. rewrite orb_false_r.
  pose proof (replaced_agree j l r R w Ht R1 σ1 rs M) as Hag. destruct (forest_node _ _ _ Hok) as (_ & (Hnr & _)%NoDup_app & _).
  rewrite (forallb_ext_elem _ (needed w2.(store) w2.(filters) all0 (D' ++ bindings_of (unique_conditions j w2.(store)).2 (EnumerateExpressions (ComparisonJoin (unique_conditions j w2.(store)).1))))).
  2:{ intros c' Hc'. apply list_elem_of_lookup in Hc' as [i Hi]. destruct (Forall2_lookup_r _ _ _ _ _ HF Hi) as (c & Hci & Hdel). apply needed_ext. eapply (unique_apart w1 w2 c c'); [done|by eapply list_elem_of_lookup_2|apply Hdel]. }
  apply demanded_default in Hd0; [|done]. cbn [lifetime_takes_all] in Hd0. rewrite orb_false_r in Hd0.
  eapply (default_needed k [l; r] ev R1 w1 cs' w2 all0 (D0 ++ bindings_of w1.(store) (EnumerateExpressions k))); [exact HF| |done|intros Ea; apply (replaced_refs j l r R w Ht R1 σ1 rs M Hrs); auto|].
  - apply forallb_intro. intros c Hc. pose proof (replaced_bindings j l r R w Ht R1 σ1 rs M) as Eb. change (bindings_of w1.(store) (EnumerateExpressions k) = bindings_of w.(store) (EnumerateExpressions k)) in Eb. rewrite Eb, (demanded_ext _ c w.(store) w.(filters)) by (by eapply agree_child). by eapply (forallb_elem _ _ c Hd0).
  - intros b p Hb. rewrite refs_at_push_all, elem_of_app, elem_of_bound_to. intros [Hp|[Hp _]].
    + destruct (moved_from _ _ _ _ _ _ _ _ M b p) as (b0 & Hb0 & Hp0); [cbn [op tables]; apply elem_of_app; by right|done|]. destruct (HD' b0 p Hb0 Hp0) as (b' & Hb' & ?). exists b'. split; [|apply elem_of_app; by left].
      cbn [unique_conditions snd] in Hb'. rewrite destroy_conditions_lookup in Hb'. by case_decide.
    + destruct (Hl p Hp) as [b' Hb']. exists b'. split; [done|]. apply elem_of_app. right. by eapply unique_bindings.
Qed.

Lemma unique_changes R2 w2 : fresh w2 → changes [] (own_refs (ComparisonJoin j)) [] R2 w2 R2 (set_store (unique_conditions j w2.(store)).2 w2).
Proof.
  intros Hf. apply changes_store; [done|done| |]; intros p; cbn [unique_conditions snd]; rewrite destroy_conditions_lookup.
  - intros Hp _. rewrite decide_False; [done|]. by intros ?%dropped_refs.
  - case_decide; [by intros [? ?]|done].
Qed.

(** References that are moved land with those of the left side. *)
Lemma replaced_lands R1 σ1 rs cols' σ' b :
  moved (tables op) (plan_refs op) (columns l) rs R w.(store) R1 σ1 → (ev = true ∨ comp_type j ≠ INNER → R1 = R) →
  (∀ b, b ∈ columns op → ev = true ∨ is_Some (R1 !! b) → lands ev R1 σ' cols' b) → b ∈ columns op → ev = true ∨ is_Some (R !! b) → lands ev R σ' cols' b.
Proof.
  intros M Hsame L Hb Hs. destruct (decide (ev = true ∨ comp_type j ≠ INNER)) as [Hc|Hc]; [rewrite Hsame in L by done; auto|]. destruct Hs as [Hev|Hs]; [naive_solver|].
  destruct (moved_to _ _ _ _ _ _ _ _ M b (columns_tables _ _ Hb) Hs) as (b1 & Hb1 & Hs1 & Hin).
  destruct (forest_node _ _ _ Hok) as (_ & _ & _ & _ & (Hh & _ & Hscs)%scoped_node & Hu & _). pose proof (node_columns _ _ (scoped_children _ _ _ Hscs) Hh) as Ecol.
  assert (b1 ∈ columns op) as Hb1'.
  { destruct Hb1 as [->|Hb1]; [done|]. cbn [untouched_kind] in Hu. apply andb_true_iff in Hu as [Hl%bool_decide_eq_true Hr%bool_decide_eq_true]. rewrite kind_columns_exports in Ecol by done. cbn [exports] in Ecol.
    assert (comp_type j = INNER) as Hin' by (destruct (decide (comp_type j = INNER)); naive_solver). rewrite Hin' in Ecol. cbn in Ecol. injection Ecol as Ecol. unfold op. rewrite <- Ecol. rewrite !elem_of_app. auto. }
  destruct (L b1 Hb1') as (b' & ? & Hp & Ha); [by right|]. exists b'. split_and!; [done|auto|]. intros ->. naive_solver.
Qed.

Lemma join_ok :
  (∀ c, c ∈ [l; r] → visits_well visit c) → demanded w.(store) w.(filters) all D op = true → ready (tables op) all D (mkRemover ev R) →
  ∃ R1 σ1 cs' st' w2, replace_step j ev R w = Ret (R1, σ1) ∧ visit_default visit (ComparisonJoin j) [l; r] (mkRemover ev R1) (set_store σ1 w) = Ret (cs', st', w2) ∧
    let '(j', σ) := unique_conditions j w2.(store) in visited op (Node (ComparisonJoin j') cs') (mkRemover ev R) w st' (set_store σ w2).
Proof.
  intros Hv Hd Hr. destruct (replace_step_ok j l r ev R w Hok Ht) as (R1 & σ1 & rs & E1 & M & Hrs & Hsame). set (w1 := set_store σ1 w).
  pose proof (replaced_agree j l r R w Ht R1 σ1 rs M) as Hag. pose proof (replaced_forest j l r R w Hok Ht R1 σ1 rs M) as Hok1. pose proof (replaced_ready j l r ev R w all D Ht R1 σ1 rs M Hrs Hr) as Hr1.
  pose proof (replaced_bindings j l r R w Ht R1 σ1 rs M) as Eb. fold w1 in Hag, Hok1, Hr1, Eb.
  destruct (forest_node _ _ _ Hok) as (_ & Hnr & _ & _ & _ & Hu & _).
  assert (∀ c, c ∈ [l; r] → demanded w1.(store) w1.(filters) all (D ++ bindings_of w1.(store) (EnumerateExpressions (ComparisonJoin j))) c = true) as Hd1.
  { intros c Hc. rewrite Eb, (demanded_ext _ c w.(store) w.(filters)) by (by eapply agree_child). cbn [op demanded_by removal_takes_all] in Hd. rewrite orb_false_r in Hd. by eapply (forallb_elem _ _ c). }
  assert (maps_empty (ComparisonJoin j)) as Hmaps by (cbn [untouched_kind] in Hu; by apply andb_true_iff in Hu as [?%bool_decide_eq_true ?%bool_decide_eq_true]).
  destruct (default_ok visit (ComparisonJoin j) [l; r] ev R1 w1 all D eq_refl Hv Hok1 (moved_tracks _ _ _ _ _ _ _ _ M) Hd1 Hr1 (λ _, Hmaps)) as (cs' & st' & w2 & E2 & _ & C & A & _ & F & L).
  destruct (default_columns (ComparisonJoin j) [l; r] ev R1 w1 all D eq_refl Hok1 Hr1 (λ _, Hmaps) cs' w2 F) as (Hh & Hcols & _).
  pose proof (default_scoped visit (ComparisonJoin j) [l; r] ev R1 w1 eq_refl Hv Hok1 (moved_tracks _ _ _ _ _ _ _ _ M) cs' w2 F eq_refl) as Hks.
  assert (fresh w2) as Hf2 by exact (ch_live _ _ _ _ _ _ _ C). pose proof (unique_changes st'.(column_references) w2 Hf2) as C3.
  assert (changes (tables op) (plan_refs op) (all_filters [l; r]) R w st'.(column_references) w2) as C2.
  { eapply changes_trans; [exact (replaced_changes j l r R w Hok R1 σ1 rs M)|exact C|tauto|tauto|set_solver|]. intros b p Hb Hp. right. by apply (moved_from _ _ _ _ _ _ _ _ M b). }
  exists R1, σ1, cs', st', w2. split_and!; [done|done|]. rewrite (surjective_pairing (unique_conditions j w2.(store))). split; cbn [column_references everything_referenced]; [|split|by intros ?|done].
  - eapply changes_trans; [exact C2|exact C3|set_solver| |set_solver|by intros b p ?%elem_of_nil]. intros p [?|?]; [done|]. cbn [op plan_refs]. apply elem_of_app. by left.
  - apply NoDup_app in Hnr as (Hnr & _). apply stepped_node; [|done|done|intros p Hp; by apply (unique_refs w2.(store) j p Hnr Hp)|done|exact Hh|by apply unique_scoped].
    eapply (unique_agree w1 w2); [done|done|]. eapply Forall2_impl; [exact F|]. intros c c' Hdel. apply Hdel.
  - intros b Hb Hs. destruct (replaced_lands R1 σ1 rs (columns (Node (ComparisonJoin j) cs')) w2.(store) b M Hsame L Hb Hs) as (b' & Hb' & Hp' & Ha). exists b'. split_and!; [done| |done]. intros p Hp. rewrite <- (Hp' p Hp).
    apply (ch_frame _ _ _ _ _ _ _ C3); [apply Hf2; rewrite (Hp' p Hp); eauto| |by intros ? ?%elem_of_nil]. intros Hin. destruct (tracks_bound _ _ _ _ Ht b p (columns_tables _ _ Hb) Hp) as [_ Hq]. apply Hq. cbn [op plan_refs]. apply elem_of_app. by left.
  - exact Hcols.
  - eapply join_needs; [exact M|done|exact F|]. intros p Hp. by eapply (default_live (ComparisonJoin j) [l; r] ev R1 w1 eq_refl Hok1).
Qed.
End Join_visit.

(** ** All operators *)

Lemma depth_child k cs c n : c ∈ cs → (depth (Node k cs) ≤ S n)%nat → (depth c ≤ n)%nat.
Proof.
  intros Hc. cbn [depth]. intros Hn. assert (depth c ≤ list_max (map depth cs))%nat; [|lia]. pose proof (proj1 (list_max_le (map depth cs) _) (le_n _)) as H. rewrite List.Forall_forall in H.
  apply H, in_map. by apply list_elem_of_In.
Qed.

Lemma all_demanded σ F all D cs : forallb (demanded σ F all D) cs = true → ∀ c, c ∈ cs → some_demand σ F c.
Proof. intros H c Hc. exists all, D. by eapply forallb_elem. Qed.

Lemma remover_ok n : ∀ op, (depth op ≤ n)%nat → visits_well (VisitOperator n) op.
Proof.
  induction n as [|n IH]; intros [k cs] Hn; [cbn [depth] in Hn; lia|]. intros [ev R] w all D Hok Ht Hd Hr. cbn [column_references] in Ht.
  assert (∀ c, c ∈ cs → visits_well (VisitOperator n) c) as Hv by (intros c Hc; apply IH; by eapply depth_child).
  assert (∀ c, cs = [c] → visits_well (VisitOperator n) c) as Hv1 by (intros c ->; apply Hv; left).
  destruct (forest_node _ _ _ Hok) as (_ & _ & _ & _ & (_ & Hs & _)%scoped_node & Hu & _).
  destruct k as [g|t es|a|j|s t m|os ps|es pm|create bfs|es ex cols|r es out]; cbn [VisitOperator column_references everything_referenced]; cbn [kind_scoped] in Hs.
  - destruct (get_ok g cs (mkRemover ev R) w Hok Ht) as (g' & st' & w' & -> & V). eauto.
  - apply one_child in Hs as [c' [c ->]%fmap_single]. destruct (projection_ok (VisitOperator n) t es c (mkRemover ev R) w all D (Hv1 c eq_refl) Hok Ht Hd Hr) as (op' & w' & -> & V). eauto.
  - apply one_child in Hs as [c' [c ->]%fmap_single]. destruct (aggregate_ok (VisitOperator n) a c (mkRemover ev R) w all D (Hv1 c eq_refl) Hok Ht Hd Hr) as (op' & w' & E & V).
    destruct (prune_aggregate _ a _) as [[a' σ]| | |]; try done. cbn [obind] in *. rewrite E. eauto.
  - assert (∃ l r, cs = [l; r]) as (l & r & ->) by (destruct cs as [|l [|r [|]]]; try done; eauto).
    destruct (join_ok (VisitOperator n) j l r ev R w all D Hok Ht Hv Hd Hr) as (R1 & σ1 & cs' & st' & w2 & E1 & E2 & V). unfold replace_step in E1. rewrite E1. cbn [obind]. rewrite E2. cbn [obind].
    destruct (unique_conditions j w2.(store)) as [j' σ]. eauto.
  - destruct s; [|destruct (setop_same_ok (VisitOperator n) SET_EXCEPT t m cs (mkRemover ev R) w Hv Hok Ht (all_demanded _ _ _ _ _ Hd)) as (cs' & w' & -> & V); cbn [obind]; eauto
      |destruct (setop_same_ok (VisitOperator n) SET_INTERSECT t m cs (mkRemover ev R) w Hv Hok Ht (all_demanded _ _ _ _ _ Hd)) as (cs' & w' & -> & V); cbn [obind]; eauto].
    destruct (union_ok (VisitOperator n) t m cs (mkRemover ev R) w all D) as (op' & w' & E & V); [intros c Hc; split; [auto|]; apply IH; rewrite resolve_depth; by eapply depth_child|done..|].
    destruct (union_entries _ t m _) as [[entries σ]| | |]; try done. cbn [obind] in *. destruct (length entries <? m)%nat.
    + destruct (visit_each _ cs _) as [[cs' w2]| | |]; try done. injection E as <- <-. cbn [obind]. eauto.
    + destruct (visit_all _ cs _) as [[cs' w2]| | |]; try done. injection E as <- <-. cbn [obind]. eauto.
  - apply one_child in Hs as [c' [c ->]%fmap_single]. cbn [untouched_kind] in Hu. apply bool_decide_eq_true in Hu as ->.
    destruct (order_ok (VisitOperator n) os c (mkRemover ev R) w (Hv1 c eq_refl) Hok Ht) as (ps & cs' & w' & E1 & E2 & V); [apply (all_demanded _ _ _ _ [c] Hd); left|].
    cbn [everything_referenced column_references] in E1. rewrite E1. cbn [obind]. rewrite E2. cbn [obind]. eauto.
  - destruct (plain_ok (VisitOperator n) (Filter es pm) cs ev (ev || negb (bool_decide (pm = []))) R w all (all || negb (bool_decide (pm = []))) D) as (cs' & st' & w' & E & V); try done.
    { intros c Hc. by eapply (forallb_elem _ _ c Hd). } { by intros ->. } { by intros [-> _]%orb_false_iff. }
    { intros [-> Hp]%orb_false_iff. rewrite Hp. destruct Hr as [?|[-> _]]; done. } { intros [_ Hp%negb_false_iff%bool_decide_eq_true]%orb_false_iff. done. }
    replace (if decide (pm = []) then mkRemover ev R else mkRemover true R) with (mkRemover (ev || negb (bool_decide (pm = []))) R) by (destruct (decide (pm = [])) as [->|Hne]; [by rewrite orb_false_r|by rewrite bool_decide_eq_false_2, orb_true_r]).
    rewrite E. cbn [obind]. eauto.
  - apply one_child in Hs as [c' [c ->]%fmap_single]. destruct (bloom_ok (VisitOperator n) create bfs c ev R w all D (Hv1 c eq_refl) Hok Ht Hd Hr) as (cs' & st' & w1 & w' & -> & E & V). cbn [obind]. rewrite E. cbn [obind]. eauto.
  - apply one_child in Hs as [c' [c ->]%fmap_single]. destruct (modify_ok (VisitOperator n) es ex cols c (mkRemover ev R) w (Hv1 c eq_refl) Hok Ht) as (op' & w' & -> & V); [apply (all_demanded _ _ _ _ [c] Hd); left|]. cbn [obind]. eauto.
  - destruct (plain_ok (VisitOperator n) (Other r es out) cs ev (ev || references_all r) R w all (all || references_all r) D) as (cs' & st' & w' & E & V); try done.
    { intros c Hc. by eapply (forallb_elem _ _ c Hd). } { by intros ->. } { by intros [-> _]%orb_false_iff. }
    { intros [-> Hra]%orb_false_iff. rewrite Hra. destruct Hr as [?|[-> _]]; done. }
    { intros _. destruct out; try done. cbn [untouched_kind] in Hu. by apply andb_true_iff in Hu as [?%bool_decide_eq_true ?%bool_decide_eq_true]. }
    { destruct r; try done. intros _. apply orb_true_r. }
    replace (if references_all r then mkRemover true R else mkRemover ev R) with (mkRemover (ev || references_all r) R) by (by destruct (references_all r); rewrite ?orb_true_r, ?orb_false_r). rewrite E. cbn [obind]. eauto.
Qed.

(** ** The pass *)

(** The plans the pass is shown to be right about: tables, references and
    filters are there once, references are columns below, the columns of
    filters are referenced above, and no filter is resolved yet. *)
Definition removable (op : column_plan) (w : columns_world) : bool :=
  bool_decide (NoDup (tables op)) && bool_decide (NoDup (plan_refs op)) && bool_decide (NoDup (plan_filters op)) &&
  scoped w.(store) w.(filters) op && untouched op && placed op && demanded w.(store) w.(filters) true [] op &&
  bool_decide (map_Forall (λ p _, (p < w.(next_ref))%nat) w.(store)) && forallb (λ t, t <? w.(next_table)) (tables op) &&
  unresolved w.(filters) op.

Lemma removable_forest op w : removable op w = true → forest_ok [op] w ∧ demanded w.(store) w.(filters) true [] op = true.
Proof.
  unfold removable. rewrite !andb_true_iff, !bool_decide_eq_true. intros [[[[[[[[[H1 H2] H3] H4] H5] H6] H7] H8] H9] _]. split; [|done]. split; cbn [map concat forallb]; rewrite ?app_nil_r, ?andb_true_r; try done.
  - intros p [b Hb]. by apply (H8 p b).
  - intros t Ht. apply (forallb_elem _ _ t) in H9; [|done]. by apply Z.ltb_lt in H9.
Qed.

Lemma removable_unresolved op w : removable op w = true → unresolved w.(filters) op = true.
Proof. unfold removable. rewrite !andb_true_iff. by intros [_ ?]. Qed.

(** What the pass gives: a plan that is right again, and what the next pass asks for. *)
Lemma remove_unused_columns_ok op w :
  removable op w = true →
  ∃ op' w', remove_unused_columns op w = Ret (op', w') ∧ stepped op op' w w' ∧ columns op' = columns op ∧ NoDup (plan_filters op') ∧ unresolved w'.(filters) op' = true ∧
    (demanded_later w.(store) w.(filters) true [] op = true → needed w'.(store) w'.(filters) true [] op' = true).
Proof.
  intros Hrm. destruct (removable_forest op w Hrm) as [Hok Hd].
  destruct (remover_ok (depth op) op (le_n _) (mkRemover true ∅) w true [] Hok) as (op' & st' & w' & E & [C [S _ Hcols Hneeds] _ _]); [apply tracks_empty|done|by left|].
  exists op', w'. unfold remove_unused_columns. rewrite E. split_and!; [done|done|by apply Hcols| | |].
  - rewrite (s_filters _ _ _ _ S). pose proof (f_filters _ _ Hok) as Hf. cbn [map concat] in Hf. by rewrite app_nil_r in Hf.
  - apply forallb_intro. intros [k x] Hx. cbn [fst snd]. rewrite (s_filters _ _ _ _ S) in Hx. destruct (unresolved_bound _ _ _ _ (removable_unresolved op w Hrm) Hx) as (f0 & Hf0 & Hb0).
    destruct (ch_bound _ _ _ _ _ _ _ C x f0 Hf0) as (f & -> & Hb). apply bool_decide_eq_true. by rewrite Hb.
  - intros Hd'. apply (Hneeds true [] [] Hd'); [done|done|]. intros b p _ ?. by destruct (refs_at_empty b p).
Qed.

(** C7: [RemoveUnusedColumns] keeps filters on their columns.  The pass returns, follows no pointer that
    dangles, and gives a plan with the columns of the given one, in which all references are columns of
    the operators below and the columns of each filter come from where they came from, on both sides.
    The column binding resolver then finds every one of them. *)
Theorem unused_columns_keep_filters op w :
  removable op w = true →
  ∃ op' w' h, remove_unused_columns op w = Ret (op', w') ∧ columns op' = columns op ∧ scoped w'.(store) w'.(filters) op' = true ∧
    plan_filters op' = plan_filters op ∧ filter_sources w'.(filters) op' = filter_sources w.(filters) op ∧
    ofold resolve_task (plan_tasks op') w'.(filters) = Ret h ∧ resolved_in w'.(filters) h op'.
Proof.
  intros Hrm. destruct (remove_unused_columns_ok op w Hrm) as (op' & w' & E & [S1 S2 S3 S4 _] & Hcols & Hn & Hu & _).
  destruct (filters_resolved w'.(store) w'.(filters) op' S1 Hn Hu) as (h & Eh & Hh). by exists op', w', h.
Qed.

(** *** A query

    [SELECT t0.c2, t1.c1 FROM t0 JOIN t1 ON t0.c3 = t1.c2 WHERE t1.c1 > 1], with a filter built on [t1.c2]
    below the selection's result and applied to [t0.c3].  The scans read columns nobody asks for, so that
    the columns of the filter move. *)
Definition sample_columns_get (t : Z) (ids : list Z) : column_plan := Node (Get (mkGet t ids [] [] [] true true [])) [].

Definition sample_column_plan : column_plan :=
  Node (Projection 2 [ColumnRef 0; ColumnRef 1])
    [Node (ComparisonJoin (mkComparisonJoin INNER 0 [] [mkBoundCondition COMPARE_EQUAL (ColumnRef 2) (ColumnRef 3)] [] [] []))
      [Node (BloomOp false [0%nat]) [sample_columns_get 0 [0; 1; 2; 3]];
       Node (BloomOp true [0%nat]) [Node (Filter [Apply 1 [ColumnRef 4]] []) [sample_columns_get 1 [0; 1; 2]]]]].

Definition sample_columns_world : columns_world :=
  mkWorld (list_to_map [(0%nat, mkBinding 0 2); (1%nat, mkBinding 1 1); (2%nat, mkBinding 0 3); (3%nat, mkBinding 1 2); (4%nat, mkBinding 1 1)]) 5 3
    [mkBlockedBloomFilter [mkBinding 0 3] [mkBinding 1 2] [] [] 0 0 true None false].

Definition sample_removed : column_plan :=
  match remove_unused_columns sample_column_plan sample_columns_world with Ret (op, _) => op | _ => sample_column_plan end.

Lemma unused_columns_keep_filters_witness :
  removable sample_column_plan sample_columns_world = true ∧
  plan_tasks sample_removed = [(false, [mkBinding 0 0; mkBinding 0 1], 0%nat); (true, [mkBinding 1 0; mkBinding 1 1], 0%nat)] ∧
  ∃ op' w' h, remove_unused_columns sample_column_plan sample_columns_world = Ret (op', w') ∧ columns op' = columns sample_column_plan ∧ scoped w'.(store) w'.(filters) op' = true ∧
    plan_filters op' = plan_filters sample_column_plan ∧ filter_sources w'.(filters) op' = filter_sources sample_columns_world.(filters) sample_column_plan ∧
    ofold resolve_task (plan_tasks op') w'.(filters) = Ret h ∧ resolved_in w'.(filters) h op'.
Proof.
  split; [vm_compute; reflexivity|]. split; [vm_compute; reflexivity|]. apply (unused_columns_keep_filters sample_column_plan sample_columns_world). vm_compute. reflexivity.
Defined.
