(* ===== verification/ColumnLifetime.v ===== *)
(** * ColumnLifetime: columns are projected out early

    [ColumnLifetimeAnalyzer] of [optimizer/column_lifetime_analyzer.cpp], which
    runs twice after the unused columns are removed: it gives joins and
    selections projection maps, so that they only hand on columns that are
    referenced above.  Shown: the columns of filters below are still there. *)

From S2P Require Import Prelude BloomFilter LogicalPlan ColumnResolver PlanColumns RemoveColumns RemoveBase RemoveSpec RemoveFrames PlanFilters RemoveCases RemoveCorrect.
Local Open Scope Z_scope.
Local Open Scope machine_scope.

(** ** The analyzer *)

Abbreviation column_set := (gset ColumnBinding).

(** Whether all columns are referenced, and those that are. *)
Record ColumnLifetimeAnalyzer := mkAnalyzer { lifetime_all : bool; lifetime_references : column_set }.

(** [VisitReplace] of the references of an expression. *)
Fixpoint AddReferences (σ : binding_store) (e : bound_expression) (C : column_set) : outcome column_set :=
  match e with
  | ColumnRef p => let* b := deref (σ !! p) in Ret ({[b]} ∪ C)
  | Reference _ => Throw "BoundReferenceExpression should not be used here yet!"
  | Apply _ es => (fix go es C := match es with [] => Ret C | e :: es => let* C := AddReferences σ e C in go es C end) es C
  end.

Definition AddExpressions (σ : binding_store) (es : list bound_expression) (C : column_set) : outcome column_set := ofold (λ C e, AddReferences σ e C) es C.

Definition ExtractUnusedColumnBindings (C : column_set) (bs : list ColumnBinding) : column_set := list_to_set (base.filter (.∉ C) bs).

Definition GenerateProjectionMap (bs : list ColumnBinding) (unused : column_set) : list nat :=
  if decide (unused = ∅) then [] else
  let projection_map := List.filter (λ i, match bs !! i with Some b => bool_decide (b ∉ unused) | None => false end) (seq 0 (length bs)) in
  if (length projection_map =? length bs)%nat then [] else projection_map.

(** Joins that get a projection map. *)
Definition has_equality (j : LogicalComparisonJoin) : bool := existsb (λ c, bool_decide (c.(cond_comparison) = COMPARE_EQUAL)) j.(comp_conditions).

Definition maps_right (j : LogicalComparisonJoin) : bool := match j.(comp_type) with MARK | SEMI | ANTI => false | _ => has_equality j end.

Definition set_right_map (m : list nat) (j : LogicalComparisonJoin) : LogicalComparisonJoin :=
  mkComparisonJoin j.(comp_type) j.(comp_mark) j.(comp_duplicates) j.(comp_conditions) j.(comp_expressions) j.(left_projection_map) m.

Definition set_all (st : ColumnLifetimeAnalyzer) : ColumnLifetimeAnalyzer := mkAnalyzer true st.(lifetime_references).

Definition child_bindings (cs : list column_plan) (i : nat) : outcome (list ColumnBinding) := let* c := vec_at cs i in GetColumnBindings c.

(** [VisitOperatorChildren]: what is known is handed on from child to child. *)
Section Children.
  Context {S : Type} (visit : column_plan → S → outcome (column_plan * S)).

Fixpoint analyze_children (cs : list column_plan) (st : S) : outcome (list column_plan * S) :=
  match cs with
  | [] => Ret ([], st)
  | c :: cs => let* (c, st) := visit c st in let* (cs, st) := analyze_children cs st in Ret (c :: cs, st)
  end.
End Children.

(** The loop over the children of a set operation. *)
Section Each.
  Context (visit : column_plan → ColumnLifetimeAnalyzer → outcome (column_plan * ColumnLifetimeAnalyzer)).

Fixpoint analyze_each (cs : list column_plan) : outcome (list column_plan) :=
  match cs with
  | [] => Ret []
  | c :: cs => let* (c, _) := visit c (mkAnalyzer true ∅) in let* cs := analyze_each cs in Ret (c :: cs)
  end.
End Each.

Section Lifetime.
  Context (σ : binding_store).

Definition analyze_expressions (k : logical_kind) (st : ColumnLifetimeAnalyzer) : outcome ColumnLifetimeAnalyzer :=
  let* C := AddExpressions σ (EnumerateExpressions k) st.(lifetime_references) in Ret (mkAnalyzer st.(lifetime_all) C).

(** [VisitOperator], with [StandardVisitOperator]: that of a DELIM join visits
    the duplicate eliminated columns twice, which adds nothing. *)
Fixpoint AnalyzeOperator (op : column_plan) (st : ColumnLifetimeAnalyzer) : outcome (column_plan * ColumnLifetimeAnalyzer) :=
  let '(Node k cs) := op in
  let standard st :=
    let* st := analyze_expressions k st in
    let* (cs, st) := analyze_children AnalyzeOperator cs st in
    Ret (Node k cs, st) in
  match k with
  | Aggregate _ | Projection _ _ =>
      let* analyzer := analyze_expressions k (mkAnalyzer false ∅) in
      match cs with
      | [] => let* c := vec_at [] 0 in Ret (c, st)
      | c :: cs => let* (c, _) := AnalyzeOperator c analyzer in Ret (Node k (c :: cs), st)
      end
  | ComparisonJoin j =>
      if st.(lifetime_all) || negb (maps_right j) then standard st else
      let* st := analyze_expressions k st in
      let* _ := GetColumnBindings op in
      let* bs := child_bindings cs 1 in
      let unused_bindings := ExtractUnusedColumnBindings st.(lifetime_references) bs in
      let* (cs, st) := analyze_children AnalyzeOperator cs st in
      let* bs := child_bindings cs 1 in
      Ret (Node (ComparisonJoin (set_right_map (GenerateProjectionMap bs unused_bindings) j)) cs, st)
  | SetOp _ _ _ => let* cs := analyze_each AnalyzeOperator cs in Ret (Node k cs, st)
  | Order _ _ | Other Distinct _ _ => standard (set_all st)
  | Filter es _ =>
      if st.(lifetime_all) then standard st else
      let* st := analyze_expressions k st in
      let* bs := child_bindings cs 0 in
      let unused_bindings := ExtractUnusedColumnBindings st.(lifetime_references) bs in
      let* (cs, st) := analyze_children AnalyzeOperator cs st in
      let* bs := child_bindings cs 0 in
      Ret (Node (Filter es (GenerateProjectionMap bs unused_bindings)) cs, st)
  | _ => standard st
  end.
End Lifetime.

(** The call in [Optimizer::Optimize]. *)
Definition column_lifetime (op : column_plan) (w : columns_world) : outcome (column_plan * columns_world) :=
  let* (op, _) := AnalyzeOperator w.(store) op (mkAnalyzer true ∅) in Ret (op, w).

(** ** Plans with other projection maps *)

Definition erase_kind (k : logical_kind) : logical_kind :=
  match k with ComparisonJoin j => ComparisonJoin (set_right_map [] j) | Filter es _ => Filter es [] | _ => k end.

Fixpoint erase (op : column_plan) : column_plan := match op with Node k cs => Node (erase_kind k) (map erase cs) end.

(** The maps the pass relies on: it does not look at positions of columns it may
    take away. *)
Definition kind_mappable (k : logical_kind) : bool :=
  match k with
  | Get g => bool_decide (g.(projected_input) = [])
  | ComparisonJoin j => bool_decide (j.(left_projection_map) = []) && (maps_right j || bool_decide (j.(right_projection_map) = []))
  | Other _ _ (Joined _ _ lmap rmap) => bool_decide (lmap = []) && bool_decide (rmap = [])
  | _ => true
  end.

Fixpoint mappable (op : column_plan) : bool := match op with Node k cs => kind_mappable k && forallb mappable cs end.

(** No map at all will do. *)
Lemma unmapped_mappable op : unmapped op = true → mappable op = true.
Proof.
  induction op as [k cs IH] using column_plan_nested_ind. rewrite Forall_forall in IH. cbn [unmapped mappable]. intros [Hk Hc]%andb_true_iff. apply andb_true_iff. split.
  - destruct k as [g| | |j| | | | | |o es []]; try done. cbn [kind_unmapped kind_mappable] in *. apply andb_true_iff in Hk as [-> ->]. apply orb_true_r.
  - apply forallb_intro. intros c Hin. apply IH; [done|]. by eapply forallb_elem.
Qed.

Section Needed.
  Context (σ : binding_store) (F : list BlockedBloomFilter).

Lemma erase_EnumerateExpressions k : EnumerateExpressions (erase_kind k) = EnumerateExpressions k.
Proof. by destruct k. Qed.

Lemma erase_own_filters k : own_filters (erase_kind k) = own_filters k.
Proof. by destruct k. Qed.

Lemma erase_needed op : ∀ all D, needed σ F all D (erase op) = needed σ F all D op.
Proof.
  induction op as [k cs IH] using column_plan_nested_ind. rewrite Forall_forall in IH. intros all D. cbn [erase needed]. rewrite erase_EnumerateExpressions. unfold filters_in. rewrite erase_own_filters. f_equal.
  assert (∀ all D, forallb (needed σ F all D) (map erase cs) = forallb (needed σ F all D) cs) as H by (intros; by apply forallb_map_in; intros; apply IH).
  destruct k as [| | | | | | | | |o ? ?]; cbn [erase_kind]; by rewrite ?H.
Qed.

Lemma erase_filters op : plan_filters (erase op) = plan_filters op.
Proof. induction op as [k cs IH] using column_plan_nested_ind. rewrite Forall_forall in IH. cbn [erase plan_filters]. rewrite erase_own_filters. f_equal. f_equal. by apply map_map_in. Qed.

Lemma erase_refs op : plan_refs (erase op) = plan_refs op.
Proof.
  induction op as [k cs IH] using column_plan_nested_ind. rewrite Forall_forall in IH. cbn [erase plan_refs]. unfold own_refs. rewrite erase_EnumerateExpressions. f_equal. f_equal. by apply map_map_in.
Qed.

Lemma erase_source op b : source (erase op) b = source op b.
Proof.
  induction op as [k cs IH] using column_plan_nested_ind. rewrite Forall_forall in IH. cbn [erase source]. assert (passes (erase_kind k) = passes k ∧ kind_extra (erase_kind k) = kind_extra k) as [-> ->] by (by destruct k).
  destruct (passes k); [|by destruct k]. case_decide; [done|]. destruct cs as [|c [|]]; try done. apply IH. left.
Qed.

Lemma erase_sources op : filter_sources F (erase op) = filter_sources F op.
Proof.
  induction op as [k cs IH] using column_plan_nested_ind. rewrite Forall_forall in IH. cbn [erase filter_sources]. f_equal; [|f_equal; by apply map_map_in]. destruct k; try done. cbn [erase_kind own_filter_sources].
  apply list_fmap_ext. intros i x _. f_equal. apply list_fmap_ext. intros j b _. unfold child_source. destruct cs as [|c [|]]; try done. apply erase_source.
Qed.
End Needed.

(** ** What the pass keeps *)

Section Kept.
  Context (σ : binding_store) (F : list BlockedBloomFilter).

Lemma AddReferences_ok e : ∀ C, expr_unbound e = true → live σ (expr_refs e) → ∃ C', AddReferences σ e C = Ret C' ∧ ∀ b, b ∈ C' ↔ b ∈ C ∨ ∃ p, p ∈ expr_refs e ∧ σ !! p = Some b.
Proof.
  induction e as [p|i|f es IH] using bound_expression_nested_ind; intros C Hu Hl; [|done|].
  - destruct (Hl p) as [b Hb]; [left|]. exists ({[b]} ∪ C). cbn [AddReferences]. rewrite Hb. split; [done|]. intros b'. rewrite elem_of_union, elem_of_singleton. cbn [expr_refs]. setoid_rewrite list_elem_of_singleton. naive_solver congruence.
  - cbn [AddReferences expr_refs expr_unbound] in *. revert C. induction IH as [|e es He _ IH]; intros C; [exists C; split; [done|]; cbn; set_solver|].
    cbn [forallb map concat] in *. apply andb_true_iff in Hu as [Hu1 Hu2]. destruct (He C Hu1) as (C1 & E1 & H1); [intros p Hp; apply Hl, elem_of_app; by left|].
    destruct (IH Hu2 (λ p Hp, Hl p (proj2 (elem_of_app _ _ _) (or_intror Hp))) C1) as (C2 & E2 & H2). rewrite E1. cbn [obind]. exists C2. split; [done|]. intros b. rewrite H2, H1. setoid_rewrite elem_of_app. naive_solver.
Qed.

Lemma AddExpressions_ok es : ∀ C, forallb expr_unbound es = true → live σ (exprs_refs es) → ∃ C', AddExpressions σ es C = Ret C' ∧ ∀ b, b ∈ C' ↔ b ∈ C ∨ b ∈ bindings_of σ es.
Proof.
  setoid_rewrite elem_of_bindings. unfold exprs_refs. induction es as [|e es IH]; intros C Hu Hl; [exists C; split; [done|]; cbn; set_solver|].
  cbn [forallb map concat] in *. apply andb_true_iff in Hu as [Hu1 Hu2]. destruct (AddReferences_ok e C Hu1) as (C1 & E1 & H1); [intros p Hp; apply Hl, elem_of_app; by left|].
  destruct (IH C1 Hu2) as (C2 & E2 & H2); [intros p Hp; apply Hl, elem_of_app; by right|]. exists C2. unfold AddExpressions in *. cbn [ofold]. rewrite E1. cbn [obind]. split; [done|]. intros b. rewrite H2, H1. setoid_rewrite elem_of_app. naive_solver.
Qed.

(** One operator with fewer columns. *)
Record narrowed (st : ColumnLifetimeAnalyzer) (c c' : column_plan) : Prop := {
  n_scoped : scoped σ F c' = true;
  n_mappable : mappable c' = true;
  n_erase : erase c' = erase c;
  n_keep b : b ∈ columns c → b ∈ st.(lifetime_references) → b ∈ columns c';
  n_all : st.(lifetime_all) = true → columns c' = columns c
}.

(** What an analyzer knows grows. *)
Record grows (st st' : ColumnLifetimeAnalyzer) : Prop := {
  g_all : st.(lifetime_all) = true → st'.(lifetime_all) = true;
  g_refs b : b ∈ st.(lifetime_references) → b ∈ st'.(lifetime_references)
}.

Lemma grows_refl st : grows st st.
Proof. by split. Qed.

Lemma grows_trans st st1 st2 : grows st st1 → grows st1 st2 → grows st st2.
Proof. intros [A1 A2] [B1 B2]. split; auto. Qed.

Lemma narrowed_earlier st st1 c c' : grows st st1 → narrowed st1 c c' → narrowed st c c'.
Proof. intros [A1 A2] [N1 N2 N3 N4 N5]. split; auto. Qed.

Definition covers (st : ColumnLifetimeAnalyzer) (all : bool) (D : list ColumnBinding) : Prop :=
  st.(lifetime_all) = true ∨ (all = false ∧ ∀ b, b ∈ D → b ∈ st.(lifetime_references)).

Lemma covers_grows st st' all D : covers st all D → grows st st' → covers st' all D.
Proof. intros [?|[? H]] [A1 A2]; [left; auto|right; auto]. Qed.

Definition analyzed (c : column_plan) : Prop :=
  ∀ st all D, scoped σ F c = true → mappable c = true → needed σ F all D c = true → covers st all D → ∃ c' st', AnalyzeOperator σ c st = Ret (c', st') ∧ narrowed st c c' ∧ grows st st'.

Lemma analyze_children_ok cs all D : ∀ st,
  Forall analyzed cs → forallb (scoped σ F) cs = true → forallb mappable cs = true → forallb (needed σ F all D) cs = true → covers st all D →
  ∃ cs' st', analyze_children (AnalyzeOperator σ) cs st = Ret (cs', st') ∧ Forall2 (narrowed st) cs cs' ∧ grows st st'.
Proof.
  induction cs as [|c cs IH]; intros st HP Hs Hm Hn Hc; [exists [], st; split_and!; [done|constructor|apply grows_refl]|].
  apply Forall_cons in HP as [HP1 HP2]. cbn [forallb] in *. apply andb_true_iff in Hs as [Hs1 Hs2], Hm as [Hm1 Hm2], Hn as [Hn1 Hn2].
  destruct (HP1 st all D Hs1 Hm1 Hn1 Hc) as (c' & st1 & E1 & N1 & G1). destruct (IH st1 HP2 Hs2 Hm2 Hn2 (covers_grows _ _ _ _ Hc G1)) as (cs' & st2 & E2 & N2 & G2).
  exists (c' :: cs'), st2. cbn [analyze_children]. rewrite E1. cbn [obind]. rewrite E2. cbn [obind]. split_and!; [done| |by eapply grows_trans].
  constructor; [done|]. eapply Forall2_impl; [exact N2|]. intros d d'. by apply narrowed_earlier.
Qed.

Lemma analyze_each_ok cs :
  Forall analyzed cs → forallb (scoped σ F) cs = true → forallb mappable cs = true → forallb (needed σ F true []) cs = true →
  ∃ cs', analyze_each (AnalyzeOperator σ) cs = Ret cs' ∧ Forall2 (narrowed (mkAnalyzer true ∅)) cs cs'.
Proof.
  induction cs as [|c cs IH]; intros HP Hs Hm Hn; [exists []; split; [done|constructor]|].
  apply Forall_cons in HP as [HP1 HP2]. cbn [forallb] in *. apply andb_true_iff in Hs as [Hs1 Hs2], Hm as [Hm1 Hm2], Hn as [Hn1 Hn2].
  destruct (HP1 (mkAnalyzer true ∅) true [] Hs1 Hm1 Hn1) as (c' & st1 & E1 & N1 & G1); [by left|]. destruct (IH HP2 Hs2 Hm2 Hn2) as (cs' & E2 & N2).
  exists (c' :: cs'). cbn [analyze_each]. rewrite E1. cbn [obind]. rewrite E2. split; [done|by constructor].
Qed.

(** References and filters that are kept below. *)
Lemma kind_scoped_narrow k (K : ColumnBinding → Prop) css css' :
  kind_scoped σ F k css = true → (∀ s t n, k ≠ SetOp s t n) → (∀ p b, p ∈ own_refs k → σ !! p = Some b → K b) →
  (∀ c x cols v, (c, x) ∈ own_filters k → filter_cols F c x = Some cols → v ∈ cols → K v) → Forall2 (λ l l', ∀ b, b ∈ l → K b → b ∈ l') css css' →
  kind_scoped σ F k css' = true.
Proof.
  intros Hs Hno HK HF HL.
  assert (∀ l l' es, (∀ p, p ∈ exprs_refs es → p ∈ own_refs k) → (∀ b, b ∈ l → K b → b ∈ l') → exprs_in σ l es = true → exprs_in σ l' es = true) as Hes.
  { intros l l' es Hsub Hl He. apply exprs_in_intro; [by eapply exprs_in_unbound|]. intros p Hp. destruct (exprs_in_live _ _ _ p He Hp) as (b & Hb & Hbl). exists b. split; [done|]. apply Hl; [done|]. apply (HK p); auto. }
  assert (∀ b, b ∈ concat css → K b → b ∈ concat css') as Hconcat.
  { intros b. clear -HL. induction HL as [|l l' css css' Hl _ IH]; [done|]. cbn [concat]. rewrite !elem_of_app. naive_solver. }
  assert (∀ c, css = [c] → ∃ c', css' = [c'] ∧ ∀ b, b ∈ c → K b → b ∈ c') as H1.
  { intros c ->. destruct (Forall2_cons_inv_l _ _ _ _ HL) as (c' & r & Hc & HL' & ->). apply Forall2_nil_inv_l in HL' as ->. eauto. }
  destruct k as [g|t es|a|j|s t n|os ps|es pm|create bfs|es ex cols|o es out]; cbn [kind_scoped] in Hs; [exact Hs| | | |by destruct (Hno s t n eq_refl)| | | | |].
  all: try (destruct css as [|c [|]]; [done| |done]; destruct (H1 c eq_refl) as (c' & -> & Hc)); cbn [kind_scoped].
  - by apply (Hes c).
  - by apply (Hes c).
  - clear H1. destruct css as [|l [|r [|]]]; try done. destruct (Forall2_cons_inv_l _ _ _ _ HL) as (l' & r0 & Hl & HL' & ->). destruct (Forall2_cons_inv_l _ _ _ _ HL') as (r' & r1 & Hr & HL'' & ->). apply Forall2_nil_inv_l in HL'' as ->.
    apply andb_true_iff in Hs as [He Hc]. cbn [concat] in Hconcat. rewrite !app_nil_r in Hconcat. apply andb_true_iff. split; [apply (Hes (l ++ r)); [|done|done]; intros p Hp; apply (join_own_refs j p); by left|].
    apply forallb_intro. intros c Hin. apply (forallb_elem _ _ c) in Hc; [|done]. apply andb_true_iff in Hc as [Hcl Hcr]. assert (∀ e, exprs_refs [e] = expr_refs e) as E1 by (intros e; unfold exprs_refs; simpl; by rewrite app_nil_r).
    apply andb_true_iff. split; [apply (Hes l)|apply (Hes r)]; try done; intros p; rewrite E1; intros Hp; apply (join_own_refs j p); right; exists c; auto.
  - by apply (Hes c).
  - by apply (Hes c).
  - apply forallb_intro. intros x Hx. apply (forallb_elem _ _ x) in Hs; [|done]. unfold filter_in in *. destruct (filter_cols F create x) as [cols|] eqn:E; [|done]. apply andb_true_iff in Hs as [-> Hs]. apply forallb_intro. intros v Hv.
    apply (forallb_elem _ _ v) in Hs; [|done]. apply bool_decide_eq_true in Hs. apply bool_decide_eq_true. apply Hc; [done|]. apply (HF create x cols v); [by apply list_elem_of_fmap_2|done|done].
  - apply (Hes (ex ++ c)); [done| |done]. intros b. rewrite !elem_of_app. naive_solver.
  - by apply (Hes (concat css)).
Qed.

Lemma select_all_related {A} (P : A → A → Prop) l l' is' ls :
  Forall2 P l l' → select_all l is' = Ret ls → ∃ ls', select_all l' is' = Ret ls' ∧ Forall2 P ls ls'.
Proof.
  intros HF. revert ls. induction is' as [|i is' IH]; intros ls; cbn [select_all]; [intros [= <-]; by exists []|]. unfold vec_at at 1. destruct (l !! i) as [x|] eqn:Ex; [|done]. cbn [obind].
  destruct (select_all l is') as [r| | |]; try done. intros [= <-]. destruct (IH r eq_refl) as (r' & -> & Hr). destruct (Forall2_lookup_l _ _ _ _ _ HF Ex) as (x' & Ex' & Hx). exists (x' :: r').
  unfold vec_at. rewrite Ex'. split; [done|by constructor].
Qed.

(** The columns of [C] are kept. *)
Definition keeps (C : column_set) (l l' : list ColumnBinding) : Prop := ∀ b, b ∈ l → b ∈ C → b ∈ l'.

Lemma keeps_concat C ls ls' : Forall2 (keeps C) ls ls' → keeps C (concat ls) (concat ls').
Proof. induction 1 as [|l l' ls ls' H _ IH]; [by intros b|]. intros b. cbn [concat]. rewrite !elem_of_app. intros [?|?] ?; auto. Qed.

Lemma narrowed_keeps st cs cs' : Forall2 (narrowed st) cs cs' → Forall2 (keeps st.(lifetime_references)) (columns <$> cs) (columns <$> cs') ∧ forallb has_columns cs' = true ∧
  map erase cs' = map erase cs ∧ forallb (scoped σ F) cs' = true ∧ forallb mappable cs' = true ∧ (st.(lifetime_all) = true → columns <$> cs' = columns <$> cs).
Proof.
  induction 1 as [|c c' cs cs' [N1 N2 N3 N5 N6] _ (I1 & I2 & I3 & I4 & I5 & I6)]; [done|]. csimpl. rewrite N1, N2, N3, I3, I4, I5, (scoped_has_columns _ _ _ N1). split_and!; try done.
  - by constructor.
  - intros Ha. by rewrite (N6 Ha), (I6 Ha).
Qed.

Lemma columns_same k cs cs' :
  forallb has_columns cs = true → forallb has_columns cs' = true → columns <$> cs' = columns <$> cs → has_columns (Node k cs) = true → columns (Node k cs') = columns (Node k cs) ∧ has_columns (Node k cs') = true.
Proof. intros H1 H2 E Hh. apply columns_node; [done|]. rewrite E. by apply node_columns. Qed.

Lemma columns_exported k cs cs' C :
  by_default k = true → maps_empty k → forallb has_columns cs = true → forallb has_columns cs' = true → has_columns (Node k cs) = true → Forall2 (keeps C) (columns <$> cs) (columns <$> cs') →
  has_columns (Node k cs') = true ∧ keeps C (columns (Node k cs)) (columns (Node k cs')).
Proof.
  intros Hk Hm H1 H2 Hh HF. pose proof (node_columns k cs H1 Hh) as E. rewrite kind_columns_exports in E by done. destruct (select_all (columns <$> cs) (exports k)) as [ls| | |] eqn:Es; try done. cbn [obind] in E. injection E as E.
  destruct (select_all_related _ _ _ _ _ HF Es) as (ls' & Es' & HF'). destruct (columns_node k cs' (concat ls' ++ kind_extra k) H2) as [-> ->]; [by rewrite kind_columns_exports, Es' by done|]. split; [done|]. rewrite <- E.
  intros b. rewrite !elem_of_app. intros [?|?] ?; [left; by apply (keeps_concat _ _ _ HF')|by right].
Qed.

(** An operator over children with fewer columns. *)
Lemma narrow_node st k k' cs cs' :
  Forall2 (narrowed st) cs cs' → kind_mappable k' = true → erase_kind k' = erase_kind k → has_columns (Node k' cs') = true → kind_scoped σ F k' (columns <$> cs') = true →
  keeps st.(lifetime_references) (columns (Node k cs)) (columns (Node k' cs')) →
  (st.(lifetime_all) = true → columns (Node k' cs') = columns (Node k cs)) → narrowed st (Node k cs) (Node k' cs').
Proof.
  intros HF Hm He Hh Hs H1 H2. destruct (narrowed_keeps _ _ _ HF) as (_ & _ & I3 & I4 & I5 & _). split; try done.
  - cbn [scoped]. by rewrite Hh, Hs, I4.
  - cbn [mappable]. by rewrite Hm, I5.
  - cbn [erase]. by rewrite He, I3.
Qed.

Lemma expressions_ok k css st : kind_scoped σ F k css = true →
  ∃ C, analyze_expressions σ k st = Ret (mkAnalyzer st.(lifetime_all) C) ∧ ∀ b, b ∈ C ↔ b ∈ st.(lifetime_references) ∨ b ∈ bindings_of σ (EnumerateExpressions k).
Proof.
  intros Hs. destruct (kind_scoped_refs _ _ _ _ Hs) as [Hu Hl]. destruct (AddExpressions_ok (EnumerateExpressions k) st.(lifetime_references) Hu) as (C & E & HC).
  { intros p Hp. destruct (Hl p Hp) as (b & -> & _). eauto. }
  exists C. unfold analyze_expressions. rewrite E. done.
Qed.

(** The expressions of an operator, then its children. *)
Lemma descend_ok k cs st all D :
  Forall analyzed cs → scoped σ F (Node k cs) = true → mappable (Node k cs) = true → forallb (needed σ F all (D ++ bindings_of σ (EnumerateExpressions k))) cs = true → covers st all D →
  ∃ C cs' st', let st1 := mkAnalyzer st.(lifetime_all) C in analyze_expressions σ k st = Ret st1 ∧ analyze_children (AnalyzeOperator σ) cs st1 = Ret (cs', st') ∧ Forall2 (narrowed st1) cs cs' ∧
    grows st st1 ∧ grows st st' ∧ ∀ p b, p ∈ own_refs k → σ !! p = Some b → b ∈ C.
Proof.
  intros HP (_ & Hs & Hcs)%scoped_node [_ Hms]%andb_true_iff Hn Hc. destruct (expressions_ok k (columns <$> cs) st Hs) as (C & E & HC). set (st1 := mkAnalyzer st.(lifetime_all) C).
  assert (grows st st1) as G1 by (split; [done|]; intros b ?; apply HC; by left).
  assert (covers st1 all (D ++ bindings_of σ (EnumerateExpressions k))) as Hc1 by (destruct Hc as [?|[? Hc]]; [by left|right; split; [done|]; intros b [?|?]%elem_of_app; apply HC; auto]).
  destruct (analyze_children_ok cs all _ st1 HP Hcs Hms Hn Hc1) as (cs' & st2 & E2 & HF & G2). exists C, cs', st2. split_and!; [done|done|done|done|by eapply grows_trans|].
  intros p b Hp Hb. apply HC. right. apply elem_of_bindings. eauto.
Qed.

(** Operators that are visited without a projection map of their own. *)
Definition plain_kind (k : logical_kind) : Prop :=
  match k with
  | Get g => g.(projected_input) = []
  | Modify _ _ _ => True
  | _ => by_default k = true ∧ maps_empty k
  end.

Definition standard (k : logical_kind) (cs : list column_plan) (st : ColumnLifetimeAnalyzer) : outcome (column_plan * ColumnLifetimeAnalyzer) :=
  let* st := analyze_expressions σ k st in let* (cs, st) := analyze_children (AnalyzeOperator σ) cs st in Ret (Node k cs, st).

Lemma kind_columns_keep k cs cs' C :
  plain_kind k → forallb has_columns cs = true → forallb has_columns cs' = true → has_columns (Node k cs) = true → Forall2 (keeps C) (columns <$> cs) (columns <$> cs') →
  has_columns (Node k cs') = true ∧ keeps C (columns (Node k cs)) (columns (Node k cs')).
Proof.
  intros Hp H1 H2 Hh HF. destruct k; try (by destruct Hp; apply columns_exported).
  - cbn [plain_kind] in Hp. unfold has_columns, columns. cbn [GetColumnBindings kind_columns]. unfold table_get_columns. rewrite Hp. case_decide; [|rewrite decide_True by done]; (split; [done|by intros b]).
  - split; [done|by intros b].
Qed.

Lemma standard_ok k cs st all D :
  Forall analyzed cs → scoped σ F (Node k cs) = true → mappable (Node k cs) = true → (∀ s t n, k ≠ SetOp s t n) → st.(lifetime_all) = true ∨ plain_kind k →
  all || filters_in F D k = true → forallb (needed σ F all (D ++ bindings_of σ (EnumerateExpressions k))) cs = true → covers st all D →
  ∃ op' st', standard k cs st = Ret (op', st') ∧ narrowed st (Node k cs) op' ∧ grows st st'.
Proof.
  intros HP Hsc Hma Hno Hplain Hf Hn Hc. destruct (descend_ok k cs st all D HP Hsc Hma Hn Hc) as (C & cs' & st2 & E & E2 & HF & G1 & G2 & HC). destruct (scoped_node _ _ _ _ Hsc) as (Hh & Hs & Hcs). apply andb_true_iff in Hma as [Hm _].
  exists (Node k cs'), st2. unfold standard. rewrite E. cbn [obind]. rewrite E2. split_and!; [done| |done].
  eapply narrowed_earlier; [exact G1|]. destruct (narrowed_keeps _ _ _ HF) as (Hfew & Hh' & _ & _ & _ & Hall). pose proof (scoped_children _ _ _ Hcs) as Hhc. destruct (st.(lifetime_all)) eqn:Ea.
  - destruct (columns_same k cs cs' Hhc Hh' (Hall eq_refl) Hh) as [Ec Hh1]. apply narrow_node; try done; [by rewrite (Hall eq_refl)|by intros b; rewrite Ec].
  - destruct Hplain as [?|Hplain]; [done|]. destruct (kind_columns_keep k cs cs' C Hplain Hhc Hh' Hh Hfew) as (Hh1 & Hkeep). apply narrow_node; try done.
    apply (kind_scoped_narrow k (.∈ C) (columns <$> cs)); [done|done| | |done].
    + done.
    + intros c x cols v Hx Hcols Hv. destruct Hc as [Hc|[-> Hc]]; [congruence|]. simpl in Hf. apply (forallb_elem _ _ (c, x)) in Hf; [|done]. cbn [fst snd] in Hf. rewrite Hcols in Hf.
      apply (forallb_elem _ _ v) in Hf; [|done]. apply bool_decide_eq_true in Hf. by apply (g_refs _ _ G1), Hc.
Qed.

(** ** Projection maps *)

Lemma projection_map_keeps C bs bs' : keeps C bs bs' → keeps C bs (MapBindings bs' (GenerateProjectionMap bs' (ExtractUnusedColumnBindings C bs))).
Proof.
  intros Hk b Hb HC. specialize (Hk b Hb HC). set (unused := ExtractUnusedColumnBindings C bs). unfold MapBindings. case_decide as Hm; [done|]. unfold GenerateProjectionMap in *. case_decide; [done|].
  destruct (_ =? _)%nat; [done|]. apply list_elem_of_lookup in Hk as [i Hi]. apply list_elem_of_omap. exists i. split; [|done]. apply list_elem_of_In, filter_In. split; [apply in_seq; apply lookup_lt_Some in Hi; lia|].
  rewrite Hi. apply bool_decide_eq_true. unfold unused, ExtractUnusedColumnBindings. rewrite elem_of_list_to_set, list_elem_of_filter. naive_solver.
Qed.

Lemma child_bindings_ok cs i c : forallb has_columns cs = true → cs !! i = Some c → child_bindings cs i = Ret (columns c).
Proof. intros Hh Hi. unfold child_bindings, vec_at. rewrite Hi. cbn [obind]. apply GetColumnBindings_Ret. eapply forallb_elem; [done|]. by eapply list_elem_of_lookup_2. Qed.

Lemma join_map_keeps jt mark rm C l r l' r' cols :
  match jt with MARK | SEMI | ANTI => False | _ => True end → join_columns jt mark [] rm (Ret l) (Ret r) = Ret cols → keeps C l l' → keeps C r r' →
  ∃ cols', join_columns jt mark [] (GenerateProjectionMap r' (ExtractUnusedColumnBindings C r)) (Ret l') (Ret r') = Ret cols' ∧ keeps C cols cols'.
Proof.
  intros Hjt E Hl Hr. pose proof (projection_map_keeps C r r' Hr) as Hm. assert (∀ b, b ∈ MapBindings r rm → b ∈ r) as Hrm by (intros b; apply elem_of_MapBindings).
  destruct jt; try done; cbn in E |- *; injection E as <-; (eexists; split; [done|]); intros b; unfold MapBindings at 1; rewrite ?elem_of_app; intuition auto.
Qed.

(** A join that gets a projection map. *)
Lemma mapped_join_ok j cs st all D :
  Forall analyzed cs → scoped σ F (Node (ComparisonJoin j) cs) = true → mappable (Node (ComparisonJoin j) cs) = true → maps_right j = true → st.(lifetime_all) = false →
  forallb (needed σ F all (D ++ bindings_of σ (EnumerateExpressions (ComparisonJoin j)))) cs = true → covers st all D →
  ∃ op' st', AnalyzeOperator σ (Node (ComparisonJoin j) cs) st = Ret (op', st') ∧ narrowed st (Node (ComparisonJoin j) cs) op' ∧ grows st st'.
Proof.
  intros HP Hsc Hma Hmr Hev Hn Hc. destruct (descend_ok _ _ _ _ _ HP Hsc Hma Hn Hc) as (C & cs' & st2 & E & E2 & HF & G1 & G2 & HC). destruct (scoped_node _ _ _ _ Hsc) as (Hh & Hs & Hcs). apply andb_true_iff in Hma as [Hm _]. set (k := ComparisonJoin j) in *.
  destruct (narrowed_keeps _ _ _ HF) as (Hkeep & Hh' & _). pose proof (scoped_children _ _ _ Hcs) as Hhc.
  assert (∃ l r, cs = [l; r]) as (l & r & ->) by (cbn [k kind_scoped] in Hs; destruct cs as [|l [|r [|]]]; try done; eauto).
  assert (∃ l' r', cs' = [l'; r']) as (l' & r' & ->) by (apply Forall2_length in HF; destruct cs' as [|l' [|r' [|]]]; try done; eauto).
  set (m := GenerateProjectionMap (columns r') (ExtractUnusedColumnBindings C (columns r))). exists (Node (ComparisonJoin (set_right_map m j)) [l'; r']), st2.
  cbn [kind_mappable k] in Hm. apply andb_true_iff in Hm as [Hlm%bool_decide_eq_true _]. cbn [fmap list_fmap] in Hkeep. apply Forall2_cons in Hkeep as [Kl [Kr _]%Forall2_cons].
  pose proof (node_columns k [l; r] Hhc Hh) as Ecol. cbn in Ecol. rewrite Hlm in Ecol.
  destruct (join_map_keeps j.(comp_type) j.(comp_mark) _ C _ _ (columns l') (columns r') _ ltac:(unfold maps_right in Hmr; by destruct (comp_type j)) Ecol Kl Kr) as (cols' & Ecol' & Hkc). fold m in Ecol'.
  destruct (columns_node (ComparisonJoin (set_right_map m j)) [l'; r'] cols' Hh') as [Ec Hh1]; [cbn; by rewrite Hlm|].
  split_and!; [| |done].
  - unfold k at 1. cbn [AnalyzeOperator]. rewrite Hev, Hmr. cbn [negb orb]. fold k. rewrite E. cbn [obind]. rewrite (GetColumnBindings_Ret _ Hh). cbn [obind]. rewrite (child_bindings_ok _ 1 r Hhc eq_refl). cbn [obind]. rewrite E2. cbn [obind].
    by rewrite (child_bindings_ok _ 1 r' Hh' eq_refl).
  - eapply narrowed_earlier; [exact G1|]. apply narrow_node; try done.
    + cbn [kind_mappable]. unfold maps_right, has_equality in *. cbn [set_right_map left_projection_map comp_type comp_conditions]. rewrite Hmr. apply andb_true_iff. split; [by apply bool_decide_eq_true|done].
    + apply (kind_scoped_narrow k (.∈ C) (columns <$> [l; r])); [done|done|done|by intros ? ? ? ? ?%elem_of_nil|by constructor; [|constructor]].
    + by rewrite Ec.
    + intros Ha. cbn [lifetime_all] in Ha. congruence.
Qed.

(** A selection that gets one. *)
Lemma mapped_filter_ok es pm cs st all D :
  Forall analyzed cs → scoped σ F (Node (Filter es pm) cs) = true → mappable (Node (Filter es pm) cs) = true → st.(lifetime_all) = false →
  forallb (needed σ F all (D ++ bindings_of σ es)) cs = true → covers st all D →
  ∃ op' st', AnalyzeOperator σ (Node (Filter es pm) cs) st = Ret (op', st') ∧ narrowed st (Node (Filter es pm) cs) op' ∧ grows st st'.
Proof.
  intros HP Hsc Hma Hev Hn Hc. destruct (descend_ok (Filter es pm) _ _ _ _ HP Hsc Hma Hn Hc) as (C & cs' & st2 & E & E2 & HF & G1 & G2 & HC). destruct (scoped_node _ _ _ _ Hsc) as (Hh & Hs & Hcs). set (k := Filter es pm) in *.
  destruct (narrowed_keeps _ _ _ HF) as (Hkeep & Hh' & _). pose proof (scoped_children _ _ _ Hcs) as Hhc.
  assert (∃ c, cs = [c]) as (c & ->) by (cbn [k kind_scoped] in Hs; destruct cs as [|c [|]]; try done; eauto).
  assert (∃ c', cs' = [c']) as (c' & ->) by (apply Forall2_length in HF; destruct cs' as [|c' [|]]; try done; eauto).
  set (m := GenerateProjectionMap (columns c') (ExtractUnusedColumnBindings C (columns c))). exists (Node (Filter es m) [c']), st2. cbn [fmap list_fmap] in Hkeep. apply Forall2_cons in Hkeep as [Kc _].
  pose proof (node_columns k [c] Hhc Hh) as Ecol. cbn in Ecol. injection Ecol as Ecol. destruct (columns_node (Filter es m) [c'] (MapBindings (columns c') m) Hh') as [Ec Hh1]; [done|].
  split_and!; [| |done].
  - unfold k at 1. cbn [AnalyzeOperator]. rewrite Hev. fold k. rewrite E. cbn [obind]. rewrite (child_bindings_ok _ 0 c Hhc eq_refl). cbn [obind]. rewrite E2. cbn [obind]. by rewrite (child_bindings_ok _ 0 c' Hh' eq_refl).
  - eapply narrowed_earlier; [exact G1|]. apply narrow_node; try done.
    + apply (kind_scoped_narrow k (.∈ C) (columns <$> [c])); [done|done|done|by intros ? ? ? ? ?%elem_of_nil|by constructor].
    + rewrite Ec, <- Ecol. intros b Hb. apply elem_of_MapBindings in Hb. by apply projection_map_keeps.
    + intros Ha. cbn [lifetime_all] in Ha. congruence.
Qed.

(** ** All operators *)

Lemma below_analyzed k cs st :
  match k with Aggregate _ | Projection _ _ => True | _ => False end → Forall analyzed cs → scoped σ F (Node k cs) = true → mappable (Node k cs) = true →
  forallb (needed σ F false (bindings_of σ (EnumerateExpressions k))) cs = true →
  ∃ op' st', AnalyzeOperator σ (Node k cs) st = Ret (op', st') ∧ narrowed st (Node k cs) op' ∧ grows st st'.
Proof.
  intros Hk HP (Hh & Hs & Hcs)%scoped_node [Hm Hms]%andb_true_iff Hn. destruct (expressions_ok k (columns <$> cs) (mkAnalyzer false ∅) Hs) as (C & E & HC). cbn [lifetime_all lifetime_references] in *.
  assert (∃ c, cs = [c]) as (c & ->) by (destruct k; try done; cbn [kind_scoped] in Hs; destruct cs as [|c [|]]; try done; eauto).
  apply Forall_cons in HP as [HP _]. cbn [forallb] in Hcs, Hms, Hn. rewrite andb_true_r in Hcs, Hms, Hn. destruct (HP (mkAnalyzer false C) false _ Hcs Hms Hn) as (c' & st1 & E1 & N1 & _); [right; split; [done|]; intros b ?; apply HC; by right|].
  exists (Node k [c']), st. split_and!; [|split|apply grows_refl].
  - destruct k; try done; cbn [AnalyzeOperator]; rewrite E; cbn [obind]; by rewrite E1.
  - cbn [scoped forallb]. rewrite (n_scoped _ _ _ N1), andb_true_r. apply andb_true_iff. split; [by destruct k|]. apply (kind_scoped_narrow k (.∈ C) [columns c]); [done|by destruct k| |by destruct k; try done; intros ? ? ? ? ?%elem_of_nil|].
    + intros p b Hp Hb. apply HC. right. apply elem_of_bindings. eauto.
    + constructor; [|constructor]. exact (n_keep _ _ _ N1).
  - cbn [mappable forallb]. by rewrite Hm, (n_mappable _ _ _ N1).
  - cbn [erase map]. by rewrite (n_erase _ _ _ N1).
  - intros b Hb _. by destruct k.
  - intros _. by destruct k.
Qed.

Lemma set_op_analyzed s t n cs st :
  Forall analyzed cs → scoped σ F (Node (SetOp s t n) cs) = true → mappable (Node (SetOp s t n) cs) = true → forallb (needed σ F true []) cs = true →
  ∃ op' st', AnalyzeOperator σ (Node (SetOp s t n) cs) st = Ret (op', st') ∧ narrowed st (Node (SetOp s t n) cs) op' ∧ grows st st'.
Proof.
  intros HP (Hh & Hs & Hcs)%scoped_node [Hm Hms]%andb_true_iff Hn. destruct (analyze_each_ok cs HP Hcs Hms Hn) as (cs' & E & HF). destruct (narrowed_keeps _ _ _ HF) as (_ & Hh' & He & Hsc & Hma & Hall).
  exists (Node (SetOp s t n) cs'), st. split_and!; [|split|apply grows_refl]; try done.
  - cbn [AnalyzeOperator]. by rewrite E.
  - cbn [scoped]. by rewrite (Hall eq_refl), Hs, Hsc.
  - cbn [erase]. by rewrite He.
Qed.

Lemma AnalyzeOperator_ok op : analyzed op.
Proof.
  induction op as [k cs IH] using column_plan_nested_ind. intros st all D Hs Hm Hn Hc. cbn [needed] in Hn. apply andb_true_iff in Hn as [Hf Hn]. pose proof (standard_ok k cs st all D IH Hs Hm) as Hstd.
  pose proof Hm as [Hkm _]%andb_true_iff. destruct k as [g|t es|a|j|s t n|os ps|es pm|create bfs|es ex cols|o es out].
  - apply Hstd; [done| |done|done|done]. right. by apply bool_decide_eq_true in Hkm.
  - by apply below_analyzed.
  - by apply below_analyzed.
  - cbn [kind_mappable] in Hkm. apply andb_true_iff in Hkm as [Hl%bool_decide_eq_true Hr]. destruct (st.(lifetime_all) || negb (maps_right j)) eqn:E.
    + destruct Hstd as (op' & st' & E' & H'); [done| |done|done|done|].
      { apply orb_true_iff in E as [?|E%negb_true_iff]; [by left|right]. rewrite E in Hr. apply bool_decide_eq_true in Hr. done. }
      exists op', st'. split; [|done]. cbn [AnalyzeOperator]. by rewrite E.
    + apply orb_false_iff in E as [Hev Hmr%negb_false_iff]. by eapply mapped_join_ok.
  - by apply set_op_analyzed.
  - destruct (standard_ok (Order os ps) cs (set_all st) true D IH Hs Hm) as (op' & st' & E & N & G); [done|by left|done|done|by left|]. exists op', st'. split_and!; [done| |by eapply grows_trans; [|exact G]; split].
    eapply narrowed_earlier; [|exact N]. by split.
  - destruct (st.(lifetime_all)) eqn:Hev; [|by eapply mapped_filter_ok]. destruct Hstd as (op' & st' & E' & H'); [done|by left|done|done|done|]. exists op', st'. split; [|done]. cbn [AnalyzeOperator]. by rewrite Hev.
  - apply Hstd; try done. right. done.
  - apply Hstd; try done. by right.
  - destruct o; try (apply Hstd; [done| |done|done|done]; right; split; [done|]; cbn [maps_empty kind_mappable] in *; destruct out; try done; by apply andb_true_iff in Hkm as [?%bool_decide_eq_true ?%bool_decide_eq_true]).
    destruct (standard_ok (Other Distinct es out) cs (set_all st) true D IH Hs Hm) as (op' & st' & E & N & G); [done|by left|done|done|by left|]. exists op', st'. split_and!; [done| |by eapply grows_trans; [|exact G]; split].
    eapply narrowed_earlier; [|exact N]. by split.
Qed.
End Kept.

(** ** The pass *)

(** The plans the pass is shown to be right about. *)
Definition analyzable (op : column_plan) (w : columns_world) : bool :=
  scoped w.(store) w.(filters) op && mappable op && needed w.(store) w.(filters) true [] op && bool_decide (NoDup (plan_filters op)) && unresolved w.(filters) op.

(** The pass returns, changes nothing but projection maps, and not the columns of the plan; all references and
    all columns of filters are still columns of the operators below.  It can be run again, as the optimizer does. *)
Lemma column_lifetime_ok op w :
  analyzable op w = true → ∃ op', column_lifetime op w = Ret (op', w) ∧ analyzable op' w = true ∧ erase op' = erase op ∧ columns op' = columns op.
Proof.
  unfold analyzable. rewrite !andb_true_iff, !bool_decide_eq_true. intros [[[[Hs Hm] Hn] Hd] Hu].
  destruct (AnalyzeOperator_ok w.(store) w.(filters) op (mkAnalyzer true ∅) true [] Hs Hm Hn) as (op' & st' & E & [N1 N2 N3 N4 N5] & _); [by left|].
  assert (plan_filters op' = plan_filters op) as Ef by (by rewrite <- erase_filters, N3, erase_filters).
  exists op'. unfold column_lifetime. rewrite E. split_and!; [done| |done|by apply N5]. rewrite !andb_true_iff, bool_decide_eq_true. split_and!; try done.
  - by rewrite <- erase_needed, N3, erase_needed.
  - by rewrite Ef.
  - unfold unresolved. by rewrite Ef.
Qed.

(** On such plans the column binding resolver finds the columns of filters. *)
Lemma analyzable_resolved op w : analyzable op w = true → ∃ h, ofold resolve_task (plan_tasks op) w.(filters) = Ret h ∧ resolved_in w.(filters) h op.
Proof. unfold analyzable. rewrite !andb_true_iff, !bool_decide_eq_true. intros [[[[Hs _] _] Hd] Hu]. by eapply filters_resolved. Qed.

(** What removing columns leaves can be analyzed. *)
Lemma removed_analyzable op w :
  removable op w = true → unmapped op = true → demanded_later w.(store) w.(filters) true [] op = true →
  ∃ op' w', remove_unused_columns op w = Ret (op', w') ∧ analyzable op' w' = true ∧ columns op' = columns op ∧ filter_sources w'.(filters) op' = filter_sources w.(filters) op.
Proof.
  intros Hr Hm Hd. destruct (remove_unused_columns_ok op w Hr) as (op' & w' & E & [S1 S2 S3 S4 S5] & Hcols & Hn & Hu & Hneeds). exists op', w'. split_and!; try done.
  unfold analyzable. rewrite S1, (unmapped_mappable op'), (Hneeds Hd), Hu by auto. cbn [andb]. rewrite andb_true_r. by apply bool_decide_eq_true.
Qed.

(** The selection of the sample hands on the columns that are read above, and its own. *)
Definition sample_analyzed : column_plan :=
  match column_lifetime sample_column_plan sample_columns_world with Ret (op, _) => op | _ => sample_column_plan end.

Lemma sample_analyzed_tasks : plan_tasks sample_analyzed = [(false, column 0 <$> [0; 1; 2; 3]%nat, 0%nat); (true, column 1 <$> [1; 2]%nat, 0%nat)].
Proof. vm_compute. reflexivity. Qed.
