(* ===== verification/CommonAggregates.v ===== *)
(** * CommonAggregates: equal aggregates are computed once

    [CommonAggregateOptimizer] of [optimizer/common_aggregate_optimizer.cpp],
    which runs between the two runs of the column lifetime analyzer: an
    aggregate that is already there is erased, and references to aggregates
    after it get new numbers.  Shown: every aggregate is found under its new
    number; where nothing is merged, the passes from [RemoveColumns] on keep
    filters on their columns; where something is, the columns of filters do
    not get their new numbers, so that a filter on an aggregate can make a
    query fail. *)

From S2P Require Import Prelude BloomFilter LogicalPlan ColumnResolver PlanColumns RemoveColumns RemoveBase RemoveSpec RemoveFrames PlanFilters RemoveCases RemoveCorrect ColumnLifetime.
Local Open Scope Z_scope.
Local Open Scope machine_scope.

(** ** The optimizer *)

Abbreviation aggregate_map := (gmap ColumnBinding ColumnBinding).

(** [VisitReplace] of the references of an expression. *)
Fixpoint ReplaceReferences (M : aggregate_map) (e : bound_expression) (σ : binding_store) : outcome binding_store :=
  match e with
  | ColumnRef p => let* b := deref (σ !! p) in Ret (match M !! b with Some b' => <[p := b']> σ | None => σ end)
  | Reference _ => Ret σ
  | Apply _ es => (fix go es σ := match es with [] => Ret σ | e :: es => let* σ := ReplaceReferences M e σ in go es σ end) es σ
  end.

(** The expressions that were seen, with the numbers they have. *)
Definition find_aggregate (σ : binding_store) (remap : list (bound_expression * nat)) (e : bound_expression) : option nat :=
  snd <$> List.find (λ x, bound_equals σ x.1 e) remap.

(** The loop of [ExtractCommonAggregates]; after an erasure [i--] and the [i++]
    of the loop leave the index as it was. *)
Fixpoint extract_loop (n : nat) (t : Z) (es : list bound_expression) (i total_erased : nat) (remap : list (bound_expression * nat)) (M : aggregate_map) (σ : binding_store)
    : outcome (list bound_expression * aggregate_map * binding_store) :=
  match n with
  | O => NoFuel
  | S n =>
      if (length es <=? i)%nat then Ret (es, M, σ) else
      let original_index := (i + total_erased)%nat in
      let* e := vec_at es i in
      match find_aggregate σ remap e with
      | None =>
          let M := if decide (i ≠ original_index) then <[column t original_index := column t i]> M else M in
          extract_loop n t es (S i) total_erased (remap ++ [(e, i)]) M σ
      | Some j =>
          extract_loop n t (delete i es) i (S total_erased) remap (<[column t original_index := column t j]> M) (destroy e σ)
      end
  end.

Definition ExtractCommonAggregates (a : LogicalAggregate) (M : aggregate_map) (σ : binding_store) : outcome (LogicalAggregate * aggregate_map * binding_store) :=
  let* (es, M, σ) := extract_loop (S (length a.(aggr_expressions))) a.(aggregate_index) a.(aggr_expressions) 0 0 [] M σ in
  Ret (set_aggregates es a, M, σ).

(** [VisitOperator]: children, expressions, then the operator itself. *)
Fixpoint MergeAggregates (op : column_plan) (st : aggregate_map * binding_store) : outcome (column_plan * (aggregate_map * binding_store)) :=
  let '(Node k cs) := op in
  let* (cs, st) := analyze_children MergeAggregates cs st in
  let '(M, σ) := st in
  let* σ := ofold (λ σ e, ReplaceReferences M e σ) (EnumerateExpressions k) σ in
  match k with
  | Aggregate a => let* (a, M, σ) := ExtractCommonAggregates a M σ in Ret (Node (Aggregate a) cs, (M, σ))
  | _ => Ret (Node k cs, (M, σ))
  end.

(** The call in [Optimizer::Optimize]. *)
Definition common_aggregates (op : column_plan) (w : columns_world) : outcome (column_plan * columns_world) :=
  let* (op, st) := MergeAggregates op (∅, w.(store)) in Ret (op, set_store st.2 w).

(** ** Every aggregate has a number *)

Lemma bound_equals_refl σ e : bound_equals σ e e = true.
Proof.
  induction e as [p|i|f es IH] using bound_expression_nested_ind; cbn [bound_equals]; [by apply bool_decide_eq_true|apply Nat.eqb_refl|]. rewrite Z.eqb_refl. cbn [andb].
  induction IH as [|e es He _ IH]; [done|]. by rewrite He, IH.
Qed.

(** Equality only looks at the bindings of references. *)
Lemma bound_equals_ext σ σ' a : ∀ b, (∀ p, p ∈ expr_refs a ∨ p ∈ expr_refs b → σ' !! p = σ !! p) → bound_equals σ' a b = bound_equals σ a b.
Proof.
  induction a as [p|i|f es IH] using bound_expression_nested_ind; intros b Hp; destruct b as [q|j|g es']; try done; cbn [bound_equals expr_refs] in *.
  - rewrite !Hp; [done|right; left|left; left].
  - f_equal. revert es' Hp. induction IH as [|e es He _ IH]; intros [|e' es'] Hp; try done. cbn [map concat] in Hp. rewrite He by (intros p ?; apply Hp; rewrite !elem_of_app; tauto). f_equal. apply IH. intros p ?. apply Hp. rewrite !elem_of_app. tauto.
Qed.

Definition numbered (kept : list bound_expression) : list (bound_expression * nat) := zip kept (seq 0 (length kept)).

Lemma numbered_snoc kept e : numbered (kept ++ [e]) = numbered kept ++ [(e, length kept)].
Proof. unfold numbered. rewrite length_app. cbn [length]. rewrite seq_app, zip_with_app by (by rewrite length_seq). done. Qed.

Lemma find_numbered σ kept e j : find_aggregate σ (numbered kept) e = Some j → ∃ e', kept !! j = Some e' ∧ bound_equals σ e' e = true.
Proof.
  unfold find_aggregate. destruct (List.find _ (numbered kept)) as [[e' j']|] eqn:E; [|done]. intros [= <-]. apply List.find_some in E as [Hin Heq]. exists e'. split; [|done].
  apply list_elem_of_In, list_elem_of_lookup in Hin as [i Hi]. unfold numbered in Hi. apply lookup_zip_with_Some in Hi as (x & y & [= <- <-] & Hx & [-> _]%lookup_seq). done.
Qed.

(** [kept] are the aggregates so far, and [rest] those to come. *)
Lemma extract_loop_ok t σ0 rest : ∀ n kept total M σ,
  (length rest < n)%nat → NoDup (exprs_refs (kept ++ rest)) → (∀ p, p ∈ exprs_refs (kept ++ rest) → σ !! p = σ0 !! p) →
  (∀ k, M !! column t (length kept + total + k) = None) →
  ∃ es M' σ', extract_loop n t (kept ++ rest) (length kept) total (numbered kept) M σ = Ret (es, M', σ') ∧ kept `prefix_of` es ∧
    (∀ b, (∀ k, b ≠ column t (length kept + total + k)) → M' !! b = M !! b) ∧
    (∀ k e, rest !! k = Some e → ∃ j e', default (column t (length kept + total + k)) (M' !! column t (length kept + total + k)) = column t j ∧ es !! j = Some e' ∧ bound_equals σ0 e' e = true).
Proof.
  induction rest as [|e rest IH]; intros n kept total M σ Hn Hnd Hσ HM; (destruct n as [|n]; [simpl in Hn; lia|]); cbn [extract_loop].
  { rewrite app_nil_r, Nat.leb_refl. exists kept, M, σ. split_and!; try done. }
  rewrite length_app. cbn [length] in *. rewrite (proj2 (Nat.leb_gt _ _)) by lia. unfold vec_at. rewrite list_lookup_middle by done. orun.
  assert (∀ j i, column t j = column t i → j = i) as Hinj by (intros j i [= ?]; lia).
  assert (M !! column t (length kept + total) = None) as HM0 by (rewrite <- (HM 0%nat); do 2 f_equal; lia).
  rewrite exprs_refs_app in Hnd, Hσ. change (exprs_refs (e :: rest)) with (expr_refs e ++ exprs_refs rest) in Hnd, Hσ. setoid_rewrite elem_of_app in Hσ. setoid_rewrite elem_of_app in Hσ.
  destruct (find_aggregate σ (numbered kept) e) as [j|] eqn:Ej.
  - destruct (find_numbered _ _ _ _ Ej) as (e' & Hj & Heq). rewrite delete_middle. set (M1 := <[column t (length kept + total) := column t j]> M).
    destruct (IH n kept (S total) M1 (destroy e σ)) as (es & M' & σ' & E & Hpre & Hfr & Hfind); [lia| | | |].
    { rewrite exprs_refs_app. eapply sublist_NoDup; [exact Hnd|]. apply sublist_app; [done|by apply sublist_inserts_l]. }
    { intros p Hp. rewrite exprs_refs_app in Hp. unfold destroy. rewrite foldr_delete_lookup, decide_False; [apply Hσ; apply elem_of_app in Hp; tauto|]. apply NoDup_app in Hnd as (_ & H1 & (_ & H2 & _)%NoDup_app). intros He.
      apply elem_of_app in Hp as [Hp|Hp]; [apply (H1 p Hp), elem_of_app; by left|by apply (H2 p He)]. }
    { intros k. unfold M1. rewrite lookup_insert_ne by (intros ?%Hinj; lia). rewrite <- (HM (S k)). do 2 f_equal. lia. }
    exists es, M', σ'. rewrite E. split_and!; [done|done| |].
    + intros b Hb. rewrite Hfr; [unfold M1; apply lookup_insert_ne; intros <-; apply (Hb 0%nat); f_equal; lia|]. intros k ->. apply (Hb (S k)). f_equal. lia.
    + intros [|k] x Hx; [|destruct (Hfind k x Hx) as (j' & H'); exists j'; by replace (length kept + total + S k)%nat with (length kept + S total + k)%nat by lia]. injection Hx as <-. rewrite Nat.add_0_r. exists j, e'.
      rewrite Hfr by (intros k ?%Hinj; lia). unfold M1. rewrite lookup_insert_eq. split_and!; [done|by eapply prefix_lookup_Some|]. rewrite <- Heq. symmetry. apply bound_equals_ext. intros p [Hp|Hp]; apply Hσ; [left|by right; left].
      apply elem_of_exprs_refs. exists e'. split; [by eapply list_elem_of_lookup_2|done].
  - set (M1 := if decide (length kept ≠ (length kept + total)%nat) then _ else M).
    replace (kept ++ e :: rest) with ((kept ++ [e]) ++ rest) by (by rewrite <- app_assoc). rewrite <- numbered_snoc. replace (S (length kept)) with (length (kept ++ [e])) by (rewrite length_app; simpl; lia).
    assert (∀ b, b ≠ column t (length kept + total) → M1 !! b = M !! b) as HM1 by (intros b Hb; unfold M1; case_decide; [by rewrite lookup_insert_ne|done]).
    destruct (IH n (kept ++ [e]) total M1 σ) as (es & M' & σ' & E & Hpre & Hfr & Hfind); [lia| | | |].
    { rewrite !exprs_refs_app. change (exprs_refs [e]) with (expr_refs e ++ []). rewrite app_nil_r, <- app_assoc. done. }
    { intros p. rewrite !exprs_refs_app. change (exprs_refs [e]) with (expr_refs e ++ []). rewrite app_nil_r, !elem_of_app. intros Hp. apply Hσ. tauto. }
    { intros k. rewrite length_app. cbn [length]. rewrite HM1 by (intros ?%Hinj; lia). rewrite <- (HM (S k)). do 2 f_equal. lia. }
    exists es, M', σ'. rewrite E. rewrite length_app in Hfr, Hfind. cbn [length] in Hfr, Hfind. split_and!; [done|by etrans; [apply prefix_app_r|exact Hpre]| |].
    + intros b Hb. rewrite Hfr; [apply HM1; intros ->; apply (Hb 0%nat); f_equal; lia|]. intros k ->. apply (Hb (S k)). f_equal. lia.
    + intros [|k] x Hx.
      * injection Hx as <-. exists (length kept), e. rewrite Nat.add_0_r, Hfr by (intros k ?%Hinj; lia). split_and!; [|eapply prefix_lookup_Some; [|exact Hpre]; apply list_lookup_middle; done|apply bound_equals_refl].
        unfold M1. case_decide as Hd; [by rewrite lookup_insert_eq|]. rewrite HM0. cbn [default]. f_equal. lia.
      * destruct (Hfind k x Hx) as (j' & H'). exists j'. replace (length kept + total + S k)%nat with (length kept + 1 + total + k)%nat by lia. done.
Qed.

(** Every aggregate is found under the number the map gives it. *)
Theorem extracted_aggregates_are_found a M σ :
  NoDup (exprs_refs a.(aggr_expressions)) → (∀ i, M !! column a.(aggregate_index) i = None) →
  ∃ a' M' σ', ExtractCommonAggregates a M σ = Ret (a', M', σ') ∧ (∀ b, b.(table_index) ≠ a.(aggregate_index) → M' !! b = M !! b) ∧
    ∀ i e, a.(aggr_expressions) !! i = Some e → ∃ j e', default (column a.(aggregate_index) i) (M' !! column a.(aggregate_index) i) = column a.(aggregate_index) j ∧
      a'.(aggr_expressions) !! j = Some e' ∧ bound_equals σ e' e = true.
Proof.
  intros Hn HM. destruct (extract_loop_ok a.(aggregate_index) σ a.(aggr_expressions) (S (length a.(aggr_expressions))) [] 0 M σ) as (es & M' & σ' & E & _ & Hfr & Hfind); [lia|done|done|intros; apply HM|].
  unfold ExtractCommonAggregates. cbn [app length] in E. change (numbered []) with (@nil (bound_expression * nat)) in E. rewrite E. eexists _, M', σ'. split_and!; [done| |exact Hfind]. intros b Hb. apply Hfr. by intros k ->.
Qed.

(** ** The passes after the removal of columns *)

(** The calls in [Optimizer::Optimize]: lifetimes are analyzed before aggregates are merged, and again after that. *)
Definition column_passes (op : column_plan) (w : columns_world) : outcome (column_plan * columns_world) :=
  let* (op, w) := column_lifetime op w in
  let* (op, w) := common_aggregates op w in
  column_lifetime op w.

(** No aggregate is computed twice. *)
Fixpoint distinct_expressions (σ : binding_store) (seen es : list bound_expression) : bool :=
  match es with [] => true | e :: es => negb (existsb (λ x, bound_equals σ x e) seen) && distinct_expressions σ (seen ++ [e]) es end.

Definition kind_distinct (σ : binding_store) (k : logical_kind) : bool := match k with Aggregate a => distinct_expressions σ [] a.(aggr_expressions) | _ => true end.

Fixpoint distinct_aggregates (σ : binding_store) (op : column_plan) : bool := match op with Node k cs => kind_distinct σ k && forallb (distinct_aggregates σ) cs end.

Lemma erase_distinct σ op : distinct_aggregates σ (erase op) = distinct_aggregates σ op.
Proof.
  induction op as [k cs IH] using column_plan_nested_ind. rewrite Forall_forall in IH. cbn [erase distinct_aggregates]. f_equal; [by destruct k|]. by apply forallb_map_in.
Qed.

Lemma find_distinct σ kept e : existsb (λ x, bound_equals σ x e) kept = false → find_aggregate σ (numbered kept) e = None.
Proof.
  intros H. destruct (find_aggregate σ (numbered kept) e) as [j|] eqn:E; [|done]. apply find_numbered in E as (e' & Hj & He). exfalso. rewrite <- not_true_iff_false in H. apply H, existsb_exists. exists e'.
  split; [|done]. apply list_elem_of_In. by eapply list_elem_of_lookup_2.
Qed.

Lemma extract_distinct t M σ rest : ∀ n kept, (length rest < n)%nat → distinct_expressions σ kept rest = true →
  extract_loop n t (kept ++ rest) (length kept) 0 (numbered kept) M σ = Ret (kept ++ rest, M, σ).
Proof.
  induction rest as [|e rest IH]; intros n kept Hn Hd; (destruct n as [|n]; [simpl in Hn; lia|]); cbn [extract_loop].
  { by rewrite app_nil_r, Nat.leb_refl. }
  rewrite length_app. cbn [length distinct_expressions] in *. apply andb_true_iff in Hd as [Hd1%negb_true_iff Hd2]. rewrite (proj2 (Nat.leb_gt _ _)) by lia. unfold vec_at. rewrite list_lookup_middle by done. orun.
  rewrite find_distinct by done. rewrite decide_False by lia. rewrite <- numbered_snoc. replace (kept ++ e :: rest) with ((kept ++ [e]) ++ rest) by (by rewrite <- app_assoc).
  replace (S (length kept)) with (length (kept ++ [e])) by (rewrite length_app; simpl; lia). apply IH; [lia|done].
Qed.

Lemma ReplaceReferences_empty σ e : live σ (expr_refs e) → ReplaceReferences ∅ e σ = Ret σ.
Proof.
  induction e as [p|i|f es IH] using bound_expression_nested_ind; intros Hl; cbn [ReplaceReferences expr_refs] in *; [|done|].
  - destruct (Hl p) as [b ->]; [left|]. orun. by rewrite lookup_empty.
  - induction IH as [|e es He _ IH]; [done|]. cbn [map concat] in Hl. rewrite He by (intros p ?; apply Hl, elem_of_app; by left). orun. apply IH. intros p ?. apply Hl, elem_of_app. by right.
Qed.

Lemma replace_all_empty σ es : live σ (exprs_refs es) → ofold (λ σ e, ReplaceReferences ∅ e σ) es σ = Ret σ.
Proof.
  intros Hl. induction es as [|e es IH]; [done|]. cbn [ofold]. change (exprs_refs (e :: es)) with (expr_refs e ++ exprs_refs es) in Hl.
  rewrite ReplaceReferences_empty by (intros p ?; apply Hl, elem_of_app; by left). orun. apply IH. intros p ?. apply Hl, elem_of_app. by right.
Qed.

(** Then merging changes nothing. *)
Lemma MergeAggregates_distinct σ op : live σ (plan_refs op) → distinct_aggregates σ op = true → MergeAggregates op (∅, σ) = Ret (op, (∅, σ)).
Proof.
  induction op as [k cs IH] using column_plan_nested_ind. cbn [plan_refs distinct_aggregates MergeAggregates]. intros Hl [Hk Hcs]%andb_true_iff.
  assert (analyze_children MergeAggregates cs (∅, σ) = Ret (cs, (∅, σ))) as ->.
  { assert (live σ (concat (map plan_refs cs))) as Hlc by (intros p ?; apply Hl, elem_of_app; by right). clear Hl Hk. induction IH as [|c cs Hc _ IH]; [done|]. cbn [analyze_children forallb map concat] in *. apply andb_true_iff in Hcs as [H1 H2].
    rewrite Hc by (try done; intros p ?; apply Hlc, elem_of_app; by left). orun. rewrite IH by (try done; intros p ?; apply Hlc, elem_of_app; by right). done. }
  orun. rewrite replace_all_empty by (intros p ?; apply Hl, elem_of_app; by left). orun. destruct k as [| |a| | | | | | |]; try done. cbn [kind_distinct] in Hk. unfold ExtractCommonAggregates. pose proof (extract_distinct a.(aggregate_index) ∅ σ a.(aggr_expressions) (S (length a.(aggr_expressions))) []) as E.
  cbn [app length] in E. change (numbered []) with (@nil (bound_expression * nat)) in E. rewrite E by (done || lia). orun. by destruct a.
Qed.

Lemma column_passes_ok op w :
  analyzable op w = true → distinct_aggregates w.(store) op = true → ∃ op', column_passes op w = Ret (op', w) ∧ analyzable op' w = true ∧ erase op' = erase op ∧ columns op' = columns op.
Proof.
  intros Ha Hd. destruct (column_lifetime_ok op w Ha) as (op1 & E1 & Ha1 & Ee1 & Ec1). destruct (column_lifetime_ok op1 w Ha1) as (op2 & E2 & Ha2 & Ee2 & Ec2). exists op2. unfold column_passes, common_aggregates. rewrite E1. orun.
  rewrite MergeAggregates_distinct; [|intros p Hp; unfold analyzable in Ha1; rewrite !andb_true_iff in Ha1; destruct Ha1 as [[[[Hs _] _] _] _]; by eapply scoped_live|by rewrite <- erase_distinct, Ee1, erase_distinct].
  orun. assert (set_store w.(store) w = w) as Ew by (by destruct w). cbn [snd]. rewrite Ew, E2. split_and!; [done|done|congruence|congruence].
Qed.

(** What the passes ask of a plan: references are columns below, the columns of filters are read above, by
    expressions no pass removes, and no projection map is set. *)
Definition optimizable (op : column_plan) (w : columns_world) : bool := removable op w && unmapped op && demanded_later w.(store) w.(filters) true [] op.

(** C8: The optimizers after the transfer keep filters on their columns, one after the other: unused columns are
    removed, lifetimes analyzed, aggregates merged, and lifetimes analyzed again.  If removing columns has not made
    aggregates equal, all return; the last three set projection maps and change nothing else; the plan has the
    columns it had, the columns of each filter come from where they came from, on both sides, and the column
    binding resolver finds every one of them. *)
Theorem optimizers_keep_filters op w :
  optimizable op w = true →
  ∃ op1 w1, remove_unused_columns op w = Ret (op1, w1) ∧
    (distinct_aggregates w1.(store) op1 = true →
      ∃ op2 h, column_passes op1 w1 = Ret (op2, w1) ∧ erase op2 = erase op1 ∧ columns op2 = columns op ∧ filter_sources w1.(filters) op2 = filter_sources w.(filters) op ∧
        ofold resolve_task (plan_tasks op2) w1.(filters) = Ret h ∧ resolved_in w1.(filters) h op2).
Proof.
  unfold optimizable. rewrite !andb_true_iff. intros [[Hr Hm] Hd]. destruct (removed_analyzable op w Hr Hm Hd) as (op1 & w1 & E1 & Ha1 & Ec1 & Hs1). exists op1, w1. split; [done|]. intros Hdis.
  destruct (column_passes_ok op1 w1 Ha1 Hdis) as (op2 & E2 & Ha2 & Ee & Ec2). destruct (analyzable_resolved op2 w1 Ha2) as (h & Eh & Hh). exists op2, h. split_and!; try done; [congruence|].
  by rewrite <- Hs1, <- (erase_sources _ op2), Ee, erase_sources.
Qed.

(** ** A filter on an aggregate

    [SELECT u.k, x.s1, x.s2 FROM u JOIN (SELECT sum(t.a) s1, sum(v.b) s2, max(t.c) m FROM t JOIN v ON t.a = v.b) x ON u.k = x.m]:
    the transfer optimizer builds a filter on the aggregate [max(t.c)], as [x.m] is a name of it. *)
Definition read_table (t : Z) (ids : list Z) : column_plan := Node (Get (mkGet t ids [] [] [] true true [])) [].
Definition equi_join (p q : nat) (l r : column_plan) : column_plan :=
  Node (ComparisonJoin (mkComparisonJoin INNER 0 [] [mkBoundCondition COMPARE_EQUAL (ColumnRef p) (ColumnRef q)] [] [] [])) [l; r].

Definition sum_of (p : nat) : bound_expression := Apply 1 [ColumnRef p].
Definition max_of (p : nat) : bound_expression := Apply 2 [ColumnRef p].

Definition aggregate_plan : column_plan :=
  Node (Projection 9 [ColumnRef 0; ColumnRef 1; ColumnRef 2])
    [equi_join 3 4 (Node (BloomOp false [0%nat]) [read_table 0 [0]])
      (Node (Projection 8 [ColumnRef 5; ColumnRef 6; ColumnRef 7])
        [Node (BloomOp true [0%nat])
          [Node (Aggregate (mkAggregate 5 6 7 0 [] [sum_of 8; sum_of 9; max_of 10]))
            [equi_join 11 12 (read_table 1 [0; 1]) (read_table 2 [0])]]])].

Definition aggregate_world : columns_world :=
  mkWorld (list_to_map (zip (seq 0 13) [column 0 0; column 8 0; column 8 1; column 0 0; column 8 2; column 6 0; column 6 1; column 6 2; column 1 0; column 2 0; column 1 1; column 1 0; column 2 0])) 13 10
    [mkBlockedBloomFilter [column 0 0] [column 6 2] [] [] 0 0 true None false].

(** The same query without the second sum: nothing is merged. *)
Definition distinct_plan : column_plan :=
  Node (Projection 9 [ColumnRef 0; ColumnRef 1])
    [equi_join 3 4 (Node (BloomOp false [0%nat]) [read_table 0 [0]])
      (Node (Projection 8 [ColumnRef 5; ColumnRef 7])
        [Node (BloomOp true [0%nat])
          [Node (Aggregate (mkAggregate 5 6 7 0 [] [sum_of 8; max_of 10]))
            [equi_join 11 12 (read_table 1 [0; 1]) (read_table 2 [0])]]])].

Definition distinct_world : columns_world :=
  mkWorld (list_to_map [(0%nat, column 0 0); (1%nat, column 8 0); (3%nat, column 0 0); (4%nat, column 8 1); (5%nat, column 6 0); (7%nat, column 6 1);
      (8%nat, column 1 0); (10%nat, column 1 1); (11%nat, column 1 0); (12%nat, column 2 0)]) 13 10
    [mkBlockedBloomFilter [column 0 0] [column 6 1] [] [] 0 0 true None false].

Lemma optimizers_keep_filters_witness :
  ∃ op1 w1, remove_unused_columns distinct_plan distinct_world = Ret (op1, w1) ∧ distinct_aggregates w1.(store) op1 = true ∧
    ∃ op2 h, column_passes op1 w1 = Ret (op2, w1) ∧ erase op2 = erase op1 ∧ columns op2 = columns distinct_plan ∧
      filter_sources w1.(filters) op2 = filter_sources distinct_world.(filters) distinct_plan ∧
      ofold resolve_task (plan_tasks op2) w1.(filters) = Ret h ∧ resolved_in w1.(filters) h op2.
Proof.
  destruct (optimizers_keep_filters distinct_plan distinct_world) as (op1 & w1 & E & H); [vm_compute; reflexivity|].
  assert (match remove_unused_columns distinct_plan distinct_world with Ret (op, w) => distinct_aggregates w.(store) op | _ => false end = true) as Hd by (vm_compute; reflexivity).
  rewrite E in Hd. exists op1, w1. split; [exact E|]. split; [exact Hd|]. exact (H Hd).
Defined.

(** The query is one the optimizers accept.  Removing unused columns makes its two sums equal, and keeps its filter on
    the maximum, where the resolver finds it; when the second sum is erased, the maximum gets another number, but the
    filter does not, and the resolver refuses the plan. *)
Example merged_sums_lose_a_filter :
  optimizable aggregate_plan aggregate_world = true ∧
  (let* (op, w) := remove_unused_columns aggregate_plan aggregate_world in let* _ := ofold resolve_task (plan_tasks op) w.(filters) in Ret tt) = Ret tt ∧
  (let* (op, w) := remove_unused_columns aggregate_plan aggregate_world in let* (op, w) := column_passes op w in
   let* _ := ofold resolve_task (plan_tasks op) w.(filters) in Ret tt) = Throw "No bound colmun found!".
Proof. split_and!; vm_compute; reflexivity. Qed.

(** ** All such filters *)

Lemma find_found σ kept e : find_aggregate σ (numbered kept) e = None → existsb (λ x, bound_equals σ x e) kept = false.
Proof.
  unfold find_aggregate. destruct (List.find _ (numbered kept)) as [?|] eqn:E; [done|]. intros _. apply not_true_iff_false. intros (x & Hx & Hb)%existsb_exists.
  apply list_elem_of_In, list_elem_of_lookup in Hx as [j Hj]. assert ((x, j) ∈ numbered kept) as Hin.
  { apply list_elem_of_lookup. exists j. unfold numbered. apply lookup_zip_with_Some. exists x, j. split_and!; [done|done|]. apply lookup_seq. split; [lia|]. by eapply lookup_lt_Some. }
  apply list_elem_of_In in Hin. pose proof (List.find_none _ _ E _ Hin) as Hf. cbn [fst] in Hf. congruence.
Qed.

Lemma existsb_equals_ext σ σ' kept e : (∀ p, p ∈ exprs_refs kept ∨ p ∈ expr_refs e → σ' !! p = σ !! p) → existsb (λ x, bound_equals σ' x e) kept = existsb (λ x, bound_equals σ x e) kept.
Proof.
  intros Hp. induction kept as [|k kept IH]; [done|]. cbn [existsb]. change (exprs_refs (k :: kept)) with (expr_refs k ++ exprs_refs kept) in Hp.
  setoid_rewrite elem_of_app in Hp. rewrite IH by (intros p [?|?]; apply Hp; tauto). f_equal. apply bound_equals_ext. intros p [?|?]; apply Hp; tauto.
Qed.

(** Where aggregates are equal, some are erased. *)
Lemma extract_loop_shorter t σ0 rest : ∀ n kept total M σ es M' σ',
  NoDup (exprs_refs (kept ++ rest)) → (∀ p, p ∈ exprs_refs (kept ++ rest) → σ !! p = σ0 !! p) →
  extract_loop n t (kept ++ rest) (length kept) total (numbered kept) M σ = Ret (es, M', σ') →
  (length es ≤ length kept + length rest ∧ (distinct_expressions σ0 kept rest = false → length es < length kept + length rest))%nat.
Proof.
  induction rest as [|e rest IH]; intros n kept total M σ es M' σ' Hnd Hσ; (destruct n as [|n]; [done|]); cbn [extract_loop].
  { rewrite app_nil_r, Nat.leb_refl. intros [= <- _ _]. cbn [distinct_expressions length]. split; [lia|done]. }
  rewrite length_app. cbn [length distinct_expressions] in *. rewrite (proj2 (Nat.leb_gt _ _)) by lia. unfold vec_at. rewrite list_lookup_middle by done. orun.
  rewrite exprs_refs_app in Hnd, Hσ. change (exprs_refs (e :: rest)) with (expr_refs e ++ exprs_refs rest) in Hnd, Hσ. setoid_rewrite elem_of_app in Hσ. setoid_rewrite elem_of_app in Hσ.
  destruct (find_aggregate σ (numbered kept) e) as [j|] eqn:Ej.
  - rewrite delete_middle. intros E. apply IH in E as [E _]; [lia| |].
    + rewrite exprs_refs_app. eapply sublist_NoDup; [exact Hnd|]. apply sublist_app; [done|by apply sublist_inserts_l].
    + intros p Hp. rewrite exprs_refs_app in Hp. unfold destroy. rewrite foldr_delete_lookup, decide_False; [apply Hσ; apply elem_of_app in Hp; tauto|]. apply NoDup_app in Hnd as (_ & H1 & (_ & H2 & _)%NoDup_app). intros He.
      apply elem_of_app in Hp as [Hp|Hp]; [apply (H1 p Hp), elem_of_app; by left|by apply (H2 p He)].
  - replace (kept ++ e :: rest) with ((kept ++ [e]) ++ rest) by (by rewrite <- app_assoc). rewrite <- numbered_snoc. replace (S (length kept)) with (length (kept ++ [e])) by (rewrite length_app; simpl; lia).
    rewrite <- (existsb_equals_ext σ0 σ), (find_found _ _ _ Ej) by (intros p [?|?]; apply Hσ; tauto). cbn [negb andb]. intros E. apply IH in E as [E1 E2].
    + rewrite length_app in E1, E2. cbn [length] in E1, E2. split; [lia|]. intros Hd. specialize (E2 Hd). lia.
    + rewrite <- app_assoc. rewrite !exprs_refs_app. change (exprs_refs [e]) with (expr_refs e ++ []). by rewrite app_nil_r.
    + intros p. rewrite <- app_assoc, !exprs_refs_app. change (exprs_refs [e]) with (expr_refs e ++ []). rewrite app_nil_r, !elem_of_app. apply Hσ.
Qed.

(** A filter, all of whose columns on one side are gone, is refused. *)
Lemma resolve_one_refused k bs f : bound k f = [] → (∀ col, col ∈ cols_of k f → col ∉ bs) → resolve_one k bs f = Throw "No bound colmun found!".
Proof.
  intros Hb Hc. assert (concat (bind_column bs <$> cols_of k f) = []) as Hn.
  { induction (cols_of k f) as [|col cols IH]; [done|]. csimpl. rewrite IH by (intros c ?; apply Hc; by right). unfold bind_column. destruct (list_find (col =.) bs) as [[i b]|] eqn:E; [|done].
    apply list_find_Some in E as (Hi & -> & _). exfalso. apply (Hc b); [left|]. by eapply list_elem_of_lookup_2. }
  destruct k; simpl in *; unfold resolve_built, resolve_applied; by rewrite Hb, Hn.
Qed.

(** Merging the aggregates of an operator over a plan that has none to merge. *)
Lemma merge_above create x a c σ :
  live σ (exprs_refs (a.(aggr_groups) ++ a.(aggr_expressions))) → live σ (plan_refs c) → distinct_aggregates σ c = true → NoDup (exprs_refs a.(aggr_expressions)) →
  ∃ es M σ', MergeAggregates (Node (BloomOp create [x]) [Node (Aggregate a) [c]]) (∅, σ) = Ret (Node (BloomOp create [x]) [Node (Aggregate (set_aggregates es a)) [c]], (M, σ')) ∧
    (distinct_expressions σ [] a.(aggr_expressions) = false → (length es < length a.(aggr_expressions))%nat) ∧
    ∀ i e, a.(aggr_expressions) !! i = Some e → ∃ j e', default (column a.(aggregate_index) i) (M !! column a.(aggregate_index) i) = column a.(aggregate_index) j ∧ es !! j = Some e' ∧ bound_equals σ e' e = true.
Proof.
  intros Hla Hlc Hc Hnd. destruct (extract_loop_ok a.(aggregate_index) σ a.(aggr_expressions) (S (length a.(aggr_expressions))) [] 0 ∅ σ) as (es & M & σ' & E & _ & _ & Hfind); [lia|done|done|by intros|].
  cbn [app length] in E. change (numbered []) with (@nil (bound_expression * nat)) in E. exists es, M, σ'.
  cbn [MergeAggregates analyze_children]. rewrite (MergeAggregates_distinct σ c) by done. orun. cbn [EnumerateExpressions]. rewrite replace_all_empty by done. orun. unfold ExtractCommonAggregates. rewrite E. orun.
  split_and!; [done| |exact Hfind]. intros Hd. apply (extract_loop_shorter a.(aggregate_index) σ a.(aggr_expressions) (S (length a.(aggr_expressions))) [] 0 ∅ σ es M σ'); done.
Qed.

(** The last aggregate has no column any more. *)
Lemma last_column_lost a es c i :
  a.(group_index) ≠ a.(aggregate_index) → a.(groupings_index) ≠ a.(aggregate_index) → (length es ≤ i)%nat →
  column a.(aggregate_index) i ∉ columns (Node (Aggregate (set_aggregates es a)) [c]).
Proof.
  intros Hg Hs Hi. unfold columns. cbn [GetColumnBindings kind_columns map]. unfold aggregate_columns, set_aggregates. cbn [group_index aggregate_index groupings_index aggr_groups aggr_expressions grouping_functions].
  unfold GenerateColumnBindings. rewrite !elem_of_app, !list_elem_of_fmap. intros [(k & [= ? ?] & _)|[(k & [= ?] & Hk%elem_of_seq)|(k & [= ? ?] & _)]]; [done|lia|done].
Qed.

(** C25: merging equal aggregates loses the columns of filters.  For every aggregate with equal expressions and every
    plan below it without such: if a filter is on the last aggregate, the resolver finds its column before
    aggregates are merged; merging keeps the aggregate under a new number, but leaves the filter with the old
    one, and the resolver refuses the plan. *)
Theorem merged_aggregates_lose_filters create x a c w :
  let op := Node (BloomOp create [x]) [Node (Aggregate a) [c]] in let n := Nat.pred (length a.(aggr_expressions)) in
  scoped w.(store) w.(filters) op = true → NoDup (plan_filters op) → unresolved w.(filters) op = true → NoDup (exprs_refs a.(aggr_expressions)) →
  a.(group_index) ≠ a.(aggregate_index) → a.(groupings_index) ≠ a.(aggregate_index) →
  distinct_aggregates w.(store) c = true → distinct_expressions w.(store) [] a.(aggr_expressions) = false →
  filter_cols w.(filters) create x = Some [column a.(aggregate_index) n] →
  (∃ h, ofold resolve_task (plan_tasks op) w.(filters) = Ret h ∧ resolved_in w.(filters) h op) ∧
  ∃ a' w' e e' j, common_aggregates op w = Ret (Node (BloomOp create [x]) [Node (Aggregate a') [c]], w') ∧ w'.(filters) = w.(filters) ∧
    a.(aggr_expressions) !! n = Some e ∧ a'.(aggr_expressions) !! j = Some e' ∧ bound_equals w.(store) e' e = true ∧
    ofold resolve_task (plan_tasks (Node (BloomOp create [x]) [Node (Aggregate a') [c]])) w'.(filters) = Throw "No bound colmun found!".
Proof.
  intros op n Hs Hn Hu Hnd Hg Hgs Hc Hd Hf. split; [by eapply filters_resolved|].
  assert (∀ p, p ∈ plan_refs op → is_Some (w.(store) !! p)) as Hl by (intros p; by apply (scoped_live _ w.(filters))).
  destruct (merge_above create x a c w.(store)) as (es & M & σ' & E & Hlt & Hfind); [intros p Hp; apply Hl; cbn; rewrite !elem_of_app; tauto|intros p Hp; apply Hl; cbn; rewrite !elem_of_app; tauto|done|done|].
  specialize (Hlt Hd). destruct (lookup_lt_is_Some_2 a.(aggr_expressions) n) as [e He]; [unfold n; lia|]. destruct (Hfind n e He) as (j & e' & _ & Hj & Hee).
  exists (set_aggregates es a). eexists _, e, e', j. unfold common_aggregates. subst op. rewrite E. split_and!; [done|done|done|done|done|]. cbn [set_store filters].
  assert (plan_filters (Node (BloomOp create [x]) [Node (Aggregate a) [c]]) = (create, x) :: plan_filters c) as Ep by (cbn; by rewrite !app_nil_r).
  unfold unresolved in Hu. rewrite Ep in Hn, Hu. apply NoDup_cons in Hn as [Hx Hnc]. cbn [forallb fst snd] in Hu. apply andb_true_iff in Hu as [Hb0 Huc].
  assert (scoped w.(store) w.(filters) c = true) as Hsc.
  { apply scoped_node in Hs as (_ & _ & Hs). cbn [forallb] in Hs. rewrite andb_true_r in Hs. apply scoped_node in Hs as (_ & _ & Hs). cbn [forallb] in Hs. rewrite andb_true_r in Hs. done. }
  destruct (filters_run _ _ c Hsc Hnc Huc) as (h & Eh & Hh). cbn [plan_tasks map concat own_tasks fmap list_fmap]. rewrite !app_nil_r, ofold_app, Eh. orun.
  unfold filter_cols in Hf. destruct (w.(filters) !! x) as [f|] eqn:Ef; [|done]. injection Hf as Hf. destruct (Hh x f Ef) as (f' & Hf' & Hcols & Hb).
  cbn [ofold]. unfold resolve_task. cbn [fst snd]. rewrite Hf'. orun. rewrite resolve_one_refused; [done| |].
  - rewrite (proj2 (Hb create)) by done. by apply bool_decide_eq_true in Hb0.
  - intros col. rewrite Hcols, Hf. intros ->%list_elem_of_singleton. apply last_column_lost; [done|done|unfold n; lia].
Qed.

(** The aggregate of the query after unused columns are removed. *)
Definition equal_sums : LogicalAggregate := mkAggregate 5 6 7 0 [] [sum_of 8; sum_of 9; max_of 10].
Definition below_sums : column_plan := equi_join 11 12 (read_table 1 [0; 1]) (read_table 2 [0]).
Definition equal_world : columns_world :=
  mkWorld (list_to_map (zip (seq 8 5) [column 1 0; column 1 0; column 1 1; column 1 0; column 2 0])) 13 10 [mkBlockedBloomFilter [column 0 0] [column 6 2] [] [] 0 0 true None false].

Lemma merged_aggregates_lose_filters_witness :
  let op := Node (BloomOp true [0%nat]) [Node (Aggregate equal_sums) [below_sums]] in
  (∃ h, ofold resolve_task (plan_tasks op) equal_world.(filters) = Ret h ∧ resolved_in equal_world.(filters) h op) ∧
  ∃ a' w' e e' j, common_aggregates op equal_world = Ret (Node (BloomOp true [0%nat]) [Node (Aggregate a') [below_sums]], w') ∧ w'.(filters) = equal_world.(filters) ∧
    equal_sums.(aggr_expressions) !! 2%nat = Some e ∧ a'.(aggr_expressions) !! j = Some e' ∧ bound_equals equal_world.(store) e' e = true ∧
    ofold resolve_task (plan_tasks (Node (BloomOp true [0%nat]) [Node (Aggregate a') [below_sums]])) w'.(filters) = Throw "No bound colmun found!".
Proof.
  apply (merged_aggregates_lose_filters true 0 equal_sums below_sums equal_world); try (vm_compute; reflexivity); try (apply (bool_decide_unpack _); vm_compute; exact I).
Defined.
