(* ===== verification/Query.v ===== *)
(** * Query: from the optimizer to the end of the query

    The parts together: the plan [Optimize] returns is planned, its pipelines
    and events are made, and the events run.  Then a query as an example, and
    what happens when it is executed again or cancelled. *)

From S2P Require Import Prelude BloomFilter LogicalPlan NodesManager Dag DagOrder DagDirections DagBuild TransferOptimizer TransferInsert PlanTree TransferPasses TransferCorrect PhysicalPlan Pipelines Scheduling Execution TransferAddresses.
Local Open Scope Z_scope.
Local Open Scope machine_scope.

Section Query.
  Context `{StdOrderOk} `{CardinalityEstimator} `{OtherPlansOk} `{PhysicalOps} `{EventMapOrderOk} `{SinkEvents}.

(** What becomes of a plan when join ordering is done: filters are put in, the
    optimizers that follow ([later]) change it, it is planned, and its pipelines
    and events are made. *)
Definition prepare_query (now later : LogicalOperator → LogicalOperator) (plan : LogicalOperator) (o : PredicateTransferOptimizer)
    : outcome (list PhysicalOperator * (ScheduleEventData * nat * build)) :=
  let* (plan, _) := Optimize now plan o in
  let* (root, st) := PlanQuery (later plan) in
  let* events := InitializeInternal st.(plans) root no_pipelines in
  Ret (st.(plans), events).

(** The optimizers that follow do not move a use below a creator it depends on. *)
Definition keeps_plannable (later : LogicalOperator → LogicalOperator) : Prop :=
  ∀ rank plan, plannable rank plan → ∃ rank', plannable rank' (later plan).

Lemma optimized_query rank plan0 mark next :
  plan_wf rank plan0 → distinct_comparisons (plan_joins plan0 mark) →
  ∃ o, PreOptimize plan0 mark next = Ret o ∧ ∀ now later plan, plan_now now plan o.(dag_manager) → (∀ a, a ∈ addresses plan → a < next) →
    joined_alike o.(dag_manager).(nodes_manager) (plan_joins plan0 mark) plan → keeps_plannable later →
    ∃ plan' o' root st, Optimize now plan o = Ret (plan', o') ∧ PlanQuery (later plan') = Ret (root, st) ∧
      (shaped st.(plans) = true → ∃ d n b, prepare_query now later plan o = Ret (st.(plans), (d, n, b)) ∧ filters_filled st.(plans) d n b ∧ comes_to_end st.(plans) d n b).
Proof.
  intros Hwf Hdist. destruct (optimized_plannable rank plan0 mark next Hwf Hdist) as (o & E & Ho). exists o. split; [done|].
  intros now later plan Hnow Hlt Hal Hkeep. destruct (Ho now plan Hnow Hlt Hal) as (plan' & o' & rank' & E' & Hpl').
  destruct (Hkeep rank' plan' Hpl') as [rank2 Hpl]. destruct (PlanQuery_ok rank2 (later plan') Hpl) as (root & st & Eq & _).
  exists plan', o', root, st. split_and!; [done|done|]. intros Hsh.
  destruct (query_runs rank2 (later plan') root st Hpl Eq Hsh) as (d & n & b & Ei & Hrun). exists d, n, b. split; [|done].
  unfold prepare_query. rewrite E'. simpl. rewrite Eq. simpl. by rewrite Ei.
Qed.

(** C4: filters are filled before they are used, from the optimizer on.  The
    plan with filters that [Optimize] returns is planned; its pipelines and
    events are made; and however the events of the pipelines interleave, when
    the tasks of a pipeline with a [PhysicalUseBF] have been started, the event
    of [PhysicalCreateBF::Finalize] that fills the filter it uses is done. *)
Theorem optimized_queries_use_filled_filters rank plan0 mark next :
  plan_wf rank plan0 → distinct_comparisons (plan_joins plan0 mark) →
  ∃ o, PreOptimize plan0 mark next = Ret o ∧ ∀ now later plan, plan_now now plan o.(dag_manager) → (∀ a, a ∈ addresses plan → a < next) →
    joined_alike o.(dag_manager).(nodes_manager) (plan_joins plan0 mark) plan → keeps_plannable later →
    ∃ plan' o' root st, Optimize now plan o = Ret (plan', o') ∧ PlanQuery (later plan') = Ret (root, st) ∧
      (shaped st.(plans) = true → ∃ d n b, prepare_query now later plan o = Ret (st.(plans), (d, n, b)) ∧ filters_filled st.(plans) d n b).
Proof.
  intros Hwf Hdist. destruct (optimized_query rank plan0 mark next Hwf Hdist) as (o & E & Ho). exists o. split; [done|].
  intros now later plan Hnow Hlt Hal Hkeep. destruct (Ho now later plan Hnow Hlt Hal Hkeep) as (plan' & o' & root & st & E1 & E2 & Hrun).
  exists plan', o', root, st. split_and!; [done|done|]. intros Hsh. destruct (Hrun Hsh) as (d & n & b & ? & ? & _). eauto.
Qed.

(** C5: a query with filters comes to its end.  However the events of the
    pipelines interleave, they take a bounded number of steps, and when no more
    step can be taken all events are finished and as many pipelines are
    completed as [Executor::ExecuteTask] waits for. *)
Theorem optimized_queries_come_to_their_end rank plan0 mark next :
  plan_wf rank plan0 → distinct_comparisons (plan_joins plan0 mark) →
  ∃ o, PreOptimize plan0 mark next = Ret o ∧ ∀ now later plan, plan_now now plan o.(dag_manager) → (∀ a, a ∈ addresses plan → a < next) →
    joined_alike o.(dag_manager).(nodes_manager) (plan_joins plan0 mark) plan → keeps_plannable later →
    ∃ plan' o' root st, Optimize now plan o = Ret (plan', o') ∧ PlanQuery (later plan') = Ret (root, st) ∧
      (shaped st.(plans) = true → ∃ d n b, prepare_query now later plan o = Ret (st.(plans), (d, n, b)) ∧ comes_to_end st.(plans) d n b).
Proof.
  intros Hwf Hdist. destruct (optimized_query rank plan0 mark next Hwf Hdist) as (o & E & Ho). exists o. split; [done|].
  intros now later plan Hnow Hlt Hal Hkeep. destruct (Ho now later plan Hnow Hlt Hal Hkeep) as (plan' & o' & root & st & E1 & E2 & Hrun).
  exists plan', o', root, st. split_and!; [done|done|]. intros Hsh. destruct (Hrun Hsh) as (d & n & b & ? & _ & ?). eauto.
Qed.
End Query.

(** ** Cancelling *)

(** [GetPipelines], recursive. *)
Fixpoint GetPipelines (fuel : nat) (b : build) (m : nat) : outcome (list nat) :=
  match fuel with
  | O => NoFuel
  | S fuel =>
      let* mp := deref (b.(metas) !! m) in
      let* rest := ofold (λ l c, let* r := GetPipelines fuel b c in Ret (l ++ r)) mp.(mp_children) [] in
      Ret (mp.(mp_pipelines) ++ rest)
  end.

(** Whether a pipeline lives when the executor has let go of it: a
    [PhysicalCreateBF] of the plan holds on to the pipeline it has built. *)
Definition held (b : build) (i : nat) : bool := existsb (λ cp, (cp.2 =? i)%nat) (map_to_list b.(this_pipeline)).

(** [while (true) { if (!weak_ref.lock()) break; }] *)
Fixpoint wait_destroyed (fuel : nat) (alive : bool) : outcome unit :=
  match fuel with O => NoFuel | S fuel => if alive then wait_destroyed fuel alive else Ret tt end.

(** [Executor::CancelTasks] on the pipelines of the executor. *)
Definition CancelTasks (fuel : nat) (b : build) (pipelines : list nat) : outcome unit :=
  ofold (λ _ i, wait_destroyed fuel (held b i)) pipelines tt.

Lemma wait_held fuel : wait_destroyed fuel true = NoFuel.
Proof. by induction fuel. Qed.

Lemma CancelTasks_held fuel b l j : j ∈ l → held b j = true → CancelTasks fuel b l = NoFuel.
Proof.
  intros Hj Hh. unfold CancelTasks. induction l as [|i l IH]; [by apply elem_of_nil in Hj|]. simpl.
  destruct (held b i) eqn:Ei; [by rewrite wait_held|]. apply elem_of_cons in Hj as [->|Hj]; [congruence|].
  destruct fuel; [done|]. simpl. by apply IH.
Qed.

Lemma this_held b c j : b.(this_pipeline) !! c = Some j → held b j = true.
Proof.
  intros Hc. apply existsb_exists. exists (c, j). split; [by apply list_elem_of_In, elem_of_map_to_list|]. simpl. apply Nat.eqb_refl.
Qed.

(** All pipelines are found. *)
Lemma GetPipelines_metas fuel b m l :
  GetMetaPipelines fuel b m false = Ret l → GetPipelines fuel b m = Ret (concat ((λ m, default [] (mp_pipelines <$> b.(metas) !! m)) <$> l)).
Proof.
  revert m l. induction fuel as [|fuel IH]; intros m l; [done|]. simpl. destruct (b.(metas) !! m) as [mp|] eqn:Hm; [|done]. simpl.
  set (f := λ m, default [] (mp_pipelines <$> b.(metas) !! m)).
  assert (∀ cs acc acc' rest, ofold (λ l c, let* r := GetMetaPipelines fuel b c false in Ret (l ++ r)) cs acc = Ret rest → acc' = concat (f <$> acc) →
    ofold (λ l c, let* r := GetPipelines fuel b c in Ret (l ++ r)) cs acc' = Ret (concat (f <$> rest))) as Hfold.
  { induction cs as [|c cs IHcs]; intros acc acc' rest E ->; simpl in *; [by simplify_eq|].
    destruct (GetMetaPipelines fuel b c false) as [r| | |] eqn:Er; try done. simpl in E. rewrite (IH c r Er). simpl.
    apply (IHcs (acc ++ r)); [done|]. by rewrite fmap_app, concat_app. }
  destruct (ofold _ mp.(mp_children) []) as [rest| | |] eqn:Er; try done. simpl. intros [= <-].
  rewrite (Hfold mp.(mp_children) [] [] rest Er eq_refl). simpl. unfold f at 2. by rewrite Hm.
Qed.

Lemma all_pipelines w top b fuel :
  wf w top b → (0 < length b.(metas) < fuel)%nat → ∃ l, GetPipelines fuel b 0 = Ret l ∧ ∀ i, (i < length b.(pipes))%nat → i ∈ l.
Proof.
  intros Hw Hf. destruct (GetMetaPipelines_ok w top b Hw fuel Hf) as (l & El & Hl).
  assert (GetMetaPipelines fuel b 0 false = Ret (0%nat :: l)) as El'.
  { destruct fuel; [lia|]. simpl in *. destruct (b.(metas) !! 0%nat); [|done]. simpl in *. destruct (ofold _ _ _) as [r| | |]; try done. simpl in *. by simplify_eq. }
  eexists. split; [by apply GetPipelines_metas|]. intros i Hi. destruct (pipe_owner w top b i Hw Hi) as (m & mp & Hm & Him).
  apply list_elem_of_In, in_concat. exists mp.(mp_pipelines). split; [|by apply list_elem_of_In]. apply list_elem_of_In, list_elem_of_fmap.
  exists m. rewrite Hm. split; [done|]. pose proof (lookup_lt_Some _ _ _ Hm). destruct m as [|m]; [left|right]. rewrite Hl. apply elem_of_seq. lia.
Qed.

(** C26: a query with filters cannot be cancelled.  [CancelTasks] waits until all
    pipelines are destroyed, but the [PhysicalCreateBF]s a [PhysicalUseBF]
    depends on hold on to the pipelines that fill their filters: with any
    amount of waiting it does not return. *)
Theorem cancelling_does_not_return `{OtherPlansOk} `{PhysicalOps} rank plan root st :
  plannable rank plan → PlanQuery plan = Ret (root, st) → shaped st.(plans) = true →
  ∃ b l, build_plan st.(plans) root no_pipelines = Ret (0%nat, b) ∧ GetPipelines (S (length b.(metas))) b 0 = Ret l ∧
    ∀ i p u q fs related c fuel, b.(pipes) !! i = Some p → u ∈ p.(operators) → st.(plans) !! u = Some q → q.(pkind) = PUseBF fs related → c ∈ related →
      CancelTasks fuel b l = NoFuel.
Proof.
  intros Hpl Hq Hsh. destruct (plan_built rank plan root st Hpl Hq Hsh) as (w & top & b & _ & E & Hw & Hm & Hall).
  destruct (all_pipelines w top b (S (length b.(metas))) Hw) as (l & El & Hl); [lia|]. exists b, l. split_and!; [done|done|].
  intros i p u q fs related c fuel Hp Hu Hq' Hk Hc. destruct (Hall i) as [Hsv _]; [by eapply lookup_lt_Some|].
  destruct (Hsv p u Hp Hu q fs related c Hq' Hk Hc) as (j & qj & k & Hj & Hqj & _). apply (CancelTasks_held fuel b l j); [|by eapply this_held].
  apply Hl. by eapply lookup_lt_Some.
Qed.

(** ** A query *)

(** A table is scanned and projected, a join is a hash join, and for other
    operators, which change nothing, no operator is made. *)
#[global] Instance sample_other : OtherPlans := λ op cs n,
  match type op with
  | LOGICAL_GET =>
      ([mkPhysical (address op) (POther PhysicalTypes.TABLE_SCAN) []; mkPhysical (address op) (POther PhysicalTypes.PROJECTION) [n]], S n)
  | LOGICAL_COMPARISON_JOIN => ([mkPhysical (address op) (POther PhysicalTypes.HASH_JOIN) cs], n)
  | _ => match cs with [c] => ([], c) | _ => ([mkPhysical (address op) (POther PhysicalTypes.DUMMY_SCAN) []], n) end
  end.

(** Where an operator can be among those that are made. *)
Local Ltac place_in Hi i := destruct i as [|[|i]]; simpl in Hi; try done; injection Hi as <-.

#[global] Instance sample_other_ok : OtherPlansOk.
Proof.
  split; intros op cs n; unfold other_plan, sample_other.
  - intros i p Hi. destruct (type op); destruct cs as [|c [|]]; simpl in Hi; try done; place_in Hi i; eauto.
  - intros i p c Hi Hc. destruct (type op); destruct cs as [|c' [|]]; simpl in Hi; try done; place_in Hi i; simpl in Hc; try (by left); set_solver by lia.
  - destruct (type op); destruct cs as [|c' [|]]; simpl; first [by left; left|right; simpl; lia].
Qed.

#[global] Instance sample_ops : PhysicalOps := {|
  IsSink p := false;
  IsSource p := match p.(pkind) with POther PhysicalTypes.HASH_JOIN => true | _ => false end;
  BuildOwn p _ _ _ _ := Throw "Not supported"
|}.

#[global] Instance sample_events : SinkEvents := λ _, 1%nat.

(** No node is below another. *)
Definition flat_nodes (nm : NodesManager) (plan : LogicalOperator) : bool :=
  bool_decide (map_Forall (λ _ opk, map_Forall (λ _ op, ¬ encloses plan (address opk) (address op)) nm.(nodes)) nm.(nodes)).

Lemma flat_alike nm joins plan : flat_nodes nm plan = true → joined_alike nm joins plan.
Proof.
  intros Hf cb ca opb opa _ Hb Ha k opk Hk. apply bool_decide_eq_true in Hf. specialize (Hf k opk Hk).
  split; intros He; exfalso; [exact (Hf _ opb Hb He)|exact (Hf _ opa Ha He)].
Qed.

(** What is computed about the query: its nodes, and the shape of its physical operators. *)
Definition query_check (o : PredicateTransferOptimizer) : bool :=
  flat_nodes o.(dag_manager).(nodes_manager) sample_plan &&
  match Optimize (λ op, op) sample_plan o with
  | Ret (plan', _) => match PlanQuery plan' with Ret (_, st) => shaped st.(plans) | _ => false end
  | _ => false
  end.

Lemma query_checked o : PreOptimize sample_plan true 100 = Ret o → query_check o = true.
Proof.
  intros E. assert (match PreOptimize sample_plan true 100 with Ret o => query_check o | _ => false end = true) as Hb by (vm_compute; reflexivity).
  rewrite E in Hb. exact Hb.
Qed.

Lemma sample_alike o : PreOptimize sample_plan true 100 = Ret o → joined_alike o.(dag_manager).(nodes_manager) (plan_joins sample_plan true) sample_plan.
Proof. intros E. pose proof (query_checked o E) as Hc. apply andb_true_iff in Hc as [Hf _]. by apply flat_alike. Qed.

Lemma sample_fresh a : a ∈ addresses sample_plan → a < 100.
Proof. assert (Forall (λ a, a < 100) (addresses sample_plan)) as Hf by (apply (bool_decide_unpack _); vm_compute; exact I). rewrite Forall_forall in Hf. apply Hf. Qed.

Lemma sample_shaped o plan' o' root st :
  PreOptimize sample_plan true 100 = Ret o → Optimize (λ op, op) sample_plan o = Ret (plan', o') → PlanQuery plan' = Ret (root, st) → shaped st.(plans) = true.
Proof.
  intros E E1 E2. pose proof (query_checked o E) as Hc. unfold query_check in Hc. rewrite E1, E2 in Hc. by apply andb_true_iff in Hc as [_ Hc].
Qed.

Definition sample_result : LogicalOperator := match Optimize (λ op, op) sample_plan sample_optimizer with Ret (plan', _) => plan' | _ => sample_plan end.

Definition sample_planned : nat * planner := match PlanQuery sample_result with Ret r => r | _ => (0%nat, new_planner) end.

Lemma sample_result_plannable : ∃ rank', plannable rank' sample_result.
Proof.
  destruct (optimized_plannable sample_rank sample_plan true 100 sample_plan_wf sample_distinct) as (o & E & Ho).
  destruct (Ho _ _ (sample_now o E) sample_fresh (sample_alike o E)) as (plan' & o' & rank' & E' & Hpl). exists rank'.
  unfold sample_result, sample_optimizer. rewrite E, E'. exact Hpl.
Qed.

Lemma optimized_plans_are_plannable_witness :
  ∃ o, PreOptimize sample_plan true 100 = Ret o ∧ ∃ plan' o' rank', Optimize (λ op, op) sample_plan o = Ret (plan', o') ∧ plannable rank' plan'.
Proof.
  destruct (optimized_plans_are_plannable sample_rank sample_plan true 100 sample_plan_wf sample_distinct) as (o & E & Ho).
  exists o. split; [exact E|]. exact (Ho _ _ (sample_now o E) sample_fresh (sample_alike o E)).
Defined.

Lemma every_operator_is_planned_once_witness :
  sample_planned.2.(planned) = [(10, 1%nat); (100, 2%nat); (11, 4%nat); (101, 5%nat); (102, 6%nat); (12, 8%nat);
    (103, 9%nat); (104, 10%nat); (105, 11%nat); (14, 12%nat); (13, 10%nat); (15, 13%nat)] ∧
  ∃ root st, PlanQuery sample_result = Ret (root, st) ∧ (address sample_result, root) ∈ st.(planned) ∧ st.(planned).*1 ≡ₚ addresses sample_result ∧
    (∀ a id, (a, id) ∈ st.(planned) → made_right sample_result st a id) ∧
    ∀ id p, st.(plans) !! id = Some p → (∃ t, p.(pkind) = POther t) ∨ made_for_filter sample_result st id p.
Proof.
  split; [vm_compute; reflexivity|]. destruct sample_result_plannable as [rank' Hpl]. exact (every_operator_is_planned_once rank' sample_result Hpl).
Defined.

Lemma sample_PlanQuery : PlanQuery sample_result = Ret sample_planned.
Proof. vm_compute. reflexivity. Qed.

Lemma sample_planned_shaped : shaped sample_planned.2.(plans) = true.
Proof. vm_compute. reflexivity. Qed.

Lemma pipelines_wait_for_filters_witness :
  ∃ b, build_plan sample_planned.2.(plans) sample_planned.1 no_pipelines = Ret (0%nat, b) ∧
    (∀ i, (i < length b.(pipes))%nat → served sample_planned.2.(plans) b i ∧ has_source b i) ∧ ∀ i, ¬ tc (depends b) i i.
Proof.
  destruct sample_result_plannable as [rank' Hpl].
  exact (pipelines_wait_for_filters rank' sample_result sample_planned.1 sample_planned.2 Hpl (eq_trans sample_PlanQuery (f_equal Ret (surjective_pairing _))) sample_planned_shaped).
Defined.

Lemma id_keeps_plannable : keeps_plannable id.
Proof. intros rank plan Hpl. by exists rank. Qed.

Lemma optimized_queries_use_filled_filters_witness :
  ∃ o, PreOptimize sample_plan true 100 = Ret o ∧ ∃ plan' o' root st, Optimize (λ op, op) sample_plan o = Ret (plan', o') ∧ PlanQuery plan' = Ret (root, st) ∧
    ∃ d n b, prepare_query (λ op, op) id sample_plan o = Ret (st.(plans), (d, n, b)) ∧ filters_filled st.(plans) d n b.
Proof.
  destruct (optimized_queries_use_filled_filters sample_rank sample_plan true 100 sample_plan_wf sample_distinct) as (o & E & Ho).
  exists o. split; [exact E|]. destruct (Ho _ id _ (sample_now o E) sample_fresh (sample_alike o E) id_keeps_plannable) as (plan' & o' & root & st & E1 & E2 & Hrun).
  exists plan', o', root, st. split; [exact E1|]. split; [exact E2|]. exact (Hrun (sample_shaped o plan' o' root st E E1 E2)).
Defined.

Lemma optimized_queries_come_to_their_end_witness :
  ∃ o, PreOptimize sample_plan true 100 = Ret o ∧ ∃ plan' o' root st, Optimize (λ op, op) sample_plan o = Ret (plan', o') ∧ PlanQuery plan' = Ret (root, st) ∧
    ∃ d n b, prepare_query (λ op, op) id sample_plan o = Ret (st.(plans), (d, n, b)) ∧ comes_to_end st.(plans) d n b.
Proof.
  destruct (optimized_queries_come_to_their_end sample_rank sample_plan true 100 sample_plan_wf sample_distinct) as (o & E & Ho).
  exists o. split; [exact E|]. destruct (Ho _ id _ (sample_now o E) sample_fresh (sample_alike o E) id_keeps_plannable) as (plan' & o' & root & st & E1 & E2 & Hrun).
  exists plan', o', root, st. split; [exact E1|]. split; [exact E2|]. exact (Hrun (sample_shaped o plan' o' root st E E1 E2)).
Defined.

(** The query is cancelled: the pipelines of its three [PhysicalCreateBF]s are held. *)
Lemma cancelling_does_not_return_witness :
  ∃ b l, build_plan sample_planned.2.(plans) sample_planned.1 no_pipelines = Ret (0%nat, b) ∧ GetPipelines (S (length b.(metas))) b 0 = Ret l ∧ ∀ fuel, CancelTasks fuel b l = NoFuel.
Proof.
  destruct sample_result_plannable as [rank' Hpl].
  destruct (cancelling_does_not_return rank' sample_result sample_planned.1 sample_planned.2 Hpl (eq_trans sample_PlanQuery (f_equal Ret (surjective_pairing _))) sample_planned_shaped)
    as (b & l & E & El & Hc). exists b, l. split; [exact E|]. split; [exact El|]. intros fuel.
  assert (match build_plan sample_planned.2.(plans) sample_planned.1 no_pipelines with
    | Ret (_, b) => match b.(pipes) !! 2%nat with Some p => p.(operators) = [9%nat; 8%nat] | None => False end | _ => False end) as Hp by (vm_compute; reflexivity).
  rewrite E in Hp. destruct (b.(pipes) !! 2%nat) as [p|] eqn:Ep; [|destruct Hp].
  apply (Hc 2%nat p 9%nat (mkPhysical 103 (PUseBF [1%nat] [6%nat]) [8%nat]) [1%nat] [6%nat] 6%nat fuel Ep).
  - rewrite Hp. left.
  - vm_compute. reflexivity.
  - reflexivity.
  - left.
Defined.

(** ** Executing again *)

(** A physical plan with filters cannot be executed twice.  The field
    [this_pipeline] of a [PhysicalCreateBF] is set when its pipeline is built
    and never reset, so that the second execution builds no pipeline for it,
    waits for the one of the first execution instead, and looks up its events,
    which are not there. *)
Example executing_again_is_undefined :
  ∃ d n b, InitializeInternal sample_planned.2.(plans) sample_planned.1 no_pipelines = Ret (d, n, b) ∧
    InitializeInternal sample_planned.2.(plans) sample_planned.1 b = Undef ∧
    ∃ r, InitializeInternal sample_planned.2.(plans) sample_planned.1 (mkBuild b.(pipes) b.(metas) ∅) = Ret r.
Proof. eexists _, _, _. split; [vm_compute; reflexivity|]. split; [vm_compute; reflexivity|]. eexists. vm_compute. reflexivity. Qed.
